(* ===== verification/_CoqProject ===== *)
-Q . S2P
Prelude.v
Ranges.v
BlockRange.v
Segments.v
Decimal.v
EndBlock.v
Partition.v
RawWriter.v
Text.v
MemoryPool.v
Providers.v
SegmentSize.v
Compaction.v
FileStore.v
TableRevisions.v
Plan.v
Incrementalize.v
PlanVisitors.v
BlockComplete.v
StreamingQuery.v
BTree.v
Dependencies.v
Names.v
SqlReferences.v
DerivedDatasets.v
DatasetStore.v
Registry.v
Jobs.v
Scheduler.v
Worker.v
DumpTasks.v
DerivedDump.v
Client.v
Flight.v
DerivedTable.v
Transactional.v
Cdc.v
ClientStores.v
PgTypes.v
PgCopy.v
JsFunctions.v
EvmTables.v
EvmValues.v
EvmFunctions.v
EthCall.v
EvmRpc.v
SolanaTables.v
SolanaRows.v
SolanaStream.v
Firehose.v
Pinax.v
PgFormat.v
PgCopyCorrect.v
Ampsync.v
AmpsyncCorrect.v
AmpsyncTask.v
