(* ===== verification/Prelude.v ===== *)
(** * Verification of amp

    Amp extracts blocks of blockchains into tables of Parquet files, transforms
    them with SQL and serves them, in batches and as streams that follow the
    reorganisations of the chain. This library models the Rust crates of that
    program: everything is translated by hand from the files under src/crates
    that the opening comment of each file names, and everything is executable.

    ** The program and the files that model it

    - Data. A table is a set of files, each with the range of blocks it covers
      and the hashes at its ends. [BlockRange] and [Ranges] have the data and the
      arithmetic of ranges, [Segments] the choice of the canonical chain among
      the files, of the fork a reorganisation leaves, of the ranges still missing
      and of the files that may be deleted (core/common/src/metadata).
    - Sources of blocks. [EvmTables] has the tables of Ethereum and the class of
      rows and builders ([TableRows]) that rows are collected with; [EvmRpc],
      [Firehose] and [Pinax] are the extractors of JSON-RPC nodes, Firehose
      endpoints and Parquet files on an object store; [SolanaTables], [SolanaRows]
      and [SolanaStream] those of Solana, from archives of epochs and a node
      (core/common/src/evm/tables, extractors). [Providers] has the
      configurations that choose among the endpoints
      (core/dataset-store/src/providers.rs, env_substitute.rs).
    - Extraction. [EndBlock] resolves where a dump ends, [Partition] splits the
      missing ranges over the writers and iterates the rounds of a dump,
      [RawWriter] checks the rows, retries the stream of blocks and cuts it into
      files (core/dump/src/block_ranges.rs, raw_dataset.rs,
      raw_dataset_writer.rs). [DumpTasks] has the set of background tasks,
      [DerivedDump] the loop that writes a file per microbatch of a derived table
      with its commits and the consistency check, [DerivedTable] that loop over
      the query it dumps (core/dump/src/tasks.rs, parquet_writer.rs,
      derived_dataset.rs, check.rs).
    - Maintenance. [SegmentSize] has the sizes and the ratios that bound a file,
      [Compaction] the grouping of small files, [FileStore] the registration of
      files, the commit of a compacted file and the garbage collector
      (core/dump/src/compaction, core/metadata-db/src/files.rs and lib.rs,
      core/common/src/catalog/physical.rs). [TableRevisions] has the revisions of
      a table, of which one is active (core/metadata-db/src/physical_table).
    - Queries. [Plan] gives logical plans a semantics; [Incrementalize] and
      [PlanVisitors] rewrite a query for one microbatch and propagate block
      numbers; [StreamingQuery] is the loop that chooses the microbatches,
      [BlockComplete] the adapter of its messages, [Flight] their encoding for
      the wire (core/common/src/incrementalizer.rs, plan_visitors.rs,
      core/dump/src/streaming_query, services/server/src/flight.rs).
      [MemoryPool] has the memory accounting of queries that run at the same time
      (core/common/src/memory_pool.rs).
    - Functions in queries. [EvmValues] converts Solidity values to Arrow and
      back, [EvmFunctions] has the functions on logs and parameters, [EthCall]
      the calls to a node (core/common/src/evm/udfs.rs and udfs); [JsFunctions]
      the functions written in JavaScript, from the conversion of values to the
      pool of isolates (core/js-runtime, core/common/src/js_udf.rs).
    - Client. [Client] validates a response and derives the protocol messages,
      [Transactional] persists the progress of a consumer through crashes, [Cdc]
      forwards changes (client/src). [ClientStores] shows that the stores in
      PostgreSQL and LMDB keep the contract ([StateStore]) that [Transactional]
      is proved against. The responses of [Flight] are shown to be what [Client]
      accepts, the streams of [StreamingQuery] what [Flight] is given.
    - Datasets. [Names] has identifiers and references, [SqlReferences] the
      references of a SQL statement, [Dependencies] (over the ordered maps of
      [BTree]) the order of tables and datasets, [DerivedDatasets] the manifests
      of derived datasets, their validation and the catalogs of their queries,
      [DatasetStore] a dataset with its dependencies, [Registry] the manifests,
      links and version tags of the metadata database with the operations of the
      dataset store and two handlers (core/datasets-common, core/datasets-derived,
      core/common/src/sql.rs and utils.rs, core/dataset-store/src/lib.rs,
      core/metadata-db/src/datasets and manifests, services/admin-api).
    - Jobs. [Jobs] has the job tables and their statements, [Scheduler] the
      controller, [Worker] a worker node and the system of all of them
      (core/metadata-db/src/jobs, services/controller, services/worker).
    - Synchronisation to PostgreSQL. [PgTypes] and [PgCopy] encode record batches
      in the binary COPY format, [PgFormat] is what PostgreSQL reads and
      [PgCopyCorrect] compares the two; [Ampsync] inserts and deletes rows with
      retries, [AmpsyncCorrect] and [AmpsyncTask] show that the table follows the
      consumer of [Transactional] (arrow-to-postgres/src, bin/ampsync/src).
    - [Decimal] and [Text] have the number and string functions of the standard
      library, this file the integers, results and monads.

    ** How the code is represented

    A 64-bit integer is a [Z] and its operations wrap as the release profile
    does. A fallible function returns [comp E A]: a value, an error, a panic, or
    no fuel left; a stateful one is an [stm S E A], which also passes the state.
    SQL statements are functions on the rows of their tables and a transaction
    that fails restores them. Concurrency is the interleaving of steps: an
    inductive relation on the shared state, each step a call or a statement, with
    failures wherever the code may fail or crash. Code that is not in the
    repository (DataFusion, Arrow sizes, RPC answers, semantic versions, Unicode
    tables, ABI decoding, V8, the parsers of archives, Parquet and TOML, object
    stores that refuse a deletion) is an argument or a class, and
    the hypotheses on it are named classes or sections' contexts with an instance
    used by the witnesses.

    Fuel. The loops that are not structural carry fuel: the chains of segments,
    the partition and the limiting of ranges, the retries of the block stream,
    the greatest common divisor of a ratio, the groups of compaction and the
    messages of the adapters, the attempts of requests, the walk to the base of a reorganisation and the
    depth-first search. The fuel given is a function of the input (the number of
    segments, ranges, files, items, nodes or attempts, the blocks down to the
    start of the table; 130 divisions for two u64) and the theorems show it is
    enough, so that [OutOfFuel] is not among the results.

    ** What the theorems show

    - Functional correctness against a specification: the rows of a block of each
      extractor, the canonical chain, forks and missing ranges, the partition of a dump, the written files, the groups
      of compaction, the choice of the next microbatch, the two sorts.
    - Refinement: the microbatches of a query together yield what the query
      yields; the run of a writer is the cutting of the blocks in order; the
      response of the server is accepted by the client; the dump of a derived table
      and its recovery write the batches of its query; the archives and the node
      together deliver every slot; the table of ampsync is that of an abstract
      consumer, whichever store it uses.
    - Invariants over every reachable state: job life cycles, one running task
      per job, files referenced by a table are never deleted, exactly-once
      delivery across crashes, the latest version of a dataset, the one active
      revision of a table, the memory that pools account for, the isolation of
      JavaScript functions.
    - Round trips and errors: batches in the COPY format, Solidity and JavaScript
      values, rows of tables by the names of their columns, references and
      identifiers, end blocks, version tags, the deletion of manifests.
    - Equivalence: a range of Parquet files found by binary search against all of
      them, batched requests against single ones, a cache of configurations
      against the store.
    - Bounds, termination and delivery: integers of the source that do not fit
      their column, sizes of compacted files, the end of the walk to the base of a
      reorganisation, the end of retries, streams that deliver every block when
      the endpoint recovers.

    Some theorems record where the code departs from its documentation; the
    lemmas with such examples stay beside the definitions they are about.

    ** What is not modelled

    I/O and its processes (listeners, HTTP and gRPC clients, object stores,
    configuration, authentication, metrics, the command line), generated code,
    and the wrappers around DataFusion sessions, Parquet and the PostgreSQL
    protocol: they hold no decision of the program that is not in the libraries
    they call. The beacon-chain extractor, whose tables and stream have the shape
    of those of [EvmRpc], and the handlers of the admin API other than those of
    [Registry] and [Scheduler], which forward to the operations modelled here, are
    left out as well. Floats are their bits, and time is not measured: a delay is
    no step, a timeout an answer. *)

From stdpp Require Import base numbers list gmap strings option sorting.
From Stdlib Require Import ZArith Lia.

#[global] Open Scope Z_scope.

(** ** Machine integers

    The release profile of the workspace leaves overflow checks off, so [+],
    [-] and [*] on [u64] wrap around. *)

Definition u64_modulus : Z := 18446744073709551616.
Definition u64_max : Z := 18446744073709551615.
Definition i64_max : Z := 9223372036854775807.
Definition i64_min : Z := -9223372036854775808.

Definition wrap64 (z : Z) : Z := z `mod` u64_modulus.
Definition add64 (a b : Z) : Z := wrap64 (a + b).
Definition sub64 (a b : Z) : Z := wrap64 (a - b).
Definition mul64 (a b : Z) : Z := wrap64 (a * b).
Definition saturating_sub64 (a b : Z) : Z := Z.max 0 (a - b).
Definition saturating_add64 (a b : Z) : Z := Z.min u64_max (a + b).

(** [x as i64] for an [x : u64] or a wider sum: two's complement. *)
Definition to_i64 (z : Z) : Z :=
  let w := wrap64 z in if w <=? i64_max then w else w - u64_modulus.

Definition is_u64 (z : Z) : Prop := 0 <= z <= u64_max.
Definition is_i64 (z : Z) : Prop := i64_min <= z <= i64_max.

(** ** Outcomes

    A Rust call returns a value, returns an error, panics, or (for a loop
    modelled with fuel) has not finished. *)

Inductive comp (E A : Type) : Type :=
  | Ok (a : A)
  | Err (e : E)
  | Panic
  | OutOfFuel.
Arguments Ok {E A} a.
Arguments Err {E A} e.
Arguments Panic {E A}.
Arguments OutOfFuel {E A}.

#[global] Instance comp_ret E : MRet (comp E) := λ A a, Ok a.
#[global] Instance comp_bind E : MBind (comp E) := λ A B f m,
  match m with
  | Ok a => f a
  | Err e => Err e
  | Panic => Panic
  | OutOfFuel => OutOfFuel
  end.
#[global] Instance comp_fmap E : FMap (comp E) := λ A B f m,
  match m with
  | Ok a => Ok (f a)
  | Err e => Err e
  | Panic => Panic
  | OutOfFuel => OutOfFuel
  end.

(** A computation that cannot return an error: it may only panic. *)
Abbreviation total := (comp Empty_set).

Lemma bind_Ok {E A B} (m : comp E A) (f : A → comp E B) b : m ≫= f = Ok b ↔ ∃ a, m = Ok a /\ f a = Ok b.
Proof. destruct m as [a|e| |]; cbn; naive_solver. Qed.

Lemma bind_Ok_iff {E A B} (m : comp E A) (f : A → comp E B) :
  (∃ b, m ≫= f = Ok b) ↔ ∃ a, m = Ok a /\ ∃ b, f a = Ok b.
Proof.
  destruct m as [a|e| |]; cbn; [|naive_solver..]. split; [intros [b Hb]; eauto|].
  intros (a' & [= <-] & ?). done.
Qed.

(** [opt.unwrap()] *)
Definition unwrap {E A} (o : option A) : comp E A :=
  match o with Some a => Ok a | None => Panic end.

(** [opt.ok_or(e)] *)
Definition ok_or {E A} (o : option A) (e : E) : comp E A :=
  match o with Some a => Ok a | None => Err e end.

(** [assert!(b)] *)
Definition assert {E} (b : bool) : comp E unit := if b then Ok tt else Panic.

(** [res.map_err(f)], and a computation without errors among those that have. *)
Definition comp_map_err {E E' A} (f : E → E') (m : comp E A) : comp E' A :=
  match m with Ok a => Ok a | Err e => Err (f e) | Panic => Panic | OutOfFuel => OutOfFuel end.

Definition of_total {E A} (m : total A) : comp E A := comp_map_err (λ e : Empty_set, match e with end) m.

(** A computation with a state that is kept whatever the outcome: what a
    failing handler did before its error stays done. *)
Definition stm (S E A : Type) : Type := S → comp E A * S.

#[global] Instance stm_ret S E : MRet (stm S E) := λ A a s, (Ok a, s).
#[global] Instance stm_bind S E : MBind (stm S E) := λ A B f m s,
  match m s with
  | (Ok a, s') => f a s'
  | (Err e, s') => (Err e, s')
  | (Panic, s') => (Panic, s')
  | (OutOfFuel, s') => (OutOfFuel, s')
  end.

Definition throw {S E A} (e : E) : stm S E A := λ s, (Err e, s).
Definition gets {S E A} (f : S → A) : stm S E A := λ s, (Ok (f s), s).
Definition modify {S E} (f : S → S) : stm S E unit := λ s, (Ok tt, f s).

(** [res.map_err(f)] *)
Definition map_err {S E E' A} (f : E → E') (m : stm S E A) : stm S E' A := λ s,
  match m s with
  | (Ok a, s') => (Ok a, s')
  | (Err e, s') => (Err (f e), s')
  | (Panic, s') => (Panic, s')
  | (OutOfFuel, s') => (OutOfFuel, s')
  end.

(** [for x in l { f(x)?; }] *)
Fixpoint for_each {S E A} (f : A → stm S E unit) (l : list A) : stm S E unit :=
  match l with
  | [] => mret tt
  | x :: l' => _ ← f x; for_each f l'
  end.

(** What holds of the outcome and of the state after a computation. *)
Definition wp {S E A} (m : stm S E A) (Q : comp E A → S → Prop) (s : S) : Prop :=
  Q (m s).1 (m s).2.

Lemma wp_ret {S E A} (a : A) (Q : comp E A → S → Prop) s : Q (Ok a) s → wp (mret a) Q s.
Proof. done. Qed.

Lemma wp_gets {S E A} (f : S → A) (Q : comp E A → S → Prop) s : Q (Ok (f s)) s → wp (gets f) Q s.
Proof. done. Qed.

Lemma wp_bind {S E A B} (m : stm S E A) (f : A → stm S E B) (Q : comp E B → S → Prop) s :
  wp m (λ r s', match r with
                | Ok a => wp (f a) Q s'
                | Err e => Q (Err e) s'
                | Panic => Q Panic s'
                | OutOfFuel => Q OutOfFuel s'
                end) s →
  wp (m ≫= f) Q s.
Proof. unfold wp, mbind, stm_bind. by destruct (m s) as [[a|e| |] s']. Qed.

Lemma wp_mono {S E A} (m : stm S E A) (Q Q' : comp E A → S → Prop) s :
  wp m Q s → (∀ r s', Q r s' → Q' r s') → wp m Q' s.
Proof. unfold wp. auto. Qed.

(** What an operation keeps, however it ends. *)
Definition keeps {S E A} (P : S → Prop) (m : stm S E A) : Prop := ∀ s, P s → P (m s).2.

Section Keeps.
Context {S : Type} (P : S → Prop).

Lemma keeps_bind {E A B} (m : stm S E A) (f : A → stm S E B) :
  keeps P m → (∀ a, keeps P (f a)) → keeps P (m ≫= f).
Proof.
  intros Hm Hf s Hs. specialize (Hm s Hs). unfold mbind, stm_bind.
  destruct (m s) as [[a|e| |] s']; cbn in *; [by apply Hf|done..].
Qed.

Lemma keeps_map_err {E E' A} (f : E → E') (m : stm S E A) : keeps P m → keeps P (map_err f m).
Proof. intros Hm s Hs. specialize (Hm s Hs). unfold map_err. by destruct (m s) as [[a|e| |] s']. Qed.

Lemma keeps_ret {E A} (a : A) : keeps (E := E) P (mret a).
Proof. by intros s Hs. Qed.

Lemma keeps_gets {E A} (f : S → A) : keeps (E := E) P (gets f).
Proof. by intros s Hs. Qed.

Lemma keeps_throw {E A} (e : E) : keeps (A := A) P (throw e).
Proof. by intros s Hs. Qed.

Lemma keeps_modify {E} (f : S → S) : (∀ s, P s → P (f s)) → keeps (E := E) P (modify f).
Proof. intros Hf s Hs. by apply Hf. Qed.
End Keeps.

(** ** Inclusive ranges of block numbers

    [RangeInclusive<BlockNum>], with its two ends. *)

Record RangeInclusive := mkRange { range_start : Z; range_end : Z }.

#[global] Instance RangeInclusive_eq_dec : EqDecision RangeInclusive.
Proof. solve_decision. Defined.

Definition range_contains (r : RangeInclusive) (n : Z) : bool :=
  (range_start r <=? n) && (n <=? range_end r).

(** The set of blocks of a list of ranges. *)
Definition in_ranges (n : Z) (rs : list RangeInclusive) : Prop :=
  Exists (λ r, range_start r <= n <= range_end r) rs.

Definition range_nonempty (r : RangeInclusive) : Prop :=
  range_start r <= range_end r.

(** A range of block numbers whose end has a successor in [u64]. *)
Definition range_wf (r : RangeInclusive) : Prop :=
  0 <= range_start r /\ range_start r <= range_end r /\ range_end r < u64_max.

(** ** Sorting by a key *)

Section SortByKey.
Context {A : Type} (key : A → Z).

Fixpoint insert_by (x : A) (l : list A) : list A :=
  match l with
  | [] => [x]
  | y :: l' => if key x <=? key y then x :: y :: l' else y :: insert_by x l'
  end.

(** [slice::sort_by_key]: a stable sort by increasing key. *)
Fixpoint sort_by_key (l : list A) : list A :=
  match l with
  | [] => []
  | x :: l' => insert_by x (sort_by_key l')
  end.

Definition key_le (x y : A) : Prop := key x <= key y.
End SortByKey.

(** [slice::sort_unstable_by_key] promises an ordered permutation and leaves
    the order of equal keys open: its clients are proved for every function
    that keeps this promise. *)
Class UnstableSort (A : Type) := {
  unstable_sort : (A → Z) → list A → list A;
  unstable_sort_perm key l : unstable_sort key l ≡ₚ l;
  unstable_sort_sorted key l : StronglySorted (key_le key) (unstable_sort key l)
}.

(** ** Ordered-map helpers

    [BTreeMap] keyed by numbers, as a finite map; [last_key] is
    [last_key_value]'s key. *)

Definition last_key {A} (m : gmap Z A) : option Z :=
  foldr (λ k acc, match acc with None => Some k | Some a => Some (Z.max k a) end)
        None (map_to_list m).*1.

(** [iter().min()] over numbers. *)
Definition list_min (l : list Z) : option Z :=
  foldr (λ k acc, match acc with None => Some k | Some a => Some (Z.min k a) end)
        None l.

(** [iter().max()] over numbers. *)
Definition list_max (l : list Z) : option Z :=
  foldr (λ k acc, match acc with None => Some k | Some a => Some (Z.max k a) end)
        None l.

(** [Vec::remove(index)], for an index in range. *)
Definition remove_at {A} (i : nat) (l : list A) : list A :=
  take i l ++ drop (S i) l.

(** [iter().position(p)] *)
Fixpoint position {A} (p : A → bool) (l : list A) : option nat :=
  match l with
  | [] => None
  | x :: l' => if p x then Some 0%nat else S <$> position p l'
  end.

(** [iter().rposition(p)] *)
Fixpoint rposition {A} (p : A → bool) (l : list A) : option nat :=
  match l with
  | [] => None
  | x :: l' =>
      match rposition p l' with
      | Some i => Some (S i)
      | None => if p x then Some 0%nat else None
      end
  end.

(** Every two consecutive elements are related. *)
Fixpoint windows {A} (R : A → A → Prop) (l : list A) : Prop :=
  match l with
  | x :: (y :: _) as l' => R x y /\ windows R l'
  | _ => True
  end.

(** ** Automation *)

Create HintDb amp discriminated.
Create Rewrite HintDb u64.
Create Rewrite HintDb ranges.

#[export] Hint Resolve keeps_bind keeps_map_err keeps_ret keeps_gets keeps_throw keeps_modify : amp.

(** Case analysis on the guard of the first conditional of the goal or of a
    hypothesis, turning boolean comparisons of numbers into arithmetic. *)
Ltac bool_to_prop :=
  repeat match goal with
  | H : context [?a <=? ?b] |- _ => destruct (Z.leb_spec a b)
  | H : context [?a <? ?b] |- _ => destruct (Z.ltb_spec a b)
  | H : context [?a =? ?b] |- _ => destruct (Z.eqb_spec a b)
  | |- context [?a <=? ?b] => destruct (Z.leb_spec a b)
  | |- context [?a <? ?b] => destruct (Z.ltb_spec a b)
  | |- context [?a =? ?b] => destruct (Z.eqb_spec a b)
  end.

Ltac split_guard :=
  match goal with
  | |- context [if ?b then _ else _] => destruct b eqn:?
  | H : context [if ?b then _ else _] |- _ => destruct b eqn:?
  end.

(** Take apart the binds of a computation known to have returned. *)
Ltac inv_comp :=
  repeat match goal with
  | H : mbind _ ?m = Ok _ |- _ => destruct m eqn:?; cbn in H; try discriminate H
  | H : Ok _ = Ok _ |- _ => injection H as H
  | H : Err _ = Ok _ |- _ => discriminate H
  | H : Panic = Ok _ |- _ => discriminate H
  end.

(** ** Lemmas on machine integers *)

Lemma wrap64_small z : is_u64 z → wrap64 z = z.
Proof. unfold is_u64, wrap64, u64_max, u64_modulus. intros. apply Z.mod_small. lia. Qed.

Lemma wrap64_range z : is_u64 (wrap64 z).
Proof.
  unfold is_u64, wrap64, u64_max, u64_modulus.
  pose proof (Z.mod_pos_bound z 18446744073709551616). lia.
Qed.

Lemma add64_small a b : is_u64 (a + b) → add64 a b = a + b.
Proof. apply wrap64_small. Qed.

Lemma sub64_small a b : is_u64 (a - b) → sub64 a b = a - b.
Proof. apply wrap64_small. Qed.

Lemma mul64_small a b : is_u64 (a * b) → mul64 a b = a * b.
Proof. apply wrap64_small. Qed.

Lemma wrap64_neg z : - u64_modulus <= z < 0 → wrap64 z = z + u64_modulus.
Proof.
  unfold wrap64, u64_modulus. intros. rewrite <- (Z.mod_add z 1) by done. apply Z.mod_small. lia.
Qed.

Lemma wrap64_idem z : wrap64 (wrap64 z) = wrap64 z.
Proof. apply wrap64_small, wrap64_range. Qed.

(** A value in the range of [i64] is its own cast. *)
Lemma to_i64_exact z : is_i64 z → to_i64 z = z.
Proof.
  unfold to_i64, is_i64, i64_min, i64_max. intros Hz. destruct (Z.leb_spec 0 z).
  - rewrite wrap64_small by (unfold is_u64, u64_max; lia). bool_to_prop; lia.
  - rewrite wrap64_neg by (unfold u64_modulus; lia). unfold u64_modulus. bool_to_prop; lia.
Qed.

(** Casting to [i64] and back keeps the value modulo 2^64. *)
Lemma wrap64_to_i64 z : wrap64 (to_i64 z) = wrap64 z.
Proof.
  unfold to_i64. bool_to_prop; [apply wrap64_idem|].
  pose proof (wrap64_range z) as Hr. unfold is_u64, u64_max in Hr.
  rewrite wrap64_neg by (unfold i64_max, u64_modulus in *; lia). lia.
Qed.

#[export] Hint Rewrite wrap64_small add64_small sub64_small mul64_small using
  (unfold is_u64, u64_max in *; lia) : u64.

(** ** Lemmas on lists *)

Lemma insert_by_perm {A} (key : A → Z) x l : insert_by key x l ≡ₚ x :: l.
Proof.
  induction l as [|y l IH]; simpl; [done|].
  destruct (key x <=? key y); [done|]. rewrite IH. constructor.
Qed.

Lemma sort_by_key_perm {A} (key : A → Z) l : sort_by_key key l ≡ₚ l.
Proof. induction l as [|x l IH]; simpl; [done|]. by rewrite insert_by_perm, IH. Qed.

Lemma insert_by_sorted {A} (key : A → Z) x l :
  StronglySorted (key_le key) l → StronglySorted (key_le key) (insert_by key x l).
Proof.
  induction 1 as [|y l Hs IH Hy]; simpl; [repeat constructor|].
  destruct (Z.leb_spec (key x) (key y)).
  - constructor; [by constructor|]. constructor; [done|].
    eapply Forall_impl; [exact Hy|]. unfold key_le. intros; lia.
  - constructor; [done|]. rewrite insert_by_perm. constructor; [unfold key_le; lia|done].
Qed.

Lemma sort_by_key_sorted {A} (key : A → Z) l : StronglySorted (key_le key) (sort_by_key key l).
Proof. induction l; simpl; [constructor|]. by apply insert_by_sorted. Qed.

#[global] Instance insertion_sort (A : Type) : UnstableSort A := {
  unstable_sort := @sort_by_key A;
  unstable_sort_perm := @sort_by_key_perm A;
  unstable_sort_sorted := @sort_by_key_sorted A
}.

Lemma list_min_None l : list_min l = None ↔ l = [].
Proof. destruct l as [|x l]; simpl; [done|]. destruct (list_min l); naive_solver. Qed.

Lemma list_min_Some l m :
  list_min l = Some m → m ∈ l /\ Forall (λ x, m <= x) l.
Proof.
  revert m. induction l as [|x l IH]; simpl; intros m Hm; [done|].
  unfold list_min in *. simpl in Hm.
  destruct (foldr _ _ l) as [a|] eqn:E; simplify_eq.
  - destruct (IH a eq_refl) as [Hin Hall].
    split; [destruct (Z.min_spec x a) as [[_ ->]|[_ ->]]; set_solver|].
    constructor; [lia|]. eapply Forall_impl; [exact Hall|]. simpl; lia.
  - apply list_min_None in E as ->. split; [set_solver|]. repeat constructor; lia.
Qed.

Lemma list_min_perm l l' : l ≡ₚ l' → list_min l = list_min l'.
Proof.
  intros Hp. destruct (list_min l) as [m|] eqn:E, (list_min l') as [m'|] eqn:E'; [| | |done].
  - apply list_min_Some in E as [Hin Hall]. apply list_min_Some in E' as [Hin' Hall'].
    rewrite Hp in Hin. rewrite <- Hp in Hin'. rewrite Forall_forall in Hall, Hall'.
    apply Hall in Hin'. apply Hall' in Hin. f_equal. lia.
  - apply list_min_None in E' as ->. symmetry in Hp. by apply Permutation_nil in Hp as ->.
  - apply list_min_None in E as ->. by apply Permutation_nil in Hp as ->.
Qed.

Lemma list_max_None l : list_max l = None ↔ l = [].
Proof. destruct l as [|x l]; simpl; [done|]. destruct (list_max l); naive_solver. Qed.

Lemma list_max_Some l m :
  list_max l = Some m → m ∈ l /\ Forall (λ x, x <= m) l.
Proof.
  revert m. induction l as [|x l IH]; simpl; intros m Hm; [done|].
  unfold list_max in *. simpl in Hm.
  destruct (foldr _ _ l) as [a|] eqn:E; simplify_eq.
  - destruct (IH a eq_refl) as [Hin Hall].
    split; [destruct (Z.max_spec x a) as [[_ ->]|[_ ->]]; set_solver|].
    constructor; [lia|]. eapply Forall_impl; [exact Hall|]. simpl; lia.
  - apply list_max_None in E as ->. split; [set_solver|]. repeat constructor; lia.
Qed.

(** A maximum depends on the members of the list only. *)
Lemma list_max_ext l l' : (∀ x, x ∈ l ↔ x ∈ l') → list_max l = list_max l'.
Proof.
  intros Hext. destruct (list_max l) as [m|] eqn:E, (list_max l') as [m'|] eqn:E'; [| | |done].
  - apply list_max_Some in E as [Hin Hall]. apply list_max_Some in E' as [Hin' Hall'].
    apply Hext in Hin. apply Hext in Hin'. rewrite Forall_forall in Hall, Hall'.
    apply Hall in Hin'. apply Hall' in Hin. f_equal. lia.
  - apply list_max_None in E' as ->. apply list_max_Some in E as [Hin _].
    apply Hext in Hin. by apply elem_of_nil in Hin.
  - apply list_max_None in E as ->. apply list_max_Some in E' as [Hin _].
    apply Hext in Hin. by apply elem_of_nil in Hin.
Qed.

Lemma last_key_None {A} (m : gmap Z A) : last_key m = None ↔ m = ∅.
Proof.
  rewrite <- map_to_list_empty_iff. unfold last_key.
  destruct (map_to_list m) as [|[k v] l]; simpl; [done|].
  destruct (foldr _ _ _); naive_solver.
Qed.

Lemma last_key_Some {A} (m : gmap Z A) k :
  last_key m = Some k → is_Some (m !! k) /\ ∀ j, is_Some (m !! j) → j <= k.
Proof.
  unfold last_key. intros Hk.
  assert (k ∈ (map_to_list m).*1 /\ Forall (λ j, j <= k) (map_to_list m).*1) as [Hin Hall].
  { revert k Hk. induction ((map_to_list m).*1) as [|x l IH]; simpl; intros k Hk; [done|].
    destruct (foldr _ _ l) as [a|] eqn:E; simplify_eq.
    - destruct (IH a eq_refl) as [Hin Hall].
      split; [destruct (Z.max_spec x a) as [[_ ->]|[_ ->]]; set_solver|].
      constructor; [lia|]. eapply Forall_impl; [exact Hall|]. simpl; lia.
    - destruct l as [|y l]; simpl in E; [|destruct (foldr _ _ l); done].
      split; [set_solver|]. repeat constructor; lia. }
  split.
  - apply list_elem_of_fmap in Hin as [[j v] [-> Hin]].
    apply elem_of_map_to_list in Hin. by eexists.
  - intros j [v Hv]. rewrite Forall_forall in Hall. apply Hall.
    apply list_elem_of_fmap. exists (j, v). split; [done|]. by apply elem_of_map_to_list.
Qed.

Lemma remove_at_perm {A} (l : list A) i x :
  l !! i = Some x → l ≡ₚ x :: remove_at i l.
Proof. intros H. unfold remove_at. rewrite <- (take_drop_middle l i x H) at 1. by rewrite <- Permutation_middle. Qed.

Lemma rposition_None {A} (p : A → bool) l :
  rposition p l = None ↔ Forall (λ x, p x = false) l.
Proof.
  induction l as [|x l IH]; simpl; [split; [constructor|done]|].
  rewrite Forall_cons, <- IH. destruct (rposition p l), (p x); naive_solver.
Qed.

Lemma rposition_Some {A} (p : A → bool) l i :
  rposition p l = Some i →
  ∃ x, l !! i = Some x /\ p x = true /\ Forall (λ y, p y = false) (drop (S i) l).
Proof.
  revert i. induction l as [|x l IH]; simpl; intros i Hi; [done|].
  destruct (rposition p l) as [j|] eqn:E; simplify_eq.
  - by apply IH.
  - destruct (p x) eqn:Hx; simplify_eq. exists x.
    rewrite rposition_None in E. rewrite drop_0. auto.
Qed.

Lemma position_None {A} (p : A → bool) l :
  position p l = None ↔ Forall (λ x, p x = false) l.
Proof.
  induction l as [|x l IH]; simpl; [split; [constructor|done]|].
  rewrite Forall_cons, <- IH. destruct (p x), (position p l); naive_solver.
Qed.

Lemma position_Some {A} (p : A → bool) l i :
  position p l = Some i →
  ∃ x, l !! i = Some x /\ p x = true /\ Forall (λ y, p y = false) (take i l).
Proof.
  revert i. induction l as [|x l IH]; simpl; intros i Hi; [done|].
  destruct (p x) eqn:Hx; simplify_eq; [by exists x|].
  destruct (position p l) as [j|]; simpl in Hi; simplify_eq.
  destruct (IH j eq_refl) as (y & ? & ? & ?). exists y. simpl. auto.
Qed.

Lemma StronglySorted_lookup {A} (R : A → A → Prop) l i j x y :
  StronglySorted R l → l !! i = Some x → l !! j = Some y → (i < j)%nat → R x y.
Proof.
  intros Hs. revert i j. induction Hs as [|z l Hs IH Hz]; intros i j Hi Hj Hij; [done|].
  destruct j as [|j]; [lia|]. destruct i as [|i]; simpl in *; simplify_eq.
  - rewrite Forall_lookup in Hz. eauto.
  - eapply IH; [done..|lia].
Qed.

Lemma filter_none {A} (P : A → Prop) `{∀ x, Decision (P x)} l :
  Forall (λ x, ~ P x) l → filter P l = [].
Proof.
  induction 1 as [|x l Hx _ IH]; [done|]. rewrite filter_cons. by rewrite decide_False.
Qed.

Lemma filter_all {A} (P : A → Prop) `{∀ x, Decision (P x)} l :
  Forall P l → filter P l = l.
Proof.
  induction 1 as [|x l Hx _ IH]; [done|]. rewrite filter_cons, decide_True by done. by rewrite IH.
Qed.

#[global] Instance in_ranges_dec n rs : Decision (in_ranges n rs).
Proof. unfold in_ranges. apply _. Defined.

Lemma list_filter_iff_in {A} (P Q : A → Prop) `{∀ x, Decision (P x), ∀ x, Decision (Q x)} (l : list A) :
  (∀ x, x ∈ l → P x ↔ Q x) → filter P l = filter Q l.
Proof.
  induction l as [|x l IH]; intros HPQ; [done|]. rewrite !filter_cons.
  rewrite IH by (intros; apply HPQ; set_solver).
  destruct (decide (P x)) as [Hp|Hp], (decide (Q x)) as [Hq|Hq]; try done;
    exfalso; pose proof (HPQ x ltac:(set_solver)); tauto.
Qed.

Lemma Forall2_impl_elem {A B} (P Q : A → B → Prop) l k :
  Forall2 P l k → (∀ x y, y ∈ k → P x y → Q x y) → Forall2 Q l k.
Proof. induction 1; intros HPQ; constructor; set_solver. Qed.

Lemma last_cons_default {A} (x d d' : A) t : List.last (x :: t) d = List.last (x :: t) d'.
Proof. revert x. induction t as [|y t IH]; intros x; [done|]. apply (IH y). Qed.

Lemma last_in_list {A} (x : A) t : ∃ y, y ∈ x :: t /\ List.last (x :: t) x = y.
Proof.
  exists (List.last (x :: t) x). split; [|done]. generalize x at 2 as d.
  revert x. induction t as [|z t IH]; intros x d; [set_solver|].
  apply list_elem_of_further. apply (IH z d).
Qed.

(** Each element of a traversed list has its result among the results. *)
Lemma mapM_elem {E A B} (f : A → comp E B) l k x :
  mapM f l = Ok k → x ∈ l → ∃ y, f x = Ok y /\ y ∈ k.
Proof.
  revert k. induction l as [|a l IH]; intros k Hk Hx; [by apply elem_of_nil in Hx|].
  cbn [mapM] in Hk. destruct (f a) as [b|e| |] eqn:Ea; cbn in Hk; try discriminate.
  destruct (mapM f l) as [bs|e| |]; cbn in Hk; try discriminate. injection Hk as <-.
  apply elem_of_cons in Hx as [->|Hx].
  - exists b. split; [done|]. by left.
  - destruct (IH bs eq_refl Hx) as (y & ? & ?). exists y. split; [done|]. by right.
Qed.

Lemma mapM_cons {E A B} (f : A → comp E B) x l :
  mapM f (x :: l) = (y ← f x; k ← mapM f l; mret (M := comp E) (y :: k)).
Proof. done. Qed.

Lemma mapM_Ok_Forall2 {E A B} (f : A → comp E B) l k :
  mapM f l = Ok k → Forall2 (λ x y, f x = Ok y) l k.
Proof.
  revert k. induction l as [|x l IH]; intros k; [by intros [= <-]|]. rewrite mapM_cons.
  destruct (f x) as [y|e| |] eqn:Ex; cbn [mbind comp_bind]; try discriminate.
  destruct (mapM f l) as [k'|e| |] eqn:El; cbn [mbind comp_bind]; try discriminate.
  intros [= <-]. constructor; [done|by apply IH].
Qed.

Lemma mapM_Forall2 {E A B} (f : A → comp E B) l k : mapM f l = Ok k ↔ Forall2 (λ x y, f x = Ok y) l k.
Proof.
  split; [apply mapM_Ok_Forall2|]. induction 1 as [|x y l k Hx _ IH]; [done|].
  rewrite mapM_cons, Hx. cbn [mbind comp_bind]. by rewrite IH.
Qed.

Lemma mapM_Ok_iff {E A B} (f : A → comp E B) l :
  (∃ k, mapM f l = Ok k) ↔ Forall (λ x, ∃ y, f x = Ok y) l.
Proof.
  induction l as [|x l IH]; [split; [by constructor|by eexists]|].
  rewrite mapM_cons, Forall_cons, <- IH. split.
  - intros [k Hk]. destruct (f x) as [y|e| |]; cbn [mbind comp_bind] in Hk; try discriminate.
    destruct (mapM f l) as [k'|e| |]; cbn [mbind comp_bind] in Hk; try discriminate. eauto.
  - intros [[y ->] [k ->]]. by eexists.
Qed.

Lemma in_ranges_nil n : ~ in_ranges n [].
Proof. by intros H%Exists_nil. Qed.

Lemma in_ranges_cons n r rs :
  in_ranges n (r :: rs) ↔ (range_start r <= n <= range_end r) \/ in_ranges n rs.
Proof. unfold in_ranges. by rewrite Exists_cons. Qed.

Lemma in_ranges_app n l k : in_ranges n (l ++ k) ↔ in_ranges n l \/ in_ranges n k.
Proof. unfold in_ranges. by rewrite Exists_app. Qed.

#[global] Instance in_ranges_proper n : Proper ((≡ₚ) ==> iff) (in_ranges n).
Proof. intros l k H. unfold in_ranges. by rewrite H. Qed.

Lemma windows_app {A} (R : A → A → Prop) l x k :
  windows R (l ++ x :: k) ↔ windows R (l ++ [x]) /\ windows R (x :: k).
Proof.
  induction l as [|y l IH]; [simpl; tauto|].
  destruct l as [|z l]; [simpl; tauto|].
  change (windows R (y :: z :: l ++ x :: k) ↔ windows R (y :: z :: l ++ [x]) /\ windows R (x :: k)).
  simpl in *. tauto.
Qed.

Lemma to_i64_id z : 0 <= z <= i64_max → to_i64 z = z.
Proof.
  intros Hz. unfold to_i64, wrap64, u64_modulus, i64_max in *. cbn zeta.
  rewrite Z.mod_small by lia. by rewrite (proj2 (Z.leb_le _ _)) by lia.
Qed.

(** ** Bytes *)

Abbreviation bytes := (list Z).

(** The [n] bytes of a number in two's complement, the most significant first. *)
Fixpoint be (n : nat) (z : Z) : bytes :=
  match n with
  | O => []
  | S m => (z / 256 ^ Z.of_nat m) `mod` 256 :: be m z
  end.

Definition from_be (bs : bytes) : Z := foldl (λ acc b, acc * 256 + b) 0 bs.

Lemma length_be n z : length (be n z) = n.
Proof. induction n; simpl; [done|by f_equal]. Qed.

Lemma from_be_cons d bs : from_be (d :: bs) = d * 256 ^ Z.of_nat (length bs) + from_be bs.
Proof.
  unfold from_be. cbn [foldl]. rewrite Z.mul_0_l, Z.add_0_l. generalize d at 1 2.
  assert (Hacc : ∀ acc, foldl (λ a b, a * 256 + b) acc bs
                        = acc * 256 ^ Z.of_nat (length bs) + foldl (λ a b, a * 256 + b) 0 bs).
  { induction bs as [|b bs IH]; intros acc; cbn [foldl length]; [lia|].
    rewrite (IH (acc * 256 + b)), (IH (0 * 256 + b)), Nat2Z.inj_succ, Z.pow_succ_r by lia. lia. }
  intros z. apply Hacc.
Qed.

Lemma from_be_be n z : from_be (be n z) = z `mod` 256 ^ Z.of_nat n.
Proof.
  induction n as [|n IH]; [by rewrite Z.mod_1_r|].
  cbn [be]. rewrite from_be_cons, length_be, IH, Nat2Z.inj_succ, Z.pow_succ_r by lia.
  rewrite (Z.mul_comm 256), Z.rem_mul_r by lia. lia.
Qed.

#[export] Hint Resolve sort_by_key_perm sort_by_key_sorted unstable_sort_perm unstable_sort_sorted : amp.
#[export] Hint Rewrite in_ranges_cons in_ranges_app : ranges.
