(* ===== verification/Ranges.v ===== *)
(** * Ranges

    Arithmetic of inclusive block ranges: [block_range_intersection]
    (core/common/src/lib.rs), [missing_block_ranges] and [merge_ranges]
    (core/common/src/metadata/segments.rs). The range arithmetic wraps on
    [u64]; the lemmas are stated for ranges that end below [u64::MAX]. *)

From stdpp Require Import base numbers list option sorting.
From Stdlib Require Import ZArith Lia.
From S2P Require Import Prelude.

Definition block_range_intersection (a b : RangeInclusive) : option RangeInclusive :=
  let start := Z.max (range_start a) (range_start b) in
  let end_ := Z.min (range_end a) (range_end b) in
  if start <=? end_ then Some (mkRange start end_) else None.

Definition missing_block_ranges (synced desired : RangeInclusive) : list RangeInclusive :=
  if (range_end synced <? range_start desired) || (range_end desired <? range_start synced)
  then [desired]
  else if (range_start synced <=? range_start desired) && (range_end desired <=? range_end synced)
  then []
  else
    (if range_start desired <? range_start synced
     then [mkRange (range_start desired) (sub64 (range_start synced) 1)] else []) ++
    (if range_end synced <? range_end desired
     then [mkRange (add64 (range_end synced) 1) (range_end desired)] else []).

(** The loop of [merge_ranges] on the sorted vector: [cur] is
    [ranges[index - 1]] and [rest] the elements from [index] on; merging
    removes the head of [rest] and keeps [index], otherwise [index] advances. *)
Fixpoint merge_loop (cur : RangeInclusive) (rest : list RangeInclusive) : list RangeInclusive :=
  match rest with
  | [] => [cur]
  | next :: rest' =>
      if range_start next <=? add64 (range_end cur) 1
      then merge_loop (mkRange (range_start cur) (Z.max (range_end cur) (range_end next))) rest'
      else cur :: merge_loop next rest'
  end.

Definition merge_ranges (ranges : list RangeInclusive) : list RangeInclusive :=
  match sort_by_key range_start ranges with
  | [] => []
  | r :: rs => merge_loop r rs
  end.

(** [a] ends before [b] starts and at least one block lies between them. *)
Definition gap_before (a b : RangeInclusive) : Prop := range_end a + 1 < range_start b.

(** Sorted ranges with a gap between any two consecutive ones. *)
Definition normalized (rs : list RangeInclusive) : Prop :=
  Forall range_wf rs /\ StronglySorted gap_before rs.

(** The number of blocks of a range. *)
Definition range_len (r : RangeInclusive) : Z := range_end r - range_start r + 1.

(** ** Lemmas *)

Lemma range_wf_u64 r : range_wf r → is_u64 (range_start r) /\ is_u64 (range_end r) /\ is_u64 (range_end r + 1).
Proof. unfold range_wf, is_u64. lia. Qed.

(** Reduce the wrapping arithmetic of well-formed ranges to plain arithmetic. *)
Ltac range_arith :=
  repeat match goal with H : range_wf ?r |- _ =>
    let H1 := fresh in
    assert (H1 := range_wf_u64 r H); unfold range_wf in H; destruct H1 as (?&?&?) end;
  unfold is_u64, u64_max in *;
  repeat first
    [ rewrite add64_small in * by (unfold is_u64, u64_max; lia)
    | rewrite sub64_small in * by (unfold is_u64, u64_max; lia) ].

Lemma block_range_intersection_Some a b r :
  block_range_intersection a b = Some r →
  range_nonempty r /\
  ∀ n, range_start r <= n <= range_end r ↔
       (range_start a <= n <= range_end a) /\ (range_start b <= n <= range_end b).
Proof.
  unfold block_range_intersection, range_nonempty. intros H.
  destruct (Z.leb_spec (Z.max (range_start a) (range_start b)) (Z.min (range_end a) (range_end b)));
    simplify_eq/=. split; [lia|]. intros; lia.
Qed.

Lemma block_range_intersection_None a b :
  block_range_intersection a b = None →
  ∀ n, ~ ((range_start a <= n <= range_end a) /\ (range_start b <= n <= range_end b)).
Proof. unfold block_range_intersection. intros H n. bool_to_prop; [done|lia]. Qed.

Lemma block_range_intersection_wf a b r :
  range_wf a → range_wf b → block_range_intersection a b = Some r → range_wf r.
Proof.
  unfold block_range_intersection, range_wf. intros ? ? H. bool_to_prop; simplify_eq/=. lia.
Qed.

Lemma missing_block_ranges_wf s d :
  range_wf s → range_wf d → Forall range_wf (missing_block_ranges s d).
Proof.
  intros Hs Hd. unfold missing_block_ranges. pose proof Hs. pose proof Hd. range_arith.
  repeat case_match; bool_to_prop; simpl in *; try discriminate;
    repeat constructor; unfold range_wf, u64_max; simpl; range_arith; lia.
Qed.

Lemma in_missing_block_ranges s d n :
  range_wf s → range_wf d →
  in_ranges n (missing_block_ranges s d) ↔
  (range_start d <= n <= range_end d) /\ ~ (range_start s <= n <= range_end s).
Proof.
  intros Hs Hd. unfold missing_block_ranges. range_arith.
  repeat case_match; bool_to_prop; simpl in *; try discriminate;
    autorewrite with ranges; rewrite ?in_ranges_cons; simpl;
    pose proof (in_ranges_nil n); range_arith; intuition lia.
Qed.

Lemma merge_loop_blocks cur rest n :
  range_wf cur → Forall range_wf rest → StronglySorted (key_le range_start) (cur :: rest) →
  in_ranges n (merge_loop cur rest) ↔ in_ranges n (cur :: rest).
Proof.
  revert cur. induction rest as [|next rest IH]; intros cur Hc Hr Hs; simpl; [done|].
  apply Forall_cons in Hr as [Hn Hr].
  inversion Hs as [|? ? Hs' Hle]; subst. inversion Hs' as [|? ? Hs'' Hle']; subst.
  apply Forall_cons in Hle as [Hle Hall]. unfold key_le in Hle.
  pose proof Hc as Hc'. pose proof Hn as Hn'. range_arith.
  bool_to_prop.
  - rewrite IH; [|unfold range_wf, u64_max; simpl; lia|done|].
    + rewrite !in_ranges_cons. simpl. intuition lia.
    + constructor; [done|]. eapply Forall_impl; [exact Hall|]. unfold key_le. simpl. lia.
  - rewrite in_ranges_cons, IH by done. by rewrite (in_ranges_cons n cur).
Qed.

Lemma merge_loop_lower cur rest :
  StronglySorted (key_le range_start) (cur :: rest) →
  Forall (λ r, range_start cur <= range_start r) (merge_loop cur rest).
Proof.
  revert cur. induction rest as [|next rest IH]; intros cur Hs; simpl.
  - repeat constructor; lia.
  - inversion Hs as [|? ? Hs' Hle]; subst. inversion Hs' as [|? ? Hs'' Hle']; subst.
    apply Forall_cons in Hle as [Hle Hall]. unfold key_le in *.
    bool_to_prop.
    + apply (IH (mkRange (range_start cur) (Z.max (range_end cur) (range_end next)))).
      constructor; [done|]. eapply Forall_impl; [exact Hall|]. unfold key_le; simpl; lia.
    + constructor; [lia|]. eapply Forall_impl; [by apply IH|]. simpl. lia.
Qed.

Lemma merge_loop_normalized cur rest :
  range_wf cur → Forall range_wf rest → StronglySorted (key_le range_start) (cur :: rest) →
  normalized (merge_loop cur rest).
Proof.
  revert cur. induction rest as [|next rest IH]; intros cur Hc Hr Hs; simpl.
  { split; repeat constructor; apply Hc. }
  apply Forall_cons in Hr as [Hn Hr].
  inversion Hs as [|? ? Hs' Hle]; subst. inversion Hs' as [|? ? Hs'' Hle']; subst.
  apply Forall_cons in Hle as [Hle Hall]. unfold key_le in Hle.
  pose proof Hc as Hc'. pose proof Hn as Hn'. range_arith. bool_to_prop.
  - apply IH; [unfold range_wf, u64_max; simpl; lia|done|].
    constructor; [done|]. eapply Forall_impl; [exact Hall|]. unfold key_le; simpl; lia.
  - destruct (IH next) as [Hwf Hss]; [done..|]. split; [by constructor|].
    constructor; [done|]. eapply Forall_impl; [by apply merge_loop_lower|].
    unfold gap_before. simpl. lia.
Qed.

Lemma merge_ranges_blocks rs n :
  Forall range_wf rs → in_ranges n (merge_ranges rs) ↔ in_ranges n rs.
Proof.
  intros Hwf. unfold merge_ranges.
  pose proof (sort_by_key_perm range_start rs) as Hp.
  pose proof (sort_by_key_sorted range_start rs) as Hs.
  rewrite <- Hp in Hwf. rewrite <- (in_ranges_proper n _ _ Hp).
  destruct (sort_by_key range_start rs) as [|r l]; [done|].
  apply Forall_cons in Hwf as [? ?]. by apply merge_loop_blocks.
Qed.

Lemma merge_ranges_normalized rs :
  Forall range_wf rs → normalized (merge_ranges rs).
Proof.
  intros Hwf. unfold merge_ranges.
  pose proof (sort_by_key_perm range_start rs) as Hp.
  pose proof (sort_by_key_sorted range_start rs) as Hs. rewrite <- Hp in Hwf.
  destruct (sort_by_key range_start rs) as [|r l]; [split; constructor|].
  apply Forall_cons in Hwf as [? ?]. by apply merge_loop_normalized.
Qed.

#[export] Hint Resolve missing_block_ranges_wf merge_ranges_normalized block_range_intersection_wf : amp.
