(* ===== verification/BlockRange.v ===== *)
(** * BlockRange

    The data of core/common/src/metadata/segments.rs: [BlockRange] with its
    adjacency test, [Watermark], [ResumeWatermark] and its wire form, [Segment]
    and [Chain]. A block hash is its 256-bit number, a network its name. *)

From stdpp Require Import base numbers gmap strings option list sorting.
From Stdlib Require Import ZArith Lia.
From S2P Require Import Prelude Ranges.

Abbreviation BlockNum := Z (only parsing).
Abbreviation BlockHash := Z (only parsing).

Record BlockRange := mkBlockRange {
  numbers : RangeInclusive;
  network : string;
  hash : BlockHash;
  prev_hash : option BlockHash
}.

#[global] Instance BlockRange_eq_dec : EqDecision BlockRange.
Proof. solve_decision. Defined.

Definition start (r : BlockRange) : BlockNum := range_start (numbers r).
Definition end_ (r : BlockRange) : BlockNum := range_end (numbers r).

Record Watermark := mkWatermark { wm_number : BlockNum; wm_hash : BlockHash }.

#[global] Instance Watermark_eq_dec : EqDecision Watermark.
Proof. solve_decision. Defined.

Definition watermark (r : BlockRange) : Watermark := mkWatermark (end_ r) (hash r).

(** [BlockRange::adjacent]: [r] is sequenced immediately before [other]. *)
Definition adjacent (r other : BlockRange) : bool :=
  bool_decide (network r = network other) &&
  (add64 (end_ r) 1 =? start other) &&
  match prev_hash other with
  | Some h => h =? hash r
  | None => true
  end.

(** ** Resume watermarks: one watermark per network *)

Abbreviation ResumeWatermark := (gmap string Watermark) (only parsing).

(** Collecting into a [BTreeMap]: a later range of a network replaces an
    earlier one. *)
Definition from_ranges (ranges : list BlockRange) : ResumeWatermark :=
  foldl (λ m r, <[network r := watermark r]> m) ∅ ranges.

Definition to_watermark (w : ResumeWatermark) (net : string) : comp string Watermark :=
  ok_or (w !! net)
        ("Expected resume watermark for network '" +:+ net +:+ "'").

(** [From<ResumeWatermark> for BTreeMap<String, (BlockNum, [u8; 32])>] *)
Definition encode_watermark (w : ResumeWatermark) : gmap string (BlockNum * BlockHash) :=
  (λ wm : Watermark, (wm_number wm, wm_hash wm)) <$> w.

(** [From<BTreeMap<String, (BlockNum, [u8; 32])>> for ResumeWatermark] *)
Definition decode_watermark (m : gmap string (BlockNum * BlockHash)) : ResumeWatermark :=
  (λ p : BlockNum * BlockHash, mkWatermark p.1 p.2) <$> m.

(** ** Segments and chains *)

Record ObjectMeta := mkObjectMeta {
  location : string;
  last_modified : Z;
  object_size : Z
}.

Record Segment := mkSegment {
  seg_id : Z;
  seg_range : BlockRange;
  seg_object : ObjectMeta
}.

#[global] Instance ObjectMeta_eq_dec : EqDecision ObjectMeta.
Proof. solve_decision. Defined.
#[global] Instance Segment_eq_dec : EqDecision Segment.
Proof. solve_decision. Defined.

Definition seg_start (s : Segment) : BlockNum := start (seg_range s).
Definition seg_end (s : Segment) : BlockNum := end_ (seg_range s).

(** [Chain(Vec<Segment>)]. Every chain is built from [vec![latest]] by pushing
    and reversing, so the vector is not empty and [first().unwrap()] and
    [last().unwrap()] return: the model keeps the first segment apart. *)
Record Chain := mkChain { chain_head : Segment; chain_tail : list Segment }.

Definition chain_list (c : Chain) : list Segment := chain_head c :: chain_tail c.

Definition chain_first (c : Chain) : BlockRange := seg_range (chain_head c).
Definition chain_last (c : Chain) : BlockRange :=
  seg_range (List.last (chain_list c) (chain_head c)).
Definition chain_start (c : Chain) : BlockNum := start (chain_first c).
Definition chain_end (c : Chain) : BlockNum := end_ (chain_last c).

Definition chain_range (c : Chain) : BlockRange :=
  mkBlockRange (mkRange (chain_start c) (chain_end c)) (network (chain_first c))
    (hash (chain_last c)) (prev_hash (chain_first c)).

(** ** Well-formedness *)

(** A segment holds at least one block and ends below [u64::MAX]. *)
Definition seg_wf (s : Segment) : Prop := range_wf (numbers (seg_range s)).

Definition seg_adjacent (a b : Segment) : Prop :=
  adjacent (seg_range a) (seg_range b) = true.

(** [Chain::check_invariants] *)
Definition chain_ok (c : Chain) : Prop := windows seg_adjacent (chain_list c).

Definition seg_covers (n : Z) (s : Segment) : Prop := seg_start s <= n <= seg_end s.

(** Adjacency as the code means it, without wrap-around. *)
Lemma seg_adjacent_spec a b :
  seg_wf a →
  seg_adjacent a b ↔
  network (seg_range a) = network (seg_range b) /\ seg_end a + 1 = seg_start b /\
  (∀ h, prev_hash (seg_range b) = Some h → h = hash (seg_range a)).
Proof.
  intros Ha. unfold seg_adjacent, adjacent, seg_wf, seg_end, seg_start, end_, start in *.
  range_arith. rewrite !andb_true_iff, bool_decide_eq_true, Z.eqb_eq.
  destruct (prev_hash (seg_range b)) as [h|]; [rewrite Z.eqb_eq|]; naive_solver.
Qed.

Lemma chain_list_ne c : chain_list c ≠ [].
Proof. done. Qed.

Lemma chain_last_in c : ∃ s, s ∈ chain_list c /\ chain_last c = seg_range s.
Proof.
  exists (List.last (chain_list c) (chain_head c)). split; [|done].
  unfold chain_list. generalize (chain_head c) at 2. generalize (chain_head c).
  induction (chain_tail c) as [|x t IH]; intros h d; [set_solver|].
  apply list_elem_of_further. apply (IH x d).
Qed.

Lemma chain_end_cons a b t :
  chain_end (mkChain a (b :: t)) = chain_end (mkChain b t).
Proof.
  unfold chain_end, chain_last, chain_list. do 2 f_equal.
  exact (last_cons_default b a b t).
Qed.

(** Consecutive segments of a chain are consecutive in block numbers, so the
    chain covers every block between its ends. *)
Lemma chain_spine h t :
  Forall seg_wf (h :: t) → windows seg_adjacent (h :: t) →
  seg_start h <= chain_end (mkChain h t) /\
  Forall (λ s, seg_start h <= seg_start s /\ seg_end s <= chain_end (mkChain h t)) (h :: t) /\
  ∀ n, seg_start h <= n <= chain_end (mkChain h t) → Exists (seg_covers n) (h :: t).
Proof.
  revert h. induction t as [|b t IH]; intros h Hwf Hw.
  - apply Forall_cons in Hwf as [Hh _]. unfold seg_wf, range_wf in Hh.
    unfold chain_end, chain_last, seg_start, seg_end, seg_covers, start, end_ in *. simpl.
    split; [lia|]. split; [repeat constructor; lia|]. intros n Hn. left. done.
  - apply Forall_cons in Hwf as [Hh Hwf]. destruct Hw as [Hadj Hw].
    destruct (IH b Hwf Hw) as (Hle & Hall & Hcov).
    apply (seg_adjacent_spec h b Hh) in Hadj as (_ & Hend & _).
    rewrite chain_end_cons. unfold seg_wf, range_wf in Hh.
    unfold seg_start, seg_end, start, end_ in *.
    split; [lia|]. split.
    + constructor; [lia|]. eapply Forall_impl; [exact Hall|]. simpl. intros; lia.
    + intros n Hn. unfold seg_covers, seg_start, seg_end, start, end_ in *.
      destruct (decide (n <= range_end (numbers (seg_range h)))); [left; lia|].
      right. apply Hcov. lia.
Qed.

Lemma chain_bounds c s :
  Forall seg_wf (chain_list c) → chain_ok c → s ∈ chain_list c →
  chain_start c <= seg_start s /\ seg_end s <= chain_end c.
Proof.
  destruct c as [h t]. intros Hwf Hok Hs.
  destruct (chain_spine h t Hwf Hok) as (_ & Hall & _).
  rewrite Forall_forall in Hall. by apply Hall.
Qed.

Lemma chain_covers c n :
  Forall seg_wf (chain_list c) → chain_ok c →
  chain_start c <= n <= chain_end c → ∃ s, s ∈ chain_list c /\ seg_covers n s.
Proof.
  destruct c as [h t]. intros Hwf Hok Hn.
  destruct (chain_spine h t Hwf Hok) as (_ & _ & Hcov).
  apply Hcov in Hn. rewrite Exists_exists in Hn. done.
Qed.

Lemma chain_nonempty_range c :
  Forall seg_wf (chain_list c) → chain_ok c → chain_start c <= chain_end c.
Proof. destruct c as [h t]. intros Hwf Hok. apply (chain_spine h t Hwf Hok). Qed.

(** The segments of a chain follow each other without overlap. *)
Lemma chain_disjoint h t :
  Forall seg_wf (h :: t) → windows seg_adjacent (h :: t) →
  StronglySorted (λ a b, seg_end a < seg_start b) (h :: t).
Proof.
  revert h. induction t as [|b t IH]; intros h Hwf Hw; [by repeat constructor|].
  apply Forall_cons in Hwf as [Hh Hwf]. destruct Hw as [Hadj Hw].
  constructor; [by apply IH|].
  destruct (chain_spine b t Hwf Hw) as (_ & Hall & _).
  apply (seg_adjacent_spec h b Hh) in Hadj as (_ & He & _).
  eapply Forall_impl; [exact Hall|]. simpl. intros; lia.
Qed.

(** Decoding the wire form of a resume watermark gives it back. *)
Lemma decode_encode_watermark w : decode_watermark (encode_watermark w) = w.
Proof.
  unfold decode_watermark, encode_watermark. apply map_eq. intros k.
  rewrite !lookup_fmap. destruct (w !! k) as [[]|]; done.
Qed.

Lemma encode_decode_watermark m : encode_watermark (decode_watermark m) = m.
Proof.
  unfold decode_watermark, encode_watermark. apply map_eq. intros k.
  rewrite !lookup_fmap. destruct (m !! k) as [[]|]; done.
Qed.

(** The watermark kept for a network is that of its last range. *)
Lemma from_ranges_lookup ranges net :
  from_ranges ranges !! net =
  watermark <$> last (filter (λ r, network r = net) ranges).
Proof.
  unfold from_ranges. induction ranges as [|r ranges IH] using rev_ind; [done|].
  rewrite foldl_snoc, filter_app, filter_cons, filter_nil.
  destruct (decide (network r = net)) as [<-|Hne].
  - by rewrite lookup_insert_eq, last_snoc.
  - rewrite lookup_insert_ne, app_nil_r by congruence. exact IH.
Qed.

#[export] Hint Resolve chain_nonempty_range : amp.
