(* ===== verification/Segments.v ===== *)
(** * Segments

    The canonical chain and the reorg fork of a table's segments, the ranges
    still to be dumped and the segments that may be deleted:
    core/common/src/metadata/segments.rs. [sort_unstable_by_key] leaves the
    order of equal timestamps open, so everything is proved for every sort that
    keeps the promise of [UnstableSort]. *)

From stdpp Require Import base numbers gmap strings option fin_maps list sorting.
From Stdlib Require Import ZArith Lia.
From S2P Require Import Prelude Ranges BlockRange.

Record Chains := mkChains { canonical : Chain; fork : option Chain }.

(** [BTreeMap<BlockNum, Vec<Segment>>] *)
Abbreviation ByEnd := (gmap Z (list Segment)) (only parsing).

Section Operations.
Context `{UnstableSort Segment}.

(** [by_end.entry(s.range.end()).or_default().push(s)] for each segment. *)
Definition group_by_end (segments : list Segment) : ByEnd :=
  foldl (λ m s, <[seg_end s := default [] (m !! seg_end s) ++ [s]]> m) ∅ segments.

(** The test of [pick_segment]: any segment when there is no successor. *)
Definition precedes (next : option BlockRange) (s : Segment) : bool :=
  match next with
  | Some next => adjacent (seg_range s) next
  | None => true
  end.

Definition pick_segment (by_end : ByEnd) (e : BlockNum) (next : option BlockRange)
    : total (option Segment * ByEnd) :=
  match by_end !! e with
  | None => Ok (None, by_end)
  | Some segments =>
      let segments := unstable_sort (λ s, last_modified (seg_object s)) segments in
      match rposition (precedes next) segments with
      | None => Ok (None, <[e := segments]> by_end)
      | Some index =>
          segment ← unwrap (segments !! index);
          let segments := remove_at index segments in
          Ok (Some segment,
              match segments with
              | [] => delete e by_end
              | _ => <[e := segments]> by_end
              end)
      end
  end.

(** The number of segments of the map: it bounds every loop below. *)
Definition count (by_end : ByEnd) : nat := length (mjoin (map_to_list by_end).*2).

(** The loop of [pick_chain]. [next] is the last segment pushed and [rest]
    the ones before it, newest first, so the final [reverse] is built in. *)
Fixpoint pick_chain_loop (fuel : nat) (by_end : ByEnd) (next : Segment) (rest : list Segment)
    : total (Chain * ByEnd) :=
  if seg_start next =? 0 then Ok (mkChain next rest, by_end)
  else match fuel with
       | O => OutOfFuel
       | S fuel =>
           '(picked, by_end) ←
             pick_segment by_end (sub64 (seg_start next) 1) (Some (seg_range next));
           match picked with
           | Some segment => pick_chain_loop fuel by_end segment (next :: rest)
           | None => Ok (mkChain next rest, by_end)
           end
       end.

Definition pick_chain (by_end : ByEnd) : total (Chain * ByEnd) :=
  e ← unwrap (last_key by_end);
  '(picked, by_end) ← pick_segment by_end e None;
  latest ← unwrap picked;
  pick_chain_loop (S (count by_end)) by_end latest [].

(** [while chains.last().unwrap().start() != min_start]: [last] is the last
    chain pushed and [before] the earlier ones, newest first. *)
Fixpoint chains_loop (fuel : nat) (min_start : BlockNum) (by_end : ByEnd)
    (last : Chain) (before : list Chain) : total (Chain * list Chain) :=
  if chain_start last =? min_start then Ok (last, before)
  else match fuel with
       | O => OutOfFuel
       | S fuel =>
           '(next, by_end) ← pick_chain by_end;
           chains_loop fuel min_start by_end next (last :: before)
       end.

(** [chains.iter().filter(..).position(..).map(|i| chains.remove(i))] *)
Definition pick_fork (canonical : Chain) (chains : list Chain) : total (option Chain) :=
  let fork_min := add64 (chain_end canonical) 1 in
  match position (λ c, chain_start c <=? fork_min)
                 (filter (λ c, chain_end canonical <? chain_end c) chains) with
  | None => Ok None
  | Some index => fork ← unwrap (chains !! index); Ok (Some fork)
  end.

Definition chains (segments : list Segment) : total (option Chains) :=
  match list_min (seg_start <$> segments) with
  | None => Ok None
  | Some min_start =>
      let by_end := group_by_end segments in
      '(latest, by_end) ← pick_chain by_end;
      if chain_start latest =? min_start then Ok (Some (mkChains latest None))
      else
        '(canonical, before) ← chains_loop (S (count by_end)) min_start by_end latest [];
        fork ← pick_fork canonical (reverse before);
        Ok (Some (mkChains canonical fork))
  end.

Definition canonical_chain (segments : list Segment) : total (option Chain) :=
  cs ← chains segments;
  Ok (option_map canonical cs).

Definition reclaimable_segments (segments : list Segment) : total (list Segment) :=
  cs ← chains segments;
  Ok match cs with
     | None => []
     | Some (mkChains canonical fork) =>
         let canonical_start := chain_start canonical in
         let canonical_end := chain_end canonical in
         let retained : gset Z :=
           list_to_set (seg_id <$> chain_list canonical) ∪
           match fork with
           | Some fork => list_to_set (seg_id <$> chain_list fork)
           | None => ∅
           end in
         filter (λ s, (canonical_start <=? seg_start s) && (seg_end s <=? canonical_end))
           (filter (λ s, seg_id s ∉ retained) segments)
     end.

(** The splice loop for one segment: every missing range that meets the
    segment is replaced by what the segment leaves of it. *)
Definition subtract_segment (missing : list RangeInclusive) (segment : Segment)
    : list RangeInclusive :=
  mjoin ((λ m, match block_range_intersection m (numbers (seg_range segment)) with
               | None => [m]
               | Some _ => missing_block_ranges (numbers (seg_range segment)) m
               end) <$> missing).

(** [.rfind(|r| r.contains(&reorg_block))] on the canonical ranges. *)
Definition rfind_range (block : BlockNum) (c : Chain) : option RangeInclusive :=
  last (filter (λ r, range_contains r block) ((λ s, numbers (seg_range s)) <$> chain_list c)).

(** The canonical range a reorg makes missing again. *)
Definition reorg_missing (cs : option Chains) (desired : RangeInclusive)
    : list RangeInclusive :=
  match cs with
  | Some (mkChains canonical (Some fork)) =>
      let reorg_block := sub64 (chain_start fork) 1 in
      match rfind_range reorg_block canonical with
      | Some canonical_range =>
          let reorg_range := mkRange (range_start canonical_range) reorg_block in
          match block_range_intersection reorg_range desired with
          | Some r => [r]
          | None => []
          end
      | None => []
      end
  | _ => []
  end.

Definition missing_ranges (segments : list Segment) (desired : RangeInclusive)
    : total (list RangeInclusive) :=
  let missing := foldl subtract_segment [desired] segments in
  cs ← chains segments;
  Ok (merge_ranges (missing ++ reorg_missing cs desired)).
End Operations.

(** ** Invariants *)

(** Every group of the map is non-empty and holds segments of its end. *)
Definition by_end_wf (m : gmap Z (list Segment)) : Prop :=
  map_Forall (λ e ss, ss ≠ [] /\ Forall (λ s, seg_end s = e) ss) m.

Definition segs_of (m : gmap Z (list Segment)) : list Segment := mjoin (map_to_list m).*2.

(** No segment of [l] can be put in front of the chain. *)
Definition unextendable (l : list Segment) (c : Chain) : Prop :=
  Forall (λ s, ~ seg_adjacent s (chain_head c)) l.

(** What [pick_chain] builds from the segments [all]: a chain of adjacent
    segments that reaches the greatest end, and is not extendable by [left]. *)
Definition picked_chain (all : list Segment) (c : Chain) (left : list Segment) : Prop :=
  all ≡ₚ chain_list c ++ left /\ chain_ok c /\
  Forall (λ s, seg_end s <= chain_end c) all /\ unextendable left c.

(** Greedy picking: among the segments [l] that were still there when [c] was
    picked, none ends higher and none can be put in front of [c]. *)
Definition exhausted (l : list Segment) (c : Chain) : Prop :=
  Forall (λ s, seg_end s <= chain_end c /\ ~ seg_adjacent s (chain_head c)) l.

Definition seg_time (s : Segment) : Z := last_modified (seg_object s).

(** The same groups, up to the order within a group. *)
Definition by_end_equiv (m m' : gmap Z (list Segment)) : Prop :=
  ∀ e, option_Forall2 (≡ₚ) (m !! e) (m' !! e).

(** No two segments of a group were modified at the same time. *)
Definition distinct_times (m : gmap Z (list Segment)) : Prop :=
  map_Forall (λ _ l, NoDup (seg_time <$> l)) m.

(** Two searches go on in the same way. *)
Definition same_outcome {A} (x y : total (A * gmap Z (list Segment))) : Prop :=
  match x, y with
  | Ok (a, m), Ok (b, m') => a = b /\ by_end_equiv m m' /\ distinct_times m
  | Panic, Panic | OutOfFuel, OutOfFuel => True
  | _, _ => False
  end.

(** A fork can replace the end of the canonical chain: it is higher and no
    block is missing between the two. *)
Definition fork_of (c f : Chain) : Prop :=
  chain_end c < chain_end f /\ chain_start f <= chain_end c + 1.

(** The loop invariant of [chains]: the chains picked so far, newest first, and
    the segments left split the input; ends grow towards the older chains and
    no older chain reaches [min_start]. *)
Record chains_inv (segments : list Segment) (min_start : Z) (m : gmap Z (list Segment))
    (lst : Chain) (before : list Chain) : Prop := {
  inv_wf : by_end_wf m;
  inv_perm : segments ≡ₚ mjoin (chain_list <$> (lst :: before)) ++ segs_of m;
  inv_ok : Forall chain_ok (lst :: before);
  inv_sorted : StronglySorted (λ a b, chain_end a <= chain_end b) (lst :: before);
  inv_left : Forall (λ s, seg_end s <= chain_end lst) (segs_of m);
  inv_greedy : StronglySorted (λ newer older, exhausted (chain_list newer) older) (lst :: before);
  inv_rest : Forall (exhausted (segs_of m)) (lst :: before);
  inv_before : Forall (λ c, chain_start c ≠ min_start) before
}.

(** What [chains] promises: the input split into the canonical chain, the other
    chains and the segments left over, and the choice of the fork. *)
Record chains_spec (segments : list Segment) (cs : Chains) (others : list Chain)
    (left : list Segment) : Prop := {
  spec_perm : segments ≡ₚ chain_list (canonical cs) ++ mjoin (chain_list <$> others) ++ left;
  spec_ok : Forall chain_ok (canonical cs :: others);
  spec_greedy : StronglySorted (λ newer older, exhausted (chain_list newer) older)
                               (canonical cs :: others);
  spec_rest : Forall (exhausted left) (canonical cs :: others);
  spec_start : Forall (λ s, chain_start (canonical cs) <= seg_start s) segments;
  spec_others : Forall (λ c, chain_start (canonical cs) < chain_start c /\
                             chain_end (canonical cs) <= chain_end c) others;
  spec_left : Forall (λ s, seg_end s <= chain_end (canonical cs)) left;
  spec_fork : match fork cs with
              | Some f => f ∈ others /\ fork_of (canonical cs) f /\
                          Forall (λ c, fork_of (canonical cs) c → chain_end c <= chain_end f) others
              | None => Forall (λ c, ~ fork_of (canonical cs) c) others
              end
}.

(** ** Concrete segments *)

Definition test_hash (number fork : Z) : Z := number + 1000 * fork.

(** A segment of the tests: its hash is that of its end block on its fork, its
    [prev_hash] that of the block before it on [prev_fork]. *)
Definition test_segment (id first last fork prev_fork time : Z) : Segment :=
  mkSegment id
    (mkBlockRange (mkRange first last) "test" (test_hash last fork)
       (if first =? 0 then None else Some (test_hash (first - 1) prev_fork)))
    (mkObjectMeta "file" time 0).

(** 00-02, 03-05, 06-08 with a fork 06-08', 09-11' and an orphan 03-04. *)
Definition forked_segments : list Segment :=
  [test_segment 1 3 5 0 0 1; test_segment 2 0 2 0 0 0; test_segment 5 9 11 1 1 4;
   test_segment 3 6 8 0 0 2; test_segment 4 6 8 1 2 3; test_segment 6 3 4 0 0 5].

(** Two segments end at block 9: [7-9] is newer but cannot be extended, so the
    search never joins [5-9] to [10-14]. *)
Definition dead_end_segments : list Segment :=
  [test_segment 1 0 4 0 0 1; test_segment 2 5 9 0 0 2; test_segment 3 7 9 0 0 3;
   test_segment 4 10 14 0 0 4].

(** ** The grouped segments as one collection *)

Lemma segs_of_empty : segs_of ∅ = [].
Proof. done. Qed.

Lemma segs_of_insert_new m e l :
  m !! e = None → segs_of (<[e:=l]> m) ≡ₚ l ++ segs_of m.
Proof.
  intros Hm. unfold segs_of. rewrite map_to_list_insert by done. done.
Qed.

Lemma segs_of_lookup m e l :
  m !! e = Some l → segs_of m ≡ₚ l ++ segs_of (delete e m).
Proof.
  intros Hm. rewrite <- (insert_id m e l Hm) at 1.
  rewrite <- insert_delete_eq. rewrite segs_of_insert_new; [done|apply lookup_delete_eq].
Qed.

Lemma segs_of_insert m e l :
  segs_of (<[e:=l]> m) ≡ₚ l ++ segs_of (delete e m).
Proof.
  rewrite <- insert_delete_eq. rewrite segs_of_insert_new; [done|apply lookup_delete_eq].
Qed.

Lemma elem_of_segs_of m s :
  s ∈ segs_of m ↔ ∃ e l, m !! e = Some l /\ s ∈ l.
Proof.
  unfold segs_of. rewrite list_elem_of_join. split.
  - intros (l & Hs & Hl). apply list_elem_of_fmap in Hl as ([e l'] & -> & Hl).
    apply elem_of_map_to_list in Hl. eauto.
  - intros (e & l & Hm & Hs). exists l. split; [done|]. apply list_elem_of_fmap.
    exists (e, l). split; [done|]. by apply elem_of_map_to_list.
Qed.

Lemma elem_of_segs_of_end m s e :
  by_end_wf m → s ∈ segs_of m → seg_end s = e → ∃ l, m !! e = Some l /\ s ∈ l.
Proof.
  intros Hwf Hs He. apply elem_of_segs_of in Hs as (e' & l & Hm & Hs).
  destruct (Hwf e' l Hm) as [_ Hl]. rewrite Forall_forall in Hl.
  apply Hl in Hs as Hs'. simplify_eq. eauto.
Qed.

Lemma segs_of_nil m : by_end_wf m → segs_of m = [] → m = ∅.
Proof.
  intros Hwf Hnil. apply map_empty. intros e. destruct (m !! e) as [l|] eqn:Hm; [|done].
  exfalso. destruct (Hwf e l Hm) as [Hne _]. destruct l as [|s l]; [done|].
  assert (Hs : s ∈ segs_of m) by (apply elem_of_segs_of; exists e, (s :: l); set_solver).
  rewrite Hnil in Hs. set_solver.
Qed.

Lemma group_by_end_spec segments :
  by_end_wf (group_by_end segments) /\ segs_of (group_by_end segments) ≡ₚ segments.
Proof.
  unfold group_by_end. induction segments as [|s segments [IHwf IHp]] using rev_ind.
  - split; [apply map_Forall_empty|done].
  - rewrite foldl_snoc. set (m := foldl _ ∅ segments) in *. split.
    + apply map_Forall_insert_2; [|done]. split; [by destruct (default [] _)|].
      apply Forall_app. split; [|by repeat constructor].
      destruct (m !! seg_end s) as [l|] eqn:Hm; simpl; [apply (IHwf _ _ Hm)|constructor].
    + rewrite segs_of_insert, <- IHp.
      destruct (m !! seg_end s) as [l|] eqn:Hm; simpl.
      * rewrite (segs_of_lookup m _ l Hm). rewrite <- !app_assoc. f_equiv.
        apply Permutation_app_comm.
      * rewrite delete_id by done. apply Permutation_cons_append.
Qed.

(** ** [pick_segment] *)

Section Proofs.
Context `{US : UnstableSort Segment}.

(** The picked segment ends at [e], fits in front of [next] and is the most
    recently modified one that does; nothing is lost. *)
Lemma pick_segment_spec m e next :
  by_end_wf m →
  ∃ o m', pick_segment m e next = Ok (o, m') /\ by_end_wf m' /\
    match o with
    | Some s =>
        segs_of m ≡ₚ s :: segs_of m' /\ seg_end s = e /\ precedes next s = true /\
        Forall (λ s', seg_end s' = e → precedes next s' = true →
                      last_modified (seg_object s') <= last_modified (seg_object s)) (segs_of m)
    | None =>
        segs_of m ≡ₚ segs_of m' /\
        Forall (λ s, seg_end s = e → precedes next s = false) (segs_of m)
    end.
Proof.
  intros Hwf. unfold pick_segment. destruct (m !! e) as [l|] eqn:Hm.
  2:{ exists None, m. split; [done|]. split; [done|]. split; [done|]. apply Forall_forall. intros s Hs He.
      apply (elem_of_segs_of_end m s e Hwf Hs) in He as (l & ? & _). congruence. }
  destruct (Hwf e l Hm) as [Hne Hl].
  set (key := λ s : Segment, last_modified (seg_object s)).
  pose proof (unstable_sort_perm key l) as Hp.
  pose proof (unstable_sort_sorted key l) as Hsrt.
  assert (Hin : ∀ s, s ∈ segs_of m → seg_end s = e → s ∈ unstable_sort key l).
  { intros s Hs He. apply (elem_of_segs_of_end m s e Hwf Hs) in He as (l' & ? & ?).
    simplify_eq. by rewrite Hp. }
  set (l' := unstable_sort key l) in *.
  destruct (rposition (precedes next) l') as [i|] eqn:Hpos.
  - apply rposition_Some in Hpos as (s & Hi & Hs & Hafter).
    rewrite Hi. simpl. pose proof (remove_at_perm l' i s Hi) as Hrem.
    assert (Hsl : Forall (λ s, seg_end s = e) (s :: remove_at i l')) by (by rewrite <- Hrem, Hp).
    apply Forall_cons in Hsl as [Hse Hrl].
    assert (Hmax : Forall (λ s', seg_end s' = e → precedes next s' = true → key s' <= key s)
                          (segs_of m)).
    { apply Forall_forall. intros s' Hs' He Hp'. apply (Hin s' Hs') in He.
      apply list_elem_of_lookup in He as [j Hj].
      destruct (decide (i < j)%nat) as [Hij|Hij].
      - rewrite Forall_lookup in Hafter. specialize (Hafter (j - S i)%nat s').
        rewrite lookup_drop in Hafter. replace (S i + (j - S i))%nat with j in Hafter by lia.
        rewrite (Hafter Hj) in Hp'. done.
      - destruct (decide (i = j)) as [->|Hne']; [simplify_eq; lia|].
        apply (StronglySorted_lookup _ l' j i s' s Hsrt Hj Hi). lia. }
    exists (Some s). destruct (remove_at i l') as [|s0 rl] eqn:Erem.
    + exists (delete e m). split; [done|]. split; [by apply map_Forall_delete|].
      split; [|done]. rewrite (segs_of_lookup m e l Hm), <- Hp, Hrem. done.
    + exists (<[e := s0 :: rl]> m). split; [done|]. split; [by apply map_Forall_insert_2|].
      split; [|done]. rewrite (segs_of_lookup m e l Hm), segs_of_insert, <- Hp, Hrem. done.
  - rewrite rposition_None in Hpos. exists None, (<[e := l']> m). split; [done|]. split.
    { apply map_Forall_insert_2; [|done]. split; [|by rewrite Hp].
      intros Hnil. apply Hne. apply Permutation_nil. by rewrite <- Hp, Hnil. }
    split; [by rewrite (segs_of_lookup m e l Hm), segs_of_insert, Hp|].
    apply Forall_forall. intros s Hs He. rewrite Forall_forall in Hpos. auto.
Qed.

(** ** [pick_chain] *)

Lemma precedes_adjacent_start a b :
  seg_wf a → seg_adjacent a b → sub64 (seg_start b) 1 = seg_end a /\ 0 < seg_start b.
Proof.
  intros Ha Hadj. apply (seg_adjacent_spec a b Ha) in Hadj as (_ & He & _).
  unfold seg_wf, seg_end, end_, range_wf, u64_max in *.
  rewrite sub64_small; [lia|]. unfold is_u64, u64_max. lia.
Qed.

Lemma pick_chain_loop_spec fuel m next rest :
  by_end_wf m → Forall seg_wf (segs_of m) → (length (segs_of m) < fuel)%nat →
  windows seg_adjacent (next :: rest) →
  ∃ c m' pre, pick_chain_loop fuel m next rest = Ok (c, m') /\ by_end_wf m' /\
    chain_list c = pre ++ next :: rest /\ segs_of m ≡ₚ pre ++ segs_of m' /\
    chain_ok c /\ unextendable (segs_of m') c.
Proof.
  revert m next rest. induction fuel as [|fuel IH]; intros m next rest Hwf Hsw Hf Hw; [lia|].
  simpl. destruct (Z.eqb_spec (seg_start next) 0) as [Hz|Hz].
  { exists (mkChain next rest), m, []. repeat (split; [done|]).
    eapply Forall_impl; [exact Hsw|]. intros s Hs Hadj. simpl in Hadj.
    apply (precedes_adjacent_start s next Hs) in Hadj as [_ ?]. lia. }
  destruct (pick_segment_spec m (sub64 (seg_start next) 1) (Some (seg_range next)) Hwf)
    as (o & m' & -> & Hwf' & Ho). cbn.
  destruct o as [s|].
  - destruct Ho as (Hp & _ & Hpre & _). simpl in Hpre.
    assert (Hsw' : Forall seg_wf (s :: segs_of m')) by (by rewrite <- Hp).
    apply Forall_cons in Hsw' as [Hs Hsw'].
    destruct (IH m' s (next :: rest)) as (c & m'' & pre & -> & ? & Hc & Hp' & ? & ?);
      [done..| |by split|].
    { apply Permutation_length in Hp. simpl in Hp. lia. }
    exists c, m'', (pre ++ [s]). split; [done|]. split; [done|].
    split; [by rewrite <- app_assoc|]. split; [|done].
    rewrite Hp, Hp'. rewrite <- app_assoc. simpl. apply Permutation_middle.
  - destruct Ho as [Hp Hno]. exists (mkChain next rest), m', [].
    repeat (split; [done|]). unfold unextendable. rewrite <- Hp.
    rewrite Forall_forall in *. intros s Hs Hadj. simpl in Hadj.
    destruct (precedes_adjacent_start s next (Hsw s Hs) Hadj) as [He _].
    specialize (Hno s Hs (eq_sym He)). simpl in Hno. unfold seg_adjacent in Hadj. congruence.
Qed.

Lemma chain_end_app pre next c :
  chain_list c = pre ++ [next] → chain_end c = seg_end next.
Proof.
  intros E. unfold chain_end, chain_last, seg_end. by rewrite E, List.last_last.
Qed.

Lemma pick_chain_spec m :
  by_end_wf m → Forall seg_wf (segs_of m) → segs_of m ≠ [] →
  ∃ c m', pick_chain m = Ok (c, m') /\ by_end_wf m' /\ picked_chain (segs_of m) c (segs_of m').
Proof.
  intros Hwf Hsw Hne. unfold pick_chain.
  destruct (last_key m) as [e|] eqn:Hk.
  2:{ apply last_key_None in Hk as ->. done. }
  apply last_key_Some in Hk as [[l Hl] Hmax]. cbn [mbind comp_bind unwrap].
  destruct (pick_segment_spec m e None Hwf) as (o & m' & -> & Hwf' & Ho). cbn [mbind comp_bind].
  destruct (Hwf e l Hl) as [Hlne Hlf].
  destruct o as [s|].
  - destruct Ho as (Hp & He & _ & _). cbn [mbind comp_bind unwrap].
    assert (Hsw' : Forall seg_wf (s :: segs_of m')) by (by rewrite <- Hp).
    apply Forall_cons in Hsw' as [Hs Hsw'].
    destruct (pick_chain_loop_spec (S (count m')) m' s []) as (c & m'' & pre & -> & ? & Hc & Hp' & ? & ?);
      [done..|unfold count, segs_of; lia|done|].
    exists c, m''. split; [done|]. split; [done|]. split.
    { rewrite Hp, Hp', Hc, <- app_assoc. simpl. apply Permutation_middle. }
    split; [done|]. split; [|done]. rewrite (chain_end_app _ _ _ Hc), He.
    apply Forall_forall. intros s' Hs'. apply elem_of_segs_of in Hs' as (e' & l' & Hm & Hs').
    destruct (Hwf e' l' Hm) as [_ Hf]. rewrite Forall_forall in Hf. rewrite (Hf s' Hs').
    apply Hmax. by eexists.
  - exfalso. destruct Ho as [_ Hno]. destruct l as [|s l]; [done|].
    apply Forall_cons in Hlf as [He _]. rewrite Forall_forall in Hno.
    assert (Hin : s ∈ segs_of m) by (apply elem_of_segs_of; exists e, (s :: l); set_solver).
    specialize (Hno s Hin He). done.
Qed.

(** ** [chains] *)

Lemma chain_start_min c min_start s :
  Forall seg_wf (chain_list c) → chain_ok c →
  Forall (λ s, min_start <= seg_start s) (chain_list c) →
  s ∈ chain_list c → seg_start s = min_start → chain_start c = min_start.
Proof.
  intros Hwf Hok Hmin Hs Hst. apply (chain_bounds c s Hwf Hok) in Hs as [Hle _].
  apply list.Forall_cons in Hmin as [Hh _]. unfold chain_start, chain_first in *.
  unfold seg_start in *. lia.
Qed.

Lemma segs_of_chain {B} (f : B → list Segment) (P : Segment → Prop) c l k :
  Forall P (mjoin (f <$> l) ++ k) → c ∈ l → Forall P (f c).
Proof.
  intros HP Hc. apply Forall_app in HP as [HP _]. rewrite Forall_forall in *.
  intros s Hs. apply HP. apply list_elem_of_join. exists (f c). split; [done|].
  by apply list_elem_of_fmap_2.
Qed.

Lemma chains_inv_pick segments min_start m lst before :
  Forall seg_wf segments → Forall (λ s, min_start <= seg_start s) segments →
  min_start ∈ seg_start <$> segments →
  chains_inv segments min_start m lst before → chain_start lst ≠ min_start →
  ∃ c m', pick_chain m = Ok (c, m') /\ chains_inv segments min_start m' c (lst :: before) /\
          (length (segs_of m') < length (segs_of m))%nat.
Proof.
  intros Hsw Hmin Hin [Hwf Hp Hok Hsrt Hleft Hgr Hrest Hbef] Hne.
  rewrite Hp in Hsw, Hmin.
  assert (Hex : segs_of m ≠ []).
  { intros Hnil. apply list_elem_of_fmap in Hin as (s & Hs & Hin). symmetry in Hs.
    rewrite Hp, Hnil, app_nil_r in Hin. apply list_elem_of_join in Hin as (l & Hl & Hin).
    apply list_elem_of_fmap in Hin as (c & -> & Hc).
    assert (Hst : chain_start c = min_start).
    { eapply (chain_start_min c min_start s); [..|done|done].
      - by eapply segs_of_chain.
      - rewrite Forall_forall in Hok. by apply Hok.
      - by eapply segs_of_chain. }
    apply elem_of_cons in Hc as [->|Hc]; [done|].
    rewrite Forall_forall in Hbef. by apply (Hbef c). }
  apply Forall_app in Hsw as Hsw'. destruct Hsw' as [_ Hsw'].
  destruct (pick_chain_spec m Hwf Hsw' Hex) as (c & m' & Hc & Hwf' & Hp' & Hok' & Hmax & Hun).
  exists c, m'. split; [done|]. split.
  - assert (Hold : Forall (λ d, exhausted (chain_list c) d /\ exhausted (segs_of m') d)
                          (lst :: before)).
    { eapply Forall_impl; [exact Hrest|]. intros d Hd. unfold exhausted in *.
      rewrite Hp' in Hd. by apply Forall_app in Hd. }
    split; [done| | | | | | |].
    + rewrite Hp, Hp'. cbn [fmap list_fmap mjoin list_join].
      rewrite <- (app_assoc (chain_list c)), <- Permutation_app_swap_app.
      by rewrite !app_assoc.
    + by constructor.
    + constructor; [done|].
      assert (Hlast : chain_end c <= chain_end lst).
      { destruct (chain_last_in c) as (s & Hs & Hl). unfold chain_end. rewrite Hl.
        rewrite Forall_forall in Hleft. apply Hleft. rewrite Hp'. set_solver. }
      constructor; [done|]. inversion Hsrt as [|? ? _ Hall]; subst.
      eapply Forall_impl; [exact Hall|]. simpl. intros; lia.
    + rewrite Hp' in Hmax. by apply Forall_app in Hmax as [_ Hmax].
    + constructor; [done|]. eapply Forall_impl; [exact Hold|]. by intros d [? _].
    + constructor; [|eapply Forall_impl; [exact Hold|]; by intros d [_ ?]].
      rewrite Hp' in Hmax. apply Forall_app in Hmax as [_ Hmax].
      unfold exhausted, unextendable in *. by apply Forall_and.
    + by constructor.
  - apply Permutation_length in Hp'. rewrite Hp', length_app. simpl. lia.
Qed.

Lemma chains_loop_spec fuel segments min_start m lst before :
  Forall seg_wf segments → Forall (λ s, min_start <= seg_start s) segments →
  min_start ∈ seg_start <$> segments →
  chains_inv segments min_start m lst before → (length (segs_of m) < fuel)%nat →
  ∃ c before' m', chains_loop fuel min_start m lst before = Ok (c, before') /\
    chains_inv segments min_start m' c before' /\ chain_start c = min_start.
Proof.
  revert m lst before. induction fuel as [|fuel IH];
    intros m lst before Hsw Hmin Hin Hinv Hf; [lia|].
  simpl. destruct (Z.eqb_spec (chain_start lst) min_start) as [Hst|Hst]; [eauto 6|].
  destruct (chains_inv_pick segments min_start m lst before) as (c & m' & -> & Hinv' & Hl);
    [done..|]. cbn. apply (IH m'); [done..|lia].
Qed.

Lemma filter_sorted_prefix (c : Chain) l :
  StronglySorted (λ a b, chain_end b <= chain_end a) l →
  ∃ k, filter (λ d, chain_end c <? chain_end d) l = take k l.
Proof.
  induction 1 as [|d l Hs [k IH] Hall]; [by exists 0%nat|].
  rewrite filter_cons. destruct (decide _) as [Hd|Hd].
  - exists (S k). simpl. by rewrite IH.
  - exists 0%nat. simpl. apply filter_none. rewrite Forall_forall in *.
    intros d' Hd' H. apply Hd. apply Is_true_true in H. apply Is_true_true.
    apply Z.ltb_lt in H. apply Z.ltb_lt. specialize (Hall d' Hd'). simpl in Hall. lia.
Qed.

Lemma pick_fork_spec c l :
  chain_end c + 1 <= u64_max → 0 <= chain_end c →
  StronglySorted (λ a b, chain_end b <= chain_end a) l →
  ∃ o, pick_fork c l = Ok o /\
    match o with
    | Some f => f ∈ l /\ fork_of c f /\ Forall (λ d, fork_of c d → chain_end d <= chain_end f) l
    | None => Forall (λ d, ~ fork_of c d) l
    end.
Proof.
  intros Hmax Hpos Hs. unfold pick_fork.
  rewrite add64_small by (unfold is_u64; lia).
  set (fl := filter (λ d, chain_end c <? chain_end d) l).
  assert (Hfl : ∀ d, d ∈ fl ↔ chain_end c < chain_end d /\ d ∈ l).
  { intros d. unfold fl. rewrite list_elem_of_filter, Is_true_true, Z.ltb_lt. done. }
  destruct (position _ fl) as [i|] eqn:Hpos'.
  - apply position_Some in Hpos' as (f & Hi & Hf & Hbefore). apply Z.leb_le in Hf.
    destruct (filter_sorted_prefix c l Hs) as [k Hk]. fold fl in Hk.
    rewrite Hk in Hi. apply lookup_take_Some in Hi as Hi'. destruct Hi' as [Hli Hik].
    rewrite Hli. exists (Some f). split; [done|].
    assert (Hfl' : f ∈ fl) by (rewrite Hk; by eapply list_elem_of_lookup_2).
    apply Hfl in Hfl' as [Hend Hin]. split; [done|]. split; [by split|].
    apply Forall_forall. intros d Hd [Hde Hds].
    apply list_elem_of_lookup in Hd as [j Hj].
    destruct (decide (i <= j)%nat) as [Hij|Hij].
    + destruct (decide (i = j)) as [->|]; [simplify_eq; lia|].
      apply (StronglySorted_lookup _ l i j f d Hs Hli Hj). lia.
    + exfalso. rewrite Forall_lookup in Hbefore. specialize (Hbefore j d).
      rewrite Hk, take_take, lookup_take_lt in Hbefore by lia.
      specialize (Hbefore Hj). simpl in Hbefore. apply Z.leb_gt in Hbefore. lia.
  - rewrite position_None in Hpos'. exists None. split; [done|].
    rewrite Forall_forall in *. intros d Hd [Hde Hds].
    specialize (Hpos' d). rewrite Z.leb_gt, Hfl in Hpos'. specialize (Hpos' (conj Hde Hd)). lia.
Qed.

Lemma StronglySorted_reverse {A} (R : A → A → Prop) l :
  StronglySorted R l → StronglySorted (λ a b, R b a) (reverse l).
Proof.
  induction 1 as [|x l Hs IH Hall]; [constructor|]. rewrite reverse_cons.
  apply StronglySorted_app. repeat split; [|done|repeat constructor].
  intros a b Ha Hb. apply list_elem_of_singleton in Hb as ->.
  rewrite Forall_forall in Hall. apply Hall. by rewrite elem_of_reverse in Ha.
Qed.

(** The whole of [chains]: it returns on every set of well-formed segments,
    and splits them as [chains_spec] says. *)
Lemma chains_correct segments :
  Forall seg_wf segments → segments ≠ [] →
  ∃ cs others left, chains segments = Ok (Some cs) /\ chains_spec segments cs others left.
Proof.
  intros Hsw Hne. unfold chains.
  destruct (list_min (seg_start <$> segments)) as [mn|] eqn:Hmn.
  2:{ apply list_min_None in Hmn. by destruct segments. }
  apply list_min_Some in Hmn as [Hin Hmin]. rewrite Forall_fmap in Hmin. unfold compose in Hmin.
  destruct (group_by_end_spec segments) as [Hgw Hgp].
  set (m := group_by_end segments) in *.
  assert (Hsw' : Forall seg_wf (segs_of m)) by (by rewrite Hgp).
  destruct (pick_chain_spec m Hgw Hsw') as (c & m' & -> & Hwf' & Hp & Hok & Hmax & Hun).
  { intros Hnil. rewrite Hnil in Hgp. symmetry in Hgp. by apply Permutation_nil_r in Hgp. }
  assert (Hperm : segments ≡ₚ chain_list c ++ segs_of m') by (by rewrite <- Hgp).
  assert (Hleft : Forall (λ s, seg_end s <= chain_end c) (segs_of m')).
  { rewrite Hp in Hmax. by apply Forall_app in Hmax as [_ ?]. }
  assert (Hex : exhausted (segs_of m') c) by (unfold exhausted; by apply Forall_and).
  cbn [mbind comp_bind]. destruct (Z.eqb_spec (chain_start c) mn) as [Hst|Hst].
  - exists (mkChains c None), [], (segs_of m'). split; [done|]. split; simpl;
      [done|by repeat constructor|by repeat constructor|by apply Forall_singleton
      |by rewrite Hst|constructor|done|constructor].
  - assert (Hinv : chains_inv segments mn m' c []).
    { split; [done| |by constructor|by repeat constructor|done|by repeat constructor
             |by apply Forall_singleton|constructor].
      cbn. by rewrite app_nil_r. }
    destruct (chains_loop_spec (S (count m')) segments mn m' c [] Hsw Hmin Hin Hinv)
      as (cn & before & m'' & -> & Hinv' & Hstart); [unfold count, segs_of; lia|].
    destruct Hinv' as [_ Hp' Hok' Hsrt Hleft' Hgr Hrest Hbef]. cbn [mbind comp_bind].
    assert (Hcw : Forall seg_wf (mjoin (chain_list <$> cn :: before) ++ segs_of m''))
      by (by rewrite <- Hp').
    apply Forall_app in Hcw as [Hcw _]. apply Forall_app in Hcw as [Hcw Hbw].
    apply list.Forall_cons in Hok' as [Hcok Hbok]. inversion Hsrt as [|? ? Hsrt' Hends]; subst.
    destruct (chain_last_in cn) as (s & Hs & Hls).
    destruct (pick_fork_spec cn (reverse before)) as (o & -> & Ho).
    { rewrite Forall_forall in Hcw. apply Hcw in Hs. unfold seg_wf, range_wf in Hs.
      unfold chain_end. rewrite Hls. unfold end_. lia. }
    { rewrite Forall_forall in Hcw. apply Hcw in Hs. unfold seg_wf, range_wf in Hs.
      unfold chain_end. rewrite Hls. unfold end_. lia. }
    { by apply (StronglySorted_reverse (λ a b, chain_end a <= chain_end b)). }
    exists (mkChains cn o), before, (segs_of m''). split; [done|]. split; simpl.
    + rewrite Hp'. cbn [fmap list_fmap mjoin list_join]. by rewrite app_assoc.
    + by constructor.
    + done.
    + done.
    + done.
    + apply Forall_forall. intros d Hd.
      rewrite Forall_forall in Hends. rewrite Forall_forall in Hbef.
      rewrite Forall_forall in Hmin. split; [|by apply Hends].
      assert (chain_start cn <= chain_start d); [|specialize (Hbef d Hd); lia].
      apply (Hmin (chain_head d)). rewrite Hp'. apply elem_of_app. left.
      apply list_elem_of_join. exists (chain_list d). split; [set_solver|].
      apply list_elem_of_fmap_2. set_solver.
    + done.
    + destruct o as [f|]; [|by rewrite Forall_reverse in Ho].
      by rewrite Forall_reverse, elem_of_reverse in Ho.
Qed.

Lemma chains_spec_wf segments cs others left c :
  Forall seg_wf segments → chains_spec segments cs others left →
  c ∈ canonical cs :: others → Forall seg_wf (chain_list c) /\ chain_ok c.
Proof.
  intros Hsw [Hp Hok _ _ _ _ _ _] Hc. split; [|by rewrite Forall_forall in Hok; apply Hok].
  rewrite Hp in Hsw. rewrite !Forall_app in Hsw. destruct Hsw as (Hcw & How & _).
  apply elem_of_cons in Hc as [->|Hc]; [done|].
  apply (segs_of_chain chain_list seg_wf c others []); [|done]. by rewrite app_nil_r.
Qed.

Lemma chains_nil : chains [] = Ok None.
Proof. done. Qed.

(** ** [missing_ranges] *)

Lemma subtract_segment_wf missing s :
  seg_wf s → Forall range_wf missing → Forall range_wf (subtract_segment missing s).
Proof.
  intros Hs Hm. unfold subtract_segment. induction Hm as [|m ms Hm _ IH]; [constructor|].
  cbn [fmap list_fmap mjoin list_join]. apply Forall_app. split; [|done].
  destruct (block_range_intersection _ _); [by apply missing_block_ranges_wf|by apply Forall_singleton].
Qed.

Lemma in_subtract_segment missing s n :
  seg_wf s → Forall range_wf missing →
  in_ranges n (subtract_segment missing s) ↔ in_ranges n missing /\ ~ seg_covers n s.
Proof.
  intros Hs Hm. unfold subtract_segment. induction Hm as [|m ms Hm _ IH].
  { simpl. pose proof (in_ranges_nil n). tauto. }
  cbn [fmap list_fmap mjoin list_join]. rewrite in_ranges_app, IH, in_ranges_cons.
  destruct (block_range_intersection _ _) as [r|] eqn:E.
  - rewrite in_missing_block_ranges by done.
    unfold seg_covers, seg_start, seg_end, start, end_. tauto.
  - apply block_range_intersection_None with (n := n) in E.
    rewrite in_ranges_cons. pose proof (in_ranges_nil n).
    unfold seg_covers, seg_start, seg_end, start, end_. tauto.
Qed.

Lemma subtract_segments segments missing :
  Forall seg_wf segments → Forall range_wf missing →
  Forall range_wf (foldl subtract_segment missing segments) /\
  ∀ n, in_ranges n (foldl subtract_segment missing segments) ↔
       in_ranges n missing /\ ~ Exists (seg_covers n) segments.
Proof.
  intros Hs. revert missing. induction Hs as [|s l Hs _ IH]; intros missing Hm; simpl.
  - split; [done|]. intros n. rewrite Exists_nil. tauto.
  - destruct (IH (subtract_segment missing s)) as [Hwf Hin]; [by apply subtract_segment_wf|].
    split; [done|]. intros n. rewrite Hin, in_subtract_segment, Exists_cons by done. tauto.
Qed.

(** The canonical segment that holds the block below a fork. *)
Lemma rfind_range_Some c block r :
  rfind_range block c = Some r →
  range_start r <= block <= range_end r /\ r ∈ (λ s, numbers (seg_range s)) <$> chain_list c.
Proof.
  unfold rfind_range. intros Hl. apply last_Some_elem_of in Hl.
  apply list_elem_of_filter in Hl as [Hc Hin]. split; [|done].
  apply Is_true_true in Hc. unfold range_contains in Hc.
  apply andb_true_iff in Hc as [?%Z.leb_le ?%Z.leb_le]. lia.
Qed.

Lemma rfind_range_covered c block s :
  s ∈ chain_list c → seg_covers block s → is_Some (rfind_range block c).
Proof.
  intros Hs Hc. unfold rfind_range. apply last_is_Some. intros Hnil.
  assert (Hin : numbers (seg_range s) ∈ filter (λ r, range_contains r block)
            ((λ s, numbers (seg_range s)) <$> chain_list c)); [|rewrite Hnil in Hin; set_solver].
  apply list_elem_of_filter. split; [|by apply (list_elem_of_fmap_2 (λ s, numbers (seg_range s)))].
  apply Is_true_true. unfold range_contains, seg_covers, seg_start, seg_end, start, end_ in *.
  apply andb_true_iff. rewrite !Z.leb_le. lia.
Qed.

Lemma reorg_missing_spec segments desired :
  Forall seg_wf segments → range_wf desired →
  ∃ cs, chains segments = Ok cs /\ Forall range_wf (reorg_missing cs desired) /\
    ∀ n, in_ranges n (reorg_missing cs desired) ↔
      (range_start desired <= n <= range_end desired) /\
      ∃ c f s, cs = Some (mkChains c (Some f)) /\ s ∈ chain_list c /\
               seg_covers (chain_start f - 1) s /\ seg_start s <= n <= chain_start f - 1.
Proof.
  intros Hsw Hd. destruct (decide (segments = [])) as [->|Hne].
  { exists None. split_and!; [done|constructor|]. intros n. pose proof (in_ranges_nil n).
    simpl. naive_solver. }
  destruct (chains_correct segments Hsw Hne) as ([c fk] & os & left & Hcs & Hspec).
  exists (Some (mkChains c fk)). split; [done|]. destruct fk as [f|]; simpl.
  2:{ split; [constructor|]. intros n. pose proof (in_ranges_nil n). naive_solver. }
  destruct (chains_spec_wf segments _ os left c Hsw Hspec) as [Hcw Hcok]; [set_solver|].
  destruct (spec_fork _ _ _ _ Hspec) as (Hf & [_ Hfo] & _).
  pose proof (spec_others _ _ _ _ Hspec) as Ho. rewrite Forall_forall in Ho.
  destruct (Ho f Hf) as [Hfs _]. simpl in Hfo, Hfs.
  destruct (chain_covers c (chain_start f - 1) Hcw Hcok) as (s & Hs & Hsc); [lia|].
  rewrite Forall_forall in Hcw. pose proof (Hcw s Hs) as Hsw'.
  unfold seg_wf, range_wf, seg_covers, seg_start, seg_end, start, end_ in *.
  rewrite sub64_small by (unfold is_u64, u64_max in *; lia).
  destruct (rfind_range_covered c (chain_start f - 1) s Hs) as [r Hr];
    [unfold seg_covers, seg_start, seg_end, start, end_; lia|].
  rewrite Hr. apply rfind_range_Some in Hr as [Hrc Hrin].
  apply list_elem_of_fmap in Hrin as (s' & -> & Hs').
  assert (Huniq : ∀ s'', s'' ∈ chain_list c → range_start (numbers (seg_range s'')) <=
      chain_start f - 1 <= range_end (numbers (seg_range s'')) → s'' = s').
  { intros s'' Hs'' Hc''. apply list_elem_of_lookup in Hs'' as [i Hi].
    apply list_elem_of_lookup in Hs' as [j Hj].
    pose proof (chain_disjoint (chain_head c) (chain_tail c)) as Hdis.
    fold (chain_list c) in Hdis. rewrite <- Forall_forall in Hcw. specialize (Hdis Hcw Hcok).
    destruct (lt_eq_lt_dec i j) as [[Hij| ->]|Hij]; [|by simplify_eq|].
    - apply (StronglySorted_lookup _ _ _ _ _ _ Hdis Hi Hj) in Hij.
      unfold seg_start, seg_end, start, end_ in Hij. lia.
    - apply (StronglySorted_lookup _ _ _ _ _ _ Hdis Hj Hi) in Hij.
      unfold seg_start, seg_end, start, end_ in Hij. lia. }
  assert (Hrw : range_wf (mkRange (range_start (numbers (seg_range s'))) (chain_start f - 1))).
  { specialize (Hcw s' Hs'). unfold range_wf. simpl. lia. }
  destruct (block_range_intersection _ desired) as [r|] eqn:E.
  - split; [apply Forall_singleton; exact (block_range_intersection_wf _ _ _ Hrw Hd E)|].
    apply block_range_intersection_Some in E as [_ E]. intros n.
    rewrite in_ranges_cons, E. simpl. pose proof (in_ranges_nil n). split.
    + intros [?|?]; [|done]. split; [lia|]. exists c, f, s'. split_and!; [done..|lia|lia|lia|lia].
    + intros (? & c' & f' & s'' & [= <- <-] & Hs'' & Hc'' & ?).
      rewrite (Huniq s'' Hs'' Hc'') in *. left. lia.
  - split; [constructor|]. intros n. pose proof (in_ranges_nil n).
    split; [done|]. intros (? & c' & f' & s'' & [= <- <-] & Hs'' & Hc'' & ?).
    apply block_range_intersection_None with (n := n) in E.
    rewrite (Huniq s'' Hs'' Hc'') in *. simpl in E. lia.
Qed.

(** ** The result does not depend on the order of the input *)

Lemma unstable_sort_unique (key : Segment → Z) l l' :
  l ≡ₚ l' → NoDup (key <$> l) → unstable_sort key l = unstable_sort key l'.
Proof.
  intros Hp Hnd. apply (StronglySorted_unique_strong (key_le key)).
  - intros x y Hx Hy Hxy Hyx. rewrite unstable_sort_perm in Hx, Hy. rewrite <- Hp in Hy.
    apply list_elem_of_lookup in Hx as [i Hi]. apply list_elem_of_lookup in Hy as [j Hj].
    assert (Hij : i = j).
    { apply (NoDup_lookup _ i j (key x) Hnd); rewrite list_lookup_fmap; [by rewrite Hi|].
      rewrite Hj. simpl. unfold key_le in *. f_equal. lia. }
    simplify_eq. congruence.
  - apply unstable_sort_sorted.
  - apply unstable_sort_sorted.
  - by rewrite !unstable_sort_perm, Hp.
Qed.

Lemma pick_segment_equiv m m' e next :
  by_end_equiv m m' → distinct_times m →
  same_outcome (pick_segment m e next) (pick_segment m' e next).
Proof.
  intros Heq Hd. unfold pick_segment. pose proof (Heq e) as He.
  destruct (m !! e) as [l|] eqn:Hm, (m' !! e) as [l'|] eqn:Hm'; try by inversion He.
  assert (Hll : l ≡ₚ l') by (by inversion He). pose proof (Hd e l Hm) as Hnd.
  change (λ s : Segment, last_modified (seg_object s)) with seg_time.
  rewrite <- (unstable_sort_unique seg_time l l' Hll Hnd).
  set (s := unstable_sort seg_time l) in *.
  assert (Hsd : NoDup (seg_time <$> s)) by (unfold s; by rewrite unstable_sort_perm).
  assert (Hins : ∀ k, NoDup (seg_time <$> k) →
    by_end_equiv (<[e:=k]> m) (<[e:=k]> m') /\ distinct_times (<[e:=k]> m)).
  { intros k Hk. split; [|by apply map_Forall_insert_2].
    intros j. destruct (decide (e = j)) as [<-|];
      [rewrite !lookup_insert_eq; by constructor|rewrite !lookup_insert_ne by done; apply Heq]. }
  destruct (rposition (precedes next) s) as [i|]; [|by split; [|apply Hins]].
  destruct (s !! i) as [x|] eqn:Hi; [|done]. cbn [unwrap mbind comp_bind].
  pose proof (remove_at_perm s i x Hi) as Hrem.
  assert (Hrd : NoDup (seg_time <$> remove_at i s)).
  { rewrite Hrem in Hsd. simpl in Hsd. by apply NoDup_cons in Hsd as [_ ?]. }
  destruct (remove_at i s) as [|y r]; split; try done; [|by apply Hins].
  split; [|by apply map_Forall_delete]. intros j. destruct (decide (e = j)) as [<-|];
    [rewrite !lookup_delete_eq; by constructor|rewrite !lookup_delete_ne by done; apply Heq].
Qed.

Lemma pick_chain_loop_equiv fuel m m' next rest :
  by_end_equiv m m' → distinct_times m →
  same_outcome (pick_chain_loop fuel m next rest) (pick_chain_loop fuel m' next rest).
Proof.
  revert m m' next rest. induction fuel as [|fuel IH]; intros m m' next rest Heq Hd; simpl;
    (destruct (seg_start next =? 0); [done|]); [done|].
  pose proof (pick_segment_equiv m m' (sub64 (seg_start next) 1) (Some (seg_range next)) Heq Hd) as Hs.
  destruct (pick_segment m _ _) as [[o m1]|[]| |], (pick_segment m' _ _) as [[o' m1']|[]| |]; try done.
  destruct Hs as (-> & Heq' & Hd'). cbn. destruct o' as [s|]; [by apply IH|done].
Qed.

Lemma by_end_equiv_segs m m' : by_end_equiv m m' → segs_of m ≡ₚ segs_of m'.
Proof.
  revert m'. induction m as [|e l m Hm IH] using map_ind; intros m' Heq.
  - assert (m' = ∅) as ->; [|done]. apply map_empty. intros e.
    specialize (Heq e). rewrite lookup_empty in Heq. by inversion Heq.
  - pose proof (Heq e) as He. rewrite lookup_insert_eq in He.
    inversion He as [? l' Hp Hl Hl'|]; subst. symmetry in Hl'.
    rewrite segs_of_insert_new by done. rewrite (segs_of_lookup m' e l' Hl'), Hp. f_equiv.
    apply IH. intros j. destruct (decide (e = j)) as [<-|Hne].
    + rewrite lookup_delete_eq, Hm. constructor.
    + specialize (Heq j). rewrite lookup_insert_ne in Heq by done. by rewrite lookup_delete_ne.
Qed.

Lemma by_end_equiv_last_key m m' : by_end_equiv m m' → last_key m = last_key m'.
Proof.
  intros Heq.
  assert (Hdom : ∀ k, is_Some (m !! k) ↔ is_Some (m' !! k)).
  { intros k. specialize (Heq k). inversion Heq; split; intros [? ?]; try done; by eexists. }
  destruct (last_key m) as [k|] eqn:Hk, (last_key m') as [k'|] eqn:Hk'; [| | |done].
  - apply last_key_Some in Hk as [Hk Hmax]. apply last_key_Some in Hk' as [Hk' Hmax'].
    apply Hdom in Hk. apply Hdom in Hk'. f_equal. apply Hmax in Hk'. apply Hmax' in Hk. lia.
  - exfalso. apply last_key_Some in Hk as [Hk _]. apply Hdom in Hk.
    apply last_key_None in Hk' as ->. by destruct Hk.
  - exfalso. apply last_key_Some in Hk' as [Hk' _]. apply Hdom in Hk'.
    apply last_key_None in Hk as ->. by destruct Hk'.
Qed.

Lemma count_equiv m m' : by_end_equiv m m' → count m = count m'.
Proof. intros Heq. unfold count. apply Permutation_length. by apply by_end_equiv_segs. Qed.

Lemma pick_chain_equiv m m' :
  by_end_equiv m m' → distinct_times m → same_outcome (pick_chain m) (pick_chain m').
Proof.
  intros Heq Hd. unfold pick_chain. rewrite <- (by_end_equiv_last_key m m' Heq).
  destruct (last_key m) as [e|]; [|done]. cbn [unwrap mbind comp_bind].
  pose proof (pick_segment_equiv m m' e None Heq Hd) as Hs.
  destruct (pick_segment m _ _) as [[o m1]|[]| |], (pick_segment m' _ _) as [[o' m1']|[]| |]; try done.
  destruct Hs as (-> & Heq' & Hd'). cbn [mbind comp_bind].
  destruct o' as [s|]; [|done]. cbn [unwrap mbind comp_bind].
  rewrite (count_equiv m1 m1' Heq'). by apply pick_chain_loop_equiv.
Qed.

Lemma chains_loop_equiv fuel mn m m' lst before :
  by_end_equiv m m' → distinct_times m →
  chains_loop fuel mn m lst before = chains_loop fuel mn m' lst before.
Proof.
  revert m m' lst before. induction fuel as [|fuel IH]; intros m m' lst before Heq Hd; simpl;
    [done|]. destruct (chain_start lst =? mn); [done|].
  pose proof (pick_chain_equiv m m' Heq Hd) as Hs.
  destruct (pick_chain m) as [[c m1]|[]| |], (pick_chain m') as [[c' m1']|[]| |]; try done.
  destruct Hs as (-> & Heq' & Hd'). cbn. by apply IH.
Qed.

Lemma group_by_end_lookup segments e :
  group_by_end segments !! e =
  match filter (λ s, seg_end s = e) segments with [] => None | l => Some l end.
Proof.
  unfold group_by_end. induction segments as [|s l IH] using rev_ind; [done|].
  rewrite foldl_snoc, filter_app, filter_cons, filter_nil.
  destruct (decide (seg_end s = e)) as [<-|Hne].
  - rewrite lookup_insert_eq, IH. by destruct (filter _ l).
  - by rewrite lookup_insert_ne, app_nil_r, IH by done.
Qed.

Lemma group_by_end_equiv segments segments' :
  segments ≡ₚ segments' → by_end_equiv (group_by_end segments) (group_by_end segments').
Proof.
  intros Hp e. rewrite !group_by_end_lookup.
  assert (Hf : filter (λ s, seg_end s = e) segments ≡ₚ filter (λ s, seg_end s = e) segments')
    by (by rewrite Hp).
  destruct (filter _ segments), (filter _ segments'); try by constructor.
  - by apply Permutation_nil_cons in Hf.
  - symmetry in Hf. by apply Permutation_nil_cons in Hf.
Qed.

Lemma group_by_end_distinct segments :
  NoDup ((λ s, (seg_end s, seg_time s)) <$> segments) → distinct_times (group_by_end segments).
Proof.
  intros Hnd e l. rewrite group_by_end_lookup. intros Hl.
  assert (l = filter (λ s, seg_end s = e) segments) as -> by (destruct (filter _ _); congruence).
  clear Hl. induction segments as [|s segments IH]; [constructor|].
  apply NoDup_cons in Hnd as [Hni Hnd]. rewrite filter_cons.
  destruct (decide (seg_end s = e)) as [<-|]; [|by apply IH].
  simpl. apply NoDup_cons. split; [|by apply IH].
  intros Hin. apply Hni. apply list_elem_of_fmap in Hin as (s' & Ht & Hs').
  apply list_elem_of_filter in Hs' as [He Hs']. apply list_elem_of_fmap.
  exists s'. by rewrite Ht, He.
Qed.

Lemma missing_ranges_spec segments desired :
  Forall seg_wf segments → range_wf desired →
  ∃ ms cs, missing_ranges segments desired = Ok ms /\ chains segments = Ok cs /\
    normalized ms /\
    ∀ n, in_ranges n ms ↔
      (range_start desired <= n <= range_end desired) /\
      (~ Exists (seg_covers n) segments \/
       ∃ c f s, cs = Some (mkChains c (Some f)) /\ s ∈ chain_list c /\
                seg_covers (chain_start f - 1) s /\ seg_start s <= n <= chain_start f - 1).
Proof.
  intros Hsw Hd. unfold missing_ranges.
  destruct (subtract_segments segments [desired] Hsw) as [Hmw Hmin]; [by apply Forall_singleton|].
  set (missing := foldl subtract_segment [desired] segments) in *.
  destruct (reorg_missing_spec segments desired Hsw Hd) as (cs & Hcs & Hrw & Hrin).
  rewrite Hcs. cbn [mbind comp_bind].
  exists (merge_ranges (missing ++ reorg_missing cs desired)), cs.
  assert (Hw : Forall range_wf (missing ++ reorg_missing cs desired)) by (by apply Forall_app).
  split; [done|]. split; [done|]. split; [by apply merge_ranges_normalized|].
  intros n. rewrite merge_ranges_blocks, in_ranges_app, Hmin, Hrin, in_ranges_cons by done.
  pose proof (in_ranges_nil n). tauto.
Qed.

(** ** Properties *)

(** C1: The canonical chain of a non-empty set of well-formed segments exists
    (every loop of the search ends and no unwrap fails); it is made of some of
    the segments, starts at the earliest available block, its segments are
    adjacent by number, network and hash and do not overlap, and it covers
    every block between its ends. *)
Theorem canonical_chain_correct segments :
  Forall seg_wf segments → segments ≠ [] →
  ∃ c, canonical_chain segments = Ok (Some c) /\ chain_ok c /\
    (∃ rest, segments ≡ₚ chain_list c ++ rest) /\
    Forall (λ s, chain_start c <= seg_start s) segments /\
    StronglySorted (λ a b, seg_end a < seg_start b) (chain_list c) /\
    (∀ n, chain_start c <= n <= chain_end c → ∃ s, s ∈ chain_list c /\ seg_covers n s).
Proof.
  intros Hsw Hne. destruct (chains_correct segments Hsw Hne) as (cs & os & left & Hcs & Hspec).
  exists (canonical cs). unfold canonical_chain. rewrite Hcs. split; [done|].
  destruct (chains_spec_wf segments cs os left (canonical cs) Hsw Hspec) as [Hw Hok]; [set_solver|].
  split; [done|]. split; [eexists; apply (spec_perm _ _ _ _ Hspec)|].
  split; [apply (spec_start _ _ _ _ Hspec)|].
  split; [by apply chain_disjoint|]. intros n Hn. by apply chain_covers.
Qed.

(** The segments are split into the canonical chain, other chains picked
    before it (newest first) and a rest, each chain being made of adjacent
    segments and picked greedily: nothing that was left when it was picked
    ends higher or could extend it. A fork is reported exactly when one of the
    other chains rises above the canonical chain without a gap; the reported
    one is the highest of these, and the block below it lies in the canonical
    chain (so [fork.start() - 1] does not underflow). *)
Theorem fork_correct segments cs :
  Forall seg_wf segments → chains segments = Ok (Some cs) →
  ∃ others left,
    segments ≡ₚ chain_list (canonical cs) ++ mjoin (chain_list <$> others) ++ left /\
    Forall chain_ok (canonical cs :: others) /\
    StronglySorted (λ newer older, exhausted (chain_list newer) older) (canonical cs :: others) /\
    Forall (exhausted left) (canonical cs :: others) /\
    match fork cs with
    | Some f => f ∈ others /\ fork_of (canonical cs) f /\
                chain_start (canonical cs) <= chain_start f - 1 <= chain_end (canonical cs) /\
                Forall (λ c, fork_of (canonical cs) c → chain_end c <= chain_end f) others
    | None => Forall (λ c, ~ fork_of (canonical cs) c) others
    end.
Proof.
  intros Hsw Hcs. destruct segments as [|s0 segments]; [done|].
  destruct (chains_correct (s0 :: segments) Hsw) as (cs' & os & left & Hcs' & Hspec); [done|].
  rewrite Hcs in Hcs'. injection Hcs' as <-. exists os, left.
  split; [apply (spec_perm _ _ _ _ Hspec)|]. split; [apply (spec_ok _ _ _ _ Hspec)|].
  split; [apply (spec_greedy _ _ _ _ Hspec)|]. split; [apply (spec_rest _ _ _ _ Hspec)|].
  pose proof (spec_fork _ _ _ _ Hspec) as Hf. destruct (fork cs) as [f|]; [|done].
  destruct Hf as (Hin & Hfo & Hmax).
  split_and!; try done.
  - pose proof (spec_others _ _ _ _ Hspec) as Ho. rewrite Forall_forall in Ho.
    destruct (Ho f Hin). lia.
  - destruct Hfo. lia.
Qed.

(** C39: The missing ranges are sorted and separated by gaps, and hold exactly
    the desired blocks that no segment covers together with the blocks of the
    canonical segment below the fork, up to the block before the fork, when
    there is a reorg. *)
Theorem missing_ranges_correct segments desired :
  Forall seg_wf segments → range_wf desired →
  ∃ ms cs, missing_ranges segments desired = Ok ms /\ chains segments = Ok cs /\
    normalized ms /\
    ∀ n, in_ranges n ms ↔
      (range_start desired <= n <= range_end desired) /\
      (~ Exists (seg_covers n) segments \/
       ∃ c f s, cs = Some (mkChains c (Some f)) /\ s ∈ chain_list c /\
                seg_covers (chain_start f - 1) s /\ seg_start s <= n <= chain_start f - 1).
Proof. apply missing_ranges_spec. Qed.

(** The sweep of well-formed segments ends, with some of the segments. *)
Lemma reclaimable_total segments :
  Forall seg_wf segments →
  ∃ rs, reclaimable_segments segments = Ok rs /\ ∀ s, s ∈ rs → s ∈ segments.
Proof.
  intros Hsw. unfold reclaimable_segments.
  destruct (decide (segments = [])) as [->|Hne]; [by exists []|].
  destruct (chains_correct segments Hsw Hne) as ([c fk] & os & left & Hcs & _).
  rewrite Hcs. cbn [mbind comp_bind]. eexists. split; [done|].
  intros s. rewrite !list_elem_of_filter. tauto.
Qed.

(** C2: Deleting the reclaimable segments loses no data: none of them belongs
    to the canonical chain or to the fork, and every block covered before is
    still covered by a segment that is kept. *)
Theorem reclaimable_segments_safe segments :
  Forall seg_wf segments →
  ∃ cs reclaimed, chains segments = Ok cs /\ reclaimable_segments segments = Ok reclaimed /\
    (∀ s, s ∈ reclaimed → s ∈ segments /\
       ∀ c, cs = Some c → s ∉ chain_list (canonical c) /\
                          (∀ f, fork c = Some f → s ∉ chain_list f)) /\
    ∀ n, Exists (seg_covers n) segments →
         Exists (seg_covers n) (filter (λ s, s ∉ reclaimed) segments).
Proof.
  intros Hsw. unfold reclaimable_segments.
  destruct (decide (segments = [])) as [->|Hne].
  { exists None, []. split_and!; [done..|set_solver|]. intros n Hn. by apply Exists_nil in Hn. }
  destruct (chains_correct segments Hsw Hne) as ([c fk] & os & left & Hcs & Hspec).
  exists (Some (mkChains c fk)). rewrite Hcs. cbn [mbind comp_bind].
  set (ret := (_ ∪ _ : gset Z)). eexists. split; [done|]. split; [done|].
  destruct (chains_spec_wf segments _ os left c Hsw Hspec) as [Hcw Hcok]; [set_solver|].
  assert (Hcret : ∀ s, s ∈ chain_list c → seg_id s ∈ ret).
  { intros s Hs. apply elem_of_union_l, elem_of_list_to_set. by apply list_elem_of_fmap_2. }
  split.
  - intros s. rewrite !list_elem_of_filter. intros (_ & Hid & Hs). split; [done|].
    intros ? [= <-]. simpl. split; [by intros ?%Hcret|]. intros f -> Hf. apply Hid.
    apply elem_of_union_r, elem_of_list_to_set. by apply list_elem_of_fmap_2.
  - intros n. rewrite !Exists_exists. intros (s & Hs & Hn).
    destruct (decide (s ∈ filter (λ s, (chain_start c <=? seg_start s) && (seg_end s <=? chain_end c))
              (filter (λ s, seg_id s ∉ ret) segments))) as [Hr|Hr].
    + rewrite !list_elem_of_filter, Is_true_true, andb_true_iff, !Z.leb_le in Hr.
      unfold seg_covers in Hn.
      destruct (chain_covers c n Hcw Hcok) as (s' & Hs' & Hn'); [lia|].
      exists s'. split; [|done]. apply list_elem_of_filter. split.
      * rewrite !list_elem_of_filter. intros (_ & Hid & _). by apply Hid, Hcret.
      * rewrite (spec_perm _ _ _ _ Hspec). apply elem_of_app. by left.
    + exists s. split; [|done]. by apply list_elem_of_filter.
Qed.

(** The input order does not affect the result: two orderings of segments
    of which no two have both the same end and the same modification time give
    the same canonical chain and fork. *)
Theorem chains_order_independent segments segments' :
  segments ≡ₚ segments' → NoDup ((λ s, (seg_end s, seg_time s)) <$> segments) →
  chains segments = chains segments'.
Proof.
  intros Hp Hnd. unfold chains.
  rewrite <- (list_min_perm (seg_start <$> segments) (seg_start <$> segments')) by (by rewrite Hp).
  destruct (list_min _) as [mn|]; [|done].
  pose proof (pick_chain_equiv _ _ (group_by_end_equiv _ _ Hp) (group_by_end_distinct _ Hnd)) as Hs.
  destruct (pick_chain (group_by_end segments)) as [[c m1]|[]| |],
    (pick_chain (group_by_end segments')) as [[c' m1']|[]| |]; try done.
  destruct Hs as (-> & Heq & Hd). cbn [mbind comp_bind].
  by rewrite (count_equiv m1 m1' Heq), (chains_loop_equiv _ _ m1 m1').
Qed.
End Proofs.

(** ** The properties at concrete inputs *)

Ltac solve_wf := repeat constructor; cbn; unfold u64_max; lia.

Lemma canonical_chain_correct_witness :
  ∃ c, canonical_chain forked_segments = Ok (Some c) /\ chain_ok c /\
       seg_id <$> chain_list c = [2; 1; 3].
Proof.
  destruct (canonical_chain_correct forked_segments) as (c & Hc & Hok & _); [solve_wf|done|].
  exists c. split; [done|]. split; [done|]. vm_compute in Hc. by injection Hc as <-.
Defined.

Lemma fork_correct_witness :
  ∃ cs f, chains forked_segments = Ok (Some cs) /\ fork cs = Some f /\
          fork_of (canonical cs) f /\ chain_start f = 6.
Proof.
  destruct (chains forked_segments) as [[cs|]|[]| |] eqn:E; try by vm_compute in E.
  assert (Hwf : Forall seg_wf forked_segments) by solve_wf.
  destruct (fork_correct forked_segments cs Hwf E) as (os & left & _ & _ & _ & _ & Hf).
  vm_compute in E. injection E as <-. simpl in *.
  eexists _, _. split; [done|]. split; [done|]. split; [apply Hf|done].
Defined.

Lemma missing_ranges_correct_witness :
  ∃ ms, missing_ranges forked_segments (mkRange 0 20) = Ok ms /\ normalized ms /\
        ms = [mkRange 3 5; mkRange 12 20].
Proof.
  destruct (missing_ranges_correct forked_segments (mkRange 0 20)) as (ms & cs & Hms & _ & Hn & _);
    [solve_wf|solve_wf|].
  exists ms. split; [done|]. split; [done|]. vm_compute in Hms. by injection Hms as <-.
Defined.

Lemma reclaimable_segments_safe_witness :
  ∃ r, reclaimable_segments forked_segments = Ok r /\ seg_id <$> r = [6] /\
       Exists (seg_covers 4) (filter (λ s, s ∉ r) forked_segments).
Proof.
  destruct (reclaimable_segments_safe forked_segments) as (cs & r & _ & Hr & _ & Hn); [solve_wf|].
  exists r. split; [done|]. split; [vm_compute in Hr; by injection Hr as <-|].
  apply Hn. left. vm_compute. by split.
Defined.

Lemma chains_order_independent_witness :
  chains forked_segments = chains (reverse forked_segments).
Proof.
  apply (chains_order_independent forked_segments (reverse forked_segments)).
  - by rewrite reverse_Permutation.
  - apply (bool_decide_unpack _). by vm_compute.
Defined.

(** The search is greedy: the canonical chain is not always the one with the
    greatest height reachable through contiguous segments. *)
Theorem canonical_chain_not_highest :
  ∃ c longer rest, canonical_chain dead_end_segments = Ok (Some c) /\ chain_ok longer /\
    dead_end_segments ≡ₚ chain_list longer ++ rest /\
    chain_start longer = chain_start c /\ chain_end c = 9 /\ chain_end longer = 14.
Proof.
  eexists _, (mkChain (test_segment 1 0 4 0 0 1) [test_segment 2 5 9 0 0 2; test_segment 4 10 14 0 0 4]),
    [test_segment 3 7 9 0 0 3].
  split; [vm_compute; reflexivity|]. split; [by vm_compute|]. split_and!; try done.
  unfold dead_end_segments, chain_list. simpl. do 2 constructor. constructor.
Qed.
