(* ===== verification/Decimal.v ===== *)
(** * Decimal

    Decimal printing and parsing of machine integers as the Rust standard
    library does it: [Display] for [u64] and [str::parse] for [u64] and [i64]
    (an optional sign, at least one digit, leading zeros allowed, an error when
    the value does not fit). *)

From stdpp Require Import base numbers strings option sets list.
From Stdlib Require Import ZArith Lia Ascii DecimalString DecimalN DecimalFacts.
From S2P Require Import Prelude.

Definition digits_of (n : Z) : string := NilZero.string_of_uint (N.to_uint (Z.to_N n)).

Definition value_of (s : string) : option Z :=
  (λ d, Z.of_N (N.of_uint d)) <$> NilZero.uint_of_string s.

(** [Display] for [u64]. *)
Definition display_u64 (n : Z) : string := digits_of n.

Definition parse_u64 (s : string) : option Z :=
  let digits := match s with String "+"%char rest => rest | _ => s end in
  v ← value_of digits;
  if v <=? u64_max then Some v else None.

Definition parse_i64 (s : string) : option Z :=
  match s with
  | String "-"%char rest => v ← value_of rest; if i64_min <=? - v then Some (- v) else None
  | String "+"%char rest => v ← value_of rest; if v <=? i64_max then Some v else None
  | _ => v ← value_of s; if v <=? i64_max then Some v else None
  end.

Lemma value_of_digits n : 0 <= n → value_of (digits_of n) = Some n.
Proof.
  intros Hn. unfold value_of, digits_of. rewrite NilZero.usu.
  - simpl. f_equal. rewrite DecimalN.Unsigned.of_to. lia.
  - intros Hnil. pose proof (DecimalN.Unsigned.of_to (Z.to_N n)) as H.
    destruct (Z.to_N n) as [|p]; [done|]. rewrite Hnil in H. done.
Qed.

Lemma value_of_nonneg s v : value_of s = Some v → 0 <= v.
Proof. unfold value_of. destruct (NilZero.uint_of_string s); intros; simplify_eq/=. lia. Qed.

(** The printed form starts with a digit. *)
Lemma digits_of_head n :
  match digits_of n with
  | String c _ => c ∈ ["0"; "1"; "2"; "3"; "4"; "5"; "6"; "7"; "8"; "9"]%char
  | EmptyString => False
  end.
Proof.
  unfold digits_of. destruct (N.to_uint (Z.to_N n)) eqn:E; simpl; set_solver.
Qed.

Lemma value_of_bad_sign c s :
  c = "-"%char \/ c = "+"%char → value_of (String c s) = None.
Proof.
  unfold value_of, NilZero.uint_of_string. intros [-> | ->]; simpl;
    destruct (NilEmpty.uint_of_string s); done.
Qed.

Lemma digits_of_case {A} n (m p : string → A) (d : A) :
  match digits_of n with String "-"%char r => m r | String "+"%char r => p r | _ => d end = d.
Proof.
  pose proof (digits_of_head n) as H. destruct (digits_of n) as [|c r]; [done|].
  rewrite !elem_of_cons, elem_of_nil in H.
  destruct_or! H; by subst.
Qed.

Lemma parse_i64_digits n :
  0 <= n → parse_i64 (digits_of n) = if n <=? i64_max then Some n else None.
Proof.
  intros Hn. unfold parse_i64.
  rewrite (digits_of_case n (λ r, v ← value_of r; if i64_min <=? - v then Some (- v) else None)
    (λ r, v ← value_of r; if v <=? i64_max then Some v else None)).
  by rewrite value_of_digits.
Qed.

Lemma parse_i64_neg n :
  0 <= n → parse_i64 (String "-"%char (digits_of n)) = if i64_min <=? - n then Some (- n) else None.
Proof. intros Hn. unfold parse_i64. by rewrite value_of_digits. Qed.

Lemma parse_u64_digits n :
  is_u64 n → parse_u64 (display_u64 n) = Some n.
Proof.
  intros [Hn Hm]. unfold parse_u64, display_u64.
  pose proof (digits_of_head n) as Hh. destruct (digits_of n) as [|c r] eqn:E; [done|].
  assert (Hv : value_of (String c r) = Some n) by (rewrite <- E; by apply value_of_digits).
  replace (match String c r with String "+"%char rest => rest | _ => String c r end) with (String c r)
    by (rewrite !elem_of_cons, elem_of_nil in Hh; destruct_or! Hh; by subst).
  rewrite Hv. simpl. destruct (Z.leb_spec n u64_max); [done|lia].
Qed.

Lemma parse_i64_range s v : parse_i64 s = Some v → is_i64 v.
Proof.
  unfold parse_i64, is_i64, i64_min, i64_max. intros H.
  assert (Hnn : ∀ t w, value_of t = Some w → 0 <= w) by apply value_of_nonneg.
  repeat case_match; simplify_option_eq; bool_to_prop; simplify_eq;
    repeat match goal with E : value_of _ = Some _ |- _ => apply Hnn in E end; lia.
Qed.
