(* ===== verification/EndBlock.v ===== *)
(** * EndBlock

    The end of a dump: core/dump/src/block_ranges.rs. The arithmetic mixes
    [u64] and [i64] casts, all written out; the future that fetches the latest
    block is its result. *)

From stdpp Require Import base numbers strings option sets list.
From Stdlib Require Import ZArith Lia Ascii.
From S2P Require Import Prelude Decimal.

Inductive EndBlock :=
  | NoEnd
  | Latest
  | Absolute (n : Z)
  | LatestMinus (n : Z).

Inductive ResolvedEndBlock :=
  | Continuous
  | Block (n : Z)
  | NoDataAvailable.

Inductive ResolutionError :=
  | InvalidEndBlock (start_block end_block : Z)
  | FetchLatestFailed (cause : string).

#[global] Instance EndBlock_eq_dec : EqDecision EndBlock.
Proof. solve_decision. Defined.

(** [invalid_end_block] *)
Definition invalid_end_block (start_block end_block : Z) : ResolutionError :=
  InvalidEndBlock start_block end_block.

(** [n as i64] is [to_i64], [x as u64] is [wrap64]; [i64] sums wrap. *)
Definition resolve_relative (start : Z) (end_ : option Z) (latest_block : Z)
    : comp ResolutionError Z :=
  let e :=
    match end_ with
    | None => latest_block
    | Some n => if 0 <=? n then wrap64 n
                else wrap64 (to_i64 (to_i64 latest_block + n))
    end in
  if e <? start then Err (invalid_end_block start e) else Ok e.

(** [get_latest.await.map_err(..)?] *)
Definition fetch_latest (get_latest : comp string (option Z)) : comp ResolutionError (option Z) :=
  match get_latest with
  | Ok o => Ok o
  | Err e => Err (FetchLatestFailed e)
  | Panic => Panic
  | OutOfFuel => OutOfFuel
  end.

Definition resolve (eb : EndBlock) (start : Z) (get_latest : comp string (option Z))
    : comp ResolutionError ResolvedEndBlock :=
  match eb with
  | NoEnd => Ok Continuous
  | Latest =>
      latest ← fetch_latest get_latest;
      match latest with
      | Some block => Ok (Block block)
      | None => Ok NoDataAvailable
      end
  | Absolute block =>
      if block <? start then Err (invalid_end_block start block) else Ok (Block block)
  | LatestMinus offset =>
      latest ← fetch_latest get_latest;
      match latest with
      | Some latest_block =>
          resolved ← resolve_relative start (Some (to_i64 (- to_i64 offset))) latest_block;
          Ok (Block resolved)
      | None => Ok NoDataAvailable
      end
  end.

(** [Display] *)
Definition to_string (eb : EndBlock) : string :=
  match eb with
  | NoEnd => "none"
  | Latest => "latest"
  | Absolute n => display_u64 n
  | LatestMinus n => "-" +:+ display_u64 n
  end.

(** [FromStr] *)
Definition from_str (s : string) : comp string EndBlock :=
  if bool_decide (s = "latest") then Ok Latest
  else match parse_i64 s with
       | Some n => if 0 <=? n then Ok (Absolute (wrap64 n))
                   else Ok (LatestMinus (wrap64 (to_i64 (- n))))
       | None => Err ("invalid end block value: '" +:+ s +:+ "'")
       end.

(** [serde]: [None] is null, every other value its printed form. *)
Definition serialize (eb : EndBlock) : option string :=
  match eb with
  | NoEnd => None
  | _ => Some (to_string eb)
  end.

Definition deserialize (o : option string) : comp string EndBlock :=
  match o with
  | None => Ok NoEnd
  | Some s => from_str s
  end.

(** The fields are [u64]. *)
Definition end_block_wf (eb : EndBlock) : Prop :=
  match eb with
  | Absolute n | LatestMinus n => is_u64 n
  | _ => True
  end.

(** The values that survive a round trip: the parser reads an [i64], and a
    zero offset is printed as "-0". *)
Definition representable (eb : EndBlock) : Prop :=
  match eb with
  | Absolute n => n <= i64_max
  | LatestMinus n => 1 <= n <= i64_max + 1
  | _ => True
  end.

(** ** Lemmas *)

Lemma from_str_display n :
  0 <= n → from_str (display_u64 n) =
  if n <=? i64_max then Ok (Absolute n)
  else Err ("invalid end block value: '" +:+ display_u64 n +:+ "'").
Proof.
  intros Hn. unfold from_str. rewrite bool_decide_false.
  - unfold display_u64. rewrite parse_i64_digits by done.
    unfold i64_max. bool_to_prop; try lia; [|done].
    rewrite wrap64_small by (unfold is_u64, u64_max; lia). done.
  - intros E. pose proof (digits_of_head n) as H. unfold display_u64 in E. rewrite E in H.
    set_solver.
Qed.

Lemma from_str_minus n :
  0 <= n → from_str ("-" +:+ display_u64 n) =
  if n =? 0 then Ok (Absolute 0)
  else if n <=? i64_max + 1 then Ok (LatestMinus n)
  else Err ("invalid end block value: '" +:+ ("-" +:+ display_u64 n) +:+ "'").
Proof.
  intros Hn. unfold from_str. rewrite bool_decide_false by done.
  unfold display_u64.
  change (parse_i64 ("-" +:+ digits_of n)) with (parse_i64 (String "-"%char (digits_of n))).
  rewrite parse_i64_neg by done.
  unfold i64_max, i64_min. bool_to_prop; try lia; try done.
  - by subst.
  - do 2 f_equal. unfold to_i64, i64_max.
    rewrite (wrap64_small (- - n)) by (unfold is_u64, u64_max; lia).
    bool_to_prop; [rewrite wrap64_small by (unfold is_u64, u64_max; lia); lia|].
    unfold wrap64, u64_modulus. replace n with 9223372036854775808 by lia. done.
Qed.

(** [latest - offset] in mixed arithmetic: exact when it does not go below
    zero, and two's complement otherwise. *)
Lemma resolve_minus start offset latest :
  0 <= start → 0 < offset <= i64_max → 0 <= latest <= i64_max →
  resolve_relative start (Some (to_i64 (- to_i64 offset))) latest =
  let e := wrap64 (latest - offset) in
  if e <? start then Err (invalid_end_block start e) else Ok e.
Proof.
  intros Hs Ho Hl. unfold resolve_relative.
  assert (Hneg : to_i64 (- to_i64 offset) = - offset).
  { rewrite (to_i64_exact offset) by (unfold is_i64, i64_min, i64_max in *; lia).
    apply to_i64_exact. unfold is_i64, i64_min, i64_max in *. lia. }
  rewrite Hneg. destruct (Z.leb_spec 0 (- offset)); [lia|].
  rewrite (to_i64_exact latest) by (unfold is_i64, i64_min, i64_max in *; lia).
  by rewrite wrap64_to_i64, Z.add_opp_r.
Qed.

(** ** Properties *)

(** Serializing an end block and reading it back gives it again exactly for
    the values the parser can read: an absolute block of at most [i64::MAX] or
    an offset from 1 to 2^63. (The documentation treats every value as
    printable and parsable; [LatestMinus(0)] comes back as [Absolute(0)].) *)
Theorem end_block_roundtrip eb :
  end_block_wf eb → deserialize (serialize eb) = Ok eb ↔ representable eb.
Proof.
  destruct eb as [| |n|n]; intros Hwf; unfold end_block_wf, is_u64 in Hwf;
    cbn [serialize deserialize representable to_string]; [done|done| |].
  - rewrite from_str_display by lia. bool_to_prop; split; intros; simplify_eq; try lia; done.
  - rewrite from_str_minus by lia. bool_to_prop; subst; split; intros; simplify_eq; try lia; done.
Qed.

(** For block numbers in the range of [i64], [LatestMinus(offset)] resolves
    to [latest - offset] when the offset does not exceed the latest block, with
    the error when that lies before the start; without data there is nothing to
    dump and a failed fetch is reported. *)
Theorem resolve_latest_minus start offset latest :
  0 <= start → 0 < offset <= latest → latest <= i64_max →
  resolve (LatestMinus offset) start (Ok (Some latest)) =
    (if latest - offset <? start then Err (InvalidEndBlock start (latest - offset))
     else Ok (Block (latest - offset))) /\
  resolve (LatestMinus offset) start (Ok None) = Ok NoDataAvailable /\
  ∀ e, resolve (LatestMinus offset) start (Err e) = Err (FetchLatestFailed e).
Proof.
  intros Hs Ho Hl. split; [|done]. cbn [resolve fetch_latest mbind comp_bind].
  rewrite resolve_minus by (unfold i64_max in *; lia). cbn.
  rewrite wrap64_small by (unfold is_u64, u64_max, i64_max in *; lia).
  by destruct (latest - offset <? start).
Qed.

(** When the offset exceeds the latest block, the difference wraps: the
    resolved end is close to 2^64, the check against the start passes, and the
    dump is given an end far beyond the chain instead of an error. *)
Theorem resolve_latest_minus_wraps start offset latest :
  0 <= start <= i64_max → 0 <= latest < offset → offset <= i64_max →
  resolve (LatestMinus offset) start (Ok (Some latest)) =
    Ok (Block (u64_modulus + latest - offset)) /\ latest < u64_modulus + latest - offset.
Proof.
  intros Hs Ho Hl. unfold i64_max in *. cbn [resolve fetch_latest mbind comp_bind].
  rewrite resolve_minus by (unfold i64_max; lia). cbn.
  assert (Hw : wrap64 (latest - offset) = u64_modulus + latest - offset).
  { rewrite wrap64_neg; unfold u64_modulus; lia. }
  rewrite Hw. unfold u64_modulus. bool_to_prop; [lia|]. split; [done|lia].
Qed.

(** ** The properties at concrete inputs *)

Lemma end_block_roundtrip_witness :
  deserialize (serialize (LatestMinus 50)) = Ok (LatestMinus 50) /\
  deserialize (serialize (LatestMinus 0)) ≠ Ok (LatestMinus 0).
Proof.
  split.
  - apply end_block_roundtrip; [split; vm_compute; congruence|]. split; vm_compute; congruence.
  - rewrite (end_block_roundtrip (LatestMinus 0)); [|split; vm_compute; congruence].
    intros [H _]. by vm_compute in H.
Defined.

Lemma resolve_latest_minus_witness :
  resolve (LatestMinus 50) 0 (Ok (Some 100)) = Ok (Block 50).
Proof. destruct (resolve_latest_minus 0 50 100) as [H _]; [lia|lia|unfold i64_max; lia|exact H]. Defined.

Lemma resolve_latest_minus_wraps_witness :
  resolve (LatestMinus 100) 0 (Ok (Some 40)) = Ok (Block 18446744073709551556).
Proof.
  destruct (resolve_latest_minus_wraps 0 100 40) as [H _];
    [unfold i64_max; lia|lia|unfold i64_max; lia|exact H].
Defined.
