(* ===== verification/Partition.v ===== *)
(** * Partition

    How a raw dump splits its work: [split_and_partition], the limiting of the
    missing ranges of a table to a partition, and one round of [dump_impl]
    (core/dump/src/raw_dataset.rs), and [limit_ranges]
    (core/dump/src/raw_dataset_writer.rs). *)

From stdpp Require Import base numbers gmap strings option list sorting.
From Stdlib Require Import ZArith Lia.
From S2P Require Import Prelude Ranges BlockRange Segments EndBlock.

(** ** [split_and_partition] *)

(** [range_blocks]: the closure of [split_and_partition]. *)
Definition range_blocks (r : RangeInclusive) : Z :=
  add64 (sub64 (range_end r) (range_start r)) 1.

Definition sum64 (l : list Z) : Z := foldl add64 0 l.

Definition total_blocks (ranges : list RangeInclusive) : Z := sum64 (range_blocks <$> ranges).

(** [u64::div_ceil], which panics for a zero divisor. *)
Definition div_ceil (a b : Z) : total Z :=
  if b =? 0 then Panic else Ok ((a + b - 1) `div` b).

(** The [while !ranges.is_empty()] loop. *)
Fixpoint partition_loop (fuel : nat) (target : Z) (ranges : list RangeInclusive) (capacity : Z)
    (current : list RangeInclusive) (partitions : list (list RangeInclusive))
    : total (list (list RangeInclusive) * list RangeInclusive) :=
  match ranges with
  | [] => Ok (partitions, current)
  | r :: rest =>
      match fuel with
      | O => OutOfFuel
      | S fuel =>
          let len := range_blocks r in
          let '(ranges, current, capacity) :=
            if capacity <? len then
              let new_end := sub64 (add64 (range_start r) capacity) 1 in
              (mkRange (add64 new_end 1) (range_end r) :: rest,
               current ++ [mkRange (range_start r) new_end], 0)
            else (rest, current ++ [r], sub64 capacity len) in
          if capacity =? 0
          then partition_loop fuel target ranges target [] (partitions ++ [current])
          else partition_loop fuel target ranges capacity current partitions
      end
  end.

(** Every round removes a range or completes one of at most [n] partitions. *)
Definition partition_fuel (ranges : list RangeInclusive) (n : Z) : nat :=
  length ranges + Z.to_nat n.

Definition split_and_partition (ranges : list RangeInclusive) (n min_partition_blocks : Z)
    : total (list (list RangeInclusive)) :=
  match ranges with
  | [] => Ok []
  | _ =>
      q ← div_ceil (total_blocks ranges) n;
      let target := Z.max q min_partition_blocks in
      '(partitions, current) ← partition_loop (partition_fuel ranges n) target ranges target [] [];
      _ ← assert (forallb (λ p, min_partition_blocks <=? total_blocks p) partitions);
      let partitions := match current with [] => partitions | _ => partitions ++ [current] end in
      _ ← assert (Z.of_nat (length partitions) <=? n);
      Ok partitions
  end.

(** ** [limit_ranges] *)

(** The loop from [index] on: a long range is cut after [max_len] blocks and
    the remainder is looked at next. *)
Fixpoint limit_loop (fuel : nat) (max_len : Z) (ranges : list RangeInclusive)
    : total (list RangeInclusive) :=
  match ranges with
  | [] => Ok []
  | r :: rest =>
      match fuel with
      | O => OutOfFuel
      | S fuel =>
          _ ← assert (range_start r <=? range_end r);
          let len := add64 (sub64 (range_end r) (range_start r)) 1 in
          if max_len <? len then
            let new_end := sub64 (add64 (range_start r) max_len) 1 in
            tail ← limit_loop fuel max_len (mkRange (add64 new_end 1) (range_end r) :: rest);
            Ok (mkRange (range_start r) new_end :: tail)
          else
            tail ← limit_loop fuel max_len rest;
            Ok (r :: tail)
      end
  end.

(** A range is cut at most [len / max_len] times. *)
Definition limit_fuel (max_len : Z) (ranges : list RangeInclusive) : nat :=
  foldr (λ r acc, S (Z.to_nat (range_len r `div` max_len)) + acc)%nat 0%nat ranges.

Definition limit_ranges (ranges : list RangeInclusive) (max_len : Z)
    : total (list RangeInclusive) :=
  _ ← assert (0 <? max_len);
  limit_loop (limit_fuel max_len ranges) max_len ranges.

(** ** Limiting a table's missing ranges to a partition range ([run_range]) *)

Definition limit_to_partition (missing : list RangeInclusive) (range : RangeInclusive)
    : list RangeInclusive :=
  mjoin ((λ m,
    let start := Z.max (range_start m) (range_start range) in
    let end_ := Z.min (range_end m) (range_end range) in
    if start <=? end_ then [mkRange start end_] else []) <$> missing).

(** ** One round of [dump_impl] *)

Section Dump.
Context `{UnstableSort Segment}.

(** What the round does next: wait for the timer, stop, or dump. *)
Inductive DumpAction :=
  | Wait
  | Finished
  | Dump (missing_by_table : list (string * list RangeInclusive))
         (partitions : list (list RangeInclusive)).

(** [table.missing_ranges(start..=end)] for each table, in order. *)
Fixpoint missing_by_table (tables : list (string * list Segment)) (desired : RangeInclusive)
    : total (list (string * list RangeInclusive)) :=
  match tables with
  | [] => Ok []
  | (table, segments) :: rest =>
      missing ← missing_ranges segments desired;
      tail ← missing_by_table rest desired;
      Ok ((table, missing) :: tail)
  end.

Definition dump_round (start : Z) (end_ : option Z) (max_writers : Z)
    (latest_block : option Z) (tables : list (string * list Segment)) : total DumpAction :=
  match latest_block with
  | None => Ok Wait
  | Some latest_block =>
      if latest_block <? start then Ok Wait
      else
        let e := match end_ with None => latest_block | Some e => Z.min e latest_block end in
        by_table ← missing_by_table tables (mkRange start e);
        let missing_dataset_ranges := merge_ranges (mjoin (snd <$> by_table)) in
        match missing_dataset_ranges with
        | [] =>
            Ok match end_ with
               | Some e => if e <=? latest_block then Finished else Wait
               | None => Wait
               end
        | _ =>
            partitions ← split_and_partition missing_dataset_ranges max_writers 2000;
            Ok (Dump by_table partitions)
        end
  end.
End Dump.

(** ** Specifications *)

(** The blocks of a range, in order. *)
Definition blocks (r : RangeInclusive) : list Z := seqZ (range_start r) (range_len r).

Definition all_blocks (rs : list RangeInclusive) : list Z := mjoin (blocks <$> rs).

(** The number of blocks of a list of ranges, without wrap-around. *)
Definition block_count (rs : list RangeInclusive) : Z := foldr (λ r acc, range_len r + acc) 0 rs.

(** A round has split off [partitions] and [current] so far, and at most [k]
    more partitions can be completed. *)
Definition partition_inv (target capacity : Z) (ranges current : list RangeInclusive)
    (partitions : list (list RangeInclusive)) (k : nat) : Prop :=
  0 < capacity <= target /\ Forall range_wf ranges /\ Forall range_wf current /\
  Forall (Forall range_wf) partitions /\
  Forall (λ p, block_count p = target) partitions /\
  block_count current = target - capacity /\
  block_count ranges <= capacity + Z.of_nat k * target.

(** ** Lemmas on block counts *)

Lemma range_blocks_len r : range_wf r → range_blocks r = range_len r.
Proof. intros H. unfold range_blocks, range_len. range_arith. lia. Qed.

Lemma block_count_app l k : block_count (l ++ k) = block_count l + block_count k.
Proof. unfold block_count. induction l as [|r l IH]; simpl in *; lia. Qed.

Lemma block_count_pos l : Forall range_wf l → l ≠ [] → 0 < block_count l.
Proof.
  intros Hwf. induction Hwf as [|r l Hr Hl IH]; [done|]. intros _. simpl.
  assert (0 <= block_count l).
  { destruct l; [done|]. assert (0 < block_count (r0 :: l)) by by apply IH. lia. }
  unfold range_wf, range_len in *. lia.
Qed.

Lemma block_count_nonneg l : Forall range_wf l → 0 <= block_count l.
Proof. intros Hwf. destruct l; [done|]. pose proof (block_count_pos _ Hwf). by apply Z.lt_le_incl, H. Qed.

Lemma sum64_acc l acc :
  0 <= acc → Forall (λ x, 0 <= x) l → acc + foldr Z.add 0 l <= u64_max →
  foldl add64 acc l = acc + foldr Z.add 0 l.
Proof.
  intros Ha Hl. revert acc Ha. induction Hl as [|x l Hx Hl IH]; intros acc Ha Hs; simpl in *; [lia|].
  assert (0 <= foldr Z.add 0 l) by (clear -Hl; induction Hl; simpl; lia).
  rewrite add64_small by (unfold is_u64; lia). rewrite IH; lia.
Qed.

Lemma total_blocks_count l :
  Forall range_wf l → block_count l <= u64_max → total_blocks l = block_count l.
Proof.
  intros Hwf Hmax. unfold total_blocks, sum64.
  assert (Heq : foldr Z.add 0 (range_blocks <$> l) = block_count l).
  { clear Hmax. induction Hwf as [|r l Hr _ IH]; [done|]. simpl.
    rewrite range_blocks_len by done. f_equal. exact IH. }
  rewrite sum64_acc; [lia|lia| |lia].
  rewrite Forall_fmap. eapply Forall_impl; [exact Hwf|]. intros r Hr. simpl.
  rewrite range_blocks_len by done. unfold range_wf, range_len in *. lia.
Qed.

Lemma all_blocks_app l k : all_blocks (l ++ k) = all_blocks l ++ all_blocks k.
Proof. unfold all_blocks. by rewrite fmap_app, join_app. Qed.

Lemma all_blocks_cons r l : all_blocks (r :: l) = blocks r ++ all_blocks l.
Proof. done. Qed.

(** Cutting a range keeps its blocks and their order. *)
Lemma blocks_split s m e :
  s <= m + 1 → m <= e → blocks (mkRange s m) ++ blocks (mkRange (m + 1) e) = blocks (mkRange s e).
Proof.
  intros H1 H2. unfold blocks, range_len. simpl.
  replace (e - s + 1) with ((m - s + 1) + (e - (m + 1) + 1)) by lia.
  rewrite (seqZ_app s (m - s + 1) (e - (m + 1) + 1)) by lia.
  replace (s + (m - s + 1)) with (m + 1) by lia. done.
Qed.

Lemma elem_of_all_blocks n l : n ∈ all_blocks l ↔ in_ranges n l.
Proof.
  unfold all_blocks, in_ranges. rewrite list_elem_of_join, Exists_exists. split.
  - intros (b & Hn & Hb). apply list_elem_of_fmap in Hb as (r & -> & Hr).
    unfold blocks, range_len in Hn. apply elem_of_seqZ in Hn. exists r. split; [done|lia].
  - intros (r & Hr & Hn). exists (blocks r). split; [|by apply list_elem_of_fmap_2].
    unfold blocks, range_len. apply elem_of_seqZ. lia.
Qed.

Ltac blocks_norm :=
  rewrite ?join_app; cbn [mjoin list_join];
  rewrite ?all_blocks_app, ?all_blocks_cons, ?app_nil_r, ?all_blocks_app, ?all_blocks_cons, ?app_nil_r.

(** ** The partition loop *)

(** What the loop returns from a state that satisfies the invariant. *)
Definition partition_post (target : Z) (all : list Z) (bound : nat)
    (res : list (list RangeInclusive) * list RangeInclusive) : Prop :=
  all_blocks (mjoin res.1 ++ res.2) = all /\
  Forall (Forall range_wf) res.1 /\ Forall range_wf res.2 /\
  Forall (λ p, block_count p = target) res.1 /\ block_count res.2 < target /\
  (length res.1 + (if res.2 then 0 else 1) <= bound)%nat.

Lemma partition_loop_spec fuel target ranges capacity current partitions k :
  target <= u64_max → partition_inv target capacity ranges current partitions k →
  (length ranges + k <= fuel)%nat →
  ∃ res, partition_loop fuel target ranges capacity current partitions = Ok res /\
         partition_post target (all_blocks (mjoin partitions ++ current ++ ranges))
           (length partitions + k + 1) res.
Proof.
  intros Ht. revert ranges capacity current partitions k.
  induction fuel as [|fuel IH]; intros ranges capacity current partitions k
    (Hcap & Hrw & Hcw & Hpw & Hpc & Hcc & Hbound) Hf.
  - destruct ranges; [|simpl in Hf; lia]. simpl. eexists. split; [done|].
    rewrite app_nil_r. split_and!; try done; simpl; [lia|destruct current; lia].
  - destruct ranges as [|r rest].
    { simpl. eexists. split; [done|].
      rewrite app_nil_r. split_and!; try done; simpl; [lia|destruct current; lia]. }
    apply list.Forall_cons in Hrw as [Hr Hrw]. simpl in Hf, Hbound.
    cbn [partition_loop]. rewrite range_blocks_len by done.
    pose proof Hr as Hr'. unfold range_wf, range_len in Hr'.
    pose proof (block_count_nonneg rest Hrw) as Hrest.
    destruct (Z.ltb_spec capacity (range_len r)) as [Hlt|Hge]; unfold range_len in *.
    + rewrite (add64_small (range_start r)) by (unfold is_u64; lia).
      rewrite sub64_small by (unfold is_u64; lia).
      rewrite add64_small by (unfold is_u64; lia). cbn [Z.eqb].
      replace (range_start r + capacity - 1 + 1) with (range_start r + capacity) by lia.
      set (a := mkRange (range_start r) (range_start r + capacity - 1)).
      set (b := mkRange (range_start r + capacity) (range_end r)).
      assert (Ha : range_wf a) by (unfold range_wf; simpl; lia).
      assert (Hb : range_wf b) by (unfold range_wf; simpl; lia).
      destruct k as [|k]; [lia|].
      destruct (IH (b :: rest) target [] (partitions ++ [current ++ [a]]) k) as (res & -> & Hres).
      * split_and!; try lia; try done.
        -- by constructor.
        -- apply Forall_app. split; [done|]. apply Forall_singleton, Forall_app.
           split; [done|by apply Forall_singleton].
        -- apply Forall_app. split; [done|]. apply Forall_singleton.
           rewrite block_count_app. simpl. unfold range_len. simpl. lia.
        -- simpl. lia.
        -- simpl. unfold range_len. simpl. lia.
      * simpl. lia.
      * exists res. split; [done|]. unfold partition_post in *.
        destruct Hres as (H1 & H2 & H3 & H4 & H5 & H6). split_and!; try done.
        -- rewrite H1. blocks_norm.
           replace (blocks r) with (blocks a ++ blocks b); [by rewrite <- !app_assoc|].
           unfold a, b. replace (range_start r + capacity) with (range_start r + capacity - 1 + 1) at 2 by lia.
           rewrite blocks_split by lia. by destruct r.
        -- rewrite length_app in H6. simpl in H6. lia.
    + rewrite sub64_small by (unfold is_u64; lia).
      destruct (Z.eqb_spec (capacity - (range_end r - range_start r + 1)) 0) as [Hz|Hz].
      * assert (Hcur : Forall range_wf (current ++ [r]))
          by (apply Forall_app; split; [done|by apply Forall_singleton]).
        assert (Hcnt : block_count (current ++ [r]) = target)
          by (rewrite block_count_app; simpl; unfold range_len; lia).
        assert (Hpw' : Forall (Forall range_wf) (partitions ++ [current ++ [r]]))
          by (apply Forall_app; split; [done|by apply Forall_singleton]).
        assert (Hpc' : Forall (λ p, block_count p = target) (partitions ++ [current ++ [r]]))
          by (apply Forall_app; split; [done|by apply Forall_singleton]).
        destruct rest as [|r' rest].
        -- exists (partitions ++ [current ++ [r]], []). split; [by destruct fuel|].
           split_and!; simpl; try done; [by blocks_norm|lia|].
           rewrite length_app. simpl. lia.
        -- pose proof (block_count_pos (r' :: rest) Hrw) as Hpos.
           destruct k as [|k]; [exfalso; specialize (Hpos ltac:(done)); lia|].
           destruct (IH (r' :: rest) target [] (partitions ++ [current ++ [r]]) k) as (res & -> & Hres).
           ++ split_and!; try lia; try done. simpl. lia.
           ++ simpl in *. lia.
           ++ exists res. split; [done|]. unfold partition_post in *.
              destruct Hres as (H1 & H2 & H3 & H4 & H5 & H6). split_and!; try done.
              ** rewrite H1. blocks_norm. by rewrite <- !app_assoc.
              ** rewrite length_app in H6. simpl in H6. lia.
      * destruct (IH rest (capacity - (range_end r - range_start r + 1)) (current ++ [r]) partitions k)
          as (res & -> & Hres).
        -- split_and!; try lia; try done.
           ++ apply Forall_app. split; [done|by apply Forall_singleton].
           ++ rewrite block_count_app. simpl. unfold range_len. lia.
        -- lia.
        -- exists res. split; [done|]. by rewrite <- app_assoc in Hres.
Qed.

Lemma div_ceil_spec a b q : 0 <= a → 0 < b → div_ceil a b = Ok q → a <= q * b /\ 0 <= q <= a.
Proof.
  unfold div_ceil. intros Ha Hb H. destruct (Z.eqb_spec b 0); [lia|]. injection H as <-.
  pose proof (Z.div_mod (a + b - 1) b). pose proof (Z.mod_pos_bound (a + b - 1) b). nia.
Qed.

Lemma limit_loop_spec fuel max_len ranges :
  0 < max_len → Forall range_wf ranges → (limit_fuel max_len ranges <= fuel)%nat →
  ∃ out, limit_loop fuel max_len ranges = Ok out /\ all_blocks out = all_blocks ranges /\
         Forall (λ r, range_wf r /\ range_len r <= max_len) out.
Proof.
  intros Hm. revert ranges. induction fuel as [|fuel IH]; intros ranges Hwf Hf.
  - destruct ranges; simpl in Hf; [|lia]. by exists [].
  - destruct ranges as [|r rest]; [by exists []|].
    apply list.Forall_cons in Hwf as [Hr Hwf]. cbn [limit_loop].
    pose proof (range_blocks_len r Hr) as Hlen. unfold range_blocks in Hlen. rewrite Hlen.
    pose proof Hr as Hr'. unfold range_wf, range_len in Hr'.
    destruct (Z.leb_spec (range_start r) (range_end r)); [|lia]. cbn [assert mbind comp_bind].
    cbn [limit_fuel foldr] in Hf. fold (limit_fuel max_len rest) in Hf.
    destruct (Z.ltb_spec max_len (range_len r)) as [Hlt|Hge]; unfold range_len in *.
    + rewrite (add64_small (range_start r)) by (unfold is_u64; lia).
      rewrite sub64_small by (unfold is_u64; lia).
      rewrite add64_small by (unfold is_u64; lia).
      set (b := mkRange (range_start r + max_len - 1 + 1) (range_end r)).
      destruct (IH (b :: rest)) as (out & -> & Hb & Hw).
      * constructor; [|done]. unfold range_wf. simpl. lia.
      * cbn [limit_fuel foldr]. fold (limit_fuel max_len rest).
        assert (Hdiv : range_len b `div` max_len < (range_end r - range_start r + 1) `div` max_len).
        { unfold range_len. simpl.
          replace (range_end r - range_start r + 1) with
            (range_end r - (range_start r + max_len - 1 + 1) + 1 + 1 * max_len) by lia.
          rewrite Z.div_add by lia. lia. }
        assert (0 <= range_len b `div` max_len) by (apply Z.div_pos; unfold range_len; simpl; lia).
        lia.
      * eexists. split; [done|]. split.
        -- rewrite all_blocks_cons, Hb, all_blocks_cons, app_assoc. unfold b.
           rewrite blocks_split by lia. by destruct r.
        -- constructor; [|done]. unfold range_wf. simpl. lia.
    + destruct (IH rest) as (out & -> & Hb & Hw); [done|lia|].
      eexists. split; [done|]. split; [by rewrite all_blocks_cons, Hb|]. by constructor.
Qed.

Lemma limit_ranges_spec ranges max_len :
  0 < max_len → Forall range_wf ranges →
  ∃ out, limit_ranges ranges max_len = Ok out /\ all_blocks out = all_blocks ranges /\
         Forall (λ r, range_wf r /\ range_len r <= max_len) out.
Proof.
  intros Hm Hwf. unfold limit_ranges. destruct (Z.ltb_spec 0 max_len); [|lia].
  cbn [assert mbind comp_bind]. by apply limit_loop_spec.
Qed.

(** The ranges of a sorted, gapped list inside [lo, hi] hold at most
    [hi - lo + 1] blocks. *)
Lemma normalized_count lo hi rs :
  lo <= hi + 1 → normalized rs → Forall (λ r, lo <= range_start r /\ range_end r <= hi) rs →
  block_count rs <= hi - lo + 1.
Proof.
  intros Hlh [Hwf Hs]. revert lo Hlh. induction Hs as [|r l Hs IH Hgap]; intros lo Hlh Hin; simpl; [lia|].
  apply list.Forall_cons in Hwf as [Hr Hwf]. apply list.Forall_cons in Hin as [[Hlo Hhi] Hin].
  unfold range_wf, range_len in *.
  specialize (IH Hwf (range_end r + 1)). cut (block_count l <= hi - (range_end r + 1) + 1); [lia|].
  apply IH; [lia|]. rewrite Forall_forall in *. intros x Hx.
  specialize (Hin x Hx). specialize (Hgap x Hx). unfold gap_before in Hgap. lia.
Qed.

Lemma normalized_inside lo hi rs :
  normalized rs → (∀ n, in_ranges n rs → lo <= n <= hi) →
  Forall (λ r, lo <= range_start r /\ range_end r <= hi) rs.
Proof.
  intros [Hwf _] Hin. rewrite Forall_forall in *. intros r Hr. specialize (Hwf r Hr).
  unfold range_wf in Hwf. unfold in_ranges in Hin. setoid_rewrite Exists_exists in Hin. split.
  - apply (Hin (range_start r)). exists r. split; [done|lia].
  - apply (Hin (range_end r)). exists r. split; [done|lia].
Qed.

Lemma in_limit_to_partition n missing range :
  in_ranges n (limit_to_partition missing range) ↔
  in_ranges n missing /\ range_start range <= n <= range_end range.
Proof.
  unfold limit_to_partition. induction missing as [|m ms IH].
  - pose proof (in_ranges_nil n). simpl. tauto.
  - cbn [fmap list_fmap mjoin list_join]. rewrite in_ranges_app, IH, in_ranges_cons.
    pose proof (in_ranges_nil n). bool_to_prop; rewrite ?in_ranges_cons; simpl; intuition lia.
Qed.

Lemma limit_to_partition_bounds missing range x lo :
  Forall (λ m, lo <= range_start m) missing → x ∈ limit_to_partition missing range →
  lo <= range_start x.
Proof.
  unfold limit_to_partition. intros Hlo Hx. apply list_elem_of_join in Hx as (l & Hx & Hl).
  apply list_elem_of_fmap in Hl as (m & -> & Hm). rewrite Forall_forall in Hlo. apply Hlo in Hm.
  bool_to_prop; [|by apply elem_of_nil in Hx]. apply list_elem_of_singleton in Hx as ->. simpl. lia.
Qed.

Lemma limit_to_partition_normalized missing range :
  range_wf range → normalized missing → normalized (limit_to_partition missing range).
Proof.
  intros Hr [Hwf Hs]. induction Hs as [|m ms Hs IH Hgap]; [split; constructor|].
  apply list.Forall_cons in Hwf as [Hm Hwf]. destruct (IH Hwf) as [IHw IHs].
  unfold limit_to_partition. cbn [fmap list_fmap mjoin list_join].
  fold (limit_to_partition ms range). bool_to_prop; [|done]. cbn [app].
  split; [constructor; [unfold range_wf in *; simpl; lia|done]|constructor; [done|]].
  apply Forall_forall. intros x Hx.
  apply (limit_to_partition_bounds ms range x (range_end m + 2)) in Hx.
  - unfold gap_before. simpl. lia.
  - eapply Forall_impl; [exact Hgap|]. unfold gap_before. intros; lia.
Qed.

(** The specification of [split_and_partition] that its users apply. *)
Lemma split_and_partition_spec ranges n min_blocks :
  Forall range_wf ranges → 0 < n → 0 <= min_blocks <= u64_max → block_count ranges <= u64_max →
  ∃ ps target full rest, split_and_partition ranges n min_blocks = Ok ps /\
    all_blocks (mjoin ps) = all_blocks ranges /\ Z.of_nat (length ps) <= n /\
    min_blocks <= target /\ ps = full ++ rest /\ Forall (λ p, block_count p = target) full /\
    (length rest <= 1)%nat /\ Forall (λ p, 0 < block_count p < target) rest /\
    Forall (Forall range_wf) ps.
Proof.
  intros Hwf Hn Hmin Hcount. unfold split_and_partition.
  destruct ranges as [|r0 rs]; [exists [], min_blocks, [], []; split_and!; simpl; try done; lia|].
  set (ranges := r0 :: rs) in *.
  pose proof (block_count_pos ranges Hwf ltac:(done)) as Hpos.
  rewrite total_blocks_count by done.
  destruct (div_ceil (block_count ranges) n) as [q|[]| |] eqn:Hq;
    [|unfold div_ceil in Hq; destruct (Z.eqb_spec n 0); [lia|done]..].
  apply div_ceil_spec in Hq as [Hq1 Hq2]; [|lia|lia]. cbn [mbind comp_bind].
  set (target := Z.max q min_blocks).
  destruct (partition_loop_spec (partition_fuel ranges n) target ranges target [] []
    (Z.to_nat (n - 1))) as ([ps cur] & -> & Hpost).
  - lia.
  - split_and!; try done; try (subst target; lia); try (simpl; lia).
    rewrite Z2Nat.id by lia. nia.
  - unfold partition_fuel. lia.
  - destruct Hpost as (H1 & H2 & H3 & H4 & H5 & H6). cbn [mbind comp_bind fst snd] in *.
    simpl in H6. cbn [mjoin list_join app] in H1.
    assert (Hfor : forallb (λ p, min_blocks <=? total_blocks p) ps = true).
    { apply forallb_forall. intros p Hp. apply list_elem_of_In in Hp.
      rewrite Forall_forall in H2, H4. specialize (H2 p Hp). specialize (H4 p Hp). simpl in H4.
      rewrite total_blocks_count; [apply Z.leb_le; lia|done|lia]. }
    rewrite Hfor. cbn [assert mbind comp_bind].
    exists (ps ++ match cur with [] => [] | _ => [cur] end), target, ps,
      (match cur with [] => [] | _ => [cur] end).
    assert (Hlen : (length (ps ++ match cur with [] => [] | _ => [cur] end) <= Z.to_nat n)%nat).
    { rewrite length_app. destruct cur; simpl in *; lia. }
    split; [|split_and!; try done; try lia].
    + replace (match cur with [] => ps | _ => ps ++ [cur] end)
        with (ps ++ match cur with [] => [] | _ => [cur] end) by (destruct cur; [by rewrite app_nil_r|done]).
      destruct (Z.leb_spec (Z.of_nat (length (ps ++ match cur with [] => [] | _ => [cur] end))) n);
        [done|lia].
    + rewrite join_app. destruct cur; [by rewrite app_nil_r in *|]. simpl. by rewrite app_nil_r.
    + destruct cur; simpl; lia.
    + destruct cur as [|c cur]; [constructor|]. apply Forall_singleton.
      pose proof (block_count_pos _ H3 ltac:(done)). lia.
    + apply Forall_app. split; [done|]. destruct cur; [constructor|by apply Forall_singleton].
Qed.

(** The blocks of normalized ranges, listed in order, increase strictly. *)
Lemma blocks_sorted r : StronglySorted Z.lt (blocks r).
Proof.
  unfold blocks. generalize (range_start r) (range_len r). intros m n.
  destruct (Z.leb_spec n 0); [rewrite seqZ_nil by lia; constructor|].
  replace n with (Z.of_nat (Z.to_nat n)) by lia. generalize (Z.to_nat n). clear. intros k.
  revert m. induction k as [|k IH]; intros m; [constructor|].
  rewrite seqZ_cons by lia. rewrite Nat2Z.inj_succ, Z.pred_succ. constructor; [apply IH|].
  apply Forall_forall. intros x Hx. apply elem_of_seqZ in Hx. lia.
Qed.

Lemma normalized_all_blocks_sorted rs : normalized rs → StronglySorted Z.lt (all_blocks rs).
Proof.
  intros [Hwf Hs]. induction Hs as [|r l Hs IH Hgap]; [constructor|].
  apply list.Forall_cons in Hwf as [Hr Hwf]. rewrite all_blocks_cons.
  apply StronglySorted_app. split_and!; [|apply blocks_sorted|by apply IH].
  intros x y Hx Hy. unfold blocks, range_len in Hx. apply elem_of_seqZ in Hx.
  apply elem_of_all_blocks in Hy. apply Exists_exists in Hy as (r' & Hr' & Hy).
  rewrite Forall_forall in Hgap. apply Hgap in Hr'. unfold gap_before in Hr'. lia.
Qed.

Section DumpProofs.
Context `{US : UnstableSort Segment}.

Lemma missing_by_table_spec tables desired :
  Forall (λ t, Forall seg_wf (snd t)) tables → range_wf desired →
  ∃ ms, missing_by_table tables desired = Ok ms /\
    Forall2 (λ t m, fst t = fst m /\ normalized (snd m) /\
      (∃ cs, chains (snd t) = Ok cs) /\
      missing_ranges (snd t) desired = Ok (snd m) /\
      ∀ n, in_ranges n (snd m) → range_start desired <= n <= range_end desired) tables ms.
Proof.
  intros Ht Hd. induction Ht as [|[name segs] rest Hs _ IH]; [by exists []|].
  cbn [missing_by_table]. simpl in Hs.
  destruct (missing_ranges_spec segs desired Hs Hd) as (m & cs & Hm & Hcs & Hn & Hin).
  rewrite Hm. destruct IH as (ms & -> & Hms). exists ((name, m) :: ms). split; [done|].
  constructor; [|done]. split_and!; [done|done|by eexists|done|].
  intros n Hmn. by apply Hin in Hmn as [? _].
Qed.

(** The union of the tables' missing ranges. *)
Lemma merged_missing_spec (tables : list (string * list Segment)) ms start last :
  Forall2 (λ t m, fst t = fst m /\ normalized (snd m) /\ (∃ cs, chains (snd t) = Ok cs) /\
      missing_ranges (snd t) (mkRange start last) = Ok (snd m) /\
      ∀ n, in_ranges n (snd m) → start <= n <= last) tables ms →
  let merged := merge_ranges (mjoin (snd <$> ms)) in
  normalized merged /\
  (∀ n, in_ranges n merged ↔ Exists (λ m, in_ranges n (snd m)) ms) /\
  ∀ n, in_ranges n merged → start <= n <= last.
Proof.
  intros Hms merged.
  assert (Hwf : Forall range_wf (mjoin (snd <$> ms)) /\
                Forall (λ m, ∀ n, in_ranges n (snd m) → start <= n <= last) ms).
  { induction Hms as [|t m ts ms (_ & [Hm _] & _ & _ & Hb) _ [IH1 IH2]]; [done|].
    split; [by apply Forall_app|by constructor]. }
  destruct Hwf as [Hwf Hb].
  assert (Hin : ∀ n, in_ranges n merged ↔ Exists (λ m, in_ranges n (snd m)) ms).
  { intros n. unfold merged. rewrite merge_ranges_blocks by done. clear.
    induction ms as [|m ms IH]; [by split; [intros ?%in_ranges_nil|intros ?%Exists_nil]|].
    cbn [fmap list_fmap mjoin list_join]. by rewrite in_ranges_app, IH, Exists_cons. }
  split; [by apply merge_ranges_normalized|]. split; [done|].
  intros n Hn. apply Hin in Hn. apply Exists_exists in Hn as (m & Hm & Hn).
  rewrite Forall_forall in Hb. by apply (Hb m).
Qed.

(** ** Properties *)

(** A non-empty list of missing ranges is split into at most [n]
    partitions without a panic: together they hold exactly the same blocks in
    the same order, every partition but the last has exactly the target size,
    which is at least [min_partition_blocks], and the last is smaller. *)
Theorem split_and_partition_correct ranges n min_blocks :
  Forall range_wf ranges → 0 < n → 0 <= min_blocks <= u64_max → block_count ranges <= u64_max →
  ∃ ps target full rest, split_and_partition ranges n min_blocks = Ok ps /\
    all_blocks (mjoin ps) = all_blocks ranges /\ Z.of_nat (length ps) <= n /\
    min_blocks <= target /\ ps = full ++ rest /\ Forall (λ p, block_count p = target) full /\
    (length rest <= 1)%nat /\ Forall (λ p, 0 < block_count p < target) rest /\
    Forall (Forall range_wf) ps.
Proof. apply split_and_partition_spec. Qed.

(** [limit_ranges] keeps the blocks and their order and leaves no range
    longer than the limit. *)
Theorem limit_ranges_correct ranges max_len :
  0 < max_len → Forall range_wf ranges →
  ∃ out, limit_ranges ranges max_len = Ok out /\ all_blocks out = all_blocks ranges /\
         Forall (λ r, range_wf r /\ range_len r <= max_len) out.
Proof. apply limit_ranges_spec. Qed.

(** A round of the dump never panics when the end is not before the start.
    It stops only when the end is reached and no table misses a block; when it
    dumps, the partitions hold exactly the blocks missing from some table, each
    once and in increasing order, and each table writes in them exactly its own
    missing blocks. *)
Theorem dump_round_correct start e max_writers latest tables :
  0 <= start → (∀ b, e = Some b → start <= b) → 0 < max_writers → latest < u64_max →
  Forall (λ t, Forall seg_wf (snd t)) tables →
  ∃ act, dump_round start e max_writers (Some latest) tables = Ok act /\
    let last := match e with Some b => Z.min b latest | None => latest end in
    match act with
    | Wait => True
    | Finished =>
        (∃ b, e = Some b /\ b <= latest) /\ start <= latest /\
        Forall (λ t, ∃ ms, missing_ranges (snd t) (mkRange start last) = Ok ms /\
                           ∀ n, ~ in_ranges n ms) tables
    | Dump by_table partitions =>
        Forall2 (λ t m, fst t = fst m /\
          missing_ranges (snd t) (mkRange start last) = Ok (snd m) /\
          ∀ n, Exists (λ r, in_ranges n (limit_to_partition (snd m) r)) (mjoin partitions) ↔
               in_ranges n (snd m)) tables by_table /\
        (∀ n, n ∈ all_blocks (mjoin partitions) ↔ Exists (λ m, in_ranges n (snd m)) by_table) /\
        StronglySorted Z.lt (all_blocks (mjoin partitions)) /\
        Z.of_nat (length partitions) <= max_writers
    end.
Proof.
  intros Hs He Hw Hl Ht. unfold dump_round.
  destruct (Z.ltb_spec latest start) as [|Hls]; [by exists Wait|].
  set (last := match e with Some b => Z.min b latest | None => latest end).
  assert (Hlast : start <= last <= latest).
  { subst last. destruct e as [b|]; [specialize (He b eq_refl)|]; lia. }
  assert (Hd : range_wf (mkRange start last)) by (unfold range_wf; simpl; lia).
  destruct (missing_by_table_spec tables _ Ht Hd) as (ms & -> & Hms). cbn [mbind comp_bind].
  destruct (merged_missing_spec tables ms start last Hms) as (Hn & Hin & Hmw).
  set (merged := merge_ranges (mjoin (snd <$> ms))) in *.
  destruct merged as [|r0 rs] eqn:Em.
  - eexists. split; [done|]. destruct e as [b|]; [|done]. destruct (Z.leb_spec b latest); [|done].
    split; [by exists b|]. split; [lia|].
    apply Forall_forall. intros t Hti. apply list_elem_of_lookup in Hti as [i Hi].
    destruct (Forall2_lookup_l _ _ _ _ _ Hms Hi) as (m & Hmi & _ & _ & _ & Hm & _).
    exists (snd m). split; [done|]. intros n Hnm. apply (in_ranges_nil n). apply Hin.
    apply Exists_exists. exists m. split; [by eapply list_elem_of_lookup_2|done].
  - rewrite <- Em in *. clear Em r0 rs.
    assert (Hcnt : block_count merged <= last - start + 1).
    { apply normalized_count; [lia|done|]. apply normalized_inside; [done|].
      intros n Hnm. by apply Hmw. }
    destruct (split_and_partition_spec merged max_writers 2000) as
      (ps & tg & full & rest & -> & Hb & Hlen & _); [apply Hn|done|unfold u64_max; lia|unfold u64_max in *; lia|].
    cbn [mbind comp_bind]. eexists. split; [done|].
    assert (Hall : ∀ n, n ∈ all_blocks (mjoin ps) ↔ Exists (λ m, in_ranges n (snd m)) ms).
    { intros n. by rewrite Hb, elem_of_all_blocks, Hin. }
    split; [|split; [done|split; [|done]]].
    + eapply Forall2_impl_elem; [exact Hms|]. intros t m Hmi (Hnm & _ & _ & Hm & _).
      split; [done|]. split; [done|]. intros n. rewrite Exists_exists.
      setoid_rewrite in_limit_to_partition. split; [by intros (r & _ & ? & _)|].
      intros Hnm'. assert (Hnp : n ∈ all_blocks (mjoin ps)).
      { apply Hall. apply Exists_exists. by exists m. }
      apply elem_of_all_blocks in Hnp. apply Exists_exists in Hnp as (r & Hr & ?).
      exists r. split; [done|]. by split.
    + rewrite Hb. by apply normalized_all_blocks_sorted.
Qed.
End DumpProofs.

(** [EndBlock::Latest] is resolved without a check against the start of
    the dataset. When the dataset starts above the latest block at that moment,
    the end stays below the start; once the chain reaches the start, the round
    asks for an inverted range whose length wraps around, and dumps partitions
    that run far past the chain. *)
Theorem latest_before_start_dumps_past_chain :
  resolve Latest 100 (Ok (Some 50)) = Ok (Block 50) /\
  dump_round 100 (Some 50) 4 (Some 100) [("blocks", [])] =
    Ok (Dump [("blocks", [mkRange 100 50])]
          [[mkRange 100 4611686018427387991]; [mkRange 4611686018427387992 9223372036854775883];
           [mkRange 9223372036854775884 13835058055282163775]; [mkRange 13835058055282163776 50]]).
Proof. split; [reflexivity|]. vm_compute. reflexivity. Qed.

(** ** The properties at concrete inputs *)

Definition two_tables : list (string * list Segment) :=
  [("blocks", forked_segments); ("logs", [test_segment 7 0 5 0 0 1])].

Lemma split_and_partition_correct_witness :
  ∃ ps, split_and_partition [mkRange 1 5; mkRange 11 20] 5 10 = Ok ps /\
        ps = [[mkRange 1 5; mkRange 11 15]; [mkRange 16 20]] /\
        all_blocks (mjoin ps) = all_blocks [mkRange 1 5; mkRange 11 20].
Proof.
  destruct (split_and_partition_correct [mkRange 1 5; mkRange 11 20] 5 10)
    as (ps & tg & full & rest & Hps & Hb & _); [solve_wf|lia|unfold u64_max; lia|vm_compute; congruence|].
  exists ps. split; [done|]. split; [vm_compute in Hps; by injection Hps as <-|done].
Defined.

Lemma limit_ranges_correct_witness :
  ∃ out, limit_ranges [mkRange 1 5; mkRange 7 17] 5 = Ok out /\
         out = [mkRange 1 5; mkRange 7 11; mkRange 12 16; mkRange 17 17] /\
         Forall (λ r, range_wf r /\ range_len r <= 5) out.
Proof.
  destruct (limit_ranges_correct [mkRange 1 5; mkRange 7 17] 5) as (out & Ho & _ & Hl); [lia|solve_wf|].
  exists out. split; [done|]. split; [vm_compute in Ho; by injection Ho as <-|done].
Defined.

Lemma dump_round_correct_witness :
  ∃ by_table partitions,
    dump_round 0 (Some 12) 2 (Some 20) two_tables = Ok (Dump by_table partitions) /\
    partitions = [[mkRange 3 12]] /\ StronglySorted Z.lt (all_blocks (mjoin partitions)).
Proof.
  destruct (dump_round_correct 0 (Some 12) 2 20 two_tables) as (act & Ha & H);
    [lia|intros ? [= <-]; lia|lia|unfold u64_max; lia|repeat constructor; cbn; unfold u64_max; lia|].
  vm_compute in Ha. injection Ha as <-. destruct H as (_ & _ & Hs & _).
  eexists _, _. split; [vm_compute; reflexivity|]. split; [done|exact Hs].
Defined.
