(* ===== verification/RawWriter.v ===== *)
(** * RawWriter

    Writing the rows of a raw dataset: the checks of [RawTableRows] and the
    retrying block stream (core/common/src/lib.rs), and the writer that cuts the
    stream of a table into files (core/dump/src/raw_dataset_writer.rs). The size
    of a Parquet file is a function of the batches written to it, given by the
    Arrow library: a parameter. *)

From stdpp Require Import base numbers gmap strings option list sorting.
From Stdlib Require Import ZArith Lia.
From S2P Require Import Prelude Ranges BlockRange Segments Partition.

(** ** Rows of one block *)

(** The [_block_num] column of a record batch; an entry may be null. *)
Inductive Column :=
  | MissingColumn
  | OtherColumn
  | UInt64Column (values : list (option Z)).

Record RecordBatch := mkBatch { num_rows : Z; block_num_column : Column; batch_size : Z }.

Record RawTableRows := mkRows { table : string; rows : RecordBatch; range : BlockRange }.

Definition block_num (r : RawTableRows) : Z := start (range r).

Inductive InvariantError :=
  | NotSingleBlock
  | NoBlockNumColumn
  | BlockNumNotUInt64
  | UnexpectedBlockNum (n : Z).

(** Arrow's [min] and [max] skip nulls. *)
Definition check_invariants (r : BlockRange) (b : RecordBatch) : comp InvariantError unit :=
  if negb (start r =? end_ r) then Err NotSingleBlock
  else if num_rows b =? 0 then Ok tt
  else match block_num_column b with
       | MissingColumn => Err NoBlockNumColumn
       | OtherColumn => Err BlockNumNotUInt64
       | UInt64Column values =>
           lo ← unwrap (list_min (omap id values));
           hi ← unwrap (list_max (omap id values));
           if negb (lo =? start r) then Err (UnexpectedBlockNum lo)
           else if negb (hi =? start r) then Err (UnexpectedBlockNum hi)
           else Ok tt
       end.

(** [RawTableRows::new], after the Arrow constructor built the batch. *)
Definition rows_new (t : string) (r : BlockRange) (b : RecordBatch)
    : comp InvariantError RawTableRows :=
  _ ← check_invariants r b;
  Ok (mkRows t b r).

(** [RawDatasetRows::new]: the tables of one block share the range. *)
Definition dataset_rows_new (l : list RawTableRows) : total (list RawTableRows) :=
  match l with
  | [] => Panic
  | r0 :: rest =>
      _ ← assert (forallb (λ r, bool_decide (range r = range r0)) rest);
      Ok l
  end.

(** ** The retrying stream

    [attempt k b] is what the [k]-th call of the provider's [block_stream]
    from block [b] yields, up to its end or its first error. *)
Record Attempt := mkAttempt { yielded : list Z; failed : bool }.

(** The ['retry] loop: [blocks_sent] counts the blocks passed on so far; after
    an error the stream is opened again at [start + blocks_sent]. *)
Fixpoint retry_loop (fuel : nat) (attempt : nat → Z → Attempt) (k : nat) (start : Z)
    (current_block blocks_sent : Z) : total (list Z) :=
  match fuel with
  | O => OutOfFuel
  | S fuel =>
      let a := attempt k current_block in
      let blocks_sent := blocks_sent + Z.of_nat (length (yielded a)) in
      if failed a then
        tail ← retry_loop fuel attempt (S k) start (add64 start blocks_sent) blocks_sent;
        Ok (yielded a ++ tail)
      else Ok (yielded a)
  end.

Definition stream_with_retry (fuel : nat) (attempt : nat → Z → Attempt) (start : Z)
    : total (list Z) :=
  retry_loop fuel attempt 0 start start 0.

(** ** The table writer *)

Definition MAX_PARTITION_BLOCK_RANGE : Z := 1000000.

(** [ParquetFileWriter]: the start block of its name and the rows written. *)
Record File := mkFile { file_start : Z; file_rows : list RawTableRows }.

(** [ParquetFileWriterOutput]: the closed file and the range of its metadata. *)
Record Output := mkOutput { out_file : File; out_range : BlockRange }.

(** [ranges_to_write] is a stack: its top, the last element of the vector, is
    the head of the list. *)
Record RawTableWriter := mkWriter {
  ranges_to_write : list RangeInclusive;
  current_file : option File;
  current_range : option BlockRange
}.

Section Writer.
(** [ParquetFileWriter::bytes_written] after the given batches, and
    [opts.partition.0.bytes]. *)
Context (bytes_written : list RecordBatch → Z) (partition_bytes : Z).

Definition writer_new (missing_ranges : list RangeInclusive) : total RawTableWriter :=
  limited ← limit_ranges missing_ranges MAX_PARTITION_BLOCK_RANGE;
  Ok (mkWriter limited ((λ r, mkFile (range_start r) []) <$> head limited) None).

Definition close_current_file (w : RawTableWriter) : total (RawTableWriter * Output) :=
  file ← unwrap (current_file w);
  r ← unwrap (current_range w);
  Ok (mkWriter (ranges_to_write w) None None, mkOutput file r).

(** The range after writing [new] behind what was written before. *)
Definition extend_range (cur : option BlockRange) (new : BlockRange) : total BlockRange :=
  match cur with
  | None => Ok new
  | Some r =>
      _ ← assert (bool_decide (network r = network new));
      Ok (mkBlockRange (mkRange (start r) (end_ new)) (network r) (hash new) (prev_hash r))
  end.

(** The first step of [write]: leave a range that the block has passed. *)
Definition leave_range (w : RawTableWriter) (b : Z) : total (RawTableWriter * option Output) :=
  match ranges_to_write w with
  | r :: rest =>
      if range_end r <? b then
        '(w, out) ← close_current_file w;
        Ok (mkWriter rest ((λ r, mkFile (range_start r) []) <$> head rest) (current_range w),
            Some out)
      else Ok (w, None)
  | [] => Ok (w, None)
  end.

(** A reorg, or the configured size reached. *)
Definition must_split (w : RawTableWriter) (new : BlockRange) : total bool :=
  let reorg := match hash <$> current_range w, prev_hash new with
               | Some a, Some b => negb (a =? b)
               | _, _ => false
               end in
  file ← unwrap (current_file w);
  let partition_size_exceeded := partition_bytes <=? bytes_written (rows <$> file_rows file) in
  Ok (reorg || partition_size_exceeded).

(** The second step: split the segment before the block. *)
Definition split_segment (w : RawTableWriter) (out : option Output) (b : Z)
    : total (RawTableWriter * option Output) :=
  _ ← assert (match out with None => true | Some _ => false end);
  cur ← unwrap (current_range w);
  _ ← assert (end_ cur =? sub64 b 1);
  '(w, out) ← close_current_file w;
  match ranges_to_write w with
  | [] => Panic
  | r :: rest =>
      Ok (mkWriter (mkRange b (range_end r) :: rest) (Some (mkFile b [])) (current_range w),
          Some out)
  end.

Definition write (w : RawTableWriter) (table_rows : RawTableRows)
    : total (RawTableWriter * option Output) :=
  let b := block_num table_rows in
  '(w, out) ← leave_range w b;
  match ranges_to_write w with
  | [] =>
      _ ← assert (match current_file w with None => true | Some _ => false end);
      _ ← assert (match current_range w with None => true | Some _ => false end);
      Ok (w, out)
  | top :: _ =>
      if b <? range_start top then Ok (w, out)
      else
        split ← must_split w (range table_rows);
        '(w, out) ← (if (split : bool) then split_segment w out b else Ok (w, out));
        file ← unwrap (current_file w);
        r ← extend_range (current_range w) (range table_rows);
        Ok (mkWriter (ranges_to_write w)
              (Some (mkFile (file_start file) (file_rows file ++ [table_rows]))) (Some r), out)
  end.

Definition close (w : RawTableWriter) : total (option Output) :=
  match current_file w with
  | None =>
      _ ← assert (match ranges_to_write w with [] => true | _ => false end);
      Ok None
  | Some _ =>
      _ ← assert (Nat.eqb (length (ranges_to_write w)) 1);
      '(_, out) ← close_current_file w;
      Ok (Some out)
  end.

(** The writer run over the rows of its table, collecting the closed files. *)
Fixpoint write_all (w : RawTableWriter) (stream : list RawTableRows)
    : total (RawTableWriter * list Output) :=
  match stream with
  | [] => Ok (w, [])
  | r :: rest =>
      '(w, out) ← write w r;
      '(w, outs) ← write_all w rest;
      Ok (w, option_list out ++ outs)
  end.

Definition write_table (missing : list RangeInclusive) (stream : list RawTableRows)
    : total (list Output) :=
  w ← writer_new missing;
  '(w, outs) ← write_all w stream;
  out ← close w;
  Ok (outs ++ option_list out).

(** ** The dataset writer: one table writer per table, and the files committed
    to the metadata database in order. *)

Record RawDatasetWriter := mkDatasetWriter {
  writers : gmap string RawTableWriter;
  committed : list (string * Output)
}.

(** [RawDatasetWriter::write] *)
Definition dataset_write (d : RawDatasetWriter) (table_rows : RawTableRows)
    : total RawDatasetWriter :=
  w ← unwrap (writers d !! table table_rows);
  '(w, out) ← write w table_rows;
  Ok (mkDatasetWriter (<[table table_rows := w]> (writers d))
        (committed d ++ (pair (table table_rows) <$> option_list out))).

Fixpoint dataset_write_all (d : RawDatasetWriter) (stream : list RawTableRows)
    : total RawDatasetWriter :=
  match stream with
  | [] => Ok d
  | r :: rest => d ← dataset_write d r; dataset_write_all d rest
  end.

(** [RawDatasetWriter::close]: each writer in turn. *)
Fixpoint close_all (ws : list (string * RawTableWriter)) : total (list (string * Output)) :=
  match ws with
  | [] => Ok []
  | (name, w) :: rest =>
      out ← close w;
      tail ← close_all rest;
      Ok ((pair name <$> option_list out) ++ tail)
  end.

Definition dataset_close (d : RawDatasetWriter) : total (list (string * Output)) :=
  outs ← close_all (map_to_list (writers d));
  Ok (committed d ++ outs).

(** [RawDatasetWriter::new]: a writer for each table of the catalog. *)
Fixpoint dataset_new (tables : list string) (missing : gmap string (list RangeInclusive))
    : total RawDatasetWriter :=
  match tables with
  | [] => Ok (mkDatasetWriter ∅ [])
  | t :: rest =>
      ranges ← unwrap (missing !! t);
      w ← writer_new ranges;
      d ← dataset_new rest missing;
      Ok (mkDatasetWriter (<[t := w]> (writers d)) [])
  end.

(** The missing ranges of every table limited to the partition range, as
    [run_range] collects them. *)
Definition limit_tables (missing : gmap string (list RangeInclusive)) (r : RangeInclusive)
    : gmap string (list RangeInclusive) :=
  (λ ms, limit_to_partition ms r) <$> missing.

(** [DumpPartition::run_range] over the rows the stream delivers. *)
Definition run_range (tables : list string) (missing : gmap string (list RangeInclusive))
    (r : RangeInclusive) (stream : list (list RawTableRows)) : total (list (string * Output)) :=
  d ← dataset_new tables (limit_tables missing r);
  d ← dataset_write_all d (mjoin stream);
  dataset_close d.

(** ** Invariants *)

(** [b] directly follows [a] on the chain. *)
Definition follows (a b : RawTableRows) : Prop :=
  block_num b = block_num a + 1 /\
  network (range b) = network (range a) /\
  ∀ h, prev_hash (range b) = Some h → h = hash (range a).

(** The block range of consecutive rows. *)
Definition summary (first last : RawTableRows) : BlockRange :=
  mkBlockRange (mkRange (block_num first) (block_num last)) (network (range first))
    (hash (range last)) (prev_hash (range first)).

(** Rows of consecutive, hash-chained blocks with their range. *)
Definition covers (l : list RawTableRows) (r : BlockRange) : Prop :=
  ∃ first last, head l = Some first /\ list.last l = Some last /\
    windows follows l /\ r = summary first last.

(** A finished file: its rows are chained, its metadata range is theirs, and it
    is named after its first block. *)
Definition good_output (o : Output) : Prop :=
  covers (file_rows (out_file o)) (out_range o) /\ file_start (out_file o) = start (out_range o).

Definition pending (w : RawTableWriter) : list RawTableRows :=
  match current_file w with Some f => file_rows f | None => [] end.

(** The writer when the next block is [b]. *)
Definition writer_inv (net : string) (w : RawTableWriter) (b : Z) : Prop :=
  Forall range_wf (ranges_to_write w) /\
  StronglySorted (λ x y, range_end x < range_start y) (ranges_to_write w) /\
  match ranges_to_write w with
  | [] => current_file w = None /\ current_range w = None
  | r :: _ =>
      ∃ f, current_file w = Some f /\ file_start f = range_start r /\
        ((file_rows f = [] /\ current_range w = None /\ b <= range_start r) \/
         (∃ cur, current_range w = Some cur /\ covers (file_rows f) cur /\ network cur = net /\
                 start cur = range_start r /\ end_ cur = b - 1 /\
                 range_start r <= b - 1 <= range_end r))
  end.

(** The files committed for a table. *)
Definition outputs_of (t : string) (l : list (string * Output)) : list Output :=
  snd <$> filter (λ p, fst p = t) l.

Definition rows_of (t : string) (l : list RawTableRows) : list RawTableRows :=
  filter (λ r, table r = t) l.

(** Consecutive single-block rows of one network, from block [b]. *)
Fixpoint consecutive (net : string) (b : Z) (l : list RawTableRows) : Prop :=
  match l with
  | [] => True
  | r :: rest =>
      start (range r) = b /\ end_ (range r) = b /\ network (range r) = net /\
      consecutive net (b + 1) rest
  end.

(** ** Lemmas *)

Context (net : string) (Hfresh : bytes_written [] < partition_bytes).

Lemma covers_singleton r : start (range r) = end_ (range r) → covers [r] (range r).
Proof.
  intros He. exists r, r. split_and!; try done. unfold summary, block_num. destruct (range r) as [[s e] n h p].
  unfold start, end_ in *. simpl in *. by subst.
Qed.

Lemma follows_network l a b :
  windows follows l → head l = Some a → list.last l = Some b → network (range b) = network (range a).
Proof.
  revert a. induction l as [|x l IH]; intros a Hw Ha Hb; [done|]. simplify_eq/=.
  destruct l as [|y l]; [by simplify_eq/=|]. destruct Hw as [(_ & Hn & _) Hw].
  rewrite <- Hn. by apply (IH y).
Qed.

Lemma covers_snoc l r cur new :
  covers l cur → start (range new) = end_ (range new) → start (range new) = end_ cur + 1 →
  network (range new) = network cur →
  (∀ h, prev_hash (range new) = Some h → h = hash cur) → r = range new →
  covers (l ++ [new]) (mkBlockRange (mkRange (start cur) (end_ r)) (network cur) (hash r) (prev_hash cur)).
Proof.
  intros (first & lst & Hh & Hl & Hw & ->) Hs He Hn Hp ->.
  pose proof (follows_network l first lst Hw Hh Hl) as Hnet.
  exists first, new. split_and!.
  - destruct l; [done|]. by simplify_eq/=.
  - by rewrite last_snoc.
  - apply last_Some in Hl as [l' ->]. rewrite <- app_assoc. simpl.
    apply windows_app. split; [done|]. simpl. split; [|done].
    unfold follows, block_num. unfold summary, end_ in *. simpl in *. split_and!; try done; try lia; congruence.
  - unfold summary, start, end_, block_num in *. simpl in *. by rewrite <- Hs.
Qed.

(** A range list that starts above a block does not hold it. *)
Lemma not_in_sorted b top rest :
  StronglySorted (λ x y, range_end x < range_start y) (top :: rest) → Forall range_wf (top :: rest) →
  b < range_start top → ~ in_ranges b (top :: rest).
Proof.
  intros Hs Hwf Hb Hin. apply Exists_exists in Hin as (r & Hr & Hn).
  inversion Hs as [|? ? _ Hgt]; subst. apply list.Forall_cons in Hwf as [Ht _].
  unfold range_wf in Ht. apply elem_of_cons in Hr as [->|Hr]; [lia|].
  rewrite Forall_forall in Hgt. specialize (Hgt r Hr). simpl in Hgt. lia.
Qed.

(** Without a reorg the new block continues the current range. *)
Lemma must_split_false w f cur new :
  current_file w = Some f → current_range w = Some cur → must_split w new = Ok false →
  ∀ h, prev_hash new = Some h → h = hash cur.
Proof.
  intros Hf Hc. unfold must_split. rewrite Hf, Hc. cbn. intros [= Hs] h Hp.
  apply orb_false_iff in Hs as [Hr _]. rewrite Hp in Hr.
  destruct (Z.eqb_spec (hash cur) h); [done|discriminate].
Qed.

Lemma must_split_value w f new :
  current_file w = Some f → ∃ s, must_split w new = Ok s.
Proof. intros Hf. unfold must_split. rewrite Hf. by eexists. Qed.

(** The first step leaves the range only when it is complete. *)
Lemma leave_range_spec w b :
  writer_inv net w b →
  ∃ w' out, leave_range w b = Ok (w', out) /\ writer_inv net w' b /\
    (∀ n, b <= n → in_ranges n (ranges_to_write w') ↔ in_ranges n (ranges_to_write w)) /\
    (match ranges_to_write w' with r :: _ => b <= range_end r | [] => True end) /\
    mjoin (file_rows ∘ out_file <$> option_list out) ++ pending w' = pending w /\
    Forall good_output (option_list out) /\
    (is_Some out → pending w' = [] /\ current_range w' = None).
Proof.
  intros (Hwf & Hs & Hinv). unfold leave_range.
  destruct (ranges_to_write w) as [|r rest] eqn:Er.
  { exists w, None. split; [done|]. rewrite Er.
    split_and!; try done. unfold writer_inv. by rewrite Er. }
  destruct (Z.ltb_spec (range_end r) b) as [Hlt|Hge].
  2:{ exists w, None. split; [done|]. rewrite Er.
      split_and!; try done. unfold writer_inv. by rewrite Er. }
  apply list.Forall_cons in Hwf as [Hr Hwf].
  inversion Hs as [|? ? Hs' Hgt]; subst.
  destruct Hinv as (f & Hf & Hfs & [(_ & _ & Hb)|(cur & Hcur & Hcov & Hnet & Hst & Hen & Hle)]);
    [unfold range_wf in Hr; lia|].
  unfold close_current_file. rewrite Hf, Hcur. cbn. eexists _, _. split; [done|]. cbn.
  split_and!.
  - split; [done|]. split; [done|]. cbn.
    destruct rest as [|r' rest]; [done|]. cbn. eexists. split; [done|]. split; [done|]. left.
    split_and!; try done. apply list.Forall_cons in Hgt as [? _]. lia.
  - intros n Hn. rewrite in_ranges_cons. intuition lia.
  - destruct rest as [|r' rest]; [done|]. apply list.Forall_cons in Hgt as [? _].
    apply list.Forall_cons in Hwf as [Hr' _]. unfold range_wf in Hr'. lia.
  - unfold pending. rewrite Hf. cbn. destruct rest; cbn; by rewrite !app_nil_r.
  - apply Forall_singleton. split; [done|]. simpl. congruence.
  - intros _. split; [|done]. unfold pending. by destruct rest.
Qed.

(** The main step: the block is appended to the file of its range, after a
    split where the chain or the size asks for one. *)
Lemma write_spec w r b :
  writer_inv net w b → 0 <= b → b < u64_max →
  start (range r) = b → end_ (range r) = b → network (range r) = net →
  ∃ w' out, write w r = Ok (w', out) /\ writer_inv net w' (b + 1) /\
    (∀ n, b < n → in_ranges n (ranges_to_write w') ↔ in_ranges n (ranges_to_write w)) /\
    Forall good_output (option_list out) /\
    (in_ranges b (ranges_to_write w) →
     mjoin (file_rows ∘ out_file <$> option_list out) ++ pending w' = pending w ++ [r]) /\
    (~ in_ranges b (ranges_to_write w) →
     mjoin (file_rows ∘ out_file <$> option_list out) ++ pending w' = pending w).
Proof.
  intros Hinv Hb0 Hbm Hs He Hn. unfold write, block_num. rewrite Hs.
  destruct (leave_range_spec w b Hinv) as (w1 & out & -> & Hinv1 & Hin1 & Hend & Hpend & Hgood & Hout).
  cbn [mbind comp_bind].
  pose proof (Hin1 b (Z.le_refl b)) as Hinb. setoid_rewrite <- Hinb. clear Hinb.
  assert (Hin2 : ∀ n, b < n → in_ranges n (ranges_to_write w1) ↔ in_ranges n (ranges_to_write w))
    by (intros; apply Hin1; lia).
  pose proof Hinv1 as (Hwf & Hsort & Hcase).
  destruct (ranges_to_write w1) as [|top rest] eqn:Er.
  { destruct Hcase as [Hf Hc]. rewrite Hf, Hc. cbn. exists w1, out. split; [done|].
    split; [unfold writer_inv; rewrite Er; done|]. rewrite Er. split; [done|]. split; [done|].
    split; [by intros ?%in_ranges_nil|done]. }
  apply list.Forall_cons in Hwf as [Htop Hwf]. inversion Hsort as [|? ? Hsort' Hgt]; subst.
  destruct (Z.ltb_spec (start (range r)) (range_start top)) as [Hlt|Hge].
  { exists w1, out. split; [done|]. rewrite Er. split.
    { unfold writer_inv. rewrite Er. split_and!; [by constructor|done|].
      destruct Hcase as (f & Hf & Hfs & [Hc|(cur & _ & _ & _ & _ & _ & Hle)]); [|lia].
      exists f. split_and!; try done. left. split_and!; try apply Hc. lia. }
    split; [done|]. split; [done|].
    assert (Hni : ~ in_ranges (start (range r)) (top :: rest))
      by (apply not_in_sorted; [done|by constructor|done]).
    split; [done|]. by intros _. }
  assert (Hin : in_ranges (start (range r)) (top :: rest)) by (apply in_ranges_cons; lia).
  destruct Hcase as (f & Hf & Hfs & [(Hrows & Hcur & Hb)|(cur & Hcur & Hcov & Hnet & Hst & Hen & Hle)]).
  - (* the first block of the range *)
    assert (Hsp : must_split w1 (range r) = Ok false).
    { unfold must_split. rewrite Hf, Hcur. cbn. rewrite Hrows. cbn.
      destruct (Z.leb_spec partition_bytes (bytes_written [])); [lia|done]. }
    rewrite Hsp. cbn. rewrite Hf, Hcur, Er. cbn. rewrite Hrows. cbn. eexists _, _. split; [done|]. cbn.
    split.
    { split; [by constructor|]. split; [done|]. eexists. split; [done|]. split; [done|]. right.
      exists (range r). split_and!; try done; try lia. apply covers_singleton. congruence. }
    split; [done|]. split; [done|]. split; [|done]. intros _.
    unfold pending at 1 in Hpend. rewrite Hf, Hrows in Hpend. rewrite app_nil_r in Hpend.
    unfold pending at 1. cbn. by rewrite Hpend.
  - destruct (must_split_value w1 f (range r) Hf) as [sp Hsp]. rewrite Hsp. cbn [mbind comp_bind].
    destruct out as [o|]; [exfalso; destruct (Hout ltac:(by eexists)) as [_ Hno]; congruence|].
    cbn in Hpend. destruct sp.
    + (* a split before the block *)
      unfold split_segment. rewrite Hcur. cbn [assert unwrap mbind comp_bind].
      rewrite sub64_small by (unfold range_wf in Htop; unfold is_u64, u64_max in *; lia).
      destruct (Z.eqb_spec (end_ cur) (start (range r) - 1)); [|lia]. cbn [assert mbind comp_bind].
      unfold close_current_file. rewrite Hf, Hcur. cbn. rewrite Er. cbn.
      eexists _, _. split; [done|]. cbn. split.
      { split; [|split].
        - constructor; [|done]. unfold range_wf in *. simpl. lia.
        - by constructor.
        - eexists. split; [done|]. split; [done|]. right. exists (range r).
          split_and!; try done; simpl; try lia. apply covers_singleton. congruence. }
      split; [intros n Hn'; rewrite <- Hin2, !in_ranges_cons by done; simpl; intuition lia|].
      split; [apply Forall_singleton; split; [done|simpl; congruence]|].
      split; [|done]. intros _. rewrite <- Hpend. unfold pending. rewrite Hf. cbn.
      by rewrite app_nil_r.
    + (* the block continues the current file *)
      cbn. rewrite Hf, Hcur. cbn. rewrite bool_decide_true by congruence. cbn. rewrite Er.
      eexists _, _. split; [done|]. cbn. split.
      { split; [by constructor|]. split; [done|]. eexists. split; [done|]. split; [done|]. right.
        eexists. split; [done|]. split_and!; try done; try (unfold start, end_ in *; simpl in *; lia).
        apply covers_snoc with (r := range r); try done; try lia.
        by eapply must_split_false. }
      split; [done|]. split; [done|]. split; [|done]. intros _.
      rewrite <- Hpend. unfold pending. by rewrite Hf.
Qed.

Lemma consecutive_lower b l x :
  consecutive net b l → x ∈ l → b <= block_num x < b + Z.of_nat (length l).
Proof.
  revert b. induction l as [|r l IH]; intros b Hc Hx; [by apply elem_of_nil in Hx|].
  destruct Hc as (Hs & _ & _ & Hc). simpl. apply elem_of_cons in Hx as [->|Hx].
  - unfold block_num. lia.
  - apply (IH _ Hc) in Hx. lia.
Qed.

(** The writer over a stream of consecutive blocks: the rows of the blocks to
    write come out in order, in closed files or the pending one. *)
Lemma write_all_spec w b l :
  writer_inv net w b → 0 <= b → b + Z.of_nat (length l) <= u64_max → consecutive net b l →
  ∃ w' outs, write_all w l = Ok (w', outs) /\ writer_inv net w' (b + Z.of_nat (length l)) /\
    (∀ n, b + Z.of_nat (length l) <= n →
          in_ranges n (ranges_to_write w') ↔ in_ranges n (ranges_to_write w)) /\
    Forall good_output outs /\
    mjoin (file_rows ∘ out_file <$> outs) ++ pending w' =
      pending w ++ filter (λ r, in_ranges (block_num r) (ranges_to_write w)) l.
Proof.
  revert w b. induction l as [|r l IH]; intros w b Hinv Hb Hm Hc.
  - exists w, []. simpl in *. rewrite Z.add_0_r, app_nil_r. split_and!; try done.
  - destruct Hc as (Hs & He & Hn & Hc). cbn [length] in Hm.
    destruct (write_spec w r b Hinv Hb) as (w1 & out & Hw & Hinv1 & Hin1 & Hg & Hyes & Hno);
      [lia|done..|].
    cbn [write_all]. rewrite Hw. cbn [mbind comp_bind].
    destruct (IH w1 (b + 1) Hinv1) as (w2 & outs & -> & Hinv2 & Hin2 & Hg2 & Hp2); [lia|lia|done|].
    cbn [mbind comp_bind]. eexists _, _. split; [done|].
    replace (b + Z.of_nat (length (r :: l))) with (b + 1 + Z.of_nat (length l)) by (simpl; lia).
    split; [done|]. split; [intros n Hnn; rewrite Hin2, Hin1 by lia; done|].
    split; [by apply Forall_app|].
    rewrite fmap_app, join_app, <- app_assoc, Hp2, app_assoc.
    assert (Hfil : filter (λ r, in_ranges (block_num r) (ranges_to_write w1)) l =
                   filter (λ r, in_ranges (block_num r) (ranges_to_write w)) l).
    { apply list_filter_iff_in. intros x Hx. apply Hin1.
      apply (consecutive_lower _ _ _ Hc) in Hx. lia. }
    rewrite Hfil, filter_cons.
    destruct (decide _) as [Hi|Hi]; unfold block_num in Hi at 1; rewrite Hs in Hi.
    + rewrite (Hyes Hi), <- app_assoc. done.
    + by rewrite (Hno Hi).
Qed.

Lemma disjoint_of_blocks rs :
  Forall range_wf rs → StronglySorted Z.lt (all_blocks rs) →
  StronglySorted (λ x y, range_end x < range_start y) rs.
Proof.
  induction 1 as [|r rs Hr Hwf IH]; [constructor|]. rewrite all_blocks_cons. intros Hs.
  apply StronglySorted_app in Hs as (Hlt & _ & Hs). constructor; [by apply IH|].
  apply Forall_forall. intros x Hx. apply Hlt.
  - unfold blocks, range_len, range_wf in *. apply elem_of_seqZ. lia.
  - apply elem_of_all_blocks. apply Exists_exists. exists x. split; [done|].
    rewrite Forall_forall in Hwf. specialize (Hwf x Hx). unfold range_wf in Hwf. lia.
Qed.

Lemma writer_new_spec missing b :
  Forall range_wf missing → StronglySorted Z.lt (all_blocks missing) →
  (∀ n, in_ranges n missing → b <= n) →
  ∃ w, writer_new missing = Ok w /\ writer_inv net w b /\ pending w = [] /\
       ∀ n, in_ranges n (ranges_to_write w) ↔ in_ranges n missing.
Proof.
  intros Hwf Hs Hlow. unfold writer_new.
  destruct (limit_ranges_spec missing MAX_PARTITION_BLOCK_RANGE) as (out & -> & Hb & Hw);
    [done|done|].
  assert (Hwo : Forall range_wf out) by (eapply Forall_impl; [exact Hw|]; by intros r [? _]).
  assert (Hin : ∀ n, in_ranges n out ↔ in_ranges n missing)
    by (intros n; by rewrite <- !elem_of_all_blocks, Hb).
  eexists. split; [done|]. cbn. split_and!; [|by destruct out|done].
  split; [done|]. split; [apply disjoint_of_blocks; [done|cbn [ranges_to_write]; by rewrite Hb]|].
  cbn. destruct out as [|r out]; [done|]. cbn. eexists. split_and!; [done|done|].
  left. split_and!; [done|done|]. apply Hlow, Hin, in_ranges_cons.
  apply list.Forall_cons in Hwo as [Hr _]. unfold range_wf in Hr. lia.
Qed.

(** Closing after the last block of the stream finishes the last file. *)
Lemma close_spec w e :
  writer_inv net w e → (∀ n, in_ranges n (ranges_to_write w) → n < e) →
  ∃ out, close w = Ok out /\ Forall good_output (option_list out) /\
         mjoin (file_rows ∘ out_file <$> option_list out) = pending w.
Proof.
  intros (Hwf & Hs & Hcase) Hlt. unfold close, pending.
  destruct (ranges_to_write w) as [|r rest] eqn:Er.
  { destruct Hcase as [-> _]. cbn. by exists None. }
  apply list.Forall_cons in Hwf as [Hr Hwf].
  destruct Hcase as (f & Hf & Hfs & [(_ & _ & Hb)|(cur & Hcur & Hcov & _ & Hst & _ & Hle)]).
  { specialize (Hlt (range_start r)). rewrite in_ranges_cons in Hlt. unfold range_wf in Hr. lia. }
  destruct rest as [|r' rest].
  - rewrite Hf. cbn. unfold close_current_file. rewrite Hf, Hcur. cbn.
    eexists. split; [done|]. cbn. split; [|by rewrite app_nil_r].
    apply Forall_singleton. split; [done|]. simpl. congruence.
  - exfalso. inversion Hs as [|? ? _ Hgt]; subst. apply list.Forall_cons in Hgt as [Hgt _].
    apply list.Forall_cons in Hwf as [Hr' _]. specialize (Hlt (range_start r')).
    rewrite !in_ranges_cons in Hlt. unfold range_wf in Hr'. lia.
Qed.

(** A table's missing ranges and its rows fit: the ranges are disjoint, ordered
    and inside the streamed blocks, which are consecutive. *)
Definition table_ready (missing : list RangeInclusive) (b : Z) (l : list RawTableRows) : Prop :=
  Forall range_wf missing /\ StronglySorted Z.lt (all_blocks missing) /\
  (∀ n, in_ranges n missing → b <= n < b + Z.of_nat (length l)) /\
  0 <= b /\ b + Z.of_nat (length l) <= u64_max /\ consecutive net b l.

(** What the files of a table hold. *)
Definition table_done (missing : list RangeInclusive) (l : list RawTableRows) (outs : list Output) : Prop :=
  Forall good_output outs /\
  mjoin (file_rows ∘ out_file <$> outs) = filter (λ r, in_ranges (block_num r) missing) l.

Lemma write_table_phases missing b l :
  table_ready missing b l →
  ∃ w w' outs out, writer_new missing = Ok w /\ write_all w l = Ok (w', outs) /\
    close w' = Ok out /\ table_done missing l (outs ++ option_list out).
Proof.
  intros (Hwf & Hs & Hin & Hb & Hm & Hc).
  destruct (writer_new_spec missing b Hwf Hs) as (w & Hw & Hinv & Hp & Hr);
    [intros n Hn; by apply Hin|].
  destruct (write_all_spec w b l Hinv Hb Hm Hc) as (w' & outs & Hwa & Hinv' & Hr' & Hg & Hp').
  destruct (close_spec w' _ Hinv') as (out & Hcl & Hg' & Hp'').
  { intros n Hn. destruct (decide (b + Z.of_nat (length l) <= n)); [|lia].
    apply Hr', Hr in Hn; [|done]. apply Hin in Hn. lia. }
  exists w, w', outs, out. split_and!; [done..|]. split; [by apply Forall_app|].
  rewrite fmap_app, join_app, Hp'', Hp', Hp. cbn. apply list_filter_iff_in. intros x _. apply Hr.
Qed.

Lemma outputs_of_app t l k : outputs_of t (l ++ k) = outputs_of t l ++ outputs_of t k.
Proof. unfold outputs_of. by rewrite filter_app, fmap_app. Qed.

Lemma outputs_of_pair t t' (o : option Output) :
  outputs_of t (pair t' <$> option_list o) = if decide (t' = t) then option_list o else [].
Proof.
  unfold outputs_of. destruct o; simpl; [|by destruct (decide _)].
  rewrite filter_cons, filter_nil. simpl. by destruct (decide (t' = t)).
Qed.

(** Tables do not interfere: each gets what its own rows produce. *)
Lemma dataset_write_all_spec d stream :
  Forall (λ r, is_Some (writers d !! table r)) stream →
  (∀ t w, writers d !! t = Some w → ∃ w' outs, write_all w (rows_of t stream) = Ok (w', outs)) →
  ∃ d', dataset_write_all d stream = Ok d' /\
    (∀ t, writers d !! t = None → writers d' !! t = None) /\
    ∀ t w w' outs, writers d !! t = Some w → write_all w (rows_of t stream) = Ok (w', outs) →
      writers d' !! t = Some w' /\
      outputs_of t (committed d') = outputs_of t (committed d) ++ outs.
Proof.
  revert d. induction stream as [|r stream IH]; intros d Hall Hok.
  - exists d. split; [done|]. split; [done|]. intros t w w' outs Hw Hwa.
    cbn in Hwa. simplify_eq. by rewrite app_nil_r.
  - apply list.Forall_cons in Hall as [[w0 Hw0] Hall]. cbn [dataset_write_all].
    unfold dataset_write. rewrite Hw0. cbn [unwrap mbind comp_bind].
    destruct (Hok _ _ Hw0) as (w' & outs & Hwa). unfold rows_of in Hwa.
    rewrite filter_cons_True in Hwa by done. cbn [write_all] in Hwa.
    destruct (write w0 r) as [[w1 out]|[]| |] eqn:Ew; cbn in Hwa; try discriminate.
    cbn [mbind comp_bind].
    set (d1 := mkDatasetWriter (<[table r:=w1]> (writers d))
                 (committed d ++ (pair (table r) <$> option_list out))).
    assert (Hstep : ∀ t w, writers d1 !! t = Some w →
      ∃ w', (table r = t → writers d !! t = Some w') /\ (table r ≠ t → writers d !! t = Some w)).
    { intros t w. simpl. destruct (decide (table r = t)) as [<-|Hne].
      - rewrite lookup_insert_eq. intros [= <-]. by exists w0.
      - rewrite lookup_insert_ne by done. intros ?. by exists w. }
    destruct (IH d1) as (d' & -> & Hnone & Hsome).
    + eapply Forall_impl; [exact Hall|]. intros x [wx Hx]. simpl.
      destruct (decide (table r = table x)) as [->|Hne];
        [rewrite lookup_insert_eq; by eexists|rewrite lookup_insert_ne by done; by eexists].
    + intros t w. simpl. destruct (decide (table r = t)) as [<-|Hne].
      * rewrite lookup_insert_eq. intros [= <-]. unfold rows_of.
        destruct (write_all w1 _) as [[w2 outs2]|[]| |]; cbn in Hwa; try discriminate. eauto.
      * rewrite lookup_insert_ne by done. intros Hw. destruct (Hok _ _ Hw) as (w2 & outs2 & H2).
        unfold rows_of in *. rewrite filter_cons_False in H2 by done. eauto.
    + exists d'. split; [done|]. split.
      { intros t Ht. apply Hnone. simpl. rewrite lookup_insert_ne by congruence. done. }
      intros t w wf outsf Hw Hwf. unfold rows_of in Hwf. rewrite filter_cons in Hwf.
      destruct (decide (table r = t)) as [<-|Hne].
      * simplify_eq. cbn [write_all] in Hwf. rewrite Ew in Hwf. cbn in Hwf.
        destruct (write_all w1 _) as [[w2 outs2]|[]| |] eqn:E2; cbn in Hwf; try discriminate.
        injection Hwf as <- <-. destruct (Hsome (table r) w1 w2 outs2) as [H1 H2];
          [apply lookup_insert_eq|done|]. split; [done|].
        rewrite H2. simpl. rewrite outputs_of_app, outputs_of_pair, decide_True by done.
        by rewrite app_assoc.
      * destruct (Hsome t w wf outsf) as [H1 H2]; [simpl; by rewrite lookup_insert_ne|done|].
        split; [done|]. rewrite H2. simpl.
        by rewrite outputs_of_app, outputs_of_pair, decide_False, app_nil_r by done.
Qed.

Lemma close_all_spec ws :
  NoDup ws.*1 → (∀ t w, (t, w) ∈ ws → ∃ out, close w = Ok out) →
  ∃ outs, close_all ws = Ok outs /\
    (∀ t w out, (t, w) ∈ ws → close w = Ok out → outputs_of t outs = option_list out) /\
    (∀ t, t ∉ ws.*1 → outputs_of t outs = []).
Proof.
  induction ws as [|[t0 w0] ws IH]; intros Hnd Hok; [exists []; set_solver|].
  apply NoDup_cons in Hnd as [Hni Hnd]. cbn [close_all].
  destruct (Hok t0 w0) as [out0 Ho0]; [set_solver|]. rewrite Ho0. cbn [mbind comp_bind].
  destruct IH as (outs & -> & H1 & H2); [done|set_solver|]. cbn [mbind comp_bind].
  eexists. split; [done|]. split.
  - intros t w out Hin Hc. rewrite outputs_of_app, outputs_of_pair.
    apply elem_of_cons in Hin as [[= -> ->]|Hin].
    + rewrite decide_True, H2, app_nil_r by done. congruence.
    + rewrite decide_False; [simpl; by eapply H1|]. intros ->.
      apply Hni. by apply (list_elem_of_fmap_2 fst _ _ Hin).
  - intros t Ht. cbn in Ht. apply not_elem_of_cons in Ht as [Hne Ht].
    rewrite outputs_of_app, outputs_of_pair, decide_False by done. by apply H2.
Qed.

Lemma dataset_new_spec tables missing :
  NoDup tables →
  (∀ t, t ∈ tables → ∃ ms w, missing !! t = Some ms /\ writer_new ms = Ok w) →
  ∃ d, dataset_new tables missing = Ok d /\ committed d = [] /\
    ∀ t w, writers d !! t = Some w ↔ t ∈ tables /\ ∃ ms, missing !! t = Some ms /\ writer_new ms = Ok w.
Proof.
  induction tables as [|t0 ts IH]; intros Hnd Hok.
  - exists (mkDatasetWriter ∅ []). split_and!; [done..|]. intros t w. simpl.
    rewrite lookup_empty. set_solver.
  - apply NoDup_cons in Hnd as [Hni Hnd]. cbn [dataset_new].
    destruct (Hok t0) as (ms0 & w0 & Hm0 & Hw0); [set_solver|]. rewrite Hm0. cbn [unwrap mbind comp_bind]. rewrite Hw0. cbn [mbind comp_bind].
    destruct IH as (d & -> & Hc & Hd); [done|set_solver|]. cbn [mbind comp_bind]. eexists. split; [done|].
    split; [done|]. intros t w. simpl. destruct (decide (t0 = t)) as [<-|Hne].
    + rewrite lookup_insert_eq. split; [intros [= <-]; split; [set_solver|eauto]|].
      intros (_ & ms & ? & ?). simplify_eq. congruence.
    + rewrite lookup_insert_ne, Hd by done. set_solver.
Qed.

(** A partition whose stream has every block of its range is ready to be
    written, table by table. *)
Lemma partition_ready (tables : list string) (missing : gmap string (list RangeInclusive)) r rows :
  range_wf r →
  (∀ t, t ∈ tables → ∃ ms, missing !! t = Some ms /\ normalized ms /\
     consecutive net (range_start r) (rows_of t rows) /\ Z.of_nat (length (rows_of t rows)) = range_len r) →
  ∀ t, t ∈ tables → ∃ ms, missing !! t = Some ms /\ table_ready (limit_to_partition ms r) (range_start r) (rows_of t rows).
Proof.
  intros Hr Hm t Ht. destruct (Hm t Ht) as (ms & Hms & Hn & Hc & Hl). exists ms. split; [done|].
  pose proof (limit_to_partition_normalized ms r Hr Hn) as Hln.
  unfold range_wf, range_len in *. split_and!; try done; try lia; [apply Hln|by apply normalized_all_blocks_sorted|].
  intros n Hnn. apply in_limit_to_partition in Hnn. lia.
Qed.

(** The writers of a partition that is ready write their tables and close. *)
Lemma dataset_ready (tables : list string) (missing : gmap string (list RangeInclusive)) r rows :
  NoDup tables →
  (∀ t, t ∈ tables → ∃ ms, missing !! t = Some ms /\ table_ready (limit_to_partition ms r) (range_start r) (rows_of t rows)) →
  ∃ d, dataset_new tables (limit_tables missing r) = Ok d /\ committed d = [] /\
    (∀ t, t ∈ tables → is_Some (writers d !! t)) /\
    ∀ t w, writers d !! t = Some w → ∃ ms w' outs out, missing !! t = Some ms /\
      write_all w (rows_of t rows) = Ok (w', outs) /\ close w' = Ok out /\
      table_done (limit_to_partition ms r) (rows_of t rows) (outs ++ option_list out).
Proof.
  intros Hnd Hready.
  assert (Hlim : ∀ t, t ∈ tables → ∃ ms w w' outs out, missing !! t = Some ms /\
    limit_tables missing r !! t = Some (limit_to_partition ms r) /\ writer_new (limit_to_partition ms r) = Ok w /\
    write_all w (rows_of t rows) = Ok (w', outs) /\ close w' = Ok out /\
    table_done (limit_to_partition ms r) (rows_of t rows) (outs ++ option_list out)).
  { intros t Ht. destruct (Hready t Ht) as (ms & Hms & Hrd).
    destruct (write_table_phases _ _ _ Hrd) as (w & w' & outs & out & ? & ? & ? & ?).
    exists ms, w, w', outs, out. split_and!; try done. unfold limit_tables. by rewrite lookup_fmap, Hms. }
  destruct (dataset_new_spec tables (limit_tables missing r) Hnd) as (d & Hnew & Hdc & Hd).
  { intros t Ht. destruct (Hlim t Ht) as (ms & w & _ & _ & _ & _ & ? & ? & _). eauto. }
  exists d. split_and!; [done|done| |].
  - intros t Ht. destruct (Hlim t Ht) as (ms & w & _ & _ & _ & _ & ? & ? & _). exists w. apply Hd. eauto.
  - intros t w Hw. apply Hd in Hw as (Ht & ms' & Hms' & Hw).
    destruct (Hlim t Ht) as (ms & w2 & w' & outs & out & ? & Hl & Hw2 & ? & ? & ?).
    assert (ms' = limit_to_partition ms r) as -> by congruence. assert (w2 = w) as -> by congruence. by exists ms, w', outs, out.
Qed.

(** ** Properties *)

(** C3: A partition task that streams every block of its range writes, for
    every table, exactly the rows of the blocks missing from that table, in
    order, without a panic; each file it commits holds consecutive blocks whose
    hashes form a chain (a reorg starts a new file), its metadata range is that
    of its rows, and it is named after its first block. *)
Theorem run_range_correct tables missing r stream :
  NoDup tables → range_wf r →
  Forall (λ x, table x ∈ tables) (mjoin stream) →
  (∀ t, t ∈ tables → ∃ ms, missing !! t = Some ms /\ normalized ms /\
     consecutive net (range_start r) (rows_of t (mjoin stream)) /\
     Z.of_nat (length (rows_of t (mjoin stream))) = range_len r) →
  ∃ outs, run_range tables missing r stream = Ok outs /\
    ∀ t ms, t ∈ tables → missing !! t = Some ms →
      Forall good_output (outputs_of t outs) /\
      mjoin (file_rows ∘ out_file <$> outputs_of t outs) =
        filter (λ x, in_ranges (block_num x) ms) (rows_of t (mjoin stream)).
Proof.
  intros Hnd Hr Htab Hm. unfold run_range. set (rows := mjoin stream) in *.
  destruct (dataset_ready tables missing r rows Hnd (partition_ready tables missing r rows Hr Hm)) as (d & -> & Hdc & Hin & Hphase).
  cbn [mbind comp_bind]. destruct (dataset_write_all_spec d rows) as (d' & -> & Hnone & Hsome).
  { eapply Forall_impl; [exact Htab|]. intros x Hx. by apply Hin. }
  { intros t w Hw. destruct (Hphase t w Hw) as (ms & w' & outs & out & _ & Hwa & _). eauto. }
  cbn [mbind comp_bind]. unfold dataset_close.
  destruct (close_all_spec (map_to_list (writers d'))) as (outs & -> & Hcl & _).
  { apply NoDup_fst_map_to_list. }
  { intros t w Hw. apply elem_of_map_to_list in Hw.
    destruct (writers d !! t) as [w0|] eqn:Hw0; [|by rewrite (Hnone t Hw0) in Hw].
    destruct (Hphase t w0 Hw0) as (ms & w' & o & out & _ & Hwa & Hc & _).
    destruct (Hsome t w0 w' o Hw0 Hwa) as [Hw' _]. simplify_eq. by exists out. }
  cbn [mbind comp_bind]. eexists. split; [done|]. intros t ms Ht Hms.
  destruct (Hin t Ht) as [w0 Hw0].
  destruct (Hphase t w0 Hw0) as (ms' & w' & o & out & Hms' & Hwa & Hc & [Hg Hrows]). simplify_eq.
  destruct (Hsome t w0 w' o Hw0 Hwa) as [Hw' Ho].
  apply elem_of_map_to_list in Hw'.
  rewrite outputs_of_app, Ho, Hdc, (Hcl t w' out Hw' Hc). cbn [outputs_of app].
  split; [done|]. etransitivity; [exact Hrows|]. apply list_filter_iff_in. intros x Hx.
  rewrite in_limit_to_partition. destruct (Hm t Ht) as (ms' & ? & _ & Hcons & Hlen). simplify_eq.
  apply (consecutive_lower _ _ _ Hcons) in Hx. unfold range_len in Hlen. intuition lia.
Qed.
End Writer.

Lemma retry_delivers attempt start last k :
  0 <= start <= last → last < u64_max →
  (∀ i b, start <= b <= last + 1 → ∃ n, 0 <= n /\ b + n <= last + 1 /\
     yielded (attempt i b) = seqZ b n /\ (failed (attempt i b) = false → b + n = last + 1)) →
  (∀ b, start <= b <= last + 1 → failed (attempt k b) = false) →
  stream_with_retry (S k) attempt start = Ok (seqZ start (last - start + 1)).
Proof.
  intros Hs Hl Hatt Hk. unfold stream_with_retry.
  assert (Hgen : ∀ fuel i sent, (i <= k)%nat → (k - i < fuel)%nat → 0 <= sent <= last - start + 1 →
    retry_loop fuel attempt i start (start + sent) sent =
      Ok (seqZ (start + sent) (last - start + 1 - sent))).
  { induction fuel as [|fuel IH]; intros i sent Hi Hf Hsent; [lia|]. cbn [retry_loop].
    destruct (Hatt i (start + sent)) as (n & Hn & Hle & Hy & Hend); [lia|].
    rewrite Hy, length_seqZ, Z2Nat.id by lia.
    destruct (failed (attempt i (start + sent))) eqn:Hfail.
    - destruct (decide (i = k)) as [->|Hne]; [by rewrite Hk in Hfail by lia|].
      rewrite add64_small by (unfold is_u64; lia). rewrite IH by lia. cbn [mbind comp_bind].
      replace (last - start + 1 - sent) with (n + (last - start + 1 - (sent + n))) by lia.
      rewrite seqZ_app by lia. by replace (start + (sent + n)) with (start + sent + n) by lia.
    - do 2 f_equal. specialize (Hend eq_refl). lia. }
  specialize (Hgen (S k) 0%nat 0). rewrite Z.add_0_r, Z.sub_0_r in Hgen. apply Hgen; lia.
Qed.

(** If the provider's stream opened at a block delivers the blocks from
    there on, in order, until it fails or reaches the end, and some attempt
    does not fail, the retrying stream delivers every block from the start to
    the end exactly once and in order, whatever the attempts before it did. *)
Theorem stream_with_retry_correct attempt start last k :
  0 <= start <= last → last < u64_max →
  (∀ i b, start <= b <= last + 1 → ∃ n, 0 <= n /\ b + n <= last + 1 /\
     yielded (attempt i b) = seqZ b n /\ (failed (attempt i b) = false → b + n = last + 1)) →
  (∀ b, failed (attempt k b) = false) →
  stream_with_retry (S k) attempt start = Ok (seqZ start (last - start + 1)).
Proof. intros Hs Hl Hatt Hk. by apply retry_delivers. Qed.

(** ** The properties at concrete inputs *)

Definition test_rows (t : string) (b fork prev_fork : Z) : RawTableRows :=
  mkRows t (mkBatch 1 (UInt64Column [Some b]) 100)
    (mkBlockRange (mkRange b b) "test" (test_hash b fork)
       (if b =? 0 then None else Some (test_hash (b - 1) prev_fork))).

(** Blocks 0 to 5 of two tables, with a reorg before block 3. *)
Definition test_stream : list (list RawTableRows) :=
  (λ b, [test_rows "blocks" b (if b <? 3 then 0 else 1) (if b <? 3 then 0 else 1);
         test_rows "logs" b (if b <? 3 then 0 else 1) (if b <? 3 then 0 else 1)]) <$> [0; 1; 2; 3; 4; 5].

Definition test_missing : gmap string (list RangeInclusive) :=
  <["blocks" := [mkRange 0 9]]> (<["logs" := [mkRange 1 1; mkRange 4 9]]> ∅).

(** A file holds at most two blocks. *)
Definition test_bytes (l : list RecordBatch) : Z := foldr (λ b acc, batch_size b + acc) 0 l.

Lemma run_range_correct_witness :
  ∃ outs, run_range test_bytes 200 ["blocks"; "logs"] test_missing (mkRange 0 5) test_stream = Ok outs /\
    ((λ o, numbers (out_range o)) <$> outputs_of "blocks" outs) =
      [mkRange 0 1; mkRange 2 2; mkRange 3 4; mkRange 5 5] /\
    ((λ o, numbers (out_range o)) <$> outputs_of "logs" outs) = [mkRange 1 1; mkRange 4 5] /\
    Forall good_output (outputs_of "blocks" outs).
Proof.
  assert (Hn : normalized [mkRange 0 9] /\ normalized [mkRange 1 1; mkRange 4 9]).
  { split; split; repeat constructor; cbn; unfold u64_max; lia. }
  destruct (run_range_correct test_bytes 200 "test" ltac:(done) ["blocks"; "logs"] test_missing
    (mkRange 0 5) test_stream) as (outs & Houts & Hall).
  - apply (bool_decide_unpack _). by vm_compute.
  - solve_wf.
  - apply (bool_decide_unpack _). by vm_compute.
  - intros t Ht. apply elem_of_cons in Ht as [->|Ht]; [|apply list_elem_of_singleton in Ht as ->].
    + exists [mkRange 0 9]. split_and!; [done|apply Hn|by vm_compute|by vm_compute].
    + exists [mkRange 1 1; mkRange 4 9]. split_and!; [done|apply Hn|by vm_compute|by vm_compute].
  - exists outs. split; [done|]. destruct (Hall "blocks" [mkRange 0 9]) as [Hg _]; [by left|reflexivity|].
    split_and!; [vm_compute in Houts; injection Houts as <-; by vm_compute..|done].
Defined.

(** Two failing attempts and one that ends: blocks 3 to 7 arrive once each. *)
Definition test_attempt (k : nat) (b : Z) : Attempt :=
  match k with
  | O => mkAttempt (seqZ b (Z.min 2 (8 - b))) true
  | S O => mkAttempt (seqZ b (Z.min 1 (8 - b))) true
  | _ => mkAttempt (seqZ b (8 - b)) false
  end.

Lemma stream_with_retry_correct_witness :
  stream_with_retry 3 test_attempt 3 = Ok [3; 4; 5; 6; 7].
Proof.
  rewrite (stream_with_retry_correct test_attempt 3 7 2); [done|lia|unfold u64_max; lia| |done].
  intros [|[|i]] b Hb; simpl; eexists; (split; [|split; [|split; [reflexivity|]]]);
    try lia; try discriminate.
Defined.
