(* ===== verification/Text.v ===== *)
(** * Text

    The string operations of the Rust standard library that the parsers of the
    repository use: [split], [matches(..).count()], [contains], [trim],
    [strip_prefix] and [split_once]. Strings are byte strings and white space is
    ASCII white space. The lemmas on appending and on the order of strings are
    shared by the parsers and the stores that list paths. *)

From stdpp Require Import base numbers strings option sets list.
From Stdlib Require Import ZArith Lia Ascii DecimalString.
From S2P Require Import Prelude Decimal.

Fixpoint string_forall (p : ascii → bool) (s : string) : bool :=
  match s with
  | EmptyString => true
  | String c s => p c && string_forall p s
  end.

Definition no_char (c : ascii) (s : string) : bool := string_forall (λ d, negb (Ascii.eqb d c)) s.

(** [s.contains(c)] *)
Definition contains (c : ascii) (s : string) : bool := negb (no_char c s).

(** [s.matches(c).count()] *)
Fixpoint count_char (c : ascii) (s : string) : nat :=
  match s with
  | EmptyString => 0
  | String d s => (if Ascii.eqb d c then 1 else 0) + count_char c s
  end.

(** [s.split(c)]: one part more than there are separators. *)
Fixpoint split_on (c : ascii) (s : string) : list string :=
  match s with
  | EmptyString => [EmptyString]
  | String d s =>
      if Ascii.eqb d c then EmptyString :: split_on c s
      else match split_on c s with
           | [] => [String d EmptyString]
           | p :: ps => String d p :: ps
           end
  end.

(** [s.split_once(c)]: before and after the first separator. *)
Fixpoint split_once (c : ascii) (s : string) : option (string * string) :=
  match s with
  | EmptyString => None
  | String d s =>
      if Ascii.eqb d c then Some (EmptyString, s)
      else '(a, b) ← split_once c s; Some (String d a, b)
  end.

(** [s.rsplit_once(c)]: before and after the last separator. *)
Fixpoint rsplit_once (c : ascii) (s : string) : option (string * string) :=
  match s with
  | EmptyString => None
  | String d s =>
      match rsplit_once c s with
      | Some (a, b) => Some (String d a, b)
      | None => if Ascii.eqb d c then Some (EmptyString, s) else None
      end
  end.

(** [s.strip_prefix(p)] *)
Fixpoint strip_prefix (p s : string) : option string :=
  match p, s with
  | EmptyString, s => Some s
  | String c p, String d s => if Ascii.eqb c d then strip_prefix p s else None
  | String _ _, EmptyString => None
  end.

Definition is_space (c : ascii) : bool :=
  let n := Ascii.nat_of_ascii c in (Nat.leb 9 n && Nat.leb n 13) || Nat.eqb n 32.

Definition is_digit (c : ascii) : bool :=
  let n := Ascii.nat_of_ascii c in Nat.leb 48 n && Nat.leb n 57.

Definition is_lower (c : ascii) : bool :=
  let n := Ascii.nat_of_ascii c in Nat.leb 97 n && Nat.leb n 122.

Definition is_upper (c : ascii) : bool :=
  let n := Ascii.nat_of_ascii c in Nat.leb 65 n && Nat.leb n 90.

Definition is_alpha (c : ascii) : bool := is_lower c || is_upper c.
Definition is_alnum (c : ascii) : bool := is_alpha c || is_digit c.

Definition is_hex (c : ascii) : bool :=
  let n := Ascii.nat_of_ascii c in
  is_digit c || (Nat.leb 97 n && Nat.leb n 102) || (Nat.leb 65 n && Nat.leb n 70).

Fixpoint trim_start (s : string) : string :=
  match s with
  | String c s' => if is_space c then trim_start s' else s
  | EmptyString => EmptyString
  end.

Fixpoint trim_end (s : string) : string :=
  match s with
  | EmptyString => EmptyString
  | String c s =>
      match trim_end s with
      | EmptyString => if is_space c then EmptyString else String c EmptyString
      | t => String c t
      end
  end.

Definition trim (s : string) : string := trim_end (trim_start s).

Definition is_empty (s : string) : bool :=
  match s with EmptyString => true | _ => false end.

(** [&s[..n]] *)
Fixpoint string_take (n : nat) (s : string) : string :=
  match n, s with
  | S n, String c s => String c (string_take n s)
  | _, _ => EmptyString
  end.

Fixpoint string_length (s : string) : nat :=
  match s with EmptyString => 0 | String _ s => S (string_length s) end.

(** ** Lemmas *)

Lemma append_length a b : String.length (a +:+ b) = (String.length a + String.length b)%nat.
Proof.
  induction a as [|c a IH]; [done|]. change (String c a +:+ b) with (String c (a +:+ b)). cbn [String.length].
  by rewrite IH.
Qed.

Lemma append_assoc a b d : (a +:+ b) +:+ d = a +:+ (b +:+ d).
Proof.
  induction a as [|c a IH]; [done|]. change (String c a +:+ b) with (String c (a +:+ b)).
  change (String c (a +:+ b) +:+ d) with (String c ((a +:+ b) +:+ d)). by rewrite IH.
Qed.

Lemma append_nil a : a +:+ EmptyString = a.
Proof. induction a as [|c a IH]; [done|]. change (String c a +:+ EmptyString) with (String c (a +:+ EmptyString)). by rewrite IH. Qed.

(** Equal concatenations whose second parts have the same length. *)
Lemma append_inj_tail p q a b : p +:+ a = q +:+ b → String.length a = String.length b → a = b.
Proof.
  revert q. induction p as [|c p IH]; intros [|d q] He Hl.
  - done.
  - apply (f_equal String.length) in He. rewrite !append_length in He. cbn [String.length] in He. lia.
  - apply (f_equal String.length) in He. rewrite !append_length in He. cbn [String.length] in He. lia.
  - injection He as _ He. by apply (IH q).
Qed.

Lemma string_forall_app p a b :
  string_forall p (a +:+ b) = string_forall p a && string_forall p b.
Proof. induction a as [|c a IH]; [done|]. simpl. rewrite <- andb_assoc. f_equal. exact IH. Qed.

Lemma string_forall_impl (p q : ascii → bool) s :
  (∀ c, p c = true → q c = true) → string_forall p s = true → string_forall q s = true.
Proof.
  intros Hpq. induction s as [|c s IH]; [done|]. simpl. rewrite !andb_true_iff. naive_solver.
Qed.

Lemma count_char_none c s : no_char c s = true → count_char c s = 0%nat.
Proof.
  unfold no_char. induction s as [|d s IH]; simpl; [done|]. rewrite andb_true_iff. intros [Hd Hs].
  destruct (Ascii.eqb d c); [done|]. by apply IH.
Qed.

Lemma count_char_app c a b : count_char c (a +:+ b) = (count_char c a + count_char c b)%nat.
Proof. induction a as [|d a IH]; [done|]. simpl. rewrite <- Nat.add_assoc. f_equal. exact IH. Qed.

Lemma split_on_none c s : no_char c s = true → split_on c s = [s].
Proof.
  unfold no_char. induction s as [|d s IH]; simpl; [done|]. rewrite andb_true_iff. intros [Hd Hs].
  destruct (Ascii.eqb d c); [done|]. by rewrite IH.
Qed.

Lemma split_on_app c a b :
  no_char c a = true → split_on c (a +:+ String c b) = a :: split_on c b.
Proof.
  unfold no_char. induction a as [|d a IH]; simpl.
  - intros _. by rewrite Ascii.eqb_refl.
  - rewrite andb_true_iff. intros [Hd Ha]. destruct (Ascii.eqb d c); [done|].
    change (String.append a (String c b)) with (a +:+ String c b). by rewrite IH.
Qed.

Lemma split_once_app c a b :
  no_char c a = true → split_once c (a +:+ String c b) = Some (a, b).
Proof.
  unfold no_char. induction a as [|d a IH]; simpl.
  - intros _. by rewrite Ascii.eqb_refl.
  - rewrite andb_true_iff. intros [Hd Ha]. destruct (Ascii.eqb d c); [done|].
    change (String.append a (String c b)) with (a +:+ String c b). by rewrite IH.
Qed.

Lemma split_once_none c s : no_char c s = true → split_once c s = None.
Proof.
  unfold no_char. induction s as [|d s IH]; simpl; [done|]. rewrite andb_true_iff. intros [Hd Hs].
  destruct (Ascii.eqb d c); [done|]. by rewrite IH.
Qed.

Lemma split_once_Some c s a b :
  split_once c s = Some (a, b) → s = a +:+ String c b /\ no_char c a = true.
Proof.
  revert a. induction s as [|d s IH]; simpl; intros a H; [done|].
  destruct (Ascii.eqb_spec d c) as [->|Hne]; [by simplify_eq|].
  destruct (split_once c s) as [[x y]|]; simpl in H; [|done]. simplify_eq.
  destruct (IH x eq_refl) as [-> Hx]. split; [done|]. unfold no_char in *. simpl.
  rewrite Hx, andb_true_r. by apply negb_true_iff, Ascii.eqb_neq.
Qed.

Lemma strip_prefix_app p s : strip_prefix p (p +:+ s) = Some s.
Proof. induction p as [|c p IH]; [done|]. simpl. rewrite Ascii.eqb_refl. exact IH. Qed.

Lemma strip_prefix_Some p s t : strip_prefix p s = Some t → s = p +:+ t.
Proof.
  revert s. induction p as [|c p IH]; intros [|d s] H; simplify_eq/=; [done|done|].
  destruct (Ascii.eqb_spec c d) as [->|]; [|done]. by rewrite (IH _ H).
Qed.

Lemma trim_start_id s : string_forall (negb ∘ is_space) s = true → trim_start s = s.
Proof.
  destruct s as [|c s]; [done|]. simpl. rewrite andb_true_iff. intros [Hc _].
  by destruct (is_space c).
Qed.

Lemma trim_end_id s : string_forall (negb ∘ is_space) s = true → trim_end s = s.
Proof.
  induction s as [|c s IH]; [done|]. simpl. rewrite andb_true_iff. intros [Hc Hs].
  rewrite IH by done. destruct s; [|done]. by destruct (is_space c).
Qed.

Lemma trim_id s : string_forall (negb ∘ is_space) s = true → trim s = s.
Proof. intros H. unfold trim. by rewrite trim_start_id, trim_end_id. Qed.

Lemma digits_of_digits n : string_forall is_digit (digits_of n) = true.
Proof.
  unfold digits_of, NilZero.string_of_uint.
  assert (H : ∀ d, string_forall is_digit (NilEmpty.string_of_uint d) = true)
    by (induction d; simpl; done).
  destruct (N.to_uint (Z.to_N n)); try apply H. done.
Qed.

Lemma digits_of_nonempty n : is_empty (digits_of n) = false.
Proof. pose proof (digits_of_head n). by destruct (digits_of n). Qed.

(** A character that is no digit does not occur in a number. *)
Lemma digits_no_char c n : is_digit c = false → no_char c (digits_of n) = true.
Proof.
  intros Hc. unfold no_char. eapply string_forall_impl; [|apply digits_of_digits].
  intros d Hd. apply negb_true_iff, Ascii.eqb_neq. congruence.
Qed.

Lemma digit_not_space c : is_digit c = true → is_space c = false.
Proof.
  unfold is_digit, is_space. rewrite andb_true_iff, !Nat.leb_le. intros H.
  destruct (Nat.leb_spec 9 (nat_of_ascii c)), (Nat.leb_spec (nat_of_ascii c) 13),
    (Nat.eqb_spec (nat_of_ascii c) 32); simpl; try done; lia.
Qed.

Lemma digits_trim n : trim (digits_of n) = digits_of n.
Proof.
  apply trim_id. eapply string_forall_impl; [|apply digits_of_digits].
  intros c Hc. simpl. by rewrite digit_not_space.
Qed.

(** ** The order of strings *)

(** The order of [BTreeMap<String, _>] and [BTreeSet<String>]. *)
Definition string_le (a b : string) : Prop := String.leb a b = true.

#[global] Instance string_le_dec a b : Decision (string_le a b).
Proof. unfold string_le. apply _. Defined.

#[global] Instance string_le_total : Total string_le.
Proof. intros a b. apply String.leb_total. Qed.

Lemma string_le_cons c a d b :
  string_le (String c a) (String d b) ↔ (N_of_ascii c < N_of_ascii d)%N \/ (c = d /\ string_le a b).
Proof.
  unfold string_le, String.leb. cbn [String.compare]. unfold Ascii.compare.
  destruct (N.compare_spec (N_of_ascii c) (N_of_ascii d)) as [He|Hl|Hl].
  - apply (f_equal ascii_of_N) in He. rewrite !ascii_N_embedding in He. subst d.
    destruct (String.compare a b); split; intuition (try done; try lia).
  - split; [by left|done].
  - split; [done|]. intros [?|[-> _]]; lia.
Qed.

#[global] Instance string_le_trans : Transitive string_le.
Proof.
  intros a. induction a as [|c a IH]; intros [|d b] [|e z]; try done. rewrite !string_le_cons.
  intros [Hcd|[-> Hab]] [Hde|[-> Hbz]]; [left; lia|by left|by left|]. right. split; [done|]. by eapply IH.
Qed.
