(* ===== verification/MemoryPool.v ===== *)
(** * MemoryPool

    The tiered memory pools of queries (core/common/src/memory_pool.rs): a
    global pool and a pool per query that account for the same reservations.
    The pools of DataFusion are behind the class [MemoryPool]; what the code
    relies on of them are the laws of [MemoryPoolOk], and [TieredMemoryPool]
    satisfies these laws itself, which is what the PostgreSQL server needs to
    stack one on another.

    A query runs on many threads, and an operation on the tiered pool takes the
    locks of its two pools one after the other: [System] interleaves these
    steps. *)

From stdpp Require Import base numbers list strings option relations.
From Stdlib Require Import ZArith Lia Ascii.
From S2P Require Import Prelude Decimal Text.

#[local] Open Scope string_scope.

(** ** Pools *)

Inductive MemoryLimit := Finite (limit : Z) | Infinite | Unknown.

(** A consumer or reservation is identified by a number. *)
Definition Consumer : Type := nat.

(** [datafusion::execution::memory_pool::MemoryPool]; an error is its text. *)
Class MemoryPool (P : Type) := {
  register : P → Consumer → P;
  unregister : P → Consumer → P;
  grow : P → Consumer → Z → P;
  shrink : P → Consumer → Z → P;
  try_grow : Consumer → Z → stm P string unit;
  reserved : P → Z;
  memory_limit : P → MemoryLimit
}.

#[global] Arguments register : simpl nomatch.
#[global] Arguments unregister : simpl nomatch.
#[global] Arguments grow : simpl nomatch.
#[global] Arguments shrink : simpl nomatch.
#[global] Arguments try_grow : simpl nomatch.
#[global] Arguments reserved : simpl nomatch.
#[global] Arguments memory_limit : simpl nomatch.

(** What DataFusion documents of a pool. *)
Class MemoryPoolOk (P : Type) `{MemoryPool P} : Prop := {
  register_reserved p c : reserved (register p c) = reserved p;
  unregister_reserved p c : reserved (unregister p c) = reserved p;
  register_limit p c : memory_limit (register p c) = memory_limit p;
  unregister_limit p c : memory_limit (unregister p c) = memory_limit p;
  grow_reserved p c n : 0 <= n → reserved (grow p c n) = reserved p + n;
  shrink_reserved p c n : 0 <= n <= reserved p → reserved (shrink p c n) = reserved p - n;
  grow_limit p c n : memory_limit (grow p c n) = memory_limit p;
  shrink_limit p c n : memory_limit (shrink p c n) = memory_limit p;
  try_grow_result p c n : 0 <= n → 0 <= reserved p →
    memory_limit (try_grow c n p).2 = memory_limit p /\
    match (try_grow c n p).1 with
    | Ok _ => reserved (try_grow c n p).2 = reserved p + n
              /\ ∀ l, memory_limit p = Finite l → reserved p + n <= l
    | Err _ => reserved (try_grow c n p).2 = reserved p
    | _ => False
    end
}.

(** ** [format_oom_error] and [display_limit] *)

Definition newline : ascii := Ascii.ascii_of_nat 10.

(** [s.lines()]: without the line endings, and no last line when it is empty. *)
Definition strip_cr (s : string) : string :=
  match rsplit_once (Ascii.ascii_of_nat 13) s with
  | Some (a, EmptyString) => a
  | _ => s
  end.

Definition lines (s : string) : list string :=
  let ls := split_on newline s in
  let kept := match rev ls with EmptyString :: r => rev r | _ => ls end in
  strip_cr <$> kept.

Definition format_oom_error (err prefix : string) : string :=
  prefix +:+ ": " +:+ String.concat " | " (trim <$> lines err).

Section Tiered.
Context (human_readable_size : Z → string).

Definition display_limit (l : MemoryLimit) : string :=
  match l with Finite n => human_readable_size n | Infinite | Unknown => "unlimited" end.

(** ** [TieredMemoryPool] *)

Record TieredMemoryPool (P C : Type) := mkTiered { parent : P; child : C; peak_reserved : Z }.
#[local] Arguments mkTiered {P C}.
#[local] Arguments parent {P C}.
#[local] Arguments child {P C}.
#[local] Arguments peak_reserved {P C}.

Definition tiered_new {P C} (p : P) (c : C) : TieredMemoryPool P C := mkTiered p c 0.

Context {P C : Type} `{!MemoryPool P} `{!MemoryPool C}.
Notation Tiered := (TieredMemoryPool P C).

Definition tiered_reserved (t : Tiered) : Z := Z.min (reserved (parent t)) (reserved (child t)).

Definition update_peak (t : Tiered) : Tiered :=
  mkTiered (parent t) (child t) (Z.max (peak_reserved t) (tiered_reserved t)).

Definition tiered_register (t : Tiered) (c : Consumer) : Tiered :=
  mkTiered (register (parent t) c) (register (child t) c) (peak_reserved t).

Definition tiered_unregister (t : Tiered) (c : Consumer) : Tiered :=
  mkTiered (unregister (parent t) c) (unregister (child t) c) (peak_reserved t).

Definition tiered_grow (t : Tiered) (c : Consumer) (n : Z) : Tiered :=
  update_peak (mkTiered (grow (parent t) c n) (grow (child t) c n) (peak_reserved t)).

Definition tiered_shrink (t : Tiered) (c : Consumer) (n : Z) : Tiered :=
  mkTiered (shrink (parent t) c n) (shrink (child t) c n) (peak_reserved t).

Definition query_error (c : C) (e : string) : string :=
  format_oom_error e ("query memory limit of " +:+ display_limit (memory_limit c) +:+ " exceeded").

Definition global_error (p : P) (e : string) : string :=
  format_oom_error e ("global memory limit of " +:+ display_limit (memory_limit p) +:+ " exceeded").

Definition tiered_try_grow (c : Consumer) (n : Z) : stm Tiered string unit := λ t,
  match try_grow c n (parent t) with
  | (Ok _, p) =>
      match try_grow c n (child t) with
      | (Ok _, q) => (Ok tt, update_peak (mkTiered p q (peak_reserved t)))
      | (Err e, q) => (Err (query_error q e), mkTiered (shrink p c n) q (peak_reserved t))
      | (Panic, q) => (Panic, mkTiered p q (peak_reserved t))
      | (OutOfFuel, q) => (OutOfFuel, mkTiered p q (peak_reserved t))
      end
  | (Err e, p) => (Err (global_error p e), mkTiered p (child t) (peak_reserved t))
  | (Panic, p) => (Panic, mkTiered p (child t) (peak_reserved t))
  | (OutOfFuel, p) => (OutOfFuel, mkTiered p (child t) (peak_reserved t))
  end.

Definition tiered_memory_limit (t : Tiered) : MemoryLimit :=
  match memory_limit (parent t), memory_limit (child t) with
  | Finite p, Finite c => Finite (Z.min p c)
  | Finite p, _ => Finite p
  | _, Finite c => Finite c
  | Infinite, Infinite => Infinite
  | _, _ => Unknown
  end.

#[export] Instance tiered_pool : MemoryPool Tiered :=
  {| register := tiered_register; unregister := tiered_unregister; grow := tiered_grow; shrink := tiered_shrink;
     try_grow := tiered_try_grow; reserved := tiered_reserved; memory_limit := tiered_memory_limit |}.

(** A tiered pool is a pool whose reservation is the lesser of the two and
    whose limit is the stricter one. *)
#[export] Instance tiered_pool_ok `{!MemoryPoolOk P} `{!MemoryPoolOk C} : MemoryPoolOk Tiered.
Proof.
  split; cbn -[Z.min Z.max]; unfold tiered_reserved, tiered_memory_limit; cbn -[Z.min Z.max].
  - intros p c. by rewrite !register_reserved.
  - intros p c. by rewrite !unregister_reserved.
  - intros p c. by rewrite !register_limit.
  - intros p c. by rewrite !unregister_limit.
  - intros p c n Hn. rewrite !grow_reserved by done. lia.
  - intros p c n Hn. rewrite !shrink_reserved by lia. lia.
  - intros p c n. by rewrite !grow_limit.
  - intros p c n. by rewrite !shrink_limit.
  - intros p c n Hn Hr. unfold tiered_try_grow.
    assert (0 <= reserved (parent p) /\ 0 <= reserved (child p)) as [Hrp Hrc] by lia.
    pose proof (try_grow_result (parent p) c n Hn Hrp) as [Hpl Hp].
    destruct (try_grow c n (parent p)) as [[[]|e| |] p']; cbn -[Z.min Z.max] in Hpl, Hp |- *; [|by rewrite Hpl, Hp|done..].
    destruct Hp as [Hp Hlim].
    pose proof (try_grow_result (child p) c n Hn Hrc) as [Hcl Hc].
    destruct (try_grow c n (child p)) as [[[]|e| |] q']; cbn -[Z.min Z.max] in Hcl, Hc |- *; [..|done|done].
    + destruct Hc as [Hc Hlim']. rewrite Hpl, Hcl, Hp, Hc. split; [done|]. split; [lia|]. intros l Hl.
      destruct (memory_limit (parent p)) as [lp| |]; destruct (memory_limit (child p)) as [lc| |]; simplify_eq;
        try specialize (Hlim _ eq_refl); try specialize (Hlim' _ eq_refl); lia.
    + rewrite shrink_limit, Hpl, Hcl. rewrite shrink_reserved by lia. split; [done|]. rewrite Hp, Hc. lia.
Qed.
End Tiered.
Arguments mkTiered {P C}.
Arguments parent {P C}.
Arguments child {P C}.
Arguments peak_reserved {P C}.

(** ** The pools of a process

    A reservation belongs to a query and holds [held] bytes; [pc] is where its
    thread is inside an operation: [try_grow] and [grow] take the global pool
    first and then the pool of the query, [shrink] the other way round, and
    [update_peak] reads one pool after the other. The reservation changes its
    own size when the operation has returned. *)

Section Process.
Context {P C : Type} `{!MemoryPool P} `{!MemoryPool C}.

Inductive Pc :=
  | Idle
  | TryChild (n : Z)                  (* the global pool has grown *)
  | Rollback (n : Z)                  (* the pool of the query refused *)
  | GrowChild (n : Z)                 (* [grow]: the global pool has grown *)
  | ReadParent (n : Z)                (* both have grown *)
  | ReadChild (n : Z) (parent : Z)    (* the global pool has been read *)
  | ShrinkParent (n : Z).             (* the pool of the query has shrunk *)

Record Thread := mkThread { consumer : Consumer; query : nat; held : Z; pc : Pc }.

Definition at_pc (t : Thread) (c : Pc) : Thread := mkThread (consumer t) (query t) (held t) c.
Definition returned (t : Thread) (h : Z) : Thread := mkThread (consumer t) (query t) h Idle.

(** A query's own pool and its peak. *)
Record Query := mkQuery { pool : C; peak : Z }.

Record System := mkSystem { global : P; queries : list Query; threads : list Thread }.

(** A query at its start, and a thread at its start. *)
Definition new_query_ok (q : Query) : Prop :=
  reserved (pool q) = 0 /\ peak q = 0 /\ ∀ l, memory_limit (pool q) = Finite l → 0 <= l.

Definition new_thread_ok (n : nat) (t : Thread) : Prop := held t = 0 /\ pc t = Idle /\ (query t < n)%nat.

Definition set_pool (q : Query) (c : C) : Query := mkQuery c (peak q).

(** The steps of the threads; [infallible] says whether [grow] is called too. *)
Inductive step (infallible : bool) (s : System) : System → Prop :=
  | new_query q :
      new_query_ok q → step infallible s (mkSystem (global s) (queries s ++ [q]) (threads s))
  | register_consumer t q :
      new_thread_ok (length (queries s)) t → queries s !! query t = Some q →
      step infallible s (mkSystem (register (global s) (consumer t))
                 (<[query t := set_pool q (register (pool q) (consumer t))]> (queries s)) (threads s ++ [t]))
  | try_parent i t n p :
      threads s !! i = Some t → pc t = Idle → 0 <= n → try_grow (consumer t) n (global s) = (Ok tt, p) →
      step infallible s (mkSystem p (queries s) (<[i := at_pc t (TryChild n)]> (threads s)))
  | try_parent_fails i t n e p :
      threads s !! i = Some t → pc t = Idle → 0 <= n → try_grow (consumer t) n (global s) = (Err e, p) →
      step infallible s (mkSystem p (queries s) (threads s))
  | try_child i t n q c :
      threads s !! i = Some t → pc t = TryChild n → queries s !! query t = Some q →
      try_grow (consumer t) n (pool q) = (Ok tt, c) →
      step infallible s (mkSystem (global s) (<[query t := set_pool q c]> (queries s)) (<[i := at_pc t (ReadParent n)]> (threads s)))
  | try_child_fails i t n q e c :
      threads s !! i = Some t → pc t = TryChild n → queries s !! query t = Some q →
      try_grow (consumer t) n (pool q) = (Err e, c) →
      step infallible s (mkSystem (global s) (<[query t := set_pool q c]> (queries s)) (<[i := at_pc t (Rollback n)]> (threads s)))
  | rollback i t n :
      threads s !! i = Some t → pc t = Rollback n →
      step infallible s (mkSystem (shrink (global s) (consumer t) n) (queries s) (<[i := at_pc t Idle]> (threads s)))
  | grow_parent i t n :
      infallible = true → threads s !! i = Some t → pc t = Idle → 0 <= n →
      step infallible s (mkSystem (grow (global s) (consumer t) n) (queries s) (<[i := at_pc t (GrowChild n)]> (threads s)))
  | grow_child i t n q :
      threads s !! i = Some t → pc t = GrowChild n → queries s !! query t = Some q →
      step infallible s (mkSystem (global s) (<[query t := set_pool q (grow (pool q) (consumer t) n)]> (queries s))
                 (<[i := at_pc t (ReadParent n)]> (threads s)))
  | read_parent i t n :
      threads s !! i = Some t → pc t = ReadParent n →
      step infallible s (mkSystem (global s) (queries s) (<[i := at_pc t (ReadChild n (reserved (global s)))]> (threads s)))
  | read_child i t n r q :
      threads s !! i = Some t → pc t = ReadChild n r → queries s !! query t = Some q →
      step infallible s (mkSystem (global s) (<[query t := mkQuery (pool q) (Z.max (peak q) (Z.min r (reserved (pool q))))]> (queries s))
                 (<[i := returned t (held t + n)]> (threads s)))
  | shrink_child i t n q :
      threads s !! i = Some t → pc t = Idle → 0 <= n <= held t → queries s !! query t = Some q →
      step infallible s (mkSystem (global s) (<[query t := set_pool q (shrink (pool q) (consumer t) n)]> (queries s))
                 (<[i := at_pc t (ShrinkParent n)]> (threads s)))
  | shrink_parent i t n :
      threads s !! i = Some t → pc t = ShrinkParent n →
      step infallible s (mkSystem (shrink (global s) (consumer t) n) (queries s) (<[i := returned t (held t - n)]> (threads s))).

(** An empty global pool, before any query. *)
Definition initial (s : System) : Prop :=
  reserved (global s) = 0 /\ (∀ l, memory_limit (global s) = Finite l → 0 <= l) /\ queries s = [] /\ threads s = [].

Inductive reachable (infallible : bool) : System → Prop :=
  | reachable_initial s : initial s → reachable infallible s
  | reachable_step s s' : reachable infallible s → step infallible s s' → reachable infallible s'.

(** What a thread has reserved in the global pool and in the pool of its query. *)
Definition in_global (t : Thread) : Z :=
  held t + match pc t with TryChild n | Rollback n | GrowChild n | ReadParent n | ReadChild n _ => n | Idle | ShrinkParent _ => 0 end.

Definition in_query (t : Thread) : Z :=
  held t + match pc t with
           | ReadParent n | ReadChild n _ => n
           | ShrinkParent n => - n
           | Idle | TryChild _ | Rollback _ | GrowChild _ => 0
           end.

Fixpoint sum {A} (f : A → Z) (l : list A) : Z := match l with [] => 0 | x :: l => f x + sum f l end.

Definition of_query (q : nat) (t : Thread) : Z := if decide (query t = q) then in_query t else 0.

(** ** Accounting *)

Definition thread_ok (n : nat) (t : Thread) : Prop :=
  0 <= held t /\ (query t < n)%nat /\
  match pc t with
  | TryChild n | Rollback n | GrowChild n | ReadParent n | ReadChild n _ => 0 <= n
  | ShrinkParent n => 0 <= n <= held t
  | Idle => True
  end.

Record accounted (s : System) : Prop := {
  acc_threads : Forall (thread_ok (length (queries s))) (threads s);
  acc_global : reserved (global s) = sum in_global (threads s);
  acc_query q Q : queries s !! q = Some Q → reserved (pool Q) = sum (of_query q) (threads s)
}.

Definition within_limit (n : Z) (l : MemoryLimit) : Prop := match l with Finite l => n <= l | _ => True end.

Definition query_limited (q : Query) : Prop :=
  within_limit (reserved (pool q)) (memory_limit (pool q)) /\ within_limit (peak q) (memory_limit (pool q)).

Definition limited (s : System) : Prop :=
  within_limit (reserved (global s)) (memory_limit (global s)) /\ Forall query_limited (queries s).

Definition fallible (t : Thread) : Prop := match pc t with GrowChild _ => False | _ => True end.

Lemma sum_insert {A} (f : A → Z) ts i t t' : ts !! i = Some t → sum f (<[i := t']> ts) = sum f ts - f t + f t'.
Proof.
  revert i. induction ts as [|u ts IH]; intros [|i] Hi; [done|done|..]; cbn in Hi; simplify_eq.
  - change (<[0%nat := t']> (t :: ts)) with (t' :: ts). cbn. lia.
  - change (<[S i := t']> (u :: ts)) with (u :: <[i := t']> ts). cbn [sum]. rewrite (IH i Hi). lia.
Qed.

Lemma sum_app {A} (f : A → Z) ts t : sum f (ts ++ [t]) = sum f ts + f t.
Proof. induction ts as [|u ts IH]; cbn; [lia|]. rewrite IH. lia. Qed.

Lemma sum_bounds {A} (f g : A → Z) ts : Forall (λ t, 0 <= f t <= g t) ts → 0 <= sum f ts <= sum g ts.
Proof. induction 1 as [|t ts Ht _ IH]; cbn; lia. Qed.

Lemma sum_elem {A} (f : A → Z) ts i t : Forall (λ t, 0 <= f t) ts → ts !! i = Some t → f t <= sum f ts.
Proof.
  intros Hts. revert i. induction Hts as [|u ts Hu Hts IH]; intros [|i] Hi; cbn in *; simplify_eq.
  - assert (0 <= sum f ts <= sum f ts); [|lia]. apply sum_bounds. eapply Forall_impl; [exact Hts|cbn; lia].
  - specialize (IH i Hi). lia.
Qed.

Lemma thread_bounds n t q : thread_ok n t → 0 <= of_query q t <= in_global t /\ 0 <= in_query t <= in_global t.
Proof. intros (Hh & _ & Hp). unfold of_query, in_query, in_global. destruct (pc t), (decide _); lia. Qed.

Section Accounting.
Context `{!MemoryPoolOk P} `{!MemoryPoolOk C}.

(** A step of one thread, which changes its reservations by as much as it
    changes the pools. *)
Lemma move_accounted s i t t' p q Q :
  accounted s → threads s !! i = Some t → query t' = query t → thread_ok (length (queries s)) t' →
  reserved p = reserved (global s) + in_global t' - in_global t →
  queries s !! query t = Some Q → reserved (pool q) = reserved (pool Q) + in_query t' - in_query t →
  accounted (mkSystem p (<[query t := q]> (queries s)) (<[i := t']> (threads s))).
Proof.
  intros [Hts Hg Hq] Hi Hqt Ht' Hp HQ Hqp. split; cbn.
  - rewrite length_insert. by apply Forall_insert.
  - rewrite (sum_insert _ _ _ t) by done. lia.
  - intros k K HK. rewrite (sum_insert _ _ _ t) by done. unfold of_query at 2 3. rewrite Hqt.
    apply list_lookup_insert_Some in HK as [(<- & <- & _)|[Hne HK]].
    + rewrite !decide_True by done. rewrite Hqp, (Hq _ _ HQ). lia.
    + rewrite !decide_False by done. rewrite (Hq _ _ HK). lia.
Qed.

(** The same when the pools of the queries stay as they are. *)
Lemma move_global s i t t' p :
  accounted s → threads s !! i = Some t → query t' = query t → thread_ok (length (queries s)) t' →
  reserved p = reserved (global s) + in_global t' - in_global t → in_query t' = in_query t →
  accounted (mkSystem p (queries s) (<[i := t']> (threads s))).
Proof.
  intros Hs Hi Hqt Ht' Hp He.
  destruct (Forall_lookup_1 _ _ _ _ (acc_threads _ Hs) Hi) as (_ & [Q HQ]%lookup_lt_is_Some_2 & _).
  rewrite <- (list_insert_id (queries s) (query t) Q HQ). eapply move_accounted; eauto. lia.
Qed.

Lemma thread_at s i t : accounted s → threads s !! i = Some t → thread_ok (length (queries s)) t.
Proof. intros Hs. exact (Forall_lookup_1 _ _ _ _ (acc_threads _ Hs)). Qed.

Lemma global_holds s i t : accounted s → threads s !! i = Some t → 0 <= in_global t <= reserved (global s).
Proof.
  intros Hs Hi. rewrite (acc_global _ Hs). pose proof (thread_bounds _ t 0%nat (thread_at _ _ _ Hs Hi)). split; [lia|].
  apply sum_elem with (i := i); [|done]. eapply Forall_impl; [apply (acc_threads _ Hs)|].
  intros u Hu. pose proof (thread_bounds _ u 0%nat Hu). cbn. lia.
Qed.

Lemma query_holds s k K : accounted s → queries s !! k = Some K → 0 <= reserved (pool K) <= reserved (global s).
Proof.
  intros Hs HK. rewrite (acc_query _ Hs _ _ HK), (acc_global _ Hs). apply sum_bounds.
  eapply Forall_impl; [apply (acc_threads _ Hs)|]. intros u Hu. pose proof (thread_bounds _ u k Hu). cbn. lia.
Qed.

Lemma query_holds_thread s i t K :
  accounted s → threads s !! i = Some t → queries s !! query t = Some K → 0 <= in_query t <= reserved (pool K).
Proof.
  intros Hs Hi HK. pose proof (thread_bounds _ t (query t) (thread_at _ _ _ Hs Hi)) as [_ Hb]. split; [lia|].
  rewrite (acc_query _ Hs _ _ HK). transitivity (of_query (query t) t).
  - unfold of_query. by rewrite decide_True.
  - apply sum_elem with (i := i); [|done]. eapply Forall_impl; [apply (acc_threads _ Hs)|].
    intros u Hu. pose proof (thread_bounds _ u (query t) Hu). cbn. lia.
Qed.

(** What [try_grow] leaves, from the laws. *)
Lemma try_grow_ok {X} `{!MemoryPool X} `{!MemoryPoolOk X} (p p' : X) c n :
  0 <= n → 0 <= reserved p → try_grow c n p = (Ok tt, p') →
  reserved p' = reserved p + n /\ memory_limit p' = memory_limit p /\ ∀ l, memory_limit p = Finite l → reserved p + n <= l.
Proof. intros Hn Hp He. pose proof (try_grow_result p c n Hn Hp) as [Hl Hr]. rewrite He in Hl, Hr. cbn in Hl, Hr. naive_solver. Qed.

Lemma try_grow_err {X} `{!MemoryPool X} `{!MemoryPoolOk X} (p p' : X) c n e :
  0 <= n → 0 <= reserved p → try_grow c n p = (Err e, p') → reserved p' = reserved p /\ memory_limit p' = memory_limit p.
Proof. intros Hn Hp He. pose proof (try_grow_result p c n Hn Hp) as [Hl Hr]. rewrite He in Hl, Hr. cbn in Hl, Hr. naive_solver. Qed.

Lemma new_query_accounted s q : accounted s → new_query_ok q → accounted (mkSystem (global s) (queries s ++ [q]) (threads s)).
Proof.
  intros [Hts Hg Hq] (Hr & _). split; cbn; [|done|].
  - eapply Forall_impl; [exact Hts|]. intros t (? & ? & ?). rewrite length_app. repeat split; [done|cbn; lia|done].
  - intros k K [HK|[Hk HK]]%lookup_app_Some; [by apply Hq|].
    apply list_lookup_singleton_Some in HK as [Hlen ->]. rewrite Hr.
    assert (sum (of_query k) (threads s) = 0) as ->; [|done]. clear Hg Hq. induction Hts as [|t ts (_ & Ht & _) _ IH]; [done|].
    cbn. rewrite IH. unfold of_query. rewrite decide_False; lia.
Qed.

Lemma register_accounted s t Q :
  accounted s → new_thread_ok (length (queries s)) t → queries s !! query t = Some Q →
  accounted (mkSystem (register (global s) (consumer t))
               (<[query t := set_pool Q (register (pool Q) (consumer t))]> (queries s)) (threads s ++ [t])).
Proof.
  intros [Hts Hg Hq] (Hh & Hpc & Ht) HQ. assert (in_query t = 0 /\ in_global t = 0) as [Hi Hj] by (unfold in_query, in_global; rewrite Hh, Hpc; lia).
  split; cbn.
  - rewrite length_insert. apply Forall_app. split; [done|]. repeat constructor; [lia|done|by rewrite Hpc].
  - rewrite register_reserved, sum_app. lia.
  - intros k K HK. rewrite sum_app. unfold of_query at 2. rewrite Hi.
    apply list_lookup_insert_Some in HK as [(<- & <- & _)|[Hne HK]]; cbn; [rewrite register_reserved|];
      rewrite (Hq _ _ ltac:(eassumption)); destruct (decide _); lia.
Qed.

Ltac bounds :=
  match goal with
  | Hs : accounted ?s, Hi : threads ?s !! _ = Some ?t |- _ =>
      pose proof (thread_at _ _ _ Hs Hi); pose proof (global_holds _ _ _ Hs Hi);
      try match goal with HQ : queries s !! query t = Some _ |- _ => pose proof (query_holds_thread _ _ _ _ Hs Hi HQ) end
  end;
  unfold thread_ok, in_global, in_query in *; cbn in *;
  repeat match goal with H : pc _ = _ |- _ => rewrite H in * end.

Ltac step_cases H :=
  destruct H as
    [q Hq|t q Ht HQ|i t n p Hi Hpc Hn He|i t n e p Hi Hpc Hn He|i t n q c Hi Hpc HQ He|i t n q e c Hi Hpc HQ He
    |i t n Hi Hpc|i t n Hinf Hi Hpc Hn|i t n q Hi Hpc HQ|i t n Hi Hpc|i t n r q Hi Hpc HQ|i t n q Hi Hpc Hn HQ|i t n Hi Hpc].

Lemma step_accounted b s s' : accounted s → step b s s' → accounted s'.
Proof.
  intros Hs Hstep. step_cases Hstep; [by apply new_query_accounted|by apply register_accounted|bounds..].
  - apply try_grow_ok in He as (Hp & _); [|lia..]. eapply move_global; eauto; bounds; lia.
  - apply try_grow_err in He as (Hp & _); [|lia..]. rewrite <- (list_insert_id (threads s) i t Hi).
    eapply move_global; eauto; bounds; lia.
  - apply try_grow_ok in He as (Hp & _); [|lia..]. eapply move_accounted; eauto; bounds; lia.
  - apply try_grow_err in He as (Hp & _); [|lia..]. eapply move_accounted; eauto; bounds; lia.
  - eapply move_global; eauto; bounds; rewrite ?shrink_reserved by lia; lia.
  - eapply move_global; eauto; bounds; rewrite ?grow_reserved by lia; lia.
  - eapply move_accounted; eauto; bounds; rewrite ?grow_reserved by lia; lia.
  - eapply move_global; eauto; bounds; lia.
  - eapply move_accounted; eauto; bounds; lia.
  - eapply move_accounted; eauto; bounds; rewrite ?shrink_reserved by lia; lia.
  - eapply move_global; eauto; bounds; rewrite ?shrink_reserved by lia; lia.
Qed.

Lemma within_finite n l : (∀ k, l = Finite k → n <= k) → within_limit n l.
Proof. intros H. destruct l; cbn; auto. Qed.

Lemma within_le n m l : n <= m → within_limit m l → within_limit n l.
Proof. destruct l; cbn; [lia|done..]. Qed.

Lemma query_at s k K : limited s → queries s !! k = Some K → query_limited K.
Proof. intros [_ Hq]. exact (Forall_lookup_1 _ _ _ _ Hq). Qed.

Lemma limited_insert s k q p ts :
  limited s → within_limit (reserved p) (memory_limit p) → query_limited q →
  limited (mkSystem p (<[k := q]> (queries s)) ts).
Proof. intros [_ Hq] Hp Hq'. split; cbn; [done|]. by apply Forall_insert. Qed.

Lemma limited_global s p ts :
  limited s → within_limit (reserved p) (memory_limit p) → limited (mkSystem p (queries s) ts).
Proof. by intros [_ Hq] Hp. Qed.

Lemma step_fallible s s' : Forall fallible (threads s) → step false s s' → Forall fallible (threads s').
Proof.
  intros Hf Hstep. step_cases Hstep; cbn; try done; try (by apply Forall_insert).
  apply Forall_app. split; [done|]. repeat constructor. unfold fallible. by rewrite (proj1 (proj2 Ht)).
Qed.

Lemma step_limited s s' : accounted s → limited s → Forall fallible (threads s) → step false s s' → limited s'.
Proof.
  intros Hs Hl Hf Hstep. pose proof Hl as [Hlg Hlq].
  step_cases Hstep; [..|by exfalso|pose proof (Forall_lookup_1 _ _ _ _ Hf Hi) as Hn; unfold fallible in Hn; by rewrite Hpc in Hn| | | |];
    try (bounds; pose proof I as _).
  - destruct Hq as (Hr & Hp & Hlim). split; cbn; [done|]. apply Forall_app. split; [done|]. repeat constructor;
      apply within_finite; rewrite ?Hr, ?Hp; done.
  - apply limited_insert; [done|..]; cbn; [by rewrite register_reserved, register_limit|].
    pose proof (query_at _ _ _ Hl HQ) as [Hq1 Hq2]. split; cbn; by rewrite register_limit, ?register_reserved.
  - apply try_grow_ok in He as (Hp & Hm & Hle); [|lia..]. apply limited_global; [done|]. rewrite Hp, Hm. by apply within_finite.
  - apply try_grow_err in He as (Hp & Hm); [|lia..]. apply limited_global; [done|]. by rewrite Hp, Hm.
  - pose proof (query_at _ _ _ Hl HQ) as [Hq1 Hq2]. apply try_grow_ok in He as (Hp & Hm & Hle); [|lia..].
    apply limited_insert; [done..|]. split; cbn; rewrite ?Hp, Hm; [by apply within_finite|done].
  - pose proof (query_at _ _ _ Hl HQ) as [Hq1 Hq2]. apply try_grow_err in He as (Hp & Hm); [|lia..].
    apply limited_insert; [done..|]. split; cbn; by rewrite ?Hp, Hm.
  - apply limited_global; [done|]. rewrite shrink_reserved, shrink_limit by lia. eapply within_le; [|done]. lia.
  - by apply limited_global.
  - pose proof (query_at _ _ _ Hl HQ) as [Hq1 Hq2]. apply limited_insert; [done..|]. split; cbn; [done|].
    destruct (memory_limit (pool q)); cbn in *; [lia|done..].
  - pose proof (query_at _ _ _ Hl HQ) as [Hq1 Hq2]. apply limited_insert; [done..|].
    split; cbn; rewrite shrink_limit, ?shrink_reserved by lia; [|done]. eapply within_le; [|exact Hq1]. lia.
  - apply limited_global; [done|]. rewrite shrink_reserved, shrink_limit by lia. eapply within_le; [|done]. lia.
Qed.

(** *** All threads outside of the pools *)

Definition at_rest (s : System) : Prop := Forall (λ t, pc t = Idle) (threads s).

Lemma sum_of_queries (qs : list Query) (ts : list Thread) base :
  Forall (λ t, (base <= query t < base + length qs)%nat) ts →
  (∀ q Q, qs !! q = Some Q → reserved (pool Q) = sum (of_query (base + q)) ts) →
  sum (λ Q, reserved (pool Q)) qs = sum in_query ts.
Proof.
  revert base ts. induction qs as [|Q qs IH]; intros base ts Hts Hqs; cbn in *.
  - destruct Hts; [done|lia].
  - rewrite (IH (S base) (filter (λ t, query t ≠ base) ts)).
    + rewrite (Hqs 0%nat Q eq_refl), Nat.add_0_r. clear Hqs IH. induction Hts as [|t ts Ht Hts IHt]; [done|].
      rewrite filter_cons. unfold of_query in *. cbn. destruct (decide (query t = base)) as [He|He].
      * rewrite decide_False by tauto. lia.
      * rewrite decide_True by done. cbn. lia.
    + rewrite list.Forall_forall in *. intros t [Hne Ht]%list_elem_of_filter. specialize (Hts t Ht). lia.
    + intros q K HK. rewrite (Hqs (S q) K HK), Nat.add_succ_r. cbn. clear Hts Hqs IH HK.
      induction ts as [|t ts IHt]; [done|]. rewrite filter_cons. cbn. destruct (decide (query t ≠ base)); cbn; [lia|].
      unfold of_query at 1. rewrite decide_False by lia. lia.
Qed.

Lemma reachable_accounted b s : reachable b s → accounted s.
Proof.
  induction 1 as [s (Hr & _ & Hq & Ht)|s s' _ IH Hstep]; [|by eapply step_accounted].
  split; rewrite ?Hq, ?Ht; [constructor|by rewrite Hr|done].
Qed.

Lemma reachable_limited s : reachable false s → Forall fallible (threads s) /\ limited s.
Proof.
  induction 1 as [s (Hr & Hl & Hq & Ht)|s s' Hs [Hf Hlim] Hstep].
  - rewrite Ht. split; [constructor|]. split; rewrite ?Hq; [|constructor]. apply within_finite. by rewrite Hr.
  - split; [by eapply step_fallible|]. eapply step_limited; eauto using reachable_accounted.
Qed.

(** C40: however the threads of the queries interleave, the global pool has
    reserved what the reservations hold and what is on its way, each query's
    pool what its own reservations hold and never more than the global pool;
    when no operation is in progress the global pool is the sum of the pools
    of the queries. As long as [grow] is not called, no pool and no peak is
    above its limit. *)
Theorem tiered_pools_accounted b s :
  reachable b s →
  reserved (global s) = sum in_global (threads s)
  /\ (∀ q Q, queries s !! q = Some Q →
        reserved (pool Q) = sum (of_query q) (threads s) /\ 0 <= reserved (pool Q) <= reserved (global s))
  /\ (at_rest s → reserved (global s) = sum (λ Q, reserved (pool Q)) (queries s)
                  /\ reserved (global s) = sum held (threads s))
  /\ (b = false → limited s).
Proof.
  intros Hs. pose proof (reachable_accounted _ _ Hs) as Ha. split_and!.
  - apply (acc_global _ Ha).
  - intros q Q HQ. split; [by apply (acc_query _ Ha)|by eapply query_holds].
  - intros Hrest. rewrite (acc_global _ Ha).
    rewrite (sum_of_queries (queries s) (threads s) 0); [|eapply Forall_impl; [apply (acc_threads _ Ha)|intros t (? & ? & ?); cbn; lia]|apply (acc_query _ Ha)].
    unfold in_global, in_query. split; (induction Hrest as [|t ts Ht _ IH]; [done|]; cbn; rewrite Ht, IH; lia).
  - intros ->. by apply reachable_limited.
Qed.
End Accounting.

(** *** An operation alone

    The steps of one thread, when no other thread moves, are the operation of
    [TieredMemoryPool] on the global pool and the pool of its query. *)

Section Alone.
Context (human_readable_size : Z → string).

Definition tiered_of (s : System) (Q : Query) : TieredMemoryPool P C := mkTiered (global s) (pool Q) (peak Q).

Definition left_by (s : System) (t : TieredMemoryPool P C) (k : nat) (ts : list Thread) : System :=
  mkSystem (parent t) (<[k := mkQuery (child t) (peak_reserved t)]> (queries s)) ts.

Lemma left_idle s t i u : threads s !! i = Some u → pc u = Idle → t = at_pc u Idle → <[i := t]> (threads s) = threads s.
Proof. intros Hi Hpc ->. apply list_insert_id. destruct u; cbn in *; by subst. Qed.

Lemma both_grown infallible s i t n :
  threads s !! i = Some t → pc t = ReadParent n → ∀ Q, queries s !! query t = Some Q →
  rtc (step infallible) s (left_by s (update_peak (tiered_of s Q)) (query t) (<[i := returned t (held t + n)]> (threads s))).
Proof.
  intros Hi Hpc Q HQ. assert (i < length (threads s))%nat by by eapply lookup_lt_Some.
  eapply rtc_l; [by eapply read_parent|]. eapply rtc_l; [|apply rtc_refl].
  eapply eq_rect; [eapply (read_child _ _ i); cbn; [by apply list_lookup_insert_eq|done|exact HQ]|].
  unfold left_by. cbn. by rewrite list_insert_insert_eq.
Qed.

Lemma try_grow_alone infallible s i t Q n :
  threads s !! i = Some t → pc t = Idle → queries s !! query t = Some Q → 0 <= n →
  match tiered_try_grow human_readable_size (consumer t) n (tiered_of s Q) with
  | (Ok _, t') => rtc (step infallible) s (left_by s t' (query t) (<[i := returned t (held t + n)]> (threads s)))
  | (Err _, t') => rtc (step infallible) s (left_by s t' (query t) (threads s))
  | _ => True
  end.
Proof.
  intros Hi Hpc HQ Hn. unfold tiered_try_grow. cbn.
  destruct (try_grow (consumer t) n (global s)) as [[[]|e| |] p] eqn:Ep; [|..|done|done].
  - assert (i < length (threads s))%nat by by eapply lookup_lt_Some.
    assert (query t < length (queries s))%nat by by eapply lookup_lt_Some.
    destruct (try_grow (consumer t) n (pool Q)) as [[[]|e| |] c] eqn:Ec; [..|done|done];
      (eapply rtc_l; [by eapply try_parent|]).
    + eapply rtc_l; [eapply (try_child _ _ i); cbn; [by apply list_lookup_insert_eq|done|exact HQ|exact Ec]|].
      cbn. rewrite list_insert_insert_eq.
      eapply eq_rect; [eapply (both_grown _ _ i); cbn; [by apply list_lookup_insert_eq|done|by apply list_lookup_insert_eq]|].
      unfold left_by, tiered_of. cbn. by rewrite !list_insert_insert_eq.
    + eapply rtc_l; [eapply (try_child_fails _ _ i); cbn; [by apply list_lookup_insert_eq|done|exact HQ|exact Ec]|].
      cbn. rewrite list_insert_insert_eq. eapply rtc_l; [|apply rtc_refl].
      eapply eq_rect; [eapply (rollback _ _ i); cbn; [by apply list_lookup_insert_eq|done]|].
      unfold left_by. cbn. rewrite list_insert_insert_eq. f_equal. by eapply left_idle.
  - eapply rtc_l; [by eapply try_parent_fails|]. unfold left_by, tiered_of. cbn.
    rewrite list_insert_id; [apply rtc_refl|]. rewrite HQ. by destruct Q.
Qed.

Lemma shrink_alone infallible s i t Q n :
  threads s !! i = Some t → pc t = Idle → queries s !! query t = Some Q → 0 <= n <= held t →
  rtc (step infallible) s (left_by s (tiered_shrink (tiered_of s Q) (consumer t) n) (query t) (<[i := returned t (held t - n)]> (threads s))).
Proof.
  intros Hi Hpc HQ Hn. assert (i < length (threads s))%nat by by eapply lookup_lt_Some.
  eapply rtc_l; [by eapply shrink_child|]. eapply rtc_l; [|apply rtc_refl].
  eapply eq_rect; [eapply (shrink_parent _ _ i); cbn; [by apply list_lookup_insert_eq|done]|].
  unfold left_by, set_pool. cbn. by rewrite list_insert_insert_eq.
Qed.

Lemma grow_alone s i t Q n :
  threads s !! i = Some t → pc t = Idle → queries s !! query t = Some Q → 0 <= n →
  rtc (step true) s (left_by s (tiered_grow (tiered_of s Q) (consumer t) n) (query t) (<[i := returned t (held t + n)]> (threads s))).
Proof.
  intros Hi Hpc HQ Hn. assert (i < length (threads s))%nat by by eapply lookup_lt_Some.
  assert (query t < length (queries s))%nat by by eapply lookup_lt_Some.
  eapply rtc_l; [by eapply grow_parent|].
  eapply rtc_l; [eapply (grow_child _ _ i); cbn; [by apply list_lookup_insert_eq|done|exact HQ]|]. cbn. rewrite list_insert_insert_eq.
  eapply eq_rect; [eapply (both_grown _ _ i); cbn; [by apply list_lookup_insert_eq|done|by apply list_lookup_insert_eq]|].
  unfold left_by, tiered_of, tiered_grow, update_peak, tiered_reserved. cbn. by rewrite !list_insert_insert_eq.
Qed.
End Alone.
End Process.

(** ** Where pools are made *)

Inductive MemoryPoolKind := Greedy | FairSpill.

(** The constructors of DataFusion. *)
Record Pools (P : Type) := mkPools {
  unbounded_pool : P;
  fair_spill_pool : Z → P;
  greedy_pool : Z → P;
  track_consumers : P → Z → P
}.
Arguments unbounded_pool {P}.
Arguments fair_spill_pool {P}.
Arguments greedy_pool {P}.
Arguments track_consumers {P}.

Section Make.
Context {P : Type} (pools : Pools P).

Definition make_memory_pool (kind : MemoryPoolKind) (max_mem_bytes : Z) : P :=
  if (max_mem_bytes =? 0)%Z then unbounded_pool pools
  else match kind with
       | FairSpill => track_consumers pools (fair_spill_pool pools max_mem_bytes) 3
       | Greedy => track_consumers pools (greedy_pool pools max_mem_bytes) 3
       end.

Definition mb (n : Z) : Z := mul64 (mul64 n 1024) 1024.

(** [create_query_env]: the global pool; [QueryContext::for_catalog]: the pool of
    a query over it. *)
Definition global_memory_pool (max_mem_mb : Z) : P := make_memory_pool Greedy (mb max_mem_mb).

Definition query_memory_pool (global : P) (query_max_mem_mb : Z) : TieredMemoryPool P P :=
  tiered_new global (make_memory_pool Greedy (mb query_max_mem_mb)).

(** [build_context] of the PostgreSQL server: one context for all its queries. *)
Definition DEFAULT_PG_MEM_MB : Z := 8192.

Definition pg_memory_pool (global : P) (query_max_mem_mb : Z) : TieredMemoryPool P P :=
  let pg_mem_mb := if (0 <? query_max_mem_mb)%Z then query_max_mem_mb else DEFAULT_PG_MEM_MB in
  tiered_new global (make_memory_pool Greedy (mb pg_mem_mb)).
End Make.

(** ** Evaluations *)

Module Evaluation.

(** A pool that grants what is left of its size. *)
Record TestPool := mkTestPool { used : Z; size : MemoryLimit }.

#[export] Instance test_pool : MemoryPool TestPool := {|
  register p _ := p; unregister p _ := p;
  grow p _ n := mkTestPool (used p + n) (size p);
  shrink p _ n := mkTestPool (used p - n) (size p);
  try_grow _ n p :=
    match size p with
    | Finite l => if (used p + n <=? l)%Z then (Ok tt, mkTestPool (used p + n) (size p)) else (Err "no room", p)
    | _ => (Ok tt, mkTestPool (used p + n) (size p))
    end;
  reserved p := used p; memory_limit p := size p |}.

#[export] Instance test_pool_ok : MemoryPoolOk TestPool.
Proof.
  split; cbn; [done..|lia|done|done|]. intros [u l] c n Hn Hu. unfold try_grow. cbn.
  destruct l as [l| |]; cbn; [|by split_and!..].
  destruct (Z.leb_spec (u + n) l); cbn; [|done]. split_and!; [done..|]. by intros ? [= <-].
Qed.

Definition show (n : Z) : string := "500.0 B".

Definition test_pools : Pools TestPool :=
  mkPools TestPool (mkTestPool 0 Infinite) (λ n, mkTestPool 0 (Finite n)) (λ n, mkTestPool 0 (Finite n)) (λ p _, p).

(** The tests of the file: a refused growth is rolled back and explained, and
    the peak stays. *)
Definition tiered_500 : TieredMemoryPool TestPool TestPool :=
  tiered_new (make_memory_pool test_pools Greedy 1000) (make_memory_pool test_pools Greedy 500).

Example try_grow_both :
  (tiered_try_grow show 0%nat 400 tiered_500).2 = mkTiered (mkTestPool 400 (Finite 1000)) (mkTestPool 400 (Finite 500)) 400.
Proof. reflexivity. Qed.

Example try_grow_refused :
  tiered_try_grow show 0%nat 200 (mkTiered (mkTestPool 400 (Finite 1000)) (mkTestPool 400 (Finite 500)) 400) =
  (Err "query memory limit of 500.0 B exceeded: no room",
   mkTiered (mkTestPool 400 (Finite 1000)) (mkTestPool 400 (Finite 500)) 400).
Proof. reflexivity. Qed.

Example error_on_one_line :
  format_oom_error (String.concat (String newline EmptyString) ["  a "; ""; "b"; ""]) "p" = "p: a |  | b".
Proof. reflexivity. Qed.

(** A limit of no megabytes is no limit, except for the PostgreSQL server. *)
Example zero_is_unlimited : memory_limit (child (query_memory_pool test_pools (global_memory_pool test_pools 0) 0)) = Infinite.
Proof. reflexivity. Qed.

Example pg_is_limited : memory_limit (child (pg_memory_pool test_pools (global_memory_pool test_pools 0) 0)) = Finite (8192 * 1024 * 1024).
Proof. reflexivity. Qed.

Definition demo_thread : Thread := mkThread 7%nat 0%nat 0 Idle.

(** A query is between the growth of the global pool and that of its own. *)
Definition demo : System (P := TestPool) (C := TestPool) :=
  mkSystem (mkTestPool 400 (Finite 1000)) [mkQuery (mkTestPool 0 (Finite 500)) 0] [at_pc demo_thread (TryChild 400)].

Definition demo_start : System (P := TestPool) (C := TestPool) := mkSystem (mkTestPool 0 (Finite 1000)) [] [].
Definition demo_query : System := mkSystem (global demo_start) [mkQuery (mkTestPool 0 (Finite 500)) 0] [].
Definition demo_registered : System := mkSystem (global demo_start) (queries demo_query) [demo_thread].

Lemma demo_reachable : reachable false demo.
Proof.
  apply (reachable_step _ demo_registered);
    [|exact (try_parent _ demo_registered 0 demo_thread 400 (mkTestPool 400 (Finite 1000)) eq_refl eq_refl ltac:(lia) eq_refl)].
  apply (reachable_step _ demo_query);
    [|refine (register_consumer _ demo_query demo_thread (mkQuery (mkTestPool 0 (Finite 500)) 0) _ eq_refl); repeat constructor].
  apply (reachable_step _ demo_start);
    [|refine (new_query _ demo_start (mkQuery (mkTestPool 0 (Finite 500)) 0) _); repeat split; by intros ? [= <-]].
  apply reachable_initial. repeat split. by intros ? [= <-].
Qed.

Lemma tiered_pools_accounted_witness :
  reserved (global demo) = 400 /\ sum in_global (threads demo) = 400 /\ limited demo.
Proof.
  destruct (tiered_pools_accounted false demo demo_reachable) as (Hg & _ & _ & Hl).
  split; [exact Hg|]. split; [reflexivity|exact (Hl eq_refl)].
Defined.

End Evaluation.
