(* ===== verification/Providers.v ===== *)
(** * Providers

    The configurations of providers (core/dataset-store/src/providers.rs): TOML
    files in an object store behind a cache that is filled when it is empty and
    written through, the choice of a provider for a kind and network
    ([find_provider] in core/dataset-store/src/lib.rs), and the substitution of
    [${VAR}] in its fields (core/dataset-store/src/env_substitute.rs).

    The object store is a finite map from paths to files; the conversion of a
    string to a path, TOML and the shuffle of the candidates are parameters. A
    string is a list of ASCII characters, so a position is an index. *)

From stdpp Require Import base numbers list strings option gmap.
From Stdlib Require Import ZArith Lia Ascii.
From S2P Require Import Prelude Decimal Text.

#[local] Open Scope string_scope.

(** ** Substitution of variables *)

Inductive SubstituteError :=
  | MissingVar (name : string)
  | InvalidSyntax (position : Z) (message : string).

Definition dollar : ascii := "$".
Definition open_brace : ascii := "{".
Definition close_brace : ascii := "}".
Definition var_start : string := "${".

Definition unclosed : string := "Unclosed variable: missing '}'".
Definition empty_name : string := "Empty variable name: ${}".

Section Substitute.
Context (lookup : string → option string).

(** One turn per character or variable; [i] is the position and [result] what
    has been written. The inner loop collects the name up to the closing brace. *)
Fixpoint substitute_loop (fuel : nat) (i : Z) (result s : string) : comp SubstituteError string :=
  match fuel with
  | O => OutOfFuel
  | S fuel =>
      match s with
      | EmptyString => Ok result
      | String c s' =>
          match (if Ascii.eqb c dollar then Text.strip_prefix "{" s' else None) with
          | Some rest =>
              match split_once close_brace rest with
              | None => Err (InvalidSyntax i unclosed)
              | Some (var_name, rest') =>
                  if is_empty var_name then Err (InvalidSyntax i empty_name)
                  else match lookup var_name with
                       | Some value =>
                           substitute_loop fuel (i + 3 + Z.of_nat (String.length var_name)) (result +:+ value) rest'
                       | None => Err (MissingVar var_name)
                       end
              end
          | None => substitute_loop fuel (i + 1) (result +:+ String c EmptyString) s'
          end
      end
  end.

Definition substitute_string (template : string) : comp SubstituteError string :=
  substitute_loop (S (String.length template)) 0 EmptyString template.

(** [toml::Value]; what is not a string, a table or an array is left alone. *)
#[warnings="-register-all"]
Inductive Value :=
  | VString (s : string)
  | VTable (entries : list (string * Value))
  | VArray (items : list Value)
  | VOther (text : string).

Fixpoint substitute_vars (value : Value) : comp SubstituteError Value :=
  match value with
  | VString s => VString <$> substitute_string s
  | VTable entries =>
      VTable <$> (fix go (l : list (string * Value)) :=
        match l with
        | [] => Ok []
        | (k, v) :: l => v' ← substitute_vars v; l' ← go l; Ok ((k, v') :: l')
        end) entries
  | VArray items =>
      VArray <$> (fix go (l : list Value) :=
        match l with
        | [] => Ok []
        | v :: l => v' ← substitute_vars v; l' ← go l; Ok (v' :: l')
        end) items
  | VOther _ => Ok value
  end.

(** *** A template as its pieces

    A template is a list of characters and variables; a dollar that is a
    character is not followed by a brace. *)

Inductive Piece := Char (c : ascii) | Var (name : string).

Definition render_piece (p : Piece) : string :=
  match p with Char c => String c EmptyString | Var n => var_start +:+ n +:+ "}" end.

Definition render (ps : list Piece) : string := foldr (λ p acc, render_piece p +:+ acc) EmptyString ps.

Definition name_ok (n : string) : Prop := n ≠ EmptyString /\ no_char close_brace n = true.

(** The pieces, before the rest of a template. *)
Fixpoint pieces_ok (ps : list Piece) (tail : string) : Prop :=
  match ps with
  | [] => True
  | Char c :: ps => (c = dollar → Text.strip_prefix "{" (render ps +:+ tail) = None) /\ pieces_ok ps tail
  | Var n :: ps => name_ok n /\ pieces_ok ps tail
  end.

Definition value_of (p : Piece) : option string :=
  match p with Char c => Some (String c EmptyString) | Var n => lookup n end.

Fixpoint values (ps : list Piece) : option string :=
  match ps with
  | [] => Some EmptyString
  | p :: ps => v ← value_of p; vs ← values ps; Some (v +:+ vs)
  end.

(** The start of a variable, as the loop sees it. *)
Definition var_at (s : string) : option string :=
  match s with
  | String c s' => if Ascii.eqb c dollar then Text.strip_prefix "{" s' else None
  | EmptyString => None
  end.

Lemma var_at_Some s rest : var_at s = Some rest → s = var_start +:+ rest.
Proof.
  destruct s as [|c s]; [done|]. cbn [var_at]. destruct (Ascii.eqb_spec c dollar) as [->|]; [|done].
  intros ->%strip_prefix_Some. done.
Qed.

Lemma loop_char fuel i result c s :
  var_at (String c s) = None →
  substitute_loop (S fuel) i result (String c s) = substitute_loop fuel (i + 1) (result +:+ String c EmptyString) s.
Proof. cbn. by intros ->. Qed.

Lemma loop_start fuel i result s rest :
  var_at s = Some rest →
  substitute_loop (S fuel) i result s =
  match split_once close_brace rest with
  | None => Err (InvalidSyntax i unclosed)
  | Some (var_name, rest') =>
      if is_empty var_name then Err (InvalidSyntax i empty_name)
      else match lookup var_name with
           | Some value => substitute_loop fuel (i + 3 + Z.of_nat (String.length var_name)) (result +:+ value) rest'
           | None => Err (MissingVar var_name)
           end
  end.
Proof. destruct s as [|c s]; [done|]. cbn [var_at substitute_loop]. by intros ->. Qed.

Lemma var_split n rest : name_ok n → split_once close_brace (n +:+ "}" +:+ rest) = Some (n, rest).
Proof. intros [_ Hn]. exact (split_once_app close_brace n rest Hn). Qed.

Lemma render_var n rest : render_piece (Var n) +:+ rest = var_start +:+ (n +:+ "}" +:+ rest).
Proof. unfold render_piece. by rewrite !append_assoc. Qed.

Lemma var_at_start s : var_at (var_start +:+ s) = Some s.
Proof. done. Qed.

Lemma loop_var fuel i result n rest v :
  name_ok n → lookup n = Some v →
  substitute_loop (S fuel) i result (render_piece (Var n) +:+ rest) =
  substitute_loop fuel (i + Z.of_nat (String.length (render_piece (Var n)))) (result +:+ v) rest.
Proof.
  intros Hn Hv. rewrite render_var, (loop_start _ _ _ _ _ (var_at_start _)), var_split by done. rewrite Hv.
  replace (is_empty n) with false by (destruct Hn; by destruct n). f_equal. unfold render_piece, var_start.
  rewrite !append_length. cbn [String.length]. lia.
Qed.

(** The pieces are passed over, and their values written. *)
Lemma loop_pieces fuel i result ps tail v :
  pieces_ok ps tail → values ps = Some v → (String.length (render ps +:+ tail) < fuel)%nat →
  ∃ fuel', (String.length tail < fuel')%nat /\
    substitute_loop fuel i result (render ps +:+ tail) =
    substitute_loop fuel' (i + Z.of_nat (String.length (render ps))) (result +:+ v) tail.
Proof.
  revert fuel i result v. induction ps as [|[c|n] ps IH]; intros fuel i result v Hok Hv Hf.
  - exists fuel. injection Hv as <-. rewrite append_nil. cbn [render foldr String.length] in *. split; [exact Hf|]. f_equal. lia.
  - destruct Hok as [Hc Hok]. cbn in Hv. destruct (values ps) as [vs|]; [|done]. injection Hv as <-.
    destruct fuel as [|fuel]; [lia|]. change (render (Char c :: ps) +:+ tail) with (String c (render ps +:+ tail)) in *.
    rewrite loop_char by (cbn [var_at]; destruct (Ascii.eqb_spec c dollar); auto).
    destruct (IH fuel (i + 1) (result +:+ String c EmptyString) vs Hok eq_refl) as (f & Hlt & ->); [cbn in Hf; lia|].
    exists f. split; [done|]. rewrite append_assoc. f_equal. cbn [render foldr render_piece]. rewrite append_length. cbn [String.length].
    fold (render ps). lia.
  - destruct Hok as [Hn Hok]. cbn in Hv. destruct (lookup n) as [w|] eqn:Hw; [|done]. cbn in Hv.
    destruct (values ps) as [vs|]; [|done]. injection Hv as <-.
    destruct fuel as [|fuel]; [lia|]. cbn [render foldr] in *. fold (render ps) in *. rewrite append_assoc, append_length in Hf.
    rewrite append_assoc, (loop_var _ _ _ _ _ w) by done.
    destruct (IH fuel (i + Z.of_nat (String.length (render_piece (Var n)))) (result +:+ w) vs Hok eq_refl) as (f & Hlt & ->).
    { rewrite append_length in Hf |- *. cbn [render_piece] in Hf. unfold var_start in Hf. rewrite !append_length in Hf. cbn [String.length] in Hf. lia. }
    exists f. split; [done|]. rewrite append_assoc, append_length. f_equal. lia.
Qed.

(** Where the loop stops: at the end, or at a variable it cannot substitute. *)
Definition stops (s : string) : Prop :=
  s = EmptyString
  \/ (∃ n rest, s = render_piece (Var n) +:+ rest /\ name_ok n /\ lookup n = None)
  \/ (∃ rest, s = var_start +:+ rest /\ (no_char close_brace rest = true \/ ∃ rest', rest = String close_brace rest')).

Lemma pieces_total n s :
  (String.length s <= n)%nat → ∃ ps tail, s = render ps +:+ tail /\ pieces_ok ps tail /\ is_Some (values ps) /\ stops tail.
Proof.
  revert s. induction n as [|n IH]; intros s Hn.
  { destruct s; [|cbn in Hn; lia]. exists [], EmptyString. repeat split; [by eexists|by left]. }
  destruct (var_at s) as [rest|] eqn:Hv.
  - apply var_at_Some in Hv as ->.
    destruct (split_once close_brace rest) as [[name rest']|] eqn:Hs.
    + apply split_once_Some in Hs as [-> Hname]. destruct name as [|c name].
      { exists [], (var_start +:+ String close_brace rest'). repeat split; [by eexists|]. right. right. eauto. }
      destruct (lookup (String c name)) as [v|] eqn:Hl.
      * destruct (IH rest') as (ps & tail & -> & Hok & [vs Hvs] & Hst).
        { rewrite !append_length in Hn. cbn [String.length] in Hn. lia. }
        exists (Var (String c name) :: ps), tail. split; [|split; [split; [done|done]|split; [|done]]].
        -- cbn [render foldr render_piece]. rewrite !append_assoc. done.
        -- cbn [values value_of]. rewrite Hl. cbn. rewrite Hvs. by eexists.
      * exists [], (var_start +:+ String c name +:+ String close_brace rest'). repeat split; [by eexists|].
        right. left. exists (String c name), rest'. split; [|done]. cbn [render_piece]. rewrite !append_assoc. done.
    + exists [], (var_start +:+ rest). repeat split; [by eexists|]. right. right. exists rest. split; [done|]. left.
      destruct (no_char close_brace rest) eqn:Hc; [done|]. exfalso.
      revert Hs Hc. clear. unfold no_char. induction rest as [|d rest IH]; cbn; [done|].
      destruct (Ascii.eqb d close_brace); [done|]. destruct (split_once close_brace rest) as [[]|]; [done|]. auto.
  - destruct s as [|c s]; [exists [], EmptyString; repeat split; [by eexists|by left]|].
    destruct (IH s) as (ps & tail & -> & Hok & [vs Hvs] & Hst); [cbn in Hn; lia|].
    exists (Char c :: ps), tail. split; [done|]. split; [split; [|done]|split; [|done]].
    + intros ->. cbn in Hv. exact Hv.
    + cbn. rewrite Hvs. by eexists.
Qed.
(** What a template becomes. *)
Definition substituted (t : string) (r : comp SubstituteError string) : Prop :=
  match r with
  | Ok result => ∃ ps, t = render ps /\ pieces_ok ps EmptyString /\ values ps = Some result
  | Err (MissingVar n) =>
      ∃ ps rest, t = render ps +:+ render_piece (Var n) +:+ rest /\ pieces_ok ps (render_piece (Var n) +:+ rest)
                 /\ is_Some (values ps) /\ name_ok n /\ lookup n = None
  | Err (InvalidSyntax position message) =>
      ∃ ps rest, t = render ps +:+ var_start +:+ rest /\ pieces_ok ps (var_start +:+ rest) /\ is_Some (values ps)
                 /\ position = Z.of_nat (String.length (render ps))
                 /\ (message = unclosed /\ no_char close_brace rest = true
                     \/ message = empty_name /\ ∃ rest', rest = String close_brace rest')
  | _ => False
  end.

(** Every template is substituted or refused with the right reason: it is
    a sequence of characters and variables whose values make up the result, or
    it is one up to a variable that is not known, or up to a [${] that is not
    closed or is followed by the closing brace, and the error gives the
    position of that [${]. A template of known variables is never refused. *)
Theorem substitution_correct t :
  substituted t (substitute_string t)
  /\ ∀ ps v, t = render ps → pieces_ok ps EmptyString → values ps = Some v → substitute_string t = Ok v.
Proof.
  split.
  - destruct (pieces_total _ t ltac:(done)) as (ps & tail & -> & Hok & [v Hv] & Hst). unfold substitute_string.
    destruct (loop_pieces (S (String.length (render ps +:+ tail))) 0 EmptyString ps tail v Hok Hv ltac:(lia)) as ([|f] & Hf & ->); [lia|].
    destruct Hst as [->|[(n & rest & -> & Hn & Hl)|(rest & -> & Hrest)]].
    + rewrite append_nil. exists ps. done.
    + rewrite (render_var n rest) at 2. rewrite (loop_start _ _ _ _ _ (var_at_start _)), var_split, Hl by done.
      replace (is_empty n) with false by (destruct Hn; by destruct n). exists ps, rest. split_and!; [done..|by eexists|done|done].
    + rewrite (loop_start _ _ _ _ _ (var_at_start _)). destruct Hrest as [Hc|[rest' ->]].
      * rewrite split_once_none by done. exists ps, rest. split_and!; [done..|by eexists|lia|by left].
      * exists ps, (String close_brace rest'). split_and!; [done..|by eexists|lia|right; eauto].
  - intros ps v -> Hok Hv. unfold substitute_string.
    destruct (loop_pieces (S (String.length (render ps))) 0 EmptyString ps EmptyString v Hok Hv) as ([|f] & Hf & He);
      [rewrite append_nil; lia|lia|]. rewrite append_nil in He. exact He.
Qed.
End Substitute.

(** ** Provider configurations *)

Inductive DatasetKind := EvmRpc | Solana | EthBeacon | Firehose | Pinax | Derived.

#[export] Instance DatasetKind_eq_dec : EqDecision DatasetKind.
Proof. solve_decision. Defined.

Definition kind_is_raw (k : DatasetKind) : bool := match k with Derived => false | _ => true end.

(** [as_str] with the names of the kinds, and [from_str]. *)
Definition kind_as_str (k : DatasetKind) : string :=
  match k with
  | EvmRpc => "evm-rpc" | Solana => "solana" | EthBeacon => "eth-beacon"
  | Firehose => "firehose" | Pinax => "pinax" | Derived => "manifest"
  end.

Definition kind_from_str (s : string) : comp string DatasetKind :=
  if String.eqb s (kind_as_str EvmRpc) then Ok EvmRpc
  else if String.eqb s (kind_as_str Solana) then Ok Solana
  else if String.eqb s (kind_as_str EthBeacon) then Ok EthBeacon
  else if String.eqb s (kind_as_str Firehose) then Ok Firehose
  else if String.eqb s (kind_as_str Pinax) then Ok Pinax
  else if String.eqb s (kind_as_str Derived) then Ok Derived
  else Err s.

Lemma kind_roundtrip k : kind_from_str (kind_as_str k) = Ok k.
Proof. by destruct k. Qed.

Record ProviderConfig := mkProvider { name : string; kind : DatasetKind; network : string; rest : list (string * Value) }.

Definition with_name (n : string) (p : ProviderConfig) : ProviderConfig := mkProvider n (kind p) (network p) (rest p).
Definition with_rest (r : list (string * Value)) (p : ProviderConfig) : ProviderConfig := mkProvider (name p) (kind p) (network p) r.

(** [s.strip_suffix(suffix)] *)
Fixpoint strip_suffix (suffix s : string) : option string :=
  if String.eqb s suffix then Some EmptyString
  else match s with
       | EmptyString => None
       | String c s => String c <$> strip_suffix suffix s
       end.

Inductive LoadFileError :=
  | StoreFetchFailed (path : string)
  | StoreReadFailed (path : string)
  | InvalidUtf8 (path : string)
  | TomlParseError (path : string).

(** An error of the object store other than [NotFound]. *)
Inductive RegisterError := Conflict (name : string) | SerializeError | RegisterStoreError.
Inductive DeleteError := NotFound (name : string) | DeleteStoreError.

(** What the object store answers to each kind of request of an operation: a
    refused request changes nothing, and a put can be carried out and its answer
    be lost. *)
Inductive PutAnswer := Done | Refused | Lost.

Record Answers := mkAnswers {
  listed : bool; fetched : string → bool; read : string → bool; put : PutAnswer; head : bool; deleted : bool
}.

Definition healthy : Answers := mkAnswers true (λ _, true) (λ _, true) Done true true.

Record State := mkState { store : gmap string string; cache : gmap string ProviderConfig }.

Definition set_cache (c : gmap string ProviderConfig) (s : State) : State := mkState (store s) c.
Definition set_store (o : gmap string string) (s : State) : State := mkState o (cache s).

Section Store.
(** [object_store::path::Path::from], [String::from_utf8], [toml::from_str] and
    [toml::to_string]. *)
Context (to_path : string → string) (valid_utf8 : string → bool)
        (from_toml : string → option ProviderConfig) (to_toml : ProviderConfig → option string).

Definition load_and_parse_file (a : Answers) (o : gmap string string) (path : string) : comp LoadFileError ProviderConfig :=
  match o !! path with
  | Some content =>
      if negb (fetched a path) then Err (StoreFetchFailed path)
      else if negb (read a path) then Err (StoreReadFailed path)
      else if negb (valid_utf8 content) then Err (InvalidUtf8 path)
      else match from_toml content with
           | None => Err (TomlParseError path)
           | Some provider =>
               Ok (if is_empty (name provider)
                   then with_name (default path (strip_suffix ".toml" path)) provider else provider)
           end
  | None => Err (StoreFetchFailed path)
  end.

(** A file of the listing that is not empty and has the extension, with its name. *)
Definition list_entry (e : string * string) : option (string * string) :=
  if is_empty e.2 then None
  else n ← strip_suffix ".toml" e.1; Some (n, e.1).

Definition fetch_from_store (a : Answers) (o : gmap string string) : option (list (comp LoadFileError (string * ProviderConfig))) :=
  if listed a
  then Some ((λ e : string * string, p ← load_and_parse_file a o e.2; Ok (e.1, p)) <$> omap list_entry (map_to_list o))
  else None.

Definition add_loaded (m : gmap string ProviderConfig) (r : comp LoadFileError (string * ProviderConfig)) : gmap string ProviderConfig :=
  match r with Ok (n, p) => <[n := p]> m | _ => m end.

Definition load_into_cache {E} (a : Answers) : stm State E unit := modify (λ s,
  match fetch_from_store a (store s) with
  | None => set_cache ∅ s
  | Some stream => set_cache (foldl add_loaded ∅ stream) s
  end).

Definition load_if_empty {E} (a : Answers) : stm State E unit :=
  c ← gets cache; if bool_decide (c = ∅) then load_into_cache a else mret tt.

Definition get_all {E} (a : Answers) : stm State E (gmap string ProviderConfig) :=
  _ ← load_if_empty a; gets cache.

Definition get_by_name {E} (a : Answers) (n : string) : stm State E (option ProviderConfig) :=
  _ ← load_if_empty a; gets (λ s, cache s !! n).

Definition toml_path (n : string) : string := to_path (n +:+ ".toml").

(** [register], up to the write of the file, the write, and the write to the
    cache. *)
Definition register_check (a : Answers) (p : ProviderConfig) : stm State RegisterError string :=
  _ ← load_if_empty a;
  c ← gets cache;
  match c !! name p with
  | Some _ => throw (Conflict (name p))
  | None => match to_toml p with None => throw SerializeError | Some content => mret content end
  end.

Definition register_put (a : Answers) (p : ProviderConfig) (content : string) : stm State RegisterError unit :=
  match put a with
  | Done => modify (λ s, set_store (<[toml_path (name p) := content]> (store s)) s)
  | Refused => throw RegisterStoreError
  | Lost => _ ← modify (λ s, set_store (<[toml_path (name p) := content]> (store s)) s); throw RegisterStoreError
  end.

Definition register_cache (p : ProviderConfig) : stm State RegisterError unit :=
  modify (λ s, set_cache (<[name p := p]> (cache s)) s).

Definition register_provider (a : Answers) (p : ProviderConfig) : stm State RegisterError unit :=
  content ← register_check a p;
  _ ← register_put a p content;
  register_cache p.

Definition delete_provider (a : Answers) (n : string) : stm State DeleteError unit :=
  let path := toml_path n in
  o ← gets store;
  if negb (head a) then throw DeleteStoreError
  else match o !! path with
       | None =>
           _ ← modify (λ s, set_cache (delete n (cache s)) s);
           throw (NotFound (default path (strip_suffix ".toml" path)))
       | Some _ =>
           if negb (deleted a) then throw DeleteStoreError
           else
             _ ← modify (λ s, set_store (delete path (store s)) s);
             modify (λ s, set_cache (delete n (cache s)) s)
       end.

(** *** [find_provider] *)

(** [substitute_env_vars] on each field of [rest]. *)
Fixpoint substitute_rest (lookup : string → option string) (l : list (string * Value)) : comp SubstituteError (list (string * Value)) :=
  match l with
  | [] => Ok []
  | (k, v) :: l => v' ← substitute_vars lookup v; l' ← substitute_rest lookup l; Ok ((k, v') :: l')
  end.

Fixpoint try_find_provider (lookup : string → option string) (candidates : list ProviderConfig) : option ProviderConfig :=
  match candidates with
  | [] => None
  | provider :: others =>
      match substitute_rest lookup (rest provider) with
      | Ok r => Some (with_rest r provider)
      | _ => try_find_provider lookup others
      end
  end.

Definition matching (k : DatasetKind) (net : string) (p : ProviderConfig) : bool :=
  bool_decide (kind p = k) && String.eqb (network p) net.

(** [shuffle] is the order the random generator gives. *)
Definition find_provider {E} (a : Answers) (lookup : string → option string)
    (shuffle : list ProviderConfig → list ProviderConfig) (k : DatasetKind) (net : string)
    : stm State E (option ProviderConfig) :=
  c ← get_all a;
  let matching_providers := filter (λ p, matching k net p = true) (map_to_list c).*2 in
  mret (match matching_providers with [] => None | _ => try_find_provider lookup (shuffle matching_providers) end).
(** ** What the files say *)

(** The configuration of a name in the object store. *)
Definition view (o : gmap string string) (n : string) : option ProviderConfig :=
  content ← o !! (n +:+ ".toml");
  if is_empty content then None
  else match load_and_parse_file healthy o (n +:+ ".toml") with Ok p => Some p | _ => None end.

Lemma strip_suffix_Some suf s t : strip_suffix suf s = Some t → s = t +:+ suf.
Proof.
  revert t. induction s as [|c s IH]; intros t; cbn [strip_suffix].
  { destruct (String.eqb_spec EmptyString suf) as [<-|]; [by intros [= <-]|done]. }
  destruct (String.eqb_spec (String c s) suf) as [<-|]; [by intros [= <-]|].
  destruct (strip_suffix suf s) as [u|]; [|done]. cbn. intros [= <-]. by rewrite (IH u eq_refl).
Qed.

Lemma strip_suffix_app suf s : strip_suffix suf (s +:+ suf) = Some s.
Proof.
  induction s as [|c s IH].
  - change (EmptyString +:+ suf) with suf. destruct suf; cbn [strip_suffix]; by rewrite String.eqb_refl.
  - change (String c s +:+ suf) with (String c (s +:+ suf)). cbn [strip_suffix].
    destruct (String.eqb_spec (String c (s +:+ suf)) suf) as [He|].
    + apply (f_equal String.length) in He. cbn [String.length] in He. rewrite append_length in He. lia.
    + by rewrite IH.
Qed.

Lemma list_entries o n path :
  (n, path) ∈ omap list_entry (map_to_list o) ↔
  path = n +:+ ".toml" /\ ∃ content, o !! path = Some content /\ is_empty content = false.
Proof.
  rewrite list_elem_of_omap. split.
  - intros ([k content] & Hin%elem_of_map_to_list & He). unfold list_entry in He. cbn in He.
    destruct (is_empty content) eqn:Hc; [done|]. destruct (strip_suffix ".toml" k) as [m|] eqn:Hs; [|done].
    injection He as <- <-. apply strip_suffix_Some in Hs as ->. eauto.
  - intros (-> & content & Ho & Hc). exists (n +:+ ".toml", content). split; [by apply elem_of_map_to_list|].
    unfold list_entry. cbn. rewrite Hc. by rewrite strip_suffix_app.
Qed.

Section Loading.
Context (load : string → comp LoadFileError ProviderConfig).

Definition loaded (e : string * string) : comp LoadFileError (string * ProviderConfig) := p ← load e.2; Ok (e.1, p).

Lemma add_one m k path :
  add_loaded m (loaded (k, path)) = match load path with Ok p => <[k := p]> m | _ => m end.
Proof. unfold loaded. cbn. by destruct (load path). Qed.

Lemma loads_none es m n :
  (∀ path p, (n, path) ∈ es → load path ≠ Ok p) → foldl add_loaded m (loaded <$> es) !! n = m !! n.
Proof.
  revert m. induction es as [|[k path] es IH]; intros m Hn; [done|].
  rewrite fmap_cons. cbn [foldl]. rewrite IH by (intros; eapply Hn; by right). rewrite add_one.
  destruct (load path) as [p|e| |] eqn:Hl; cbn; try done. apply lookup_insert_ne. intros ->. eapply Hn; [by left|done].
Qed.

Lemma loads_one es m n path p :
  NoDup es.*1 → (n, path) ∈ es → load path = Ok p → foldl add_loaded m (loaded <$> es) !! n = Some p.
Proof.
  revert m. induction es as [|[k q] es IH]; intros m Hnd Hin Hl; [by apply elem_of_nil in Hin|].
  apply NoDup_cons in Hnd as [Hk Hnd]. rewrite fmap_cons. cbn [foldl]. apply elem_of_cons in Hin as [[= <- <-]|Hin]; [|by apply IH].
  rewrite loads_none; [rewrite add_one, Hl; apply lookup_insert_eq|].
  intros path' p' Hin. destruct Hk. by apply (list_elem_of_fmap_2 fst _ (n, path')).
Qed.
End Loading.

Lemma entries_NoDup o : NoDup (omap list_entry (map_to_list o)).*1.
Proof.
  assert (∀ l : list (string * string), NoDup l.*1 → NoDup (omap list_entry l).*1) as H; [|apply H, NoDup_fst_map_to_list].
  intros l. induction l as [|[k c] l IH]; intros Hnd; [constructor|]. apply NoDup_cons in Hnd as [Hk Hnd].
  change (omap list_entry ((k, c) :: l)) with (match list_entry (k, c) with Some e => e :: omap list_entry l | None => omap list_entry l end).
  unfold list_entry at 1. cbn [fst snd]. destruct (is_empty c); [by apply IH|]. destruct (strip_suffix ".toml" k) as [n|] eqn:Hs; [|by apply IH].
  apply NoDup_cons. split; [|by apply IH]. intros ([m q] & Hm & Hin)%list_elem_of_fmap. cbn in Hm. subst m.
  apply list_elem_of_omap in Hin as ([k' c'] & Hin' & He). unfold list_entry in He. cbn in He.
  destruct (is_empty c'); [done|]. destruct (strip_suffix ".toml" k') as [n'|] eqn:Hs'; [|done]. injection He as -> ->.
  apply strip_suffix_Some in Hs as ->. apply strip_suffix_Some in Hs' as ->. destruct Hk. by apply (list_elem_of_fmap_2 fst _ (n +:+ ".toml", c')).
Qed.

(** A load has the configurations of the files that could be read. *)
Lemma fetched_view a o l n :
  fetch_from_store a o = Some l →
  foldl add_loaded ∅ l !! n =
  if fetched a (n +:+ ".toml") && read a (n +:+ ".toml") then view o n else None.
Proof.
  unfold fetch_from_store. destruct (listed a); [|done]. intros [= <-].
  assert (load_and_parse_file a o (n +:+ ".toml") =
          if fetched a (n +:+ ".toml") && read a (n +:+ ".toml") then load_and_parse_file healthy o (n +:+ ".toml")
          else match o !! (n +:+ ".toml") with
               | None => Err (StoreFetchFailed (n +:+ ".toml"))
               | Some _ => if fetched a (n +:+ ".toml") then Err (StoreReadFailed (n +:+ ".toml")) else Err (StoreFetchFailed (n +:+ ".toml"))
               end) as Hload.
  { unfold load_and_parse_file. destruct (o !! _), (fetched a _), (read a _); done. }
  unfold view. destruct (o !! (n +:+ ".toml")) as [content|] eqn:Ho; cbn [mbind option_bind].
  2: { rewrite (loads_none (load_and_parse_file a o)); [by destruct (_ && _)|]. intros path p [-> (c' & Hc' & He)]%list_entries. congruence. }
  destruct (is_empty content) eqn:Hc.
  { rewrite (loads_none (load_and_parse_file a o)); [by destruct (_ && _)|]. intros path p [-> (c' & Hc' & He)]%list_entries. congruence. }
  destruct (load_and_parse_file a o (n +:+ ".toml")) as [q|e| |] eqn:Hl.
  - rewrite (loads_one (load_and_parse_file a o) _ _ n (n +:+ ".toml") q (entries_NoDup o)); [|apply list_entries; eauto|done].
    destruct (fetched a _ && read a _); [by rewrite <- Hload|by destruct (fetched a _)].
  - rewrite (loads_none (load_and_parse_file a o)); [|intros path p [-> _]%list_entries; by rewrite Hl].
    destruct (fetched a _ && read a _); [by rewrite <- Hload|done].
  - rewrite (loads_none (load_and_parse_file a o)); [|intros path p [-> _]%list_entries; by rewrite Hl].
    destruct (fetched a _ && read a _); [by rewrite <- Hload|done].
  - rewrite (loads_none (load_and_parse_file a o)); [|intros path p [-> _]%list_entries; by rewrite Hl].
    destruct (fetched a _ && read a _); [by rewrite <- Hload|done].
Qed.
(** ** The cache is not seen *)

Inductive Op := Get (n : string) | Register (p : ProviderConfig) | Delete (n : string) | Load.

Inductive Outcome :=
  | Got (r : option ProviderConfig)
  | Registered (r : comp RegisterError unit)
  | Deleted (r : comp DeleteError unit)
  | Loaded.

Definition run_op (a : Answers) (op : Op) (s : State) : Outcome * State :=
  match op with
  | Get n => let '(r, s') := get_by_name (E := Empty_set) a n s in (Got (match r with Ok p => p | _ => None end), s')
  | Register p => let '(r, s') := register_provider a p s in (Registered r, s')
  | Delete n => let '(r, s') := delete_provider a n s in (Deleted r, s')
  | Load => (Loaded, (load_into_cache (E := Empty_set) a s).2)
  end.

(** The same on the object store alone. *)
Definition spec_op (op : Op) (o : gmap string string) : Outcome * gmap string string :=
  match op with
  | Get n => (Got (view o n), o)
  | Register p =>
      match view o (name p) with
      | Some _ => (Registered (Err (Conflict (name p))), o)
      | None => match to_toml p with
                | None => (Registered (Err SerializeError), o)
                | Some content => (Registered (Ok tt), <[name p +:+ ".toml" := content]> o)
                end
      end
  | Delete n =>
      match o !! (n +:+ ".toml") with
      | None => (Deleted (Err (NotFound n)), o)
      | Some _ => (Deleted (Ok tt), delete (n +:+ ".toml") o)
      end
  | Load => (Loaded, o)
  end.

(** A name that its path keeps as it is. *)
Definition plain_name (n : string) : Prop := toml_path n = n +:+ ".toml".

Definition op_plain (op : Op) : Prop :=
  match op with Get _ | Load => True | Register p => plain_name (name p) | Delete n => plain_name n end.

(** The files can be listed and read, and no answer to a put is lost. *)
Definition calm (a : Answers) : Prop := (∀ path, fetched a path = true /\ read a path = true) /\ listed a = true /\ put a ≠ Lost.

(** A new store over any files, and operations under any answers; [all_calm]
    says whether they are calm. *)
Inductive reachable (all_calm : bool) : State → Prop :=
  | reachable_new o : reachable all_calm (mkState o ∅)
  | reachable_op a op s :
      reachable all_calm s → op_plain op → (all_calm = true → calm a) → reachable all_calm (run_op a op s).2.

Definition sound (s : State) : Prop := ∀ n p, cache s !! n = Some p → view (store s) n = Some p.
Definition coherent (s : State) : Prop := cache s = ∅ \/ ∀ n, cache s !! n = view (store s) n.

(** What is relied on of TOML. *)
Definition toml_roundtrip : Prop := ∀ p c,
  to_toml p = Some c → is_empty c = false /\ valid_utf8 c = true /\ from_toml c = Some p.

Lemma toml_inj m n : m +:+ ".toml" = n +:+ ".toml" → m = n.
Proof. intros H. apply (f_equal (strip_suffix ".toml")) in H. rewrite !strip_suffix_app in H. by injection H. Qed.

Lemma view_other o n k c : k ≠ n +:+ ".toml" → view (<[k := c]> o) n = view o n.
Proof. intros Hk. unfold view, load_and_parse_file. by rewrite lookup_insert_ne. Qed.

Lemma view_put (Htoml : toml_roundtrip) o p c :
  to_toml p = Some c → view (<[name p +:+ ".toml" := c]> o) (name p) = Some p.
Proof.
  intros (Hc & Hu & Hf)%Htoml. unfold view, load_and_parse_file. rewrite lookup_insert_eq. cbn. rewrite Hc, Hu, Hf. cbn.
  destruct (is_empty (name p)) eqn:He; [|done]. rewrite strip_suffix_app. destruct p as [n k w r]. done.
Qed.

Lemma view_delete_eq o n : view (delete (n +:+ ".toml") o) n = None.
Proof. unfold view. by rewrite lookup_delete_eq. Qed.

Lemma view_delete_ne o n k : k ≠ n +:+ ".toml" → view (delete k o) n = view o n.
Proof. intros Hk. unfold view, load_and_parse_file. by rewrite lookup_delete_ne. Qed.

Lemma load_view {E} a s n :
  store (load_into_cache (E := E) a s).2 = store s /\
  cache (load_into_cache (E := E) a s).2 !! n =
  if listed a && fetched a (n +:+ ".toml") && read a (n +:+ ".toml") then view (store s) n else None.
Proof.
  unfold load_into_cache, modify. cbn. destruct (fetch_from_store a (store s)) as [l|] eqn:Hl; cbn.
  - split; [done|]. rewrite (fetched_view _ _ _ _ Hl). unfold fetch_from_store in Hl. by destruct (listed a).
  - unfold fetch_from_store in Hl. by destruct (listed a).
Qed.

(** After [load_if_empty]: nothing but the cache changes, and it is sound, or
    what the files say if it was coherent. *)
Definition loaded_ok (a : Answers) (s s' : State) : Prop :=
  store s' = store s /\ (sound s → sound s') /\ (calm a → coherent s → ∀ n, cache s' !! n = view (store s) n).

Lemma load_ok {E} a s : loaded_ok a s (load_into_cache (E := E) a s).2.
Proof.
  unfold loaded_ok, sound, coherent. pose proof (load_view (E := E) a s) as H.
  set (s' := (load_into_cache a s).2) in *. destruct (H EmptyString) as [-> _]. split_and!; [done|..].
  - intros _ n p. destruct (H n) as [_ ->]. by destruct (_ && _).
  - intros (Hr & Hl & _) _ n. destruct (H n) as [_ ->]. rewrite Hl. destruct (Hr (n +:+ ".toml")) as [-> ->]. done.
Qed.

Lemma load_if_empty_ok {E} a s :
  ∃ s', load_if_empty (E := E) a s = (Ok tt, s') /\ loaded_ok a s s'.
Proof.
  unfold load_if_empty, mbind, stm_bind, gets. destruct (bool_decide_reflect (cache s = ∅)) as [He|Hne].
  - exists (load_into_cache (E := E) a s).2. split; [done|]. apply load_ok.
  - exists s. split; [done|]. unfold loaded_ok, coherent. split_and!; [done..|]. intros _ [?|H]; [done|exact H].
Qed.

Section Correct.
Context (Htoml : toml_roundtrip).

(** A change of one file and of its entry of the cache. *)
Lemma sound_change s o c n :
  sound s → (∀ m, m ≠ n → view o m = view (store s) m /\ c !! m = cache s !! m) →
  (∀ p, c !! n = Some p → view o n = Some p) → sound (mkState o c).
Proof.
  intros Hs Hm Hn m p Hp. cbn in *. destruct (decide (m = n)) as [->|Hne]; [by apply Hn|].
  destruct (Hm m Hne) as [-> He]. apply Hs. by rewrite <- He.
Qed.

Lemma register_sound a p s : plain_name (name p) → sound s → sound (register_provider a p s).2.
Proof.
  intros Hp Hs. destruct (load_if_empty_ok (E := RegisterError) a s) as (s1 & Hl & Hst & Hs1 & _). specialize (Hs1 Hs).
  unfold register_provider, register_check, register_put, register_cache, mbind, stm_bind. rewrite Hl. cbn -[load_if_empty].
  destruct (cache s1 !! name p) as [q|] eqn:Hq; [done|]. destruct (to_toml p) as [content|] eqn:Ht; [|done]. cbn.
  rewrite Hp. destruct (put a); cbn; [|done|].
  - apply (sound_change s1 _ _ (name p) Hs1).
    + intros m Hm. cbn. rewrite view_other by (intros ?%toml_inj; done). by rewrite lookup_insert_ne.
    + intros q Hq'. cbn in Hq'. rewrite lookup_insert_eq in Hq'. injection Hq' as <-. by apply view_put.
  - apply (sound_change s1 _ _ (name p) Hs1).
    + intros m Hm. cbn. by rewrite view_other by (intros ?%toml_inj; done).
    + intros q Hq'. cbn in Hq'. congruence.
Qed.

Lemma delete_sound a n s : plain_name n → sound s → sound (delete_provider a n s).2.
Proof.
  intros Hp Hs. unfold delete_provider, mbind, stm_bind, gets. rewrite Hp. destruct (head a); cbn; [|done].
  destruct (store s !! (n +:+ ".toml")) as [c|]; [destruct (deleted a); cbn; [|done]|]; cbn.
  - apply (sound_change s _ _ n Hs).
    + intros m Hm. cbn. rewrite view_delete_ne by (intros ?%toml_inj; done). by rewrite lookup_delete_ne.
    + intros q Hq. cbn in Hq. by rewrite lookup_delete_eq in Hq.
  - apply (sound_change s _ _ n Hs).
    + intros m Hm. cbn. by rewrite lookup_delete_ne.
    + intros q Hq. cbn in Hq. by rewrite lookup_delete_eq in Hq.
Qed.

Lemma op_sound a op s : op_plain op → sound s → sound (run_op a op s).2.
Proof.
  intros Hp Hs. destruct op as [n|p|n|]; cbn -[register_provider delete_provider load_into_cache] in *.
  - destruct (load_if_empty_ok (E := Empty_set) a s) as (s1 & Hl & _ & Hs1 & _).
    unfold get_by_name, mbind, stm_bind. rewrite Hl. by apply Hs1.
  - pose proof (register_sound a p s Hp Hs). by destruct (register_provider a p s).
  - pose proof (delete_sound a n s Hp Hs). by destruct (delete_provider a n s).
  - by apply load_ok.
Qed.
(** A calm operation on a coherent store leaves it coherent, and a healthy one
    does what it does on the object store alone. *)
Definition op_ok (a : Answers) (op : Op) (s : State) : Prop :=
  coherent (run_op a op s).2
  /\ (a = healthy → (run_op a op s).1 = (spec_op op (store s)).1 /\ store (run_op a op s).2 = (spec_op op (store s)).2).

Lemma healthy_calm : calm healthy.
Proof. by split_and!. Qed.

Lemma register_coherent a p s : plain_name (name p) → calm a → coherent s → op_ok a (Register p) s.
Proof.
  intros Hp Ha Hs. destruct (load_if_empty_ok (E := RegisterError) a s) as (s1 & Hl & Hst & _ & Hv). specialize (Hv Ha Hs).
  unfold op_ok. cbn [run_op spec_op]. unfold register_provider, register_check, register_put, register_cache, mbind, stm_bind. rewrite Hl. cbn -[load_if_empty].
  rewrite (Hv (name p)), Hp. destruct (view (store s) (name p)) as [q|] eqn:Hq; cbn.
  { rewrite Hst. split; [right; intros n; by rewrite Hv, Hst|done]. }
  destruct (to_toml p) as [content|] eqn:Ht; cbn; [|rewrite Hst; split; [right; intros n; by rewrite Hv, Hst|done]].
  destruct Ha as (_ & _ & Hput). destruct (put a) eqn:Epa; cbn; rewrite ?Hst; [|split; [right; intros n; by rewrite Hv, Hst|by intros ->]|done].
  split; [|done]. right. intros n. cbn. destruct (decide (n = name p)) as [->|Hne].
  - by rewrite lookup_insert_eq, view_put.
  - by rewrite lookup_insert_ne, view_other, Hv by (done || (intros ?%toml_inj; done)).
Qed.

Lemma delete_coherent a n s : plain_name n → coherent s → op_ok a (Delete n) s.
Proof.
  intros Hp Hs. unfold op_ok. cbn [run_op spec_op]. unfold delete_provider, mbind, stm_bind, gets. rewrite Hp.
  destruct (head a) eqn:Eh; cbn; [|split; [done|by intros ->]].
  assert (Hc : ∀ o, (∀ m, m ≠ n → view o m = view (store s) m) → view o n = None → coherent (mkState o (delete n (cache s)))).
  { intros o Hm Hn. destruct Hs as [He|Hv]; [left; cbn; rewrite He; apply delete_empty|right]. intros m. cbn.
    destruct (decide (m = n)) as [->|Hne]; [by rewrite lookup_delete_eq|]. rewrite lookup_delete_ne by done. by rewrite Hv, Hm. }
  destruct (store s !! (n +:+ ".toml")) as [c|] eqn:Ho; cbn.
  - destruct (deleted a) eqn:Ed; cbn; [|split; [done|by intros ->]]. split; [|done]. apply Hc; [|apply view_delete_eq].
    intros m Hm. apply view_delete_ne. intros ?%toml_inj. done.
  - split; [apply Hc; [done|]; unfold view; by rewrite Ho|]. by rewrite strip_suffix_app.
Qed.

Lemma op_coherent a op s : op_plain op → calm a → coherent s → op_ok a op s.
Proof.
  intros Hp Ha Hs. destruct op as [n|p|n|].
  - destruct (load_if_empty_ok (E := Empty_set) a s) as (s1 & Hl & Hst & _ & Hv). specialize (Hv Ha Hs).
    unfold op_ok. cbn [run_op spec_op]. unfold get_by_name, mbind, stm_bind. rewrite Hl. cbn. rewrite Hst, Hv.
    split; [|done]. right. intros m. by rewrite Hst.
  - by apply register_coherent.
  - by apply delete_coherent.
  - destruct (load_ok (E := Empty_set) a s) as (Hst & _ & Hv). specialize (Hv Ha Hs). unfold op_ok. cbn [run_op spec_op fst snd].
    split; [|done]. right. intros m. by rewrite Hst.
Qed.

(** Under any failures of the object store, what the cache has is what the
    files say; when every load could list and read the files and no answer to a
    put was lost, an operation that meets no failure answers and changes the
    files as if there were no cache: a provider is found exactly if its file
    can be parsed, registering refuses exactly the names that are found, and
    deleting succeeds exactly if there is a file. *)
Theorem provider_cache_transparent all_calm s :
  reachable all_calm s →
  sound s
  /\ (all_calm = true → ∀ op, op_plain op →
        (run_op healthy op s).1 = (spec_op op (store s)).1 /\ store (run_op healthy op s).2 = (spec_op op (store s)).2).
Proof.
  intros Hs. split.
  - induction Hs as [o|a op s _ IH Hp _]; [by intros n p|by apply op_sound].
  - intros ->. assert (coherent s) as Hc.
    { induction Hs as [o|a op s _ IH Hp Ha]; [by left|]. by apply op_coherent; auto. }
    intros op Hp. by apply (op_coherent healthy op s Hp healthy_calm Hc).
Qed.

(** *** [find_provider] *)

Lemma try_find_provider_spec lookup l :
  match try_find_provider lookup l with
  | Some p' => ∃ p r, p ∈ l /\ substitute_rest lookup (rest p) = Ok r /\ p' = with_rest r p
  | None => ∀ p, p ∈ l → ∀ r, substitute_rest lookup (rest p) ≠ Ok r
  end.
Proof.
  induction l as [|p l IH]; cbn [try_find_provider]; [by intros p Hp%elem_of_nil|].
  destruct (substitute_rest lookup (rest p)) as [r|e| |] eqn:Hr; [exists p, r; split; [by left|done]|..];
    (destruct (try_find_provider lookup l) as [p'|];
      [destruct IH as (q & r & Hq & ?); exists q, r; split; [by right|done]
      |intros q [->|Hq]%elem_of_cons; [intros r; by rewrite Hr|by apply IH]]).
Qed.

(** A provider that is found is one of the kind and the network, its variables
    substituted; none is found only if there is none, or each has a variable
    that cannot be substituted. *)
Lemma find_provider_correct {E} a lookup shuffle k net s :
  (∀ l, shuffle l ≡ₚ l) → calm a → coherent s →
  ∃ r s', find_provider (E := E) a lookup shuffle k net s = (Ok r, s') /\
    match r with
    | Some p' => ∃ n p fields, view (store s) n = Some p /\ kind p = k /\ network p = net
                              /\ substitute_rest lookup (rest p) = Ok fields /\ p' = with_rest fields p
    | None => ∀ n p, view (store s) n = Some p → kind p = k → network p = net → ∀ fields, substitute_rest lookup (rest p) ≠ Ok fields
    end.
Proof.
  intros Hsh Ha Hs. destruct (load_if_empty_ok (E := E) a s) as (s1 & Hl & Hst & _ & Hv). specialize (Hv Ha Hs).
  unfold find_provider, get_all, mbind, stm_bind. rewrite Hl. cbn -[filter]. eexists _, s1. split; [done|].
  set (ms := filter _ _).
  assert (Hms : ∀ p, p ∈ ms ↔ kind p = k /\ network p = net /\ ∃ n, view (store s) n = Some p).
  { intros p. unfold ms. rewrite list_elem_of_filter, list_elem_of_fmap. unfold matching. rewrite andb_true_iff, bool_decide_eq_true, String.eqb_eq.
    split.
    - intros [[Hk Hn] ([n q] & -> & Hin%elem_of_map_to_list)]. cbn in *. rewrite Hv in Hin. eauto.
    - intros (Hk & Hn & n & Hp). split; [done|]. exists (n, p). split; [done|]. apply elem_of_map_to_list. by rewrite Hv. }
  clearbody ms. destruct ms as [|m ms].
  - intros n p Hp Hk Hn. assert (p ∈ []) as []%elem_of_nil. apply Hms. eauto.
  - pose proof (try_find_provider_spec lookup (shuffle (m :: ms))) as Ht.
    destruct (try_find_provider lookup _) as [p'|].
    + destruct Ht as (p & r & Hp & Hr & ->). rewrite (Hsh (m :: ms)) in Hp. apply Hms in Hp as (? & ? & n & ?). by exists n, p, r.
    + intros n p Hp Hk Hn. apply Ht. rewrite (Hsh (m :: ms)). apply Hms. eauto.
Qed.
End Correct.
End Store.

(** ** Evaluations *)

Module Evaluation.

(** A store of files [kind, name, a slash, network], of providers without
    further fields. *)
Definition kind_char (k : DatasetKind) : ascii :=
  match k with EvmRpc => "e" | Solana => "s" | EthBeacon => "b" | Firehose => "f" | Pinax => "p" | Derived => "m" end.

Definition test_to_toml (p : ProviderConfig) : option string :=
  if no_char "/" (name p) && (match rest p with [] => true | _ => false end)
  then Some (String (kind_char (kind p)) (name p +:+ String "/" (network p))) else None.

Definition test_from_toml (s : string) : option ProviderConfig :=
  match s with
  | EmptyString => None
  | String c s =>
      '(n, net) ← split_once "/" s;
      k ← list.head (filter (λ k, kind_char k = c) [EvmRpc; Solana; EthBeacon; Firehose; Pinax; Derived]);
      Some (mkProvider n k net [])
  end.

Lemma test_toml_roundtrip : toml_roundtrip (λ _, true) test_from_toml test_to_toml.
Proof.
  intros [n k net r] c. unfold test_to_toml. cbn [name kind network rest].
  destruct (no_char "/" n) eqn:Hn; [|done]. destruct r; [|done]. intros [= <-]. split_and!; [done..|].
  unfold test_from_toml. rewrite split_once_app by done. by destruct k.
Qed.

Notation run := (run_op id (λ _, true) test_from_toml test_to_toml).

Definition demo : ProviderConfig := mkProvider "a" EvmRpc "mainnet" [].
Definition other : ProviderConfig := mkProvider "b" Firehose "mainnet" [].
Definition files : gmap string string := {[ "a.toml" := "ea/mainnet" ]}.

Example found_in_files : (run healthy (Get "a") (mkState files ∅)).1 = Got (Some demo).
Proof. vm_compute. reflexivity. Qed.

Example conflict_found : (run healthy (Register demo) (mkState files ∅)).1 = Registered (Err (Conflict "a")).
Proof. vm_compute. reflexivity. Qed.

(** When the files cannot be listed, a name that exists is registered again, and
    then the cache, no longer empty, hides every other file. *)
Definition unlisted : Answers := mkAnswers false (λ _, true) (λ _, true) Done true true.

Example register_without_listing :
  let s := (run unlisted (Register other) (mkState files ∅)).2 in
  (run healthy (Get "a") s).1 = Got None /\ store s !! "a.toml" = Some "ea/mainnet".
Proof. split; vm_compute; reflexivity. Qed.

Example registered_twice :
  (run unlisted (Register (mkProvider "a" Solana "x" [])) (mkState files ∅)).1 = Registered (Ok tt).
Proof. vm_compute. reflexivity. Qed.

(** A file that could not be read once stays hidden. *)
Definition unread : Answers := mkAnswers true (λ p, negb (String.eqb p "a.toml")) (λ _, true) Done true true.

Example unread_stays_hidden :
  let s := (run unread Load (mkState (<["b.toml" := "fb/mainnet"]> files) ∅)).2 in
  (run healthy (Get "a") s).1 = Got None /\ (run healthy (Get "b") s).1 = Got (Some other).
Proof. split; vm_compute; reflexivity. Qed.

(** Two registrations of a name at once: both pass the check, and the one whose
    file was overwritten is what the cache has. *)
Definition registrations_at_once (p q : ProviderConfig) (s : State) : State :=
  let '(_, s1) := register_check (λ _, true) test_from_toml test_to_toml healthy p s in
  let '(_, s2) := register_check (λ _, true) test_from_toml test_to_toml healthy q s1 in
  let '(_, s3) := register_put id healthy p (default EmptyString (test_to_toml p)) s2 in
  let '(_, s4) := register_put id healthy q (default EmptyString (test_to_toml q)) s3 in
  let '(_, s5) := register_cache q s4 in
  (register_cache p s5).2.

Example race_of_registrations :
  let q := mkProvider "a" Solana "x" [] in
  let s := registrations_at_once demo q (mkState ∅ ∅) in
  cache s !! "a" = Some demo /\ view (λ _, true) test_from_toml (store s) "a" = Some q.
Proof. split; vm_compute; reflexivity. Qed.

Definition env (n : string) : option string :=
  if String.eqb n "TEST_KIND" then Some "evm-rpc" else if String.eqb n "TEST_URL" then Some "http://localhost:8545" else None.

Example multiple_substitutions : substitute_string env "${TEST_KIND} at ${TEST_URL}" = Ok "evm-rpc at http://localhost:8545".
Proof. reflexivity. Qed.
Example dollars_kept : substitute_string env "$$${TEST_KIND}" = Ok "$$evm-rpc".
Proof. reflexivity. Qed.
Example missing_var : substitute_string env "x${MISSING}" = Err (MissingVar "MISSING").
Proof. reflexivity. Qed.
Example unclosed_var : substitute_string env "x${UNCLOSED" = Err (InvalidSyntax 1 unclosed).
Proof. reflexivity. Qed.
Example empty_var : substitute_string env "${}" = Err (InvalidSyntax 0 empty_name).
Proof. reflexivity. Qed.

Lemma provider_cache_transparent_witness :
  (run healthy (Register other) (mkState files ∅)).1 = Registered (Ok tt).
Proof.
  destruct (provider_cache_transparent id (λ _, true) test_from_toml test_to_toml test_toml_roundtrip true (mkState files ∅)
    (reachable_new _ _ _ _ _ files)) as [_ H].
  destruct (H eq_refl (Register other) eq_refl) as [-> _]. vm_compute. reflexivity.
Defined.

End Evaluation.
