(* ===== verification/SegmentSize.v ===== *)
(** * SegmentSize

    Sizes of segments and ratios of them: core/common/src/metadata/size.rs.
    Sums wrap on [u64]; [Overflow] is a reduced fraction whose parser reads
    integers, fractions and short decimals; [get_block_count] counts the blocks
    of a Parquet row group from its statistics. *)

From stdpp Require Import base numbers strings option sets list sorting.
From Stdlib Require Import ZArith Lia Ascii Znumtheory.
From S2P Require Import Prelude Decimal Text.

(** ** [Generation] *)

Record Generation := mkGeneration { generation_value : Z }.

#[global] Instance Generation_eq_dec : EqDecision Generation.
Proof. solve_decision. Defined.

Definition is_raw (g : Generation) : bool := generation_value g =? 0.
Definition is_compacted (g : Generation) : bool := 0 <? generation_value g.

(** [Add<u64>] and [AddAssign<u64>] *)
Definition generation_add (g : Generation) (rhs : Z) : Generation :=
  mkGeneration (saturating_add64 (generation_value g) rhs).

Definition generation_max (a b : Generation) : Generation :=
  mkGeneration (Z.max (generation_value a) (generation_value b)).

(** ** [Overflow] *)

Record Overflow := mkOverflow { numerator : Z; denominator : Z }.

#[global] Instance Overflow_eq_dec : EqDecision Overflow.
Proof. solve_decision. Defined.

Definition PRECISION : Z := 10000.

Definition overflow_default : Overflow := mkOverflow 1 1.

(** [NonZeroU64::new] of an integer that fits [u64]. *)
Definition non_zero_u64 (n : Z) : option Z :=
  if (0 <? n) && (n <=? u64_max) then Some n else None.

(** The [while b != 0] loop of [reduce]. *)
Fixpoint gcd_loop (fuel : nat) (g b : Z) : total Z :=
  if b =? 0 then Ok g
  else match fuel with
       | O => OutOfFuel
       | S fuel => gcd_loop fuel b (g `mod` b)
       end.

(** The remainder halves every two rounds. *)
Definition gcd_fuel : nat := 130.

Definition reduce (o : Overflow) : total Overflow :=
  let '(g, b) :=
    if numerator o <? denominator o then (denominator o, numerator o)
    else (numerator o, denominator o) in
  g ← gcd_loop gcd_fuel g b;
  Ok (if g =? 0 then o
      else match non_zero_u64 (numerator o `div` g), non_zero_u64 (denominator o `div` g) with
           | Some n, Some d => mkOverflow n d
           | _, _ => o
           end).

Definition overflow_new (n d : Z) : total Overflow :=
  match non_zero_u64 n, non_zero_u64 d with
  | Some n, Some d => reduce (mkOverflow n d)
  | _, _ => Ok overflow_default
  end.

(** [soft_limit] at an unsigned 64-bit type: the value itself when the product
    overflows. *)
Definition soft_limit (o : Overflow) (value : Z) : Z :=
  let product := value * numerator o in
  if product <=? u64_max then product `div` denominator o else value.

(** [From<u64>] *)
Definition overflow_from_u64 (value : Z) : total Overflow := overflow_new value 1.

(** [Display] *)
Definition overflow_to_string (o : Overflow) : string :=
  if denominator o =? 1 then display_u64 (numerator o)
  else display_u64 (numerator o) +:+ "/" +:+ display_u64 (denominator o).

(** The strings with a decimal point that [str::parse::<f64>] accepts: an
    optional sign, digits around the point (at least one), an optional
    exponent. *)
Definition strip_sign (s : string) : string :=
  match s with
  | String "+" s' => s'
  | String "-" s' => s'
  | _ => s
  end%char.

Definition exponent_ok (s : string) : bool :=
  let digits := strip_sign s in negb (is_empty digits) && string_forall is_digit digits.

Fixpoint mantissa_ok (seen_point seen_digit : bool) (s : string) : bool :=
  match s with
  | EmptyString => seen_digit
  | String c s =>
      if is_digit c then mantissa_ok seen_point true s
      else if Ascii.eqb c "." then negb seen_point && mantissa_ok true seen_digit s
      else if (Ascii.eqb c "e" || Ascii.eqb c "E")%char then seen_digit && exponent_ok s
      else false
  end%char.

Definition parses_as_f64 (s : string) : bool := mantissa_ok false false (strip_sign s).

(** [FromStr]. The decimal branch cuts the fraction after four digits. *)
Definition overflow_from_str (v : string) : comp string Overflow :=
  let lift (o : total Overflow) : comp string Overflow :=
    match o with Ok o => Ok o | Err _ => Panic | Panic => Panic | OutOfFuel => OutOfFuel end in
  let is_fractional :=
    Nat.eqb (count_char "/" v) 1 && forallb (λ p, negb (is_empty (trim p))) (split_on "/" v) in
  let is_decimal := contains "." v && parses_as_f64 v in
  if is_fractional && is_decimal then Err "Overflow cannot be both a decimal and a fraction"
  else if is_fractional then
    let parts := trim <$> split_on "/" (trim v) in
    p0 ← unwrap (parts !! 0%nat);
    n ← ok_or (parse_u64 (trim p0) ≫= non_zero_u64) "Invalid numerator in overflow fraction";
    p1 ← unwrap (parts !! 1%nat);
    d ← ok_or (parse_u64 (trim p1) ≫= non_zero_u64) "Invalid denominator in overflow fraction";
    o ← lift (overflow_new n d);
    lift (reduce o)
  else if is_decimal then
    let parts := trim <$> split_on "." (trim v) in
    integer_part ← unwrap (parts !! 0%nat);
    fractional_part ← unwrap (parts !! 1%nat);
    let fractional_length := Nat.min (string_length fractional_part) 4 in
    if Nat.eqb fractional_length 0 then Err "Invalid overflow decimal"
    else
      let numerator_part := integer_part +:+ string_take fractional_length fractional_part in
      n ← ok_or (parse_u64 numerator_part) ("Invalid overflow decimal: " +:+ numerator_part);
      o ← lift (overflow_new n (10 ^ Z.of_nat fractional_length));
      lift (reduce o)
  else
    value ← ok_or (parse_u64 (trim v)) "Invalid overflow value";
    lift (overflow_from_u64 value).

(** ** [SegmentSize] *)

Record SegmentSize := mkSegmentSize {
  length_ : Z;
  blocks : Z;
  bytes : Z;
  rows : Z;
  generation : Generation;
  created_at : Z
}.

#[global] Instance SegmentSize_eq_dec : EqDecision SegmentSize.
Proof. solve_decision. Defined.

Definition size_default : SegmentSize := mkSegmentSize 0 0 0 0 (mkGeneration 0) 0.

(** [Add] *)
Definition size_add (a b : SegmentSize) : SegmentSize :=
  let created :=
    if created_at a =? 0 then created_at b
    else if created_at b =? 0 then created_at a
    else Z.min (created_at a) (created_at b) in
  mkSegmentSize (add64 (length_ a) (length_ b)) (add64 (blocks a) (blocks b))
    (add64 (bytes a) (bytes b)) (add64 (rows a) (rows b))
    (generation_max (generation a) (generation b)) created.

(** [AddAssign] *)
Definition size_add_assign (a b : SegmentSize) : SegmentSize :=
  mkSegmentSize (add64 (length_ a) (length_ b)) (add64 (blocks a) (blocks b))
    (add64 (bytes a) (bytes b)) (add64 (rows a) (rows b))
    (generation_max (generation a) (generation b))
    (match created_at a, created_at b with
     | 0, _ => created_at b
     | _, 0 => created_at a
     | _, _ => Z.min (created_at a) (created_at b)
     end).

(** [FromIterator] *)
Definition size_from_iter (l : list SegmentSize) : SegmentSize := foldl size_add size_default l.

(** [Mul<i32>] *)
Definition size_mul (s : SegmentSize) (rhs : Z) : SegmentSize :=
  mkSegmentSize (length_ s) (mul64 (blocks s) (Z.abs rhs)) (mul64 (bytes s) (Z.abs rhs))
    (mul64 (rows s) (Z.abs rhs)) (generation s) (created_at s).

(** ** Block counts from row-group statistics *)

(** [i64::from_le_bytes] of exactly eight bytes, each a number below 256. *)
Fixpoint le_value (bytes : list Z) : Z :=
  match bytes with [] => 0 | b :: bs => b + 256 * le_value bs end.

Definition le_bytes_to_nonzero_i64_opt (bytes : list Z) : comp string (option Z) :=
  if Nat.eqb (length bytes) 8 then
    let v := to_i64 (le_value bytes) in Ok (if v =? 0 then None else Some v)
  else Err "could not convert slice to array".

(** [i64::to_le_bytes], as the Parquet writer stores a statistic. *)
Fixpoint le_bytes (n : nat) (v : Z) : list Z :=
  match n with O => [] | S n => v `mod` 256 :: le_bytes n (v `div` 256) end.

(** The statistics of a column chunk of a row group. *)
Record ColumnStatistics := mkStatistics {
  max_bytes : option (list Z);
  min_bytes : option (list Z);
  distinct_count : option Z
}.

Record RowGroup := mkRowGroup {
  columns : list (string * option ColumnStatistics);
  total_byte_size : Z
}.

Definition SPECIAL_BLOCK_NUM : string := "_block_num".

(** The three statistics of the block number column, when all are present. *)
Definition block_statistics (rg : RowGroup) : option (Z * Z * Z) :=
  col ← list_find (λ c : string * option ColumnStatistics, fst c = SPECIAL_BLOCK_NUM) (columns rg);
  st ← snd (snd col);
  mx ← max_bytes st;
  mn ← min_bytes st;
  match le_bytes_to_nonzero_i64_opt mx, le_bytes_to_nonzero_i64_opt mn, distinct_count st with
  | Ok (Some mx), Ok (Some mn), Some d => Some (mn, mx, d)
  | _, _, _ => None
  end.

(** [get_block_count]: the count and the new previous maximum. *)
Definition get_block_count (rg : RowGroup) (pmax : Z) : Z * Z :=
  match block_statistics rg with
  | Some (mn, mx, d) =>
      let d := if mn =? pmax then saturating_sub64 d 1 else d in
      (to_i64 d, mx)
  | None => (0, pmax)
  end.

(** The key-value metadata of a file as the writer left it. *)
Record FileMetadata := mkFileMetadata {
  metadata_rows : Z;
  metadata_generation : option string;
  metadata_created_at : option Z;
  row_groups : list RowGroup
}.

Fixpoint sum_row_groups (rgs : list RowGroup) (pmax bytes blocks : Z) : Z * Z :=
  match rgs with
  | [] => (bytes, blocks)
  | rg :: rest =>
      let '(n, pmax) := get_block_count rg pmax in
      sum_row_groups rest pmax (add64 bytes (wrap64 (total_byte_size rg))) (add64 blocks (wrap64 n))
  end.

(** [From<&ArrowReaderMetadata>] *)
Definition size_from_metadata (m : FileMetadata) : SegmentSize :=
  let generation :=
    mkGeneration (default 0 (metadata_generation m ≫= parse_u64)) in
  let created_at := default 0 (metadata_created_at m) in
  let '(bytes, blocks) := sum_row_groups (row_groups m) 0 0 0 in
  mkSegmentSize 1 blocks bytes (wrap64 (metadata_rows m)) generation created_at.

(** ** Specifications *)

Definition overflow_wf (o : Overflow) : Prop :=
  0 < numerator o <= u64_max /\ 0 < denominator o <= u64_max.

Definition reduced (o : Overflow) : Prop :=
  overflow_wf o /\ Z.gcd (numerator o) (denominator o) = 1.

(** A row group holding the given block numbers, as the writer describes it. *)
Definition group_of (l : list Z) (n : Z) (size : Z) : RowGroup :=
  mkRowGroup
    [(SPECIAL_BLOCK_NUM,
      Some (mkStatistics (Some (le_bytes 8 (List.last l 0))) (Some (le_bytes 8 (List.hd 0 l))) (Some n)))]
    size.

Definition distinct (l : list Z) : Z := Z.of_nat (length (remove_dups l)).

(** How often a list changes its value, starting from [p]. *)
Fixpoint changes (p : Z) (l : list Z) : Z :=
  match l with
  | [] => 0
  | x :: l => (if x =? p then 0 else 1) + changes x l
  end.

(** ** Lemmas *)

Lemma gcd_loop_gcd fuel g b d : 0 <= g → 0 <= b → gcd_loop fuel g b = Ok d → d = Z.gcd g b.
Proof.
  revert g b. induction fuel as [|fuel IH]; intros g b Hg Hb; simpl;
    (destruct (Z.eqb_spec b 0) as [->|Hne]; [intros [= <-]; rewrite Z.gcd_0_r; lia|]); [done|].
  intros H. apply IH in H; [|lia|apply Z.mod_pos_bound; lia].
  rewrite H, Z.gcd_comm, Z.gcd_mod by done. apply Z.gcd_comm.
Qed.

Lemma gcd_loop_total k g b :
  0 <= b <= g → g < 2 ^ Z.of_nat k → ∃ d, gcd_loop (2 * k) g b = Ok d.
Proof.
  revert g b. induction k as [|k IH]; intros g b Hb Hg.
  - simpl in Hg. assert (b = 0) as -> by lia. by eexists.
  - replace (2 * S k)%nat with (S (S (2 * k))) by lia. cbn [gcd_loop].
    destruct (Z.eqb_spec b 0) as [|Hb0]; [by eexists|].
    pose proof (Z.mod_pos_bound g b). destruct (Z.eqb_spec (g `mod` b) 0) as [|Hr]; [by eexists|].
    pose proof (Z.mod_pos_bound b (g `mod` b)). apply IH; [lia|].
    rewrite Nat2Z.inj_succ, Z.pow_succ_r in Hg by lia.
    pose proof (Z.div_mod g b). assert (1 <= g `div` b) by (apply Z.div_le_lower_bound; lia). nia.
Qed.

Lemma gcd_loop_ok g b :
  0 <= b <= g → g <= u64_max → gcd_loop gcd_fuel g b = Ok (Z.gcd g b).
Proof.
  intros Hb Hg. destruct (gcd_loop_total 65 g b) as [d Hd]; [done| |].
  { unfold u64_max in Hg. change (2 ^ Z.of_nat 65) with 36893488147419103232. lia. }
  change gcd_fuel with (2 * 65)%nat. rewrite Hd. f_equal. apply (gcd_loop_gcd (2 * 65) g b d); [lia|lia|exact Hd].
Qed.

Lemma non_zero_u64_Some n : 0 < n <= u64_max → non_zero_u64 n = Some n.
Proof. intros H. unfold non_zero_u64. by destruct (Z.ltb_spec 0 n), (Z.leb_spec n u64_max); try lia. Qed.

Lemma reduce_spec o :
  overflow_wf o →
  let g := Z.gcd (numerator o) (denominator o) in
  reduce o = Ok (mkOverflow (numerator o `div` g) (denominator o `div` g)) /\ 0 < g /\
  numerator o = g * (numerator o `div` g) /\ denominator o = g * (denominator o `div` g) /\
  0 < numerator o `div` g <= u64_max /\ 0 < denominator o `div` g <= u64_max.
Proof.
  intros [Hn Hd] g. destruct o as [n d]. cbn [numerator denominator] in *.
  assert (Hg : 0 < g).
  { pose proof (Z.gcd_nonneg n d). destruct (decide (g = 0)) as [H0|]; [|lia].
    apply Z.gcd_eq_0 in H0. lia. }
  assert (Hnd : n = g * (n `div` g)) by (apply Z.div_exact; [lia|];
    apply Z.mod_divide; [lia|apply Z.gcd_divide_l]).
  assert (Hdd : d = g * (d `div` g)) by (apply Z.div_exact; [lia|];
    apply Z.mod_divide; [lia|apply Z.gcd_divide_r]).
  assert (Hqn : 0 < n `div` g <= n) by (clear Hdd; generalize dependent (n `div` g); intros; nia).
  assert (Hqd : 0 < d `div` g <= d) by (clear Hnd; generalize dependent (d `div` g); intros; nia).
  split; [|split_and!; lia]. unfold reduce. cbn [numerator denominator].
  assert (Hloop : gcd_loop gcd_fuel (Z.max n d) (Z.min n d) = Ok g).
  { rewrite gcd_loop_ok by lia. f_equal. unfold g.
    destruct (Z.max_spec n d) as [[? ->]|[? ->]], (Z.min_spec n d) as [[? ->]|[? ->]]; try lia;
      try apply Z.gcd_comm; try done; replace d with n by lia; done. }
  assert (Hfin : (if g =? 0 then mkOverflow n d
     else match non_zero_u64 (n `div` g), non_zero_u64 (d `div` g) with
          | Some n0, Some d0 => mkOverflow n0 d0 | _, _ => mkOverflow n d end) =
     mkOverflow (n `div` g) (d `div` g)).
  { destruct (Z.eqb_spec g 0); [lia|]. rewrite !non_zero_u64_Some by lia. done. }
  destruct (Z.ltb_spec n d).
  - rewrite Z.max_r, Z.min_l in Hloop by lia. rewrite Hloop. cbn [mbind comp_bind]. by rewrite Hfin.
  - rewrite Z.max_l, Z.min_r in Hloop by lia. rewrite Hloop. cbn [mbind comp_bind]. by rewrite Hfin.
Qed.

Lemma reduce_reduced o : reduced o → reduce o = Ok o.
Proof.
  intros [Hwf Hg]. destruct (reduce_spec o Hwf) as (-> & _). rewrite Hg, !Z.div_1_r. by destruct o.
Qed.

Lemma overflow_new_reduced o : reduced o → overflow_new (numerator o) (denominator o) = Ok o.
Proof.
  intros Hr. pose proof Hr as [[Hn Hd] _]. unfold overflow_new.
  rewrite !non_zero_u64_Some by done.
  replace (mkOverflow (numerator o) (denominator o)) with o by (by destruct o).
  by apply reduce_reduced.
Qed.

Lemma digit_neq_slash : is_digit "/" = false. Proof. done. Qed.
Lemma digit_neq_point : is_digit "." = false. Proof. done. Qed.

(** ** Lemmas on sizes *)

Lemma wrap64_add a b : wrap64 (wrap64 a + b) = wrap64 (a + b).
Proof. unfold wrap64, u64_modulus. by rewrite Zplus_mod_idemp_l. Qed.

Lemma add64_comm a b : add64 a b = add64 b a.
Proof. unfold add64. by rewrite Z.add_comm. Qed.

Lemma add64_assoc a b c : add64 (add64 a b) c = add64 a (add64 b c).
Proof.
  unfold add64. rewrite wrap64_add, (Z.add_comm a (wrap64 _)), wrap64_add. f_equal. lia.
Qed.

Lemma size_add_comm a b : size_add a b = size_add b a.
Proof.
  unfold size_add, generation_max. rewrite (add64_comm (length_ a)), (add64_comm (blocks a)),
    (add64_comm (bytes a)), (add64_comm (rows a)), (Z.max_comm (generation_value _)).
  f_equal. bool_to_prop; lia.
Qed.

Lemma size_add_assoc a b c : size_add (size_add a b) c = size_add a (size_add b c).
Proof.
  unfold size_add, generation_max. simpl. rewrite !add64_assoc, Z.max_assoc.
  f_equal. bool_to_prop; lia.
Qed.

Lemma size_add_assign_eq a b : size_add_assign a b = size_add a b.
Proof.
  unfold size_add_assign, size_add. f_equal.
  destruct (Z.eqb_spec (created_at a) 0) as [->|]; [done|].
  destruct (Z.eqb_spec (created_at b) 0) as [->|]; [by destruct (created_at a)|].
  destruct (created_at a), (created_at b); done.
Qed.

Lemma foldl_size_perm l l' acc : l ≡ₚ l' → foldl size_add acc l = foldl size_add acc l'.
Proof.
  intros Hp. revert acc. induction Hp as [|x l l' _ IH|x y l|l1 l2 l3 _ IH1 _ IH2]; intros acc; simpl.
  - done.
  - apply IH.
  - f_equal. by rewrite !size_add_assoc, (size_add_comm y x).
  - by rewrite IH1, IH2.
Qed.

(** ** Lemmas on block counts *)

Lemma le_value_bytes n v : le_value (le_bytes n v) = v `mod` 256 ^ Z.of_nat n.
Proof.
  revert v. induction n as [|n IH]; intros v; [by rewrite Z.mod_1_r|]. cbn [le_bytes le_value].
  rewrite IH, Nat2Z.inj_succ, Z.pow_succ_r by lia.
  rewrite Z.rem_mul_r by lia. done.
Qed.

Lemma le_bytes_length n v : length (le_bytes n v) = n.
Proof. revert v. induction n as [|n IH]; intros v; [done|]. cbn. by rewrite IH. Qed.

Lemma le_bytes_nonzero v :
  is_i64 v → le_bytes_to_nonzero_i64_opt (le_bytes 8 v) = Ok (if v =? 0 then None else Some v).
Proof.
  intros Hv. unfold le_bytes_to_nonzero_i64_opt. rewrite le_bytes_length. cbn [Nat.eqb].
  rewrite le_value_bytes. change (256 ^ Z.of_nat 8) with u64_modulus. fold (wrap64 v).
  unfold to_i64. rewrite wrap64_idem. fold (to_i64 v). by rewrite to_i64_exact.
Qed.

Lemma distinct_changes p l :
  StronglySorted Z.le (p :: l) → distinct (p :: l) = 1 + changes p l.
Proof.
  unfold distinct. revert p. induction l as [|x l IH]; intros p Hs; [done|].
  inversion Hs as [|? ? Hs' Hall]; subst. specialize (IH x Hs'). cbn [changes].
  change (remove_dups (p :: x :: l)) with
    (if decide_rel (∈) p (x :: l) then remove_dups (x :: l) else p :: remove_dups (x :: l)).
  destruct (decide_rel (∈) p (x :: l)) as [Hin|Hni].
  - assert (x = p) as ->.
    { apply list.Forall_cons in Hall as [Hpx _]. apply elem_of_cons in Hin as [->|Hin]; [done|].
      inversion Hs' as [|? ? _ Hx]; subst. rewrite Forall_forall in Hx. specialize (Hx p Hin). lia. }
    rewrite Z.eqb_refl. lia.
  - destruct (Z.eqb_spec x p) as [->|]; [set_solver|]. cbn [length]. lia.
Qed.

Lemma changes_app p l k : changes p (l ++ k) = changes p l + changes (List.last l p) k.
Proof.
  revert p. induction l as [|x l IH]; intros p; [done|]. cbn [app changes]. rewrite IH.
  replace (List.last (x :: l) p) with (List.last l x); [lia|].
  destruct l as [|y l]; [done|]. apply (last_cons_default y x p).
Qed.

Lemma changes_nonneg p l : 0 <= changes p l.
Proof. revert p. induction l as [|x l IH]; intros p; simpl; [lia|]. specialize (IH x). bool_to_prop; lia. Qed.

Lemma distinct_bounds l : 0 <= distinct l.
Proof. unfold distinct. lia. Qed.

(** One row group: what it adds to the count, and the new maximum. *)
Lemma group_count l sz p :
  l ≠ [] → StronglySorted Z.le l → Forall (λ x, 0 < x <= i64_max) l → distinct l <= i64_max →
  get_block_count (group_of l (distinct l) sz) p = (changes p l, List.last l 0).
Proof.
  intros Hne Hs Hpos Hd. destruct l as [|x l]; [done|].
  unfold get_block_count, block_statistics, group_of.
  assert (Hf : list_find (λ c : string * option ColumnStatistics, fst c = SPECIAL_BLOCK_NUM)
    [(SPECIAL_BLOCK_NUM, Some (mkStatistics (Some (le_bytes 8 (List.last (x :: l) 0)))
        (Some (le_bytes 8 (List.hd 0 (x :: l)))) (Some (distinct (x :: l)))))] =
    Some (0%nat, (SPECIAL_BLOCK_NUM, Some (mkStatistics (Some (le_bytes 8 (List.last (x :: l) 0)))
        (Some (le_bytes 8 (List.hd 0 (x :: l)))) (Some (distinct (x :: l))))))) by reflexivity.
  cbn [columns]. rewrite Hf. cbn [mbind option_bind snd max_bytes min_bytes distinct_count List.hd].
  assert (Hlast : 0 < List.last (x :: l) 0 <= i64_max).
  { rewrite Forall_forall in Hpos. apply Hpos. rewrite (last_cons_default x 0 x).
    destruct (last_in_list x l) as [y [Hy ->]]. done. }
  apply list.Forall_cons in Hpos as [Hx _].
  rewrite !le_bytes_nonzero by (unfold is_i64, i64_min, i64_max in *; lia).
  destruct (Z.eqb_spec (List.last (x :: l) 0) 0); [lia|]. destruct (Z.eqb_spec x 0); [lia|].
  pose proof (distinct_changes x l Hs) as Hdc. pose proof (changes_nonneg x l) as Hnn.
  cbn [changes]. f_equal. unfold saturating_sub64. destruct (Z.eqb_spec x p).
  - rewrite to_i64_exact by (unfold is_i64, i64_min, i64_max in *; lia). lia.
  - rewrite to_i64_exact by (unfold is_i64, i64_min, i64_max in *; lia). lia.
Qed.

Lemma sum_row_groups_changes groups sizes p by_ bl :
  length sizes = length groups → Forall (λ l, l ≠ []) groups →
  StronglySorted Z.le (mjoin groups) → Forall (λ x, 0 < x <= i64_max) (mjoin groups) →
  0 <= bl → bl + changes p (mjoin groups) <= i64_max →
  Forall (λ l, distinct l <= i64_max) groups →
  snd (sum_row_groups (zip_with (λ l sz, group_of l (distinct l) sz) groups sizes) p by_ bl) =
    bl + changes p (mjoin groups).
Proof.
  revert sizes p by_ bl. induction groups as [|l groups IH];
    intros [|sz sizes] p by_ bl Hlen Hne Hs Hpos Hbl Hmax Hd; try done; [simpl; lia|].
  apply list.Forall_cons in Hne as [Hl Hne]. apply list.Forall_cons in Hd as [Hdl Hd].
  change (mjoin (l :: groups)) with (l ++ mjoin groups) in *.
  apply StronglySorted_app in Hs as (_ & Hsl & Hs).
  apply Forall_app in Hpos as [Hpl Hpos]. cbn [zip_with sum_row_groups].
  rewrite group_count by done. rewrite changes_app in *.
  assert (Hlast : List.last l 0 = List.last l p) by (destruct l; [done|]; apply last_cons_default).
  rewrite Hlast. pose proof (changes_nonneg p l).
  pose proof (changes_nonneg (List.last l p) (mjoin groups)).
  assert (Hw : add64 bl (wrap64 (changes p l)) = bl + changes p l).
  { unfold i64_max in Hmax. clear -Hmax H H0 Hbl.
    rewrite (wrap64_small (changes p l)) by (unfold is_u64, u64_max; lia).
    apply add64_small. unfold is_u64, u64_max. lia. }
  rewrite Hw, IH; [lia|by injection Hlen|done..|lia|lia|done].
Qed.

(** ** Properties *)

(** Building a ratio from two positive integers terminates and gives the
    same ratio in lowest terms, and the soft limit it computes is the exact
    floor of [value * n / d] whenever that product fits [u64]. *)
Theorem overflow_new_correct n d :
  0 < n <= u64_max → 0 < d <= u64_max →
  ∃ o, overflow_new n d = Ok o /\ reduced o /\ numerator o * d = n * denominator o /\
    ∀ v, 0 <= v → v * n <= u64_max → soft_limit o v = (v * n) `div` d.
Proof.
  intros Hn Hd. unfold overflow_new. rewrite !non_zero_u64_Some by done.
  destruct (reduce_spec (mkOverflow n d)) as (-> & Hg & Hn' & Hd' & Hnq & Hdq); [by split|].
  cbn [numerator denominator] in *. set (g := Z.gcd n d) in *.
  eexists. split; [done|]. split_and!; cbn [numerator denominator].
  - split; [by split|]. cbn [numerator denominator].
    apply Z.gcd_div_gcd; [lia|done].
  - rewrite Hd' at 1. rewrite Hn' at 2. ring.
  - intros v Hv Hmax. unfold soft_limit. cbn [numerator denominator].
    assert (Hle : v * (n `div` g) <= u64_max).
    { rewrite Hn' in Hmax. clear -Hv Hmax Hg Hnq. set (q := n `div` g) in *.
      assert (v * q <= v * (g * q)) by nia. lia. }
    destruct (Z.leb_spec (v * (n `div` g)) u64_max); [|lia].
    rewrite Hn' at 2. rewrite Hd' at 2.
    replace (v * (g * (n `div` g))) with (v * (n `div` g) * g) by ring.
    rewrite (Z.mul_comm g (d `div` g)). rewrite Z.div_mul_cancel_r; [done|lia|lia].
Qed.

(** Printing a reduced ratio and parsing it gives it back. *)
Theorem overflow_roundtrip o :
  reduced o → overflow_from_str (overflow_to_string o) = Ok o.
Proof.
  intros Hr. pose proof Hr as [[Hn Hd] Hg]. unfold overflow_to_string.
  pose proof (overflow_new_reduced o Hr) as Hnew.
  destruct (Z.eqb_spec (denominator o) 1) as [Hd1|Hd1].
  - unfold overflow_from_str, display_u64.
    rewrite count_char_none by (by apply digits_no_char). cbn [Nat.eqb andb].
    unfold contains. rewrite digits_no_char by done. cbn [negb andb].
    rewrite digits_trim. change (digits_of (numerator o)) with (display_u64 (numerator o)).
    rewrite parse_u64_digits by (unfold is_u64; lia). cbn [ok_or mbind comp_bind].
    unfold overflow_from_u64. rewrite <- Hd1, Hnew. done.
  - set (v := display_u64 (numerator o) +:+ "/" +:+ display_u64 (denominator o)).
    assert (Hsplit : split_on "/" v = [display_u64 (numerator o); display_u64 (denominator o)]).
    { unfold v. change ("/" +:+ ?x) with (String "/"%char x).
      rewrite split_on_app by (by apply digits_no_char).
      rewrite split_on_none by (by apply digits_no_char). done. }
    assert (Hcount : count_char "/" v = 1%nat).
    { unfold v. rewrite !count_char_app, !(count_char_none "/" (display_u64 _))
        by (by apply digits_no_char). done. }
    assert (Hpoint : contains "." v = false).
    { unfold contains, no_char, v. rewrite !string_forall_app.
      rewrite !(digits_no_char "." _ digit_neq_point : string_forall _ (display_u64 _) = true). done. }
    assert (Htrim : trim v = v).
    { apply trim_id. unfold v. rewrite !string_forall_app.
      assert (Hds : ∀ k, string_forall (negb ∘ is_space) (display_u64 k) = true).
      { intros k. eapply string_forall_impl; [|apply digits_of_digits].
        intros c Hc. simpl. by rewrite digit_not_space. }
      by rewrite !Hds. }
    unfold overflow_from_str. rewrite Hcount, Hsplit, Hpoint, Htrim, Hsplit.
    cbn [forallb fmap list_fmap]. unfold display_u64. rewrite !digits_trim, !digits_of_nonempty.
    cbn [Nat.eqb negb andb unwrap lookup list_lookup mbind comp_bind]. rewrite !digits_trim.
    change (digits_of ?k) with (display_u64 k).
    rewrite !parse_u64_digits by (unfold is_u64; lia).
    cbn [mbind option_bind]. rewrite !non_zero_u64_Some by done.
    cbn [ok_or mbind comp_bind]. rewrite Hnew. cbn [mbind comp_bind]. by rewrite reduce_reduced.
Qed.

(** Sizes add up to the same total in whatever order the files are taken,
    and [+=] agrees with [+]. *)
Theorem size_from_iter_perm l l' a b :
  l ≡ₚ l' → size_from_iter l = size_from_iter l' /\ size_add_assign a b = size_add a b.
Proof. intros Hp. split; [by apply foldl_size_perm|apply size_add_assign_eq]. Qed.

(** The block count of a file is the number of its distinct blocks: blocks
    at the boundary of two row groups are not counted twice, for positive block
    numbers in ascending order and exact statistics. *)
Theorem block_count_distinct groups sizes meta :
  length sizes = length groups → Forall (λ l, l ≠ []) groups →
  StronglySorted Z.le (mjoin groups) → Forall (λ x, 0 < x <= i64_max) (mjoin groups) →
  distinct (0 :: mjoin groups) <= i64_max → Forall (λ l, distinct l <= i64_max) groups →
  row_groups meta = zip_with (λ l sz, group_of l (distinct l) sz) groups sizes →
  blocks (size_from_metadata meta) = distinct (0 :: mjoin groups) - 1.
Proof.
  intros Hlen Hne Hs Hpos Hmax Hd Hrg. unfold size_from_metadata. rewrite Hrg.
  assert (Hs0 : StronglySorted Z.le (0 :: mjoin groups)).
  { constructor; [done|]. eapply Forall_impl; [exact Hpos|]. simpl. intros; lia. }
  pose proof (sum_row_groups_changes groups sizes 0 0 0 Hlen Hne Hs Hpos) as Hsum.
  rewrite (distinct_changes _ _ Hs0) in *.
  destruct (sum_row_groups _ 0 0 0) as [by_ bl] eqn:E. cbn [blocks snd] in *.
  rewrite Hsum; [lia|lia|lia|done].
Qed.

(** ** The properties at concrete inputs *)

Lemma overflow_new_correct_witness :
  ∃ o, overflow_new 15000 10000 = Ok o /\ o = mkOverflow 3 2 /\ soft_limit o 301 = 451.
Proof.
  destruct (overflow_new_correct 15000 10000) as (o & Ho & _ & _ & Hl); [unfold u64_max; lia..|].
  exists o. split; [done|]. rewrite (Hl 301) by (unfold u64_max; lia).
  vm_compute in Ho. by injection Ho as <-.
Defined.

Lemma overflow_roundtrip_witness : overflow_from_str "3/2" = Ok (mkOverflow 3 2).
Proof. apply (overflow_roundtrip (mkOverflow 3 2)). repeat split; unfold u64_max; simpl; lia. Defined.

Lemma size_from_iter_perm_witness :
  let a := mkSegmentSize 1 10 100 7 (mkGeneration 2) 50 in
  let b := mkSegmentSize 1 5 60 3 (mkGeneration 1) 0 in
  size_from_iter [a; b] = size_from_iter [b; a].
Proof. intros a b. apply (size_from_iter_perm [a; b] [b; a] a b). constructor. Defined.

Lemma block_count_distinct_witness :
  blocks (size_from_metadata (mkFileMetadata 7 (Some "2") (Some 50)
    [group_of [1000; 1000; 1001; 1002] 3 10; group_of [1002; 1003; 1004] 3 10])) = 5.
Proof.
  rewrite (block_count_distinct [[1000; 1000; 1001; 1002]; [1002; 1003; 1004]] [10; 10]); [done|done|..].
  - by repeat constructor.
  - repeat constructor; lia.
  - repeat constructor; unfold i64_max; lia.
  - by vm_compute.
  - repeat constructor; by vm_compute.
  - done.
Defined.
