(* ===== verification/Compaction.v ===== *)
(** * Compaction

    Which files are compacted together: the three-valued tests, the size limits
    and the predicate of core/dump/src/compaction/algorithm.rs, the stream of
    groups of plan.rs as a state machine, and the range of a compacted group
    (compactor.rs). The current time is an argument. *)

From stdpp Require Import base numbers strings option sets list sorting.
From Stdlib Require Import ZArith Lia.
From S2P Require Import Prelude Ranges BlockRange SegmentSize.

(** ** [TestResult] *)

Inductive TestResult :=
  | Activated (b : bool)
  | Skipped.

#[global] Instance TestResult_eq_dec : EqDecision TestResult.
Proof. solve_decision. Defined.

Definition test_and (a b : TestResult) : TestResult :=
  match a, b with
  | Activated a, Activated b => Activated (a && b)
  | Skipped, b => b
  | a, Skipped => a
  end.

Definition test_or (a b : TestResult) : TestResult :=
  match a, b with
  | Activated a, Activated b => Activated (a || b)
  | Skipped, b => b
  | a, Skipped => a
  end.

Definition test_not (a : TestResult) : TestResult :=
  match a with
  | Activated a => Activated (negb a)
  | Skipped => Skipped
  end.

(** [Deref] *)
Definition test_deref (a : TestResult) : bool :=
  match a with
  | Activated a => a
  | Skipped => false
  end.

(** [From<Option<bool>>] *)
Definition test_of (o : option bool) : TestResult :=
  match o with
  | Some v => Activated v
  | None => Skipped
  end.

(** ** [FileState] *)

Inductive FileState := Live | Hot | Cold.

#[global] Instance FileState_eq_dec : EqDecision FileState.
Proof. solve_decision. Defined.

(** [Ord::cmp] *)
Definition state_cmp (a b : FileState) : comparison :=
  match a, b with
  | Cold, Cold | Live, Live | Hot, Hot => Eq
  | Cold, _ => Gt
  | _, Cold => Lt
  | Hot, _ => Gt
  | _, Hot => Lt
  end.

(** [Ord::max] returns the second argument when it is not smaller. *)
Definition state_max (a b : FileState) : FileState :=
  match state_cmp a b with Gt => a | _ => b end.

(** ** [SegmentSizeLimit] *)

Record SegmentSizeLimit := mkLimit { limit_size : SegmentSize; limit_overflow : Overflow }.

Definition limit_new (blocks bytes rows length_ : Z) (g : Generation) (o : Overflow)
    : SegmentSizeLimit :=
  mkLimit (mkSegmentSize length_ blocks bytes rows g 0) o.

(** [1.5.into()] is 3/2. *)
Definition default_bounded : SegmentSizeLimit :=
  mkLimit (mkSegmentSize 0 0 (512 * 1024 * 1024) 0 (mkGeneration 0) 0) (mkOverflow 3 2).

Definition is_unbounded (l : SegmentSizeLimit) : bool :=
  let s := limit_size l in
  (blocks s =? 0) && (bytes s =? 0) && (rows s =? 0) && (length_ s =? 0) && is_raw (generation s).

(** A dimension is skipped when its limit is zero. *)
Definition dimension (active : bool) (value limit : Z) (o : Overflow) : TestResult :=
  test_of (if active then Some (soft_limit o limit <=? value) else None).

Definition is_exceeded (l : SegmentSizeLimit) (segment : SegmentSize)
    : TestResult * TestResult * TestResult :=
  let s := limit_size l in
  let o := limit_overflow l in
  let blocks_ge := dimension (negb (blocks s =? 0)) (blocks segment) (blocks s) o in
  let bytes_ge := dimension (negb (bytes s =? 0)) (bytes segment) (bytes s) o in
  let rows_ge := dimension (negb (rows s =? 0)) (rows segment) (rows s) o in
  let generation_ge := dimension (is_compacted (generation s))
    (generation_value (generation segment)) (generation_value (generation s)) o in
  let length_ge := dimension (negb (length_ s =? 0)) (length_ segment) (length_ s) o in
  (test_or (test_or blocks_ge bytes_ge) rows_ge, length_ge, generation_ge).

Definition limit_is_live (l : SegmentSizeLimit) (segment : SegmentSize) : TestResult :=
  let '(size_exceeded, length_exceeded, generation_exceeded) := is_exceeded l segment in
  test_not (test_or (test_or size_exceeded length_exceeded) generation_exceeded).

(** ** [CompactionAlgorithm] *)

(** Durations in nanoseconds. *)
Record CompactionAlgorithm := mkAlgorithm {
  cooldown_duration : Z;
  target_partition_size : SegmentSizeLimit;
  eager_compaction_limit : SegmentSizeLimit
}.

(** The derived [PartialOrd] of [SegmentSize]: lexicographic in field order. *)
Definition size_fields (s : SegmentSize) : list Z :=
  [length_ s; blocks s; bytes s; rows s; generation_value (generation s); created_at s].

Fixpoint lex_ge (a b : list Z) : bool :=
  match a, b with
  | x :: a, y :: b => if x =? y then lex_ge a b else y <? x
  | _, [] => true
  | [], _ => false
  end.

Definition kind (a : CompactionAlgorithm) : string :=
  if lex_ge (size_fields (limit_size (eager_compaction_limit a)))
            (size_fields (limit_size (target_partition_size a)))
  then "Strict Eager Compaction"
  else
    let unbounded_lower := is_unbounded (eager_compaction_limit a) in
    if unbounded_lower && (cooldown_duration a =? 0) then "Strict Generationally-Tiered Compaction"
    else if unbounded_lower then "Relaxed Generationally-Tiered Compaction"
    else "Hybrid Compaction".

(** [Display]: the kinds its match knows, after [trim_end_matches]; any other
    is [unreachable!]. The text of the known kinds is left out. *)
Definition display_kind (a : CompactionAlgorithm) : total string :=
  let k := kind a in
  if bool_decide (k = "Eager Compaction") then Ok "Eager"
  else if bool_decide (k = "Exponential Compaction") then Ok "Exponential"
  else if bool_decide (k = "Relaxed Exponential Compaction") then Ok "Relaxed Exponential"
  else if bool_decide (k = "Hybrid Compaction") then Ok "Hybrid"
  else Panic.

(** [Cooldown::is_hot]; [now] in microseconds, [u128] sums saturate. *)
Definition u128_max : Z := 340282366920938463463374607431768211455.

Definition cooldown_is_hot (duration now created_at : Z) : TestResult :=
  if duration =? 0 then Skipped
  else Activated (now <? Z.min u128_max (created_at + duration `div` 1000)).

Definition algorithm_is_live (a : CompactionAlgorithm) (s : SegmentSize) : TestResult :=
  limit_is_live (eager_compaction_limit a) s.

Definition algorithm_is_hot (a : CompactionAlgorithm) (now : Z) (s : SegmentSize) : TestResult :=
  cooldown_is_hot (cooldown_duration a) now (created_at s).

Definition file_state (a : CompactionAlgorithm) (now : Z) (s : SegmentSize) : FileState :=
  if test_deref (algorithm_is_live a s) then Live
  else match algorithm_is_hot a now s with
       | Skipped => Hot
       | Activated true => Hot
       | Activated false => Cold
       end.

(** ** Files and groups *)

(** The rows of a file are the batches its stream yields. *)
Record CompactionFile := mkCompactionFile {
  file_id : Z;
  file_range : BlockRange;
  file_size : SegmentSize;
  file_batches : list string;
  is_tail : bool
}.

Definition is_contiguous (a b : CompactionFile) : bool :=
  bool_decide (network (file_range a) = network (file_range b)) &&
  (start (file_range a) <=? end_ (file_range a)) &&
  (start (file_range b) <=? end_ (file_range b)) &&
  ((add64 (end_ (file_range a)) 1 =? start (file_range b)) ||
   (start (file_range a) =? add64 (end_ (file_range b)) 1)).

Record CompactionGroup := mkGroup { group_size : SegmentSize; streams : list CompactionFile }.

Definition group_new_empty : CompactionGroup := mkGroup size_default [].

Definition group_push (g : CompactionGroup) (f : CompactionFile) : CompactionGroup :=
  mkGroup (size_add_assign (group_size g) (file_size f)) (streams g ++ [f]).

Definition is_empty_or_singleton (g : CompactionGroup) : bool :=
  Nat.leb (length (streams g)) 1.

Definition predicate (a : CompactionAlgorithm) (now : Z) (g : CompactionGroup)
    (candidate : CompactionFile) : bool :=
  let state := state_max (file_state a now (group_size g)) (file_state a now (file_size candidate)) in
  let '(size_exceeded, _, _) :=
    is_exceeded (target_partition_size a) (size_add (file_size candidate) (group_size g)) in
  match state with
  | Live => test_deref size_exceeded
  | Hot =>
      bool_decide (generation (group_size g) = generation (file_size candidate)) &&
      negb (test_deref size_exceeded)
  | Cold => negb (test_deref size_exceeded)
  end.

(** [CompactionGroup::range], and the range of the compacted file. *)
Definition group_numbers (g : CompactionGroup) : total RangeInclusive :=
  first ← unwrap (head (streams g));
  lst ← unwrap (list.last (streams g));
  Ok (mkRange (start (file_range first)) (end_ (file_range lst))).

Definition group_range (g : CompactionGroup) : total BlockRange :=
  first ← unwrap (head (streams g));
  lst ← unwrap (list.last (streams g));
  Ok (mkBlockRange (mkRange (start (file_range first)) (end_ (file_range lst)))
        (network (file_range first)) (hash (file_range lst)) (prev_hash (file_range first))).

(** [write_and_finish]: the batches of the files in order, the parents, the
    range and the generation of the new file. *)
Record Compacted := mkCompacted {
  compacted_range : BlockRange;
  compacted_batches : list string;
  parent_ids : list Z;
  compacted_generation : Generation
}.

Definition write_and_finish (g : CompactionGroup) : total Compacted :=
  r ← group_range g;
  Ok (mkCompacted r (mjoin (file_batches <$> streams g)) (file_id <$> streams g)
        (generation_add (generation (group_size g)) 1)).

(** ** [CompactionPlan]: the stream of groups *)

(** [files] are the results still to come, [None] for an error. *)
Record CompactionPlan := mkPlan {
  plan_files : list (option CompactionFile);
  current_group : CompactionGroup;
  current_file : option CompactionFile;
  current_candidate : option CompactionFile;
  plan_done : bool
}.

Definition plan_new (files : list (option CompactionFile)) : CompactionPlan :=
  mkPlan files group_new_empty None None false.

(** One turn of the loop of [poll_next]: go on, or break with a result. *)
Inductive PlanStep :=
  | Continue (p : CompactionPlan)
  | Break (g : option CompactionGroup) (p : CompactionPlan).

Section Plan.
Context (a : CompactionAlgorithm) (now : Z).

Definition plan_step (p : CompactionPlan) : PlanStep :=
  if plan_done p then Break None p
  else match current_file p with
  | Some f =>
      Continue (mkPlan (plan_files p) (group_push (current_group p) f) None
                  (current_candidate p) false)
  | None =>
    match current_candidate p with
    | Some candidate =>
        if predicate a now (current_group p) candidate then
          Continue (mkPlan (plan_files p) (current_group p) (Some candidate) None false)
        else if is_empty_or_singleton (current_group p) then
          Continue (mkPlan (plan_files p) group_new_empty (Some candidate) None false)
        else
          Break (Some (current_group p))
            (mkPlan (plan_files p) group_new_empty None (Some candidate) false)
    | None =>
        match plan_files p with
        | Some candidate :: rest =>
            Continue (mkPlan rest (current_group p) None (Some candidate) false)
        | None :: rest => Break None (mkPlan rest (current_group p) None None true)
        | [] =>
            if is_empty_or_singleton (current_group p)
            then Break None (mkPlan [] (current_group p) None None true)
            else Break (Some (current_group p)) (mkPlan [] group_new_empty None None true)
        end
    end
  end.

Fixpoint poll_next (fuel : nat) (p : CompactionPlan) : total (option CompactionGroup * CompactionPlan) :=
  match fuel with
  | O => OutOfFuel
  | S fuel =>
      match plan_step p with
      | Continue p => poll_next fuel p
      | Break g p => Ok (g, p)
      end
  end.

(** [plan.collect::<Vec<_>>()] *)
Fixpoint collect_groups (fuel : nat) (p : CompactionPlan) : total (list CompactionGroup) :=
  match fuel with
  | O => OutOfFuel
  | S fuel =>
      '(g, p) ← poll_next (4 * length (plan_files p) + 5) p;
      match g with
      | None => Ok []
      | Some g => tail ← collect_groups fuel p; Ok (g :: tail)
      end
  end.

Definition plan_groups (files : list (option CompactionFile)) : total (list CompactionGroup) :=
  collect_groups (length files + 2) (plan_new files).

(** ** Specification *)

Definition emit (g : CompactionGroup) : list CompactionGroup :=
  if is_empty_or_singleton g then [] else [g].

(** Greedy grouping: a file joins the open group when the predicate allows it,
    otherwise it opens a new one; an error ends the stream and drops the open
    group. *)
Fixpoint greedy (g : CompactionGroup) (files : list (option CompactionFile))
    : list CompactionGroup :=
  match files with
  | [] => emit g
  | None :: _ => []
  | Some f :: rest =>
      if predicate a now g f then greedy (group_push g f) rest
      else emit g ++ greedy (group_push group_new_empty f) rest
  end.

(** What a plan in a given state still yields. *)
Definition plan_rest (p : CompactionPlan) : list CompactionGroup :=
  if plan_done p then []
  else greedy (match current_file p with
               | Some f => group_push (current_group p) f
               | None => current_group p
               end)
              (match current_candidate p with
               | Some c => Some c :: plan_files p
               | None => plan_files p
               end).

(** Turns until the next break. *)
Definition plan_measure (p : CompactionPlan) : nat :=
  (if plan_done p then 0
   else 4 * length (plan_files p) + (if current_candidate p then 3 else 0) +
        (if current_file p then 1 else 0))%nat.

(** A plan never holds a file and a candidate at once, and a finished one
    holds neither. *)
Definition plan_inv (p : CompactionPlan) : Prop :=
  (is_Some (current_file p) → current_candidate p = None) /\
  (plan_done p = true → current_file p = None /\ current_candidate p = None).

(** ** Lemmas *)

Lemma greedy_restart f rest :
  greedy group_new_empty (Some f :: rest) = greedy (group_push group_new_empty f) rest.
Proof. simpl. by destruct (predicate a now group_new_empty f). Qed.

Lemma plan_step_spec p :
  plan_inv p →
  match plan_step p with
  | Continue p' => plan_rest p' = plan_rest p /\ (plan_measure p' < plan_measure p)%nat /\ plan_inv p'
  | Break (Some g) p' =>
      plan_rest p = g :: plan_rest p' /\ plan_inv p' /\
      (length (plan_files p') <= length (plan_files p))%nat
  | Break None p' => plan_rest p = []
  end.
Proof.
  destruct p as [files g cf cc d]. unfold plan_step, plan_rest, plan_measure, plan_inv. simpl.
  intros [Hex Hdone]. destruct d; simpl; [done|]. destruct cf as [f|]; simpl.
  - rewrite Hex by (by eexists). simpl. split_and!; try done; try lia.
  - destruct cc as [c|]; simpl.
    + destruct (predicate a now g c) eqn:Hp; simpl.
      { split_and!; try done; try lia. }
      destruct (is_empty_or_singleton g) eqn:He; simpl.
      { unfold emit. rewrite He. split_and!; try done; try lia. }
      { unfold emit. rewrite He. simpl. split; [|split; [|done]].
        - by destruct (predicate a now group_new_empty c).
        - split; [by intros []|done]. }
    + destruct files as [|[c|] files]; simpl.
      * unfold emit. destruct (is_empty_or_singleton g); simpl; [done|].
        split_and!; try done.
      * split_and!; try done; try lia.
      * done.
Qed.

Lemma poll_next_spec fuel p :
  plan_inv p → (plan_measure p < fuel)%nat →
  ∃ g p', poll_next fuel p = Ok (g, p') /\
    match g with
    | Some g => plan_rest p = g :: plan_rest p' /\ plan_inv p' /\
                (length (plan_files p') <= length (plan_files p))%nat
    | None => plan_rest p = []
    end.
Proof.
  revert p. induction fuel as [|fuel IH]; intros p Hinv Hf; [lia|]. cbn [poll_next].
  pose proof (plan_step_spec p Hinv) as Hs. destruct (plan_step p) as [p'|g p'] eqn:Es.
  - destruct Hs as (Hr & Hm & Hinv'). destruct (IH p' Hinv') as (g & p'' & -> & Hg); [lia|].
    exists g, p''. split; [done|]. rewrite <- Hr. destruct g as [g|]; [|done].
    destruct Hg as (? & ? & Hlen). split_and!; try done.
    assert (length (plan_files p') <= length (plan_files p))%nat; [|lia].
    clear -Es. unfold plan_step in Es. repeat case_match; simplify_eq/=; try done; lia.
  - exists g, p'. split; [done|]. by destruct g.
Qed.

Lemma plan_measure_bound p : plan_inv p → (plan_measure p < 4 * length (plan_files p) + 5)%nat.
Proof.
  intros [Hex Hdone]. unfold plan_measure. destruct (plan_done p); [lia|].
  destruct (current_file p), (current_candidate p); simpl; try lia.
Qed.

Lemma greedy_length g files : (length (greedy g files) <= S (length files))%nat.
Proof.
  revert g. induction files as [|o files IH]; intros g; simpl.
  - unfold emit. destruct (is_empty_or_singleton g); simpl; lia.
  - destruct o as [f|]; [|simpl; lia]. destruct (predicate a now g f).
    + etransitivity; [apply IH|]. lia.
    + rewrite length_app. specialize (IH (group_push group_new_empty f)).
      unfold emit. destruct (is_empty_or_singleton g); simpl; lia.
Qed.

Lemma collect_groups_spec fuel p :
  plan_inv p → (length (plan_rest p) < fuel)%nat → collect_groups fuel p = Ok (plan_rest p).
Proof.
  revert p. induction fuel as [|fuel IH]; intros p Hinv Hf; [lia|]. cbn [collect_groups].
  destruct (poll_next_spec _ p Hinv (plan_measure_bound p Hinv)) as (g & p' & -> & Hg).
  cbn [mbind comp_bind]. destruct g as [g|]; [|by rewrite Hg].
  destruct Hg as (Hr & Hinv' & _). rewrite Hr in Hf. simpl in Hf.
  rewrite (IH p' Hinv') by lia. cbn. by rewrite Hr.
Qed.

Lemma plan_groups_greedy files : plan_groups files = Ok (greedy group_new_empty files).
Proof.
  unfold plan_groups. rewrite collect_groups_spec.
  - done.
  - split; [by intros []|done].
  - pose proof (greedy_length group_new_empty files). unfold plan_rest. simpl. lia.
Qed.

(** Groups reached by pushing files keep their size in step with their files. *)
Definition group_ok (g : CompactionGroup) : Prop :=
  group_size g = size_from_iter (file_size <$> streams g).

Lemma group_push_ok g f : group_ok g → group_ok (group_push g f).
Proof.
  unfold group_ok, size_from_iter. intros Hg. simpl.
  by rewrite size_add_assign_eq, fmap_app, foldl_app, <- Hg.
Qed.

(** The files before the first error. *)
Fixpoint before_error (files : list (option CompactionFile)) : list CompactionFile :=
  match files with
  | Some f :: rest => f :: before_error rest
  | _ => []
  end.

(** The greedy groups are the parts with at least two files of a partition of
    the files into consecutive parts. *)
Lemma greedy_parts g files :
  group_ok g →
  ∃ parts, mjoin parts = streams g ++ before_error files /\ Forall (λ p, p ≠ []) parts /\
    Forall group_ok (greedy g files) /\
    (streams <$> greedy g files) `prefix_of` filter (λ p, (1 < length p)%nat) parts /\
    (None ∉ files → streams <$> greedy g files = filter (λ p, (1 < length p)%nat) parts).
Proof.
  assert (Hemit : ∀ g, group_ok g → ∃ parts, mjoin parts = streams g /\ Forall (λ p, p ≠ []) parts /\
    Forall group_ok (emit g) /\ streams <$> emit g = filter (λ p, (1 < length p)%nat) parts).
  { intros g' Hg. unfold emit, is_empty_or_singleton.
    exists (match streams g' with [] => [] | _ => [streams g'] end).
    destruct (streams g') as [|x [|y l]] eqn:E; simpl.
    - split_and!; try done; constructor.
    - split_and!; try done; repeat constructor; done.
    - rewrite E. rewrite app_nil_r. split_and!; try done; repeat constructor; done. }
  revert g. induction files as [|o files IH]; intros g Hg.
  - destruct (Hemit g Hg) as (parts & H1 & H2 & H3 & H4). exists parts. simpl.
    rewrite app_nil_r. split_and!; try done. by rewrite H4.
  - destruct o as [f|].
    + simpl. destruct (predicate a now g f).
      * destruct (IH _ (group_push_ok g f Hg)) as (parts & H1 & H2 & H3 & H4 & H5).
        exists parts. simpl in H1. rewrite <- app_assoc in H1. split_and!; try done.
        intros Hn. apply H5. set_solver.
      * destruct (Hemit g Hg) as (p1 & H1 & H2 & H3 & H4).
        destruct (IH (group_push group_new_empty f)) as (p2 & K1 & K2 & K3 & K4 & K5);
          [by apply group_push_ok|].
        exists (p1 ++ p2). rewrite join_app, H1, K1, fmap_app, filter_app, H4. split_and!.
        -- done.
        -- by apply Forall_app.
        -- by apply Forall_app.
        -- by apply prefix_app.
        -- intros Hn. rewrite K5; [done|set_solver].
    + exists (match streams g with [] => [] | _ => [streams g] end). simpl.
      split; [destruct (streams g); simpl; by rewrite ?app_nil_r|].
      split; [destruct (streams g); [constructor|by apply Forall_singleton]|].
      split; [constructor|]. split; [apply prefix_nil|]. intros Hn. exfalso. apply Hn. by left.
Qed.

(** A group grows only within the size limit unless the files are live. *)
Definition bounded (g : CompactionGroup) : Prop :=
  (1 < length (streams g))%nat →
  test_deref (fst (fst (is_exceeded (target_partition_size a) (group_size g)))) = false.

Definition same_generation (g : CompactionGroup) : Prop :=
  ∀ f, f ∈ streams g → generation (file_size f) = generation (group_size g).

Lemma unbounded_not_live s :
  is_unbounded (eager_compaction_limit a) = true → file_state a now s ≠ Live.
Proof.
  unfold is_unbounded, file_state, algorithm_is_live, limit_is_live, is_exceeded, is_raw, is_compacted.
  rewrite !andb_true_iff. intros ((((Hb & Hby) & Hr) & Hl) & Hg). rewrite Hb, Hby, Hr, Hl.
  apply Z.eqb_eq in Hg. rewrite Hg. cbn. by destruct (algorithm_is_hot a now s) as [[]|].
Qed.

Lemma state_max_not_live x y : x ≠ Live → state_max x y ≠ Live.
Proof. by destruct x, y. Qed.

Lemma predicate_within g f :
  is_unbounded (eager_compaction_limit a) = true → predicate a now g f = true →
  test_deref (fst (fst (is_exceeded (target_partition_size a) (group_size (group_push g f))))) = false.
Proof.
  intros Hu. unfold predicate.
  pose proof (state_max_not_live (file_state a now (group_size g)) (file_state a now (file_size f))
    (unbounded_not_live _ Hu)) as Hs.
  cbn [group_push group_size]. rewrite size_add_assign_eq, size_add_comm.
  destruct (is_exceeded _ _) as [[e1 e2] e3]. cbn [fst].
  destruct (state_max _ _); [done| |].
  - rewrite andb_true_iff, negb_true_iff. by intros [_ ?].
  - by rewrite negb_true_iff.
Qed.

Lemma greedy_bounded g files :
  is_unbounded (eager_compaction_limit a) = true → bounded g → Forall bounded (greedy g files).
Proof.
  intros Hu. assert (Hemit : ∀ g, bounded g → Forall bounded (emit g)).
  { intros g' Hg. unfold emit. destruct (is_empty_or_singleton g'); by repeat constructor. }
  revert g. induction files as [|[f|] files IH]; intros g Hg; simpl; [by apply Hemit| |constructor].
  destruct (predicate a now g f) eqn:Hp.
  - apply IH. intros _. by apply predicate_within.
  - apply Forall_app. split; [by apply Hemit|]. apply IH. intros Hl. simpl in Hl. lia.
Qed.

(** Without a cooldown every file that is not live is hot, so a group only
    takes files of its own generation. *)
Lemma no_cooldown_hot s :
  is_unbounded (eager_compaction_limit a) = true → cooldown_duration a = 0 → file_state a now s = Hot.
Proof.
  intros Hu Hc. pose proof (unbounded_not_live s Hu) as Hn. unfold file_state in *.
  destruct (test_deref _); [done|]. unfold algorithm_is_hot, cooldown_is_hot. by rewrite Hc.
Qed.

Lemma greedy_same_generation g files :
  is_unbounded (eager_compaction_limit a) = true → cooldown_duration a = 0 →
  Forall (λ o, ∀ f, o = Some f → 0 <= generation_value (generation (file_size f))) files →
  same_generation g → Forall same_generation (greedy g files).
Proof.
  intros Hu Hc. assert (Hemit : ∀ g, same_generation g → Forall same_generation (emit g)).
  { intros g' Hg. unfold emit. destruct (is_empty_or_singleton g'); by repeat constructor. }
  revert g. induction files as [|o files IH]; intros g Hf Hg; [by apply Hemit|].
  apply list.Forall_cons in Hf as [Hf0 Hf]. destruct o as [f|]; simpl; [|constructor].
  specialize (Hf0 f eq_refl).
  assert (Hmax : ∀ x, generation_max x x = x)
    by (intros [x]; unfold generation_max; simpl; by rewrite Z.max_id).
  destruct (predicate a now g f) eqn:Hp.
  - apply IH; [done|]. unfold predicate in Hp. rewrite !no_cooldown_hot in Hp by done.
    destruct (is_exceeded _ _) as [[e1 e2] e3]. cbn in Hp.
    apply andb_true_iff in Hp as [Hp _]. apply bool_decide_eq_true in Hp.
    intros x Hx. cbn. rewrite <- Hp, Hmax. apply elem_of_app in Hx as [Hx|Hx]; [by apply Hg|].
    apply list_elem_of_singleton in Hx as ->. done.
  - apply Forall_app. split; [by apply Hemit|]. apply IH; [done|].
    intros x Hx. cbn in *. apply list_elem_of_singleton in Hx as ->. unfold generation_max. cbn.
    rewrite Z.max_r by lia. by destruct (generation (file_size f)).
Qed.
End Plan.

(** ** The ranges after compaction *)

Definition range_adjacent (x y : BlockRange) : Prop := adjacent x y = true.

(** The block ranges a part of the chain is replaced by: one for a group of at
    least two files, its own for a single file. *)
Definition replace_part (part : list CompactionFile) : total BlockRange :=
  group_range (mkGroup size_default part).

Lemma group_range_spec x part :
  ∃ lst, list.last (x :: part) = Some lst /\
    replace_part (x :: part) = Ok (mkBlockRange (mkRange (start (file_range x)) (end_ (file_range lst)))
      (network (file_range x)) (hash (file_range lst)) (prev_hash (file_range x))).
Proof.
  destruct (list.last (x :: part)) as [lst|] eqn:E; [|by apply last_None in E].
  exists lst. split; [done|]. unfold replace_part, group_range. cbn [streams]. by rewrite E.
Qed.

(** Along a chain the network stays the same. *)
Lemma chain_network x part lst :
  windows range_adjacent (file_range <$> x :: part) → list.last (x :: part) = Some lst →
  network (file_range x) = network (file_range lst).
Proof.
  revert x. induction part as [|y part IH]; intros x Hw Hl; [by simplify_eq/=|].
  cbn in Hw. destruct Hw as [Hadj Hw]. unfold range_adjacent, adjacent in Hadj.
  rewrite !andb_true_iff, bool_decide_eq_true in Hadj. destruct Hadj as ((-> & _) & _).
  by apply IH.
Qed.

Definition seg_of (f : CompactionFile) : Segment :=
  mkSegment (file_id f) (file_range f) (mkObjectMeta "" 0 0).

Definition file_ranges (files : list CompactionFile) : list RangeInclusive :=
  (λ f, numbers (file_range f)) <$> files.

Lemma windows_seg_of l : windows range_adjacent (file_range <$> l) → windows seg_adjacent (seg_of <$> l).
Proof.
  induction l as [|x l IH]; [done|]. destruct l as [|y l]; [done|].
  intros [Hadj Hw]. split; [exact Hadj|]. by apply IH.
Qed.

Lemma last_chain_end x part lst :
  list.last (x :: part) = Some lst →
  chain_end (mkChain (seg_of x) (seg_of <$> part)) = end_ (file_range lst).
Proof.
  revert x. induction part as [|y part IH]; intros x Hl; [by simplify_eq/=|].
  cbn [fmap list_fmap]. rewrite chain_end_cons. by apply IH.
Qed.

(** A compacted part covers the blocks of its files. *)
Lemma part_covers x part lst n :
  Forall (λ f, range_wf (numbers (file_range f))) (x :: part) →
  windows range_adjacent (file_range <$> x :: part) → list.last (x :: part) = Some lst →
  start (file_range x) <= n <= end_ (file_range lst) ↔ in_ranges n (file_ranges (x :: part)).
Proof.
  intros Hwf Hw Hl.
  assert (Hwf' : Forall seg_wf (seg_of x :: (seg_of <$> part))).
  { change (seg_of x :: (seg_of <$> part)) with (seg_of <$> x :: part). by rewrite Forall_fmap. }
  destruct (chain_spine (seg_of x) (seg_of <$> part) Hwf') as (_ & Hall & Hcov).
  { by apply (windows_seg_of (x :: part)). }
  rewrite (last_chain_end x part lst Hl) in *. unfold in_ranges, file_ranges.
  change (seg_of x :: (seg_of <$> part)) with (seg_of <$> x :: part) in *.
  rewrite Exists_fmap. split.
  - intros Hn. specialize (Hcov n Hn). by rewrite Exists_fmap in Hcov.
  - rewrite Exists_exists. intros (f & Hf & Hn). rewrite Forall_fmap, Forall_forall in Hall.
    specialize (Hall f Hf). unfold compose, seg_start, seg_end, start, end_ in *. simpl in *. lia.
Qed.

Lemma windows_fmap_app l k :
  windows range_adjacent (file_range <$> l ++ k) →
  windows range_adjacent (file_range <$> l) /\ windows range_adjacent (file_range <$> k).
Proof.
  induction l as [|x l IH]; [by split|]. destruct l as [|y l].
  - destruct k as [|z k]; [done|]. by intros [_ ?].
  - intros [Hadj Hw]. destruct (IH Hw). split; [by split|done].
Qed.

Lemma windows_fmap_join x l lst y k :
  windows range_adjacent (file_range <$> (x :: l) ++ y :: k) → list.last (x :: l) = Some lst →
  range_adjacent (file_range lst) (file_range y).
Proof.
  revert x. induction l as [|z l IH]; intros x Hw Hl; [simplify_eq/=; by destruct Hw|].
  destruct Hw as [_ Hw]. by apply (IH z).
Qed.

(** Replacing every part of a chain by its compacted range leaves a chain that
    covers the same blocks. *)
Lemma compact_parts parts :
  Forall (λ p, p ≠ []) parts →
  Forall (λ f, range_wf (numbers (file_range f))) (mjoin parts) →
  windows range_adjacent (file_range <$> mjoin parts) →
  ∃ rs, mapM replace_part parts = Ok rs /\ windows range_adjacent rs /\
    (∀ n, in_ranges n (numbers <$> rs) ↔ in_ranges n (file_ranges (mjoin parts))) /\
    match parts, rs with
    | (x :: _) :: _, r :: _ =>
        start r = start (file_range x) /\ network r = network (file_range x) /\
        prev_hash r = prev_hash (file_range x)
    | [], [] => True
    | _, _ => False
    end.
Proof.
  induction parts as [|p parts IH]; intros Hne Hwf Hw; [by exists []|].
  apply list.Forall_cons in Hne as [Hp Hne]. destruct p as [|x p]; [done|].
  change (mjoin ((x :: p) :: parts)) with ((x :: p) ++ mjoin parts) in *.
  apply Forall_app in Hwf as [Hwp Hwf]. pose proof (windows_fmap_app _ _ Hw) as [Hwx Hwr].
  destruct (IH Hne Hwf Hwr) as (rs & Hrs & Hadj & Hcov & Hhead).
  destruct (group_range_spec x p) as (lst & Hl & Hr).
  eexists. split.
  { cbn [mapM]. rewrite Hr. cbn [mbind comp_bind]. rewrite Hrs. reflexivity. }
  split; [|split; [|done]].
  - destruct parts as [|[|y q] parts]; [by destruct rs|by destruct rs|].
    destruct rs as [|r rs]; [done|]. split; [|done].
    destruct Hhead as (Hs & Hn & Hp').
    pose proof (windows_fmap_join x p lst y (q ++ mjoin parts) Hw Hl) as Hj.
    unfold range_adjacent, adjacent in *. cbn [network numbers hash prev_hash].
    unfold end_ at 1. cbn [numbers range_end]. rewrite Hs, Hn, Hp'.
    by rewrite (chain_network x p lst Hwx Hl).
  - intros n. cbn [fmap list_fmap]. rewrite in_ranges_cons, Hcov.
    unfold file_ranges at 2. rewrite fmap_app, in_ranges_app.
    change ((λ f, numbers (file_range f)) <$> x :: p) with (file_ranges (x :: p)).
    rewrite <- (part_covers x p lst n Hwp Hwx Hl). done.
Qed.

(** ** Properties *)

(** C27: The plan over the files of a canonical chain ends and yields, in
    order, the consecutive runs of at least two files of a division of the
    chain into runs; replacing each run by its compacted file gives a chain
    again, adjacent in numbers, network and hashes, that covers exactly the same
    blocks, and the compacted file holds the rows of its parents in order. *)
Theorem compaction_preserves_chain a now files :
  Forall (λ f, range_wf (numbers (file_range f))) files →
  windows range_adjacent (file_range <$> files) →
  ∃ gs parts rs, plan_groups a now (Some <$> files) = Ok gs /\ mjoin parts = files /\
    streams <$> gs = filter (λ p, (1 < length p)%nat) parts /\
    mapM replace_part parts = Ok rs /\ windows range_adjacent rs /\
    (∀ n, in_ranges n (numbers <$> rs) ↔ in_ranges n (file_ranges files)) /\
    Forall (λ g, ∃ c, write_and_finish g = Ok c /\ compacted_range c ∈ rs /\
                      compacted_batches c = mjoin (file_batches <$> streams g) /\
                      parent_ids c = file_id <$> streams g) gs.
Proof.
  intros Hwf Hw. destruct (greedy_parts a now group_new_empty (Some <$> files)) as
    (parts & Hj & Hne & _ & _ & Hfil); [done|].
  assert (Hbe : before_error (Some <$> files) = files)
    by (clear; induction files as [|f l IH]; [done|]; simpl; f_equal; exact IH).
  rewrite Hbe in Hj. cbn in Hj. rewrite <- Hj in Hwf, Hw.
  destruct (compact_parts parts Hne Hwf Hw) as (rs & Hrs & Hadj & Hcov & _).
  exists (greedy a now group_new_empty (Some <$> files)), parts, rs.
  rewrite plan_groups_greedy. rewrite Hj in Hcov.
  assert (Hstr : streams <$> greedy a now group_new_empty (Some <$> files) =
                 filter (λ p, (1 < length p)%nat) parts).
  { apply Hfil. intros Hn. apply list_elem_of_fmap in Hn as (x & ? & _). done. }
  split_and!; try done. apply Forall_forall. intros g Hg.
  assert (Hin : streams g ∈ parts).
  { apply (list_elem_of_fmap_2 streams) in Hg. rewrite Hstr in Hg.
    by apply list_elem_of_filter in Hg as [_ ?]. }
  destruct (mapM_elem _ _ _ _ Hrs Hin) as (r & Hr & Hrin).
  exists (mkCompacted r (mjoin (file_batches <$> streams g)) (file_id <$> streams g)
        (generation_add (generation (group_size g)) 1)).
  split; [|done]. unfold write_and_finish.
  assert (Hgr : group_range g = Ok r) by (rewrite <- Hr; by destruct g). by rewrite Hgr.
Qed.

(** Without an eager limit, a group of several files never reaches the
    target size, and without a cooldown all its files have one generation. *)
Theorem groups_within_target a now files gs :
  is_unbounded (eager_compaction_limit a) = true → plan_groups a now files = Ok gs →
  Forall (λ g, (1 < length (streams g))%nat →
    test_deref (fst (fst (is_exceeded (target_partition_size a)
                            (size_from_iter (file_size <$> streams g))))) = false) gs /\
  (cooldown_duration a = 0 →
   Forall (λ o, ∀ f, o = Some f → 0 <= generation_value (generation (file_size f))) files →
   Forall (λ g, ∀ f f', f ∈ streams g → f' ∈ streams g →
             generation (file_size f) = generation (file_size f')) gs).
Proof.
  intros Hu Hgs. rewrite plan_groups_greedy in Hgs. injection Hgs as <-. split.
  - destruct (greedy_parts a now group_new_empty files) as (_ & _ & _ & Hok & _); [done|].
    pose proof (greedy_bounded a now group_new_empty files Hu) as Hb.
    rewrite Forall_forall in Hok. rewrite !Forall_forall in *. intros g Hg Hl.
    rewrite <- (Hok g Hg). apply Hb; [|done|done]. intros Hl'. simpl in Hl'. lia.
  - intros Hc Hgen. pose proof (greedy_same_generation a now group_new_empty files Hu Hc Hgen) as Hs.
    eapply Forall_impl; [apply Hs; by intros f Hf%elem_of_nil|].
    intros g Hg f f' Hf Hf'. by rewrite (Hg f Hf), (Hg f' Hf').
Qed.

(** For two live files the predicate is the opposite of what its comment
    says: they are compacted exactly when their combined size exceeds the
    target. *)
Theorem live_predicate_inverted a now g f :
  file_state a now (group_size g) = Live → file_state a now (file_size f) = Live →
  predicate a now g f =
    test_deref (fst (fst (is_exceeded (target_partition_size a)
                            (size_add (file_size f) (group_size g))))).
Proof.
  intros Hg Hf. unfold predicate. rewrite Hg, Hf. cbn [state_max state_cmp].
  by destruct (is_exceeded _ _) as [[e1 e2] e3].
Qed.

(** Printing a compaction algorithm panics for every kind but the hybrid
    one: the other names the match knows are no longer produced. *)
Theorem display_panics_unless_hybrid a :
  display_kind a = (if bool_decide (kind a = "Hybrid Compaction") then Ok "Hybrid" else Panic).
Proof.
  unfold display_kind, kind. destruct (lex_ge _ _); [done|].
  destruct (is_unbounded _); cbn; [destruct (cooldown_duration a =? 0); done|done].
Qed.

(** ** The properties at concrete inputs *)

Definition test_file (id first last size gen : Z) : CompactionFile :=
  mkCompactionFile id
    (mkBlockRange (mkRange first last) "test" last (if first =? 0 then None else Some (first - 1)))
    (mkSegmentSize 1 (last - first + 1) size 10 (mkGeneration gen) 100) ["rows"] false.

Definition tiered : CompactionAlgorithm :=
  mkAlgorithm 0 (limit_new 0 1000 0 0 (mkGeneration 0) (mkOverflow 1 1))
    (limit_new 0 0 0 0 (mkGeneration 0) (mkOverflow 1 1)).

Definition hybrid : CompactionAlgorithm :=
  mkAlgorithm 0 (limit_new 0 1000 0 0 (mkGeneration 0) (mkOverflow 1 1))
    (limit_new 0 500 0 0 (mkGeneration 0) (mkOverflow 1 1)).

Definition test_files : list CompactionFile :=
  [test_file 1 0 9 300 0; test_file 2 10 19 300 0; test_file 3 20 29 300 0; test_file 4 30 39 300 0;
   test_file 5 40 49 2000 1].

Lemma compaction_preserves_chain_witness :
  ∃ gs rs, plan_groups tiered 0 (Some <$> test_files) = Ok gs /\
    ((λ g, file_id <$> streams g) <$> gs) = [[1; 2; 3]] /\ windows range_adjacent rs /\
    (∀ n, in_ranges n (numbers <$> rs) ↔ in_ranges n (file_ranges test_files)).
Proof.
  destruct (compaction_preserves_chain tiered 0 test_files) as
    (gs & parts & rs & Hgs & _ & _ & _ & Hadj & Hcov & _).
  - repeat constructor; cbn; unfold u64_max; lia.
  - repeat split.
  - exists gs, rs. split; [done|]. split; [vm_compute in Hgs; by injection Hgs as <-|by split].
Defined.

Lemma groups_within_target_witness :
  ∃ gs, plan_groups tiered 0 (Some <$> test_files) = Ok gs /\
    Forall (λ g, (1 < length (streams g))%nat →
    test_deref (fst (fst (is_exceeded (target_partition_size tiered)
                            (size_from_iter (file_size <$> streams g))))) = false) gs.
Proof.
  eexists. split; [vm_compute; reflexivity|].
  apply (groups_within_target tiered 0 (Some <$> test_files)); by vm_compute.
Defined.

(** Two small live files are left alone although together they stay far below
    the target; two that exceed it together are merged. *)
Lemma live_predicate_inverted_witness :
  predicate hybrid 0 (group_push group_new_empty (test_file 1 0 9 200 0)) (test_file 2 10 19 200 0)
    = false.
Proof. rewrite live_predicate_inverted; by vm_compute. Defined.
