(* ===== verification/FileStore.v ===== *)
(** * FileStore

    The file metadata of the tables, the manifest of the garbage collector and
    the collector itself: the statements of core/metadata-db/src/lib.rs and
    files.rs, the reclamation sweep and the canonical chain of a physical table
    (core/common/src/catalog/physical.rs), the collection pass
    (core/dump/src/compaction/collector.rs) and the commit of a compacted file
    (core/dump/src/compaction/compactor.rs). The object store is a set of paths
    whose deletions may fail. *)

From stdpp Require Import base numbers gmap strings option fin_maps sets list sorting.
From Stdlib Require Import ZArith Lia.
From S2P Require Import Prelude Ranges BlockRange Segments.

(** ** Rows *)

Record FileRow := mkFile {
  file_location : Z;
  file_name : string;
  file_ranges : list BlockRange;
  file_object : ObjectMeta
}.

Record GcManifestRow := mkGc { gc_location : Z; gc_path : string; expiration : Z }.

(** File metadata by identifier with its sequence, the manifest by file, and the
    objects of each location. *)
Record FileDb := mkFileDb {
  files : gmap Z FileRow;
  next_file_id : Z;
  gc_manifest : gmap Z GcManifestRow;
  objects : gset (Z * string)
}.

Inductive FileError := ConstraintViolation | TwiceInOneStatement | RangeCount | ObjectStoreError.

Definition with_manifest (g : gmap Z GcManifestRow) (d : FileDb) : FileDb :=
  mkFileDb (files d) (next_file_id d) g (objects d).

(** ** Statements *)

(** [ON CONFLICT DO NOTHING]: a file name is unique within its location. The
    sequence moves on in both cases. *)
Definition register_file (loc : Z) (name : string) (rs : list BlockRange) (o : ObjectMeta) (d : FileDb) : FileDb :=
  let i := next_file_id d in
  if existsb (λ f, (file_location f =? loc) && (file_name f =? name)%string) (map_to_list (files d)).*2
  then mkFileDb (files d) (i + 1) (gc_manifest d) (objects d)
  else mkFileDb (<[i := mkFile loc name rs o]> (files d)) (i + 1) (gc_manifest d) (objects d).

(** [DELETE ... RETURNING id]; the manifest rows go with their files. *)
Definition delete_file_ids (ids : list Z) (d : FileDb) : list Z * FileDb :=
  (filter (λ i, is_Some (files d !! i)) ids,
   mkFileDb (filter (λ kv, kv.1 ∉ ids) (files d)) (next_file_id d)
            (filter (λ kv, kv.1 ∉ ids) (gc_manifest d)) (objects d)).

(** A row of the manifest to insert: the expiration must be in the future, and
    a path appears once. *)
Definition manifest_insert (now : Z) (i : Z) (row : GcManifestRow) (g : gmap Z GcManifestRow)
    : comp FileError (gmap Z GcManifestRow) :=
  if expiration row <=? now then Err ConstraintViolation
  else if existsb (λ kv, negb (kv.1 =? i) && (gc_path kv.2 =? gc_path row)%string) (map_to_list g)
  then Err ConstraintViolation
  else Ok (<[i := row]> g).

(** The rows a statement would insert: those of the files that exist. *)
Definition manifest_rows (now loc : Z) (ids : list Z) (duration : Z) (d : FileDb) : list (Z * GcManifestRow) :=
  omap (λ i, (λ f, (i, mkGc loc (file_name f) (now + duration))) <$> files d !! i) ids.

Fixpoint upsert_rows (now : Z) (rows : list (Z * GcManifestRow)) (g : gmap Z GcManifestRow)
    : comp FileError (gmap Z GcManifestRow) :=
  match rows with
  | [] => Ok g
  | (i, row) :: rest =>
      g' ← match g !! i with
           | Some old =>
               if expiration row <=? now then Err ConstraintViolation
               else Ok (<[i := mkGc (gc_location old) (gc_path old) (expiration row)]> g)
           | None => manifest_insert now i row g
           end;
      upsert_rows now rest g'
  end.

Fixpoint schedule_rows (now : Z) (rows : list (Z * GcManifestRow)) (g : gmap Z GcManifestRow)
    : comp FileError (gmap Z GcManifestRow) :=
  match rows with
  | [] => Ok g
  | (i, row) :: rest =>
      g' ← match g !! i with
           | Some _ => if expiration row <=? now then Err ConstraintViolation else Ok g
           | None => manifest_insert now i row g
           end;
      schedule_rows now rest g'
  end.

(** [ON CONFLICT (file_id) DO UPDATE SET expiration]; Postgres refuses to update
    a row twice in one statement. *)
Definition upsert_gc_manifest (now loc : Z) (ids : list Z) (duration : Z) : stm FileDb FileError unit := λ d,
  let rows := manifest_rows now loc ids duration d in
  if bool_decide (NoDup rows.*1)
  then match upsert_rows now rows (gc_manifest d) with
       | Ok g => (Ok tt, with_manifest g d)
       | Err e => (Err e, d)
       | Panic => (Panic, d)
       | OutOfFuel => (OutOfFuel, d)
       end
  else (Err TwiceInOneStatement, d).

(** [ON CONFLICT (file_id) DO NOTHING] *)
Definition schedule_gc_manifest (now loc : Z) (ids : list Z) (duration : Z) : stm FileDb FileError unit := λ d,
  match schedule_rows now (manifest_rows now loc ids duration d) (gc_manifest d) with
  | Ok g => (Ok tt, with_manifest g d)
  | Err e => (Err e, d)
  | Panic => (Panic, d)
  | OutOfFuel => (OutOfFuel, d)
  end.

Definition stream_expired_files (now loc : Z) (d : FileDb) : list (Z * GcManifestRow) :=
  filter (λ kv, gc_location kv.2 = loc /\ expiration kv.2 < now) (map_to_list (gc_manifest d)).

(** ** The physical table *)

(** One segment per file; a file has exactly one range. *)
Definition segment_of (kv : Z * FileRow) : comp FileError Segment :=
  match file_ranges kv.2 with
  | [r] => Ok (mkSegment kv.1 r (file_object kv.2))
  | _ => Err RangeCount
  end.

(** The files of a location, in some order. *)
Definition location_files (loc : Z) (d : FileDb) : list (Z * FileRow) :=
  filter (λ kv, file_location kv.2 = loc) (map_to_list (files d)).

Definition segments (loc : Z) (d : FileDb) : comp FileError (list Segment) :=
  mapM segment_of (location_files loc d).

Definition lift_total {A} (t : total A) : comp FileError A :=
  match t with Ok a => Ok a | Err e => match e with end | Panic => Panic | OutOfFuel => OutOfFuel end.

(** [PhysicalTable::canonical_chain]: no chain, if it starts after the first
    block of the dataset. *)
Definition table_canonical_chain (start_block : option Z) (loc : Z) (d : FileDb) : comp FileError (option Chain) :=
  segs ← segments loc d;
  c ← lift_total (canonical_chain segs);
  Ok match start_block, c with
     | Some s, Some chain => if s <? chain_start chain then None else c
     | _, _ => c
     end.

Definition table_missing_ranges (loc : Z) (desired : RangeInclusive) (d : FileDb)
    : comp FileError (list RangeInclusive) :=
  segs ← segments loc d;
  lift_total (missing_ranges segs desired).

Definition snapshot (ignore_canonical_segments : bool) (start_block : option Z) (loc : Z) (d : FileDb)
    : comp FileError (list Segment) :=
  if ignore_canonical_segments then segments loc d
  else c ← table_canonical_chain start_block loc d;
       Ok match c with Some chain => chain_list chain | None => [] end.

Definition reclaim_superseded (now loc lock_duration : Z) : stm FileDb FileError nat := λ d,
  match (segs ← segments loc d; lift_total (reclaimable_segments segs)) with
  | Ok [] => (Ok 0%nat, d)
  | Ok reclaimable =>
      let ids := seg_id <$> reclaimable in
      (_ ← schedule_gc_manifest now loc ids lock_duration; mret (length ids)) d
  | Err e => (Err e, d)
  | Panic => (Panic, d)
  | OutOfFuel => (OutOfFuel, d)
  end.

(** ** Collection *)

Inductive Deletion := Deleted | DeleteNotFound | DeleteFailed.

(** Objects are deleted one after the other; an error other than a missing
    object ends the pass. *)
Fixpoint delete_objects (outcome : Z * string → Deletion) (paths : list (Z * string)) (d : FileDb)
    : comp FileError unit * FileDb :=
  match paths with
  | [] => (Ok tt, d)
  | p :: rest =>
      match outcome p with
      | DeleteFailed => (Err ObjectStoreError, d)
      | DeleteNotFound => delete_objects outcome rest d
      | Deleted =>
          delete_objects outcome rest
            (mkFileDb (files d) (next_file_id d) (gc_manifest d) (objects d ∖ {[p]}))
      end
  end.

Section Collector.
Context (outcome : Z * string → Deletion).

(** A reclamation sweep that fails is logged; then the files whose lock has
    expired lose their metadata first and their object next. *)
Definition collect (now loc lock_duration : Z) : stm FileDb FileError unit := λ d,
  match reclaim_superseded now loc lock_duration d with
  | (Panic, d1) => (Panic, d1)
  | (OutOfFuel, d1) => (OutOfFuel, d1)
  | (_, d1) =>
      let found := stream_expired_files now loc d1 in
      match found with
      | [] => (Ok tt, d1)
      | _ =>
          let '(deleted, d2) := delete_file_ids found.*1 d1 in
          let paths := omap (λ kv, if bool_decide (kv.1 ∈ deleted) then Some (loc, gc_path kv.2) else None) found in
          delete_objects outcome paths d2
      end
  end.
End Collector.

(** [CompactionGroup::compact] once the file is written: the new file is
    registered, then its parents are put in the manifest. *)
Definition commit_compacted (now loc : Z) (name : string) (r : BlockRange) (o : ObjectMeta)
    (parent_ids : list Z) (file_lock_duration : Z) : stm FileDb FileError unit := λ d,
  let written := mkFileDb (files d) (next_file_id d) (gc_manifest d) ({[(loc, name)]} ∪ objects d) in
  upsert_gc_manifest now loc parent_ids file_lock_duration (register_file loc name [r] o written).

(** ** The invariant *)

(** Every registered file has its object and well-formed ranges, file names are
    unique within a location, and the manifest describes registered files. *)
Definition ranges_wf (rs : list BlockRange) : Prop := Forall (λ r, range_wf (numbers r)) rs.

Record store_ok (d : FileDb) : Prop := {
  ok_fresh i : is_Some (files d !! i) → i < next_file_id d;
  ok_unique i j f g :
    files d !! i = Some f → files d !! j = Some g →
    file_location f = file_location g → file_name f = file_name g → i = j;
  ok_backed i f : files d !! i = Some f → (file_location f, file_name f) ∈ objects d;
  ok_ranges i f : files d !! i = Some f → ranges_wf (file_ranges f);
  ok_manifest i g : gc_manifest d !! i = Some g →
    ∃ f, files d !! i = Some f /\ gc_location g = file_location f /\ gc_path g = file_name f
}.

Lemma manifest_insert_Ok now i row g g' :
  manifest_insert now i row g = Ok g' → g' = <[i := row]> g /\ now < expiration row.
Proof.
  unfold manifest_insert. destruct (Z.leb_spec (expiration row) now); [done|].
  destruct (existsb _ _); [done|]. by intros [= <-].
Qed.

Lemma schedule_rows_Ok now rows g g' :
  schedule_rows now rows g = Ok g' →
  (∀ i old, g !! i = Some old → g' !! i = Some old)
  /\ (∀ i row, (i, row) ∈ rows → is_Some (g' !! i))
  /\ (∀ i r, g' !! i = Some r → g !! i = Some r \/ ((i, r) ∈ rows /\ now < expiration r)).
Proof.
  revert g. induction rows as [|[k row] rows IH]; intros g; cbn [schedule_rows].
  { intros [= <-]. split; [done|]. split; [by intros ? ? ?%elem_of_nil|by left]. }
  assert (∀ g1, (g !! k = None → g1 = <[k := row]> g /\ now < expiration row) →
    (is_Some (g !! k) → g1 = g) → schedule_rows now rows g1 = Ok g' →
    (∀ i old, g !! i = Some old → g' !! i = Some old)
    /\ (∀ i r, (i, r) ∈ (k, row) :: rows → is_Some (g' !! i))
    /\ (∀ i r, g' !! i = Some r → g !! i = Some r \/ ((i, r) ∈ (k, row) :: rows /\ now < expiration r))) as Hgen.
  { intros g1 Hnone Hsome (Hkeep & Hin & Hback)%IH. destruct (g !! k) as [old|] eqn:E.
    - rewrite (Hsome ltac:(eauto)) in *. split; [done|]. split.
      + intros i r [[= -> ->]|?]%elem_of_cons; [apply Hkeep in E; eauto|eauto].
      + intros i r [?|[? ?]]%Hback; [by left|]. right. split; [by right|done].
    - destruct (Hnone eq_refl) as [-> Hlt]. split; [|split].
      + intros i old Hi. apply Hkeep. rewrite lookup_insert_ne; [done|]. congruence.
      + intros i r [[= -> ->]|?]%elem_of_cons; [|eauto]. exists row. apply Hkeep. apply lookup_insert_eq.
      + intros i r [Hi|[? ?]]%Hback; [|right; split; [by right|done]].
        apply lookup_insert_Some in Hi as [[-> ->]|[_ ?]]; [right; split; [by left|done]|by left]. }
  destruct (g !! k) as [old|] eqn:E.
  - destruct (expiration row <=? now); [done|]. cbn [mbind comp_bind]. apply Hgen; [done|done].
  - destruct (manifest_insert now k row g) as [g1|e| |] eqn:Em; cbn [mbind comp_bind]; try discriminate.
    apply manifest_insert_Ok in Em as [-> ?]. apply Hgen; [done|by intros []].
Qed.

Lemma upsert_rows_Ok now rows g g' :
  upsert_rows now rows g = Ok g' →
  (∀ i, i ∉ rows.*1 → g' !! i = g !! i)
  /\ (∀ i r, g' !! i = Some r →
       (∃ old, g !! i = Some old /\ gc_location r = gc_location old /\ gc_path r = gc_path old)
       \/ ∃ row, (i, row) ∈ rows /\ gc_location r = gc_location row /\ gc_path r = gc_path row).
Proof.
  revert g. induction rows as [|[k row] rows IH]; intros g; cbn [upsert_rows].
  { intros [= <-]. split; [done|]. intros i r ?. left. by exists r. }
  assert (∀ new g1, g1 = <[k := new]> g →
    ((∃ old, g !! k = Some old /\ gc_location new = gc_location old /\ gc_path new = gc_path old) \/ new = row) →
    upsert_rows now rows g1 = Ok g' →
    (∀ i, i ∉ ((k, row) :: rows).*1 → g' !! i = g !! i)
    /\ (∀ i r, g' !! i = Some r →
       (∃ old, g !! i = Some old /\ gc_location r = gc_location old /\ gc_path r = gc_path old)
       \/ ∃ row', (i, row') ∈ (k, row) :: rows /\ gc_location r = gc_location row' /\ gc_path r = gc_path row')) as Hgen.
  { intros new g1 -> Hnew (Hkeep & Hback)%IH. split.
    - intros i Hi. cbn in Hi. rewrite Hkeep by set_solver. rewrite lookup_insert_ne; [done|]. set_solver.
    - intros i r [(old & Hold & Hl & Hp)|(row' & ? & ?)]%Hback; [|right; exists row'; split; [by right|done]].
      apply lookup_insert_Some in Hold as [[-> ->]|[_ ?]]; [|left; by exists old].
      destruct Hnew as [(o & ? & ? & ?)|<-]; [left; exists o; split_and!; congruence|].
      right. exists old. split; [by left|done]. }
  destruct (g !! k) as [old|] eqn:E.
  - destruct (expiration row <=? now); [done|]. cbn [mbind comp_bind].
    apply (Hgen (mkGc (gc_location old) (gc_path old) (expiration row))); [done|]. left. by exists old.
  - destruct (manifest_insert now k row g) as [g1|e| |] eqn:Em; cbn [mbind comp_bind]; try discriminate.
    apply manifest_insert_Ok in Em as [-> _]. apply (Hgen row); [done|by right].
Qed.

Lemma manifest_rows_elem now loc ids duration d i row :
  (i, row) ∈ manifest_rows now loc ids duration d ↔
  i ∈ ids /\ ∃ f, files d !! i = Some f /\ row = mkGc loc (file_name f) (now + duration).
Proof.
  unfold manifest_rows. rewrite list_elem_of_omap. split.
  - intros (k & Hk & E). destruct (files d !! k) as [f|] eqn:Ef; [|done]. injection E as <- <-. eauto.
  - intros (Hi & f & Hf & ->). exists i. by rewrite Hf.
Qed.

(** Files of the given location. *)
Definition of_location (loc : Z) (d : FileDb) (ids : list Z) : Prop :=
  ∀ i f, i ∈ ids → files d !! i = Some f → file_location f = loc.

Lemma with_manifest_ok d g :
  store_ok d →
  (∀ i r, g !! i = Some r → ∃ f, files d !! i = Some f /\ gc_location r = file_location f /\ gc_path r = file_name f) →
  store_ok (with_manifest g d).
Proof. intros [? ? ? ? _] Hg. by split. Qed.

Lemma schedule_ok now loc ids duration d :
  store_ok d → of_location loc d ids → store_ok (schedule_gc_manifest now loc ids duration d).2.
Proof.
  intros Hok Hloc. unfold schedule_gc_manifest.
  destruct (schedule_rows _ _ _) as [g|e| |] eqn:E; [|done..]. cbn [snd].
  apply schedule_rows_Ok in E as (_ & _ & Hback). apply with_manifest_ok; [done|].
  intros i r [Hi|[(Hi & f & Hf & ->)%manifest_rows_elem _]]%Hback; [by apply (ok_manifest d Hok)|].
  exists f. split; [done|]. split; [|done]. symmetry. by eapply Hloc.
Qed.

Lemma upsert_ok now loc ids duration d :
  store_ok d → of_location loc d ids → store_ok (upsert_gc_manifest now loc ids duration d).2.
Proof.
  intros Hok Hloc. unfold upsert_gc_manifest. case_bool_decide; [|done].
  destruct (upsert_rows _ _ _) as [g|e| |] eqn:E; [|done..]. cbn [snd].
  apply upsert_rows_Ok in E as (_ & Hback). apply with_manifest_ok; [done|].
  intros i r [(old & Hold & -> & ->)|(row & (Hi & f & Hf & ->)%manifest_rows_elem & -> & ->)]%Hback;
    [by apply (ok_manifest d Hok)|].
  exists f. split; [done|]. split; [|done]. symmetry. by eapply Hloc.
Qed.

Lemma location_files_elem loc d i f :
  (i, f) ∈ location_files loc d ↔ files d !! i = Some f /\ file_location f = loc.
Proof.
  unfold location_files. rewrite list_elem_of_filter, elem_of_map_to_list. cbn. tauto.
Qed.

Lemma mapM_segment_cons kv l segs :
  mapM segment_of (kv :: l) = Ok segs →
  ∃ r tail, file_ranges kv.2 = [r] /\ mapM segment_of l = Ok tail
            /\ segs = mkSegment kv.1 r (file_object kv.2) :: tail.
Proof.
  change (mapM segment_of (kv :: l)) with
    (s ← segment_of kv; tail ← mapM segment_of l; mret (M := comp FileError) (s :: tail)).
  destruct (segment_of kv) as [s|e| |] eqn:Es; cbn [mbind comp_bind]; try discriminate.
  destruct (mapM segment_of l) as [tail|e| |] eqn:E; cbn [mbind comp_bind]; try discriminate.
  intros [= <-]. unfold segment_of in Es.
  destruct (file_ranges kv.2) as [|r [|]]; try discriminate. injection Es as <-. eauto.
Qed.

Lemma segments_total loc d : segments loc d ≠ Panic /\ segments loc d ≠ OutOfFuel.
Proof.
  unfold segments. induction (location_files loc d) as [|kv l IH]; [done|].
  change (mapM segment_of (kv :: l)) with
    (s ← segment_of kv; tail ← mapM segment_of l; mret (M := comp FileError) (s :: tail)).
  assert (segment_of kv ≠ Panic /\ segment_of kv ≠ OutOfFuel) as [? ?]
    by (unfold segment_of; by destruct (file_ranges kv.2) as [|r [|]]).
  destruct (segment_of kv); cbn [mbind comp_bind]; [|done..]. by destruct (mapM segment_of l); destruct IH.
Qed.

Lemma segments_ids loc d segs :
  segments loc d = Ok segs → seg_id <$> segs = (location_files loc d).*1.
Proof.
  unfold segments. revert segs. induction (location_files loc d) as [|kv l IH]; intros segs.
  { by intros [= <-]. }
  intros (r & tail & _ & Ht & ->)%mapM_segment_cons. cbn. by rewrite (IH tail).
Qed.

Lemma segments_of_location loc d segs i :
  segments loc d = Ok segs → i ∈ seg_id <$> segs → ∃ f, files d !! i = Some f /\ file_location f = loc.
Proof.
  intros Hs. rewrite (segments_ids _ _ _ Hs), list_elem_of_fmap. intros ([k f] & -> & Hi).
  exists f. by apply location_files_elem.
Qed.

Lemma segments_wf loc d segs : store_ok d → segments loc d = Ok segs → Forall seg_wf segs.
Proof.
  intros Hok. assert (Forall (λ kv, ranges_wf (file_ranges kv.2)) (location_files loc d)) as Hwf.
  { apply Forall_forall. intros [i f] [Hi _]%location_files_elem. by apply (ok_ranges d Hok i). }
  unfold segments. revert segs Hwf. induction (location_files loc d) as [|kv l IH]; intros segs Hwf.
  { by intros [= <-]. }
  apply list.Forall_cons in Hwf as [Hf Hwf]. intros (r & tail & Hr & Ht & ->)%mapM_segment_cons.
  apply list.Forall_cons. split; [|by apply IH]. rewrite Hr in Hf. by apply list.Forall_cons in Hf as [? _].
Qed.

Lemma register_lookup loc name rs o d i f :
  files d !! i = Some f → store_ok d → files (register_file loc name rs o d) !! i = Some f.
Proof.
  intros Hi Hok. unfold register_file. destruct (existsb _ _); [done|]. cbn [files].
  rewrite lookup_insert_ne; [done|]. pose proof (ok_fresh d Hok i ltac:(eauto)). lia.
Qed.

Lemma register_manifest loc name rs o d : gc_manifest (register_file loc name rs o d) = gc_manifest d.
Proof. unfold register_file. by destruct (existsb _ _). Qed.

Lemma register_ok loc name rs o d :
  store_ok d → (loc, name) ∈ objects d → ranges_wf rs → store_ok (register_file loc name rs o d).
Proof.
  intros Hok Hobj Hrs. unfold register_file. destruct (existsb _ _) eqn:E.
  { destruct Hok as [Hf ? ? ? ?]. split; [|done..]. intros i Hi. cbn in *. specialize (Hf i Hi). lia. }
  assert (∀ i f, files d !! i = Some f → ~ (file_location f = loc /\ file_name f = name)) as Hnew.
  { intros i f Hi [Hl Hn]. apply not_true_iff_false in E. apply E, existsb_exists. exists f. split.
    - apply list_elem_of_In, list_elem_of_fmap. exists (i, f). split; [done|]. by apply elem_of_map_to_list.
    - apply andb_true_iff. by rewrite Z.eqb_eq, String.eqb_eq. }
  destruct Hok as [Hf Hu Hb Hr Hm]. split; cbn.
  - intros i [f [[<- _]|[_ Hi]]%lookup_insert_Some]; [lia|]. specialize (Hf i ltac:(eauto)). lia.
  - intros i j f g [[<- <-]|[_ Hi]]%lookup_insert_Some [[<- <-]|[_ Hj]]%lookup_insert_Some; cbn; intros Hl Hn.
    + done.
    + destruct (Hnew _ _ Hj). by rewrite <- Hl, <- Hn.
    + by destruct (Hnew _ _ Hi).
    + by apply (Hu i j f g).
  - intros i f [[<- <-]|[_ Hi]]%lookup_insert_Some; [done|by apply (Hb i)].
  - intros i f [[<- <-]|[_ Hi]]%lookup_insert_Some; [done|by apply (Hr i)].
  - intros i g Hg. destruct (Hm i g Hg) as (f & Hi & ?). exists f. split; [|done].
    rewrite lookup_insert_ne; [done|]. specialize (Hf i ltac:(eauto)). lia.
Qed.

Lemma delete_ok ids d : store_ok d → store_ok (delete_file_ids ids d).2.
Proof.
  intros [Hf Hu Hb Hr Hm]. split; cbn.
  - intros i [f [Hi _]%map_lookup_filter_Some]. eauto.
  - intros i j f g [Hi _]%map_lookup_filter_Some [Hj _]%map_lookup_filter_Some. by apply Hu.
  - intros i f [Hi _]%map_lookup_filter_Some. by apply (Hb i).
  - intros i f [Hi _]%map_lookup_filter_Some. by apply (Hr i).
  - intros i g [Hi Hn]%map_lookup_filter_Some. destruct (Hm i g Hi) as (f & ? & ?). exists f. split; [|done].
    by apply map_lookup_filter_Some.
Qed.

(** What the deletion of the objects does and leaves alone. *)
Lemma delete_objects_spec outcome paths d :
  let '(res, d') := delete_objects outcome paths d in
  files d' = files d /\ next_file_id d' = next_file_id d /\ gc_manifest d' = gc_manifest d
  /\ (res = Ok tt \/ res = Err ObjectStoreError)
  /\ objects d' ⊆ objects d
  /\ (∀ p, p ∈ objects d → p ∉ objects d' → p ∈ paths /\ outcome p = Deleted)
  /\ (res = Ok tt → ∀ p, p ∈ paths → outcome p = Deleted → p ∉ objects d').
Proof.
  revert d. induction paths as [|p paths IH]; intros d; cbn [delete_objects].
  { split_and!; [done..|by left|done|done|]. intros _ p ?%elem_of_nil. done. }
  destruct (outcome p) eqn:Ep.
  - specialize (IH (mkFileDb (files d) (next_file_id d) (gc_manifest d) (objects d ∖ {[p]}))).
    destruct (delete_objects _ _ _) as [res d'] eqn:E. cbn in IH. destruct IH as (? & ? & ? & ? & Hsub & Hin & Hall).
    split_and!; [done..|set_solver| |].
    + intros q Hq Hq'. destruct (decide (q = p)) as [->|Hne]; [split; [by left|done]|].
      destruct (Hin q ltac:(set_solver) Hq') as [? ?]. split; [by right|done].
    + intros Hres q [->|Hq]%elem_of_cons Hd; [set_solver|by apply Hall].
  - specialize (IH d). destruct (delete_objects _ _ _) as [res d'] eqn:E.
    destruct IH as (? & ? & ? & ? & Hsub & Hin & Hall). split_and!; [done..| |].
    + intros q Hq Hq'. destruct (Hin q Hq Hq') as [? ?]. split; [by right|done].
    + intros Hres q [->|Hq]%elem_of_cons Hd; [congruence|by apply Hall].
  - split_and!; [done..|by right|done|done|done].
Qed.

(** The lock of a file of the location is over. *)
Definition expired (now loc : Z) (d : FileDb) (i : Z) : Prop :=
  ∃ g, gc_manifest d !! i = Some g /\ gc_location g = loc /\ expiration g < now.

#[export] Instance expired_dec now loc d i : Decision (expired now loc d i).
Proof.
  destruct (gc_manifest d !! i) as [g|] eqn:E.
  - destruct (decide (gc_location g = loc /\ expiration g < now)) as [?|Hn]; [left; by exists g|].
    right. intros (g' & ? & ?). apply Hn. congruence.
  - right. intros (g' & ? & _). congruence.
Defined.

Lemma stream_expired_elem now loc d i g :
  (i, g) ∈ stream_expired_files now loc d ↔
  gc_manifest d !! i = Some g /\ gc_location g = loc /\ expiration g < now.
Proof. unfold stream_expired_files. rewrite list_elem_of_filter, elem_of_map_to_list. cbn. tauto. Qed.

Lemma stream_expired_ids now loc d i : i ∈ (stream_expired_files now loc d).*1 ↔ expired now loc d i.
Proof.
  rewrite list_elem_of_fmap. split.
  - intros ([k g] & -> & Hg). exists g. by apply stream_expired_elem.
  - intros (g & Hg). exists (i, g). split; [done|]. by apply stream_expired_elem.
Qed.

Lemma with_manifest_id d : with_manifest (gc_manifest d) d = d.
Proof. by destruct d. Qed.

(** A manifest grown by rows that are not due before [now]. *)
Definition manifest_grown (now : Z) (g g' : gmap Z GcManifestRow) : Prop :=
  (∀ i old, g !! i = Some old → g' !! i = Some old)
  /\ ∀ i r, g' !! i = Some r → g !! i = Some r \/ now < expiration r.

Lemma manifest_grown_refl now g : manifest_grown now g g.
Proof. split; [done|by left]. Qed.

Lemma schedule_grown now loc ids duration d :
  ∃ g, (schedule_gc_manifest now loc ids duration d).2 = with_manifest g d
       /\ manifest_grown now (gc_manifest d) g
       /\ (schedule_gc_manifest now loc ids duration d).1 ≠ Panic
       /\ (schedule_gc_manifest now loc ids duration d).1 ≠ OutOfFuel.
Proof.
  unfold schedule_gc_manifest.
  assert (∀ rows g, schedule_rows now rows g ≠ Panic /\ schedule_rows now rows g ≠ OutOfFuel) as Hr.
  { induction rows as [|[k row] rows IH]; intros g; cbn [schedule_rows]; [done|].
    destruct (g !! k); [destruct (_ <=? _); [done|apply IH]|].
    unfold manifest_insert. destruct (_ <=? _); [done|]. destruct (existsb _ _); [done|apply IH]. }
  specialize (Hr (manifest_rows now loc ids duration d) (gc_manifest d)).
  destruct (schedule_rows _ _ _) as [g|e| |] eqn:E; [|exists (gc_manifest d)|by destruct Hr..].
  - apply schedule_rows_Ok in E as (Hk & _ & Hb). exists g. split; [done|]. split; [|done].
    split; [done|]. intros i r [?|[_ ?]]%Hb; auto.
  - split; [by rewrite with_manifest_id|]. split; [apply manifest_grown_refl|done].
Qed.

Lemma reclaim_spec now loc lock d :
  store_ok d →
  ∃ r g, reclaim_superseded now loc lock d = (r, with_manifest g d)
         /\ store_ok (with_manifest g d) /\ manifest_grown now (gc_manifest d) g
         /\ r ≠ Panic /\ r ≠ OutOfFuel.
Proof.
  intros Hok. unfold reclaim_superseded.
  assert (∀ e, ∃ r g, (Err e, d) = (r, with_manifest g d) /\ store_ok (with_manifest g d)
      /\ manifest_grown now (gc_manifest d) g /\ r ≠ @Panic FileError nat /\ r ≠ OutOfFuel) as Herr.
  { intros e. exists (Err e), (gc_manifest d). rewrite with_manifest_id.
    split_and!; [done..|apply manifest_grown_refl|done|done]. }
  destruct (segments loc d) as [segs|e| |] eqn:Hs; cbn [mbind comp_bind].
  2: by apply Herr.
  2,3: by destruct (segments_total loc d).
  destruct (reclaimable_total segs (segments_wf _ _ _ Hok Hs)) as (rs & Hrs & Hsub).
  rewrite Hrs. cbn [lift_total]. destruct rs as [|s0 rs'].
  { exists (Ok 0%nat), (gc_manifest d). rewrite with_manifest_id. split_and!; [done..|apply manifest_grown_refl|done|done]. }
  set (ids := seg_id <$> s0 :: rs').
  assert (of_location loc d ids) as Hloc.
  { intros i f Hi Hf. destruct (segments_of_location loc d segs i Hs) as (f' & Hf' & Hl); [|congruence].
    apply list_elem_of_fmap in Hi as (s & -> & Hin). apply list_elem_of_fmap_2. by apply Hsub. }
  destruct (schedule_grown now loc ids lock d) as (g & Hd & Hg & Hp & Hf).
  pose proof (schedule_ok now loc ids lock d Hok Hloc) as Hok'.
  unfold mbind, stm_bind. destruct (schedule_gc_manifest now loc ids lock d) as [r d'] eqn:E. cbn [fst snd] in *. subst d'.
  destruct r as [[]|e| |]; [| |done|done]; eexists _, g; by split_and!.
Qed.

Lemma expired_grown now loc d g i :
  manifest_grown now (gc_manifest d) g → expired now loc (with_manifest g d) i ↔ expired now loc d i.
Proof.
  intros [Hk Hb]. split.
  - intros (r & [?|?]%Hb & ? & ?); [by exists r|lia].
  - intros (r & ?%Hk & ? & ?). by exists r.
Qed.

(** Losing objects of files that are no longer registered keeps the invariant. *)
Lemma objects_ok d objs :
  store_ok d → (∀ i f, files d !! i = Some f → (file_location f, file_name f) ∈ objs) →
  store_ok (mkFileDb (files d) (next_file_id d) (gc_manifest d) objs).
Proof. intros [? ? ? ? ?] Hobj. by split. Qed.

Record collected (outcome : Z * string → Deletion) (now loc : Z) (d d' : FileDb) (res : comp FileError unit) : Prop := {
  col_ok : store_ok d';
  col_next : next_file_id d' = next_file_id d;
  col_result : res = Ok tt \/ res = Err ObjectStoreError;
  col_manifest i r : gc_manifest d' !! i = Some r → gc_manifest d !! i = Some r \/ now < expiration r;
  col_gone i : expired now loc d i → files d' !! i = None;
  col_kept i : ~ expired now loc d i →
    files d' !! i = files d !! i /\ ∀ r, gc_manifest d !! i = Some r → gc_manifest d' !! i = Some r;
  col_objects p : p ∈ objects d → p ∉ objects d' →
    ∃ i f, expired now loc d i /\ files d !! i = Some f /\ p = (loc, file_name f) /\ outcome p = Deleted;
  col_deleted i f : res = Ok tt → expired now loc d i → files d !! i = Some f →
    outcome (loc, file_name f) = Deleted → (loc, file_name f) ∉ objects d'
}.

Lemma collected_none outcome now loc d g :
  store_ok (with_manifest g d) → manifest_grown now (gc_manifest d) g →
  (∀ i, ~ expired now loc d i) → collected outcome now loc d (with_manifest g d) (Ok tt).
Proof.
  intros Hok [Hk Hb] Hnone. split; [done|done|by left|..].
  - done.
  - by intros i ?%Hnone.
  - intros i _. split; [done|apply Hk].
  - done.
  - by intros i f _ ?%Hnone.
Qed.

(** The objects of the files whose rows were deleted. *)
Lemma expired_paths now loc d p :
  store_ok d →
  p ∈ omap (λ kv, if bool_decide (kv.1 ∈ (delete_file_ids (stream_expired_files now loc d).*1 d).1)
                  then Some (loc, gc_path kv.2) else None) (stream_expired_files now loc d)
  ↔ ∃ i f, expired now loc d i /\ files d !! i = Some f /\ p = (loc, file_name f).
Proof.
  intros Hok. rewrite list_elem_of_omap. split.
  - intros ([i g] & (Hg & Hl & He)%stream_expired_elem & Hp). cbn in Hp. case_bool_decide; [|done].
    injection Hp as <-. destruct (ok_manifest d Hok i g Hg) as (f & Hf & _ & ->).
    exists i, f. split; [by exists g|done].
  - intros (i & f & He & Hf & ->). destruct (id He) as (g & Hg & Hl & Hlt). exists (i, g).
    split; [by apply stream_expired_elem|]. rewrite bool_decide_true.
    + destruct (ok_manifest d Hok i g Hg) as (f' & Hf' & _ & Hp). cbn. congruence.
    + cbn. apply list_elem_of_filter. split; [by eexists|]. by apply stream_expired_ids.
Qed.

(** Rows deleted, then their objects. *)
Lemma collected_delete outcome now loc d g :
  store_ok d → store_ok (with_manifest g d) → manifest_grown now (gc_manifest d) g →
  let d1 := with_manifest g d in
  let found := stream_expired_files now loc d1 in
  let paths := omap (λ kv, if bool_decide (kv.1 ∈ (delete_file_ids found.*1 d1).1)
                           then Some (loc, gc_path kv.2) else None) found in
  let '(res, d') := delete_objects outcome paths (delete_file_ids found.*1 d1).2 in
  collected outcome now loc d d' res.
Proof.
  intros Hok Hok1 Hg d1 found paths.
  assert (∀ i, i ∈ found.*1 ↔ expired now loc d i) as Hfound.
  { intros i. unfold found. rewrite stream_expired_ids. by apply expired_grown. }
  assert (∀ p, p ∈ paths ↔ ∃ i f, expired now loc d i /\ files d !! i = Some f /\ p = (loc, file_name f)) as Hpaths.
  { intros p. unfold paths, found. rewrite expired_paths by done.
    by split; intros (i & f & He & ?); exists i, f; (split; [by apply (expired_grown now loc d g i Hg)|]). }
  pose proof (delete_objects_spec outcome paths (delete_file_ids found.*1 d1).2) as H.
  destruct (delete_objects _ _ _) as [res d'].
  destruct H as (Hfi & Hne & Hma & Hres & Hsub & Hin & Hall). cbn in Hfi, Hne, Hma, Hsub, Hin.
  destruct Hg as [Hk Hb].
  assert (∀ i f, files d' !! i = Some f → files d !! i = Some f /\ ~ expired now loc d i) as Hfiles.
  { intros i f. rewrite Hfi. intros [? Hn]%map_lookup_filter_Some. split; [done|]. by rewrite <- Hfound. }
  split; [|done|done|..].
  - pose proof (delete_ok found.*1 d1 Hok1) as Hok2. destruct d' as [fs nx gm ob]. cbn in Hfi, Hne, Hma. subst fs nx gm.
    apply (objects_ok _ ob Hok2). intros i f Hi. destruct (Hfiles i f Hi) as [Hd Hexp].
    destruct (decide ((file_location f, file_name f) ∈ ob)) as [|Hout]; [done|]. exfalso.
    destruct (Hin _ (ok_backed d Hok i f Hd) Hout) as [Hpath _].
    apply Hpaths in Hpath as (j & f' & Hj & Hf' & [= Hloc Hname]). apply Hexp.
    rewrite (ok_unique d Hok i j f f'); [done..| |done].
    destruct Hj as (gr & Hgr & Hl & _). destruct (ok_manifest d Hok j gr Hgr) as (f2 & ? & ? & _). congruence.
  - intros i r'. rewrite Hma. intros [? _]%map_lookup_filter_Some. by apply Hb.
  - intros i Hi. rewrite Hfi. apply map_lookup_filter_None. right. intros f _. cbn. rewrite Hfound. tauto.
  - intros i Hi. rewrite Hfi, Hma. split.
    + apply option_eq. intros f. rewrite map_lookup_filter_Some. cbn. rewrite Hfound. tauto.
    + intros r' Hr'. apply map_lookup_filter_Some. split; [by apply Hk|]. cbn. by rewrite Hfound.
  - intros p Hp1 Hp2. destruct (Hin p Hp1 Hp2) as [(i & f & ? & ? & ->)%Hpaths ?]. by exists i, f.
  - intros i f Hr He Hfl Ho. apply Hall; [done| |done]. apply Hpaths. eauto.
Qed.

Lemma collect_spec outcome now loc lock d :
  store_ok d → let '(res, d') := collect outcome now loc lock d in collected outcome now loc d d' res.
Proof.
  intros Hok. unfold collect. destruct (reclaim_spec now loc lock d Hok) as (r & g & -> & Hok1 & Hg & Hp & Hf).
  pose proof (collected_delete outcome now loc d g Hok Hok1 Hg) as Hdel. cbv zeta in Hdel.
  set (d1 := with_manifest g d) in *.
  assert (let '(res, d') := match stream_expired_files now loc d1 with
      | [] => (Ok tt, d1)
      | _ :: _ =>
          let '(deleted, d2) := delete_file_ids (stream_expired_files now loc d1).*1 d1 in
          delete_objects outcome (omap (λ kv, if bool_decide (kv.1 ∈ deleted) then Some (loc, gc_path kv.2) else None)
            (stream_expired_files now loc d1)) d2
      end in collected outcome now loc d d' res) as Hgoal.
  { destruct (stream_expired_files now loc d1) as [|kv rest] eqn:E; [|exact Hdel].
    apply collected_none; [done..|]. intros i Hi. apply (expired_grown _ _ _ _ _ Hg), stream_expired_ids in Hi.
    fold d1 in Hi. rewrite E in Hi. by apply elem_of_nil in Hi. }
  by destruct r.
Qed.

Lemma upsert_other now loc ids duration d i :
  i ∉ ids → gc_manifest (upsert_gc_manifest now loc ids duration d).2 !! i = gc_manifest d !! i.
Proof.
  intros Hi. unfold upsert_gc_manifest. case_bool_decide; [|done].
  destruct (upsert_rows _ _ _) as [g|e| |] eqn:E; [|done..]. cbn.
  apply upsert_rows_Ok in E as [Hk _]. apply Hk. rewrite list_elem_of_fmap.
  intros ([k row] & -> & [? _]%manifest_rows_elem). by apply Hi.
Qed.

Lemma upsert_files now loc ids duration d :
  files (upsert_gc_manifest now loc ids duration d).2 = files d
  /\ next_file_id (upsert_gc_manifest now loc ids duration d).2 = next_file_id d.
Proof.
  unfold upsert_gc_manifest. case_bool_decide; [|done]. by destruct (upsert_rows _ _ _).
Qed.

Lemma of_location_register loc ids name rs o d :
  of_location loc d ids → of_location loc (register_file loc name rs o d) ids.
Proof.
  intros Hl i f Hi. unfold register_file. destruct (existsb _ _); [by apply Hl|]. cbn.
  intros [[_ <-]|[_ ?]]%lookup_insert_Some; [done|by apply (Hl i)].
Qed.

Definition with_object (p : Z * string) (d : FileDb) : FileDb :=
  mkFileDb (files d) (next_file_id d) (gc_manifest d) ({[p]} ∪ objects d).

Lemma with_object_ok p d : store_ok d → store_ok (with_object p d).
Proof. intros Hok. apply (objects_ok d _ Hok). intros i f Hi. pose proof (ok_backed d Hok i f Hi). set_solver. Qed.

Lemma commit_compacted_ok now loc name r o parents lock d :
  store_ok d → range_wf (numbers r) → of_location loc d parents →
  store_ok (commit_compacted now loc name r o parents lock d).2.
Proof.
  intros Hok Hr Hl. unfold commit_compacted. fold (with_object (loc, name) d).
  apply upsert_ok; [|by apply of_location_register]. apply register_ok; [by apply with_object_ok| |].
  - cbn. set_solver.
  - by apply list.Forall_singleton.
Qed.

(** ** Histories *)

(** What may happen to the metadata between the scheduling of file [i] and its
    collection: files are registered, locations are collected, other files are
    compacted; [last] bounds the times of the collections. *)
Section History.
Context (outcome : Z * string → Deletion) (i : Z) (last : Z).

Inductive gc_op (d : FileDb) : FileDb → Prop :=
| op_register loc name rs o : ranges_wf rs →
    gc_op d (register_file loc name rs o (with_object (loc, name) d))
| op_collect now loc lock : now <= last → gc_op d (collect outcome now loc lock d).2
| op_compact now loc name r o parents lock :
    range_wf (numbers r) → of_location loc d parents → i ∉ parents →
    gc_op d (commit_compacted now loc name r o parents lock d).2.

(** File [i] was scheduled in [d1] by row [g]: it keeps the row as long as it is
    registered, which it is at least until the lock is over. *)
Definition scheduled (g : GcManifestRow) (d1 d : FileDb) : Prop :=
  store_ok d /\ i < next_file_id d
  /\ (files d !! i = None \/ (files d !! i = files d1 !! i /\ gc_manifest d !! i = Some g))
  /\ (last <= expiration g → files d !! i = files d1 !! i).

Lemma register_scheduled g d1 d loc name rs o :
  ranges_wf rs → scheduled g d1 d → scheduled g d1 (register_file loc name rs o (with_object (loc, name) d)).
Proof.
  intros Hrs (Hok & Hn & Hor & Hlast).
  assert (files (register_file loc name rs o (with_object (loc, name) d)) !! i = files d !! i
          /\ next_file_id (register_file loc name rs o (with_object (loc, name) d)) = next_file_id d + 1) as [Hi Hx].
  { unfold register_file. destruct (existsb _ _); [done|]. cbn. split; [|done].
    rewrite lookup_insert_ne; [done|lia]. }
  split; [|split; [lia|]].
  - apply register_ok; [by apply with_object_ok|cbn; set_solver|done].
  - by rewrite Hi, register_manifest.
Qed.

Lemma gc_op_scheduled g d1 d d' : scheduled g d1 d → gc_op d d' → scheduled g d1 d'.
Proof.
  intros Hs Hop. destruct Hop as [loc name rs o Hrs|now loc lock Hnow|now loc name r o parents lock Hr Hl Hi].
  - by apply register_scheduled.
  - destruct Hs as (Hok & Hn & Hor & Hlast). pose proof (collect_spec outcome now loc lock d Hok) as Hc.
    destruct (collect outcome now loc lock d) as [res d']. cbn.
    split; [by destruct Hc|]. rewrite (col_next _ _ _ _ _ _ Hc). split; [done|].
    destruct (decide (expired now loc d i)) as [He|Hne].
    + rewrite (col_gone _ _ _ _ _ _ Hc i He). split; [by left|]. intros Hle. rewrite <- Hlast by done.
      destruct He as (g' & Hg' & _ & Hlt). destruct Hor as [->|[_ Hg]]; [done|].
      rewrite Hg in Hg'. injection Hg' as <-. lia.
    + destruct (col_kept _ _ _ _ _ _ Hc i Hne) as [-> Hk]. split; [|done].
      destruct Hor as [?|[? Hg]]; [by left|right]. split; [done|by apply Hk].
  - split; [apply commit_compacted_ok; [apply Hs|done|done]|]. apply (register_scheduled _ _ _ loc name [r] o) in Hs as (_ & Hn & Hor & Hlast);
      [|by apply list.Forall_singleton].
    unfold commit_compacted, scheduled. fold (with_object (loc, name) d). rewrite upsert_other by done.
    destruct (upsert_files now loc parents lock (register_file loc name [r] o (with_object (loc, name) d))) as [-> ->].
    split; [done|]. by split.
Qed.

Lemma gc_ops_scheduled g d1 d : scheduled g d1 d1 → rtc gc_op d1 d → scheduled g d1 d.
Proof.
  enough (∀ d0, rtc gc_op d0 d → scheduled g d1 d0 → scheduled g d1 d) as H by (intros Hs Hr; by apply (H d1)).
  induction 1 as [|x y z Hop _ IH]; intros H0; [done|]. apply IH. by apply (gc_op_scheduled g d1 x).
Qed.
End History.

Lemma scheduled_refl i last g d : store_ok d → gc_manifest d !! i = Some g → scheduled i last g d d.
Proof.
  intros Hok Hg. destruct (ok_manifest d Hok i g Hg) as (f & Hf & _).
  split; [done|]. split; [apply (ok_fresh d Hok); by exists f|]. split; [by right|done].
Qed.

(** The two sides of the lock of a scheduled file: collections up to its end
    leave the file, a collection after it deletes the row. *)
Lemma lock_respected outcome i g d1 :
  store_ok d1 → gc_manifest d1 !! i = Some g →
  (∀ d2, rtc (gc_op outcome i (expiration g)) d1 d2 → files d2 !! i = files d1 !! i)
  /\ (∀ last d2 now lock, rtc (gc_op outcome i last) d1 d2 → expiration g < now →
      files (collect outcome now (gc_location g) lock d2).2 !! i = None).
Proof.
  intros Hok Hg. split.
  - intros d2 Hr. apply (gc_ops_scheduled outcome i (expiration g) g) in Hr as (_ & _ & _ & H); [by apply H|].
    by apply scheduled_refl.
  - intros last d2 now lock Hr Hlt.
    apply (gc_ops_scheduled outcome i last g) in Hr as (Hok2 & _ & Hor & _); [|by apply scheduled_refl].
    pose proof (collect_spec outcome now (gc_location g) lock d2 Hok2) as Hc.
    destruct (collect _ _ _ _ _) as [res d3]. cbn. destruct Hor as [Hnone|[_ Hm]].
    + destruct (decide (expired now (gc_location g) d2 i)) as [He|Hne]; [by apply (col_gone _ _ _ _ _ _ Hc)|].
      by rewrite (proj1 (col_kept _ _ _ _ _ _ Hc i Hne)).
    + apply (col_gone _ _ _ _ _ _ Hc). by exists g.
Qed.

Lemma upsert_rows_at now rows g g' i row :
  NoDup rows.*1 → upsert_rows now rows g = Ok g' → (i, row) ∈ rows →
  ∃ r, g' !! i = Some r /\ expiration r = expiration row.
Proof.
  revert g. induction rows as [|[k row0] rows IH]; intros g Hnd; cbn [upsert_rows].
  { by intros _ ?%elem_of_nil. }
  cbn in Hnd. apply NoDup_cons in Hnd as [Hk Hnd].
  destruct (match g !! k with Some _ => _ | None => _ end) as [g1|e| |] eqn:E; cbn [mbind comp_bind]; try discriminate.
  intros Hu [[= -> ->]|Hin]%elem_of_cons; [|by apply (IH g1)].
  apply upsert_rows_Ok in Hu as [Hkeep _]. rewrite Hkeep by done.
  destruct (g !! k) as [old|].
  - destruct (_ <=? _); [done|]. injection E as <-. eexists. split; [apply lookup_insert_eq|done].
  - apply manifest_insert_Ok in E as [-> _]. eexists. split; [apply lookup_insert_eq|done].
Qed.

(** ** Properties *)

(** C30: a collection pass over a consistent store ends, successfully or with the
    error of the object store, and leaves the store consistent: every file
    still registered has its object, whatever deletions fail. It deletes
    exactly the rows of the location's files whose lock is over, removes only
    objects of such files, and all of those if it succeeds and the store did
    not report them missing. *)
Theorem collect_correct outcome now loc lock d :
  store_ok d →
  let '(res, d') := collect outcome now loc lock d in
  store_ok d'
  /\ (res = Ok tt \/ res = Err ObjectStoreError)
  /\ (∀ i, files d' !! i = if decide (expired now loc d i) then None else files d !! i)
  /\ (∀ p, p ∈ objects d → p ∉ objects d' →
       ∃ i f, expired now loc d i /\ files d !! i = Some f /\ p = (loc, file_name f) /\ outcome p = Deleted)
  /\ (res = Ok tt → ∀ i f, expired now loc d i → files d !! i = Some f →
       outcome (loc, file_name f) = Deleted → (loc, file_name f) ∉ objects d').
Proof.
  intros Hok. pose proof (collect_spec outcome now loc lock d Hok) as Hc.
  destruct (collect outcome now loc lock d) as [res d']. destruct Hc. split_and!; [done..| |done|eauto].
  intros i. case_decide; [by apply col_gone0|by apply col_kept0].
Qed.

(** Once the sweep has scheduled a superseded file, no later sweep, commit
    or collection pushes its deletion back or brings it forward: whatever else
    happens to the store, collections up to the end of its lock leave its row,
    and the first collection of the location after it deletes the row. *)
Theorem superseded_reaped outcome t0 loc lock d segs rs n d1 i :
  store_ok d → segments loc d = Ok segs → reclaimable_segments segs = Ok rs →
  reclaim_superseded t0 loc lock d = (Ok n, d1) → i ∈ seg_id <$> rs →
  ∃ e, (gc_manifest d !! i = None → e = t0 + lock)
    /\ (∀ old, gc_manifest d !! i = Some old → e = expiration old)
    /\ (∀ d2, rtc (gc_op outcome i e) d1 d2 → files d2 !! i = files d !! i)
    /\ (∀ last d2 now lock', rtc (gc_op outcome i last) d1 d2 → e < now →
         files (collect outcome now loc lock' d2).2 !! i = None).
Proof.
  intros Hok Hs Hr Hrec Hi.
  destruct (reclaim_spec t0 loc lock d Hok) as (r & g & Hrec' & Hok1 & [Hk _] & _).
  rewrite Hrec in Hrec'. injection Hrec' as <- ->.
  destruct (segments_of_location loc d segs i Hs) as (f & Hf & Hl).
  { destruct (reclaimable_total segs (segments_wf _ _ _ Hok Hs)) as (rs' & Hr' & Hsub).
    rewrite Hr in Hr'. injection Hr' as <-. apply list_elem_of_fmap in Hi as (s & -> & Hin).
    apply list_elem_of_fmap_2. by apply Hsub. }
  assert (∃ row, g !! i = Some row /\ (gc_manifest d !! i = None → expiration row = t0 + lock)) as (row & Hrow & He).
  { unfold reclaim_superseded in Hrec. rewrite Hs in Hrec. cbn [mbind comp_bind] in Hrec.
    rewrite Hr in Hrec. cbn [lift_total] in Hrec. destruct rs as [|s0 rs']; [by apply elem_of_nil in Hi|].
    set (ids := seg_id <$> s0 :: rs') in *. unfold mbind, stm_bind, schedule_gc_manifest in Hrec.
    destruct (schedule_rows _ _ _) as [g'|e| |] eqn:E; cbn in Hrec; try discriminate.
    injection Hrec as _ ->. apply schedule_rows_Ok in E as (_ & Hin & Hback).
    destruct (Hin i (mkGc loc (file_name f) (t0 + lock))) as [row Hrow].
    { apply manifest_rows_elem. eauto. }
    exists row. split; [done|]. intros Hn.
    destruct (Hback i row Hrow) as [?|[(_ & f' & _ & ->)%manifest_rows_elem _]]; [congruence|done]. }
  assert (gc_location row = loc) as <-.
  { destruct (ok_manifest _ Hok1 i row Hrow) as (f' & Hf' & -> & _). cbn in Hf'. congruence. }
  destruct (lock_respected outcome i row (with_manifest g d) Hok1 Hrow) as [Hkeep Hgone].
  exists (expiration row). split; [done|]. split; [|by split].
  intros old Hold. apply Hk in Hold. congruence.
Qed.

(** The parents of a compacted file stay registered, with their objects, for
    the whole time readers may still use them: no collection up to the end of
    the lock taken by the commit deletes them, whatever else happens, and the
    first collection after it does. *)
Theorem parents_locked outcome t0 loc name r o parents lock d d1 i f :
  store_ok d → range_wf (numbers r) → of_location loc d parents →
  commit_compacted t0 loc name r o parents lock d = (Ok tt, d1) →
  i ∈ parents → files d !! i = Some f →
  (∀ d2, rtc (gc_op outcome i (t0 + lock)) d1 d2 →
     files d2 !! i = Some f /\ (loc, file_name f) ∈ objects d2)
  /\ (∀ last d2 now lock', rtc (gc_op outcome i last) d1 d2 → t0 + lock < now →
       files (collect outcome now loc lock' d2).2 !! i = None).
Proof.
  intros Hok Hr Hloc Hc Hi Hf.
  pose proof (commit_compacted_ok t0 loc name r o parents lock d Hok Hr Hloc) as Hok1. rewrite Hc in Hok1. cbn in Hok1.
  unfold commit_compacted in Hc. fold (with_object (loc, name) d) in Hc.
  set (dr := register_file loc name [r] o (with_object (loc, name) d)) in *.
  assert (files dr !! i = Some f) as Hfr by (apply register_lookup; [done|by apply with_object_ok]).
  unfold upsert_gc_manifest in Hc. case_bool_decide as Hnd; [|done].
  destruct (upsert_rows _ _ _) as [g|e| |] eqn:E; try discriminate. injection Hc as <-.
  destruct (upsert_rows_at _ _ _ _ i (mkGc loc (file_name f) (t0 + lock)) Hnd E) as (row & Hrow & He).
  { apply manifest_rows_elem. eauto. }
  cbn in He. assert (gc_location row = loc) as Hl.
  { destruct (ok_manifest _ Hok1 i row Hrow) as (f' & Hf' & -> & _). cbn in Hf'.
    apply (Hloc i f'); [done|]. congruence. }
  destruct (lock_respected outcome i row (with_manifest g dr) Hok1 Hrow) as [Hkeep Hgone].
  rewrite He in Hkeep, Hgone. rewrite Hl in Hgone. split; [|done].
  intros d2 Hsteps. assert (files d2 !! i = Some f) as H2 by (rewrite Hkeep by done; done). split; [done|].
  apply (gc_ops_scheduled outcome i (t0 + lock) row) in Hsteps as (Hok2 & _); [|by apply scheduled_refl].
  rewrite <- (Hloc i f Hi Hf). by apply (ok_backed d2 Hok2 i).
Qed.

(** ** The properties at concrete inputs *)

(** Location 1 holds [0-9], [10-19] and the compacted file [0-19] of both,
    location 2 a file of the same name. *)
Definition demo_object (modified : Z) : ObjectMeta := mkObjectMeta "" modified 0.

Definition demo_register (loc : Z) (name : string) (a b : Z) (d : FileDb) : FileDb :=
  register_file loc name [seg_range (test_segment 0 a b 0 0 0)] (demo_object (b - a)) (with_object (loc, name) d).

Definition demo_db : FileDb :=
  demo_register 2 "a" 0 9 (demo_register 1 "c" 0 19 (demo_register 1 "b" 10 19
    (demo_register 1 "a" 0 9 (mkFileDb ∅ 0 ∅ ∅)))).

(** The sweep at time 100 schedules the two superseded files until 110. *)
Definition demo_swept : FileDb := (reclaim_superseded 100 1 10 demo_db).2.

Lemma empty_db_ok : store_ok (mkFileDb ∅ 0 ∅ ∅).
Proof.
  split; cbn.
  - intros i [? Hi]. by rewrite lookup_empty in Hi.
  - intros i j f g Hi. by rewrite lookup_empty in Hi.
  - intros i f Hi. by rewrite lookup_empty in Hi.
  - intros i f Hi. by rewrite lookup_empty in Hi.
  - intros i f Hi. by rewrite lookup_empty in Hi.
Qed.

Lemma demo_register_ok loc name a b d :
  store_ok d → range_wf (mkRange a b) → store_ok (demo_register loc name a b d).
Proof.
  intros Hok Hwf. apply register_ok; [by apply with_object_ok|cbn; set_solver|]. by apply list.Forall_singleton.
Qed.

Lemma demo_db_ok : store_ok demo_db.
Proof. repeat (apply demo_register_ok; [|unfold range_wf, u64_max; cbn; lia]). apply empty_db_ok. Qed.

Lemma demo_swept_ok : store_ok demo_swept.
Proof.
  unfold demo_swept. destruct (reclaim_spec 100 1 10 demo_db demo_db_ok) as (r & g & -> & Hok & _). exact Hok.
Qed.

(** The deletion of the second superseded object fails: both rows are gone, and
    its object stays. *)
Definition demo_outcome (p : Z * string) : Deletion :=
  if bool_decide (p = (1, "b"%string)) then DeleteFailed else Deleted.

Lemma collect_correct_witness :
  store_ok (collect demo_outcome 111 1 10 demo_swept).2
  /\ files (collect demo_outcome 111 1 10 demo_swept).2 !! 0 = None
  /\ files (collect demo_outcome 111 1 10 demo_swept).2 !! 3 = files demo_swept !! 3.
Proof.
  pose proof (collect_correct demo_outcome 111 1 10 demo_swept demo_swept_ok) as H.
  destruct (collect demo_outcome 111 1 10 demo_swept) as [res d'] eqn:E.
  destruct H as (Hok & _ & Hrows & _). split; [done|]. cbn. rewrite !Hrows. split; by vm_compute.
Defined.

Lemma superseded_reaped_witness :
  files (collect demo_outcome 105 1 10 demo_swept).2 !! 0 = files demo_db !! 0
  /\ files (collect demo_outcome 111 1 10 (collect demo_outcome 105 1 10 demo_swept).2).2 !! 0 = None.
Proof.
  destruct (segments 1 demo_db) as [segs|e| |] eqn:Es; [|by vm_compute in Es..].
  destruct (reclaimable_segments segs) as [rs|[]| |] eqn:Er;
    [|vm_compute in Es; injection Es as <-; by vm_compute in Er..].
  destruct (superseded_reaped demo_outcome 100 1 10 demo_db segs rs 2 demo_swept 0) as (e & He & _ & Hkeep & Hgone).
  - apply demo_db_ok.
  - done.
  - done.
  - by vm_compute.
  - vm_compute in Es. injection Es as <-. vm_compute in Er. injection Er as <-. vm_compute. set_solver.
  - rewrite (He ltac:(by vm_compute)) in *. split.
    + apply Hkeep. apply rtc_once, op_collect. lia.
    + apply (Hgone 105); [|lia]. apply rtc_once, op_collect. lia.
Defined.

(** The compacted file registered and its parents locked until 60. *)
Definition demo_before : FileDb :=
  demo_register 1 "b" 10 19 (demo_register 1 "a" 0 9 (mkFileDb ∅ 0 ∅ ∅)).

Lemma demo_before_ok : store_ok demo_before.
Proof. repeat (apply demo_register_ok; [|unfold range_wf, u64_max; cbn; lia]). apply empty_db_ok. Qed.

Definition demo_committed : FileDb :=
  (commit_compacted 50 1 "c" (seg_range (test_segment 0 0 19 0 0 0)) (demo_object 19) [0; 1] 10 demo_before).2.

Lemma parents_locked_witness :
  is_Some (files (collect demo_outcome 60 1 5 demo_committed).2 !! 0)
  /\ files (collect demo_outcome 61 1 5 (collect demo_outcome 60 1 5 demo_committed).2).2 !! 0 = None.
Proof.
  destruct (files demo_before !! 0) as [f|] eqn:Ef; [|by vm_compute in Ef].
  destruct (parents_locked demo_outcome 50 1 "c" (seg_range (test_segment 0 0 19 0 0 0)) (demo_object 19) [0; 1] 10
              demo_before demo_committed 0 f) as [Hkeep Hgone].
  - apply demo_before_ok.
  - unfold range_wf, u64_max; cbn; lia.
  - intros i f' Hi Hf'. apply elem_of_cons in Hi as [->|Hi];
      [|apply list_elem_of_singleton in Hi as ->]; vm_compute in Hf'; by injection Hf' as <-.
  - by vm_compute.
  - set_solver.
  - done.
  - split.
    + destruct (Hkeep (collect demo_outcome 60 1 5 demo_committed).2) as [H _];
        [apply rtc_once, op_collect; lia|]. by exists f.
    + apply (Hgone 60); [|lia]. apply rtc_once, op_collect. lia.
Defined.
