(* ===== verification/TableRevisions.v ===== *)
(** * TableRevisions

    The revisions of a table: the rows of [physical_tables] with the statements
    on them (core/metadata-db/src/physical_table/sql.rs and
    physical_table.rs), the registration of a new revision and the restoration
    of the latest one from the object store, and what a catalog reads off its
    tables (core/common/src/catalog/physical.rs). URLs and UUIDs are strings:
    joining a path to the store's URL and parsing a UUID are parameters. *)

From stdpp Require Import base numbers gmap strings option fin_maps sets list sorting.
From Stdlib Require Import ZArith Lia.
From S2P Require Import Prelude Ranges BlockRange Segments Text FileStore.

(** ** Rows *)

Record PhysicalTable := mkTableRow {
  manifest_hash : string;
  dataset_namespace : string;
  dataset_name : string;
  table_name : string;
  url : string;
  active : bool;
  writer : option Z
}.

(** The rows by identifier, the identity sequence, and the files. *)
Record Store := mkStore {
  tables : gmap Z PhysicalTable;
  next_location : Z;
  file_db : FileDb
}.

Definition with_tables (t : gmap Z PhysicalTable) (s : Store) : Store := mkStore t (next_location s) (file_db s).
Definition with_files (d : FileDb) (s : Store) : Store := mkStore (tables s) (next_location s) d.

(** Unique indexes, foreign keys, a negative [LIMIT], and a lost connection. *)
Inductive DbError := UniqueActive | UnknownWriter | NegativeLimit | ConnectionLost.

Definition set_active (b : bool) (r : PhysicalTable) : PhysicalTable :=
  mkTableRow (manifest_hash r) (dataset_namespace r) (dataset_name r) (table_name r) (url r) b (writer r).

Definition set_hash (h : string) (r : PhysicalTable) : PhysicalTable :=
  mkTableRow h (dataset_namespace r) (dataset_name r) (table_name r) (url r) (active r) (writer r).

Definition set_writer (w : Z) (r : PhysicalTable) : PhysicalTable :=
  mkTableRow (manifest_hash r) (dataset_namespace r) (dataset_name r) (table_name r) (url r) (active r) (Some w).

(** The key of the partial unique index [unique_active_per_manifest_table]. *)
Definition of_table (hash name : string) (r : PhysicalTable) : bool :=
  (manifest_hash r =? hash)%string && (table_name r =? name)%string.

(** A row at [i] violates the index. *)
Definition conflicts (i : Z) (r : PhysicalTable) (t : gmap Z PhysicalTable) : bool :=
  active r && existsb (λ kv, negb (kv.1 =? i) && active kv.2 && of_table (manifest_hash r) (table_name r) kv.2) (map_to_list t).

Definition put_row (i : Z) (r : PhysicalTable) : stm Store DbError unit := λ s,
  if conflicts i r (tables s) then (Err UniqueActive, s) else (Ok tt, with_tables (<[i := r]> (tables s)) s).

Definition rows_where (p : PhysicalTable → bool) (t : gmap Z PhysicalTable) : list (Z * PhysicalTable) :=
  filter (λ kv, Is_true (p kv.2)) (map_to_list t).

(** ** Statements *)

(** [insert]: a row with the URL gets the manifest hash instead. The sequence
    moves on in every case. *)
Definition insert_table (ns name hash table u : string) (act : bool) : stm Store DbError Z :=
  i ← gets next_location;
  _ ← modify (λ s, mkStore (tables s) (next_location s + 1) (file_db s));
  existing ← gets (λ s, head (rows_where (λ r, (url r =? u)%string) (tables s)));
  match existing with
  | Some (j, r) => _ ← put_row j (set_hash hash r); mret j
  | None => _ ← put_row i (mkTableRow hash ns name table u act None); mret i
  end.

Definition get_by_id (i : Z) : stm Store DbError (option PhysicalTable) := gets (λ s, tables s !! i).

Definition url_to_id (u : string) : stm Store DbError (option Z) :=
  gets (λ s, fst <$> head (rows_where (λ r, (url r =? u)%string) (tables s))).

Definition get_active_physical_table (hash name : string) : stm Store DbError (option (Z * PhysicalTable)) :=
  gets (λ s, head (rows_where (λ r, of_table hash name r && active r) (tables s))).

Definition mark_inactive_by_table_id (hash name : string) : stm Store DbError unit :=
  modify (λ s, with_tables ((λ r, if of_table hash name r && active r then set_active false r else r) <$> tables s) s).

Definition mark_active_by_id (hash name : string) (i : Z) : stm Store DbError unit := λ s,
  match tables s !! i with
  | Some r => if of_table hash name r then put_row i (set_active true r) s else (Ok tt, s)
  | None => (Ok tt, s)
  end.

(** [writer] references [jobs]. *)
Definition assign_job_writer (job_exists : Z → bool) (ids : list Z) (job : Z) : stm Store DbError unit := λ s,
  if bool_decide (filter (λ kv, kv.1 ∈ ids) (map_to_list (tables s)) = []) || job_exists job
  then (Ok tt, with_tables (map_imap (λ i r, Some (if bool_decide (i ∈ ids) then set_writer job r else r)) (tables s)) s)
  else (Err UnknownWriter, s).

(** The files of the location and their manifest rows go with it. *)
Definition delete_by_id (i : Z) : stm Store DbError bool := λ s,
  let d := file_db s in
  let ids := (location_files i d).*1 in
  (Ok (bool_decide (is_Some (tables s !! i))),
   mkStore (delete i (tables s)) (next_location s) (delete_file_ids ids d).2).

(** [ORDER BY id DESC LIMIT]: the first page, and the page after an identifier. *)
Definition by_id_desc (t : gmap Z PhysicalTable) : list (Z * PhysicalTable) := rev (sort_by_key fst (map_to_list t)).

Definition list_first_page (limit : Z) : stm Store DbError (list (Z * PhysicalTable)) := λ s,
  if limit <? 0 then (Err NegativeLimit, s) else (Ok (take (Z.to_nat limit) (by_id_desc (tables s))), s).

Definition list_next_page (limit last_id : Z) : stm Store DbError (list (Z * PhysicalTable)) := λ s,
  if limit <? 0 then (Err NegativeLimit, s)
  else (Ok (take (Z.to_nat limit) (filter (λ kv, kv.1 < last_id) (by_id_desc (tables s)))), s).

Definition list_tables (limit : Z) (last_id : option Z) : stm Store DbError (list (Z * PhysicalTable)) :=
  match last_id with
  | None => list_first_page limit
  | Some last_id => list_next_page limit last_id
  end.

(** ** Transactions *)

Inductive CommitFault := Commits | CommitLost | CommitUnknown.

(** What happens to the statements and the commit of an operation. *)
Record Faults := mkFaults { lost : nat → bool; commit : CommitFault }.

Definition statement {A} (f : Faults) (n : nat) (m : stm Store DbError A) : stm Store DbError A :=
  if lost f n then throw ConnectionLost else m.

(** The rows are rolled back unless the transaction commits, the sequence is
    not; a commit that fails may have taken effect. *)
Definition transaction {E A} (f : Faults) (e : E) (m : stm Store E A) : stm Store E A := λ s,
  let '(r, s') := m s in
  let rolled_back := mkStore (tables s) (next_location s') (file_db s) in
  match r with
  | Ok a => match commit f with
            | Commits => (Ok a, s')
            | CommitLost => (Err e, rolled_back)
            | CommitUnknown => (Err e, s')
            end
  | Err e => (Err e, rolled_back)
  | Panic => (Panic, rolled_back)
  | OutOfFuel => (OutOfFuel, rolled_back)
  end.

Section Revisions.
(** [data_store.url().join(path)], and [Uuid::parse_str] with its canonical text. *)
Context (join : string → string) (parse_uuid : string → option string).

Definition location_prefix (dataset table : string) : string := dataset +:+ "/" +:+ table +:+ "/".

Definition make_table_url (dataset table uuid : string) : string :=
  join (dataset +:+ "/" +:+ table +:+ "/" +:+ uuid +:+ "/").

Inductive RegisterNewTableRevisionError :=
  | TransactionBegin
  | RegisterPhysicalTable (e : DbError)
  | MarkInactive (e : DbError)
  | MarkActive (e : DbError)
  | TransactionCommit.

(** A new revision becomes the active one; its UUID is fresh. *)
Definition register_new_table_revision (f : Faults) (ns dataset hash table uuid : string)
    : stm Store RegisterNewTableRevisionError Z :=
  let u := make_table_url dataset table uuid in
  _ ← map_err (λ _, TransactionBegin) (statement f 0 (mret tt));
  transaction f TransactionCommit (
    id ← map_err RegisterPhysicalTable (statement f 1 (insert_table ns dataset hash table u false));
    _ ← map_err MarkInactive (statement f 2 (mark_inactive_by_table_id hash table));
    _ ← map_err MarkActive (statement f 3 (mark_active_by_id hash table id));
    mret id).

(** ** Restoration *)

Inductive RestoreError :=
  | RestoreRegister (e : DbError)
  | RestoreBegin
  | RestoreInactive (e : DbError)
  | RestoreActive (e : DbError)
  | RestoreCommit
  | ListFiles
  | ReadParquetMetadata
  | RegisterFile.

(** An object of the revision: its name, and its metadata if it can be read. *)
Record Listed := mkListed { listed_name : string; listed_meta : option (list BlockRange * ObjectMeta) }.

(** The files are registered in the order of their names, up to the first one
    that cannot be read; [n] counts the statements. *)
Fixpoint register_listed (f : Faults) (n : nat) (loc : Z) (l : list Listed) : stm Store RestoreError unit :=
  match l with
  | [] => mret tt
  | file :: l =>
      match listed_meta file with
      | None => throw ReadParquetMetadata
      | Some (ranges, object) =>
          _ ← map_err (λ _, RegisterFile) (statement f n (modify (λ s,
                with_files (register_file loc (listed_name file) ranges object (file_db s)) s)));
          register_listed f (S n) loc l
      end
  end.

Definition name_le (a b : Listed) : Prop := string_le (listed_name a) (listed_name b).

#[export] Instance name_le_dec a b : Decision (name_le a b).
Proof. unfold name_le. apply _. Defined.

(** The objects under the URL are those of the location. *)
Definition adopt (loc : Z) (l : list Listed) (d : FileDb) : FileDb :=
  mkFileDb (files d) (next_file_id d) (gc_manifest d) (list_to_set ((λ o, (loc, listed_name o)) <$> l) ∪ objects d).

(** [PhysicalTable::restore]; [listed] is what the store lists under the URL,
    if the listing succeeds. *)
Definition restore (f : Faults) (ns dataset hash table u : string) (listed : option (list Listed))
    : stm Store RestoreError Z :=
  id ← map_err RestoreRegister (statement f 0 (insert_table ns dataset hash table u false));
  _ ← map_err (λ _, RestoreBegin) (statement f 1 (mret tt));
  _ ← transaction f RestoreCommit (
        _ ← map_err RestoreInactive (statement f 2 (mark_inactive_by_table_id hash table));
        map_err RestoreActive (statement f 3 (mark_active_by_id hash table id)));
  match listed with
  | None => throw ListFiles
  | Some l =>
      _ ← modify (λ s, with_files (adopt id l (file_db s)) s);
      _ ← register_listed f 4 id (merge_sort name_le l);
      mret id
  end.

(** The revisions under the prefix of a table, by their UUIDs. *)
Definition list_revisions (dataset table : string) (prefixes : list string) : list (string * string) :=
  omap (λ p, revision ← parse_uuid p;
             Some (revision, join (location_prefix dataset table +:+ revision +:+ "/"))) prefixes.

Definition revision_le (a b : string * string) : Prop := string_le a.1 b.1.

#[export] Instance revision_le_dec a b : Decision (revision_le a b).
Proof. unfold revision_le. apply _. Defined.

(** [revisions.values().last()] of a [BTreeMap] by revision. *)
Definition latest_revision (revisions : list (string * string)) : option string :=
  snd <$> last (merge_sort revision_le revisions).

Inductive RestoreLatestRevisionError := ListRevisions | RestoreLatest (e : RestoreError).

(** [PhysicalTable::restore_latest_revision]; the store lists the prefixes of
    the table, and the objects under a URL. *)
Definition restore_latest_revision (f : Faults) (ns dataset hash table : string) (prefixes : option (list string))
    (list_objects : string → option (list Listed)) : stm Store RestoreLatestRevisionError (option Z) :=
  match prefixes with
  | None => throw ListRevisions
  | Some prefixes =>
      match latest_revision (list_revisions dataset table prefixes) with
      | None => mret None
      | Some u =>
          id ← map_err RestoreLatest (restore f ns dataset hash table u (list_objects u));
          mret (Some id)
      end
  end.

(** [PhysicalTable::get_active] *)
Definition get_active (hash table : string) : stm Store DbError (option (Z * string)) :=
  r ← get_active_physical_table hash table;
  mret ((λ kv : Z * PhysicalTable, (kv.1, url kv.2)) <$> r).
End Revisions.

(** ** What a catalog reads off its tables *)

(** [min_by_key] and [max_by_key]: the first of the least, the last of the
    greatest. *)
Definition min_start (l : list Segment) : option Segment :=
  foldl (λ acc s, match acc with Some m => if seg_start s <? seg_start m then Some s else acc | None => Some s end) None l.

Definition max_end (l : list Segment) : option Segment :=
  foldl (λ acc s, match acc with Some m => if seg_end s <? seg_end m then acc else Some s | None => Some s end) None l.

(** [TableSnapshot::synced_range] *)
Definition synced_range (canonical_segments : list Segment) : option BlockRange :=
  first ← min_start canonical_segments;
  last ← max_end canonical_segments;
  Some (mkBlockRange (mkRange (seg_start first) (seg_end last)) (network (seg_range first))
          (hash (seg_range last)) (prev_hash (seg_range first))).

(** [Option::min]: [None] is the least. *)
Definition option_min (a b : option Z) : option Z :=
  match a, b with Some a, Some b => Some (Z.min a b) | _, _ => None end.

(** [Catalog::earliest_block], over the canonical segments of its tables. *)
Definition earliest_block (tables : list (list Segment)) : option Z :=
  foldl (λ earliest segments,
    match earliest, synced_range segments with
    | None, Some r => Some (BlockRange.start r)
    | _, r => option_min earliest (BlockRange.start <$> r)
    end) None tables.

(** [round_robin]: the files over the partitions; [idx % size] panics for no
    partition. *)
Fixpoint distribute {A} (idx size : nat) (files : list A) (groups : list (list A)) : total (list (list A)) :=
  match files with
  | [] => Ok groups
  | file :: files =>
      if Nat.eqb size 0 then Panic
      else distribute (S idx) size files (alter (λ g, g ++ [file]) (idx mod size)%nat groups)
  end.

Definition round_robin {A} (files : list A) (target_partitions : nat) : total (list (list A)) :=
  let size := Nat.min (length files) target_partitions in
  distribute 0 size files (replicate size []).

(** ** The invariant of the rows *)

(** Identifiers come from the sequence, URLs are unique, and each table has at
    most one active revision. *)
Record revisions_ok (s : Store) : Prop := {
  rev_fresh i : is_Some (tables s !! i) → i < next_location s;
  rev_urls i j r q : tables s !! i = Some r → tables s !! j = Some q → url r = url q → i = j;
  rev_active i j r q : tables s !! i = Some r → tables s !! j = Some q → active r = true → active q = true →
    of_table (manifest_hash r) (table_name r) q = true → i = j
}.

Lemma of_table_true h n r : of_table h n r = true ↔ manifest_hash r = h /\ table_name r = n.
Proof. unfold of_table. rewrite andb_true_iff, !String.eqb_eq. done. Qed.

Lemma conflicts_false i r t :
  conflicts i r t = false ↔
  (active r = true → ∀ j q, t !! j = Some q → active q = true → of_table (manifest_hash r) (table_name r) q = true → i = j).
Proof.
  unfold conflicts. split.
  - intros Hc Ha j q Hj Hq Ho. rewrite Ha in Hc. cbn [andb] in Hc. destruct (decide (i = j)) as [|Hne]; [done|]. exfalso.
    apply not_true_iff_false in Hc. apply Hc, existsb_exists. exists (j, q). split; [by apply list_elem_of_In, elem_of_map_to_list|].
    cbn. rewrite Hq, Ho. destruct (Z.eqb_spec j i); [congruence|done].
  - intros H. destruct (active r) eqn:Ha; [|done]. cbn [andb]. apply not_true_iff_false. intros He.
    apply existsb_exists in He as ([j q] & Hj & Hp). apply list_elem_of_In, elem_of_map_to_list in Hj. cbn in Hp.
    apply andb_true_iff in Hp as [[Hne Hq]%andb_true_iff Ho]. specialize (H eq_refl j q Hj Hq Ho). subst.
    by rewrite Z.eqb_refl in Hne.
Qed.

Lemma rows_where_elem p t i r : (i, r) ∈ rows_where p t ↔ t !! i = Some r /\ p r = true.
Proof. unfold rows_where. rewrite list_elem_of_filter, elem_of_map_to_list. cbn. rewrite Is_true_true. tauto. Qed.

Lemma rows_where_head p t :
  match head (rows_where p t) with
  | Some (i, r) => t !! i = Some r /\ p r = true
  | None => ∀ i r, t !! i = Some r → p r = false
  end.
Proof.
  destruct (rows_where p t) as [|[i r] l] eqn:E; cbn.
  - intros i r Hi. destruct (p r) eqn:Hp; [|done]. assert ((i, r) ∈ rows_where p t) as Hin by by apply rows_where_elem.
    rewrite E in Hin. by apply elem_of_nil in Hin.
  - apply rows_where_elem. rewrite E. by left.
Qed.

Lemma of_table_same h n r q :
  of_table h n r = true → of_table (manifest_hash r) (table_name r) q = of_table h n q.
Proof. by intros [-> ->]%of_table_true. Qed.

(** A row that violates no index may be written. *)
Lemma put_row_ok i r s :
  revisions_ok s → i < next_location s → (∀ j q, tables s !! j = Some q → url q = url r → j = i) →
  conflicts i r (tables s) = false → revisions_ok (with_tables (<[i := r]> (tables s)) s).
Proof.
  intros [Hf Hu Ha] Hi Hurl Hc. rewrite conflicts_false in Hc. split; cbn.
  - intros j [q [[<- _]|[_ Hj]]%lookup_insert_Some]; [done|]. apply Hf. eauto.
  - intros j k q q' [[<- <-]|[Hne Hj]]%lookup_insert_Some [[<- <-]|[Hne' Hk]]%lookup_insert_Some He.
    + done.
    + symmetry. by eapply Hurl.
    + by eapply Hurl.
    + by eapply Hu.
  - intros j k q q' [[<- <-]|[Hne Hj]]%lookup_insert_Some [[<- <-]|[Hne' Hk]]%lookup_insert_Some Hq Hq' Ho.
    + done.
    + by apply (Hc Hq k q').
    + symmetry. apply (Hc Hq' j q Hj Hq). rewrite (of_table_same _ _ _ _ Ho). by apply of_table_true.
    + by eapply Ha.
Qed.

Lemma sequence_ok s : revisions_ok s → revisions_ok (mkStore (tables s) (next_location s + 1) (file_db s)).
Proof. intros [Hf Hu Ha]. split; cbn; [|done|done]. intros i Hi. specialize (Hf i Hi). lia. Qed.

(** ** What the statements do *)

Section Keeps.
Context (P : Store → Prop).

Lemma keeps_statement {A} f n (m : stm Store DbError A) : keeps P m → keeps P (statement f n m).
Proof. intros Hm. unfold statement. destruct (lost f n); [apply keeps_throw|done]. Qed.

Definition sequence_grows {E A} (m : stm Store E A) : Prop := ∀ s, next_location s <= next_location (m s).2.

Context (Hsequence : ∀ s n, P s → next_location s <= n → P (mkStore (tables s) n (file_db s))).

Lemma keeps_in_transaction {E A} f (e : E) (m : stm Store E A) : sequence_grows m → keeps P m → keeps P (transaction f e m).
Proof.
  intros Hg Hm s Hs. unfold transaction. specialize (Hm s Hs). specialize (Hg s). destruct (m s) as [r s']. cbn [snd] in *.
  pose proof (Hsequence s _ Hs Hg). destruct r as [a|e'| |]; [|done..]. by destruct (commit f).
Qed.

Context (Hfiles : ∀ s d, P s → P (with_files d s)).

Lemma keeps_modify_files {E} (g : Store → FileDb) : keeps (E := E) P (modify (λ s, with_files (g s) s)).
Proof. intros s Hs. by apply Hfiles. Qed.

Lemma keeps_register_listed f n loc l : keeps P (register_listed f n loc l).
Proof.
  revert n. induction l as [|o l IH]; intros n; cbn [register_listed]; [apply keeps_ret|].
  destruct (listed_meta o) as [[ranges object]|]; [|apply keeps_throw].
  apply keeps_bind; [|intros _; apply IH]. apply keeps_map_err, keeps_statement, keeps_modify_files.
Qed.
End Keeps.

Lemma grows_bind {E A B} (m : stm Store E A) (f : A → stm Store E B) :
  sequence_grows m → (∀ a, sequence_grows (f a)) → sequence_grows (m ≫= f).
Proof.
  intros Hm Hf s. specialize (Hm s). unfold mbind, stm_bind. destruct (m s) as [[a|e| |] s']; cbn in *; [|done..].
  specialize (Hf a s'). lia.
Qed.

Lemma grows_map_err {E F A} (g : E → F) (m : stm Store E A) : sequence_grows m → sequence_grows (map_err g m).
Proof. intros Hm s. specialize (Hm s). unfold map_err. by destruct (m s) as [[a|e| |] s']. Qed.

Lemma grows_statement {A} f n (m : stm Store DbError A) : sequence_grows m → sequence_grows (statement f n m).
Proof. intros Hm s. unfold statement. destruct (lost f n); [done|apply Hm]. Qed.

Lemma grows_ret {E A} (a : A) : sequence_grows (E := E) (mret a).
Proof. intros s. done. Qed.

Lemma grows_inactive hash table : sequence_grows (mark_inactive_by_table_id hash table).
Proof. intros s. done. Qed.

Lemma grows_active hash table i : sequence_grows (mark_active_by_id hash table i).
Proof.
  intros s. unfold mark_active_by_id, put_row. destruct (_ !! i) as [r|]; [|done]. destruct (of_table _ _ _); [|done].
  by destruct (conflicts _ _ _).
Qed.

Lemma insert_sequence ns name hash table u act s : next_location (insert_table ns name hash table u act s).2 = next_location s + 1.
Proof.
  unfold insert_table, gets, modify, put_row, mbind, stm_bind, mret, stm_ret. cbn [tables].
  destruct (head _) as [[j r]|]; destruct (conflicts _ _ _); done.
Qed.

Lemma grows_insert ns name hash table u act : sequence_grows (insert_table ns name hash table u act).
Proof. intros s. rewrite insert_sequence. lia. Qed.

Lemma insert_table_ok ns name hash table u act : keeps revisions_ok (insert_table ns name hash table u act).
Proof.
  intros s Hs. unfold insert_table, gets, modify, put_row, mbind, stm_bind, mret, stm_ret. cbn [tables].
  pose proof (rows_where_head (λ r, (url r =? u)%string) (tables s)) as Hw. pose proof (sequence_ok s Hs) as Hs1.
  destruct (head _) as [[j r]|]; cbn [tables].
  - destruct Hw as [Hj Hu]. destruct (conflicts j (set_hash hash r) (tables s)) eqn:Hc; [done|].
    apply (put_row_ok j _ (mkStore (tables s) (next_location s + 1) (file_db s))); [done| | |done]; cbn.
    + pose proof (rev_fresh s Hs j ltac:(eauto)). lia.
    + intros k q Hk He. by apply (rev_urls s Hs k j q r).
  - destruct (conflicts _ _ _) eqn:Hc; [done|].
    apply (put_row_ok _ _ (mkStore (tables s) (next_location s + 1) (file_db s))); [done| | |done]; cbn; [lia|].
    intros k q Hk He. specialize (Hw k q Hk). cbn in Hw. by rewrite He, String.eqb_refl in Hw.
Qed.

Lemma mark_inactive_ok hash table : keeps revisions_ok (mark_inactive_by_table_id hash table).
Proof.
  intros s [Hf Hu Ha]. unfold mark_inactive_by_table_id, modify. cbn [snd].
  set (g := λ r : PhysicalTable, if of_table hash table r && active r then set_active false r else r).
  assert (∀ r, url (g r) = url r /\ manifest_hash (g r) = manifest_hash r /\ table_name (g r) = table_name r
               /\ (active (g r) = true → active r = true)) as Hg by (intros r; unfold g; by destruct (_ && _)).
  split; cbn.
  - intros i. rewrite lookup_fmap, fmap_is_Some. apply Hf.
  - intros i j r q. rewrite !lookup_fmap, !fmap_Some. intros (r' & Hi & ->) (q' & Hj & ->).
    destruct (Hg r') as (-> & _), (Hg q') as (-> & _). by apply Hu.
  - intros i j r q. rewrite !lookup_fmap, !fmap_Some. intros (r' & Hi & ->) (q' & Hj & ->).
    destruct (Hg r') as (_ & -> & -> & Hr), (Hg q') as (_ & Hqh & Hqn & Hq). intros H1%Hr H2%Hq Ho.
    apply (Ha i j r' q' Hi Hj H1 H2). unfold of_table in *. by rewrite <- Hqh, <- Hqn.
Qed.

Lemma mark_active_ok hash table i : keeps revisions_ok (mark_active_by_id hash table i).
Proof.
  intros s Hs. unfold mark_active_by_id. destruct (tables s !! i) as [r|] eqn:Hi; [|done].
  destruct (of_table hash table r); [|done]. unfold put_row. destruct (conflicts _ _ _) eqn:Hc; [done|].
  apply put_row_ok; [done| | |done].
  - apply (rev_fresh s Hs). eauto.
  - intros j q Hj He. by apply (rev_urls s Hs j i q r).
Qed.

Lemma writer_assigned_ok job_exists ids job : keeps revisions_ok (assign_job_writer job_exists ids job).
Proof.
  intros s [Hf Hu Ha]. unfold assign_job_writer. destruct (_ || _); [|done]. cbn [snd].
  assert (∀ i r, (map_imap (λ i r, Some (if bool_decide (i ∈ ids) then set_writer job r else r)) (tables s)) !! i = Some r →
    ∃ r', tables s !! i = Some r' /\ url r = url r' /\ active r = active r' /\ manifest_hash r = manifest_hash r'
          /\ table_name r = table_name r') as Hl.
  { intros i r. rewrite map_lookup_imap. destruct (tables s !! i) as [r'|]; cbn; [|done]. intros [= <-]. exists r'.
    by case_bool_decide. }
  split; cbn.
  - intros i [r (r' & Hi & _)%Hl]. apply Hf. eauto.
  - intros i j r q (r' & Hi & -> & _)%Hl (q' & Hj & -> & _)%Hl. by apply Hu.
  - intros i j r q (r' & Hi & _ & -> & -> & ->)%Hl (q' & Hj & _ & -> & Hh & Hn)%Hl H1 H2 Ho.
    apply (Ha i j r' q' Hi Hj H1 H2). unfold of_table in *. by rewrite <- Hh, <- Hn.
Qed.

Lemma delete_table_ok i : keeps revisions_ok (delete_by_id i).
Proof.
  intros s [Hf Hu Ha]. split; cbn.
  - intros j [r [_ Hj]%lookup_delete_Some]. apply Hf. eauto.
  - intros j k r q [_ Hj]%lookup_delete_Some [_ Hk]%lookup_delete_Some. by apply Hu.
  - intros j k r q [_ Hj]%lookup_delete_Some [_ Hk]%lookup_delete_Some. by apply Ha.
Qed.

(** ** Activation *)

(** The row [i] is the active one of its table. *)
Definition activated (hash table : string) (i : Z) (t : gmap Z PhysicalTable) : gmap Z PhysicalTable :=
  map_imap (λ j r, Some (if of_table hash table r then set_active (bool_decide (j = i)) r else r)) t.

Lemma of_table_set_active h n b r : of_table h n (set_active b r) = of_table h n r.
Proof. done. Qed.

Lemma set_active_same r : set_active (active r) r = r.
Proof. by destruct r. Qed.

(** Deactivating the table and activating one of its rows. *)
Lemma switch_active hash table i r s :
  tables s !! i = Some r → of_table hash table r = true →
  let s1 := (mark_inactive_by_table_id hash table s).2 in
  mark_active_by_id hash table i s1 = (Ok tt, with_tables (activated hash table i (tables s)) s).
Proof.
  intros Hi Ho. unfold mark_inactive_by_table_id, modify, mark_active_by_id. cbn [snd tables with_tables]. rewrite lookup_fmap, Hi. cbn [fmap option_fmap option_map].
  set (g := λ q : PhysicalTable, if of_table hash table q && active q then set_active false q else q).
  assert (of_table hash table (g r) = true) as Hg by (unfold g; by destruct (_ && _)). change (if of_table hash table r && active r then set_active false r else r) with (g r).
  rewrite Hg. unfold put_row.
  assert (∀ q, of_table hash table (g q) = true → active (g q) = false) as Hoff.
  { intros q. unfold g. destruct (of_table hash table q) eqn:E; cbn [andb]; [|congruence]. by destruct (active q) eqn:Hq. }
  replace (conflicts _ _ _) with false.
  - f_equal. unfold with_tables. cbn. f_equal. apply map_eq. intros j. unfold activated. rewrite map_lookup_imap.
    destruct (decide (j = i)) as [->|Hne].
    + rewrite lookup_insert_eq, Hi. cbn. rewrite Ho, bool_decide_true by done. unfold g. by destruct (_ && _).
    + rewrite lookup_insert_ne, lookup_fmap by done. destruct (tables s !! j) as [q|]; cbn; [|done].
      unfold g. destruct (of_table hash table q); cbn [andb]; [|done]. rewrite bool_decide_false by done.
      destruct (active q) eqn:Hq; [done|]. by rewrite <- Hq, set_active_same.
  - symmetry. apply conflicts_false. intros _ j q Hj Hq Hoq. exfalso. cbn in Hj. rewrite lookup_fmap in Hj.
    apply fmap_Some in Hj as (q' & _ & ->). change (active (g q') = true) in Hq. rewrite Hoff in Hq; [done|].
    apply of_table_true in Hg as [Hh Hn]. cbn in Hoq. rewrite Hh, Hn in Hoq. exact Hoq.
Qed.

Lemma activated_lookup hash table i t j r :
  activated hash table i t !! j = Some r ↔
  ∃ q, t !! j = Some q /\ r = (if of_table hash table q then set_active (bool_decide (j = i)) q else q).
Proof.
  unfold activated. rewrite map_lookup_imap. destruct (t !! j) as [q|]; cbn; [|naive_solver].
  split; [intros [= <-]; eauto|]. by intros (? & [= <-] & ->).
Qed.

(** Registering a URL without a row. *)
Lemma insert_new ns name hash table u s :
  (∀ i r, tables s !! i = Some r → url r ≠ u) →
  insert_table ns name hash table u false s =
  (Ok (next_location s),
   mkStore (<[next_location s := mkTableRow hash ns name table u false None]> (tables s)) (next_location s + 1) (file_db s)).
Proof.
  intros Hnew. unfold insert_table, gets, modify, mbind, stm_bind. cbn [tables].
  pose proof (rows_where_head (λ r, (url r =? u)%string) (tables s)) as Hw.
  destruct (head _) as [[j r]|]; [|done]. destruct Hw as [Hj Hu%String.eqb_eq]. by destruct (Hnew j r Hj).
Qed.

(** Registering a URL with a row. *)
Lemma insert_existing ns name hash table u s j r :
  revisions_ok s → tables s !! j = Some r → url r = u → conflicts j (set_hash hash r) (tables s) = false →
  insert_table ns name hash table u false s =
  (Ok j, mkStore (<[j := set_hash hash r]> (tables s)) (next_location s + 1) (file_db s)).
Proof.
  intros Hs Hj Hu Hc. unfold insert_table, gets, modify, mbind, stm_bind. cbn [tables].
  pose proof (rows_where_head (λ r, (url r =? u)%string) (tables s)) as Hw.
  destruct (head _) as [[k q]|].
  - destruct Hw as [Hk Hq%String.eqb_eq]. assert (k = j) as -> by (apply (rev_urls s Hs k j q r); congruence).
    assert (q = r) as -> by congruence. unfold put_row. cbn [tables]. by rewrite Hc.
  - specialize (Hw j r Hj). cbn in Hw. by rewrite Hu, String.eqb_refl in Hw.
Qed.

(** ** Reachable states *)

Section Reachable.
Context (join : string → string) (parse_uuid : string → option string).

(** Dataset and table names have no slashes. *)
Definition slash : Ascii.ascii := Ascii.ascii_of_nat 47.

Definition plain (s : string) : bool := no_char slash s.

Inductive revisions_step (s : Store) : Store → Prop :=
  | step_new f ns dataset hash table uuid :
      plain dataset = true → plain table = true →
      revisions_step s (register_new_table_revision join f ns dataset hash table uuid s).2
  | step_restore f ns dataset hash table prefixes list_objects :
      plain dataset = true → plain table = true →
      revisions_step s (restore_latest_revision join parse_uuid f ns dataset hash table prefixes list_objects s).2
  | step_writer job_exists ids job : revisions_step s (assign_job_writer job_exists ids job s).2
  | step_delete i : revisions_step s (delete_by_id i s).2
  | step_files d : revisions_step s (with_files d s).

Definition no_tables : Store := mkStore ∅ 1 (mkFileDb ∅ 1 ∅ ∅).

(** The URL of a row names its dataset and its table. *)
Definition located (s : Store) : Prop := ∀ i r, tables s !! i = Some r →
  plain (dataset_name r) = true /\ plain (table_name r) = true /\
  ∃ uuid, url r = make_table_url join (dataset_name r) (table_name r) uuid.

Definition rows_ok (s : Store) : Prop := revisions_ok s /\ located s.

Lemma sequence_rows s n : rows_ok s → next_location s <= n → rows_ok (mkStore (tables s) n (file_db s)).
Proof.
  intros [[Hf Hu Ha] Hl] Hn. split; [|done]. split; cbn; [|done|done]. intros i Hi. specialize (Hf i Hi). lia.
Qed.

Lemma files_rows s d : rows_ok s → rows_ok (with_files d s).
Proof. intros [[Hf Hu Ha] Hl]. by split. Qed.

(** A statement keeps the invariant if it keeps both parts. *)
Lemma keeps_rows {E A} (m : stm Store E A) : keeps revisions_ok m → keeps located m → keeps rows_ok m.
Proof. intros H1 H2 s [Hr Hl]. split; [by apply H1|by apply H2]. Qed.

(** Rows that keep their names and URL stay located. *)
Lemma located_change t' s :
  (∀ i r, t' !! i = Some r → ∃ q, tables s !! i = Some q /\ url r = url q /\ dataset_name r = dataset_name q /\ table_name r = table_name q) →
  located s → located (with_tables t' s).
Proof. intros Ht Hs i r (q & Hq & -> & -> & ->)%Ht. by apply (Hs i). Qed.

Lemma located_insert ns dataset hash table uuid act :
  plain dataset = true → plain table = true →
  keeps located (insert_table ns dataset hash table (make_table_url join dataset table uuid) act).
Proof.
  intros Hd Ht s Hs. unfold insert_table, gets, modify, put_row, mbind, stm_bind, mret, stm_ret. cbn [tables].
  set (s1 := mkStore _ _ _). assert (located s1) as Hs1 by done.
  pose proof (rows_where_head (λ r, (url r =? make_table_url join dataset table uuid)%string) (tables s)) as Hw.
  destruct (head _) as [[j r]|]; destruct (conflicts _ _ _); try done.
  - apply located_change; [|done]. intros i q [[<- <-]|[_ Hi]]%lookup_insert_Some; [|by exists q].
    exists r. by destruct Hw.
  - intros i q. cbn. intros [[<- <-]|[_ Hi]]%lookup_insert_Some; [|by apply (Hs i)]. cbn. eauto.
Qed.

Lemma located_inactive hash table : keeps located (mark_inactive_by_table_id hash table).
Proof.
  intros s Hs. apply located_change; [|done]. intros i r. rewrite lookup_fmap, fmap_Some. intros (q & Hq & ->). exists q.
  by destruct (_ && _).
Qed.

Lemma located_active hash table i : keeps located (mark_active_by_id hash table i).
Proof.
  intros s Hs. unfold mark_active_by_id, put_row. destruct (tables s !! i) as [r|] eqn:Hi; [|done].
  destruct (of_table _ _ _); [|done]. destruct (conflicts _ _ _); [done|]. apply located_change; [|done].
  intros j q [[<- <-]|[_ Hj]]%lookup_insert_Some; [by exists r|by exists q].
Qed.

Lemma located_writer job_exists ids job : keeps located (assign_job_writer job_exists ids job).
Proof.
  intros s Hs. unfold assign_job_writer. destruct (_ || _); [|done]. apply located_change; [|done].
  intros i r. rewrite map_lookup_imap. destruct (tables s !! i) as [q|]; cbn; [|done]. intros [= <-]. exists q.
  by case_bool_decide.
Qed.

Lemma located_delete i : keeps located (delete_by_id i).
Proof. intros s Hs j r. cbn. intros [_ Hj]%lookup_delete_Some. by apply (Hs j). Qed.

#[local] Hint Resolve keeps_ret keeps_bind keeps_map_err keeps_throw keeps_statement keeps_in_transaction keeps_modify_files
  keeps_register_listed keeps_rows grows_bind grows_map_err grows_statement grows_ret grows_inactive grows_active grows_insert
  insert_table_ok mark_inactive_ok mark_active_ok located_insert located_inactive located_active sequence_rows files_rows : core.

Lemma rows_new f ns dataset hash table uuid :
  plain dataset = true → plain table = true → keeps rows_ok (register_new_table_revision join f ns dataset hash table uuid).
Proof. intros Hd Ht. unfold register_new_table_revision. auto 20. Qed.

Lemma revision_url dataset table revision :
  join (location_prefix dataset table +:+ revision +:+ "/") = make_table_url join dataset table revision.
Proof. unfold location_prefix, make_table_url. by rewrite !append_assoc. Qed.

(** The URL restored is that of the greatest revision. *)
Definition is_latest (dataset table : string) (prefixes : list string) (revision : string) : Prop :=
  (∃ p, p ∈ prefixes /\ parse_uuid p = Some revision)
  /\ ∀ p r, p ∈ prefixes → parse_uuid p = Some r → string_le r revision.

Lemma latest_revision_spec dataset table prefixes :
  match latest_revision (list_revisions join parse_uuid dataset table prefixes) with
  | Some u => ∃ revision, is_latest dataset table prefixes revision /\ u = make_table_url join dataset table revision
  | None => ∀ p, p ∈ prefixes → parse_uuid p = None
  end.
Proof.
  unfold latest_revision. set (l := list_revisions _ _ _ _ _).
  assert (∀ r u, (r, u) ∈ l ↔ ∃ p, p ∈ prefixes /\ parse_uuid p = Some r /\ u = make_table_url join dataset table r) as Hl.
  { intros r u. unfold l, list_revisions. rewrite list_elem_of_omap. split.
    - intros (p & Hp & He). apply bind_Some in He as (r' & Hr & [= <- <-]). exists p. by rewrite revision_url.
    - intros (p & Hp & Hr & ->). exists p. by rewrite Hr, <- revision_url. }
  pose proof (merge_sort_Permutation revision_le l) as Hperm.
  assert (StronglySorted revision_le (merge_sort revision_le l)) as Hsort.
  { apply StronglySorted_merge_sort; [by intros x y z; apply string_le_trans|intros x y; apply string_le_total]. }
  destruct (last (merge_sort revision_le l)) as [[r u]|] eqn:E; cbn.
  - apply last_Some in E as [k Hk]. rewrite Hk in Hperm, Hsort.
    assert ((r, u) ∈ l) as Hin by (rewrite <- Hperm; set_solver).
    pose proof Hin as (p & Hp & Hr & ->)%Hl. exists r. split; [|done]. split; [by exists p|].
    intros p' r' Hp' Hr'. assert ((r', make_table_url join dataset table r') ∈ k ++ [(r, make_table_url join dataset table r)]) as Hin'.
    { rewrite Hperm. apply Hl. by exists p'. }
    apply elem_of_app in Hin' as [Hin'|[[= -> _]|[]%elem_of_nil]%elem_of_cons]; [|destruct (string_le_total r r); done].
    apply StronglySorted_app in Hsort as (Hle & _ & _).
    apply (Hle _ (r, make_table_url join dataset table r) Hin'). by left.
  - apply last_None in E. rewrite E in Hperm. apply Permutation_nil in Hperm.
    intros p Hp. destruct (parse_uuid p) as [r|] eqn:Hr; [|done].
    assert ((r, make_table_url join dataset table r) ∈ l) as Hin by (apply Hl; eauto). rewrite Hperm in Hin. by apply elem_of_nil in Hin.
Qed.

Lemma rows_restore f ns dataset hash table prefixes list_objects :
  plain dataset = true → plain table = true →
  keeps rows_ok (restore_latest_revision join parse_uuid f ns dataset hash table prefixes list_objects).
Proof.
  intros Hd Ht. unfold restore_latest_revision. destruct prefixes as [prefixes|]; [|auto].
  pose proof (latest_revision_spec dataset table prefixes) as Hlatest.
  destruct (latest_revision _) as [u|]; [|auto]. destruct Hlatest as (r & _ & ->).
  apply keeps_bind; [|auto]. intros a. apply keeps_map_err. unfold restore.
  apply keeps_bind; [auto|]. intros i. apply keeps_bind; [auto|]. intros _. apply keeps_bind; [auto 12|]. intros _.
  destruct (list_objects _) as [l|]; auto.
Qed.

Lemma rows_step s s' : revisions_step s s' → rows_ok s → rows_ok s'.
Proof.
  intros [f ns ds h t u ? ?|f ns ds h t ps lo ? ?|je ids job|i|d] Hs.
  - by apply rows_new.
  - by apply rows_restore.
  - by apply (keeps_rows _ (writer_assigned_ok _ _ _) (located_writer _ _ _)).
  - by apply (keeps_rows _ (delete_table_ok _) (located_delete _)).
  - by apply files_rows.
Qed.

Lemma rows_reachable s : rtc revisions_step no_tables s → rows_ok s.
Proof.
  assert (rows_ok no_tables) as H0 by (split; [split|]; cbn; [by intros i [? ?]|by intros..]).
  intros Hr. induction Hr as [|s s1 s2 Hstep _ IH]; [done|]. apply IH. by eapply rows_step.
Qed.

Lemma get_active_row hash table i r s :
  revisions_ok s → tables s !! i = Some r → of_table hash table r = true → active r = true →
  (get_active hash table s).1 = Ok (Some (i, url r)).
Proof.
  intros Hs Hi Ho Ha. unfold get_active, get_active_physical_table, gets, mbind, stm_bind. cbn [fst].
  pose proof (rows_where_head (λ q, of_table hash table q && active q) (tables s)) as Hw.
  destruct (head _) as [[j q]|].
  - destruct Hw as [Hj [Hoq Hq]%andb_true_iff]. cbn. apply of_table_true in Ho as [<- <-].
    assert (i = j) as <- by by apply (rev_active s Hs i j r q). congruence.
  - specialize (Hw i r Hi). cbn in Hw. by rewrite Ho, Ha in Hw.
Qed.

(** C28: whatever operations on the tables ran, completed or failed half way,
    looking up the URL of a revision gives that revision, and looking up the
    active revision of a table gives the active row, so no two rows share a
    URL and no table has two active revisions; the URL of each row is that of
    its dataset and table. *)
Theorem active_revision_unique s :
  rtc revisions_step no_tables s →
  (∀ i r, tables s !! i = Some r →
     (url_to_id (url r) s).1 = Ok (Some i)
     /\ (active r = true → (get_active (manifest_hash r) (table_name r) s).1 = Ok (Some (i, url r)))
     /\ ∃ uuid, url r = make_table_url join (dataset_name r) (table_name r) uuid)
  /\ ∀ hash table, (get_active hash table s).1 = Ok None →
       ∀ i r, tables s !! i = Some r → of_table hash table r = true → active r = false.
Proof.
  intros [Hs Hl]%rows_reachable. split.
  - intros i r Hi. split; [|split].
    + unfold url_to_id, gets. cbn [fst]. pose proof (rows_where_head (λ q, (url q =? url r)%string) (tables s)) as Hw.
      destruct (head _) as [[j q]|].
      * destruct Hw as [Hj Hq%String.eqb_eq]. cbn. by rewrite (rev_urls s Hs j i q r Hj Hi Hq).
      * specialize (Hw i r Hi). cbn in Hw. by rewrite String.eqb_refl in Hw.
    + intros Ha. apply get_active_row; [done..| |done]. by apply of_table_true.
    + by apply (Hl i).
  - intros hash table. unfold get_active, get_active_physical_table, gets, mbind, stm_bind. cbn [fst].
    pose proof (rows_where_head (λ q, of_table hash table q && active q) (tables s)) as Hw.
    destruct (head _) as [[j q]|]; [done|]. intros _ i r Hi Ho. specialize (Hw i r Hi). cbn in Hw. by rewrite Ho in Hw.
Qed.

(** ** New revisions *)

Definition faultless (f : Faults) : Prop := (∀ n, lost f n = false) /\ commit f = Commits.

Lemma bind_run {E A B} (m : stm Store E A) (f : A → stm Store E B) s a s' : m s = (Ok a, s') → (m ≫= f) s = f a s'.
Proof. intros H. unfold mbind, stm_bind. by rewrite H. Qed.

Lemma map_err_run {E F A} (g : E → F) (m : stm Store E A) s a s' : m s = (Ok a, s') → map_err g m s = (Ok a, s').
Proof. intros H. unfold map_err. by rewrite H. Qed.

Lemma statement_run {A} f n (m : stm Store DbError A) : lost f n = false → statement f n m = m.
Proof. intros H. unfold statement. by rewrite H. Qed.

Lemma map_err_lost {F A} (g : DbError → F) f n (m : stm Store DbError A) s :
  lost f n = true → map_err g (statement f n m) s = (Err (g ConnectionLost), s).
Proof. intros H. unfold statement, map_err. by rewrite H. Qed.

Lemma bind_err {E A B} (m : stm Store E A) (f : A → stm Store E B) s e s' : m s = (Err e, s') → (m ≫= f) s = (Err e, s').
Proof. intros H. unfold mbind, stm_bind. by rewrite H. Qed.

(** C29: a new revision is registered and made the active one of its table in
    one step: the revision that was active is not any more, no other row
    changes, and when a statement or the commit fails the rows are as they
    were, unless the commit took effect and the answer was lost. *)
Theorem new_revision_atomic f ns dataset hash table uuid s :
  (∀ i r, tables s !! i = Some r → url r ≠ make_table_url join dataset table uuid) →
  let id := next_location s in
  let row := mkTableRow hash ns dataset table (make_table_url join dataset table uuid) false None in
  let after := activated hash table id (<[id := row]> (tables s)) in
  let '(result, s') := register_new_table_revision join f ns dataset hash table uuid s in
  file_db s' = file_db s /\ (faultless f → result = Ok id)
  /\ match result with
     | Ok i => i = id /\ tables s' = after
     | Err TransactionCommit => tables s' = tables s \/ commit f = CommitUnknown /\ tables s' = after
     | Err _ => tables s' = tables s
     | _ => False
     end.
Proof.
  intros Hnew id row after. unfold register_new_table_revision.
  destruct (lost f 0) eqn:H0.
  { rewrite (bind_err _ _ _ _ _ (map_err_lost _ f 0 _ s H0)). split; [done|]. split; [|done]. intros [H _]. by rewrite H in H0. }
  rewrite (statement_run f 0) by done. rewrite (bind_run _ _ s tt s) by done. unfold transaction.
  destruct (lost f 1) eqn:H1.
  { rewrite (bind_err _ _ _ _ _ (map_err_lost _ f 1 _ s H1)). split; [done|]. split; [|done]. intros [H _]. by rewrite H in H1. }
  rewrite (statement_run f 1) by done.
  rewrite (bind_run _ _ _ _ _ (map_err_run _ _ _ _ _ (insert_new ns dataset hash table _ s Hnew))).
  set (s1 := mkStore _ _ _). destruct (lost f 2) eqn:H2.
  { rewrite (bind_err _ _ _ _ _ (map_err_lost _ f 2 _ s1 H2)). split; [done|]. split; [|done]. intros [H _]. by rewrite H in H2. }
  rewrite (statement_run f 2) by done.
  rewrite (bind_run _ _ _ _ _ (map_err_run _ _ s1 tt (mark_inactive_by_table_id hash table s1).2 eq_refl)).
  destruct (lost f 3) eqn:H3.
  { rewrite (bind_err _ _ _ _ _ (map_err_lost _ f 3 _ _ H3)). split; [done|]. split; [|done]. intros [H _]. by rewrite H in H3. }
  rewrite (statement_run f 3) by done.
  assert (mark_active_by_id hash table id (mark_inactive_by_table_id hash table s1).2 = (Ok tt, with_tables after s1)) as Hswitch.
  { apply (switch_active hash table id row s1); [apply lookup_insert_eq|]. by apply of_table_true. }
  rewrite (bind_run _ _ _ _ _ (map_err_run _ _ _ _ _ Hswitch)). unfold mret, stm_ret.
  destruct (commit f) eqn:Hc; cbn; split_and!; try done; try (by intros [_ ?]; congruence); [by left|by right].
Qed.

(** ** Restored revisions *)

Context (join_inj : ∀ a b, join a = join b → a = b).

Lemma url_table d t u d' t' u' :
  plain d = true → plain t = true → plain d' = true → plain t' = true →
  make_table_url join d t u = make_table_url join d' t' u' → d = d' /\ t = t'.
Proof.
  intros Hd Ht Hd' Ht' He%join_inj. apply (f_equal (split_on slash)) in He.
  change (split_on slash (d +:+ String slash (t +:+ String slash (u +:+ "/"))) =
          split_on slash (d' +:+ String slash (t' +:+ String slash (u' +:+ "/")))) in He.
  rewrite !(split_on_app slash d'), !(split_on_app slash t'), !split_on_app in He by done.
  by simplify_eq.
Qed.

(** No other version of the dataset holds the revision as its active one while
    this version has an active one. *)
Definition restorable (hash table u : string) (s : Store) : Prop :=
  ∀ i r, tables s !! i = Some r → url r = u → active r = true →
    manifest_hash r = hash \/ ∀ j q, tables s !! j = Some q → of_table hash table q = true → active q = false.

Lemma insert_for_restore ns dataset hash table uuid s :
  rows_ok s → plain dataset = true → plain table = true →
  let u := make_table_url join dataset table uuid in
  restorable hash table u s →
  ∃ i r, insert_table ns dataset hash table u false s = (Ok i, mkStore (<[i := r]> (tables s)) (next_location s + 1) (file_db s))
         /\ url r = u /\ of_table hash table r = true /\ ∀ q, tables s !! i = Some q → url q = u.
Proof.
  intros [Hs Hl] Hd Ht u Hrest. pose proof (rows_where_head (λ r, (url r =? u)%string) (tables s)) as Hw.
  destruct (head _) as [[j r]|].
  - destruct Hw as [Hj Hu%String.eqb_eq]. exists j, (set_hash hash r).
    assert (table_name r = table) as Htable.
    { destruct (Hl j r Hj) as (Hdr & Htr & uuid' & Hr).
      rewrite Hr in Hu. by destruct (url_table _ _ _ _ _ _ Hdr Htr Hd Ht Hu). }
    split; [|split; [done|split; [by apply of_table_true|congruence]]].
    apply (insert_existing _ _ _ _ _ _ _ _ Hs Hj Hu), conflicts_false. intros Ha k q Hk Hq Ho. cbn in Ha, Ho.
    destruct (Hrest j r Hj Hu Ha) as [<-|Hnone]; [by apply (rev_active s Hs j k r q)|].
    rewrite Htable in Ho. by rewrite (Hnone k q Hk Ho) in Hq.
  - exists (next_location s), (mkTableRow hash ns dataset table u false None).
    split; [apply insert_new; intros i r Hi He; specialize (Hw i r Hi); cbn in Hw; by rewrite He, String.eqb_refl in Hw|].
    split; [done|]. split; [by apply of_table_true|]. intros q Hq.
    pose proof (rev_fresh s Hs (next_location s) ltac:(eauto)). lia.
Qed.

(** Every file of the list is registered, those registered before stay. *)
Definition all_registered (loc : Z) (l : list Listed) (d d' : FileDb) : Prop :=
  (∀ k row, files d !! k = Some row → files d' !! k = Some row)
  /\ ∀ o, o ∈ l → ∃ k row, files d' !! k = Some row /\ file_location row = loc /\ file_name row = listed_name o.

Lemma register_file_registers loc name rs o d :
  store_ok d → ∃ k row, files (register_file loc name rs o d) !! k = Some row /\ file_location row = loc /\ file_name row = name.
Proof.
  intros Hok. unfold register_file. destruct (existsb _ _) eqn:E.
  - apply existsb_exists in E as (row & Hin & Hp). apply list_elem_of_In, list_elem_of_fmap in Hin as ([k row'] & -> & Hk).
    apply elem_of_map_to_list in Hk. apply andb_true_iff in Hp as [Hl%Z.eqb_eq Hn%String.eqb_eq]. by exists k, row'.
  - eexists _, _. cbn. rewrite lookup_insert_eq. done.
Qed.

Definition readable (o : Listed) : Prop := ∃ rs meta, listed_meta o = Some (rs, meta) /\ ranges_wf rs.

Lemma register_listed_run f n loc l s :
  (∀ n, lost f n = false) → Forall readable l → store_ok (file_db s) →
  (∀ o, o ∈ l → (loc, listed_name o) ∈ objects (file_db s)) →
  ∃ d, register_listed f n loc l s = (Ok tt, with_files d s) /\ store_ok d /\ all_registered loc l (file_db s) d.
Proof.
  intros Hf. revert n s. induction l as [|o l IH]; intros n s Hr Hok Hobj; cbn [register_listed].
  { exists (file_db s). destruct s. split; [done|]. split; [done|]. split; [done|]. by intros o ?%elem_of_nil. }
  apply list.Forall_cons in Hr as [(rs & meta & -> & Hrs) Hr]. rewrite statement_run by done.
  set (d := register_file loc (listed_name o) rs meta (file_db s)).
  rewrite (bind_run _ _ s tt (with_files d s)) by done.
  assert (store_ok d) as Hd by (apply register_ok; [done|by apply Hobj; left|done]).
  assert (objects d = objects (file_db s)) as Ho by (unfold d, register_file; by destruct (existsb _ _)).
  destruct (IH (S n) (with_files d s) Hr Hd) as (d' & -> & Hd' & Hkeep & Hin).
  { intros o' Ho'. cbn. rewrite Ho. apply Hobj. by right. }
  exists d'. split; [done|]. split; [done|]. split.
  - intros k row Hk. apply Hkeep. by apply register_lookup.
  - intros o' [->|Ho']%elem_of_cons; [|by apply Hin].
    destruct (register_file_registers loc (listed_name o) rs meta (file_db s) Hok) as (k & row & Hk & ?).
    exists k, row. split; [by apply Hkeep|done].
Qed.

Lemma adopt_ok loc l d : store_ok d → store_ok (adopt loc l d).
Proof. intros [Hf Hu Hb Hr Hm]. split; [done..| |done|done]. intros i f Hi. cbn. apply elem_of_union_r. by apply (Hb i). Qed.

(** [restore] when nothing fails. *)
Lemma restore_run f ns dataset hash table uuid l s :
  rows_ok s → store_ok (file_db s) → plain dataset = true → plain table = true → faultless f → Forall readable l →
  let u := make_table_url join dataset table uuid in
  restorable hash table u s →
  ∃ i r s', restore f ns dataset hash table u (Some l) s = (Ok i, s')
    /\ url r = u /\ of_table hash table r = true /\ (∀ q, tables s !! i = Some q → url q = u)
    /\ tables s' = activated hash table i (<[i := r]> (tables s))
    /\ store_ok (file_db s') /\ all_registered i l (file_db s) (file_db s').
Proof.
  intros Hs Hok Hd Ht [Hf Hc] Hr u Hrest. destruct (insert_for_restore ns dataset hash table uuid s Hs Hd Ht Hrest) as (i & r & Hins & Hu & Ho & Hq).
  set (s1 := mkStore (<[i := r]> (tables s)) (next_location s + 1) (file_db s)) in *.
  set (s2 := with_tables (activated hash table i (tables s1)) s1).
  destruct (register_listed_run f 4 i (merge_sort name_le l) (with_files (adopt i l (file_db s2)) s2) Hf) as (d & Hreg & Hd' & Hkeep & Hin).
  { rewrite Forall_forall in *. intros o Hin. apply Hr. by rewrite <- (merge_sort_Permutation name_le l). }
  { by apply adopt_ok. }
  { intros o Hin. cbn. apply elem_of_union_l, elem_of_list_to_set, list_elem_of_fmap. exists o. split; [done|].
    by rewrite <- (merge_sort_Permutation name_le l). }
  exists i, r, (with_files d s2). split.
  - unfold restore. rewrite !statement_run by done.
    rewrite (bind_run _ _ _ _ _ (map_err_run _ _ _ _ _ Hins)). rewrite (bind_run _ _ s1 tt s1) by done.
    rewrite (bind_run _ _ s1 tt s2); [|].
    + rewrite (bind_run _ _ s2 tt (with_files (adopt i l (file_db s2)) s2)) by done.
      by rewrite (bind_run _ _ _ _ _ Hreg).
    + unfold transaction. rewrite (bind_run _ _ s1 tt (mark_inactive_by_table_id hash table s1).2) by done.
      rewrite statement_run by done.
      rewrite (map_err_run _ _ _ _ _ (switch_active hash table i r s1 (lookup_insert_eq _ _ _) Ho)). by rewrite Hc.
  - split_and!; try done. split; [done|]. intros o Ho'. apply Hin. by rewrite (merge_sort_Permutation name_le l).
Qed.

(** After an interrupted or a completed history, restoring a table from the
    object store makes the revision with the greatest UUID its active one: the
    lookup of the active revision gives its row and its URL, every file under
    it is registered, no registered file is lost, and the rows of other tables
    stay; with no revision in the store, nothing changes. *)
Theorem restore_latest_correct f ns dataset hash table prefixes list_objects s :
  rtc revisions_step no_tables s → store_ok (file_db s) → plain dataset = true → plain table = true → faultless f →
  let '(result, s') := restore_latest_revision join parse_uuid f ns dataset hash table (Some prefixes) list_objects s in
  ((∀ p, p ∈ prefixes → parse_uuid p = None) → result = Ok None /\ s' = s)
  /\ ∀ revision l, is_latest dataset table prefixes revision →
       let u := make_table_url join dataset table revision in
       list_objects u = Some l → Forall readable l → restorable hash table u s →
       ∃ i, result = Ok (Some i) /\ (get_active hash table s').1 = Ok (Some (i, u))
            /\ store_ok (file_db s') /\ all_registered i l (file_db s) (file_db s')
            /\ ∀ j r, tables s !! j = Some r → of_table hash table r = false → url r ≠ u → tables s' !! j = Some r.
Proof.
  intros Hs%rows_reachable Hok Hd Ht Hf. pose proof (rows_restore f ns dataset hash table (Some prefixes) list_objects Hd Ht s Hs) as Hs'.
  unfold restore_latest_revision in *. pose proof (latest_revision_spec dataset table prefixes) as Hlatest.
  destruct (latest_revision _) as [u'|].
  - destruct Hlatest as (revision' & [(p' & Hp' & Hr') Hgreatest'] & ->).
    destruct ((_ ← map_err _ _; _) s) as [result s'] eqn:Erun. split; [intros Hnone; by rewrite (Hnone p' Hp') in Hr'|].
    intros revision l [(p & Hp & Hr) Hgreatest]. set (u := make_table_url join dataset table revision). intros Hl Hread Hrest.
    assert (revision' = revision) as -> by (apply String.leb_antisym; [by apply (Hgreatest p')|by apply (Hgreatest' p)]).
    destruct (restore_run f ns dataset hash table revision l s Hs Hok Hd Ht Hf Hread Hrest)
      as (i & r & s1 & Hrun & Hu & Ho & Hq & Htables & Hok1 & Hreg).
    fold u in Erun, Hrun. rewrite Hl in Erun. rewrite (bind_run _ _ _ _ _ (map_err_run _ _ _ _ _ Hrun)) in Erun.
    injection Erun as <- <-. cbn [snd] in Hs'. exists i. split; [done|].
    assert (tables s1 !! i = Some (set_active true r)) as Hi.
    { rewrite Htables. apply activated_lookup. exists r. split; [apply lookup_insert_eq|]. by rewrite Ho, bool_decide_true. }
    split; [|split; [done|split; [done|]]].
    + rewrite (get_active_row hash table i (set_active true r) s1); [|by apply Hs'|done..]. cbn. by rewrite Hu.
    + intros j q Hj Hoq Hne. rewrite Htables. apply activated_lookup. exists q. rewrite Hoq. split; [|done].
      rewrite lookup_insert_ne; [done|]. intros <-. by destruct Hne, (Hq q Hj).
  - split; [done|]. intros revision l [(p & Hp & Hr) _]. by rewrite (Hlatest p Hp) in Hr.
Qed.
End Reachable.

(** ** The catalog *)

(** A table without a synced range hides the tables before it. *)
Lemma earliest_block_restarts before unsynced after :
  synced_range unsynced = None → earliest_block (before ++ unsynced :: after) = earliest_block after.
Proof.
  intros Hu. unfold earliest_block. rewrite foldl_app. cbn [foldl]. rewrite Hu. by destruct (foldl _ None before).
Qed.

(** When every table is synced, no table starts before the earliest block and
    one starts there. *)
Lemma earliest_block_synced l :
  l ≠ [] → Forall (λ segments, is_Some (synced_range segments)) l →
  ∃ b, earliest_block l = Some b
       /\ Forall (λ segments, ∀ r, synced_range segments = Some r → b <= BlockRange.start r) l
       /\ Exists (λ segments, BlockRange.start <$> synced_range segments = Some b) l.
Proof.
  unfold earliest_block. induction l as [|segments l IH] using rev_ind; [done|]. intros _ [Hl [[r Hr] _]%list.Forall_cons]%Forall_app.
  rewrite foldl_app. cbn [foldl]. rewrite Hr. destruct (decide (l = [])) as [->|Hne].
  { cbn. exists (BlockRange.start r). split; [done|]. split.
    - apply list.Forall_singleton. intros r'. rewrite Hr. intros [= <-]. lia.
    - apply Exists_cons. left. by rewrite Hr. }
  destruct (IH Hne Hl) as (b & -> & Hall & Hex). cbn. exists (Z.min b (BlockRange.start r)). split; [done|]. split.
  - apply Forall_app. split; [|apply list.Forall_singleton; intros r'; rewrite Hr; intros [= <-]; lia].
    eapply Forall_impl; [exact Hall|]. cbn. intros segs H r' Hr'. specialize (H r' Hr'). lia.
  - apply Exists_app. destruct (decide (b <= BlockRange.start r)) as [Hle|Hgt].
    + left. by rewrite Z.min_l.
    + right. apply Exists_cons. left. rewrite Hr. cbn. by rewrite Z.min_r by lia.
Qed.

Lemma concat_alter {A} (a : A) i groups :
  (i < length groups)%nat → concat (alter (λ g, g ++ [a]) i groups) ≡ₚ concat groups ++ [a].
Proof.
  revert i. induction groups as [|g groups IH]; intros [|i] Hi; cbn in *; [lia|lia| |].
  - change (alter (λ g, g ++ [a]) 0%nat (g :: groups)) with ((g ++ [a]) :: groups). cbn. solve_Permutation.
  - change (alter (λ g, g ++ [a]) (S i) (g :: groups)) with (g :: alter (λ g, g ++ [a]) i groups). cbn.
    rewrite IH by lia. by rewrite app_assoc.
Qed.

Lemma concat_replicate_nil {A} n : concat (replicate n (@nil A)) = [].
Proof. induction n as [|n IH]; [done|exact IH]. Qed.

Lemma distribute_run {A} idx size (l : list A) groups :
  length groups = size → (0 < size)%nat →
  ∃ groups', distribute idx size l groups = Ok groups' /\ length groups' = size /\ concat groups' ≡ₚ concat groups ++ l.
Proof.
  intros Hlen Hs. revert idx groups Hlen. induction l as [|a l IH]; intros idx groups Hlen; cbn [distribute].
  { exists groups. by rewrite app_nil_r. }
  destruct (Nat.eqb_spec size 0) as [|_]; [lia|].
  destruct (IH (S idx) (alter (λ g, g ++ [a]) (idx mod size)%nat groups)) as (groups' & -> & Hlen' & Hperm).
  { by rewrite length_alter. }
  exists groups'. split; [done|]. split; [done|]. rewrite Hperm.
  rewrite concat_alter by (rewrite Hlen; apply Nat.mod_upper_bound; lia). solve_Permutation.
Qed.

(** The partitions hold every file once; there are as many as asked for, or as
    there are files. Files and no partition panic. *)
Lemma round_robin_files {A} (l : list A) n :
  match round_robin l n with
  | Ok groups => concat groups ≡ₚ l /\ length groups = Nat.min (length l) n
  | Panic => l ≠ [] /\ n = 0%nat
  | _ => False
  end.
Proof.
  unfold round_robin. destruct l as [|a l]; [done|]. destruct n as [|n]; [done|].
  destruct (distribute_run 0 (Nat.min (length (a :: l)) (S n)) (a :: l) (replicate (Nat.min (length (a :: l)) (S n)) []))
    as (groups & -> & Hlen & Hperm); [by rewrite length_replicate|cbn; lia|].
  split; [|done]. rewrite Hperm. by rewrite concat_replicate_nil.
Qed.

(** ** Evaluations *)

Module Evaluation.
Definition bucket (p : string) : string := "s3://bucket/" +:+ p.
Definition parse (p : string) : option string := if Nat.eqb (String.length p) 1 then Some p else None.
Definition no_faults : Faults := mkFaults (λ _, false) Commits.
Definition file (n : string) : Listed := mkListed n (Some ([], mkObjectMeta n 0 0)).
Definition registered : Store := (register_new_table_revision bucket no_faults "edge" "eth" "h1" "blocks" "a" no_tables).2.

Lemma registered_table_reachable : rtc (revisions_step bucket parse) no_tables registered.
Proof. apply rtc_once. by apply step_new. Qed.

(** A revision belongs to a dataset name: restoring the tables of another
    version, even one of another namespace, takes the active revision of the
    version that wrote it. *)
Example restore_takes_revision :
  let s := (restore_latest_revision bucket parse no_faults "core" "eth" "h2" "blocks" (Some ["a"]) (λ _, Some []) registered).2 in
  (get_active "h1" "blocks" registered).1 = Ok (Some (1, "s3://bucket/eth/blocks/a/"))
  /\ (get_active "h1" "blocks" s).1 = Ok None
  /\ (get_active "h2" "blocks" s).1 = Ok (Some (1, "s3://bucket/eth/blocks/a/")).
Proof. by vm_compute. Qed.

(** A file that cannot be read leaves the restored revision active, with the
    files up to it. *)
Example restore_interrupted :
  let '(r, s) := restore_latest_revision bucket parse no_faults "edge" "eth" "h1" "blocks" (Some ["b"])
                   (λ _, Some [file "2"; mkListed "1" None; file "0"]) registered in
  r = Err (RestoreLatest ReadParquetMetadata)
  /\ (get_active "h1" "blocks" s).1 = Ok (Some (2, "s3://bucket/eth/blocks/b/"))
  /\ file_name <$> (map_to_list (files (file_db s))).*2 = ["0"].
Proof. by vm_compute. Qed.

(** The earliest block depends on the order of the tables when one of them has
    no synced range. *)
Example earliest_block_depends_on_order :
  let synced := [mkSegment 1 (mkBlockRange (mkRange 5 9) "mainnet" 0 None) (mkObjectMeta "" 0 0)] in
  earliest_block [[]; synced] = Some 5 /\ earliest_block [synced; []] = None.
Proof. done. Qed.

Lemma bucket_inj a b : bucket a = bucket b → a = b.
Proof. unfold bucket. intros H. by injection H. Qed.

Lemma active_revision_unique_witness :
  (get_active "h1" "blocks" registered).1 = Ok (Some (1, "s3://bucket/eth/blocks/a/")).
Proof.
  destruct (active_revision_unique bucket parse registered registered_table_reachable) as [H _].
  destruct (H 1 _ ltac:(vm_compute; reflexivity)) as (_ & Ha & _). exact (Ha eq_refl).
Defined.

Lemma registered_row i r : tables registered !! i = Some r → url r = "s3://bucket/eth/blocks/a/".
Proof.
  change (tables registered) with (<[1 := mkTableRow "h1" "edge" "eth" "blocks" "s3://bucket/eth/blocks/a/" true None]> (∅ : gmap Z PhysicalTable)).
  by intros [[_ <-]|[_ Hi]]%lookup_insert_Some.
Qed.

Lemma new_revision_atomic_witness :
  ∃ s, register_new_table_revision bucket no_faults "edge" "eth" "h1" "blocks" "b" registered = (Ok 2, s).
Proof.
  pose proof (new_revision_atomic bucket no_faults "edge" "eth" "h1" "blocks" "b" registered) as H.
  destruct (register_new_table_revision _ _ _ _ _ _ _ _) as [r s]. exists s. f_equal. apply H; [|by split].
  intros i q Hi. by rewrite (registered_row i q Hi).
Defined.

Lemma restore_latest_correct_witness :
  let s := (restore_latest_revision bucket parse no_faults "edge" "eth" "h1" "blocks" (Some ["b"; "a"; "tmp"])
              (λ _, Some [file "1"; file "0"]) registered).2 in
  (get_active "h1" "blocks" s).1 = Ok (Some (2, "s3://bucket/eth/blocks/b/")).
Proof.
  assert (store_ok (file_db registered)) as Hok.
  { split; cbn; try (by intros); by intros i [? Hi]. }
  pose proof (restore_latest_correct bucket parse bucket_inj no_faults "edge" "eth" "h1" "blocks" ["b"; "a"; "tmp"]
    (λ _, Some [file "1"; file "0"]) registered registered_table_reachable Hok eq_refl eq_refl ltac:(by split)) as H.
  destruct (restore_latest_revision _ _ _ _ _ _ _ _ _ _) as [r s] eqn:E. destruct H as [_ H].
  destruct (H "b" [file "1"; file "0"]) as (i & -> & Ha & _).
  - split; [exists "b"; split; [by left|done]|]. intros p q Hp. unfold parse.
    repeat (apply elem_of_cons in Hp as [->|Hp]; [by intros [= <-]|]). by apply elem_of_nil in Hp.
  - done.
  - repeat (apply list.Forall_cons; split; [eexists _, _; split; [reflexivity|constructor]|]). constructor.
  - intros i q Hi Hu. by rewrite (registered_row i q Hi) in Hu.
  - cbn [snd]. rewrite Ha. vm_compute in E. by injection E as <- _.
Defined.
End Evaluation.
