(* ===== verification/Plan.v ===== *)
(** * Plan

    Logical query plans as the visitors of the program see them
    (core/common/src/plan_visitors.rs and incrementalizer.rs), and what they
    compute. The nodes are those of DataFusion; expressions other than columns,
    aliases and the two the program builds, predicates, unnesting and the
    operators that a streaming query may not contain are parameters of the
    semantics. Rows are positional and come with the highest block of the table
    rows they derive from. *)

From stdpp Require Import base numbers strings option list sets sorting.
From Stdlib Require Import ZArith Lia.
From S2P Require Import Prelude.

(** ** Columns and expressions *)

Record Column := mkColumn { relation : option string; col_name : string }.

#[global] Instance Column_eq_dec : EqDecision Column.
Proof. solve_decision. Defined.

Inductive Value := Null | UInt64 (n : Z) | OtherValue (v : string).

(** The expressions the visitors look into; any other one is its text. *)
Inductive Expr :=
  | EColumn (c : Column)
  | ELit (n : Z)
  | EGreatest (a b : Expr)
  | EAlias (e : Expr) (name : string)
  | EOther (text : string).

#[global] Instance Expr_eq_dec : EqDecision Expr.
Proof. solve_decision. Defined.

Definition SPECIAL_BLOCK_NUM : string := "_block_num".

Definition col (name : string) : Expr := EColumn (mkColumn None name).

(** [physical_name] *)
Definition physical_name (e : Expr) : string :=
  match e with
  | EColumn c => col_name c
  | EAlias _ name => name
  | ELit _ => "literal"
  | EGreatest _ _ => "greatest"
  | EOther text => text
  end.

(** The output column of a projected expression. *)
Definition expr_column (e : Expr) : Column :=
  match e with EColumn c => c | _ => mkColumn None (physical_name e) end.

(** ** Plans *)

Inductive JoinType :=
  | Inner | LeftSemi | RightSemi | LeftOuter | RightOuter | FullOuter
  | LeftAnti | RightAnti | LeftMark | RightMark.

#[global] Instance JoinType_eq_dec : EqDecision JoinType.
Proof. solve_decision. Defined.

Inductive NonIncrementalOp :=
  | Limit | Aggregate | Distinct | JoinOp (ty : JoinType) | Sort | Window | RecursiveQuery.

(** What a scan reads from: a snapshot of a physical table, another provider of
    a base table, or something that is not a base table. *)
Inductive ScanKind := SnapshotTable | OtherProvider | NotBase.

(** A predicate pushed into a scan. *)
Inductive Predicate :=
  | BlockBetween (a b : Z)
  | BlockBelow (a : Z)
  | OtherPredicate (text : string).

Record TableScan := mkScan {
  scan_table : string;
  scan_schema : list Column;
  scan_projection : option (list nat);
  scan_filters : list Predicate;
  scan_kind : ScanKind
}.

(** The pass-through operators change neither rows nor columns. [Meta] stands for
    [Explain], [Analyze] and [DescribeTable], [Batch] for the operators that need
    all the rows, [Invalid] for statements that are not queries. *)
Inductive LogicalPlan :=
  | Scan (s : TableScan)
  | Values (schema : list Column) (rows : list (list Value))
  | EmptyRelation (produce_one_row : bool) (schema : list Column)
  | Projection (exprs : list Expr) (input : LogicalPlan)
  | Filter (predicate : string) (input : LogicalPlan)
  | Union (inputs : list LogicalPlan)
  | Unnest (text : string) (schema : list Column) (input : LogicalPlan)
  | SubqueryAlias (alias : string) (input : LogicalPlan)
  | PassThrough (input : LogicalPlan)
  | Meta (text : string) (schema : list Column) (inputs : list LogicalPlan)
  | Join (ty : JoinType) (on : string) (l r : LogicalPlan)
  | Batch (op : NonIncrementalOp) (text : string) (input : LogicalPlan)
  | Invalid (text : string).

(** Induction with the inputs of a union. *)
Lemma plan_ind (P : LogicalPlan → Prop) :
  (∀ s, P (Scan s)) → (∀ sch rows, P (Values sch rows)) → (∀ one sch, P (EmptyRelation one sch)) →
  (∀ es p, P p → P (Projection es p)) → (∀ t p, P p → P (Filter t p)) →
  (∀ ps, Forall P ps → P (Union ps)) → (∀ t sch p, P p → P (Unnest t sch p)) →
  (∀ a p, P p → P (SubqueryAlias a p)) → (∀ p, P p → P (PassThrough p)) →
  (∀ t sch ps, Forall P ps → P (Meta t sch ps)) → (∀ ty on l r, P l → P r → P (Join ty on l r)) →
  (∀ op t p, P p → P (Batch op t p)) → (∀ t, P (Invalid t)) → ∀ p, P p.
Proof.
  intros Hscan Hval Hemp Hproj Hfil Huni Hunn Hali Hpas Hmet Hjoi Hbat Hinv.
  fix IH 1. intros [s|sch rows|one sch|es p|t p|ps|t sch p|a p|p|t sch ps|ty on l r|op t p|t].
  - apply Hscan.
  - apply Hval.
  - apply Hemp.
  - apply Hproj, IH.
  - apply Hfil, IH.
  - apply Huni. induction ps as [|p ps IHps]; constructor; [apply IH|exact IHps].
  - apply Hunn, IH.
  - apply Hali, IH.
  - apply Hpas, IH.
  - apply Hmet. induction ps as [|p ps IHps]; constructor; [apply IH|exact IHps].
  - apply Hjoi; apply IH.
  - apply Hbat, IH.
  - apply Hinv.
Qed.

(** ** Schemas *)

Definition pick {A} (projection : option (list nat)) (l : list A) : list A :=
  match projection with None => l | Some idx => omap (λ i, l !! i) idx end.

Fixpoint schema_of (p : LogicalPlan) : list Column :=
  match p with
  | Scan s => pick (scan_projection s) (scan_schema s)
  | Values schema _ | EmptyRelation _ schema | Unnest _ schema _ | Meta _ schema _ => schema
  | Projection exprs _ => expr_column <$> exprs
  | Filter _ input | PassThrough input | Batch _ _ input => schema_of input
  | Union inputs => match inputs with [] => [] | p :: _ => schema_of p end
  | SubqueryAlias alias input => (λ c, mkColumn (Some alias) (col_name c)) <$> schema_of input
  | Join ty _ l r =>
      match ty with
      | LeftSemi | LeftAnti | LeftMark => schema_of l
      | RightSemi | RightAnti | RightMark => schema_of r
      | _ => schema_of l ++ schema_of r
      end
  | Invalid _ => []
  end.

(** ** Evaluation *)

(** The position of a column: by its qualified name, or by its name alone if it
    is the only one of that name. *)
Definition resolve (schema : list Column) (c : Column) : option nat :=
  match relation c with
  | Some _ => position (λ d, bool_decide (d = c)) schema
  | None =>
      match filter (λ d, col_name d = col_name c) schema with
      | [_] => position (λ d, bool_decide (col_name d = col_name c)) schema
      | _ => None
      end
  end.

Definition get (schema : list Column) (row : list Value) (c : Column) : Value :=
  match resolve schema c with Some i => default Null (row !! i) | None => Null end.

Section Semantics.
Context (expr_sem : string → list Column → list Value → Value).
Context (pred_sem : string → list Column → list Value → bool).
Context (unnest_sem : string → list Value → list (list Value)).
Context (batch_sem : string → list (list (list Value)) → list (list Value)).

Fixpoint eval_expr (schema : list Column) (row : list Value) (e : Expr) : Value :=
  match e with
  | EColumn c => get schema row c
  | ELit n => UInt64 n
  | EGreatest a b =>
      match eval_expr schema row a, eval_expr schema row b with
      | UInt64 x, UInt64 y => UInt64 (Z.max x y)
      | _, _ => Null
      end
  | EAlias e _ => eval_expr schema row e
  | EOther text => expr_sem text schema row
  end.

(** The rows of a table come with the number of their block. *)
Definition block_num (schema : list Column) (row : list Value) : option Z :=
  match get schema row (mkColumn None SPECIAL_BLOCK_NUM) with UInt64 n => Some n | _ => None end.

Definition eval_predicate (schema : list Column) (row : list Value) (p : Predicate) : bool :=
  match p, block_num schema row with
  | BlockBetween a b, Some n => (a <=? n) && (n <=? b)
  | BlockBelow a, Some n => n <? a
  | OtherPredicate text, _ => pred_sem text schema row
  | _, None => false
  end.

(** The rows of both sides that join, with the later of their blocks. *)
Definition join_rows (on : string) (schema : list Column) (ls rs : list (Z * list Value)) : list (Z * list Value) :=
  l ← ls; r ← rs; if pred_sem on schema (l.2 ++ r.2) then [(Z.max l.1 r.1, l.2 ++ r.2)] else [].

Fixpoint eval (db : string → list (Z * list Value)) (p : LogicalPlan) : list (Z * list Value) :=
  match p with
  | Scan s =>
      (λ r, (r.1, pick (scan_projection s) r.2)) <$>
        filter (λ r, forallb (eval_predicate (scan_schema s) r.2) (scan_filters s) = true) (db (scan_table s))
  | Values _ rows => pair 0 <$> rows
  | EmptyRelation produce_one_row schema => if produce_one_row then [(0, replicate (length schema) Null)] else []
  | Projection exprs input =>
      (λ r, (r.1, eval_expr (schema_of input) r.2 <$> exprs)) <$> eval db input
  | Filter predicate input => filter (λ r, pred_sem predicate (schema_of input) r.2 = true) (eval db input)
  | Union inputs => inputs ≫= eval db
  | Unnest text _ input => r ← eval db input; pair r.1 <$> unnest_sem text r.2
  | SubqueryAlias _ input | PassThrough input => eval db input
  | Meta text _ inputs => pair 0 <$> batch_sem text ((λ p, (eval db p).*2) <$> inputs)
  | Join ty on lp rp =>
      let schema := schema_of lp ++ schema_of rp in
      let ls := eval db lp in
      let rs := eval db rp in
      match ty with
      | Inner => join_rows on schema ls rs
      | LeftSemi => filter (λ l, existsb (λ r, pred_sem on schema (l.2 ++ r.2)) rs = true) ls
      | RightSemi => filter (λ r, existsb (λ l, pred_sem on schema (l.2 ++ r.2)) ls = true) rs
      | _ => pair 0 <$> batch_sem on [ls.*2; rs.*2]
      end
  | Batch _ text input => pair 0 <$> batch_sem text [(eval db input).*2]
  | Invalid _ => []
  end.
End Semantics.
