(* ===== verification/Incrementalize.v ===== *)
(** * Incrementalize

    The rewriting of a streaming query into the query of one microbatch
    (core/common/src/incrementalizer.rs), and the equivalence behind it: what a
    plan yields over the blocks up to the end of a microbatch is what it yields
    over the blocks before it together with what the rewritten plan yields. *)

From stdpp Require Import base numbers strings option list sets sorting.
From Stdlib Require Import ZArith Lia.
From S2P Require Import Prelude Plan.

Inductive RelationRange := Delta | History.

#[global] Instance RelationRange_eq_dec : EqDecision RelationRange.
Proof. solve_decision. Defined.

Inductive NonIncrementalError := InvalidOp (text : string) | NonIncremental (op : NonIncrementalOp).

Inductive IncrementalOpKind := Linear | InnerJoin | Table.

Inductive RewriteError :=
  | NotIncremental (e : NonIncrementalError)
  | StackedJoins
  | UnsupportedProvider
  | NonBaseTable.

Definition incremental_op_kind (node : LogicalPlan) : comp NonIncrementalError IncrementalOpKind :=
  match node with
  | Invalid text => Err (InvalidOp text)
  | Projection _ _ | Filter _ _ | Union _ | Unnest _ _ _ | SubqueryAlias _ _ | PassThrough _ | Meta _ _ _ => Ok Linear
  | Scan _ | Values _ _ | EmptyRelation _ _ => Ok Table
  | Join ty _ _ _ =>
      match ty with
      | Inner | LeftSemi | RightSemi => Ok InnerJoin
      | _ => Err (NonIncremental (JoinOp ty))
      end
  | Batch op _ _ => Err (NonIncremental op)
  end.

(** [plan.exists(...)] over the nodes, parents first: the first error. *)
Fixpoint first_error (p : LogicalPlan) : option NonIncrementalError :=
  match incremental_op_kind p with
  | Err e => Some e
  | _ =>
      match p with
      | Projection _ q | Filter _ q | Unnest _ _ q | SubqueryAlias _ q | PassThrough q | Batch _ _ q => first_error q
      | Union qs | Meta _ _ qs =>
          foldr (λ q found, match first_error q with Some e => Some e | None => found end) None qs
      | Join _ _ l r => match first_error l with Some e => Some e | None => first_error r end
      | _ => None
      end
  end.

Definition is_incremental (p : LogicalPlan) : comp NonIncrementalError unit :=
  match first_error p with Some e => Err e | None => Ok tt end.

(** [start <= _block_num and _block_num <= end], or [_block_num < start] *)
Definition constrain_by_range (s : TableScan) (delta_start delta_end : Z) (range : RelationRange)
    : comp RewriteError TableScan :=
  match scan_kind s with
  | NotBase => Err NonBaseTable
  | _ =>
      let predicate := match range with
                       | Delta => BlockBetween delta_start delta_end
                       | History => BlockBelow delta_start
                       end in
      Ok (mkScan (scan_table s) (scan_schema s) (scan_projection s) (scan_filters s ++ [predicate]) (scan_kind s))
  end.

Definition validate_table_provider (s : TableScan) : comp RewriteError unit :=
  match scan_kind s with SnapshotTable => Ok tt | _ => Err UnsupportedProvider end.

Section Rewriter.
Context (b_start b_end : Z).

(** The rewriter, top down: scans and constants are restricted to the range, a
    join becomes the union of the three joins of the update rule, and the other
    incremental operators are kept over their rewritten inputs. *)
Fixpoint rewrite (range : RelationRange) (p : LogicalPlan) : comp RewriteError LogicalPlan :=
  match incremental_op_kind p with
  | Err e => Err (NotIncremental e)
  | Panic => Panic
  | OutOfFuel => OutOfFuel
  | Ok _ =>
      match p with
      | Scan s =>
          _ ← validate_table_provider s;
          s' ← constrain_by_range s b_start b_end range;
          Ok (Scan s')
      | Values schema rows => Ok match range with History => p | Delta => EmptyRelation false schema end
      | EmptyRelation _ _ => Ok p
      | Join ty on l r =>
          match range with
          | History => Err StackedJoins
          | Delta =>
              delta_left ← rewrite Delta l;
              history_right ← rewrite History r;
              history_left ← rewrite History l;
              delta_right ← rewrite Delta r;
              delta_left2 ← rewrite Delta l;
              delta_right2 ← rewrite Delta r;
              Ok (Union [Join ty on delta_left history_right;
                         Join ty on history_left delta_right;
                         Join ty on delta_left2 delta_right2])
          end
      | Projection es q => q' ← rewrite range q; Ok (Projection es q')
      | Filter t q => q' ← rewrite range q; Ok (Filter t q')
      | Union qs => qs' ← mapM (rewrite range) qs; Ok (Union qs')
      | Unnest t schema q => q' ← rewrite range q; Ok (Unnest t schema q')
      | SubqueryAlias a q => q' ← rewrite range q; Ok (SubqueryAlias a q')
      | PassThrough q => q' ← rewrite range q; Ok (PassThrough q')
      | Meta t schema qs => qs' ← mapM (rewrite range) qs; Ok (Meta t schema qs')
      | Batch op _ _ => Err (NotIncremental (NonIncremental op))
      | Invalid t => Err (NotIncremental (InvalidOp t))
      end
  end.
End Rewriter.

Definition incrementalize_plan (p : LogicalPlan) (b_start b_end : Z) : comp RewriteError LogicalPlan :=
  rewrite b_start b_end Delta p.

(** ** The plans it can rewrite *)

Fixpoint join_free (p : LogicalPlan) : bool :=
  match p with
  | Join _ _ _ _ => false
  | Projection _ q | Filter _ q | Unnest _ _ q | SubqueryAlias _ q | PassThrough q | Batch _ _ q => join_free q
  | Union qs | Meta _ _ qs => forallb join_free qs
  | _ => true
  end.

(** Incremental operators over snapshots, with no join below another. *)
Fixpoint streamable (p : LogicalPlan) : bool :=
  match p with
  | Scan s => match scan_kind s with SnapshotTable => true | _ => false end
  | Values _ _ | EmptyRelation _ _ => true
  | Projection _ q | Filter _ q | Unnest _ _ q | SubqueryAlias _ q | PassThrough q => streamable q
  | Union qs | Meta _ _ qs => forallb streamable qs
  | Join ty _ l r =>
      match ty with Inner | LeftSemi | RightSemi => true | _ => false end
      && (join_free l && streamable l) && (join_free r && streamable r)
  | Batch _ _ _ | Invalid _ => false
  end.

(** Inner joins and constants with rows of their own only. *)
Fixpoint maintainable (p : LogicalPlan) : bool :=
  match p with
  | EmptyRelation produce_one_row _ => negb produce_one_row
  | Projection _ q | Filter _ q | Unnest _ _ q | SubqueryAlias _ q | PassThrough q | Batch _ _ q => maintainable q
  | Union qs => forallb maintainable qs
  | Meta _ _ _ => false
  | Join ty _ l r => bool_decide (ty = Inner) && maintainable l && maintainable r
  | _ => true
  end.

(** What the rewriter accepts under a range. *)
Definition accepted (range : RelationRange) (p : LogicalPlan) : bool :=
  streamable p && match range with History => join_free p | Delta => true end.

Lemma accepted_mono range p : accepted History p = true → accepted range p = true.
Proof. unfold accepted. destruct range; [|done]. rewrite !andb_true_iff. tauto. Qed.

Lemma bind_Ok_one {E A B} (m : comp E A) (f : A → B) : (∃ b, (x ← m; Ok (E := E) (f x)) = Ok b) ↔ ∃ a, m = Ok a.
Proof. rewrite bind_Ok_iff. naive_solver. Qed.

Lemma forallb_accepted range ps :
  Forall (λ p, accepted range p = true) ps ↔
  forallb streamable ps = true /\ match range with History => forallb join_free ps | Delta => true end = true.
Proof.
  unfold accepted. induction ps as [|p ps IH]; [by destruct range|].
  rewrite list.Forall_cons, IH. cbn. destruct range; rewrite ?andb_true_iff; tauto.
Qed.

Section Accepts.
Context (b_start b_end : Z).

Lemma rewrite_inputs range ps :
  Forall (λ p, ∀ range, (∃ p', rewrite b_start b_end range p = Ok p') ↔ accepted range p = true) ps →
  (∃ ps', mapM (rewrite b_start b_end range) ps = Ok ps') ↔ Forall (λ p, accepted range p = true) ps.
Proof.
  intros H. rewrite mapM_Ok_iff. rewrite !list.Forall_forall. rewrite Forall_forall in H.
  split; intros Hall p Hp; by apply H, Hall.
Qed.

Lemma rewrite_accepts p : ∀ range, (∃ p', rewrite b_start b_end range p = Ok p') ↔ accepted range p = true.
Proof.
  induction p as [s|sch rows|one sch|es p IH|t p IH|ps IH|t sch p IH|a p IH|p IH|t sch ps IH|ty on l r IHl IHr|op t p IH|t]
    using plan_ind; intros range; unfold accepted; cbn [streamable join_free rewrite incremental_op_kind].
  - destruct (scan_kind s) eqn:E; unfold validate_table_provider, constrain_by_range; rewrite E; cbn;
      destruct range; naive_solver.
  - destruct range; naive_solver.
  - destruct range; naive_solver.
  - rewrite bind_Ok_one. apply IH.
  - rewrite bind_Ok_one. apply IH.
  - rewrite bind_Ok_one, rewrite_inputs by done. rewrite forallb_accepted, andb_true_iff. done.
  - rewrite bind_Ok_one. apply IH.
  - rewrite bind_Ok_one. apply IH.
  - rewrite bind_Ok_one. apply IH.
  - rewrite bind_Ok_one, rewrite_inputs by done. rewrite forallb_accepted, andb_true_iff. done.
  - assert (∀ q, accepted Delta q = true ↔ streamable q = true) as Hd
      by (intros q; unfold accepted; by rewrite andb_true_r).
    assert (∀ q, accepted History q = true ↔ streamable q = true /\ join_free q = true) as Hh
      by (intros q; unfold accepted; by rewrite andb_true_iff).
    destruct ty; try (split; [by intros [? ?]|done]); cbn [andb].
    all: destruct range; [|split; [by intros [? ?]|by rewrite andb_false_r]].
    all: rewrite andb_true_r, !andb_true_iff; repeat setoid_rewrite bind_Ok_iff.
    all: split.
    all: try (intros (dl & Hdl & hr & Hhr & hl & Hhl & _); split;
      [apply and_comm, Hh, IHl; by eexists|apply and_comm, Hh, IHr; by eexists]).
    all: intros [[Hjl Hsl] [Hjr Hsr]].
    all: destruct (proj2 (IHl Delta) (proj2 (Hd l) Hsl)) as [dl Hdl], (proj2 (IHr Delta) (proj2 (Hd r) Hsr)) as [dr Hdr].
    all: destruct (proj2 (IHl History) (proj2 (Hh l) (conj Hsl Hjl))) as [hl Hhl],
                  (proj2 (IHr History) (proj2 (Hh r) (conj Hsr Hjr))) as [hr Hhr].
    all: rewrite Hdl, Hdr, Hhl, Hhr; repeat (eexists; split; [done|]); by eexists.
  - destruct range; split; by try intros [? ?].
  - destruct range; split; by try intros [? ?].
Qed.
End Accepts.

(** ** Bags *)

Lemma perm_swap_app {A} (a b c d : list A) : (a ++ b) ++ (c ++ d) ≡ₚ (a ++ c) ++ (b ++ d).
Proof. rewrite <- !(assoc_L (++)). apply Permutation_app_head. rewrite !(assoc_L (++)). by rewrite (Permutation_app_comm b c). Qed.

Lemma bind_app_perm {A B} (f g : A → list B) l : (x ← l; f x ++ g x) ≡ₚ (l ≫= f) ++ (l ≫= g).
Proof. induction l as [|x l IH]; [done|]. cbn. rewrite IH. apply perm_swap_app. Qed.

(** A filter is split by two exclusive conditions that exhaust it. *)
Lemma filter_split_perm {A} (P Q R : A → Prop) `{∀ x, Decision (P x), ∀ x, Decision (Q x), ∀ x, Decision (R x)} l :
  (∀ x, x ∈ l → (R x ↔ P x \/ Q x) /\ ~ (P x /\ Q x)) → filter P l ++ filter Q l ≡ₚ filter R l.
Proof.
  induction l as [|x l IH]; intros Hl; [done|].
  destruct (Hl x) as [Hr Hx]; [by left|]. specialize (IH ltac:(intros y Hy; apply Hl; by right)).
  rewrite !filter_cons. destruct (decide (P x)), (decide (Q x)), (decide (R x)); try tauto.
  - cbn. by rewrite IH.
  - rewrite <- Permutation_middle. by rewrite IH.
Qed.

Section JoinBags.
Context (pred_sem : string → list Column → list Value → bool) (on : string) (schema : list Column).
Implicit Types ls rs : list (Z * list Value).

Lemma join_rows_app_l ls ls' rs :
  join_rows pred_sem on schema (ls ++ ls') rs = join_rows pred_sem on schema ls rs ++ join_rows pred_sem on schema ls' rs.
Proof. apply bind_app. Qed.

Lemma join_rows_app_r ls rs rs' :
  join_rows pred_sem on schema ls (rs ++ rs') ≡ₚ
  join_rows pred_sem on schema ls rs ++ join_rows pred_sem on schema ls rs'.
Proof.
  unfold join_rows. rewrite <- bind_app_perm. apply reflexive_eq, list_bind_ext; [|done].
  intros l. apply bind_app.
Qed.

#[global] Instance join_rows_perm : Proper ((≡ₚ) ==> (≡ₚ) ==> (≡ₚ)) (join_rows pred_sem on schema).
Proof.
  intros ls ls' Hl rs rs' Hr. unfold join_rows. rewrite Hl. clear Hl ls.
  induction ls' as [|l ls IH]; [done|]. cbn. by rewrite Hr, IH.
Qed.

(** The update rule of an inner join. *)
Lemma join_update dl hl dr hr :
  (join_rows pred_sem on schema dl hr ++ join_rows pred_sem on schema hl dr ++ join_rows pred_sem on schema dl dr)
    ++ join_rows pred_sem on schema hl hr
  ≡ₚ join_rows pred_sem on schema (dl ++ hl) (dr ++ hr).
Proof.
  rewrite join_rows_app_l, !join_rows_app_r. set (a := join_rows _ _ _ dl hr). set (b := join_rows _ _ _ hl dr).
  set (c := join_rows _ _ _ dl dr). set (d := join_rows _ _ _ hl hr).
  rewrite (Permutation_app_comm c a), <- !(assoc_L (++)). apply Permutation_app_head.
  rewrite !(assoc_L (++)). by rewrite (Permutation_app_comm b c).
Qed.
End JoinBags.

(** ** Histories and deltas *)

(** The rows of the blocks before [n]. *)
Definition below (n : Z) (db : string → list (Z * list Value)) : string → list (Z * list Value) :=
  λ t, filter (λ r, r.1 < n) (db t).

(** Every scan reads rows whose block number column holds their block. *)
Fixpoint scans_wf (db : string → list (Z * list Value)) (p : LogicalPlan) : Prop :=
  match p with
  | Scan s => ∀ r, r ∈ db (scan_table s) → block_num (scan_schema s) r.2 = Some r.1
  | Projection _ q | Filter _ q | Unnest _ _ q | SubqueryAlias _ q | PassThrough q | Batch _ _ q => scans_wf db q
  | Union qs | Meta _ _ qs => foldr (λ q P, scans_wf db q /\ P) True qs
  | Join _ _ l r => scans_wf db l /\ scans_wf db r
  | _ => True
  end.

Lemma scans_wf_list db qs : foldr (λ q P, scans_wf db q /\ P) True qs ↔ Forall (scans_wf db) qs.
Proof. induction qs as [|q qs IH]; cbn; [split; [by constructor|done]|]. by rewrite list.Forall_cons, IH. Qed.

Lemma rewrite_Ok_inv {A B} (m : comp RewriteError A) (f : A → B) b :
  (x ← m; Ok (f x)) = Ok b → ∃ a, m = Ok a /\ b = f a.
Proof. destruct m; cbn; naive_solver. Qed.

Section Maintenance.
Context (expr_sem : string → list Column → list Value → Value).
Context (pred_sem : string → list Column → list Value → bool).
Context (unnest_sem : string → list Value → list (list Value)).
Context (batch_sem : string → list (list (list Value)) → list (list Value)).
Context (b_start b_end : Z).
Implicit Types db : string → list (Z * list Value).

Notation eval := (eval expr_sem pred_sem unnest_sem batch_sem).
Notation rewrite_plan := (rewrite b_start b_end).

Lemma eval_between schema (r : Z * list Value) a b :
  block_num schema r.2 = Some r.1 → eval_predicate pred_sem schema r.2 (BlockBetween a b) = true ↔ a <= r.1 <= b.
Proof. intros H. unfold eval_predicate. by rewrite H, andb_true_iff, !Z.leb_le. Qed.

Lemma eval_below schema (r : Z * list Value) a :
  block_num schema r.2 = Some r.1 → eval_predicate pred_sem schema r.2 (BlockBelow a) = true ↔ r.1 < a.
Proof. intros H. unfold eval_predicate. by rewrite H, Z.ltb_lt. Qed.

Lemma scan_history db s p' :
  scans_wf db (Scan s) → rewrite_plan History (Scan s) = Ok p' →
  schema_of p' = schema_of (Scan s) /\ eval db p' = eval (below b_start db) (Scan s).
Proof.
  intros Hwf. cbn. unfold validate_table_provider, constrain_by_range.
  destruct (scan_kind s); cbn; try done. intros [= <-]. cbn. split; [done|]. f_equal.
  unfold below. rewrite list_filter_filter. apply list_filter_iff_in. intros r Hr.
  rewrite forallb_app. cbn [forallb]. rewrite andb_true_r, andb_true_iff.
  by rewrite (eval_below _ _ _ (Hwf r Hr)).
Qed.

Lemma scan_delta db s p' :
  b_start <= b_end + 1 → scans_wf db (Scan s) → rewrite_plan Delta (Scan s) = Ok p' →
  schema_of p' = schema_of (Scan s) /\
  eval db p' ++ eval (below b_start db) (Scan s) ≡ₚ eval (below (b_end + 1) db) (Scan s).
Proof.
  intros Hle Hwf. cbn. unfold validate_table_provider, constrain_by_range.
  destruct (scan_kind s); cbn; try done. intros [= <-]. cbn. split; [done|].
  rewrite <- fmap_app. apply fmap_Permutation. unfold below. rewrite !list_filter_filter.
  apply filter_split_perm. intros r Hr. rewrite forallb_app. cbn [forallb].
  rewrite andb_true_r, andb_true_iff, (eval_between _ _ _ _ (Hwf r Hr)).
  split; [|lia]. destruct (decide (r.1 < b_start)); split; [intros [? ?]; right; split; [done|lia]|intros [[? ?]|[? ?]]; split; [done|lia|done|lia]|
    intros [? ?]; left; split; [done|lia]|intros [[? ?]|[? ?]]; split; [done|lia|done|lia]].
Qed.

(** A plan without joins restricted to the history. *)
Lemma rewrite_history db p p' :
  scans_wf db p → rewrite_plan History p = Ok p' →
  schema_of p' = schema_of p /\ eval db p' = eval (below b_start db) p.
Proof.
  revert p'. induction p as [s|sch rows|one sch|es p IH|t p IH|ps IH|t sch p IH|a p IH|p IH|t sch ps IH|ty on l r IHl IHr|op t p IH|t]
    using plan_ind; intros p' Hwf.
  - by apply scan_history.
  - cbn. by intros [= <-].
  - cbn. by intros [= <-].
  - intros (q & Hq & ->)%rewrite_Ok_inv. destruct (IH q Hwf Hq) as [Hs He]. cbn. by rewrite Hs, He.
  - intros (q & Hq & ->)%rewrite_Ok_inv. destruct (IH q Hwf Hq) as [Hs He]. cbn. by rewrite Hs, He.
  - intros (qs & Hqs%mapM_Ok_Forall2 & ->)%rewrite_Ok_inv. cbn in Hwf. apply scans_wf_list in Hwf. cbn.
    assert (Forall2 (λ p q, schema_of q = schema_of p /\ eval db q = eval (below b_start db) p) ps qs) as H2.
    { clear -IH Hqs Hwf. induction Hqs as [|p q ps qs Hq _ IHqs]; [done|].
      apply list.Forall_cons in IH as [IHp IH], Hwf as [Hp Hwf]. constructor; [by apply IHp|by apply IHqs]. }
    clear -H2. split; [destruct H2 as [|p q ps qs [? _]]; done|].
    induction H2 as [|p q ps qs [_ He] _ IH]; [done|]. cbn. by rewrite He, IH.
  - intros (q & Hq & ->)%rewrite_Ok_inv. destruct (IH q Hwf Hq) as [Hs He]. cbn. by rewrite He.
  - intros (q & Hq & ->)%rewrite_Ok_inv. destruct (IH q Hwf Hq) as [Hs He]. cbn. by rewrite Hs, He.
  - intros (q & Hq & ->)%rewrite_Ok_inv. destruct (IH q Hwf Hq) as [Hs He]. cbn. by rewrite He.
  - intros (qs & Hqs%mapM_Ok_Forall2 & ->)%rewrite_Ok_inv. cbn in Hwf. apply scans_wf_list in Hwf. cbn.
    split; [done|]. do 2 f_equal. clear -IH Hqs Hwf. induction Hqs as [|p q ps qs Hq _ IHqs]; [done|].
    apply list.Forall_cons in IH as [IHp IH], Hwf as [Hp Hwf]. cbn. f_equal; [|by apply IHqs].
    f_equal. by apply IHp.
  - cbn. by destruct ty.
  - done.
  - done.
Qed.

Lemma filter_app_perm {A} (P : A → Prop) `{∀ x, Decision (P x)} a b c :
  a ++ b ≡ₚ c → filter P a ++ filter P b ≡ₚ filter P c.
Proof. intros <-. by rewrite filter_app. Qed.

Lemma rewrite_inputs_delta db ps qs :
  Forall (λ p, ∀ p', scans_wf db p → maintainable p = true → rewrite_plan Delta p = Ok p' →
    schema_of p' = schema_of p /\
    eval db p' ++ eval (below b_start db) p ≡ₚ eval (below (b_end + 1) db) p) ps →
  Forall (scans_wf db) ps → forallb maintainable ps = true → Forall2 (λ p q, rewrite_plan Delta p = Ok q) ps qs →
  schema_of (Union qs) = schema_of (Union ps) /\
  eval db (Union qs) ++ eval (below b_start db) (Union ps) ≡ₚ eval (below (b_end + 1) db) (Union ps).
Proof.
  intros IH Hwf Hm Hqs. induction Hqs as [|p q ps qs Hq _ IHqs]; [done|].
  apply list.Forall_cons in IH as [IHp IH], Hwf as [Hp Hwf]. cbn in Hm. apply andb_true_iff in Hm as [Hmp Hm].
  destruct (IHp q Hp Hmp Hq) as [Hs He]. destruct (IHqs IH Hwf Hm) as [_ Hes]. cbn in *.
  split; [done|]. by rewrite perm_swap_app, He, Hes.
Qed.

Lemma join_delta db on l r l1 r1 l0 r0 :
  schema_of l1 = schema_of l → schema_of r1 = schema_of r → schema_of l0 = schema_of l → schema_of r0 = schema_of r →
  eval db l0 = eval (below b_start db) l → eval db r0 = eval (below b_start db) r →
  eval db l1 ++ eval (below b_start db) l ≡ₚ eval (below (b_end + 1) db) l →
  eval db r1 ++ eval (below b_start db) r ≡ₚ eval (below (b_end + 1) db) r →
  eval db (Union [Join Inner on l1 r0; Join Inner on l0 r1; Join Inner on l1 r1])
    ++ eval (below b_start db) (Join Inner on l r)
  ≡ₚ eval (below (b_end + 1) db) (Join Inner on l r).
Proof.
  intros Hl1 Hr1 Hl0 Hr0 El Er Hl Hr. cbn. rewrite Hl1, Hr1, Hl0, Hr0, El, Er, app_nil_r.
  rewrite join_update. by rewrite Hl, Hr.
Qed.

(** What the rewritten plan adds to the history. *)
Lemma rewrite_delta db p p' :
  b_start <= b_end + 1 → scans_wf db p → maintainable p = true → rewrite_plan Delta p = Ok p' →
  schema_of p' = schema_of p /\
  eval db p' ++ eval (below b_start db) p ≡ₚ eval (below (b_end + 1) db) p.
Proof.
  intros Hle. revert p'. induction p as [s|sch rows|one sch|es p IH|t p IH|ps IH|t sch p IH|a p IH|p IH|t sch ps IH|ty on l r IHl IHr|op t p IH|t]
    using plan_ind; intros p' Hwf Hm.
  - by apply scan_delta.
  - cbn. by intros [= <-].
  - cbn in Hm. destruct one; [done|]. cbn. by intros [= <-].
  - intros (q & Hq & ->)%rewrite_Ok_inv. destruct (IH q Hwf Hm Hq) as [Hs He]. cbn. split; [done|].
    by rewrite Hs, <- fmap_app, He.
  - intros (q & Hq & ->)%rewrite_Ok_inv. destruct (IH q Hwf Hm Hq) as [Hs He]. cbn. split; [done|].
    rewrite Hs. by apply filter_app_perm.
  - intros (qs & Hqs%mapM_Ok_Forall2 & ->)%rewrite_Ok_inv. apply scans_wf_list in Hwf.
    by apply rewrite_inputs_delta.
  - intros (q & Hq & ->)%rewrite_Ok_inv. destruct (IH q Hwf Hm Hq) as [Hs He]. cbn. split; [done|].
    by rewrite <- bind_app, He.
  - intros (q & Hq & ->)%rewrite_Ok_inv. destruct (IH q Hwf Hm Hq) as [Hs He]. cbn. by rewrite Hs.
  - intros (q & Hq & ->)%rewrite_Ok_inv. by destruct (IH q Hwf Hm Hq) as [Hs He].
  - done.
  - cbn in Hm. rewrite !andb_true_iff in Hm. destruct Hm as [[->%bool_decide_eq_true Hml] Hmr], Hwf as [Hwl Hwr].
    cbn [rewrite incremental_op_kind]. destruct (rewrite_plan Delta l) as [l1|e| |] eqn:El1; cbn [mbind comp_bind]; try done.
    destruct (rewrite_plan History r) as [r0|e| |] eqn:Er0; cbn [mbind comp_bind]; try done.
    destruct (rewrite_plan History l) as [l0|e| |] eqn:El0; cbn [mbind comp_bind]; try done.
    destruct (rewrite_plan Delta r) as [r1|e| |] eqn:Er1; cbn [mbind comp_bind]; try done. intros [= <-].
    destruct (IHl l1 Hwl Hml eq_refl) as [Hl1 Hl], (IHr r1 Hwr Hmr eq_refl) as [Hr1 Hr].
    destruct (rewrite_history db l l0 Hwl El0) as [Hl0 Hel], (rewrite_history db r r0 Hwr Er0) as [Hr0 Her].
    split; [cbn; by rewrite Hl1, Hr0|]. by apply join_delta.
  - done.
  - done.
Qed.
End Maintenance.

Section Microbatches.
Context (expr_sem : string → list Column → list Value → Value).
Context (pred_sem : string → list Column → list Value → bool).
Context (unnest_sem : string → list Value → list (list Value)).
Context (batch_sem : string → list (list (list Value)) → list (list Value)).
Implicit Types db : string → list (Z * list Value).

Notation eval := (eval expr_sem pred_sem unnest_sem batch_sem).

Lemma eval_ext db db' p : (∀ t, db t = db' t) → eval db p = eval db' p.
Proof.
  intros Hdb. induction p as [s|sch rows|one sch|es p IH|t p IH|ps IH|t sch p IH|a p IH|p IH|t sch ps IH|ty on l r IHl IHr|op t p IH|t]
    using plan_ind; cbn; rewrite ?Hdb, ?IH, ?IHl, ?IHr; try done.
  - induction IH as [|p ps Hp _ IHps]; [done|]. cbn. by rewrite Hp, IHps.
  - do 2 f_equal. induction IH as [|p ps Hp _ IHps]; [done|]. cbn. by rewrite Hp, IHps.
Qed.

(** One microbatch: its blocks, and the tables at that time. *)
Record Microbatch := mkMicrobatch { mb_start : Z; mb_end : Z; mb_db : string → list (Z * list Value) }.

(** Microbatches one after the other from block [from], over tables that only
    grow by blocks above those processed, towards [db]. *)
Fixpoint contiguous (db : string → list (Z * list Value)) (p : LogicalPlan) (from : Z) (bs : list Microbatch) : Prop :=
  match bs with
  | [] => True
  | b :: bs =>
      mb_start b = from /\ mb_start b <= mb_end b /\ scans_wf (mb_db b) p
      /\ (∀ t, below (mb_end b + 1) (mb_db b) t = below (mb_end b + 1) db t)
      /\ contiguous db p (mb_end b + 1) bs
  end.

Definition next_block (from : Z) (bs : list Microbatch) : Z :=
  match bs with [] => from | _ => mb_end (List.last bs (mkMicrobatch 0 0 (λ _, []))) + 1 end.

(** What the rewritten query yields in a microbatch. *)
Definition microbatch_output (p : LogicalPlan) (b : Microbatch) (out : list (Z * list Value)) : Prop :=
  ∃ p', incrementalize_plan p (mb_start b) (mb_end b) = Ok p' /\ out = eval (mb_db b) p'.

Lemma below_below m n db t : m <= n → below m (below n db) t = below m db t.
Proof.
  intros Hle. unfold below. rewrite list_filter_filter. apply list_filter_iff. intros r. lia.
Qed.

Lemma next_block_cons from b bs : next_block from (b :: bs) = next_block (mb_end b + 1) bs.
Proof. destruct bs as [|b' bs]; [done|]. done. Qed.

(** C15: incremental maintenance. For a streamable plan of inner joins and
    row-by-row operators, the rewritten query of every microbatch exists, and
    over any sequence of contiguous microbatches, each run against the tables
    as they are at the time, the rows of the microbatches together with the
    rows of the query over the earlier blocks are, as a bag, the rows of the
    query over all the blocks so far: nothing is lost or repeated. *)
Theorem incremental_maintenance db p from bs :
  streamable p = true → maintainable p = true → contiguous db p from bs →
  ∃ outs, Forall2 (microbatch_output p) bs outs
    /\ concat outs ++ eval (below from db) p ≡ₚ eval (below (next_block from bs) db) p.
Proof.
  intros Hs Hm. revert from. induction bs as [|b bs IH]; intros from Hc; [by exists []|].
  destruct Hc as (Hfrom & Hle & Hwf & Hagree & Hc).
  destruct (proj2 (rewrite_accepts (mb_start b) (mb_end b) p Delta)) as [p' Hp']; [by unfold accepted; rewrite Hs|].
  destruct (rewrite_delta expr_sem pred_sem unnest_sem batch_sem (mb_start b) (mb_end b) (mb_db b) p p'
    ltac:(lia) Hwf Hm Hp') as [_ Hd].
  destruct (IH _ Hc) as (outs & Houts & Hrest).
  exists (eval (mb_db b) p' :: outs). split; [constructor; [by exists p'|done]|].
  rewrite next_block_cons. rewrite <- Hrest.
  rewrite (eval_ext (below (mb_end b + 1) (mb_db b)) (below (mb_end b + 1) db) p Hagree) in Hd.
  rewrite (eval_ext (below (mb_start b) (mb_db b)) (below from db) p) in Hd.
  - cbn. rewrite <- Hd. rewrite (Permutation_app_comm (eval (mb_db b) p') (concat outs)), <- !(assoc_L (++)).
    by apply Permutation_app_head.
  - intros t. rewrite <- (below_below (mb_start b) (mb_end b + 1) (mb_db b)) by lia.
    rewrite <- Hfrom, <- (below_below (mb_start b) (mb_end b + 1) db) by lia.
    unfold below at 1 3. by rewrite Hagree.
Qed.
End Microbatches.

Lemma is_incremental_streamable p : streamable p = true → first_error p = None.
Proof.
  assert (∀ qs, Forall (λ q, streamable q = true → first_error q = None) qs → forallb streamable qs = true →
    foldr (λ q found, match first_error q with Some e => Some e | None => found end) None qs = None) as Hlist.
  { induction qs as [|q qs IH]; [done|]. intros [Hq Hqs]%list.Forall_cons [Hsq Hs]%andb_true_iff. cbn.
    rewrite (Hq Hsq). by apply IH. }
  induction p as [s|sch rows|one sch|es p IH|t p IH|ps IH|t sch p IH|a p IH|p IH|t sch ps IH|ty on l r IHl IHr|op t p IH|t]
    using plan_ind; cbn; try done; try (by apply Hlist).
  rewrite !andb_true_iff. intros [[Hty [_ Hl]] [_ Hr]]. destruct ty; try done; cbn; by rewrite IHl, IHr.
Qed.

(** The rewriter succeeds on exactly the streamable plans, those of
    incremental operators over physical tables with no join below another; the
    check made when a query or a derived dataset is accepted is weaker: it
    passes every streamable plan, but also plans with stacked joins, whose
    first microbatch then fails. *)
Theorem streamable_exactly p :
  (∀ b_start b_end, (∃ p', incrementalize_plan p b_start b_end = Ok p') ↔ streamable p = true)
  /\ (streamable p = true → is_incremental p = Ok tt)
  /\ (∀ ty on on' t u v, ty = Inner \/ ty = LeftSemi \/ ty = RightSemi →
        scan_kind t = SnapshotTable → scan_kind u = SnapshotTable → scan_kind v = SnapshotTable →
        p = Join ty on (Join Inner on' (Scan t) (Scan u)) (Scan v) →
        is_incremental p = Ok tt /\ ∀ b_start b_end, incrementalize_plan p b_start b_end = Err StackedJoins).
Proof.
  split; [|split].
  - intros s e. unfold incrementalize_plan. rewrite rewrite_accepts. unfold accepted. by rewrite andb_true_r.
  - intros Hs. unfold is_incremental. by rewrite is_incremental_streamable.
  - intros ty on on' t u v Hty Ht Hu Hv ->. split.
    + unfold is_incremental. by destruct Hty as [->|[-> | ->]].
    + intros s e. unfold incrementalize_plan.
      destruct Hty as [->|[-> | ->]]; cbn; unfold validate_table_provider, constrain_by_range;
        rewrite ?Ht, ?Hu, ?Hv; cbn; rewrite ?Ht, ?Hu, ?Hv; done.
Qed.

(** ** Concrete plans *)

(** Tables [t] and [u] of a block number and a key, joined on the key. *)
Definition demo_scan (name : string) : TableScan :=
  mkScan name [mkColumn (Some name) SPECIAL_BLOCK_NUM; mkColumn (Some name) "key"] None [] SnapshotTable.

Definition demo_row (block : Z) (key : string) : Z * list Value := (block, [UInt64 block; OtherValue key]).

Definition demo_tables (name : string) : list (Z * list Value) :=
  if String.eqb name "t" then [demo_row 1 "a"; demo_row 2 "b"]
  else if String.eqb name "u" then [demo_row 1 "a"; demo_row 2 "a"; demo_row 3 "b"] else [].

#[global] Instance Value_eq_dec : EqDecision Value.
Proof. solve_decision. Defined.

Definition demo_pred (text : string) (schema : list Column) (row : list Value) : bool :=
  if String.eqb text "same key" then bool_decide (row !! 1%nat = row !! 3%nat) else true.

Definition demo_eval (db : string → list (Z * list Value)) (p : LogicalPlan) : list (Z * list Value) :=
  eval (λ _ _ _, Null) demo_pred (λ _ r, [r]) (λ _ _, []) db p.

(** What a plan yields in a microbatch, no rows if it cannot be rewritten. *)
Definition demo_microbatch (db : string → list (Z * list Value)) (p : LogicalPlan) (s e : Z) : list (Z * list Value) :=
  match incrementalize_plan p s e with Ok p' => demo_eval db p' | _ => [] end.

Definition demo_join (ty : JoinType) : LogicalPlan := Join ty "same key" (Scan (demo_scan "t")) (Scan (demo_scan "u")).

(** A cross join with a row of constants, as [SELECT 5] is planned. *)
Definition demo_constant : LogicalPlan :=
  Join Inner "true" (Scan (demo_scan "t")) (Projection [ELit 5] (EmptyRelation true [])).

(** Two plans the checks accept whose microbatches repeat rows: a semi join
    is updated by the rule of inner joins, so a row whose key matches in several
    places is yielded once for each of them instead of once; a relation of one
    row is neither dropped from the deltas nor from the history, so a join with
    it yields the new rows twice, and the whole history again in every
    microbatch. *)
Theorem microbatches_repeat_rows :
  is_incremental (demo_join LeftSemi) = Ok tt /\ is_incremental demo_constant = Ok tt
  /\ demo_eval demo_tables (demo_join LeftSemi) = [demo_row 1 "a"; demo_row 2 "b"]
  /\ demo_microbatch demo_tables (demo_join LeftSemi) 0 1 ++ demo_microbatch demo_tables (demo_join LeftSemi) 2 3
       = [demo_row 1 "a"; demo_row 1 "a"; demo_row 2 "b"]
  /\ length (demo_eval demo_tables demo_constant) = 2%nat
  /\ length (demo_microbatch demo_tables demo_constant 0 1) = 2%nat
  /\ length (demo_microbatch demo_tables demo_constant 2 3) = 3%nat.
Proof. by vm_compute. Qed.

Lemma demo_scans_wf db : (∀ t r, r ∈ db t → r ∈ demo_tables t) → scans_wf db (demo_join Inner).
Proof.
  intros Hdb. split; intros r Hr%Hdb; cbn in Hr; repeat (apply elem_of_cons in Hr as [->|Hr]; [done|]);
    by apply elem_of_nil in Hr.
Qed.

(** Two microbatches of the inner join, the first before block 3 is there. *)
Definition demo_microbatches : list Microbatch :=
  [mkMicrobatch 0 2 (λ t, filter (λ r, r.1 < 3) (demo_tables t)); mkMicrobatch 3 3 demo_tables].

Lemma incremental_maintenance_witness :
  ∃ outs, Forall2 (microbatch_output (λ _ _ _, Null) demo_pred (λ _ r, [r]) (λ _ _, []) (demo_join Inner)) demo_microbatches outs
    /\ concat outs ++ [] ≡ₚ demo_eval demo_tables (demo_join Inner).
Proof.
  destruct (incremental_maintenance (λ _ _ _, Null) demo_pred (λ _ r, [r]) (λ _ _, []) demo_tables (demo_join Inner) 0 demo_microbatches)
    as (outs & Ho & Hp); [done|done| |exists outs; split; [done|exact Hp]].
  split; [done|]. split; [cbn; lia|]. split.
  { apply demo_scans_wf. by intros t r [_ ?]%list_elem_of_filter. }
  split; [intros t; unfold below; cbn; rewrite list_filter_filter; apply list_filter_iff; intros r; lia|].
  split; [done|]. split; [cbn; lia|]. split; [by apply demo_scans_wf|done].
Defined.
