(* ===== verification/PlanVisitors.v ===== *)
(** * PlanVisitors

    The visitors of query plans (core/common/src/plan_visitors.rs): the
    propagation of the block number column, the removal and the ordering by it,
    the reserved names and the tables of a plan; and what they are for: every
    row of a microbatch carries a block number of the microbatch. *)

From stdpp Require Import base numbers strings option list sets sorting gmap.
From Stdlib Require Import ZArith Lia.
From S2P Require Import Prelude Text Plan Incrementalize.

Inductive PropagateError :=
  | OpError (e : NonIncrementalError)
  | InvalidBlockNumSelect
  | UnexpectedBlockNumExpr
  | UnionArity
  | MissingBlockNum
  | ScanWithProjection.

Definition block_num_col : Expr := col SPECIAL_BLOCK_NUM.

(** ** Names *)

Definition UNNEST_PLACEHOLDER : string := "__unnest_placeholder".

Definition starts_with (prefix s : string) : bool := String.prefix prefix s.

(** The nodes of a plan, parents first. *)
Fixpoint nodes (p : LogicalPlan) : list LogicalPlan :=
  p :: match p with
       | Projection _ q | Filter _ q | Unnest _ _ q | SubqueryAlias _ q | PassThrough q | Batch _ _ q => nodes q
       | Union qs | Meta _ _ qs => qs ≫= nodes
       | Join _ _ l r => nodes l ++ nodes r
       | _ => []
       end.

Definition forbidden_alias (e : Expr) : bool :=
  match e with
  | EAlias _ name => starts_with "_" name && negb (starts_with UNNEST_PLACEHOLDER name)
  | _ => false
  end.

Definition forbid_underscore_prefixed_aliases (p : LogicalPlan) : comp string unit :=
  match List.find forbidden_alias (nodes p ≫= λ n, match n with Projection es _ => es | _ => [] end) with
  | Some e => Err (physical_name e)
  | None => Ok tt
  end.

Definition scanned (node : LogicalPlan) : list string :=
  match node with Scan s => [scan_table s] | _ => [] end.

(** The set of the tables scanned. *)
Definition extract_table_references_from_plan (p : LogicalPlan) : gset string :=
  list_to_set (nodes p ≫= scanned).

Definition order_by_block_num (p : LogicalPlan) : LogicalPlan := Batch Sort SPECIAL_BLOCK_NUM p.

Definition unproject_special_block_num_column (p : LogicalPlan) : LogicalPlan :=
  if existsb (λ c, String.eqb (col_name c) SPECIAL_BLOCK_NUM) (schema_of p)
  then Projection (EColumn <$> filter (λ c, col_name c ≠ SPECIAL_BLOCK_NUM) (schema_of p)) p
  else p.

Definition prepend_special_block_num_field (schema : list Column) : list Column :=
  if existsb (λ c, String.eqb (col_name c) SPECIAL_BLOCK_NUM) schema then schema
  else mkColumn None SPECIAL_BLOCK_NUM :: schema.

(** ** The propagation of the block number *)

Definition find_block_num (schema : list Column) : option Expr :=
  EColumn <$> List.find (λ c, String.eqb (col_name c) SPECIAL_BLOCK_NUM) schema.

(** [greatest(left._block_num, right._block_num)] *)
Definition block_num_for_join (l r : LogicalPlan) : comp PropagateError Expr :=
  left_block_num ← ok_or (find_block_num (schema_of l)) MissingBlockNum;
  right_block_num ← ok_or (find_block_num (schema_of r)) MissingBlockNum;
  Ok (EGreatest left_block_num right_block_num).

(** The first projected expression named [_block_num] decides whether the
    projection is kept ([Some]) or refused. *)
Definition check_existing (exprs : list Expr) (input_schema : list Column) (block_num_expr : Expr)
    : comp PropagateError bool :=
  match List.find (λ e, String.eqb (physical_name e) SPECIAL_BLOCK_NUM) exprs with
  | None => Ok false
  | Some existing =>
      if bool_decide (existing = block_num_expr) then Ok true
      else match existing with
           | EColumn _ =>
               if bool_decide (block_num_expr = block_num_col)
                  && Nat.leb (size (list_to_set (omap relation input_schema) : gset string)) 1
               then Ok true else Err InvalidBlockNumSelect
           | _ => Err InvalidBlockNumSelect
           end
  end.

(** One visit, after the inputs: the node and the next block number expression. *)
Definition f_up (next : option Expr) (node : LogicalPlan) : comp PropagateError (LogicalPlan * option Expr) :=
  match incremental_op_kind node with
  | Err e => Err (OpError e)
  | Panic => Panic
  | OutOfFuel => OutOfFuel
  | Ok _ =>
      match node with
      | Projection exprs input =>
          current ← unwrap next;
          let block_num_expr := if bool_decide (current = block_num_col) then current
                                else EAlias current SPECIAL_BLOCK_NUM in
          kept ← check_existing exprs (schema_of input) block_num_expr;
          Ok (if kept : bool then node else Projection (block_num_expr :: exprs) input, Some block_num_col)
      | Union inputs =>
          if bool_decide (next = Some block_num_col) then
            if forallb (λ q, Nat.eqb (length (schema_of q)) (length (schema_of node))) inputs
            then Ok (node, next) else Err UnionArity
          else Err UnexpectedBlockNumExpr
      | Join _ _ l r => e ← block_num_for_join l r; Ok (node, Some e)
      | Scan s =>
          match scan_projection s with
          | Some _ => Err ScanWithProjection
          | None => Ok (node, Some block_num_col)
          end
      | EmptyRelation _ _ | Values _ _ => Ok (node, Some (ELit 0))
      | _ => Ok (node, next)
      end
  end.

(** The inputs of a node, in order, the expression handed on. *)
Definition visit_inputs (visit : option Expr → LogicalPlan → comp PropagateError (LogicalPlan * option Expr))
    : option Expr → list LogicalPlan → comp PropagateError (list LogicalPlan * option Expr) :=
  fix go next qs {struct qs} :=
    match qs with
    | [] => Ok ([], next)
    | q :: qs => a ← visit next q; b ← go a.2 qs; Ok (a.1 :: b.1, b.2)
    end.

Fixpoint propagate (next : option Expr) (p : LogicalPlan) : comp PropagateError (LogicalPlan * option Expr) :=
  match p with
  | Projection es q => a ← propagate next q; f_up a.2 (Projection es a.1)
  | Filter t q => a ← propagate next q; f_up a.2 (Filter t a.1)
  | Union qs => a ← visit_inputs propagate next qs; f_up a.2 (Union a.1)
  | Unnest t sch q => a ← propagate next q; f_up a.2 (Unnest t sch a.1)
  | SubqueryAlias al q => a ← propagate next q; f_up a.2 (SubqueryAlias al a.1)
  | PassThrough q => a ← propagate next q; f_up a.2 (PassThrough a.1)
  | Meta t sch qs => a ← visit_inputs propagate next qs; f_up a.2 (Meta t sch a.1)
  | Join ty on l r => a ← propagate next l; b ← propagate a.2 r; f_up b.2 (Join ty on a.1 b.1)
  | Batch op t q => a ← propagate next q; f_up a.2 (Batch op t a.1)
  | _ => f_up next p
  end.

Definition propagate_block_num (p : LogicalPlan) : comp PropagateError LogicalPlan :=
  a ← propagate None p; Ok a.1.

(** ** Block number columns *)

Definition block_num_column : Column := mkColumn None SPECIAL_BLOCK_NUM.

(** The columns of a schema named [_block_num]. *)
Definition special (schema : list Column) : list Column := filter (λ c, col_name c = SPECIAL_BLOCK_NUM) schema.

Lemma special_nil schema c : special schema = [] → c ∈ schema → col_name c ≠ SPECIAL_BLOCK_NUM.
Proof.
  intros Hs Hc Hn. assert (c ∈ special schema) as Hin by by apply list_elem_of_filter.
  rewrite Hs in Hin. by apply elem_of_nil in Hin.
Qed.

Lemma special_cons c schema :
  special (c :: schema) = if decide (col_name c = SPECIAL_BLOCK_NUM) then c :: special schema else special schema.
Proof. unfold special. by rewrite filter_cons. Qed.

Lemma resolve_special schema c :
  special schema = [c] → resolve schema block_num_column = position (λ d, bool_decide (d = c)) schema.
Proof.
  intros Hs. unfold resolve. cbn [relation block_num_column col_name]. fold (special schema). rewrite Hs.
  induction schema as [|d schema IH]; [done|]. rewrite special_cons in Hs. cbn [position].
  destruct (decide (col_name d = SPECIAL_BLOCK_NUM)) as [Hd|Hd].
  - injection Hs as -> _. by rewrite !bool_decide_true.
  - rewrite bool_decide_false by done. rewrite bool_decide_false, IH; [done|done|].
    intros ->. assert (c ∈ special schema) as Hc by (rewrite Hs; by left). apply Hd.
    by apply list_elem_of_filter in Hc as [? _].
Qed.

Lemma resolve_qualified schema c : is_Some (relation c) → resolve schema c = position (λ d, bool_decide (d = c)) schema.
Proof. intros [q Hq]. unfold resolve. by rewrite Hq. Qed.

Lemma resolve_none schema : special schema = [] → resolve schema block_num_column = None.
Proof. intros Hs. unfold resolve. cbn [relation block_num_column col_name]. fold (special schema). by rewrite Hs. Qed.

Lemma resolve_special_Some schema i : resolve schema block_num_column = Some i → ∃ c, special schema = [c].
Proof.
  unfold resolve. cbn [relation block_num_column col_name]. fold (special schema).
  destruct (special schema) as [|c [|]]; [done|by exists c|done].
Qed.

Lemma block_num_get schema row n : block_num schema row = Some n → get schema row block_num_column = UInt64 n.
Proof.
  unfold block_num. fold block_num_column. destruct (get schema row block_num_column); try done. by intros [= ->].
Qed.

(** The block number of a projected row is the expression of that name. *)
Lemma get_projected {A} (f : A → Column) (g : A → Value) es e c :
  special (f <$> es) = [c] → e ∈ es → col_name (f e) = SPECIAL_BLOCK_NUM →
  get (f <$> es) (g <$> es) block_num_column = g e.
Proof.
  intros Hs He Hn. unfold get. rewrite (resolve_special _ c Hs).
  induction es as [|x es IH]; [by apply elem_of_nil in He|]. rewrite fmap_cons, special_cons in Hs.
  rewrite !fmap_cons. cbn [position].
  destruct (decide (col_name (f x) = SPECIAL_BLOCK_NUM)) as [Hx|Hx].
  - injection Hs as Hc Hs. rewrite bool_decide_true by done. apply elem_of_cons in He as [->|He]; [done|].
    destruct (special_nil _ (f e) Hs); [by apply list_elem_of_fmap_2|done].
  - apply elem_of_cons in He as [->|He]; [done|]. rewrite bool_decide_false.
    + rewrite <- (IH Hs He). by destruct (position _ _).
    + intros Hc. assert (c ∈ special (f <$> es)) as Hin by (rewrite Hs; by left).
      apply list_elem_of_filter in Hin as [Hin _]. apply Hx. by rewrite Hc.
Qed.

Lemma special_fmap {A} (f g : A → Column) l :
  (∀ x, col_name (f x) = col_name (g x)) → length (special (f <$> l)) = length (special (g <$> l)).
Proof.
  intros H. induction l as [|x l IH]; [done|]. rewrite !fmap_cons, !special_cons, H. destruct (decide _); cbn; by rewrite IH.
Qed.

Definition requalify (alias : string) (c : Column) : Column := mkColumn (Some alias) (col_name c).

Lemma get_requalified schema alias row :
  get (requalify alias <$> schema) row block_num_column = get schema row block_num_column.
Proof.
  unfold get. assert (resolve (requalify alias <$> schema) block_num_column = resolve schema block_num_column) as ->; [|done].
  unfold resolve. cbn [relation block_num_column col_name]. fold (special schema).
  fold (special (requalify alias <$> schema)).
  pose proof (special_fmap (requalify alias) id schema ltac:(done)) as Hl. rewrite list_fmap_id in Hl.
  assert (position (λ d, bool_decide (col_name d = SPECIAL_BLOCK_NUM)) (requalify alias <$> schema)
          = position (λ d, bool_decide (col_name d = SPECIAL_BLOCK_NUM)) schema) as Hp.
  { clear. induction schema as [|c schema IH]; [done|]. cbn. by rewrite IH. }
  rewrite Hp. destruct (special (requalify alias <$> schema)) as [|? [|]], (special schema) as [|? [|]]; try done.
Qed.

(** [DFSchema::check_names]: qualified names are distinct, and a name without a
    qualifier is nobody else's. *)
Definition check_names (schema : list Column) : Prop :=
  NoDup schema /\ ∀ c d, c ∈ schema → d ∈ schema → relation c = None → col_name c = col_name d → c = d.

Section Propagation.
Context (expr_sem : string → list Column → list Value → Value).
Context (pred_sem : string → list Column → list Value → bool).
Context (unnest_sem : string → list Value → list (list Value)).
Context (batch_sem : string → list (list (list Value)) → list (list Value)).
Context (db : string → list (Z * list Value)).

Notation eval := (eval expr_sem pred_sem unnest_sem batch_sem).
Notation eval_expr := (eval_expr expr_sem).

(** What the planner guarantees of a plan over the tables: rows as wide as their
    schema, table rows with the number of their block, schemas with proper
    names, at most one block number among the expressions of a projection,
    unnesting that leaves the block numbers alone, and unions whose inputs have
    the block number at the same place. *)
Fixpoint valid (p : LogicalPlan) : Prop :=
  match p with
  | Scan s =>
      (∃ c, special (scan_schema s) = [c])
      /\ ∀ r, r ∈ db (scan_table s) → block_num (scan_schema s) r.2 = Some r.1 /\ length r.2 = length (scan_schema s)
  | Values schema rows => special schema = [] /\ Forall (λ row, length row = length schema) rows
  | EmptyRelation _ schema => special schema = []
  | Projection exprs q =>
      valid q /\ (length (special (schema_of p)) <= 1)%nat
      /\ ∀ c, EColumn c ∈ exprs → col_name c = SPECIAL_BLOCK_NUM → c ∈ schema_of q
  | Filter _ q | PassThrough q => valid q
  | Union qs =>
      foldr (λ q P, valid q /\ P) True qs /\ is_Some (resolve (schema_of p) block_num_column)
      /\ Forall (λ q, resolve (schema_of q) block_num_column = resolve (schema_of p) block_num_column) qs
  | Unnest text schema q =>
      valid q /\ special schema = special (schema_of q)
      /\ ∀ row row', row' ∈ unnest_sem text row → length row' = length schema
           /\ ∀ c, col_name c = SPECIAL_BLOCK_NUM → get schema row' c = get (schema_of q) row c
  | SubqueryAlias _ q => valid q /\ check_names (schema_of p)
  | Join _ _ l r => valid l /\ valid r /\ check_names (schema_of l ++ schema_of r)
  | Meta _ _ _ | Batch _ _ _ | Invalid _ => False
  end.

Lemma valid_list qs : foldr (λ q P, valid q /\ P) True qs ↔ Forall valid qs.
Proof. induction qs as [|q qs IH]; cbn; [split; [by constructor|done]|]. by rewrite list.Forall_cons, IH. Qed.

Definition carries (p : LogicalPlan) (e : Expr) : Prop :=
  Forall (λ r, eval_expr (schema_of p) r.2 e = UInt64 r.1 /\ length r.2 = length (schema_of p)) (eval db p).

(** The expression handed on after a visit gives the block of every row; it is
    the only block number column, the constant of a plan without one, or the
    greatest of the two of a join. *)
Definition announces (p : LogicalPlan) (e : Expr) : Prop :=
  carries p e
  /\ ((e = block_num_col /\ ∃ c, special (schema_of p) = [c])
      \/ (e = ELit 0 /\ special (schema_of p) = [])
      \/ (join_free p = false /\ ∃ c d, e = EGreatest (EColumn c) (EColumn d)
            /\ col_name c = SPECIAL_BLOCK_NUM /\ col_name d = SPECIAL_BLOCK_NUM /\ special (schema_of p) = [c; d])).

Lemma announces_scan s : valid (Scan s) → scan_projection s = None → announces (Scan s) block_num_col.
Proof.
  intros [Hs Hdb] Hp. split; [|left; cbn; by rewrite Hp].
  apply Forall_forall. intros r. cbn. rewrite Hp. cbn. intros ([n row] & -> & [_ Hr]%list_elem_of_filter)%list_elem_of_fmap.
  destruct (Hdb _ Hr) as [Hb Hl]. cbn in *. split; [|done]. by apply block_num_get.
Qed.

Lemma announces_same p q e :
  schema_of q = schema_of p → join_free q = join_free p → (∀ r, r ∈ eval db q → r ∈ eval db p) →
  announces p e → announces q e.
Proof.
  intros Hs Hj Hsub [Hc Hd]. unfold announces, carries. rewrite Hs, Hj. split; [|done].
  apply Forall_forall. intros r Hr%Hsub. unfold carries in Hc. rewrite Forall_forall in Hc. by apply Hc.
Qed.

Lemma announces_unnest text schema q e :
  valid (Unnest text schema q) → announces q e → announces (Unnest text schema q) e.
Proof.
  intros (_ & Hs & Hu) [Hc Hd]. unfold announces. cbn [schema_of join_free]. rewrite Hs. split; [|done].
  apply Forall_forall. intros r. cbn. rewrite list_elem_of_bind. intros (r0 & Hr & Hr0).
  apply list_elem_of_fmap in Hr as (row' & -> & Hrow). cbn [fst snd].
  unfold carries in Hc. rewrite Forall_forall in Hc. destruct (Hc r0 Hr0) as [He _].
  destruct (Hu _ _ Hrow) as [Hl Hg]. split; [|done]. rewrite <- He.
  destruct Hd as [[-> _]|[[-> _]|(_ & c & d & -> & Hcn & Hdn & _)]]; cbn; [by apply Hg|done|].
  by rewrite !Hg.
Qed.

Lemma announces_alias alias q e :
  valid (SubqueryAlias alias q) → announces q e → announces (SubqueryAlias alias q) e.
Proof.
  intros [_ Hn] [Hc Hd]. cbn [schema_of] in Hn. fold (requalify alias) in Hn.
  assert (length (special (requalify alias <$> schema_of q)) = length (special (schema_of q))) as Hlen.
  { rewrite <- (list_fmap_id (schema_of q)) at 2. by apply special_fmap. }
  unfold announces, carries. cbn [schema_of eval join_free]. fold (requalify alias).
  destruct Hd as [[-> [c Hs]]|[[-> Hs]|(_ & c & d & _ & Hcn & Hdn & Hs)]]; rewrite Hs in Hlen; cbn in Hlen.
  - split; [|left; split; [done|]; destruct (special (requalify alias <$> schema_of q)) as [|x [|]]; try done; by exists x].
    eapply Forall_impl; [exact Hc|]. intros r [He Hl]. rewrite length_fmap. split; [|done].
    cbn in He |- *. unfold block_num_col, col in *. cbn in *. by rewrite get_requalified.
  - split; [|right; left; split; [done|]; by destruct (special (requalify alias <$> schema_of q))].
    eapply Forall_impl; [exact Hc|]. intros r [He Hl]. rewrite length_fmap. by split.
  - exfalso. destruct Hn as [Hnd _]. apply (NoDup_filter (λ c, col_name c = SPECIAL_BLOCK_NUM)) in Hnd.
    fold (special (requalify alias <$> schema_of q)) in Hnd.
    destruct (special (requalify alias <$> schema_of q)) as [|x [|y [|]]] eqn:E; try done.
    assert (∀ z, z ∈ [x; y] → z = mkColumn (Some alias) SPECIAL_BLOCK_NUM) as Hz.
    { rewrite <- E. intros z (Hzn & Hz)%list_elem_of_filter. apply list_elem_of_fmap in Hz as (z' & -> & _).
      unfold requalify in *. cbn in Hzn. by rewrite Hzn. }
    apply NoDup_cons in Hnd as [Hx _]. apply Hx. rewrite (Hz x), (Hz y); [by left|right; by left|by left].
Qed.

Lemma expr_column_name e : col_name (expr_column e) = physical_name e.
Proof. by destruct e. Qed.

Lemma announces_column q e c :
  announces q e → e = block_num_col → c ∈ schema_of q → col_name c = SPECIAL_BLOCK_NUM →
  ∀ row, get (schema_of q) row c = get (schema_of q) row block_num_column.
Proof.
  intros [_ Hd] -> Hc Hn row. destruct Hd as [[_ [c' Hs]]|[[? _]|(_ & ? & ? & ? & _)]]; [|done..].
  assert (c ∈ special (schema_of q)) as Hin by by apply list_elem_of_filter.
  rewrite Hs in Hin. apply list_elem_of_singleton in Hin as ->.
  destruct (relation c') as [a|] eqn:E.
  - unfold get. rewrite (resolve_special _ c' Hs). by rewrite resolve_qualified by (rewrite E; by eexists).
  - f_equal. destruct c'; cbn in *. by subst.
Qed.

Lemma f_up_projection next exprs q p' next' :
  f_up next (Projection exprs q) = Ok (p', next') → ∃ exprs', p' = Projection exprs' q.
Proof.
  cbn. destruct next as [e|]; cbn; [|done]. destruct (check_existing _ _ _) as [[]| | |]; cbn; try done.
  all: intros [= <- _]; by eexists.
Qed.

Lemma f_up_join next ty on l r p' next' :
  f_up next (Join ty on l r) = Ok (p', next') →
  p' = Join ty on l r /\ ∃ e, block_num_for_join l r = Ok e /\ next' = Some e.
Proof.
  unfold f_up. destruct (incremental_op_kind _); try done.
  destruct (block_num_for_join l r) as [e| | |]; cbn; try done. intros [= <- <-]. split; [done|by exists e].
Qed.

(** A projection one of whose expressions computes the block. *)
Lemma projection_announces exprs q x :
  (∀ r, r ∈ eval db q → eval_expr (schema_of q) r.2 x = UInt64 r.1) →
  x ∈ exprs → physical_name x = SPECIAL_BLOCK_NUM → (length (special (expr_column <$> exprs)) <= 1)%nat →
  announces (Projection exprs q) block_num_col.
Proof.
  intros Hx Hin Hn Hl.
  assert (∃ c, special (expr_column <$> exprs) = [c]) as [c Hc].
  { destruct (special (expr_column <$> exprs)) as [|c [|]] eqn:E; [|by exists c|cbn in Hl; lia].
    destruct (special_nil _ (expr_column x) E); [by apply list_elem_of_fmap_2|by rewrite expr_column_name]. }
  split; [|left; split; [done|by exists c]].
  apply Forall_forall. intros r. cbn. intros (r0 & -> & Hr0)%list_elem_of_fmap. cbn [fst snd].
  rewrite !length_fmap. split; [|done]. rewrite <- (Hx r0 Hr0).
  apply (get_projected expr_column (eval_expr (schema_of q) r0.2) exprs x c); [done|done|by rewrite expr_column_name].
Qed.

Definition projected_block_num (e : Expr) : Expr :=
  if bool_decide (e = block_num_col) then e else EAlias e SPECIAL_BLOCK_NUM.

Lemma projected_block_num_eval schema row e :
  eval_expr schema row (projected_block_num e) = eval_expr schema row e.
Proof. unfold projected_block_num. by destruct (bool_decide _). Qed.

Lemma projected_block_num_name e : physical_name (projected_block_num e) = SPECIAL_BLOCK_NUM.
Proof. unfold projected_block_num. by case_bool_decide; subst. Qed.

Lemma projected_block_num_col e : projected_block_num e = block_num_col → e = block_num_col.
Proof. unfold projected_block_num. by case_bool_decide. Qed.

Lemma announces_projection exprs q e p' next :
  announces q e → f_up (Some e) (Projection exprs q) = Ok (p', next) → valid p' →
  next = Some block_num_col /\ announces p' block_num_col.
Proof.
  intros Ha. cbn [f_up incremental_op_kind unwrap mbind comp_bind]. fold (projected_block_num e).
  assert (∀ r, r ∈ eval db q → eval_expr (schema_of q) r.2 (projected_block_num e) = UInt64 r.1) as Hbn.
  { intros r Hr. rewrite projected_block_num_eval. destruct Ha as [Hc _]. unfold carries in Hc.
    rewrite Forall_forall in Hc. by apply Hc. }
  destruct (check_existing exprs (schema_of q) (projected_block_num e)) as [kept|err| |] eqn:E; cbn [mbind comp_bind]; try done.
  intros [= <- <-]. split; [done|]. destruct kept.
  - unfold check_existing in E. destruct (List.find _ exprs) as [x|] eqn:Ef; [|done].
    apply List.find_some in Ef as [Hin%list_elem_of_In Hname%String.eqb_eq]. destruct H as (_ & Hl & Hcols).
    apply (projection_announces exprs q x); [|done|done|done].
    case_bool_decide as Hx; [by rewrite Hx|]. destruct x as [c| | | |]; try done.
    destruct (bool_decide (projected_block_num e = block_num_col)) eqn:Eb; [|done]. apply bool_decide_eq_true in Eb.
    intros r Hr. rewrite <- (Hbn r Hr), Eb. apply (announces_column q e); [done|by apply projected_block_num_col|by apply Hcols|done].
  - destruct H as (_ & Hl & _). apply (projection_announces _ q (projected_block_num e)); [done|by left| |done].
    apply projected_block_num_name.
Qed.

Lemma position_app_l {A} (f : A → bool) l k i : position f l = Some i → position f (l ++ k) = Some i.
Proof.
  revert i. induction l as [|x l IH]; intros i; [done|]. cbn. destruct (f x); [done|].
  destruct (position f l) as [j|]; [|done]. intros [= <-]. by rewrite (IH j).
Qed.

Lemma position_app_r {A} (f : A → bool) l k :
  position f l = None → position f (l ++ k) = Nat.add (length l) <$> position f k.
Proof.
  induction l as [|x l IH]; cbn; [intros _; by destruct (position f k)|]. destruct (f x); [done|].
  destruct (position f l) as [j|]; [done|]. intros _. rewrite IH by done. by destruct (position f k).
Qed.

(** A qualified column of one side of a join keeps its value. *)
Lemma get_join_l ls rs lrow rrow c :
  length lrow = length ls → c ∈ ls → is_Some (relation c) → get (ls ++ rs) (lrow ++ rrow) c = get ls lrow c.
Proof.
  intros Hl Hc Hq. unfold get. rewrite !resolve_qualified by done.
  destruct (position (λ d, bool_decide (d = c)) ls) as [i|] eqn:E.
  - rewrite (position_app_l _ _ _ _ E). apply position_Some in E as (x & Hx & _).
    rewrite lookup_app_l; [done|]. rewrite Hl. by eapply lookup_lt_Some.
  - apply position_None in E. rewrite Forall_forall in E. by specialize (E c Hc); rewrite bool_decide_true in E.
Qed.

Lemma get_join_r ls rs lrow rrow c :
  length lrow = length ls → c ∉ ls → is_Some (relation c) → get (ls ++ rs) (lrow ++ rrow) c = get rs rrow c.
Proof.
  intros Hl Hc Hq. unfold get. rewrite !resolve_qualified by done. rewrite position_app_r.
  - destruct (position _ rs) as [i|]; [|done]. cbn. f_equal. rewrite lookup_app_r by lia. f_equal. lia.
  - apply position_None, Forall_forall. intros x Hx. apply bool_decide_eq_false. by intros ->.
Qed.

Lemma get_special schema row c :
  special schema = [c] → is_Some (relation c) → get schema row c = get schema row block_num_column.
Proof. intros Hs Hq. unfold get. by rewrite (resolve_special _ c Hs), resolve_qualified. Qed.

Lemma find_block_num_special schema e :
  find_block_num schema = Some e → ∃ c rest, e = EColumn c /\ special schema = c :: rest.
Proof.
  unfold find_block_num. induction schema as [|c schema IH]; [done|]. cbn [List.find]. rewrite special_cons.
  destruct (decide (col_name c = SPECIAL_BLOCK_NUM)) as [Hn|Hn].
  - rewrite Hn, String.eqb_refl. intros [= <-]. by eexists _, _.
  - by rewrite (proj2 (String.eqb_neq _ _) Hn).
Qed.

(** The side of a join that has a block number column has no join below. *)
Lemma announces_special_cons q e c rest :
  announces q e → join_free q = true → special (schema_of q) = c :: rest → e = block_num_col /\ rest = [].
Proof.
  intros [_ [[-> [d Hd]]|[[_ Hd]|(Hj & _)]]] Hq Hs; [|congruence..]. split; [done|]. congruence.
Qed.

Lemma join_rows_elem on schema ls rs x :
  x ∈ join_rows pred_sem on schema ls rs → ∃ a b, a ∈ ls /\ b ∈ rs /\ x = (Z.max a.1 b.1, a.2 ++ b.2).
Proof.
  unfold join_rows. intros (a & (b & Hx & Hb)%list_elem_of_bind & Ha)%list_elem_of_bind.
  exists a, b. destruct (pred_sem on schema (a.2 ++ b.2)); [|by apply elem_of_nil in Hx].
  by apply list_elem_of_singleton in Hx.
Qed.

Lemma special_app l k : special (l ++ k) = special l ++ special k.
Proof. apply filter_app. Qed.

Lemma announces_join on l r el er e :
  announces l el → announces r er → join_free l = true → join_free r = true →
  check_names (schema_of l ++ schema_of r) → block_num_for_join l r = Ok e → announces (Join Inner on l r) e.
Proof.
  intros Hal Har Hjl Hjr [Hnd Hq] He. unfold block_num_for_join in He.
  destruct (find_block_num (schema_of l)) as [a|] eqn:El; [|done]. cbn in He.
  destruct (find_block_num (schema_of r)) as [b|] eqn:Er; [|done]. cbn in He. injection He as <-.
  apply find_block_num_special in El as (cl & restl & -> & Hsl), Er as (cr & restr & -> & Hsr).
  destruct (announces_special_cons l el cl restl) as [-> ->]; [done..|].
  destruct (announces_special_cons r er cr restr) as [-> ->]; [done..|].
  assert (cl ∈ special (schema_of l)) as [Hnl Hl]%list_elem_of_filter by (rewrite Hsl; by left).
  assert (cr ∈ special (schema_of r)) as [Hnr Hr]%list_elem_of_filter by (rewrite Hsr; by left).
  apply NoDup_app in Hnd as (_ & Hdisj & _).
  assert (cl ≠ cr) as Hne by (intros ->; by eapply Hdisj).
  assert (is_Some (relation cl)) as Hql.
  { destruct (relation cl) eqn:E; [done|]. destruct Hne. apply Hq; [set_solver|set_solver|done|congruence]. }
  assert (is_Some (relation cr)) as Hqr.
  { destruct (relation cr) eqn:E; [done|]. destruct Hne. symmetry. apply Hq; [set_solver|set_solver|done|congruence]. }
  split.
  - apply Forall_forall. intros x. cbn. intros (u & v & Hu & Hv & ->)%join_rows_elem. cbn [fst snd].
    destruct Hal as [Hcl _], Har as [Hcr _]. unfold carries in Hcl, Hcr.
    rewrite Forall_forall in Hcl. rewrite Forall_forall in Hcr.
    destruct (Hcl u Hu) as [Hul Hlu], (Hcr v Hv) as [Hvr Hlv]. rewrite !length_app. split; [|lia].
    rewrite get_join_l, get_join_r by (done || (intros ?; by eapply Hdisj)).
    rewrite (get_special (schema_of l) _ cl), (get_special (schema_of r) _ cr) by done. cbn in Hul, Hvr. unfold block_num_column. by rewrite Hul, Hvr.
  - right. right. split; [done|]. exists cl, cr. cbn. by rewrite special_app, Hsl, Hsr.
Qed.

(** Inputs with the block number at the place it has in the union. *)
Lemma announces_union qs :
  valid (Union qs) → Forall (λ q, ∃ e, announces q e) qs →
  forallb (λ q, Nat.eqb (length (schema_of q)) (length (schema_of (Union qs)))) qs = true →
  announces (Union qs) block_num_col.
Proof.
  intros (_ & [i Hi] & Hres) Hqs Hlen. pose proof (resolve_special_Some _ _ Hi) as Hs.
  split; [|by left]. apply Forall_forall. intros x. cbn [Plan.eval]. intros (q & Hx & Hq)%list_elem_of_bind.
  rewrite Forall_forall in Hres. rewrite Forall_forall in Hqs. rewrite forallb_forall in Hlen.
  destruct (Hqs q Hq) as [e [Hc Hd]]. specialize (Hres q Hq).
  apply list_elem_of_In in Hq. apply Hlen, Nat.eqb_eq in Hq.
  unfold carries in Hc. rewrite Forall_forall in Hc. destruct (Hc x Hx) as [He Hl].
  destruct (resolve_special_Some (schema_of q) i) as [c Hsq]; [by rewrite Hres|].
  destruct Hd as [[-> _]|[[_ Hd]|(_ & ? & ? & _ & _ & _ & Hd)]]; [|congruence..].
  split; [|lia]. rewrite <- He. cbn -[schema_of]. unfold get. fold block_num_column. by rewrite Hres.
Qed.

Definition announced (next : option Expr) (p : LogicalPlan) : Prop :=
  ∀ p' next', propagate next p = Ok (p', next') → valid p' → streamable p' = true → maintainable p' = true →
  ∃ e, next' = Some e /\ announces p' e.

Lemma propagate_inputs next ps qs next' :
  Forall (λ p, ∀ next, announced next p) ps → visit_inputs propagate next ps = Ok (qs, next') →
  Forall valid qs → forallb streamable qs = true → forallb maintainable qs = true →
  Forall (λ q, ∃ e, announces q e) qs.
Proof.
  intros IH. revert next qs. induction IH as [|p ps Hp _ IH]; intros next qs; cbn; [by intros [= <- _]|].
  destruct (propagate next p) as [[p' n]| | |] eqn:E; cbn; try done.
  destruct (visit_inputs propagate n ps) as [[ps' n']| | |] eqn:Eps; cbn; try done. intros [= <- ->].
  cbn [forallb]. rewrite list.Forall_cons, !andb_true_iff. intros [Hv Hvs] [Hs Hss] [Hm Hms].
  constructor; [|by apply (IH n)]. destruct (Hp next p' n E Hv Hs Hm) as (e & _ & He). by exists e.
Qed.

(** Splits the visit of the inputs of a node. *)
Ltac visit_input q E :=
  let q' := fresh q in
  match goal with
  | |- context [propagate ?next q] => destruct (propagate next q) as [[q' ?]| | |] eqn:E; cbn [mbind comp_bind fst snd]; try done
  | |- context [visit_inputs propagate ?next q] =>
      destruct (visit_inputs propagate next q) as [[? ?]| | |] eqn:E; cbn [mbind comp_bind fst snd]; try done
  end.

Lemma propagate_announces p next : announced next p.
Proof.
  revert next.
  induction p as [s|sch rows|one sch|es p IH|t p IH|ps IH|t sch p IH|a p IH|p IH|t sch ps IH|ty on l r IHl IHr|op t p IH|t]
    using plan_ind; intros next p' next'; cbn [propagate].
  - cbn. destruct (scan_projection s) eqn:E; [done|]. intros [= <- <-] Hv _ _. exists block_num_col.
    split; [done|]. by apply announces_scan.
  - cbn. intros [= <- <-] [Hs Hrows] _ _. exists (ELit 0). split; [done|]. split; [|by right; left].
    unfold carries. cbn. apply Forall_fmap. eapply Forall_impl; [exact Hrows|]. by intros row Hl.
  - cbn. intros [= <- <-] Hs _ Hone. exists (ELit 0). split; [done|]. split; [|by right; left].
    unfold carries. cbn. by destruct one.
  - visit_input p E. intros Hf Hv Hs Hm.
    destruct (f_up_projection _ _ _ _ _ Hf) as [es' ->].
    destruct (IH next _ _ E (proj1 Hv) Hs Hm) as (e & -> & He).
    exists block_num_col. exact (announces_projection es p0 e _ _ He Hf Hv).
  - visit_input p E. cbn. intros [= <- <-] Hv Hs Hm. destruct (IH next _ _ E Hv Hs Hm) as (e & -> & He).
    exists e. split; [done|]. eapply announces_same; [..|exact He]; [done..|].
    intros x. cbn. by intros [_ ?]%list_elem_of_filter.
  - visit_input ps E. cbn [f_up incremental_op_kind]. case_bool_decide as Hn; [|done].
    destruct (forallb _ _) eqn:El; [|done]. intros [= <- <-] Hv Hs Hm. exists block_num_col. split; [done|].
    apply announces_union; [done| |done]. eapply propagate_inputs; [done..|by apply valid_list, Hv|done|done].
  - visit_input p E. cbn [f_up incremental_op_kind]. intros [= <- <-] Hv Hs Hm.
    destruct (IH next _ _ E (proj1 Hv) Hs Hm) as (e & -> & He). exists e. split; [done|]. by apply announces_unnest.
  - visit_input p E. cbn [f_up incremental_op_kind]. intros [= <- <-] Hv Hs Hm.
    destruct (IH next _ _ E (proj1 Hv) Hs Hm) as (e & -> & He). exists e. split; [done|]. by apply announces_alias.
  - visit_input p E. cbn [f_up incremental_op_kind]. intros [= <- <-] Hv Hs Hm.
    destruct (IH next _ _ E Hv Hs Hm) as (e & -> & He). exists e. split; [done|].
    by eapply announces_same; [..|exact He].
  - visit_input ps E. cbn. by intros [= <- _].
  - visit_input l El. visit_input r Er. intros (-> & e & Ee & ->)%f_up_join (Hvl & Hvr & Hn) Hs Hm.
    exists e. split; [done|]. cbn in Hs, Hm.
    rewrite !andb_true_iff in Hs. rewrite !andb_true_iff in Hm. destruct Hs as [[_ [Hjl Hsl]] [Hjr Hsr]], Hm as [[->%bool_decide_eq_true Hml] Hmr].
    destruct (IHl next _ _ El Hvl Hsl Hml) as (el & -> & Hel), (IHr _ _ _ Er Hvr Hsr Hmr) as (er & -> & Her).
    eapply announces_join; [exact Hel|exact Her|done..].
  - visit_input p E.
  - done.
Qed.
End Propagation.

(** ** Bounds of the rows of a microbatch *)

Section Bounds.
Context (expr_sem : string → list Column → list Value → Value).
Context (pred_sem : string → list Column → list Value → bool).
Context (unnest_sem : string → list Value → list (list Value)).
Context (batch_sem : string → list (list (list Value)) → list (list Value)).
Implicit Types db : string → list (Z * list Value).

Notation eval := (eval expr_sem pred_sem unnest_sem batch_sem).
Notation valid := (valid unnest_sem).

Lemma valid_below n db p : valid db p → valid (below n db) p.
Proof.
  induction p as [s|sch rows|one sch|es p IH|t p IH|ps IH|t sch p IH|a p IH|p IH|t sch ps IH|ty on l r IHl IHr|op t p IH|t]
    using plan_ind; cbn; try tauto.
  - intros [Hc Hrows]. split; [done|]. intros r [_ Hr]%list_elem_of_filter. by apply Hrows.
  - intros (Hv & Hi & Hr). split; [|done]. apply valid_list in Hv. apply valid_list.
    clear -IH Hv. induction IH as [|p ps Hp _ IH]; [done|]. apply list.Forall_cons in Hv as [Hv Hvs].
    constructor; [by apply Hp|by apply IH].
Qed.

Lemma valid_scans_wf db p : valid db p → scans_wf db p.
Proof.
  induction p as [s|sch rows|one sch|es p IH|t p IH|ps IH|t sch p IH|a p IH|p IH|t sch ps IH|ty on l r IHl IHr|op t p IH|t]
    using plan_ind; cbn; try tauto.
  - intros [_ Hrows] r Hr. by apply Hrows.
  - intros (Hv & _). apply valid_list in Hv. apply scans_wf_list.
    induction IH as [|p ps Hp _ IH]; [done|]. apply list.Forall_cons in Hv as [Hv Hvs].
    constructor; [by apply Hp|by apply IH].
Qed.

(** The operators that keep the block of a row keep every bound on it. *)
Lemma eval_block_ind (P : Z → Prop) db p :
  (∀ a b, P a → P b → P (Z.max a b)) → P 0 →
  maintainable p = true → (∀ t r, r ∈ db t → P r.1) → ∀ r, r ∈ eval db p → P r.1.
Proof.
  intros Hmax H0 Hm Hdb. revert Hm.
  induction p as [s|sch rows|one sch|es p IH|t p IH|ps IH|t sch p IH|a p IH|p IH|t sch ps IH|ty on l r IHl IHr|op t p IH|t]
    using plan_ind; intros Hm x Hx; cbn in Hm, Hx.
  - apply list_elem_of_fmap in Hx as (y & -> & [_ Hy]%list_elem_of_filter). exact (Hdb _ y Hy).
  - by apply list_elem_of_fmap in Hx as (y & -> & _).
  - destruct one; [done|]. by apply elem_of_nil in Hx.
  - apply list_elem_of_fmap in Hx as (y & -> & Hy). exact (IH Hm y Hy).
  - apply list_elem_of_filter in Hx as [_ Hx]. by apply IH.
  - apply list_elem_of_bind in Hx as (q & Hx & Hq). rewrite Forall_forall in IH.
    rewrite forallb_forall in Hm. apply (IH q Hq); [|done]. by apply Hm, list_elem_of_In.
  - apply list_elem_of_bind in Hx as (y & Hx & Hy). apply list_elem_of_fmap in Hx as (z & -> & _). exact (IH Hm y Hy).
  - by apply IH.
  - by apply IH.
  - done.
  - rewrite !andb_true_iff in Hm. destruct Hm as [[->%bool_decide_eq_true Hl] Hr].
    apply join_rows_elem in Hx as (u & v & Hu & Hv & ->). apply Hmax; [exact (IHl Hl u Hu)|exact (IHr Hr v Hv)].
  - by apply list_elem_of_fmap in Hx as (y & -> & _).
  - by apply elem_of_nil in Hx.
Qed.

Lemma below_bounded n db p r :
  0 < n → maintainable p = true → r ∈ eval (below n db) p → r.1 < n.
Proof.
  intros Hn Hm. apply (eval_block_ind (λ b, b < n)); [lia|done|done|].
  by intros t x [? _]%list_elem_of_filter.
Qed.

Lemma scan_delta_bounded b_start b_end db s q r :
  scans_wf db (Scan s) → rewrite b_start b_end Delta (Scan s) = Ok q → r ∈ eval db q → b_start <= r.1.
Proof.
  intros Hwf. cbn. unfold validate_table_provider, constrain_by_range.
  destruct (scan_kind s); cbn; try done. intros [= <-]. cbn.
  intros (x & -> & [Hp Hx]%list_elem_of_filter)%list_elem_of_fmap. cbn.
  rewrite forallb_app in Hp. cbn in Hp. rewrite (Hwf x Hx) in Hp. rewrite !andb_true_iff in Hp. lia.
Qed.

(** No row of the rewritten plan is of an earlier block. *)
Lemma delta_bounded b_start b_end db p q r :
  scans_wf db p → maintainable p = true → rewrite b_start b_end Delta p = Ok q → r ∈ eval db q → b_start <= r.1.
Proof.
  revert q r.
  induction p as [s|sch rows|one sch|es p IH|t p IH|ps IH|t sch p IH|a p IH|p IH|t sch ps IH|ty on l rt IHl IHr|op t p IH|t]
    using plan_ind; intros q r Hwf Hm.
  - by apply scan_delta_bounded.
  - cbn. intros [= <-]. by intros ?%elem_of_nil.
  - cbn in Hm |- *. destruct one; [done|]. intros [= <-]. by intros ?%elem_of_nil.
  - intros (p' & Hp' & ->)%rewrite_Ok_inv (y & -> & Hy)%list_elem_of_fmap. exact (IH p' y Hwf Hm Hp' Hy).
  - intros (p' & Hp' & ->)%rewrite_Ok_inv [_ Hy]%list_elem_of_filter. exact (IH p' r Hwf Hm Hp' Hy).
  - intros (qs & Hqs%mapM_Ok_Forall2 & ->)%rewrite_Ok_inv (p' & Hr & Hp')%list_elem_of_bind.
    apply scans_wf_list in Hwf. cbn in Hm. rewrite Forall_forall in IH. rewrite Forall_forall in Hwf. rewrite forallb_forall in Hm.
    apply list_elem_of_lookup in Hp' as [i Hi]. destruct (Forall2_lookup_r _ _ _ _ _ Hqs Hi) as (p & Hp%list_elem_of_lookup_2 & Hpp).
    apply (IH p Hp p' r); [by apply Hwf|by apply Hm, list_elem_of_In|done|done].
  - intros (p' & Hp' & ->)%rewrite_Ok_inv (y & Hr & Hy)%list_elem_of_bind.
    apply list_elem_of_fmap in Hr as (z & -> & _). exact (IH p' y Hwf Hm Hp' Hy).
  - intros (p' & Hp' & ->)%rewrite_Ok_inv Hy. exact (IH p' r Hwf Hm Hp' Hy).
  - intros (p' & Hp' & ->)%rewrite_Ok_inv Hy. exact (IH p' r Hwf Hm Hp' Hy).
  - done.
  - cbn in Hm. rewrite !andb_true_iff in Hm. destruct Hm as [[->%bool_decide_eq_true Hml] Hmr], Hwf as [Hwl Hwr].
    cbn [rewrite incremental_op_kind]. destruct (rewrite b_start b_end Delta l) as [l1|e| |] eqn:El1; cbn [mbind comp_bind]; try done.
    destruct (rewrite b_start b_end History rt) as [r0|e| |]; cbn [mbind comp_bind]; try done.
    destruct (rewrite b_start b_end History l) as [l0|e| |]; cbn [mbind comp_bind]; try done.
    destruct (rewrite b_start b_end Delta rt) as [r1|e| |] eqn:Er1; cbn [mbind comp_bind]; try done. intros [= <-].
    cbn. rewrite app_nil_r, !elem_of_app.
    intros [Hx|[Hx|Hx]]; apply join_rows_elem in Hx as (u & v & Hu & Hv & ->); cbn.
    1,3: pose proof (IHl l1 u Hwl Hml eq_refl Hu); lia.
    pose proof (IHr r1 v Hwr Hmr eq_refl Hv). lia.
  - done.
  - done.
Qed.

End Bounds.

(** ** Schemas and tables of rewritten plans *)

(** The rewritten plan has the columns and the tables of the plan, and is
    incremental itself. *)
Definition same_shape (p q : LogicalPlan) : Prop :=
  schema_of q = schema_of p
  /\ extract_table_references_from_plan q = extract_table_references_from_plan p
  /\ first_error q = None.

Definition tables_of (ps : list LogicalPlan) : gset string := ⋃ (extract_table_references_from_plan <$> ps).

Lemma tables_inputs ps : list_to_set ((ps ≫= nodes) ≫= scanned) = tables_of ps.
Proof.
  unfold tables_of. induction ps as [|p ps IH]; [done|]. by rewrite bind_cons, bind_app, list_to_set_app_L, IH.
Qed.

Lemma tables_union ps : extract_table_references_from_plan (Union ps) = tables_of ps.
Proof. apply tables_inputs. Qed.

Lemma tables_meta t sch ps : extract_table_references_from_plan (Meta t sch ps) = tables_of ps.
Proof. apply tables_inputs. Qed.

Lemma tables_join ty on l r :
  extract_table_references_from_plan (Join ty on l r)
  = extract_table_references_from_plan l ∪ extract_table_references_from_plan r.
Proof.
  unfold extract_table_references_from_plan. cbn [nodes].
  rewrite bind_cons, bind_app. cbn [scanned]. by rewrite (left_id_L [] (++)), list_to_set_app_L.
Qed.

Lemma first_error_inputs qs :
  Forall (λ q, first_error q = None) qs →
  foldr (λ q found, match first_error q with Some e => Some e | None => found end) None qs = None.
Proof. induction 1 as [|q qs Hq _ IH]; [done|]. cbn. by rewrite Hq, IH. Qed.

Lemma same_shape_inputs ps qs :
  Forall2 same_shape ps qs → tables_of qs = tables_of ps /\ Forall (λ q, first_error q = None) qs.
Proof.
  unfold tables_of. induction 1 as [|p q ps qs (_ & Ht & He) _ [IHt IHe]]; [done|]. cbn. rewrite Ht, IHt.
  split; [done|by constructor].
Qed.

Lemma same_shape_union ps qs : Forall2 same_shape ps qs → same_shape (Union ps) (Union qs).
Proof.
  intros H. destruct (same_shape_inputs ps qs H) as [Ht He]. split; [|split].
  - by destruct H as [|p q ps qs [Hs _]].
  - by rewrite !tables_union.
  - by apply first_error_inputs.
Qed.

Lemma same_shape_meta t sch ps qs : Forall2 same_shape ps qs → same_shape (Meta t sch ps) (Meta t sch qs).
Proof.
  intros H. destruct (same_shape_inputs ps qs H) as [Ht He]. split; [done|split].
  - by rewrite !tables_meta.
  - by apply first_error_inputs.
Qed.

Lemma same_shape_join ty on l r l1 r1 :
  (ty = Inner \/ ty = LeftSemi \/ ty = RightSemi) → same_shape l l1 → same_shape r r1 →
  same_shape (Join ty on l r) (Join ty on l1 r1).
Proof.
  intros Hty (Hsl & Htl & Hel) (Hsr & Htr & Her). split; [cbn; by rewrite Hsl, Hsr|]. split.
  - by rewrite !tables_join, Htl, Htr.
  - by destruct Hty as [->|[-> | ->]]; cbn; rewrite Hel, Her.
Qed.

Lemma same_shape_terms p q1 q2 q3 :
  same_shape p q1 → same_shape p q2 → same_shape p q3 → same_shape p (Union [q1; q2; q3]).
Proof.
  intros (Hs1 & Ht1 & He1) (_ & Ht2 & He2) (_ & Ht3 & He3). split; [done|split].
  - rewrite tables_union. unfold tables_of. cbn. rewrite Ht1, Ht2, Ht3. set_solver.
  - cbn. by rewrite He1, He2, He3.
Qed.

Section Shapes.
Context (b_start b_end : Z).

Lemma rewrite_join_shape range ty on l r q :
  (∀ range l', rewrite b_start b_end range l = Ok l' → same_shape l l') →
  (∀ range r', rewrite b_start b_end range r = Ok r' → same_shape r r') →
  rewrite b_start b_end range (Join ty on l r) = Ok q → same_shape (Join ty on l r) q.
Proof.
  intros IHl IHr.
  assert ((ty = Inner \/ ty = LeftSemi \/ ty = RightSemi) \/ ∃ e, incremental_op_kind (Join ty on l r) = Err e) as [Hty|[e He]]
    by (destruct ty; cbn; eauto); [|cbn [rewrite]; by rewrite He].
  assert (incremental_op_kind (Join ty on l r) = Ok InnerJoin) as Hk by by destruct Hty as [->|[-> | ->]].
  cbn [rewrite]. rewrite Hk. destruct range; [|done].
  destruct (rewrite b_start b_end Delta l) as [l1| | |] eqn:El1; cbn [mbind comp_bind]; try done.
  destruct (rewrite b_start b_end History r) as [r0| | |] eqn:Er0; cbn [mbind comp_bind]; try done.
  destruct (rewrite b_start b_end History l) as [l0| | |] eqn:El0; cbn [mbind comp_bind]; try done.
  destruct (rewrite b_start b_end Delta r) as [r1| | |] eqn:Er1; cbn [mbind comp_bind]; try done.
  intros [= <-]. apply same_shape_terms; apply same_shape_join; eauto.
Qed.

Lemma rewrite_shape range p q : rewrite b_start b_end range p = Ok q → same_shape p q.
Proof.
  revert range q.
  induction p as [s|sch rows|one sch|es p IH|t p IH|ps IH|t sch p IH|a p IH|p IH|t sch ps IH|ty on l r IHl IHr|op t p IH|t]
    using plan_ind; intros range q.
  - cbn. unfold validate_table_provider, constrain_by_range. destruct (scan_kind s); cbn; try done. by intros [= <-].
  - cbn. by destruct range; intros [= <-].
  - cbn. by intros [= <-].
  - intros (p' & (Hs & Ht & He)%IH & ->)%rewrite_Ok_inv. by split.
  - intros (p' & (Hs & Ht & He)%IH & ->)%rewrite_Ok_inv. by split.
  - intros (qs & Hqs%mapM_Ok_Forall2 & ->)%rewrite_Ok_inv. apply same_shape_union. clear -IH Hqs.
    induction Hqs as [|p q ps qs Hq _ IHqs]; [done|]. apply list.Forall_cons in IH as [Hp IH]. constructor; eauto.
  - intros (p' & (Hs & Ht & He)%IH & ->)%rewrite_Ok_inv. by split.
  - intros (p' & (Hs & Ht & He)%IH & ->)%rewrite_Ok_inv. split; [cbn; by rewrite Hs|done].
  - intros (p' & (Hs & Ht & He)%IH & ->)%rewrite_Ok_inv. by split.
  - intros (qs & Hqs%mapM_Ok_Forall2 & ->)%rewrite_Ok_inv. apply same_shape_meta. clear -IH Hqs.
    induction Hqs as [|p q ps qs Hq _ IHqs]; [done|]. apply list.Forall_cons in IH as [Hp IH]. constructor; eauto.
  - by apply rewrite_join_shape.
  - by cbn.
  - by cbn.
Qed.
End Shapes.

(** The typing of the rewrite. Whatever the plan and the microbatch, the
    rewritten query has the very columns of the query, scans the same tables
    and is incremental, whether by the rule of the joins or by the replacement
    of constants. *)
Theorem incrementalize_types p b_start b_end q :
  incrementalize_plan p b_start b_end = Ok q →
  schema_of q = schema_of p
  /\ extract_table_references_from_plan q = extract_table_references_from_plan p
  /\ is_incremental q = Ok tt.
Proof.
  intros (Hs & Ht & He)%rewrite_shape. split; [done|]. split; [done|]. unfold is_incremental. by rewrite He.
Qed.

(** ** A join of two tables *)

Definition demo_select : LogicalPlan :=
  Projection [EColumn (mkColumn (Some "t") "key")] (demo_join Inner).

(** An element of a concrete list, one at a time. *)
Ltac elements H :=
  cbn in H; repeat (apply elem_of_cons in H as [->|H]; [done|]); by apply elem_of_nil in H.


Lemma incrementalize_types_witness :
  ∃ q, incrementalize_plan demo_select 2 3 = Ok q /\ schema_of q = schema_of demo_select /\ is_incremental q = Ok tt.
Proof.
  eexists. split; [reflexivity|]. destruct (incrementalize_types demo_select 2 3 _ eq_refl) as (Hs & _ & Hi).
  split; [exact Hs|exact Hi].
Defined.
