(* ===== verification/BlockComplete.v ===== *)
(** * BlockComplete

    The messages of a streaming query and the adapter that adds the
    [BlockComplete] messages
    (core/dump/src/streaming_query/message_stream_with_block_complete.rs). A
    record batch is its block number column, if it has one, and its rows. *)

From stdpp Require Import base numbers strings option list sorting.
From Stdlib Require Import ZArith Lia.
From S2P Require Import Prelude Ranges BlockRange.

Inductive StreamError :=
  | UnsupportedColumnType | NullBlockNumber | NotOrdered (a b : Z)
  | SplitAtZero | SplitOutOfBounds | UnexpectedBlockComplete (n : Z) | QueryFailed.

(** [column_by_name("_block_num")]: missing, of another type, or of numbers. *)
Inductive BlockNumColumn := NoColumn | OtherType | UInt64Array (values : list (option Z)).

Section BlockComplete.
Context {R : Type}.

Record RecordBatch := mkBatch { block_num_column : BlockNumColumn; batch_rows : list R }.

Inductive QueryMessage :=
  | MicrobatchStart (range : BlockRange) (is_reorg : bool)
  | Data (batch : RecordBatch)
  | MicrobatchEnd (range : BlockRange)
  | BlockComplete (n : Z).

Definition num_rows (b : RecordBatch) : nat := length (batch_rows b).

(** [array.slice(offset, len)] on every column *)
Definition slice_column (offset len : nat) (c : BlockNumColumn) : BlockNumColumn :=
  match c with UInt64Array vs => UInt64Array (take len (drop offset vs)) | _ => c end.

Definition slice (offset len : nat) (b : RecordBatch) : RecordBatch :=
  mkBatch (slice_column offset len (block_num_column b)) (take len (drop offset (batch_rows b))).

Inductive BatchProcessResult :=
  | PassThrough (b : RecordBatch)
  | UpdateBlockNum (b : RecordBatch) (block_num : Z)
  | Split (current_block_batch : option RecordBatch) (completed_block_num : Z)
          (next_block_batch : RecordBatch) (next_block_num : Z).

Definition extract_block_numbers (c : BlockNumColumn) : comp StreamError (list Z) :=
  match c with
  | UInt64Array vs => ok_or (mapM id vs) NullBlockNumber
  | _ => Err UnsupportedColumnType
  end.

Fixpoint validate_block_ordering (block_nums : list Z) : comp StreamError unit :=
  match block_nums with
  | a :: (b :: _) as rest => if b <? a then Err (NotOrdered a b) else validate_block_ordering rest
  | _ => Ok tt
  end.

Definition split_record_batch (b : RecordBatch) (split_index : nat)
    : comp StreamError (RecordBatch * RecordBatch) :=
  if Nat.eqb split_index 0 then Err SplitAtZero
  else if Nat.leb (num_rows b) split_index then Err SplitOutOfBounds
  else Ok (slice 0 split_index b, slice split_index (num_rows b - split_index) b).

Definition process_data_batch (b : RecordBatch) (last_block_num : option Z)
    : comp StreamError BatchProcessResult :=
  match block_num_column b with
  | NoColumn => Ok (PassThrough b)
  | c =>
      block_nums ← extract_block_numbers c;
      match block_nums with
      | [] => Ok (PassThrough b)
      | first_block :: _ =>
          _ ← validate_block_ordering block_nums;
          let last_block := List.last block_nums first_block in
          match last_block_num with
          | None => Ok (UpdateBlockNum b last_block)
          | Some current_block =>
              if first_block =? current_block then
                if last_block =? current_block then Ok (PassThrough b)
                else
                  split_index ← unwrap (position (λ n, current_block <? n) block_nums);
                  parts ← split_record_batch b split_index;
                  Ok (Split (Some parts.1) current_block parts.2 last_block)
              else if current_block <? first_block
              then Ok (Split None current_block b last_block)
              else Ok (UpdateBlockNum b last_block)
          end
      end
  end.

(** ** The stream *)

Record Adapter := mkAdapter {
  last_block_num : option Z;
  pending_batch : option RecordBatch;
  pending_block_complete : option Z
}.

Definition adapter_new : Adapter := mkAdapter None None None.

Abbreviation Item := (comp StreamError QueryMessage) (only parsing).

(** [poll_next] over an inner stream that is ready: the item, the adapter and
    what is left of the inner stream. *)
Definition poll_next (this : Adapter) (inner : list Item) : option Item * Adapter * list Item :=
  match pending_block_complete this with
  | Some n => (Some (Ok (BlockComplete n)), mkAdapter (last_block_num this) (pending_batch this) None, inner)
  | None =>
  match pending_batch this with
  | Some b => (Some (Ok (Data b)), mkAdapter (last_block_num this) None None, inner)
  | None =>
  match inner with
  | [] => (None, this, [])
  | Ok (MicrobatchStart range is_reorg) :: rest =>
      (Some (Ok (MicrobatchStart range is_reorg)),
       if is_reorg then mkAdapter None None None else this, rest)
  | Ok (Data batch) :: rest =>
      match process_data_batch batch (last_block_num this) with
      | Ok (PassThrough b) => (Some (Ok (Data b)), this, rest)
      | Ok (Split None completed next next_num) =>
          (Some (Ok (BlockComplete completed)), mkAdapter (Some next_num) (Some next) None, rest)
      | Ok (Split (Some b) completed next next_num) =>
          (Some (Ok (Data b)), mkAdapter (Some next_num) (Some next) (Some completed), rest)
      | Ok (UpdateBlockNum b n) => (Some (Ok (Data b)), mkAdapter (Some n) None None, rest)
      | Err e => (Some (Err e), this, rest)
      | Panic => (Some Panic, this, rest)
      | OutOfFuel => (Some OutOfFuel, this, rest)
      end
  | Ok (MicrobatchEnd range) :: rest => (Some (Ok (MicrobatchEnd range)), mkAdapter None None None, rest)
  | Ok (BlockComplete n) :: rest => (Some (Err (UnexpectedBlockComplete n)), this, rest)
  | other :: rest => (Some other, this, rest)
  end end end.

(** Everything the adapter yields over a finite inner stream. *)
Fixpoint drain (fuel : nat) (this : Adapter) (inner : list Item) : total (list Item) :=
  match fuel with
  | O => OutOfFuel
  | S fuel =>
      match poll_next this inner with
      | (None, _, _) => Ok []
      | (Some item, this', inner') => items ← drain fuel this' inner'; Ok (item :: items)
      end
  end.

(** ** What the streams carry *)

Definition nums_of (b : RecordBatch) : list Z :=
  match block_num_column b with UInt64Array vs => omap id vs | _ => [] end.

(** The rows and the boundaries of microbatches, in order. *)
Inductive Event := RowEvent (r : R) | StartEvent (range : BlockRange) (is_reorg : bool) | EndEvent (range : BlockRange).

Definition events (m : QueryMessage) : list Event :=
  match m with
  | MicrobatchStart r b => [StartEvent r b]
  | Data b => RowEvent <$> batch_rows b
  | MicrobatchEnd r => [EndEvent r]
  | BlockComplete _ => []
  end.

(** The block numbers of the data up to the end of the microbatch or a reorg. *)
Fixpoint nums_until_end (ms : list QueryMessage) : list Z :=
  match ms with
  | [] => []
  | Data b :: ms => nums_of b ++ nums_until_end ms
  | MicrobatchEnd _ :: _ | MicrobatchStart _ true :: _ => []
  | _ :: ms => nums_until_end ms
  end.

(** No row of a block follows the completion of the block. *)
Definition completions_ok (ms : list QueryMessage) : Prop :=
  ∀ before n after, ms = before ++ BlockComplete n :: after → Forall (λ k, n < k) (nums_until_end after).

(** The messages of a query whose results are ordered by block within each
    microbatch, [last] the block reached. *)
Fixpoint ordered (last : option Z) (ms : list QueryMessage) : Prop :=
  match ms with
  | [] => True
  | MicrobatchStart _ is_reorg :: ms => ordered (if is_reorg then None else last) ms
  | MicrobatchEnd _ :: ms => ordered None ms
  | BlockComplete _ :: _ => False
  | Data b :: ms =>
      match block_num_column b with
      | NoColumn => ordered last ms
      | OtherType => False
      | UInt64Array vs =>
          length vs = length (batch_rows b)
          /\ ∃ nums, vs = Some <$> nums /\ StronglySorted Z.le nums
             /\ Forall (λ k, from_option (λ l, l <= k) True last) nums
             /\ ordered (match nums with [] => last | n :: _ => Some (List.last nums n) end) ms
      end
  end.

Lemma validate_sorted nums : StronglySorted Z.le nums → validate_block_ordering nums = Ok tt.
Proof.
  induction nums as [|a [|b rest] IH]; [done..|]. intros [Hs Ha]%StronglySorted_inv.
  apply list.Forall_cons in Ha as [Hab _]. cbn [validate_block_ordering].
  destruct (Z.ltb_spec b a); [lia|]. by apply IH.
Qed.

Lemma validate_Ok_sorted nums : validate_block_ordering nums = Ok tt → StronglySorted Z.le nums.
Proof.
  intros H. apply Sorted_StronglySorted; [by intros ? ? ?; lia|].
  induction nums as [|a [|b rest] IH]; [by constructor|by repeat constructor|].
  cbn [validate_block_ordering] in H. destruct (Z.ltb_spec b a); [done|]. constructor; [by apply IH|]. by constructor.
Qed.

Lemma mapM_Some_fmap (nums : list Z) : mapM id (Some <$> nums) = Some nums.
Proof. apply mapM_Some, Forall2_fmap_l. induction nums; by constructor. Qed.

Lemma omap_Some_fmap (nums : list Z) : omap id (Some <$> nums) = nums.
Proof. induction nums as [|n nums IH]; [done|]. cbn. by rewrite IH. Qed.

Lemma sorted_le_last nums n k : StronglySorted Z.le (n :: nums) → k ∈ n :: nums → k <= List.last (n :: nums) n.
Proof.
  revert n k. induction nums as [|m nums IH]; intros n k Hs Hk.
  { apply list_elem_of_singleton in Hk as ->. by cbn. }
  apply StronglySorted_inv in Hs as [Hs Hn]. rewrite (last_cons_default n n m).
  change (List.last (n :: m :: nums) m) with (List.last (m :: nums) m).
  apply elem_of_cons in Hk as [->|Hk]; [|by apply IH].
  transitivity m; [by apply list.Forall_cons in Hn as [? _]|]. apply IH; [done|by left].
Qed.

(** The part of a batch after the first block, if there is one. *)
Lemma split_position nums l n :
  StronglySorted Z.le (n :: nums) → n = l → List.last (n :: nums) n ≠ l →
  ∃ i, position (λ k, l <? k) (n :: nums) = Some i /\ (0 < i < length (n :: nums))%nat
       /\ Forall (λ k, l < k) (drop i (n :: nums)).
Proof.
  intros Hs -> Hlast. destruct (position (λ k, l <? k) (l :: nums)) as [i|] eqn:E.
  - exists i. split; [done|]. apply position_Some in E as (x & Hx & Hlt & _). apply Z.ltb_lt in Hlt. split.
    + split; [|by apply lookup_lt_Some in Hx]. destruct i; [|lia]. injection Hx as ->. lia.
    + apply Forall_lookup. intros j y Hy. rewrite lookup_drop in Hy.
      destruct j as [|j]; [rewrite Nat.add_0_r in Hy; congruence|].
      assert (x <= y); [|lia]. apply (StronglySorted_lookup _ _ i (i + S j) x y Hs); [done|done|lia].
  - exfalso. apply Hlast. rewrite position_None in E. destruct (last_in_list l nums) as (y & Hy & ->).
    rewrite Forall_forall in E. specialize (E y Hy). apply Z.ltb_ge in E.
    apply StronglySorted_inv in Hs as [_ Hs]. apply elem_of_cons in Hy as [->|Hy]; [done|].
    rewrite Forall_forall in Hs. specialize (Hs y Hy). lia.
Qed.

(** The block reached after a batch. *)
Definition reached (last : option Z) (nums : list Z) : option Z :=
  match nums with [] => last | n :: _ => Some (List.last nums n) end.

(** What becomes of an ordered batch. *)
Inductive processed (b : RecordBatch) (last : option Z) (nums : list Z) : BatchProcessResult → Prop :=
| processed_pass : reached last nums = last → processed b last nums (PassThrough b)
| processed_update n : reached last nums = Some n → processed b last nums (UpdateBlockNum b n)
| processed_new l n : last = Some l → reached last nums = Some n → l < n → Forall (λ k, l < k) nums →
    processed b last nums (Split None l b n)
| processed_split l n p1 p2 : last = Some l → reached last nums = Some n → l < n →
    batch_rows p1 ++ batch_rows p2 = batch_rows b → nums_of p1 ++ nums_of p2 = nums →
    Forall (λ k, l < k) (nums_of p2) → processed b last nums (Split (Some p1) l p2 n).

Lemma split_parts b nums i :
  block_num_column b = UInt64Array (Some <$> nums) → length nums = num_rows b → (0 < i < length nums)%nat →
  ∃ p1 p2, split_record_batch b i = Ok (p1, p2) /\ batch_rows p1 ++ batch_rows p2 = batch_rows b
           /\ nums_of p1 ++ nums_of p2 = nums /\ nums_of p2 = drop i nums.
Proof.
  intros Hc Hlen Hi. unfold split_record_batch.
  destruct (Nat.eqb_spec i 0); [lia|]. destruct (Nat.leb_spec (num_rows b) i); [lia|].
  eexists _, _. split; [done|].
  assert (∀ A (l : list A), length l = num_rows b → take (num_rows b - i) (drop i l) = drop i l) as Htake.
  { intros A l Hl. apply take_ge. rewrite length_drop. lia. }
  unfold nums_of, slice, slice_column. cbn [batch_rows block_num_column]. rewrite Hc, !drop_0.
  rewrite !Htake by (rewrite ?length_fmap; done).
  rewrite <- fmap_take, <- fmap_drop, !omap_Some_fmap. split; [apply take_drop|]. split; [apply take_drop|done].
Qed.

Lemma process_ordered b last nums :
  block_num_column b = UInt64Array (Some <$> nums) → length nums = num_rows b → StronglySorted Z.le nums →
  Forall (λ k, from_option (λ l, l <= k) True last) nums →
  ∃ r, process_data_batch b last = Ok r /\ processed b last nums r.
Proof.
  intros Hc Hlen Hs Hl. unfold process_data_batch. rewrite Hc. cbn [extract_block_numbers].
  rewrite mapM_Some_fmap. cbn [ok_or mbind comp_bind]. destruct nums as [|n nums].
  { eexists. split; [done|]. by apply processed_pass. }
  rewrite (validate_sorted _ Hs). cbn [mbind comp_bind]. set (m := List.last (n :: nums) n).
  destruct last as [l|]; [|eexists; split; [done|by apply processed_update]].
  apply list.Forall_cons in Hl as [Hln Hl]. cbn in Hln.
  destruct (Z.eqb_spec n l) as [Heq|Hne].
  - destruct (Z.eqb_spec m l) as [Hm|Hm].
    + eexists. split; [done|]. apply processed_pass. cbn -[List.last]. fold m. by rewrite Hm.
    + destruct (split_position nums l n Hs Heq Hm) as (i & -> & Hi & Hd).
      destruct (split_parts b (n :: nums) i Hc Hlen Hi) as (p1 & p2 & Hp & Hr & Hn & Hn2).
      cbn [unwrap mbind comp_bind]. rewrite Hp. cbn [mbind comp_bind fst snd]. eexists. split; [done|].
      apply processed_split; [done|done| |done|done|by rewrite Hn2].
      pose proof (sorted_le_last nums n n Hs ltac:(by left)) as Hle. fold m in Hle. lia.
  - destruct (Z.ltb_spec l n); [|lia]. eexists. split; [done|]. apply processed_new; [done|done| |].
    { pose proof (sorted_le_last nums n n Hs ltac:(by left)) as Hle. fold m in Hle. lia. }
    apply list.Forall_cons. split; [done|]. apply StronglySorted_inv in Hs as [_ Hs].
    eapply Forall_impl; [exact Hs|]. cbn. lia.
Qed.

Lemma reached_bound last nums k :
  StronglySorted Z.le nums → Forall (λ k, from_option (λ l, l <= k) True last) nums →
  from_option (λ l, l <= k) True (reached last nums) →
  from_option (λ l, l <= k) True last /\ Forall (λ j, j <= k) nums.
Proof.
  intros Hs Hl Hk. destruct nums as [|n nums]; [done|]. cbn -[List.last] in Hk.
  assert (Forall (λ j, j <= k) (n :: nums)) as Hall.
  { apply Forall_forall. intros j Hj. pose proof (sorted_le_last nums n j Hs Hj). lia. }
  split; [|done]. apply list.Forall_cons in Hl as [Hln _]. apply list.Forall_cons in Hall as [? _].
  destruct last; cbn in *; [lia|done].
Qed.

Lemma completions_cons m ms :
  (∀ n, m = BlockComplete n → Forall (λ k, n < k) (nums_until_end ms)) → completions_ok ms → completions_ok (m :: ms).
Proof.
  intros Hm Hms before n after. destruct before as [|x before]; cbn; intros [= -> ->]; [by apply Hm|].
  by apply (Hms before).
Qed.

Definition carried (last : option Z) (ms out : list QueryMessage) : Prop :=
  (out ≫= events) = (ms ≫= events) /\ completions_ok out
  /\ Forall (λ k, from_option (λ l, l <= k) True last) (nums_until_end out).

Lemma carried_cons last last' m ms out :
  (∀ n, m ≠ BlockComplete n) → carried last' ms out →
  Forall (λ k, from_option (λ l, l <= k) True last) (nums_until_end (m :: out)) → carried last (m :: ms) (m :: out).
Proof.
  intros Hm (He & Hc & _) Hn. split; [cbn; by rewrite He|]. split; [|done].
  apply completions_cons; [|done]. by intros n ->; destruct (Hm n).
Qed.

Lemma carried_data last b nums r ms out :
  block_num_column b = UInt64Array (Some <$> nums) → StronglySorted Z.le nums →
  Forall (λ k, from_option (λ l, l <= k) True last) nums → processed b last nums r →
  carried (reached last nums) ms out →
  carried last (Data b :: ms)
    match r with
    | PassThrough b' | UpdateBlockNum b' _ => Data b' :: out
    | Split None l b' _ => BlockComplete l :: Data b' :: out
    | Split (Some p1) l p2 _ => Data p1 :: BlockComplete l :: Data p2 :: out
    end.
Proof.
  intros Hb Hs Hl Hp Hout.
  assert (nums_of b = nums) as Hnb by (unfold nums_of; by rewrite Hb, omap_Some_fmap).
  assert (∀ k, k ∈ nums_until_end out → from_option (λ l, l <= k) True (reached last nums)) as Hreach.
  { intros k Hk. destruct Hout as (_ & _ & Hn). rewrite Forall_forall in Hn. by apply Hn. }
  assert (Forall (λ k, from_option (λ l, l <= k) True last) (nums_until_end (Data b :: out))) as Hall.
  { cbn [nums_until_end]. rewrite Hnb. apply list.Forall_app. split; [done|]. apply Forall_forall. intros k Hk.
    by apply (reached_bound last nums k Hs Hl (Hreach k Hk)). }
  destruct Hp as [_|n _|l n -> Hr Hln Hnums|l n p1 p2 -> Hr Hln Hrows Hparts Hp2];
    [by apply (carried_cons _ (reached last nums))..| |]; rewrite Hr in *.
  - destruct Hout as (He & Hc & Hn). split; [cbn; by rewrite He|]. split; [|done].
    apply completions_cons; [|by apply completions_cons]. intros ? [= <-]. cbn [nums_until_end]. rewrite Hnb.
    apply list.Forall_app. split; [done|]. apply Forall_forall. intros k Hk. specialize (Hreach k Hk). cbn in Hreach. lia.
  - destruct Hout as (He & Hc & Hn). split.
    { cbn. by rewrite He, (assoc_L (++)), <- fmap_app, Hrows. }
    split; [|by cbn [nums_until_end] in *; rewrite (assoc_L (++)), Hparts, <- Hnb].
    apply completions_cons; [done|]. apply completions_cons; [|by apply completions_cons].
    intros ? [= <-]. cbn [nums_until_end]. apply list.Forall_app. split; [done|].
    apply Forall_forall. intros k Hk. specialize (Hreach k Hk). cbn in Hreach. lia.
Qed.

Lemma drain_S fuel this inner :
  drain (S fuel) this inner =
  match poll_next this inner with
  | (None, _, _) => Ok []
  | (Some item, this', inner') => items ← drain fuel this' inner'; Ok (item :: items)
  end.
Proof. done. Qed.

Lemma drain_ordered ms last fuel :
  ordered last ms → (3 * length ms < fuel)%nat →
  ∃ out, drain fuel (mkAdapter last None None) (Ok <$> ms) = Ok (Ok <$> out) /\ carried last ms out.
Proof.
  revert last fuel. induction ms as [|m ms IH]; intros last fuel Ho Hf.
  { destruct fuel as [|fuel]; [lia|]. exists []. split; [done|]. split; [done|]. split; [|by apply Forall_nil].
    intros [|? ?] n after; done. }
  cbn [length] in Hf. do 3 (destruct fuel as [|fuel]; [lia|]).
  destruct m as [r reorg|b|r|n]; cbn [ordered] in Ho; [| | |done].
  - destruct (IH _ (S (S fuel)) Ho ltac:(lia)) as (out & Hd & Hc). exists (MicrobatchStart r reorg :: out). split.
    { rewrite drain_S. cbn -[drain]. destruct reorg; by rewrite Hd. }
    eapply carried_cons; [done|exact Hc|]. destruct reorg; [by apply Forall_nil|apply Hc].
  - destruct (block_num_column b) as [| |vs] eqn:Eb; [|done|].
    + destruct (IH _ (S (S fuel)) Ho ltac:(lia)) as (out & Hd & Hc). exists (Data b :: out). split.
      { rewrite drain_S. cbn -[drain]. unfold process_data_batch. rewrite Eb. cbn -[drain]. by rewrite Hd. }
      eapply carried_cons; [done|exact Hc|]. cbn [nums_until_end]. unfold nums_of. rewrite Eb. apply Hc.
    + destruct Ho as (Hlen & nums & -> & Hs & Hl & Ho). rewrite length_fmap in Hlen.
      destruct (process_ordered b last nums Eb Hlen Hs Hl) as (r & Hr & Hp). fold (reached last nums) in Ho.
      assert (∀ f, (3 * length ms < f)%nat → ∃ out,
        drain f (mkAdapter (reached last nums) None None) (Ok <$> ms) = Ok (Ok <$> out) /\ carried (reached last nums) ms out)
        as Hrest by (intros f; by apply IH).
      pose proof (carried_data last b nums r ms) as Hc.
      destruct Hp as [He|n He|l n -> He Hln Hn|l n p1 p2 -> He Hln Hrows Hparts Hn].
      1,2: destruct (Hrest (S (S fuel)) ltac:(lia)) as (out & Hd & Hout).
      3: destruct (Hrest (S fuel) ltac:(lia)) as (out & Hd & Hout).
      4: destruct (Hrest fuel ltac:(lia)) as (out & Hd & Hout).
      all: eexists; split; [|by apply Hc; [..|econstructor|exact Hout]].
      all: rewrite drain_S; cbn -[drain]; rewrite Hr; cbn -[drain]; rewrite ?He in Hd.
      3: rewrite drain_S; cbn -[drain].
      4: rewrite drain_S; cbn -[drain]; rewrite drain_S; cbn -[drain].
      all: by rewrite Hd.
  - destruct (IH _ (S (S fuel)) Ho ltac:(lia)) as (out & Hd & Hc). exists (MicrobatchEnd r :: out). split.
    { rewrite drain_S. cbn -[drain]. by rewrite Hd. }
    eapply carried_cons; [done|exact Hc|]. by apply Forall_nil.
Qed.

Lemma validate_unsorted nums :
  ~ Sorted Z.le nums → ∃ a b, validate_block_ordering nums = Err (NotOrdered a b).
Proof.
  induction nums as [|a [|b rest] IH]; intros Hs; [by destruct Hs; constructor|by destruct Hs; repeat constructor|].
  cbn [validate_block_ordering]. destruct (Z.ltb_spec b a); [by eexists _, _|]. apply IH. intros Hr. apply Hs.
  constructor; [done|]. by constructor.
Qed.

(** C18: over the messages of a query ordered by block within each microbatch,
    the adapter yields the same rows and the same microbatch boundaries in the
    same order, without errors, and after a [BlockComplete] for a block no row
    of that block or of an earlier one follows in the microbatch; a batch whose
    own rows are out of order is an error. *)
Theorem block_complete_correct (ms : list QueryMessage) fuel :
  ordered None ms → (3 * length ms < fuel)%nat →
  (∃ out, drain fuel adapter_new (Ok <$> ms) = Ok (Ok <$> out)
     /\ (out ≫= events) = (ms ≫= events)
     /\ ∀ before n after, out = before ++ BlockComplete n :: after → Forall (λ k, n < k) (nums_until_end after))
  /\ ∀ b nums last, block_num_column b = UInt64Array (Some <$> nums) → ~ Sorted Z.le nums →
       ∃ x y, process_data_batch b last = Err (NotOrdered x y).
Proof.
  intros Ho Hf. split.
  - destruct (drain_ordered ms None fuel Ho Hf) as (out & Hd & He & Hc & _). by exists out.
  - intros b nums last Hb Hs. unfold process_data_batch. rewrite Hb. cbn [extract_block_numbers].
    rewrite mapM_Some_fmap. cbn [ok_or mbind comp_bind].
    destruct (validate_unsorted nums Hs) as (x & y & E). destruct nums as [|n nums]; [by destruct Hs; constructor|].
    rewrite E. by exists x, y.
Qed.
End BlockComplete.

(** ** The property at a concrete input *)

(** Blocks 100 to 102 in two batches, the second split after block 100. *)
Definition demo_range : BlockRange := mkBlockRange (mkRange 100 102) "test" 7 None.

Definition demo_messages : list (@QueryMessage nat) :=
  [MicrobatchStart demo_range false;
   Data (mkBatch (UInt64Array [Some 100]) [1%nat]);
   Data (mkBatch (UInt64Array (Some <$> [100; 101; 102; 102])) [2; 3; 4; 5]%nat);
   MicrobatchEnd demo_range].

Lemma block_complete_correct_witness :
  drain 13 adapter_new (Ok <$> demo_messages) =
    Ok (Ok <$> [MicrobatchStart demo_range false;
                Data (mkBatch (UInt64Array [Some 100]) [1%nat]);
                Data (mkBatch (UInt64Array [Some 100]) [2%nat]);
                BlockComplete 100;
                Data (mkBatch (UInt64Array (Some <$> [101; 102; 102])) [3; 4; 5]%nat);
                MicrobatchEnd demo_range])
  /\ ∃ out, drain 13 adapter_new (Ok <$> demo_messages) = Ok (Ok <$> out)
            /\ (out ≫= events) = (demo_messages ≫= events).
Proof.
  split; [by vm_compute|].
  destruct (block_complete_correct demo_messages 13) as [(out & Hd & He & _) _]; [|cbn; lia|by exists out].
  cbn. split; [done|]. exists [100]. split; [done|]. split; [by repeat constructor|]. split; [by repeat constructor|].
  split; [done|]. exists [100; 101; 102; 102]. split; [done|].
  split; [repeat constructor; lia|]. split; [repeat constructor; cbn; lia|done].
Defined.
