(* ===== verification/StreamingQuery.v ===== *)
(** * StreamingQuery

    The loop of a streaming query (core/dump/src/streaming_query.rs): the
    blocks table of the network, the next microbatch and its direction, the
    rewind after a reorg, the loop and the handle's stream. A query over the
    blocks table returns the first row that satisfies its constraints; the
    execution of the plan over a range is a parameter of each turn. *)

From stdpp Require Import base numbers gmap strings option sets list sorting.
From Stdlib Require Import ZArith Lia.
From S2P Require Import Prelude Ranges BlockRange BlockComplete.

(** ** Waiting for updates *)

Record TableUpdates := mkUpdates { subscriptions : gset Z; ready : bool }.

(** A table is notified, or its notifications end. *)
Inductive Wake := Changed (location : Z) | Ended (location : Z).

Definition set_ready (u : TableUpdates) : TableUpdates := mkUpdates (subscriptions u) true.

(** [None]: never returns. *)
Definition changed (w : Wake) (u : TableUpdates) : option TableUpdates :=
  if ready u then Some (mkUpdates (subscriptions u) false)
  else if bool_decide (subscriptions u = ∅) then None
  else Some match w with
            | Changed _ => u
            | Ended location => mkUpdates (subscriptions u ∖ {[location]}) false
            end.

(** ** The blocks table *)

Record BlockRow := mkRow { row_number : Z; row_hash : BlockHash; row_prev_hash : option BlockHash }.

Definition row_watermark (r : BlockRow) : Watermark := mkWatermark (row_number r) (row_hash r).

(** What one turn sees: the canonical segments of the source tables, the blocks
    table with its canonical segments, their rows and the rows of all segments,
    and the canonical chain of the destination, if there is one. *)
Record Snapshot := mkSnapshot {
  source_chains : list (list Segment);
  blocks_segments : list Segment;
  blocks_rows : list BlockRow;
  fork_rows : list BlockRow;
  destination_chain : option (list Segment)
}.

(** [SELECT hash, parent_hash ... WHERE block_num = n [AND hash = h] LIMIT 1] *)
Definition blocks_table_fetch (rows : list BlockRow) (number : Z) (h : option BlockHash) : option BlockRow :=
  List.find (λ r, (row_number r =? number) && match h with Some h => row_hash r =? h | None => true end) rows.

(** The answer of the segment metadata, from the last segment on. *)
Fixpoint segment_answer (segments : list Segment) (w : Watermark) : option bool :=
  match segments with
  | [] => None
  | s :: rest =>
      if seg_start s <=? wm_number w then
        if seg_end s =? wm_number w then Some (hash (seg_range s) =? wm_hash w) else None
      else segment_answer rest w
  end.

Definition blocks_table_contains (snap : Snapshot) (w : Watermark) : bool :=
  match segment_answer (rev (blocks_segments snap)) w with
  | Some answer => answer
  | None => bool_decide (is_Some (blocks_table_fetch (blocks_rows snap) (wm_number w) (Some (wm_hash w))))
  end.

(** ** The next microbatch *)

Record SegmentStart := mkStart { start_number : Z; start_prev_hash : option BlockHash }.

Inductive StreamDirection := ForwardFrom (s : SegmentStart) | ReorgFrom (s : SegmentStart).

Definition segment_start (d : StreamDirection) : SegmentStart :=
  match d with ForwardFrom s | ReorgFrom s => s end.

Definition is_reorg (d : StreamDirection) : bool :=
  match d with ReorgFrom _ => true | ForwardFrom _ => false end.

Definition start_of_row (r : BlockRow) : SegmentStart := mkStart (row_number r) (row_prev_hash r).

Record MicrobatchRange := mkMicrobatch { mb_range : BlockRange; mb_direction : StreamDirection }.

Record StreamingQuery := mkQuery {
  table_updates : TableUpdates;
  start_block : Z;
  end_block : option Z;
  microbatch_max_interval : Z;
  query_network : string;
  prev_watermark : option Watermark
}.

Definition with_updates (u : TableUpdates) (q : StreamingQuery) : StreamingQuery :=
  mkQuery u (start_block q) (end_block q) (microbatch_max_interval q) (query_network q) (prev_watermark q).

Definition with_watermark (w : Watermark) (q : StreamingQuery) : StreamingQuery :=
  mkQuery (table_updates q) (start_block q) (end_block q) (microbatch_max_interval q) (query_network q) (Some w).

(** The latest segment of each chain whose watermark the blocks table has. *)
Fixpoint chain_watermark (snap : Snapshot) (reversed_chain : list Segment) : option Watermark :=
  match reversed_chain with
  | [] => None
  | s :: rest =>
      let w := watermark (seg_range s) in
      if blocks_table_contains snap w then Some w else chain_watermark snap rest
  end.

(** [min_by_key]: the first of the least. *)
Definition min_watermark (ws : list Watermark) : option Watermark :=
  match ws with
  | [] => None
  | w :: ws => Some (foldl (λ m x, if wm_number x <? wm_number m then x else m) w ws)
  end.

Definition latest_src_watermark (snap : Snapshot) : option Watermark :=
  ws ← mapM (λ chain, chain_watermark snap (rev chain)) (source_chains snap);
  min_watermark ws.

(** The walk from a forked block to its ancestors, down to one the blocks table
    has: the number of the last forked block. *)
Fixpoint walk_fork (fuel : nat) (snap : Snapshot) (fork : option BlockRow) (min_fork_block_num : Z) : total Z :=
  match fork with
  | None => Ok min_fork_block_num
  | Some block =>
      match fuel with
      | O => OutOfFuel
      | S fuel =>
          if blocks_table_contains snap (row_watermark block) then Ok min_fork_block_num
          else walk_fork fuel snap
                 (blocks_table_fetch (fork_rows snap) (saturating_sub64 (row_number block) 1) (row_prev_hash block))
                 (row_number block)
      end
  end.

(** A derived dataset rewinds to the start of the segment, or to block 0. *)
Definition rewind (destination : option (list Segment)) (n : Z) : Z :=
  match destination with
  | None => n
  | Some segments =>
      match List.find (λ s, range_contains (numbers (seg_range s)) n) (rev segments) with
      | Some s => seg_start s
      | None => 0
      end
  end.

Definition reorg_base (snap : Snapshot) (prev : Watermark) : total (option BlockRow) :=
  let fuel := S (S (Z.to_nat (wm_number prev))) in
  n ← walk_fork fuel snap (blocks_table_fetch (fork_rows snap) (wm_number prev) (Some (wm_hash prev))) (wm_number prev);
  Ok (blocks_table_fetch (blocks_rows snap) (rewind (destination_chain snap) n) None).

Definition next_microbatch_start (q : StreamingQuery) (snap : Snapshot) : total (option StreamDirection) :=
  match prev_watermark q with
  | None =>
      let block := blocks_table_fetch (blocks_rows snap) (start_block q) None in
      Ok (option_map (λ b, ForwardFrom (start_of_row b)) block)
  | Some prev =>
      if blocks_table_contains snap prev
      then Ok (Some (ForwardFrom (mkStart (add64 (wm_number prev) 1) (Some (wm_hash prev)))))
      else
        block ← reorg_base snap prev;
        mret (M := comp Empty_set) (option_map (λ b, ReorgFrom (start_of_row b)) block)
  end.

(** The number of the last block, and whether the batch was limited. *)
Definition microbatch_limit (q : StreamingQuery) (s : SegmentStart) (common : Watermark) : Z * bool :=
  let e := match end_block q with Some e => Z.min (wm_number common) e | None => wm_number common end in
  let limit := sub64 (add64 (start_number s) (microbatch_max_interval q)) 1 in
  if limit <? e then (limit, true) else (e, false).

Definition next_microbatch_end (q : StreamingQuery) (snap : Snapshot) (s : SegmentStart) (common : Watermark)
    : option Watermark * StreamingQuery :=
  let '(number, limited) := microbatch_limit q s common in
  let q' := if limited then with_updates (set_ready (table_updates q)) q else q in
  (if number <? start_number s then None
   else if number =? wm_number common then Some common
   else row_watermark <$> blocks_table_fetch (blocks_rows snap) number None, q').

Definition next_microbatch_range (snap : Snapshot) : stm StreamingQuery Empty_set (option MicrobatchRange) := λ q,
  match latest_src_watermark snap with
  | None => (Ok None, q)
  | Some common =>
      if wm_number common <? start_block q then (Ok None, q)
      else
        match next_microbatch_start q snap with
        | Ok None => (Ok None, q)
        | Ok (Some direction) =>
            let s := segment_start direction in
            let '(e, q') := next_microbatch_end q snap s common in
            (Ok ((λ e, mkMicrobatch
                   (mkBlockRange (mkRange (start_number s) (wm_number e)) (query_network q)
                      (wm_hash e) (start_prev_hash s)) direction) <$> e), q')
        | Err e => (Err e, q)
        | Panic => (Panic, q)
        | OutOfFuel => (OutOfFuel, q)
        end
  end.

(** ** The loop *)

(** How a turn of the loop, or the query, ends. *)
Inductive TurnEnd :=
  | Waits          (** no table is left that could wake it *)
  | Continues
  | Completed      (** [Ok(())] *)
  | Failed (e : StreamError)
  | Diverged       (** the walk to the base of a reorg does not end *)
  | Panicked.

Section Loop.
Context {R : Type}.

(** The results of the plan over a range: batches, then perhaps an error. *)
Record TurnInput := mkTurn {
  wake : Wake;
  snapshot : Snapshot;
  plan_results : Z → Z → list (@RecordBatch R) * option StreamError
}.

(** One turn: the messages sent, how it ends, the query after it. *)
Definition execute_turn (i : TurnInput) (q : StreamingQuery) : list (@QueryMessage R) * TurnEnd * StreamingQuery :=
  match changed (wake i) (table_updates q) with
  | None => ([], Waits, q)
  | Some u =>
      match next_microbatch_range (snapshot i) (with_updates u q) with
      | (Ok None, q) => ([], Continues, q)
      | (Ok (Some (mkMicrobatch range direction)), q) =>
          let '(batches, failure) := plan_results i (start range) (end_ range) in
          let sent := MicrobatchStart range (is_reorg direction) :: (Data <$> batches) in
          match failure with
          | Some e => (sent, Failed e, q)
          | None =>
              (sent ++ [MicrobatchEnd range],
               if bool_decide (end_block q = Some (end_ range)) then Completed else Continues,
               if bool_decide (end_block q = Some (end_ range)) then q
               else with_watermark (watermark range) q)
          end
      | (Err e, q) => match e with end
      | (Panic, q) => ([], Panicked, q)
      | (OutOfFuel, q) => ([], Diverged, q)
      end
  end.

Fixpoint execute (inputs : list TurnInput) (q : StreamingQuery) : list (@QueryMessage R) * TurnEnd * StreamingQuery :=
  match inputs with
  | [] => ([], Continues, q)
  | i :: inputs =>
      let '(sent, e, q) := execute_turn i q in
      match e with
      | Continues => let '(more, e, q) := execute inputs q in (sent ++ more, e, q)
      | _ => (sent, e, q)
      end
  end.

(** [StreamingQueryHandle::as_stream]: the messages through the adapter, then
    the error that ended the task. *)
Definition as_stream (sent : list (@QueryMessage R)) (e : TurnEnd) : total (list (comp StreamError (@QueryMessage R))) :=
  items ← drain (S (3 * length sent)) adapter_new (Ok <$> sent);
  Ok (items ++ match e with Failed e => [Err e] | _ => [] end).
End Loop.

(** ** The blocks table as the queries see it *)

Lemma fetch_Some rows n h r :
  blocks_table_fetch rows n h = Some r → r ∈ rows /\ row_number r = n /\ ∀ x, h = Some x → row_hash r = x.
Proof.
  unfold blocks_table_fetch. intros [Hin Hp]%List.find_some. apply andb_true_iff in Hp as [Hn Hh].
  split; [by apply list_elem_of_In|]. split; [by apply Z.eqb_eq|]. intros x ->. by apply Z.eqb_eq.
Qed.

(** A watermark that a canonical segment ends with, or that is one of the rows. *)
Definition in_blocks (snap : Snapshot) (w : Watermark) : Prop :=
  (∃ s, s ∈ blocks_segments snap /\ watermark (seg_range s) = w)
  \/ (∃ r, r ∈ blocks_rows snap /\ row_watermark r = w).

Lemma fetch_in_blocks snap n h r :
  blocks_table_fetch (blocks_rows snap) n h = Some r → in_blocks snap (row_watermark r) /\ row_number r = n.
Proof. intros (? & ? & _)%fetch_Some. split; [|done]. right. by exists r. Qed.

Lemma segment_answer_true segments w :
  segment_answer segments w = Some true → ∃ s, s ∈ segments /\ watermark (seg_range s) = w.
Proof.
  induction segments as [|s segments IH]; cbn [segment_answer]; [done|].
  destruct (_ <=? _).
  - destruct (Z.eqb_spec (seg_end s) (wm_number w)) as [He|]; [|done]. intros [= Hh%Z.eqb_eq]. exists s.
    split; [by left|]. unfold watermark. destruct w. cbn in *. unfold seg_end in He. by subst.
  - intros (s' & ? & ?)%IH. exists s'. split; [by right|done].
Qed.

Lemma contains_in_blocks snap w : blocks_table_contains snap w = true → in_blocks snap w.
Proof.
  unfold blocks_table_contains. destruct (segment_answer _ _) as [b|] eqn:E.
  - intros ->. apply segment_answer_true in E as (s & Hs & Hw). left. exists s. split; [|done].
    apply list_elem_of_In, in_rev. by apply list_elem_of_In.
  - intros [r Hr]%bool_decide_eq_true. apply fetch_Some in Hr as (Hin & Hn & Hh). right. exists r. split; [done|].
    unfold row_watermark. destruct w. cbn in *. by rewrite Hn, (Hh _ eq_refl).
Qed.

Lemma chain_watermark_Some snap chain w :
  chain_watermark snap chain = Some w →
  blocks_table_contains snap w = true /\ ∃ s, s ∈ chain /\ watermark (seg_range s) = w.
Proof.
  induction chain as [|s chain IH]; cbn [chain_watermark]; cbv zeta; [done|].
  destruct (blocks_table_contains snap (watermark (seg_range s))) eqn:E.
  - intros [= <-]. split; [done|]. exists s. split; [by left|done].
  - intros (? & s' & ? & ?)%IH. split; [done|]. exists s'. split; [by right|done].
Qed.

Lemma foldl_min_watermark (ws : list Watermark) w :
  let m := foldl (λ m x, if wm_number x <? wm_number m then x else m) w ws in
  m ∈ w :: ws /\ ∀ x, x ∈ w :: ws → wm_number m <= wm_number x.
Proof.
  revert w. induction ws as [|y ws IH]; intros w; cbn [foldl].
  { split; [by left|]. intros x ->%list_elem_of_singleton. done. }
  destruct (Z.ltb_spec (wm_number y) (wm_number w)).
  - destruct (IH y) as [Hin Hle]. split; [by right|]. intros x [->|Hx]%elem_of_cons; [|by apply Hle].
    specialize (Hle y ltac:(by left)). lia.
  - destruct (IH w) as [Hin Hle]. split.
    + apply elem_of_cons in Hin as [->|?]; [by left|by right; right].
    + intros x [->|[->|Hx]%elem_of_cons]%elem_of_cons; [apply Hle; by left| |apply Hle; by right].
      specialize (Hle w ltac:(by left)). lia.
Qed.

(** The common watermark is one of the sources', the blocks table has it, and
    every source reaches it with a block the blocks table has. *)
Lemma latest_src_watermark_Some snap common :
  latest_src_watermark snap = Some common →
  in_blocks snap common
  /\ Forall (λ chain, ∃ s, s ∈ chain /\ wm_number common <= seg_end s /\ in_blocks snap (watermark (seg_range s)))
            (source_chains snap).
Proof.
  unfold latest_src_watermark. destruct (mapM _ _) as [ws|] eqn:E; cbn [mbind option_bind]; [|done].
  destruct ws as [|w ws]; [done|]. cbn [min_watermark]. intros [= <-].
  destruct (foldl_min_watermark ws w) as [Hin Hle]. set (m := foldl _ w ws) in *. apply mapM_Some in E.
  assert (Forall2 (λ chain x, (∃ s, s ∈ chain /\ watermark (seg_range s) = x) /\ in_blocks snap x) (source_chains snap) (w :: ws)) as H2.
  { eapply Forall2_impl; [exact E|]. intros chain x (Hc & s & Hs & Hw)%chain_watermark_Some.
    split; [|by apply contains_in_blocks]. exists s. split; [|done]. apply list_elem_of_In, in_rev. by apply list_elem_of_In. }
  split.
  - destruct (list_elem_of_lookup_1 _ _ Hin) as (k & Hk). destruct (Forall2_lookup_r _ _ _ _ _ H2 Hk) as (c & _ & _ & ?). done.
  - apply Forall_forall. intros chain Hc. apply list_elem_of_lookup_1 in Hc as (k & Hk).
    destruct (Forall2_lookup_l _ _ _ _ _ H2 Hk) as (x & Hx & (s & Hs & <-) & Hb). exists s. split; [done|]. split; [|done].
    specialize (Hle _ (list_elem_of_lookup_2 _ _ _ Hx)). exact Hle.
Qed.

(** ** The base of a reorg *)

(** Row [p] is the parent of row [b]. *)
Definition parent_of (b p : BlockRow) : Prop :=
  row_number p = row_number b - 1 /\ row_prev_hash b = Some (row_hash p).

(** The rows of all segments name their parents, and no block of height 0 has a
    parent of height 0. *)
Record fork_rows_wf (rows : list BlockRow) : Prop := {
  fork_number r : r ∈ rows → 0 <= row_number r;
  fork_parent r : r ∈ rows → is_Some (row_prev_hash r);
  fork_genesis r p : r ∈ rows → p ∈ rows → row_number r = 0 → row_number p = 0 →
    row_prev_hash r ≠ Some (row_hash p)
}.

Lemma fetch_parent rows b p :
  fork_rows_wf rows → b ∈ rows →
  blocks_table_fetch rows (saturating_sub64 (row_number b) 1) (row_prev_hash b) = Some p →
  p ∈ rows /\ parent_of b p.
Proof.
  intros Hwf Hb (Hp & Hn & Hh)%fetch_Some. split; [done|].
  destruct (fork_parent rows Hwf b Hb) as [h Eh]. specialize (Hh h Eh). split; [|congruence].
  pose proof (fork_number rows Hwf b Hb). unfold saturating_sub64 in Hn.
  destruct (decide (row_number b = 0)); [|lia]. exfalso.
  apply (fork_genesis rows Hwf b p Hb Hp); [done|lia|congruence].
Qed.


Lemma fetch_None rows n h r :
  blocks_table_fetch rows n h = None → r ∈ rows → row_number r = n → (∀ x, h = Some x → row_hash r = x) → False.
Proof.
  intros E Hr <- Hh. unfold blocks_table_fetch in E.
  apply List.find_none with (x := r) in E; [|by apply list_elem_of_In].
  rewrite Z.eqb_refl in E. cbn in E. destruct h as [x|]; [|done]. by rewrite (Hh x eq_refl), Z.eqb_refl in E.
Qed.

(** A run of forked blocks, each the parent of the one before, down to one
    whose parent is in the blocks table or unknown. *)
Record forked_run (snap : Snapshot) (first : BlockRow) (path : list BlockRow) (last_forked : Z) : Prop := {
  run_known : Forall (λ b, b ∈ fork_rows snap) (first :: path);
  run_forked : Forall (λ b, blocks_table_contains snap (row_watermark b) = false) (first :: path);
  run_parents : windows parent_of (first :: path);
  run_last : row_number (List.last (first :: path) first) = last_forked;
  run_base p : p ∈ fork_rows snap → parent_of (List.last (first :: path) first) p →
    blocks_table_contains snap (row_watermark p) = true
}.

Lemma walk_fork_run snap b m fuel :
  fork_rows_wf (fork_rows snap) → b ∈ fork_rows snap → blocks_table_contains snap (row_watermark b) = false →
  (Z.to_nat (row_number b) + 1 < fuel)%nat →
  ∃ path n, walk_fork fuel snap (Some b) m = Ok n /\ forked_run snap b path n.
Proof.
  intros Hwf. revert b m. induction fuel as [|fuel IH]; intros b m Hb Hc Hf; [lia|].
  cbn [walk_fork]. rewrite Hc.
  destruct (blocks_table_fetch (fork_rows snap) _ _) as [p|] eqn:E.
  - destruct (fetch_parent _ _ _ Hwf Hb E) as [Hp Hparent].
    assert (Z.to_nat (row_number p) + 1 < fuel)%nat as Hf'.
    { destruct Hparent as [Hn _]. pose proof (fork_number _ Hwf p Hp). lia. }
    destruct (blocks_table_contains snap (row_watermark p)) eqn:Ep.
    + destruct fuel as [|fuel']; [lia|]. cbn [walk_fork]. rewrite Ep. exists [], (row_number b). split; [done|].
      split; [by apply list.Forall_singleton..|done|done|]. cbn. intros p' Hp' [Hn' Hh'].
      destruct Hparent as [Hn Hh]. unfold row_watermark in *. congruence.
    + destruct (IH p (row_number b) Hp Ep Hf') as (path & n & Hw & [Hk Hfk Hpa Hl Hba]).
      exists (p :: path), n. split; [done|].
      rewrite (last_cons_default p p b) in Hl, Hba.
      split; [by apply list.Forall_cons..|by split|done|done].
  - exists [], (row_number b). destruct fuel as [|fuel']; [lia|]. cbn [walk_fork]. split; [done|].
    split; [by apply list.Forall_singleton..|done|done|]. cbn. intros p Hp [Hn Hh]. exfalso.
    pose proof (fork_number _ Hwf p Hp).
    apply (fetch_None _ _ _ p E Hp); [unfold saturating_sub64; lia|congruence].
Qed.

Lemma rewind_spec destination n :
  match destination with
  | None => rewind destination n = n
  | Some segments =>
      (∃ s, s ∈ segments /\ seg_covers n s /\ rewind destination n = seg_start s)
      \/ (Forall (λ s, ~ seg_covers n s) segments /\ rewind destination n = 0)
  end.
Proof.
  destruct destination as [segments|]; [|done]. unfold rewind.
  assert (∀ s, range_contains (numbers (seg_range s)) n = true ↔ seg_covers n s) as Hc.
  { intros s. unfold range_contains, seg_covers, seg_start, seg_end, start, end_. rewrite andb_true_iff, !Z.leb_le. done. }
  destruct (List.find _ (rev segments)) as [s|] eqn:E.
  - apply List.find_some in E as [Hin Hs]. left. exists s. apply in_rev, list_elem_of_In in Hin.
    split; [done|]. split; [by apply Hc|done].
  - right. split; [|done]. apply Forall_forall. intros s Hs%list_elem_of_In%in_rev.
    apply (List.find_none _ _ E) in Hs. rewrite <- Hc. by rewrite Hs.
Qed.

Lemma parents_descend b path : windows parent_of (b :: path) → row_number (List.last (b :: path) b) <= row_number b.
Proof.
  revert b. induction path as [|p path IH]; intros b Hw; [by cbn|].
  destruct Hw as [[Hn _] Hw]. specialize (IH p Hw). rewrite (last_cons_default p p b) in IH.
  change (List.last (b :: p :: path) b) with (List.last (p :: path) b). lia.
Qed.

Lemma reorg_base_walk snap prev :
  fork_rows_wf (fork_rows snap) → 0 <= wm_number prev →
  ∃ n, reorg_base snap prev = Ok (blocks_table_fetch (blocks_rows snap) (rewind (destination_chain snap) n) None)
    /\ n <= wm_number prev
    /\ ((∃ first path, row_watermark first = prev /\ forked_run snap first path n)
        \/ (n = wm_number prev /\ ∀ r, r ∈ fork_rows snap → row_watermark r = prev → blocks_table_contains snap prev = true)).
Proof.
  intros Hwf Hpos. unfold reorg_base.
  destruct (blocks_table_fetch (fork_rows snap) _ _) as [b|] eqn:E.
  - apply fetch_Some in E as (Hb & Hn & Hh). specialize (Hh _ eq_refl).
    assert (row_watermark b = prev) as Hw by (destruct prev; unfold row_watermark; cbn in *; by subst).
    destruct (blocks_table_contains snap (row_watermark b)) eqn:Ec.
    + exists (wm_number prev). cbn [walk_fork]. rewrite Ec. split; [done|]. split; [done|]. right. split; [done|].
      intros _ _ _. by rewrite <- Hw.
    + destruct (walk_fork_run snap b (wm_number prev) (S (S (Z.to_nat (wm_number prev)))) Hwf Hb Ec ltac:(lia))
        as (path & n & Hwalk & Hrun).
      exists n. rewrite Hwalk. split; [done|]. destruct (id Hrun) as [_ _ Hpa Hl _]. split.
      * pose proof (parents_descend b path Hpa). lia.
      * left. by exists b, path.
  - exists (wm_number prev). split; [done|]. split; [done|]. right. split; [done|]. intros r Hr Hw. exfalso.
    apply (fetch_None _ _ _ r E Hr); destruct prev; unfold row_watermark in Hw; cbn in *; congruence.
Qed.

Lemma reorg_base_row snap prev row :
  reorg_base snap prev = Ok (Some row) → row ∈ blocks_rows snap /\
    ∃ n, walk_fork (S (S (Z.to_nat (wm_number prev)))) snap
           (blocks_table_fetch (fork_rows snap) (wm_number prev) (Some (wm_hash prev))) (wm_number prev) = Ok n
         /\ row_number row = rewind (destination_chain snap) n.
Proof.
  unfold reorg_base. cbv zeta. destruct (walk_fork _ _ _ _) as [n|[]| |]; cbn [mbind comp_bind]; try done.
  intros [= Er]. apply fetch_Some in Er as (? & ? & _). split; [done|]. by exists n.
Qed.

(** ** Microbatches *)

Lemma next_microbatch_end_Some q snap s common e q' :
  next_microbatch_end q snap s common = (Some e, q') → in_blocks snap common →
  in_blocks snap e /\ wm_number e = (microbatch_limit q s common).1
  /\ start_number s <= wm_number e <= wm_number common
  /\ (∀ b, end_block q = Some b → wm_number e <= b)
  /\ (is_u64 (start_number s) → 0 < microbatch_max_interval q →
      start_number s + microbatch_max_interval q <= u64_max →
      wm_number e < start_number s + microbatch_max_interval q)
  /\ (q' = q \/ q' = with_updates (set_ready (table_updates q)) q).
Proof.
  unfold next_microbatch_end. destruct (microbatch_limit q s common) as [number limited] eqn:El.
  intros Heq Hin. destruct (Z.ltb_spec number (start_number s)) as [|Hge]; [done|].
  assert (number <= wm_number common /\ (∀ b, end_block q = Some b → number <= b) /\
    (is_u64 (start_number s) → 0 < microbatch_max_interval q →
      start_number s + microbatch_max_interval q <= u64_max →
      number < start_number s + microbatch_max_interval q)) as (Hcommon & Hb & Hint).
  { unfold microbatch_limit in El. destruct (Z.ltb_spec (sub64 (add64 (start_number s) (microbatch_max_interval q)) 1)
      (match end_block q with Some e => Z.min (wm_number common) e | None => wm_number common end)) as [Hlt|Hle];
      injection El as <- <-.
    - split_and!.
      + destruct (end_block q); lia.
      + intros b Eb. rewrite Eb in Hlt. lia.
      + intros Hu Hpos Hmax. unfold is_u64 in Hu. rewrite add64_small by (unfold is_u64; lia).
        rewrite sub64_small by (unfold is_u64; lia). lia.
    - split_and!.
      + destruct (end_block q); lia.
      + intros b Eb. rewrite Eb. lia.
      + intros Hu Hpos Hmax. unfold is_u64 in Hu. rewrite add64_small in Hle by (unfold is_u64; lia).
        rewrite sub64_small in Hle by (unfold is_u64; lia). lia. }
  assert (in_blocks snap e /\ wm_number e = number) as [He Hne].
  { destruct (Z.eqb_spec number (wm_number common)) as [->|Hne]; [by injection Heq as <- _|].
    destruct (blocks_table_fetch (blocks_rows snap) number None) as [r|] eqn:Er; [|done].
    injection Heq as <- _. by apply fetch_in_blocks in Er as [? ?]. }
  split; [done|]. rewrite Hne. split_and!; [done..|].
  injection Heq as _ <-. destruct limited; auto.
Qed.

Lemma next_range_Some snap q r d q' :
  next_microbatch_range snap q = (Ok (Some (mkMicrobatch r d)), q') →
  ∃ common e, latest_src_watermark snap = Some common /\ next_microbatch_start q snap = Ok (Some d)
    /\ next_microbatch_end q snap (segment_start d) common = (Some e, q')
    /\ r = mkBlockRange (mkRange (start_number (segment_start d)) (wm_number e)) (query_network q)
             (wm_hash e) (start_prev_hash (segment_start d)).
Proof.
  unfold next_microbatch_range. destruct (latest_src_watermark snap) as [common|]; [|done].
  destruct (_ <? _); [done|]. destruct (next_microbatch_start q snap) as [[direction|]|[]| |]; try done.
  destruct (next_microbatch_end q snap (segment_start direction) common) as [[e|] q1] eqn:E; cbn; [|done].
  intros [= <- -> <-]. by exists common, e.
Qed.

(** A turn without a microbatch changes the readiness at most. *)
Lemma next_range_None snap q q' :
  next_microbatch_range snap q = (Ok None, q') → q' = q \/ ∃ u, q' = with_updates u q.
Proof.
  unfold next_microbatch_range. destruct (latest_src_watermark snap) as [common|]; [|intros [= <-]; by left].
  destruct (_ <? _); [intros [= <-]; by left|].
  destruct (next_microbatch_start q snap) as [[d|]|[]| |]; try done; [|intros [= <-]; by left].
  unfold next_microbatch_end. destruct (microbatch_limit _ _ _) as [n [|]]; cbn;
    intros [= _ <-]; [right; by eexists|by left].
Qed.

(** Where a microbatch may start. *)
Definition direction_ok (snap : Snapshot) (q : StreamingQuery) (r : BlockRange) (d : StreamDirection) : Prop :=
  match prev_watermark q, d with
  | None, ForwardFrom _ =>
      start r = start_block q /\ ∃ row, row ∈ blocks_rows snap /\ row_number row = start r /\ prev_hash r = row_prev_hash row
  | Some w, ForwardFrom _ =>
      blocks_table_contains snap w = true /\ start r = add64 (wm_number w) 1 /\ prev_hash r = Some (wm_hash w)
  | Some w, ReorgFrom _ =>
      blocks_table_contains snap w = false
      /\ ∃ row, row ∈ blocks_rows snap /\ reorg_base snap w = Ok (Some row)
                /\ start r = row_number row /\ prev_hash r = row_prev_hash row
  | None, ReorgFrom _ => False
  end.

Lemma next_start_ok snap q r d :
  next_microbatch_start q snap = Ok (Some d) →
  start r = start_number (segment_start d) → prev_hash r = start_prev_hash (segment_start d) →
  direction_ok snap q r d.
Proof.
  unfold next_microbatch_start, direction_ok. intros Hd Hs Hp. destruct (prev_watermark q) as [w|].
  - destruct (blocks_table_contains snap w) eqn:Ec; [by injection Hd as <-|].
    destruct (reorg_base snap w) as [[row|]|[]| |] eqn:Er; cbn in Hd; try done.
    injection Hd as <-. cbn [segment_start start_number start_prev_hash start_of_row] in *.
    split; [done|]. exists row. split_and!; try done. by apply reorg_base_row in Er as [? _].
  - destruct (blocks_table_fetch (blocks_rows snap) (start_block q) None) as [row|] eqn:Er; cbn in Hd; [|done].
    injection Hd as <-. cbn in *. apply fetch_Some in Er as (? & Hn & _). split; [congruence|].
    exists row. split_and!; congruence.
Qed.

(** ** Properties *)

(** C16: a microbatch is a non-empty range that ends at a block of the blocks
    table, not above the end block, the configured interval or what any source
    table has reached on the chain of the blocks table; it starts right after
    the previous one, hash-linked to it, exactly when the blocks table still
    has the previous watermark, and at the base of the reorg otherwise. *)
Theorem next_range_correct snap q r d q' :
  next_microbatch_range snap q = (Ok (Some (mkMicrobatch r d)), q') →
  start r <= end_ r
  /\ in_blocks snap (watermark r)
  /\ (∀ b, end_block q = Some b → end_ r <= b)
  /\ (is_u64 (start r) → 0 < microbatch_max_interval q → start r + microbatch_max_interval q <= u64_max →
      end_ r < start r + microbatch_max_interval q)
  /\ Forall (λ chain, ∃ s, s ∈ chain /\ end_ r <= seg_end s /\ in_blocks snap (watermark (seg_range s)))
            (source_chains snap)
  /\ direction_ok snap q r d
  /\ prev_watermark q' = prev_watermark q.
Proof.
  intros (common & e & Hc & Hd & He & ->)%next_range_Some.
  apply latest_src_watermark_Some in Hc as [Hin Hsrc].
  apply next_microbatch_end_Some in He as (Hine & _ & [Hge Hle] & Hb & Hint & Hq'); [|done].
  split; [done|]. split; [by destruct e|]. split; [done|]. split; [done|]. split; [|split].
  - eapply Forall_impl; [exact Hsrc|]. intros chain (s & Hs & Hws & Hb'). exists s. split; [done|]. split; [|done].
    unfold end_. cbn. lia.
  - by apply next_start_ok.
  - by destruct Hq' as [->| ->].
Qed.

(** C17: the base of a reorg. The walk over the forked rows ends, at the last
    block of a run of forked blocks linked by parent hashes from the previous
    watermark down to one whose parent the blocks table has (or at the previous
    block itself if its row is not known); a query without a destination
    restarts at that block, a derived dataset at the start of the canonical
    segment that holds it, or at block 0 if none does. *)
Theorem reorg_base_correct snap prev :
  fork_rows_wf (fork_rows snap) → 0 <= wm_number prev →
  ∃ n base, reorg_base snap prev = Ok (blocks_table_fetch (blocks_rows snap) base None)
    /\ n <= wm_number prev
    /\ ((∃ first path, row_watermark first = prev /\ forked_run snap first path n)
        \/ (n = wm_number prev /\ ∀ r, r ∈ fork_rows snap → row_watermark r = prev → blocks_table_contains snap prev = true))
    /\ match destination_chain snap with
       | None => base = n
       | Some segments =>
           (∃ s, s ∈ segments /\ seg_covers n s /\ base = seg_start s)
           \/ (Forall (λ s, ~ seg_covers n s) segments /\ base = 0)
       end.
Proof.
  intros Hwf Hpos. destruct (reorg_base_walk snap prev Hwf Hpos) as (n & Hr & Hle & Hrun).
  exists n, (rewind (destination_chain snap) n). split; [done|]. split; [done|]. split; [done|].
  apply (rewind_spec (destination_chain snap) n).
Qed.

(** A query resumed from a watermark at or above its end block neither sends
    anything nor completes: every turn finds an empty range and waits for the
    next update, as long as the blocks table has the watermark. *)
Theorem complete_dump_never_ends {R} (inputs : list (@TurnInput R)) q w e :
  prev_watermark q = Some w → end_block q = Some e → 0 <= wm_number w < u64_max → e <= wm_number w →
  Forall (λ i, blocks_table_contains (snapshot i) w = true) inputs →
  ∃ q', execute inputs q = ([], Continues, q') \/ execute inputs q = ([], Waits, q').
Proof.
  intros Hw He Hu Hle Hc. revert q Hw He. induction Hc as [|i inputs Hi _ IH]; intros q Hw He.
  { exists q. by left. }
  cbn [execute]. unfold execute_turn. destruct (changed _ _) as [u|]; [|exists q; by right].
  assert (∃ q1, next_microbatch_range (snapshot i) (with_updates u q) = (Ok None, q1)
          /\ prev_watermark q1 = Some w /\ end_block q1 = Some e) as (q1 & -> & Hw1 & He1).
  { unfold next_microbatch_range. destruct (latest_src_watermark _) as [common|]; [|by exists (with_updates u q)].
    destruct (_ <? _); [by exists (with_updates u q)|]. unfold next_microbatch_start. cbn [prev_watermark with_updates].
    rewrite Hw, Hi. cbn [segment_start].
    destruct (next_microbatch_end _ _ _ _) as [[x|] q1] eqn:E.
    - exfalso. unfold next_microbatch_end in E. destruct (microbatch_limit _ _ _) as [number limited] eqn:El.
      cbn [start_number] in E. rewrite add64_small in E by (unfold is_u64; lia).
      assert (number <= e) as Hn.
      { unfold microbatch_limit in El. cbn [end_block with_updates start_number microbatch_max_interval] in El. rewrite He in El.
        destruct (Z.ltb_spec (sub64 (add64 (add64 (wm_number w) 1) (microbatch_max_interval q)) 1) (Z.min (wm_number common) e)); injection El as <- _; lia. }
      destruct (Z.ltb_spec number (wm_number w + 1)); [done|lia].
    - exists q1. split; [done|]. unfold next_microbatch_end in E. destruct (microbatch_limit _ _ _) as [number limited].
      injection E as _ <-. by destruct limited. }
  destruct (IH q1 Hw1 He1) as (q2 & [-> | ->]); exists q2; [by left|by right].
Qed.

(** ** The properties at concrete inputs *)

(** Blocks 0 to 4, and a branch that left the chain after block 2. *)
Definition demo_rows : list BlockRow :=
  [mkRow 0 10 (Some 0); mkRow 1 11 (Some 10); mkRow 2 12 (Some 11); mkRow 3 13 (Some 12); mkRow 4 14 (Some 13)].

Definition demo_forked : list BlockRow := [mkRow 3 93 (Some 12); mkRow 4 94 (Some 93)].

Definition demo_segment : Segment :=
  mkSegment 1 (mkBlockRange (mkRange 0 4) "test" 14 (Some 0)) (mkObjectMeta "" 0 0).

Definition demo_snapshot (destination : option (list Segment)) : Snapshot :=
  mkSnapshot [[demo_segment]] [demo_segment] demo_rows (demo_rows ++ demo_forked) destination.

Definition demo_query (end_block : option Z) (w : option Watermark) : StreamingQuery :=
  mkQuery (mkUpdates {[1]} true) 0 end_block 100 "test" w.

Definition demo_turn (l : Wake) : TurnInput (R := unit) := mkTurn l (demo_snapshot None) (λ _ _, ([], None)).

(** On the chain, the next microbatch starts after block 1. *)
Lemma next_range_correct_witness :
  ∃ r d q', next_microbatch_range (demo_snapshot None) (demo_query None (Some (mkWatermark 1 11))) = (Ok (Some (mkMicrobatch r d)), q')
    /\ r = mkBlockRange (mkRange 2 4) "test" 14 (Some 11)
    /\ start r <= end_ r /\ is_reorg d = false.
Proof.
  eexists _, _, _. split; [by vm_compute|].
  destruct (next_range_correct (demo_snapshot None) (demo_query None (Some (mkWatermark 1 11)))
    (mkBlockRange (mkRange 2 4) "test" 14 (Some 11)) (ForwardFrom (mkStart 2 (Some 11)))
    (demo_query None (Some (mkWatermark 1 11)))) as (H & _); [by vm_compute|done].
Defined.

Ltac list_cases H := repeat (apply elem_of_cons in H as [->|H]); [..|by apply elem_of_nil in H].

Lemma demo_fork_rows_wf : fork_rows_wf (demo_rows ++ demo_forked).
Proof.
  split; cbn.
  - intros r Hr. list_cases Hr; cbn; lia.
  - intros r Hr. list_cases Hr; by eexists.
  - intros r p Hr Hp. list_cases Hr; list_cases Hp; cbn; congruence.
Qed.

(** The branch is left at block 3. *)
Lemma reorg_base_correct_witness :
  ∃ n base, reorg_base (demo_snapshot None) (mkWatermark 4 94) = Ok (blocks_table_fetch demo_rows base None)
    /\ base = n /\ blocks_table_fetch demo_rows base None = Some (mkRow 3 13 (Some 12)).
Proof.
  destruct (reorg_base_correct (demo_snapshot None) (mkWatermark 4 94)) as (n & base & Hr & _ & _ & Hb);
    [apply demo_fork_rows_wf|cbn; lia|].
  exists n, base. split; [done|]. split; [done|]. vm_compute in Hr. vm_compute. congruence.
Defined.

(** A dump up to block 4 of a table that has block 4 never ends. *)
Lemma complete_dump_never_ends_witness :
  ∃ q', execute [demo_turn (Changed 1); demo_turn (Changed 1); demo_turn (Changed 1)]
          (demo_query (Some 4) (Some (mkWatermark 4 14))) = ([], Continues, q')
        \/ execute [demo_turn (Changed 1); demo_turn (Changed 1); demo_turn (Changed 1)]
          (demo_query (Some 4) (Some (mkWatermark 4 14))) = ([], Waits, q').
Proof.
  apply (complete_dump_never_ends _ _ (mkWatermark 4 14) 4); [done|done|unfold u64_max; cbn; lia|done|].
  repeat (apply list.Forall_cons; split; [by vm_compute|]). by apply list.Forall_nil.
Defined.
