(* ===== verification/BTree.v ===== *)
(** * BTree

    The ordered maps of the Rust standard library: [BTreeMap] as the list of its
    entries in increasing order of their keys, and the orders of the keys. *)

From stdpp Require Import base numbers list option sorting sets.
From Stdlib Require Import ZArith Lia.
From S2P Require Import Prelude.

(** ** Orders *)

Class Ord (K : Type) := ord : K → K → comparison.

Class OrdLaws (K : Type) `{Ord K} := {
  ord_eq x y : ord x y = Eq ↔ x = y;
  ord_opp x y : ord y x = CompOpp (ord x y);
  ord_trans x y z : ord x y = Lt → ord y z = Lt → ord x z = Lt
}.

#[global] Instance Z_ord : Ord Z := Z.compare.

#[global] Instance Z_ord_laws : OrdLaws Z.
Proof.
  split; unfold ord, Z_ord.
  - apply Z.compare_eq_iff.
  - intros x y. apply Z.compare_antisym.
  - intros x y z. rewrite !Z.compare_lt_iff. lia.
Qed.

(** Sequences in lexicographic order. *)
Fixpoint list_compare {A} (f : A → A → comparison) (l k : list A) : comparison :=
  match l, k with
  | [], [] => Eq
  | [], _ :: _ => Lt
  | _ :: _, [] => Gt
  | x :: l, y :: k => match f x y with Eq => list_compare f l k | c => c end
  end.

#[global] Instance list_ord `{Ord A} : Ord (list A) := list_compare ord.

#[global] Instance list_ord_laws `{OrdLaws A} : OrdLaws (list A).
Proof.
  split; unfold ord, list_ord.
  - intros l. induction l as [|x l IH]; intros [|y k]; cbn; try done.
    destruct (ord x y) eqn:E.
    + apply ord_eq in E as ->. rewrite IH. naive_solver.
    + split; [done|]. intros [= -> ->]. by rewrite (proj2 (ord_eq y y)) in E.
    + split; [done|]. intros [= -> ->]. by rewrite (proj2 (ord_eq y y)) in E.
  - intros l. induction l as [|x l IH]; intros [|y k]; cbn; try done.
    rewrite (ord_opp x y). destruct (ord x y); cbn; [apply IH|done|done].
  - intros l. induction l as [|x l IH]; intros [|y k] [|z m]; cbn; try done.
    destruct (ord x y) eqn:E1, (ord y z) eqn:E2; try done.
    + apply ord_eq in E1 as ->, E2 as ->. rewrite (proj2 (ord_eq z z)) by done. apply IH.
    + apply ord_eq in E1 as ->. by rewrite E2.
    + apply ord_eq in E2 as ->. by rewrite E1.
    + by rewrite (ord_trans x y z).
Qed.

(** The order of a newtype is the one of its content. *)
Definition ord_by {K L} `{Ord L} (f : K → L) : Ord K := λ x y, ord (f x) (f y).

Lemma ord_by_laws {K L} `{OrdLaws L} (f : K → L) : Inj (=) (=) f → @OrdLaws K (ord_by f).
Proof.
  intros Hf. split; unfold ord, ord_by.
  - intros x y. rewrite ord_eq. split; [apply Hf|by intros ->].
  - intros x y. apply ord_opp.
  - intros x y z. apply ord_trans.
Qed.

(** Pairs, the first component first. *)
#[global] Instance prod_ord `{Ord A, Ord B} : Ord (A * B) := λ x y,
  match ord x.1 y.1 with Eq => ord x.2 y.2 | c => c end.

#[global] Instance prod_ord_laws `{OrdLaws A, OrdLaws B} : OrdLaws (A * B).
Proof.
  split; unfold ord, prod_ord.
  - intros [a b] [c d]. cbn. destruct (ord a c) eqn:E.
    + apply ord_eq in E as ->. rewrite ord_eq. naive_solver.
    + split; [done|]. intros [= -> ->]. by rewrite (proj2 (ord_eq c c)) in E.
    + split; [done|]. intros [= -> ->]. by rewrite (proj2 (ord_eq c c)) in E.
  - intros [a b] [c d]. cbn. rewrite (ord_opp a c). destruct (ord a c); cbn; [apply ord_opp|done|done].
  - intros [a b] [c d] [e f]. cbn. destruct (ord a c) eqn:E1, (ord c e) eqn:E2; try done.
    + apply ord_eq in E1 as ->, E2 as ->. rewrite (proj2 (ord_eq e e)) by done. apply ord_trans.
    + apply ord_eq in E1 as ->. by rewrite E2.
    + apply ord_eq in E2 as ->. by rewrite E1.
    + by rewrite (ord_trans a c e).
Qed.

(** ** Maps *)

Abbreviation BTreeMap K V := (list (K * V)).

Section Maps.
Context {K V : Type} `{OrdLaws K}.
Implicit Types m : BTreeMap K V.

Fixpoint get (k : K) m : option V :=
  match m with
  | [] => None
  | (k', v) :: m => match ord k k' with Eq => Some v | _ => get k m end
  end.

(** [BTreeMap::insert]: a present key gets the new value. *)
Fixpoint btree_insert (k : K) (v : V) m : BTreeMap K V :=
  match m with
  | [] => [(k, v)]
  | (k', v') :: m' =>
      match ord k k' with
      | Lt => (k, v) :: m
      | Eq => (k, v) :: m'
      | Gt => (k', v') :: btree_insert k v m'
      end
  end.

(** [collect()] *)
Definition btree_collect (l : list (K * V)) : BTreeMap K V := foldl (λ m kv, btree_insert kv.1 kv.2 m) [] l.

Definition contains_key (k : K) m : bool := match get k m with Some _ => true | None => false end.

Definition sorted m : Prop := StronglySorted (λ x y, ord x.1 y.1 = Lt) m.

Lemma ord_refl (k : K) : ord k k = Eq.
Proof. by apply ord_eq. Qed.

#[local] Instance ord_eq_dec : EqDecision K.
Proof.
  intros x y. destruct (ord x y) eqn:E; [left; by apply ord_eq|..]; right; intros ->; by rewrite ord_refl in E.
Defined.

Lemma get_insert k v m : get k (btree_insert k v m) = Some v.
Proof.
  induction m as [|[k' v'] m IH]; cbn; [by rewrite ord_refl|].
  destruct (ord k k') eqn:E; cbn; rewrite ?ord_refl, ?E; done.
Qed.

Lemma get_insert_ne k k0 v m : k ≠ k0 → get k (btree_insert k0 v m) = get k m.
Proof.
  intros Hne. assert (ord k k0 ≠ Eq) as Ho by by rewrite ord_eq.
  induction m as [|[k' v'] m IH]; cbn; [by destruct (ord k k0)|].
  destruct (ord k0 k') eqn:E; cbn; [apply ord_eq in E as <-|..]; [by destruct (ord k k0)|by destruct (ord k k0)|].
  by rewrite IH.
Qed.

Lemma insert_elem x k v m : x ∈ btree_insert k v m → x = (k, v) \/ x ∈ m.
Proof.
  induction m as [|[k' v'] m IH]; cbn; [set_solver|]. destruct (ord k k'); set_solver.
Qed.

Lemma insert_sorted k v m : sorted m → sorted (btree_insert k v m).
Proof.
  unfold sorted. induction m as [|[k' v'] m IH]; cbn; [by repeat constructor|].
  intros [Hm Hall]%StronglySorted_inv. rewrite Forall_forall in Hall. destruct (ord k k') eqn:E.
  - apply ord_eq in E as ->. constructor; [done|]. by apply Forall_forall.
  - constructor; [constructor; [done|by apply Forall_forall]|]. apply Forall_forall. intros x [->|Hx]%elem_of_cons; [done|].
    eapply ord_trans; [exact E|]. by apply (Hall x).
  - constructor; [by apply IH|]. apply Forall_forall. intros x [->|Hx]%insert_elem; [|by apply Hall].
    cbn. by rewrite (ord_opp k k'), E.
Qed.

Lemma get_elem k v m : get k m = Some v → (k, v) ∈ m.
Proof.
  induction m as [|[k' v'] m IH]; cbn; [done|]. destruct (ord k k') eqn:E; [|set_solver..].
  apply ord_eq in E as ->. intros [= ->]. by left.
Qed.

Lemma elem_get k v m : sorted m → (k, v) ∈ m → get k m = Some v.
Proof.
  unfold sorted. induction m as [|[k' v'] m IH]; [by intros _ ?%elem_of_nil|].
  intros [Hm Hall]%StronglySorted_inv [[= -> ->]|Hin]%elem_of_cons; cbn; [by rewrite ord_refl|].
  rewrite Forall_forall in Hall. specialize (Hall (k, v) Hin). cbn in Hall.
  rewrite (ord_opp k' k), Hall. by apply IH.
Qed.

Lemma get_None k m : get k m = None ↔ k ∉ m.*1.
Proof.
  induction m as [|[k' v'] m IH]; cbn; [set_solver|]. rewrite not_elem_of_cons.
  destruct (ord k k') eqn:E.
  - apply ord_eq in E. naive_solver.
  - rewrite IH. split; [|by intros [_ ?]]. intros ?. split; [|done]. intros ->. by rewrite ord_refl in E.
  - rewrite IH. split; [|by intros [_ ?]]. intros ?. split; [|done]. intros ->. by rewrite ord_refl in E.
Qed.

Lemma get_is_Some k m : is_Some (get k m) ↔ k ∈ m.*1.
Proof.
  rewrite <- not_eq_None_Some, get_None. destruct (get k m) as [v|] eqn:E.
  - apply get_elem in E. split; [|tauto]. intros _. by eapply list_elem_of_fmap_2'.
  - apply get_None in E. split; [|tauto]. tauto.
Qed.

Lemma sorted_keys m : sorted m → NoDup m.*1.
Proof.
  unfold sorted. induction 1 as [|[k v] m _ IH Hall]; cbn; constructor; [|done].
  intros ([k' v'] & -> & Hin)%list_elem_of_fmap. rewrite Forall_forall in Hall.
  specialize (Hall _ Hin). cbn in Hall. by rewrite ord_refl in Hall.
Qed.

Lemma collect_sorted l : sorted (btree_collect l).
Proof.
  unfold btree_collect. assert (sorted []) as Hs by constructor. revert Hs. generalize ([] : BTreeMap K V) as m.
  induction l as [|[k v] l IH]; intros m Hm; cbn; [done|]. by apply IH, insert_sorted.
Qed.

Lemma get_collect_app l k v k0 :
  get k0 (btree_collect (l ++ [(k, v)])) = if bool_decide (k0 = k) then Some v else get k0 (btree_collect l).
Proof.
  unfold btree_collect. rewrite foldl_app. cbn. case_bool_decide; [subst; by rewrite get_insert|by rewrite get_insert_ne].
Qed.

Lemma get_collect_elem k v l : get k (btree_collect l) = Some v → (k, v) ∈ l.
Proof.
  induction l as [|[k' v'] l IH] using rev_ind; [done|]. rewrite get_collect_app.
  case_bool_decide; [intros [= ->]; subst; set_solver|set_solver].
Qed.

Lemma collect_keys k l : k ∈ (btree_collect l).*1 ↔ k ∈ l.*1.
Proof.
  rewrite <- get_is_Some. induction l as [|[k' v'] l IH] using rev_ind; [cbn; split; [by intros [??]|set_solver]|].
  rewrite get_collect_app, fmap_app, elem_of_app, <- IH. cbn. rewrite list_elem_of_singleton.
  case_bool_decide; split; naive_solver.
Qed.

Lemma insert_last k v m : Forall (λ x, ord x.1 k = Lt) m → btree_insert k v m = m ++ [(k, v)].
Proof.
  induction 1 as [|[k' v'] m Hlt _ IH]; [done|]. cbn in *. by rewrite (ord_opp k' k), Hlt, IH.
Qed.

(** Entries in order are collected as they are. *)
Lemma collect_id m : sorted m → btree_collect m = m.
Proof.
  unfold sorted. induction m as [|[k v] m IH] using rev_ind; [done|].
  intros Hs. unfold btree_collect in *. rewrite foldl_app. cbn.
  apply StronglySorted_app in Hs as (Hlt & Hm & _). rewrite IH by done. apply insert_last.
  apply Forall_forall. intros x Hx. apply (Hlt x (k, v)); [done|by left].
Qed.

Lemma sorted_fmap {W} (f : K * V → W) m : sorted m → StronglySorted (λ x y : K * W, ord x.1 y.1 = Lt) ((λ kv, (kv.1, f kv)) <$> m).
Proof.
  unfold sorted. induction 1 as [|[k v] m _ IH Hall]; cbn; constructor; [done|].
  apply Forall_fmap. eapply Forall_impl; [exact Hall|]. by intros [k' v'].
Qed.

(** The values, key by key. *)
Lemma omap_get m : sorted m → omap (λ k, get k m) m.*1 = m.*2.
Proof.
  intros Hs. assert (∀ l : BTreeMap K V, l ⊆ m → omap (λ k, get k m) l.*1 = l.*2) as Hl; [|by apply Hl].
  induction l as [|[k v] l IH]; [done|]. intros Hin. cbn. rewrite (elem_get k v m Hs); [|apply Hin; by left].
  f_equal. apply IH. set_solver.
Qed.
End Maps.

(** Entries made from the entries of a map under the same keys. *)
Lemma same_keys_sorted {K V W} `{Ord K} (m : BTreeMap K V) (l : BTreeMap K W) :
  Forall2 (λ x y, y.1 = x.1) m l → sorted m → sorted l.
Proof.
  unfold sorted. induction 1 as [|[k v] [k' w] m l Hk Hkeys IH]; [constructor|].
  intros [Hm Hall]%StronglySorted_inv. constructor; [by apply IH|]. cbn in *. subst k'. clear IH Hm.
  induction Hkeys as [|[k1 v1] [k2 w2] m l Hk _ IH]; [constructor|]. cbn in *. subst k2.
  apply list.Forall_cons in Hall as [Hlt Hall]. constructor; [done|by apply IH].
Qed.

Lemma mapM_collect {K V W E} `{OrdLaws K} (f : K * V → comp E (K * W)) (m : BTreeMap K V) (l : BTreeMap K W) :
  (∀ x y, f x = Ok y → y.1 = x.1) → sorted m → mapM f m = Ok l → btree_collect l = l.
Proof.
  intros Hf Hs Hl. apply collect_id. eapply same_keys_sorted; [|exact Hs]. apply mapM_Ok_Forall2 in Hl.
  eapply Forall2_impl; [exact Hl|]. intros x y. apply Hf.
Qed.

(** Values are mapped before or after they are collected. *)
Lemma insert_fmap {K V W} `{Ord K} (f : V → W) k v (m : BTreeMap K V) :
  btree_insert k (f v) ((λ kv, (kv.1, f kv.2)) <$> m) = (λ kv, (kv.1, f kv.2)) <$> btree_insert k v m.
Proof.
  induction m as [|[k' v'] m IH]; [done|]. cbn. destruct (ord k k'); cbn; [done..|]. by rewrite IH.
Qed.

Lemma collect_fmap {K V W} `{Ord K} (f : V → W) (l : list (K * V)) :
  btree_collect ((λ kv, (kv.1, f kv.2)) <$> l) = (λ kv, (kv.1, f kv.2)) <$> btree_collect l.
Proof.
  unfold btree_collect. change (@nil (K * W)) with ((λ kv : K * V, (kv.1, f kv.2)) <$> []) at 1. generalize (@nil (K * V)) as m.
  induction l as [|[k v] l IH]; intros m; [done|]. cbn [fmap list_fmap foldl fst snd]. rewrite <- IH. f_equal. apply insert_fmap.
Qed.
