(* ===== verification/Dependencies.v ===== *)
(** * Dependencies

    The orders in which tables and datasets are processed: the depth-first
    search of core/common/src/utils.rs and its clients, the order of the tables
    of a derived dataset (core/datasets-derived/src/logical.rs) and the order of
    a dataset after those it depends on (core/dataset-store/src/lib.rs). *)

From stdpp Require Import base numbers list option sets relations.
From Stdlib Require Import ZArith Lia.
From S2P Require Import Prelude BTree.

(** ** Depth-first search *)

Section Dfs.
Context {N : Type} `{EqDecision N}.

(** The three collections a search updates; the two sets as lists. *)
Record Dfs := mkDfs { ordered : list N; visited : list N; visiting : list N }.

(** Run with fuel; an error names the node found on its own path. *)
Fixpoint dfs (deps : N → list N) (fuel : nat) (node : N) : stm Dfs N unit :=
  match fuel with
  | O => λ s, (OutOfFuel, s)
  | S fuel => λ s,
      if bool_decide (node ∈ visiting s) then (Err node, s)
      else if bool_decide (node ∈ visited s) then (Ok tt, s)
      else (_ ← modify (λ s, mkDfs (ordered s) (visited s) (node :: visiting s));
            _ ← for_each (dfs deps fuel) (deps node);
            modify (λ s, mkDfs (ordered s ++ [node]) (node :: visited s)
                               (filter (λ n, n ≠ node) (visiting s)))) s
  end.

(** The searches from every node not yet visited. *)
Definition dfs_each (deps : N → list N) (fuel : nat) (nodes : list N) : comp N (list N) :=
  let '(r, s) := for_each (λ node s, if bool_decide (node ∈ visited s) then (Ok tt, s) else dfs deps fuel node s)
                          nodes (mkDfs [] [] []) in
  _ ← r; Ok (ordered s).
End Dfs.
Arguments Dfs N : clear implicits.

Section Sorts.
Context {N : Type} `{EqDecision N, Ord N}.

Definition deps_of (deps : BTreeMap N (list N)) (node : N) : list N := default [] (get node deps).

(** The keys and all they depend on. *)
Definition all_nodes (deps : BTreeMap N (list N)) : list N := deps.*1 ++ concat deps.*2.

Definition enough (deps : BTreeMap N (list N)) : nat := S (length (all_nodes deps)).

Definition table_dependency_sort (deps : BTreeMap N (list N)) : comp N (list N) :=
  dfs_each (deps_of deps) (enough deps) deps.*1.

(** [BTreeSet] of the keys and of the values, in order. *)
Definition node_set (l : list N) : list N := (btree_collect ((λ n, (n, tt)) <$> l)).*1.

Definition dependency_sort (deps : BTreeMap N (list N)) : comp N (list N) :=
  dfs_each (deps_of deps) (enough deps)
    (node_set (deps ≫= λ entry, entry.1 :: entry.2)).
End Sorts.

(** ** The search *)

Section Search.
Context {N : Type} `{EqDecision N} (deps : N → list N).

(** [n] depends on [d]. *)
Definition depends (n d : N) : Prop := d ∈ deps n.

(** The path of the search, latest node first, and a next node. *)
Fixpoint path_to (node : N) (path : list N) : Prop :=
  match path with [] => True | n :: path => depends n node /\ path_to n path end.

(** Every node comes after those it depends on. *)
Definition topological (l : list N) : Prop :=
  ∀ before n after, l = before ++ n :: after → ∀ d, depends n d → d ∈ before.

Lemma path_reaches node path n : path_to node path → n ∈ path → tc depends n node.
Proof.
  revert node. induction path as [|m path IH]; intros node; [by intros _ ?%elem_of_nil|].
  intros [Hd Hp] [->|Hn]%elem_of_cons; [by apply tc_once|].
  eapply tc_r; [by apply IH|done].
Qed.

Lemma topological_snoc l n : topological l → (∀ d, depends n d → d ∈ l) → topological (l ++ [n]).
Proof.
  intros Hl Hn before m after Heq d Hd.
  destruct after as [|x after _] using rev_ind.
  - apply app_inj_tail in Heq as [-> ->]. by apply Hn.
  - rewrite app_comm_cons, (assoc_L (++)) in Heq. apply app_inj_tail in Heq as [-> _].
    eapply Hl; [done|exact Hd].
Qed.

(** What a node leads to is among the nodes before it. *)
Lemma topological_tc l before n after d :
  topological l → l = before ++ n :: after → tc depends n d → d ∈ before.
Proof.
  intros Hl Heq Htc. revert n d after Heq Htc. induction before as [k IH] using (induction_ltof1 _ (@length N)).
  unfold ltof in IH. intros n d after Heq Htc. inversion Htc as [? y Hd|? y z Hd Hrest]; subst.
  - eapply Hl; [done|exact Hd].
  - assert (y ∈ k) as Hy by (eapply Hl; [done|exact Hd]).
    apply list_elem_of_split in Hy as (b1 & b2 & ->).
    assert (d ∈ b1) as Hd1; [|set_solver].
    eapply (IH b1); [rewrite length_app; cbn; lia| |exact Hrest]. rewrite <- (assoc_L (++)). reflexivity.
Qed.

Lemma topological_acyclic l n : topological l → NoDup l → n ∈ l → ¬ tc depends n n.
Proof.
  intros Hl Hnd Hn Htc. apply list_elem_of_split in Hn as (b & a & ->).
  pose proof (topological_tc _ b n a n Hl eq_refl Htc) as Hin.
  apply NoDup_app in Hnd as (_ & Hdisj & _). apply (Hdisj n Hin). by left.
Qed.

Context (universe : list N) (Hclosed : ∀ n d, n ∈ universe → d ∈ deps n → d ∈ universe).
Implicit Types s : Dfs N.

Record search_ok s := {
  sok_visited n : n ∈ visited s ↔ n ∈ ordered s;
  sok_nodup : NoDup (ordered s);
  sok_top : topological (ordered s);
  sok_universe : ordered s ⊆ universe;
  sok_path : NoDup (visiting s);
  sok_path_universe : visiting s ⊆ universe;
  sok_disjoint n : n ∈ visiting s → n ∉ ordered s
}.

(** The room left for deeper searches. *)
Definition room s : nat := length universe - length (visiting s).

(** What a search from a node on a path leaves behind. *)
Definition found s s' (nodes : list N) : Prop :=
  search_ok s' /\ visiting s' = visiting s /\ ordered s ⊆ ordered s' /\ nodes ⊆ ordered s'.

Definition outcome s (nodes : list N) (res : comp N unit * Dfs N) : Prop :=
  match res with
  | (Ok _, s') => found s s' nodes
  | (Err n, _) => tc depends n n
  | _ => False
  end.

Lemma for_each_outcome (f : N → stm (Dfs N) N unit) l s :
  search_ok s →
  (∀ n s', n ∈ l → search_ok s' → visiting s' = visiting s → outcome s' [n] (f n s')) →
  outcome s l (for_each f l s).
Proof.
  revert s. induction l as [|n l IH]; intros s Hs Hf.
  { split; [done|]. split; [done|]. set_solver. }
  cbn [for_each]. unfold mbind, stm_bind. pose proof (Hf n s ltac:(by left) Hs eq_refl) as Hn.
  destruct (f n s) as [[[]|e| |] s1]; try done. destruct Hn as (Hs1 & Hv1 & Ho1 & Hin1).
  assert (outcome s1 l (for_each f l s1)) as Hl.
  { apply IH; [done|]. intros m s' Hm Hs' Hv'. apply Hf; [by right|done|congruence]. }
  destruct (for_each f l s1) as [[[]|e| |] s2]; try done. destruct Hl as (Hs2 & Hv2 & Ho2 & Hin2).
  split; [done|]. split; [congruence|]. set_solver.
Qed.

Lemma room_push s node :
  search_ok s → node ∈ universe → node ∉ visiting s → (0 < room s)%nat.
Proof.
  intros Hs Hu Hn. assert (length (node :: visiting s) <= length universe)%nat as Hle.
  { apply submseteq_length, NoDup_submseteq; [constructor; [done|by apply sok_path]|].
    intros x [->|Hx]%elem_of_cons; [done|by apply (sok_path_universe s)]. }
  unfold room. cbn in Hle. lia.
Qed.

Lemma push_ok s node :
  search_ok s → node ∈ universe → node ∉ visiting s → node ∉ visited s →
  search_ok (mkDfs (ordered s) (visited s) (node :: visiting s)).
Proof.
  intros [Hv Hnd Ht Hu Hp Hpu Hd] Hnode Hn Hnv. split; cbn; try done.
  - by constructor.
  - set_solver.
  - intros m [->|Hm]%elem_of_cons; [by rewrite <- Hv|by apply Hd].
Qed.

Lemma filter_head node (l : list N) : node ∉ l → filter (λ n, n ≠ node) (node :: l) = l.
Proof.
  intros Hn. rewrite filter_cons_False by tauto. clear -Hn.
  induction l as [|x l IH]; [done|]. rewrite not_elem_of_cons in Hn. destruct Hn as [Hx Hn].
  rewrite filter_cons_True by done. by rewrite IH.
Qed.

Lemma pop_ok s s' node :
  search_ok s → search_ok s' → visiting s' = node :: visiting s → node ∈ universe → (∀ d, depends node d → d ∈ ordered s') →
  node ∉ visiting s →
  search_ok (mkDfs (ordered s' ++ [node]) (node :: visited s') (filter (λ n, n ≠ node) (visiting s'))).
Proof.
  intros Hs [Hv Hnd Ht Hu Hp Hpu Hd] Hvis Hnode Hdeps Hn. rewrite Hvis, filter_head by done.
  split; cbn.
  - intros m. rewrite elem_of_cons, elem_of_app, list_elem_of_singleton, Hv. tauto.
  - apply NoDup_app. split; [done|]. split; [|apply NoDup_singleton].
    intros x Hx ->%list_elem_of_singleton. apply (Hd node); [|done]. rewrite Hvis. by left.
  - by apply topological_snoc.
  - set_solver.
  - by apply sok_path.
  - by apply sok_path_universe.
  - intros m Hm [Hin|Heq%list_elem_of_singleton]%elem_of_app; [|congruence].
    apply (Hd m); [|done]. rewrite Hvis. by right.
Qed.

Lemma dfs_outcome fuel node s :
  search_ok s → node ∈ universe → path_to node (visiting s) → (room s < fuel)%nat →
  outcome s [node] (dfs deps fuel node s).
Proof.
  revert node s. induction fuel as [|fuel IH]; intros node s Hs Hu Hpath Hroom; [lia|]. cbn [dfs].
  case_bool_decide as Hvis; [by eapply path_reaches|].
  case_bool_decide as Hved.
  { split; [done|]. split; [done|]. split; [done|]. apply (sok_visited s) in Hved; [|done]. set_solver. }
  set (s1 := mkDfs (ordered s) (visited s) (node :: visiting s)).
  pose proof (push_ok s node Hs Hu Hvis Hved) as Hs1. pose proof (room_push s node Hs Hu Hvis) as Hr.
  assert (outcome s1 (deps node) (for_each (dfs deps fuel) (deps node) s1)) as Hfor.
  { apply for_each_outcome; [done|]. intros d s' Hd Hs' Hv'. apply IH; [done|by eapply Hclosed| |].
    - rewrite Hv'. by split.
    - unfold room in *. rewrite Hv'. cbn. lia. }
  unfold mbind at 1, stm_bind at 1, modify at 1. fold s1. unfold mbind, stm_bind.
  destruct (for_each (dfs deps fuel) (deps node) s1) as [[[]|e| |] s2]; try done.
  destruct Hfor as (Hs2 & Hv2 & Ho2 & Hin2). cbn in Hv2, Ho2. unfold modify. cbn [outcome].
  split; [|split; [|split]].
  - apply (pop_ok s); [done|done|done|done| |done]. intros d Hd. by apply Hin2.
  - cbn. by rewrite Hv2, filter_head.
  - cbn. set_solver.
  - cbn. set_solver.
Qed.

Lemma init_ok : search_ok (mkDfs [] [] []).
Proof.
  split; cbn; try done; try apply NoDup_nil_2.
  - by intros [|? ?] ? ? ?.
  - set_solver.
  - set_solver.
  - by intros n ?%elem_of_nil.
Qed.

(** The orders in which every node comes after its dependencies. *)
Definition dependency_order (nodes l : list N) : Prop :=
  NoDup l /\ topological l /\ nodes ⊆ l /\ l ⊆ universe.

Lemma dfs_each_outcome fuel nodes :
  nodes ⊆ universe → (length universe < fuel)%nat →
  match dfs_each deps fuel nodes with
  | Ok l => dependency_order nodes l
  | Err n => tc depends n n
  | _ => False
  end.
Proof.
  intros Hnodes Hfuel. unfold dfs_each.
  set (f := λ (node : N) (s : Dfs N), if bool_decide (node ∈ visited s) then (Ok tt, s) else dfs deps fuel node s).
  assert (outcome (mkDfs [] [] []) nodes (for_each f nodes (mkDfs [] [] []))) as Hout.
  { apply for_each_outcome; [apply init_ok|]. intros n s Hn Hs Hv. unfold f. case_bool_decide as Hved.
    - split; [done|]. split; [done|]. split; [done|]. apply (sok_visited s) in Hved; [|done]. set_solver.
    - apply dfs_outcome; [done|by apply Hnodes|by rewrite Hv|]. unfold room. lia. }
  destruct (for_each f nodes _) as [[[]|e| |] s]; cbn in Hout |- *; try done.
  destruct Hout as (Hs & _ & _ & Hin). by destruct Hs.
Qed.

End Search.

(** Without dependencies the nodes stay in their order. *)
Lemma dfs_each_independent {N} `{EqDecision N} (deps : N → list N) fuel nodes :
  (∀ n, deps n = []) → NoDup nodes → (0 < fuel)%nat → dfs_each deps fuel nodes = Ok nodes.
Proof.
  intros Hno Hnd Hfuel. destruct fuel as [|fuel]; [lia|]. unfold dfs_each.
  set (f := λ (node : N) (s : Dfs N), if bool_decide (node ∈ visited s) then (Ok tt, s) else dfs deps (S fuel) node s).
  assert (∀ o v, (∀ n, n ∈ nodes → n ∉ v) → ∃ v', for_each f nodes (mkDfs o v []) = (Ok tt, mkDfs (o ++ nodes) v' [])) as Hrun.
  { induction Hnd as [|n nodes Hn _ IH]; intros o v Hv; cbn; [eexists; by rewrite app_nil_r|].
    destruct (IH (o ++ [n]) (n :: v)) as [v' E]; [set_solver|]. exists v'.
    unfold mbind, stm_bind, f at 1. cbn [visited]. rewrite bool_decide_false by (apply Hv; by left).
    cbn [dfs visiting visited]. rewrite bool_decide_false by apply not_elem_of_nil.
    rewrite bool_decide_false by (apply Hv; by left).
    rewrite Hno. cbn. unfold mbind, stm_bind, modify, mret, stm_ret. cbn [visiting visited ordered].
    rewrite filter_cons_False by tauto. rewrite filter_nil, E, <- app_assoc. done. }
  destruct (Hrun [] []) as [v' E]; [set_solver|]. by rewrite E.
Qed.

Section SortTheorems.
Context {N : Type} `{EqDecision N, OrdLaws N}.
Implicit Types deps : BTreeMap N (list N).

Lemma deps_of_elem deps n d : d ∈ deps_of deps n → n ∈ deps.*1 /\ d ∈ concat deps.*2.
Proof.
  unfold deps_of. destruct (get n deps) as [l|] eqn:E; cbn; [|by intros ?%elem_of_nil].
  apply get_elem in E. intros Hd. split; [by eapply list_elem_of_fmap_2'|].
  apply list_elem_of_In, in_concat. exists l. split; apply list_elem_of_In; [by eapply list_elem_of_fmap_2'|done].
Qed.

Lemma deps_of_concat deps d : sorted deps → d ∈ concat deps.*2 → ∃ n, n ∈ deps.*1 /\ d ∈ deps_of deps n.
Proof.
  intros Hs (l & Hl%list_elem_of_In & Hd%list_elem_of_In)%list_elem_of_In%in_concat.
  apply list_elem_of_fmap in Hl as ([n l'] & -> & Hin). exists n. split; [by eapply list_elem_of_fmap_2'|].
  unfold deps_of. by rewrite (elem_get n l' deps Hs Hin).
Qed.

Lemma node_set_elem l n : n ∈ node_set l ↔ n ∈ l.
Proof. unfold node_set. rewrite collect_keys, <- list_fmap_compose. cbn. by rewrite list_fmap_id. Qed.

(** An order of all the nodes, exactly when no node depends on itself. *)
Definition sorts_exactly deps (res : comp N (list N)) : Prop :=
  match res with
  | Ok l => NoDup l /\ topological (deps_of deps) l /\ (∀ n, n ∈ l ↔ n ∈ all_nodes deps)
            /\ ∀ n, ¬ tc (depends (deps_of deps)) n n
  | Err n => tc (depends (deps_of deps)) n n
  | _ => False
  end.

Lemma dfs_each_sorts deps nodes :
  sorted deps → nodes ⊆ all_nodes deps → deps.*1 ⊆ nodes →
  sorts_exactly deps (dfs_each (deps_of deps) (enough deps) nodes).
Proof.
  intros Hs Hnodes Hkeys.
  pose proof (dfs_each_outcome (deps_of deps) (all_nodes deps)) as Hout.
  specialize (Hout ltac:(intros n d _ Hd; apply deps_of_elem in Hd as [_ Hd]; unfold all_nodes; set_solver)
    (enough deps) nodes Hnodes ltac:(unfold enough; lia)).
  destruct (dfs_each _ _ _) as [l|n| |]; try done. destruct Hout as (Hnd & Ht & Hin & Hu).
  split; [done|]. split; [done|]. split.
  - intros n. split; [apply Hu|]. unfold all_nodes. intros [Hn|Hn]%elem_of_app; [by apply Hin, Hkeys|].
    apply deps_of_concat in Hn as (m & Hm%Hkeys%Hin & Hd); [|done].
    apply list_elem_of_split in Hm as (before & after & Heq). rewrite Heq. apply elem_of_app. left.
    exact (Ht before m after Heq n Hd).
  - intros n Htc. assert (n ∈ deps.*1) as Hn.
    { inversion Htc as [? d Hd|? d e Hd _]; subst; by apply deps_of_elem in Hd as [? _]. }
    by apply (topological_acyclic (deps_of deps) l n); [done|done|apply Hin, Hkeys|].
Qed.

Lemma table_sort_exactly deps : sorted deps → sorts_exactly deps (table_dependency_sort deps).
Proof. intros Hs. apply dfs_each_sorts; [done|unfold all_nodes; set_solver|done]. Qed.

Lemma dependency_sort_exactly deps : sorted deps → sorts_exactly deps (dependency_sort deps).
Proof.
  intros Hs. apply dfs_each_sorts; [done|..].
  - intros n [[k l] [Hn Hin]]%node_set_elem%list_elem_of_bind. unfold all_nodes. apply elem_of_app.
    apply elem_of_cons in Hn as [->|Hn]; [left; by eapply list_elem_of_fmap_2'|right].
    apply list_elem_of_In, in_concat. exists l. split; apply list_elem_of_In; [by eapply list_elem_of_fmap_2'|done].
  - intros n ([k l] & -> & Hin)%list_elem_of_fmap. apply node_set_elem, list_elem_of_bind. exists (k, l). split; [by left|done].
Qed.

(** C38: the order of dependencies. The search through any map of dependencies
    ends; it gives each node once, after all it depends on, or names a node on a
    cycle, and it fails only when there is one. *)
Theorem dependency_sorts_correct deps :
  sorted deps →
  sorts_exactly deps (table_dependency_sort deps) /\ sorts_exactly deps (dependency_sort deps).
Proof. intros Hs. split; [by apply table_sort_exactly|by apply dependency_sort_exactly]. Qed.
End SortTheorems.

(** Tables [1] and [2] that depend on [3], [2] on [1] too. *)
Definition demo_deps : BTreeMap Z (list Z) := btree_collect [(1, [3]); (2, [1; 3])].

Lemma dependency_sorts_correct_witness :
  table_dependency_sort demo_deps = Ok [3; 1; 2] /\ sorts_exactly demo_deps (Ok [3; 1; 2]).
Proof.
  split; [reflexivity|]. exact (proj1 (dependency_sorts_correct demo_deps (collect_sorted _))).
Defined.
