(* ===== verification/Names.v ===== *)
(** * Names

    The identifiers of datasets, tables and functions (core/datasets-common/src)
    and the references built from them: what each validator accepts, and the
    printing and the parsing of references. A string is its list of Unicode
    scalar values, [len] its length in UTF-8 bytes. The table of the Unicode
    numerals and the semantic versions (the [semver] crate) are parameters. *)

From stdpp Require Import base numbers strings option list sets.
From Stdlib Require Import ZArith Lia Ascii.
From S2P Require Import Prelude.

(** ** Strings of the Rust standard library *)

Abbreviation char := Z.
Abbreviation str := (list Z).

Definition lit (s : string) : str := (λ c, Z.of_nat (nat_of_ascii c)) <$> String.list_ascii_of_string s.

(** The bytes of a character in UTF-8. *)
Definition char_len (c : char) : Z :=
  if c <? 128 then 1 else if c <? 2048 then 2 else if c <? 65536 then 3 else 4.

Definition len (s : str) : Z := foldr (λ c n, char_len c + n) 0 s.

Definition is_ascii_lowercase (c : char) : bool := (97 <=? c) && (c <=? 122).
Definition is_ascii_uppercase (c : char) : bool := (65 <=? c) && (c <=? 90).
Definition is_ascii_digit (c : char) : bool := (48 <=? c) && (c <=? 57).
Definition is_ascii_alphabetic (c : char) : bool := is_ascii_lowercase c || is_ascii_uppercase c.
Definition is_ascii_alphanumeric (c : char) : bool := is_ascii_alphabetic c || is_ascii_digit c.
Definition is_ascii_hexdigit (c : char) : bool :=
  is_ascii_digit c || ((97 <=? c) && (c <=? 102)) || ((65 <=? c) && (c <=? 70)).

Definition underscore : char := 95.
Definition dollar : char := 36.
Definition at_sign : char := 64.
Definition slash : char := 47.
Definition dot : char := 46.

(** [s.split_once(c)] *)
Fixpoint split_once (sep : char) (s : str) : option (str * str) :=
  match s with
  | [] => None
  | c :: s => if c =? sep then Some ([], s) else '(a, b) ← split_once sep s; Some (c :: a, b)
  end.

(** [s.strip_prefix(p)] *)
Fixpoint strip_prefix (p s : str) : option str :=
  match p, s with
  | [], s => Some s
  | c :: p, d :: s => if c =? d then strip_prefix p s else None
  | _ :: _, [] => None
  end.

(** [&s[..n]], which panics when [n] is not the end of a character. *)
Fixpoint slice_to (n : Z) (s : str) : total str :=
  if n =? 0 then Ok []
  else match s with
       | [] => Panic
       | c :: s => if char_len c <=? n then cons c <$> slice_to (n - char_len c) s else Panic
       end.

(** [s.replace(a, b)] for characters. *)
Definition replace (a b : char) (s : str) : str := (λ c, if c =? a then b else c) <$> s.

(** [res.map_err(f)] *)
Definition with_err {E E' A} (f : E → E') (m : comp E A) : comp E' A :=
  match m with Ok a => Ok a | Err e => Err (f e) | Panic => Panic | OutOfFuel => OutOfFuel end.

(** ** Newtypes and their errors *)

Record Name := mkName { name_str : str }.
Record Namespace := mkNamespace { namespace_str : str }.
Record TableName := mkTableName { table_name_str : str }.
Record FuncName := mkFuncName { func_name_str : str }.
Record DepAlias := mkDepAlias { dep_alias_str : str }.
Record Hash := mkHash { hash_str : str }.

#[global] Instance Name_eq_dec : EqDecision Name.
Proof. solve_decision. Defined.
#[global] Instance Namespace_eq_dec : EqDecision Namespace.
Proof. solve_decision. Defined.
#[global] Instance TableName_eq_dec : EqDecision TableName.
Proof. solve_decision. Defined.
#[global] Instance FuncName_eq_dec : EqDecision FuncName.
Proof. solve_decision. Defined.
#[global] Instance DepAlias_eq_dec : EqDecision DepAlias.
Proof. solve_decision. Defined.
#[global] Instance Hash_eq_dec : EqDecision Hash.
Proof. solve_decision. Defined.

Inductive NameError := NameEmpty | NameInvalidCharacter (character : char) (value : str).
Inductive NamespaceError := NamespaceEmpty | NamespaceInvalidCharacter (character : char) (value : str).

Inductive TableNameError :=
  | TableNameEmpty
  | TableNameTooLong (length : Z)
  | TableNameInvalidFirstCharacter (character : char) (value : str)
  | TableNameInvalidCharacter (character : char) (value : str).

Inductive FuncNameError :=
  | FuncNameEmpty
  | FuncNameTooLong (length : Z)
  | FuncNameInvalidFirstCharacter (character : char) (value : str)
  | FuncNameInvalidCharacter (character : char) (value : str).

Inductive DepAliasError :=
  | DepAliasEmpty
  | DepAliasTooLong (length : Z)
  | DepAliasInvalidFirstCharacter (character : char) (value : str)
  | DepAliasInvalidCharacter (character : char) (value : str).

Inductive HashError :=
  | InvalidLength (expected actual : Z)
  | InvalidHexCharacter (character : char) (index : nat).

Definition MAX_IDENTIFIER_LENGTH : Z := 63.
Definition MAX_FUNC_LENGTH : Z := 255.
Definition MAX_ALIAS_LENGTH : Z := 63.
Definition GLOBAL_NAMESPACE : str := lit "_".
Definition SELF_REF_KEYWORD : str := lit "self".
Definition ETH_CALL_FUNCTION_NAME : str := lit "eth_call".

(** ** Validators of ASCII identifiers *)

Definition table_char (c : char) : bool := is_ascii_alphanumeric c || (c =? underscore) || (c =? dollar).

Definition validate_table_name (name : str) : comp TableNameError unit :=
  match name with
  | [] => Err TableNameEmpty
  | first_char :: _ =>
      if MAX_IDENTIFIER_LENGTH <? len name then Err (TableNameTooLong (len name))
      else if negb (is_ascii_alphabetic first_char || (first_char =? underscore))
      then Err (TableNameInvalidFirstCharacter first_char name)
      else match List.find (λ c, negb (table_char c)) name with
           | Some invalid_char => Err (TableNameInvalidCharacter invalid_char name)
           | None => Ok tt
           end
  end.

Definition validate_func_name (name : str) : comp FuncNameError unit :=
  match name with
  | [] => Err FuncNameEmpty
  | first_char :: _ =>
      if MAX_FUNC_LENGTH <? len name then Err (FuncNameTooLong (len name))
      else if negb (is_ascii_alphabetic first_char || (first_char =? underscore))
      then Err (FuncNameInvalidFirstCharacter first_char name)
      else match List.find (λ c, negb (table_char c)) name with
           | Some invalid_char => Err (FuncNameInvalidCharacter invalid_char name)
           | None => Ok tt
           end
  end.

Definition alias_char (c : char) : bool := is_ascii_alphanumeric c || (c =? underscore).

Definition validate_dep_alias (alias : str) : comp DepAliasError unit :=
  match alias with
  | [] => Err DepAliasEmpty
  | first_char :: _ =>
      if MAX_ALIAS_LENGTH <? len alias then Err (DepAliasTooLong (len alias))
      else if negb (is_ascii_alphabetic first_char)
      then Err (DepAliasInvalidFirstCharacter first_char alias)
      else match List.find (λ c, negb (alias_char c)) alias with
           | Some invalid_char => Err (DepAliasInvalidCharacter invalid_char alias)
           | None => Ok tt
           end
  end.

Definition validate_hash (hash : str) : comp HashError unit :=
  if negb (len hash =? 64) then Err (InvalidLength 64 (len hash))
  else match list_find (λ c, is_ascii_hexdigit c = false) hash with
       | Some (index, character) => Err (InvalidHexCharacter character index)
       | None => Ok tt
       end.

Definition parse_table_name (s : str) : comp TableNameError TableName :=
  _ ← validate_table_name s; Ok (mkTableName s).

Definition parse_func_name (s : str) : comp FuncNameError FuncName :=
  _ ← validate_func_name s; Ok (mkFuncName s).

Definition parse_dep_alias (s : str) : comp DepAliasError DepAlias :=
  _ ← validate_dep_alias s; Ok (mkDepAlias s).

Definition parse_hash (s : str) : comp HashError Hash := _ ← validate_hash s; Ok (mkHash s).

(** [Hash::compact] *)
Definition hash_compact (h : Hash) : total str := slice_to 7 (hash_str h).

(** The schema of a function reference. *)
Inductive DepAliasOrSelfRef := DepAliasRef (alias : DepAlias) | SelfRef.

Definition DepAliasOrSelfRefError : Type := str * DepAliasError.

Definition display_dep_alias_or_self_ref (r : DepAliasOrSelfRef) : str :=
  match r with DepAliasRef alias => dep_alias_str alias | SelfRef => SELF_REF_KEYWORD end.

Definition parse_dep_alias_or_self_ref (s : str) : comp DepAliasOrSelfRefError DepAliasOrSelfRef :=
  if bool_decide (s = SELF_REF_KEYWORD) then Ok SelfRef
  else alias ← with_err (pair s) (parse_dep_alias s); Ok (DepAliasRef alias).

(** ** Names and namespaces

    [char::is_numeric] is true of the ASCII digits and, beyond ASCII, of the
    characters of the generated table of the categories Nd, Nl and No. *)

Class UnicodeNumerals := unicode_n : char → bool.

Definition is_numeric `{UnicodeNumerals} (c : char) : bool := is_ascii_digit c || ((127 <? c) && unicode_n c).

Definition name_char `{UnicodeNumerals} (c : char) : bool := is_ascii_lowercase c || (c =? underscore) || is_numeric c.

Definition validate_dataset_name `{UnicodeNumerals} (name : str) : comp NameError unit :=
  match name with
  | [] => Err NameEmpty
  | first_char :: _ =>
      if negb (is_ascii_lowercase first_char || (first_char =? underscore))
      then Err (NameInvalidCharacter first_char name)
      else match List.find (λ c, negb (name_char c)) name with
           | Some c => Err (NameInvalidCharacter c name)
           | None => Ok tt
           end
  end.

Definition validate_namespace `{UnicodeNumerals} (namespace : str) : comp NamespaceError unit :=
  match namespace with
  | [] => Err NamespaceEmpty
  | _ :: _ =>
      match List.find (λ c, negb (name_char c)) namespace with
      | Some c => Err (NamespaceInvalidCharacter c namespace)
      | None => Ok tt
      end
  end.

Definition parse_name `{UnicodeNumerals} (s : str) : comp NameError Name :=
  _ ← validate_dataset_name s; Ok (mkName s).

Definition parse_namespace `{UnicodeNumerals} (s : str) : comp NamespaceError Namespace :=
  _ ← validate_namespace s; Ok (mkNamespace s).

Definition global : Namespace := mkNamespace GLOBAL_NAMESPACE.

Record FullyQualifiedName := mkFqn { fqn_namespace : Namespace; fqn_name : Name }.

#[global] Instance FullyQualifiedName_eq_dec : EqDecision FullyQualifiedName.
Proof. solve_decision. Defined.

Inductive FullyQualifiedNameError :=
  | FqnInvalidFormat (s : str)
  | FqnInvalidNamespace (e : NamespaceError)
  | FqnInvalidName (e : NameError).

Definition display_fqn (f : FullyQualifiedName) : str :=
  namespace_str (fqn_namespace f) ++ slash :: name_str (fqn_name f).

Definition parse_fqn `{UnicodeNumerals} (s : str) : comp FullyQualifiedNameError FullyQualifiedName :=
  match split_once slash s with
  | Some (namespace_str, name_str) =>
      namespace ← with_err FqnInvalidNamespace (parse_namespace namespace_str);
      name ← with_err FqnInvalidName (parse_name name_str);
      Ok (mkFqn namespace name)
  | None => Err (FqnInvalidFormat s)
  end.

(** ** Revisions

    The [semver] crate: versions are printed and parsed without loss, and what
    is printed has a dot and no underscore. *)

Class Semver (V : Type) := { semver_display : V → str; semver_parse : str → option V }.

Class SemverLaws (V : Type) `{Semver V} := {
  semver_parse_display v : semver_parse (semver_display v) = Some v;
  semver_display_parse s v : semver_parse s = Some v → semver_display v = s;
  semver_dot v : dot ∈ semver_display v;
  semver_underscore v : underscore ∉ semver_display v
}.

Inductive Revision (V : Type) := RVersion (v : V) | RHash (h : Hash) | RLatest | RDev.
Arguments RVersion {V} v.
Arguments RHash {V} h.
Arguments RLatest {V}.
Arguments RDev {V}.

Inductive HashOrVersion (V : Type) := HVHash (h : Hash) | HVVersion (v : V).
Arguments HVHash {V} h.
Arguments HVVersion {V} v.

Inductive HashOrVersionParseError := SymbolicReference (s : str) | InvalidRevisionText (s : str).

Definition RevisionParseError : Type := str.

Section References.
Context {V : Type} `{UnicodeNumerals, Semver V}.

Definition display_revision (r : Revision V) : str :=
  match r with
  | RVersion v => semver_display v
  | RHash h => hash_str h
  | RLatest => lit "latest"
  | RDev => lit "dev"
  end.

Definition parse_revision (s : str) : comp RevisionParseError (Revision V) :=
  if bool_decide (s = lit "latest") then Ok RLatest
  else if bool_decide (s = lit "dev") then Ok RDev
  else match parse_hash s with
       | Ok hash => Ok (RHash hash)
       | _ => match semver_parse s with Some version => Ok (RVersion version) | None => Err s end
       end.

(** [Revision::compact] *)
Definition revision_compact (r : Revision V) : total str :=
  match r with RHash hash => hash_compact hash | other => Ok (display_revision other) end.

(** [Version::to_underscore_version] and [Version::try_from_underscore_version] *)
Definition to_underscore_version (v : V) : str := replace dot underscore (semver_display v).

Definition try_from_underscore_version (s : str) : option V := semver_parse (replace underscore dot s).

Definition display_hash_or_version (r : HashOrVersion V) : str :=
  match r with HVHash h => hash_str h | HVVersion v => semver_display v end.

Definition parse_hash_or_version (s : str) : comp HashOrVersionParseError (HashOrVersion V) :=
  if bool_decide (s = lit "latest") || bool_decide (s = lit "dev") then Err (SymbolicReference s)
  else match parse_hash s with
       | Ok hash => Ok (HVHash hash)
       | _ => match semver_parse s with
              | Some version => Ok (HVVersion version)
              | None => Err (InvalidRevisionText s)
              end
       end.

(** ** References *)

Record Reference := mkReference { ref_fqn : FullyQualifiedName; ref_revision : Revision V }.

Inductive ReferenceError :=
  | MissingRevisionSeparator (s : str)
  | MissingNamespaceSeparator (s : str)
  | InvalidNamespace (e : NamespaceError)
  | InvalidName (e : NameError)
  | InvalidRevision (e : RevisionParseError).

Inductive PurlParseError := InvalidPrefix (s : str) | PurlReference (e : ReferenceError).

Definition PURL_PREFIX : str := lit "pkg:amp/".

Definition display_reference (r : Reference) : str :=
  display_fqn (ref_fqn r) ++ at_sign :: display_revision (ref_revision r).

Definition to_purl (r : Reference) : str := PURL_PREFIX ++ display_reference r.

Definition parse_reference_parts (s : str) : comp ReferenceError Reference :=
  match split_once at_sign s with
  | None => Err (MissingRevisionSeparator s)
  | Some (fqn_part, revision_str) =>
      match split_once slash fqn_part with
      | None => Err (MissingNamespaceSeparator s)
      | Some (namespace_str, name_str) =>
          namespace ← with_err InvalidNamespace (parse_namespace namespace_str);
          name ← with_err InvalidName (parse_name name_str);
          revision ← with_err InvalidRevision (parse_revision revision_str);
          Ok (mkReference (mkFqn namespace name) revision)
      end
  end.

Definition parse_purl (s : str) : comp PurlParseError Reference :=
  match strip_prefix PURL_PREFIX s with
  | None => Err (InvalidPrefix s)
  | Some remainder => with_err PurlReference (parse_reference_parts remainder)
  end.

Definition parse_reference (s : str) : comp ReferenceError Reference :=
  match parse_purl s with Ok reference => Ok reference | _ => parse_reference_parts s end.

(** [Reference::short_display] *)
Definition short_display (r : Reference) : total str :=
  rev ← match ref_revision r with RHash h => slice_to 7 (hash_str h) | rev => Ok (display_revision rev) end;
  Ok (display_fqn (ref_fqn r) ++ at_sign :: rev).

(** ** Partial references *)

Record PartialReference := mkPartial {
  partial_namespace : option Namespace;
  partial_name : Name;
  partial_revision : option (Revision V)
}.

Inductive PartialReferenceError :=
  | PartialInvalidNamespace (e : NamespaceError)
  | PartialInvalidName (e : NameError)
  | PartialInvalidRevision (e : RevisionParseError).

Definition display_partial (p : PartialReference) : str :=
  match partial_namespace p with Some namespace => namespace_str namespace ++ [slash] | None => [] end
  ++ name_str (partial_name p)
  ++ match partial_revision p with Some revision => at_sign :: display_revision revision | None => [] end.

(** [PartialReference::compact] *)
Definition partial_compact (p : PartialReference) : total str :=
  let result := match partial_namespace p with Some namespace => namespace_str namespace ++ [slash] | None => [] end
                ++ name_str (partial_name p) in
  match partial_revision p with
  | Some revision => compact ← revision_compact revision; Ok (result ++ at_sign :: compact)
  | None => Ok result
  end.

Definition to_full_reference (p : PartialReference) : Reference :=
  mkReference (mkFqn (default global (partial_namespace p)) (partial_name p)) (default RLatest (partial_revision p)).

Definition partial_of_reference (r : Reference) : PartialReference :=
  mkPartial (Some (fqn_namespace (ref_fqn r))) (fqn_name (ref_fqn r)) (Some (ref_revision r)).

Definition parse_partial (s : str) : comp PartialReferenceError PartialReference :=
  '(before_at, revision) ←
    match split_once at_sign s with
    | Some (before, rev_str) =>
        revision ← with_err PartialInvalidRevision (parse_revision rev_str); Ok (before, Some revision)
    | None => Ok (s, None)
    end;
  match split_once slash before_at with
  | Some (ns_str, name_str) =>
      namespace ← with_err PartialInvalidNamespace (parse_namespace ns_str);
      name ← with_err PartialInvalidName (parse_name name_str);
      Ok (mkPartial (Some namespace) name revision)
  | None =>
      name ← with_err PartialInvalidName (parse_name before_at);
      Ok (mkPartial None name revision)
  end.

(** ** References by hash, and by hash or version *)

Record HashReference := mkHashReference { hash_ref_fqn : FullyQualifiedName; hash_ref_hash : Hash }.

Inductive HashReferenceError :=
  | MissingHashSeparator (s : str)
  | HashInvalidFqn (s : str) (e : FullyQualifiedNameError)
  | InvalidHash (s : str) (e : HashError).

Definition display_hash_reference (r : HashReference) : str :=
  display_fqn (hash_ref_fqn r) ++ at_sign :: hash_str (hash_ref_hash r).

Definition hash_to_reference (r : HashReference) : Reference := mkReference (hash_ref_fqn r) (RHash (hash_ref_hash r)).

(** [HashReference::try_from]: the error is the revision that is no hash. *)
Definition try_hash_reference (r : Reference) : comp (Revision V) HashReference :=
  match ref_revision r with
  | RHash hash => Ok (mkHashReference (ref_fqn r) hash)
  | other => Err other
  end.

Definition hash_short_display (r : HashReference) : total str :=
  hash ← slice_to 7 (hash_str (hash_ref_hash r)); Ok (display_fqn (hash_ref_fqn r) ++ at_sign :: hash).

Definition parse_hash_reference (s : str) : comp HashReferenceError HashReference :=
  match split_once at_sign s with
  | None => Err (MissingHashSeparator s)
  | Some (fqn_str, hash_str) =>
      fqn ← with_err (HashInvalidFqn fqn_str) (parse_fqn fqn_str);
      hash ← with_err (InvalidHash hash_str) (parse_hash hash_str);
      Ok (mkHashReference fqn hash)
  end.

Record DepReference := mkDepReference { dep_fqn : FullyQualifiedName; dep_revision : HashOrVersion V }.

Inductive DepReferenceParseError :=
  | MissingAt (s : str)
  | DepInvalidFqn (s : str) (e : FullyQualifiedNameError)
  | DepInvalidRevision (s : str) (e : HashOrVersionParseError).

Definition display_dep_reference (r : DepReference) : str :=
  display_fqn (dep_fqn r) ++ at_sign :: display_hash_or_version (dep_revision r).

Definition dep_to_reference (r : DepReference) : Reference :=
  mkReference (dep_fqn r) match dep_revision r with HVHash hash => RHash hash | HVVersion version => RVersion version end.

Definition parse_dep_reference (s : str) : comp DepReferenceParseError DepReference :=
  match split_once at_sign s with
  | None => Err (MissingAt s)
  | Some (fqn_str, revision_str) =>
      fqn ← with_err (DepInvalidFqn fqn_str) (parse_fqn fqn_str);
      revision ← with_err (DepInvalidRevision revision_str) (parse_hash_or_version revision_str);
      Ok (mkDepReference fqn revision)
  end.
End References.
Arguments Reference V : clear implicits.
Arguments PartialReference V : clear implicits.
Arguments DepReference V : clear implicits.

(** ** Lemmas on strings *)

Lemma chars_split_once_app sep a b : sep ∉ a → split_once sep (a ++ sep :: b) = Some (a, b).
Proof.
  induction a as [|c a IH]; cbn; [by rewrite Z.eqb_refl|]. intros Hn.
  rewrite (proj2 (Z.eqb_neq c sep)), IH by set_solver. done.
Qed.

Lemma split_once_None sep s : split_once sep s = None ↔ sep ∉ s.
Proof.
  induction s as [|c s IH]; cbn; [set_solver|]. destruct (Z.eqb_spec c sep) as [->|Hne]; [set_solver|].
  destruct (split_once sep s) as [[a b]|]; cbn; [|set_solver]. split; [done|]. intros Hn.
  assert (Some (a, b) = None) as Hx by (apply IH; set_solver). done.
Qed.

Lemma chars_split_once_Some sep s a b : split_once sep s = Some (a, b) → s = a ++ sep :: b /\ sep ∉ a.
Proof.
  revert a. induction s as [|c s IH]; intros a; cbn; [done|].
  destruct (Z.eqb_spec c sep) as [->|Hne]; [intros [= <- <-]; set_solver|].
  destruct (split_once sep s) as [[x y]|]; cbn; [|done]. intros [= <- <-].
  destruct (IH x eq_refl) as [-> Hx]. set_solver.
Qed.

Lemma chars_strip_prefix_app p s : strip_prefix p (p ++ s) = Some s.
Proof. induction p as [|c p IH]; [done|]. cbn. by rewrite Z.eqb_refl. Qed.

Lemma chars_strip_prefix_Some p s t : strip_prefix p s = Some t → s = p ++ t.
Proof.
  revert s. induction p as [|c p IH]; intros [|d s]; cbn; try done; [by intros [= ->]..|].
  destruct (Z.eqb_spec c d) as [->|]; [|done]. intros Ht. by rewrite (IH s).
Qed.

Lemma find_none_forall {A} (p : A → bool) l : List.find (λ x, negb (p x)) l = None ↔ Forall (λ x, p x = true) l.
Proof.
  induction l as [|x l IH]; cbn; [by split; [constructor|]|]. rewrite list.Forall_cons.
  destruct (p x); cbn; [|naive_solver]. rewrite IH. naive_solver.
Qed.

Lemma len_cons c s : len (c :: s) = char_len c + len s.
Proof. done. Qed.

Lemma len_app a b : len (a ++ b) = len a + len b.
Proof. induction a as [|c a IH]; [done|]. cbn [app]. rewrite !len_cons. lia. Qed.

Lemma len_ascii s : Forall (λ c, c < 128) s → len s = Z.of_nat (length s).
Proof.
  induction 1 as [|c s Hc _ IH]; [done|]. rewrite len_cons. unfold char_len.
  rewrite (proj2 (Z.ltb_lt c 128)) by done. cbn [length]. lia.
Qed.

Lemma slice_to_ascii n s :
  Forall (λ c, c < 128) s → (n <= length s)%nat → slice_to (Z.of_nat n) s = Ok (take n s).
Proof.
  intros Hs. revert n. induction Hs as [|c s Hc _ IH]; intros [|n] Hn; try done; cbn in Hn; [lia|].
  cbn [slice_to]. rewrite (proj2 (Z.eqb_neq (Z.of_nat (S n)) 0)) by lia. unfold char_len.
  rewrite (proj2 (Z.ltb_lt c 128)) by done. rewrite (proj2 (Z.leb_le 1 (Z.of_nat (S n)))) by lia.
  replace (Z.of_nat (S n) - 1) with (Z.of_nat n) by lia. rewrite IH by lia. done.
Qed.

Lemma with_err_Ok {E E' A} (f : E → E') (m : comp E A) a : with_err f m = Ok a ↔ m = Ok a.
Proof. destruct m; cbn; split; intros; simplify_eq; done. Qed.

Lemma bind_comp_Ok {E A B} (m : comp E A) (f : A → comp E B) b : (m ≫= f) = Ok b ↔ ∃ a, m = Ok a /\ f a = Ok b.
Proof. destruct m; cbn; naive_solver. Qed.

(** ** What the validators accept *)

Definition first_is (p : char → bool) (s : str) : bool := match s with c :: _ => p c | [] => false end.

Lemma forall_first {p : char → bool} {c s} : Forall (λ x, p x = true) (c :: s) → p c = true.
Proof. by intros [Hc _]%list.Forall_cons. Qed.

Definition table_name_ok (s : str) : Prop :=
  first_is (λ c, is_ascii_alphabetic c || (c =? underscore)) s = true
  /\ Forall (λ c, table_char c = true) s /\ len s <= 63.

Definition func_name_ok (s : str) : Prop :=
  first_is (λ c, is_ascii_alphabetic c || (c =? underscore)) s = true
  /\ Forall (λ c, table_char c = true) s /\ len s <= 255.

Definition dep_alias_ok (s : str) : Prop :=
  first_is is_ascii_alphabetic s = true /\ Forall (λ c, alias_char c = true) s /\ len s <= 63.

Definition hash_ok (s : str) : Prop := len s = 64 /\ Forall (λ c, is_ascii_hexdigit c = true) s.

Definition name_ok `{UnicodeNumerals} (s : str) : Prop :=
  first_is (λ c, is_ascii_lowercase c || (c =? underscore)) s = true /\ Forall (λ c, name_char c = true) s.

Definition namespace_ok `{UnicodeNumerals} (s : str) : Prop := s ≠ [] /\ Forall (λ c, name_char c = true) s.

(** The three validators with a first character, a length and an alphabet. *)
Lemma checks_ok {E} (first all : char → bool) (limit : Z) (c : char) (s : str) (e1 e2 : E) (e3 : char → E) :
  (if limit <? len (c :: s) then Err e1
   else if negb (first c) then Err e2
   else match List.find (λ x, negb (all x)) (c :: s) with Some x => Err (e3 x) | None => Ok tt end) = Ok tt
  ↔ first_is first (c :: s) = true /\ Forall (λ x, all x = true) (c :: s) /\ len (c :: s) <= limit.
Proof.
  rewrite <- find_none_forall. cbn [first_is].
  destruct (Z.ltb_spec limit (len (c :: s))); [split; [done|lia]|].
  destruct (first c); cbn [negb]; [|split; [done|naive_solver]].
  destruct (List.find _ (c :: s)); split; naive_solver lia.
Qed.

Lemma validate_table_name_ok s : validate_table_name s = Ok tt ↔ table_name_ok s.
Proof. destruct s as [|c s]; [split; [done|by intros [? _]]|]. apply (checks_ok (λ c, is_ascii_alphabetic c || (c =? underscore)) table_char). Qed.

Lemma validate_func_name_ok s : validate_func_name s = Ok tt ↔ func_name_ok s.
Proof. destruct s as [|c s]; [split; [done|by intros [? _]]|]. apply (checks_ok (λ c, is_ascii_alphabetic c || (c =? underscore)) table_char). Qed.

Lemma validate_dep_alias_ok s : validate_dep_alias s = Ok tt ↔ dep_alias_ok s.
Proof. destruct s as [|c s]; [split; [done|by intros [? _]]|]. apply (checks_ok is_ascii_alphabetic alias_char). Qed.

Lemma validate_hash_ok s : validate_hash s = Ok tt ↔ hash_ok s.
Proof.
  unfold validate_hash, hash_ok. destruct (Z.eqb_spec (len s) 64) as [Hl|]; cbn [negb]; [|split; [done|naive_solver]].
  destruct (list_find _ s) as [[i c]|] eqn:E.
  - split; [done|]. intros [_ Hall]. apply list_find_Some in E as (Hi & Hc & _).
    rewrite Forall_lookup in Hall. specialize (Hall i c Hi). congruence.
  - split; [intros _|done]. split; [done|]. apply list_find_None in E.
    eapply Forall_impl; [exact E|]. intros c Hc. by apply not_false_iff_true.
Qed.

Section Validators.
Context `{UnicodeNumerals}.

Lemma validate_dataset_name_ok s : validate_dataset_name s = Ok tt ↔ name_ok s.
Proof.
  destruct s as [|c s]; [split; [done|by intros [? _]]|]. unfold validate_dataset_name, name_ok.
  rewrite <- find_none_forall. cbn [first_is].
  destruct (is_ascii_lowercase c || (c =? underscore)); cbn [negb]; [|split; [done|naive_solver]].
  destruct (List.find _ (c :: s)); split; naive_solver.
Qed.

Lemma validate_namespace_ok s : validate_namespace s = Ok tt ↔ namespace_ok s.
Proof.
  unfold namespace_ok. destruct s as [|c s]; [split; [done|naive_solver]|]. unfold validate_namespace.
  rewrite <- find_none_forall. destruct (List.find _ (c :: s)); split; naive_solver.
Qed.

Lemma parse_name_Ok s n : parse_name s = Ok n ↔ name_ok (name_str n) /\ s = name_str n.
Proof.
  unfold parse_name. rewrite <- validate_dataset_name_ok.
  destruct (validate_dataset_name s) as [[]|e| |] eqn:E; cbn; destruct n as [t]; cbn;
    naive_solver congruence.
Qed.

Lemma parse_namespace_Ok s n : parse_namespace s = Ok n ↔ namespace_ok (namespace_str n) /\ s = namespace_str n.
Proof.
  unfold parse_namespace. rewrite <- validate_namespace_ok.
  destruct (validate_namespace s) as [[]|e| |] eqn:E; cbn; destruct n as [t]; cbn;
    naive_solver congruence.
Qed.

Lemma parse_hash_Ok s h : parse_hash s = Ok h ↔ hash_ok (hash_str h) /\ s = hash_str h.
Proof.
  unfold parse_hash. rewrite <- validate_hash_ok.
  destruct (validate_hash s) as [[]|e| |] eqn:E; cbn; destruct h as [t]; cbn;
    naive_solver congruence.
Qed.

Lemma name_chars_without s (c : char) : name_char c = false → Forall (λ x, name_char x = true) s → c ∉ s.
Proof. intros Hc Hs Hin. rewrite Forall_forall in Hs. specialize (Hs c Hin). congruence. Qed.

Lemma separators_are_no_name_char :
  name_char at_sign = false /\ name_char slash = false /\ name_char 58 = false.
Proof. done. Qed.
End Validators.

(** ** Parsing is the inverse of printing *)

Section Exactness.
Context {V : Type} `{UnicodeNumerals, SemverLaws V}.
Implicit Types (r : Revision V) (s : str).

Definition revision_ok r : Prop := match r with RHash h => hash_ok (hash_str h) | _ => True end.

Definition hash_or_version_ok (r : HashOrVersion V) : Prop :=
  match r with HVHash h => hash_ok (hash_str h) | HVVersion _ => True end.

Definition fqn_ok (f : FullyQualifiedName) : Prop :=
  namespace_ok (namespace_str (fqn_namespace f)) /\ name_ok (name_str (fqn_name f)).

Definition reference_ok (x : Reference V) : Prop := fqn_ok (ref_fqn x) /\ revision_ok (ref_revision x).

Definition partial_ok (p : PartialReference V) : Prop :=
  match partial_namespace p with Some n => namespace_ok (namespace_str n) | None => True end
  /\ name_ok (name_str (partial_name p))
  /\ match partial_revision p with Some r => revision_ok r | None => True end.

Lemma hash_ok_no_dot s : hash_ok s → dot ∉ s.
Proof. intros [_ Hs] Hin. rewrite Forall_forall in Hs. by specialize (Hs dot Hin). Qed.

Lemma hash_ok_not_keyword s : hash_ok s → s ≠ lit "latest" /\ s ≠ lit "dev".
Proof. intros [Hl _]. by split; intros ->. Qed.

Lemma version_not_hash (v : V) : ¬ hash_ok (semver_display v).
Proof. intros Hh. apply (hash_ok_no_dot _ Hh), semver_dot. Qed.

Lemma version_not_keyword (v : V) : semver_display v ≠ lit "latest" /\ semver_display v ≠ lit "dev".
Proof.
  assert (dot ∉ lit "latest" /\ dot ∉ lit "dev") as [Hl Hd] by by apply (bool_decide_unpack _).
  pose proof (semver_dot v) as Hv. split; intros E; rewrite E in Hv; done.
Qed.

(** A hash first, then a version. *)
Lemma hash_then_version {E A} s (onhash : Hash → A) (onversion : V → A) (e : E) (a : A) :
  match parse_hash s with
  | Ok hash => Ok (onhash hash)
  | _ => match semver_parse s with Some version => Ok (onversion version) | None => Err e end
  end = Ok a
  ↔ (∃ h, a = onhash h /\ hash_ok (hash_str h) /\ s = hash_str h)
    \/ (∃ v, a = onversion v /\ s = semver_display v).
Proof.
  assert (∀ v, s = semver_display v → ∀ h, parse_hash s ≠ Ok h) as Hv.
  { intros v -> h [Hh Hs]%parse_hash_Ok. apply (version_not_hash v). by rewrite Hs. }
  destruct (parse_hash s) as [h|e'| |] eqn:Eh.
  - pose proof (proj1 (parse_hash_Ok s h) Eh) as [Hh Hs]. split.
    + intros [= <-]. left. by exists h.
    + intros [(h' & -> & Hh' & Hs')|(v & -> & Hs')]; [|by destruct (Hv v Hs' h)]. do 2 f_equal.
      destruct h, h'; cbn in *. by subst.
  - split.
    + destruct (semver_parse s) as [v|] eqn:Ev; [|done]. intros [= <-]. right. exists v. split; [done|].
      symmetry. by apply semver_display_parse.
    + intros [(h' & _ & Hh' & Hs')|(v & -> & ->)]; [|by rewrite semver_parse_display].
      assert (parse_hash s = Ok h') by by apply parse_hash_Ok. congruence.
  - unfold parse_hash in Eh. destruct (validate_hash s) as [[]| | |] eqn:Ev; cbn in Eh; try done.
    unfold validate_hash in Ev. by repeat case_match.
  - unfold parse_hash in Eh. destruct (validate_hash s) as [[]| | |] eqn:Ev; cbn in Eh; try done.
    unfold validate_hash in Ev. by repeat case_match.
Qed.

Lemma parse_revision_Ok s r : parse_revision s = Ok r ↔ revision_ok r /\ s = display_revision r.
Proof.
  unfold parse_revision. case_bool_decide as Hl; [|case_bool_decide as Hd].
  - subst s. split; [by intros [= <-]|]. destruct r as [v|h| |]; cbn; intros [Hr Hs]; try done.
    + by destruct (proj1 (version_not_keyword v)).
    + by destruct (proj1 (hash_ok_not_keyword _ Hr)).
  - subst s. split; [by intros [= <-]|]. destruct r as [v|h| |]; cbn; intros [Hr Hs]; try done.
    + by destruct (proj2 (version_not_keyword v)).
    + by destruct (proj2 (hash_ok_not_keyword _ Hr)).
  - rewrite hash_then_version. destruct r as [v|h| |]; cbn; naive_solver.
Qed.

Lemma parse_hash_or_version_Ok s (r : HashOrVersion V) :
  parse_hash_or_version s = Ok r ↔ hash_or_version_ok r /\ s = display_hash_or_version r.
Proof.
  unfold parse_hash_or_version. case_bool_decide as Hl; [|case_bool_decide as Hd]; cbn [orb].
  - subst s. split; [done|]. destruct r as [h|v]; cbn; intros [Hr Hs].
    + by destruct (proj1 (hash_ok_not_keyword _ Hr)).
    + by destruct (proj1 (version_not_keyword v)).
  - subst s. split; [done|]. destruct r as [h|v]; cbn; intros [Hr Hs].
    + by destruct (proj2 (hash_ok_not_keyword _ Hr)).
    + by destruct (proj2 (version_not_keyword v)).
  - rewrite hash_then_version. destruct r as [h|v]; cbn; naive_solver.
Qed.

Lemma name_ok_without c s : name_char c = false → name_ok s → c ∉ s.
Proof. intros Hc [_ Hs]. by apply name_chars_without. Qed.

Lemma namespace_ok_without c s : name_char c = false → namespace_ok s → c ∉ s.
Proof. intros Hc [_ Hs]. by apply name_chars_without. Qed.

Lemma fqn_ok_without_at f : fqn_ok f → at_sign ∉ display_fqn f.
Proof.
  intros [Hns Hn]. unfold display_fqn. rewrite elem_of_app, elem_of_cons.
  intros [?|[?|?]]; [by eapply (namespace_ok_without at_sign)|done|by eapply (name_ok_without at_sign)].
Qed.

Lemma split_fqn f rest :
  fqn_ok f → split_once slash (display_fqn f ++ rest) = Some (namespace_str (fqn_namespace f), name_str (fqn_name f) ++ rest).
Proof.
  intros [Hns _]. unfold display_fqn. rewrite <- (assoc_L (++)). cbn [app].
  apply chars_split_once_app. by apply namespace_ok_without.
Qed.

Lemma parse_fqn_Ok s f : parse_fqn s = Ok f ↔ fqn_ok f /\ s = display_fqn f.
Proof.
  unfold parse_fqn. destruct (split_once slash s) as [[a b]|] eqn:E.
  - apply chars_split_once_Some in E as [-> Ha]. rewrite bind_comp_Ok. setoid_rewrite bind_comp_Ok.
    setoid_rewrite with_err_Ok. setoid_rewrite parse_namespace_Ok. setoid_rewrite parse_name_Ok.
    destruct f as [ns n]. split.
    + intros (ns' & [Hns ->] & n' & [Hn ->] & [= -> ->]). done.
    + intros [[Hns Hn] Hs]. unfold display_fqn in Hs. cbn in Hs, Hns, Hn.
      assert (split_once slash (a ++ slash :: b) = Some (namespace_str ns, name_str n)) as Hsp.
      { rewrite Hs. apply chars_split_once_app. by apply namespace_ok_without. }
      rewrite chars_split_once_app in Hsp by done. injection Hsp as -> ->.
      exists ns. split; [done|]. by exists n.
  - split; [done|]. intros [Hf ->]. apply split_once_None in E. destruct E.
    unfold display_fqn. set_solver.
Qed.

Lemma parse_reference_parts_Ok s (x : Reference V) :
  parse_reference_parts s = Ok x ↔ reference_ok x /\ s = display_reference x.
Proof.
  unfold parse_reference_parts, display_reference. split.
  - destruct (split_once at_sign s) as [[fqn rev]|] eqn:E; [|done]. apply chars_split_once_Some in E as [-> _].
    destruct (split_once slash fqn) as [[a b]|] eqn:E; [|done]. apply chars_split_once_Some in E as [-> _].
    rewrite bind_comp_Ok. setoid_rewrite bind_comp_Ok. setoid_rewrite bind_comp_Ok.
    setoid_rewrite with_err_Ok. setoid_rewrite parse_namespace_Ok. setoid_rewrite parse_name_Ok. setoid_rewrite parse_revision_Ok.
    intros (ns & [Hns ->] & n & [Hn ->] & r & [Hr ->] & [= <-]). split; [by split|done].
  - intros [[Hf Hr] ->]. rewrite chars_split_once_app by by apply fqn_ok_without_at.
    pose proof (split_fqn (ref_fqn x) [] Hf) as Hs. rewrite !app_nil_r in Hs. rewrite Hs. destruct Hf as [Hns Hn].
    rewrite (proj2 (parse_namespace_Ok _ (fqn_namespace (ref_fqn x)))) by done. cbn.
    rewrite (proj2 (parse_name_Ok _ (fqn_name (ref_fqn x)))) by done. cbn.
    rewrite (proj2 (parse_revision_Ok _ (ref_revision x))) by done. cbn. by destruct x as [[] ?].
Qed.

(** A printed reference never looks like a PURL. *)
Lemma display_no_purl (x : Reference V) : reference_ok x → strip_prefix PURL_PREFIX (display_reference x) = None.
Proof.
  intros [Hf _]. destruct (strip_prefix PURL_PREFIX (display_reference x)) as [t|] eqn:E; [|done].
  apply chars_strip_prefix_Some in E. pose proof (split_fqn (ref_fqn x) (at_sign :: display_revision (ref_revision x)) Hf) as Hs.
  unfold display_reference in E. rewrite E in Hs. change (PURL_PREFIX ++ t) with (lit "pkg:amp" ++ slash :: t) in Hs.
  rewrite chars_split_once_app in Hs by by apply (bool_decide_unpack _). injection Hs as Hns _.
  destruct (namespace_ok_without 58 _ eq_refl (proj1 Hf)). rewrite <- Hns. by apply (bool_decide_unpack _).
Qed.

Lemma parse_purl_Ok s (x : Reference V) : parse_purl s = Ok x ↔ reference_ok x /\ s = to_purl x.
Proof.
  unfold parse_purl, to_purl. destruct (strip_prefix PURL_PREFIX s) as [t|] eqn:E.
  - apply chars_strip_prefix_Some in E as ->. rewrite with_err_Ok, parse_reference_parts_Ok.
    split; intros [Hx Hs]; split; try done; [by rewrite Hs|by apply app_inv_head in Hs].
  - split; [done|]. intros [_ ->]. by rewrite chars_strip_prefix_app in E.
Qed.

Lemma parse_partial_Ok s (p : PartialReference V) :
  parse_partial s = Ok p ↔ partial_ok p /\ s = display_partial p.
Proof.
  unfold parse_partial. split.
  - rewrite bind_comp_Ok. intros ([before revision] & Hrev & Hp).
    assert (match revision with Some r => revision_ok r | None => True end
            /\ s = before ++ match revision with Some r => at_sign :: display_revision r | None => [] end) as [Hr ->].
    { destruct (split_once at_sign s) as [[b rev]|] eqn:E.
      - apply chars_split_once_Some in E as [-> _]. rewrite bind_comp_Ok in Hrev. setoid_rewrite with_err_Ok in Hrev.
        setoid_rewrite parse_revision_Ok in Hrev. by destruct Hrev as (r & [Hr ->] & [= <- <-]).
      - injection Hrev as <- <-. by rewrite app_nil_r. }
    clear Hrev. unfold partial_ok, display_partial.
    destruct (split_once slash before) as [[a b]|] eqn:E.
    + apply chars_split_once_Some in E as [-> _]. rewrite bind_comp_Ok in Hp. setoid_rewrite bind_comp_Ok in Hp.
      setoid_rewrite with_err_Ok in Hp. setoid_rewrite parse_namespace_Ok in Hp. setoid_rewrite parse_name_Ok in Hp.
      destruct Hp as (ns & [Hns ->] & n & [Hn ->] & [= <-]). cbn. split; [done|]. by rewrite <- !(assoc_L (++)).
    + rewrite bind_comp_Ok in Hp. setoid_rewrite with_err_Ok in Hp. setoid_rewrite parse_name_Ok in Hp.
      by destruct Hp as (n & [Hn ->] & [= <-]).
  - intros [(Hns & Hn & Hr) ->]. unfold display_partial. destruct p as [ns n rev]. cbn in Hns, Hn, Hr |- *.
    set (before := match ns with Some namespace => namespace_str namespace ++ [slash] | None => [] end ++ name_str n).
    assert (at_sign ∉ before) as Hat.
    { unfold before. rewrite elem_of_app. intros [Hin|Hin]; [|by apply (name_ok_without at_sign) in Hin].
      destruct ns as [ns|]; [|by apply elem_of_nil in Hin].
      apply elem_of_app in Hin as [Hin|Hin]; [by apply (namespace_ok_without at_sign) in Hin|].
      by apply list_elem_of_singleton in Hin. }
    rewrite (assoc_L (++)). fold before.
    transitivity (Ok (E := PartialReferenceError) (before, rev) ≫= λ '(before_at, revision),
      match split_once slash before_at with
      | Some (ns_str, name_str) =>
          namespace ← with_err PartialInvalidNamespace (parse_namespace ns_str);
          name ← with_err PartialInvalidName (parse_name name_str);
          Ok (mkPartial (V := V) (Some namespace) name revision)
      | None => name ← with_err PartialInvalidName (parse_name before_at); Ok (mkPartial None name revision)
      end).
    { f_equal. destruct rev as [r|]; cbn.
      - rewrite chars_split_once_app by done. by rewrite (proj2 (parse_revision_Ok _ r)).
      - rewrite app_nil_r. by rewrite (proj2 (split_once_None _ _)). }
    cbn. unfold before. destruct ns as [ns|].
    + rewrite <- (assoc_L (++)). cbn [app]. rewrite chars_split_once_app by by apply namespace_ok_without.
      rewrite (proj2 (parse_namespace_Ok _ ns)) by done. cbn. by rewrite (proj2 (parse_name_Ok _ n)).
    + cbn [app]. rewrite (proj2 (split_once_None _ _)) by by apply name_ok_without.
      by rewrite (proj2 (parse_name_Ok _ n)).
Qed.
End Exactness.

Section Theorems.
Context {V : Type} `{UnicodeNumerals, SemverLaws V}.

Lemma slice_hash h : hash_ok (hash_str h) → slice_to 7 (hash_str h) = Ok (take 7 (hash_str h)).
Proof.
  intros [Hl Hs]. assert (Forall (λ c, c < 128) (hash_str h)) as Ha.
  { eapply Forall_impl; [exact Hs|]. intros c. unfold is_ascii_hexdigit, is_ascii_digit.
    rewrite !orb_true_iff, !andb_true_iff. lia. }
  apply (slice_to_ascii 7); [done|]. rewrite len_ascii in Hl by done. lia.
Qed.

(** References are printed and parsed without loss. A text is accepted as a
    reference exactly when it is the plain or the PURL form of a reference with
    valid components, and it then denotes that reference; a partial reference is
    exactly its printed form, a full reference read as a partial one is completed
    to itself, and the shortened form of a reference never fails and is a prefix
    of the full one. *)
Theorem references_exact :
  (∀ s (x : Reference V), parse_reference s = Ok x ↔ reference_ok x /\ (s = display_reference x \/ s = to_purl x))
  /\ (∀ s (p : PartialReference V), parse_partial s = Ok p ↔ partial_ok p /\ s = display_partial p)
  /\ (∀ x : Reference V, reference_ok x →
        parse_partial (display_reference x) = Ok (partial_of_reference x)
        /\ to_full_reference (partial_of_reference x) = x)
  /\ (∀ x : Reference V, reference_ok x → ∃ t, short_display x = Ok t /\ t `prefix_of` display_reference x).
Proof.
  split; [|split; [apply parse_partial_Ok|split]].
  - intros s x. unfold parse_reference. destruct (parse_purl s) as [y|e| |] eqn:E.
    + apply parse_purl_Ok in E as [Hy ->]. split; [intros [= <-]; by auto|]. intros [Hx [Hs|Hs]].
      * pose proof (display_no_purl x Hx) as Hn. rewrite <- Hs in Hn. unfold to_purl in Hn. by rewrite chars_strip_prefix_app in Hn.
      * assert (parse_purl (to_purl y) = Ok x) as Hp by (rewrite Hs; by apply parse_purl_Ok).
        rewrite (proj2 (parse_purl_Ok (to_purl y) y)) in Hp by done. congruence.
    + rewrite parse_reference_parts_Ok. split; [naive_solver|]. intros [Hx [Hs|Hs]]; [done|].
      rewrite (proj2 (parse_purl_Ok s x)) in E by done. congruence.
    + rewrite parse_reference_parts_Ok. split; [naive_solver|]. intros [Hx [Hs|Hs]]; [done|].
      rewrite (proj2 (parse_purl_Ok s x)) in E by done. congruence.
    + rewrite parse_reference_parts_Ok. split; [naive_solver|]. intros [Hx [Hs|Hs]]; [done|].
      rewrite (proj2 (parse_purl_Ok s x)) in E by done. congruence.
  - intros [[ns n] r] [[Hns Hn] Hr]. split; [|done]. apply parse_partial_Ok. split; [by split|].
    unfold display_reference, display_fqn, display_partial. cbn. by rewrite <- !(assoc_L (++)).
  - intros x [_ Hr]. unfold short_display, display_reference.
    destruct (ref_revision x) as [v|h| |]; try by eexists.
    rewrite slice_hash by done. cbn [mbind comp_bind]. eexists. split; [done|].
    apply prefix_app, prefix_cons. exists (drop 7 (hash_str h)). by rewrite take_drop.
Qed.

Lemma dep_reference_parts s (d : DepReference V) :
  parse_dep_reference s = Ok d ↔ parse_reference_parts s = Ok (dep_to_reference d).
Proof.
  rewrite parse_reference_parts_Ok. unfold parse_dep_reference. destruct d as [f r].
  assert (reference_ok (dep_to_reference (mkDepReference f r)) ↔ fqn_ok f /\ hash_or_version_ok r) as ->
    by (unfold reference_ok; cbn; by destruct r).
  assert (display_reference (dep_to_reference (mkDepReference f r)) = display_fqn f ++ at_sign :: display_hash_or_version r) as ->
    by (unfold display_reference; cbn; by destruct r).
  split.
  - destruct (split_once at_sign s) as [[a b]|] eqn:E; [|done]. apply chars_split_once_Some in E as [-> _].
    rewrite bind_comp_Ok. setoid_rewrite bind_comp_Ok. setoid_rewrite with_err_Ok.
    setoid_rewrite parse_fqn_Ok. setoid_rewrite parse_hash_or_version_Ok.
    by intros (f' & [Hf ->] & r' & [Hr ->] & [= -> ->]).
  - intros [[Hf Hr] ->]. rewrite chars_split_once_app by by apply fqn_ok_without_at.
    rewrite (proj2 (parse_fqn_Ok _ f)) by done. cbn. by rewrite (proj2 (parse_hash_or_version_Ok _ r)).
Qed.

Lemma hash_reference_parts s (h : HashReference) :
  parse_hash_reference s = Ok h ↔ parse_reference_parts s = Ok (hash_to_reference (V := V) h).
Proof.
  rewrite parse_reference_parts_Ok. unfold parse_hash_reference. destruct h as [f h]. unfold reference_ok, display_reference. cbn. split.
  - destruct (split_once at_sign s) as [[a b]|] eqn:E; [|done]. apply chars_split_once_Some in E as [-> _].
    rewrite bind_comp_Ok. setoid_rewrite bind_comp_Ok. setoid_rewrite with_err_Ok.
    setoid_rewrite parse_fqn_Ok. setoid_rewrite parse_hash_Ok.
    by intros (f' & [Hf ->] & r' & [Hr ->] & [= -> ->]).
  - intros [[Hf Hr] ->]. rewrite chars_split_once_app by by apply fqn_ok_without_at.
    rewrite (proj2 (parse_fqn_Ok _ f)) by done. cbn. by rewrite (proj2 (parse_hash_Ok _ h)).
Qed.

Lemma replace_back s : underscore ∉ s → replace underscore dot (replace dot underscore s) = s.
Proof.
  intros Hs. unfold replace. rewrite <- list_fmap_compose. rewrite <- (list_fmap_id s) at 2.
  apply list_fmap_ext. intros i c Hc. cbn. destruct (Z.eqb_spec c dot) as [->|]; [done|].
  destruct (Z.eqb_spec c underscore) as [->|]; [|done]. destruct Hs. by eapply list_elem_of_lookup_2.
Qed.

(** The references that name a fixed revision are the general references
    with one: a dependency reference parses a text exactly when the general
    parser reads it with a version or a hash, never with [latest] or [dev], a
    hash reference when it reads it with a hash, the conversions between them
    lose nothing, and a version survives its form with underscores. *)
Theorem typed_references_agree :
  (∀ s (d : DepReference V), parse_dep_reference s = Ok d ↔ parse_reference_parts s = Ok (dep_to_reference d))
  /\ (∀ s (h : HashReference), parse_hash_reference s = Ok h ↔ parse_reference_parts s = Ok (hash_to_reference (V := V) h))
  /\ (∀ s (x : Reference V), parse_reference_parts s = Ok x →
        ((∃ d : DepReference V, parse_dep_reference s = Ok d) ↔ ref_revision x ≠ RLatest /\ ref_revision x ≠ RDev)
        /\ ((∃ h, parse_hash_reference s = Ok h) ↔ ∃ h, try_hash_reference x = Ok h))
  /\ (∀ (x : Reference V) h, try_hash_reference x = Ok h ↔ x = hash_to_reference h)
  /\ (∀ v : V, try_from_underscore_version (to_underscore_version v) = Some v).
Proof.
  assert (∀ (x : Reference V) h, try_hash_reference x = Ok h ↔ x = hash_to_reference h) as Htry.
  { intros [f r] [f' h]. unfold try_hash_reference, hash_to_reference. cbn. destruct r; naive_solver. }
  split; [apply dep_reference_parts|]. split; [apply hash_reference_parts|]. split; [|split; [done|]].
  - intros s x Hx. split.
    + setoid_rewrite dep_reference_parts. setoid_rewrite Hx. destruct x as [f r]. unfold dep_to_reference. cbn. split.
      * intros [[f' [h|v]] [= -> ->]]; done.
      * intros [Hl Hd]. destruct r as [v|h| |]; [by exists (mkDepReference f (HVVersion v))|by exists (mkDepReference f (HVHash h))|done|done].
    + setoid_rewrite hash_reference_parts. setoid_rewrite Htry. setoid_rewrite Hx. naive_solver.
  - intros v. unfold try_from_underscore_version, to_underscore_version.
    rewrite replace_back by apply semver_underscore. apply semver_parse_display.
Qed.

(** What the identifiers may be. Each validator accepts exactly its shape: a
    first character, an alphabet and a length in bytes; every dependency alias
    can be a table name and every table name a function name; but a name or
    namespace of a dataset may also contain numerals beyond ASCII, which no
    table name may, and the alias [self] is accepted although a function
    reference through it is taken for the dataset itself. *)
Theorem identifiers_checked s :
  (validate_dataset_name s = Ok tt ↔ name_ok s)
  /\ (validate_namespace s = Ok tt ↔ namespace_ok s)
  /\ (validate_table_name s = Ok tt ↔ table_name_ok s)
  /\ (validate_func_name s = Ok tt ↔ func_name_ok s)
  /\ (validate_dep_alias s = Ok tt ↔ dep_alias_ok s)
  /\ (validate_hash s = Ok tt ↔ hash_ok s)
  /\ (dep_alias_ok s → table_name_ok s) /\ (table_name_ok s → func_name_ok s) /\ (name_ok s → namespace_ok s)
  /\ (∀ c, 127 < c → unicode_n c = true →
        validate_dataset_name [97; c] = Ok tt /\ validate_table_name [97; c] = Err (TableNameInvalidCharacter c [97; c]))
  /\ (∃ alias, parse_dep_alias SELF_REF_KEYWORD = Ok alias
        /\ parse_dep_alias_or_self_ref (display_dep_alias_or_self_ref (DepAliasRef alias)) = Ok SelfRef).
Proof.
  split; [apply validate_dataset_name_ok|]. split; [apply validate_namespace_ok|].
  split; [apply validate_table_name_ok|]. split; [apply validate_func_name_ok|].
  split; [apply validate_dep_alias_ok|]. split; [apply validate_hash_ok|].
  split; [|split; [|split; [|split]]].
  - intros (Hf & Ha & Hl). split; [|split; [|done]].
    + destruct s as [|c s]; [done|]. cbn in *. by rewrite Hf.
    + eapply Forall_impl; [exact Ha|]. intros c. unfold alias_char, table_char. intros ->. done.
  - intros (Hf & Ha & Hl). split; [done|]. split; [done|]. lia.
  - intros [Hf Ha]. split; [by intros ->|done].
  - intros c Hc Hn. assert (table_char c = false) as Ht.
    { unfold table_char, is_ascii_alphanumeric, is_ascii_alphabetic, is_ascii_lowercase, is_ascii_uppercase, is_ascii_digit, underscore, dollar. lia. }
    assert (name_char c = true) as Hm.
    { unfold name_char, is_numeric. rewrite Hn, (proj2 (Z.ltb_lt 127 c)) by done. by rewrite !orb_true_r. }
    split.
    + apply validate_dataset_name_ok. split; [done|]. by repeat constructor.
    + assert (len [97; c] <= 5) as Hl. { rewrite !len_cons. unfold char_len. cbn [len foldr]. repeat case_match; lia. }
      unfold validate_table_name, MAX_IDENTIFIER_LENGTH. rewrite (proj2 (Z.ltb_ge 63 _)) by lia. cbn [negb List.find].
      change (is_ascii_alphabetic 97 || (97 =? underscore)) with true. change (table_char 97) with true.
      cbn [negb]. by rewrite Ht.
  - by eexists.
Qed.
End Theorems.

(** ** Two versions *)

#[global] Instance demo_numerals : UnicodeNumerals := λ c, bool_decide (c ∈ [178; 189; 1632]).

Definition demo_display (v : bool) : str := if v then lit "1.0.0" else lit "0.4.10-rc.1".

#[global] Instance demo_semver : Semver bool :=
  {| semver_display := demo_display;
     semver_parse := λ s, if bool_decide (s = demo_display true) then Some true
                          else if bool_decide (s = demo_display false) then Some false else None |}.

#[global] Instance demo_semver_laws : SemverLaws bool.
Proof.
  split.
  - by intros [].
  - intros s v. cbn. case_bool_decide as Ht; [by intros [= <-]|]. case_bool_decide; [by intros [= <-]|done].
  - intros []; by apply (bool_decide_unpack _).
  - intros []; by apply (bool_decide_unpack _).
Qed.

Definition demo_reference : Reference bool :=
  mkReference (mkFqn global (mkName (lit "eth_rpc"))) (RVersion true).

Lemma demo_reference_ok : reference_ok demo_reference.
Proof.
  split; [|done]. split; [split; [done|by repeat constructor]|]. split; [done|by repeat constructor].
Qed.

Lemma references_exact_witness :
  parse_reference (lit "pkg:amp/_/eth_rpc@1.0.0") = Ok demo_reference
  /\ parse_partial (lit "_/eth_rpc@1.0.0") = Ok (partial_of_reference demo_reference).
Proof.
  destruct (references_exact (V := bool)) as (Hp & _ & Hf & _). split.
  - apply Hp. split; [apply demo_reference_ok|by right].
  - apply (Hf demo_reference), demo_reference_ok.
Defined.

Lemma typed_references_agree_witness :
  parse_dep_reference (lit "_/eth_rpc@1.0.0") = Ok (mkDepReference (ref_fqn demo_reference) (HVVersion true))
  /\ ∀ s, parse_reference_parts s = Ok (mkReference (ref_fqn demo_reference) (RLatest (V := bool))) →
       ¬ ∃ d : DepReference bool, parse_dep_reference s = Ok d.
Proof.
  destruct (typed_references_agree (V := bool)) as (Hd & _ & Hx & _). split.
  - apply Hd. reflexivity.
  - intros s Hs. destruct (Hx s _ Hs) as [Hiff _]. intros He. by destruct (proj1 Hiff He) as [[] _].
Defined.
