(* ===== verification/SqlReferences.v ===== *)
(** * SqlReferences

    The references to tables and functions of a SQL statement
    (core/common/src/sql.rs): parsing to one statement, the validation of what
    DataFusion resolves, and the conversions of table references. The parser,
    the resolution and the visitor of DataFusion are parameters; a statement is
    seen through them. *)

From stdpp Require Import base numbers strings option list sets.
From Stdlib Require Import ZArith Lia.
From S2P Require Import Prelude BTree Names.

(** [std::str::FromStr] *)
Class FromStr (T E : Type) := from_str : str → comp E T.

#[global] Instance str_from_str : FromStr str Empty_set := λ s, Ok s.
#[global] Instance dep_alias_from_str : FromStr DepAlias DepAliasError := parse_dep_alias.
#[global] Instance dep_alias_or_self_from_str : FromStr DepAliasOrSelfRef DepAliasOrSelfRefError :=
  parse_dep_alias_or_self_ref.

(** ** Statements *)

Section Parse.
Context {S E : Type} (parse_sql : str → comp E (list S)).

Inductive ParseSqlError := InvalidSyntax (e : E) | NoStatements | MultipleStatements (count : nat).

Definition parse (sql : str) : comp ParseSqlError S :=
  statements ← with_err InvalidSyntax (parse_sql sql);
  if Nat.ltb 1 (length statements) then Err (MultipleStatements (length statements))
  else ok_or (last statements) NoStatements.
End Parse.
Arguments ParseSqlError E : clear implicits.

(** ** Tables *)

(** [datafusion::sql::TableReference] *)
Inductive DfTableReference :=
  | DfBare (table : str)
  | DfPartial (schema table : str)
  | DfFull (catalog schema table : str).

Inductive DataFusionError := Plan (msg : str) | OtherError (e : str).

Inductive TableReference (T : Type) := BareTable (table : TableName) | PartialTable (schema : T) (table : TableName).
Arguments BareTable {T} table.
Arguments PartialTable {T} schema table.

#[global] Instance TableReference_eq_dec `{EqDecision T} : EqDecision (TableReference T).
Proof. solve_decision. Defined.

Inductive ResolveTableReferencesError (E : Type) :=
  | InvalidIdentifier (e : DataFusionError)
  | UnsupportedTableReferenceFormat (e : DataFusionError)
  | InvalidTableName (table_ref : str) (source : TableNameError)
  | InvalidSchemaFormat (table_ref : str) (source : E)
  | CatalogQualifiedTable (table_ref : str).
Arguments InvalidIdentifier {E} e.
Arguments UnsupportedTableReferenceFormat {E} e.
Arguments InvalidTableName {E} table_ref source.
Arguments InvalidSchemaFormat {E} table_ref source.
Arguments CatalogQualifiedTable {E} table_ref.

Inductive TableReferenceConversionError (E : Type) :=
  | ConvInvalidTableName (e : TableNameError)
  | ConvInvalidSchemaFormat (e : E)
  | ConvCatalogQualifiedTable (table_ref : str).
Arguments ConvInvalidTableName {E} e.
Arguments ConvInvalidSchemaFormat {E} e.
Arguments ConvCatalogQualifiedTable {E} table_ref.

Definition table {T} (r : TableReference T) : TableName := match r with BareTable t | PartialTable _ t => t end.

Definition schema {T} (r : TableReference T) : option T :=
  match r with BareTable _ => None | PartialTable s _ => Some s end.

(** [Display for TableReference], given the one of the schemas *)
Definition display_table_reference {T} (show : T → str) (r : TableReference T) : str :=
  match r with
  | BareTable t => table_name_str t
  | PartialTable s t => show s ++ dot :: table_name_str t
  end.

Definition to_string_reference {T} (show : T → str) (r : TableReference T) : TableReference str :=
  match r with BareTable t => BareTable t | PartialTable s t => PartialTable (show s) t end.

(** [quote_identifier] of DataFusion is a parameter. *)
Definition to_quoted_string {T} (quote : str → str) (as_ref : T → str) (r : TableReference T) : str :=
  match r with
  | BareTable t => quote (table_name_str t)
  | PartialTable s t => quote (as_ref s) ++ dot :: quote (table_name_str t)
  end.

Definition into_df {T} (as_ref : T → str) (r : TableReference T) : DfTableReference :=
  match r with
  | BareTable t => DfBare (table_name_str t)
  | PartialTable s t => DfPartial (as_ref s) (table_name_str t)
  end.

Definition try_from {T E} `{FromStr T E} (value : DfTableReference) : comp (TableReferenceConversionError E) (TableReference T) :=
  match value with
  | DfBare t => table_name ← with_err ConvInvalidTableName (parse_table_name t); Ok (BareTable table_name)
  | DfPartial s t =>
      table_name ← with_err ConvInvalidTableName (parse_table_name t);
      parsed_schema ← with_err ConvInvalidSchemaFormat (from_str s);
      Ok (PartialTable parsed_schema table_name)
  | DfFull c s t => Err (ConvCatalogQualifiedTable (c ++ dot :: s ++ dot :: t))
  end.

(** [msg.contains(needle)] *)
Fixpoint contains_str (needle s : str) : bool :=
  match strip_prefix needle s with
  | Some _ => true
  | None => match s with [] => false | _ :: s => contains_str needle s end
  end.

Definition classify_plan_error {E} (err : DataFusionError) : ResolveTableReferencesError E :=
  match err with
  | Plan msg =>
      if contains_str (lit "Expected identifier") msg then InvalidIdentifier err
      else if contains_str (lit "Unsupported compound identifier") msg
              || contains_str (lit "Expected 1, 2 or 3 parts") msg
      then UnsupportedTableReferenceFormat err
      else InvalidIdentifier err
  | _ => InvalidIdentifier err
  end.

Section Tables.
Context {T E : Type} `{FromStr T E} (df_display : DfTableReference → str).

Definition df_table (r : DfTableReference) : str :=
  match r with DfBare t | DfPartial _ t | DfFull _ _ t => t end.

Definition resolve_table (df_ref : DfTableReference) : comp (ResolveTableReferencesError E) (TableReference T) :=
  table ← with_err (InvalidTableName (df_display df_ref)) (parse_table_name (df_table df_ref));
  match df_ref with
  | DfBare _ => Ok (BareTable table)
  | DfPartial schema _ =>
      parsed_schema ← with_err (InvalidSchemaFormat (df_display df_ref)) (from_str schema);
      Ok (PartialTable parsed_schema table)
  | DfFull _ _ _ => Err (CatalogQualifiedTable (df_display df_ref))
  end.

(** What DataFusion resolves in the statement, validated. *)
Definition resolve_table_references (df_table_refs : comp DataFusionError (list DfTableReference))
    : comp (ResolveTableReferencesError E) (list (TableReference T)) :=
  refs ← with_err classify_plan_error df_table_refs;
  mapM resolve_table refs.
End Tables.

(** ** Functions *)

Inductive ObjectNamePart := Identifier (value : str) | FunctionPart.

(** [datafusion::sql::parser::Statement], with the functions called in a
    statement as the visitor finds them. *)
Inductive Statement :=
  | SqlStatement (functions : list (list ObjectNamePart))
  | CreateExternalTable
  | CopyTo
  | Explain (statement : Statement).

Inductive AllFunctionNamesError := DmlNotSupported | UnsupportedStatementInExplain.

Inductive FunctionReference (T : Type) := BareFunction (function : FuncName) | QualifiedFunction (schema : T) (function : FuncName).
Arguments BareFunction {T} function.
Arguments QualifiedFunction {T} schema function.

#[global] Instance FunctionReference_eq_dec `{EqDecision T} : EqDecision (FunctionReference T).
Proof. solve_decision. Defined.

Inductive ResolveFunctionReferencesError (E : Type) :=
  | FunctionReferenceResolution (e : AllFunctionNamesError)
  | CatalogQualifiedFunction (function_ref : str)
  | InvalidFunctionFormat (function_ref : str)
  | InvalidFunctionName (function : str) (source : FuncNameError)
  | FuncInvalidSchemaFormat (function_ref : str) (source : E).
Arguments FunctionReferenceResolution {E} e.
Arguments CatalogQualifiedFunction {E} function_ref.
Arguments InvalidFunctionFormat {E} function_ref.
Arguments InvalidFunctionName {E} function source.
Arguments FuncInvalidSchemaFormat {E} function_ref source.

Definition function_name {T} (r : FunctionReference T) : FuncName :=
  match r with BareFunction f | QualifiedFunction _ f => f end.

Definition function_schema {T} (r : FunctionReference T) : option T :=
  match r with BareFunction _ => None | QualifiedFunction s _ => Some s end.

Definition display_function_reference {T} (show : T → str) (r : FunctionReference T) : str :=
  match r with
  | BareFunction f => func_name_str f
  | QualifiedFunction s f => show s ++ dot :: func_name_str f
  end.

Definition function_to_string_reference {T} (show : T → str) (r : FunctionReference T) : FunctionReference str :=
  match r with BareFunction f => BareFunction f | QualifiedFunction s f => QualifiedFunction (show s) f end.

(** [parts.join(".")] *)
Fixpoint join_dots (parts : list str) : str :=
  match parts with [] => [] | [p] => p | p :: ps => p ++ dot :: join_dots ps end.

Definition identifiers (name : list ObjectNamePart) : list str :=
  omap (λ part, match part with Identifier value => Some value | FunctionPart => None end) name.

Definition all_function_refs (stmt : Statement) : comp AllFunctionNamesError (list (list str)) :=
  match stmt with
  | SqlStatement functions => Ok (identifiers <$> functions)
  | CreateExternalTable | CopyTo => Err DmlNotSupported
  | Explain (SqlStatement functions) => Ok (identifiers <$> functions)
  | Explain _ => Err UnsupportedStatementInExplain
  end.

Section Functions.
Context {T E : Type} `{FromStr T E}.

Definition resolve_function (parts : list str) : comp (ResolveFunctionReferencesError E) (FunctionReference T) :=
  match parts with
  | [function] => validated ← with_err (InvalidFunctionName function) (parse_func_name function); Ok (BareFunction validated)
  | [schema; function] =>
      validated_func ← with_err (InvalidFunctionName function) (parse_func_name function);
      validated_schema ← with_err (FuncInvalidSchemaFormat (join_dots parts)) (from_str schema);
      Ok (QualifiedFunction validated_schema validated_func)
  | [_; _; _] => Err (CatalogQualifiedFunction (join_dots parts))
  | _ => Err (InvalidFunctionFormat (join_dots parts))
  end.

Definition resolve_function_references (stmt : Statement)
    : comp (ResolveFunctionReferencesError E) (list (FunctionReference T)) :=
  func_refs ← with_err FunctionReferenceResolution (all_function_refs stmt);
  mapM resolve_function func_refs.
End Functions.

(** ** Resolution *)

Lemma parse_table_name_Ok s t : parse_table_name s = Ok t ↔ table_name_ok (table_name_str t) /\ s = table_name_str t.
Proof.
  unfold parse_table_name. rewrite <- validate_table_name_ok.
  destruct (validate_table_name s) as [[]|e| |] eqn:E; cbn; destruct t as [n]; cbn; naive_solver congruence.
Qed.

Lemma parse_func_name_Ok s f : parse_func_name s = Ok f ↔ func_name_ok (func_name_str f) /\ s = func_name_str f.
Proof.
  unfold parse_func_name. rewrite <- validate_func_name_ok.
  destruct (validate_func_name s) as [[]|e| |] eqn:E; cbn; destruct f as [n]; cbn; naive_solver congruence.
Qed.

Section Resolution.
Context {T E : Type} `{FromStr T E} (df_display : DfTableReference → str).

Lemma resolve_table_try_from (d : DfTableReference) (r : TableReference T) :
  resolve_table df_display d = Ok r ↔ try_from d = Ok r.
Proof.
  unfold resolve_table. destruct d as [t|s t|c s t]; cbn; destruct (parse_table_name t); cbn; try (split; intros; simplify_eq; done).
  destruct (from_str (T := T) (E := E) s); cbn; split; intros; simplify_eq; done.
Qed.

(** The references of a statement. The tables a statement is resolved to
    are those DataFusion finds, one for one and in its order, each as the
    conversion of a single reference gives it, which inverts the conversion
    back and refuses catalogs; the functions are those called, each with a
    valid name and printed as it was written. *)
Theorem sql_references_resolved (show : T → str) :
  (∀ s (t : T), from_str s = Ok t → show t = s) →
  (∀ refs (l : list (TableReference T)),
     resolve_table_references df_display (Ok refs) = Ok l ↔ Forall2 (λ d r, try_from d = Ok r) refs l)
  /\ (∀ (d : DfTableReference) (r : TableReference T), try_from d = Ok r → into_df show r = d /\ table_name_ok (table_name_str (table r)))
  /\ (∀ r : TableReference T, table_name_ok (table_name_str (table r)) →
        (∀ t, schema r = Some t → from_str (show t) = Ok t) → try_from (into_df show r) = Ok r)
  /\ (∀ stmt (l : list (FunctionReference T)), resolve_function_references stmt = Ok l →
        ∃ calls, all_function_refs stmt = Ok calls
          /\ Forall2 (λ parts r, display_function_reference show r = join_dots parts
                                 /\ func_name_ok (func_name_str (function_name r))) calls l).
Proof.
  intros Hshow. split; [|split; [|split]].
  - intros refs l. unfold resolve_table_references. cbn. rewrite mapM_Forall2.
    split; intros Hl; (eapply Forall2_impl; [exact Hl|]); intros d r; by rewrite resolve_table_try_from.
  - intros [t|s t|c s t] r; cbn; [..|done].
    + rewrite bind_comp_Ok. setoid_rewrite with_err_Ok. setoid_rewrite parse_table_name_Ok.
      by intros (n & [Hn ->] & [= <-]).
    + rewrite bind_comp_Ok. setoid_rewrite bind_comp_Ok. setoid_rewrite with_err_Ok. setoid_rewrite parse_table_name_Ok.
      intros (n & [Hn ->] & x & Hx & [= <-]). cbn. by rewrite (Hshow _ _ Hx).
  - intros [t|s t] Ht Hs; cbn.
    + by rewrite (proj2 (parse_table_name_Ok _ t)).
    + rewrite (proj2 (parse_table_name_Ok _ t)) by done. cbn. by rewrite (Hs s eq_refl).
  - intros stmt l. unfold resolve_function_references. rewrite bind_comp_Ok. intros (calls & Hc & Hl).
    apply with_err_Ok in Hc. exists calls. split; [done|]. apply mapM_Ok_Forall2 in Hl.
    eapply Forall2_impl; [exact Hl|]. intros [|a [|b [|c [|d parts]]]] r; cbn; try done.
    + rewrite bind_comp_Ok. setoid_rewrite with_err_Ok. setoid_rewrite parse_func_name_Ok.
      by intros (f & [Hf ->] & [= <-]).
    + rewrite bind_comp_Ok. setoid_rewrite bind_comp_Ok. setoid_rewrite with_err_Ok. setoid_rewrite parse_func_name_Ok.
      intros (f & [Hf ->] & x & Hx & [= <-]). cbn. by rewrite (Hshow _ _ Hx).
Qed.
End Resolution.

Lemma dep_alias_show s (a : DepAlias) : from_str s = Ok a → dep_alias_str a = s.
Proof.
  unfold from_str, dep_alias_from_str, parse_dep_alias. destruct (validate_dep_alias s); cbn; try done. by intros [= <-].
Qed.

Lemma sql_references_resolved_witness :
  resolve_table_references (λ _, []) (Ok [DfPartial (lit "eth") (lit "blocks")])
    = Ok [PartialTable (mkDepAlias (lit "eth")) (mkTableName (lit "blocks"))].
Proof.
  destruct (sql_references_resolved (T := DepAlias) (λ _, []) dep_alias_str dep_alias_show) as (Ht & _).
  apply Ht. by repeat constructor.
Defined.
