(* ===== verification/DerivedDatasets.v ===== *)
(** * DerivedDatasets

    Derived datasets (core/datasets-derived/src): their manifests, the dataset a
    manifest is loaded as with its tables in the order of their dependencies, the
    catalog of the tables and functions that the queries of a manifest refer to,
    and the validation of a manifest. The parser of DataFusion, its planner, and
    the store of the datasets are interfaces. *)

From stdpp Require Import base numbers strings option list sets.
From Stdlib Require Import ZArith Lia.
From S2P Require Import Prelude Plan Incrementalize BTree Dependencies Names SqlReferences.

(** ** Orders of the keys *)

#[global] Instance TableName_ord : Ord TableName := ord_by table_name_str.
#[global] Instance FuncName_ord : Ord FuncName := ord_by func_name_str.
#[global] Instance DepAlias_ord : Ord DepAlias := ord_by dep_alias_str.
#[global] Instance Hash_ord : Ord Hash := ord_by hash_str.

#[global] Instance TableName_ord_laws : OrdLaws TableName.
Proof. apply ord_by_laws. by intros [] [] [= ->]. Qed.
#[global] Instance FuncName_ord_laws : OrdLaws FuncName.
Proof. apply ord_by_laws. by intros [] [] [= ->]. Qed.
#[global] Instance DepAlias_ord_laws : OrdLaws DepAlias.
Proof. apply ord_by_laws. by intros [] [] [= ->]. Qed.
#[global] Instance Hash_ord_laws : OrdLaws Hash.
Proof. apply ord_by_laws. by intros [] [] [= ->]. Qed.

(** Variants first, in the order they are declared. *)
Definition table_ref_key (r : TableReference str) : Z * (str * str) :=
  match r with BareTable t => (0, ([], table_name_str t)) | PartialTable s t => (1, (s, table_name_str t)) end.

#[global] Instance TableReference_ord : Ord (TableReference str) := ord_by table_ref_key.
#[global] Instance TableReference_ord_laws : OrdLaws (TableReference str).
Proof. apply ord_by_laws. intros [[]|? []] [[]|? []]; cbn; congruence. Qed.

Definition func_ref_key (r : FunctionReference str) : Z * (str * str) :=
  match r with BareFunction f => (0, ([], func_name_str f)) | QualifiedFunction s f => (1, (s, func_name_str f)) end.

#[global] Instance FunctionReference_ord : Ord (FunctionReference str) := ord_by func_ref_key.
#[global] Instance FunctionReference_ord_laws : OrdLaws (FunctionReference str).
Proof. apply ord_by_laws. intros [[]|? []] [[]|? []]; cbn; congruence. Qed.

Definition self_ref_key (r : FunctionReference DepAliasOrSelfRef) : Z * (Z * (str * str)) :=
  match r with
  | BareFunction f => (0, (0, ([], func_name_str f)))
  | QualifiedFunction (DepAliasRef a) f => (1, (0, (dep_alias_str a, func_name_str f)))
  | QualifiedFunction SelfRef f => (1, (1, ([], func_name_str f)))
  end.

#[global] Instance SelfReference_ord : Ord (FunctionReference DepAliasOrSelfRef) := ord_by self_ref_key.
#[global] Instance SelfReference_ord_laws : OrdLaws (FunctionReference DepAliasOrSelfRef).
Proof. apply ord_by_laws. intros [[]|[[]|] []] [[]|[[]|] []]; cbn; congruence. Qed.

#[global] Instance DepAliasOrSelfRef_eq_dec : EqDecision DepAliasOrSelfRef.
Proof. solve_decision. Defined.

Definition BoxError : Type := str.

(** ** Manifests *)

Section Manifests.
Context {Schema DataType V : Type}.

Record View := mkView { view_sql : str }.

Inductive TableInput := ViewInput (v : View).

Record Table := mkTable { input : TableInput; table_schema : Schema; table_network : str }.

Record FunctionSource := mkSource { source_text : str; source_filename : str }.

Record Function := mkFunction { input_types : list DataType; output_type : DataType; source : FunctionSource }.

Record Manifest := mkManifest {
  dependencies : BTreeMap DepAlias (DepReference V);
  manifest_tables : BTreeMap TableName Table;
  manifest_functions : BTreeMap FuncName Function
}.

(** ** Logical datasets *)

Record LogicalTable := mkLogicalTable {
  lt_name : TableName;
  lt_schema : Schema;
  lt_network : str;
  lt_sorted_by : list str
}.

Definition SPECIAL_BLOCK_NUM : str := lit "_block_num".

(** [Table::new], with the set of the columns it is sorted by *)
Definition logical_table_new (name : TableName) (schema : Schema) (network : str) (sorted_by : list str) : LogicalTable :=
  mkLogicalTable name schema network (node_set (sorted_by ++ [SPECIAL_BLOCK_NUM])).

Record LogicalFunction := mkLogicalFunction {
  lf_name : str;
  lf_input_types : list DataType;
  lf_output_type : DataType;
  lf_source : FunctionSource
}.

Record Dataset := mkDataset {
  manifest_hash : Hash;
  dataset_dependencies : BTreeMap DepAlias (DepReference V);
  kind : str;
  network : option str;
  start_block : option Z;
  finalized_blocks_only : bool;
  tables : list LogicalTable;
  functions : list LogicalFunction
}.
End Manifests.
Arguments Table Schema : clear implicits.
Arguments Function DataType : clear implicits.
Arguments Manifest Schema DataType V : clear implicits.
Arguments LogicalTable Schema : clear implicits.
Arguments LogicalFunction DataType : clear implicits.
Arguments Dataset Schema DataType V : clear implicits.

Definition DERIVED_DATASET_KIND : str := lit "manifest".

(** What the program uses of DataFusion: the parser, the tables of a statement
    and the functions it calls. *)
Class SqlFrontend (Stmt : Type) := {
  parse_statements : str → comp BoxError (list Stmt);
  statement_tables : Stmt → comp DataFusionError (list DfTableReference);
  statement_calls : Stmt → Statement;
  show_table : DfTableReference → str
}.

(** ** Loading a manifest *)

Inductive SortTablesByDependenciesError :=
  | ResolveTableReferences (table_name : TableName) (source : ResolveTableReferencesError Empty_set)
  | TopologicalSort (table_name : TableName).

Inductive DatasetError :=
  | ParseSql (table_name : TableName) (source : ParseSqlError BoxError)
  | SortTableDependencies (source : SortTablesByDependenciesError).

Section Loading.
Context {Schema DataType V Stmt : Type} `{SqlFrontend Stmt}.

Definition parse_sql (sql : str) : comp (ParseSqlError BoxError) Stmt := SqlReferences.parse parse_statements sql.

Definition table_refs {T E} `{FromStr T E} (stmt : Stmt) : comp (ResolveTableReferencesError E) (list (TableReference T)) :=
  resolve_table_references show_table (statement_tables stmt).

Definition func_refs {T E} `{FromStr T E} (stmt : Stmt) : comp (ResolveFunctionReferencesError E) (list (FunctionReference T)) :=
  resolve_function_references (statement_calls stmt).

(** The tables of the same dataset among the references of a query. *)
Definition own_tables {T} (table_map : BTreeMap TableName T) (table_name : TableName)
    (refs : list (TableReference str)) : list TableName :=
  omap (λ r, match r with
             | BareTable t => if negb (bool_decide (t = table_name)) && contains_key t table_map then Some t else None
             | PartialTable _ _ => None
             end) refs.

(** [if let Some(existing) = deps.get_mut(key) { *existing = value }] *)
Definition update {T} (k : TableName) (v : T) (m : BTreeMap TableName T) : BTreeMap TableName T :=
  (λ kv, match ord k kv.1 with Eq => (kv.1, v) | _ => kv end) <$> m.

Fixpoint collect_deps {T} (table_map : BTreeMap TableName T) (queries : BTreeMap TableName Stmt)
    (deps : BTreeMap TableName (list TableName)) : comp SortTablesByDependenciesError (BTreeMap TableName (list TableName)) :=
  match queries with
  | [] => Ok deps
  | (table_name, query) :: queries =>
      refs ← with_err (ResolveTableReferences table_name) (table_refs query);
      collect_deps table_map queries (update table_name (own_tables table_map table_name refs) deps)
  end.

Definition sort_tables_by_dependencies (ts : list (LogicalTable Schema)) (queries : BTreeMap TableName Stmt)
    : comp SortTablesByDependenciesError (list (LogicalTable Schema)) :=
  let table_map : BTreeMap TableName (LogicalTable Schema) := btree_collect (list_fmap _ _ (λ t, (lt_name t, t)) ts) in
  let deps : BTreeMap TableName (list TableName) := btree_collect (list_fmap _ _ (λ kv, (kv.1, [])) table_map) in
  deps ← collect_deps table_map queries deps;
  sorted_names ← with_err TopologicalSort (table_dependency_sort deps);
  Ok (list_omap _ _ (λ name, get name table_map) sorted_names).

Definition logical_function (f : FuncName * Function DataType) : LogicalFunction DataType :=
  mkLogicalFunction (func_name_str f.1) (input_types f.2) (output_type f.2) (source f.2).

Definition table_sql (t : Table Schema) : str := match input t with ViewInput v => view_sql v end.

Definition dataset (hash : Hash) (manifest : Manifest Schema DataType V) : comp DatasetError (Dataset Schema DataType V) :=
  queries ← mapM (λ '(table_name, t),
      query ← with_err (ParseSql table_name) (parse_sql (table_sql t)); Ok (table_name, query)) (manifest_tables manifest);
  let queries := btree_collect queries in
  let unsorted_tables := (λ '(name, t), logical_table_new name (table_schema t) (table_network t) []) <$> manifest_tables manifest in
  sorted_tables ← with_err SortTableDependencies (sort_tables_by_dependencies unsorted_tables queries);
  Ok (mkDataset hash (dependencies manifest) DERIVED_DATASET_KIND None None false sorted_tables
        (logical_function <$> manifest_functions manifest)).
End Loading.

(** ** Catalogs *)

Inductive CatalogError :=
  | UnqualifiedTable (table_ref : str)
  | DependencyAliasNotFoundForTableRef (alias : DepAlias)
  | GetDatasetForTableRef (reference : HashReference) (e : BoxError)
  | TableNotFoundInDataset (table_name : TableName) (reference : HashReference)
  | DependencyAliasNotFoundForFunctionRef (alias : DepAlias)
  | GetDatasetForFunction (reference : HashReference) (e : BoxError)
  | EthCallUdfCreationForFunction (reference : HashReference) (e : BoxError)
  | EthCallNotAvailable (reference : HashReference)
  | FunctionNotFoundInDataset (function_name : str) (reference : HashReference).

(** The same errors, with the table whose query has the reference. *)
Definition PlanningCtxForSqlTablesWithDepsError : Type := TableName * CatalogError.

Section Catalogs.
Context {Schema DataType V : Type}.

(** A function of the query engine, under the name queries call it by. *)
Inductive Udf :=
  | JsUdf (catalog_schema : str) (code : FunctionSource) (function_name : str) (input_types : list DataType) (output_type : DataType)
  | EthCall (catalog_schema : str).

Record ResolvedTable := mkResolved {
  resolved : LogicalTable Schema;
  resolved_dataset : Dataset Schema DataType V;
  resolved_ref : TableReference str
}.

Record LogicalCatalog := mkCatalog { cat_tables : list ResolvedTable; cat_udfs : list Udf }.

(** The answers of the store, which do not change while a catalog is made. *)
Class DatasetAccess := {
  store_resolve_revision : Reference V → comp BoxError (option HashReference);
  store_get_dataset : HashReference → comp BoxError (Dataset Schema DataType V);
  store_eth_call_for_dataset : str → Dataset Schema DataType V → comp BoxError (option Udf)
}.

(** [Dataset::function_by_name] *)
Definition function_by_name (d : Dataset Schema DataType V) (schema name : str) : option Udf :=
  (λ f, JsUdf schema (lf_source f) (lf_name f) (lf_input_types f) (lf_output_type f))
    <$> List.find (λ f, bool_decide (lf_name f = name)) (functions d).

Definition table_by_name (d : Dataset Schema DataType V) (name : TableName) : option (LogicalTable Schema) :=
  List.find (λ t, bool_decide (lt_name t = name)) (tables d).

(** Maps of maps, through their entries. *)
Definition entry {R T} `{Ord R} (h : Hash) (r : R) (m : BTreeMap Hash (BTreeMap R T)) : option T :=
  get r (default [] (get h m)).

Definition entry_insert {R T} `{Ord R} (h : Hash) (r : R) (v : T) (m : BTreeMap Hash (BTreeMap R T)) : BTreeMap Hash (BTreeMap R T) :=
  btree_insert h (btree_insert r v (default [] (get h m))) m.

Definition flatten {R T} (m : BTreeMap Hash (BTreeMap R T)) : list T := list_bind _ _ (λ kv : Hash * BTreeMap R T, kv.2.*2) m.

(** What has been resolved so far. *)
Record Resolving := mkResolving {
  res_tables : BTreeMap Hash (BTreeMap (TableReference str) ResolvedTable);
  res_udfs : BTreeMap Hash (BTreeMap (FunctionReference str) Udf);
  res_self_udfs : BTreeMap (FunctionReference DepAliasOrSelfRef) Udf
}.

Context `{DatasetAccess}.
Context (deps : BTreeMap DepAlias HashReference) (self_functions : BTreeMap FuncName (Function DataType)).

Definition add_table (table_ref : TableReference DepAlias) (s : Resolving) : comp CatalogError Resolving :=
  match table_ref with
  | BareTable _ => Err (UnqualifiedTable (display_table_reference dep_alias_str table_ref))
  | PartialTable alias table =>
      hash_ref ← ok_or (get alias deps) (DependencyAliasNotFoundForTableRef alias);
      let table_ref_string := PartialTable (dep_alias_str alias) table in
      match entry (hash_ref_hash hash_ref) table_ref_string (res_tables s) with
      | Some _ => Ok s
      | None =>
          d ← with_err (GetDatasetForTableRef hash_ref) (store_get_dataset hash_ref);
          dataset_table ← ok_or (table_by_name d table) (TableNotFoundInDataset table hash_ref);
          Ok (mkResolving
                (entry_insert (hash_ref_hash hash_ref) table_ref_string (mkResolved dataset_table d table_ref_string) (res_tables s))
                (res_udfs s) (res_self_udfs s))
      end
  end.

Definition self_udf (f : FuncName) (def : Function DataType) : Udf :=
  JsUdf SELF_REF_KEYWORD (source def) (func_name_str f) (input_types def) (output_type def).

Definition get_udf (func_ref : FunctionReference DepAliasOrSelfRef) (schema : str) (function : FuncName)
    (hash_ref : HashReference) (d : Dataset Schema DataType V) : comp CatalogError Udf :=
  if bool_decide (func_name_str function = ETH_CALL_FUNCTION_NAME) then
    udf ← with_err (EthCallUdfCreationForFunction hash_ref) (store_eth_call_for_dataset schema d);
    ok_or udf (EthCallNotAvailable hash_ref)
  else
    ok_or (function_by_name d schema (func_name_str function))
          (FunctionNotFoundInDataset (display_function_reference display_dep_alias_or_self_ref func_ref) hash_ref).

(** A function of the dataset itself that is not defined is passed over. *)
Definition add_function (func_ref : FunctionReference DepAliasOrSelfRef) (s : Resolving) : comp CatalogError Resolving :=
  match func_ref with
  | BareFunction _ => Ok s
  | QualifiedFunction (DepAliasRef alias) function =>
      hash_ref ← ok_or (get alias deps) (DependencyAliasNotFoundForFunctionRef alias);
      d ← with_err (GetDatasetForFunction hash_ref) (store_get_dataset hash_ref);
      let func_ref_string := QualifiedFunction (dep_alias_str alias) function in
      match entry (hash_ref_hash hash_ref) func_ref_string (res_udfs s) with
      | Some _ => Ok s
      | None =>
          udf ← get_udf func_ref (dep_alias_str alias) function hash_ref d;
          Ok (mkResolving (res_tables s) (entry_insert (hash_ref_hash hash_ref) func_ref_string udf (res_udfs s)) (res_self_udfs s))
      end
  | QualifiedFunction SelfRef function =>
      match get function self_functions with
      | None => Ok s
      | Some func_def =>
          match get func_ref (res_self_udfs s) with
          | Some _ => Ok s
          | None => Ok (mkResolving (res_tables s) (res_udfs s) (btree_insert func_ref (self_udf function func_def) (res_self_udfs s)))
          end
      end
  end.

(** [for x in l { .. ? }] *)
Fixpoint fold_comp {A S E} (f : A → S → comp E S) (l : list A) (s : S) : comp E S :=
  match l with
  | [] => Ok s
  | x :: l => s ← f x s; fold_comp f l s
  end.

Definition catalog_of (s : Resolving) : LogicalCatalog :=
  mkCatalog (flatten (res_tables s)) ((res_self_udfs s).*2 ++ flatten (res_udfs s)).

Definition add_references (table_refs : list (TableReference DepAlias)) (func_refs : list (FunctionReference DepAliasOrSelfRef))
    (s : Resolving) : comp CatalogError Resolving :=
  s ← fold_comp add_table table_refs s;
  fold_comp add_function func_refs s.

Definition get_logical_catalog_with_deps_and_funcs (table_refs : list (TableReference DepAlias))
    (func_refs : list (FunctionReference DepAliasOrSelfRef)) : comp CatalogError LogicalCatalog :=
  s ← add_references table_refs func_refs (mkResolving [] [] []);
  Ok (catalog_of s).

Definition TableReferencesMap : Type :=
  BTreeMap TableName (list (TableReference DepAlias) * list (FunctionReference DepAliasOrSelfRef)).

Definition planning_ctx_for_sql_tables_with_deps_and_funcs (references : TableReferencesMap)
    : comp PlanningCtxForSqlTablesWithDepsError LogicalCatalog :=
  s ← fold_comp (λ entry s, with_err (pair entry.1) (add_references entry.2.1 entry.2.2 s)) references (mkResolving [] [] []);
  Ok (catalog_of s).
End Catalogs.
Arguments Udf DataType : clear implicits.
Arguments ResolvedTable Schema DataType V : clear implicits.
Arguments LogicalCatalog Schema DataType V : clear implicits.
Arguments Resolving Schema DataType V : clear implicits.
Arguments DatasetAccess Schema DataType V : clear implicits.

(** ** The validation of a manifest *)

Inductive ManifestValidationError :=
  | InvalidTableSql (table_name : TableName) (e : ParseSqlError BoxError)
  | TableReferenceResolution (table_name : TableName) (e : ResolveTableReferencesError DepAliasError)
  | TableFunctionReferenceResolution (table_name : TableName) (e : ResolveFunctionReferencesError DepAliasOrSelfRefError)
  | DependencyResolution (alias : str) (reference : str) (e : option BoxError)
  | CatalogQualifiedTableInSql (table_name : TableName) (e : ResolveTableReferencesError DepAliasError)
  | SqlUnqualifiedTable (e : PlanningCtxForSqlTablesWithDepsError)
  | SqlInvalidTableName (e : ResolveTableReferencesError DepAliasError)
  | SqlGetDataset (e : PlanningCtxForSqlTablesWithDepsError)
  | SqlEthCallUdfCreation (e : PlanningCtxForSqlTablesWithDepsError)
  | SqlTableNotFoundInDataset (e : PlanningCtxForSqlTablesWithDepsError)
  | SqlFunctionNotFoundInDataset (e : PlanningCtxForSqlTablesWithDepsError)
  | SqlEthCallNotAvailable (e : PlanningCtxForSqlTablesWithDepsError)
  | SqlDependencyAliasNotFound (e : PlanningCtxForSqlTablesWithDepsError)
  | NonIncrementalSql (table_name : TableName) (e : BoxError + NonIncrementalError).

Definition classify_table_refs_error (table_name : TableName) (e : ResolveTableReferencesError DepAliasError) : ManifestValidationError :=
  match e with
  | InvalidTableName _ _ => SqlInvalidTableName e
  | CatalogQualifiedTable _ => CatalogQualifiedTableInSql table_name e
  | _ => TableReferenceResolution table_name e
  end.

Definition classify_planning_error (e : PlanningCtxForSqlTablesWithDepsError) : ManifestValidationError :=
  match e.2 with
  | UnqualifiedTable _ => SqlUnqualifiedTable e
  | GetDatasetForTableRef _ _ | GetDatasetForFunction _ _ => SqlGetDataset e
  | EthCallUdfCreationForFunction _ _ => SqlEthCallUdfCreation e
  | DependencyAliasNotFoundForTableRef _ | DependencyAliasNotFoundForFunctionRef _ => SqlDependencyAliasNotFound e
  | TableNotFoundInDataset _ _ => SqlTableNotFoundInDataset e
  | FunctionNotFoundInDataset _ _ => SqlFunctionNotFoundInDataset e
  | EthCallNotAvailable _ => SqlEthCallNotAvailable e
  end.

Section Validation.
Context {Schema DataType V Stmt : Type} `{SqlFrontend Stmt, Semver V, !DatasetAccess Schema DataType V}.
Context (plan_sql : LogicalCatalog Schema DataType V → Stmt → comp BoxError LogicalPlan).

Definition resolve_dependencies (deps : BTreeMap DepAlias (DepReference V)) : comp ManifestValidationError (BTreeMap DepAlias HashReference) :=
  resolved ← mapM (λ '(alias, dep_reference),
      let reference := dep_to_reference dep_reference in
      let failed := DependencyResolution (dep_alias_str alias) (display_reference reference) in
      found ← with_err (λ e, failed (Some e)) (store_resolve_revision reference);
      hash_ref ← ok_or found (failed None);
      Ok (alias, hash_ref)) deps;
  Ok (btree_collect resolved).

Definition resolve_references (ts : BTreeMap TableName (Table Schema)) : comp ManifestValidationError TableReferencesMap :=
  references ← mapM (λ '(table_name, t),
      stmt ← with_err (InvalidTableSql table_name) (parse_sql (table_sql t));
      trefs ← with_err (classify_table_refs_error table_name) (table_refs stmt);
      frefs ← with_err (TableFunctionReferenceResolution table_name) (func_refs stmt);
      Ok (table_name, (trefs, frefs))) ts;
  Ok (btree_collect references).

Definition check_incremental (catalog : LogicalCatalog Schema DataType V) (table_name : TableName) (t : Table Schema)
    : comp ManifestValidationError unit :=
  stmt ← with_err (InvalidTableSql table_name) (parse_sql (table_sql t));
  plan ← with_err (λ e, NonIncrementalSql table_name (inl e)) (plan_sql catalog stmt);
  with_err (λ e, NonIncrementalSql table_name (inr e)) (is_incremental plan).

Definition validate (manifest : Manifest Schema DataType V) : comp ManifestValidationError unit :=
  deps ← resolve_dependencies (dependencies manifest);
  references ← resolve_references (manifest_tables manifest);
  planning_ctx ← with_err classify_planning_error
    (planning_ctx_for_sql_tables_with_deps_and_funcs deps (manifest_functions manifest) references);
  _ ← mapM (λ '(table_name, t), check_incremental planning_ctx table_name t) (manifest_tables manifest);
  Ok tt.
End Validation.

(** ** Loading *)

(** Sequences that fail alike: the first failure of both is the same. *)
Definition agree {E A B} (R : A → B → Prop) (x : comp E A) (y : comp E B) : Prop :=
  match x, y with
  | Ok a, Ok b => R a b
  | Err e, Err e' => e = e'
  | Panic, Panic | OutOfFuel, OutOfFuel => True
  | _, _ => False
  end.

Lemma resolve_table_as_string show (d : DfTableReference) (r : TableReference DepAlias) :
  resolve_table show d = Ok r → resolve_table (T := str) show d = Ok (to_string_reference dep_alias_str r).
Proof.
  unfold resolve_table. rewrite bind_comp_Ok. intros (t & Ht & Hr). apply with_err_Ok in Ht. rewrite Ht. cbn.
  destruct d as [n|s n|c s n]; cbn in *; [by simplify_eq| |done].
  apply bind_comp_Ok in Hr as (a & Ha & [= <-]). apply with_err_Ok in Ha. cbn. by rewrite (dep_alias_show _ _ Ha).
Qed.

Section LoadingFacts.
Context {Schema DataType V Stmt : Type} `{SqlFrontend Stmt}.

Lemma table_refs_as_strings (stmt : Stmt) (l : list (TableReference DepAlias)) :
  table_refs stmt = Ok l → table_refs (T := str) (E := Empty_set) stmt = Ok (to_string_reference dep_alias_str <$> l).
Proof.
  unfold table_refs, resolve_table_references. rewrite bind_comp_Ok. intros (ds & Hds & Hl).
  apply with_err_Ok in Hds. rewrite Hds. cbn. clear Hds. apply mapM_Forall2. apply mapM_Forall2 in Hl.
  induction Hl as [|d r ds l Hd _ IH]; cbn; [constructor|]. constructor; [by apply resolve_table_as_string|done].
Qed.

Definition qualified {T} (r : TableReference T) : Prop := match r with PartialTable _ _ => True | BareTable _ => False end.

Lemma own_tables_qualified {T U} (show : U → str) (table_map : BTreeMap TableName T) n (l : list (TableReference U)) :
  Forall qualified l → own_tables table_map n (to_string_reference show <$> l) = [].
Proof. induction 1 as [|[t|s t] l Hr _ IH]; cbn; done. Qed.

Lemma update_same {T} (k : TableName) (v : T) m : Forall (λ kv, kv.2 = v) m → update k v m = m.
Proof.
  intros Hall. unfold update. rewrite <- (list_fmap_id m) at 2. apply list_fmap_ext. intros i [k' v'] Hi.
  apply list_elem_of_lookup_2 in Hi. rewrite Forall_forall in Hall. specialize (Hall _ Hi). cbn in *. subst. by destruct (ord k k').
Qed.

(** Queries without references to tables of the dataset. *)
Lemma collect_deps_none {T} (table_map : BTreeMap TableName T) queries deps :
  Forall (λ kv : TableName * list TableName, kv.2 = []) deps →
  Forall (λ kv : TableName * Stmt, ∃ l : list (TableReference DepAlias), table_refs kv.2 = Ok l /\ Forall qualified l) queries →
  collect_deps table_map queries deps = Ok deps.
Proof.
  intros Hdeps. induction 1 as [|[n q] queries (l & Hl & Hq) _ IH]; [done|]. cbn in *.
  rewrite (table_refs_as_strings q l Hl). cbn. by rewrite own_tables_qualified, update_same.
Qed.

Lemma independent_deps (keys : list TableName) n : deps_of ((λ k, (k, [])) <$> keys) n = [].
Proof.
  unfold deps_of. destruct (get n _) as [l|] eqn:E; [|done]. apply get_elem in E.
  apply list_elem_of_fmap in E as (k & [= _ ->] & _). done.
Qed.

Lemma table_sort_independent (keys : list TableName) :
  NoDup keys → table_dependency_sort ((λ k, (k, [])) <$> keys) = Ok keys.
Proof.
  intros Hnd. unfold table_dependency_sort. rewrite <- list_fmap_compose. cbn. rewrite list_fmap_id.
  apply dfs_each_independent; [apply independent_deps|done|unfold enough; lia].
Qed.

(** Tables named by their keys, whose queries refer to none of them, keep the
    order of their names. *)
Lemma sort_independent (m : BTreeMap TableName (LogicalTable Schema)) (queries : BTreeMap TableName Stmt) :
  sorted m → Forall (λ kv, lt_name kv.2 = kv.1) m →
  Forall (λ kv : TableName * Stmt, ∃ l : list (TableReference DepAlias), table_refs kv.2 = Ok l /\ Forall qualified l) queries →
  sort_tables_by_dependencies m.*2 queries = Ok m.*2.
Proof.
  intros Hs Hnames Hq. unfold sort_tables_by_dependencies.
  assert (list_fmap _ _ (λ t : LogicalTable Schema, (lt_name t, t)) m.*2 = m) as ->.
  { clear Hs Hq. induction Hnames as [|[k t] m Hk _ IH]; [done|]. cbn in *. by rewrite Hk, IH. }
  rewrite collect_id by done.
  assert (btree_collect (list_fmap _ _ (λ kv : TableName * LogicalTable Schema, (kv.1, [])) m) = (λ k, (k, [])) <$> m.*1) as ->.
  { rewrite collect_id by by apply (sorted_fmap (λ _, [])). by rewrite <- list_fmap_compose. }
  rewrite collect_deps_none; [|by apply Forall_fmap, Forall_true|done]. cbn.
  rewrite table_sort_independent by by apply sorted_keys. cbn. f_equal. by apply omap_get.
Qed.
End LoadingFacts.

(** ** Maps of maps *)

Section Nested.
Context {R T : Type} `{OrdLaws R}.
Implicit Types m : BTreeMap Hash (BTreeMap R T).

Definition nested_sorted m : Prop := sorted m /\ Forall (λ kv, sorted kv.2) m.

Lemma inner_sorted h m : nested_sorted m → sorted (default [] (get h m)).
Proof.
  intros [_ Hin]. destruct (get h m) as [i|] eqn:E; cbn; [|by constructor]. apply get_elem in E.
  rewrite Forall_forall in Hin. by apply (Hin (h, i)).
Qed.

Lemma entry_insert_same h r (v : T) m : entry h r (entry_insert h r v m) = Some v.
Proof. unfold entry, entry_insert. rewrite get_insert. cbn. apply get_insert. Qed.

Lemma entry_insert_other h r (v : T) m h' r' :
  (h', r') ≠ (h, r) → entry h' r' (entry_insert h r v m) = entry h' r' m.
Proof.
  intros Hne. unfold entry, entry_insert. destruct (decide (h' = h)) as [->|Hh].
  - rewrite get_insert. cbn. apply get_insert_ne. congruence.
  - by rewrite get_insert_ne.
Qed.

Lemma entry_insert_Some h r (v : T) m h' r' w :
  entry h' r' (entry_insert h r v m) = Some w ↔
  (h' = h /\ r' = r /\ w = v) \/ ((h', r') ≠ (h, r) /\ entry h' r' m = Some w).
Proof.
  destruct (decide (h' = h)) as [->|Hh]; [destruct (ord r' r) eqn:E|].
  - apply ord_eq in E as ->. rewrite entry_insert_same. naive_solver.
  - assert (r' ≠ r) by (intros ->; by rewrite ord_refl in E). rewrite entry_insert_other by congruence. naive_solver.
  - assert (r' ≠ r) by (intros ->; by rewrite ord_refl in E). rewrite entry_insert_other by congruence. naive_solver.
  - rewrite entry_insert_other by congruence. naive_solver.
Qed.

Lemma entry_insert_sorted h r (v : T) m : nested_sorted m → nested_sorted (entry_insert h r v m).
Proof.
  intros Hs. pose proof (inner_sorted h m Hs) as Hi. destruct Hs as [Ho Hin]. split; [by apply insert_sorted|].
  apply Forall_forall. intros [h' i] [[= -> ->]|Hx]%insert_elem; [by apply insert_sorted|].
  rewrite Forall_forall in Hin. by apply Hin.
Qed.

Lemma flatten_elem (v : T) m : nested_sorted m → v ∈ flatten m ↔ ∃ h r, entry h r m = Some v.
Proof.
  intros Hs. destruct Hs as [Ho Hin]. unfold flatten, entry. rewrite list_elem_of_bind. rewrite Forall_forall in Hin. split.
  - intros ([h i] & Hv & Hi). cbn in Hv. apply list_elem_of_fmap in Hv as ([r v'] & -> & Hv). exists h, r.
    rewrite (elem_get h i) by done. cbn. apply elem_get; [by apply (Hin (h, i))|done].
  - intros (h & r & Hv). destruct (get h m) as [i|] eqn:E; cbn in Hv; [|done]. apply get_elem in E, Hv.
    exists (h, i). split; [|done]. by apply (list_elem_of_fmap_2' snd i (r, v) v).
Qed.

(** Values that carry their key, when a key has one hash only. *)
Lemma flatten_NoDup (key : T → R) m :
  nested_sorted m → (∀ h r v, entry h r m = Some v → key v = r) →
  (∀ h h' r v v', entry h r m = Some v → entry h' r m = Some v' → h = h') → NoDup (key <$> flatten m).
Proof.
  intros Hs. assert (∀ h i r v, (h, i) ∈ m → (r, v) ∈ i → entry h r m = Some v) as Hentry.
  { intros h i r v Hi Hv. destruct Hs as [Ho Hin]. rewrite Forall_forall in Hin. unfold entry.
    rewrite (elem_get h i m Ho Hi). cbn. apply elem_get; [by apply (Hin (h, i))|done]. }
  intros Hkey Hone. destruct Hs as [Ho Hin]. apply sorted_keys in Ho as Hnd. clear Ho.
  assert (∀ l : BTreeMap Hash (BTreeMap R T), l ⊆ m → NoDup l.*1 → NoDup (key <$> flatten l)) as Hl; [|by apply Hl].
  induction l as [|[h i] l IH]; intros Hsub Hndl; cbn; [constructor|].
  apply NoDup_cons in Hndl as [Hh Hndl]. change (NoDup (key <$> (i.*2 ++ flatten l))). rewrite fmap_app. apply NoDup_app.
  assert ((h, i) ∈ m) as Hhi by (apply Hsub; by left).
  split; [|split; [|apply IH; [set_solver|done]]].
  - assert (key <$> i.*2 = i.*1) as ->.
    { rewrite <- list_fmap_compose. apply list_fmap_ext. intros j [r v] Hj%list_elem_of_lookup_2. cbn.
      by eapply Hkey, Hentry. }
    apply sorted_keys. rewrite Forall_forall in Hin. by apply (Hin (h, i)).
  - intros k (v & -> & Hv)%list_elem_of_fmap (w & Heq & Hw)%list_elem_of_fmap.
    apply list_elem_of_fmap in Hv as ([r v'] & -> & Hv). cbn in Heq.
    apply list_elem_of_bind in Hw as ([h' i'] & Hw & Hi'). apply list_elem_of_fmap in Hw as ([r' w'] & -> & Hw). cbn in Heq.
    assert ((h', i') ∈ m) as Hhi' by (apply Hsub; by right).
    pose proof (Hentry _ _ _ _ Hhi Hv) as E. pose proof (Hentry _ _ _ _ Hhi' Hw) as E'.
    rewrite (Hkey _ _ _ E), (Hkey _ _ _ E') in Heq. subst r'. apply Hh.
    rewrite (Hone _ _ _ _ _ E E'). by eapply list_elem_of_fmap_2'.
Qed.
End Nested.

(** ** Resolution *)

Lemma fold_agree {A S B X E} (Inv : S → Prop) (has : S → X → Prop) (new : B → X → Prop)
    (f : A → S → comp E S) (g : A → comp E B) l s :
  (∀ a s, Inv s → agree (λ s' b, Inv s' /\ ∀ x, has s' x ↔ has s x \/ new b x) (f a s) (g a)) →
  Inv s →
  agree (λ s' bs, Inv s' /\ ∀ x, has s' x ↔ has s x \/ ∃ b, b ∈ bs /\ new b x) (fold_comp f l s) (mapM g l).
Proof.
  intros Hstep. revert s. induction l as [|a l IH]; intros s Hs.
  - cbn. split; [done|]. intros x. split; [by left|]. intros [?|(b & ?%elem_of_nil & _)]; done.
  - rewrite mapM_cons. cbn [fold_comp]. specialize (Hstep a s Hs). unfold agree in Hstep.
    destruct (f a s) as [s1|e| |], (g a) as [b|e'| |]; try done. destruct Hstep as [Hs1 Hhas]. cbn [mbind comp_bind].
    specialize (IH s1 Hs1). unfold agree in IH.
    destruct (fold_comp f l s1) as [s2|e| |], (mapM g l) as [bs|e'| |]; cbn; try done.
    destruct IH as [Hs2 Hhas2]. split; [done|]. intros x. rewrite Hhas2, Hhas. setoid_rewrite elem_of_cons. naive_solver.
Qed.

Section Resolution.
Context {Schema DataType V : Type} `{!DatasetAccess Schema DataType V}.
Context (deps : BTreeMap DepAlias HashReference) (self_functions : BTreeMap FuncName (Function DataType)).
Implicit Types s : Resolving Schema DataType V.

(** What one reference stands for. *)
Definition resolve_table_ref (r : TableReference DepAlias) : comp CatalogError (ResolvedTable Schema DataType V) :=
  match r with
  | BareTable _ => Err (UnqualifiedTable (display_table_reference dep_alias_str r))
  | PartialTable alias table =>
      hash_ref ← ok_or (get alias deps) (DependencyAliasNotFoundForTableRef alias);
      d ← with_err (GetDatasetForTableRef hash_ref) (store_get_dataset hash_ref);
      dataset_table ← ok_or (table_by_name d table) (TableNotFoundInDataset table hash_ref);
      Ok (mkResolved dataset_table d (PartialTable (dep_alias_str alias) table))
  end.

Definition resolve_func_ref (r : FunctionReference DepAliasOrSelfRef) : comp CatalogError (option (Udf DataType)) :=
  match r with
  | BareFunction _ => Ok None
  | QualifiedFunction (DepAliasRef alias) function =>
      hash_ref ← ok_or (get alias deps) (DependencyAliasNotFoundForFunctionRef alias);
      d ← with_err (GetDatasetForFunction hash_ref) (store_get_dataset hash_ref);
      udf ← get_udf r (dep_alias_str alias) function hash_ref d;
      Ok (Some udf)
  | QualifiedFunction SelfRef function => Ok (self_udf function <$> get function self_functions)
  end.

Record resolving_ok s : Prop := {
  rs_tables_sorted : nested_sorted (res_tables s);
  rs_udfs_sorted : nested_sorted (res_udfs s);
  rs_self_sorted : sorted (res_self_udfs s);
  rs_tables h r t : entry h r (res_tables s) = Some t →
    ∃ a n, r = PartialTable (dep_alias_str a) n /\ hash_ref_hash <$> get a deps = Some h
           /\ resolve_table_ref (PartialTable a n) = Ok t;
  rs_udfs h r u : entry h r (res_udfs s) = Some u →
    ∃ a f, r = QualifiedFunction (dep_alias_str a) f /\ hash_ref_hash <$> get a deps = Some h
           /\ resolve_func_ref (QualifiedFunction (DepAliasRef a) f) = Ok (Some u);
  rs_self r u : get r (res_self_udfs s) = Some u →
    ∃ f, r = QualifiedFunction SelfRef f /\ resolve_func_ref r = Ok (Some u)
}.

(** The tables and the functions of the catalog so far. *)
Definition has s (x : ResolvedTable Schema DataType V + Udf DataType) : Prop :=
  match x with inl t => t ∈ cat_tables (catalog_of s) | inr u => u ∈ cat_udfs (catalog_of s) end.

Lemma has_table s t : resolving_ok s → has s (inl t) ↔ ∃ h r, entry h r (res_tables s) = Some t.
Proof. intros Hs. by apply flatten_elem, rs_tables_sorted. Qed.

Lemma has_udf s u : resolving_ok s →
  has s (inr u) ↔ (∃ r, get r (res_self_udfs s) = Some u) \/ ∃ h r, entry h r (res_udfs s) = Some u.
Proof.
  intros Hs. cbn. rewrite elem_of_app. rewrite (flatten_elem u (res_udfs s)) by by apply rs_udfs_sorted.
  rewrite list_elem_of_fmap. split; (intros [Hl|?]; [left|by right]).
  - destruct Hl as ([r u'] & -> & Hin). exists r. apply elem_get; [by apply rs_self_sorted|done].
  - destruct Hl as [r Hr%get_elem]. by exists (r, u).
Qed.

Lemma alias_str_inj (a b : DepAlias) : dep_alias_str a = dep_alias_str b → a = b.
Proof. destruct a, b. by intros [= ->]. Qed.

Lemma add_table_agrees r s : resolving_ok s →
  agree (λ s' t, resolving_ok s' /\ ∀ x, has s' x ↔ has s x \/ x = inl t) (add_table deps r s) (resolve_table_ref r).
Proof.
  intros Hs. destruct r as [n|a n]; [done|]. cbn [add_table resolve_table_ref].
  destruct (get a deps) as [hash_ref|] eqn:Ea; [|done]. cbn [ok_or mbind comp_bind].
  destruct (entry _ _ (res_tables s)) as [t|] eqn:Et.
  - destruct (rs_tables s Hs _ _ _ Et) as (a' & n' & [= <-%alias_str_inj <-] & _ & Hres). cbn in Hres. rewrite Ea in Hres. cbn in Hres.
    rewrite Hres. cbn. split; [done|]. intros x. split; [by left|]. intros [?| ->]; [done|]. apply has_table; eauto.
  - destruct (store_get_dataset hash_ref) as [d|e| |] eqn:Ed; cbn; try done.
    destruct (table_by_name d n) as [lt|] eqn:Elt; cbn; [|done].
    set (t := mkResolved lt d (PartialTable (dep_alias_str a) n)).
    assert (resolve_table_ref (PartialTable a n) = Ok t) as Hres.
    { cbn. by rewrite Ea; cbn; rewrite Ed; cbn; rewrite Elt. }
    assert (resolving_ok (mkResolving (entry_insert (hash_ref_hash hash_ref) (PartialTable (dep_alias_str a) n) t (res_tables s))
                            (res_udfs s) (res_self_udfs s))) as Hs'.
    { destruct Hs as [Ht Hu Hse Hrt Hru Hrs]. split; cbn; try done; [by apply entry_insert_sorted|].
      intros h r t' [(-> & -> & ->)|[_ Hin]]%entry_insert_Some; [|by eapply Hrt]. exists a, n.
      split; [done|]. split; [by rewrite Ea|exact Hres]. }
    split; [done|]. intros [t'|u].
    + rewrite !has_table by done. cbn [res_tables]. setoid_rewrite entry_insert_Some. split.
      * intros (h & r & [(_ & _ & ->)|[_ Hin]]); [by right|left; eauto].
      * intros [(h & r & Hin)|[= ->]]; [|eauto 10]. exists h, r. right. split; [|done]. intros [= -> ->]. congruence.
    + rewrite !has_udf by done. cbn [res_udfs res_self_udfs]. split; [by left|]. by intros [?|[=]].
Qed.

Lemma add_function_agrees r s : resolving_ok s →
  agree (λ s' o, resolving_ok s' /\ ∀ x, has s' x ↔ has s x \/ ∃ u, o = Some u /\ x = inr u)
        (add_function deps self_functions r s) (resolve_func_ref r).
Proof.
  intros Hs. assert (∀ x, has s x ↔ has s x \/ ∃ u, @None (Udf DataType) = Some u /\ x = inr u) as Hnone by naive_solver.
  destruct r as [f|[a|] f]; [done|..]; cbn [add_function resolve_func_ref].
  - destruct (get a deps) as [hash_ref|] eqn:Ea; [|done]. cbn [ok_or mbind comp_bind].
    destruct (store_get_dataset hash_ref) as [d|e| |] eqn:Ed; try done. cbn [with_err mbind comp_bind].
    destruct (entry _ _ (res_udfs s)) as [u|] eqn:Eu.
    + destruct (rs_udfs s Hs _ _ _ Eu) as (a' & f' & [= <-%alias_str_inj <-] & _ & Hres). cbn in Hres.
      rewrite Ea in Hres. cbn in Hres. rewrite Ed in Hres. cbn in Hres.
      change (agree (λ s' o, resolving_ok s' /\ ∀ x, has s' x ↔ has s x \/ ∃ u0, o = Some u0 /\ x = inr u0) (Ok s)
        (udf ← get_udf (QualifiedFunction (DepAliasRef a) f) (dep_alias_str a) f hash_ref d; Ok (Some udf))).
      rewrite Hres. split; [done|]. intros x. split; [by left|]. intros [?|(u' & [= <-] & ->)]; [done|].
      apply has_udf; [done|]. right. eauto.
    + destruct (get_udf _ _ _ _ _) as [u|e| |] eqn:Eg; cbn; try done.
      assert (resolve_func_ref (QualifiedFunction (DepAliasRef a) f) = Ok (Some u)) as Hres.
      { cbn. rewrite Ea. cbn. rewrite Ed. cbn. by rewrite Eg. }
      assert (resolving_ok (mkResolving (res_tables s)
                (entry_insert (hash_ref_hash hash_ref) (QualifiedFunction (dep_alias_str a) f) u (res_udfs s)) (res_self_udfs s))) as Hs'.
      { destruct Hs as [Ht Hu Hse Hrt Hru Hrs]. split; cbn; try done; [by apply entry_insert_sorted|].
        intros h r u' [(-> & -> & ->)|[_ Hin]]%entry_insert_Some; [|by eapply Hru]. exists a, f.
        split; [done|]. split; [by rewrite Ea|exact Hres]. }
      split; [done|]. intros [t|u'].
      * rewrite !has_table by done. cbn [res_tables]. split; [by left|]. by intros [?|(? & _ & [=])].
      * rewrite !has_udf by done. cbn [res_udfs res_self_udfs]. setoid_rewrite entry_insert_Some. split.
        -- intros [?|(h & r & [(_ & _ & ->)|[_ Hin]])]; [by left; left|right; eauto|left; right; eauto].
        -- intros [[?|(h & r & Hin)]|(? & [= <-] & [= ->])]; [by left|right|right; eauto 10].
           exists h, r. right. split; [|done]. intros [= -> ->]. congruence.
  - destruct (get f self_functions) as [def|] eqn:Ef; [|done]. cbn [fmap option_fmap option_map].
    assert (resolve_func_ref (QualifiedFunction SelfRef f) = Ok (Some (self_udf f def))) as Hres by (cbn; by rewrite Ef).
    destruct (get _ (res_self_udfs s)) as [u|] eqn:Eu; cbn.
    + split; [done|]. intros x. split; [by left|]. intros [?|(u' & [= <-] & ->)]; [done|].
      destruct (rs_self s Hs _ _ Eu) as (f' & [= <-] & Hres'). rewrite Hres in Hres'. injection Hres' as <-.
      apply has_udf; [done|]. left. eauto.
    + assert (resolving_ok (mkResolving (res_tables s) (res_udfs s)
                (btree_insert (QualifiedFunction SelfRef f) (self_udf f def) (res_self_udfs s)))) as Hs'.
      { destruct Hs as [Ht Hu Hse Hrt Hru Hrs]. split; cbn; try done; [by apply insert_sorted|].
        intros r u Hr. destruct (decide (r = QualifiedFunction SelfRef f)) as [->|Hne].
        - rewrite get_insert in Hr. injection Hr as <-. eauto.
        - rewrite get_insert_ne in Hr by done. by apply Hrs. }
      split; [done|]. intros [t|u'].
      * rewrite !has_table by done. split; [by left|]. by intros [?|(? & _ & [=])].
      * rewrite !has_udf by done. cbn [res_udfs res_self_udfs]. split.
        -- intros [[r Hr]|?]; [|by left; right]. destruct (decide (r = QualifiedFunction SelfRef f)) as [->|Hne].
           ++ rewrite get_insert in Hr. injection Hr as <-. right. eauto.
           ++ rewrite get_insert_ne in Hr by done. left. left. eauto.
        -- intros [[[r Hr]|?]|(? & [= <-] & [= ->])]; [left|by right|left].
           ++ exists r. rewrite get_insert_ne; [done|]. intros ->. congruence.
           ++ exists (QualifiedFunction SelfRef f). apply get_insert.
Qed.

(** The references of one query, each on its own. *)
Definition resolve_refs (trefs : list (TableReference DepAlias)) (frefs : list (FunctionReference DepAliasOrSelfRef))
    : comp CatalogError (list (ResolvedTable Schema DataType V) * list (option (Udf DataType))) :=
  ts ← mapM resolve_table_ref trefs;
  us ← mapM resolve_func_ref frefs;
  Ok (ts, us).

Definition among (r : list (ResolvedTable Schema DataType V) * list (option (Udf DataType)))
    (x : ResolvedTable Schema DataType V + Udf DataType) : Prop :=
  match x with inl t => t ∈ r.1 | inr u => Some u ∈ r.2 end.

Lemma add_references_agrees trefs frefs s : resolving_ok s →
  agree (λ s' r, resolving_ok s' /\ ∀ x, has s' x ↔ has s x \/ among r x)
        (add_references deps self_functions trefs frefs s) (resolve_refs trefs frefs).
Proof.
  intros Hs. unfold add_references, resolve_refs.
  pose proof (fold_agree resolving_ok has (λ t x, x = inl t) (add_table deps) resolve_table_ref trefs s
    (λ a s, add_table_agrees a s) Hs) as Ht. unfold agree in Ht.
  destruct (fold_comp (add_table deps) trefs s) as [s1|e| |], (mapM resolve_table_ref trefs) as [ts|e'| |]; try done.
  destruct Ht as [Hs1 Ht]. cbn [mbind comp_bind].
  pose proof (fold_agree resolving_ok has (λ o x, ∃ u, o = Some u /\ x = inr u) (add_function deps self_functions) resolve_func_ref
    frefs s1 (λ a s, add_function_agrees a s) Hs1) as Hf. unfold agree in Hf.
  destruct (fold_comp _ frefs s1) as [s2|e| |], (mapM resolve_func_ref frefs) as [us|e'| |]; try done.
  destruct Hf as [Hs2 Hf]. cbn. split; [done|]. intros x. rewrite Hf, Ht. destruct x as [t|u]; cbn; naive_solver.
Qed.

Lemma nothing_resolved_ok : resolving_ok (mkResolving [] [] []).
Proof. split; cbn; try done; try (by split; constructor); by constructor. Qed.

Lemma resolved_tables_distinct s : resolving_ok s → NoDup (resolved_ref <$> cat_tables (catalog_of s)).
Proof.
  intros Hs. apply flatten_NoDup; [by apply rs_tables_sorted|..].
  - intros h r t Ht. destruct (rs_tables s Hs _ _ _ Ht) as (a & n & -> & _ & Hres). cbn in Hres.
    apply bind_comp_Ok in Hres as (hr & _ & Hres). apply bind_comp_Ok in Hres as (d & _ & Hres).
    apply bind_comp_Ok in Hres as (lt & _ & [= <-]). done.
  - intros h h' r t t' Ht Ht'. destruct (rs_tables s Hs _ _ _ Ht) as (a & n & -> & Ha & _).
    destruct (rs_tables s Hs _ _ _ Ht') as (a' & n' & [= <-%alias_str_inj _] & Ha' & _). congruence.
Qed.
End Resolution.

(** ** Catalogs and validation *)

Section Theorems.
Context {Schema DataType V Stmt : Type} `{SqlFrontend Stmt, Semver V, !DatasetAccess Schema DataType V}.

(** A catalog with what the references stand for, each table once. *)
Definition catalog_holds (cat : LogicalCatalog Schema DataType V)
    (rs : list (list (ResolvedTable Schema DataType V) * list (option (Udf DataType)))) : Prop :=
  NoDup (resolved_ref <$> cat_tables cat)
  /\ (∀ t, t ∈ cat_tables cat ↔ ∃ r, r ∈ rs /\ t ∈ r.1)
  /\ ∀ u, u ∈ cat_udfs cat ↔ ∃ r, r ∈ rs /\ Some u ∈ r.2.

Lemma catalog_of_holds deps self_functions s rs :
  resolving_ok deps self_functions s → (∀ x, has s x ↔ ∃ r, r ∈ rs /\ among r x) → catalog_holds (catalog_of s) rs.
Proof.
  intros Hs Hhas. split; [by eapply resolved_tables_distinct|].
  split; [intros t; apply (Hhas (inl t))|intros u; apply (Hhas (inr u))].
Qed.

Lemma nothing_has x : ¬ has (mkResolving (Schema := Schema) (DataType := DataType) (V := V) [] [] []) x.
Proof. destruct x; cbn; apply not_elem_of_nil. Qed.

Lemma planning_ctx_agrees deps self_functions references :
  agree catalog_holds
    (planning_ctx_for_sql_tables_with_deps_and_funcs deps self_functions references)
    (mapM (λ entry, with_err (pair entry.1) (resolve_refs deps self_functions entry.2.1 entry.2.2)) references).
Proof.
  unfold planning_ctx_for_sql_tables_with_deps_and_funcs.
  set (f := λ (entry : TableName * (list (TableReference DepAlias) * list (FunctionReference DepAliasOrSelfRef))) s,
    with_err (pair entry.1) (add_references deps self_functions entry.2.1 entry.2.2 s)).
  set (g := λ (entry : TableName * (list (TableReference DepAlias) * list (FunctionReference DepAliasOrSelfRef))),
    with_err (pair entry.1) (resolve_refs deps self_functions entry.2.1 entry.2.2)).
  assert (∀ entry s, resolving_ok deps self_functions s →
    agree (λ s' r, resolving_ok deps self_functions s' /\ ∀ x, has s' x ↔ has s x \/ among r x) (f entry s) (g entry)) as Hstep.
  { intros entry s Hs. unfold f, g. pose proof (add_references_agrees deps self_functions entry.2.1 entry.2.2 s Hs) as Ha.
    unfold agree in *. destruct (add_references _ _ _ _ _), (resolve_refs _ _ _ _); cbn; try done. by f_equal. }
  pose proof (fold_agree _ _ _ f g references _ Hstep (nothing_resolved_ok deps self_functions)) as Hf.
  unfold agree in *. destruct (fold_comp f references _) as [s|e| |], (mapM g references) as [rs|e'| |]; cbn; try done.
  destruct Hf as [Hs Hhas]. eapply catalog_of_holds; [exact Hs|]. intros x. rewrite Hhas.
  pose proof (nothing_has x). naive_solver.
Qed.

Lemma logical_catalog_agrees deps self_functions trefs frefs :
  agree (λ cat r, catalog_holds cat [r])
    (get_logical_catalog_with_deps_and_funcs deps self_functions trefs frefs)
    (resolve_refs deps self_functions trefs frefs).
Proof.
  unfold get_logical_catalog_with_deps_and_funcs.
  pose proof (add_references_agrees deps self_functions trefs frefs _ (nothing_resolved_ok deps self_functions)) as Ha.
  unfold agree in *. destruct (add_references _ _ _ _ _) as [s|e| |], (resolve_refs _ _ _ _) as [r|e'| |]; cbn; try done.
  destruct Ha as [Hs Hhas]. eapply catalog_of_holds; [exact Hs|]. intros x. rewrite Hhas.
  pose proof (nothing_has x). setoid_rewrite list_elem_of_singleton. naive_solver.
Qed.

(** The catalog of a derived dataset. Whether it is built for one query or
    for all the queries of a manifest, with each dataset and each function looked
    up once, the result is the one of resolving every reference on its own: the
    same first failure, attributed to the table whose query it is in, or a
    catalog with each table referred to exactly once, and exactly the functions
    referred to that are not built in. *)
Theorem catalog_is_its_references deps self_functions :
  (∀ trefs frefs, agree (λ cat r, catalog_holds cat [r])
     (get_logical_catalog_with_deps_and_funcs deps self_functions trefs frefs)
     (resolve_refs deps self_functions trefs frefs))
  /\ ∀ references, agree catalog_holds
       (planning_ctx_for_sql_tables_with_deps_and_funcs deps self_functions references)
       (mapM (λ entry, with_err (pair entry.1) (resolve_refs deps self_functions entry.2.1 entry.2.2)) references).
Proof. split; [apply logical_catalog_agrees|apply planning_ctx_agrees]. Qed.

Lemma resolve_refs_qualified deps self_functions trefs frefs r :
  resolve_refs (Schema := Schema) (V := V) deps self_functions trefs frefs = Ok r → Forall qualified trefs.
Proof.
  unfold resolve_refs. rewrite bind_comp_Ok. intros (ts & Ht & _). apply mapM_Forall2 in Ht.
  induction Ht as [|[n|a n] t trefs ts Hr _ IH]; constructor; done.
Qed.

(** A table whose query is one statement that reads tables and calls functions
    of the catalog and is planned as an incremental query. *)
Definition table_valid (plan_sql : LogicalCatalog Schema DataType V → Stmt → comp BoxError LogicalPlan)
    (deps : BTreeMap DepAlias HashReference) (self_functions : BTreeMap FuncName (Function DataType))
    (catalog : LogicalCatalog Schema DataType V) (t : Table Schema) : Prop :=
  ∃ stmt trefs frefs r plan,
    parse_sql (table_sql t) = Ok stmt
    /\ table_refs stmt = Ok trefs /\ func_refs stmt = Ok frefs
    /\ resolve_refs deps self_functions trefs frefs = Ok r
    /\ (∀ x, x ∈ r.1 → x ∈ cat_tables catalog) /\ (∀ u, Some u ∈ r.2 → u ∈ cat_udfs catalog)
    /\ plan_sql catalog stmt = Ok plan /\ is_incremental plan = Ok tt.

Lemma validate_tables plan_sql (m : Manifest Schema DataType V) :
  sorted (manifest_tables m) → validate plan_sql m = Ok tt →
  ∃ deps catalog, resolve_dependencies (dependencies m) = Ok deps
    /\ ∀ n t, (n, t) ∈ manifest_tables m → table_valid plan_sql deps (manifest_functions m) catalog t.
Proof.
  intros Hs. unfold validate. rewrite bind_comp_Ok. intros (deps & Hdeps & Hv).
  apply bind_comp_Ok in Hv as (references & Hrefs & Hv). apply bind_comp_Ok in Hv as (catalog & Hcat & Hv).
  apply bind_comp_Ok in Hv as (checks & Hchecks & _). apply with_err_Ok in Hcat. exists deps, catalog. split; [done|].
  unfold resolve_references in Hrefs. apply bind_comp_Ok in Hrefs as (entries & Hentries & [= <-]).
  assert (btree_collect entries = entries) as Hid.
  { eapply mapM_collect; [|exact Hs|exact Hentries]. intros [n t] y Hy. apply bind_comp_Ok in Hy as (? & _ & Hy).
    apply bind_comp_Ok in Hy as (? & _ & Hy). by apply bind_comp_Ok in Hy as (? & _ & [= <-]). }
  rewrite Hid in Hcat.
  pose proof (planning_ctx_agrees deps (manifest_functions m) entries) as Ha. unfold agree in Ha. rewrite Hcat in Ha.
  destruct (mapM _ entries) as [rs|e| |] eqn:Ers in Ha; try done. destruct Ha as (_ & Ht & Hu).
  intros n t Hin. destruct (mapM_elem _ _ _ _ Hentries Hin) as ([n' [trefs frefs]] & He & Hentry). cbn in He.
  apply bind_comp_Ok in He as (stmt & Hstmt & He). apply bind_comp_Ok in He as (trefs' & Htr & He).
  apply bind_comp_Ok in He as (frefs' & Hfr & [= <- <- <-]). apply with_err_Ok in Hstmt, Htr, Hfr.
  destruct (mapM_elem _ _ _ _ Ers Hentry) as (r & Hr & Hrs). apply with_err_Ok in Hr. cbn in Hr.
  destruct (mapM_elem _ _ _ _ Hchecks Hin) as ([] & Hc & _). cbn in Hc. unfold check_incremental in Hc.
  rewrite Hstmt in Hc. cbn in Hc. apply bind_comp_Ok in Hc as (plan & Hplan & Hinc). apply with_err_Ok in Hplan, Hinc.
  exists stmt, trefs', frefs', r, plan. split_and!; try done.
  - intros x Hx. apply Ht. by exists r.
  - intros u Hx. apply Hu. by exists r.
Qed.

(** A manifest that [validate] accepts can be loaded. Every table's query is
    one statement, whose references all resolve, to tables and functions of the
    catalog, and which is planned as an incremental query; and [dataset] then
    succeeds for whatever hash, with all the tables and functions of the
    manifest, in the order of their names: the tables of an accepted manifest
    cannot refer to each other, so that sorting them by their dependencies never
    fails and never moves one. *)
Theorem validated_manifest_loads plan_sql (m : Manifest Schema DataType V) hash :
  sorted (manifest_tables m) → validate plan_sql m = Ok tt →
  (∃ deps catalog, resolve_dependencies (dependencies m) = Ok deps
     /\ ∀ n t, (n, t) ∈ manifest_tables m → table_valid plan_sql deps (manifest_functions m) catalog t)
  /\ dataset hash m = Ok (mkDataset hash (dependencies m) DERIVED_DATASET_KIND None None false
        ((λ nt : TableName * Table Schema, logical_table_new nt.1 (table_schema nt.2) (table_network nt.2) []) <$> manifest_tables m)
        (logical_function <$> manifest_functions m)).
Proof.
  intros Hs Hv. destruct (validate_tables plan_sql m Hs Hv) as (deps & catalog & Hdeps & Hvalid).
  split; [by exists deps, catalog|]. unfold dataset.
  set (f := λ '(table_name, t), query ← with_err (ParseSql table_name) (parse_sql (table_sql t)); Ok (table_name, query)).
  assert (∀ x y, f x = Ok y → y.1 = x.1 /\ parse_sql (table_sql x.2) = Ok y.2) as Hf.
  { intros [n t] y Hy. cbn in Hy. apply bind_comp_Ok in Hy as (q & Hq & [= <-]). by apply with_err_Ok in Hq. }
  destruct (proj2 (mapM_Ok_iff f (manifest_tables m))) as [queries Hqueries].
  { apply Forall_forall. intros [n t] Hin. destruct (Hvalid n t Hin) as (stmt & _ & _ & _ & _ & Hstmt & _).
    exists (n, stmt). cbn. by rewrite Hstmt. }
  rewrite Hqueries. cbn [mbind comp_bind].
  rewrite (mapM_collect f _ _ (λ x y Hy, proj1 (Hf x y Hy)) Hs Hqueries).
  set (new := λ nt : TableName * Table Schema, logical_table_new nt.1 (table_schema nt.2) (table_network nt.2) []).
  assert (((λ '(name, t), logical_table_new name (table_schema t) (table_network t) []) <$> manifest_tables m)
    = ((λ nt, (nt.1, new nt)) <$> manifest_tables m).*2) as ->.
  { rewrite <- list_fmap_compose. apply list_fmap_ext. by intros i [n t] _. }
  rewrite sort_independent.
  - cbn. f_equal. f_equal. by rewrite <- list_fmap_compose.
  - by apply (sorted_fmap new).
  - apply Forall_fmap, Forall_true. by intros [n t].
  - apply Forall_forall. intros [n q] Hq. apply mapM_Ok_Forall2 in Hqueries.
    apply list_elem_of_lookup in Hq as [i Hi]. destruct (Forall2_lookup_r _ _ _ _ _ Hqueries Hi) as ([n' t] & Hti & Hq).
    apply Hf in Hq as [Hn Hq]. cbn in *. subst n'.
    destruct (Hvalid n t (list_elem_of_lookup_2 _ _ _ Hti)) as (stmt & trefs & frefs & r & plan & Hstmt & Htr & _ & Hr & _).
    exists trefs. split; [congruence|]. by eapply resolve_refs_qualified.
Qed.
End Theorems.

(** ** A manifest of two tables over the blocks of another dataset *)

(** Every query reads [eth.blocks] and calls [self.f]. *)
#[local] Instance demo_frontend : SqlFrontend str :=
  {| parse_statements := λ sql, Ok [sql];
     statement_tables := λ _, Ok [DfPartial (lit "eth") (lit "blocks")];
     statement_calls := λ _, SqlStatement [[Identifier (lit "self"); Identifier (lit "f")]];
     show_table := λ _, [] |}.

Definition demo_blocks : LogicalTable unit := logical_table_new (mkTableName (lit "blocks")) tt (lit "mainnet") [].

Definition demo_raw (h : Hash) : Dataset unit unit bool :=
  mkDataset h [] (lit "evm-rpc") (Some (lit "mainnet")) None false [demo_blocks] [].

#[local] Instance demo_access : DatasetAccess unit unit bool :=
  {| store_resolve_revision := λ r, Ok (Some (mkHashReference (ref_fqn r) (mkHash [])));
     store_get_dataset := λ r, Ok (demo_raw (hash_ref_hash r));
     store_eth_call_for_dataset := λ schema _, Ok (Some (EthCall schema)) |}.

Definition demo_view (sql : str) : Table unit := mkTable (ViewInput (mkView sql)) tt (lit "mainnet").

Definition demo_manifest : Manifest unit unit bool :=
  mkManifest [(mkDepAlias (lit "eth"), mkDepReference (ref_fqn demo_reference) (HVVersion true))]
    [(mkTableName (lit "a"), demo_view (lit "SELECT 1")); (mkTableName (lit "b"), demo_view (lit "SELECT 2"))]
    [(mkFuncName (lit "f"), mkFunction [tt] tt (mkSource [] []))].

Definition demo_plan (catalog : LogicalCatalog unit unit bool) (stmt : str) : comp BoxError LogicalPlan :=
  Ok (Scan (demo_scan "t")).

Lemma validated_manifest_loads_witness :
  validate demo_plan demo_manifest = Ok tt
  /\ ∃ d, dataset (mkHash []) demo_manifest = Ok d /\ lt_name <$> tables d = [mkTableName (lit "a"); mkTableName (lit "b")].
Proof.
  assert (validate demo_plan demo_manifest = Ok tt) as Hv by (vm_compute; reflexivity).
  assert (sorted (manifest_tables demo_manifest)) as Hs.
  { unfold sorted. repeat constructor; vm_compute; reflexivity. }
  split; [exact Hv|]. destruct (validated_manifest_loads demo_plan demo_manifest (mkHash []) Hs Hv) as [_ Hd].
  eexists. split; [exact Hd|reflexivity].
Defined.

(** A function of the dataset that is not defined is no error, and no function
    of the catalog. *)
Lemma undefined_self_function_accepted :
  validate demo_plan (mkManifest (dependencies demo_manifest) (manifest_tables demo_manifest) []) = Ok tt.
Proof. vm_compute. reflexivity. Qed.
