(* ===== verification/DatasetStore.v ===== *)
(** * DatasetStore

    What the dataset store (core/dataset-store/src/lib.rs) makes of the datasets
    it loads: a dataset with all it depends on, in an order in which it can be
    synchronised, and the [eth_call] functions it keeps. References are resolved
    and datasets loaded through the interface of [DerivedDatasets]; the providers
    of a network are a parameter. *)

From stdpp Require Import base numbers strings option list sets relations.
From Stdlib Require Import ZArith Lia.
From S2P Require Import Prelude BTree Dependencies Names SqlReferences DerivedDatasets.

(** ** The order of references *)

#[global] Instance Revision_eq_dec `{EqDecision V} : EqDecision (Revision V).
Proof. solve_decision. Defined.
#[global] Instance Reference_eq_dec `{EqDecision V} : EqDecision (Reference V).
Proof. solve_decision. Defined.

Section Revisions.
Context {V : Type} `{OrdLaws V}.

Definition revision_rank (r : Revision V) : Z :=
  match r with RVersion _ => 0 | RHash _ => 1 | RLatest => 2 | RDev => 3 end.

(** The variants in the order they are declared. *)
#[global] Instance Revision_ord : Ord (Revision V) := λ r s,
  match r, s with
  | RVersion v, RVersion w => ord v w
  | RHash h, RHash k => ord h k
  | _, _ => Z.compare (revision_rank r) (revision_rank s)
  end.

#[global] Instance Revision_ord_laws : OrdLaws (Revision V).
Proof.
  split.
  - intros [v|h| |] [w|k| |]; cbn; try done; rewrite ord_eq; naive_solver.
  - intros [v|h| |] [w|k| |]; cbn; try done; apply ord_opp.
  - intros [v|h| |] [w|k| |] [u|l| |]; cbn; try done; apply ord_trans.
Qed.

Definition reference_key (r : Reference V) : str * (str * Revision V) :=
  (namespace_str (fqn_namespace (ref_fqn r)), (name_str (fqn_name (ref_fqn r)), ref_revision r)).

#[global] Instance Reference_ord : Ord (Reference V) := ord_by reference_key.

#[global] Instance Reference_ord_laws : OrdLaws (Reference V).
Proof. apply ord_by_laws. by intros [[[] []] ?] [[[] []] ?] [= -> -> ->]. Qed.
End Revisions.

(** ** A dataset and its dependencies *)

Section Worklist.
Context {N E : Type} `{EqDecision N, OrdLaws N}.
Context (expand : N → comp E (list N)).

(** [while let Some(dataset_ref) = datasets.pop()]: the stack from its top. What
    is pushed is what no dataset before this one had as its key. *)
Fixpoint collect_dependencies (fuel : nat) (datasets : list N) (deps : BTreeMap N (list N)) : comp E (BTreeMap N (list N)) :=
  match datasets with
  | [] => Ok deps
  | dataset_ref :: datasets =>
      match fuel with
      | O => OutOfFuel
      | S fuel =>
          refs ← expand dataset_ref;
          let untracked_refs := List.filter (λ r, negb (contains_key r deps)) refs in
          collect_dependencies fuel (reverse untracked_refs ++ datasets) (btree_insert dataset_ref refs deps)
      end
  end.

Definition with_dependencies (fuel : nat) (dataset_ref : N) : comp (E + N) (list N) :=
  deps ← with_err inl (collect_dependencies fuel [dataset_ref] []);
  with_err inr (dependency_sort deps).
End Worklist.

Section Datasets.
Context {Schema DataType V : Type} `{Semver V, OrdLaws V, EqDecision V, !DatasetAccess Schema DataType V}.

Inductive DependenciesError := StoreError (e : BoxError) | DatasetReferenceNotFound (reference : Reference V).

(** The references of a derived dataset; other kinds have none. *)
Definition dataset_references (dataset_ref : Reference V) : comp DependenciesError (list (Reference V)) :=
  found ← with_err StoreError (store_resolve_revision dataset_ref);
  hash_ref ← ok_or found (DatasetReferenceNotFound dataset_ref);
  d ← with_err StoreError (store_get_dataset hash_ref);
  if bool_decide (kind d = DERIVED_DATASET_KIND)
  then Ok (list_fmap _ _ (λ dep : DepAlias * DepReference V, dep_to_reference dep.2) (dataset_dependencies d))
  else Ok [].

Definition dataset_and_dependencies (fuel : nat) (dataset_ref : Reference V)
    : comp (DependenciesError + Reference V) (list (Reference V)) :=
  with_dependencies dataset_references fuel dataset_ref.
End Datasets.
Arguments DependenciesError V : clear implicits.

(** ** The functions of a dataset *)

Section EthCalls.
Context {Schema DataType V : Type}.

Definition EVM_RPC_KIND : str := lit "evm-rpc".

Inductive EthCallForDatasetError := MissingNetwork (manifest_hash : Hash) | ProviderFailed (network : str) (e : BoxError).

(** The functions kept, by the hash of the manifest. *)
Definition EthCallCache : Type := list (Hash * Udf DataType).

Definition eth_call_for_dataset (connect : str → comp BoxError unit) (catalog_schema : str) (d : Dataset Schema DataType V)
    : stm EthCallCache EthCallForDatasetError (option (Udf DataType)) := λ cache,
  if negb (bool_decide (kind d = EVM_RPC_KIND)) then (Ok None, cache)
  else match List.find (λ c, bool_decide (c.1 = manifest_hash d)) cache with
  | Some c => (Ok (Some c.2), cache)
  | None =>
      match network d with
      | None => (Err (MissingNetwork (manifest_hash d)), cache)
      | Some n =>
          match connect n with
          | Ok _ => let udf := EthCall catalog_schema in (Ok (Some udf), (manifest_hash d, udf) :: cache)
          | Err e => (Err (ProviderFailed n e), cache)
          | Panic => (Panic, cache)
          | OutOfFuel => (OutOfFuel, cache)
          end
      end
  end.
End EthCalls.

(** ** The worklist *)

Section Worklists.
Context {N E : Type} `{EqDecision N, OrdLaws N}.
Context (expand : N → comp E (list N)) (universe : list N) (width : nat).

Definition refers (x y : N) : Prop := ∃ refs, expand x = Ok refs /\ y ∈ refs.

(** A finite set of datasets closed under references, of at most [width] each. *)
Definition closed : Prop :=
  ∀ x refs, x ∈ universe → expand x = Ok refs → refs ⊆ universe /\ (length refs <= width)%nat.

Definition unknown (deps : BTreeMap N (list N)) : nat := length (List.filter (λ n, negb (contains_key n deps)) universe).

Definition top_known (datasets : list N) (deps : BTreeMap N (list N)) : bool :=
  match datasets with x :: _ => contains_key x deps | [] => false end.

Definition steps_left (datasets : list N) (deps : BTreeMap N (list N)) : nat :=
  ((2 * width + 2) * unknown deps + length datasets + if top_known datasets deps then width else 0)%nat.

Definition dependencies_fuel : nat := S ((2 * width + 2) * length universe)%nat.

Lemma contains_insert x y refs (deps : BTreeMap N (list N)) :
  contains_key x (btree_insert y refs deps) = bool_decide (x = y) || contains_key x deps.
Proof.
  unfold contains_key. case_bool_decide; [subst; by rewrite get_insert|by rewrite get_insert_ne].
Qed.

Lemma filter_length_mono {A} (f g : A → bool) l :
  (∀ x, x ∈ l → g x = true → f x = true) → (length (List.filter g l) <= length (List.filter f l))%nat.
Proof.
  induction l as [|x l IH]; intros Hfg; [done|]. cbn. specialize (IH ltac:(intros; apply Hfg; [by right|done])).
  destruct (g x) eqn:Eg; [rewrite Hfg by (by left || done)|destruct (f x)]; cbn; lia.
Qed.

Lemma filter_length_lt {A} (f g : A → bool) l x :
  (∀ y, y ∈ l → g y = true → f y = true) → x ∈ l → f x = true → g x = false →
  (length (List.filter g l) < length (List.filter f l))%nat.
Proof.
  intros Hfg Hx Hf Hg. apply list_elem_of_split in Hx as (l1 & l2 & ->). rewrite !List.filter_app, !length_app. cbn.
  rewrite Hf, Hg. cbn.
  pose proof (filter_length_mono f g l1 ltac:(intros; apply Hfg; [set_solver|done])).
  pose proof (filter_length_mono f g l2 ltac:(intros; apply Hfg; [set_solver|done])). lia.
Qed.

Lemma unknown_insert x refs deps :
  (unknown (btree_insert x refs deps) <= unknown deps)%nat
  /\ (x ∈ universe → contains_key x deps = false → (unknown (btree_insert x refs deps) < unknown deps)%nat).
Proof.
  unfold unknown. split.
  - apply filter_length_mono. intros y _. rewrite contains_insert. by destruct (bool_decide _), (contains_key y deps).
  - intros Hx Hk. apply (filter_length_lt _ _ _ x); [|done|by rewrite Hk|].
    + intros y _. rewrite contains_insert. by destruct (bool_decide _), (contains_key y deps).
    + rewrite contains_insert, bool_decide_true by done. done.
Qed.

(** Every turn leaves fewer steps. *)
Lemma steps_left_decreases x refs datasets deps :
  x ∈ universe → (length refs <= width)%nat →
  (steps_left (reverse (List.filter (λ r, negb (contains_key r deps)) refs) ++ datasets) (btree_insert x refs deps)
   < steps_left (x :: datasets) deps)%nat.
Proof.
  intros Hx Hw. set (untracked := List.filter _ refs).
  assert (length untracked <= width)%nat as Hu.
  { etrans; [|exact Hw]. apply List.filter_length_le. }
  unfold steps_left. rewrite length_app, length_reverse. cbn [length top_known].
  destruct (unknown_insert x refs deps) as [Hle Hlt]. destruct (contains_key x deps) eqn:Ex.
  - assert (∀ r, contains_key r (btree_insert x refs deps) = contains_key r deps) as Hsame.
    { intros r. rewrite contains_insert. case_bool_decide; [by subst|done]. }
    destruct (reverse untracked) as [|r rest] eqn:Er; cbn [app top_known].
    + apply (f_equal length) in Er. rewrite length_reverse in Er. cbn in Er. destruct (top_known _ _); nia.
    + assert (r ∈ untracked) as Hr by (apply elem_of_reverse; rewrite Er; by left).
      apply list_elem_of_In, List.filter_In in Hr as [_ Hr]. rewrite Hsame. apply negb_true_iff in Hr. rewrite Hr. nia.
  - specialize (Hlt Hx eq_refl). destruct (top_known _ _); nia.
Qed.

Context (root : N).

Record worklist_ok (deps : BTreeMap N (list N)) (datasets : list N) : Prop := {
  wl_sorted : sorted deps;
  wl_expanded k refs : get k deps = Some refs → expand k = Ok refs;
  wl_reached x : x ∈ datasets \/ x ∈ deps.*1 → rtc refers root x;
  wl_tracked k refs r : get k deps = Some refs → r ∈ refs → r ∈ deps.*1 \/ r ∈ datasets;
  wl_root : root ∈ deps.*1 \/ root ∈ datasets
}.

Lemma contains_key_elem x (deps : BTreeMap N (list N)) : contains_key x deps = true ↔ x ∈ deps.*1.
Proof.
  rewrite <- get_is_Some. unfold contains_key. destruct (get x deps); split; (done || by eexists || by intros [? [=]]).
Qed.

Lemma insert_keys x y refs (deps : BTreeMap N (list N)) : x ∈ (btree_insert y refs deps).*1 ↔ x = y \/ x ∈ deps.*1.
Proof. rewrite <- !contains_key_elem, contains_insert. case_bool_decide; naive_solver. Qed.

Lemma untracked_elem r refs (deps : BTreeMap N (list N)) datasets :
  r ∈ reverse (List.filter (λ r, negb (contains_key r deps)) refs) ++ datasets
  ↔ (r ∈ refs /\ r ∉ deps.*1) \/ r ∈ datasets.
Proof.
  rewrite elem_of_app, elem_of_reverse, list_elem_of_In, List.filter_In, <- list_elem_of_In, negb_true_iff.
  rewrite <- contains_key_elem, not_true_iff_false. done.
Qed.

Lemma worklist_step x refs deps datasets :
  worklist_ok deps (x :: datasets) → expand x = Ok refs →
  worklist_ok (btree_insert x refs deps) (reverse (List.filter (λ r, negb (contains_key r deps)) refs) ++ datasets).
Proof.
  intros [Hs He Hr Ht Hroot] Hx. assert (rtc refers root x) as Hreach by (apply Hr; left; by left). split.
  - by apply insert_sorted.
  - intros k l. destruct (decide (k = x)) as [->|Hne]; [rewrite get_insert; congruence|rewrite get_insert_ne by done; apply He].
  - intros y. rewrite untracked_elem, insert_keys. intros [[[Hy _]|Hy]|[->|Hy]]; [|apply Hr; left; by right|done|apply Hr; by right].
    eapply rtc_r; [exact Hreach|]. by exists refs.
  - intros k l r. rewrite untracked_elem, insert_keys. destruct (decide (k = x)) as [->|Hne].
    + rewrite get_insert. intros [= ->] Hin. destruct (decide (r ∈ deps.*1)); tauto.
    + rewrite get_insert_ne by done. intros Hk Hin. destruct (Ht k l r Hk Hin) as [?|[->|?]%elem_of_cons]; tauto.
  - rewrite untracked_elem, insert_keys. destruct Hroot as [?|[->|?]%elem_of_cons]; tauto.
Qed.

Lemma collect_dependencies_ok fuel datasets deps :
  closed → datasets ⊆ universe → worklist_ok deps datasets → (steps_left datasets deps <= fuel)%nat →
  match collect_dependencies expand fuel datasets deps with
  | Ok deps' => worklist_ok deps' []
  | Err e => ∃ x, rtc refers root x /\ expand x = Err e
  | Panic => ∃ x, rtc refers root x /\ expand x = Panic
  | OutOfFuel => ∃ x, rtc refers root x /\ expand x = OutOfFuel
  end.
Proof.
  intros Hclosed. revert datasets deps. induction fuel as [|fuel IH]; intros [|x datasets] deps Hsub Hok Hfuel; cbn; try done.
  - unfold steps_left in Hfuel. cbn in Hfuel. lia.
  - assert (rtc refers root x) as Hreach by (eapply wl_reached; [exact Hok|left; by left]).
    assert (x ∈ universe) as Hx by (apply Hsub; by left).
    destruct (expand x) as [refs|e| |] eqn:Ex; cbn [mbind comp_bind]; [|by exists x..].
    destruct (Hclosed x refs Hx Ex) as [Hrefs Hw]. apply IH.
    + intros r [[Hr _]|Hr]%untracked_elem; [by apply Hrefs|apply Hsub; by right].
    + by apply worklist_step.
    + pose proof (steps_left_decreases x refs datasets deps Hx Hw). lia.
Qed.

Lemma reached_key deps x : worklist_ok deps [] → x ∈ deps.*1 ↔ rtc refers root x.
Proof.
  intros Hok. split; [intros Hx; eapply wl_reached; [exact Hok|by right]|].
  intros Hx. assert (root ∈ deps.*1) as Hroot by (destruct (wl_root _ _ Hok) as [?|?%elem_of_nil]; done).
  revert Hx. assert (∀ y z, rtc refers y z → y ∈ deps.*1 → z ∈ deps.*1) as Hall; [|intros Hx; by eapply Hall].
  induction 1 as [y|y z w (refs & Hy & Hz) _ IH]; [done|]. intros Hin. apply IH.
  apply get_is_Some in Hin as [l Hl]. assert (l = refs) as ->.
  { apply (wl_expanded _ _ Hok) in Hl. congruence. }
  by destruct (wl_tracked _ _ Hok _ _ _ Hl Hz) as [?|?%elem_of_nil].
Qed.

Lemma deps_of_refers deps n d : worklist_ok deps [] → d ∈ deps_of deps n → refers n d.
Proof.
  intros Hok. unfold deps_of. destruct (get n deps) as [l|] eqn:En; cbn; [|by intros ?%elem_of_nil].
  intros Hd. exists l. split; [|done]. by apply (wl_expanded _ _ Hok).
Qed.

Lemma with_dependencies_ok :
  closed → root ∈ universe →
  match with_dependencies expand dependencies_fuel root with
  | Ok l => NoDup l /\ (∀ x, x ∈ l ↔ rtc refers root x)
      /\ (∀ before n after d, l = before ++ n :: after → refers n d → d ∈ before)
  | Err (inr n) => rtc refers root n /\ tc refers n n
  | Err (inl e) => ∃ x, rtc refers root x /\ expand x = Err e
  | Panic => ∃ x, rtc refers root x /\ expand x = Panic
  | OutOfFuel => ∃ x, rtc refers root x /\ expand x = OutOfFuel
  end.
Proof.
  intros Hclosed Hroot. unfold with_dependencies.
  assert (worklist_ok [] [root]) as Hok.
  { split; try done; [by constructor| |by right; left]. intros x [->%list_elem_of_singleton|?%elem_of_nil]; done. }
  assert (steps_left [root] [] <= dependencies_fuel)%nat as Hfuel.
  { unfold steps_left, dependencies_fuel. cbn. pose proof (List.filter_length_le (λ n, negb (contains_key n ([] : BTreeMap N (list N)))) universe).
    unfold unknown. nia. }
  pose proof (collect_dependencies_ok dependencies_fuel [root] [] Hclosed
    ltac:(by intros x ->%list_elem_of_singleton) Hok Hfuel) as Hc.
  destruct (collect_dependencies expand dependencies_fuel [root] []) as [deps|e| |]; cbn; try done.
  pose proof (dependency_sort_exactly deps (wl_sorted _ _ Hc)) as Hsort. unfold sorts_exactly in Hsort.
  destruct (dependency_sort deps) as [l|n| |]; cbn; try done.
  - destruct Hsort as (Hnd & Htop & Hin & _). split; [done|].
    assert (∀ x, x ∈ l ↔ rtc refers root x) as Hl.
    { intros x. rewrite Hin. unfold all_nodes. rewrite elem_of_app, <- (reached_key deps x Hc). split; [|by left].
      intros [?|Hx]; [done|]. apply deps_of_concat in Hx as (n & Hn & Hd); [|by eapply wl_sorted].
      apply (reached_key deps x Hc). eapply rtc_r; [by apply (reached_key deps n Hc)|by eapply deps_of_refers]. }
    split; [done|]. intros before n after d Heq (refs & Hn & Hd). apply (Htop before n after Heq). unfold depends, deps_of.
    assert (n ∈ deps.*1) as [l' Hl']%get_is_Some.
    { apply (reached_key deps n Hc), Hl. rewrite Heq. apply elem_of_app. right. by left. }
    rewrite Hl'. cbn. apply (wl_expanded _ _ Hc) in Hl'. congruence.
  - assert (∀ y z, tc (depends (deps_of deps)) y z → tc refers y z) as Hmono.
    { intros y z. induction 1 as [y z Hd|y z w Hd _ IH]; [apply tc_once|eapply tc_l; [|exact IH]]; by eapply deps_of_refers. }
    split; [|by apply Hmono]. apply (reached_key deps n Hc).
    inversion Hsort as [? d Hd|? d e Hd _]; subst; by apply deps_of_elem in Hd as [? _].
Qed.
End Worklists.

Section Theorems.
Context {Schema DataType V : Type} `{OrdLaws V, EqDecision V, !DatasetAccess Schema DataType V}.

(** A dataset and its dependencies. When the references of the datasets of
    the store lead to finitely many others, the worklist ends, although it may
    load a dataset several times: it gives the dataset and all it depends on,
    each reference once and after those it refers to, or names a reference on a
    cycle, or fails as the store does on one of them. *)
Theorem dataset_and_dependencies_correct (universe : list (Reference V)) (width : nat) (root : Reference V) :
  closed dataset_references universe width → root ∈ universe →
  match dataset_and_dependencies (dependencies_fuel universe width) root with
  | Ok l => NoDup l /\ (∀ x, x ∈ l ↔ rtc (refers dataset_references) root x)
      /\ (∀ before n after d, l = before ++ n :: after → refers dataset_references n d → d ∈ before)
  | Err (inr n) => rtc (refers dataset_references) root n /\ tc (refers dataset_references) n n
  | Err (inl e) => ∃ x, rtc (refers dataset_references) root x /\ dataset_references x = Err e
  | Panic => ∃ x, rtc (refers dataset_references) root x /\ dataset_references x = Panic
  | OutOfFuel => ∃ x, rtc (refers dataset_references) root x /\ dataset_references x = OutOfFuel
  end.
Proof. apply with_dependencies_ok. Qed.
End Theorems.

(** ** The name of a function that is kept *)

(** The name is documented as [<catalog_schema>.eth_call]; a function that is
    kept has the schema it was made for first. *)
Lemma eth_call_keeps_first_schema {Schema DataType V} connect (a b n : str) (d : Dataset Schema DataType V) cache :
  kind d = EVM_RPC_KIND → network d = Some n → connect n = Ok tt →
  List.find (λ c : Hash * Udf DataType, bool_decide (c.1 = manifest_hash d)) cache = None →
  ∃ cache', eth_call_for_dataset connect a d cache = (Ok (Some (EthCall a)), cache')
    /\ eth_call_for_dataset connect b d cache' = (Ok (Some (EthCall a)), cache').
Proof.
  intros Hk Hn Hc Hnone. exists ((manifest_hash d, EthCall a) :: cache).
  unfold eth_call_for_dataset. rewrite bool_decide_true by done. cbn. rewrite Hnone, Hn, Hc. cbn.
  by rewrite bool_decide_true.
Qed.

(** ** A derived dataset over two others *)

Definition demo_name (s : str) : Reference Z := mkReference (mkFqn global (mkName s)) RLatest.
Definition demo_dep (s : str) : DepAlias * DepReference Z := (mkDepAlias s, mkDepReference (mkFqn global (mkName s)) (HVVersion 1)).
Definition demo_node (s : str) : Reference Z := mkReference (mkFqn global (mkName s)) (RVersion 1).

(** [all] refers to [mid] and [raw], [mid] to [raw]. *)
Definition demo_dataset (s : str) : Dataset unit unit Z :=
  let deps := if bool_decide (s = lit "all") then [demo_dep (lit "mid"); demo_dep (lit "raw")]
              else if bool_decide (s = lit "mid") then [demo_dep (lit "raw")] else [] in
  mkDataset (mkHash s) deps (if bool_decide (s = lit "raw") then EVM_RPC_KIND else DERIVED_DATASET_KIND) None None false [] [].

#[local] Instance demo_store : DatasetAccess unit unit Z :=
  {| store_resolve_revision := λ r, Ok (Some (mkHashReference (ref_fqn r) (mkHash (name_str (fqn_name (ref_fqn r))))));
     store_get_dataset := λ r, Ok (demo_dataset (hash_str (hash_ref_hash r)));
     store_eth_call_for_dataset := λ _ _, Ok None |}.

Definition demo_universe : list (Reference Z) := [demo_name (lit "all"); demo_node (lit "mid"); demo_node (lit "raw")].

Lemma demo_references :
  dataset_references (demo_name (lit "all")) = Ok [demo_node (lit "mid"); demo_node (lit "raw")]
  /\ dataset_references (demo_node (lit "mid")) = Ok [demo_node (lit "raw")]
  /\ dataset_references (demo_node (lit "raw")) = Ok [].
Proof. vm_compute. done. Qed.

Lemma demo_closed : closed dataset_references demo_universe 2.
Proof.
  destruct demo_references as (Ha & Hm & Hr). intros x refs Hx Hrefs. unfold demo_universe in *.
  apply elem_of_cons in Hx as [->|Hx]; [|apply elem_of_cons in Hx as [->|Hx]; [|apply list_elem_of_singleton in Hx as ->]].
  - rewrite Ha in Hrefs. injection Hrefs as <-. split; [set_solver|cbn; lia].
  - rewrite Hm in Hrefs. injection Hrefs as <-. split; [set_solver|cbn; lia].
  - rewrite Hr in Hrefs. injection Hrefs as <-. split; [set_solver|cbn; lia].
Qed.

Lemma dataset_and_dependencies_correct_witness :
  dataset_and_dependencies (dependencies_fuel demo_universe 2) (demo_name (lit "all"))
    = Ok [demo_node (lit "raw"); demo_node (lit "mid"); demo_name (lit "all")]
  /\ ∀ x, x ∈ [demo_node (lit "raw"); demo_node (lit "mid"); demo_name (lit "all")]
       ↔ rtc (refers dataset_references) (demo_name (lit "all")) x.
Proof.
  assert (dataset_and_dependencies (dependencies_fuel demo_universe 2) (demo_name (lit "all"))
    = Ok [demo_node (lit "raw"); demo_node (lit "mid"); demo_name (lit "all")]) as Hrun by (vm_compute; reflexivity).
  split; [exact Hrun|].
  pose proof (dataset_and_dependencies_correct demo_universe 2 (demo_name (lit "all")) demo_closed ltac:(by left)) as Hc.
  rewrite Hrun in Hc. destruct Hc as (_ & Hx & _). exact Hx.
Defined.
