(* ===== verification/Registry.v ===== *)
(** * Registry

    Manifests, datasets and version tags: the tables of the metadata database
    (core/metadata-db/src/datasets, manifests), the operations of the dataset
    store on them (core/dataset-store/src/lib.rs) and the handlers that list and
    delete versions (services/admin-api/src/handlers/datasets). The object store
    of the manifest files is kept by path; a transaction that fails leaves the
    tables as they were. Texts are compared as their characters are. *)

From stdpp Require Import base numbers strings option list sets relations.
From Stdlib Require Import ZArith Lia.
From S2P Require Import Prelude BTree Names.

(** ** Tables *)

Record Tag := mkTag {
  tag_namespace : Namespace;
  tag_name : Name;
  tag_version : str;
  tag_hash : Hash;
  created_at : Z;
  updated_at : Z
}.

#[global] Instance Tag_eq_dec : EqDecision Tag.
Proof. solve_decision. Defined.

Record Db := mkDb {
  manifest_files : list (Hash * str);
  dataset_manifests : list (Namespace * Name * Hash);
  tags : list Tag;
  objects : list (str * str)
}.

Inductive PgError := ForeignKeyViolation | FeatureNotSupported.

Definition LATEST : str := lit "latest".
Definition DEV : str := lit "dev".

Definition of_dataset (ns : Namespace) (n : Name) (t : Tag) : bool :=
  bool_decide (tag_namespace t = ns) && bool_decide (tag_name t = n).

Definition has_key (ns : Namespace) (n : Name) (version : str) (t : Tag) : bool :=
  of_dataset ns n t && bool_decide (tag_version t = version).

Definition is_special (version : str) : bool := bool_decide (version = DEV) || bool_decide (version = LATEST).

Definition set_tags (db : Db) (ts : list Tag) : Db :=
  mkDb (manifest_files db) (dataset_manifests db) ts (objects db).

(** ** Statements on the tags *)

(** [INSERT .. ON CONFLICT .. DO UPDATE .. WHERE tags.hash != EXCLUDED.hash],
    with the foreign key to the manifests of the dataset. *)
Definition upsert (now : Z) (ns : Namespace) (n : Name) (version : str) (h : Hash) : stm Db PgError unit := λ db,
  if bool_decide ((ns, n, h) ∈ dataset_manifests db) then
    (Ok tt, set_tags db
      (if existsb (has_key ns n version) (tags db)
       then (λ t, if has_key ns n version t && negb (bool_decide (tag_hash t = h))
                  then mkTag (tag_namespace t) (tag_name t) (tag_version t) h (created_at t) now else t) <$> tags db
       else tags db ++ [mkTag ns n version h now now]))
  else (Err ForeignKeyViolation, db).

Definition get_version_hash (ns : Namespace) (n : Name) (version : str) (db : Db) : option Hash :=
  tag_hash <$> List.find (has_key ns n version) (tags db).

Definition get_latest_hash (ns : Namespace) (n : Name) : Db → option Hash := get_version_hash ns n LATEST.

Definition get_dev_hash (ns : Namespace) (n : Name) : Db → option Hash := get_version_hash ns n DEV.

(** The version tags of a dataset, in the order of the table. *)
Definition version_tags (ns : Namespace) (n : Name) (db : Db) : list Tag :=
  List.filter (λ t, of_dataset ns n t && negb (is_special (tag_version t))) (tags db).

(** [ORDER BY updated_at DESC LIMIT 1] *)
Definition most_recent (ts : list Tag) : option Tag :=
  foldl (λ best t, match best with Some b => if updated_at b <? updated_at t then Some t else best | None => Some t end) None ts.

(** The version tag with the hash of the [latest] tag. *)
Definition get_latest_for_update (ns : Namespace) (n : Name) (db : Db) : option Tag :=
  h ← get_latest_hash ns n db;
  most_recent (List.filter (λ t, bool_decide (tag_hash t = h)) (version_tags ns n db)).

(** [ORDER BY version DESC] *)
Fixpoint insert_desc (t : Tag) (ts : list Tag) : list Tag :=
  match ts with
  | [] => [t]
  | u :: us => match ord (tag_version t) (tag_version u) with Gt => t :: ts | _ => u :: insert_desc t us end
  end.

Definition by_version_desc (ts : list Tag) : list Tag := foldr insert_desc [] ts.

Definition list_version_tags (ns : Namespace) (n : Name) (db : Db) : list Tag := by_version_desc (version_tags ns n db).

Definition list_versions (ns : Namespace) (n : Name) (db : Db) : list str := tag_version <$> list_version_tags ns n db.

Definition list_all (db : Db) : list Tag :=
  by_version_desc (List.filter (λ t, negb (is_special (tag_version t))) (tags db)).

Definition list_by_manifest_hash (h : Hash) (db : Db) : list Tag :=
  List.filter (λ t, bool_decide (tag_hash t = h) && negb (is_special (tag_version t))) (tags db).

Definition delete_version (ns : Namespace) (n : Name) (version : str) : stm Db PgError unit :=
  modify (λ db, set_tags db (List.filter (λ t, negb (has_key ns n version t)) (tags db))).

Definition delete_all_tags (ns : Namespace) (n : Name) : stm Db PgError unit :=
  modify (λ db, set_tags db (List.filter (λ t, negb (of_dataset ns n t)) (tags db))).

(** ** Statements on the manifests *)

(** [ON CONFLICT DO NOTHING], with the foreign key to the manifest files. *)
Definition insert_link (ns : Namespace) (n : Name) (h : Hash) : stm Db PgError unit := λ db,
  if bool_decide (h ∈ (manifest_files db).*1) then
    (Ok tt, if bool_decide ((ns, n, h) ∈ dataset_manifests db) then db
            else mkDb (manifest_files db) (dataset_manifests db ++ [(ns, n, h)]) (tags db) (objects db))
  else (Err ForeignKeyViolation, db).

Definition link_exists (ns : Namespace) (n : Name) (h : Hash) (db : Db) : bool :=
  bool_decide ((ns, n, h) ∈ dataset_manifests db).

Definition of_dataset_link (ns : Namespace) (n : Name) (l : Namespace * Name * Hash) : bool :=
  bool_decide (l.1 = (ns, n)).

(** The tags go with the links they refer to. *)
Definition delete_links (ns : Namespace) (n : Name) : stm Db PgError (list Hash) := λ db,
  (Ok (List.filter (of_dataset_link ns n) (dataset_manifests db)).*2,
   mkDb (manifest_files db) (List.filter (λ l, negb (of_dataset_link ns n l)) (dataset_manifests db))
        (List.filter (λ t, negb (of_dataset ns n t)) (tags db)) (objects db)).

Definition insert_manifest (h : Hash) (path : str) : stm Db PgError unit :=
  modify (λ db, if bool_decide (h ∈ (manifest_files db).*1) then db
                else mkDb (manifest_files db ++ [(h, path)]) (dataset_manifests db) (tags db) (objects db)).

Definition get_path_by_hash (h : Hash) (db : Db) : option str :=
  snd <$> List.find (λ f, bool_decide (f.1 = h)) (manifest_files db).

(** Links and tags go with the manifest. *)
Definition delete_manifest_row (h : Hash) : stm Db PgError (option str) := λ db,
  (Ok (get_path_by_hash h db),
   mkDb (List.filter (λ f, negb (bool_decide (f.1 = h))) (manifest_files db))
        (List.filter (λ l, negb (bool_decide (l.2 = h))) (dataset_manifests db))
        (List.filter (λ t, negb (bool_decide (tag_hash t = h))) (tags db)) (objects db)).

Definition list_orphaned (db : Db) : list Hash :=
  List.filter (λ h, negb (bool_decide (h ∈ (dataset_manifests db).*2))) (manifest_files db).*1.

(** [SELECT COUNT(..) .. FOR UPDATE]: PostgreSQL does not lock the rows of an
    aggregate, it refuses the statement. *)
Definition count_dataset_links_for_update (h : Hash) : stm Db PgError Z := throw FeatureNotSupported.

(** The statement without its lock. *)
Definition count_dataset_links (h : Hash) : stm Db PgError Z :=
  gets (λ db, Z.of_nat (length (List.filter (λ l, bool_decide (l.2 = h)) (dataset_manifests db)))).

(** [begin_txn] .. [commit]: a failure rolls everything back. *)
Definition transaction {E A} (m : stm Db E A) : stm Db E A := λ db,
  match m db with (Ok a, db') => (Ok a, db') | (r, _) => (r, db) end.

(** ** The dataset store *)

Inductive LinkManifestError := ManifestNotFound (h : Hash) | LinkManifestToDataset (e : PgError) | SetDevTag (e : PgError).
Inductive SetVersionTagError := SetVersionMetadataDb (e : PgError) | UpdateLatestTag (e : PgError).
Inductive DeleteManifestError := ManifestLinked | MetadataDbCheckLinks (e : PgError) | MetadataDbDelete (e : PgError).

(** The file, then the row; files are stored under the path of their hash. *)
Definition register_manifest (store_path : Hash → str) (h : Hash) (content : str) : stm Db PgError unit :=
  _ ← modify (λ db, mkDb (manifest_files db) (dataset_manifests db) (tags db) ((store_path h, content) :: objects db));
  insert_manifest h (store_path h).

Definition link_manifest (now : Z) (ns : Namespace) (n : Name) (h : Hash) : stm Db LinkManifestError unit :=
  transaction (
    _ ← map_err (λ e, match e with ForeignKeyViolation => ManifestNotFound h | _ => LinkManifestToDataset e end)
          (insert_link ns n h);
    map_err SetDevTag (upsert now ns n DEV h)).

(** Nothing is committed when the row is not there. *)
Definition delete_manifest (count_links : Hash → stm Db PgError Z) (h : Hash) : stm Db DeleteManifestError unit := λ db,
  let body :=
    links ← map_err MetadataDbCheckLinks (count_links h);
    if 0 <? links then throw ManifestLinked
    else
      path ← map_err MetadataDbDelete (delete_manifest_row h);
      match path with
      | None => mret false
      | Some p =>
          _ ← modify (λ db, mkDb (manifest_files db) (dataset_manifests db) (tags db)
                                 (List.filter (λ o, negb (bool_decide (o.1 = p))) (objects db)));
          mret true
      end in
  match body db with
  | (Ok true, db') => (Ok tt, db')
  | (Ok false, _) => (Ok tt, db)
  | (Err e, _) => (Err e, db)
  | (Panic, _) => (Panic, db)
  | (OutOfFuel, _) => (OutOfFuel, db)
  end.

Definition unlink_dataset_manifests (ns : Namespace) (n : Name) : stm Db PgError (list Hash) := delete_links ns n.

Section Versions.
Context {V : Type} `{Semver V, Ord V}.

(** [version <= current_latest], where the tag must be a version. *)
Definition set_dataset_version_tag (now : Z) (ns : Namespace) (n : Name) (version : V) (h : Hash)
    : stm Db SetVersionTagError unit :=
  transaction (
    _ ← map_err SetVersionMetadataDb (upsert now ns n (semver_display version) h);
    tag ← gets (get_latest_for_update ns n);
    match tag with
    | None => map_err UpdateLatestTag (upsert now ns n LATEST h)
    | Some tag =>
        match semver_parse (tag_version tag) with
        | None => λ db, (Panic, db)
        | Some current_latest =>
            match ord version current_latest with
            | Gt => map_err UpdateLatestTag (upsert now ns n LATEST h)
            | _ => mret tt
            end
        end
    end).

Definition resolve_version_hash (ns : Namespace) (n : Name) (version : V) (db : Db) : option Hash :=
  get_version_hash ns n (semver_display version) db.

Definition resolve_revision (r : Reference V) (db : Db) : option HashReference :=
  let ns := fqn_namespace (ref_fqn r) in
  let n := fqn_name (ref_fqn r) in
  h ← match ref_revision r with
      | RLatest => get_latest_hash ns n db
      | RDev => get_dev_hash ns n db
      | RVersion version => resolve_version_hash ns n version db
      | RHash h => (λ _, h) <$> get_path_by_hash h db
      end;
  Some (mkHashReference (mkFqn ns n) h).

Definition delete_dataset_version_tag (ns : Namespace) (n : Name) (version : V) : stm Db PgError unit :=
  delete_version ns n (semver_display version).

(** ** The handlers *)

Record VersionInfo := mkVersionInfo { info_version : V; info_hash : Hash; info_created_at : Z; info_updated_at : Z }.

Record VersionsResponse := mkVersions { versions : list VersionInfo; special_latest : option V; special_dev : option Hash }.

Definition version_info (t : Tag) : option VersionInfo :=
  v ← semver_parse (tag_version t); Some (mkVersionInfo v (tag_hash t) (created_at t) (updated_at t)).

(** [GET /datasets/{namespace}/{name}/versions] *)
Definition list_versions_handler (ns : Namespace) (n : Name) (db : Db) : VersionsResponse :=
  let vs := omap version_info (list_version_tags ns n db) in
  mkVersions vs (info_version <$> head vs) (get_dev_hash ns n db).

Inductive DeleteVersionError := CannotDeleteLatestVersion | DeleteVersionTag (e : PgError).

(** [DELETE /datasets/{namespace}/{name}/versions/{version}] *)
Definition delete_version_handler (ns : Namespace) (n : Name) (version : V) : stm Db DeleteVersionError unit :=
  version_hash ← gets (resolve_version_hash ns n version);
  match version_hash with
  | None => mret tt
  | Some ver_hash =>
      latest_hash ← gets (get_latest_hash ns n);
      if bool_decide (latest_hash = Some ver_hash) then throw CannotDeleteLatestVersion
      else map_err DeleteVersionTag (delete_dataset_version_tag ns n version)
  end.
End Versions.

(** ** Integrity *)

Definition tag_key (t : Tag) : Namespace * Name * str := (tag_namespace t, tag_name t, tag_version t).
Definition tag_link (t : Tag) : Namespace * Name * Hash := (tag_namespace t, tag_name t, tag_hash t).

(** Primary and foreign keys. *)
Record integrity (db : Db) : Prop := {
  int_files : NoDup (manifest_files db).*1;
  int_links : NoDup (dataset_manifests db);
  int_link_files l : l ∈ dataset_manifests db → l.2 ∈ (manifest_files db).*1;
  int_keys : NoDup (tag_key <$> tags db);
  int_tag_links t : t ∈ tags db → tag_link t ∈ dataset_manifests db
}.

Lemma keeps_transaction {E A} P (m : stm Db E A) : keeps P m → keeps P (transaction m).
Proof. intros Hm db Hdb. unfold transaction. specialize (Hm db Hdb). by destruct (m db) as [[a|e| |] db']. Qed.

#[export] Hint Resolve keeps_transaction : amp.

Lemma elem_of_filter_bool {A} (f : A → bool) l x : x ∈ List.filter f l ↔ x ∈ l /\ f x = true.
Proof. rewrite !list_elem_of_In. apply List.filter_In. Qed.

Lemma has_key_key ns n v t : has_key ns n v t = true ↔ tag_key t = (ns, n, v).
Proof.
  unfold has_key, of_dataset, tag_key. rewrite !andb_true_iff, !bool_decide_eq_true. naive_solver.
Qed.

Lemma of_dataset_spec ns n t : of_dataset ns n t = true ↔ tag_namespace t = ns /\ tag_name t = n.
Proof. unfold of_dataset. by rewrite andb_true_iff, !bool_decide_eq_true. Qed.

Lemma filter_sublist {A} (f : A → bool) l : List.filter f l `sublist_of` l.
Proof. induction l as [|x l IH]; [done|]. cbn. destruct (f x); [by apply sublist_skip|by apply sublist_cons]. Qed.

Lemma filter_NoDup {A B} (g : A → B) (f : A → bool) l : NoDup (g <$> l) → NoDup (g <$> List.filter f l).
Proof.
  intros Hnd. eapply sublist_NoDup; [exact Hnd|]. by apply fmap_sublist, filter_sublist.
Qed.

(** A new hash for the row of a key. *)
Definition touch (now : Z) (ns : Namespace) (n : Name) (version : str) (h : Hash) (t : Tag) : Tag :=
  if has_key ns n version t && negb (bool_decide (tag_hash t = h))
  then mkTag (tag_namespace t) (tag_name t) (tag_version t) h (created_at t) now else t.

Lemma touch_key now ns n version h t : tag_key (touch now ns n version h t) = tag_key t.
Proof. unfold touch. by destruct (_ && _). Qed.

Lemma touch_hash now ns n version h t :
  tag_hash (touch now ns n version h t) = if has_key ns n version t then h else tag_hash t.
Proof. unfold touch. destruct (has_key ns n version t); cbn; [|done]. case_bool_decide; done. Qed.

Lemma existsb_key ns n v ts : existsb (has_key ns n v) ts = true ↔ (ns, n, v) ∈ tag_key <$> ts.
Proof.
  rewrite existsb_exists, list_elem_of_fmap. split.
  - intros (t & Ht%list_elem_of_In & Hk%has_key_key). by exists t.
  - intros (t & Hk & Ht). exists t. split; [by apply list_elem_of_In|]. by apply has_key_key.
Qed.

Lemma upsert_keys now ns n v h ts :
  NoDup (tag_key <$> ts) →
  NoDup (tag_key <$> if existsb (has_key ns n v) ts then touch now ns n v h <$> ts else ts ++ [mkTag ns n v h now now]).
Proof.
  intros Hnd. destruct (existsb (has_key ns n v) ts) eqn:E.
  - rewrite <- list_fmap_compose. rewrite (list_fmap_ext (tag_key ∘ touch now ns n v h) tag_key ts); [done|].
    intros i t _. apply touch_key.
  - rewrite fmap_app. apply NoDup_app. split; [done|]. split; [|apply NoDup_singleton].
    intros k Hk Hs. apply list_elem_of_singleton in Hs as ->. by rewrite (proj2 (existsb_key ns n v ts) Hk) in E.
Qed.

Lemma upsert_integrity now ns n v h : keeps integrity (upsert now ns n v h).
Proof.
  intros db [Hf Hl Hlf Hk Htl]. unfold upsert. case_bool_decide as Hlink; [|by split].
  split; cbn [snd set_tags manifest_files dataset_manifests tags]; try done; [by apply upsert_keys|].
  intros t Ht. destruct (existsb _ _).
  - apply list_elem_of_fmap in Ht as (u & -> & Hu). change (tag_link (touch now ns n v h u) ∈ dataset_manifests db).
    unfold touch. destruct (has_key ns n v u) eqn:E; cbn [andb]; [|by apply Htl].
    destruct (negb _); [|by apply Htl]. apply has_key_key in E. unfold tag_key in E. injection E as <- <- _. done.
  - apply elem_of_app in Ht as [Ht|Ht%list_elem_of_singleton]; [by apply Htl|by subst].
Qed.

Lemma insert_link_integrity ns n h : keeps integrity (insert_link ns n h).
Proof.
  intros db [Hf Hl Hlf Hk Htl]. unfold insert_link. case_bool_decide as Hfile; [|by split].
  case_bool_decide as Hlink; [by split|]. split; cbn; try done.
  - apply NoDup_app. split; [done|]. split; [|apply NoDup_singleton]. by intros l Hin ->%list_elem_of_singleton.
  - intros l [Hin|Hin%list_elem_of_singleton]%elem_of_app; [by apply Hlf|by subst].
  - intros t Ht. apply elem_of_app. left. by apply Htl.
Qed.

Lemma insert_manifest_integrity h p : keeps integrity (insert_manifest h p).
Proof.
  apply keeps_modify. intros db [Hf Hl Hlf Hk Htl]. case_bool_decide as Hin; [by split|]. split; cbn; try done.
  - rewrite fmap_app. apply NoDup_app. split; [done|]. split; [|apply NoDup_singleton].
    by intros x Hx ->%list_elem_of_singleton.
  - intros l Hlk. rewrite fmap_app. apply elem_of_app. left. by apply Hlf.
Qed.

(** Rows removed with those that refer to them. *)
Lemma remove_integrity (ff : Hash * str → bool) (fl : Namespace * Name * Hash → bool) (ft : Tag → bool) db os :
  integrity db →
  (∀ l, l ∈ dataset_manifests db → fl l = true → ∀ f, f ∈ manifest_files db → f.1 = l.2 → ff f = true) →
  (∀ t, t ∈ tags db → ft t = true → fl (tag_link t) = true) →
  integrity (mkDb (List.filter ff (manifest_files db)) (List.filter fl (dataset_manifests db)) (List.filter ft (tags db)) os).
Proof.
  intros [Hf Hl Hlf Hk Htl] Hff Hft. split; cbn.
  - by apply filter_NoDup.
  - rewrite <- (list_fmap_id (List.filter fl _)). apply filter_NoDup. by rewrite list_fmap_id.
  - intros l [Hin Hk']%elem_of_filter_bool. apply Hlf in Hin as Hfile.
    apply list_elem_of_fmap in Hfile as (f & Heq & Hfin). apply list_elem_of_fmap. exists f. split; [done|].
    apply elem_of_filter_bool. split; [done|]. by eapply Hff.
  - by apply filter_NoDup.
  - intros t [Hin Ht]%elem_of_filter_bool. apply elem_of_filter_bool. split; [by apply Htl|by apply Hft].
Qed.

Lemma filter_true {A} (l : list A) : List.filter (λ _, true) l = l.
Proof. induction l as [|x l IH]; [done|]. cbn. by rewrite IH. Qed.

Lemma delete_tags_integrity (f : Tag → bool) db : integrity db → integrity (set_tags db (List.filter f (tags db))).
Proof.
  intros Hi. pose proof (remove_integrity (λ _, true) (λ _, true) f db (objects db) Hi) as Hr.
  rewrite !filter_true in Hr. by apply Hr.
Qed.

Lemma delete_links_integrity ns n : keeps integrity (delete_links ns n).
Proof.
  intros db Hi. cbn. rewrite <- (filter_true (manifest_files db)). apply remove_integrity; [done|done|].
  intros t _. unfold of_dataset_link, tag_link, of_dataset. cbn. intros Ht. apply negb_true_iff, bool_decide_eq_false.
  intros [= <- <-]. by rewrite !bool_decide_true in Ht.
Qed.

Lemma delete_manifest_row_integrity h : keeps integrity (delete_manifest_row h).
Proof.
  intros db Hi. cbn. apply remove_integrity; [done| |done].
  intros l _ Hl f _ Heq. by rewrite Heq.
Qed.

(** ** Rows of the tags *)

Definition row (db : Db) (k : Namespace * Name * str) (h : Hash) : Prop :=
  ∃ t, t ∈ tags db /\ tag_key t = k /\ tag_hash t = h.

Lemma key_unique db t u : integrity db → t ∈ tags db → u ∈ tags db → tag_key t = tag_key u → t = u.
Proof.
  intros Hi [i Hi1]%list_elem_of_lookup [j Hj]%list_elem_of_lookup Heq.
  pose proof (int_keys db Hi) as Hnd. assert (i = j) as ->; [|congruence].
  eapply NoDup_lookup; [exact Hnd|by rewrite list_lookup_fmap, Hi1|by rewrite list_lookup_fmap, Hj; cbn; f_equal].
Qed.

Lemma row_unique db k h h' : integrity db → row db k h → row db k h' → h = h'.
Proof.
  intros Hi (t & Ht & Hk & <-) (u & Hu & Hk' & <-). f_equal. apply (key_unique db); try done. congruence.
Qed.

Lemma get_version_hash_row ns n v db h : integrity db → get_version_hash ns n v db = Some h ↔ row db (ns, n, v) h.
Proof.
  intros Hi. unfold get_version_hash. destruct (List.find (has_key ns n v) (tags db)) as [t|] eqn:E; cbn.
  - apply List.find_some in E as [Ht%list_elem_of_In Hk%has_key_key]. split.
    + intros [= <-]. by exists t.
    + intros Hr. f_equal. eapply row_unique; [done|by exists t|done].
  - split; [done|]. intros (t & Ht%list_elem_of_In & Hk & _). eapply List.find_none in E; [|exact Ht].
    by rewrite (proj2 (has_key_key ns n v t)) in E.
Qed.

Lemma get_version_hash_none ns n v db :
  integrity db → get_version_hash ns n v db = None ↔ ∀ h, ¬ row db (ns, n, v) h.
Proof.
  intros Hi. split.
  - intros Hn h Hr%get_version_hash_row; [congruence|done].
  - intros Hn. destruct (get_version_hash ns n v db) as [h|] eqn:E; [|done].
    apply get_version_hash_row in E; [|done]. by destruct (Hn h).
Qed.

Lemma upsert_row_cases now ns n v h db :
  match upsert now ns n v h db with
  | (Ok _, db') => ∀ k h', row db' k h' ↔ (k = (ns, n, v) /\ h' = h) \/ (k ≠ (ns, n, v) /\ row db k h')
  | (Err e, db') => e = ForeignKeyViolation /\ db' = db
  | _ => False
  end.
Proof.
  unfold upsert. case_bool_decide; [|done]. intros k h'. unfold row. cbn [set_tags tags].
  destruct (existsb (has_key ns n v) (tags db)) eqn:E; fold (touch now ns n v h).
  - split.
    + intros (u & (t & -> & Ht)%list_elem_of_fmap & Hk & Hh). rewrite touch_hash in Hh. rewrite touch_key in Hk.
      destruct (has_key ns n v t) eqn:Et.
      * left. apply has_key_key in Et. split; congruence.
      * right. split; [|by exists t]. intros ->. apply has_key_key in Hk. congruence.
    + intros [[-> ->]|[Hk (t & Ht & <- & <-)]].
      * apply existsb_key, list_elem_of_fmap in E as (t & Hk & Ht). exists (touch now ns n v h t).
        split; [by apply list_elem_of_fmap_2|]. rewrite touch_key, touch_hash. split; [done|].
        by rewrite (proj2 (has_key_key ns n v t)).
      * exists (touch now ns n v h t). split; [by apply list_elem_of_fmap_2|]. rewrite touch_key, touch_hash.
        split; [done|]. destruct (has_key ns n v t) eqn:Et; [|done]. by apply has_key_key in Et.
  - assert (∀ h0, ¬ row db (ns, n, v) h0) as Hno.
    { intros h0 (t & Ht & Hk & _). assert (existsb (has_key ns n v) (tags db) = true) as Hx; [|congruence].
      apply existsb_key, list_elem_of_fmap. by exists t. }
    split.
    + intros (t & [Ht|Ht%list_elem_of_singleton]%elem_of_app & Hk & Hh); [right|left; by subst].
      split; [|by exists t]. intros ->. destruct (Hno h'). by exists t.
    + intros [[-> ->]|[Hk (t & Ht & <- & <-)]].
      * exists (mkTag ns n v h now now). split; [|done]. apply elem_of_app. right. by apply list_elem_of_singleton.
      * exists t. split; [|done]. apply elem_of_app. by left.
Qed.

Lemma filter_rows (f : Tag → bool) (g : Namespace * Name * str → bool) db k h :
  (∀ t, f t = g (tag_key t)) → row (set_tags db (List.filter f (tags db))) k h ↔ row db k h /\ g k = true.
Proof.
  intros Hf. unfold row. cbn. split.
  - intros (t & [Ht Hft]%elem_of_filter_bool & <- & <-). split; [by exists t|]. by rewrite <- Hf.
  - intros [(t & Ht & <- & <-) Hg]. exists t. split; [|done]. apply elem_of_filter_bool. by rewrite Hf.
Qed.

Lemma most_recent_spec ts :
  match most_recent ts with Some t => t ∈ ts | None => ts = [] end.
Proof.
  unfold most_recent. destruct ts as [|t ts]; [done|]. cbn [foldl].
  assert (∀ l (b : Tag), ∃ c, foldl (λ best t, match best with Some b => if updated_at b <? updated_at t then Some t else best | None => Some t end) (Some b) l = Some c
            /\ c ∈ b :: l) as Hfold.
  { induction l as [|x l IH]; intros b; cbn; [exists b; set_solver|].
    destruct (updated_at b <? updated_at x); [destruct (IH x) as (c & -> & Hc)|destruct (IH b) as (c & -> & Hc)];
      exists c; set_solver. }
  destruct (Hfold ts t) as (c & -> & Hc). done.
Qed.

Lemma version_tags_elem ns n db t :
  t ∈ version_tags ns n db ↔ t ∈ tags db /\ tag_key t = (ns, n, tag_version t) /\ is_special (tag_version t) = false.
Proof.
  unfold version_tags. rewrite elem_of_filter_bool, andb_true_iff, of_dataset_spec, negb_true_iff. unfold tag_key.
  split; intros; destruct_and?; simplify_eq; done.
Qed.

Lemma is_special_spec v : is_special v = true ↔ v = DEV \/ v = LATEST.
Proof. unfold is_special. by rewrite orb_true_iff, !bool_decide_eq_true. Qed.

(** The version whose hash [latest] has. *)
Lemma get_latest_for_update_spec ns n db :
  integrity db →
  match get_latest_for_update ns n db with
  | Some t => is_special (tag_version t) = false /\ row db (ns, n, tag_version t) (tag_hash t) /\ row db (ns, n, LATEST) (tag_hash t)
  | None => ∀ h v, row db (ns, n, LATEST) h → is_special v = false → ¬ row db (ns, n, v) h
  end.
Proof.
  intros Hi. unfold get_latest_for_update, get_latest_hash. destruct (get_version_hash ns n LATEST db) as [h|] eqn:E; cbn.
  - apply get_version_hash_row in E; [|done].
    set (ts := List.filter (λ t, bool_decide (tag_hash t = h)) (version_tags ns n db)).
    pose proof (most_recent_spec ts) as Hm. destruct (most_recent ts) as [t|].
    + apply elem_of_filter_bool in Hm as [(Ht & Hk & Hs)%version_tags_elem Hh%bool_decide_eq_true]. subst h.
      split; [done|]. split; [by exists t|done].
    + intros h' v Hl Hs (t & Ht & Hk & Hh). rewrite (row_unique db _ h' h) in Hh by done.
      assert (t ∈ ts) as Hin; [|rewrite Hm in Hin; by apply elem_of_nil in Hin].
      unfold tag_key in Hk. injection Hk as Hns Hn Hv.
      apply elem_of_filter_bool. split; [|by apply bool_decide_eq_true].
      apply version_tags_elem. split; [done|]. unfold tag_key. split; congruence.
  - intros h v Hl. by apply (proj1 (get_version_hash_none _ _ _ _ Hi) E) in Hl.
Qed.

Lemma find_filter {A} (f g : A → bool) l :
  (∀ x, f x = true → g x = true) → List.find f (List.filter g l) = List.find f l.
Proof.
  intros Hfg. induction l as [|x l IH]; [done|]. cbn. destruct (g x) eqn:E; cbn; [by rewrite IH|].
  destruct (f x) eqn:Ef; [|done]. by rewrite (Hfg x Ef) in E.
Qed.

Lemma find_removed ns n s db :
  get_version_hash ns n s (set_tags db (List.filter (λ t, negb (has_key ns n s t)) (tags db))) = None.
Proof.
  unfold get_version_hash. cbn [set_tags tags]. destruct (List.find _ _) as [t|] eqn:E; [|done].
  apply List.find_some in E as [[_ Hn]%List.filter_In Hk]. by rewrite Hk in Hn.
Qed.

Lemma find_kept ns n s s' db :
  s' ≠ s → get_version_hash ns n s' (set_tags db (List.filter (λ t, negb (has_key ns n s t)) (tags db)))
           = get_version_hash ns n s' db.
Proof.
  intros Hne. unfold get_version_hash. cbn [set_tags tags]. f_equal. apply find_filter. intros t Ht%has_key_key.
  apply negb_true_iff. destruct (has_key ns n s t) eqn:E; [|done]. apply has_key_key in E. congruence.
Qed.

(** ** The latest version *)

Section Latest.
Context {V : Type} `{SemverLaws V, OrdLaws V}.

Abbreviation version_row db ns n v := (row db (ns, n, semver_display (v : V))).

(** The [latest] tag of a dataset is the one of its highest version; there is
    none without a version. *)
Definition latest_ok (db : Db) (ns : Namespace) (n : Name) : Prop :=
  (∃ h v, row db (ns, n, LATEST) h /\ version_row db ns n v h /\ ∀ w h', version_row db ns n w h' → ord w v ≠ Gt)
  \/ ((∀ h, ¬ row db (ns, n, LATEST) h) /\ ∀ v h, ¬ version_row db ns n v h).

(** Each version has a manifest of its own. *)
Definition own_manifests (db : Db) (ns : Namespace) (n : Name) : Prop :=
  ∀ v w h, version_row db ns n v h → version_row db ns n w h → v = w.

Definition versions_wf (db : Db) : Prop :=
  ∀ ns n s h, row db (ns, n, s) h → s = LATEST \/ s = DEV \/ ∃ v : V, s = semver_display v.

Record registry_ok (db : Db) : Prop := {
  reg_integrity : integrity db;
  reg_wf : versions_wf db;
  reg_own ns n : own_manifests db ns n;
  reg_latest ns n : latest_ok db ns n
}.

Lemma display_not_special (v : V) : is_special (semver_display v) = false.
Proof.
  destruct (is_special (semver_display v)) eqn:E; [|done]. apply is_special_spec in E.
  destruct (version_not_keyword v). unfold DEV, LATEST in E. tauto.
Qed.

Lemma display_inj (v w : V) : semver_display v = semver_display w → v = w.
Proof. intros E. pose proof (semver_parse_display v) as Hv. rewrite E, semver_parse_display in Hv. congruence. Qed.

(** Tables with the same rows for the versions and [latest]. *)
Definition same_versions (db db' : Db) : Prop :=
  ∀ ns n s h, s ≠ DEV → row db' (ns, n, s) h ↔ row db (ns, n, s) h.

Lemma same_versions_ok db db' : same_versions db db' → integrity db' → versions_wf db' → registry_ok db → registry_ok db'.
Proof.
  intros Hs Hi Hwf [_ _ Hown Hlat].
  assert (∀ v : V, semver_display v ≠ DEV) as Hv by (intros v; apply version_not_keyword).
  assert (LATEST ≠ DEV) as Hld by done. split; [done|done|..]; intros ns n.
  - intros v w h Hr Hr'. apply Hs in Hr, Hr'; [|done..]. by eapply Hown.
  - destruct (Hlat ns n) as [(h & v & Hl & Hr & Hmax)|[Hl Hno]]; [left|right].
    + exists h, v. split; [by apply Hs|]. split; [by apply Hs|]. intros w h' Hw. apply Hs in Hw; [|done]. by eapply Hmax.
    + split; [intros h Hh; by apply Hs, Hl in Hh|]. intros v h Hh. apply Hs in Hh; [|done]. by eapply Hno.
Qed.

Lemma same_tags_versions db db' : tags db' = tags db → same_versions db db'.
Proof. intros Ht ns n s h _. unfold row. by rewrite Ht. Qed.

Lemma same_tags_wf db db' : tags db' = tags db → versions_wf db → versions_wf db'.
Proof. intros Ht Hwf ns n s h. unfold row. rewrite Ht. apply Hwf. Qed.

Lemma same_tags_ok db db' : tags db' = tags db → integrity db' → registry_ok db → registry_ok db'.
Proof.
  intros Ht Hi Hr. eapply same_versions_ok; [by apply same_tags_versions|done| |done].
  by eapply same_tags_wf, reg_wf.
Qed.

#[local] Instance version_eq_dec : EqDecision V.
Proof.
  intros v w. destruct (ord v w) eqn:E; [left; by apply ord_eq|right..];
    intros ->; by rewrite (proj2 (ord_eq w w)) in E.
Defined.

(** One row set. *)
Definition set_row (k : Namespace * Name * str) (h : Hash) (db db' : Db) : Prop :=
  ∀ k' h', row db' k' h' ↔ (k' = k /\ h' = h) \/ (k' ≠ k /\ row db k' h').

Lemma set_row_version ns n (v : V) h db db' :
  set_row (ns, n, semver_display v) h db db' →
  (∀ ns' n' w h', version_row db' ns' n' w h' ↔
     ((ns', n') = (ns, n) /\ w = v /\ h' = h) \/ (((ns', n') ≠ (ns, n) \/ w ≠ v) /\ version_row db ns' n' w h'))
  /\ ∀ ns' n' h', row db' (ns', n', LATEST) h' ↔ row db (ns', n', LATEST) h'.
Proof.
  intros Hs. split.
  - intros ns' n' w h'. rewrite (Hs _ _). destruct (decide ((ns', n', w) = (ns, n, v))) as [[= -> -> ->]|Hne]; [naive_solver|].
    assert ((ns', n', semver_display w) ≠ (ns, n, semver_display v)) as Hk.
    { intros [= -> -> E%display_inj]. congruence. }
    assert ((ns', n') ≠ (ns, n) \/ w ≠ v) as Hk'.
    { destruct (decide (w = v)) as [->|]; [left|by right]. intros [= -> ->]. by apply Hne. }
    naive_solver.
  - intros ns' n' h'. rewrite (Hs _ _). assert (LATEST ≠ semver_display v) by (intros E; by destruct (version_not_keyword v)).
    naive_solver.
Qed.

Lemma set_row_latest ns n h db db' :
  set_row (ns, n, LATEST) h db db' →
  (∀ ns' n' w h', version_row db' ns' n' w h' ↔ version_row db ns' n' w h')
  /\ ∀ ns' n' h', row db' (ns', n', LATEST) h' ↔
       ((ns', n') = (ns, n) /\ h' = h) \/ ((ns', n') ≠ (ns, n) /\ row db (ns', n', LATEST) h').
Proof.
  intros Hs. split; intros; rewrite (Hs _ _); [|naive_solver].
  assert (semver_display w ≠ LATEST) by (intros E; by destruct (version_not_keyword w)). naive_solver.
Qed.

(** What has to be shown of tables whose versions of one dataset changed. *)
Lemma other_dataset_ok ns n db db' :
  (∀ w h, version_row db' ns n w h ↔ version_row db ns n w h) →
  (∀ h, row db' (ns, n, LATEST) h ↔ row db (ns, n, LATEST) h) →
  latest_ok db ns n → latest_ok db' ns n.
Proof.
  intros Hv Hl [(h & v & Hlr & Hvr & Hmax)|[Hln Hvn]]; [left; exists h, v|right].
  - rewrite Hl, Hv. split; [done|]. split; [done|]. intros w h'. rewrite Hv. apply Hmax.
  - split; intros; [rewrite Hl|rewrite Hv]; auto.
Qed.

Lemma upsert_set_row now ns n v h db :
  match upsert now ns n v h db with
  | (Ok _, db') => set_row (ns, n, v) h db db'
  | (Err e, db') => e = ForeignKeyViolation /\ db' = db
  | _ => False
  end.
Proof. apply upsert_row_cases. Qed.

(** The version that [latest] shares its hash with is the only one. *)
Lemma get_latest_is ns n h v db :
  integrity db → versions_wf db → own_manifests db ns n →
  row db (ns, n, LATEST) h → version_row db ns n v h →
  ∃ t, get_latest_for_update ns n db = Some t /\ tag_version t = semver_display v.
Proof.
  intros Hi Hwf Hown Hl Hv. pose proof (get_latest_for_update_spec ns n db Hi) as Hg.
  destruct (get_latest_for_update ns n db) as [t|]; [|by destruct (Hg h (semver_display v) Hl (display_not_special v))].
  exists t. split; [done|]. destruct Hg as (Hs & Ht & Htl). rewrite (row_unique db _ _ h Hi Htl Hl) in Ht.
  destruct (Hwf _ _ _ _ Ht) as [E|[E|[w E]]]; [by rewrite E in Hs..|]. rewrite E in Ht |- *. f_equal. by eapply Hown.
Qed.

Lemma get_latest_none ns n db :
  integrity db → versions_wf db →
  (∀ h v, row db (ns, n, LATEST) h → ¬ version_row db ns n v h) → get_latest_for_update ns n db = None.
Proof.
  intros Hi Hwf Hno. pose proof (get_latest_for_update_spec ns n db Hi) as Hg.
  destruct (get_latest_for_update ns n db) as [t|]; [|done]. destruct Hg as (Hs & Ht & Htl).
  destruct (Hwf _ _ _ _ Ht) as [E|[E|[w E]]]; [by rewrite E in Hs..|]. rewrite E in Ht. by destruct (Hno _ _ Htl Ht).
Qed.

(** [latest] after a version is set: either it need not move, or the version is
    the highest. *)
Lemma set_version_latest ns n (version : V) h db db1 :
  registry_ok db → integrity db1 → versions_wf db1 → own_manifests db1 ns n →
  set_row (ns, n, semver_display version) h db db1 →
  (∃ t v, get_latest_for_update ns n db1 = Some t /\ tag_version t = semver_display v
     /\ match ord version v with Gt => ∀ w h', version_row db1 ns n w h' → ord w version ≠ Gt | _ => latest_ok db1 ns n end)
  \/ (get_latest_for_update ns n db1 = None /\ ∀ w h', version_row db1 ns n w h' → ord w version ≠ Gt).
Proof.
  intros [Hi Hwf Hown Hlat] Hi1 Hwf1 Hown1 [Hv Hl]%set_row_version.
  assert (∀ w : V, ord w w ≠ Gt) as Hrefl by (intros w; by rewrite (proj2 (ord_eq w w))).
  destruct (Hlat ns n) as [(h0 & v0 & Hl0 & Hr0 & Hmax)|[Hl0 Hno]].
  - assert (∀ w h', version_row db1 ns n w h' → w ≠ version → ord w v0 ≠ Gt) as Hmax1.
    { intros w h' [(_ & -> & _)|[_ Hw]]%Hv Hne; [done|]. by eapply Hmax. }
    destruct (decide (version = v0 /\ h ≠ h0)) as [[-> Hne]|Hno].
    + right. split.
      * apply get_latest_none; [done..|]. intros h' w Hlr%Hl. rewrite (row_unique db _ h' h0 Hi Hlr Hl0). intros [(_ & _ & ->)|[[?|Hw] Hwr]]%Hv; [done..|].
        apply Hw. by eapply Hown.
      * intros w h' Hw. destruct (decide (w = v0)) as [->|Hwn]; [done|by eapply Hmax1].
    + left. assert (version_row db1 ns n v0 h0) as Hr1.
      { apply Hv. destruct (decide (v0 = version)) as [->|Hne]; [left|right]; [|by split; [right|]].
        destruct (decide (h = h0)) as [->|]; [done|]. by destruct Hno. }
      destruct (get_latest_is ns n h0 v0 db1) as (t & Hg & Ht); [done..|by apply Hl|done|].
      exists t, v0. split; [done|]. split; [done|].
      assert (ord version v0 ≠ Gt → latest_ok db1 ns n) as Hstay.
      { intros Hle. left. exists h0, v0. split; [by apply Hl|]. split; [done|]. intros w h' Hw.
        destruct (decide (w = version)) as [->|Hne]; [done|by eapply Hmax1]. }
      destruct (ord version v0) eqn:E; [by apply Hstay..|]. intros w h' Hw.
      destruct (decide (w = version)) as [->|Hne]; [done|]. pose proof (Hmax1 w h' Hw Hne) as Hwv.
      assert (ord v0 version = Lt) as Hlt by by rewrite (ord_opp version v0), E.
      destruct (ord w v0) eqn:Ew; [apply ord_eq in Ew as ->; by rewrite Hlt|by rewrite (ord_trans w v0 version)|done].
  - right. split.
    + apply get_latest_none; [done..|]. intros h' w Hlr%Hl. by apply Hl0 in Hlr.
    + intros w h' [(_ & -> & _)|[_ Hw]]%Hv; [done|by apply Hno in Hw].
Qed.

Lemma upsert_linked now ns n v h db :
  (ns, n, h) ∈ dataset_manifests db → integrity db →
  ∃ db', upsert now ns n v h db = (Ok tt, db') /\ set_row (ns, n, v) h db db' /\ integrity db'
    /\ dataset_manifests db' = dataset_manifests db.
Proof.
  intros Hlink Hi. pose proof (upsert_set_row now ns n v h db) as Hs.
  pose proof (upsert_integrity now ns n v h db Hi) as Hi'. unfold upsert in *.
  rewrite bool_decide_true in * by done. eauto 10.
Qed.

Lemma set_row_wf ns n s h db db' :
  set_row (ns, n, s) h db db' → (s = LATEST \/ s = DEV \/ ∃ v : V, s = semver_display v) → versions_wf db → versions_wf db'.
Proof. intros Hs Hk Hwf ns' n' s' h' [[[= -> -> ->] _]|[_ Hr]]%Hs; [done|by eapply Hwf]. Qed.

Lemma set_row_own ns n (v : V) h db db' :
  (∀ w, version_row db ns n w h → w = v) → set_row (ns, n, semver_display v) h db db' →
  (∀ ns n, own_manifests db ns n) → ∀ ns n, own_manifests db' ns n.
Proof.
  intros Hfresh [Hv _]%set_row_version Hown ns' n' w u h'.
  intros [([= -> ->] & -> & ->)|[Hk Hw]]%Hv [(E & -> & E')|[Hk' Hu]]%Hv; [done| | |by eapply Hown].
  - by rewrite (Hfresh u Hu).
  - injection E as -> ->. subst. by apply Hfresh.
Qed.

(** [latest] set to the highest version. *)
Lemma set_latest_ok ns n (v : V) h db db' :
  set_row (ns, n, LATEST) h db db' → version_row db ns n v h → (∀ w h', version_row db ns n w h' → ord w v ≠ Gt) →
  latest_ok db' ns n.
Proof.
  intros [Hv Hl]%set_row_latest Hr Hmax. left. exists h, v. split; [by apply Hl; left|].
  split; [by apply Hv|]. intros w h' Hw%Hv. by eapply Hmax.
Qed.

(** [set_dataset_version_tag] of a manifest no other version has. *)
Lemma set_version_ok now ns n (version : V) h db :
  (∀ w, version_row db ns n w h → w = version) → registry_ok db →
  match set_dataset_version_tag now ns n version h db with
  | (Ok _, db') => (ns, n, h) ∈ dataset_manifests db /\ registry_ok db'
      /\ ∀ w h', version_row db' ns n w h' ↔ (w = version /\ h' = h) \/ (w ≠ version /\ version_row db ns n w h')
  | (Err e, db') => e = SetVersionMetadataDb ForeignKeyViolation /\ (ns, n, h) ∉ dataset_manifests db /\ db' = db
  | _ => False
  end.
Proof.
  intros Hfresh Hr. pose proof Hr as [Hi Hwf Hown Hlat]. unfold set_dataset_version_tag, transaction.
  destruct (decide ((ns, n, h) ∈ dataset_manifests db)) as [Hlink|Hlink].
  2: { assert (upsert now ns n (semver_display version) h db = (Err ForeignKeyViolation, db)) as E
         by (unfold upsert; by rewrite bool_decide_false).
       unfold mbind, stm_bind, map_err. rewrite !E. by split_and!. }
  destruct (upsert_linked now ns n (semver_display version) h db Hlink Hi) as (db1 & E1 & Hs1 & Hi1 & Hl1).
  unfold mbind, stm_bind, gets, map_err. rewrite E1. cbn -[LATEST].
  assert (versions_wf db1) as Hwf1 by (eapply set_row_wf; eauto).
  pose proof (set_row_own ns n version h db db1 Hfresh Hs1 Hown) as Hown1.
  pose proof (set_row_version _ _ _ _ _ _ Hs1) as [Hv1 Hlr1].
  assert (∀ ns' n', (ns', n') ≠ (ns, n) → latest_ok db1 ns' n') as Hother.
  { intros ns' n' Hne. apply (other_dataset_ok ns' n' db); [|apply Hlr1|apply Hlat].
    intros w h'. rewrite Hv1. naive_solver. }
  destruct (upsert_linked now ns n LATEST h db1) as (db2 & E2 & Hs2 & Hi2 & Hl2); [by rewrite Hl1|done|].
  pose proof (set_row_latest _ _ _ _ _ Hs2) as [Hv2 Hlr2].
  assert (∀ w h', version_row db1 ns n w h' ↔ (w = version /\ h' = h) \/ (w ≠ version /\ version_row db ns n w h')) as Hvs.
  { intros w h'. rewrite Hv1. naive_solver. }
  assert (∀ w h', version_row db2 ns n w h' ↔ (w = version /\ h' = h) \/ (w ≠ version /\ version_row db ns n w h')) as Hvs2.
  { intros w h'. by rewrite Hv2. }
  assert ((∀ w h', version_row db1 ns n w h' → ord w version ≠ Gt) → registry_ok db2) as Hset.
  { intros Hmax. split; [done|by eapply set_row_wf; eauto|..]; intros ns' n'.
    - intros v w h' Hw%Hv2 Hu%Hv2. by eapply Hown1.
    - destruct (decide ((ns', n') = (ns, n))) as [[= -> ->]|Hne].
      + eapply (set_latest_ok ns n version h db1); [done| |done]. apply Hv1. by left.
      + apply (other_dataset_ok ns' n' db1); [intros; apply Hv2| |by apply Hother].
        intros h'. rewrite Hlr2. naive_solver. }
  assert (latest_ok db1 ns n → registry_ok db1) as Hstay.
  { intros Hlo. split; [done..|]. intros ns' n'.
    destruct (decide ((ns', n') = (ns, n))) as [[= -> ->]|Hne]; [done|by apply Hother]. }
  destruct (set_version_latest ns n version h db db1) as [(t & v & -> & Ht & Hcmp)|[-> Hmax]]; [done..| |].
  - rewrite Ht, semver_parse_display. destruct (ord version v); cbn -[LATEST]; [by split_and!; [|apply Hstay|]..|].
    rewrite E2. by split_and!; [|apply Hset|].
  - rewrite E2. by split_and!; [|apply Hset|].
Qed.

(** Rows removed: all those of a dataset, or none that [latest] depends on. *)
Lemma removed_ok (g : Namespace * Name * str → bool) db db' :
  integrity db' → (∀ k h, row db' k h ↔ row db k h /\ g k = true) →
  (∀ ns n, (∀ s, g (ns, n, s) = false) \/
     (g (ns, n, LATEST) = true /\
      ∀ (v : V) h, row db (ns, n, LATEST) h → version_row db ns n v h → g (ns, n, semver_display v) = true)) →
  registry_ok db → registry_ok db'.
Proof.
  intros Hi' Hrows Hg [Hi Hwf Hown Hlat]. split; [done|..].
  - intros ns n s h [Hr _]%Hrows. by eapply Hwf.
  - intros ns n v w h [Hv _]%Hrows [Hw _]%Hrows. by eapply Hown.
  - intros ns n. destruct (Hg ns n) as [Hno|[Hgl Hgv]].
    + right. split; intros; rewrite Hrows, Hno; naive_solver.
    + destruct (Hlat ns n) as [(h & v & Hl & Hv & Hmax)|[Hl Hv]]; [left; exists h, v|right].
      * split; [by apply Hrows|]. split; [apply Hrows; eauto|]. intros w h' [Hw _]%Hrows. by eapply Hmax.
      * split; [intros h [Hr _]%Hrows; by eapply Hl|]. intros v h [Hr _]%Hrows. by eapply Hv.
Qed.

Lemma register_manifest_ok path h c : keeps registry_ok (register_manifest path h c).
Proof.
  apply keeps_bind.
  - apply keeps_modify. intros db Hr. eapply same_tags_ok; [|by split; apply Hr|exact Hr]. done.
  - intros _ db Hr. eapply same_tags_ok; [|by apply insert_manifest_integrity, Hr|exact Hr].
    unfold insert_manifest, modify. cbn. by case_bool_decide.
Qed.

Lemma insert_link_ok ns n h : keeps registry_ok (insert_link ns n h).
Proof.
  intros db Hr. eapply same_tags_ok; [|by apply insert_link_integrity, Hr|exact Hr].
  unfold insert_link. by repeat case_bool_decide.
Qed.

Lemma upsert_dev_ok now ns n h : keeps registry_ok (upsert now ns n DEV h).
Proof.
  intros db Hr. pose proof (upsert_set_row now ns n DEV h db) as Hs.
  pose proof (upsert_integrity now ns n DEV h db (reg_integrity _ Hr)) as Hi.
  destruct (upsert now ns n DEV h db) as [[[]|e| |] db']; [|by destruct Hs as [_ ->]|done..]. cbn in *.
  eapply (same_versions_ok db); [|done| |done].
  - intros ns' n' s h' Hd. rewrite (Hs _ _). naive_solver.
  - eapply set_row_wf; [exact Hs|by right; left|apply Hr].
Qed.

Lemma link_manifest_ok now ns n h : keeps registry_ok (link_manifest now ns n h).
Proof.
  apply keeps_transaction, keeps_bind.
  - by apply keeps_map_err, insert_link_ok.
  - intros _. by apply keeps_map_err, upsert_dev_ok.
Qed.

Definition other_dataset (ns : Namespace) (n : Name) (k : Namespace * Name * str) : bool := negb (bool_decide (k.1 = (ns, n))).
Definition other_key (k k' : Namespace * Name * str) : bool := negb (bool_decide (k' = k)).

Lemma delete_links_ok ns n : keeps registry_ok (unlink_dataset_manifests ns n).
Proof.
  intros db Hr. apply (removed_ok (other_dataset ns n) db); [by apply delete_links_integrity, Hr| | |done].
  - intros k h. apply (filter_rows (λ t, negb (of_dataset ns n t)) (other_dataset ns n)).
    intros t. f_equal. unfold of_dataset, other_dataset, tag_key. cbn. repeat case_bool_decide; naive_solver.
  - intros ns' n'. unfold other_dataset. cbn. case_bool_decide; [by left|by right].
Qed.

Lemma delete_version_ok ns n (v : V) : keeps registry_ok (delete_version_handler ns n v).
Proof.
  intros db Hr. unfold delete_version_handler, mbind, stm_bind, gets.
  destruct (resolve_version_hash ns n v db) as [h|] eqn:E; [|done].
  case_bool_decide as Hl; [done|]. unfold resolve_version_hash in E. apply get_version_hash_row in E; [|apply Hr].
  unfold map_err, delete_dataset_version_tag, delete_version, modify. cbn [snd].
  apply (removed_ok (other_key (ns, n, semver_display v)) db); [by apply delete_tags_integrity, Hr| | |done].
  - intros k h'. apply (filter_rows _ (other_key (ns, n, semver_display v))). intros t. unfold other_key. f_equal. apply eq_bool_prop_intro. by rewrite !Is_true_true, has_key_key, bool_decide_eq_true.
  - intros ns' n'. right. split.
    + apply negb_true_iff, bool_decide_eq_false. intros [= _ _ E']. by destruct (version_not_keyword v).
    + intros w h' Hlr Hw. apply negb_true_iff, bool_decide_eq_false. intros [= -> -> E'%display_inj]. subst w.
      apply Hl. rewrite (row_unique db _ h h' (reg_integrity _ Hr) E Hw). by apply get_version_hash_row; [apply Hr|].
Qed.

(** A count of the links that reads the tables, or fails. *)
Definition counts (count_links : Hash → stm Db PgError Z) : Prop :=
  ∀ h db, count_links h db = count_dataset_links h db \/ ∃ e, count_links h db = (Err e, db).

Lemma no_links_no_tags h db :
  integrity db → List.filter (λ l : Namespace * Name * Hash, bool_decide (l.2 = h)) (dataset_manifests db) = [] →
  List.filter (λ t, negb (bool_decide (tag_hash t = h))) (tags db) = tags db.
Proof.
  intros Hi Hnil. rewrite <- (filter_true (tags db)) at 2. apply List.filter_ext_in. intros t Ht%list_elem_of_In.
  apply negb_true_iff, bool_decide_eq_false. intros <-.
  assert (tag_link t ∈ []) as Hin; [|by apply elem_of_nil in Hin]. rewrite <- Hnil. apply elem_of_filter_bool.
  split; [by apply int_tag_links|]. by apply bool_decide_eq_true.
Qed.

Lemma delete_manifest_ok count_links h : counts count_links → keeps registry_ok (delete_manifest count_links h).
Proof.
  intros Hc db Hr. unfold delete_manifest, mbind, stm_bind, map_err.
  destruct (Hc h db) as [->|[e ->]]; [|done]. unfold count_dataset_links, gets.
  destruct (0 <? _) eqn:E; [done|]. apply Z.ltb_ge in E. cbn [delete_manifest_row].
  destruct (get_path_by_hash h db) as [p|] eqn:Ep; cbn; [|done].
  assert (List.filter (λ l : Namespace * Name * Hash, bool_decide (l.2 = h)) (dataset_manifests db) = []) as Hnil.
  { apply nil_length_inv. lia. }
  eapply same_tags_ok; [|apply remove_integrity; [apply Hr| |done]|exact Hr].
  - cbn. by apply no_links_no_tags; [apply Hr|].
  - intros l _ Hl f _ ->. done.
Qed.
End Latest.

(** ** The tables the operations reach *)

Section Steps.
Context {V : Type} `{SemverLaws V, OrdLaws V}.
Context (count_links : Hash → stm Db PgError Z) (store_path : Hash → str).

Definition empty : Db := mkDb [] [] [] [].

(** An operation, whatever it returns. The version that is set has a manifest of
    its own. *)
Inductive registry_step (db : Db) : Db → Prop :=
  | step_register h content : registry_step db (register_manifest store_path h content db).2
  | step_link now ns n h : registry_step db (link_manifest now ns n h db).2
  | step_unlink ns n : registry_step db (unlink_dataset_manifests ns n db).2
  | step_delete_manifest h : registry_step db (delete_manifest count_links h db).2
  | step_set_version now ns n (version : V) h :
      (∀ w, resolve_version_hash ns n w db = Some h → w = version) →
      registry_step db (set_dataset_version_tag now ns n version h db).2
  | step_delete_version ns n (version : V) : registry_step db (delete_version_handler ns n version db).2.

Lemma registry_step_ok db db' : counts count_links → registry_step db db' → registry_ok (V := V) db → registry_ok (V := V) db'.
Proof.
  intros Hc [] Hr; [by apply register_manifest_ok|by apply link_manifest_ok|by apply delete_links_ok
    |by apply delete_manifest_ok| |by apply delete_version_ok].
  assert (∀ w, row db (ns, n, semver_display w) h → w = version) as Hf.
  { intros w Hw. apply H3. by apply get_version_hash_row; [apply Hr|]. }
  pose proof (set_version_ok now ns n version h db Hf Hr) as Hs.
  destruct (set_dataset_version_tag now ns n version h db) as [[[]|e| |] db2]; naive_solver.
Qed.

Lemma empty_ok : registry_ok (V := V) empty.
Proof.
  split.
  - split; cbn; try apply NoDup_nil_2; intros ? Hin; by apply elem_of_nil in Hin.
  - intros ns n s h (t & Ht & _). by apply elem_of_nil in Ht.
  - intros ns n v w h (t & Ht & _). by apply elem_of_nil in Ht.
  - intros ns n. right. split; intros * (t & Ht & _); by apply elem_of_nil in Ht.
Qed.

Lemma reachable_ok db : counts count_links → rtc registry_step empty db → registry_ok (V := V) db.
Proof.
  intros Hc Hr. pose proof empty_ok as He. revert Hr He. generalize empty as db0. intros db0 Hr.
  induction Hr as [|a b c Hs _ IH]; [done|]. intros Ha. apply IH. by eapply registry_step_ok.
Qed.
End Steps.

(** ** The revisions of a dataset *)

Section Theorems.
Context {V : Type} `{SemverLaws V, OrdLaws V}.

(** C33: While each version of a dataset is set to a manifest of its own (every
    other operation is unrestricted, and may fail at any point), whatever
    sequence of registrations, links, unlinks, manifest deletions, version tags
    and version deletions produced the tables: the keys and references between
    them hold, and [latest] resolves to the manifest of the highest version of
    the dataset by semantic versioning, and to nothing exactly when the dataset
    has no version. So [set_dataset_version_tag] compares with the highest
    version, and [delete_version_handler] never removes it. *)
Theorem latest_is_highest (count_links : Hash → stm Db PgError Z) (store_path : Hash → str) db :
  counts count_links →
  rtc (registry_step (V := V) count_links store_path) empty db →
  integrity db /\
  ∀ fqn, match resolve_revision (mkReference fqn (RLatest (V := V))) db with
         | Some r => hash_ref_fqn r = fqn /\ ∃ v : V,
             resolve_version_hash (fqn_namespace fqn) (fqn_name fqn) v db = Some (hash_ref_hash r)
             /\ ∀ w h, resolve_version_hash (fqn_namespace fqn) (fqn_name fqn) w db = Some h → ord w v ≠ Gt
         | None => ∀ v : V, resolve_version_hash (fqn_namespace fqn) (fqn_name fqn) v db = None
         end.
Proof.
  intros Hc Hr. destruct (reachable_ok _ _ _ Hc Hr) as [Hi Hwf _ Hlat].
  split; [done|]. intros [ns n]. unfold resolve_revision, resolve_version_hash. cbn [ref_revision ref_fqn fqn_namespace fqn_name].
  destruct (Hlat ns n) as [(h & v & Hl & Hv & Hmax)|[Hl Hv]].
  - apply (get_version_hash_row _ _ _ _ _ Hi) in Hl, Hv. unfold get_latest_hash. rewrite Hl. cbn. split; [done|].
    exists v. split; [done|]. intros w h' Hw%get_version_hash_row; [|done]. by eapply Hmax.
  - unfold get_latest_hash. rewrite (proj2 (get_version_hash_none _ _ _ _ Hi) Hl). cbn. intros v.
    apply get_version_hash_none; [done|apply Hv].
Qed.

(** [set_dataset_version_tag] and [delete_version_handler] on every branch:
    a version can be tagged exactly with the manifests linked to the dataset;
    afterwards it resolves to that manifest. A version is deleted unless its
    manifest is the one [latest] resolves to, deleting an absent version is a
    success, and no other version changes. A refused operation changes nothing. *)
Theorem version_tags_set_and_deleted now ns n (version : V) h db :
  registry_ok (V := V) db →
  (∀ w, resolve_version_hash ns n w db = Some h → w = version) →
  match set_dataset_version_tag now ns n version h db with
  | (Ok _, db') => link_exists ns n h db = true /\ registry_ok (V := V) db' /\ resolve_version_hash ns n version db' = Some h
  | (Err e, db') => e = SetVersionMetadataDb ForeignKeyViolation /\ link_exists ns n h db = false /\ db' = db
  | _ => False
  end /\
  match delete_version_handler ns n version db with
  | (Ok _, db') => registry_ok (V := V) db' /\ resolve_version_hash ns n version db' = None
      /\ (resolve_version_hash ns n version db = None → db' = db)
      /\ ∀ w, w ≠ version → resolve_version_hash ns n w db' = resolve_version_hash ns n w db
  | (Err e, db') => e = CannotDeleteLatestVersion /\ db' = db
      /\ ∃ h', resolve_version_hash ns n version db = Some h' /\ get_latest_hash ns n db = Some h'
  | _ => False
  end.
Proof.
  intros Hr Hfresh. pose proof Hr as [Hi _ _ _]. split.
  - assert (∀ w, row db (ns, n, semver_display w) h → w = version) as Hf.
    { intros w Hw. apply Hfresh. by apply get_version_hash_row. }
    pose proof (set_version_ok now ns n version h db Hf Hr) as Hs. unfold link_exists.
    destruct (set_dataset_version_tag now ns n version h db) as [[[]|e| |] db'];
      [|destruct Hs as (-> & Hn & ->); by rewrite bool_decide_false|done..].
    destruct Hs as (Hlink & Hr' & Hrows). rewrite bool_decide_true by done. split_and!; [done..|].
    apply get_version_hash_row; [apply Hr'|]. apply Hrows. by left.
  - pose proof (delete_version_ok ns n version db Hr) as Hr'.
    unfold delete_version_handler, mbind, stm_bind, gets, map_err, delete_dataset_version_tag, delete_version, modify in *.
    destruct (resolve_version_hash ns n version db) as [h'|] eqn:E; [|by split_and!].
    case_bool_decide as Hl; [by split_and!; eauto|]. cbn in *. split; [done|]. split; [by apply find_removed|]. split; [done|].
    intros w Hw. apply find_kept. intros E'. by apply Hw, display_inj.
Qed.
End Theorems.

Lemma find_row {A} (g : A → Hash) (k k' : Hash) (l : list A) :
  List.find (λ f, bool_decide (g f = k')) (List.filter (λ f, negb (bool_decide (g f = k))) l)
  = if bool_decide (k' = k) then None else List.find (λ f, bool_decide (g f = k')) l.
Proof.
  case_bool_decide as Hk.
  - destruct (List.find _ _) as [x|] eqn:E; [|done]. apply List.find_some in E as [[_ Hn]%List.filter_In Hx].
    subst k'. by rewrite Hx in Hn.
  - apply find_filter. intros x ->%bool_decide_eq_true. by apply negb_true_iff, bool_decide_eq_false.
Qed.

(** [delete_manifest], with the links counted as the statement says but
    without its lock: it refuses exactly the manifests linked to a dataset, and
    changes nothing then; otherwise the manifest is gone, its file too, and
    links, version tags and every other manifest are as they were. With the
    lock of [count_dataset_links_for_update] PostgreSQL refuses the count, so
    that no manifest is ever deleted. *)
Theorem manifest_deletion h db :
  integrity db →
  delete_manifest count_dataset_links_for_update h db = (Err (MetadataDbCheckLinks FeatureNotSupported), db)
  /\ match delete_manifest count_dataset_links h db with
     | (Ok _, db') => (∀ l, l ∈ dataset_manifests db → l.2 ≠ h)
         /\ get_path_by_hash h db' = None /\ (∀ k, k ≠ h → get_path_by_hash k db' = get_path_by_hash k db)
         /\ dataset_manifests db' = dataset_manifests db /\ tags db' = tags db
         /\ ∀ p o, get_path_by_hash h db = Some p → o ∈ objects db' ↔ o ∈ objects db /\ o.1 ≠ p
     | (Err e, db') => e = ManifestLinked /\ db' = db /\ ∃ l, l ∈ dataset_manifests db /\ l.2 = h
     | _ => False
     end.
Proof.
  intros Hi. split; [done|]. unfold delete_manifest, mbind, stm_bind, map_err, count_dataset_links, gets.
  set (ls := List.filter _ (dataset_manifests db)). destruct (0 <? _) eqn:E.
  - apply Z.ltb_lt in E. split; [done|]. split; [done|]. destruct ls as [|l ls'] eqn:Els; [cbn in E; lia|].
    assert (l ∈ ls) as [Hin Hh]%elem_of_filter_bool by (rewrite Els; by left).
    exists l. split; [done|]. by apply bool_decide_eq_true in Hh.
  - apply Z.ltb_ge in E. assert (ls = []) as Hnil by (apply nil_length_inv; lia).
    assert (∀ l, l ∈ dataset_manifests db → l.2 ≠ h) as Hno.
    { intros l Hl Hh. assert (l ∈ ls) as Hin; [|rewrite Hnil in Hin; by apply elem_of_nil in Hin].
      apply elem_of_filter_bool. split; [done|]. by apply bool_decide_eq_true. }
    cbn [delete_manifest_row]. destruct (get_path_by_hash h db) as [p|] eqn:Ep; cbn.
    + split_and!; [done|..].
      * unfold get_path_by_hash. cbn. by rewrite (find_row fst), bool_decide_true.
      * intros k Hk. unfold get_path_by_hash. cbn. by rewrite (find_row fst), bool_decide_false.
      * rewrite <- (filter_true (dataset_manifests db)) at 2. apply List.filter_ext_in. intros l Hl%list_elem_of_In.
        by apply negb_true_iff, bool_decide_eq_false, Hno.
      * by apply no_links_no_tags.
      * intros q o [= <-]. by rewrite elem_of_filter_bool, negb_true_iff, bool_decide_eq_false.
    + by split_and!.
Qed.

(** ** Versions *)

Inductive demo_version := V1_0_0 | V1_5_0 | V2_0_0 | V9_0_0 | V10_0_0.

#[global] Instance demo_version_eq_dec : EqDecision demo_version.
Proof. solve_decision. Defined.

Definition demo_versions : list demo_version := [V1_0_0; V1_5_0; V2_0_0; V9_0_0; V10_0_0].

Definition demo_version_display (v : demo_version) : str :=
  match v with
  | V1_0_0 => lit "1.0.0" | V1_5_0 => lit "1.5.0" | V2_0_0 => lit "2.0.0" | V9_0_0 => lit "9.0.0" | V10_0_0 => lit "10.0.0"
  end.

Definition demo_version_rank (v : demo_version) : Z :=
  match v with V1_0_0 => 100 | V1_5_0 => 150 | V2_0_0 => 200 | V9_0_0 => 900 | V10_0_0 => 1000 end.

#[global] Instance demo_version_ord : Ord demo_version := ord_by demo_version_rank.

#[global] Instance demo_version_ord_laws : OrdLaws demo_version.
Proof. apply ord_by_laws. by intros [] []. Qed.

#[global] Instance demo_version_semver : Semver demo_version :=
  {| semver_display := demo_version_display;
     semver_parse := λ s, List.find (λ v, bool_decide (demo_version_display v = s)) demo_versions |}.

#[global] Instance demo_version_semver_laws : SemverLaws demo_version.
Proof.
  split.
  - by intros [].
  - intros s v [_ Hs]%List.find_some. by apply bool_decide_eq_true in Hs.
  - intros []; by apply (bool_decide_unpack _).
  - intros []; by apply (bool_decide_unpack _).
Qed.

Definition demo_fqn : FullyQualifiedName := mkFqn global (mkName (lit "eth_rpc")).
Definition demo_hash (c : Z) : Hash := mkHash (repeat c 64).
Definition demo_path (h : Hash) : str := hash_str h.

(** Manifests [97] and [98] linked to the dataset. *)
Definition demo_db : Db :=
  let ns := fqn_namespace demo_fqn in
  let n := fqn_name demo_fqn in
  let db := (register_manifest demo_path (demo_hash 97) (lit "{}") empty).2 in
  let db := (register_manifest demo_path (demo_hash 98) (lit "{}") db).2 in
  let db := (link_manifest 1 ns n (demo_hash 97) db).2 in
  (link_manifest 2 ns n (demo_hash 98) db).2.

Definition demo_set (now : Z) (v : demo_version) (c : Z) (db : Db) : Db :=
  (set_dataset_version_tag now (fqn_namespace demo_fqn) (fqn_name demo_fqn) v (demo_hash c) db).2.

Definition demo_latest (db : Db) : option Hash :=
  hash_ref_hash <$> resolve_revision (mkReference demo_fqn (RLatest (V := demo_version))) db.

Definition demo_listed (db : Db) : VersionsResponse (V := demo_version) :=
  list_versions_handler (fqn_namespace demo_fqn) (fqn_name demo_fqn) db.

(** Two versions with one manifest: [get_latest_for_update] takes the one that
    was tagged last for the latest, and [latest] goes back from 2.0.0 to 1.5.0. *)
Lemma shared_manifest_latest_goes_back :
  let db := demo_set 4 V1_0_0 97 (demo_set 3 V2_0_0 97 demo_db) in
  demo_latest db = Some (demo_hash 97) /\ demo_latest (demo_set 5 V1_5_0 98 db) = Some (demo_hash 98)
  /\ resolve_version_hash (fqn_namespace demo_fqn) (fqn_name demo_fqn) V2_0_0 (demo_set 5 V1_5_0 98 db) = Some (demo_hash 97).
Proof. vm_compute. split_and!; reflexivity. Qed.

(** The listing sorts the versions as texts: 9.0.0 is listed first, and as the
    latest, while [latest] resolves to 10.0.0. *)
Lemma listed_latest_is_not_latest :
  let db := demo_set 4 V10_0_0 98 (demo_set 3 V9_0_0 97 demo_db) in
  demo_latest db = Some (demo_hash 98)
  /\ special_latest (demo_listed db) = Some V9_0_0
  /\ (info_version <$> versions (demo_listed db)) = [V9_0_0; V10_0_0].
Proof. vm_compute. split_and!; reflexivity. Qed.

Lemma demo_db_reachable count_links : rtc (registry_step (V := demo_version) count_links demo_path) empty demo_db.
Proof.
  eapply rtc_l; [apply step_register|]. eapply rtc_l; [apply step_register|].
  eapply rtc_l; [apply step_link|]. eapply rtc_once, step_link.
Qed.

Definition demo_tagged : Db := demo_set 4 V10_0_0 98 (demo_set 3 V9_0_0 97 demo_db).

Lemma demo_tagged_reachable count_links :
  rtc (registry_step (V := demo_version) count_links demo_path) empty demo_tagged.
Proof.
  etrans; [apply demo_db_reachable|]. eapply rtc_l; [|apply rtc_once].
  - apply (step_set_version count_links demo_path demo_db 3 global (mkName (lit "eth_rpc")) V9_0_0 (demo_hash 97)).
    intros []; vm_compute; congruence.
  - apply (step_set_version count_links demo_path (demo_set 3 V9_0_0 97 demo_db) 4 global (mkName (lit "eth_rpc")) V10_0_0 (demo_hash 98)).
    intros []; vm_compute; congruence.
Qed.

Lemma for_update_counts : counts count_dataset_links_for_update.
Proof. intros h db. right. by eexists. Qed.

Lemma demo_tagged_ok : registry_ok (V := demo_version) demo_tagged.
Proof. eapply reachable_ok; [apply for_update_counts|apply demo_tagged_reachable]. Qed.

Lemma demo_resolves :
  resolve_revision (mkReference demo_fqn (RLatest (V := demo_version))) demo_tagged
  = Some (mkHashReference demo_fqn (demo_hash 98)).
Proof. vm_compute. reflexivity. Qed.

Lemma latest_is_highest_witness :
  ∃ v : demo_version,
    resolve_version_hash (fqn_namespace demo_fqn) (fqn_name demo_fqn) v demo_tagged = Some (demo_hash 98)
    /\ ∀ w h, resolve_version_hash (fqn_namespace demo_fqn) (fqn_name demo_fqn) w demo_tagged = Some h → ord w v ≠ Gt.
Proof.
  destruct (latest_is_highest (V := demo_version) count_dataset_links_for_update demo_path demo_tagged
    for_update_counts (demo_tagged_reachable _)) as [_ Hl].
  specialize (Hl demo_fqn). rewrite demo_resolves in Hl. destruct Hl as [_ Hl]. exact Hl.
Defined.

Definition demo_deleted : Db := (delete_version_handler (fqn_namespace demo_fqn) (fqn_name demo_fqn) V9_0_0 demo_tagged).2.

Lemma demo_set_again :
  set_dataset_version_tag 5 (fqn_namespace demo_fqn) (fqn_name demo_fqn) V9_0_0 (demo_hash 97) demo_tagged = (Ok tt, demo_tagged).
Proof. vm_compute. reflexivity. Qed.

Lemma demo_deletes :
  delete_version_handler (fqn_namespace demo_fqn) (fqn_name demo_fqn) V9_0_0 demo_tagged = (Ok tt, demo_deleted).
Proof. vm_compute. reflexivity. Qed.

Lemma version_tags_set_and_deleted_witness :
  resolve_version_hash (fqn_namespace demo_fqn) (fqn_name demo_fqn) V9_0_0 demo_tagged = Some (demo_hash 97)
  /\ registry_ok (V := demo_version) demo_deleted
  /\ resolve_version_hash (fqn_namespace demo_fqn) (fqn_name demo_fqn) V9_0_0 demo_deleted = None.
Proof.
  destruct (version_tags_set_and_deleted 5 (fqn_namespace demo_fqn) (fqn_name demo_fqn) V9_0_0 (demo_hash 97) demo_tagged)
    as [Hs Hd]; [apply demo_tagged_ok|intros []; vm_compute; congruence|].
  rewrite demo_set_again in Hs. rewrite demo_deletes in Hd. destruct Hs as (_ & _ & Hs), Hd as (Hr & Hd & _).
  split; [exact Hs|]. split; [exact Hr|exact Hd].
Defined.

Lemma demo_delete_refused :
  delete_manifest count_dataset_links (demo_hash 97) demo_tagged = (Err ManifestLinked, demo_tagged).
Proof. vm_compute. reflexivity. Qed.

Lemma manifest_deletion_witness :
  integrity demo_tagged
  /\ ∃ l, l ∈ dataset_manifests demo_tagged /\ l.2 = demo_hash 97.
Proof.
  pose proof (reg_integrity _ demo_tagged_ok) as Hi. split; [exact Hi|].
  destruct (manifest_deletion (demo_hash 97) demo_tagged Hi) as [_ Hm]. rewrite demo_delete_refused in Hm.
  destruct Hm as (_ & _ & Hm). exact Hm.
Defined.
