(* ===== verification/Jobs.v ===== *)
(** * Jobs

    The job queue kept in the metadata database
    (core/metadata-db/src/jobs.rs, jobs/job_status.rs, jobs/sql.rs,
    job_attempts.rs, job_attempts/sql.rs): the rows of the tables [jobs],
    [job_attempts] and [physical_tables], one definition per SQL statement, the
    operations built from them, and the step relation of the statements that
    concurrent schedulers and workers issue. *)

From stdpp Require Import base numbers gmap strings option fin_maps list sorting.
From Stdlib Require Import ZArith Lia Ascii.
From S2P Require Import Prelude Text EndBlock.

(** ** Statuses *)

Inductive JobStatus :=
  | Scheduled
  | Running
  | Completed
  | Stopped
  | StopRequested
  | Stopping
  | Failed
  | Unknown.

#[global] Instance JobStatus_eq_dec : EqDecision JobStatus.
Proof. solve_decision. Defined.

(** [JobStatus::default()] *)
Definition status_default : JobStatus := Scheduled.

Definition as_str (s : JobStatus) : string :=
  match s with
  | Scheduled => "SCHEDULED"
  | Running => "RUNNING"
  | Completed => "COMPLETED"
  | Stopped => "STOPPED"
  | StopRequested => "STOP_REQUESTED"
  | Stopping => "STOPPING"
  | Failed => "FAILED"
  | Unknown => "UNKNOWN"
  end.

Definition is_terminal (s : JobStatus) : bool :=
  match s with Completed | Stopped | Failed => true | _ => false end.

Definition terminal_statuses : list JobStatus := [Completed; Stopped; Failed].

Definition non_terminal_statuses : list JobStatus :=
  [Scheduled; Running; StopRequested; Stopping].

(** [char::to_ascii_lowercase] *)
Definition to_ascii_lowercase (c : ascii) : ascii :=
  let n := N_of_ascii c in
  if (65 <=? Z.of_N n) && (Z.of_N n <=? 90) then ascii_of_N (n + 32) else c.

Fixpoint eq_ignore_ascii_case (s t : string) : bool :=
  match s, t with
  | EmptyString, EmptyString => true
  | String c s', String d t' =>
      bool_decide (to_ascii_lowercase c = to_ascii_lowercase d) && eq_ignore_ascii_case s' t'
  | _, _ => false
  end.

Definition status_from_str (s : string) : JobStatus :=
  if eq_ignore_ascii_case s "SCHEDULED" then Scheduled
  else if eq_ignore_ascii_case s "RUNNING" then Running
  else if eq_ignore_ascii_case s "COMPLETED" then Completed
  else if eq_ignore_ascii_case s "STOPPED" then Stopped
  else if eq_ignore_ascii_case s "STOP_REQUESTED" then StopRequested
  else if eq_ignore_ascii_case s "STOPPING" then Stopping
  else if eq_ignore_ascii_case s "FAILED" then Failed
  else Unknown.

(** ** Rows *)

(** The descriptor column holds JSON; [Dump] is the one shape the worker
    parses. The dataset kind is kept as its name. *)
Inductive JobDescriptor :=
  | Dump (end_block : EndBlock) (max_writers : Z)
      (dataset_namespace dataset_name manifest_hash dataset_kind : string)
  | OtherJson.

(** Timestamps are in microseconds. *)
Record Job := mkJob {
  job_id : Z;
  node_id : string;
  status : JobStatus;
  desc : JobDescriptor;
  created_at : Z;
  updated_at : Z
}.

Record JobAttempt := mkAttempt {
  attempt_job_id : Z;
  retry_index : Z;
  attempt_created_at : Z;
  completed_at : option Z
}.

(** The columns of [physical_tables] the queue uses. *)
Record TableRow := mkTable { table_manifest_hash : string; writer : option Z }.

Inductive JobAction := ActionStart | ActionStop.

Record JobNotification := mkNotif { notif_job_id : Z; action : JobAction }.

(** The database: jobs by identifier with the identity sequence, attempts by
    their primary key, tables by location, the last heartbeat of each worker
    node, and the notifications sent so far to each node. *)
Record Db := mkDb {
  jobs : gmap Z Job;
  next_job_id : Z;
  attempts : gmap (Z * Z) JobAttempt;
  physical_tables : gmap Z TableRow;
  workers : gmap string Z;
  notifs : list (string * JobNotification)
}.

Definition set_jobs (f : gmap Z Job → gmap Z Job) (db : Db) : Db :=
  mkDb (f (jobs db)) (next_job_id db) (attempts db) (physical_tables db) (workers db) (notifs db).
Definition set_attempts (f : gmap (Z * Z) JobAttempt → gmap (Z * Z) JobAttempt) (db : Db) : Db :=
  mkDb (jobs db) (next_job_id db) (f (attempts db)) (physical_tables db) (workers db) (notifs db).
Definition set_tables (f : gmap Z TableRow → gmap Z TableRow) (db : Db) : Db :=
  mkDb (jobs db) (next_job_id db) (attempts db) (f (physical_tables db)) (workers db) (notifs db).
Definition set_workers (f : gmap string Z → gmap string Z) (db : Db) : Db :=
  mkDb (jobs db) (next_job_id db) (attempts db) (physical_tables db) (f (workers db)) (notifs db).
Definition set_notifs (f : list (string * JobNotification) → list (string * JobNotification))
    (db : Db) : Db :=
  mkDb (jobs db) (next_job_id db) (attempts db) (physical_tables db) (workers db) (f (notifs db)).

Definition set_status (now : Z) (new_status : JobStatus) (j : Job) : Job :=
  mkJob (job_id j) (node_id j) new_status (desc j) (created_at j) now.

Inductive JobStatusUpdateError :=
  | NotFound
  | StateConflict (expected : list JobStatus) (actual : JobStatus).

(** [metadata_db::Error]: an update that did not apply, or an error of the
    database (here: a violated constraint, a bad limit). *)
Inductive Error :=
  | JobStatusUpdate (e : JobStatusUpdateError)
  | Database.


(** ** Statements on jobs (jobs/sql.rs) *)

(** A transaction: on an error everything it did is rolled back. *)
Definition transaction {E A} (m : stm Db E A) : stm Db E A := λ db,
  match m db with
  | (Ok a, db') => (Ok a, db')
  | (r, _) => (r, db)
  end.

(** [INSERT INTO jobs]: the identifier comes from the identity sequence, and
    the node must be a registered worker. *)
Definition insert (now : Z) (node : string) (descriptor : JobDescriptor) (s : JobStatus)
    : stm Db Error Z := λ db,
  let i := next_job_id db in
  let db1 := mkDb (jobs db) (i + 1) (attempts db) (physical_tables db) (workers db) (notifs db) in
  match workers db !! node with
  | None => (Err Database, db1)
  | Some _ => (Ok i, set_jobs <[i := mkJob i node s descriptor now now]> db1)
  end.

Definition insert_with_default_status (now : Z) (node : string) (descriptor : JobDescriptor) :=
  insert now node descriptor status_default.

Definition update_status_if_any_state (now : Z) (i : Z) (expected : list JobStatus)
    (new_status : JobStatus) : stm Db JobStatusUpdateError unit := λ db,
  match jobs db !! i with
  | None => (Err NotFound, db)
  | Some j =>
      if bool_decide (status j ∈ expected)
      then (Ok tt, set_jobs <[i := set_status now new_status j]> db)
      else (Err (StateConflict expected (status j)), db)
  end.

Definition get_by_id (i : Z) (db : Db) : option Job := jobs db !! i.

(** The rows that satisfy [p], [ORDER BY id ASC]. *)
Definition select_jobs (p : Job → bool) (db : Db) : list Job :=
  sort_by_key job_id (filter (λ j, p j = true) (map_to_list (jobs db)).*2).

Definition get_by_node_id_and_statuses (node : string) (sts : list JobStatus) (db : Db) : list Job :=
  select_jobs (λ j, bool_decide (node_id j = node) && bool_decide (status j ∈ sts)) db.

(** [SELECT DISTINCT] over the join of the jobs with the tables they write. *)
Definition get_jobs_by_dataset (manifest_hash : string) (db : Db) : list Job :=
  select_jobs (λ j, existsb
    (λ t, bool_decide (writer t = Some (job_id j)) && (table_manifest_hash t =? manifest_hash)%string)
    (map_to_list (physical_tables db)).*2) db.

Definition list_by_dataset_reference (ns name hash : string) (db : Db) : list Job :=
  select_jobs (λ j,
    match desc j with
    | Dump _ _ n m h _ => ((n =? ns) && (m =? name) && (h =? hash))%string
    | OtherJson => false
    end) db.

(** [DELETE FROM jobs] of one row: its attempts go with it, and the tables it
    wrote lose their writer. *)
Definition delete_row (i : Z) (db : Db) : Db :=
  set_tables (fmap (λ t, if bool_decide (writer t = Some i)
                         then mkTable (table_manifest_hash t) None else t))
    (set_attempts (filter (λ kv, kv.1.1 ≠ i))
      (set_jobs (delete i) db)).

Definition delete_by_id_and_statuses (i : Z) (sts : list JobStatus) : stm Db Error bool := λ db,
  match jobs db !! i with
  | Some j => if bool_decide (status j ∈ sts) then (Ok true, delete_row i db) else (Ok false, db)
  | None => (Ok false, db)
  end.

Definition delete_by_status (sts : list JobStatus) : stm Db Error nat := λ db,
  let rows := select_jobs (λ j, bool_decide (status j ∈ sts)) db in
  (Ok (length rows), foldr (λ j, delete_row (job_id j)) db rows).

(** [LIMIT]: a negative one is an error. *)
Definition limited (limit : Z) (l : list Job) : comp Error (list Job) :=
  if limit <? 0 then Err Database else Ok (take (Z.to_nat limit) l).

Definition has_status (sts : option (list JobStatus)) (j : Job) : bool :=
  match sts with None => true | Some l => bool_decide (status j ∈ l) end.

Definition list_first_page (limit : Z) (sts : option (list JobStatus)) (db : Db)
    : comp Error (list Job) :=
  limited limit (reverse (select_jobs (has_status sts) db)).

Definition list_next_page (limit last_job_id : Z) (sts : option (list JobStatus)) (db : Db)
    : comp Error (list Job) :=
  limited limit (reverse (select_jobs (λ j, (job_id j <? last_job_id) && has_status sts j) db)).

(** ** Statements on attempts (job_attempts/sql.rs) *)

(** The primary key is the pair, and the job must exist. *)
Definition insert_attempt (now i idx : Z) : stm Db Error unit := λ db,
  match jobs db !! i, attempts db !! (i, idx) with
  | Some _, None => (Ok tt, set_attempts <[(i, idx) := mkAttempt i idx now None]> db)
  | _, _ => (Err Database, db)
  end.

Definition mark_attempt_completed (now i idx : Z) : stm Db Error unit :=
  modify (set_attempts (alter
    (λ a, mkAttempt (attempt_job_id a) (retry_index a) (attempt_created_at a) (Some now)) (i, idx))).

Definition get_attempts_for_job (i : Z) (db : Db) : list JobAttempt :=
  sort_by_key retry_index (filter (λ a, attempt_job_id a = i) (map_to_list (attempts db)).*2).

(** ** Retries *)

Record JobWithRetryInfo := mkRetry { job : Job; next_retry_index : Z }.

(** [COALESCE(MAX(ja.retry_index), -1) + 1] *)
Definition next_index (i : Z) (db : Db) : Z :=
  default (-1) (list_max (retry_index <$> get_attempts_for_job i db)) + 1.

(** [INTERVAL '1 second' * POW(2, n)], in microseconds. *)
Definition backoff (n : Z) : Z := 1000000 * 2 ^ n.

Definition get_failed_jobs_ready_for_retry (now : Z) (db : Db) : list JobWithRetryInfo :=
  (λ j, mkRetry j (next_index (job_id j) db)) <$>
    select_jobs (λ j, bool_decide (status j = Failed)
                      && (updated_at j + backoff (next_index (job_id j) db) <=? now)) db.

(** [UPDATE jobs SET status = 'SCHEDULED' ... WHERE id = $1]: whatever the
    status was, and without an error when there is no such job. *)
Definition sql_reschedule (now i : Z) (new_node_id : string) : stm Db Error unit :=
  modify (set_jobs (alter
    (λ j, mkJob (job_id j) new_node_id Scheduled (desc j) (created_at j) now) i)).

(** ** Operations (jobs.rs) *)

Definition register (now : Z) (node : string) (job_desc : JobDescriptor) : stm Db Error Z :=
  insert_with_default_status now node job_desc.

Definition request_stop (now i : Z) : stm Db Error unit := λ db,
  match update_status_if_any_state now i [Running; Scheduled] StopRequested db with
  | (Err (StateConflict _ (StopRequested | Stopping)), db') => (Ok tt, db')
  | (Err e, db') => (Err (JobStatusUpdate e), db')
  | (Ok _, db') => (Ok tt, db')
  | (Panic, db') => (Panic, db')
  | (OutOfFuel, db') => (OutOfFuel, db')
  end.

Definition list_jobs (limit : Z) (last_job_id : option Z) (sts : option (list JobStatus)) (db : Db)
    : comp Error (list Job) :=
  match last_job_id with
  | None => list_first_page limit sts db
  | Some i => list_next_page limit i sts db
  end.

Definition get_scheduled (node : string) (db : Db) : list Job :=
  get_by_node_id_and_statuses node [Scheduled; Running] db.

Definition get_active (node : string) (db : Db) : list Job :=
  get_by_node_id_and_statuses node [Scheduled; Running; StopRequested] db.

Definition mark_running (now i : Z) : stm Db Error unit :=
  map_err JobStatusUpdate (update_status_if_any_state now i [Scheduled] Running).
Definition mark_stopping (now i : Z) : stm Db Error unit :=
  map_err JobStatusUpdate (update_status_if_any_state now i [StopRequested] Stopping).
Definition mark_stopped (now i : Z) : stm Db Error unit :=
  map_err JobStatusUpdate (update_status_if_any_state now i [Stopping] Stopped).
Definition mark_completed (now i : Z) : stm Db Error unit :=
  map_err JobStatusUpdate (update_status_if_any_state now i [Running] Completed).
Definition mark_failed (now i : Z) : stm Db Error unit :=
  map_err JobStatusUpdate (update_status_if_any_state now i [Scheduled; Running] Failed).

Definition delete_if_terminal (i : Z) : stm Db Error bool :=
  delete_by_id_and_statuses i terminal_statuses.

Definition delete_all_by_status (sts : list JobStatus) : stm Db Error nat := delete_by_status sts.

Definition reschedule (now i : Z) (new_node_id : string) (idx : Z) : stm Db Error unit :=
  transaction (
    _ ← sql_reschedule now i new_node_id;
    insert_attempt now i idx).

(** ** Statements on workers and tables *)

Definition register_worker (now : Z) (node : string) : stm Db Error unit :=
  modify (set_workers <[node := now]>).

Definition update_heartbeat (now : Z) (node : string) : stm Db Error unit :=
  modify (set_workers (alter (λ _, now) node)).

(** The rows come in no particular order. *)
Definition list_active (now interval : Z) (db : Db) : list string :=
  (filter (λ kv, now - interval < kv.2) (map_to_list (workers db))).*1.

Definition send_job_notif (node : string) (n : JobNotification) : stm Db Error unit :=
  modify (set_notifs (λ l, l ++ [(node, n)])).

(** [UPDATE physical_tables SET writer]: the job must exist when a row matches. *)
Definition assign_job_writer (locations : list Z) (i : Z) : stm Db Error unit := λ db,
  let updated := map_imap (λ l t, Some (if bool_decide (l ∈ locations)
                                        then mkTable (table_manifest_hash t) (Some i) else t))
                          (physical_tables db) in
  if bool_decide (jobs db !! i = None)
     && existsb (λ l, bool_decide (is_Some (physical_tables db !! l))) locations
  then (Err Database, db)
  else (Ok tt, set_tables (λ _, updated) db).

(** ** Concurrent statements

    Postgres runs each statement (or transaction) atomically, and those of the
    schedulers and workers interleave in any order. A retry is the only one
    whose arguments come from an earlier read: [pending] holds the pairs of job
    and retry index read by the scans of all schedulers so far, and a retry may
    be issued for any of them, at any later time and any number of times. *)

Inductive Stmt :=
  | SRegisterWorker (now : Z) (node : string)
  | SHeartbeat (now : Z) (node : string)
  | SRegister (now : Z) (node : string) (d : JobDescriptor)
  | SRequestStop (now i : Z)
  | SMarkRunning (now i : Z)
  | SMarkStopping (now i : Z)
  | SMarkStopped (now i : Z)
  | SMarkCompleted (now i : Z)
  | SMarkFailed (now i : Z)
  | SAttemptCompleted (now i idx : Z)
  | SDeleteIfTerminal (i : Z)
  | SDeleteAll (sts : list JobStatus)
  | SAssignWriter (locations : list Z) (i : Z)
  | SNotify (node : string) (n : JobNotification)
  | SReschedule (now i : Z) (node : string) (idx : Z).

Definition exec (s : Stmt) (db : Db) : Db :=
  match s with
  | SRegisterWorker now node => (register_worker now node db).2
  | SHeartbeat now node => (update_heartbeat now node db).2
  | SRegister now node d => (register now node d db).2
  | SRequestStop now i => (request_stop now i db).2
  | SMarkRunning now i => (mark_running now i db).2
  | SMarkStopping now i => (mark_stopping now i db).2
  | SMarkStopped now i => (mark_stopped now i db).2
  | SMarkCompleted now i => (mark_completed now i db).2
  | SMarkFailed now i => (mark_failed now i db).2
  | SAttemptCompleted now i idx => (mark_attempt_completed now i idx db).2
  | SDeleteIfTerminal i => (delete_if_terminal i db).2
  | SDeleteAll sts => (delete_all_by_status sts db).2
  | SAssignWriter locations i => (assign_job_writer locations i db).2
  | SNotify node n => (send_job_notif node n db).2
  | SReschedule now i node idx => (reschedule now i node idx db).2
  end.

Record Queue := mkQueue { db : Db; pending : list (Z * Z) }.

(** Jobs are deleted by status in terminal statuses only, and rescheduled with
    what a scan returned. *)
Definition issued (p : list (Z * Z)) (s : Stmt) : Prop :=
  match s with
  | SDeleteAll sts => sts ⊆ terminal_statuses
  | SReschedule _ i _ idx => (i, idx) ∈ p
  | _ => True
  end.

Definition scanned (now : Z) (d : Db) : list (Z * Z) :=
  (λ r, (job_id (job r), next_retry_index r)) <$> get_failed_jobs_ready_for_retry now d.

Inductive step : Queue → Queue → Prop :=
  | step_stmt q s : issued (pending q) s → step q (mkQueue (exec s (db q)) (pending q))
  | step_scan q now : step q (mkQueue (db q) (scanned now (db q) ++ pending q)).

Definition empty_db : Db := mkDb ∅ 1 ∅ ∅ ∅ [].

Definition reachable (q : Queue) : Prop := rtc step (mkQueue empty_db []) q.

(** The edges of the life cycle of a job. *)
Definition lifecycle_edge (a b : JobStatus) : bool :=
  match a, b with
  | Scheduled, (Running | StopRequested | Failed) => true
  | Running, (StopRequested | Completed | Failed) => true
  | StopRequested, Stopping => true
  | Stopping, Stopped => true
  | Failed, Scheduled => true
  | _, _ => false
  end.

(** ** What a statement changes *)

Record db_wf (d : Db) : Prop := {
  wf_job_key i j : jobs d !! i = Some j → job_id j = i;
  wf_job_fresh i : is_Some (jobs d !! i) → i < next_job_id d;
  wf_attempt_key k a : attempts d !! k = Some a → k = (attempt_job_id a, retry_index a);
  wf_attempt_job k : is_Some (attempts d !! k) → is_Some (jobs d !! k.1)
}.

(** The effects on jobs and attempts, up to the columns that play no part in
    the life cycle. *)
Inductive change (p : list (Z * Z)) (d d' : Db) : Prop :=
  | change_none :
      jobs d' = jobs d → next_job_id d <= next_job_id d' →
      (∀ k, (λ a, (attempt_job_id a, retry_index a)) <$> attempts d' !! k
            = (λ a, (attempt_job_id a, retry_index a)) <$> attempts d !! k) → change p d d'
  | change_status i j now s :
      jobs d !! i = Some j → lifecycle_edge (status j) s = true → status j ≠ Failed →
      jobs d' = <[i := set_status now s j]> (jobs d) → next_job_id d' = next_job_id d →
      attempts d' = attempts d → change p d d'
  | change_insert j :
      status j = Scheduled → job_id j = next_job_id d →
      jobs d' = <[next_job_id d := j]> (jobs d) → next_job_id d' = next_job_id d + 1 →
      attempts d' = attempts d → change p d d'
  | change_delete (gone : list Z) :
      (∀ i j, i ∈ gone → jobs d !! i = Some j → is_terminal (status j) = true) →
      (∀ i, jobs d' !! i = if bool_decide (i ∈ gone) then None else jobs d !! i) →
      (∀ k, attempts d' !! k = if bool_decide (k.1 ∈ gone) then None else attempts d !! k) →
      next_job_id d' = next_job_id d → change p d d'
  | change_retry i j idx now node :
      (i, idx) ∈ p → jobs d !! i = Some j → attempts d !! (i, idx) = None →
      jobs d' = <[i := mkJob (job_id j) node Scheduled (desc j) (created_at j) now]> (jobs d) →
      attempts d' = <[(i, idx) := mkAttempt i idx now None]> (attempts d) →
      next_job_id d' = next_job_id d → change p d d'.

Lemma change_refl p d : change p d d.
Proof. apply change_none; [done|lia|done]. Qed.

Lemma select_jobs_elem p d j :
  j ∈ select_jobs p d ↔ p j = true /\ ∃ i, jobs d !! i = Some j.
Proof.
  unfold select_jobs. rewrite sort_by_key_perm, list_elem_of_filter, list_elem_of_fmap.
  split.
  - intros [Hp ((i & j') & -> & Hin)]. split; [done|]. exists i. by apply elem_of_map_to_list.
  - intros [Hp [i Hi]]. split; [done|]. exists (i, j). split; [done|]. by apply elem_of_map_to_list.
Qed.

Lemma change_update p now i expected s d :
  (∀ a, a ∈ expected → lifecycle_edge a s = true /\ a ≠ Failed) →
  change p d (update_status_if_any_state now i expected s d).2.
Proof.
  intros He. unfold update_status_if_any_state. destruct (jobs d !! i) as [j|] eqn:Hj; [|apply change_refl].
  case_bool_decide as Hin; [|apply change_refl]. destruct (He _ Hin) as [? ?].
  by eapply (change_status p d _ i j now s).
Qed.

Lemma map_err_snd {S E E' A} (f : E → E') (m : stm S E A) s : (map_err f m s).2 = (m s).2.
Proof. unfold map_err. by destruct (m s) as [[]]. Qed.

Lemma request_stop_snd now i d :
  (request_stop now i d).2 = (update_status_if_any_state now i [Running; Scheduled] StopRequested d).2.
Proof.
  unfold request_stop. destruct (update_status_if_any_state _ _ _ _ _) as [[?|[|? []]| |] ?]; done.
Qed.

Lemma delete_rows_lookup l d :
  (∀ i, jobs (foldr (λ j, delete_row (job_id j)) d l) !! i
        = if bool_decide (i ∈ job_id <$> l) then None else jobs d !! i) /\
  (∀ k, attempts (foldr (λ j, delete_row (job_id j)) d l) !! k
        = if bool_decide (k.1 ∈ job_id <$> l) then None else attempts d !! k) /\
  next_job_id (foldr (λ j, delete_row (job_id j)) d l) = next_job_id d.
Proof.
  induction l as [|j l (IHj & IHa & IHn)]; [done|].
  cbn [foldr fmap list_fmap]. split; [|split; [|exact IHn]].
  - intros i. cbn [delete_row set_tables set_attempts set_jobs jobs].
    destruct (decide (i = job_id j)) as [->|Hne].
    + rewrite lookup_delete_eq. rewrite bool_decide_true; [done|by left].
    + rewrite lookup_delete_ne by done. rewrite IHj.
      rewrite (bool_decide_ext (i ∈ job_id j :: (job_id <$> l)) (i ∈ job_id <$> l)); [done|].
      rewrite elem_of_cons. naive_solver.
  - intros [i n]. cbn [delete_row set_tables set_attempts set_jobs attempts fst].
    rewrite map_lookup_filter, IHa. cbn [fst].
    destruct (decide (i = job_id j)) as [->|Hne].
    + rewrite (bool_decide_true (job_id j ∈ _ :: _)) by (by left).
      case_bool_decide; [done|]. destruct (attempts d !! _); cbn; [|done].
      rewrite option_guard_False; [done|naive_solver].
    + rewrite (bool_decide_ext (i ∈ job_id j :: (job_id <$> l)) (i ∈ job_id <$> l)).
      2:{ rewrite elem_of_cons. naive_solver. }
      case_bool_decide; [done|]. destruct (attempts d !! (i, n)); cbn; [|done].
      by rewrite option_guard_True.
Qed.

Lemma change_delete_row p i j d :
  jobs d !! i = Some j → is_terminal (status j) = true → change p d (delete_row i d).
Proof.
  intros Hj Ht. pose proof (delete_rows_lookup [mkJob i "" Scheduled OtherJson 0 0] d) as (Hd1 & Hd2 & Hd3).
  cbn [foldr job_id fmap list_fmap] in *. apply (change_delete _ _ _ [i]); [|done..].
  intros i' j' ->%list_elem_of_singleton. rewrite Hj. by intros [= <-].
Qed.

Lemma is_terminal_in s : is_terminal s = true ↔ s ∈ terminal_statuses.
Proof. unfold terminal_statuses. destruct s; cbn; split; intros H; try done; repeat (apply elem_of_cons in H as [H|H]; [done|]) || set_solver. Qed.

Lemma change_delete_all p sts d :
  db_wf d → sts ⊆ terminal_statuses → change p d (delete_all_by_status sts d).2.
Proof.
  intros Hwf Hsub. cbn [delete_all_by_status delete_by_status snd].
  set (l := select_jobs _ d). pose proof (delete_rows_lookup l d) as (H1 & H2 & H3).
  apply (change_delete _ _ _ (job_id <$> l)); [|done..].
  intros i j Hi Hj. apply list_elem_of_fmap in Hi as (j' & -> & Hl).
  apply select_jobs_elem in Hl as [Hp [i' Hi']].
  rewrite (wf_job_key d Hwf _ _ Hi') in Hj. rewrite Hi' in Hj. injection Hj as <-.
  apply bool_decide_eq_true in Hp. by apply is_terminal_in, Hsub.
Qed.

Lemma change_attempt_completed p now i idx d : change p d (mark_attempt_completed now i idx d).2.
Proof.
  apply change_none; [done|cbn; lia|]. intros k. cbn [mark_attempt_completed modify snd set_attempts attempts].
  destruct (decide (k = (i, idx))) as [->|Hne].
  - rewrite lookup_alter_eq. by destruct (attempts d !! _).
  - by rewrite lookup_alter_ne.
Qed.

Lemma jobs_set_jobs f d : jobs (set_jobs f d) = f (jobs d).
Proof. done. Qed.

Lemma jobs_set_attempts f d : jobs (set_attempts f d) = jobs d.
Proof. done. Qed.

Lemma attempts_set_jobs f d : attempts (set_jobs f d) = attempts d.
Proof. done. Qed.

Lemma reschedule_cases now i node idx d :
  (∃ j, jobs d !! i = Some j /\ attempts d !! (i, idx) = None /\
     reschedule now i node idx d =
       (Ok tt, set_attempts <[(i, idx) := mkAttempt i idx now None]>
         (set_jobs (alter (λ j, mkJob (job_id j) node Scheduled (desc j) (created_at j) now) i) d)))
  \/ ((jobs d !! i = None \/ is_Some (attempts d !! (i, idx))) /\
     reschedule now i node idx d = (Err Database, d)).
Proof.
  unfold reschedule, transaction, sql_reschedule, modify, insert_attempt, mbind, stm_bind.
  cbv beta iota. rewrite jobs_set_jobs, attempts_set_jobs, lookup_alter_eq.
  destruct (jobs d !! i) as [j|] eqn:Hj; cbn [fmap option_fmap option_map]; [|right; eauto].
  destruct (attempts d !! (i, idx)) as [a|] eqn:Ha; [right; eauto|].
  left. exists j. done.
Qed.

Lemma change_reschedule p now i node idx d :
  (i, idx) ∈ p → change p d (reschedule now i node idx d).2.
Proof.
  intros Hp.
  destruct (reschedule_cases now i node idx d) as [(j & Hj & Ha & ->)|[_ ->]]; [|apply change_refl].
  apply (change_retry _ _ _ i j idx now node); try done. cbn. apply map_eq. intros k.
  destruct (decide (k = i)) as [->|].
  - by rewrite lookup_alter_eq, lookup_insert_eq, Hj.
  - by rewrite lookup_alter_ne, lookup_insert_ne.
Qed.

(** Every statement that is issued has one of the effects above. *)
Lemma change_exec p s d : db_wf d → issued p s → change p d (exec s d).
Proof.
  intros Hwf Hi. destruct s; cbn [exec issued] in *.
  - apply change_none; [done|cbn; lia|done].
  - apply change_none; [done|cbn; lia|done].
  - unfold register, insert_with_default_status, insert. destruct (workers d !! node); cbn [snd].
    + match goal with |- context [<[_ := ?j]>] => by apply (change_insert _ _ _ j) end.
    + apply change_none; [done|cbn; lia|done].
  - rewrite request_stop_snd. apply change_update. intros a Ha. set_solver.
  - unfold mark_running. rewrite map_err_snd. apply change_update. set_solver.
  - unfold mark_stopping. rewrite map_err_snd. apply change_update. set_solver.
  - unfold mark_stopped. rewrite map_err_snd. apply change_update. set_solver.
  - unfold mark_completed. rewrite map_err_snd. apply change_update. set_solver.
  - unfold mark_failed. rewrite map_err_snd. apply change_update. set_solver.
  - apply change_attempt_completed.
  - unfold delete_if_terminal, delete_by_id_and_statuses. destruct (jobs d !! i) as [j|] eqn:Hj; [|apply change_refl].
    case_bool_decide as Ht; [|apply change_refl]. eapply change_delete_row; [done|by apply is_terminal_in].
  - by apply change_delete_all.
  - unfold assign_job_writer. destruct (_ && _); [apply change_refl|]. apply change_none; [done|cbn; lia|done].
  - apply change_none; [done|cbn; lia|done].
  - by apply change_reschedule.
Qed.

Lemma change_wf p d d' : change p d d' → db_wf d → db_wf d'.
Proof.
  intros Hc [Hk Hf Ha Hj]. destruct Hc as
    [Ej En Ea|i j now s Hi _ _ Ej En Ea|j Hs Hid Ej En Ea|gone _ Ej Ea En|i j idx now node Hp Hi Hn Ej Ea En].
  - split; rewrite ?Ej; [done|naive_solver lia| |].
    + intros k a E. specialize (Ea k). rewrite E in Ea. cbn in Ea.
      destruct (attempts d !! k) as [a'|] eqn:E'; [|done]. injection Ea as -> ->. by apply Ha.
    + intros k [a E]. apply Hj. specialize (Ea k). rewrite E in Ea. by destruct (attempts d !! k).
  - split; rewrite ?Ej, ?En, ?Ea; [| |done|].
    + intros i' j' [[<- <-]|[_ ?]]%lookup_insert_Some; [by apply (Hk i j)|by apply Hk].
    + intros i' [<-|[_ ?]]%lookup_insert_is_Some; eauto.
    + intros k ?. apply lookup_insert_is_Some. destruct (decide (i = k.1)); [by left|right; auto].
  - split; rewrite ?Ej, ?En, ?Ea; [| |done|].
    + intros i' j' [[<- <-]|[_ ?]]%lookup_insert_Some; [done|by apply Hk].
    + intros i' [<-|[_ ?%Hf]]%lookup_insert_is_Some; lia.
    + intros k ?. apply lookup_insert_is_Some. destruct (decide (next_job_id d = k.1)); [by left|right; auto].
  - split; rewrite ?En.
    + intros i j. rewrite Ej. case_bool_decide; [done|apply Hk].
    + intros i. rewrite Ej. case_bool_decide; [by intros []|apply Hf].
    + intros k a. rewrite Ea. case_bool_decide; [done|apply Ha].
    + intros k. rewrite Ea, Ej. case_bool_decide; [by intros []|apply Hj].
  - split; rewrite ?Ej, ?En, ?Ea.
    + intros i' j' [[<- <-]|[_ ?]]%lookup_insert_Some; [by apply (Hk i j)|by apply Hk].
    + intros i' [<-|[_ ?]]%lookup_insert_is_Some; eauto.
    + intros k a [[<- <-]|[_ ?]]%lookup_insert_Some; [done|by apply Ha].
    + intros k [<-|[_ ?%Hj]]%lookup_insert_is_Some; apply lookup_insert_is_Some; [by left|].
      destruct (decide (i = k.1)); [by left|by right].
Qed.

Lemma exec_wf p s d : db_wf d → issued p s → db_wf (exec s d).
Proof. intros Hwf Hi. eapply change_wf; [by eapply change_exec|done]. Qed.

(** ** Retry indexes *)

Lemma attempts_of_elem i n d :
  db_wf d → n ∈ retry_index <$> get_attempts_for_job i d ↔ is_Some (attempts d !! (i, n)).
Proof.
  intros Hwf. unfold get_attempts_for_job. rewrite list_elem_of_fmap. split.
  - intros (a & -> & Hin). rewrite sort_by_key_perm, list_elem_of_filter, list_elem_of_fmap in Hin.
    destruct Hin as [<- ((k & a') & Heq & Hin)]. cbn in Heq. subst a'.
    apply elem_of_map_to_list in Hin. rewrite (wf_attempt_key d Hwf _ _ Hin) in Hin. eauto.
  - intros [a Hat]. pose proof (wf_attempt_key d Hwf _ _ Hat) as [= -> ->]. exists a. split; [done|].
    rewrite sort_by_key_perm, list_elem_of_filter, list_elem_of_fmap. split; [done|].
    eexists (_, a). split; [done|]. by apply elem_of_map_to_list.
Qed.

(** The index read by a scan is above every attempt of the job. *)
Lemma next_index_above i n d :
  db_wf d → is_Some (attempts d !! (i, n)) → n < next_index i d.
Proof.
  intros Hwf Hn. apply (attempts_of_elem _ _ _ Hwf) in Hn. unfold next_index.
  destruct (list_max _) as [m|] eqn:E; [|apply list_max_None in E; rewrite E in Hn; by apply elem_of_nil in Hn].
  apply list_max_Some in E as [_ Hall]. rewrite Forall_forall in Hall. apply Hall in Hn. cbn. lia.
Qed.

Lemma next_index_ext i d d' :
  db_wf d → db_wf d' → (∀ n, is_Some (attempts d !! (i, n)) ↔ is_Some (attempts d' !! (i, n))) →
  next_index i d' = next_index i d.
Proof.
  intros Hwf Hwf' He. unfold next_index. do 2 f_equal. apply list_max_ext. intros n.
  rewrite !attempts_of_elem by done. by rewrite He.
Qed.

(** What a scan read stays true until it is used: the job is gone, or the retry
    was made, or it is still the next one of a failed job. *)
Definition retry_valid (d : Db) (r : Z * Z) : Prop :=
  r.1 < next_job_id d /\
  match jobs d !! r.1 with
  | None => True
  | Some j => is_Some (attempts d !! r) \/ (status j = Failed /\ next_index r.1 d = r.2)
  end.

Lemma retry_valid_change p d d' r :
  db_wf d → change p d d' → Forall (retry_valid d) p → retry_valid d r → retry_valid d' r.
Proof.
  intros Hwf Hc Hissued [Hlt Hr]. pose proof (change_wf _ _ _ Hc Hwf) as Hwf'.
  destruct r as [k n]. cbn [fst snd] in *. unfold retry_valid. cbn [fst snd].
  destruct Hc as
    [Ej En Ea|i j now s Hi Hedge Hs Ej En Ea|j Hs Hid Ej En Ea|gone _ Ej Ea En|i j idx now node Hp Hi Hn Ej Ea En].
  - assert (∀ k, is_Some (attempts d' !! k) ↔ is_Some (attempts d !! k)) as Hdom.
    { intros k'. specialize (Ea k'). destruct (attempts d' !! k'), (attempts d !! k'); naive_solver. }
    split; [lia|]. rewrite Ej. destruct (jobs d !! k); [|done].
    rewrite Hdom. rewrite (next_index_ext k d d') by (done || (intros; by rewrite Hdom)). done.
  - split; [lia|]. rewrite Ej. assert (next_index k d' = next_index k d) as ->.
    { apply next_index_ext; [done..|]. by rewrite Ea. }
    rewrite Ea. destruct (decide (k = i)) as [->|]; [|by rewrite lookup_insert_ne].
    rewrite lookup_insert_eq. rewrite Hi in Hr. destruct Hr as [?|[? _]]; [by left|done].
  - split; [lia|]. rewrite Ej, lookup_insert_ne by lia. assert (next_index k d' = next_index k d) as ->.
    { apply next_index_ext; [done..|]. by rewrite Ea. } by rewrite Ea.
  - split; [lia|]. rewrite Ej. case_bool_decide as Hg; [done|].
    destruct (jobs d !! k); [|done]. rewrite Ea. cbn [fst]. rewrite bool_decide_false by done.
    rewrite (next_index_ext k d d'); [done..|]. intros m. rewrite Ea. cbn [fst].
    by rewrite bool_decide_false.
  - split; [lia|]. rewrite Ej, Ea. destruct (decide (k = i)) as [->|].
    + rewrite lookup_insert_eq. left. apply lookup_insert_is_Some.
      rewrite Forall_forall in Hissued. destruct (Hissued _ Hp) as [_ Hv]. cbn in Hv. rewrite Hi in Hv, Hr.
      destruct Hr as [?|[_ <-]]; [destruct (decide ((i, idx) = (i, n))); tauto|].
      destruct Hv as [[? Hsome]|[_ <-]]; [congruence|]. by left.
    + rewrite lookup_insert_ne by done. destruct (jobs d !! k); [|done].
      rewrite lookup_insert_ne by congruence. rewrite (next_index_ext k d d'); [done..|].
      intros m. rewrite Ea, lookup_insert_ne by congruence. done.
Qed.

(** ** The life cycle *)

Lemma scanned_valid now d : db_wf d → Forall (retry_valid d) (scanned now d).
Proof.
  intros Hwf. unfold scanned, get_failed_jobs_ready_for_retry. apply Forall_forall. intros r Hr.
  apply list_elem_of_fmap in Hr as (x & -> & Hx). apply list_elem_of_fmap in Hx as (j & -> & Hj).
  apply select_jobs_elem in Hj as [Hp [i Hi]]. apply andb_true_iff in Hp as [Hs _].
  apply bool_decide_eq_true in Hs. cbn [job next_retry_index]. unfold retry_valid. cbn [fst snd].
  rewrite (wf_job_key d Hwf _ _ Hi), Hi. split; [|by right].
  apply (wf_job_fresh d Hwf). eauto.
Qed.

Lemma empty_db_wf : db_wf empty_db.
Proof. split; cbn; intros *; rewrite ?lookup_empty; (done || by intros []). Qed.

Lemma reachable_inv q : reachable q → db_wf (db q) /\ Forall (retry_valid (db q)) (pending q).
Proof.
  unfold reachable. revert q.
  apply (rtc_ind_r (λ q, db_wf (db q) /\ Forall (retry_valid (db q)) (pending q))).
  { split; [apply empty_db_wf|constructor]. }
  intros q q' _ Hs [Hwf Hp].
  destruct Hs as [q s Hi|q now]; cbn [db pending].
  - pose proof (change_exec _ s _ Hwf Hi) as Hc. split; [by eapply change_wf|].
    eapply list.Forall_impl; [exact Hp|]. intros r. by apply (retry_valid_change (pending q)).
  - split; [done|]. apply list.Forall_app_2; [by apply scanned_valid|done].
Qed.

(** C31: However the statements of schedulers and workers interleave, a job
    only moves along the edges of its life cycle; it is deleted in a terminal
    status only, and a new job is [Scheduled] under an identifier that was
    never used. In particular a retry decided by an old scan never touches a job
    that has been retried since. *)
Theorem lifecycle_respected (q q' : Queue) (i : Z) :
  reachable q → step q q' →
  match jobs (db q) !! i, jobs (db q') !! i with
  | Some j, Some j' =>
      (status j' = status j \/ lifecycle_edge (status j) (status j') = true)
      /\ desc j' = desc j /\ created_at j' = created_at j
  | Some j, None => is_terminal (status j) = true
  | None, Some j' => status j' = Scheduled /\ next_job_id (db q) <= i < next_job_id (db q')
  | None, None => True
  end.
Proof.
  intros [Hwf Hp]%reachable_inv Hs. destruct Hs as [q s Hi|q now]; cbn [db].
  2:{ destruct (jobs (db q) !! i); auto. }
  destruct (change_exec _ s _ Hwf Hi) as
    [Ej En Ea|k j now st Hk Hedge Hst Ej En Ea|j Hst Hid Ej En Ea|gone Hg Ej Ea En|k j idx now node Hq Hk Hn Ej Ea En];
    rewrite Ej.
  - destruct (jobs (db q) !! i); auto.
  - destruct (decide (k = i)) as [<-|].
    + rewrite Hk, lookup_insert_eq. cbn. auto.
    + rewrite lookup_insert_ne by done. destruct (jobs (db q) !! i); auto.
  - destruct (decide (next_job_id (db q) = i)) as [<-|].
    + rewrite lookup_insert_eq. destruct (jobs (db q) !! _) eqn:E; [|split; [done|lia]].
      pose proof (wf_job_fresh _ Hwf _ (mk_is_Some _ _ E)). lia.
    + rewrite lookup_insert_ne by done. destruct (jobs (db q) !! i); auto.
  - destruct (jobs (db q) !! i) eqn:E; [|by case_bool_decide].
    case_bool_decide; [by eapply Hg|auto].
  - destruct (decide (k = i)) as [<-|].
    + rewrite Hk, lookup_insert_eq. rewrite Forall_forall in Hp. destruct (Hp _ Hq) as [_ Hv].
      cbn in Hv. rewrite Hk in Hv. destruct Hv as [[? ?]|[Hf _]]; [congruence|].
      cbn. rewrite Hf. auto.
    + rewrite lookup_insert_ne by done. destruct (jobs (db q) !! i); auto.
Qed.

Lemma lifecycle_respected_witness :
  ∃ q q', reachable q /\ step q q' /\
    status <$> jobs (db q) !! 1 = Some Failed /\ status <$> jobs (db q') !! 1 = Some Scheduled /\
    match jobs (db q) !! 1, jobs (db q') !! 1 with
    | Some j, Some j' =>
        (status j' = status j \/ lifecycle_edge (status j) (status j') = true)
        /\ desc j' = desc j /\ created_at j' = created_at j
    | Some j, None => is_terminal (status j) = true
    | None, Some j' => status j' = Scheduled /\ next_job_id (db q) <= 1 < next_job_id (db q')
    | None, None => True
    end.
Proof.
  assert (∃ q q', reachable q /\ step q q' /\
    status <$> jobs (db q) !! 1 = Some Failed /\ status <$> jobs (db q') !! 1 = Some Scheduled)
    as (q & q' & Hr & Hs & H1 & H2).
  { eexists _, _. split; [|split].
    - unfold reachable.
      eapply rtc_l; [apply (step_stmt _ (SRegisterWorker 0 "w")); exact I|].
      eapply rtc_l; [apply (step_stmt _ (SRegister 0 "w" OtherJson)); exact I|].
      eapply rtc_l; [apply (step_stmt _ (SMarkFailed 5 1)); exact I|].
      eapply rtc_l; [apply (step_scan _ 2000000)|]. apply rtc_refl.
    - apply (step_stmt _ (SReschedule 2000001 1 "w" 0)). cbn [issued pending].
      apply (bool_decide_unpack _). vm_compute. exact I.
    - split; vm_compute; reflexivity. }
  exists q, q'. split; [done|]. split; [done|]. split; [done|]. split; [done|].
  exact (lifecycle_respected q q' 1 Hr Hs).
Defined.

Lemma status_from_str_as_str s : status_from_str (as_str s) = s.
Proof. by destruct s. Qed.

(** ** Pages *)

Lemma NoDup_fmap_filter {A B} (f : A → B) (P : A → Prop) `{∀ x, Decision (P x)} (l : list A) :
  NoDup (f <$> l) → NoDup (f <$> filter P l).
Proof.
  induction l as [|x l IH]; [done|]. cbn [fmap list_fmap]. rewrite NoDup_cons. intros [Hx Hl].
  rewrite filter_cons. destruct (decide (P x)); [|auto]. cbn [fmap list_fmap].
  apply NoDup_cons. split; [|auto]. contradict Hx.
  apply list_elem_of_fmap in Hx as (y & -> & [_ Hy]%list_elem_of_filter).
  by apply list_elem_of_fmap_2.
Qed.

Lemma StronglySorted_strict {A} (key : A → Z) l :
  StronglySorted (key_le key) l → NoDup (key <$> l) → StronglySorted (λ a b, key a < key b) l.
Proof.
  induction 1 as [|x l _ IH Hx]; [constructor|]. cbn [fmap list_fmap]. rewrite NoDup_cons.
  intros [Hn Hd]. constructor; [auto|]. rewrite Forall_forall in *. intros y Hy.
  specialize (Hx y Hy). unfold key_le in Hx. destruct (decide (key x = key y)) as [He|]; [|lia].
  destruct Hn. rewrite He. by apply list_elem_of_fmap_2.
Qed.

Lemma select_jobs_sorted p d :
  db_wf d → StronglySorted (λ a b, job_id a < job_id b) (select_jobs p d).
Proof.
  intros Hwf. apply StronglySorted_strict; [apply sort_by_key_sorted|].
  unfold select_jobs. rewrite sort_by_key_perm. apply NoDup_fmap_filter.
  replace (job_id <$> (map_to_list (jobs d)).*2) with ((map_to_list (jobs d)).*1); [apply NoDup_fst_map_to_list|].
  rewrite <- list_fmap_compose. apply list_fmap_ext. intros n [i j] Hn.
  apply list_elem_of_lookup_2, elem_of_map_to_list in Hn. cbn. symmetry. by apply (wf_job_key d Hwf).
Qed.

Lemma strict_sorted_NoDup {A} (key : A → Z) l :
  StronglySorted (λ a b, key a < key b) l → NoDup l.
Proof.
  induction 1 as [|x l _ IH Hx]; constructor; [|done]. intros Hin.
  rewrite Forall_forall in Hx. apply Hx in Hin. lia.
Qed.

Lemma strict_sorted_keys_NoDup {A} (key : A → Z) l :
  StronglySorted (λ a b, key a < key b) l → NoDup (key <$> l).
Proof.
  induction 1 as [|x l _ IH Hx]; constructor; [|done]. rewrite Forall_forall in Hx.
  intros (y & E & Hin)%list_elem_of_fmap. apply Hx in Hin. lia.
Qed.

(** A selection is the only increasing list of the selected rows. *)
Lemma select_jobs_unique p d l :
  db_wf d → StronglySorted (λ a b, job_id a < job_id b) l →
  (∀ j, j ∈ l ↔ j ∈ select_jobs p d) → l = select_jobs p d.
Proof.
  intros Hwf Hl He. pose proof (select_jobs_sorted p d Hwf) as Hs.
  apply (StronglySorted_unique_strong (λ a b, job_id a < job_id b)); [intros; lia|done..|].
  apply NoDup_Permutation; [by eapply (strict_sorted_NoDup job_id)..|done].
Qed.

(** The rows below a cursor are what comes before it. *)
Lemma select_jobs_below p d l1 j l2 :
  db_wf d → select_jobs p d = l1 ++ j :: l2 →
  select_jobs (λ x, (job_id x <? job_id j) && p x) d = l1.
Proof.
  intros Hwf E. pose proof (select_jobs_sorted p d Hwf) as Hs. rewrite E in Hs.
  apply StronglySorted_app in Hs as (H1 & Hs1 & Hs2). apply StronglySorted_inv in Hs2 as [_ Hj].
  symmetry. apply select_jobs_unique; [done..|]. intros x. rewrite select_jobs_elem, andb_true_iff, Z.ltb_lt.
  pose proof (select_jobs_elem p d x) as Hx. rewrite E in Hx. split.
  - intros Hin. split; [split|].
    + apply H1; [done|by left].
    + apply Hx. set_solver.
    + apply Hx. set_solver.
  - intros [[Hlt Hp] Hi]. assert (x ∈ l1 ++ j :: l2) as [?|Hr]%elem_of_app by tauto; [done|].
    apply elem_of_cons in Hr as [->|Hr]; [lia|]. rewrite Forall_forall in Hj. apply Hj in Hr. lia.
Qed.

Lemma select_jobs_insert p c now node dsc d :
  db_wf d → c <= next_job_id d →
  select_jobs (λ x, (job_id x <? c) && p x) (register now node dsc d).2
  = select_jobs (λ x, (job_id x <? c) && p x) d.
Proof.
  intros Hwf Hc. pose proof (change_exec [] (SRegister now node dsc) d Hwf I) as Hch.
  cbn [exec] in Hch. pose proof (change_wf _ _ _ Hch Hwf) as Hwf'.
  symmetry. apply select_jobs_unique; [done|by apply select_jobs_sorted|].
  intros j. rewrite !select_jobs_elem, andb_true_iff, Z.ltb_lt.
  unfold register, insert_with_default_status, insert.
  destruct (workers d !! node); cbn [snd set_jobs jobs]; [|done].
  split; intros [[Hlt Hp] [i Hi]]; (split; [done|]).
  - exists i. rewrite lookup_insert_ne; [done|].
    pose proof (wf_job_fresh d Hwf i (mk_is_Some _ _ Hi)). lia.
  - apply lookup_insert_Some in Hi as [[<- <-]|[_ Hi]]; [cbn in Hlt; lia|eauto].
Qed.

(** Listing jobs by pages walks through the matching jobs once each, newest
    first: the first page is a prefix of the full listing, and the page after
    the cursor of a job is what follows that job, whatever the size of the pages;
    registering jobs meanwhile does not disturb the pages that follow. *)
Theorem pages_walk_listing (d : Db) (limit : Z) (sts : option (list JobStatus)) :
  db_wf d → 0 <= limit →
  ∃ all,
    StronglySorted (λ a b, job_id a > job_id b) all
    /\ (∀ j, j ∈ all ↔ has_status sts j = true /\ jobs d !! job_id j = Some j)
    /\ list_jobs limit None sts d = Ok (take (Z.to_nat limit) all)
    /\ (∀ l1 j l2, all = l1 ++ j :: l2 →
         list_jobs limit (Some (job_id j)) sts d = Ok (take (Z.to_nat limit) l2)
         /\ ∀ now node dsc,
              list_jobs limit (Some (job_id j)) sts (register now node dsc d).2
              = list_jobs limit (Some (job_id j)) sts d).
Proof.
  intros Hwf Hlim. exists (reverse (select_jobs (has_status sts) d)).
  assert (∀ l, limited limit l = Ok (take (Z.to_nat limit) l)) as Hl.
  { intros l. unfold limited. by destruct (Z.ltb_spec limit 0); [lia|]. }
  split; [|split; [|split]].
  - pose proof (select_jobs_sorted (has_status sts) d Hwf) as Hs.
    induction (select_jobs _ d) as [|x l IH]; [constructor|]. apply StronglySorted_inv in Hs as [Hs Hx].
    rewrite reverse_cons. apply StronglySorted_app_2; [|by apply IH|repeat constructor].
    intros a b Ha Hb%list_elem_of_singleton. rewrite elem_of_reverse in Ha. subst b.
    rewrite Forall_forall in Hx. apply Hx in Ha. lia.
  - intros j. rewrite elem_of_reverse, select_jobs_elem. split; intros [Hp Hj]; (split; [done|]).
    + destruct Hj as [i Hi]. by rewrite (wf_job_key d Hwf _ _ Hi).
    + eauto.
  - apply Hl.
  - intros l1 j l2 E. cbn [list_jobs]. unfold list_next_page. rewrite !Hl. apply (f_equal reverse) in E.
    rewrite reverse_involutive, reverse_app, reverse_cons, <- app_assoc in E. cbn in E. split.
    + by rewrite (select_jobs_below _ _ _ _ _ Hwf E), reverse_involutive.
    + intros now node dsc. rewrite select_jobs_insert; [done..|].
      assert (j ∈ select_jobs (has_status sts) d) as [_ [i Hi]]%select_jobs_elem by (rewrite E; set_solver).
      pose proof (wf_job_fresh d Hwf i (mk_is_Some _ _ Hi)). rewrite (wf_job_key d Hwf _ _ Hi). lia.
Qed.

Lemma pages_walk_listing_witness :
  let d := exec (SRegister 0 "w" OtherJson) (exec (SRegister 0 "w" OtherJson) (exec (SRegisterWorker 0 "w") empty_db)) in
  db_wf d /\ list_jobs 1 None None d = Ok [mkJob 2 "w" Scheduled OtherJson 0 0] /\
  ∃ all, list_jobs 1 None None d = Ok (take 1 all).
Proof.
  intros d. assert (db_wf d) as Hwf.
  { by repeat (apply (exec_wf []); [|exact I]); apply empty_db_wf. }
  split; [done|]. split; [vm_compute; reflexivity|].
  destruct (pages_walk_listing d 1 None Hwf ltac:(lia)) as (all & _ & _ & H & _). exists all. exact H.
Defined.
