(* ===== verification/Scheduler.v ===== *)
(** * Scheduler

    The scheduler of the controller (services/controller/src/scheduler.rs):
    scheduling a dataset job on a worker node, stopping and deleting jobs, and
    the periodic retry of failed jobs. *)

From stdpp Require Import base numbers gmap strings option fin_maps list sorting.
From Stdlib Require Import ZArith Lia.
From S2P Require Import Prelude EndBlock Jobs.

(** Five seconds. *)
Definition DEAD_WORKER_INTERVAL : Z := 5000000.

Inductive ScheduleJobError :=
  | WorkerNotAvailable (worker : string)
  | NoWorkersAvailable
  | RegisterJob (e : Error)
  | NotifyWorker (e : Error).

Inductive StopJobError :=
  | GetJobFailed
  | JobNotFound
  | JobAlreadyTerminated (s : JobStatus)
  | StopStateConflict (current : JobStatus)
  | UpdateJobStatus (e : Error)
  | SendNotification (e : Error).

(** The node is drawn at random by the [rand] crate. *)
Class Choose := {
  choose : list string → option string;
  choose_in l x : choose l = Some x → x ∈ l;
  choose_nonempty l : l ≠ [] → is_Some (choose l)
}.

Definition is_scheduled_or_running (s : JobStatus) : bool :=
  match s with Scheduled | Running => true | _ => false end.

Section Schedule.
Context `{Choose}.

Definition select_node (worker_id : option string) (candidates : list string)
    : comp ScheduleJobError string :=
  match worker_id with
  | Some w => if bool_decide (w ∈ candidates) then Ok w else Err (WorkerNotAvailable w)
  | None => ok_or (choose candidates) NoWorkersAvailable
  end.

Definition schedule_dataset_sync_job_impl (now : Z) (end_block : EndBlock) (max_writers : Z)
    (namespace name hash dataset_kind : string) (worker_id : option string)
    : stm Db ScheduleJobError Z :=
  existing_jobs ← gets (get_jobs_by_dataset hash);
  match List.find (λ j, is_scheduled_or_running (status j)) existing_jobs with
  | Some j => mret (job_id j)
  | None =>
      candidates ← gets (list_active now DEAD_WORKER_INTERVAL);
      node ← (λ s, (select_node worker_id candidates, s));
      i ← map_err RegisterJob
            (register now node (Dump end_block max_writers namespace name hash dataset_kind));
      _ ← map_err NotifyWorker (send_job_notif node (mkNotif i ActionStart));
      mret i
  end.
End Schedule.

Definition stop_error (e : Error) : StopJobError :=
  match e with
  | JobStatusUpdate NotFound => JobNotFound
  | JobStatusUpdate (StateConflict _ actual) =>
      match actual with
      | Stopped | Completed | Failed => JobAlreadyTerminated actual
      | _ => StopStateConflict actual
      end
  | other => UpdateJobStatus other
  end.

Definition stop_job_impl (now i : Z) : stm Db StopJobError unit :=
  transaction (
    found ← gets (get_by_id i);
    match found with
    | None => throw JobNotFound
    | Some j =>
        _ ← map_err stop_error (request_stop now i);
        map_err SendNotification (send_job_notif (node_id j) (mkNotif i ActionStop))
    end).

(** One failed job of the loop: a reschedule that fails is logged and
    skipped. *)
Definition retry_one (now : Z) (r : JobWithRetryInfo) (d : Db) : Db :=
  match reschedule now (job_id (job r)) (node_id (job r)) (next_retry_index r) d with
  | (Ok _, d') => (send_job_notif (node_id (job r)) (mkNotif (job_id (job r)) ActionStart) d').2
  | (_, d') => d'
  end.

Definition reconcile_failed_jobs (now : Z) (d : Db) : Db :=
  foldl (λ d r, retry_one now r d) d (get_failed_jobs_ready_for_retry now d).

Definition delete_job (i : Z) : stm Db Error bool := delete_if_terminal i.
Definition delete_jobs_in_terminal_state : stm Db Error nat := delete_all_by_status terminal_statuses.
Definition delete_completed_jobs : stm Db Error nat := delete_all_by_status [Completed].
Definition delete_stopped_jobs : stm Db Error nat := delete_all_by_status [Stopped].
Definition delete_failed_jobs : stm Db Error nat := delete_all_by_status [Failed].

(** ** Retries *)

(** A failed job is ready once its backoff has elapsed since its last update. *)
Definition ready (now : Z) (d : Db) (i : Z) : bool :=
  match jobs d !! i with
  | Some j => bool_decide (status j = Failed) && (updated_at j + backoff (next_index i d) <=? now)
  | None => false
  end.

(** What the loop has reached when the rows [l] are left. *)
Record retried (now : Z) (d : Db) (l : list JobWithRetryInfo) (d' : Db) : Prop := {
  retried_jobs i :
    jobs d' !! i =
      if ready now d i && negb (bool_decide (i ∈ job_id ∘ job <$> l))
      then (λ j, mkJob (job_id j) (node_id j) Scheduled (desc j) (created_at j) now) <$> jobs d !! i
      else jobs d !! i;
  retried_attempts k :
    attempts d' !! k =
      if ready now d k.1 && negb (bool_decide (k.1 ∈ job_id ∘ job <$> l))
         && bool_decide (k.2 = next_index k.1 d)
      then Some (mkAttempt k.1 k.2 now None)
      else attempts d !! k
}.

Lemma ready_rows_elem now d r :
  db_wf d →
  r ∈ get_failed_jobs_ready_for_retry now d ↔
  ready now d (job_id (job r)) = true /\ jobs d !! job_id (job r) = Some (job r)
  /\ next_retry_index r = next_index (job_id (job r)) d.
Proof.
  intros Hwf. unfold get_failed_jobs_ready_for_retry. rewrite list_elem_of_fmap. unfold ready. split.
  - intros (j & -> & [Hp [i Hi]]%select_jobs_elem). cbn [job next_retry_index].
    rewrite (wf_job_key d Hwf _ _ Hi), Hi. rewrite (wf_job_key d Hwf _ _ Hi) in Hp. done.
  - destruct r as [j n]. cbn [job next_retry_index]. intros (Hr & Hj & ->). rewrite Hj in Hr.
    exists j. split; [done|]. apply select_jobs_elem. eauto.
Qed.

Lemma next_index_fresh i d : db_wf d → attempts d !! (i, next_index i d) = None.
Proof.
  intros Hwf. destruct (attempts d !! (i, next_index i d)) eqn:E; [|done].
  pose proof (next_index_above i _ d Hwf (mk_is_Some _ _ E)). lia.
Qed.

Lemma retry_one_retried now d r l d' :
  db_wf d → r ∈ get_failed_jobs_ready_for_retry now d → job_id (job r) ∉ job_id ∘ job <$> l →
  retried now d (r :: l) d' →
  retried now d l (retry_one now r d') /\
  notifs (retry_one now r d') = notifs d' ++ [(node_id (job r), mkNotif (job_id (job r)) ActionStart)].
Proof.
  intros Hwf (Hr & Hj & Hn)%ready_rows_elem Hnew [Hjobs Hatt]; [|done].
  set (i := job_id (job r)) in *.
  assert (i ∈ job_id ∘ job <$> r :: l) as Hin by (by left).
  assert (jobs d' !! i = Some (job r)) as Hj'.
  { rewrite Hjobs, (bool_decide_true _ Hin), andb_false_r. done. }
  assert (attempts d' !! (i, next_retry_index r) = None) as Ha'.
  { rewrite Hatt. cbn [fst]. rewrite (bool_decide_true _ Hin), andb_false_r. cbn.
    rewrite Hn. by apply next_index_fresh. }
  unfold retry_one. fold i.
  destruct (reschedule_cases now i (node_id (job r)) (next_retry_index r) d')
    as [(j & E1 & _ & ->)|[[?|[? ?]] _]]; [|congruence..].
  rewrite Hj' in E1. injection E1 as <-. split; [|done].
  assert (∀ k, k ≠ i → bool_decide (k ∈ job_id ∘ job <$> r :: l) = bool_decide (k ∈ job_id ∘ job <$> l)) as Hother.
  { intros k Hk. apply bool_decide_ext. cbn [fmap list_fmap]. rewrite elem_of_cons. naive_solver. }
  split.
  - intros k. change (alter (λ j, mkJob (job_id j) (node_id (job r)) Scheduled (desc j) (created_at j) now) i (jobs d') !! k =
      if ready now d k && negb (bool_decide (k ∈ job_id ∘ job <$> l))
      then (λ j, mkJob (job_id j) (node_id j) Scheduled (desc j) (created_at j) now) <$> jobs d !! k else jobs d !! k).
    destruct (decide (k = i)) as [->|Hk].
    + rewrite lookup_alter_eq, Hj', Hr, bool_decide_false by done. cbn. rewrite Hj. done.
    + rewrite lookup_alter_ne, Hjobs, Hother by done. done.
  - intros k. change (<[(i, next_retry_index r) := mkAttempt i (next_retry_index r) now None]> (attempts d') !! k =
      if ready now d k.1 && negb (bool_decide (k.1 ∈ job_id ∘ job <$> l)) && bool_decide (k.2 = next_index k.1 d)
      then Some (mkAttempt k.1 k.2 now None) else attempts d !! k).
    destruct (decide (k.1 = i)) as [Hk|Hk].
    + rewrite Hk, Hr, (bool_decide_false (i ∈ job_id ∘ job <$> l)) by done. cbn [andb negb].
      destruct k as [k n]. cbn [fst snd] in *. subst k. destruct (decide (n = next_index i d)) as [->|Hne].
      * rewrite bool_decide_true by done. rewrite <- Hn, lookup_insert_eq. done.
      * rewrite bool_decide_false by done. rewrite lookup_insert_ne by congruence.
        rewrite Hatt. cbn [fst snd]. by rewrite (bool_decide_true _ Hin), andb_false_r.
    + rewrite lookup_insert_ne by (intros <-; done). by rewrite Hatt, Hother.
Qed.

Lemma retry_loop now d l d' :
  db_wf d → (∀ r, r ∈ l → r ∈ get_failed_jobs_ready_for_retry now d) →
  NoDup (job_id ∘ job <$> l) → retried now d l d' →
  retried now d [] (foldl (λ d r, retry_one now r d) d' l) /\
  notifs (foldl (λ d r, retry_one now r d) d' l)
  = notifs d' ++ ((λ r, (node_id (job r), mkNotif (job_id (job r)) ActionStart)) <$> l).
Proof.
  intros Hwf. revert d'. induction l as [|r l IH]; intros d' Hin Hnd Hret.
  { by rewrite app_nil_r. }
  cbn [fmap list_fmap] in Hnd. apply NoDup_cons in Hnd as [Hnew Hnd].
  destruct (retry_one_retried now d r l d' Hwf (Hin r ltac:(by left)) Hnew Hret) as [Hret' Hno].
  cbn [foldl]. destruct (IH (retry_one now r d') ltac:(intros; apply Hin; by right) Hnd Hret') as [? ->].
  split; [done|]. rewrite Hno, <- app_assoc. done.
Qed.

(** One pass of the retry loop reschedules exactly the failed jobs whose
    exponential backoff has elapsed, each on its own node and with a new attempt
    numbered one above its previous attempts, sends one start notification for
    each of them in the order of their identifiers, and touches no other job and
    no other attempt. *)
Theorem reconcile_failed_jobs_correct (now : Z) (d : Db) :
  db_wf d →
  let d' := reconcile_failed_jobs now d in
  (∀ i j, jobs d !! i = Some j →
     if ready now d i
     then jobs d' !! i = Some (mkJob (job_id j) (node_id j) Scheduled (desc j) (created_at j) now)
          /\ attempts d !! (i, next_index i d) = None
          /\ attempts d' !! (i, next_index i d) = Some (mkAttempt i (next_index i d) now None)
          /\ ∀ n, n ≠ next_index i d → attempts d' !! (i, n) = attempts d !! (i, n)
     else jobs d' !! i = Some j /\ ∀ n, attempts d' !! (i, n) = attempts d !! (i, n))
  /\ (∀ i, jobs d !! i = None → jobs d' !! i = None)
  /\ ∃ rs, StronglySorted (λ a b, job_id a < job_id b) rs
      /\ (∀ j, j ∈ rs ↔ jobs d !! job_id j = Some j /\ ready now d (job_id j) = true)
      /\ notifs d' = notifs d ++ ((λ j, (node_id j, mkNotif (job_id j) ActionStart)) <$> rs).
Proof.
  intros Hwf d'. set (rows := get_failed_jobs_ready_for_retry now d).
  pose proof (select_jobs_sorted (λ j, bool_decide (status j = Failed)
    && (updated_at j + backoff (next_index (job_id j) d) <=? now)) d Hwf) as Hsorted.
  assert (job <$> rows = select_jobs (λ j, bool_decide (status j = Failed)
    && (updated_at j + backoff (next_index (job_id j) d) <=? now)) d) as Erows.
  { unfold rows, get_failed_jobs_ready_for_retry. rewrite <- list_fmap_compose. apply list_fmap_id. }
  assert (∀ i, ready now d i = true → i ∈ job_id ∘ job <$> rows) as Hready.
  { intros i Hi. pose proof Hi as Hi'. unfold ready in Hi'. destruct (jobs d !! i) as [j|] eqn:E; [|done].
    apply list_elem_of_fmap. pose proof (wf_job_key d Hwf _ _ E) as <-. exists (mkRetry j (next_index (job_id j) d)).
    split; [done|]. by apply ready_rows_elem. }
  destruct (retry_loop now d rows d Hwf) as [[Hj Ha] Hn].
  - done.
  - rewrite (list_fmap_compose job job_id), Erows. by apply strict_sorted_keys_NoDup.
  - split; intros k; (destruct (ready now d _) eqn:E; [|done]);
      rewrite bool_decide_true by (by apply Hready); done.
  - fold (reconcile_failed_jobs now d) in Hj, Ha, Hn. fold d' in Hj, Ha, Hn. split; [|split].
    + intros i j Hi. specialize (Hj i). rewrite Hi in Hj. cbn in Hj.
      assert (∀ n, attempts d' !! (i, n) = if ready now d i && bool_decide (n = next_index i d)
        then Some (mkAttempt i n now None) else attempts d !! (i, n)) as Ha'.
      { intros n. rewrite Ha. cbn. by rewrite andb_true_r. }
      destruct (ready now d i); cbn in Hj, Ha'; [|done]. split; [done|]. split; [by apply next_index_fresh|].
      split; [by rewrite Ha', bool_decide_true|]. intros n Hne. by rewrite Ha', bool_decide_false.
    + intros i Hi. rewrite Hj, Hi. by destruct (_ && _).
    + exists (job <$> rows). split; [by rewrite Erows|]. split.
      * intros j. rewrite Erows, select_jobs_elem. unfold ready. split.
        -- intros [Hp [i Hi]]. rewrite (wf_job_key d Hwf _ _ Hi), Hi.
           rewrite (wf_job_key d Hwf _ _ Hi) in Hp. done.
        -- intros [Hi Hp]. rewrite Hi in Hp. eauto.
      * etransitivity; [exact Hn|]. f_equal. by rewrite <- list_fmap_compose.
Qed.

(** A database with a job that failed at time 5, after no attempt. *)
Definition failed_db : Db :=
  exec (SMarkFailed 5 1) (exec (SRegister 0 "w" OtherJson) (exec (SRegisterWorker 0 "w") empty_db)).

Lemma failed_db_wf : db_wf failed_db.
Proof. unfold failed_db. by repeat (apply (exec_wf []); [|exact I]); apply empty_db_wf. Qed.

Lemma reconcile_failed_jobs_correct_witness :
  ready 1000005 failed_db 1 = true /\ ready 1000004 failed_db 1 = false /\
  jobs (reconcile_failed_jobs 1000005 failed_db) !! 1
    = Some (mkJob 1 "w" Scheduled OtherJson 0 1000005).
Proof.
  split; [vm_compute; reflexivity|]. split; [vm_compute; reflexivity|].
  destruct (reconcile_failed_jobs_correct 1000005 failed_db failed_db_wf) as [H _].
  specialize (H 1 (mkJob 1 "w" Failed OtherJson 0 5) ltac:(vm_compute; reflexivity)).
  exact (proj1 H).
Defined.

(** ** Scheduling *)

(** The foreign key of [physical_tables.writer]. *)
Definition writers_exist (d : Db) : Prop :=
  ∀ l t i, physical_tables d !! l = Some t → writer t = Some i → is_Some (jobs d !! i).

Lemma dataset_jobs_elem hash j d :
  db_wf d →
  j ∈ get_jobs_by_dataset hash d ↔
  jobs d !! job_id j = Some j /\
  ∃ l t, physical_tables d !! l = Some t /\ writer t = Some (job_id j) /\ table_manifest_hash t = hash.
Proof.
  intros Hwf. unfold get_jobs_by_dataset. rewrite select_jobs_elem, existsb_exists. split.
  - intros [(t & Ht & [Hw Hh]%andb_true_iff) [i Hi]]. rewrite (wf_job_key d Hwf _ _ Hi). split; [done|].
    apply list_elem_of_In, list_elem_of_fmap in Ht as ((l & t') & -> & Hl%elem_of_map_to_list).
    exists l, t'. apply bool_decide_eq_true in Hw. apply String.eqb_eq in Hh.
    by rewrite <- (wf_job_key d Hwf _ _ Hi).
  - intros (Hj & l & t & Ht & Hw & Hh). split; [|eauto]. exists t. split.
    + apply list_elem_of_In, list_elem_of_fmap. exists (l, t). split; [done|]. by apply elem_of_map_to_list.
    + rewrite bool_decide_true by done. by apply String.eqb_eq.
Qed.

(** [find] in an increasing list returns the least element that satisfies it. *)
Lemma find_least (p : Job → bool) l :
  StronglySorted (λ a b, job_id a < job_id b) l →
  match List.find p l with
  | Some j => j ∈ l /\ p j = true /\ ∀ j', j' ∈ l → p j' = true → job_id j <= job_id j'
  | None => ∀ j, j ∈ l → p j = false
  end.
Proof.
  induction 1 as [|x l Hs IH Hx]; cbn [List.find]; [by intros j ?%elem_of_nil|].
  destruct (p x) eqn:E.
  - split; [by left|]. split; [done|]. intros j' [->|Hj]%elem_of_cons _; [lia|].
    rewrite Forall_forall in Hx. apply Hx in Hj. lia.
  - destruct (List.find p l) as [j|].
    + destruct IH as (? & ? & Hmin). split; [by right|]. split; [done|].
      intros j' [->|Hj]%elem_of_cons Hp; [congruence|auto].
    + intros j [->|Hj]%elem_of_cons; auto.
Qed.

Section ScheduleProofs.
Context `{Choose}.

Lemma list_active_registered now interval node d :
  node ∈ list_active now interval d → is_Some (workers d !! node).
Proof.
  unfold list_active. intros ([n t] & -> & [_ Hin%elem_of_map_to_list]%list_elem_of_filter)%list_elem_of_fmap.
  eauto.
Qed.

Lemma select_node_cases wid candidates :
  match select_node wid candidates with
  | Ok node => node ∈ candidates /\ default node wid = node
  | Err e => e = match wid with Some w => WorkerNotAvailable w | None => NoWorkersAvailable end
  | _ => False
  end.
Proof.
  unfold select_node. destruct wid as [w|]; [by case_bool_decide|].
  destruct (choose candidates) as [n|] eqn:E; [|done]. split; [by apply choose_in|done].
Qed.

(** Without a job at work on the tables, scheduling registers a job. *)
Lemma schedule_new now eb mw ns name hash kind wid d :
  List.find (λ j, is_scheduled_or_running (status j)) (get_jobs_by_dataset hash d) = None →
  schedule_dataset_sync_job_impl now eb mw ns name hash kind wid d =
  match select_node wid (list_active now DEAD_WORKER_INTERVAL d) with
  | Ok node =>
      let i := next_job_id d in
      (Ok i, mkDb (<[i := mkJob i node Scheduled (Dump eb mw ns name hash kind) now now]> (jobs d))
               (i + 1) (attempts d) (physical_tables d) (workers d)
               (notifs d ++ [(node, mkNotif i ActionStart)]))
  | Err e => (Err e, d)
  | Panic => (Panic, d)
  | OutOfFuel => (OutOfFuel, d)
  end.
Proof.
  intros Hf. unfold schedule_dataset_sync_job_impl, gets, mbind, stm_bind. cbv beta iota. rewrite Hf.
  pose proof (select_node_cases wid (list_active now DEAD_WORKER_INTERVAL d)) as Hs.
  destruct (select_node _ _) as [node|e| |]; [|done..]. destruct Hs as [Hin _].
  apply list_active_registered in Hin as [hb Hhb].
  unfold map_err, register, insert_with_default_status, insert. rewrite Hhb. done.
Qed.

End ScheduleProofs.

(** Scheduling a dataset returns the oldest of the jobs that already write
    its tables and are scheduled or running, if there is one, and changes
    nothing; otherwise it registers one new [Scheduled] job on an active node
    (the requested one, if any) and notifies that node, or fails with the error
    that says why. But a job writes no table before a worker has started it, so
    scheduling the same dataset twice in a row registers two jobs. *)
Theorem schedule_correct `{Choose} (now : Z) (eb : EndBlock) (mw : Z)
    (ns name hash kind : string) (wid : option string) (d : Db) :
  db_wf d → writers_exist d →
  let schedule := schedule_dataset_sync_job_impl now eb mw ns name hash kind wid in
  let writes j := ∃ l t, physical_tables d !! l = Some t /\ writer t = Some (job_id j)
                         /\ table_manifest_hash t = hash in
  let busy j := jobs d !! job_id j = Some j /\ writes j /\ is_scheduled_or_running (status j) = true in
  (∀ j, busy j → ∃ j', busy j' /\ (∀ j'', busy j'' → job_id j' <= job_id j'')
                      /\ schedule d = (Ok (job_id j'), d))
  /\ ((∀ j, ~ busy j) →
      match select_node wid (list_active now DEAD_WORKER_INTERVAL d) with
      | Ok node =>
          let i := next_job_id d in
          let j := mkJob i node Scheduled (Dump eb mw ns name hash kind) now now in
          let d' := (schedule d).2 in
          node ∈ list_active now DEAD_WORKER_INTERVAL d /\ default node wid = node
          /\ (schedule d).1 = Ok i /\ jobs d' = <[i := j]> (jobs d) /\ jobs d !! i = None
          /\ notifs d' = notifs d ++ [(node, mkNotif i ActionStart)]
          /\ (schedule d').1 = Ok (i + 1)
      | Err e => schedule d = (Err e, d) /\
          e = match wid with Some w => WorkerNotAvailable w | None => NoWorkersAvailable end
      | _ => False
      end).
Proof.
  intros Hwf Hfk schedule writes busy.
  assert (∀ j, j ∈ get_jobs_by_dataset hash d /\ is_scheduled_or_running (status j) = true ↔ busy j) as Hbusy.
  { intros j. rewrite dataset_jobs_elem by done. unfold busy, writes. tauto. }
  pose proof (find_least (λ j, is_scheduled_or_running (status j)) _ (select_jobs_sorted
    (λ j, existsb (λ t, bool_decide (writer t = Some (job_id j)) && (table_manifest_hash t =? hash)%string)
            (map_to_list (physical_tables d)).*2) d Hwf)) as Hfind.
  fold (get_jobs_by_dataset hash d) in Hfind. split.
  - intros j Hj. destruct (List.find _ _) as [j'|] eqn:E.
    + destruct Hfind as (Hin & Hp & Hmin). exists j'. split; [by apply Hbusy|]. split.
      * intros j'' [? ?]%Hbusy. by apply Hmin.
      * unfold schedule, schedule_dataset_sync_job_impl, gets, mbind, stm_bind. cbv beta iota. by rewrite E.
    + apply Hbusy in Hj as [Hin Hp]. apply Hfind in Hin. congruence.
  - intros Hno. destruct (List.find _ _) as [j'|] eqn:E.
    { destruct Hfind as (? & ? & _). destruct (Hno j'). by apply Hbusy. }
    pose proof (schedule_new now eb mw ns name hash kind wid d E) as Hnew. fold schedule in Hnew.
    pose proof (select_node_cases wid (list_active now DEAD_WORKER_INTERVAL d)) as Hs.
    destruct (select_node _ _) as [node|e| |] eqn:Esel; [|done..]. destruct Hs as [Hin Hdef].
    assert (jobs d !! next_job_id d = None) as Hfresh.
    { destruct (jobs d !! next_job_id d) eqn:Ej; [|done].
      pose proof (wf_job_fresh d Hwf _ (mk_is_Some _ _ Ej)). lia. }
    rewrite Hnew. cbn [fst snd]. split; [done|]. split; [done|]. split; [done|]. split; [done|].
    split; [done|]. split; [done|]. unfold schedule. rewrite schedule_new.
    { by change (list_active now DEAD_WORKER_INTERVAL _) with (list_active now DEAD_WORKER_INTERVAL d);
        rewrite Esel. }
    match goal with |- List.find _ (get_jobs_by_dataset _ ?d') = None => set (d1 := d') end.
    assert (db_wf d1) as Hwf1.
    { apply (change_wf [] d d1); [|done].
      by apply (change_insert _ _ _ (mkJob (next_job_id d) node Scheduled (Dump eb mw ns name hash kind) now now)). }
    destruct (List.find _ (get_jobs_by_dataset hash d1)) as [j|] eqn:E1; [|done]. exfalso.
    apply List.find_some in E1 as [Hj Hst]. apply list_elem_of_In, dataset_jobs_elem in Hj as (Hj & Hw); [|done].
    apply (Hno j). split; [|by split]. unfold d1 in Hj. cbn [jobs] in Hj.
    apply lookup_insert_Some in Hj as [[Hid _]|[_ ?]]; [|done].
    destruct Hw as (l & t & Ht & Hw & _). rewrite <- Hid in Hw.
    destruct (Hfk l t _ Ht Hw) as [? ?]. congruence.
Qed.

(** Drawing the first node, as one draw that keeps the promise. *)
#[global] Instance choose_first : Choose.
Proof.
  refine {| choose := λ l, head l |}.
  - intros [|y l] x; [done|]. intros [= ->]. by left.
  - intros [|y l]; [done|]. eauto.
Defined.

Definition idle_db : Db := exec (SRegisterWorker 0 "w") empty_db.

Lemma schedule_correct_witness :
  let d := idle_db in
  db_wf d /\ writers_exist d /\
  jobs (schedule_dataset_sync_job_impl 7 Latest 1 "ns" "eth" "h" "manifest" None d).2
    = <[1 := mkJob 1 "w" Scheduled (Dump Latest 1 "ns" "eth" "h" "manifest") 7 7]> ∅.
Proof.
  intros d. assert (db_wf d) as Hwf by (apply (exec_wf []); [apply empty_db_wf|exact I]).
  assert (writers_exist d) as Hfk by (intros l t i Hl; change ((∅ : gmap Z TableRow) !! l = Some t) in Hl; by rewrite lookup_empty in Hl).
  split; [done|]. split; [done|].
  destruct (schedule_correct 7 Latest 1 "ns" "eth" "h" "manifest" None d Hwf Hfk) as [_ H].
  specialize (H ltac:(intros j [Hj _]; change ((∅ : gmap Z Job) !! job_id j = Some j) in Hj; by rewrite lookup_empty in Hj)).
  exact (proj1 (proj2 (proj2 (proj2 H)))).
Defined.
