(* ===== verification/Worker.v ===== *)
(** * Worker

    The worker service: its job set (services/worker/src/service/job_set.rs),
    its view of the job queue (job_queue.rs), and the handlers of its main loop
    (service.rs); then the system of one database, its schedulers and its worker
    nodes, each of which may crash and restart. The task set of the tokio
    runtime is an interface, and building a job from its descriptor is a
    parameter that gives the locations of the job's tables. *)

From stdpp Require Import base numbers gmap strings option fin_maps sets list sorting.
From Stdlib Require Import ZArith Lia.
From S2P Require Import Prelude EndBlock Jobs Scheduler.

(** ** Tasks *)

(** tokio's [JoinSet]: spawning returns an identifier not in use, aborting
    marks a task, and joining delivers a live task once. *)
Class JoinSet (T : Type) := {
  js_empty : T;
  js_spawn : T → Z * T;
  js_abort : Z → T → T;
  js_join : Z → T → T;
  js_live : T → gset Z;
  js_aborted : T → gset Z;
  js_empty_live : js_live js_empty = ∅;
  js_spawn_fresh t : (js_spawn t).1 ∉ js_live t;
  js_spawn_live t : js_live (js_spawn t).2 = {[(js_spawn t).1]} ∪ js_live t;
  js_spawn_aborted t : js_aborted (js_spawn t).2 = js_aborted t ∖ {[(js_spawn t).1]};
  js_abort_live i t : js_live (js_abort i t) = js_live t;
  js_abort_aborted i t : js_aborted (js_abort i t) ⊆ {[i]} ∪ js_aborted t;
  js_join_live i t : js_live (js_join i t) = js_live t ∖ {[i]};
  js_join_aborted i t : js_aborted (js_join i t) ⊆ js_aborted t
}.

(** What joining a task yields. *)
Inductive TaskResult := Finished | FinishedError | Cancelled | TaskPanicked.

Inductive JoinError := JoinFailed | Aborted | Panicked.

(** What the worker does with a job that cannot be started. *)
Inductive SpawnJobError :=
  | StatusUpdateFailed (e : Error)
  | DescriptorParseFailed
  | JobInitializationFailed.

Inductive WorkerError :=
  | StartActionFailed (i : Z) (e : SpawnJobError)
  | StopActionFailed (i : Z) (e : Error)
  | MarkCompletedFailed (i : Z) (e : Error)
  | MarkFailedFailed (i : Z) (e : Error)
  | MarkStoppedFailed (i : Z) (e : Error)
  | ReconcileSpawnFailed (i : Z) (e : SpawnJobError)
  | ReconcileAbortFailed (i : Z) (e : Error)
  | BootstrapSpawnJob (i : Z) (e : SpawnJobError).

Section Worker.
Context {T : Type} `{JoinSet T}.

(** ** The job set *)

Record JobSet := mkJobSet {
  job_id_to_handle : gmap Z Z;
  task_id_to_job_id : gmap Z Z;
  tasks : T
}.

Definition jobset_default : JobSet := mkJobSet ∅ ∅ js_empty.

Definition job_running (i : Z) (js : JobSet) : bool :=
  bool_decide (is_Some (job_id_to_handle js !! i)).

(** The assertion that the job was not tracked is a debug one. *)
Definition spawn (i : Z) (js : JobSet) : JobSet :=
  let '(tid, t) := js_spawn (tasks js) in
  mkJobSet (<[i := tid]> (job_id_to_handle js)) (<[tid := i]> (task_id_to_job_id js)) t.

Definition abort (i : Z) (js : JobSet) : JobSet :=
  match job_id_to_handle js !! i with
  | None => js
  | Some tid => mkJobSet (job_id_to_handle js) (task_id_to_job_id js) (js_abort tid (tasks js))
  end.

(** The runtime delivers the result [r] of the task [tid]. *)
Definition join_next_with_id (tid : Z) (r : TaskResult) (js : JobSet)
    : total (Z * (JoinError + unit)) * JobSet :=
  let t := js_join tid (tasks js) in
  match task_id_to_job_id js !! tid with
  | None => (Panic, mkJobSet (job_id_to_handle js) (task_id_to_job_id js) t)
  | Some i =>
      let tids := delete tid (task_id_to_job_id js) in
      match job_id_to_handle js !! i with
      | None => (Panic, mkJobSet (job_id_to_handle js) tids t)
      | Some _ =>
          (Ok (i, match r with
                  | Finished => inr tt
                  | FinishedError => inl JoinFailed
                  | Cancelled => inl Aborted
                  | TaskPanicked => inl Panicked
                  end),
           mkJobSet (delete i (job_id_to_handle js)) tids t)
      end
  end.

(** ** The worker *)

(** A worker acts on the database and on its own job set. *)
Definition WS : Type := Db * JobSet.

Definition on_db {E A} (m : stm Db E A) : stm WS E A := λ s,
  let '(r, d) := m s.1 in (r, (d, s.2)).
Definition on_set {E} (f : JobSet → JobSet) : stm WS E unit := λ s, (Ok tt, (s.1, f s.2)).

(** The tables of a job, or [None] when it cannot be initialised. *)
Context (job_tables : JobDescriptor → option (list Z)).
Context (node : string).

Definition get_current_retry_index (i : Z) (d : Db) : Z :=
  default 0 (list_max (retry_index <$> get_attempts_for_job i d)).

(** The common shape of [mark_job_stopped], [mark_job_completed] and
    [mark_job_failed]. *)
Definition mark_job (mark : Z → Z → stm Db Error unit) (now i : Z) : stm Db Error unit :=
  idx ← gets (get_current_retry_index i);
  _ ← mark now i;
  mark_attempt_completed now i idx.

Definition mark_job_running (now i : Z) : stm Db Error unit := mark_running now i.
Definition mark_job_stopping (now i : Z) : stm Db Error unit := mark_stopping now i.
Definition mark_job_stopped : Z → Z → stm Db Error unit := mark_job mark_stopped.
Definition mark_job_completed : Z → Z → stm Db Error unit := mark_job mark_completed.
Definition mark_job_failed : Z → Z → stm Db Error unit := mark_job mark_failed.

(** Parsing the descriptor, and [job_impl::new]. *)
Definition job_new (i : Z) (d : JobDescriptor) : stm Db SpawnJobError unit :=
  match d with
  | OtherJson => throw DescriptorParseFailed
  | Dump _ _ _ _ _ _ =>
      match job_tables d with
      | None => throw JobInitializationFailed
      | Some locations => map_err (λ _, JobInitializationFailed) (assign_job_writer locations i)
      end
  end.

(** Construct the job instance and spawn it in the job set. *)
Definition start_job (j : Job) : stm WS SpawnJobError unit :=
  _ ← on_db (job_new (job_id j) (desc j));
  on_set (spawn (job_id j)).

Definition spawn_job (now : Z) (j : Job) : stm WS SpawnJobError unit :=
  running ← gets (λ s, job_running (job_id j) s.2);
  if running : bool then mret tt
  else
    _ ← (if bool_decide (status j = Running) then mret tt
         else on_db (map_err StatusUpdateFailed (mark_job_running now (job_id j))));
    start_job j.

Definition abort_job (now i : Z) : stm WS Error unit :=
  _ ← on_db (mark_job_stopping now i);
  on_set (abort i).

Definition handle_job_notification_action (now i : Z) (a : JobAction) : stm WS WorkerError unit :=
  match a with
  | ActionStart =>
      found ← gets (λ s, get_by_id i s.1);
      match found with
      | None => mret tt
      | Some j => map_err (StartActionFailed i) (spawn_job now j)
      end
  | ActionStop => map_err (StopActionFailed i) (abort_job now i)
  end.

Definition handle_job_result (now i : Z) (r : JoinError + unit) : stm WS WorkerError unit :=
  match r with
  | inr _ => map_err (MarkCompletedFailed i) (on_db (mark_job_completed now i))
  | inl JoinFailed => map_err (MarkFailedFailed i) (on_db (mark_job_failed now i))
  | inl Aborted => map_err (MarkStoppedFailed i) (on_db (mark_job_stopped now i))
  | inl Panicked => map_err (MarkFailedFailed i) (on_db (mark_job_failed now i))
  end.

Definition reconcile_one (now : Z) (j : Job) : stm WS WorkerError unit :=
  match status j with
  | Scheduled | Running => map_err (ReconcileSpawnFailed (job_id j)) (spawn_job now j)
  | StopRequested => map_err (ReconcileAbortFailed (job_id j)) (abort_job now (job_id j))
  | _ => mret tt
  end.

Definition reconcile_jobs (now : Z) : stm WS WorkerError unit :=
  active_jobs ← gets (λ s, get_active node s.1);
  for_each (reconcile_one now) active_jobs.

(** The start of a worker: the jobs it should be running are spawned again. *)
Definition bootstrap (now : Z) : stm WS WorkerError unit :=
  scheduled_jobs ← gets (λ s, get_scheduled node s.1);
  for_each (λ j, map_err (BootstrapSpawnJob (job_id j)) (spawn_job now j)) scheduled_jobs.

(** The arms of the main loop that end in a handler. *)
Inductive Event :=
  | Notification (i : Z) (a : JobAction)
  | TaskDone (tid : Z) (r : TaskResult)
  | ReconcileTick.

Definition handle_event (now : Z) (e : Event) : stm WS WorkerError unit :=
  match e with
  | Notification i a => handle_job_notification_action now i a
  | TaskDone tid r => λ s,
      match join_next_with_id tid r s.2 with
      | (Ok (i, res), js) => handle_job_result now i res (s.1, js)
      | (_, js) => (Panic, (s.1, js))
      end
  | ReconcileTick => reconcile_jobs now
  end.

(** ** What the statements of a worker do to the database *)

(** Only job [i] changes, by the effects of Jobs.v other than a retry. *)
Definition touch (i : Z) (d d' : Db) : Prop :=
  rtc (change []) d d' /\ ∀ k, k ≠ i → jobs d' !! k = jobs d !! k.

Lemma touch_refl i d : touch i d d.
Proof. by split. Qed.

Lemma touch_trans i d1 d2 d3 : touch i d1 d2 → touch i d2 d3 → touch i d1 d3.
Proof.
  intros [H1 E1] [H2 E2]. split; [by etransitivity|]. intros k Hk. by rewrite E2, E1.
Qed.

Lemma rtc_change_wf d d' : rtc (change []) d d' → db_wf d → db_wf d'.
Proof. induction 1; [done|]. intros. eauto using change_wf. Qed.

(** Marking: the status moves, or nothing does. *)
Definition marked (expected : list JobStatus) (s : JobStatus) (i : Z)
    (r : comp Error unit) (d d' : Db) : Prop :=
  match r with
  | Ok _ => ∃ j now, jobs d !! i = Some j /\ status j ∈ expected
                     /\ jobs d' = <[i := set_status now s j]> (jobs d)
  | Err _ => d' = d /\ ∀ j, jobs d !! i = Some j → status j ∉ expected
  | _ => False
  end.

Definition can_mark (mark : Z → Z → stm Db Error unit) (expected : list JobStatus) (s : JobStatus) : Prop :=
  ∀ now i d, marked expected s i (mark now i d).1 d (mark now i d).2
             /\ rtc (change []) d (mark now i d).2.

Lemma update_can_mark expected s :
  (∀ a, a ∈ expected → lifecycle_edge a s = true /\ a ≠ Failed) →
  can_mark (λ now i, map_err JobStatusUpdate (update_status_if_any_state now i expected s)) expected s.
Proof.
  intros He now i d. split; [|apply rtc_once; rewrite map_err_snd; by apply change_update].
  unfold map_err, update_status_if_any_state. destruct (jobs d !! i) as [j|] eqn:Hj; [|cbn; split; [done|congruence]].
  case_bool_decide as Hin; cbn.
  - exists j, now. auto.
  - split; [done|]. rewrite Hj. by intros ? [= <-].
Qed.

Lemma mark_job_can_mark mark expected s :
  can_mark mark expected s → can_mark (mark_job mark) expected s.
Proof.
  intros Hm now i d. unfold mark_job, gets, mbind, stm_bind. destruct (Hm now i d) as [Hr Hc].
  destruct (mark now i d) as [r d']. cbn [fst snd] in *.
  destruct r as [[]|e| |]; cbn in Hr; [|done..]. split.
  - destruct Hr as (j & now' & ? & ? & ?). exists j, now'. done.
  - etransitivity; [exact Hc|]. apply rtc_once, change_attempt_completed.
Qed.

Lemma mark_running_ok : can_mark mark_job_running [Scheduled] Running.
Proof. apply update_can_mark. set_solver. Qed.
Lemma mark_stopping_ok : can_mark mark_job_stopping [StopRequested] Stopping.
Proof. apply update_can_mark. set_solver. Qed.
Lemma mark_stopped_ok : can_mark mark_job_stopped [Stopping] Stopped.
Proof. apply mark_job_can_mark, update_can_mark. set_solver. Qed.
Lemma mark_completed_ok : can_mark mark_job_completed [Running] Completed.
Proof. apply mark_job_can_mark, update_can_mark. set_solver. Qed.
Lemma mark_failed_ok : can_mark mark_job_failed [Scheduled; Running] Failed.
Proof. apply mark_job_can_mark, update_can_mark. set_solver. Qed.

Lemma marked_touch mark expected s now i d :
  can_mark mark expected s → touch i d (mark now i d).2.
Proof.
  intros Hm. destruct (Hm now i d) as [Hr Hc]. split; [done|]. intros k Hk.
  destruct (mark now i d) as [[[]|e| |] d']; cbn in *; [|by destruct Hr as [-> _]|done..].
  destruct Hr as (j & now' & _ & _ & ->). by rewrite lookup_insert_ne.
Qed.

(** Starting a job leaves the jobs alone, and returns or fails. *)
Lemma job_new_jobs i ds d :
  jobs (job_new i ds d).2 = jobs d /\ rtc (change []) d (job_new i ds d).2
  /\ ((job_new i ds d).1 = Ok tt \/ ∃ e, (job_new i ds d).1 = Err e).
Proof.
  assert (∀ e, jobs d = jobs d /\ rtc (change []) d d
    /\ (Err e = Ok tt \/ ∃ e' : SpawnJobError, (Err e : comp _ unit) = Err e')) as Herr by (intros e; split_and!; eauto using rtc_refl).
  unfold job_new. destruct ds as [eb mw n m h k|]; [|apply Herr].
  destruct (job_tables _) as [ls|]; [|apply Herr].
  unfold map_err, assign_job_writer. destruct (_ && _); [apply Herr|].
  cbn [fst snd]. split; [done|]. split; [|by left]. apply rtc_once. apply change_none; [done|cbn; lia|done].
Qed.

(** The jobs are as before, or job [i] moved from one of [expected] to [s]. *)
Definition moved (i : Z) (expected : list JobStatus) (s : JobStatus) (d d' : Db) : Prop :=
  ∃ j now, jobs d !! i = Some j /\ status j ∈ expected /\ jobs d' = <[i := set_status now s j]> (jobs d).

Lemma start_job_cases j d js :
  let '(r, (d', js')) := start_job j (d, js) in
  touch (job_id j) d d' /\ jobs d' = jobs d /\
  match r with Ok _ => js' = spawn (job_id j) js | Err _ => js' = js | _ => False end.
Proof.
  unfold start_job, on_db, on_set, mbind, stm_bind. cbv beta iota. cbn [fst snd].
  destruct (job_new_jobs (job_id j) (desc j) d) as (Hj & Hc & Hr).
  destruct (job_new _ _ d) as [r d1]. cbn [fst snd] in *.
  assert (touch (job_id j) d d1) by (split; [done|]; by rewrite Hj).
  by destruct Hr as [->|[e ->]].
Qed.

Lemma spawn_job_cases now j d js :
  let '(r, (d', js')) := spawn_job now j (d, js) in
  touch (job_id j) d d' /\
  (jobs d' = jobs d \/ status j ≠ Running /\ moved (job_id j) [Scheduled] Running d d') /\
  match r with
  | Ok _ =>
      if job_running (job_id j) js then d' = d /\ js' = js
      else js' = spawn (job_id j) js /\
           (if bool_decide (status j = Running) then jobs d' = jobs d
            else moved (job_id j) [Scheduled] Running d d')
  | Err _ => js' = js /\ job_running (job_id j) js = false
  | _ => False
  end.
Proof.
  unfold spawn_job, gets, on_db, mbind, stm_bind. cbv beta iota. cbn [fst snd].
  destruct (job_running (job_id j) js); [by split_and!; [apply touch_refl|left|..]|].
  case_bool_decide as Hst.
  - cbn [mret stm_ret]. pose proof (start_job_cases j d js) as Hs.
    destruct (start_job j (d, js)) as [r [d' js']]. destruct Hs as (? & ? & Hr).
    split; [done|]. split; [by left|]. by destruct r.
  - pose proof (marked_touch _ _ _ now (job_id j) d mark_running_ok) as Ht.
    destruct (mark_running_ok now (job_id j) d) as [Hm _].
    unfold map_err. cbn [fst snd]. destruct (mark_job_running now (job_id j) d) as [r d0]. cbn [fst snd] in *.
    destruct r as [[]|e| |]; [|by destruct Hm as [-> _]; split_and!; [|left|..]|done..].
    pose proof (start_job_cases j d0 js) as Hs.
    destruct (start_job j (d0, js)) as [r [d' js']]. destruct Hs as (? & E & Hr).
    assert (moved (job_id j) [Scheduled] Running d d') as Hmv.
    { destruct Hm as (j0 & now0 & ? & ? & Hd). exists j0, now0. by rewrite E. }
    split; [by eapply touch_trans|]. split; [by right|]. by destruct r.
Qed.

Lemma abort_job_cases now i d js :
  let '(r, (d', js')) := abort_job now i (d, js) in
  touch i d d' /\
  match r with
  | Ok _ => js' = abort i js /\ moved i [StopRequested] Stopping d d'
  | Err _ => js' = js /\ d' = d
  | _ => False
  end.
Proof.
  unfold abort_job, on_db, on_set, mbind, stm_bind. cbv beta iota. cbn [fst snd].
  pose proof (marked_touch _ _ _ now i d mark_stopping_ok) as Ht.
  destruct (mark_stopping_ok now i d) as [Hm _].
  destruct (mark_job_stopping now i d) as [[[]|e| |] d']; cbn [fst snd] in *; [|by destruct Hm|done..].
  split; [done|]. split; [done|]. destruct Hm as (j & now' & ?). by exists j, now'.
Qed.

(** The statuses from which the result of a task may be recorded, and the
    status it gives. *)
Definition result_edge (r : JoinError + unit) : list JobStatus * JobStatus :=
  match r with
  | inr _ => ([Running], Completed)
  | inl JoinFailed | inl Panicked => ([Scheduled; Running], Failed)
  | inl Aborted => ([Stopping], Stopped)
  end.

Lemma handle_job_result_cases now i r d js :
  let '(res, (d', js')) := handle_job_result now i r (d, js) in
  touch i d d' /\ js' = js /\
  match res with
  | Ok _ => moved i (result_edge r).1 (result_edge r).2 d d'
  | Err _ => d' = d
  | _ => False
  end.
Proof.
  assert (∀ mark expected s (f : Error → WorkerError), can_mark mark expected s →
    let '(res, (d', js')) := map_err f (on_db (mark now i)) (d, js) in
    touch i d d' /\ js' = js /\
    match res with Ok _ => moved i expected s d d' | Err _ => d' = d | _ => False end) as Hgen.
  { intros mark expected s f Hm. pose proof (marked_touch _ _ _ now i d Hm) as Ht.
    destruct (Hm now i d) as [Hr _]. unfold map_err, on_db. cbn [fst snd].
    destruct (mark now i d) as [[[]|e| |] d']; cbn [fst snd] in *; [|by destruct Hr as [-> _]|done..].
    split; [done|]. split; [done|]. destruct Hr as (j & now' & ?). by exists j, now'. }
  destruct r as [[]|[]]; cbn [handle_job_result result_edge fst snd]; apply Hgen.
  - apply mark_failed_ok.
  - apply mark_stopped_ok.
  - apply mark_failed_ok.
  - apply mark_completed_ok.
Qed.

(** ** The invariant of a worker *)

(** The two tables are inverse to each other and list the live tasks. *)
Record jobset_wf (js : JobSet) : Prop := {
  handles_ids i tid : job_id_to_handle js !! i = Some tid ↔ task_id_to_job_id js !! tid = Some i;
  ids_live tid : is_Some (task_id_to_job_id js !! tid) ↔ tid ∈ js_live (tasks js)
}.

Definition active (s : JobStatus) : bool :=
  match s with Running | StopRequested | Stopping => true | _ => false end.

(** A tracked job is one of the node's jobs, in a status a task may have; the
    task was aborted only if the job is [Stopping]. *)
Definition tracked_ok (d : Db) (w : string) (js : JobSet) : Prop :=
  ∀ i tid, job_id_to_handle js !! i = Some tid →
    ∃ j, jobs d !! i = Some j /\ node_id j = w /\ active (status j) = true
         /\ (tid ∈ js_aborted (tasks js) → status j = Stopping).

Lemma jobset_default_wf : jobset_wf jobset_default.
Proof.
  split; cbn.
  - intros i tid. by rewrite !lookup_empty.
  - intros tid. rewrite lookup_empty, js_empty_live. split; [by intros []|set_solver].
Qed.

Lemma spawn_wf i js : jobset_wf js → job_running i js = false → jobset_wf (spawn i js).
Proof.
  intros [Hh Hl] Hr. apply bool_decide_eq_false in Hr. unfold spawn.
  pose proof (js_spawn_fresh (tasks js)) as Hf. pose proof (js_spawn_live (tasks js)) as Hlive.
  destruct (js_spawn (tasks js)) as [tid t]. cbn [fst snd] in *.
  assert (task_id_to_job_id js !! tid = None) as Hnone.
  { apply eq_None_not_Some. rewrite Hl. done. }
  split; cbn [job_id_to_handle task_id_to_job_id tasks].
  - intros k u. rewrite !lookup_insert_Some. rewrite Hh. split.
    + intros [[<- <-]|[Hk Hu]]; [by left|]. right. split; [|done]. intros <-. congruence.
    + intros [[<- <-]|[Hk Hu]]; [by left|]. right. split; [|done]. intros <-.
      apply Hh in Hu. destruct Hr. eauto.
  - intros u. rewrite lookup_insert_is_Some, Hl, Hlive, elem_of_union, elem_of_singleton.
    destruct (decide (tid = u)); naive_solver.
Qed.

Lemma abort_wf i js : jobset_wf js → jobset_wf (abort i js).
Proof.
  intros [Hh Hl]. unfold abort. destruct (job_id_to_handle js !! i); [|done].
  split; cbn; [done|]. intros u. by rewrite js_abort_live.
Qed.

Lemma join_wf tid r js :
  jobset_wf js → tid ∈ js_live (tasks js) →
  ∃ i res, job_id_to_handle js !! i = Some tid /\
    join_next_with_id tid r js
    = (Ok (i, res), mkJobSet (delete i (job_id_to_handle js)) (delete tid (task_id_to_job_id js))
                             (js_join tid (tasks js)))
    /\ (res = inl Aborted → r = Cancelled)
    /\ jobset_wf (join_next_with_id tid r js).2.
Proof.
  intros [Hh Hl] [i Hi]%Hl. pose proof Hi as Hi'. apply Hh in Hi'. exists i.
  unfold join_next_with_id. rewrite Hi, Hi'. eexists. split; [done|]. split; [done|].
  split; [by destruct r|]. split; cbn [snd job_id_to_handle task_id_to_job_id tasks].
  - intros k u. rewrite !lookup_delete_Some, Hh. split; intros [Hk Hu]; (split; [|done]); intros <-; [congruence|].
    apply Hh in Hu. congruence.
  - intros u. rewrite lookup_delete_is_Some, Hl, js_join_live. set_solver.
Qed.

(** A change of other jobs keeps what a worker tracks. *)
Lemma tracked_ok_other d d' i w js :
  tracked_ok d w js → (∀ k, k ≠ i → jobs d' !! k = jobs d !! k) → job_running i js = false →
  tracked_ok d' w js.
Proof.
  intros Ht Hd Hr%bool_decide_eq_false k tid Hk. rewrite Hd; [by apply Ht|].
  intros ->. destruct Hr. eauto.
Qed.

Lemma moved_lookup i expected s d d' k :
  moved i expected s d d' → k ≠ i → jobs d' !! k = jobs d !! k.
Proof. intros (j & now & _ & _ & ->) Hk. by rewrite lookup_insert_ne. Qed.

Lemma tracked_ok_spawn d d' i j w js :
  tracked_ok d w js → jobset_wf js → job_running i js = false →
  (∀ k, k ≠ i → jobs d' !! k = jobs d !! k) →
  jobs d' !! i = Some j → node_id j = w → status j = Running →
  tracked_ok d' w (spawn i js).
Proof.
  intros Ht Hwf Hr Hd Hj Hn Hs k tid. unfold spawn.
  pose proof (js_spawn_fresh (tasks js)) as Hf. pose proof (js_spawn_aborted (tasks js)) as Ha.
  destruct (js_spawn (tasks js)) as [tid' t]. cbn [fst snd job_id_to_handle tasks] in *.
  intros [[<- <-]|[Hne Hk]]%lookup_insert_Some.
  - exists j. rewrite Hs, Ha. split_and!; [done..|]. set_solver.
  - rewrite Hd by done. destruct (Ht k tid Hk) as (j' & ? & ? & ? & Hab). exists j'.
    split_and!; [done..|]. rewrite Ha. set_solver.
Qed.

Lemma tracked_ok_abort d d' i w js :
  tracked_ok d w js → jobset_wf js → moved i [StopRequested] Stopping d d' →
  tracked_ok d' w (abort i js).
Proof.
  intros Ht Hwf Hm k tid Hk. pose proof Hm as (j & now & Hj & Hs & Hd). rewrite Hd.
  assert (job_id_to_handle js !! k = Some tid) as Hk'.
  { revert Hk. unfold abort. by destruct (job_id_to_handle js !! i). }
  destruct (Ht k tid Hk') as (j' & Hj' & Hn & Ha & Hab). destruct (decide (i = k)) as [->|Hne].
  - rewrite Hj in Hj'. injection Hj' as <-. rewrite lookup_insert_eq. eexists. split; [done|]. done.
  - rewrite lookup_insert_ne by done. exists j'. split_and!; [done..|]. intros Hin. apply Hab.
    revert Hin. unfold abort. destruct (job_id_to_handle js !! i) as [tid'|] eqn:E; [|done].
    cbn [tasks]. intros [Heq|?]%js_abort_aborted%elem_of_union; [|done].
    apply elem_of_singleton in Heq as ->. exfalso. apply Hne.
    apply (handles_ids js Hwf) in E, Hk'. congruence.
Qed.

Record worker_inv (w : string) (d : Db) (js : JobSet) : Prop := {
  inv_db : db_wf d;
  inv_set : jobset_wf js;
  inv_tracked : tracked_ok d w js
}.

(** A row just read from the database. *)
Definition row_of (w : string) (d : Db) (j : Job) : Prop :=
  jobs d !! job_id j = Some j /\ node_id j = w.

Lemma touch_wf i d d' : touch i d d' → db_wf d → db_wf d'.
Proof. intros [? _]. by apply rtc_change_wf. Qed.

Lemma spawn_job_inv now j w d js :
  worker_inv w d js → row_of w d j →
  let '(r, (d', js')) := spawn_job now j (d, js) in
  match r with Ok _ => worker_inv w d' js' | _ => True end.
Proof.
  intros [Hd Hs Ht] [Hj Hn]. pose proof (spawn_job_cases now j d js) as Hc.
  destruct (spawn_job now j (d, js)) as [r [d' js']]. destruct Hc as (Htouch & _ & Hc).
  destruct r as [[]|e| |]; [|done..]. destruct (job_running (job_id j) js) eqn:Er.
  { destruct Hc as [-> ->]. by split. }
  destruct Hc as [-> Hc]. split; [by eapply touch_wf|by apply spawn_wf|].
  case_bool_decide as Hst.
  - apply (tracked_ok_spawn d d' _ j); try done; intros; by rewrite Hc.
  - destruct Hc as (j0 & now0 & Hj0 & _ & Hd').
    rewrite Hj in Hj0. injection Hj0 as <-.
    apply (tracked_ok_spawn d d' _ (set_status now0 Running j)); try done.
    + intros k Hk. by rewrite Hd', lookup_insert_ne.
    + by rewrite Hd', lookup_insert_eq.
Qed.

Lemma abort_job_inv now i w d js :
  worker_inv w d js →
  let '(r, (d', js')) := abort_job now i (d, js) in
  match r with Ok _ => worker_inv w d' js' | _ => True end.
Proof.
  intros [Hd Hs Ht]. pose proof (abort_job_cases now i d js) as Hc.
  destruct (abort_job now i (d, js)) as [r [d' js']]. destruct Hc as [Htouch Hc].
  destruct r as [[]|e| |]; [|done..]. destruct Hc as [-> Hm].
  split; [by eapply touch_wf|by apply abort_wf|by eapply tracked_ok_abort].
Qed.

Definition touches (l : list Z) (d d' : Db) : Prop :=
  rtc (change []) d d' /\ ∀ k, k ∉ l → jobs d' !! k = jobs d !! k.

Lemma touch_touches i d d' : touch i d d' → touches [i] d d'.
Proof. intros [? Hk]. split; [done|]. intros k Hin. apply Hk. set_solver. Qed.

(** A handler of one row that does not panic, touches that row only and keeps
    an invariant [P] when the row is fresh; [Q] is what an error still keeps. *)
Definition row_handler {E} (w : string) (P : Db → JobSet → Prop) (Q : Db → Prop) (f : Job → stm WS E unit) : Prop :=
  ∀ j d js, P d js → row_of w d j →
    let '(r, (d', js')) := f j (d, js) in
    touch (job_id j) d d' /\
    match r with Ok _ => P d' js' | Err _ => Q d' | _ => False end.

Lemma for_each_rows {E} w P Q (f : Job → stm WS E unit) l d js :
  row_handler w P Q f → P d js → Forall (row_of w d) l → NoDup (job_id <$> l) →
  let '(r, (d', js')) := for_each f l (d, js) in
  touches (job_id <$> l) d d' /\
  match r with Ok _ => P d' js' | Err _ => Q d' | _ => False end.
Proof.
  intros Hf. revert d js. induction l as [|j l IH]; intros d js Hp Hrows Hnd; [by split|].
  apply list.Forall_cons in Hrows as [Hj Hrows]. cbn [fmap list_fmap] in *.
  apply NoDup_cons in Hnd as [Hnew Hnd]. cbn [for_each]. unfold mbind, stm_bind.
  pose proof (Hf j d js Hp Hj) as Hc. destruct (f j (d, js)) as [r [d1 js1]].
  destruct Hc as [[Hrtc Htouch] Hc]. assert (touches (job_id j :: (job_id <$> l)) d d1) as Ht1.
  { split; [done|]. intros k Hk. apply Htouch. set_solver. }
  destruct r as [[]|e| |]; [|done..].
  assert (Forall (row_of w d1) l) as Hrows1.
  { rewrite Forall_forall in Hrows |- *. intros x Hx. destruct (Hrows x Hx) as [? ?]. split; [|done].
    rewrite Htouch; [done|]. intros E'. apply Hnew. rewrite <- E'. by apply list_elem_of_fmap_2. }
  specialize (IH d1 js1 Hc Hrows1 Hnd). destruct (for_each f l (d1, js1)) as [r2 [d2 js2]].
  destruct IH as [[Hrtc2 Htouch2] Hr2]. split; [|done]. split; [by etransitivity|].
  intros k Hk. rewrite Htouch2 by set_solver. apply Htouch. set_solver.
Qed.

Lemma node_rows w sts d :
  db_wf d → Forall (row_of w d) (get_by_node_id_and_statuses w sts d)
            /\ NoDup (job_id <$> get_by_node_id_and_statuses w sts d)
            /\ Forall (λ j, status j ∈ sts) (get_by_node_id_and_statuses w sts d).
Proof.
  intros Hwf. split; [|split].
  - apply Forall_forall. intros j [[Hp _]%andb_true_iff [i Hi]]%select_jobs_elem.
    apply bool_decide_eq_true in Hp. split; [|done]. by rewrite (wf_job_key d Hwf _ _ Hi).
  - by apply strict_sorted_keys_NoDup, select_jobs_sorted.
  - apply Forall_forall. intros j [[_ Hp]%andb_true_iff _]%select_jobs_elem.
    by apply bool_decide_eq_true in Hp.
Qed.

(** What the main loop delivers to a handler: notifications reach the node of
    the job, and tasks end once, cancelled only after an abort. *)
Definition deliverable (w : string) (d : Db) (js : JobSet) (e : Event) : Prop :=
  match e with
  | Notification i _ => ∀ j, jobs d !! i = Some j → node_id j = w
  | TaskDone tid r =>
      tid ∈ js_live (tasks js) /\ (r = Cancelled → tid ∈ js_aborted (tasks js))
  | ReconcileTick => True
  end.

(** The effect of a handler: jobs of other nodes are left alone, it does not
    panic, [P] holds when it returns and [Q] when it fails. *)
Definition handled {E} (w : string) (d : Db) (P : Db → JobSet → Prop) (Q : Db → Prop)
    (out : comp E unit * WS) : Prop :=
  let '(r, (d', js')) := out in
  (∃ l, touches l d d' /\ ∀ i j, i ∈ l → jobs d !! i = Some j → node_id j = w) /\
  match r with Ok _ => P d' js' | Err _ => Q d' | _ => False end.

Lemma row_handler_map_err {E E'} w P Q (g : E → E') (f : Job → stm WS E unit) :
  row_handler w P Q f → row_handler w P Q (λ j, map_err g (f j)).
Proof.
  intros Hf j d js Hp Hj. specialize (Hf j d js Hp Hj). unfold map_err.
  by destruct (f j (d, js)) as [[[]|e| |] [d' js']].
Qed.

Lemma spawn_row_handler now w P (Q : Db → Prop) :
  (∀ j d js d' js', P d js → row_of w d j → spawn_job now j (d, js) = (Ok tt, (d', js')) → P d' js') →
  (∀ j d js d' js' e, P d js → row_of w d j → spawn_job now j (d, js) = (Err e, (d', js')) → Q d') →
  row_handler w P Q (spawn_job now).
Proof.
  intros HP HQ j d js Hp Hj. pose proof (spawn_job_cases now j d js) as Hc.
  destruct (spawn_job now j (d, js)) as [[[]|e| |] [d' js']] eqn:E; destruct Hc as (Ht & _ & Hc); try done;
    (split; [done|]); eauto.
Qed.

Lemma abort_row_handler now w P (Q : Db → Prop) :
  (∀ i d js d' js', P d js → abort_job now i (d, js) = (Ok tt, (d', js')) → P d' js') →
  (∀ d js, P d js → Q d) →
  row_handler w P Q (λ j, abort_job now (job_id j)).
Proof.
  intros HP HQ j d js Hp Hj. pose proof (abort_job_cases now (job_id j) d js) as Hc.
  destruct (abort_job now (job_id j) (d, js)) as [[[]|e| |] [d' js']] eqn:E; destruct Hc as [Ht Hc]; try done;
    (split; [done|]); [eauto|]. destruct Hc as [_ ->]. eauto.
Qed.

Lemma reconcile_row_handler now w P Q :
  row_handler w P Q (spawn_job now) → row_handler w P Q (λ j, abort_job now (job_id j)) →
  row_handler w P Q (reconcile_one now).
Proof.
  intros Hs Ha j d js Hp Hj. unfold reconcile_one.
  assert (touch (job_id j) d d /\ P d js) as Hret by (split; [apply touch_refl|done]).
  destruct (status j); try exact Hret.
  - exact (row_handler_map_err w P Q (ReconcileSpawnFailed (job_id j)) _ Hs j d js Hp Hj).
  - exact (row_handler_map_err w P Q (ReconcileSpawnFailed (job_id j)) _ Hs j d js Hp Hj).
  - exact (row_handler_map_err w P Q (ReconcileAbortFailed (job_id j)) _ Ha j d js Hp Hj).
Qed.

(** Running a row handler over rows of the node. *)
Lemma rows_handled {E} w P Q (f : Job → stm WS E unit) sts d js :
  row_handler w P Q f → db_wf d → P d js →
  handled w d P Q (for_each f (get_by_node_id_and_statuses w sts d) (d, js)).
Proof.
  intros Hf Hwf Hp. destruct (node_rows w sts d Hwf) as (Hrows & Hnd & _).
  pose proof (for_each_rows w P Q f _ d js Hf Hp Hrows Hnd) as Hc. unfold handled.
  destruct (for_each _ _ _) as [r [d' js']]. destruct Hc as [Ht Hr]. split; [|done].
  eexists. split; [exact Ht|]. intros i j (x & -> & Hx)%list_elem_of_fmap Hi.
  rewrite Forall_forall in Hrows. destruct (Hrows x Hx) as [Hx1 Hx2]. congruence.
Qed.

(** One row handled on its own. *)
Lemma row_handled {E} w P Q (f : Job → stm WS E unit) j d js :
  row_handler w P Q f → P d js → row_of w d j → handled w d P Q (f j (d, js)).
Proof.
  intros Hf Hp Hj. specialize (Hf j d js Hp Hj). unfold handled.
  destruct (f j (d, js)) as [r [d' js']]. destruct Hf as [Ht Hr]. split; [|done].
  exists [job_id j]. split; [by apply touch_touches|]. destruct Hj.
  intros i j' ->%list_elem_of_singleton ?. congruence.
Qed.

(** An invariant of a worker that every handler keeps, one premise for each
    way a handler ends well. *)
Record handler_closed (w : string) (P : Db → JobSet → Prop) (Q : Db → Prop) : Prop := {
  closed_inv d js : P d js → worker_inv w d js;
  closed_kept d js : P d js → Q d;
  closed_spawn_error now j d js d' js' e :
    P d js → row_of w d j → spawn_job now j (d, js) = (Err e, (d', js')) → Q d';
  closed_spawn now j d js d' js' :
    P d js → row_of w d j → spawn_job now j (d, js) = (Ok tt, (d', js')) → P d' js';
  closed_abort now i d js d' js' :
    P d js → abort_job now i (d, js) = (Ok tt, (d', js')) → P d' js';
  closed_result tid r i res d js d' js' :
    P d js → tid ∈ js_live (tasks js) → (r = Cancelled → tid ∈ js_aborted (tasks js)) →
    job_id_to_handle js !! i = Some tid → join_next_with_id tid r js = (Ok (i, res), js') →
    moved i (result_edge res).1 (result_edge res).2 d d' → touch i d d' → P d' js'
}.

Lemma handled_map_err {E E'} w d P Q (g : E → E') (m : stm WS E unit) s :
  handled w d P Q (m s) → handled w d P Q (map_err g m s).
Proof. unfold handled, map_err. by destruct (m s) as [[[]|e| |] [d' js']]. Qed.

Lemma handle_event_handled now w P Q e d js :
  node = w → handler_closed w P Q → P d js → deliverable w d js e →
  handled w d P Q (handle_event now e (d, js)).
Proof.
  intros Hnode Hc Hp Hdel. pose proof (closed_inv w P Q Hc d js Hp) as [Hwf Hset Htr].
  pose proof (spawn_row_handler now w P Q (closed_spawn w P Q Hc now) (closed_spawn_error w P Q Hc now)) as Hspawn.
  pose proof (abort_row_handler now w P Q (closed_abort w P Q Hc now) (closed_kept w P Q Hc)) as Habort.
  destruct e as [i a|tid r|]; cbn [handle_event deliverable] in *.
  - destruct a; cbn [handle_job_notification_action].
    + unfold gets, mbind, stm_bind. cbv beta iota. unfold get_by_id. cbn [fst].
      destruct (jobs d !! i) as [j|] eqn:Hj.
      * apply handled_map_err, row_handled; [done..|]. split; [by rewrite (wf_job_key d Hwf _ _ Hj)|].
        by apply Hdel.
      * split; [|done]. exists []. split; [by split|]. intros ? ? []%elem_of_nil.
    + apply handled_map_err. destruct (jobs d !! i) as [j|] eqn:Hj.
      * rewrite <- (wf_job_key d Hwf _ _ Hj).
        apply (row_handled w P Q (λ j, abort_job now (job_id j))); [done..|].
        split; [by rewrite (wf_job_key d Hwf _ _ Hj)|by apply Hdel].
      * pose proof (abort_job_cases now i d js) as Hcase. unfold handled.
        destruct (abort_job now i (d, js)) as [r [d' js']]. destruct Hcase as [Ht Hr].
        split; [exists [i]; split; [by apply touch_touches|]; intros ? ? ->%list_elem_of_singleton; congruence|].
        destruct r; [destruct Hr as [_ (j & now' & ? & _)]; congruence| |done..].
        destruct Hr as [_ ->]. by eapply (closed_kept w P Q Hc).
  - destruct Hdel as [Hlive Hcan].
    destruct (join_wf tid r js Hset Hlive) as (i & res & Hh & Hjoin & Hab & _).
    cbn [fst snd]. rewrite Hjoin.
    match goal with |- handled _ _ _ _ (handle_job_result _ _ _ (_, ?js1)) => set (js' := js1) in * end.
    pose proof (handle_job_result_cases now i res d js') as Hr. unfold handled.
    destruct (handle_job_result now i res (d, js')) as [o [d' js'']]. destruct Hr as (Ht & -> & Hr).
    split.
    + exists [i]. split; [by apply touch_touches|]. intros k j ->%list_elem_of_singleton Hk.
      destruct (Htr i tid Hh) as (j' & ? & ? & _). congruence.
    + destruct o; [by eapply (closed_result w P Q Hc)| |done..].
      subst d'. by eapply (closed_kept w P Q Hc).
  - unfold reconcile_jobs, gets, mbind, stm_bind. cbv beta iota. rewrite Hnode.
    apply rows_handled; [by apply reconcile_row_handler|done..].
Qed.

Lemma bootstrap_handled now w P Q d js :
  node = w → handler_closed w P Q → P d js → handled w d P Q (bootstrap now (d, js)).
Proof.
  intros Hnode Hc Hp. unfold bootstrap, gets, mbind, stm_bind. cbv beta iota. rewrite Hnode.
  apply rows_handled; [|apply (closed_inv w P Q Hc d js Hp)|done].
  intros j d0 js0. apply (row_handler_map_err w P Q (BootstrapSpawnJob (job_id j)) (spawn_job now)).
  apply spawn_row_handler; [by apply (closed_spawn w P Q Hc)|by apply (closed_spawn_error w P Q Hc)].
Qed.

Lemma worker_inv_closed w : handler_closed w (worker_inv w) (λ _, True).
Proof.
  split; [done..| | |].
  - intros now j d js d' js' Hi Hrow E. pose proof (spawn_job_inv now j w d js Hi Hrow) as Hs.
    by rewrite E in Hs.
  - intros now i d js d' js' Hi E. pose proof (abort_job_inv now i w d js Hi) as Hs. by rewrite E in Hs.
  - intros tid r i res d js d' js' [Hwf Hset Htr] Hlive Hcan Hh Hjoin Hm Ht.
    destruct (join_wf tid r js Hset Hlive) as (i' & res' & Hh' & Hjoin' & _ & Hset').
    rewrite Hjoin in Hjoin'. injection Hjoin' as <- <- ->. rewrite Hjoin in Hset'. cbn [snd] in Hset'.
    split; [by eapply touch_wf|done|]. intros k u. cbn [job_id_to_handle tasks].
    intros [Hne Hk]%lookup_delete_Some. rewrite (moved_lookup _ _ _ _ _ _ Hm) by done.
    destruct (Htr k u Hk) as (j & ? & ? & ? & Hab). exists j. split_and!; [done..|].
    intros Hin. by apply Hab, (js_join_aborted tid).
Qed.

(** Job [i] is [Stopping] and this worker has no task for it. *)
Definition stopping_untracked (i : Z) (d : Db) (js : JobSet) : Prop :=
  (∃ j, jobs d !! i = Some j /\ status j = Stopping) /\ job_running i js = false.

Lemma job_running_other i k js js' :
  job_id_to_handle js' !! i = job_id_to_handle js !! i ∨ i ≠ k ∧ (∃ x, job_id_to_handle js' = <[k := x]> (job_id_to_handle js)) →
  job_running i js = false → job_running i js' = false.
Proof.
  unfold job_running. intros [->|[Hne [x ->]]]; [done|]. by rewrite lookup_insert_ne.
Qed.

Lemma stopping_untracked_closed w i :
  handler_closed w (λ d js, worker_inv w d js /\ stopping_untracked i d js)
    (λ d, ∃ j, jobs d !! i = Some j /\ status j = Stopping).
Proof.
  pose proof (worker_inv_closed w) as [_ _ _ Hspawn Habort Hresult].
  split; [by intros ? ? []|by intros ? ? [_ []]|..].
  - intros now j d js d' js' e [_ [(x & Hx & Hst) _]] [Hj _] E.
    pose proof (spawn_job_cases now j d js) as Hc. rewrite E in Hc. destruct Hc as (_ & [Hd|[Hne Hm]] & _).
    + exists x. by rewrite Hd.
    + exists x. split; [|done]. rewrite (moved_lookup _ _ _ _ _ _ Hm); [done|]. intros ->.
      destruct Hm as (j0 & _ & Hj0 & Hin%list_elem_of_singleton & _). congruence.
  - intros now j d js d' js' [Hi [(x & Hx & Hst) Hun]] Hrow E. split; [by eapply Hspawn|].
    pose proof (spawn_job_cases now j d js) as Hc. rewrite E in Hc. destruct Hc as ([_ Ht] & _ & Hc).
    destruct (job_running (job_id j) js) eqn:Er; [by destruct Hc as [-> ->]; split; eauto|].
    destruct Hc as [-> Hc]. destruct Hrow as [Hj _]. destruct (decide (i = job_id j)) as [->|Hne].
    + exfalso. rewrite Hj in Hx. injection Hx as <-. case_bool_decide; [congruence|].
      destruct Hc as (j0 & _ & Hj0 & Hin%list_elem_of_singleton & _). congruence.
    + split; [exists x; by rewrite Ht|]. apply (job_running_other i (job_id j) js); [|done]. right.
      split; [done|]. unfold spawn. destruct (js_spawn (tasks js)) as [tid t]. by exists tid.
  - intros now k d js d' js' [Hi [(x & Hx & Hst) Hun]] E. split; [by eapply Habort|].
    pose proof (abort_job_cases now k d js) as Hc. rewrite E in Hc. destruct Hc as [[_ Ht] [-> Hm]].
    split.
    + exists x. split; [|done]. destruct Hm as (j0 & _ & Hj0 & Hin%list_elem_of_singleton & _).
      rewrite Ht; [done|]. intros ->. congruence.
    + apply (job_running_other i k js); [|done]. left. unfold abort. by destruct (job_id_to_handle js !! k).
  - intros tid r k res d js d' js' [Hi [(x & Hx & Hst) Hun]] Hlive Hcan Hh Hjoin Hm Ht.
    split; [by eapply Hresult|]. assert (i ≠ k) as Hne.
    { intros ->. apply bool_decide_eq_false in Hun. destruct Hun. eauto. }
    split; [exists x; by rewrite (moved_lookup _ _ _ _ _ _ Hm)|].
    destruct (join_wf tid r js (inv_set _ _ _ Hi) Hlive) as (i' & res' & _ & Hjoin' & _).
    rewrite Hjoin in Hjoin'. injection Hjoin' as <- <- ->. apply bool_decide_eq_false.
    cbn [job_id_to_handle]. rewrite lookup_delete_ne by done. by apply bool_decide_eq_false in Hun.
Qed.

End Worker.

(** ** The system *)

Section System.
Context {T : Type} `{JoinSet T}.

(** One database, the retries its schedulers have read, and the running workers:
    a node runs one at most, because a worker holds the advisory lock of its
    node. *)
Record System := mkSystem {
  sys_db : Db;
  sys_pending : list (Z * Z);
  sys_workers : gmap string (JobSet (T := T))
}.

(** The statements of schedulers; those that mark jobs belong to workers. *)
Definition scheduler_stmt (s : Stmt) : bool :=
  match s with
  | SMarkRunning _ _ | SMarkStopping _ _ | SMarkStopped _ _ | SMarkCompleted _ _ | SMarkFailed _ _ => false
  | _ => true
  end.

(** A handler that returns keeps the worker; an error ends the worker, whose
    tasks are dropped with it. *)
Definition after (w : string) (out : comp WorkerError unit * WS (T := T))
    (ws : gmap string (JobSet (T := T))) : gmap string (JobSet (T := T)) :=
  match out.1 with Ok _ => <[w := out.2.2]> ws | _ => delete w ws end.

Inductive sys_step : System → System → Prop :=
  | sys_stmt d p ws s :
      issued p s → scheduler_stmt s = true →
      sys_step (mkSystem d p ws) (mkSystem (exec s d) p ws)
  | sys_scan d p ws now :
      sys_step (mkSystem d p ws) (mkSystem d (scanned now d ++ p) ws)
  | sys_event d p ws w js job_tables now e :
      ws !! w = Some js → deliverable w d js e →
      let out := handle_event job_tables w now e (d, js) in
      sys_step (mkSystem d p ws) (mkSystem out.2.1 p (after w out ws))
  | sys_crash d p ws w :
      sys_step (mkSystem d p ws) (mkSystem d p (delete w ws))
  | sys_start d p ws w job_tables now :
      ws !! w = None →
      let out := bootstrap job_tables w now (d, jobset_default) in
      sys_step (mkSystem d p ws) (mkSystem out.2.1 p (after w out ws)).

Definition sys_init : System := mkSystem empty_db [] ∅.

Definition sys_reachable (s : System) : Prop := rtc sys_step sys_init s.

Record sys_inv (s : System) : Prop := {
  sys_wf : db_wf (sys_db s);
  sys_retries : Forall (retry_valid (sys_db s)) (sys_pending s);
  sys_tracked w js : sys_workers s !! w = Some js → worker_inv w (sys_db s) js
}.

Lemma rtc_change_retry p d d' :
  db_wf d → rtc (change []) d d' → Forall (retry_valid d) p → Forall (retry_valid d') p.
Proof.
  intros Hwf Hr. revert Hwf. induction Hr as [|d d1 d' Hc _ IH]; intros Hwf Hp; [done|].
  apply IH; [by eapply change_wf|]. eapply list.Forall_impl; [exact Hp|].
  intros r. by apply (retry_valid_change []).
Qed.

(** A statement of a scheduler leaves a job that has a task alone, or requests
    its stop. *)
Lemma scheduler_active p s d k j :
  db_wf d → Forall (retry_valid d) p → issued p s → scheduler_stmt s = true →
  jobs d !! k = Some j → active (status j) = true →
  jobs (exec s d) !! k = Some j \/
  (status j = Running /\ ∃ now, jobs (exec s d) !! k = Some (set_status now StopRequested j)).
Proof.
  intros Hwf Hp Hi Hs Hj Ha.
  assert (∀ i x, jobs d !! i = Some x → is_terminal (status x) = true → i ≠ k) as Hterm.
  { intros i x Hx Hst ->. rewrite Hj in Hx. injection Hx as <-. by destruct (status j). }
  destruct s; try discriminate Hs; cbn [exec issued] in *; try by left.
  - left. unfold register, insert_with_default_status, insert. destruct (workers d !! node); [|done].
    cbn [snd set_jobs jobs]. rewrite lookup_insert_ne; [done|].
    pose proof (wf_job_fresh d Hwf k (mk_is_Some _ _ Hj)). lia.
  - rewrite request_stop_snd. unfold update_status_if_any_state.
    destruct (jobs d !! i) as [x|] eqn:Hx; [|by left]. case_bool_decide as Hin; [|by left].
    cbn [snd]. rewrite jobs_set_jobs. destruct (decide (i = k)) as [->|]; [|left; by rewrite lookup_insert_ne].
    rewrite lookup_insert_eq. rewrite Hj in Hx. injection Hx as <-. right.
    split; [|by eexists]. destruct (status j); try done; set_solver.
  - left. unfold delete_if_terminal, delete_by_id_and_statuses.
    destruct (jobs d !! i) as [x|] eqn:Hx; [|done]. case_bool_decide as Hin; [|done]. cbn [snd].
    change (delete i (jobs d) !! k = Some j). rewrite lookup_delete_ne; [done|].
    by apply (Hterm i x), is_terminal_in.
  - left. cbn [delete_all_by_status delete_by_status snd].
    set (l := select_jobs _ d). destruct (delete_rows_lookup l d) as [-> _]. rewrite bool_decide_false; [done|].
    intros (x & Hid & [Hpx [i' Hx]]%select_jobs_elem)%list_elem_of_fmap.
    apply bool_decide_eq_true in Hpx. apply (Hterm i' x Hx); [by apply is_terminal_in, Hi|].
    rewrite Hid. symmetry. by apply (wf_job_key d Hwf).
  - left. unfold assign_job_writer. by destruct (_ && _).
  - left. destruct (reschedule_cases now i node idx d) as [(x & Hx & Hn & ->)|[_ ->]]; [|done].
    cbn [snd]. rewrite jobs_set_attempts, jobs_set_jobs.
    rewrite Forall_forall in Hp. destruct (Hp _ Hi) as [_ Hv]. cbn [fst snd] in Hv. rewrite Hx in Hv.
    destruct Hv as [[? ?]|[Hf _]]; [congruence|]. rewrite lookup_alter_ne; [done|].
    apply (Hterm i x); [done|by rewrite Hf].
Qed.

Lemma scheduler_keeps_tracked p s d w js :
  db_wf d → Forall (retry_valid d) p → issued p s → scheduler_stmt s = true →
  worker_inv w d js → worker_inv w (exec s d) js.
Proof.
  intros Hwf Hp Hi Hs [_ Hset Ht]. split; [by eapply exec_wf|done|].
  intros i tid Hk. destruct (Ht i tid Hk) as (j & Hj & Hn & Ha & Hab).
  destruct (scheduler_active p s d i j Hwf Hp Hi Hs Hj Ha) as [Hj'|[Hr [now Hj']]].
  - exists j. auto.
  - exists (set_status now StopRequested j). split_and!; [done..|]. intros Hin%Hab. congruence.
Qed.

(** What a worker tracks survives the handlers of other workers. *)
Lemma other_keeps_tracked {E} w w' d P Q (out : comp E unit * WS (T := T)) js :
  handled w d P Q out → w' ≠ w → db_wf out.2.1 → worker_inv w' d js → worker_inv w' out.2.1 js.
Proof.
  destruct out as [r [d' js']]. cbn [fst snd]. intros [(l & [_ Hl] & Hn) _] Hne Hwf [_ Hset Ht].
  split; [done..|]. intros i tid Hk. destruct (Ht i tid Hk) as (j & Hj & Hnj & ?). exists j.
  split; [|done]. rewrite Hl; [done|]. intros Hin. apply Hne. rewrite <- Hnj. by apply (Hn i j).
Qed.

Lemma handled_db {E} w d P Q (out : comp E unit * WS (T := T)) p :
  handled w d P Q out → db_wf d → Forall (retry_valid d) p →
  db_wf out.2.1 /\ Forall (retry_valid out.2.1) p.
Proof.
  destruct out as [r [d' js']]. cbn [fst snd]. intros [(l & [Hr _] & _) _] Hwf Hp.
  split; [by eapply rtc_change_wf|by eapply rtc_change_retry].
Qed.

Lemma worker_step_inv d p ws w (out : comp WorkerError unit * WS (T := T)) :
  sys_inv (mkSystem d p ws) → handled w d (worker_inv w) (λ _, True) out →
  sys_inv (mkSystem out.2.1 p (after w out ws)).
Proof.
  intros [Hwf Hp Ht] Hh. cbn [sys_db sys_pending sys_workers] in *.
  destruct (handled_db _ _ _ _ _ p Hh Hwf Hp) as [Hwf' Hp']. split; [done..|]. cbn [sys_workers sys_db].
  intros w' js'. unfold after. destruct (decide (w' = w)) as [->|Hne].
  - destruct out as [[[]|e| |] [d' js1]]; cbn [fst snd]; [|by rewrite lookup_delete_eq..].
    rewrite lookup_insert_eq. intros [= <-]. apply Hh.
  - intros Hw'. eapply other_keeps_tracked; [exact Hh|done..|]. apply Ht.
    destruct out as [[[]|e| |] [d' js1]]; cbn [fst snd] in Hw';
      by rewrite ?lookup_delete_ne, ?lookup_insert_ne in Hw' by done.
Qed.

Lemma jobset_default_inv w d : db_wf d → worker_inv w d jobset_default.
Proof.
  intros Hwf. split; [done|apply jobset_default_wf|]. intros i tid. cbn. by rewrite lookup_empty.
Qed.

Lemma sys_step_inv s s' : sys_step s s' → sys_inv s → sys_inv s'.
Proof.
  intros Hs Hi. destruct Hs as [d p ws s Hiss Hsch|d p ws now|d p ws w js jt now e Hw Hdel|d p ws w|d p ws w jt now Hw].
  - destruct Hi as [Hwf Hp Ht]. cbn [sys_db sys_pending sys_workers] in *. split; cbn.
    + by eapply exec_wf.
    + eapply list.Forall_impl; [exact Hp|]. intros r. apply (retry_valid_change p d); [done|by apply change_exec|done].
    + intros w js Hw. eapply scheduler_keeps_tracked; eauto.
  - destruct Hi as [Hwf Hp Ht]. split; cbn; [done| |done].
    apply list.Forall_app_2; [by apply scanned_valid|done].
  - apply (worker_step_inv d p ws w); [done|]. apply handle_event_handled; [done|apply worker_inv_closed| |done].
    by apply (sys_tracked _ Hi).
  - destruct Hi as [Hwf Hp Ht]. split; cbn; [done..|]. intros w' js' [_ ?]%lookup_delete_Some. by apply Ht.
  - apply (worker_step_inv d p ws w); [done|]. apply bootstrap_handled; [done|apply worker_inv_closed|].
    apply jobset_default_inv, Hi.
Qed.

Lemma sys_reachable_inv s : sys_reachable s → sys_inv s.
Proof.
  unfold sys_reachable. revert s. apply (rtc_ind_r sys_inv).
  - split; cbn; [apply empty_db_wf|constructor|]. intros w js. by rewrite lookup_empty.
  - intros s s' _ Hs Hi. by eapply sys_step_inv.
Qed.

(** C32: In every state the system reaches, whatever is delivered, lost, crashes
    or restarts: a job with a task is assigned to the node of that task and is
    [Running], [StopRequested] or [Stopping]; no two workers run the same job;
    and no handler of a running worker panics. *)
Theorem jobs_run_once (s : System) (w : string) (js : JobSet) :
  sys_reachable s → sys_workers s !! w = Some js →
  (∀ i, job_running i js = true →
     (∃ j, jobs (sys_db s) !! i = Some j /\ node_id j = w /\ active (status j) = true)
     /\ ∀ w' js', sys_workers s !! w' = Some js' → job_running i js' = true → w' = w)
  /\ ∀ job_tables now e, deliverable w (sys_db s) js e →
       (handle_event job_tables w now e (sys_db s, js)).1 ≠ Panic.
Proof.
  intros [Hwf Hp Ht]%sys_reachable_inv Hw.
  assert (∀ w js i, sys_workers s !! w = Some js → job_running i js = true →
    ∃ j, jobs (sys_db s) !! i = Some j /\ node_id j = w /\ active (status j) = true) as Hrun.
  { intros w0 js0 i Hw0 [tid Htid]%bool_decide_eq_true.
    destruct (inv_tracked _ _ _ (Ht w0 js0 Hw0) i tid Htid) as (j & ? & ? & ? & _). eauto. }
  split.
  - intros i Hi. destruct (Hrun w js i Hw Hi) as (j & Hj & Hn & Ha). split; [by exists j|].
    intros w' js' Hw' Hi'. destruct (Hrun w' js' i Hw' Hi') as (j' & ? & ? & _). congruence.
  - intros jt now e Hdel.
    pose proof (handle_event_handled jt w now w _ _ e (sys_db s) js eq_refl (worker_inv_closed jt w) (Ht w js Hw) Hdel) as Hh.
    unfold handled in Hh. destruct (handle_event _ _ _ _ _) as [r [d' js']]. cbn. intros ->. by destruct Hh.
Qed.

Lemma stopping_worker_step i d ws w (out : comp WorkerError unit * WS (T := T)) :
  (∀ w js, ws !! w = Some js → job_running i js = false) →
  handled w d (λ d js, worker_inv w d js /\ stopping_untracked i d js)
    (λ d, ∃ j, jobs d !! i = Some j /\ status j = Stopping) out →
  (∃ j, jobs out.2.1 !! i = Some j /\ status j = Stopping)
  /\ ∀ w' js, after w out ws !! w' = Some js → job_running i js = false.
Proof.
  intros Hun. destruct out as [[[]|e| |] [d' js']]; cbn [handled after fst snd]; intros [_ Hh]; [|split..|done|done].
  - destruct Hh as [_ [Hj Hr]]. split; [done|].
    intros w' js [[<- <-]|[_ ?]]%lookup_insert_Some; [done|by eapply Hun].
  - done.
  - intros w' js [_ ?]%lookup_delete_Some. by eapply Hun.
Qed.

Lemma stopping_step i s s' :
  sys_inv s → sys_step s s' →
  (∃ j, jobs (sys_db s) !! i = Some j /\ status j = Stopping) →
  (∀ w js, sys_workers s !! w = Some js → job_running i js = false) →
  (∃ j, jobs (sys_db s') !! i = Some j /\ status j = Stopping)
  /\ ∀ w js, sys_workers s' !! w = Some js → job_running i js = false.
Proof.
  intros [Hwf Hp Ht] Hs Hj Hun.
  destruct Hs as [d p ws s Hiss Hsch|d p ws now|d p ws w js jt now e Hw Hdel|d p ws w|d p ws w jt now Hw];
    cbn [sys_db sys_workers sys_pending] in *.
  - split; [|done]. destruct Hj as (j & Hj & Hst).
    destruct (scheduler_active p s d i j Hwf Hp Hiss Hsch Hj) as [?|[? _]]; [by rewrite Hst|eauto|congruence].
  - done.
  - apply (stopping_worker_step i d); [done|].
    apply handle_event_handled; [done|apply stopping_untracked_closed| |done].
    split; [by apply Ht|]. split; [done|by eapply Hun].
  - split; [done|]. intros w' js [_ ?]%lookup_delete_Some. by eapply Hun.
  - apply (stopping_worker_step i d); [done|].
    apply bootstrap_handled; [done|apply stopping_untracked_closed|].
    split; [by apply jobset_default_inv|]. split; [done|]. apply bool_decide_eq_false. cbn.
    rewrite lookup_empty. by intros [].
Qed.

(** A job that is [Stopping] while no worker has a task for it stays so for
    ever: no notification, no reconciliation, no restart and no scheduler moves
    it on, and it cannot be deleted. *)
Theorem stopping_without_task_forever (s s' : System) (i : Z) :
  sys_reachable s →
  (∃ j, jobs (sys_db s) !! i = Some j /\ status j = Stopping) →
  (∀ w js, sys_workers s !! w = Some js → job_running i js = false) →
  rtc sys_step s s' →
  (∃ j, jobs (sys_db s') !! i = Some j /\ status j = Stopping)
  /\ ∀ w js, sys_workers s' !! w = Some js → job_running i js = false.
Proof.
  intros Hr Hst Hun Hsteps. apply sys_reachable_inv in Hr.
  induction Hsteps as [|s s1 s' Hs _ IH]; [done|].
  destruct (stopping_step i s s1 Hr Hs Hst Hun) as [Hst1 Hun1].
  apply IH; [by eapply sys_step_inv|done..].
Qed.

(** ** Handlers that end the worker *)

(** A worker only starts a job that is [Scheduled] or [Running], and only
    records the success of a [Running] one: a start notification that arrives
    after the stop was requested, and a task that finishes between the request
    and its handling, make the handler fail, which ends the worker, and leave
    the database as it was. *)
Theorem late_events_fail (job_tables : JobDescriptor → option (list Z)) (now : Z) (w : string)
    (d : Db) (js : JobSet (T := T)) (i : Z) (j : Job) :
  worker_inv w d js → jobs d !! i = Some j →
  (status j ≠ Scheduled → status j ≠ Running → job_running i js = false →
     handle_event job_tables w now (Notification i ActionStart) (d, js)
     = (Err (StartActionFailed i (StatusUpdateFailed
              (JobStatusUpdate (StateConflict [Scheduled] (status j))))), (d, js)))
  /\ (∀ tid, status j ≠ Running → job_id_to_handle js !! i = Some tid →
     let out := handle_event job_tables w now (TaskDone tid Finished) (d, js) in
     out.1 = Err (MarkCompletedFailed i (JobStatusUpdate (StateConflict [Running] (status j))))
     /\ out.2.1 = d).
Proof.
  intros [Hwf Hset Htr] Hj. pose proof (wf_job_key d Hwf _ _ Hj) as Hid. split.
  - intros Hns Hnr Hrun. cbn [handle_event handle_job_notification_action].
    unfold gets, mbind, stm_bind, get_by_id. cbn [fst]. rewrite Hj.
    unfold map_err, spawn_job, gets, on_db, mbind, stm_bind. cbn [fst snd].
    rewrite Hid, Hrun. cbv beta iota. rewrite bool_decide_false by done.
    unfold map_err, mark_job_running, mark_running, map_err, update_status_if_any_state. cbn [fst snd].
    rewrite Hj, bool_decide_false; [done|]. by intros ?%list_elem_of_singleton.
  - intros tid Hnr Hh. cbn [handle_event snd].
    assert (tid ∈ js_live (tasks js)) as Hlive.
    { apply (ids_live js Hset). apply (handles_ids js Hset) in Hh. eauto. }
    destruct (join_wf tid Finished js Hset Hlive) as (i' & res & Hh' & Hjoin & _).
    apply (handles_ids js Hset) in Hh, Hh'. rewrite Hh in Hh'. injection Hh' as <-.
    unfold join_next_with_id in *. rewrite Hh in *. apply (handles_ids js Hset) in Hh. rewrite Hh in *.
    injection Hjoin as <-. cbn [fst snd handle_job_result].
    unfold map_err, on_db, mark_job_completed, mark_job, gets, mbind, stm_bind, mark_completed, map_err,
      update_status_if_any_state. cbn [fst snd]. rewrite Hj, bool_decide_false; [done|].
    by intros ?%list_elem_of_singleton.
Qed.

(** A job whose instance cannot be built. *)
Definition unstartable (job_tables : JobDescriptor → option (list Z)) (ds : JobDescriptor) : bool :=
  match ds with OtherJson => true | Dump _ _ _ _ _ _ => bool_decide (job_tables ds = None) end.

Definition still_queued (i : Z) (j : Job) (d : Db) : Prop :=
  ∃ j', jobs d !! i = Some j' /\ node_id j' = node_id j /\ desc j' = desc j
        /\ is_scheduled_or_running (status j') = true.

Lemma spawn_job_unstartable job_tables now j (d : Db) (js : JobSet (T := T)) :
  unstartable job_tables (desc j) = true → job_running (job_id j) js = false →
  jobs d !! job_id j = Some j → is_scheduled_or_running (status j) = true →
  ∃ e d', spawn_job job_tables now j (d, js) = (Err e, (d', js)) /\ still_queued (job_id j) j d'.
Proof.
  intros Hu Hr Hj Hs. pose proof (spawn_job_cases job_tables now j d js) as Hc.
  assert (∀ d0, ∃ e, start_job job_tables j (d0, js) = (Err e, (d0, js))) as Hstart.
  { intros d0. unfold start_job, on_db, job_new, mbind, stm_bind. cbn [fst snd].
    destruct (desc j); cbn in Hu; [|eauto]. apply bool_decide_eq_true in Hu. rewrite Hu. eauto. }
  assert (∃ e d' js', spawn_job job_tables now j (d, js) = (Err e, (d', js'))) as (e & d' & js' & E).
  { unfold spawn_job, gets, on_db, mbind, stm_bind. cbn [fst snd]. rewrite Hr. cbv beta iota.
    destruct (bool_decide (status j = Running)).
    - destruct (Hstart d) as [e He]. cbn [mret stm_ret]. unfold mret, stm_ret. rewrite He. eauto.
    - unfold map_err. cbn [fst snd]. destruct (mark_running_ok now (job_id j) d) as [Hm _].
      destruct (mark_job_running now (job_id j) d) as [[[]|e| |] d0]; cbn [fst snd] in *; [|eauto|done..].
      destruct (Hstart d0) as [e He]. rewrite He. eauto. }
  rewrite E in Hc |- *. destruct Hc as (_ & Hjobs & -> & _). exists e, d'. split; [done|].
  destruct Hjobs as [Ed|[_ (j0 & now0 & Hj0 & _ & Ed)]]; unfold still_queued; rewrite Ed; [by exists j|].
  rewrite Hj in Hj0. injection Hj0 as <-. rewrite lookup_insert_eq. eexists. split; [done|]. done.
Qed.

Lemma bootstrap_loop_fails job_tables now w j l (d : Db) (js : JobSet (T := T)) :
  Forall (row_of w d) l → NoDup (job_id <$> l) → j ∈ l → job_running (job_id j) js = false →
  unstartable job_tables (desc j) = true → is_scheduled_or_running (status j) = true →
  ∃ e d' js', for_each (λ j, map_err (BootstrapSpawnJob (job_id j)) (spawn_job job_tables now j)) l (d, js)
              = (Err e, (d', js')) /\ still_queued (job_id j) j d'.
Proof.
  intros Hrows Hnd Hin Hr Hu Hs. revert d js Hrows Hr.
  induction l as [|x l IH]; intros d js Hrows Hr; [by apply elem_of_nil in Hin|].
  apply list.Forall_cons in Hrows as [Hx Hrows]. apply NoDup_cons in Hnd as [Hnew Hnd].
  cbn [for_each]. unfold mbind, stm_bind, map_err.
  apply elem_of_cons in Hin as [<-|Hin].
  { destruct (spawn_job_unstartable job_tables now j d js Hu Hr (proj1 Hx) Hs) as (e & d' & -> & Hq). eauto. }
  assert (job_id j ≠ job_id x) as Hid.
  { intros E. apply Hnew. fold (job_id <$> l). rewrite <- E. by apply list_elem_of_fmap_2. }
  pose proof (spawn_job_cases job_tables now x d js) as Hc.
  assert (jobs d !! job_id j = Some j) as Hj by (rewrite Forall_forall in Hrows; by apply Hrows).
  destruct (spawn_job job_tables now x (d, js)) as [[[]|e| |] [d' js']]; destruct Hc as ([_ Ht] & _ & Hc); [| |done..].
  - apply (IH Hnd Hin).
    + rewrite Forall_forall in Hrows |- *. intros y Hy. destruct (Hrows y Hy) as [? ?]. split; [|done].
      rewrite Ht; [done|]. intros E. apply Hnew. fold (job_id <$> l). rewrite <- E. by apply list_elem_of_fmap_2.
    + destruct (job_running (job_id x) js); [by destruct Hc as [_ ->]|]. destruct Hc as [-> _].
      apply (job_running_other (job_id j) (job_id x) js); [|done]. right. split; [done|]. unfold spawn.
      destruct (js_spawn (tasks js)) as [tid t]. by exists tid.
  - eexists _, _, _. split; [done|]. exists j. rewrite Ht by done. done.
Qed.

(** A job that cannot be started (its descriptor does not parse or its
    dataset cannot be loaded) keeps its node from ever starting: every start of
    the worker fails while the job is assigned to it, and leaves the job
    [Scheduled] or [Running], so that the next start meets it again. No start-up
    failure is ever recorded as [Failed]. *)
Theorem unstartable_job_blocks_node (job_tables : JobDescriptor → option (list Z)) (now : Z) (w : string)
    (d : Db) (i : Z) (j : Job) :
  db_wf d → jobs d !! i = Some j → node_id j = w → is_scheduled_or_running (status j) = true →
  unstartable job_tables (desc j) = true →
  ∃ e d' js', bootstrap job_tables w now (d, jobset_default (T := T)) = (Err e, (d', js'))
              /\ db_wf d' /\ still_queued i j d'.
Proof.
  intros Hwf Hj Hn Hs Hu. pose proof (wf_job_key d Hwf _ _ Hj) as Hid.
  pose proof (bootstrap_handled job_tables w now w _ _ d jobset_default eq_refl
    (worker_inv_closed job_tables w) (jobset_default_inv w d Hwf)) as Hh.
  unfold bootstrap, gets, mbind, stm_bind in *. cbn [fst snd] in *.
  destruct (node_rows w [Scheduled; Running] d Hwf) as (Hrows & Hnd & _). fold (get_scheduled w d) in *.
  assert (j ∈ get_scheduled w d) as Hin.
  { apply select_jobs_elem. split; [|eauto]. rewrite !bool_decide_true; [done| |done].
    destruct (status j); try done; set_solver. }
  destruct (bootstrap_loop_fails job_tables now w j _ d jobset_default Hrows Hnd Hin) as (e & d' & js' & E & Hq);
    [|done..|].
  { apply bool_decide_eq_false. cbn. rewrite lookup_empty. by intros []. }
  rewrite Hid in Hq. exists e, d', js'. split; [exact E|]. split; [|done].
  rewrite E in Hh. destruct Hh as [(l & [Hr _] & _) _]. by eapply rtc_change_wf.
Qed.

End System.

(** ** A concrete task set and run *)

(** Live and aborted tasks, with a fresh identifier for each spawn. *)
#[global] Instance task_sets : JoinSet (gset Z * gset Z).
Proof.
  refine {| js_empty := (∅, ∅);
            js_spawn := λ t, (fresh t.1, ({[fresh t.1]} ∪ t.1, t.2 ∖ {[fresh t.1]}));
            js_abort := λ i t, (t.1, {[i]} ∪ t.2);
            js_join := λ i t, (t.1 ∖ {[i]}, t.2);
            js_live := fst; js_aborted := snd |}; try done.
  intros t. cbn. apply is_fresh.
Defined.

Definition one_table (d : JobDescriptor) : option (list Z) := Some [].

Definition dump_desc : JobDescriptor := Dump Latest 1 "ns" "eth" "h" "manifest".

(** Node [w] with job 1, registered and perhaps stopped before any worker ran. *)
Definition registered_db : Db := exec (SRegister 0 "w" dump_desc) (exec (SRegisterWorker 0 "w") empty_db).
Definition stopped_db : Db := exec (SRequestStop 1 1) registered_db.

Lemma registered_reachable : sys_reachable (T := gset Z * gset Z) (mkSystem registered_db [] ∅).
Proof.
  unfold sys_reachable, sys_init, registered_db.
  eapply rtc_l; [by apply (sys_stmt _ _ _ (SRegisterWorker 0 "w"))|].
  eapply rtc_l; [by apply (sys_stmt _ _ _ (SRegister 0 "w" dump_desc))|]. apply rtc_refl.
Qed.

(** The worker of [w] started on a database. *)
Definition started (d : Db) : System :=
  let out := bootstrap one_table "w" 2 (d, jobset_default (T := gset Z * gset Z)) in
  mkSystem out.2.1 [] (after "w" out ∅).

Lemma jobs_run_once_witness :
  let s := started registered_db in
  ∃ js, sys_reachable s /\ sys_workers s !! "w" = Some js /\ job_running 1 js = true
        /\ ∃ j, jobs (sys_db s) !! 1 = Some j /\ node_id j = "w" /\ active (status j) = true.
Proof.
  intros s. assert (sys_reachable s) as Hr.
  { eapply rtc_r; [apply registered_reachable|].
    by apply (sys_start registered_db [] ∅ "w" one_table 2). }
  destruct (sys_workers s !! "w") as [js|] eqn:Hjs.
  2:{ exfalso. vm_compute in Hjs. discriminate Hjs. }
  assert (job_running 1 js = true) as Hrun.
  { vm_compute in Hjs. injection Hjs as <-. vm_compute. reflexivity. }
  exists js. split; [exact Hr|]. split; [reflexivity|]. split; [exact Hrun|].
  exact (proj1 (proj1 (jobs_run_once s "w" js Hr Hjs) 1 Hrun)).
Defined.

(** Job 1 was stopped before its worker started; the worker then acknowledges
    the request, without a task. *)
Definition acknowledged : System :=
  let s := started stopped_db in
  let js := default jobset_default (sys_workers s !! "w") in
  let out := handle_event one_table "w" 3 (Notification 1 ActionStop) (sys_db s, js) in
  mkSystem out.2.1 [] (after "w" out (sys_workers s)).

Lemma acknowledged_reachable : sys_reachable acknowledged.
Proof.
  assert (sys_reachable (T := gset Z * gset Z) (mkSystem stopped_db [] ∅)) as H1.
  { eapply rtc_r; [apply registered_reachable|]. by apply (sys_stmt registered_db [] ∅ (SRequestStop 1 1)). }
  assert (sys_reachable (started stopped_db)) as H2.
  { eapply rtc_r; [exact H1|]. by apply (sys_start stopped_db [] ∅ "w" one_table 2). }
  eapply rtc_r; [exact H2|]. unfold acknowledged.
  apply (sys_event (sys_db (started stopped_db)) [] (sys_workers (started stopped_db)) "w").
  - vm_compute. reflexivity.
  - intros j Hj. vm_compute in Hj. injection Hj as <-. reflexivity.
Qed.

Lemma stopping_without_task_forever_witness :
  sys_reachable acknowledged /\
  ∃ j, jobs (sys_db acknowledged) !! 1 = Some j /\ status j = Stopping.
Proof.
  split; [exact acknowledged_reachable|].
  refine (proj1 (stopping_without_task_forever acknowledged acknowledged 1 acknowledged_reachable _ _ (rtc_refl _ _))).
  - exists (mkJob 1 "w" Stopping dump_desc 0 3). split; vm_compute; reflexivity.
  - intros w js Hw. assert (sys_workers acknowledged = {[ "w" := jobset_default ]}) as Hws by (vm_compute; reflexivity).
    rewrite Hws in Hw. apply lookup_singleton_Some in Hw as [_ <-]. vm_compute. reflexivity.
Defined.

Lemma late_events_fail_witness :
  worker_inv (T := gset Z * gset Z) "w" stopped_db jobset_default /\
  (handle_event one_table "w" 3 (Notification 1 ActionStart) (stopped_db, jobset_default)).1
  = Err (StartActionFailed 1 (StatusUpdateFailed
      (JobStatusUpdate (StateConflict [Scheduled] StopRequested)))).
Proof.
  assert (worker_inv (T := gset Z * gset Z) "w" stopped_db jobset_default) as Hinv.
  { apply jobset_default_inv. by repeat (apply (exec_wf []); [|exact I]); apply empty_db_wf. }
  split; [exact Hinv|].
  destruct (late_events_fail one_table 3 "w" stopped_db jobset_default 1
    (mkJob 1 "w" StopRequested dump_desc 0 1) Hinv ltac:(vm_compute; reflexivity)) as [H _].
  rewrite (H ltac:(discriminate) ltac:(discriminate) ltac:(vm_compute; reflexivity)). reflexivity.
Defined.

Lemma unstartable_job_blocks_node_witness :
  let jt := λ _ : JobDescriptor, @None (list Z) in
  unstartable jt dump_desc = true /\
  ∃ e d' js', bootstrap jt "w" 2 (registered_db, jobset_default (T := gset Z * gset Z)) = (Err e, (d', js'))
    /\ db_wf d' /\ still_queued 1 (mkJob 1 "w" Scheduled dump_desc 0 0) d'.
Proof.
  intros jt. split; [reflexivity|].
  apply (unstartable_job_blocks_node jt 2 "w" registered_db 1 (mkJob 1 "w" Scheduled dump_desc 0 0)).
  - by repeat (apply (exec_wf []); [|exact I]); apply empty_db_wf.
  - vm_compute. reflexivity.
  - reflexivity.
  - reflexivity.
  - reflexivity.
Defined.
