(* ===== verification/DumpTasks.v ===== *)
(** * DumpTasks

    The background tasks of a dump: the join set that stops at the first
    failure (core/dump/src/tasks.rs), and the task that compacts and collects
    the files of a table (core/dump/src/compaction.rs, with the errors of
    compaction/error.rs). What a task does to the files is modelled in
    [Compaction] and [FileStore]: here a run of it ends with a result. *)

From stdpp Require Import base numbers strings option sets list.
From Stdlib Require Import ZArith Lia.
From S2P Require Import Prelude.

Inductive JoinError := TaskCancelled | TaskPanicked.

Definition is_cancelled (e : JoinError) : bool :=
  match e with TaskCancelled => true | TaskPanicked => false end.

(** ** The join set *)

Section FailFastJoinSet.
Context {T E : Type}.

(** What [join_next] returns for a task. *)
Inductive Joined := Returned (r : T + E) | NotJoined (e : JoinError).

Inductive TryWaitAllError := WaitError (e : E) | WaitPanic (e : JoinError).

(** The tasks in the order in which they end, if nothing aborts them; the
    result comes with the tasks [shutdown] aborts. *)
Fixpoint try_wait_all (set : list Joined) : comp TryWaitAllError unit * list Joined :=
  match set with
  | [] => (Ok tt, [])
  | Returned (inl _) :: set => try_wait_all set
  | Returned (inr e) :: set => (Err (WaitError e), set)
  | NotJoined e :: set => if is_cancelled e then try_wait_all set else (Err (WaitPanic e), set)
  end.

(** How a task fails the set. *)
Definition fails (j : Joined) : option TryWaitAllError :=
  match j with
  | Returned (inl _) => None
  | Returned (inr e) => Some (WaitError e)
  | NotJoined e => if is_cancelled e then None else Some (WaitPanic e)
  end.

(** The set succeeds if no task fails it; else the result is that of the first
    that does, and the tasks that had not ended are aborted. *)
Lemma try_wait_all_spec set :
  match try_wait_all set with
  | (Ok tt, aborted) => aborted = [] /\ Forall (λ j, fails j = None) set
  | (Err e, aborted) =>
      ∃ before j, set = before ++ j :: aborted /\ Forall (λ j, fails j = None) before /\ fails j = Some e
  | _ => False
  end.
Proof.
  induction set as [|j set IH]; [by split|].
  assert (fails j = None → try_wait_all (j :: set) = try_wait_all set) as Hskip.
  { destruct j as [[]|[]]; cbn; done. }
  destruct (fails j) as [e|] eqn:Ej.
  - assert (try_wait_all (j :: set) = (Err e, set)) as ->
      by (destruct j as [[]|[]]; cbn in *; congruence).
    by exists [], j.
  - rewrite Hskip by done. destruct (try_wait_all set) as [[[]|e| |] aborted]; try done.
    + destruct IH. split; [done|]. by constructor.
    + destruct IH as (before & j' & -> & ? & ?). exists (j :: before), j'. split; [done|]. split; [by constructor|done].
Qed.
End FailFastJoinSet.
Arguments Joined : clear implicits.
Arguments TryWaitAllError : clear implicits.

(** [into_box_error] *)
Definition into_box_error {E F} (join : JoinError → F) (box : E → F) (e : TryWaitAllError E) : F :=
  match e with WaitError e => box e | WaitPanic e => join e end.

(** ** The errors of compaction and collection *)

Inductive CompactorError :=
  | CanonicalChain
  | CreateWriter
  | FileWrite
  | CompactorFileStream
  | CompactorJoin (e : JoinError)
  | ManifestUpdate (file_ids : list Z)
  | CompactorManifestDelete (file_ids : list Z)
  | MetadataCommit.

Inductive CollectorError :=
  | FileNotFound (path : string)
  | ObjectStore
  | CollectorFileStream
  | CollectorJoin (e : JoinError)
  | FileMetadataDelete (file_ids : list Z)
  | CollectorManifestDelete (file_id : Z)
  | Parse (file_id : Z)
  | Path
  | MultipleErrors (errors : list CollectorError).

Inductive AmpCompactorTaskError :=
  | TaskCompaction (e : CompactorError)
  | TaskCollection (e : CollectorError)
  | TaskJoin (e : JoinError).

(** [From<CompactorError>] and [From<CollectorError>] *)
Definition of_compactor (e : CompactorError) : AmpCompactorTaskError :=
  match e with CompactorJoin e => TaskJoin e | _ => TaskCompaction e end.

Definition of_collector (e : CollectorError) : AmpCompactorTaskError :=
  match e with CollectorJoin e => TaskJoin e | _ => TaskCollection e end.

Definition is_compactor_cancellation (e : CompactorError) : bool :=
  match e with CompactorJoin e => is_cancelled e | _ => false end.

Definition is_collector_cancellation (e : CollectorError) : bool :=
  match e with CollectorJoin e => is_cancelled e | _ => false end.

Definition is_cancellation_task_error (e : AmpCompactorTaskError) : bool :=
  match e with
  | TaskJoin e => is_cancelled e
  | TaskCompaction e => is_compactor_cancellation e
  | TaskCollection e => is_collector_cancellation e
  end.

Lemma of_compactor_cancellation e : is_cancellation_task_error (of_compactor e) = is_compactor_cancellation e.
Proof. by destruct e. Qed.

Lemma of_collector_cancellation e : is_cancellation_task_error (of_collector e) = is_collector_cancellation e.
Proof. by destruct e. Qed.

(** ** The inner task *)

(** The times of the last runs. *)
Record AmpCollectorInnerTask := mkTask { previous_collection : Z; previous_compaction : Z }.

(** [compactor] and [collector] of the properties: whether they are active and
    their interval. *)
Record TaskProperties := mkProps {
  compactor_active : bool; compactor_interval : Z;
  collector_active : bool; collector_interval : Z
}.

(** What happens to one run: the clock at each of its readings and the results
    of the compaction and of the collection, when they run. *)
Record RunInput := mkRun {
  compaction_clock : Z * Z;
  collection_clock : Z * Z;
  compaction_error : option CompactorError;
  collection_error : option CollectorError
}.

Section Task.
Context (props : TaskProperties).

Inductive Work := Compacted | Collected.

(** [compact] and [collect], with what ran. *)
Definition inner_compact (i : RunInput) (t : AmpCollectorInnerTask) : comp CompactorError AmpCollectorInnerTask * list Work :=
  match compaction_error i with
  | None => (Ok t, [Compacted])
  | Some e => (Err e, [Compacted])
  end.

Definition inner_collect (i : RunInput) (t : AmpCollectorInnerTask) : comp CollectorError AmpCollectorInnerTask * list Work :=
  match collection_error i with
  | None => (Ok t, [Collected])
  | Some e => (Err e, [Collected])
  end.

Definition from_result {E A} (f : E → AmpCompactorTaskError) (r : comp E A) : comp AmpCompactorTaskError A :=
  match r with
  | Ok a => Ok a
  | Err e => Err (f e)
  | Panic => Panic
  | OutOfFuel => OutOfFuel
  end.

Definition has_elapsed (now previous interval : Z) : bool := interval <? saturating_sub64 now previous.

Definition try_compact (i : RunInput) (t : AmpCollectorInnerTask)
    : comp AmpCompactorTaskError AmpCollectorInnerTask * list Work :=
  if compactor_active props && has_elapsed (compaction_clock i).1 (previous_compaction t) (compactor_interval props)
  then let '(r, work) := inner_compact i (mkTask (previous_collection t) (compaction_clock i).2) in
       (from_result of_compactor r, work)
  else (Ok t, []).

Definition try_collect (i : RunInput) (t : AmpCollectorInnerTask)
    : comp AmpCompactorTaskError AmpCollectorInnerTask * list Work :=
  if collector_active props && has_elapsed (collection_clock i).1 (previous_collection t) (collector_interval props)
  then let '(r, work) := inner_collect i (mkTask (collection_clock i).2 (previous_compaction t)) in
       (from_result of_collector r, work)
  else (Ok t, []).

(** [try_run]: a cancellation gives back the task as it was before the run. *)
Definition inner_try_run (i : RunInput) (t : AmpCollectorInnerTask)
    : comp AmpCompactorTaskError AmpCollectorInnerTask * list Work :=
  match try_compact i t with
  | (Ok compacted, work) =>
      match try_collect i compacted with
      | (Err e, more) => (if is_cancellation_task_error e then Ok t else Err e, work ++ more)
      | (r, more) => (r, work ++ more)
      end
  | (Err e, work) => (if is_cancellation_task_error e then Ok t else Err e, work)
  | (r, work) => (r, work)
  end.

(** [run]: whatever the intervals. *)
Definition inner_run (i : RunInput) (t : AmpCollectorInnerTask)
    : comp AmpCompactorTaskError AmpCollectorInnerTask * list Work :=
  match inner_compact i t with
  | (Ok compacted, work) =>
      match inner_collect i compacted with
      | (Err e, more) => (if is_collector_cancellation e then Ok t else Err (of_collector e), work ++ more)
      | (r, more) => (from_result of_collector r, work ++ more)
      end
  | (Err e, work) => (if is_compactor_cancellation e then Ok t else Err (of_compactor e), work)
  | (r, work) => (from_result of_compactor r, work)
  end.

(** ** The task behind its handle *)

(** A task that runs, one that has ended, and a handle whose result was taken. *)
Inductive JoinHandle :=
  | Running (t : AmpCollectorInnerTask)
  | Ended (r : comp JoinError (comp AmpCompactorTaskError AmpCollectorInnerTask))
  | Taken.

(** [AmpCompactorTask::start]: a task that ends at once. *)
Definition compactor_start (now : Z) : JoinHandle := Running (mkTask now now).

Definition is_finished (h : JoinHandle) : bool :=
  match h with Running _ => false | Ended _ | Taken => true end.

(** [handle.await??], then the next run is spawned; a handle may not be polled
    after it has returned. [None]: the task has not ended. *)
Definition join_current_then_spawn_new : stm JoinHandle AmpCompactorTaskError (option unit) := λ h,
  match h with
  | Running t => (Ok None, h)
  | Ended (Ok (Ok t)) => (Ok (Some tt), Running t)
  | Ended (Ok (Err e)) => (Err e, Taken)
  | Ended (Err e) => (Err (TaskJoin e), Taken)
  | Ended _ | Taken => (Panic, h)
  end.

(** [AmpCompactor::try_run]; [locked] if another writer holds the lock. *)
Definition compactor_try_run (locked : bool) : stm JoinHandle AmpCompactorTaskError unit := λ h,
  if negb locked && is_finished h then
    match join_current_then_spawn_new h with
    | (Ok (Some tt), h) => (Ok tt, h)
    | (Ok None, h) => (Panic, h)
    | (Err e, h) => (Err e, h)
    | (Panic, h) => (Panic, h)
    | (OutOfFuel, h) => (OutOfFuel, h)
    end
  else (Ok tt, h).

(** The task makes its run, is cancelled or panics, between the calls. *)
Inductive Progress := RunEnds (i : RunInput) | TaskDies (e : JoinError).

Definition advance (p : option Progress) (h : JoinHandle) : JoinHandle * list Work :=
  match h, p with
  | Running t, Some (RunEnds i) => let '(r, work) := inner_try_run i t in (Ended (Ok r), work)
  | Running _, Some (TaskDies e) => (Ended (Err e), [])
  | _, _ => (h, [])
  end.

(** A dump calls the compactor after each file: what ran, and how it ends. *)
Fixpoint compactor_calls (l : list (option Progress * bool)) (h : JoinHandle) : list Work * comp AmpCompactorTaskError unit * JoinHandle :=
  match l with
  | [] => ([], Ok tt, h)
  | (p, locked) :: l =>
      let '(h, work) := advance p h in
      match compactor_try_run locked h with
      | (Ok tt, h) => let '(more, r, h) := compactor_calls l h in (work ++ more, r, h)
      | (r, h) => (work, r, h)
      end
  end.
End Task.

(** ** What a run does *)

Lemma compact_cases i t :
  inner_compact i t = (Ok t, [Compacted]) \/ ∃ e, compaction_error i = Some e /\ inner_compact i t = (Err e, [Compacted]).
Proof. unfold inner_compact. destruct (compaction_error i); [right; eauto|by left]. Qed.

Lemma collect_cases i t :
  inner_collect i t = (Ok t, [Collected]) \/ ∃ e, collection_error i = Some e /\ inner_collect i t = (Err e, [Collected]).
Proof. unfold inner_collect. destruct (collection_error i); [right; eauto|by left]. Qed.

(** The part that runs does so because it is active and its interval is over. *)
Definition due (props : TaskProperties) (i : RunInput) (t : AmpCollectorInnerTask) (w : Work) : bool :=
  match w with
  | Compacted => compactor_active props && has_elapsed (compaction_clock i).1 (previous_compaction t) (compactor_interval props)
  | Collected => collector_active props && has_elapsed (collection_clock i).1 (previous_collection t) (collector_interval props)
  end.

(** The run of a task on each branch: what is due runs, the compaction first,
    and stops at an error; the times of what ran move on, unless a part was
    cancelled, which forgets the run. *)
Lemma inner_try_run_spec props i t :
  let '(r, work) := inner_try_run props i t in
  let compacts := due props i t Compacted in
  let collects := due props i t Collected in
  (∀ e, compacts = true → compaction_error i = Some e →
     work = [Compacted] /\ r = if is_compactor_cancellation e then Ok t else Err (of_compactor e))
  /\ (compacts = false \/ compaction_error i = None →
      work = (if compacts then [Compacted] else []) ++ (if collects then [Collected] else [])
      /\ (∀ e, collects = true → collection_error i = Some e →
            r = if is_collector_cancellation e then Ok t else Err (of_collector e))
      /\ (collects = false \/ collection_error i = None →
          r = Ok (mkTask (if collects then (collection_clock i).2 else previous_collection t)
                         (if compacts then (compaction_clock i).2 else previous_compaction t)))).
Proof.
  unfold inner_try_run, try_compact, due.
  destruct (compactor_active props && _) eqn:Ec; cbn [fst snd].
  - destruct (compact_cases i (mkTask (previous_collection t) (compaction_clock i).2)) as [E|(e & He & E)].
    + rewrite E. cbn [from_result]. unfold try_collect. cbn [previous_collection previous_compaction].
      assert (compaction_error i = None) as Hn by (unfold inner_compact in E; by destruct (compaction_error i)).
      destruct (collector_active props && _) eqn:Eo.
      * destruct (collect_cases i (mkTask (collection_clock i).2 (compaction_clock i).2)) as [F|(f & Hf & F)];
          rewrite F; cbn [from_result]; rewrite ?of_collector_cancellation.
        -- split; [congruence|]. intros _. split; [done|]. split; [|done]. unfold inner_collect in F. intros ? _ Hs. by rewrite Hs in F.
        -- split; [congruence|]. intros _. split; [done|]. split; [intros ? _ Hs; by simplify_eq|]. intros [|]; congruence.
      * split; [congruence|]. intros _. split; [done|]. by split.
    + rewrite E. cbn [from_result]. rewrite of_compactor_cancellation. split; [by intros ? _ [= <-]%(eq_trans (eq_sym He))|].
      intros [|]; congruence.
  - unfold try_collect. destruct (collector_active props && _) eqn:Eo.
    + destruct (collect_cases i (mkTask (collection_clock i).2 (previous_compaction t))) as [F|(f & Hf & F)];
        rewrite F; cbn [from_result]; rewrite ?of_collector_cancellation.
      * split; [done|]. intros _. split; [done|]. split; [|done]. unfold inner_collect in F. intros ? _ Hs. by rewrite Hs in F.
      * split; [done|]. intros _. split; [done|]. split; [intros ? _ Hs; by simplify_eq|]. intros [|]; congruence.
    + split; [done|]. intros _. split; [done|]. split; [done|]. intros _. by destruct t.
Qed.

(** ** What a sequence of calls does *)

(** A handle the code may still poll. *)
Definition usable (h : JoinHandle) : Prop :=
  match h with
  | Running _ | Ended (Ok (Ok _)) | Ended (Ok (Err _)) | Ended (Err _) => True
  | _ => False
  end.

Lemma inner_try_run_ends props i t : (∃ r, (inner_try_run props i t).1 = Ok r) \/ ∃ e, (inner_try_run props i t).1 = Err e.
Proof.
  unfold inner_try_run, try_compact, try_collect.
  repeat match goal with
  | |- context [inner_compact i ?u] => destruct (compact_cases i u) as [-> |(? & _ & ->)]
  | |- context [inner_collect i ?u] => destruct (collect_cases i u) as [-> |(? & _ & ->)]
  | |- context [if ?b then _ else _] => destruct b
  | _ => progress cbn [from_result fst snd]
  end; eauto.
Qed.

Lemma advance_usable props p h : usable h → usable (advance props p h).1.
Proof.
  destruct h as [t| |]; cbn; [|by destruct p..]. destruct p as [[i|e]|]; cbn; try done.
  pose proof (inner_try_run_ends props i t) as Hr. destruct (inner_try_run props i t) as [r work]. cbn in *.
  by destruct Hr as [(? & ->)|(? & ->)].
Qed.

Lemma compactor_try_run_usable locked h :
  usable h →
  match compactor_try_run locked h with
  | (Ok tt, h') => usable h'
  | (Err _, h') => h' = Taken
  | _ => False
  end.
Proof.
  unfold compactor_try_run. destruct locked; [done|]. cbn [negb andb].
  destruct h as [t|[[| | |]|e| |]|]; done.
Qed.

(** The calls of a dump end without a panic, whatever the task does; an error
    of the task is reported by one call, and a call after that one panics. *)
Lemma compactor_calls_spec props l h :
  usable h →
  match compactor_calls props l h with
  | (_, Ok tt, h') => usable h'
  | (_, Err _, h') => h' = Taken /\ (compactor_try_run false h').1 = Panic
  | _ => False
  end.
Proof.
  revert h. induction l as [|[p locked] l IH]; intros h Hh; [done|]. cbn [compactor_calls].
  pose proof (advance_usable props p h Hh) as Ha. destruct (advance props p h) as [h1 work]. cbn [fst] in Ha.
  pose proof (compactor_try_run_usable locked h1 Ha) as Ht.
  destruct (compactor_try_run locked h1) as [[[]|e| |] h2]; [|by subst|done..].
  specialize (IH h2 Ht). destruct (compactor_calls props l h2) as [[more [[]|e| |]] h3]; done.
Qed.

(** A collection that is cancelled after a compaction forgets the time of the
    compaction: the next run compacts again before its interval is over. *)
Example cancelled_collection_forgets :
  let props := mkProps true 60 true 60 in
  let i := mkRun (100, 100) (101, 101) None (Some (CollectorJoin TaskCancelled)) in
  inner_try_run props i (mkTask 0 0) = (Ok (mkTask 0 0), [Compacted; Collected]).
Proof. reflexivity. Qed.
