(* ===== verification/DerivedDump.v ===== *)
(** * DerivedDump

    The dump of the tables of a derived dataset: the Parquet file writer and
    the commit of its files (core/dump/src/parquet_writer.rs), the loop that
    writes a file per microbatch of a streaming query and the task of a table
    (derived_dataset.rs), the consistency check of a table (check.rs). Every
    operation on the object store and on the metadata database may fail before
    or after its effect; the Parquet encoding and its sizes are parameters. The
    compaction that runs in the background works on other rows of the same
    tables ([FileStore]): here only its handle is part of the state. *)

From stdpp Require Import base numbers gmap strings option fin_maps sets list sorting.
From Stdlib Require Import ZArith Lia Ascii.
From S2P Require Import Prelude Ranges BlockRange Segments Decimal EndBlock Text FileStore BlockComplete StreamingQuery DumpTasks.

(** ** File names *)

Definition hex_digit (z : Z) : ascii :=
  ascii_of_nat (Z.to_nat (if z <? 10 then 48 + z else 87 + z)).

(** The last [n] hexadecimal digits of [z], before [rest]. *)
Fixpoint hex_digits (n : nat) (z : Z) (rest : string) : string :=
  match n with
  | O => rest
  | S n => hex_digits n (z / 16) (String (hex_digit (z `mod` 16)) rest)
  end.

Fixpoint zeros (n : nat) : string :=
  match n with O => "" | S n => String "0" (zeros n) end.

Definition pad_start (width : nat) (s : string) : string := zeros (width - String.length s) +:+ s.

(** [format!("{:09}-{:016x}.parquet", start, random)] *)
Definition parquet_file_name (start random : Z) : string :=
  pad_start 9 (display_u64 start) +:+ "-" +:+ hex_digits 16 random ".parquet".

(** ** Names do not repeat *)

Lemma hex_digit_inj x y : 0 <= x < 16 → 0 <= y < 16 → hex_digit x = hex_digit y → x = y.
Proof.
  unfold hex_digit. intros Hx Hy He. apply (f_equal nat_of_ascii) in He.
  rewrite !nat_ascii_embedding in He by (bool_to_prop; lia). bool_to_prop; lia.
Qed.

Lemma hex_digits_length n z rest : String.length (hex_digits n z rest) = (n + String.length rest)%nat.
Proof. revert z rest. induction n as [|n IH]; intros z rest; [done|]. cbn [hex_digits]. rewrite IH. cbn. lia. Qed.

Lemma hex_digits_inj n x y a b :
  String.length a = String.length b → hex_digits n x a = hex_digits n y b →
  a = b /\ x `mod` 16 ^ Z.of_nat n = y `mod` 16 ^ Z.of_nat n.
Proof.
  revert x y a b. induction n as [|n IH]; intros x y a b Hl He; cbn [hex_digits] in He.
  { split; [done|]. by rewrite !Z.mod_1_r. }
  apply IH in He as [Hs Hm]; [|cbn; lia]. injection Hs as Hd ->. split; [done|].
  apply hex_digit_inj in Hd; [|apply Z.mod_pos_bound; lia..].
  rewrite Nat2Z.inj_succ, Z.pow_succ_r by lia. rewrite !Z.rem_mul_r by lia. lia.
Qed.

Lemma parquet_name_inj a x b y :
  is_u64 x → is_u64 y → parquet_file_name a x = parquet_file_name b y → x = y.
Proof.
  unfold parquet_file_name. intros Hx Hy He. apply append_inj_tail in He;
    [apply append_inj_tail in He|]; rewrite ?append_length, ?hex_digits_length; [|done..].
  apply hex_digits_inj in He as [_ Hm]; [|done].
  rewrite !Z.mod_small in Hm by (unfold is_u64, u64_max in *; lia). done.
Qed.
Lemma parquet_name_long start random : (24 < String.length (parquet_file_name start random))%nat.
Proof. unfold parquet_file_name. rewrite !append_length, hex_digits_length. cbn. lia. Qed.

(** ** The writer *)

Inductive DumpError :=
  | StreamFailed (e : StreamError)
  | ParquetFailed
  | StoreFailed
  | DatabaseFailed
  | CompactorFailed (e : AmpCompactorTaskError)
  | TableNotFound
  | NotIncremental
  | EndBlockFailed (e : ResolutionError)
  | SegmentsFailed (e : FileError)
  | WatermarkFailed (e : string).

(** An operation succeeds, or reports a failure before or after its effect. *)
Inductive Fault := NoFault | FailsBefore | FailsAfter.

Section Dump.
Context {R : Type}.

(** A Parquet file: its row groups, and the ranges, the parents and the
    generation of its metadata. *)
Record ParquetFile := mkParquet {
  row_groups : list (list (@RecordBatch R));
  parquet_ranges : list BlockRange;
  parent_ids : list Z;
  generation : Z
}.

(** The location, the metadata database and the objects with their contents,
    the notifications sent, the handle of the compactor, the random words drawn
    and the operations made so far. *)
Record DumpState := mkDump {
  db : FileDb;
  contents : gmap (Z * string) ParquetFile;
  notifications : list Z;
  compactor : JoinHandle;
  words : nat;
  clock : nat
}.

Definition with_db (d : FileDb) (s : DumpState) : DumpState :=
  mkDump d (contents s) (notifications s) (compactor s) (words s) (clock s).

(** [AsyncArrowWriter::in_progress_size] of the row group written so far,
    [get_array_memory_size] of a batch, the limit of a row group, the random
    generator, the metadata of an object, the faults, and what the compactor's
    task does by the time of each call. *)
Context (in_progress_size : list (@RecordBatch R) → Z) (array_memory_size : @RecordBatch R → Z)
  (max_row_group_bytes : Z) (next_u64 : nat → Z) (head_object : nat → Z → string → ObjectMeta)
  (fault : nat → Fault) (task_props : TaskProperties) (task_progress : nat → option Progress).

(** An operation of the object store or the database. *)
Definition operation (e : DumpError) (effect : DumpState → DumpState) : stm DumpState DumpError unit := λ s,
  let s1 := mkDump (db s) (contents s) (notifications s) (compactor s) (words s) (S (clock s)) in
  match fault (clock s) with
  | NoFault => (Ok tt, effect s1)
  | FailsBefore => (Err e, s1)
  | FailsAfter => (Err e, effect s1)
  end.

Record ParquetFileWriter := mkWriter {
  writer_name : string;
  flushed : list (list (@RecordBatch R));
  in_progress : list (@RecordBatch R)
}.

Definition random : stm DumpState DumpError Z := λ s,
  (Ok (next_u64 (words s)),
   mkDump (db s) (contents s) (notifications s) (compactor s) (S (words s)) (clock s)).

(** [ParquetFileWriter::new] *)
Definition writer_new (start : Z) : stm DumpState DumpError ParquetFileWriter :=
  w ← random;
  _ ← operation ParquetFailed id;
  mret (mkWriter (parquet_file_name start w) [] []).

(** [AsyncArrowWriter::flush] *)
Definition flush (w : ParquetFileWriter) : ParquetFileWriter :=
  match in_progress w with
  | [] => w
  | group => mkWriter (writer_name w) (flushed w ++ [group]) []
  end.

(** [ParquetFileWriter::write] *)
Definition write (w : ParquetFileWriter) (batch : @RecordBatch R) : stm DumpState DumpError ParquetFileWriter :=
  _ ← operation ParquetFailed id;
  let w := mkWriter (writer_name w) (flushed w) (in_progress w ++ [batch]) in
  let forecasted_size := in_progress_size (in_progress w) + array_memory_size batch in
  if max_row_group_bytes <=? forecasted_size then
    _ ← operation ParquetFailed id;
    mret (flush w)
  else mret w.

(** [ParquetFileWriterOutput] *)
Record ParquetFileWriterOutput := mkOutput {
  out_name : string;
  out_ranges : list BlockRange;
  out_object : ObjectMeta
}.

Definition put_object (loc : Z) (name : string) (f : ParquetFile) (s : DumpState) : DumpState :=
  mkDump (with_object (loc, name) (db s)) (<[(loc, name) := f]> (contents s)) (notifications s) (compactor s)
         (words s) (clock s).

(** [ParquetFileWriter::close]: the object appears with the closing of the
    Arrow writer; then its metadata and its footer are read back. *)
Definition close (loc : Z) (w : ParquetFileWriter) (range : BlockRange) (parents : list Z) (generation : Z)
    : stm DumpState DumpError ParquetFileWriterOutput :=
  _ ← operation ParquetFailed id;
  let w := flush w in
  _ ← operation ParquetFailed (put_object loc (writer_name w) (mkParquet (flushed w) [range] parents generation));
  n ← gets clock;
  _ ← operation StoreFailed id;
  _ ← operation StoreFailed id;
  mret (mkOutput (writer_name w) [range] (head_object n loc (writer_name w))).

(** [commit_metadata] *)
Definition commit_metadata (loc : Z) (out : ParquetFileWriterOutput) : stm DumpState DumpError unit :=
  _ ← operation DatabaseFailed (λ s, with_db (register_file loc (out_name out) (out_ranges out) (out_object out) (db s)) s);
  operation DatabaseFailed (λ s, mkDump (db s) (contents s) (notifications s ++ [loc]) (compactor s) (words s) (clock s)).

(** [compactor.try_run()?]: the task has gone on since the last call; nothing
    else holds its lock. *)
Definition run_compactor : stm DumpState DumpError unit := λ s,
  let h := (advance task_props (task_progress (clock s)) (compactor s)).1 in
  let '(r, h) := compactor_try_run false h in
  (match r with Ok tt => Ok tt | Err e => Err (CompactorFailed e) | Panic => Panic | OutOfFuel => OutOfFuel end,
   mkDump (db s) (contents s) (notifications s) h (words s) (clock s)).

(** ** The loop over the messages *)

Fixpoint dump_messages (loc : Z) (items : list (comp StreamError (@QueryMessage R))) (writer : ParquetFileWriter)
    : stm DumpState DumpError unit :=
  match items with
  | [] => mret tt
  | message :: items =>
      match message with
      | Ok (MicrobatchStart _ _) => dump_messages loc items writer
      | Ok (Data batch) =>
          writer ← write writer batch;
          dump_messages loc items writer
      | Ok (BlockComplete _) => dump_messages loc items writer
      | Ok (MicrobatchEnd range) =>
          let microbatch_end := end_ range in
          out ← close loc writer range [] 0;
          _ ← commit_metadata loc out;
          _ ← run_compactor;
          let microbatch_start := add64 microbatch_end 1 in
          writer ← writer_new microbatch_start;
          dump_messages loc items writer
      | Err e => throw (StreamFailed e)
      | Panic => λ s, (Panic, s)
      | OutOfFuel => λ s, (OutOfFuel, s)
      end
  end.

(** [dump_sql_query], given the stream of the query. *)
Definition dump_sql_query (loc start : Z) (items : list (comp StreamError (@QueryMessage R)))
    : stm DumpState DumpError unit :=
  writer ← writer_new start;
  dump_messages loc items writer.

(** ** The task of a table *)

(** What the plan of a table and its catalog answer: whether the plan is
    incremental, the earliest block, the last block of the dependencies, the
    network of the first table, and the first block of the table's dataset. *)
Record TablePlan := mkPlanned {
  is_incremental : bool;
  earliest_block : option Z;
  max_end_block : comp string (option Z);
  plan_network : string;
  dataset_start : option Z
}.

(** The query a table's task spawns; [updates] are its subscriptions and the
    conversion of the watermark may fail. *)
Definition spawn_query (p : TablePlan) (updates : TableUpdates) (start : Z) (end_block : option Z)
    (resume_watermark : option (gmap string Watermark)) (microbatch_max_interval : Z) : comp DumpError StreamingQuery :=
  prev ← match resume_watermark with
         | None => Ok None
         | Some w =>
             match to_watermark w (plan_network p) with
             | Ok w => Ok (Some w)
             | Err e => Err (WatermarkFailed e)
             | Panic => Panic
             | OutOfFuel => OutOfFuel
             end
         end;
  Ok (mkQuery updates start end_block microbatch_max_interval (plan_network p) prev).

(** [latest_range.map(|r| ResumeWatermark::from_ranges(&[r]))] *)
Definition resume_from (chain : option Chain) : option (gmap string Watermark) :=
  option_map (λ c, from_ranges [chain_last c]) chain.

Definition lift {E A} (f : E → DumpError) (r : comp E A) : stm DumpState DumpError A := λ s,
  (match r with Ok a => Ok a | Err e => Err (f e) | Panic => Panic | OutOfFuel => OutOfFuel end, s).

(** The task [dump_table] spawns: [run] gives the stream of the query. *)
Definition dump_table (loc : Z) (p : TablePlan) (updates : TableUpdates) (microbatch_max_interval : Z) (end_ : EndBlock)
    (run : StreamingQuery → list (comp StreamError (@QueryMessage R))) : stm DumpState DumpError unit :=
  if negb (is_incremental p) then throw NotIncremental
  else
    match earliest_block p with
    | None => mret tt
    | Some start =>
        resolved ← lift EndBlockFailed (resolve end_ start (max_end_block p));
        let go (end_block : option Z) : stm DumpState DumpError unit :=
          chain ← (λ s, lift SegmentsFailed (table_canonical_chain (dataset_start p) loc (db s)) s);
          q ← lift id (spawn_query p updates start end_block (resume_from chain) microbatch_max_interval);
          dump_sql_query loc start (run q) in
        match resolved with
        | Continuous => go None
        | NoDataAvailable => mret tt
        | Block block => go (Some block)
        end
    end.

(** ** The consistency check of a table *)

Inductive ConsistencyError :=
  | GetTableFiles
  | ListObjectStore
  | DeleteOrphanedFile (filename : string)
  | MissingRegisteredFile (filename : string).

Definition sorted_names (names : gset string) : list string := merge_sort string_le (elements names).

Definition registered_files (loc : Z) (d : FileDb) : gset string :=
  list_to_set ((λ kv : Z * FileRow, file_name kv.2) <$> location_files loc d).

Definition stored_files (loc : Z) (d : FileDb) : gset string :=
  set_map snd (filter (λ p : Z * string, p.1 = loc) (objects d)).

Definition remove_object (p : Z * string) (s : DumpState) : DumpState :=
  mkDump (mkFileDb (files (db s)) (next_file_id (db s)) (gc_manifest (db s)) (objects (db s) ∖ {[p]}))
         (delete p (contents s)) (notifications s) (compactor s) (words s) (clock s).

(** An operation with an error of the check. *)
Definition check_operation (e : ConsistencyError) (effect : DumpState → DumpState) : stm DumpState ConsistencyError unit :=
  map_err (λ _, e) (operation StoreFailed effect).

Definition delete_orphans (loc : Z) (registered : gset string) : list string → stm DumpState ConsistencyError unit :=
  for_each (λ filename,
    if bool_decide (filename ∈ registered) then mret tt
    else check_operation (DeleteOrphanedFile filename) (remove_object (loc, filename))).

(** The check for registered files that are not stored. *)
Definition find_missing (stored : gset string) : list string → stm DumpState ConsistencyError unit :=
  for_each (λ filename,
    if bool_decide (filename ∈ stored) then mret tt else throw (MissingRegisteredFile filename)).

Definition consistency_check (loc : Z) : stm DumpState ConsistencyError unit :=
  _ ← check_operation GetTableFiles id;
  registered ← gets (λ s, registered_files loc (db s));
  _ ← check_operation ListObjectStore id;
  stored ← gets (λ s, stored_files loc (db s));
  _ ← delete_orphans loc registered (sorted_names stored);
  find_missing stored (sorted_names registered).

(** [dump]: all tables are checked before the first task starts; the tasks are
    waited for in the order they end. *)
Inductive DerivedDumpError :=
  | ConsistencyCheck (table : string) (e : ConsistencyError)
  | DumpTable (table : string) (e : DumpError)
  | ParallelTasksFailed (e : TryWaitAllError DerivedDumpError).

Definition check_tables : list (string * Z) → stm DumpState DerivedDumpError unit :=
  for_each (λ table : string * Z, map_err (ConsistencyCheck table.1) (consistency_check table.2)).

Definition join_tables (ended : list (Joined unit DerivedDumpError)) : comp DerivedDumpError unit :=
  match (try_wait_all ended).1 with
  | Ok tt => Ok tt
  | Err e => Err (ParallelTasksFailed e)
  | Panic => Panic
  | OutOfFuel => OutOfFuel
  end.

(** ** What a dump writes *)

(** The microbatches that end in a stream of events, each with its rows; [rows]
    are those of the one that is open. *)
Fixpoint cut (rows : list R) (es : list (@Event R)) : list (BlockRange * list R) :=
  match es with
  | [] => []
  | RowEvent r :: es => cut (rows ++ [r]) es
  | StartEvent _ _ :: es => cut rows es
  | EndEvent range :: es => (range, rows) :: cut [] es
  end.

(** The events up to the first failure. *)
Fixpoint item_events (items : list (comp StreamError (@QueryMessage R))) : list (@Event R) :=
  match items with
  | Ok m :: items => events m ++ item_events items
  | _ => []
  end.

Definition batches_rows (batches : list (@RecordBatch R)) : list R := batches ≫= batch_rows.

Definition file_rows (f : ParquetFile) : list R := batches_rows (mjoin (row_groups f)).

Definition writer_rows (w : ParquetFileWriter) : list R := batches_rows (mjoin (flushed w) ++ in_progress w).

(** Up to its first error the stream does not panic and its microbatches end at
    well-formed ranges. *)
Fixpoint stream_ok (items : list (comp StreamError (@QueryMessage R))) : Prop :=
  match items with
  | [] | Err _ :: _ => True
  | Ok (MicrobatchEnd r) :: items => range_wf (numbers r) /\ stream_ok items
  | Ok _ :: items => stream_ok items
  | Panic :: _ | OutOfFuel :: _ => False
  end.

Definition all_ok (items : list (comp StreamError (@QueryMessage R))) : Prop :=
  Forall (λ m, ∃ x, m = Ok x) items.

(** The row of a microbatch's file, and its object. *)
Definition files_as (loc : Z) (s : DumpState) (batch : BlockRange * list R) (row : Z * FileRow) : Prop :=
  file_location row.2 = loc /\ file_ranges row.2 = [batch.1]
  /\ ∃ f, contents s !! (loc, file_name row.2) = Some f
          /\ file_rows f = batch.2 /\ parquet_ranges f = [batch.1] /\ parent_ids f = [] /\ generation f = 0.

Definition paths_of (loc : Z) (new : list (Z * FileRow)) : list (Z * string) :=
  (λ row, (loc, file_name row.2)) <$> new.

(** From [s] to [s'] the microbatches [done] are registered as the files [new],
    in order, and nothing else happens to the rows; besides the objects of these
    files there are new [orphans]; the objects there were keep their contents. *)
Record dumped (loc : Z) (s s' : DumpState) (done : list (BlockRange * list R)) (new : list (Z * FileRow))
    (orphans : gset (Z * string)) : Prop := {
  dumped_ids : StronglySorted (λ a b, a.1 < b.1) new /\ Forall (λ row, next_file_id (db s) <= row.1 < next_file_id (db s')) new;
  dumped_next : next_file_id (db s) <= next_file_id (db s');
  dumped_files i f : files (db s') !! i = Some f ↔ files (db s) !! i = Some f \/ (i, f) ∈ new;
  dumped_manifest : gc_manifest (db s') = gc_manifest (db s);
  dumped_objects : objects (db s') = objects (db s) ∪ list_to_set (paths_of loc new) ∪ orphans;
  dumped_fresh p : p ∈ paths_of loc new \/ p ∈ orphans → p ∉ objects (db s);
  dumped_orphans p : p ∈ orphans → p.1 = loc /\ p ∉ paths_of loc new;
  dumped_kept p : p ∈ objects (db s) → contents s' !! p = contents s !! p;
  dumped_rows : Forall2 (files_as loc s') done new
}.

(** ** The steps of a dump *)

(** No operation fails from the [n]-th on. *)
Definition reliable_from (n : nat) : Prop := ∀ k, (n <= k)%nat → fault k = NoFault.

(** Nothing fails and the compactor's task stays quiet. *)
Definition quiet : Prop := reliable_from 0 /\ ∀ n, task_progress n = None.

Lemma wp_operation e effect (Q : comp DumpError unit → DumpState → Prop) s :
  (∀ s1, db s1 = db s → contents s1 = contents s → compactor s1 = compactor s → words s1 = words s →
     clock s1 = S (clock s) →
     Q (Ok tt) (effect s1)
     /\ (~ reliable_from (clock s) → ~ quiet → Q (Err e) s1 /\ Q (Err e) (effect s1))) →
  wp (operation e effect) Q s.
Proof.
  intros HQ. unfold wp, operation.
  destruct (HQ (mkDump (db s) (contents s) (notifications s) (compactor s) (words s) (S (clock s)))
              eq_refl eq_refl eq_refl eq_refl eq_refl) as [Hok Herr].
  destruct (fault (clock s)) eqn:Ef; cbn [fst snd]; [done|..].
  all: destruct Herr as [? ?]; [| |done].
  all: try (intros Hq; specialize (Hq (clock s) ltac:(lia)); congruence).
  all: intros [Hq _]; specialize (Hq (clock s) ltac:(lia)); congruence.
Qed.

(** Operations one after the other. *)
Ltac wp_steps :=
  repeat match goal with
  | |- wp (mbind _ _) _ _ => apply wp_bind
  | |- wp (operation _ _) _ _ =>
      apply wp_operation; let s := fresh "s" in intros s ? ? ? ? ?; split; [|intros ? ?; split]; cbv beta
  | |- wp (gets _) _ _ => apply wp_gets
  | |- wp (mret _) _ _ => apply wp_ret
  | _ => progress cbv beta iota zeta
  end.

(** The object of the writer is stored; it is stored and registered. *)
Definition stored (loc : Z) (w : ParquetFileWriter) (range : BlockRange) (s s' : DumpState) : Prop :=
  db s' = with_object (loc, writer_name w) (db s)
  /\ contents s' = <[(loc, writer_name w) := mkParquet (flushed (flush w)) [range] [] 0]> (contents s).

Definition registered (loc : Z) (w : ParquetFileWriter) (range : BlockRange) (s s' : DumpState) : Prop :=
  ∃ o, db s' = register_file loc (writer_name w) [range] o (with_object (loc, writer_name w) (db s))
       /\ contents s' = <[(loc, writer_name w) := mkParquet (flushed (flush w)) [range] [] 0]> (contents s).

Definition unchanged (s s' : DumpState) : Prop := db s' = db s /\ contents s' = contents s.

Lemma flush_name w : writer_name (flush w) = writer_name w.
Proof. unfold flush. by destruct (in_progress w). Qed.

Lemma file_close_spec loc w range s :
  wp (close loc w range [] 0) (λ r s', words s' = words s /\ compactor s' = compactor s /\
    match r with
    | Ok out => out_name out = writer_name w /\ out_ranges out = [range] /\ stored loc w range s s'
    | Err _ => ~ quiet /\ (unchanged s s' \/ stored loc w range s s')
    | _ => False
    end) s.
Proof.
  unfold close, stored, unchanged. rewrite !flush_name. wp_steps;
    cbn [id put_object db contents words compactor out_name out_ranges] in *;
    (split; [congruence|]; split; [congruence|]); try (split_and!; congruence).
  all: split; [done|]; first [left; split; congruence | right; split; congruence].
Qed.

Lemma commit_spec loc out s :
  wp (commit_metadata loc out) (λ r s', words s' = words s /\ compactor s' = compactor s /\ contents s' = contents s /\
    let registered := register_file loc (out_name out) (out_ranges out) (out_object out) (db s) in
    match r with
    | Ok _ => db s' = registered
    | Err _ => ~ quiet /\ (db s' = db s \/ db s' = registered)
    | _ => False
    end) s.
Proof.
  unfold commit_metadata. wp_steps; cbn [with_db db contents words compactor] in *; cbv zeta;
    (do 3 (split; [congruence|])); try congruence.
  all: split; [done|]; first [left; congruence | right; congruence].
Qed.

Lemma batches_rows_app a b : batches_rows (a ++ b) = batches_rows a ++ batches_rows b.
Proof. apply bind_app. Qed.

Lemma mjoin_snoc {A} (f : list (list A)) l : mjoin (f ++ [l]) = mjoin f ++ l.
Proof. rewrite join_app. cbn. by rewrite app_nil_r. Qed.

Lemma flush_rows w : batches_rows (mjoin (flushed (flush w))) = writer_rows w.
Proof.
  unfold flush, writer_rows. destruct (in_progress w) as [|b l] eqn:E; [by rewrite app_nil_r|].
  cbn [flushed]. by rewrite mjoin_snoc.
Qed.

Lemma file_write_spec w b s :
  wp (write w b) (λ r s', unchanged s s' /\ words s' = words s /\ compactor s' = compactor s /\
    match r with
    | Ok w' => writer_name w' = writer_name w /\ writer_rows w' = writer_rows w ++ batch_rows b
    | Err _ => ~ quiet
    | _ => False
    end) s.
Proof.
  assert (∀ f l, batches_rows (f ++ l ++ [b]) = batches_rows (f ++ l) ++ batch_rows b) as Hb.
  { intros f l. rewrite app_assoc, batches_rows_app. unfold batches_rows at 2. cbn. by rewrite app_nil_r. }
  unfold write, unchanged. wp_steps; cbn [id] in *; [|by split_and!..].
  destruct (_ <=? _); wp_steps; cbn [id] in *; split_and!; try congruence; try done.
  - by rewrite flush_name.
  - unfold flush. destruct (in_progress w ++ [b]) as [|x l] eqn:E; [by destruct (in_progress w)|].
    unfold writer_rows. cbn [flushed in_progress]. rewrite <- E, mjoin_snoc, app_nil_r. apply Hb.
  - apply Hb.
Qed.

Lemma file_writer_new_spec st s :
  wp (writer_new st) (λ r s', unchanged s s' /\ words s' = S (words s) /\ compactor s' = compactor s /\
    match r with
    | Ok w => writer_name w = parquet_file_name st (next_u64 (words s)) /\ writer_rows w = []
    | Err _ => ~ quiet
    | _ => False
    end) s.
Proof.
  unfold writer_new, unchanged. apply wp_bind. unfold random. unfold wp at 1. cbn [fst snd].
  wp_steps; cbn [id db contents words compactor] in *; split_and!; congruence || done.
Qed.

(** The task runs or has ended well. *)
Definition healthy (h : JoinHandle) : Prop :=
  match h with Running _ | Ended (Ok (Ok _)) => True | _ => False end.

Lemma run_compactor_spec s :
  usable (compactor s) →
  wp run_compactor (λ r s', unchanged s s' /\ words s' = words s /\
    match r with
    | Ok _ => usable (compactor s') /\ (quiet → healthy (compactor s) → healthy (compactor s'))
    | Err _ => quiet → ~ healthy (compactor s)
    | _ => False
    end) s.
Proof.
  intros Hu. unfold run_compactor, wp.
  pose proof (advance_usable task_props (task_progress (clock s)) _ Hu) as Ha.
  assert (quiet → (advance task_props (task_progress (clock s)) (compactor s)).1 = compactor s) as Hq.
  { intros [_ ->]. by destruct (compactor s). }
  destruct (advance _ _ _) as [h work]. cbn [fst] in *.
  pose proof (compactor_try_run_usable false h Ha) as Ht.
  assert (healthy h → (compactor_try_run false h).1 = Ok tt /\ healthy (compactor_try_run false h).2) as Hh.
  { destruct h as [t|[[t|e| |]|e| |]|]; done. }
  destruct (compactor_try_run false h) as [[[]|e| |] h']; cbn [fst snd compactor words] in *; [|..|done|done].
  - split; [done|]. split; [done|]. split; [done|]. intros Hqu Hc. apply Hh. by rewrite Hq.
  - split; [done|]. split; [done|]. intros Hqu Hc. rewrite <- Hq in Hc by done. by apply Hh in Hc as [? _].
Qed.

(** ** How the steps compose *)

Lemma dumped_unchanged loc s s' : unchanged s s' → dumped loc s s' [] [] ∅.
Proof.
  intros [Hd Hc]. split; cbn; rewrite ?Hd, ?Hc; try done.
  - split; constructor.
  - intros i f. set_solver.
  - set_solver.
  - set_solver.
Qed.

Lemma dumped_stored loc w range s s' :
  stored loc w range s s' → (loc, writer_name w) ∉ objects (db s) →
  dumped loc s s' [] [] {[(loc, writer_name w)]}.
Proof.
  intros [Hd Hc] Hnew. split; cbn; rewrite ?Hd, ?Hc; cbn; try done.
  - split; constructor.
  - intros i f. set_solver.
  - set_solver.
  - set_solver.
  - intros p ->%elem_of_singleton. by split; [|intros ?%elem_of_nil].
  - intros p Hp. rewrite lookup_insert_ne; [done|]. by intros <-.
Qed.

Lemma register_new loc name rs o d :
  store_ok d → (loc, name) ∉ objects d →
  register_file loc name rs o (with_object (loc, name) d)
  = mkFileDb (<[next_file_id d := mkFile loc name rs o]> (files d)) (next_file_id d + 1) (gc_manifest d)
             ({[(loc, name)]} ∪ objects d).
Proof.
  intros Hok Hnew. unfold register_file. destruct (existsb _ _) eqn:E; [|done]. exfalso. apply Hnew.
  apply existsb_exists in E as (f & Hf & Hp). apply list_elem_of_In, list_elem_of_fmap in Hf as ([i f'] & -> & Hf).
  apply elem_of_map_to_list in Hf. cbn in Hf, Hp. apply andb_true_iff in Hp as [<-%Z.eqb_eq <-%String.eqb_eq].
  by apply (ok_backed d Hok i).
Qed.

Lemma dumped_registered loc w range s s' :
  registered loc w range s s' → store_ok (db s) → (loc, writer_name w) ∉ objects (db s) →
  ∃ row, dumped loc s s' [(range, writer_rows w)] [row] ∅ /\ file_name row.2 = writer_name w.
Proof.
  intros (o & Hd & Hc) Hok Hnew. rewrite register_new in Hd by done.
  exists (next_file_id (db s), mkFile loc (writer_name w) [range] o). split; [|done].
  split; unfold paths_of; cbn; rewrite ?Hd, ?Hc; cbn; try done.
  - split; [repeat constructor|]. repeat constructor; cbn; lia.
  - lia.
  - intros i f. rewrite lookup_insert_Some, list_elem_of_singleton. split.
    + intros [[-> ->]|[_ ?]]; [by right|by left].
    + intros [Hi|[= -> ->]]; [|by left]. right. split; [|done]. intros <-.
      pose proof (ok_fresh _ Hok (next_file_id (db s)) ltac:(eauto)). lia.
  - set_solver.
  - set_solver.
  - intros p Hp. rewrite lookup_insert_ne; [done|]. by intros <-.
  - constructor; [|constructor]. split; [done|]. split; [done|]. cbn.
    exists (mkParquet (flushed (flush w)) [range] [] 0). rewrite Hc, lookup_insert_eq. split_and!; try done. apply flush_rows.
Qed.

Lemma files_as_kept loc s s' batch row :
  (∀ p, p ∈ objects (db s) → contents s' !! p = contents s !! p) → (loc, file_name row.2) ∈ objects (db s) →
  files_as loc s batch row → files_as loc s' batch row.
Proof. intros Hk Hin (? & ? & f & Hf & ?). split; [done|]. split; [done|]. exists f. by rewrite Hk. Qed.

Lemma dumped_trans loc s s1 s2 done1 done2 new1 new2 orphans :
  dumped loc s s1 done1 new1 ∅ → dumped loc s1 s2 done2 new2 orphans →
  dumped loc s s2 (done1 ++ done2) (new1 ++ new2) orphans.
Proof.
  intros [[Hs1 Hi1] Hn1 Hf1 Hm1 Ho1 Hx1 _ Hk1 Hr1] [[Hs2 Hi2] Hn2 Hf2 Hm2 Ho2 Hx2 Hp2 Hk2 Hr2].
  rewrite Forall_forall in Hi1, Hi2.
  assert (∀ p, p ∈ paths_of loc new1 → p ∈ objects (db s1)) as Hin.
  { intros p Hp. rewrite Ho1, !elem_of_union, elem_of_list_to_set. by left; right. }
  assert (paths_of loc (new1 ++ new2) = paths_of loc new1 ++ paths_of loc new2) as Happ by apply fmap_app.
  split.
  - split.
    + apply StronglySorted_app. split_and!; [|done..]. intros a b Ha Hb.
      specialize (Hi1 a Ha). specialize (Hi2 b Hb). cbn in *. lia.
    + apply Forall_forall. intros a [Ha|Ha]%elem_of_app; [specialize (Hi1 a Ha)|specialize (Hi2 a Ha)]; cbn in *; lia.
  - lia.
  - intros i f. rewrite Hf2, Hf1, elem_of_app. tauto.
  - congruence.
  - rewrite Ho2, Ho1, Happ, list_to_set_app_L. set_solver.
  - intros p Hp Hs. apply (Hx2 p); [|rewrite Ho1; set_solver]. destruct Hp as [Hp|Hp]; [|by right].
    rewrite Happ in Hp. apply elem_of_app in Hp as [Hp|Hp]; [|by left]. destruct (Hx1 p); [by left|done].
  - intros p Hp. destruct (Hp2 p Hp) as [Hl Hnp]. split; [done|]. rewrite Happ, not_elem_of_app. split; [|done].
    intros H1. apply (Hx2 p); [by right|by apply Hin].
  - intros p Hp. rewrite Hk2, Hk1; [done|done|]. rewrite Ho1. set_solver.
  - apply Forall2_app; [|done]. assert (Forall (λ row, (loc, file_name row.2) ∈ objects (db s1)) new1) as Hall.
    { apply Forall_forall. intros row Hrow. apply Hin. unfold paths_of. by apply (list_elem_of_fmap_2 (λ row, (loc, file_name row.2))). }
    clear -Hr1 Hall Hk2. induction Hr1 as [|d row ds rows Hd _ IH]; [constructor|].
    apply list.Forall_cons in Hall as [? ?]. constructor; [by eapply files_as_kept|by apply IH].
Qed.

(** ** The dump as a whole *)

(** The number of random words the dumps of the table may draw. *)
Context (word_limit : nat).

(** No object has a name the generator has yet to make. *)
Definition fresh_words (loc : Z) (s : DumpState) : Prop :=
  ∀ i st, (words s <= i < word_limit)%nat → (loc, parquet_file_name st (next_u64 i)) ∉ objects (db s).

Definition writer_ok (loc : Z) (w : ParquetFileWriter) (s : DumpState) : Prop :=
  (loc, writer_name w) ∉ objects (db s)
  /\ ∃ i st, (i < words s)%nat /\ writer_name w = parquet_file_name st (next_u64 i).

(** The state between two steps of a dump. *)
Record dump_inv (loc : Z) (s : DumpState) : Prop := {
  inv_store : store_ok (db s);
  inv_fresh : fresh_words loc s;
  inv_compactor : usable (compactor s)
}.

(** What a dump leaves: the completed microbatches up to some point are filed;
    all of them, if it succeeds, and it fails only if something does. *)
Definition dump_post (loc : Z) (rows : list R) (items : list (comp StreamError (@QueryMessage R))) (s : DumpState)
    (r : comp DumpError unit) (s' : DumpState) : Prop :=
  ∃ done rest new orphans,
    cut rows (item_events items) = done ++ rest
    /\ dumped loc s s' done new orphans /\ (size orphans <= 1)%nat
    /\ store_ok (db s') /\ fresh_words loc s'
    /\ match r with
       | Ok _ => rest = [] /\ orphans = ∅ /\ all_ok items /\ usable (compactor s')
       | Err _ => quiet → healthy (compactor s) → ~ all_ok items
       | _ => False
       end.

Section Names.
(** The random words do not repeat. *)
Context (words_u64 : ∀ i, is_u64 (next_u64 i))
  (words_distinct : ∀ i j, (i < word_limit)%nat → (j < word_limit)%nat → next_u64 i = next_u64 j → i = j).

Lemma name_inj a i b j :
  (i < word_limit)%nat → (j < word_limit)%nat →
  parquet_file_name a (next_u64 i) = parquet_file_name b (next_u64 j) → i = j.
Proof. intros Hi Hj He. apply words_distinct; [done..|]. by eapply parquet_name_inj. Qed.

Lemma fresh_unchanged loc s s' : unchanged s s' → (words s <= words s')%nat → fresh_words loc s → fresh_words loc s'.
Proof. intros [Hd _] Hw Hf i st Hi. rewrite Hd. apply Hf. lia. Qed.

Lemma fresh_stored loc w s s' :
  objects (db s') = {[(loc, writer_name w)]} ∪ objects (db s) → (words s <= words s')%nat → writer_ok loc w s →
  fresh_words loc s → fresh_words loc s'.
Proof.
  intros Ho Hw (_ & i & st & Hi & Hn) Hf j st' Hj. rewrite Ho, Hn, not_elem_of_union. split; [|apply Hf; lia].
  intros [= He]%elem_of_singleton. apply name_inj in He; lia.
Qed.

Lemma all_ok_cons m items : all_ok (m :: items) ↔ (∃ x, m = Ok x) /\ all_ok items.
Proof. unfold all_ok. by rewrite list.Forall_cons. Qed.

(** A failure before the microbatch is filed. *)
Lemma dump_post_failed loc rows items s e s' orphans :
  dumped loc s s' [] [] orphans → (size orphans <= 1)%nat → store_ok (db s') → fresh_words loc s' →
  (quiet → healthy (compactor s) → ~ all_ok items) →
  dump_post loc rows items s (Err e) s'.
Proof. intros Hd ? ? ? ?. exists [], (cut rows (item_events items)), [], orphans. by split_and!. Qed.

Lemma dump_post_unchanged loc rows items s e s' :
  dump_inv loc s → unchanged s s' → (words s <= words s')%nat → (quiet → healthy (compactor s) → ~ all_ok items) →
  dump_post loc rows items s (Err e) s'.
Proof.
  intros [Hok Hf _] Hu Hw Hq. apply (dump_post_failed _ _ _ _ _ _ ∅); [by apply dumped_unchanged|rewrite size_empty; lia| | |done].
  - by rewrite (proj1 Hu).
  - by eapply fresh_unchanged.
Qed.

(** A step that changes nothing but the open microbatch. *)
Lemma dump_post_step loc rows rows' m items s s' r s2 :
  unchanged s s' → compactor s' = compactor s → cut rows (item_events (Ok m :: items)) = cut rows' (item_events items) →
  dump_post loc rows' items s' r s2 → dump_post loc rows (Ok m :: items) s r s2.
Proof.
  intros Hu Hc Hcut (done & rest & new & orphans & He & Hd & Hs & Hok & Hf & Hr).
  exists done, rest, new, orphans. rewrite Hcut. split; [done|]. split.
  { by apply (dumped_trans loc s s' s2 [] done [] new orphans (dumped_unchanged _ _ _ Hu)). }
  split_and!; [done..|]. destruct r as [[]|e| |]; [|..|done|done].
  - destruct Hr as (? & ? & ? & ?). split_and!; [done..| |done]. apply all_ok_cons. eauto.
  - rewrite all_ok_cons, <- Hc. intros Hq Hh [_ ?]. by apply Hr.
Qed.

Lemma cut_rows rows new es : cut rows ((RowEvent <$> new) ++ es) = cut (rows ++ new) es.
Proof.
  revert rows. induction new as [|r new IH]; intros rows; cbn; [by rewrite app_nil_r|].
  by rewrite IH, <- app_assoc.
Qed.

Lemma registered_of loc w r s s1 s2 o :
  stored loc w r s s1 → contents s2 = contents s1 → db s2 = register_file loc (writer_name w) [r] o (db s1) →
  registered loc w r s s2.
Proof. intros [Hd Hc] Hc2 Hd2. exists o. split; congruence. Qed.

(** A failure once the microbatch is stored. *)
Lemma dump_post_stored loc w r rows items s s' e :
  stored loc w r s s' → dump_inv loc s → writer_ok loc w s → (words s <= words s')%nat →
  (quiet → healthy (compactor s) → ~ all_ok items) → dump_post loc rows items s (Err e) s'.
Proof.
  intros Hst [Hok Hf _] Hw Hle Hq. pose proof (proj1 Hst) as Hd.
  apply (dump_post_failed _ _ _ _ _ _ {[(loc, writer_name w)]}); [|by rewrite size_singleton| | |done].
  - eapply dumped_stored; [done|apply Hw].
  - rewrite Hd. by apply with_object_ok.
  - apply (fresh_stored loc w s); [by rewrite Hd|done..].
Qed.

Lemma registered_unchanged loc w r s s1 s2 : registered loc w r s s1 → unchanged s1 s2 → registered loc w r s s2.
Proof. intros (o & Hd & Hc) [Hd' Hc']. exists o. split; congruence. Qed.

Lemma registered_inv loc w r s s' :
  registered loc w r s s' → dump_inv loc s → writer_ok loc w s → range_wf (numbers r) → (words s <= words s')%nat →
  store_ok (db s') /\ fresh_words loc s'.
Proof.
  intros (o & Hd & _) [Hok Hf _] Hw Hr Hle. split.
  - rewrite Hd. apply register_ok; [by apply with_object_ok|cbn; set_solver|by apply list.Forall_singleton].
  - apply (fresh_stored loc w s); [|done..]. rewrite Hd, register_new; [done|done|]. apply Hw.
Qed.

(** The microbatch is filed and the dump goes on. *)
Lemma dump_post_next loc w r items s s' res s2 :
  registered loc w r s s' → dump_inv loc s → writer_ok loc w s →
  (quiet → healthy (compactor s) → healthy (compactor s')) → dump_post loc [] items s' res s2 →
  dump_post loc (writer_rows w) (Ok (MicrobatchEnd r) :: items) s res s2.
Proof.
  intros Hreg [Hok _ _] [Hnew _] Hh (done & rest & new & orphans & He & Hd & Hs & Hok2 & Hf & Hr).
  destruct (dumped_registered loc w r s s' Hreg Hok Hnew) as (row & Hrow & _).
  exists ((r, writer_rows w) :: done), rest, (row :: new), orphans. split; [cbn; by rewrite He|]. split.
  { by apply (dumped_trans loc s s' s2 [_] done [row] new orphans). }
  split_and!; [done..|]. destruct res as [[]|e| |]; [|..|done|done].
  - destruct Hr as (? & ? & ? & ?). split_and!; [done..| |done]. apply all_ok_cons. eauto.
  - rewrite all_ok_cons. intros Hq Hc [_ ?]. by apply Hr; [|apply Hh|].
Qed.

(** A failure once the microbatch is filed. *)
Lemma dump_post_filed loc w r items s s' e :
  registered loc w r s s' → dump_inv loc s → writer_ok loc w s → range_wf (numbers r) → (words s <= words s')%nat →
  (quiet → ~ healthy (compactor s)) → dump_post loc (writer_rows w) (Ok (MicrobatchEnd r) :: items) s (Err e) s'.
Proof.
  intros Hreg Hinv Hw Hr Hle Hq. destruct (registered_inv _ _ _ _ _ Hreg Hinv Hw Hr Hle) as [Hok Hf].
  destruct (dumped_registered loc w r s s' Hreg (inv_store _ _ Hinv) (proj1 Hw)) as (row & Hrow & _).
  exists [(r, writer_rows w)], (cut [] (item_events items)), [row], ∅.
  split_and!; [done|done|rewrite size_empty; lia|done|done|]. intros Hqu Hh. by destruct (Hq Hqu).
Qed.

(** The end of a microbatch: its file is closed and committed. *)
Lemma dump_end_spec loc r items w s :
  range_wf (numbers r) → dump_inv loc s → writer_ok loc w s → (words s < word_limit)%nat →
  (∀ w s', dump_inv loc s' → writer_ok loc w s' → words s' = S (words s) → wp (dump_messages loc items w) (dump_post loc (writer_rows w) items s') s') →
  wp (dump_messages loc (Ok (MicrobatchEnd r) :: items) w)
     (dump_post loc (writer_rows w) (Ok (MicrobatchEnd r) :: items) s) s.
Proof.
  intros Hm Hinv Hw Hlim Hrest. cbn [dump_messages].
  cbv zeta. apply wp_bind. eapply wp_mono; [apply file_close_spec|].
  intros [out|e| |] s1 (Hw1 & Hc1 & Hr1); [|..|done|done].
  2:{ destruct Hr1 as [Hq [Hu|Hst]]; [apply dump_post_unchanged; [done..|by rewrite Hw1|by intros ?%Hq]|].
      apply (dump_post_stored loc w r); [done|done|done|lia|by intros ?%Hq]. }
  destruct Hr1 as (Hn & Hrs & Hst). apply wp_bind. eapply wp_mono; [apply commit_spec|]. rewrite Hn, Hrs.
  intros [[]|e| |] s2 (Hw2 & Hc2 & Hcs2 & Hr2); [|..|done|done].
  2:{ destruct Hr2 as [Hq [Hu|Hreg]].
      - apply (dump_post_stored loc w r); [split; [by rewrite Hu; apply Hst|by rewrite Hcs2; apply Hst]|done|done|lia|by intros ?%Hq].
      - apply (dump_post_filed loc w r); [by eapply registered_of|done|done|done|lia|by intros ?%Hq]. }
  assert (registered loc w r s s2) as Hreg by (by eapply registered_of).
  apply wp_bind. eapply wp_mono; [apply run_compactor_spec; rewrite Hc2, Hc1; apply Hinv|].
  intros [[]|e| |] s3 (Hu3 & Hw3 & Hr3); [|..|done|done].
  2:{ apply (dump_post_filed loc w r); [by eapply registered_unchanged|done|done|done|lia|].
      by rewrite <- Hc1, <- Hc2. }
  assert (registered loc w r s s3) as Hreg3 by (by eapply registered_unchanged).
  apply wp_bind. eapply wp_mono; [apply file_writer_new_spec|].
  intros [w'|e| |] s4 (Hu4 & Hw4 & Hc4 & Hr4); [|..|done|done].
  2:{ apply (dump_post_filed loc w r); [by eapply registered_unchanged|done|done|done|lia|by intros ?%Hr4]. }
  assert (registered loc w r s s4) as Hreg4 by (by eapply registered_unchanged).
  destruct (registered_inv _ _ _ _ _ Hreg4 Hinv Hw Hm ltac:(lia)) as [Hok4 Hf4].
  assert (fresh_words loc s3) as Hf3 by (apply (registered_inv loc w r s); [done|done|done|done|lia]).
  destruct Hr4 as [Hn4 Hrows4]. eapply wp_mono; [apply Hrest|].
  - split; [done|done|by rewrite Hc4; apply Hr3].
  - split; rewrite Hn4; [rewrite (proj1 Hu4); apply Hf3; lia|]. exists (words s3), (add64 (end_ r) 1). split; [lia|done].
  - lia.
  - intros res s'. rewrite Hrows4. apply dump_post_next; [done..|]. rewrite Hc4, <- Hc1, <- Hc2. apply Hr3.
Qed.

Lemma dump_messages_spec loc items w s :
  stream_ok items → dump_inv loc s → writer_ok loc w s → (words s + length items <= word_limit)%nat →
  wp (dump_messages loc items w) (dump_post loc (writer_rows w) items s) s.
Proof.
  revert w s. induction items as [|m items IH]; intros w s Hs Hinv Hw Hlim.
  { apply wp_ret. exists [], [], [], ∅. destruct Hinv. assert (all_ok []) by by apply Forall_nil.
    split_and!; try done; [by apply dumped_unchanged|rewrite size_empty; lia]. }
  cbn [length stream_ok] in Hlim, Hs. destruct m as [[r b|b|r|n]|e| |]; cbn [dump_messages]; [| | | | |done|done].
  - eapply wp_mono; [apply IH; [done|done|done|lia]|]. intros res s'. by apply dump_post_step.
  - apply wp_bind. eapply wp_mono; [apply file_write_spec|]. intros [w'|e| |] s1 (Hu & Hwo & Hc & Hr); [|..|done|done].
    + destruct Hr as [Hn Hrows]. eapply wp_mono; [apply IH|].
      * done.
      * destruct Hinv as [? ? ?]. split; [by rewrite (proj1 Hu)|eapply fresh_unchanged; [done|lia|done]|by rewrite Hc].
      * destruct Hw as [? ?]. split; rewrite Hn; [by rewrite (proj1 Hu)|by rewrite Hwo].
      * lia.
      * intros res s'. apply dump_post_step; [done..|]. cbn [item_events events]. rewrite cut_rows. by rewrite Hrows.
    + apply dump_post_unchanged; [done|done|by rewrite Hwo|by intros ?%Hr].
  - destruct Hs as [Hr Hs]. apply dump_end_spec; [done..|lia|]. intros w' s' Hinv' Hw' He. apply IH; [done|done|done|lia].
  - eapply wp_mono; [apply IH; [done|done|done|lia]|]. intros res s'. by apply dump_post_step.
  - apply dump_post_unchanged; [done|done|done|]. intros _ _ [[? [=]] _]%all_ok_cons.
Qed.

Lemma dump_sql_query_spec loc start items s :
  stream_ok items → dump_inv loc s → (words s + length items < word_limit)%nat →
  wp (dump_sql_query loc start items) (dump_post loc [] items s) s.
Proof.
  intros Hs Hinv Hlim. apply wp_bind. eapply wp_mono; [apply file_writer_new_spec|].
  intros [w|e| |] s1 (Hu & Hw & Hc & Hr); [|..|done|done].
  2:{ apply dump_post_unchanged; [done|done|lia|by intros ?%Hr]. }
  destruct Hr as [Hn Hrows]. assert (fresh_words loc s1) as Hf by (eapply fresh_unchanged; [done|lia|apply Hinv]).
  eapply wp_mono; [apply dump_messages_spec|]; [done| | | |].
  - split; [rewrite (proj1 Hu); apply Hinv|done|rewrite Hc; apply Hinv].
  - split; rewrite Hn; [rewrite (proj1 Hu); apply (inv_fresh _ _ Hinv); lia|]. exists (words s), start. split; [lia|done].
  - lia.
  - rewrite Hrows. intros r s' (done & rest & new & orphans & He & Hd & Hz & Hok & Hf' & Hr').
    exists done, rest, new, orphans. rewrite <- Hc. split_and!; try done.
    by apply (dumped_trans loc s s1 s' [] done [] new orphans (dumped_unchanged _ _ _ Hu)).
Qed.

(** C20: the dump of a query's stream, wherever an operation of the object store
    or the database fails, before or after it took effect: the files registered
    are one for each completed microbatch up to some point, in order, with its
    range, no parents and exactly its rows in order whatever the row groups; all
    of them when the dump succeeds. Other rows and objects are as they were, at
    most one object is left without a row (none on success), the metadata stays
    well formed, and the dump succeeds if nothing fails. *)
Theorem dump_files_microbatches loc start items s :
  stream_ok items → dump_inv loc s → (words s + length items < word_limit)%nat →
  let '(r, s') := dump_sql_query loc start items s in
  ∃ done rest new orphans,
    cut [] (item_events items) = done ++ rest
    /\ dumped loc s s' done new orphans /\ (size orphans <= 1)%nat
    /\ store_ok (db s') /\ fresh_words loc s'
    /\ r ≠ Panic /\ r ≠ OutOfFuel
    /\ (r = Ok tt → rest = [] /\ orphans = ∅)
    /\ (quiet → healthy (compactor s) → all_ok items → r = Ok tt).
Proof.
  intros Hs Hinv Hlim. pose proof (dump_sql_query_spec loc start items s Hs Hinv Hlim) as Hp. unfold wp in Hp.
  destruct (dump_sql_query loc start items s) as [r s']. cbn [fst snd] in Hp.
  destruct Hp as (done & rest & new & orphans & He & Hd & Hz & Hok & Hf & Hr).
  exists done, rest, new, orphans. split_and!; try done; destruct r as [[]|e| |]; try done.
  - intros _. by split; apply Hr.
  - intros Hq Hh Ha. by destruct (Hr Hq Hh).
Qed.
End Names.

(** ** The consistency check *)

(** The objects [removed] are gone; the rows are as they were. *)
Record cleaned (s s' : DumpState) (removed : gset (Z * string)) : Prop := {
  cleaned_files : files (db s') = files (db s);
  cleaned_next : next_file_id (db s') = next_file_id (db s);
  cleaned_manifest : gc_manifest (db s') = gc_manifest (db s);
  cleaned_objects : objects (db s') = objects (db s) ∖ removed;
  cleaned_contents p : contents s' !! p = if decide (p ∈ removed) then None else contents s !! p
}.

Lemma cleaned_unchanged s s' : unchanged s s' → cleaned s s' ∅.
Proof.
  intros [Hd Hc]. split; try (by rewrite ?Hd, ?Hc). rewrite Hd. set_solver.
Qed.

Lemma cleaned_one loc name s s' :
  db s' = db (remove_object (loc, name) s) → contents s' = contents (remove_object (loc, name) s) →
  cleaned s s' {[(loc, name)]}.
Proof.
  intros Hd Hc. split; rewrite ?Hd, ?Hc; try done. cbn. intros p. destruct (decide _) as [->%elem_of_singleton|Hp].
  - apply lookup_delete_eq.
  - apply lookup_delete_ne. intros <-. by apply Hp, elem_of_singleton.
Qed.

Lemma cleaned_trans s s1 s2 r1 r2 : cleaned s s1 r1 → cleaned s1 s2 r2 → cleaned s s2 (r1 ∪ r2).
Proof.
  intros [? ? ? Ho1 Hc1] [? ? ? Ho2 Hc2]. split; try congruence; [rewrite Ho2, Ho1; set_solver|].
  intros p. rewrite Hc2, Hc1. repeat case_decide; set_solver.
Qed.

Definition check_fault (e : ConsistencyError) : Prop := match e with MissingRegisteredFile _ => False | _ => True end.

Lemma wp_check_operation e effect (Q : comp ConsistencyError unit → DumpState → Prop) s :
  (∀ s1, db s1 = db s → contents s1 = contents s → words s1 = words s → clock s1 = S (clock s) →
     Q (Ok tt) (effect s1) /\ (~ reliable_from (clock s) → Q (Err e) s1 /\ Q (Err e) (effect s1))) →
  wp (check_operation e effect) Q s.
Proof.
  intros HQ. unfold check_operation, map_err, wp.
  destruct (operation StoreFailed effect s) as [r s'] eqn:E. unfold operation in E.
  destruct (HQ (mkDump (db s) (contents s) (notifications s) (compactor s) (words s) (S (clock s)))
              eq_refl eq_refl eq_refl eq_refl) as [Hok Herr].
  destruct (fault (clock s)) eqn:Ef; injection E as <- <-; [done|..].
  all: apply Herr; intros Hq; specialize (Hq (clock s) ltac:(lia)); congruence.
Qed.

Definition orphans_of (loc : Z) (registered : gset string) (l : list string) : gset (Z * string) :=
  list_to_set (pair loc <$> filter (λ f, f ∉ registered) l).

Lemma orphans_of_elem loc registered l p :
  p ∈ orphans_of loc registered l ↔ p.1 = loc /\ p.2 ∈ l /\ p.2 ∉ registered.
Proof.
  unfold orphans_of. rewrite elem_of_list_to_set, list_elem_of_fmap. setoid_rewrite list_elem_of_filter.
  destruct p as [loc' f]. cbn. split.
  - intros (f' & [= -> ->] & ? & ?). done.
  - intros (-> & ? & ?). by exists f.
Qed.

Lemma delete_orphans_spec loc registered l s :
  wp (delete_orphans loc registered l) (λ r s', ∃ removed, cleaned s s' removed
    /\ removed ⊆ orphans_of loc registered l /\ words s' = words s /\ (clock s <= clock s')%nat
    /\ match r with
       | Ok _ => removed = orphans_of loc registered l
       | Err e => check_fault e /\ ~ reliable_from (clock s)
       | _ => False
       end) s.
Proof.
  revert s. induction l as [|f l IH]; intros s.
  { apply wp_ret. exists ∅. split; [by apply cleaned_unchanged|]. split_and!; done. }
  cbn [delete_orphans for_each]. apply wp_bind. fold (delete_orphans loc registered l). case_bool_decide as Hf.
  - apply wp_ret. eapply wp_mono; [apply IH|]. intros r s' (removed & Hc & Hsub & Hw & Hk & Hr).
    assert (orphans_of loc registered (f :: l) = orphans_of loc registered l) as ->.
    { unfold orphans_of. by rewrite filter_cons_False by (by intros ?). }
    by exists removed.
  - assert (orphans_of loc registered (f :: l) = {[(loc, f)]} ∪ orphans_of loc registered l) as Ho.
    { unfold orphans_of. by rewrite filter_cons_True by done. }
    rewrite Ho. apply wp_check_operation. intros s1 Hd Hc Hw Hk. split; [|intros Hrel; split].
    + assert (cleaned s (remove_object (loc, f) s1) {[(loc, f)]}) as Hone
        by (apply cleaned_one; cbn; by rewrite ?Hd, ?Hc).
      eapply wp_mono; [apply IH|]. intros r s' (removed & Hcl & Hsub & Hw' & Hk' & Hr). cbn in Hw', Hk', Hr.
      exists ({[(loc, f)]} ∪ removed). split; [by eapply cleaned_trans|]. split; [set_solver|].
      split; [congruence|]. split; [lia|]. destruct r as [[]|e| |]; [by rewrite Hr| |done|done].
      destruct Hr as [? Hrel]. split; [done|]. intros Hall. apply Hrel. intros k Hle. apply Hall. lia.
    + exists ∅. split; [by apply cleaned_unchanged|]. split_and!; [set_solver|done|lia|done|done].
    + exists {[(loc, f)]}. split; [apply cleaned_one; cbn; by rewrite ?Hd, ?Hc|].
      split_and!; [set_solver|done|cbn; lia|done|done].
Qed.

Lemma find_missing_spec stored l s :
  wp (find_missing stored l) (λ r s', s' = s /\
    match r with
    | Ok _ => ∀ f, f ∈ l → f ∈ stored
    | Err (MissingRegisteredFile f) => ∃ before after, l = before ++ f :: after /\ f ∉ stored /\ ∀ g, g ∈ before → g ∈ stored
    | _ => False
    end) s.
Proof.
  induction l as [|f l IH]; [apply wp_ret; split; [done|]; by intros ? ?%elem_of_nil|].
  cbn [find_missing for_each]. fold (find_missing stored l). apply wp_bind. case_bool_decide as Hf.
  - apply wp_ret. eapply wp_mono; [apply IH|]. intros r s' [-> Hr]. split; [done|].
    destruct r as [[]|[| | |g]| |]; try done.
    + intros g [->|?]%elem_of_cons; [done|by apply Hr].
    + destruct Hr as (before & after & -> & Hg & Hb). exists (f :: before), after. split_and!; [done..|].
      intros h [->|?]%elem_of_cons; [done|by apply Hb].
  - split; [done|]. exists [], l. split_and!; [done..|]. by intros ? ?%elem_of_nil.
Qed.

Lemma elem_of_sorted_names f X : f ∈ sorted_names X ↔ f ∈ X.
Proof. unfold sorted_names. by rewrite merge_sort_Permutation, elem_of_elements. Qed.

Lemma sorted_names_sorted X : StronglySorted string_le (sorted_names X).
Proof. apply StronglySorted_merge_sort; apply _. Qed.

Lemma elem_of_stored f loc d : f ∈ stored_files loc d ↔ (loc, f) ∈ objects d.
Proof.
  unfold stored_files. rewrite elem_of_map. setoid_rewrite elem_of_filter. split.
  - intros ([l g] & -> & Hl & ?). cbn in *. by subst.
  - intros ?. by exists (loc, f).
Qed.

Lemma elem_of_registered f loc d :
  f ∈ registered_files loc d ↔ ∃ i row, files d !! i = Some row /\ file_location row = loc /\ file_name row = f.
Proof.
  unfold registered_files. rewrite elem_of_list_to_set, list_elem_of_fmap. split.
  - intros ([i row] & -> & [? ?]%location_files_elem). by exists i, row.
  - intros (i & row & ? & ? & <-). exists (i, row). split; [done|]. by apply location_files_elem.
Qed.

Lemma registered_files_ext loc d d' : files d' = files d → registered_files loc d' = registered_files loc d.
Proof. unfold registered_files, location_files. by intros ->. Qed.

Lemma registered_stored loc d : store_ok d → registered_files loc d ⊆ stored_files loc d.
Proof.
  intros Hok f (i & row & Hi & <- & <-)%elem_of_registered. apply elem_of_stored. by apply (ok_backed d Hok i).
Qed.

(** What the check removes: the objects of the location without a row. *)
Definition orphaned (loc : Z) (d : FileDb) : gset (Z * string) :=
  orphans_of loc (registered_files loc d) (sorted_names (stored_files loc d)).

Lemma elem_of_orphaned loc d p : p ∈ orphaned loc d ↔ p.1 = loc /\ p ∈ objects d /\ p.2 ∉ registered_files loc d.
Proof.
  unfold orphaned. rewrite orphans_of_elem, elem_of_sorted_names, elem_of_stored. destruct p as [l f]. cbn.
  split; intros (-> & ? & ?); done.
Qed.

Lemma cleaned_store_ok loc s s' removed :
  cleaned s s' removed → removed ⊆ orphaned loc (db s) → store_ok (db s) → store_ok (db s').
Proof.
  intros [Hf Hn Hm Ho _] Hsub [H1 H2 H3 H4 H5]. split; rewrite ?Hf, ?Hn, ?Hm, ?Ho; try done.
  intros i f Hi. apply elem_of_difference. split; [by eapply H3|]. intros Hr%Hsub%elem_of_orphaned. cbn in Hr.
  destruct Hr as (Hl & _ & []). apply elem_of_registered. by exists i, f.
Qed.

Lemma cleaned_stored loc s s' :
  cleaned s s' (orphaned loc (db s)) → stored_files loc (db s') = stored_files loc (db s) ∩ registered_files loc (db s).
Proof.
  intros Hc. apply set_eq. intros f. rewrite elem_of_intersection, !elem_of_stored, (cleaned_objects _ _ _ Hc).
  rewrite elem_of_difference, elem_of_orphaned. cbn. destruct (decide (f ∈ registered_files loc (db s))); tauto.
Qed.

Lemma consistency_check_spec loc s :
  wp (consistency_check loc) (λ r s', ∃ removed, cleaned s s' removed /\ removed ⊆ orphaned loc (db s) /\ words s' = words s
    /\ match r with
       | Ok _ => removed = orphaned loc (db s) /\ registered_files loc (db s) ⊆ stored_files loc (db s)
       | Err (MissingRegisteredFile f) =>
           removed = orphaned loc (db s) /\ f ∈ registered_files loc (db s) /\ f ∉ stored_files loc (db s)
           /\ ∀ g, g ∈ registered_files loc (db s) → g ∉ stored_files loc (db s) → string_le f g
       | Err _ => ~ reliable_from (clock s)
       | _ => False
       end) s.
Proof.
  assert (∀ s1 s0 n, unchanged s s0 → words s0 = words s → unchanged s0 s1 → words s1 = words s0 →
    ~ reliable_from n → (clock s <= n)%nat → ∃ removed, cleaned s s1 removed /\ removed ⊆ orphaned loc (db s)
      /\ words s1 = words s /\ ~ reliable_from (clock s)) as Hfault.
  { intros s1 s0 n [Hd Hc] Hw [Hd' Hc'] Hw' Hrel Hle. exists ∅. split; [apply cleaned_unchanged; split; congruence|].
    split; [set_solver|]. split; [congruence|]. intros Hall. apply Hrel. intros k ?. apply Hall. lia. }
  unfold consistency_check. apply wp_bind, wp_check_operation. intros s1 Hd1 Hc1 Hw1 Hk1. cbn [id].
  split; [|intros Hrel; split; by apply (Hfault s1 s (clock s))].
  apply wp_bind, wp_gets, wp_bind, wp_check_operation. rewrite Hd1. intros s2 Hd2 Hc2 Hw2 Hk2. cbn [id].
  split; [|intros Hrel; split; apply (Hfault s2 s1 (clock s1)); first [done|lia|congruence|split; congruence]].
  apply wp_bind, wp_gets, wp_bind. eapply wp_mono; [apply delete_orphans_spec|]. rewrite ?Hd2, ?Hd1.
  intros r s3 (removed & Hc3 & Hsub & Hw3 & Hk3 & Hr).
  assert (cleaned s s3 removed) as Hcl.
  { rewrite <- (union_empty_l_L removed). eapply cleaned_trans; [|done]. apply cleaned_unchanged. split; congruence. }
  destruct r as [[]|e| |]; [|..|done|done].
  - eapply wp_mono; [apply find_missing_spec|]. intros r s4 [-> Hm]. exists removed. subst removed.
    split; [done|]. split; [done|]. split; [congruence|]. destruct r as [[]|[| | |f]| |]; try done.
    + split; [done|]. intros f Hf. apply Hm. by apply elem_of_sorted_names.
    + destruct Hm as (before & after & He & Hf & Hb). split; [done|].
      split; [apply elem_of_sorted_names; rewrite He; set_solver|]. split; [done|].
      intros g Hg Hng. apply elem_of_sorted_names in Hg. pose proof (sorted_names_sorted (registered_files loc (db s))) as Hs.
      rewrite He in Hg, Hs. apply elem_of_app in Hg as [Hg|Hg]; [by destruct (Hng (Hb g Hg))|].
      apply StronglySorted_app in Hs as (_ & _ & Hs). apply StronglySorted_inv in Hs as [_ Hs].
      apply elem_of_cons in Hg as [->|Hg]; [by destruct (String.leb_total f f)|]. by rewrite Forall_forall in Hs; apply Hs.
  - exists removed. split; [done|]. split; [done|]. split; [congruence|]. destruct Hr as [He Hrel].
    assert (~ reliable_from (clock s)) by (intros Hall; apply Hrel; intros k ?; apply Hall; lia). by destruct e.
Qed.

(** The consistency check deletes objects of its location that no row names,
    never one that a row names, and changes no row. When it succeeds the
    objects of the location are exactly its registered files. It reports a
    missing file only for a row without its object, the first in the order of
    names, after all orphans are gone, so never on well-formed metadata; any
    other error is a failed operation. *)
Theorem consistency_check_correct loc s :
  let '(r, s') := consistency_check loc s in
  ∃ removed, cleaned s s' removed
    /\ (∀ p, p ∈ removed → p.1 = loc /\ p ∈ objects (db s) /\ p.2 ∉ registered_files loc (db s))
    /\ (store_ok (db s) → store_ok (db s'))
    /\ match r with
       | Ok _ => stored_files loc (db s') = registered_files loc (db s')
       | Err (MissingRegisteredFile f) =>
           ~ store_ok (db s) /\ f ∈ registered_files loc (db s) /\ f ∉ stored_files loc (db s)
           /\ (∀ g, g ∈ registered_files loc (db s) → g ∉ stored_files loc (db s) → string_le f g)
           /\ stored_files loc (db s') ⊆ registered_files loc (db s')
       | Err _ => ~ reliable_from (clock s)
       | _ => False
       end.
Proof.
  pose proof (consistency_check_spec loc s) as Hc. unfold wp in Hc.
  destruct (consistency_check loc s) as [r s']. cbn [fst snd] in Hc. destruct Hc as (removed & Hcl & Hsub & _ & Hr).
  exists removed. split; [done|]. split; [intros p Hp; by apply elem_of_orphaned, Hsub|].
  split; [by eapply cleaned_store_ok|]. rewrite (registered_files_ext loc _ _ (cleaned_files _ _ _ Hcl)).
  destruct r as [[]|[| | |f]| |]; try done.
  - destruct Hr as [-> Hin]. rewrite (cleaned_stored loc s s' Hcl). set_solver.
  - destruct Hr as (-> & Hf & Hns & Hmin). rewrite (cleaned_stored loc s s' Hcl). split_and!; try done; [|set_solver].
    intros Hok. by apply Hns, (registered_stored loc (db s) Hok).
Qed.

Lemma files_as_cleaned loc s s' batch i row removed :
  cleaned s s' removed → removed ⊆ orphaned loc (db s) → files (db s) !! i = Some row →
  files_as loc s batch (i, row) → files_as loc s' batch (i, row).
Proof.
  intros Hc Hsub Hi (Hl & Hr & f & Hf & ?). split; [done|]. split; [done|]. exists f. split; [|done].
  rewrite (cleaned_contents _ _ _ Hc), decide_False; [done|]. intros (_ & _ & [])%Hsub%elem_of_orphaned.
  apply elem_of_registered. by exists i, row.
Qed.

(** C21: a dump that stops anywhere, followed by the check that opens the next
    one: if nothing fails in the check it succeeds, and when it succeeds the
    objects of the table are exactly its registered files, those of the earlier
    dumps with the contents they had and one for each microbatch the dump
    filed with its range and rows, all of the stream's if the dump succeeded; no
    other location has changed, and the next dump can start. *)
Theorem dump_recovers (words_u64 : ∀ i, is_u64 (next_u64 i))
    (words_distinct : ∀ i j, (i < word_limit)%nat → (j < word_limit)%nat → next_u64 i = next_u64 j → i = j)
    loc start items s :
  stream_ok items → dump_inv loc s → (words s + length items < word_limit)%nat →
  let '(r, s1) := dump_sql_query loc start items s in
  let '(r', s2) := consistency_check loc s1 in
  (reliable_from (clock s1) → r' = Ok tt)
  /\ (r' = Ok tt → ∃ done rest new,
       cut [] (item_events items) = done ++ rest /\ (r = Ok tt → rest = [])
       /\ (∀ i f, files (db s2) !! i = Some f ↔ files (db s) !! i = Some f \/ (i, f) ∈ new)
       /\ Forall2 (files_as loc s2) done new
       /\ stored_files loc (db s2) = registered_files loc (db s2)
       /\ (∀ p, p ∈ objects (db s) → p.1 ≠ loc \/ p.2 ∈ registered_files loc (db s) →
            p ∈ objects (db s2) /\ contents s2 !! p = contents s !! p)
       /\ store_ok (db s2) /\ fresh_words loc s2).
Proof.
  intros Hs Hinv Hlim. pose proof (dump_sql_query_spec words_u64 words_distinct loc start items s Hs Hinv Hlim) as Hp. unfold wp in Hp.
  destruct (dump_sql_query loc start items s) as [r s1]. cbn [fst snd] in Hp.
  destruct Hp as (done & rest & new & orphans & He & Hd & Hz & Hok & Hf & Hr).
  pose proof (consistency_check_spec loc s1) as Hc. unfold wp in Hc.
  destruct (consistency_check loc s1) as [r' s2]. cbn [fst snd] in Hc. destruct Hc as (removed & Hcl & Hsub & Hw & Hr').
  split.
  { destruct r' as [[]|[| | |f]| |]; try done. intros _. destruct Hr' as (_ & Hf1 & Hf2 & _).
    by destruct Hf2; apply (registered_stored loc (db s1) Hok). }
  intros ->. destruct Hr' as [-> Hin]. exists done, rest, new. pose proof (cleaned_files _ _ _ Hcl) as Hfs.
  split; [done|]. split; [intros ->; by apply Hr|].
  split; [rewrite Hfs; apply Hd|]. split.
  { pose proof (dumped_rows _ _ _ _ _ _ Hd) as Hrows.
    assert (Forall (λ row, files (db s1) !! row.1 = Some row.2) new) as Hall.
    { apply Forall_forall. intros [i f] Hi. apply (dumped_files _ _ _ _ _ _ Hd). by right. }
    clear -Hrows Hall Hcl. induction Hrows as [|d [i row] ds rows Hd _ IH]; [constructor|].
    apply list.Forall_cons in Hall as [Hi Hall]. constructor; [by eapply files_as_cleaned|by apply IH]. }
  split; [rewrite (cleaned_stored loc s1 s2 Hcl), (registered_files_ext loc _ _ Hfs); set_solver|]. split; [|split].
  - intros p Hp Hor. assert (p ∉ orphaned loc (db s1)) as Hno.
    { intros (Hl & _ & Hn)%elem_of_orphaned. destruct Hor as [?|(i & f & Hi & Hl' & Hn')%elem_of_registered]; [done|].
      apply Hn, elem_of_registered. exists i, f. split_and!; [|done..]. apply (dumped_files _ _ _ _ _ _ Hd). by left. }
    split.
    + rewrite (cleaned_objects _ _ _ Hcl), (dumped_objects _ _ _ _ _ _ Hd) in *. set_solver.
    + rewrite (cleaned_contents _ _ _ Hcl), decide_False by done. by apply (dumped_kept _ _ _ _ _ _ Hd).
  - by eapply cleaned_store_ok.
  - intros i st Hi. rewrite (cleaned_objects _ _ _ Hcl), Hw in *. intros [? _]%elem_of_difference. by apply (Hf i st).
Qed.
End Dump.

(** ** The properties at a concrete input *)

Definition demo_word (i : nat) : Z := Z.of_nat i `mod` u64_modulus.

Lemma demo_word_u64 i : is_u64 (demo_word i).
Proof. unfold demo_word. apply wrap64_range. Qed.

Lemma demo_word_distinct i j : (i < 100)%nat → (j < 100)%nat → demo_word i = demo_word j → i = j.
Proof. unfold demo_word, u64_modulus. intros. rewrite !Z.mod_small in * by lia. lia. Qed.

Definition demo_dump_range (first last h : Z) (prev : option Z) : BlockRange :=
  mkBlockRange (mkRange first last) "test" h prev.

Definition demo_batch (rows : list nat) : @RecordBatch nat := mkBatch (UInt64Array []) rows.

(** Blocks 0 to 4 in two batches, then blocks 5 to 9. *)
Definition demo_items : list (comp StreamError (@QueryMessage nat)) :=
  [Ok (MicrobatchStart (demo_dump_range 0 4 104 None) false); Ok (Data (demo_batch [1; 2]%nat)); Ok (Data (demo_batch [3]%nat));
   Ok (MicrobatchEnd (demo_dump_range 0 4 104 None));
   Ok (MicrobatchStart (demo_dump_range 5 9 109 (Some 104)) false); Ok (Data (demo_batch [4]%nat));
   Ok (MicrobatchEnd (demo_dump_range 5 9 109 (Some 104)))].

Definition demo_start : @DumpState nat :=
  mkDump (mkFileDb ∅ 1 ∅ {[(7, "stray.parquet")]}) ∅ [] (Running (mkTask 0 0)) 0 0.

(** The second file is stored, but its metadata is not read back. *)
Definition demo_fault (n : nat) : Fault := if Nat.eqb n 14 then FailsBefore else NoFault.

Definition demo_props : TaskProperties := mkProps false 60 false 60.

Abbreviation demo_dump fault := (
  dump_sql_query (λ l, Z.of_nat (length l)) (λ _, 1) 3 demo_word (λ _ _ _, mkObjectMeta "" 0 0) fault demo_props
    (λ _, None) 7 0 demo_items) (only parsing).

Lemma demo_inv : dump_inv demo_word 100 7 demo_start.
Proof.
  split; [| |done].
  - split; cbn; try done. intros i [? [=]].
  - intros i st _. cbn. intros [= He]%elem_of_singleton. apply (f_equal String.length) in He.
    pose proof (parquet_name_long st (demo_word i)). cbn in *. lia.
Qed.

Lemma demo_stream_ok : stream_ok demo_items.
Proof. done. Qed.

(** The first microbatch is registered, the object of the second is left. *)
Lemma dump_files_microbatches_witness :
  (demo_dump demo_fault demo_start).1 = Err StoreFailed
  /\ registered_files 7 (db (demo_dump demo_fault demo_start).2) = {["000000000-0000000000000000.parquet"]}
  /\ let '(r, s') := demo_dump demo_fault demo_start in
     ∃ done rest new orphans,
       cut [] (item_events demo_items) = done ++ rest /\ dumped 7 demo_start s' done new orphans
       /\ (size orphans <= 1)%nat /\ store_ok (db s').
Proof.
  split; [vm_compute; reflexivity|]. split; [vm_compute; reflexivity|].
  pose proof (dump_files_microbatches (λ l, Z.of_nat (length l)) (λ _, 1) 3 demo_word (λ _ _ _, mkObjectMeta "" 0 0)
    demo_fault demo_props (λ _, None) 100 demo_word_u64 demo_word_distinct 7 0 demo_items demo_start demo_stream_ok demo_inv
    ltac:(cbn; lia)) as Hw.
  destruct (dump_sql_query _ _ _ _ _ _ _ _ _ _ _ _) as [r s'].
  destruct Hw as (done & rest & new & orphans & He & Hd & Hz & Hok & _). by exists done, rest, new, orphans.
Defined.

(** The check removes what is left, and a file nothing knows of. *)
Lemma dump_recovers_witness :
  let '(r, s1) := demo_dump demo_fault demo_start in
  let '(r', s2) := consistency_check demo_fault 7 s1 in
  r = Err StoreFailed /\ r' = Ok tt /\ stored_files 7 (db s2) = registered_files 7 (db s2) /\ store_ok (db s2)
  /\ fresh_words demo_word 100 7 s2.
Proof.
  pose proof (dump_recovers (λ l, Z.of_nat (length l)) (λ _, 1) 3 demo_word (λ _ _ _, mkObjectMeta "" 0 0)
    demo_fault demo_props (λ _, None) 100 demo_word_u64 demo_word_distinct 7 0 demo_items demo_start demo_stream_ok demo_inv
    ltac:(cbn; lia)) as Hw.
  assert ((demo_dump demo_fault demo_start).1 = Err StoreFailed) as Hr by (vm_compute; reflexivity).
  assert (clock (demo_dump demo_fault demo_start).2 = 15%nat) as Hc by (vm_compute; reflexivity).
  destruct (dump_sql_query _ _ _ _ _ _ _ _ _ _ _ _) as [r s1]. cbn [fst snd] in Hr, Hc.
  destruct (consistency_check demo_fault 7 s1) as [r' s2]. destruct Hw as [Hok Hrest].
  assert (r' = Ok tt) as ->.
  { apply Hok. rewrite Hc. intros k Hk. unfold demo_fault. destruct (Nat.eqb_spec k 14); [lia|done]. }
  destruct (Hrest eq_refl) as (done & rest & new & _ & _ & _ & _ & Hs & _ & Hst & Hf). by split_and!.
Defined.
