(* ===== verification/Client.v ===== *)
(** * Client

    The checks the client applies to a streaming response
    (client/src/validation.rs) and the stream of protocol messages it derives
    from the batches (client/src/client.rs). The ranges of the client have the
    fields of [BlockRange]; the contents of a record batch are a parameter. *)

From stdpp Require Import base numbers gmap strings option sets list sorting.
From Stdlib Require Import ZArith Lia.
From S2P Require Import Prelude Ranges BlockRange.

(** ** Validation *)

Inductive ValidationError :=
  | DuplicateNetwork (network : string)
  | NetworkCountChanged (expected actual : nat)
  | UnexpectedNetwork (network : string)
  | MissingPrevHash (network : string) (block : Z)
  | InvalidPrevHash
  | HashMismatchOnConsecutiveBlocks (network : string) (expected_hash actual_prev_hash : Z)
  | InvalidReorg (network : string)
  | Gap (network : string) (missing_start missing_end : Z).

(** [BlockHash::ZERO] *)
Definition zero_hash : Z := 0.

Definition validate_prev_hash (incoming : BlockRange) : comp ValidationError unit :=
  let is_actually_set :=
    match prev_hash incoming with Some h => negb (h =? zero_hash) | None => false end in
  if start incoming =? 0 then if is_actually_set then Err InvalidPrevHash else Ok tt
  else if negb is_actually_set then Err (MissingPrevHash (network incoming) (start incoming))
  else Ok tt.

(** The first network that occurs again later in the batch. *)
Fixpoint first_duplicate (incoming : list BlockRange) : option string :=
  match incoming with
  | [] => None
  | r :: rest =>
      if existsb (λ q, (network r =? network q)%string) rest then Some (network r)
      else first_duplicate rest
  end.

Definition validate_networks (previous incoming : list BlockRange) : comp ValidationError unit :=
  match first_duplicate incoming with
  | Some n => Err (DuplicateNetwork n)
  | None =>
      match previous with
      | [] => Ok tt
      | _ =>
          if negb (Nat.eqb (length previous) (length incoming))
          then Err (NetworkCountChanged (length previous) (length incoming))
          else match List.find (λ r, negb (existsb (λ p, (network p =? network r)%string) previous)) incoming with
               | Some r => Err (UnexpectedNetwork (network r))
               | None => Ok tt
               end
      end
  end.

(** [ranges.iter().find(|p| p.network == net)] *)
Definition find_network (net : string) (ranges : list BlockRange) : option BlockRange :=
  List.find (λ p, (network p =? net)%string) ranges.

Definition validate_range (previous : list BlockRange) (incoming : BlockRange) : comp ValidationError unit :=
  match find_network (network incoming) previous with
  | None => Ok tt
  | Some prev =>
      if bool_decide (incoming = prev) then Ok tt
      else
        let expected := add64 (end_ prev) 1 in
        if expected <? start incoming
        then Err (Gap (network incoming) expected (sub64 (start incoming) 1))
        else if start incoming =? expected
        then if bool_decide (prev_hash incoming = Some (hash prev)) then Ok tt
             else Err (HashMismatchOnConsecutiveBlocks (network incoming) (hash prev)
                         (default zero_hash (prev_hash incoming)))
        else if bool_decide (prev_hash incoming = Some (hash prev))
        then Err (InvalidReorg (network incoming)) else Ok tt
  end.

(** [for x in l { f(x)?; }] for checks without state. *)
Fixpoint check_all {E A} (f : A → comp E unit) (l : list A) : comp E unit :=
  match l with
  | [] => Ok tt
  | x :: l' => _ ← f x; check_all f l'
  end.

Definition validate_consecutiveness (previous incoming : list BlockRange) : comp ValidationError unit :=
  check_all (validate_range previous) incoming.

(** ** Protocol messages *)

Record InvalidationRange := mkInvalidation { inv_network : string; inv_numbers : RangeInclusive }.

(** [InvalidationRange::invalidates] *)
Definition invalidates (i : InvalidationRange) (r : BlockRange) : bool :=
  (inv_network i =? network r)%string
  && negb ((range_end (inv_numbers i) <? start r) || (end_ r <? range_start (inv_numbers i))).

Section Protocol.
Context {B : Type}.

Record Metadata := mkMetadata { ranges : list BlockRange; ranges_complete : bool }.
Record ResponseBatch := mkResponse { data : B; metadata : Metadata }.

Inductive ProtocolMessage :=
  | Data (batch : B) (ranges : list BlockRange)
  | Reorg (previous incoming : list BlockRange) (invalidation : list InvalidationRange)
  | WatermarkMsg (ranges : list BlockRange).

(** The invalidated range of one network, if the batch jumps backwards on it. *)
Definition invalidation_of (previous : list BlockRange) (incoming : BlockRange) : option InvalidationRange :=
  match find_network (network incoming) previous with
  | None => None
  | Some prev =>
      if bool_decide (incoming = prev) then None
      else if start incoming <? add64 (end_ prev) 1
      then Some (mkInvalidation (network incoming)
                   (mkRange (start incoming) (Z.max (end_ incoming) (end_ prev))))
      else None
  end.

(** One turn of the loop of [ProtocolStream::new]: the messages it yields. *)
Definition protocol_step (previous : list BlockRange) (batch : ResponseBatch)
    : comp ValidationError (list ProtocolMessage) :=
  let rs := ranges (metadata batch) in
  _ ← check_all validate_prev_hash rs;
  _ ← validate_networks previous rs;
  _ ← validate_consecutiveness previous rs;
  let invalidation := omap (invalidation_of previous) rs in
  let reorg := match invalidation with [] => [] | _ => [Reorg previous rs invalidation] end in
  Ok (reorg ++ [if ranges_complete (metadata batch) then WatermarkMsg rs else Data (data batch) rs]).

(** The messages yielded, and the error that ended the stream, if any. *)
Fixpoint protocol_stream (previous : list BlockRange) (responses : list ResponseBatch)
    : list ProtocolMessage * option ValidationError :=
  match responses with
  | [] => ([], None)
  | b :: rest =>
      match protocol_step previous b with
      | Ok msgs =>
          let '(more, e) := protocol_stream (ranges (metadata b)) rest in (msgs ++ more, e)
      | Err e => ([], Some e)
      | _ => ([], None)
      end
  end.

(** ** What a consumer has received *)

(** The blocks of each network a consumer holds, a reorg dropping what it
    invalidates. *)
Definition receive (held : string → Z → Prop) (m : ProtocolMessage) : string → Z → Prop :=
  match m with
  | Data _ rs | WatermarkMsg rs => λ net b,
      held net b \/ Exists (λ r, network r = net /\ start r <= b <= end_ r) rs
  | Reorg _ _ inv => λ net b,
      held net b /\ ~ Exists (λ i, inv_network i = net /\
                        range_start (inv_numbers i) <= b <= range_end (inv_numbers i)) inv
  end.

Definition received (msgs : list ProtocolMessage) : string → Z → Prop :=
  foldl receive (λ _ _, False) msgs.

(** What is held of each network is one interval that ends with the network's
    last range. *)
Definition holds_interval (previous : list BlockRange) (held : string → Z → Prop) : Prop :=
  ∀ net, match find_network net previous with
         | Some p => ∃ lo, lo <= start p /\ ∀ b, held net b ↔ lo <= b <= end_ p
         | None => ∀ b, ~ held net b
         end.

Definition ranges_wf (rs : list BlockRange) : Prop := Forall (λ r, range_wf (numbers r)) rs.

(** No block is delivered to a consumer that holds it, unless a whole range is
    repeated. *)
Fixpoint delivers_once (held : string → Z → Prop) (msgs : list ProtocolMessage) : Prop :=
  match msgs with
  | [] => True
  | m :: rest =>
      match m with
      | Data _ rs | WatermarkMsg rs =>
          Forall (λ r, (∀ b, start r <= b <= end_ r → ~ held (network r) b)
                       \/ (∀ b, start r <= b <= end_ r → held (network r) b)) rs
      | Reorg _ _ _ => True
      end
      /\ delivers_once (receive held m) rest
  end.

(** ** Lemmas on the checks *)

Lemma check_all_Ok {E A} (f : A → comp E unit) l :
  check_all f l = Ok tt ↔ Forall (λ x, f x = Ok tt) l.
Proof.
  induction l as [|x l IH]; cbn [check_all]; [by split|].
  rewrite Forall_cons, <- IH. destruct (f x) as [[]|e| |]; cbn; naive_solver.
Qed.

Lemma find_network_Some net l p : find_network net l = Some p → p ∈ l /\ network p = net.
Proof.
  intros [Hin Hp]%List.find_some. split; [by apply list_elem_of_In|by apply String.eqb_eq].
Qed.

Lemma find_network_None net l : find_network net l = None ↔ ∀ r, r ∈ l → network r ≠ net.
Proof.
  split.
  - intros H r Hr E. apply list_elem_of_In in Hr. apply (List.find_none _ _ H) in Hr.
    by apply String.eqb_neq in Hr.
  - intros H. destruct (find_network net l) as [p|] eqn:E; [|done].
    apply find_network_Some in E as [Hp Hn]. by destruct (H p Hp).
Qed.

Lemma find_network_NoDup l r : NoDup (network <$> l) → r ∈ l → find_network (network r) l = Some r.
Proof.
  unfold find_network. induction l as [|x l IH]; [by intros _ ?%elem_of_nil|].
  cbn [fmap list_fmap List.find]. intros [Hx Hl]%NoDup_cons [->|Hr]%elem_of_cons.
  - by rewrite String.eqb_refl.
  - destruct (String.eqb_spec (network x) (network r)) as [E|]; [|auto].
    destruct Hx. rewrite E. by apply list_elem_of_fmap_2.
Qed.

Lemma first_duplicate_None l : first_duplicate l = None ↔ NoDup (network <$> l).
Proof.
  induction l as [|x l IH]; cbn [first_duplicate fmap list_fmap]; [split; [constructor|done]|].
  rewrite NoDup_cons. destruct (existsb _ l) eqn:E.
  - split; [done|]. intros [Hx _]. apply existsb_exists in E as (q & Hq & Heq%String.eqb_eq).
    destruct Hx. rewrite Heq. apply list_elem_of_fmap_2. by apply list_elem_of_In.
  - rewrite IH. split; [|tauto]. intros Hl. split; [|done].
    intros (q & Heq & Hq)%list_elem_of_fmap. apply Bool.not_true_iff_false in E. apply E.
    apply existsb_exists. exists q. split; [by apply list_elem_of_In|]. by apply String.eqb_eq.
Qed.

(** Networks that pass the check are distinct, and the same as before. *)
Lemma validate_networks_Ok previous incoming :
  validate_networks previous incoming = Ok tt → NoDup (network <$> previous) →
  NoDup (network <$> incoming)
  /\ (previous = [] \/ (network <$> previous) ≡ₚ (network <$> incoming)).
Proof.
  unfold validate_networks. destruct (first_duplicate incoming) eqn:Ed; [done|].
  apply first_duplicate_None in Ed. intros Hv Hnd. split; [done|].
  destruct previous as [|p ps]; [by left|]. right.
  destruct (Nat.eqb_spec (length (p :: ps)) (length incoming)) as [Hlen|]; cbn [negb] in Hv; [|done].
  destruct (List.find _ incoming) as [r|] eqn:Ef; [done|].
  symmetry. apply submseteq_length_Permutation.
  - apply NoDup_submseteq; [done|]. intros n (r & -> & Hr)%list_elem_of_fmap.
    apply list_elem_of_In in Hr. apply (List.find_none _ _ Ef) in Hr. apply negb_false_iff in Hr.
    apply existsb_exists in Hr as (q & Hq & Heq%String.eqb_eq). rewrite <- Heq.
    apply list_elem_of_fmap_2. by apply list_elem_of_In.
  - rewrite !length_fmap. lia.
Qed.

(** A range that passes: new network, repeated, next, or jumping back. *)
Lemma validate_range_Ok previous r :
  validate_range previous r = Ok tt → ranges_wf previous → ranges_wf [r] →
  match find_network (network r) previous with
  | None => invalidation_of previous r = None
  | Some p =>
      range_wf (numbers p) /\
      ((r = p /\ invalidation_of previous r = None)
       \/ (start r = end_ p + 1 /\ prev_hash r = Some (hash p) /\ invalidation_of previous r = None)
       \/ (start r <= end_ p /\ prev_hash r ≠ Some (hash p) /\
           invalidation_of previous r
           = Some (mkInvalidation (network r) (mkRange (start r) (Z.max (end_ r) (end_ p))))))
  end.
Proof.
  unfold validate_range, invalidation_of. destruct (find_network (network r) previous) as [p|] eqn:E; [|done].
  intros Hv Hp [Hr _]%list.Forall_cons. apply find_network_Some in E as [Hin Hn].
  unfold ranges_wf in Hp. rewrite Forall_forall in Hp. specialize (Hp p Hin).
  split; [done|]. pose proof Hp as (? & ? & ?). destruct Hr as (? & ? & ?).
  unfold start, end_ in *. rewrite add64_small in * by (unfold is_u64, u64_max in *; lia).
  case_bool_decide as Heq; [by left|]. right. unfold start, end_ in *.
  destruct (Z.ltb_spec (range_end (numbers p) + 1) (range_start (numbers r))); [done|].
  destruct (Z.eqb_spec (range_start (numbers r)) (range_end (numbers p) + 1)); case_bool_decide; try done.
  - left. split_and!; [done..|]. destruct (Z.ltb_spec (range_start (numbers r)) (range_end (numbers p) + 1)); [lia|done].
  - right. split_and!; [lia|done|]. destruct (Z.ltb_spec (range_start (numbers r)) (range_end (numbers p) + 1)); [done|lia].
Qed.

(** ** One batch *)

Lemma network_unique rs r q :
  NoDup (network <$> rs) → r ∈ rs → q ∈ rs → network q = network r → q = r.
Proof.
  intros Hnd Hr Hq E. pose proof (find_network_NoDup rs r Hnd Hr) as H1.
  pose proof (find_network_NoDup rs q Hnd Hq) as H2. rewrite E in H2. congruence.
Qed.

Lemma deliver_network held rs r b :
  NoDup (network <$> rs) → r ∈ rs →
  (held (network r) b \/ Exists (λ q, network q = network r /\ start q <= b <= end_ q) rs)
  ↔ held (network r) b \/ start r <= b <= end_ r.
Proof.
  intros Hnd Hr. rewrite Exists_exists. split; (intros [?|Hb]; [by left|right]).
  - destruct Hb as (q & Hq & E & Hb). by rewrite (network_unique rs r q Hnd Hr Hq E) in Hb.
  - by exists r.
Qed.

Lemma invalidation_network previous rs r b :
  NoDup (network <$> rs) → r ∈ rs →
  Exists (λ i, inv_network i = network r /\
            range_start (inv_numbers i) <= b <= range_end (inv_numbers i))
    (omap (invalidation_of previous) rs)
  ↔ match invalidation_of previous r with
    | Some i => range_start (inv_numbers i) <= b <= range_end (inv_numbers i)
    | None => False
    end.
Proof.
  intros Hnd Hr. rewrite Exists_exists. split.
  - intros (i & Hi & E & Hb). apply list_elem_of_omap in Hi as (q & Hq & Hinv).
    assert (inv_network i = network q) as E'.
    { unfold invalidation_of in Hinv. destruct (find_network _ _); [|done].
      case_bool_decide; [done|]. destruct (_ <? _); [|done]. by injection Hinv as <-. }
    rewrite (network_unique rs r q Hnd Hr Hq ltac:(congruence)) in Hinv. by rewrite Hinv.
  - destruct (invalidation_of previous r) as [i|] eqn:E; [|done]. intros Hb. exists i.
    split; [apply list_elem_of_omap; eauto|]. split; [|done].
    unfold invalidation_of in E. destruct (find_network _ _); [|done].
    case_bool_decide; [done|]. destruct (_ <? _); [|done]. by injection E as <-.
Qed.

(** What is held once the invalidated blocks are dropped. *)
Definition after_reorg (previous rs : list BlockRange) (held h : string → Z → Prop) : Prop :=
  ∀ net b, h net b ↔ held net b /\ ~ Exists (λ i, inv_network i = net /\
      range_start (inv_numbers i) <= b <= range_end (inv_numbers i)) (omap (invalidation_of previous) rs).

Lemma step_range previous rs held h r :
  ranges_wf previous → ranges_wf rs → NoDup (network <$> rs) → holds_interval previous held →
  after_reorg previous rs held h → validate_range previous r = Ok tt → r ∈ rs →
  (∃ lo, lo <= start r /\ ∀ b, (h (network r) b \/ start r <= b <= end_ r) ↔ lo <= b <= end_ r)
  /\ ((∀ b, start r <= b <= end_ r → ~ h (network r) b)
      \/ (∀ b, start r <= b <= end_ r → h (network r) b)).
Proof.
  intros Hp Hr Hnd Hheld Hh Hv Hin. assert (ranges_wf [r]) as Hr1.
  { unfold ranges_wf in *. rewrite Forall_forall in Hr. repeat constructor; by apply (Hr r). }
  pose proof (validate_range_Ok _ _ Hv Hp Hr1) as Hc. specialize (Hheld (network r)).
  assert (∀ b, h (network r) b ↔ held (network r) b /\ ~ match invalidation_of previous r with
    | Some i => range_start (inv_numbers i) <= b <= range_end (inv_numbers i) | None => False end) as Hh'.
  { intros b. by rewrite (Hh (network r) b), invalidation_network. }
  apply list.Forall_cons in Hr1 as [(_ & Hle & _) _]. unfold start, end_ in *.
  destruct (find_network (network r) previous) as [p|].
  2:{ rewrite Hc in Hh'. split; [|left; naive_solver]. exists (range_start (numbers r)). split; [lia|].
      intros b. rewrite Hh'. naive_solver. }
  destruct Hc as [(_ & Hple & _) Hc]. destruct Hheld as (lo & Hlo & Hheld).
  destruct Hc as [[-> Hi]|[(Hs & _ & Hi)|(Hs & _ & Hi)]]; rewrite Hi in Hh'; cbn [inv_numbers range_start range_end] in Hh'.
  - split; [|right; intros b Hb; apply Hh'; rewrite Hheld; lia].
    exists lo. split; [lia|]. intros b. rewrite Hh', Hheld. lia.
  - split; [|left; intros b Hb; rewrite Hh', Hheld; lia].
    exists lo. split; [lia|]. intros b. rewrite Hh', Hheld. lia.
  - split; [|left; intros b Hb; rewrite Hh', Hheld; lia].
    exists (Z.min lo (range_start (numbers r))). split; [lia|]. intros b. rewrite Hh', Hheld. lia.
Qed.

Lemma step_deliver previous rs held h :
  ranges_wf previous → ranges_wf rs → NoDup (network <$> rs) →
  (previous = [] \/ (network <$> previous) ≡ₚ (network <$> rs)) →
  holds_interval previous held → after_reorg previous rs held h →
  Forall (λ r, validate_range previous r = Ok tt) rs →
  holds_interval rs (λ net b, h net b \/ Exists (λ r, network r = net /\ start r <= b <= end_ r) rs)
  /\ Forall (λ r, (∀ b, start r <= b <= end_ r → ~ h (network r) b)
                  \/ (∀ b, start r <= b <= end_ r → h (network r) b)) rs.
Proof.
  intros Hp Hr Hnd Hsame Hheld Hh Hv. rewrite Forall_forall in Hv. split.
  - intros net. destruct (find_network net rs) as [r|] eqn:E.
    + apply find_network_Some in E as [Hin <-].
      destruct (step_range previous rs held h r) as [(lo & Hlo & Hb) _]; [done..|by apply Hv|done|].
      exists lo. split; [done|]. intros b. rewrite <- Hb. by apply deliver_network.
    + rewrite find_network_None in E. intros b [Hb|Hb].
      * apply Hh in Hb as [Hb _]. specialize (Hheld net). destruct (find_network net previous) as [p|] eqn:Ep.
        -- apply find_network_Some in Ep as [Hin <-]. destruct Hsame as [->|Hperm]; [by apply elem_of_nil in Hin|].
           apply (list_elem_of_fmap_2 network) in Hin. rewrite Hperm in Hin.
           apply list_elem_of_fmap in Hin as (q & Hq & Hin). by apply (E q).
        -- by apply (Hheld b).
      * apply Exists_exists in Hb as (q & Hq & Hn & _). by apply (E q).
  - apply Forall_forall. intros r Hin.
    destruct (step_range previous rs held h r) as [_ ?]; [done..|by apply Hv|done|done].
Qed.

Lemma protocol_step_ok previous b held msgs :
  ranges_wf previous → ranges_wf (ranges (metadata b)) → NoDup (network <$> previous) →
  holds_interval previous held → protocol_step previous b = Ok msgs →
  NoDup (network <$> ranges (metadata b))
  /\ holds_interval (ranges (metadata b)) (foldl receive held msgs) /\ delivers_once held msgs.
Proof.
  unfold protocol_step. set (rs := ranges (metadata b)). intros Hp Hr Hnd Hheld Hs.
  destruct (check_all validate_prev_hash rs) as [[]|e| |]; cbn [mbind comp_bind] in Hs; try discriminate.
  destruct (validate_networks previous rs) as [[]|e| |] eqn:En; try discriminate.
  destruct (validate_consecutiveness previous rs) as [[]|e| |] eqn:Ec; try discriminate.
  destruct (validate_networks_Ok _ _ En Hnd) as [Hnd' Hsame]. split; [done|].
  apply check_all_Ok in Ec. injection Hs as <-.
  destruct (omap (invalidation_of previous) rs) as [|i inv] eqn:Ei.
  - assert (after_reorg previous rs held held) as Hh.
    { intros net x. rewrite Ei. rewrite Exists_nil. tauto. }
    destruct (step_deliver previous rs held held Hp Hr Hnd' Hsame Hheld Hh Ec) as [? ?].
    by destruct (ranges_complete _).
  - set (h := receive held (Reorg previous rs (i :: inv))).
    assert (after_reorg previous rs held h) as Hh by (intros net x; by rewrite Ei).
    destruct (step_deliver previous rs held h Hp Hr Hnd' Hsame Hheld Hh Ec) as [? ?].
    by destruct (ranges_complete _).
Qed.

Lemma delivers_once_app held l k :
  delivers_once held (l ++ k) ↔ delivers_once held l /\ delivers_once (foldl receive held l) k.
Proof. revert held. induction l as [|m l IH]; intros held; cbn; [tauto|]. rewrite IH. tauto. Qed.

Lemma protocol_stream_ok previous responses held :
  ranges_wf previous → Forall (λ b, ranges_wf (ranges (metadata b))) responses →
  NoDup (network <$> previous) → holds_interval previous held →
  ∃ last, holds_interval last (foldl receive held (protocol_stream previous responses).1)
          /\ delivers_once held (protocol_stream previous responses).1.
Proof.
  revert previous held. induction responses as [|b rest IH]; intros previous held Hp Hr Hnd Hheld; [by exists previous|].
  apply list.Forall_cons in Hr as [Hb Hr]. cbn [protocol_stream].
  destruct (protocol_step previous b) as [msgs|e| |] eqn:E; [|by exists previous..].
  destruct (protocol_step_ok _ _ held _ Hp Hb Hnd Hheld E) as (Hnd' & Hheld' & Honce).
  destruct (IH _ _ Hb Hr Hnd' Hheld') as (last & Hl & Ho).
  destruct (protocol_stream _ rest) as [more e]. cbn [fst] in *. exists last.
  rewrite foldl_app. split; [done|]. by apply delivers_once_app.
Qed.

(** C23: Whatever the server sends, what a consumer of the protocol stream holds
    of each network (dropping what a reorg invalidates) is at every moment one
    contiguous interval of blocks, and no block is delivered to a consumer that
    holds it, except when a whole range is repeated; a batch that would leave a
    gap ends the stream with the missing blocks as its error. *)
Theorem protocol_stream_contiguous (responses : list ResponseBatch) :
  Forall (λ b, ranges_wf (ranges (metadata b))) responses →
  let '(msgs, e) := protocol_stream [] responses in
  (∀ net, (∀ b, ~ received msgs net b) \/ ∃ lo hi, lo <= hi /\ ∀ b, received msgs net b ↔ lo <= b <= hi)
  /\ delivers_once (λ _ _, False) msgs
  /\ ∀ previous r p, ranges_wf previous → find_network (network r) previous = Some p →
      end_ p + 1 < start r →
      validate_range previous r = Err (Gap (network r) (end_ p + 1) (wrap64 (start r - 1))).
Proof.
  intros Hr. destruct (protocol_stream [] responses) as [msgs e] eqn:E. split; [|split].
  - intros net. destruct (protocol_stream_ok [] responses (λ _ _, False)) as (last & Hl & _); [by apply Forall_nil|done|by apply NoDup_nil|by intros ? ? []|].
    rewrite E in Hl. cbn [fst] in Hl. specialize (Hl net). fold (received msgs) in Hl.
    destruct (find_network net last) as [p|]; [|by left]. destruct Hl as (lo & Hlo & Hb).
    destruct (decide (lo <= end_ p)); [right; by exists lo, (end_ p)|]. left. intros b. rewrite Hb. lia.
  - destruct (protocol_stream_ok [] responses (λ _ _, False)) as (last & _ & Ho); [by apply Forall_nil|done|by apply NoDup_nil|by intros ? ? []|].
    by rewrite E in Ho.
  - intros previous r p Hp Hf Hgap. unfold validate_range. rewrite Hf.
    apply find_network_Some in Hf as [Hin _]. unfold ranges_wf in Hp. rewrite Forall_forall in Hp.
    destruct (Hp p Hin) as (? & ? & ?). rewrite bool_decide_false by (intros ->; unfold start, end_ in *; lia).
    unfold start, end_ in *. rewrite add64_small by (unfold is_u64, u64_max in *; lia).
    destruct (Z.ltb_spec (range_end (numbers p) + 1) (range_start (numbers r))); [done|lia].
Qed.

End Protocol.

(** A first batch, a reorg that goes back two blocks, and its watermark. *)
Definition reorg_responses : list (ResponseBatch (B := unit)) :=
  let r1 := mkBlockRange (mkRange 5 9) "eth" 9 (Some 4) in
  let r2 := mkBlockRange (mkRange 8 12) "eth" 12 (Some 7) in
  [mkResponse tt (mkMetadata [r1] true); mkResponse tt (mkMetadata [r2] false);
   mkResponse tt (mkMetadata [r2] true)].

Lemma protocol_stream_contiguous_witness :
  Forall (λ b, ranges_wf (ranges (metadata b))) reorg_responses
  /\ length (protocol_stream [] reorg_responses).1 = 4%nat
  /\ delivers_once (λ _ _, False) (protocol_stream [] reorg_responses).1.
Proof.
  assert (Forall (λ b, ranges_wf (ranges (metadata b))) reorg_responses) as Hwf.
  { repeat constructor; cbn; lia. }
  split; [exact Hwf|]. split; [vm_compute; reflexivity|].
  pose proof (protocol_stream_contiguous reorg_responses Hwf) as H.
  destruct (protocol_stream [] reorg_responses) as [msgs e]. exact (proj1 (proj2 H)).
Defined.
