(* ===== verification/Flight.v ===== *)
(** * Flight

    The encoding of a streaming query as a Flight response
    (flight_data_stream of services/server/src/flight.rs), and what the client
    of the other end makes of it: the ranges a streaming query announces pass
    the client's validation. The empty batch of a schema is a parameter; the
    encoding of batches in Arrow messages is left out. *)

From stdpp Require Import base numbers gmap strings option sets list sorting.
From Stdlib Require Import ZArith Lia.
From S2P Require Import Prelude Ranges BlockRange BlockComplete StreamingQuery Client.

Section Flight.
Context {R : Type}.
Implicit Types items : list (comp StreamError (@QueryMessage R)).

(** [RecordBatch::new_empty(schema)] *)
Context (empty_batch : @RecordBatch R).

(** The responses, and how the stream ends. *)
Fixpoint flight_data_stream (rs : list BlockRange) (items : list (comp StreamError (@QueryMessage R)))
    : list (@ResponseBatch (@RecordBatch R)) * comp StreamError unit :=
  match items with
  | [] => ([], Ok tt)
  | Ok (MicrobatchStart range _) :: items =>
      match rs with
      | [] => flight_data_stream [range] items
      | _ => ([], Panic)
      end
  | Ok (BlockComplete.Data batch) :: items =>
      let '(more, e) := flight_data_stream rs items in
      (mkResponse batch (mkMetadata rs false) :: more, e)
  | Ok (BlockComplete _) :: items => flight_data_stream rs items
  | Ok (MicrobatchEnd _) :: items =>
      match rs with
      | [] => ([], Panic)
      | _ =>
          let '(more, e) := flight_data_stream [] items in
          (mkResponse empty_batch (mkMetadata rs true) :: more, e)
      end
  | Err e :: _ => ([], Err e)
  | Panic :: _ => ([], Panic)
  | OutOfFuel :: _ => ([], OutOfFuel)
  end.

(** ** The shape of a stream of messages *)

(** A range the client accepts on its own. *)
Definition range_ok (r : BlockRange) : Prop := range_wf (numbers r) /\ validate_prev_hash r = Ok tt.

(** A range the client accepts after [p]. *)
Definition follows (p r : BlockRange) : Prop :=
  network p = network r
  /\ ((start r = end_ p + 1 /\ prev_hash r = Some (hash p))
      \/ (start r <= end_ p /\ prev_hash r ≠ Some (hash p))).

(** Microbatches one after the other, the data within them, each range following
    the last completed one, up to the first error. *)
Fixpoint shaped (open prev : option BlockRange) (items : list (comp StreamError (@QueryMessage R))) : Prop :=
  match items with
  | [] => True
  | Ok (MicrobatchStart r _) :: items =>
      open = None /\ range_ok r /\ from_option (λ p, follows p r) True prev /\ shaped (Some r) prev items
  | Ok (BlockComplete.Data _) :: items | Ok (BlockComplete _) :: items => is_Some open /\ shaped open prev items
  | Ok (MicrobatchEnd r) :: items => open = Some r /\ shaped None (Some r) items
  | Err _ :: _ => True
  | Panic :: _ | OutOfFuel :: _ => False
  end.

Lemma shaped_error open prev items e : shaped open prev items → shaped open prev (items ++ [Err e]).
Proof.
  revert open prev. induction items as [|[[r b|b|r|n]|e'| |] items IH]; intros open prev; cbn [shaped app]; [done|..];
    naive_solver.
Qed.

(** ** The adapter keeps the shape *)

Lemma process_no_panic (b : @RecordBatch R) last :
  process_data_batch b last ≠ Panic /\ process_data_batch b last ≠ OutOfFuel.
Proof.
  unfold process_data_batch. destruct (block_num_column b) as [| |vs]; [done|done|].
  cbn [extract_block_numbers]. destruct (mapM id vs) as [nums|]; cbn [ok_or mbind comp_bind]; [|done].
  destruct nums as [|n nums]; [done|].
  assert (∀ l, validate_block_ordering l ≠ Panic /\ validate_block_ordering l ≠ OutOfFuel) as Hv.
  { induction l as [|x [|y l] IHl]; [done..|]. cbn [validate_block_ordering]. by destruct (y <? x). }
  destruct (validate_block_ordering (n :: nums)) as [[]|e| |] eqn:E; cbn [mbind comp_bind]; [|done|by destruct (Hv (n :: nums))..].
  destruct last as [l|]; [|done]. destruct (Z.eqb_spec n l) as [Hn|Hn]; [|by destruct (l <? n)].
  destruct (Z.eqb_spec (List.last (n :: nums) n) l) as [Hl|Hl]; [done|].
  destruct (split_position nums l n) as (i & Hi & _ & _); [by apply validate_Ok_sorted|done|done|].
  rewrite Hi. cbn [unwrap mbind comp_bind]. unfold split_record_batch.
  destruct (Nat.eqb i 0); [done|]. by destruct (Nat.leb (num_rows b) i).
Qed.

Definition pending (a : @Adapter R) : nat :=
  (if pending_batch a then 1 else 0) + (if pending_block_complete a then 1 else 0).

(** A poll yields something as long as there is something left, and uses it up. *)
Lemma poll_progress (a : @Adapter R) items item a' items' :
  poll_next a items = (Some item, a', items') →
  (3 * length items' + pending a' < 3 * length items + pending a)%nat.
Proof.
  unfold poll_next, pending. destruct (pending_block_complete a) as [n|]; [intros [= <- <- <-]; cbn; lia|].
  destruct (pending_batch a) as [b|] eqn:Eb; [intros [= <- <- <-]; cbn; lia|].
  destruct items as [|[[r g|b|r|n]|e| |] items]; [done|..].
  2: destruct (process_data_batch b (last_block_num a)) as [[b'|b' n|[p|] l b' n]|e| |].
  all: try (destruct g).
  all: intros [= <- <- <-]; cbn [length pending_batch pending_block_complete]; rewrite ?Eb; cbn [pending_block_complete]; try lia.
  all: try (destruct a as [? ? [?|]]; cbn in *; lia).
Qed.

Lemma drain_total fuel (a : @Adapter R) items :
  (3 * length items + pending a < fuel)%nat → ∃ out, drain fuel a items = Ok out.
Proof.
  revert a items. induction fuel as [|fuel IH]; intros a items Hf; [lia|]. rewrite drain_S.
  destruct (poll_next a items) as [[[item|] a'] items'] eqn:E; [|by eexists].
  apply poll_progress in E. destruct (IH a' items' ltac:(lia)) as [out ->]. by eexists.
Qed.

(** What is pending is data of an open microbatch. *)
Definition pending_open (open : option BlockRange) (a : @Adapter R) : Prop :=
  (pending_batch a = None /\ pending_block_complete a = None) \/ is_Some open.

Lemma poll_shaped open prev (a : @Adapter R) items item a' items' :
  pending_open open a → shaped open prev items → poll_next a items = (Some item, a', items') →
  (∃ e, item = Err e) \/ ∃ open' prev', pending_open open' a' /\ shaped open' prev' items'
    /\ ∀ more, shaped open' prev' more → shaped open prev (item :: more).
Proof.
  unfold poll_next, pending_open. intros Hp Hs.
  destruct (pending_block_complete a) as [n|] eqn:En.
  { intros [= <- <- <-]. right. destruct Hp as [[_ ?]|Ho]; [done|]. exists open, prev. split_and!; [by right|done|done]. }
  destruct (pending_batch a) as [b|] eqn:Eb.
  { intros [= <- <- <-]. right. destruct Hp as [[? _]|Ho]; [done|]. exists open, prev. split_and!; [by right|done|done]. }
  clear Hp. destruct items as [|[[r g|b|r|n]|e| |] items]; cbn [shaped] in Hs; [done|..|done|done].
  - destruct Hs as (-> & Hr & Hf & Hs). intros [= <- <- <-]. right. exists (Some r), prev.
    split_and!; [by right; eexists|done|]. intros more Hm. by split_and!.
  - destruct Hs as [Ho Hs]. pose proof (process_no_panic b (last_block_num a)) as [Hp1 Hp2].
    destruct (process_data_batch b (last_block_num a)) as [[b'|b' n|[p|] l b' n]|e| |]; [..|done|done].
    5: intros [= <- <- <-]; left; by eexists.
    all: intros [= <- <- <-]; right; exists open, prev; split_and!; [by right|done|done].
  - destruct Hs as [-> Hs]. intros [= <- <- <-]. right. exists None, (Some r). split_and!; [by left|done|].
    intros more Hm. by split.
  - intros [= <- <- <-]. left. by eexists.
  - intros [= <- <- <-]. left. by eexists.
Qed.

Lemma drain_shaped fuel open prev (a : @Adapter R) items out :
  pending_open open a → shaped open prev items → drain fuel a items = Ok out → shaped open prev out.
Proof.
  revert open prev a items out. induction fuel as [|fuel IH]; intros open prev a items out Hp Hs; [done|].
  rewrite drain_S. destruct (poll_next a items) as [[[item|] a'] items'] eqn:E; [|by intros [= <-]].
  destruct (drain fuel a' items') as [more|[]| |] eqn:Ed; cbn [mbind comp_bind]; try done. intros [= <-].
  destruct (poll_shaped open prev a items item a' items' Hp Hs E) as [[e ->]|(open' & prev' & Hp' & Hs' & Hm)]; [done|].
  apply Hm. by apply (IH open' prev' a' items').
Qed.

Lemma as_stream_shaped prev (sent : list (@QueryMessage R)) e :
  shaped None prev (Ok <$> sent) → ∃ items, as_stream sent e = Ok items /\ shaped None prev items.
Proof.
  intros Hs. unfold as_stream. destruct (drain_total (S (3 * length sent)) adapter_new (Ok <$> sent)) as [out Hout].
  { rewrite length_fmap. cbn. lia. }
  rewrite Hout. cbn [mbind comp_bind]. eexists. split; [done|].
  apply drain_shaped with (open := None) (prev := prev) in Hout; [|by left|done].
  destruct e; try (by rewrite app_nil_r). by apply shaped_error.
Qed.

(** ** The client's side *)

Definition open_ranges (o : option BlockRange) : list BlockRange :=
  match o with Some r => [r] | None => [] end.

(** The ranges of the client's last batch: those of the last completed
    microbatch, or of the open one. *)
Definition client_at (open prev : option BlockRange) (previous : list BlockRange) : Prop :=
  match prev with Some p => range_ok p | None => True end
  /\ match open with
     | Some r => range_ok r /\ from_option (λ p, follows p r) True prev
     | None => True
     end
  /\ (previous = open_ranges prev \/ ∃ r, open = Some r /\ previous = [r]).

Lemma find_network_one net p : find_network net [p] = if (network p =? net)%string then Some p else None.
Proof. done. Qed.

Lemma step_accepted (previous : list BlockRange) r (b : @RecordBatch R) complete :
  range_ok r → (previous = [] \/ previous = [r] \/ ∃ p, previous = [p] /\ range_ok p /\ follows p r) →
  ∃ msgs, protocol_step previous (mkResponse b (mkMetadata [r] complete)) = Ok msgs.
Proof.
  intros [Hwf Hph] Hprev. unfold protocol_step. cbn [metadata ranges check_all]. rewrite Hph. cbn [mbind comp_bind].
  assert (∀ p, network p = network r → validate_networks [p] [r] = Ok tt) as Hnet.
  { intros p Hp. unfold validate_networks. cbn. by rewrite Hp, String.eqb_refl. }
  unfold validate_consecutiveness, check_all, validate_range.
  destruct Hprev as [->|[->|(p & -> & [Hpw _] & Hpr & Hf)]].
  - by eexists.
  - rewrite Hnet by done. cbn [mbind comp_bind]. rewrite find_network_one, String.eqb_refl.
    rewrite bool_decide_true by done. by eexists.
  - rewrite Hnet by done. cbn [mbind comp_bind]. rewrite find_network_one, Hpr, String.eqb_refl.
    destruct (bool_decide (r = p)); [by eexists|].
    destruct Hpw as (? & ? & ?). rewrite add64_small by (unfold is_u64, end_, u64_max in *; lia).
    destruct Hf as [[Hs Hh]|[Hs Hh]].
    + rewrite Hs, Z.ltb_irrefl, Z.eqb_refl. rewrite bool_decide_true by done. by eexists.
    + destruct (Z.ltb_spec (end_ p + 1) (start r)); [lia|]. destruct (Z.eqb_spec (start r) (end_ p + 1)); [lia|].
      rewrite bool_decide_false by done. by eexists.
Qed.

Lemma client_accepts open prev previous r b complete :
  open = Some r → client_at open prev previous →
  ∃ msgs, protocol_step previous (mkResponse (B := @RecordBatch R) b (mkMetadata [r] complete)) = Ok msgs.
Proof.
  intros -> (Hp & [Hr Hf] & Hprev). apply step_accepted; [done|].
  destruct Hprev as [->|(r' & [= <-] & ->)]; [|by right; left]. destruct prev as [p|]; [|by left].
  right; right. by exists p.
Qed.

Lemma flight_accepted items open prev previous :
  shaped open prev items → client_at open prev previous →
  let '(responses, e) := flight_data_stream (open_ranges open) items in
  e ≠ Panic /\ e ≠ OutOfFuel /\ ∃ msgs, protocol_stream previous responses = (msgs, None).
Proof.
  revert open prev previous. induction items as [|item items IH]; intros open prev previous Hs Hc.
  { split_and!; [done..|by eexists]. }
  destruct item as [[r g|b|r|n]|e| |]; cbn [shaped] in Hs; cbn [flight_data_stream]; [| | | | |done|done].
  - destruct Hs as (-> & Hr & Hf & Hs). cbn [open_ranges]. apply (IH (Some r) prev); [done|].
    destruct Hc as (Hp & _ & [->|(r' & ? & _)]); [|done]. split; [done|]. split; [done|by left].
  - destruct Hs as [[r ->] Hs]. cbn [open_ranges].
    destruct (client_accepts (Some r) prev previous r b false eq_refl Hc) as [msgs Hm].
    assert (client_at (Some r) prev [r]) as Hc'.
    { destruct Hc as (? & ? & _). split; [done|]. split; [done|]. right. by exists r. }
    specialize (IH (Some r) prev [r] Hs Hc'). cbn [open_ranges] in IH.
    destruct (flight_data_stream [r] items) as [more e]. destruct IH as (? & ? & msgs' & Hms).
    split_and!; [done..|]. cbn [protocol_stream]. rewrite Hm. cbn [metadata ranges]. rewrite Hms. by eexists.
  - destruct Hs as [-> Hs]. cbn [open_ranges].
    destruct (client_accepts (Some r) prev previous r empty_batch true eq_refl Hc) as [msgs Hm].
    assert (client_at None (Some r) [r]) as Hc'.
    { destruct Hc as (? & [? ?] & _). split; [done|]. split; [done|by left]. }
    specialize (IH None (Some r) [r] Hs Hc'). cbn [open_ranges] in IH.
    destruct (flight_data_stream [] items) as [more e]. destruct IH as (? & ? & msgs' & Hms).
    split_and!; [done..|]. cbn [protocol_stream]. rewrite Hm. cbn [metadata ranges]. rewrite Hms. by eexists.
  - destruct Hs as [Ho Hs]. by apply (IH open prev).
  - split_and!; [done..|by eexists].
Qed.

(** ** The query's side *)

Section Server.
(** The height of a block, by its hash. *)
Context (height : BlockHash → Z).

Definition watermark_wf (w : Watermark) : Prop :=
  wm_hash w ≠ zero_hash /\ height (wm_hash w) = wm_number w /\ 0 <= wm_number w < u64_max.

Definition parent_wf (r : BlockRow) : Prop :=
  if decide (row_number r = 0) then row_prev_hash r = None \/ row_prev_hash r = Some zero_hash
  else ∃ h, row_prev_hash r = Some h /\ h ≠ zero_hash /\ height h = row_number r - 1.

(** A snapshot whose blocks have a height of their own and name their parents. *)
Record snapshot_wf (snap : Snapshot) : Prop := {
  swf_rows r : r ∈ blocks_rows snap → watermark_wf (row_watermark r) /\ parent_wf r;
  swf_segments s : s ∈ blocks_segments snap → watermark_wf (watermark (seg_range s));
  swf_forks : fork_rows_wf (fork_rows snap)
}.

Lemma in_blocks_wf snap w : snapshot_wf snap → in_blocks snap w → watermark_wf w.
Proof.
  intros Hsw [(s & Hs & <-)|(r & Hr & <-)]; [by apply (swf_segments snap)|by apply (swf_rows snap Hsw r)].
Qed.

(** The query remembers the watermark of the last completed microbatch. *)
Definition query_at (prev : option BlockRange) (q : StreamingQuery) : Prop :=
  match prev_watermark q with Some w => watermark_wf w | None => True end
  /\ match prev with
     | Some p => prev_watermark q = Some (watermark p) /\ range_ok p /\ network p = query_network q
     | None => True
     end.

Lemma row_range_ok row r :
  watermark_wf (row_watermark row) → parent_wf row → start r = row_number row → prev_hash r = row_prev_hash row →
  range_wf (numbers r) → range_ok r.
Proof.
  intros (_ & _ & Hn) Hp Hs Hh Hwf. split; [done|]. unfold validate_prev_hash, parent_wf in *. rewrite Hs, Hh.
  cbn in Hn. case_decide as Hz.
  - rewrite Hz. cbn. by destruct Hp as [-> | ->].
  - destruct (Z.eqb_spec (row_number row) 0); [done|]. destruct Hp as (h & -> & Hnz & _).
    destruct (Z.eqb_spec h zero_hash); [done|]. done.
Qed.

Lemma reorg_base_below snap w row :
  fork_rows_wf (fork_rows snap) → 0 <= wm_number w → reorg_base snap w = Ok (Some row) →
  row_number row <= wm_number w.
Proof.
  intros Hf Hw Hr. destruct (reorg_base_walk snap w Hf Hw) as (n & Hr' & Hle & _).
  rewrite Hr in Hr'. injection Hr' as Hrow. symmetry in Hrow. apply fetch_Some in Hrow as (_ & Hn & _).
  pose proof (rewind_spec (destination_chain snap) n) as Hspec. rewrite Hn.
  destruct (destination_chain snap) as [segs|]; [|by rewrite Hspec].
  destruct Hspec as [(s & _ & [? ?] & ->)|[_ ->]]; lia.
Qed.

Lemma forward_accepted prev q w r :
  query_at prev q → prev_watermark q = Some w → network r = query_network q → start r <= end_ r → end_ r < u64_max →
  start r = add64 (wm_number w) 1 → prev_hash r = Some (wm_hash w) →
  range_ok r /\ from_option (λ p, follows p r) True prev.
Proof.
  intros [Hw Hp] Hqw Hnet Hse Hend Hs Hph. rewrite Hqw in *. destruct Hw as (Hz & _ & Hn).
  rewrite add64_small in Hs by (unfold is_u64; lia). split.
  - split; [split_and!; unfold start, end_ in *; lia|]. unfold validate_prev_hash. rewrite Hs, Hph.
    destruct (Z.eqb_spec (wm_number w + 1) 0); [lia|]. by destruct (Z.eqb_spec (wm_hash w) zero_hash).
  - destruct prev as [p|]; [|done]. destruct Hp as ([= ->] & _ & Hpn). split; [congruence|]. left. by split.
Qed.

Lemma reorg_accepted snap prev q w r row :
  snapshot_wf snap → query_at prev q → prev_watermark q = Some w → network r = query_network q →
  start r <= end_ r → end_ r < u64_max →
  row ∈ blocks_rows snap → reorg_base snap w = Ok (Some row) → start r = row_number row → prev_hash r = row_prev_hash row →
  range_ok r /\ from_option (λ p, follows p r) True prev.
Proof.
  intros Hsw [Hw Hp] Hqw Hnet Hse Hend Hrow Hbase Hs Hph. rewrite Hqw in *.
  destruct (swf_rows snap Hsw row Hrow) as [Hrw Hpw]. destruct Hw as (Hz & Hh & Hn).
  apply reorg_base_below in Hbase; [|by apply swf_forks|lia]. split.
  - apply (row_range_ok row); [done..|]. destruct Hrw as (_ & _ & Hr). cbn in Hr.
    split_and!; unfold start, end_ in *; lia.
  - destruct prev as [p|]; [|done]. destruct Hp as ([= ->] & _ & Hpn). split; [congruence|]. right.
    cbn in Hbase, Hz, Hh. split; [lia|]. rewrite Hph. unfold parent_wf in Hpw. case_decide.
    + destruct Hpw as [-> | ->]; [done|]. intros [= Heq]. by apply Hz.
    + destruct Hpw as (h & -> & _ & Hheight). intros [= Heq]. rewrite Heq in Hheight. lia.
Qed.

Lemma first_accepted snap r row :
  snapshot_wf snap → start r <= end_ r → end_ r < u64_max →
  row ∈ blocks_rows snap → start r = row_number row → prev_hash r = row_prev_hash row → range_ok r.
Proof.
  intros Hsw Hse Hend Hrow Hs Hph. destruct (swf_rows snap Hsw row Hrow) as [Hrw Hpw].
  apply (row_range_ok row); [done..|]. destruct Hrw as (_ & _ & Hr). cbn in Hr.
  split_and!; unfold start, end_ in *; lia.
Qed.

(** The range of a microbatch is one the client accepts, after the last one. *)
Lemma next_range_follows snap prev q r d q' :
  snapshot_wf snap → query_at prev q → next_microbatch_range snap q = (Ok (Some (mkMicrobatch r d)), q') →
  range_ok r /\ from_option (λ p, follows p r) True prev /\ network r = query_network q
  /\ watermark_wf (watermark r) /\ query_at prev q' /\ query_network q' = query_network q.
Proof.
  intros Hsw Hq (common & e & Hc & Hd & He & Hr)%next_range_Some.
  apply latest_src_watermark_Some in Hc as [Hin _].
  apply next_microbatch_end_Some in He as (Hine & _ & [Hge _] & _ & _ & Hq'); [|done].
  pose proof (in_blocks_wf snap e Hsw Hine) as Hew.
  assert (watermark r = e) as Hwr by (subst r; by destruct e).
  assert (direction_ok snap q r d) as Hdir by (apply next_start_ok; subst r; done).
  assert (network r = query_network q) as Hnet by by subst r.
  assert (start r <= end_ r /\ end_ r < u64_max) as [Hse Hend].
  { destruct Hew as (_ & _ & ?). subst r. unfold start, end_. cbn. lia. }
  assert (range_ok r /\ from_option (λ p, follows p r) True prev) as [Hok Hf].
  { unfold direction_ok in Hdir. destruct (prev_watermark q) as [w|] eqn:Ew; destruct d as [s|s]; [| | |done].
    - destruct Hdir as (_ & Hs & Hph). by apply (forward_accepted prev q w).
    - destruct Hdir as (_ & row & Hrow & Hbase & Hs & Hph). by apply (reorg_accepted snap prev q w r row).
    - destruct Hdir as (Hs & row & Hrow & Hrn & Hph). split; [by apply (first_accepted snap r row)|].
      destruct Hq as [_ Hq]. destruct prev as [p|]; [|done]. destruct Hq as [Hq _]. congruence. }
  split; [done|]. split; [done|]. split; [done|]. split; [by rewrite Hwr|].
  by destruct Hq' as [-> | ->].
Qed.

Lemma next_range_total snap prev q :
  snapshot_wf snap → query_at prev q →
  (next_microbatch_range snap q).1 ≠ Panic /\ (next_microbatch_range snap q).1 ≠ OutOfFuel.
Proof.
  intros Hsw [Hq _]. unfold next_microbatch_range. destruct (latest_src_watermark snap) as [common|]; [|done].
  destruct (_ <? _); [done|].
  assert (∃ d, next_microbatch_start q snap = Ok d) as [d ->].
  { unfold next_microbatch_start. destruct (prev_watermark q) as [w|]; [|by eexists].
    destruct (blocks_table_contains snap w); [by eexists|].
    destruct Hq as (_ & _ & Hn). destruct (reorg_base_walk snap w) as (n & -> & _); [by apply swf_forks|lia|].
    by eexists. }
  destruct d as [d|]; [|done]. by destruct (next_microbatch_end q snap (segment_start d) common).
Qed.

Lemma data_shaped r prev (batches : list (@RecordBatch R)) more :
  shaped (Some r) prev more → shaped (Some r) prev ((Ok <$> (BlockComplete.Data <$> batches)) ++ more).
Proof. intros Hm. induction batches as [|b batches IH]; [done|]. cbn. split; [by eexists|done]. Qed.

Lemma execute_turn_shaped prev (i : @TurnInput R) q :
  snapshot_wf (snapshot i) → query_at prev q →
  let '(sent, e, q') := execute_turn i q in
  e ≠ Diverged /\ e ≠ Panicked /\ shaped None prev (Ok <$> sent)
  /\ (e = Continues → ∃ prev', query_at prev' q' /\
       ∀ more, shaped None prev' more → shaped None prev ((Ok <$> sent) ++ more)).
Proof.
  intros Hsw Hq. unfold execute_turn. destruct (changed _ _) as [u|]; [|done].
  assert (query_at prev (with_updates u q)) as Hq1 by done.
  pose proof (next_range_total (snapshot i) prev _ Hsw Hq1) as [Hp1 Hp2].
  destruct (next_microbatch_range (snapshot i) (with_updates u q)) as [[[[r d]|]|[]| |] q1] eqn:E;
    cbn [fst] in *; [| |by destruct Hp1|by destruct Hp2].
  2: { split_and!; [done..|]. intros _. exists prev. split; [|done].
       assert (q1 = with_updates u q \/ ∃ u', q1 = with_updates u' q) as [->|[u' ->]]; [|done..].
       by apply next_range_None in E. }
  apply (next_range_follows _ prev) in E as (Hr & Hf & Hn & Hw & Hq2 & Hn2); [|done..].
  destruct (plan_results i (start r) (end_ r)) as [batches [e|]].
  - split_and!; [done..| |done]. cbn. split_and!; [done..|].
    rewrite <- (app_nil_r (Ok <$> _)). by apply data_shaped.
  - assert (∀ more, shaped None (Some r) more →
      shaped None prev ((Ok <$> (MicrobatchStart r (is_reorg d) :: (BlockComplete.Data <$> batches)) ++ [MicrobatchEnd r]) ++ more)) as Hm.
    { intros more Hmore. rewrite fmap_app, <- (assoc_L (++)). cbn. split_and!; [done..|]. apply data_shaped.
      cbn. by split. }
    split; [by destruct (bool_decide _)|]. split; [by destruct (bool_decide _)|]. split.
    + rewrite <- (app_nil_r (Ok <$> _)). by apply Hm.
    + destruct (bool_decide _); [done|]. intros _. exists (Some r). split; [|done].
      split; [done|]. split; [done|]. split; [done|]. cbn. cbn in Hn, Hn2. congruence.
Qed.

(** Every stream the query sends has the shape the client expects. *)
Lemma execute_shaped prev (inputs : list (@TurnInput R)) q :
  Forall (λ i, snapshot_wf (snapshot i)) inputs → query_at prev q →
  let '(sent, e, q') := execute inputs q in e ≠ Diverged /\ e ≠ Panicked /\ shaped None prev (Ok <$> sent).
Proof.
  intros Hin. revert prev q. induction Hin as [|i inputs Hi _ IH]; intros prev q Hq; [done|]. cbn [execute].
  pose proof (execute_turn_shaped prev i q Hi Hq) as Ht.
  destruct (execute_turn i q) as [[sent e] q1]. destruct Ht as (Hd & Hp & Hs & Hc).
  destruct e; try done. destruct (Hc eq_refl) as (prev' & Hq' & Hm). specialize (IH prev' q1 Hq').
  destruct (execute inputs q1) as [[more e] q2]. destruct IH as (? & ? & ?). split_and!; [done..|].
  rewrite fmap_app. by apply Hm.
Qed.

(** C22: whatever the source tables and the blocks table go through, reorgs
    included, as long as block hashes determine heights and rows name their
    parents, the response of a streaming query (its loop, the adapter of the
    handle and the Flight encoding) passes the validation of the client from
    the first batch on: the loop does not diverge or panic, the encoder's
    assertions hold, and the client reports no error, whatever the plan yields
    and wherever it fails. *)
Theorem server_stream_accepted (inputs : list (@TurnInput R)) q :
  Forall (λ i, snapshot_wf (snapshot i)) inputs →
  match prev_watermark q with Some w => watermark_wf w | None => True end →
  ∃ sent e q' items responses final msgs,
    execute inputs q = (sent, e, q') /\ e ≠ Diverged /\ e ≠ Panicked
    /\ as_stream sent e = Ok items
    /\ flight_data_stream [] items = (responses, final) /\ final ≠ Panic
    /\ protocol_stream [] responses = (msgs, None).
Proof.
  intros Hin Hq. pose proof (execute_shaped None inputs q Hin (conj Hq I)) as He.
  destruct (execute inputs q) as [[sent e] q'] eqn:E. destruct He as (Hd & Hp & Hs).
  destruct (as_stream_shaped None sent e Hs) as (items & Ha & Hsi).
  pose proof (flight_accepted items None None [] Hsi) as Hf. cbn [open_ranges] in Hf.
  destruct (flight_data_stream [] items) as [responses final] eqn:Ef.
  destruct Hf as (Hfp & _ & msgs & Hm); [by split_and!; [..|left]|].
  exists sent, e, q', items, responses, final, msgs. by split_and!.
Qed.
End Server.
End Flight.

(** ** The property at a concrete input *)

(** A query that follows the branch to block 4 and then sees the chain. *)
Definition demo_height (h : BlockHash) : Z := if h <? 20 then h - 10 else h - 90.

Definition branch_rows : list BlockRow := take 3 demo_rows ++ demo_forked.

Definition branch_segment : Segment :=
  mkSegment 2 (mkBlockRange (mkRange 0 4) "test" 94 (Some 0)) (mkObjectMeta "" 0 0).

Definition branch_snapshot : Snapshot :=
  mkSnapshot [[branch_segment]] [branch_segment] branch_rows (demo_rows ++ demo_forked) None.

Definition demo_batch : @RecordBatch nat := mkBatch (UInt64Array [Some 3]) [7%nat].

Definition demo_inputs : list (@TurnInput nat) :=
  [mkTurn (Changed 1) branch_snapshot (λ _ _, ([demo_batch], None));
   mkTurn (Changed 1) (demo_snapshot None) (λ _ _, ([demo_batch], None))].

Ltac solve_rows := intros ? Hr; list_cases Hr; (split; [split_and!; cbn; unfold u64_max; done|]);
  vm_compute; first [by right|by eexists; split_and!].

Lemma demo_snapshots_wf : Forall (λ i, snapshot_wf demo_height (snapshot i)) demo_inputs.
Proof.
  repeat (apply list.Forall_cons; split); [..|by apply list.Forall_nil]; cbn [snapshot].
  - split; [solve_rows| |apply demo_fork_rows_wf].
    intros s ->%list_elem_of_singleton. split_and!; done.
  - split; [solve_rows| |apply demo_fork_rows_wf].
    intros s ->%list_elem_of_singleton. split_and!; done.
Qed.

Lemma server_stream_accepted_witness :
  ∃ sent e q' items responses final msgs,
    execute demo_inputs (demo_query None None) = (sent, e, q')
    /\ as_stream sent e = Ok items
    /\ flight_data_stream (mkBatch (UInt64Array []) []) [] items = (responses, final)
    /\ (ranges ∘ metadata <$> responses) =
         [[mkBlockRange (mkRange 0 4) "test" 94 (Some 0)]; [mkBlockRange (mkRange 0 4) "test" 94 (Some 0)];
          [mkBlockRange (mkRange 3 4) "test" 14 (Some 12)]; [mkBlockRange (mkRange 3 4) "test" 14 (Some 12)]]
    /\ protocol_stream [] responses = (msgs, None).
Proof.
  destruct (server_stream_accepted (mkBatch (UInt64Array []) []) demo_height demo_inputs (demo_query None None)
    demo_snapshots_wf I) as (sent & e & q' & items & responses & final & msgs & He & _ & _ & Ha & Hf & _ & Hm).
  exists sent, e, q', items, responses, final, msgs. split_and!; [done..| |done].
  vm_compute in He. injection He as <- <- <-. vm_compute in Ha. injection Ha as <-.
  vm_compute in Hf. by injection Hf as <- <-.
Defined.
