(* ===== verification/DerivedTable.v ===== *)
(** * DerivedTable

    The dump of one table of a derived dataset from its query to its files: the
    task of the table (core/dump/src/derived_dataset.rs, in [DerivedDump]) over
    the loop of the streaming query and the adapter of its messages
    (streaming_query.rs, in [StreamingQuery] and [BlockComplete]), resumed at
    the canonical chain of the table ([Segments], [FileStore]). *)

From stdpp Require Import base numbers gmap strings option fin_maps sets list sorting.
From Stdlib Require Import ZArith Lia.
From S2P Require Import Prelude Ranges BlockRange Segments EndBlock FileStore BlockComplete StreamingQuery Client Flight DumpTasks DerivedDump.

Section Table.
Context {R : Type}.
Implicit Types (sent : list (@QueryMessage R)) (inputs : list (@TurnInput R)).

(** The stream of a query over the given turns. *)
Definition query_stream (inputs : list (@TurnInput R)) (q : StreamingQuery) : list (comp StreamError (@QueryMessage R)) :=
  let '(sent, e, _) := execute inputs q in
  match as_stream sent e with Ok items => items | _ => [] end.

(** ** The microbatches of a query *)

(** A completed microbatch: its range is one the query chose at some turn, its
    rows what the plan yielded over it, without failing. *)
Definition microbatch_of (inputs : list (@TurnInput R)) (batch : BlockRange * list R) : Prop :=
  ∃ i q q' direction batches,
    i ∈ inputs
    /\ next_microbatch_range (snapshot i) q = (Ok (Some (mkMicrobatch batch.1 direction)), q')
    /\ plan_results i (start batch.1) (end_ batch.1) = (batches, None)
    /\ batch.2 = batches_rows batches.

(** Each range is one the client accepts, following the one before it. *)
Fixpoint linked (prev : option BlockRange) (l : list BlockRange) : Prop :=
  match l with
  | [] => True
  | r :: l => range_ok r /\ from_option (λ p, follows p r) True prev /\ linked (Some r) l
  end.

Lemma linked_prefix prev l k : linked prev (l ++ k) → linked prev l.
Proof. revert prev. induction l as [|r l IH]; intros prev; cbn; [done|]. intros (? & ? & ?). split_and!; [done..|by apply IH]. Qed.

Lemma shaped_linked open prev rows (items : list (comp StreamError (@QueryMessage R))) :
  shaped open prev items →
  match open with Some r => range_ok r /\ from_option (λ p, follows p r) True prev | None => True end →
  linked prev (cut rows (item_events items)).*1.
Proof.
  revert open prev rows. induction items as [|[[r b|b|r|n]|e| |] items IH]; intros open prev rows; cbn [shaped item_events]; try done.
  - intros (-> & Hr & Hf & Hs) _. cbn. by apply (IH (Some r)).
  - intros [[r ->] Hs] Ho. cbn [events]. rewrite cut_rows. by apply (IH (Some r)).
  - intros [-> Hs] [Hr Hf]. cbn. split_and!; [done..|]. by apply (IH None).
  - intros [[r ->] Hs] Ho. cbn. by apply (IH (Some r)).
Qed.

Lemma shaped_stream_ok open prev (items : list (comp StreamError (@QueryMessage R))) :
  shaped open prev items → match open with Some r => range_ok r | None => True end → stream_ok items.
Proof.
  revert open prev. induction items as [|[[r b|b|r|n]|e| |] items IH]; intros open prev; cbn [shaped stream_ok]; try done.
  - intros (_ & Hr & _ & Hs) _. by apply (IH (Some r) prev).
  - intros [[r ->] Hs] Ho. by apply (IH (Some r) prev).
  - intros [-> Hs] [Hr _]. split; [done|]. by apply (IH None (Some r)).
  - intros [[r ->] Hs] Ho. by apply (IH (Some r) prev).
Qed.

(** ** What the query sends *)

(** A plan whose results are ordered by block. *)
Definition plan_ordered (i : @TurnInput R) : Prop :=
  ∀ a b, ordered None (BlockComplete.Data <$> (plan_results i a b).1).

Lemma ordered_data last (batches : list (@RecordBatch R)) more :
  ordered last (BlockComplete.Data <$> batches) → (∀ last, ordered last more) →
  ordered last ((BlockComplete.Data <$> batches) ++ more).
Proof.
  revert last. induction batches as [|b batches IH]; intros last Hb Hm; cbn [fmap list_fmap app ordered] in *; [apply Hm|].
  destruct (block_num_column b) as [| |vs]; [by apply IH|done|].
  destruct Hb as (Hl & nums & He & Hs & Hf & Hb). split; [done|]. exists nums. split_and!; [done..|]. by apply IH.
Qed.

Lemma cut_data rows (batches : list (@RecordBatch R)) es :
  cut rows (((BlockComplete.Data <$> batches) ≫= events) ++ es) = cut (rows ++ batches_rows batches) es.
Proof.
  revert rows. induction batches as [|b batches IH]; intros rows; cbn; [by rewrite app_nil_r|].
  by rewrite <- app_assoc, cut_rows, IH, <- app_assoc.
Qed.

Section Source.
Context (height : BlockHash → Z).

(** A turn either sends nothing, or a microbatch that fails, or a whole one. *)
Inductive turn_sends (i : @TurnInput R) : list (@QueryMessage R) → TurnEnd → Prop :=
| sends_nothing e : turn_sends i [] e
| sends_part r b batches f e :
    plan_results i (start r) (end_ r) = (batches, Some f) → turn_sends i (MicrobatchStart r b :: (BlockComplete.Data <$> batches)) (Failed e)
| sends_all r d batches q q' e :
    next_microbatch_range (snapshot i) q = (Ok (Some (mkMicrobatch r d)), q') →
    plan_results i (start r) (end_ r) = (batches, None) → (∀ f, e ≠ Failed f) →
    turn_sends i ((MicrobatchStart r (is_reorg d) :: (BlockComplete.Data <$> batches)) ++ [MicrobatchEnd r]) e.

Lemma execute_turn_sends i q : turn_sends i (execute_turn i q).1.1 (execute_turn i q).1.2.
Proof.
  unfold execute_turn. destruct (changed _ _) as [u|]; [|constructor].
  destruct (next_microbatch_range _ _) as [[[[r d]|]|[]| |] q1] eqn:E; [|constructor..].
  destruct (plan_results i (start r) (end_ r)) as [batches [f|]] eqn:Ep; cbn [fst snd]; [by econstructor|].
  econstructor; [done|done|]. intros f. by destruct (bool_decide _).
Qed.

Lemma range_watermark_wf snap q r d q' :
  snapshot_wf height snap → next_microbatch_range snap q = (Ok (Some (mkMicrobatch r d)), q') →
  watermark_wf height (watermark r).
Proof.
  intros Hsw (common & e & Hc & _ & He & Hr)%next_range_Some. apply latest_src_watermark_Some in Hc as [Hin _].
  apply next_microbatch_end_Some in He as (Hine & _); [|done].
  replace (watermark r) with e by (subst r; by destruct e). by eapply in_blocks_wf.
Qed.

Lemma microbatch_of_cons i inputs batch : microbatch_of inputs batch → microbatch_of (i :: inputs) batch.
Proof. intros (j & q & q' & d & batches & Hj & ?). exists j, q, q', d, batches. split; [by right|done]. Qed.

(** The messages are ordered, and the microbatches in them are the query's. *)
Lemma execute_files inputs q :
  Forall (λ i, snapshot_wf height (snapshot i) /\ plan_ordered i) inputs →
  ordered None (execute inputs q).1.1
  /\ Forall (λ d, microbatch_of inputs d /\ watermark_wf height (watermark d.1)) (cut [] ((execute inputs q).1.1 ≫= events)).
Proof.
  intros Hin. revert q. induction Hin as [|i inputs [Hsw Ho] _ IH]; intros q; [split; [done|by apply Forall_nil]|].
  cbn [execute]. pose proof (execute_turn_sends i q) as Ht. destruct (execute_turn i q) as [[sent e] q1]. cbn [fst snd] in Ht.
  assert (∃ tail e' q', (match e with
      | Continues => let '(more, e, q) := execute inputs q1 in (sent ++ more, e, q)
      | _ => (sent, e, q1) end) = (sent ++ tail, e', q') /\ ordered None tail
      /\ Forall (λ d, microbatch_of (i :: inputs) d /\ watermark_wf height (watermark d.1)) (cut [] (tail ≫= events))
      /\ (∀ f, e = Failed f → tail = [])) as (tail & e' & q' & -> & Hto & Htf & Htl).
  { specialize (IH q1). destruct (execute inputs q1) as [[more e1] q2]. cbn [fst snd] in IH. destruct IH as [IHo IHf].
    destruct e; try (eexists [], _, _; rewrite app_nil_r; split_and!; [reflexivity|done|by apply Forall_nil|by intros]).
    exists more, e1, q2. split_and!; [reflexivity|done| |by intros ? [=]]. eapply Forall_impl; [exact IHf|].
    intros d [? ?]. split; [by apply microbatch_of_cons|done]. }
  cbn [fst]. inversion Ht as [|r b batches f ef Hp|r d batches qa qb ee Hr Hp Hne]; subst.
  - done.
  - specialize (Htl _ eq_refl) as ->. specialize (Ho (start r) (end_ r)). rewrite Hp in Ho. cbn [fst] in Ho.
    rewrite app_nil_r. split; [cbn [ordered]; by destruct b|].
    rewrite bind_cons. cbn [events app]. cbn [cut]. rewrite <- (app_nil_r (_ ≫= events)), cut_data. by apply Forall_nil.
  - specialize (Ho (start r) (end_ r)). rewrite Hp in Ho. cbn [fst] in Ho. rewrite <- app_assoc. cbn [app]. split.
    + cbn [ordered]. assert (ordered None ((BlockComplete.Data <$> batches) ++ MicrobatchEnd r :: tail)); [|by destruct (is_reorg d)].
      by apply ordered_data.
    + rewrite bind_cons, bind_app, bind_cons. cbn [events app cut]. rewrite cut_data. cbn [app cut].
      apply list.Forall_cons. split; [|done]. split; [|by eapply range_watermark_wf].
      exists i, qa, qb, d, batches. split_and!; [by left|done..].
Qed.

Lemma item_events_app (out : list (@QueryMessage R)) tail :
  item_events ((Ok <$> out) ++ tail) = (out ≫= events) ++ item_events tail.
Proof. induction out as [|m out IH]; [done|]. cbn. by rewrite IH, app_assoc. Qed.

(** The stream has the shape the client expects, and the adapter keeps the rows
    and the boundaries of what the loop sends. *)
Lemma query_stream_spec prev inputs q :
  Forall (λ i, snapshot_wf height (snapshot i) /\ plan_ordered i) inputs → query_at height prev q →
  shaped None prev (query_stream inputs q)
  /\ item_events (query_stream inputs q) = (execute inputs q).1.1 ≫= events.
Proof.
  intros Hin Hq. destruct (execute_files inputs q Hin) as [Ho _].
  assert (Forall (λ i, snapshot_wf height (snapshot i)) inputs) as Hsw by (eapply Forall_impl; [exact Hin|]; by intros i []).
  pose proof (execute_shaped height prev inputs q Hsw Hq) as Hs. unfold query_stream.
  destruct (execute inputs q) as [[sent e] q']. cbn [fst snd] in *. destruct Hs as (_ & _ & Hs).
  destruct (as_stream_shaped prev sent e Hs) as (items & Ha & Hsi). rewrite Ha. split; [done|].
  unfold as_stream in Ha. destruct (drain_ordered sent None (S (3 * length sent)) Ho ltac:(lia)) as (out & Hd & He & _).
  unfold adapter_new in Ha. rewrite Hd in Ha. cbn [mbind comp_bind] in Ha. injection Ha as <-.
  rewrite item_events_app, <- He. destruct e; cbn; by rewrite app_nil_r.
Qed.

(** The length of the stream. *)
Lemma drain_length fuel (a : @Adapter R) inner items : drain fuel a inner = Ok items → (length items <= fuel)%nat.
Proof.
  revert a inner items. induction fuel as [|fuel IH]; intros a inner items; [done|]. rewrite drain_S.
  destruct (poll_next a inner) as [[[item|] a'] inner']; [|intros [= <-]; cbn; lia].
  destruct (drain fuel a' inner') as [items'|e| |] eqn:E; cbn [mbind comp_bind]; try done.
  intros [= <-]. cbn. apply IH in E. lia.
Qed.

Lemma execute_length k inputs q :
  Forall (λ i : @TurnInput R, ∀ a b, (length (plan_results i a b).1 <= k)%nat) inputs →
  (length (execute inputs q).1.1 <= length inputs * (k + 2))%nat.
Proof.
  intros Hin. revert q. induction Hin as [|i inputs Hi _ IH]; intros q; [cbn; lia|]. cbn [execute].
  pose proof (execute_turn_sends i q) as Ht. destruct (execute_turn i q) as [[sent e] q1]. cbn [fst snd] in Ht.
  assert (length sent <= k + 2)%nat as Hs.
  { inversion Ht as [|r b batches f ef Hp|r d batches qa qb ee Hr Hp Hne]; subst; [cbn; lia|..];
      specialize (Hi (start r) (end_ r)); rewrite Hp in Hi; cbn in *; rewrite ?length_app, length_fmap; cbn; lia. }
  specialize (IH q1). destruct e; cbn [fst]; try (cbn; lia). destruct (execute inputs q1) as [[more e1] q2].
  cbn [fst] in *. rewrite length_app. cbn. lia.
Qed.

Lemma query_stream_length k inputs q :
  Forall (λ i : @TurnInput R, ∀ a b, (length (plan_results i a b).1 <= k)%nat) inputs →
  (length (query_stream inputs q) <= 3 * (length inputs * (k + 2)) + 2)%nat.
Proof.
  intros Hin. pose proof (execute_length k inputs q Hin) as Hl. unfold query_stream.
  destruct (execute inputs q) as [[sent e] q']. cbn [fst] in Hl. unfold as_stream.
  destruct (drain _ _ _) as [items|f| |] eqn:E; cbn [mbind comp_bind length]; try lia. apply drain_length in E.
  rewrite length_app. destruct e; cbn [length]; lia.
Qed.

(** ** The files of a table *)

(** The files of a table are ranges the client accepts, with the hashes of
    blocks of their height. *)
Definition location_wf (loc : Z) (d : FileDb) : Prop :=
  ∀ i f r, files d !! i = Some f → file_location f = loc → r ∈ file_ranges f →
    range_ok r /\ watermark_wf height (watermark r).

Lemma segments_elem loc d segs s :
  FileStore.segments loc d = Ok segs → s ∈ segs →
  ∃ i f, files d !! i = Some f /\ file_location f = loc /\ file_ranges f = [seg_range s].
Proof.
  unfold FileStore.segments. assert (∀ kv, kv ∈ location_files loc d → files d !! kv.1 = Some kv.2 /\ file_location kv.2 = loc) as Hl.
  { intros [i f] Hi. by apply location_files_elem. }
  revert segs. induction (location_files loc d) as [|kv l IH]; intros segs; [by intros [= <-] ?%elem_of_nil|].
  intros (r & tail & Hr & Ht & ->)%mapM_segment_cons. intros [->|Hs]%elem_of_cons.
  - exists kv.1, kv.2. destruct (Hl kv ltac:(by left)) as [? ?]. by split_and!.
  - apply (IH ltac:(intros; apply Hl; by right) tail Ht Hs).
Qed.

(** The last segment of a table's chain is the range of one of its files. *)
Lemma chain_last_file start_block loc d c :
  store_ok d → table_canonical_chain start_block loc d = Ok (Some c) →
  ∃ i f, files d !! i = Some f /\ file_location f = loc /\ file_ranges f = [chain_last c].
Proof.
  intros Hok. unfold table_canonical_chain. destruct (FileStore.segments loc d) as [segs|e| |] eqn:Es; [|done..].
  cbn [mbind comp_bind]. pose proof (segments_wf loc d segs Hok Es) as Hwf.
  destruct (decide (segs = [])) as [->|Hne].
  { unfold canonical_chain. rewrite chains_nil. cbn. by destruct start_block. }
  destruct (chains_correct segs Hwf Hne) as (cs & others & left & Hc & Hspec). unfold canonical_chain. rewrite Hc.
  cbn [mbind comp_bind fmap comp_fmap lift_total option_map].
  intros Heq. assert (c = canonical cs) as ->.
  { destruct start_block as [b|]; [|by injection Heq as <-]. destruct (_ <? _); [done|by injection Heq as <-]. }
  apply (segments_elem loc d segs _ Es). rewrite (spec_perm _ _ _ _ Hspec). apply elem_of_app. left.
  unfold chain_list. destruct (last_in_list (chain_head (canonical cs)) (chain_tail (canonical cs))) as (y & Hy & He).
  by rewrite He.
Qed.

(** ** The dump of a table *)

Section Dump.
Context (in_progress_size : list (@RecordBatch R) → Z) (array_memory_size : @RecordBatch R → Z)
  (max_row_group_bytes : Z) (next_u64 : nat → Z) (head_object : nat → Z → string → ObjectMeta)
  (fault : nat → Fault) (task_props : TaskProperties) (task_progress : nat → option Progress) (word_limit : nat)
  (words_u64 : ∀ i, is_u64 (next_u64 i))
  (words_distinct : ∀ i j, (i < word_limit)%nat → (j < word_limit)%nat → next_u64 i = next_u64 j → i = j).

(** The end of the table's canonical chain: where the dump resumes. *)
Definition chain_end_of (p : TablePlan) (loc : Z) (d : FileDb) : option BlockRange :=
  match table_canonical_chain (dataset_start p) loc d with Ok (Some c) => Some (chain_last c) | _ => None end.

(** What the dump of a table leaves. *)
Definition table_post (loc : Z) (p : TablePlan) (inputs : list (@TurnInput R)) (s : DumpState)
    (r : comp DumpError unit) (s' : DumpState) : Prop :=
  ∃ done new orphans,
    dumped loc s s' done new orphans /\ store_ok (db s') /\ fresh_words next_u64 word_limit loc s'
    /\ Forall (microbatch_of inputs) done /\ linked (chain_end_of p loc (db s)) done.*1
    /\ location_wf loc (db s') /\ (r = Ok tt → orphans = ∅).

Lemma table_post_unchanged loc p inputs s r s' :
  dump_inv next_u64 word_limit loc s → location_wf loc (db s) → s' = s → table_post loc p inputs s r s'.
Proof.
  intros [Hok Hf _] Hl ->. exists [], [], ∅. split; [by apply dumped_unchanged|]. by split_and!.
Qed.

(** The query is where the chain ends. *)
Lemma spawn_query_at p updates start end_block interval loc d chain q :
  table_canonical_chain (dataset_start p) loc d = Ok chain → store_ok d → location_wf loc d →
  spawn_query p updates start end_block (resume_from chain) interval = Ok q →
  query_at height (chain_end_of p loc d) q.
Proof.
  intros Hc Hok Hl. unfold spawn_query, query_at, chain_end_of. rewrite Hc. destruct chain as [c|]; cbn [resume_from option_map].
  - destruct (chain_last_file _ _ _ _ Hok Hc) as (i & f & Hi & Hloc & Hr).
    destruct (Hl i f (chain_last c) Hi Hloc ltac:(rewrite Hr; by left)) as [Hro Hw].
    unfold to_watermark, from_ranges. cbn [foldl].
    destruct (decide (network (chain_last c) = plan_network p)) as [Hn|Hn].
    + rewrite <- Hn, lookup_insert_eq. cbn. intros [= <-]. cbn. by split_and!.
    + rewrite lookup_insert_ne by done. done.
  - cbn. intros [= <-]. done.
Qed.

Lemma dumped_location_wf loc s s' done new orphans :
  dumped loc s s' done new orphans → location_wf loc (db s) →
  Forall (λ d : BlockRange * list R, range_ok d.1 /\ watermark_wf height (watermark d.1)) done → location_wf loc (db s').
Proof.
  intros Hd Hl Hall i f r Hi Hloc Hr. apply (dumped_files _ _ _ _ _ _ Hd) in Hi as [Hi|Hi]; [by eapply Hl|].
  pose proof (dumped_rows _ _ _ _ _ _ Hd) as Hrows. apply list_elem_of_lookup in Hi as [k Hk].
  destruct (Forall2_lookup_r _ _ _ _ _ Hrows Hk) as (d & Hdk & _ & Hfr & _). cbn in Hfr. rewrite Hfr in Hr.
  apply list_elem_of_singleton in Hr as ->. rewrite Forall_lookup in Hall. by apply (Hall k).
Qed.

Lemma linked_ok prev l : linked prev l → Forall range_ok l.
Proof. revert prev. induction l as [|r l IH]; intros prev; [by constructor|]. intros (? & _ & ?). constructor; [done|by eapply IH]. Qed.

Lemma dump_stream_spec loc start p inputs q s :
  Forall (λ i, snapshot_wf height (snapshot i) /\ plan_ordered i) inputs → query_at height (chain_end_of p loc (db s)) q →
  dump_inv next_u64 word_limit loc s → location_wf loc (db s) →
  (words s + length (query_stream inputs q) < word_limit)%nat →
  wp (dump_sql_query in_progress_size array_memory_size max_row_group_bytes next_u64 head_object fault task_props
        task_progress loc start (query_stream inputs q)) (table_post loc p inputs s) s.
Proof.
  intros Hin Hq Hinv Hl Hlim. destruct (query_stream_spec _ inputs q Hin Hq) as [Hs He].
  destruct (execute_files inputs q Hin) as [_ Hf]. rewrite <- He in Hf.
  eapply wp_mono; [apply (dump_sql_query_spec _ _ _ _ _ _ _ _ word_limit words_u64 words_distinct); [|done|done]|].
  { by eapply shaped_stream_ok. }
  intros r s' (done & rest & new & orphans & Hcut & Hd & _ & Hok & Hfr & Hr).
  apply (shaped_linked None _ []) in Hs; [|done]. rewrite Hcut in Hf, Hs. rewrite fmap_app in Hs. apply linked_prefix in Hs.
  apply Forall_app in Hf as [Hf _]. exists done, new, orphans. split_and!; try done.
  - eapply Forall_impl; [exact Hf|]. by intros d [? _].
  - eapply dumped_location_wf; [done..|]. apply linked_ok in Hs. rewrite Forall_fmap in Hs.
    apply Forall_forall. intros d Hdin. rewrite Forall_forall in Hf, Hs. split; [by apply Hs|by apply Hf].
  - intros ->. by apply Hr.
Qed.

(** C19: the dump of a table, from its query to its files: over any source and
    blocks tables whose hashes determine heights and whose rows name their
    parents, whatever reorgs they go through, and wherever the dump fails, each
    new file of the table is one microbatch of the query, with the rows the plan
    yielded over its range and nothing of a microbatch that did not complete;
    the ranges continue the canonical chain of the table: each follows the last
    one hash-linked, or starts a reorg at or below its end. The table stays one
    the next dump can resume. *)
Theorem table_dump_correct loc p updates interval end_ inputs s :
  Forall (λ i, snapshot_wf height (snapshot i) /\ plan_ordered i) inputs →
  dump_inv next_u64 word_limit loc s → location_wf loc (db s) →
  (∀ q, (words s + length (query_stream inputs q) < word_limit)%nat) →
  let '(r, s') := dump_table in_progress_size array_memory_size max_row_group_bytes next_u64 head_object fault
                    task_props task_progress loc p updates interval end_ (query_stream inputs) s in
  ∃ done new orphans,
    dumped loc s s' done new orphans /\ store_ok (db s') /\ fresh_words next_u64 word_limit loc s'
    /\ Forall (microbatch_of inputs) done /\ linked (chain_end_of p loc (db s)) done.*1
    /\ location_wf loc (db s') /\ (r = Ok tt → orphans = ∅).
Proof.
  intros Hin Hinv Hl Hlim.
  enough (wp (dump_table in_progress_size array_memory_size max_row_group_bytes next_u64 head_object fault task_props
    task_progress loc p updates interval end_ (query_stream inputs)) (table_post loc p inputs s) s) as Hw.
  { unfold wp in Hw. by destruct (dump_table _ _ _ _ _ _ _ _ _ _ _ _ _ _ s) as [r s']. }
  assert (∀ r, table_post loc p inputs s r s) as Hsame by (intros r; by apply table_post_unchanged).
  unfold dump_table. destruct (negb (is_incremental p)); [apply Hsame|]. destruct (earliest_block p) as [start|]; [|apply Hsame].
  apply wp_bind. unfold lift at 1, wp at 1. cbn [fst snd]. destruct (resolve _ _ _) as [resolved|e| |]; [|apply Hsame..].
  assert (∀ end_block, wp (chain ← (λ s, lift SegmentsFailed (table_canonical_chain (dataset_start p) loc (db s)) s);
    q ← lift id (spawn_query p updates start end_block (resume_from chain) interval);
    dump_sql_query in_progress_size array_memory_size max_row_group_bytes next_u64 head_object fault task_props
      task_progress loc start (query_stream inputs q)) (table_post loc p inputs s) s) as Hgo.
  { intros end_block. apply wp_bind. unfold lift at 1, wp at 1. cbn [fst snd].
    destruct (table_canonical_chain (dataset_start p) loc (db s)) as [chain|e| |] eqn:Hc; [|apply Hsame..].
    apply wp_bind. unfold lift at 1, wp at 1. cbn [fst snd].
    destruct (spawn_query _ _ _ _ _ _) as [q|e| |] eqn:Hq; [|apply Hsame..].
    apply dump_stream_spec; [done| |done|done|apply Hlim]. by eapply spawn_query_at; [|apply Hinv|..]. }
  destruct resolved; [apply Hgo|apply Hgo|apply Hsame].
Qed.
End Dump.
End Source.
End Table.

(** ** The property at a concrete input *)

(** A table that has blocks 0 to 2, and a query that follows the branch to block
    4 and then sees the chain. *)
Definition demo_table : @DumpState nat :=
  mkDump (mkFileDb {[1 := mkFile 7 "a" [mkBlockRange (mkRange 0 2) "test" 12 (Some 0)] (mkObjectMeta "" 0 0)]} 2 ∅ {[(7, "a")]})
         {[(7, "a") := mkParquet [] [mkBlockRange (mkRange 0 2) "test" 12 (Some 0)] [] 0]} [] (Running (mkTask 0 0)) 0 0.

Definition demo_plan : TablePlan := mkPlanned true (Some 0) (Ok (Some 4)) "test" None.

Abbreviation demo_table_dump :=
  (dump_table (λ l, Z.of_nat (length l)) (λ _, 1) 3 demo_word (λ _ _ _, mkObjectMeta "" 0 0) (λ _, NoFault) demo_props
     (λ _, None) 7 demo_plan (mkUpdates {[1]} true) 100 NoEnd (query_stream demo_inputs)) (only parsing).

Lemma demo_table_inv : dump_inv demo_word 100 7 demo_table.
Proof.
  split; [| |done].
  - split; cbn.
    + intros i [f [<- _]%lookup_singleton_Some]. lia.
    + intros i j f g [<- _]%lookup_singleton_Some [<- _]%lookup_singleton_Some. done.
    + intros i f [<- <-]%lookup_singleton_Some. set_solver.
    + intros i f [<- <-]%lookup_singleton_Some. by apply list.Forall_singleton.
    + intros i g [=].
  - intros i st _. cbn. intros [= He]%elem_of_singleton. apply (f_equal String.length) in He.
    pose proof (parquet_name_long st (demo_word i)). cbn in *. lia.
Qed.

Lemma demo_table_wf : location_wf demo_height 7 (db demo_table).
Proof.
  intros i f r Hi _. cbn in Hi. apply lookup_singleton_Some in Hi as [<- <-]. intros ->%list_elem_of_singleton. split; [by split|].
  split; [done|]. split; [done|]. cbn. unfold u64_max. lia.
Qed.

Lemma table_dump_correct_witness :
  (demo_table_dump demo_table).1 = Ok tt
  /\ ((λ i, file_ranges <$> files (db (demo_table_dump demo_table).2) !! i) <$> [1; 2; 3]) =
       [Some [mkBlockRange (mkRange 0 2) "test" 12 (Some 0)]; Some [mkBlockRange (mkRange 3 4) "test" 94 (Some 12)];
        Some [mkBlockRange (mkRange 3 4) "test" 14 (Some 12)]]
  /\ let '(r, s') := demo_table_dump demo_table in
     ∃ done new orphans, dumped 7 demo_table s' done new orphans /\ Forall (microbatch_of demo_inputs) done
       /\ linked (Some (mkBlockRange (mkRange 0 2) "test" 12 (Some 0))) done.*1.
Proof.
  split; [vm_compute; reflexivity|]. split; [vm_compute; reflexivity|].
  pose proof (table_dump_correct demo_height (λ l, Z.of_nat (length l)) (λ _, 1) 3 demo_word
    (λ _ _ _, mkObjectMeta "" 0 0) (λ _, NoFault) demo_props (λ _, None) 100 demo_word_u64 demo_word_distinct
    7 demo_plan (mkUpdates {[1]} true) 100 NoEnd demo_inputs demo_table) as Hw.
  assert (chain_end_of demo_plan 7 (db demo_table) = Some (mkBlockRange (mkRange 0 2) "test" 12 (Some 0))) as Hc
    by (vm_compute; reflexivity).
  rewrite Hc in Hw. destruct (dump_table _ _ _ _ _ _ _ _ _ _ _ _ _ _ _) as [r s'].
  destruct Hw as (done & new & orphans & Hd & _ & _ & Hf & Hl & _); [|apply demo_table_inv|apply demo_table_wf| |by exists done, new, orphans].
  - pose proof demo_snapshots_wf as Hs. repeat (apply list.Forall_cons in Hs as [? Hs]).
    repeat (apply list.Forall_cons; split; [split; [done|]|]); [..|by apply Forall_nil].
    all: intros a b; cbn; split; [done|]; exists [3]; split_and!; try done; repeat constructor.
  - intros q. pose proof (query_stream_length 1 demo_inputs q) as Hq. cbn [length demo_inputs] in Hq.
    assert (length (query_stream demo_inputs q) <= 20)%nat; [|cbn; lia].
    apply Hq. repeat (apply list.Forall_cons; split; [cbn; lia|]). by apply Forall_nil.
Defined.

(** The first file of a resumed dump is named after the start of the dataset,
    and the file after a reorg after the block the abandoned branch had reached:
    the name does not tell where its range starts. *)
Example names_do_not_follow_ranges :
  ((λ i, file_name <$> files (db (demo_table_dump demo_table).2) !! i) <$> [2; 3])
  = [Some "000000000-0000000000000000.parquet"; Some "000000005-0000000000000001.parquet"].
Proof. vm_compute. reflexivity. Qed.
