(* ===== verification/Transactional.v ===== *)
(** * Transactional

    The stateful stream of the client (client/src/transactional.rs) over a
    persistent state store (client/src/store/mod.rs, store/memory.rs): the
    actions and commits of the state actor, and a consumer that applies each
    event, commits it, and may crash at any point. The store is an interface;
    the in-memory store of the source implements it here, those in PostgreSQL and
    LMDB in [ClientStores]. Transaction identifiers are
    assumed not to run out. *)

From stdpp Require Import base numbers gmap strings option fin_maps list sorting.
From Stdlib Require Import ZArith Lia.
From S2P Require Import Prelude Ranges BlockRange Client.

Abbreviation TransactionId := Z (only parsing).

(** Watermarks with their transaction, oldest first. *)
Abbreviation Buffer := (list (TransactionId * list BlockRange)) (only parsing).

(** ** Commits *)

Record PendingCommit := mkPending { pc_ranges : list BlockRange; pc_prune : option TransactionId }.

Record Commit := mkCommit { insert : Buffer; prune : option TransactionId }.

(** [compressed.prune] updated with the prune point of one event. *)
Definition max_prune (acc event : option TransactionId) : option TransactionId :=
  match event with
  | None => acc
  | Some p => Some (match acc with Some existing => Z.max existing p | None => p end)
  end.

Definition retain_after (p : option TransactionId) (buffer : Buffer) : Buffer :=
  match p with None => buffer | Some p => filter (λ e, p < e.1) buffer end.

Definition commit_new (events : list (TransactionId * PendingCommit)) : Commit :=
  let p := foldl (λ acc e, max_prune acc (pc_prune e.2)) None events in
  mkCommit (retain_after p ((λ e, (e.1, pc_ranges e.2)) <$> events)) p.

Definition commit_is_empty (c : Commit) : bool :=
  match insert c, prune c with [], None => true | _, _ => false end.

(** ** Stores *)

Record StateSnapshot := mkSnapshot { snap_buffer : Buffer; snap_next : TransactionId }.

(** Identifiers increase and stay below [n]. *)
Definition ids_ok (n : TransactionId) (b : Buffer) : Prop :=
  StronglySorted (λ x y, x.1 < y.1) b /\ Forall (λ e, 0 <= e.1 < n) b.

(** What a store promises, for identifiers up to [store_id_max]: in a valid
    state, [load] returns the effect of the calls so far, as long as the
    identifiers of the buffer increase. *)
Class StateStore (S : Type) := {
  store_id_max : TransactionId;
  store_valid : S → Prop;
  store_advance : TransactionId → S → S;
  store_commit : Commit → S → S;
  store_truncate : TransactionId → S → S;
  store_load : S → StateSnapshot;
  store_id_u64 : 0 <= store_id_max <= u64_max;
  advance_spec n s :
    store_valid s → 0 <= n <= store_id_max →
    store_valid (store_advance n s) /\
    store_load (store_advance n s) = mkSnapshot (snap_buffer (store_load s)) n;
  commit_spec c s :
    store_valid s → (∀ p, prune c = Some p → 0 <= p <= store_id_max) →
    ids_ok (store_id_max + 1) (retain_after (prune c) (snap_buffer (store_load s)) ++ insert c) →
    store_valid (store_commit c s) /\
    store_load (store_commit c s)
    = mkSnapshot (retain_after (prune c) (snap_buffer (store_load s)) ++ insert c) (snap_next (store_load s));
  truncate_spec n s :
    store_valid s → 0 <= n <= store_id_max →
    store_valid (store_truncate n s) /\
    store_load (store_truncate n s)
    = mkSnapshot (filter (λ e, e.1 < n) (snap_buffer (store_load s))) (snap_next (store_load s))
}.

Record InMemoryStateStore := mkInMemory { state : StateSnapshot }.

Definition memory_advance (n : TransactionId) (s : InMemoryStateStore) : InMemoryStateStore :=
  mkInMemory (mkSnapshot (snap_buffer (state s)) n).
Definition memory_commit (c : Commit) (s : InMemoryStateStore) : InMemoryStateStore :=
  let kept := match prune c with
              | Some p => filter (λ e, p < e.1) (snap_buffer (state s))
              | None => snap_buffer (state s)
              end in
  mkInMemory (mkSnapshot (foldl (λ b e, b ++ [e]) kept (insert c)) (snap_next (state s))).
Definition memory_truncate (n : TransactionId) (s : InMemoryStateStore) : InMemoryStateStore :=
  mkInMemory (mkSnapshot (filter (λ e, e.1 < n) (snap_buffer (state s))) (snap_next (state s))).
Definition memory_load (s : InMemoryStateStore) : StateSnapshot := state s.

Lemma foldl_snoc {A} (l k : list A) : foldl (λ b e, b ++ [e]) l k = l ++ k.
Proof.
  revert l. induction k as [|x k IH]; intros l; cbn; [by rewrite app_nil_r|].
  by rewrite IH, <- app_assoc.
Qed.

#[global] Instance in_memory_store : StateStore InMemoryStateStore.
Proof.
  refine {| store_id_max := u64_max; store_valid := λ _, True;
            store_advance := memory_advance; store_commit := memory_commit;
            store_truncate := memory_truncate; store_load := memory_load |}; try done.
  intros [ins pr] s _ _ _. split; [done|]. unfold memory_commit, memory_load. cbn [state prune insert].
  rewrite foldl_snoc. by destruct pr.
Defined.

(** ** Recovery and pruning points *)

(** The first invalid block of each network; a later range wins. *)
Definition reorg_points (invalidation : list InvalidationRange) : gmap string Z :=
  foldl (λ m i, <[inv_network i := range_start (inv_numbers i)]> m) ∅ invalidation.

Definition affected (points : gmap string Z) (rs : list BlockRange) : bool :=
  existsb (λ r, match points !! network r with Some p => p <=? start r | None => false end) rs.

(** The newest watermark that the reorg leaves alone. *)
Definition find_recovery_point (buffer : Buffer) (invalidation : list InvalidationRange)
    : option (TransactionId * list BlockRange) :=
  let points := reorg_points invalidation in
  List.find (λ e, negb (affected points e.2)) (reverse buffer).

(** Whether all ranges end before the cutoff of their network; a network
    without a cutoff panics. *)
Fixpoint outside (cutoffs : gmap string Z) (rs : list BlockRange) : total bool :=
  match rs with
  | [] => Ok true
  | r :: rest =>
      cutoff ← unwrap (cutoffs !! network r);
      if end_ r <? cutoff then outside cutoffs rest else Ok false
  end.

Fixpoint last_outside (cutoffs : gmap string Z) (buffer : Buffer) (acc : option TransactionId)
    : total (option TransactionId) :=
  match buffer with
  | [] => Ok acc
  | (i, rs) :: rest =>
      out ← outside cutoffs rs;
      if out : bool then last_outside cutoffs rest (Some i) else Ok acc
  end.

Definition find_pruning_point (buffer : Buffer) (retention : Z) : total (option TransactionId) :=
  match last buffer with
  | None => Ok None
  | Some (_, rs) =>
      let cutoffs := foldl (λ m r, <[network r := saturating_sub64 (start r) retention]> m) (∅ : gmap string Z) rs in
      if bool_decide (cutoffs = ∅) then Ok None
      else last_outside cutoffs (take (length buffer - 1) buffer) None
  end.

(** ** The state actor *)

Inductive ReorgError := Unrecoverable | Partial.

Inductive Cause := CauseReorg (invalidation : list InvalidationRange) | CauseRewind.

Section Actor.
Context {B : Type} {S : Type} `{StateStore S}.

Inductive TransactionEvent :=
  | EvData (id : TransactionId) (batch : B) (ranges : list BlockRange)
  | EvUndo (id : TransactionId) (cause : Cause) (invalidate : RangeInclusive)
  | EvWatermark (id : TransactionId) (ranges : list BlockRange) (prune : option TransactionId).

Inductive Action :=
  | Message (m : ProtocolMessage (B := B))
  | Rewind.

Record StateContainer := mkContainer {
  store : S;
  retention : Z;
  next : TransactionId;
  buffer : Buffer;
  uncommitted : list (TransactionId * PendingCommit)
}.

(** [StateContainer::new] *)
Definition container_new (s : S) (r : Z) : StateContainer :=
  mkContainer s r (snap_next (store_load s)) (snap_buffer (store_load s)) [].

Definition container_watermark (c : StateContainer) : option (TransactionId * list BlockRange) :=
  last (buffer c).

Definition advance (c : StateContainer) : StateContainer :=
  let n := add64 (next c) 1 in
  mkContainer (store_advance n (store c)) (retention c) n (buffer c) (uncommitted c).

Definition truncate_to (n : TransactionId) (c : StateContainer) : StateContainer :=
  mkContainer (store_truncate n (store c)) (retention c) (next c)
    (filter (λ e, e.1 < n) (buffer c)) (filter (λ e, e.1 < n) (uncommitted c)).

(** Some range of the recovery point is cut by the reorg. *)
Definition is_partial (rs : list BlockRange) (invalidation : list InvalidationRange) : bool :=
  existsb (λ r,
    match List.find (λ i, (inv_network i =? network r)%string) invalidation with
    | Some i =>
        let point := range_start (inv_numbers i) in
        (start r <? point) && (point <=? end_ r)
    | None => false
    end) rs.

(** The actor's [execute]: the identifier is taken, and the store advanced,
    whatever happens next. *)
Definition execute (action : Action) : stm StateContainer ReorgError TransactionEvent := λ c0,
  let i := next c0 in
  let c := advance c0 in
  match action with
  | Rewind =>
      let lo := match last (buffer c) with Some (w, _) => add64 w 1 | None => 0 end in
      (Ok (EvUndo i CauseRewind (mkRange lo (saturating_sub64 i 1))), c)
  | Message (Data batch rs) => (Ok (EvData i batch rs), c)
  | Message (WatermarkMsg rs) =>
      let b := buffer c ++ [(i, rs)] in
      let c1 := mkContainer (store c) (retention c) (next c) b (uncommitted c) in
      match find_pruning_point b (retention c) with
      | Ok p =>
          (Ok (EvWatermark i rs p),
           mkContainer (store c) (retention c) (next c) b (uncommitted c ++ [(i, mkPending rs p)]))
      | _ => (Panic, c1)
      end
  | Message (Reorg _ _ invalidation) =>
      let hi := saturating_sub64 i 1 in
      match find_recovery_point (buffer c) invalidation with
      | None =>
          match buffer c with
          | [] => (Ok (EvUndo i (CauseReorg invalidation) (mkRange 0 hi)), truncate_to (add64 0 1) c)
          | _ => (Err Unrecoverable, c)
          end
      | Some (tx, rs) =>
          if is_partial rs invalidation then (Err Partial, c)
          else (Ok (EvUndo i (CauseReorg invalidation) (mkRange (add64 tx 1) hi)),
                truncate_to (add64 tx 1) c)
      end
  end.

(** The actor's [commit]: everything pending up to [i]. *)
Definition commit (i : TransactionId) (c : StateContainer) : StateContainer :=
  let pos := default (length (uncommitted c)) (position (λ e, i <? e.1) (uncommitted c)) in
  if Nat.eqb pos 0 then c
  else
    let compressed := commit_new (take pos (uncommitted c)) in
    let rest := drop pos (uncommitted c) in
    if commit_is_empty compressed
    then mkContainer (store c) (retention c) (next c) (buffer c) rest
    else mkContainer (store_commit compressed (store c)) (retention c) (next c)
           (retain_after (prune compressed) (buffer c)) rest.

(** [TransactionalStream::create] asks for a rewind when transactions follow the
    last watermark. *)
Definition needs_rewind (c : StateContainer) : bool :=
  match container_watermark c with
  | Some (w, _) => add64 w 1 <? next c
  | None => 0 <? next c
  end.

Definition event_id (e : TransactionEvent) : TransactionId :=
  match e with EvData i _ _ | EvUndo i _ _ | EvWatermark i _ _ => i end.

(** ** A consumer that commits each event

    [TransactionalStream::for_each]: the consumer holds batches by transaction,
    applies an event and then commits it. [snapshots] records, as a ghost, what
    the consumer held when it applied each watermark. *)

Definition apply_event (held : gmap TransactionId B) (e : TransactionEvent) : gmap TransactionId B :=
  match e with
  | EvData i batch _ => <[i := batch]> held
  | EvUndo _ _ r => filter (λ kv, range_contains r kv.1 = false) held
  | EvWatermark _ _ _ => held
  end.

Inductive Phase :=
  | Idle
  | Emitted (e : TransactionEvent)
  | Applied (e : TransactionEvent).

(** The process is down, with its store, or up. *)
Inductive Session :=
  | Down (s : S)
  | Up (c : StateContainer) (ph : Phase).

Record Consumer := mkConsumer {
  session : Session;
  held : gmap TransactionId B;
  snapshots : gmap TransactionId (gmap TransactionId B)
}.

Definition record_snapshot (e : TransactionEvent) (h : gmap TransactionId B)
    (snaps : gmap TransactionId (gmap TransactionId B)) : gmap TransactionId (gmap TransactionId B) :=
  match e with EvWatermark i _ _ => <[i := h]> snaps | _ => snaps end.

(** The session after an action: the event is handed over, or the stream ends. *)
Definition after_execute (out : comp ReorgError TransactionEvent * StateContainer) : Session :=
  match out with
  | (Ok e, c) => Up c (Emitted e)
  | (_, c) => Down (store c)
  end.

Inductive client_step : Consumer → Consumer → Prop :=
  | step_start s h snaps r :
      let c := container_new s r in
      needs_rewind c = false →
      client_step (mkConsumer (Down s) h snaps) (mkConsumer (Up c Idle) h snaps)
  | step_start_rewind s h snaps r :
      let c := container_new s r in
      needs_rewind c = true → next c < store_id_max →
      client_step (mkConsumer (Down s) h snaps) (mkConsumer (after_execute (execute Rewind c)) h snaps)
  | step_message c m h snaps :
      next c < store_id_max →
      client_step (mkConsumer (Up c Idle) h snaps)
                  (mkConsumer (after_execute (execute (Message m) c)) h snaps)
  | step_advance_only c h snaps :
      next c < store_id_max →
      client_step (mkConsumer (Up c Idle) h snaps) (mkConsumer (Down (store (advance c))) h snaps)
  | step_apply c e h snaps :
      let h' := apply_event h e in
      client_step (mkConsumer (Up c (Emitted e)) h snaps)
                  (mkConsumer (Up c (Applied e)) h' (record_snapshot e h' snaps))
  | step_commit c e h snaps :
      client_step (mkConsumer (Up c (Applied e)) h snaps)
                  (mkConsumer (Up (commit (event_id e) c) Idle) h snaps)
  | step_crash c ph h snaps :
      client_step (mkConsumer (Up c ph) h snaps) (mkConsumer (Down (store c)) h snaps).

(** Nothing stored, nothing held. *)
Definition client_init (s : S) : Consumer := mkConsumer (Down s) ∅ ∅.

Definition client_reachable (x : Consumer) : Prop :=
  ∃ s, store_valid s /\ store_load s = mkSnapshot [] 0 /\ rtc client_step (client_init s) x.

(** ** The invariant *)

Definition up_to (w : TransactionId) (h : gmap TransactionId B) : gmap TransactionId B :=
  filter (λ kv, kv.1 <= w) h.

Abbreviation Snapshots := (gmap TransactionId (gmap TransactionId B)) (only parsing).

Definition snap_ok (h : gmap TransactionId B) (snaps : Snapshots) (w : TransactionId) : Prop :=
  snaps !! w = Some (up_to w h).

Definition snaps_ok (h : gmap TransactionId B) (snaps : Snapshots) (b : Buffer) : Prop :=
  Forall (λ e, snap_ok h snaps e.1) b.

Definition held_below (n : TransactionId) (h : gmap TransactionId B) : Prop :=
  ∀ i, is_Some (h !! i) → 0 <= i < n.

Definition pending_buffer (l : list (TransactionId * PendingCommit)) : Buffer :=
  (λ e, (e.1, pc_ranges e.2)) <$> l.

(** The buffer is what is persisted followed by what is pending, and a pending
    prune point lies before its watermark. *)
Record container_ok (c : StateContainer) : Prop := {
  ok_store : store_valid (store c);
  ok_buffer : buffer c = snap_buffer (store_load (store c)) ++ pending_buffer (uncommitted c);
  ok_next : snap_next (store_load (store c)) = next c;
  ok_ids : ids_ok (next c) (buffer c);
  ok_range : 0 <= next c <= store_id_max;
  ok_prune : Forall (λ e, ∀ p, pc_prune e.2 = Some p → 0 <= p < e.1) (uncommitted c)
}.

(** What holds before an event is applied: its identifier is the last one taken,
    nothing held reaches it, and it is the only watermark without snapshot. *)
Definition emitted_ok (c : StateContainer) (e : TransactionEvent) (h : gmap TransactionId B)
    (snaps : Snapshots) : Prop :=
  next c = event_id e + 1 /\ held_below (event_id e) h /\
  match e with
  | EvData i _ _ => 0 <= i /\ ids_ok i (buffer c) /\ snaps_ok h snaps (buffer c)
  | EvWatermark i rs _ =>
      ∃ b u p, buffer c = b ++ [(i, rs)] /\ uncommitted c = u ++ [(i, p)] /\ pc_ranges p = rs
               /\ snaps_ok h snaps b
  | EvUndo i _ r =>
      snaps_ok h snaps (buffer c) /\ range_end r = saturating_sub64 i 1 /\
      range_start r = match last (buffer c) with Some (w, _) => w + 1 | None => 0 end
  end.

Definition undone (c : StateContainer) (h : gmap TransactionId B) (snaps : Snapshots) : Prop :=
  match last (buffer c) with
  | Some (w, _) => snaps !! w = Some h
  | None => h = ∅
  end.

Definition client_ok (x : Consumer) : Prop :=
  match session x with
  | Down s =>
      let l := store_load s in
      store_valid s /\ ids_ok (snap_next l) (snap_buffer l) /\ 0 <= snap_next l <= store_id_max
      /\ held_below (snap_next l) (held x) /\ snaps_ok (held x) (snapshots x) (snap_buffer l)
  | Up c Idle => container_ok c /\ held_below (next c) (held x) /\ snaps_ok (held x) (snapshots x) (buffer c)
  | Up c (Emitted e) => container_ok c /\ emitted_ok c e (held x) (snapshots x)
  | Up c (Applied e) =>
      container_ok c /\ next c = event_id e + 1 /\ held_below (next c) (held x)
      /\ snaps_ok (held x) (snapshots x) (buffer c)
      /\ match e with EvUndo _ _ _ => undone c (held x) (snapshots x) | _ => True end
  end.

(** ** Lemmas on identifiers *)

Lemma ids_ok_mono n m b : ids_ok n b → n <= m → ids_ok m b.
Proof.
  intros [Hs Hf] Hnm. split; [done|]. eapply list.Forall_impl; [exact Hf|]. cbn. intros; lia.
Qed.

Lemma ids_ok_filter n (P : TransactionId * list BlockRange → Prop) `{∀ x, Decision (P x)} b :
  ids_ok n b → ids_ok n (filter P b).
Proof.
  intros [Hs Hf]. split.
  - induction Hs as [|x l Hs IH Hx]; [constructor|]. apply list.Forall_cons in Hf as [_ Hf].
    rewrite filter_cons. destruct (decide (P x)); [|auto]. constructor; [auto|].
    rewrite Forall_forall in Hx |- *. intros y [_ Hy]%list_elem_of_filter. auto.
  - rewrite Forall_forall in Hf |- *. intros y [_ Hy]%list_elem_of_filter. auto.
Qed.

Lemma ids_ok_app n a b : ids_ok n (a ++ b) → ids_ok n a.
Proof.
  intros [Hs Hf]. split; [by eapply StronglySorted_app_1_l|]. by apply list.Forall_app in Hf as [? _].
Qed.

Lemma ids_ok_snoc n b rs : ids_ok n b → 0 <= n → ids_ok (n + 1) (b ++ [(n, rs)]).
Proof.
  intros [Hs Hf] Hn. split.
  - apply StronglySorted_app_2; [|done|repeat constructor].
    intros x y Hx ->%list_elem_of_singleton. rewrite Forall_forall in Hf. cbn. apply Hf in Hx. lia.
  - apply list.Forall_app. split; [|repeat constructor; cbn; lia].
    eapply list.Forall_impl; [exact Hf|]. cbn. intros; lia.
Qed.

(** Keeping what is up to one of its elements makes that element the last. *)
Lemma filter_last n b w rs :
  ids_ok n b → (w, rs) ∈ b → last (filter (λ e, e.1 < w + 1) b) = Some (w, rs).
Proof.
  intros [Hs _]. induction Hs as [|x l Hs IH Hx]; [by intros ?%elem_of_nil|].
  rewrite filter_cons. intros [<-|Hin]%elem_of_cons.
  - rewrite decide_True by (cbn; lia). rewrite filter_none; [done|].
    rewrite Forall_forall in Hx |- *. intros y Hy. apply Hx in Hy. cbn in *. lia.
  - rewrite Forall_forall in Hx. specialize (Hx _ Hin). rewrite decide_True by (cbn in *; lia).
    rewrite last_cons, (IH Hin). done.
Qed.

Lemma pending_filter (n : Z) l :
  pending_buffer (filter (λ e, e.1 < n) l) = filter (λ e, e.1 < n) (pending_buffer l).
Proof.
  induction l as [|[i p] l IH]; [done|]. unfold pending_buffer in *. rewrite fmap_cons, !filter_cons. cbn [fst].
  destruct (decide (i < n)); cbn [fmap list_fmap]; by rewrite IH.
Qed.

Lemma up_to_all n w (h : gmap TransactionId B) : held_below n h → n <= w + 1 → up_to w h = h.
Proof.
  intros Hh Hn. apply map_filter_id. intros i x Hi. cbn. pose proof (Hh i (mk_is_Some _ _ Hi)). lia.
Qed.

Lemma up_to_insert w i x (h : gmap TransactionId B) : w < i → up_to w (<[i := x]> h) = up_to w h.
Proof. intros Hw. unfold up_to. apply map_filter_insert_not. cbn. intros; lia. Qed.

Lemma up_to_undo w r (h : gmap TransactionId B) :
  w < range_start r → up_to w (filter (λ kv, range_contains r kv.1 = false) h) = up_to w h.
Proof.
  intros Hw. unfold up_to. rewrite map_filter_filter. apply map_filter_ext. intros i x _. cbn.
  unfold range_contains. destruct (Z.leb_spec (range_start r) i), (Z.leb_spec i (range_end r)); cbn; naive_solver lia.
Qed.

(** ** Actions *)

Lemma crash_ok c h snaps :
  container_ok c → held_below (next c) h → snaps_ok h snaps (snap_buffer (store_load (store c))) →
  client_ok (mkConsumer (Down (store c)) h snaps).
Proof.
  intros [Hst Hb Hn Hids Hr _] Hh Hs. unfold client_ok. cbn [session held snapshots]. rewrite Hn.
  rewrite Hb in Hids. split_and!; try done; [by eapply ids_ok_app|lia|lia].
Qed.

Lemma snaps_ok_app h snaps a b : snaps_ok h snaps (a ++ b) ↔ snaps_ok h snaps a /\ snaps_ok h snaps b.
Proof. apply list.Forall_app. Qed.

Lemma snaps_ok_filter h snaps (P : TransactionId * list BlockRange → Prop) `{∀ x, Decision (P x)} b :
  snaps_ok h snaps b → snaps_ok h snaps (filter P b).
Proof.
  unfold snaps_ok. rewrite !Forall_forall. intros Hb x [_ Hx]%list_elem_of_filter. auto.
Qed.

Lemma advance_ok c :
  container_ok c → next c < store_id_max → container_ok (advance c) /\ next (advance c) = next c + 1.
Proof.
  intros [Hst Hb Hn Hids Hr Hp] Hlt. pose proof store_id_u64 as Hmax.
  assert (next (advance c) = next c + 1) as Hnext.
  { cbn [advance next]. apply add64_small. unfold is_u64. lia. }
  destruct (advance_spec (next (advance c)) (store c)) as [Hst' Hload]; [done|lia|].
  split; [|done]. rewrite Hnext in Hst', Hload. cbn [advance next] in Hnext.
  split; cbn [advance store uncommitted buffer next]; rewrite ?Hnext, ?Hload; cbn; try done.
  - eapply ids_ok_mono; [done|lia].
  - lia.
Qed.

Lemma truncate_ok n c : container_ok c → 0 <= n <= next c → container_ok (truncate_to n c).
Proof.
  intros [Hst Hb Hn Hids Hr Hp] Hle. destruct (truncate_spec n (store c)) as [Hst' Hload]; [done|lia|].
  split; cbn [truncate_to store buffer uncommitted next]; rewrite ?Hload;
    cbn [snap_buffer snap_next]; try done.
  - rewrite Hb, filter_app. f_equal. symmetry. apply pending_filter.
  - by apply ids_ok_filter.
  - rewrite Forall_forall in Hp |- *. intros x [_ Hx]%list_elem_of_filter. auto.
Qed.

Lemma last_outside_in cutoffs b acc p :
  last_outside cutoffs b acc = Ok (Some p) → acc = Some p \/ ∃ rs, (p, rs) ∈ b.
Proof.
  revert acc. induction b as [|[i rs] b IH]; intros acc; cbn [last_outside].
  - intros [= ->]. by left.
  - destruct (outside cutoffs rs) as [out|e| |]; cbn [mbind comp_bind]; try discriminate.
    destruct out; [|intros [= ->]; by left]. intros [[= ->]|[rs' Hin]]%IH; right.
    + exists rs. by left.
    + exists rs'. by right.
Qed.

(** A prune point lies before the watermark it was computed for. *)
Lemma find_pruning_point_before n b rs r p :
  ids_ok n b → find_pruning_point (b ++ [(n, rs)]) r = Ok (Some p) → 0 <= p < n.
Proof.
  intros [_ Hids]. unfold find_pruning_point. rewrite last_snoc. case_bool_decide; [done|].
  rewrite length_app. cbn [length]. replace (length b + 1 - 1)%nat with (length b) by lia.
  rewrite take_app_length. intros [?|[rs' Hin]]%last_outside_in; [done|].
  rewrite Forall_forall in Hids. apply Hids in Hin. cbn in Hin. lia.
Qed.

Lemma find_recovery_point_in b inv e : find_recovery_point b inv = Some e → e ∈ b.
Proof.
  intros [Hin _]%List.find_some. apply list_elem_of_In in Hin. by rewrite elem_of_reverse in Hin.
Qed.

Lemma execute_ok a c h snaps :
  container_ok c → held_below (next c) h → snaps_ok h snaps (buffer c) → next c < store_id_max →
  client_ok (mkConsumer (after_execute (execute a c)) h snaps).
Proof.
  intros Hc Hh Hs Hlt. destruct (advance_ok c Hc Hlt) as [Hc1 Hn1].
  pose proof store_id_u64 as Hmax. pose proof (ok_range c Hc) as Hrange.
  set (c1 := advance c) in *. assert (buffer c1 = buffer c) as Hb1 by done.
  assert (held_below (next c1) h) as Hh1 by (intros i Hi; apply Hh in Hi; lia).
  assert (client_ok (mkConsumer (Down (store c1)) h snaps)) as Hdown.
  { apply crash_ok; [done..|]. rewrite <- Hb1, (ok_buffer c1 Hc1), snaps_ok_app in Hs. apply Hs. }
  assert (∀ w rs, (w, rs) ∈ buffer c → 0 <= w < next c) as Hid.
  { intros w rs Hin. destruct (ok_ids c Hc) as [_ Hf]. rewrite Forall_forall in Hf. by apply (Hf _ Hin). }
  assert (∀ w rs, (w, rs) ∈ buffer c → add64 w 1 = w + 1) as Hadd.
  { intros w rs Hin. apply Hid in Hin. apply add64_small. unfold is_u64. lia. }
  unfold execute. fold c1. destruct a as [[batch rs|prev inc inv|rs]|].
  - cbn [after_execute]. unfold client_ok. cbn [session held snapshots]. split; [done|].
    unfold emitted_ok. cbn [event_id]. rewrite Hb1. split_and!; [done..|apply (ok_range c Hc)|apply (ok_ids c Hc)|done].
  - destruct (find_recovery_point (buffer c1) inv) as [[tx rs]|] eqn:Ef.
    + destruct (is_partial rs inv); [exact Hdown|]. apply find_recovery_point_in in Ef. rewrite Hb1 in Ef.
      rewrite (Hadd _ _ Ef). cbn [after_execute]. unfold client_ok. cbn [session held snapshots].
      split; [apply truncate_ok; [done|apply Hid in Ef; lia]|]. unfold emitted_ok.
      cbn [event_id truncate_to next buffer range_end range_start].
      split; [done|]. split; [done|]. rewrite Hb1. split; [by apply snaps_ok_filter|]. split; [done|].
      by rewrite (filter_last _ _ _ _ (ok_ids c Hc) Ef).
    + destruct (buffer c1) as [|e b] eqn:Eb; [|exact Hdown]. cbn [after_execute]. unfold client_ok.
      cbn [session held snapshots]. split; [apply truncate_ok; [done|change (add64 0 1) with 1; lia]|]. unfold emitted_ok.
      cbn [event_id truncate_to next buffer range_end range_start]. rewrite Eb.
      split; [done|]. split; [done|]. split; [by apply Forall_nil|]. done.
  - rewrite Hb1. destruct (find_pruning_point (buffer c ++ [(next c, rs)]) (retention c1)) as [p|e| |] eqn:Ef;
      [|exact Hdown..].
    cbn [after_execute]. unfold client_ok. cbn [session held snapshots]. split.
    + pose proof Hc1 as [Hst Hb Hn Hids Hr Hp]. split; cbn [store buffer uncommitted next].
      * done.
      * rewrite <- Hb1, Hb, <- app_assoc. unfold pending_buffer. by rewrite fmap_app.
      * done.
      * rewrite Hn1. apply ids_ok_snoc; [apply (ok_ids c Hc)|apply (ok_range c Hc)].
      * done.
      * apply list.Forall_app. split; [done|]. constructor; [|done]. intros q Hq. cbn in Hq |- *. subst p.
        eapply find_pruning_point_before; [apply (ok_ids c Hc)|exact Ef].
    + unfold emitted_ok. cbn [event_id next buffer uncommitted]. split; [done|]. split; [done|].
      exists (buffer c), (uncommitted c1), (mkPending rs p). done.
  - cbn [after_execute]. unfold client_ok. cbn [session held snapshots]. split; [done|]. unfold emitted_ok.
    cbn [event_id range_end range_start]. rewrite Hb1. split; [done|]. split; [done|]. split; [done|]. split; [done|].
    destruct (last (buffer c)) as [[w rs]|] eqn:El; [|done].
    apply (Hadd w rs). apply last_Some in El as [l' ->]. apply elem_of_app. right. by left.
Qed.

(** ** Commits *)

Lemma commit_prune_in a acc p :
  foldl (λ acc e, max_prune acc (pc_prune e.2)) acc a = Some p →
  acc = Some p \/ ∃ e : TransactionId * PendingCommit, e ∈ a /\ pc_prune e.2 = Some p.
Proof.
  revert acc. induction a as [|e a IH]; intros acc; cbn [foldl]; [by left|].
  intros [Hm|(x & Hx & Hp)]%IH; [|right; exists x; split; [by right|done]].
  destruct (pc_prune e.2) as [q|] eqn:E; cbn [max_prune] in Hm; [|by left].
  injection Hm as Hm. destruct acc as [k|]; [|right; exists e; split; [by left|by subst]].
  destruct (Z.max_spec k q) as [[_ Hq]|[_ Hq]]; rewrite Hq in Hm; subst.
  - right. exists e. split; [by left|done].
  - by left.
Qed.

Lemma retain_after_app p a b : retain_after p (a ++ b) = retain_after p a ++ retain_after p b.
Proof. destruct p; cbn; [by rewrite filter_app|done]. Qed.

Lemma commit_ok i c :
  container_ok c →
  container_ok (commit i c) /\ next (commit i c) = next c /\ ∃ p, buffer (commit i c) = retain_after p (buffer c).
Proof.
  intros Hc. pose proof Hc as [Hst Hb Hn Hids Hr Hp]. unfold commit.
  set (pos := default _ _). destruct (Nat.eqb pos 0); [split_and!; [done..|by exists None]|].
  pose proof (take_drop pos (uncommitted c)) as Hu. set (a := take pos (uncommitted c)) in *.
  set (rest := drop pos (uncommitted c)) in *. rewrite <- Hu in Hb, Hp.
  assert (pending_buffer (a ++ rest) = pending_buffer a ++ pending_buffer rest) as Happ by apply fmap_app.
  apply list.Forall_app in Hp as [Hpa Hpr].
  destruct (commit_is_empty (commit_new a)) eqn:Ee.
  - assert (a = []) as Ha.
    { unfold commit_is_empty in Ee. destruct (insert (commit_new a)) eqn:Ei; [|done].
      destruct (prune (commit_new a)) eqn:Ep; [done|]. unfold commit_new in Ei, Ep. cbn in Ei, Ep.
      rewrite Ep in Ei. cbn in Ei. by apply fmap_nil_inv in Ei. }
    rewrite Ha in Hb. split; [|split; [done|by exists None]]. split; done.
  - assert (Hprune : ∀ p, prune (commit_new a) = Some p → ∃ e, e ∈ a /\ 0 <= p < e.1).
    { intros p Ep. apply commit_prune_in in Ep as [?|(e & He & Hep)]; [done|].
      rewrite Forall_forall in Hpa. exists e. split; [done|by apply Hpa]. }
    assert (Hin : ∀ e, e ∈ a → (e.1, pc_ranges e.2) ∈ buffer c).
    { intros e He. rewrite Hb, Happ. apply elem_of_app. right. apply elem_of_app. left.
      apply list_elem_of_fmap. by exists e. }
    assert (Hkept : retain_after (prune (commit_new a)) (buffer c)
      = (retain_after (prune (commit_new a)) (snap_buffer (store_load (store c))) ++ insert (commit_new a))
        ++ pending_buffer rest).
    { rewrite Hb, Happ, !retain_after_app, app_assoc. f_equal.
      destruct (prune (commit_new a)) as [p|] eqn:Ep; [|done]. cbn [retain_after].
      destruct (Hprune p eq_refl) as (e & He & Hlt).
      destruct Hids as [Hs _]. rewrite Hb, Happ, app_assoc in Hs.
      apply filter_all, Forall_forall. intros x Hx. cbn.
      enough (e.1 < x.1) by lia.
      eapply (StronglySorted_app_1_elem_of _ _ _ (e.1, pc_ranges e.2) x Hs); [|done].
      apply elem_of_app. right. apply list_elem_of_fmap. by exists e. }
    assert (Hids' : ids_ok (next c) (retain_after (prune (commit_new a)) (buffer c))).
    { destruct (prune (commit_new a)); cbn [retain_after]; [by apply ids_ok_filter|done]. }
    destruct (commit_spec (commit_new a) (store c)) as [Hst' Hload]; [done|..].
    { intros p Ep. destruct (Hprune p Ep) as (e & He & Hlt). destruct Hids as [_ Hf].
      rewrite Forall_forall in Hf. apply Hin, Hf in He. cbn in He. lia. }
    { rewrite Hkept in Hids'. apply ids_ok_app in Hids'. eapply ids_ok_mono; [exact Hids'|lia]. }
    split; [|split; [done|by eexists]].
    split; cbn [store buffer uncommitted next]; rewrite ?Hload; cbn [snap_buffer snap_next]; done.
Qed.

(** ** Events *)

Lemma last_is_max n b w rs k :
  ids_ok n b → last b = Some (w, rs) → k ∈ b → k.1 <= w.
Proof.
  intros [Hs _] [l ->]%last_Some Hk. apply elem_of_app in Hk as [Hk| ->%list_elem_of_singleton]; [|done].
  pose proof (StronglySorted_app_1_elem_of _ _ _ _ (w, rs) Hs Hk ltac:(by left)). cbn in *. lia.
Qed.

Lemma apply_ok c e h snaps :
  let h' := apply_event h e in
  client_ok (mkConsumer (Up c (Emitted e)) h snaps) →
  client_ok (mkConsumer (Up c (Applied e)) h' (record_snapshot e h' snaps)).
Proof.
  unfold client_ok. cbn [session held snapshots]. intros [Hc (Hn & Hh & He)]. split; [done|]. split; [done|].
  rewrite Hn. pose proof (ok_ids c Hc) as Hids.
  destruct e as [i batch rs|i cause r|i rs p]; cbn [event_id apply_event record_snapshot] in *.
  - destruct He as (Hi & [_ Hlt] & Hs). split; [|split; [|done]].
    + intros k [<-|[_ Hk%Hh]]%lookup_insert_is_Some; lia.
    + unfold snaps_ok, snap_ok in *. rewrite Forall_forall in Hs, Hlt |- *. intros x Hx.
      rewrite up_to_insert; [by apply Hs|]. apply Hlt in Hx. lia.
  - destruct He as (Hs & Hend & Hstart). split; [|split].
    + intros k [x [Hk _]%map_lookup_filter_Some]. specialize (Hh k (mk_is_Some _ _ Hk)). lia.
    + unfold snaps_ok, snap_ok in *. rewrite Forall_forall in Hs |- *. intros x Hx.
      rewrite up_to_undo; [by apply Hs|]. rewrite Hstart.
      destruct (last (buffer c)) as [[w rs]|] eqn:El.
      * pose proof (last_is_max _ _ _ _ _ Hids El Hx). lia.
      * apply last_None in El. rewrite El in Hx. by apply elem_of_nil in Hx.
    + unfold undone. assert (∀ k, 0 <= k < i → range_contains r k = (range_start r <=? k)) as Hr.
      { intros k Hk. unfold range_contains. rewrite Hend. unfold saturating_sub64.
        destruct (Z.leb_spec k (Z.max 0 (i - 1))); [apply andb_true_r|lia]. }
      destruct (last (buffer c)) as [[w rs]|] eqn:El.
      * assert ((w, rs) ∈ buffer c) as Hin by (apply last_Some in El as [l' ->]; apply elem_of_app; right; by left).
        unfold snaps_ok, snap_ok in Hs. rewrite Forall_forall in Hs. pose proof (Hs _ Hin) as Hw. cbn in Hw. rewrite Hw. f_equal.
        unfold up_to. apply map_filter_ext. intros k x Hk. cbn. rewrite Hr by (apply Hh; eauto).
        rewrite Hstart. destruct (Z.leb_spec (w + 1) k); naive_solver lia.
      * apply map_empty. intros k. apply map_lookup_filter_None. right. intros x Hk. cbn.
        rewrite Hr by (apply Hh; eauto). rewrite Hstart. specialize (Hh k (mk_is_Some _ _ Hk)).
        destruct (Z.leb_spec 0 k); [done|lia].
  - destruct He as (b & u & q & Hb & Hu & Hq & Hs). split; [|split; [|done]].
    + intros k Hk%Hh. lia.
    + rewrite Hb in Hids |- *. apply snaps_ok_app. split.
      * unfold snaps_ok, snap_ok in *. rewrite Forall_forall in Hs |- *. intros x Hx.
        destruct Hids as [Hsort _].
        pose proof (StronglySorted_app_1_elem_of _ _ _ x (i, rs) Hsort Hx ltac:(by left)) as Hlt. cbn in Hlt.
        rewrite lookup_insert_ne by lia. by apply Hs.
      * repeat constructor. unfold snap_ok. cbn [fst]. rewrite lookup_insert_eq. f_equal. symmetry.
        apply (up_to_all i); [done|lia].
Qed.

(** ** Every step keeps the invariant *)

Lemma emitted_crash c e h snaps :
  container_ok c → emitted_ok c e h snaps →
  held_below (next c) h /\ snaps_ok h snaps (snap_buffer (store_load (store c))).
Proof.
  intros Hc (Hn & Hh & He). split; [intros k Hk%Hh; lia|].
  assert (snaps_ok h snaps (buffer c) → snaps_ok h snaps (snap_buffer (store_load (store c)))) as Hpre.
  { rewrite (ok_buffer c Hc), snaps_ok_app. by intros []. }
  destruct e as [i batch rs|i cause r|i rs p].
  - apply Hpre, He.
  - apply Hpre, He.
  - destruct He as (b & u & q & Hb & Hu & Hq & Hs). pose proof (ok_buffer c Hc) as Hbuf.
    rewrite Hb, Hu in Hbuf. unfold pending_buffer in Hbuf. rewrite fmap_app, app_assoc in Hbuf.
    apply app_inj_tail in Hbuf as [-> _]. by apply snaps_ok_app in Hs as [? _].
Qed.

Lemma container_new_ok s r h snaps :
  client_ok (mkConsumer (Down s) h snaps) →
  container_ok (container_new s r) /\ held_below (next (container_new s r)) h
  /\ snaps_ok h snaps (buffer (container_new s r)).
Proof.
  unfold client_ok. cbn [session held snapshots]. intros (Hids & Hr & Hh & Hs).
  split; [|done]. split; cbn; try done. by rewrite app_nil_r.
Qed.

Lemma client_step_ok x y : client_step x y → client_ok x → client_ok y.
Proof.
  intros Hstep Hx. destruct Hstep as [s h snaps r c Hrw|s h snaps r c Hrw Hlt|c m h snaps Hlt|c h snaps Hlt|c e h snaps h'|c e h snaps|c ph h snaps].
  - apply (container_new_ok s r) in Hx. exact Hx.
  - apply (container_new_ok s r) in Hx as (? & ? & ?). by apply execute_ok.
  - destruct Hx as (? & ? & ?). by apply execute_ok.
  - destruct Hx as (Hc & Hh & Hs). cbn [held snapshots] in *. destruct (advance_ok c Hc Hlt) as [Hc1 Hn1].
    apply crash_ok; [done|intros k Hk%Hh; lia|].
    change (buffer c) with (buffer (advance c)) in Hs. rewrite (ok_buffer _ Hc1), snaps_ok_app in Hs. apply Hs.
  - by apply apply_ok.
  - destruct Hx as (Hc & Hn & Hh & Hs & _). cbn [held snapshots] in *.
    destruct (commit_ok (event_id e) c Hc) as (Hc' & Hn' & [p Hb]). unfold client_ok. cbn [session held snapshots].
    rewrite Hn', Hb. split; [done|]. split; [done|]. destruct p; [by apply snaps_ok_filter|done].
  - assert (∀ Hc : container_ok c, held_below (next c) h → snaps_ok h snaps (buffer c) →
      client_ok (mkConsumer (Down (store c)) h snaps)) as Hgen.
    { intros Hc Hh Hs. apply crash_ok; [done..|]. rewrite (ok_buffer c Hc), snaps_ok_app in Hs. apply Hs. }
    destruct ph as [|e|e]; destruct Hx as [Hc Hx]; cbn [held snapshots] in *.
    + destruct Hx. by apply Hgen.
    + destruct (emitted_crash c e h snaps Hc Hx). by apply crash_ok.
    + destruct Hx as (_ & ? & ? & _). by apply Hgen.
Qed.

Lemma client_reachable_ok x : client_reachable x → client_ok x.
Proof.
  intros (s & Hst & Hs & Hr). revert x Hr. apply (rtc_ind_r client_ok).
  - unfold client_ok. cbn [session client_init held snapshots]. rewrite Hs. cbn [snap_next snap_buffer].
    split; [done|]. split; [split; constructor|]. split; [pose proof store_id_u64; lia|]. split; [|by apply Forall_nil].
    intros i [? Hi]. by rewrite lookup_empty in Hi.
  - intros y z _ Hyz Hy. by eapply client_step_ok.
Qed.

(** C24: Exactly-once recovery. However the consumer crashes (before or after it
    applies an event, before or after the commit, in the middle of an action)
    and restarts, and whatever messages and reorgs arrive: once it has applied an
    undo, it holds exactly the batches it held when it applied the last watermark
    of the buffer (nothing, if there is none), which is where the stream goes
    on; and when it is down, its batches up to the last persisted watermark are
    exactly those, while a restart that asks for no rewind has no others. *)
Theorem exactly_once_recovery (x : Consumer) :
  client_reachable x →
  (∀ c i cause r, session x = Up c (Applied (EvUndo i cause r)) → undone c (held x) (snapshots x))
  /\ (∀ s r, session x = Down s →
       let c := container_new s r in
       match last (buffer c) with
       | Some (w, _) => snapshots x !! w = Some (up_to w (held x))
       | None => True
       end
       /\ (needs_rewind c = false → undone c (held x) (snapshots x))).
Proof.
  intros Hok%client_reachable_ok. unfold client_ok in Hok. split.
  - intros c i cause r E. rewrite E in Hok. apply Hok.
  - intros s r E. rewrite E in Hok. destruct Hok as (Hst & Hids & Hr & Hh & Hs). pose proof store_id_u64 as Hmax.
    cbn [container_new buffer]. unfold needs_rewind, undone, container_watermark. cbn [container_new buffer next].
    destruct (last (snap_buffer (store_load s))) as [[w rs]|] eqn:El.
    + assert ((w, rs) ∈ snap_buffer (store_load s)) as Hin.
      { apply last_Some in El as [l' ->]. apply elem_of_app. right. by left. }
      unfold snaps_ok, snap_ok in Hs. rewrite Forall_forall in Hs. pose proof (Hs _ Hin) as Hw. cbn in Hw.
      split; [done|]. destruct Hids as [_ Hf]. rewrite Forall_forall in Hf. specialize (Hf _ Hin). cbn in Hf.
      rewrite add64_small by (unfold is_u64; lia). intros Hrw%Z.ltb_ge.
      rewrite Hw. f_equal. apply (up_to_all (snap_next (store_load s))); [done|lia].
    + split; [done|]. intros Hrw%Z.ltb_ge. apply map_empty. intros i.
      apply eq_None_not_Some. intros Hi%Hh. lia.
Qed.

(** ** Runs *)

Inductive Move := MStart (r : Z) | MMessage (m : ProtocolMessage (B := B)) | MApply | MCommit | MCrash.

(** The step of a move, where it applies. *)
Definition move (m : Move) (x : Consumer) : option Consumer :=
  match m, session x with
  | MStart r, Down s =>
      let c := container_new s r in
      if negb (needs_rewind c) then Some (mkConsumer (Up c Idle) (held x) (snapshots x))
      else if next c <? store_id_max
      then Some (mkConsumer (after_execute (execute Rewind c)) (held x) (snapshots x)) else None
  | MMessage m, Up c Idle =>
      if next c <? store_id_max
      then Some (mkConsumer (after_execute (execute (Message m) c)) (held x) (snapshots x)) else None
  | MApply, Up c (Emitted e) =>
      let h' := apply_event (held x) e in
      Some (mkConsumer (Up c (Applied e)) h' (record_snapshot e h' (snapshots x)))
  | MCommit, Up c (Applied e) => Some (mkConsumer (Up (commit (event_id e) c) Idle) (held x) (snapshots x))
  | MCrash, Up c _ => Some (mkConsumer (Down (store c)) (held x) (snapshots x))
  | _, _ => None
  end.

Definition run (ms : list Move) (x : Consumer) : option Consumer :=
  foldl (λ o m, o ≫= move m) (Some x) ms.

Lemma move_step m x y : move m x = Some y → client_step x y.
Proof.
  destruct x as [ses h snaps]. unfold move. cbn [session held snapshots].
  destruct m, ses as [s|c [|e|e]]; try discriminate; intros Hm.
  - destruct (needs_rewind _) eqn:E; cbn [negb] in Hm; [|injection Hm as <-; by apply step_start].
    destruct (Z.ltb_spec (next (container_new s r)) store_id_max); [|done]. injection Hm as <-. by apply step_start_rewind.
  - destruct (Z.ltb_spec (next c) store_id_max); [|done]. injection Hm as <-. by apply step_message.
  - injection Hm as <-. by apply step_apply.
  - injection Hm as <-. by apply step_commit.
  - injection Hm as <-. by apply step_crash.
  - injection Hm as <-. by apply step_crash.
  - injection Hm as <-. by apply step_crash.
Qed.

Lemma run_steps ms x y : run ms x = Some y → rtc client_step x y.
Proof.
  unfold run. revert x. induction ms as [|m ms IH]; intros x; cbn [foldl].
  - intros [= ->]. apply rtc_refl.
  - destruct (Some x ≫= move m) as [z|] eqn:E.
    + intros Hz%IH. eapply rtc_l; [|exact Hz]. by apply move_step in E.
    + intros Hn. exfalso. clear IH E. induction ms as [|k ms IH]; [done|]. by apply IH.
Qed.

End Actor.

Definition eth (lo hi : Z) : BlockRange := mkBlockRange (mkRange lo hi) "eth" hi (Some (lo - 1)).

(** A batch, its watermark and the batch after it; a crash before the commit of
    the latter, and the rewind of the next start. *)
Definition rewind_moves : list (Move (B := string)) :=
  [MStart 10; MMessage (Data "a" [eth 1 4]); MApply; MCommit;
   MMessage (WatermarkMsg [eth 1 4]); MApply; MCommit;
   MMessage (Data "b" [eth 5 8]); MApply; MCrash; MStart 10; MApply].

Lemma exactly_once_recovery_witness :
  ∃ x : Consumer (B := string) (S := InMemoryStateStore),
    client_reachable x /\
    match session x with
    | Up c (Applied (EvUndo 3 CauseRewind (mkRange 2 2))) => undone c (held x) (snapshots x)
    | _ => False
    end /\ held x = {[0 := "a"]}.
Proof.
  destruct (run rewind_moves (client_init (mkInMemory (mkSnapshot [] 0)))) as [x|] eqn:E.
  2:{ exfalso. vm_compute in E. discriminate E. }
  assert (client_reachable x) as Hr.
  { exists (mkInMemory (mkSnapshot [] 0)). split; [exact I|]. split; [reflexivity|]. apply (run_steps _ _ _ E). }
  pose proof (exactly_once_recovery x Hr) as [Hundo _].
  exists x. split; [exact Hr|]. vm_compute in E. injection E as <-. split; [|reflexivity].
  exact (Hundo _ _ _ _ eq_refl).
Defined.
