(* ===== verification/Cdc.v ===== *)
(** * Cdc

    The change-data-capture stream (client/src/cdc.rs) over the transactional
    stream: batches are kept in a batch store (client/src/store/memory.rs) so
    that an undo can be forwarded as the deletion of the batches themselves. *)

From stdpp Require Import base numbers gmap strings option fin_maps list sorting.
From Stdlib Require Import ZArith Lia.
From S2P Require Import Prelude Ranges BlockRange Client Transactional.

Section Cdc.
Context {B : Type} {S : Type} `{StateStore S}.

(** ** The in-memory batch store *)

Abbreviation InMemoryBatchStore := (gmap TransactionId B) (only parsing).

Definition append (batch : B) (i : TransactionId) (bs : InMemoryBatchStore) : InMemoryBatchStore :=
  <[i := batch]> bs.

(** [BTreeMap::range]: increasing keys; an inverted range panics unless the map
    is empty. *)
Definition seek (r : RangeInclusive) (bs : InMemoryBatchStore) : total (list TransactionId) :=
  if bool_decide (bs ≠ ∅) && (range_end r <? range_start r) then Panic
  else Ok (sort_by_key (λ i, i) (filter (λ i, range_contains r i = true) (map_to_list bs).*1)).

Definition load (i : TransactionId) (bs : InMemoryBatchStore) : option B := bs !! i.

(** [split_off(&(cutoff + 1))] *)
Definition prune_batches (cutoff : TransactionId) (bs : InMemoryBatchStore) : InMemoryBatchStore :=
  filter (λ kv, add64 cutoff 1 <= kv.1) bs.

(** ** The iterator of deleted batches *)

Record DeleteBatchIterator := mkIterator { ids : list TransactionId; current : nat }.

(** The loop of [next]: identifiers without a batch are skipped. *)
Fixpoint next_from (bs : InMemoryBatchStore) (rest : list TransactionId) (cur : nat)
    : option (TransactionId * B) * nat :=
  match rest with
  | [] => (None, cur)
  | i :: rest' =>
      match load i bs with
      | Some batch => (Some (i, batch), Datatypes.S cur)
      | None => next_from bs rest' (Datatypes.S cur)
      end
  end.

Definition iterator_next (bs : InMemoryBatchStore) (it : DeleteBatchIterator)
    : option (TransactionId * B) * DeleteBatchIterator :=
  let '(r, cur) := next_from bs (drop (current it) (ids it)) (current it) in
  (r, mkIterator (ids it) cur).

(** A consumer that drains the iterator. *)
Fixpoint drain (fuel : nat) (bs : InMemoryBatchStore) (it : DeleteBatchIterator) : list (TransactionId * B) :=
  match fuel with
  | O => []
  | Datatypes.S fuel' =>
      match iterator_next bs it with
      | (Some x, it') => x :: drain fuel' bs it'
      | (None, _) => []
      end
  end.

(** ** The stream *)

Inductive CdcEvent :=
  | Insert (id : TransactionId) (batch : B)
  | Delete (id : TransactionId) (batches : DeleteBatchIterator).

(** One turn of the loop of [CdcStream::create]: the event yielded with its
    commit handle, if one is; otherwise the handle is dropped. *)
Definition cdc_step (e : TransactionEvent (B := B)) (bs : InMemoryBatchStore)
    : total (option CdcEvent * InMemoryBatchStore) :=
  match e with
  | EvData i batch _ => Ok (Some (Insert i batch), append batch i bs)
  | EvUndo i _ r =>
      found ← seek r bs;
      Ok (match found with [] => None | _ => Some (Delete i (mkIterator found 0)) end, bs)
  | EvWatermark _ _ p =>
      Ok (None, match p with Some cutoff => prune_batches cutoff bs | None => bs end)
  end.

(** The stream over an action of the actor, for a consumer that commits every
    event it receives. *)
Definition cdc_action (a : Action) (c : StateContainer (S := S)) (bs : InMemoryBatchStore)
    : option (option CdcEvent * StateContainer * InMemoryBatchStore) :=
  match execute a c with
  | (Ok e, c') =>
      match cdc_step e bs with
      | Ok (Some out, bs') => Some (Some out, commit (event_id e) c', bs')
      | Ok (None, bs') => Some (None, c', bs')
      | _ => None
      end
  | _ => None
  end.

Fixpoint cdc_session (actions : list Action) (c : StateContainer (S := S)) (bs : InMemoryBatchStore)
    : option (list CdcEvent * StateContainer * InMemoryBatchStore) :=
  match actions with
  | [] => Some ([], c, bs)
  | a :: rest =>
      '(o, c', bs') ← cdc_action a c bs;
      '(out, c'', bs'') ← cdc_session rest c' bs';
      Some (match o with Some ev => ev :: out | None => out end, c'', bs'')
  end.

(** A restart: a rewind if one is needed, then the messages of the server. *)
Definition cdc_restart (retention : Z) (s : S) (messages : list Action) (bs : InMemoryBatchStore) :=
  let c := container_new s retention in
  cdc_session (if needs_rewind c then Rewind :: messages else messages) c bs.

(** ** Lemmas *)

Lemma seek_elem r bs l i :
  seek r bs = Ok l → i ∈ l ↔ is_Some (bs !! i) /\ range_start r <= i <= range_end r.
Proof.
  unfold seek. destruct (_ && _); [done|]. intros [= <-].
  rewrite sort_by_key_perm, list_elem_of_filter, list_elem_of_fmap. unfold range_contains.
  rewrite andb_true_iff, !Z.leb_le. split.
  - intros [Hr ([k x] & -> & Hk%elem_of_map_to_list)]. cbn in *. eauto.
  - intros [[x Hx] Hr]. split; [done|]. exists (i, x). split; [done|]. by apply elem_of_map_to_list.
Qed.

Lemma next_from_spec bs rest cur :
  match next_from bs rest cur with
  | (Some (i, b), n) => ∃ pre post, rest = pre ++ i :: post /\ n = (cur + length pre + 1)%nat
      /\ bs !! i = Some b /\ Forall (λ k, bs !! k = None) pre
  | (None, n) => Forall (λ k, bs !! k = None) rest
  end.
Proof.
  revert cur. induction rest as [|k rest IH]; intros cur; cbn [next_from]; [constructor|].
  unfold load. destruct (bs !! k) as [b|] eqn:E.
  - exists [], rest. cbn. split_and!; [done|lia|done|constructor].
  - specialize (IH (Datatypes.S cur)). destruct (next_from bs rest _) as [[[i b]|] n].
    + destruct IH as (pre & post & -> & -> & ? & ?). exists (k :: pre), post. cbn.
      split_and!; [done|lia|done|by constructor].
    + by constructor.
Qed.

Definition with_batches (bs : InMemoryBatchStore) (l : list TransactionId) : list (TransactionId * B) :=
  omap (λ i, (λ b, (i, b)) <$> bs !! i) l.

Lemma with_batches_none bs l : Forall (λ k, bs !! k = None) l → with_batches bs l = [].
Proof. induction 1 as [|k l Hk _ IH]; [done|]. unfold with_batches in *. cbn. by rewrite Hk. Qed.

Lemma with_batches_app bs l k : with_batches bs (l ++ k) = with_batches bs l ++ with_batches bs k.
Proof. apply omap_app. Qed.

Lemma drain_spec fuel bs it :
  (length (ids it) - current it < fuel)%nat →
  drain fuel bs it = with_batches bs (drop (current it) (ids it)).
Proof.
  revert it. induction fuel as [|fuel IH]; intros it Hf; [lia|]. cbn [drain]. unfold iterator_next.
  pose proof (next_from_spec bs (drop (current it) (ids it)) (current it)) as Hs.
  destruct (next_from bs _ _) as [[[i b]|] n].
  - destruct Hs as (pre & post & E & -> & Hb & Hpre).
    assert (drop (current it + length pre + 1) (ids it) = post) as Hdrop.
    { rewrite <- Nat.add_assoc, <- drop_drop, E, drop_app_add. done. }
    assert (length (ids it) - current it = length pre + Datatypes.S (length post))%nat as Hlen.
    { rewrite <- length_drop, E, length_app. done. }
    rewrite IH by (cbn; lia). cbn [ids current]. rewrite Hdrop, E, with_batches_app, (with_batches_none bs pre Hpre).
    unfold with_batches at 2. cbn. by rewrite Hb.
  - by rewrite with_batches_none.
Qed.

End Cdc.

(** The server sends a batch and then watermarks without data. *)
Definition quiet_messages : list (Action (B := string)) :=
  [Message (Data "a" [eth 1 4]); Message (WatermarkMsg [eth 1 4]);
   Message (WatermarkMsg [eth 5 8]); Message (WatermarkMsg [eth 9 12])].

(** What a consumer sees before a crash and after the restart, when the server
    sends the batch again. *)
Definition quiet_run (retention : Z) : option (list (CdcEvent (B := string)) * list (CdcEvent (B := string))) :=
  '(before, c, bs) ← cdc_session quiet_messages
                        (container_new (mkInMemory (mkSnapshot [] 0)) retention) ∅;
  '(after, _, _) ← cdc_restart retention (store c) [Message (Data "a" [eth 1 4])] bs;
  Some (before, after).

(** An undo is forwarded as the deletion of exactly the stored batches of its
    range, in the order of their transactions, and is not forwarded when there
    are none. But the batches are pruned when a watermark arrives, while that
    watermark is committed only with a later event: a crash in between rewinds
    past the pruned batches, and the consumer receives a batch a second time
    without the deletion of the first, which a longer retention would send. *)
Theorem cdc_undo_and_prune :
  (∀ (B : Type) i cause r (bs bs' : gmap Z B) o,
     cdc_step (EvUndo i cause r) bs = Ok (o, bs') →
     bs' = bs /\
     match o with
     | Some (Delete j it) => j = i /\
         let l := drain (Datatypes.S (length (ids it))) bs it in
         StronglySorted (λ x y, x.1 < y.1) l /\
         ∀ k b, (k, b) ∈ l ↔ bs !! k = Some b /\ range_start r <= k <= range_end r
     | Some (Insert _ _) => False
     | None => ∀ k, range_start r <= k <= range_end r → bs !! k = None
     end)
  /\ quiet_run 2 = Some ([Insert 0 "a"], [Insert 5 "a"])
  /\ quiet_run 100 = Some ([Insert 0 "a"], [Delete 4 (mkIterator [0] 0); Insert 5 "a"]).
Proof.
  split; [|split; vm_compute; reflexivity].
  intros B i cause r bs bs' o. cbn [cdc_step]. destruct (seek r bs) as [l|e| |] eqn:Es; [|done..].
  cbn [mbind comp_bind]. intros [= <- <-]. split; [done|].
  assert (∀ k, k ∈ l ↔ is_Some (bs !! k) /\ range_start r <= k <= range_end r) as Hl by (intros k; by apply seek_elem).
  assert (StronglySorted Z.lt l) as Hsort.
  { unfold seek in Es. destruct (_ && _); [done|]. injection Es as <-.
    pose proof (sort_by_key_sorted (λ i, i) (filter (λ i, range_contains r i = true) (map_to_list bs).*1)) as Hs.
    assert (NoDup (sort_by_key (λ i, i) (filter (λ i, range_contains r i = true) (map_to_list bs).*1))) as Hnd.
    { rewrite sort_by_key_perm. apply NoDup_filter, NoDup_fst_map_to_list. }
    clear Hl. induction Hs as [|x l Hs IH Hx]; [constructor|]. apply NoDup_cons in Hnd as [Hn Hnd].
    constructor; [auto|]. rewrite Forall_forall in Hx |- *. intros y Hy. specialize (Hx y Hy).
    unfold key_le in Hx. destruct (decide (x = y)) as [->|]; [done|lia]. }
  destruct l as [|k0 l0].
  - intros k Hk. apply eq_None_not_Some. intros Hsome. apply (elem_of_nil k), Hl. done.
  - split; [done|]. cbn zeta. rewrite drain_spec by (cbn; lia). cbn [ids current]. rewrite drop_0.
    set (l := k0 :: l0) in *. clearbody l. split.
    + assert (Forall (λ k, is_Some (bs !! k)) l) as Hall by (apply Forall_forall; intros k Hk; by apply Hl).
      clear Hl Es. induction Hsort as [|x l Hs IH Hx]; [constructor|].
      apply list.Forall_cons in Hall as [[b Hb] Hall]. unfold with_batches in *. cbn. rewrite Hb. cbn.
      constructor; [auto|]. rewrite Forall_forall in Hx. apply Forall_forall. intros [y c] Hy.
      apply list_elem_of_omap in Hy as (z & Hz & E). destruct (bs !! z); [|done]. injection E as <- <-.
      cbn. by apply Hx.
    + intros k b. unfold with_batches. rewrite list_elem_of_omap. split.
      * intros (z & Hz & E). apply Hl in Hz as [_ Hr]. destruct (bs !! z) eqn:Ez; [|done]. by injection E as <- <-.
      * intros [Hb Hr]. exists k. rewrite Hb. split; [|done]. apply Hl. split; [eauto|done].
Qed.
