(* ===== verification/ClientStores.v ===== *)
(** * ClientStores

    The persistent stores of the client (client/src/store/postgres.rs,
    store/lmdb.rs) against the contracts the streams rely on: the state stores of
    PostgreSQL and LMDB implement [StateStore] of Transactional, and the batch
    store of LMDB, whose keys are big-endian identifiers, answers as the one in
    memory of Cdc. The serialisers (serde_json, Arrow IPC) are parameters that
    read back what they write; LMDB is a map iterated in the order of its keys.
    Errors of the connection or the environment, which leave the database as it
    is, are left out. *)

From stdpp Require Import base numbers gmap strings option fin_maps list sorting.
From Stdlib Require Import ZArith Lia.
From S2P Require Import Prelude Ranges BlockRange Client Transactional Cdc.

(** ** PostgreSQL *)

(** A JSON library that reads back the ranges it writes. *)
Class RangesCodec (Json : Type) := {
  to_value : list BlockRange → Json;
  from_value : Json → option (list BlockRange);
  from_to_value rs : from_value (to_value rs) = Some rs
}.

Section Postgres.
Context {Json : Type} `{RangesCodec Json}.

Inductive PostgresError :=
  | StreamNotFound (stream_id : string)
  | NextTransactionIdLoad
  | BlockRangesDeserialization
  | BufferEntryInsert.

(** The tables [amp_client_state] and [amp_client_buffer_entries] by their
    primary keys. *)
Record Database := mkDatabase {
  client_state : gmap string Z;
  buffer_entries : gmap (string * Z) Json
}.

Record PostgresStateStore := mkPostgres { pool : Database; stream_id : string }.

(** [initialize]: INSERT ... ON CONFLICT DO NOTHING *)
Definition initialize (s : PostgresStateStore) : PostgresStateStore :=
  let d := pool s in
  match client_state d !! stream_id s with
  | Some _ => s
  | None => mkPostgres (mkDatabase (<[stream_id s := 0]> (client_state d)) (buffer_entries d)) (stream_id s)
  end.

Definition postgres_new (d : Database) (id : string) : PostgresStateStore := initialize (mkPostgres d id).

Definition pg_advance (next : TransactionId) : stm PostgresStateStore PostgresError unit := λ s,
  let d := pool s in
  match client_state d !! stream_id s with
  | Some _ =>
      (Ok tt, mkPostgres (mkDatabase (<[stream_id s := to_i64 next]> (client_state d)) (buffer_entries d))
                (stream_id s))
  | None => (Err (StreamNotFound (stream_id s)), s)
  end.

(** DELETE ... WHERE stream_id = $1 AND a condition on [transaction_id] *)
Definition delete_entries (id : string) (cond : Z → bool) (entries : gmap (string * Z) Json)
  : gmap (string * Z) Json :=
  filter (λ e, ((e.1.1 =? id)%string && cond e.1.2) = false) entries.

Definition pg_truncate (from : TransactionId) : stm PostgresStateStore PostgresError unit := λ s,
  (Ok tt, mkPostgres (mkDatabase (client_state (pool s))
            (delete_entries (stream_id s) (λ i, to_i64 from <=? i) (buffer_entries (pool s)))) (stream_id s)).

(** INSERT ... ON CONFLICT DO NOTHING; the stream is a foreign key. *)
Definition insert_entry (d : Database) (id : string) (e : TransactionId * list BlockRange)
    (entries : gmap (string * Z) Json) : comp PostgresError (gmap (string * Z) Json) :=
  match client_state d !! id, entries !! (id, to_i64 e.1) with
  | None, _ => Err BufferEntryInsert
  | Some _, Some _ => Ok entries
  | Some _, None => Ok (<[(id, to_i64 e.1) := to_value e.2]> entries)
  end.

Fixpoint insert_entries (d : Database) (id : string) (es : list (TransactionId * list BlockRange))
    (entries : gmap (string * Z) Json) : comp PostgresError (gmap (string * Z) Json) :=
  match es with
  | [] => Ok entries
  | e :: es => entries ← insert_entry d id e entries; insert_entries d id es entries
  end.

(** One transaction. *)
Definition pg_commit (c : Commit) : stm PostgresStateStore PostgresError unit := λ s,
  let d := pool s in
  let pruned := match prune c with
                | Some p => delete_entries (stream_id s) (λ i, i <=? to_i64 p) (buffer_entries d)
                | None => buffer_entries d
                end in
  match insert_entries d (stream_id s) (insert c) pruned with
  | Ok entries => (Ok tt, mkPostgres (mkDatabase (client_state d) entries) (stream_id s))
  | Err e => (Err e, s)
  | Panic => (Panic, s)
  | OutOfFuel => (OutOfFuel, s)
  end.

(** SELECT ... WHERE stream_id = $1 ORDER BY transaction_id ASC *)
Definition select_entries (id : string) (entries : gmap (string * Z) Json) : list (Z * Json) :=
  sort_by_key fst
    (omap (λ e : (string * Z) * Json, if (e.1.1 =? id)%string then Some (e.1.2, e.2) else None)
       (map_to_list entries)).

Definition decode_entry (e : Z * Json) : comp PostgresError (TransactionId * list BlockRange) :=
  rs ← ok_or (from_value e.2) BlockRangesDeserialization; Ok (wrap64 e.1, rs).

Definition pg_load (s : PostgresStateStore) : comp PostgresError StateSnapshot :=
  next ← ok_or (client_state (pool s) !! stream_id s) NextTransactionIdLoad;
  buffer ← mapM decode_entry (select_entries (stream_id s) (buffer_entries (pool s)));
  Ok (mkSnapshot buffer (wrap64 next)).
End Postgres.

(** ** LMDB *)

Class SnapshotCodec := {
  snapshot_to_vec : StateSnapshot → bytes;
  snapshot_from_slice : bytes → option StateSnapshot;
  snapshot_from_to s : snapshot_from_slice (snapshot_to_vec s) = Some s
}.

Class BatchCodec (B : Type) := {
  serialize_batch : B → bytes;
  deserialize_batch : bytes → option B;
  deserialize_serialize b : deserialize_batch (serialize_batch b) = Some b
}.

Inductive LmdbError := JsonError | BatchReadError | InvalidTransactionIdKeyLength.

Section LmdbState.
Context `{SnapshotCodec}.

(** The value of the key [snapshot]. *)
Record LmdbStateStore := mkLmdbState { snapshot : option bytes }.

Definition read_state (s : LmdbStateStore) : comp LmdbError StateSnapshot :=
  match snapshot s with
  | Some bs => ok_or (snapshot_from_slice bs) JsonError
  | None => Ok (mkSnapshot [] 0)
  end.

Definition write_state (st : StateSnapshot) (s : LmdbStateStore) : LmdbStateStore :=
  mkLmdbState (Some (snapshot_to_vec st)).

(** Read, change, write. *)
Definition change_state (f : StateSnapshot → StateSnapshot) : stm LmdbStateStore LmdbError unit := λ s,
  match read_state s with
  | Ok st => (Ok tt, write_state (f st) s)
  | Err e => (Err e, s)
  | Panic => (Panic, s)
  | OutOfFuel => (OutOfFuel, s)
  end.

Definition lmdb_advance (next : TransactionId) : stm LmdbStateStore LmdbError unit :=
  change_state (λ st, mkSnapshot (snap_buffer st) next).

Definition lmdb_commit (c : Commit) : stm LmdbStateStore LmdbError unit :=
  change_state (λ st,
    let kept := match prune c with
                | Some p => filter (λ e, p < e.1) (snap_buffer st)
                | None => snap_buffer st
                end in
    mkSnapshot (foldl (λ b e, b ++ [e]) kept (insert c)) (snap_next st)).

Definition lmdb_truncate (from : TransactionId) : stm LmdbStateStore LmdbError unit :=
  change_state (λ st, mkSnapshot (filter (λ e, e.1 < from) (snap_buffer st)) (snap_next st)).
End LmdbState.

(** *** Batches *)

(** The order of byte strings. *)
Fixpoint bytes_lt (a b : bytes) : bool :=
  match a, b with
  | _, [] => false
  | [], _ :: _ => true
  | x :: a', y :: b' => (x <? y) || ((x =? y) && bytes_lt a' b')
  end.

Definition encode_id (id : TransactionId) : bytes := be 8 id.

Definition decode_id (bs : bytes) : comp LmdbError TransactionId :=
  if (length bs =? 8)%nat then Ok (from_be bs) else Err InvalidTransactionIdKeyLength.

Section LmdbBatches.
Context {B : Type} `{BatchCodec B}.

(** An LMDB database: its entries in the order of their keys. *)
Abbreviation LmdbDatabase := (list (bytes * bytes)).

(** [Database::put] *)
Fixpoint put (key value : bytes) (db : LmdbDatabase) : LmdbDatabase :=
  match db with
  | [] => [(key, value)]
  | (k, v) :: rest =>
      if bytes_lt key k then (key, value) :: db
      else if bytes_lt k key then (k, v) :: put key value rest
      else (key, value) :: rest
  end.

Fixpoint get (key : bytes) (db : LmdbDatabase) : option bytes :=
  match db with
  | [] => None
  | (k, v) :: rest => if decide (k = key) then Some v else get key rest
  end.

Definition delete_key (key : bytes) (db : LmdbDatabase) : LmdbDatabase :=
  filter (λ e, e.1 ≠ key) db.

Definition lmdb_append (batch : B) (id : TransactionId) (db : LmdbDatabase) : LmdbDatabase :=
  put (encode_id id) (serialize_batch batch) db.

(** The loop of [seek]. *)
Fixpoint seek_loop (start_key end_key : bytes) (entries : LmdbDatabase)
    : comp LmdbError (list TransactionId) :=
  match entries with
  | [] => Ok []
  | (key, _) :: rest =>
      if bytes_lt key start_key then seek_loop start_key end_key rest
      else if bytes_lt end_key key then Ok []
      else
        id ← decode_id key;
        ids ← seek_loop start_key end_key rest;
        Ok (id :: ids)
  end.

Definition lmdb_seek (range : RangeInclusive) (db : LmdbDatabase) : comp LmdbError (list TransactionId) :=
  seek_loop (encode_id (range_start range)) (encode_id (range_end range)) db.

Definition lmdb_load (id : TransactionId) (db : LmdbDatabase) : comp LmdbError (option B) :=
  match get (encode_id id) db with
  | Some bs => batch ← ok_or (deserialize_batch bs) BatchReadError; Ok (Some batch)
  | None => Ok None
  end.

(** The keys up to the cutoff are collected, then deleted. *)
Fixpoint keys_to_delete (cutoff_key : bytes) (entries : LmdbDatabase) : list bytes :=
  match entries with
  | [] => []
  | (key, _) :: rest =>
      if bytes_lt cutoff_key key then [] else key :: keys_to_delete cutoff_key rest
  end.

Definition lmdb_prune (cutoff : TransactionId) (db : LmdbDatabase) : LmdbDatabase :=
  foldl (λ db key, delete_key key db) db (keys_to_delete (encode_id cutoff) db).
End LmdbBatches.

(** ** The contract of the PostgreSQL store *)

Section PostgresCorrect.
Context {Json : Type} `{RangesCodec Json}.

#[local] Abbreviation Store := (PostgresStateStore (Json := Json)).
#[local] Abbreviation Entries := (gmap (string * Z) Json).
#[local] Abbreviation before := (λ x y : TransactionId * list BlockRange, x.1 < y.1).

(** The row of the stream exists, and its entries were written by the store. *)
Definition entries_valid (id : string) (entries : Entries) : Prop :=
  ∀ i j, entries !! (id, i) = Some j → 0 <= i <= i64_max /\ is_Some (from_value j).

Definition pg_valid (s : Store) : Prop :=
  (∃ n, client_state (pool s) !! stream_id s = Some n /\ 0 <= n <= i64_max) /\
  entries_valid (stream_id s) (buffer_entries (pool s)).

(** The buffer a stream's entries stand for. *)
Definition loaded (id : string) (entries : Entries) (b : list (TransactionId * list BlockRange)) : Prop :=
  StronglySorted before b /\
  ∀ i rs, (i, rs) ∈ b ↔ ∃ j, entries !! (id, i) = Some j /\ from_value j = Some rs.

Lemma sorted_NoDup (b : list (TransactionId * list BlockRange)) : StronglySorted before b → NoDup b.
Proof.
  induction 1 as [|x b _ IH Hx]; constructor; [|done]. intros Hin. rewrite Forall_forall in Hx.
  apply Hx in Hin. lia.
Qed.

Lemma loaded_unique id entries b1 b2 : loaded id entries b1 → loaded id entries b2 → b1 = b2.
Proof.
  intros [Hs1 Hb1] [Hs2 Hb2].
  assert (Hanti : AntiSymm (=) before) by (intros x y Hx Hy; cbn in *; lia).
  apply (StronglySorted_unique before); [done..|].
  apply NoDup_Permutation; [by apply sorted_NoDup..|]. intros [i rs]. by rewrite Hb1, Hb2.
Qed.

Lemma select_elem (id : string) (entries : Entries) i j :
  (i, j) ∈ select_entries id entries ↔ entries !! (id, i) = Some j.
Proof.
  unfold select_entries. rewrite sort_by_key_perm, list_elem_of_omap. split.
  - intros ([[id' i'] j'] & Hin%elem_of_map_to_list & He). cbn in He.
    destruct (String.eqb_spec id' id) as [->|]; [by simplify_eq|done].
  - intros Hj. exists (id, i, j). cbn. rewrite String.eqb_refl. split; [by apply elem_of_map_to_list|done].
Qed.

Lemma select_sorted (id : string) (entries : Entries) :
  StronglySorted (λ x y, x.1 < y.1) (select_entries id entries).
Proof.
  assert (Hnd : NoDup (select_entries id entries).*1).
  { unfold select_entries. rewrite sort_by_key_perm.
    pose proof (NoDup_fst_map_to_list entries) as Hm. induction (map_to_list entries) as [|[[id' i'] j'] l IH];
      [constructor|]. apply NoDup_cons in Hm as [Hl Hm]. cbn. destruct (String.eqb_spec id' id) as [->|]; [|by apply IH].
    cbn. constructor; [|by apply IH]. intros ([i j] & -> & Hin)%list_elem_of_fmap. apply Hl.
    apply list_elem_of_omap in Hin as ([[id' i''] j''] & Hin & He). cbn in He.
    destruct (String.eqb_spec id' id) as [->|]; [|done]. injection He as -> ->.
    apply list_elem_of_fmap. by exists (id, i, j). }
  pose proof (sort_by_key_sorted fst (omap (λ e : (string * Z) * Json,
    if (e.1.1 =? id)%string then Some (e.1.2, e.2) else None) (map_to_list entries))) as Hs.
  fold (select_entries id entries) in Hs. induction Hs as [|x l Hs IH Hx]; [constructor|].
  apply NoDup_cons in Hnd as [Hn Hnd]. constructor; [by apply IH|].
  rewrite Forall_forall in Hx |- *. intros y Hy. specialize (Hx y Hy). unfold key_le in Hx.
  assert (x.1 ≠ y.1); [|lia]. intros Heq. apply Hn. rewrite Heq. by apply list_elem_of_fmap_2.
Qed.

Lemma load_loaded s :
  pg_valid s →
  ∃ b n, pg_load s = Ok (mkSnapshot b n) /\ loaded (stream_id s) (buffer_entries (pool s)) b /\
    client_state (pool s) !! stream_id s = Some n.
Proof.
  intros [(n & Hn & Hrange) Hv]. unfold pg_load. rewrite Hn. cbn [ok_or mbind comp_bind].
  rewrite wrap64_small by (unfold is_u64, u64_max, i64_max in *; lia).
  pose proof (select_elem (stream_id s) (buffer_entries (pool s))) as Hel.
  pose proof (select_sorted (stream_id s) (buffer_entries (pool s))) as Hs.
  set (rows := select_entries _ _) in *.
  assert (∃ b, mapM decode_entry rows = Ok b /\ StronglySorted before b /\
    ∀ i rs, (i, rs) ∈ b ↔ ∃ j, (i, j) ∈ rows /\ from_value j = Some rs) as (b & Hb & Hsb & Hin).
  { assert (Hrows : ∀ i j, (i, j) ∈ rows → 0 <= i <= i64_max /\ is_Some (from_value j)).
    { intros i j Hij%Hel. by eapply Hv. }
    clear Hel. induction Hs as [|[i j] l Hs IH Hx].
    - exists []. split; [done|]. split; [constructor|]. intros i rs. split; [by intros ?%elem_of_nil|].
      by intros (j & ?%elem_of_nil & _).
    - destruct IH as (b & Hb & Hsb & Hin); [intros i' j' Hl; apply Hrows; by right|].
      destruct (Hrows i j) as [Hi [rs Hrs]]; [by left|].
      exists ((i, rs) :: b). split; [|split].
      + rewrite mapM_cons, Hb. unfold decode_entry. cbn [fst snd]. rewrite Hrs. cbn.
        by rewrite wrap64_small by (unfold is_u64, u64_max, i64_max in *; lia).
      + constructor; [done|]. apply Forall_forall. intros [i' rs'] (j' & Hj' & _)%Hin.
        rewrite Forall_forall in Hx. by apply (Hx (i', j')).
      + intros i' rs'. rewrite elem_of_cons, Hin. split.
        * intros [[= -> ->]|(j' & Hj' & Hr)]; [exists j; split; [by left|done]|exists j'; split; [by right|done]].
        * intros (j' & [[= -> ->]|Hj']%elem_of_cons & Hr); [left; by rewrite Hrs in Hr; injection Hr as ->|].
          right. by exists j'. }
  exists b, n. split; [by rewrite Hb|]. split; [|done]. split; [done|].
  intros i rs. rewrite Hin. by setoid_rewrite Hel.
Qed.

(** What the store is loaded as, from the entries. *)
Lemma load_is s b n :
  pg_valid s → loaded (stream_id s) (buffer_entries (pool s)) b →
  client_state (pool s) !! stream_id s = Some n → pg_load s = Ok (mkSnapshot b n).
Proof.
  intros Hv Hb Hn. destruct (load_loaded s Hv) as (b' & n' & Hl & Hb' & Hn').
  rewrite Hn in Hn'. injection Hn' as ->. by rewrite (loaded_unique _ _ _ _ Hb Hb').
Qed.

Lemma loaded_filter id entries b (P : TransactionId * list BlockRange → Prop) `{∀ x, Decision (P x)} cond :
  (∀ i rs, 0 <= i <= i64_max → P (i, rs) ↔ cond i = false) →
  entries_valid id entries → loaded id entries b →
  loaded id (delete_entries id cond entries) (filter P b) /\
  entries_valid id (delete_entries id cond entries).
Proof.
  intros HP Hv [Hs Hb]. unfold delete_entries.
  assert (Hlook : ∀ i j, filter (λ e, ((e.1.1 =? id)%string && cond e.1.2) = false) entries !! (id, i) = Some j ↔
    entries !! (id, i) = Some j /\ cond i = false).
  { intros i j. rewrite map_lookup_filter_Some. cbn. by rewrite String.eqb_refl. }
  split.
  - split.
    + clear Hb. induction Hs as [|x l Hs IH Hx]; [constructor|]. rewrite filter_cons. destruct (decide (P x)); [|done].
      constructor; [done|]. rewrite Forall_forall in Hx |- *. intros y [_ Hy]%list_elem_of_filter. by apply Hx.
    + intros i rs. rewrite list_elem_of_filter, Hb. setoid_rewrite Hlook. split.
      * intros (Hi & j & Hj & Hr). exists j. split; [|done]. split; [done|].
        apply (HP i rs); [by eapply Hv|done].
      * intros (j & [Hj Hc] & Hr). split; [|by exists j]. apply HP; [by eapply Hv|done].
  - intros i j [Hj _]%Hlook. by apply Hv.
Qed.

Lemma insert_entries_loaded d id es entries b :
  is_Some (client_state d !! id) → entries_valid id entries → loaded id entries b →
  ids_ok (i64_max + 1) (b ++ es) →
  ∃ entries', insert_entries d id es entries = Ok entries' /\ entries_valid id entries' /\
    loaded id entries' (b ++ es).
Proof.
  intros [n Hn]. revert entries b. induction es as [|[i rs] es IH]; intros entries b Hv Hb Hids.
  { exists entries. by rewrite app_nil_r. }
  destruct Hids as [Hs Hf]. assert (Hi : 0 <= i <= i64_max).
  { rewrite Forall_forall in Hf. enough (0 <= i < i64_max + 1) by lia.
    apply (Hf (i, rs)), elem_of_app. right. by left. }
  assert (Hnone : entries !! (id, i) = None).
  { destruct (entries !! (id, i)) as [j|] eqn:Ej; [|done]. destruct (Hv _ _ Ej) as [_ [rs' Hrs']].
    assert ((i, rs') ∈ b) as Hin by (apply Hb; by exists j).
    pose proof (StronglySorted_app_1_elem_of _ _ _ (i, rs') (i, rs) Hs Hin ltac:(by left)). cbn in *. lia. }
  replace (b ++ (i, rs) :: es) with ((b ++ [(i, rs)]) ++ es) in * by by rewrite <- app_assoc.
  cbn [insert_entries]. unfold insert_entry at 1. cbn [fst snd]. rewrite Hn, to_i64_id, Hnone by done.
  cbn [mbind comp_bind]. apply IH; [..|by split].
  - intros i' j'. destruct (decide (i' = i)) as [->|Hne].
    + rewrite lookup_insert_eq. intros [= <-]. split; [done|]. rewrite from_to_value. by eexists.
    + rewrite lookup_insert_ne by congruence. apply Hv.
  - split; [by eapply StronglySorted_app_1_l|]. intros i' rs'. destruct Hb as [_ Hb].
    rewrite elem_of_app, list_elem_of_singleton, Hb. destruct (decide (i' = i)) as [->|Hne].
    + rewrite lookup_insert_eq, Hnone. split.
      * intros [(j & ? & _)|[= ->]]; [done|]. exists (to_value rs). by rewrite from_to_value.
      * intros (j & [= <-] & Hr). right. rewrite from_to_value in Hr. by injection Hr as ->.
    + rewrite lookup_insert_ne by congruence. split; [intros [?|[= ]]; done|by left].
Qed.

Lemma pg_advance_correct n s :
  pg_valid s → 0 <= n <= i64_max →
  ∃ s', pg_advance n s = (Ok tt, s') /\ pg_valid s' /\
    ∀ b n0, pg_load s = Ok (mkSnapshot b n0) → pg_load s' = Ok (mkSnapshot b n).
Proof.
  intros Hv Hn. pose proof Hv as [(n0 & Hn0 & Hr) He]. unfold pg_advance. rewrite Hn0, to_i64_id by done.
  eexists. split; [done|]. set (s' := mkPostgres _ _).
  assert (Hv' : pg_valid s').
  { split; [|done]. exists n. split; [apply lookup_insert_eq|done]. }
  split; [done|]. intros b n1 Hl. destruct (load_loaded s Hv) as (b' & n' & Hl' & Hb' & _).
  rewrite Hl in Hl'. injection Hl' as <- <-. apply load_is; [done|exact Hb'|apply lookup_insert_eq].
Qed.

Lemma pg_truncate_correct n s :
  pg_valid s → 0 <= n <= i64_max →
  ∃ s', pg_truncate n s = (Ok tt, s') /\ pg_valid s' /\
    ∀ b n0, pg_load s = Ok (mkSnapshot b n0) →
    pg_load s' = Ok (mkSnapshot (filter (λ e, e.1 < n) b) n0).
Proof.
  intros Hv Hn. eexists. split; [done|]. set (s' := mkPostgres _ _).
  destruct (load_loaded s Hv) as (b & n0 & Hl & Hb & Hn0). destruct Hv as [Hst He].
  destruct (loaded_filter (stream_id s) (buffer_entries (pool s)) b (λ e, e.1 < n) (λ i, to_i64 n <=? i))
    as [Hb' He']; [|done..|].
  { intros i rs Hi. cbn. rewrite to_i64_id, Z.leb_gt by done. done. }
  assert (Hv' : pg_valid s') by (split; done).
  split; [done|]. intros b1 n1 Hl1. rewrite Hl in Hl1. injection Hl1 as <- <-. by apply load_is.
Qed.

Lemma pg_commit_correct c s b n :
  pg_valid s → pg_load s = Ok (mkSnapshot b n) →
  (∀ p, prune c = Some p → 0 <= p <= i64_max) →
  ids_ok (i64_max + 1) (retain_after (prune c) b ++ insert c) →
  ∃ s', pg_commit c s = (Ok tt, s') /\ pg_valid s' /\
    pg_load s' = Ok (mkSnapshot (retain_after (prune c) b ++ insert c) n).
Proof.
  intros Hv Hl Hp Hids. destruct (load_loaded s Hv) as (b' & n' & Hl' & Hb & Hn).
  rewrite Hl in Hl'. injection Hl' as <- <-. destruct Hv as [Hst He]. unfold pg_commit.
  set (pruned := match prune c with Some _ => _ | None => _ end).
  assert (loaded (stream_id s) pruned (retain_after (prune c) b) /\ entries_valid (stream_id s) pruned) as [Hb' He'].
  { subst pruned. destruct (prune c) as [p|]; cbn [retain_after]; [|done].
    apply loaded_filter; [|done..]. intros i rs Hi. cbn. rewrite to_i64_id, Z.leb_gt by auto. done. }
  destruct (insert_entries_loaded (pool s) (stream_id s) (insert c) pruned _ ltac:(by eexists) He' Hb' Hids)
    as (entries' & -> & Hv' & Hl').
  eexists. split; [done|]. set (s' := mkPostgres _ _). assert (pg_valid s') by (split; done).
  split; [done|]. by apply load_is.
Qed.

End PostgresCorrect.

#[global] Instance postgres_store {Json} `{RangesCodec Json} : StateStore (PostgresStateStore (Json := Json)).
Proof.
  refine {| store_id_max := i64_max; store_valid := pg_valid;
            store_advance := λ n s, (pg_advance n s).2; store_commit := λ c s, (pg_commit c s).2;
            store_truncate := λ n s, (pg_truncate n s).2;
            store_load := λ s, match pg_load s with Ok st => st | _ => mkSnapshot [] 0 end |}; [done|..].
  - intros n s Hv Hn. destruct (load_loaded s Hv) as (b & n0 & Hl & _).
    destruct (pg_advance_correct n s Hv Hn) as (s' & -> & Hv' & Hl'). split; [done|].
    cbn [snd]. by rewrite Hl, (Hl' _ _ Hl).
  - intros c s Hv Hp Hids. destruct (load_loaded s Hv) as (b & n0 & Hl & _).
    rewrite Hl in Hids |- *. destruct (pg_commit_correct c s b n0 Hv Hl Hp Hids) as (s' & -> & Hv' & Hl').
    split; [done|]. cbn [snd]. by rewrite Hl'.
  - intros n s Hv Hn. destruct (load_loaded s Hv) as (b & n0 & Hl & _).
    destruct (pg_truncate_correct n s Hv Hn) as (s' & -> & Hv' & Hl'). split; [done|].
    cbn [snd]. by rewrite Hl, (Hl' _ _ Hl).
Defined.

(** A new stream starts with nothing, and [new] keeps what an old one has. *)
Lemma postgres_new_valid {Json} `{RangesCodec Json} (d : Database (Json := Json)) id :
  client_state d !! id = None → (∀ i, buffer_entries d !! (id, i) = None) →
  pg_valid (postgres_new d id) /\ pg_load (postgres_new d id) = Ok (mkSnapshot [] 0).
Proof.
  intros Hn He. unfold postgres_new, initialize. cbn. rewrite Hn.
  set (s := mkPostgres _ _). assert (Hv : pg_valid s).
  { split; [exists 0; split; [apply lookup_insert_eq|done]|]. intros i j. cbn. by rewrite He. }
  split; [done|]. apply load_is; [done| |apply lookup_insert_eq].
  split; [constructor|]. intros i rs. split; [by intros ?%elem_of_nil|]. intros (j & Hj & _). cbn in Hj. by rewrite He in Hj.
Qed.

(** ** Streams in one database *)

Section Streams.
Context {Json : Type} `{RangesCodec Json}.

#[local] Abbreviation Store := (PostgresStateStore (Json := Json)).

Inductive StoreOp := SAdvance (next : TransactionId) | SCommit (c : Commit) | STruncate (from : TransactionId).

Definition pg_op (o : StoreOp) : stm Store PostgresError unit :=
  match o with SAdvance n => pg_advance n | SCommit c => pg_commit c | STruncate n => pg_truncate n end.

Definition memory_store_op (s : InMemoryStateStore) (o : StoreOp) : InMemoryStateStore :=
  match o with SAdvance n => memory_advance n s | SCommit c => memory_commit c s | STruncate n => memory_truncate n s end.

(** What the state container asks for: identifiers of 63 bits, and buffers in
    their order. *)
Definition op_fits (s : InMemoryStateStore) (o : StoreOp) : Prop :=
  match o with
  | SAdvance n | STruncate n => 0 <= n <= i64_max
  | SCommit c =>
      (∀ p, prune c = Some p → 0 <= p <= i64_max) /\
      ids_ok (i64_max + 1) (retain_after (prune c) (snap_buffer (state s)) ++ insert c)
  end.

Fixpoint ops_fit (s : InMemoryStateStore) (ops : list StoreOp) : Prop :=
  match ops with [] => True | o :: rest => op_fits s o /\ ops_fit (memory_store_op s o) rest end.

Lemma pg_op_as_memory o s m :
  pg_valid s → pg_load s = Ok (state m) → op_fits m o →
  ∃ s', pg_op o s = (Ok tt, s') /\ pg_valid s' /\ pg_load s' = Ok (state (memory_store_op m o)).
Proof.
  intros Hv Hl Hfit. destruct m as [[b n]]. destruct o as [k|c|k]; cbn in Hfit, Hl |- *.
  - destruct (pg_advance_correct k s Hv Hfit) as (s' & -> & Hv' & Hl'). exists s'. split; [done|]. split; [done|].
    by apply (Hl' _ _ Hl).
  - destruct Hfit as [Hp Hids]. destruct (pg_commit_correct c s b n Hv Hl Hp Hids) as (s' & -> & Hv' & Hl').
    exists s'. split; [done|]. split; [done|]. rewrite Hl', foldl_snoc. by destruct (prune c).
  - destruct (pg_truncate_correct k s Hv Hfit) as (s' & -> & Hv' & Hl'). exists s'. split; [done|]. split; [done|].
    by apply (Hl' _ _ Hl).
Qed.

(** Two databases in which a stream has the same rows. *)
Definition same_stream (id : string) (d d' : Database (Json := Json)) : Prop :=
  client_state d' !! id = client_state d !! id /\
  ∀ i, buffer_entries d' !! (id, i) = buffer_entries d !! (id, i).

Lemma same_stream_load id d d' : same_stream id d d' → pg_load (mkPostgres d' id) = pg_load (mkPostgres d id).
Proof.
  intros [Hst He]. unfold pg_load. cbn [pool stream_id]. rewrite Hst.
  replace (select_entries id (buffer_entries d')) with (select_entries id (buffer_entries d)); [done|].
  assert (Hanti : AntiSymm (=) (λ x y : Z * Json, x.1 < y.1)) by (intros x y Hx Hy; cbn in *; lia).
  assert (Hnd : ∀ l : list (Z * Json), StronglySorted (λ x y, x.1 < y.1) l → NoDup l).
  { induction 1 as [|x l _ IH Hx]; constructor; [|done]. intros Hin. rewrite Forall_forall in Hx. apply Hx in Hin. lia. }
  apply (StronglySorted_unique (λ x y : Z * Json, x.1 < y.1)); [apply select_sorted..|].
  apply NoDup_Permutation; [apply Hnd, select_sorted..|]. intros [i j]. by rewrite !select_elem, He.
Qed.

Lemma insert_entries_others d id es entries entries' id' i :
  id' ≠ id → insert_entries d id es entries = Ok entries' → entries' !! (id', i) = entries !! (id', i).
Proof.
  intros Hne. revert entries. induction es as [|e es IH]; intros entries; cbn; [by intros [= ->]|].
  unfold insert_entry. destruct (client_state d !! id); [|done].
  destruct (entries !! (id, to_i64 e.1)); cbn; [by apply IH|].
  intros ->%IH. apply lookup_insert_ne. congruence.
Qed.

Lemma delete_entries_others (id : string) (cond : Z → bool) (entries : gmap (string * Z) Json) (id' : string) (i : Z) :
  id' ≠ id → delete_entries id cond entries !! (id', i) = entries !! (id', i).
Proof.
  intros Hne. unfold delete_entries. rewrite map_lookup_filter. destruct (entries !! (id', i)); [|done]. cbn.
  rewrite option_guard_True; [done|]. by rewrite (proj2 (String.eqb_neq _ _)).
Qed.

Lemma pg_op_others o s r s' :
  pg_op o s = (r, s') →
  stream_id s' = stream_id s /\ ∀ id, id ≠ stream_id s → same_stream id (pool s) (pool s').
Proof.
  intros Hop. destruct o as [n|c|n]; cbn in Hop.
  - unfold pg_advance in Hop. destruct (client_state (pool s) !! stream_id s); injection Hop as <- <-; [|done].
    split; [done|]. intros id Hne. split; [by apply lookup_insert_ne|done].
  - unfold pg_commit in Hop. set (pruned := match prune c with Some _ => _ | None => _ end) in *.
    destruct (insert_entries _ _ _ _) as [entries'|e| |] eqn:E; injection Hop as <- <-; try done.
    split; [done|]. intros id Hne. split; [done|]. intros i. cbn. rewrite (insert_entries_others _ _ _ _ _ _ _ Hne E).
    subst pruned. destruct (prune c); [by apply delete_entries_others|done].
  - injection Hop as <- <-. split; [done|]. intros id Hne. split; [done|]. intros i. by apply delete_entries_others.
Qed.

(** C37: The PostgreSQL store is the store in memory. For a stream that is new in
    the database, and any operations that keep the identifiers increasing and
    within 63 bits, as those of the client do: every operation succeeds, the
    store is loaded as the state the store in memory has after the same
    operations (the buffer in its order, although it is kept as rows by
    transaction), and what every other stream of the database is loaded as is
    what it was. *)
Theorem postgres_store_as_memory (d : Database (Json := Json)) id ops :
  client_state d !! id = None → (∀ i, buffer_entries d !! (id, i) = None) →
  let m := mkInMemory (mkSnapshot [] 0) in
  ops_fit m ops →
  ∃ s, for_each pg_op ops (postgres_new d id) = (Ok tt, s) /\
    pg_load s = Ok (state (foldl memory_store_op m ops)) /\
    ∀ id', id' ≠ id → pg_load (mkPostgres (pool s) id') = pg_load (mkPostgres d id').
Proof.
  intros Hn He m. destruct (postgres_new_valid d id Hn He) as [Hv Hl].
  assert (Hothers : ∀ id', id' ≠ id → pg_load (mkPostgres (pool (postgres_new d id)) id') = pg_load (mkPostgres d id')).
  { intros id' Hne. apply same_stream_load. unfold postgres_new, initialize. cbn. rewrite Hn. cbn.
    split; [by apply lookup_insert_ne|done]. }
  assert (Hid : stream_id (postgres_new d id) = id) by (unfold postgres_new, initialize; cbn; by rewrite Hn).
  revert Hv Hl Hothers Hid. change (mkSnapshot [] 0) with (state m). generalize (postgres_new d id) as s. clear Hn He.
  generalize m as mem. clear m. induction ops as [|o ops IH]; intros mem s Hv Hl Hothers Hid Hfit; [by exists s|].
  destruct Hfit as [Ho Hfit]. destruct (pg_op_as_memory o s mem Hv Hl Ho) as (s1 & E & Hv1 & Hl1).
  destruct (pg_op_others _ _ _ _ E) as [Hid1 Hsame]. rewrite Hid in Hid1, Hsame.
  destruct (IH (memory_store_op mem o) s1 Hv1 Hl1) as (s' & Hrun & Hl' & Hoth'); [|done|done|].
  - intros id' Hne. rewrite <- Hothers by done. by apply same_stream_load, Hsame.
  - exists s'. split; [|done]. cbn. unfold mbind, stm_bind. by rewrite E.
Qed.
End Streams.

(** ** The contract of the LMDB state store *)

#[global] Instance lmdb_state_store `{SnapshotCodec} : StateStore LmdbStateStore.
Proof.
  refine {| store_id_max := u64_max; store_valid := λ s, ∃ st, read_state s = Ok st;
            store_advance := λ n s, (lmdb_advance n s).2; store_commit := λ c s, (lmdb_commit c s).2;
            store_truncate := λ n s, (lmdb_truncate n s).2;
            store_load := λ s, match read_state s with Ok st => st | _ => mkSnapshot [] 0 end |}; [done|..].
  all: assert (Hchange : ∀ f s st, read_state s = Ok st → read_state (change_state f s).2 = Ok (f st))
    by (intros f s st Hst; unfold change_state; rewrite Hst; unfold read_state at 1; cbn;
        by rewrite snapshot_from_to).
  - intros n s [st Hst] _. unfold lmdb_advance. rewrite Hst, (Hchange _ _ _ Hst). split; [by eexists|done].
  - intros c s [st Hst] _ _. unfold lmdb_commit. rewrite Hst, (Hchange _ _ _ Hst). split; [by eexists|].
    rewrite foldl_snoc. by destruct (prune c).
  - intros n s [st Hst] _. unfold lmdb_truncate. rewrite Hst, (Hchange _ _ _ Hst). split; [by eexists|done].
Defined.

(** ** The order of keys *)

Lemma bytes_lt_be n a b : bytes_lt (be n a) (be n b) = (a `mod` 256 ^ Z.of_nat n <? b `mod` 256 ^ Z.of_nat n).
Proof.
  induction n as [|n IH]; [cbn; by rewrite !Z.mod_1_r|].
  cbn [be bytes_lt]. rewrite IH. set (m := 256 ^ Z.of_nat n).
  assert (0 < m) by (apply Z.pow_pos_nonneg; lia).
  rewrite Nat2Z.inj_succ, Z.pow_succ_r by lia. fold m.
  rewrite !(Z.mul_comm 256 m), !Z.rem_mul_r by lia.
  pose proof (Z.mod_pos_bound a m). pose proof (Z.mod_pos_bound b m).
  set (x := (a / m) `mod` 256). set (y := (b / m) `mod` 256). set (p := a `mod` m) in *. set (q := b `mod` m) in *.
  destruct (Z.ltb_spec x y); cbn [orb].
  - symmetry. apply Z.ltb_lt. nia.
  - destruct (Z.eqb_spec x y) as [->|]; cbn [andb].
    + destruct (Z.ltb_spec p q); symmetry; [apply Z.ltb_lt|apply Z.ltb_ge]; lia.
    + symmetry. apply Z.ltb_ge. nia.
Qed.

Lemma encode_id_lt a b : is_u64 a → is_u64 b → bytes_lt (encode_id a) (encode_id b) = (a <? b).
Proof.
  unfold is_u64, u64_max, encode_id. intros Ha Hb. rewrite bytes_lt_be, !Z.mod_small by (simpl; lia). done.
Qed.

Lemma decode_encode_id a : is_u64 a → decode_id (encode_id a) = Ok a.
Proof.
  unfold is_u64, u64_max, encode_id, decode_id. intros Ha. rewrite length_be, from_be_be, Z.mod_small by (simpl; lia).
  done.
Qed.

Lemma encode_id_inj a b : is_u64 a → is_u64 b → encode_id a = encode_id b → a = b.
Proof. intros Ha Hb Heq. pose proof (decode_encode_id a Ha) as Hd. rewrite Heq, decode_encode_id in Hd by done. by injection Hd. Qed.

(** ** The batch store of LMDB *)

Section LmdbCorrect.
Context {B : Type} `{BatchCodec B}.

(** A database holds the batches of [l], in the order of their identifiers. *)
Definition encoded (l : list (TransactionId * B)) : list (bytes * bytes) :=
  (λ e, (encode_id e.1, serialize_batch e.2)) <$> l.

Definition ordered (l : list (TransactionId * B)) : Prop :=
  StronglySorted (λ x y, x.1 < y.1) l /\ Forall (λ e, is_u64 e.1) l.

Lemma ordered_cons e l :
  ordered (e :: l) ↔ is_u64 e.1 /\ Forall (λ y, e.1 < y.1) l /\ ordered l.
Proof.
  unfold ordered. split.
  - intros [Hs [? ?]%list.Forall_cons]. apply StronglySorted_inv in Hs as [? ?]. done.
  - intros (? & ? & ? & ?). split; by constructor.
Qed.

Lemma ordered_filter (P : TransactionId * B → Prop) `{∀ x, Decision (P x)} l : ordered l → ordered (filter P l).
Proof.
  assert (Hall : ∀ (Q : TransactionId * B → Prop) l, Forall Q l → Forall Q (filter P l)).
  { intros Q k. rewrite !Forall_forall. intros Hk x [_ Hx]%list_elem_of_filter. auto. }
  intros [Hs Hf]. split; [|by apply Hall]. clear Hf. induction Hs as [|x l Hs IH Hx]; [constructor|].
  rewrite filter_cons. case_decide; [|done]. constructor; [done|by apply Hall].
Qed.

Lemma ordered_NoDup l : ordered l → NoDup l.*1.
Proof.
  intros [Hs _]. induction Hs as [|e l _ IH He]; [constructor|]. cbn. constructor; [|done].
  intros ([i b] & Heq & Hin)%list_elem_of_fmap. rewrite Forall_forall in He. apply He in Hin. cbn in *. lia.
Qed.

Lemma put_encoded i b l :
  is_u64 i → ordered l →
  ∃ l', put (encode_id i) (serialize_batch b) (encoded l) = encoded l' /\ ordered l' /\
    (∀ e, e ∈ l' ↔ e = (i, b) \/ (e ∈ l /\ e.1 ≠ i)).
Proof.
  intros Hi. induction l as [|[k c] l IH]; intros Hl.
  { exists [(i, b)]. split; [done|]. split; [apply ordered_cons; split_and!; [done|constructor|done]|]. intros e.
    rewrite list_elem_of_singleton. split; [by left|]. intros [?|[?%elem_of_nil _]]; done. }
  pose proof Hl as (Hk & Hlt & Hl')%ordered_cons. cbn [fst] in *. cbn [encoded fmap list_fmap put fst snd].
  rewrite !encode_id_lt by done. rewrite Forall_forall in Hlt.
  destruct (Z.ltb_spec i k); [|destruct (Z.ltb_spec k i)].
  - exists ((i, b) :: (k, c) :: l). split; [done|]. split.
    + apply ordered_cons. split; [done|]. split; [|done]. apply Forall_forall.
      intros e [->|He%Hlt]%elem_of_cons; cbn; lia.
    + intros e. rewrite elem_of_cons. split; [|naive_solver]. intros [->|He]; [by left|right].
      split; [done|]. apply elem_of_cons in He as [->|He%Hlt]; cbn; lia.
  - destruct (IH Hl') as (l' & Hput & Ho & Hel). unfold encoded in Hput. rewrite Hput.
    exists ((k, c) :: l'). split; [done|]. split.
    + apply ordered_cons. split; [done|]. split; [|done]. apply Forall_forall.
      intros e [->|[He _]]%Hel; cbn; [lia|by apply Hlt].
    + intros e. rewrite !elem_of_cons, Hel. split; [|naive_solver].
      intros [->|[->|[He Hne]]]; [right|by left|right]; (split; [naive_solver|cbn; lia || done]).
  - assert (k = i) as -> by lia. exists ((i, b) :: l). split; [done|]. split.
    + apply ordered_cons. split; [done|]. split; [by apply Forall_forall|done].
    + intros e. rewrite !elem_of_cons. split.
      * intros [->|He]; [by left|right]. split; [by right|]. apply Hlt in He. lia.
      * intros [->|[[->|He] Hne]]; [by left|done|by right].
Qed.

Lemma get_encoded i l : is_u64 i → ordered l → get (encode_id i) (encoded l) = serialize_batch <$> (list_to_map l : gmap Z B) !! i.
Proof.
  intros Hi. induction l as [|[k c] l IH]; intros Hl; [done|].
  apply ordered_cons in Hl as (Hk & _ & Hl). cbn -[list_to_map]. rewrite list_to_map_cons.
  case_decide as Hd; [apply encode_id_inj in Hd as ->; [|done..]; by rewrite lookup_insert_eq|].
  rewrite lookup_insert_ne by congruence. by apply IH.
Qed.

Lemma seek_encoded r l :
  is_u64 (range_start r) → is_u64 (range_end r) → ordered l →
  lmdb_seek r (encoded l) = Ok (filter (λ i, range_contains r i = true) l.*1).
Proof.
  intros Hlo Hhi. unfold lmdb_seek. induction l as [|[k c] l IH]; intros Hl; [done|].
  apply ordered_cons in Hl as (Hk & Hlt & Hl). cbn [fst] in *. cbn [encoded fmap list_fmap seek_loop fst].
  rewrite !encode_id_lt, decode_encode_id by done. cbn [fmap list_fmap fst]. rewrite filter_cons.
  assert (Hin : range_contains r k = true ↔ range_start r <= k <= range_end r)
    by (unfold range_contains; by rewrite andb_true_iff, !Z.leb_le).
  destruct (Z.ltb_spec k (range_start r)); [rewrite decide_False by (rewrite Hin; lia); by apply IH|].
  destruct (Z.ltb_spec (range_end r) k).
  - rewrite decide_False by (rewrite Hin; lia). symmetry. f_equal. apply filter_none.
    rewrite Forall_forall in Hlt. apply Forall_forall. intros i ([i' b] & -> & Hi%Hlt)%list_elem_of_fmap. cbn in *.
    unfold range_contains. rewrite (proj2 (Z.leb_gt i' (range_end r))) by lia. by rewrite andb_false_r.
  - rewrite decide_True by (rewrite Hin; lia). cbn [mbind comp_bind].
    unfold encoded in IH. by rewrite IH.
Qed.

Lemma keys_to_delete_encoded cutoff l :
  is_u64 cutoff → ordered l →
  keys_to_delete (encode_id cutoff) (encoded l) = encode_id <$> filter (λ i, i <= cutoff) l.*1.
Proof.
  intros Hc. induction l as [|[k c] l IH]; intros Hl; [done|].
  apply ordered_cons in Hl as (Hk & Hlt & Hl). cbn [fst] in *. cbn [encoded fmap list_fmap keys_to_delete fst].
  rewrite encode_id_lt by done. cbn [fmap list_fmap fst]. rewrite filter_cons.
  destruct (Z.ltb_spec cutoff k).
  - rewrite decide_False by lia. rewrite filter_none; [done|]. rewrite Forall_forall in Hlt. apply Forall_forall.
    intros i ([i' b] & -> & Hin%Hlt)%list_elem_of_fmap. cbn in *. lia.
  - rewrite decide_True by lia. cbn. f_equal. by apply IH.
Qed.

Lemma delete_keys_encoded ids l :
  Forall is_u64 ids → ordered l →
  foldl (λ db key, delete_key key db) (encoded l) (encode_id <$> ids) = encoded (filter (λ e, e.1 ∉ ids) l).
Proof.
  intros Hids Hl. revert l Hl. induction Hids as [|i ids Hi Hids IH]; intros l Hl.
  { cbn. rewrite filter_all; [done|]. apply Forall_forall. intros e _. apply not_elem_of_nil. }
  cbn [fmap list_fmap foldl]. replace (delete_key (encode_id i) (encoded l)) with (encoded (filter (λ e, e.1 ≠ i) l)).
  - rewrite IH.
    + f_equal. rewrite list_filter_filter. apply list_filter_iff. intros e. rewrite not_elem_of_cons. tauto.
    + by apply ordered_filter.
  - clear IH. destruct Hl as [_ Hf]. induction Hf as [|[k c] l Hk Hf IH]; [done|]. unfold delete_key, encoded in *.
    rewrite filter_cons, fmap_cons, filter_cons. cbn [fst snd] in *.
    destruct (decide (k ≠ i)) as [Hne|Heq]; [rewrite decide_True|rewrite decide_False].
    + rewrite fmap_cons, IH. done.
    + intros He. apply Hne. by apply encode_id_inj.
    + exact IH.
    + intros He. apply He. f_equal. by destruct (decide (k = i)).
Qed.

(** A database and the map of the batches it holds. *)
Definition represents (db : list (bytes * bytes)) (m : gmap TransactionId B) : Prop :=
  ∃ l, db = encoded l /\ ordered l /\ list_to_map l = m.

Lemma ordered_lookup l i b : ordered l → (list_to_map l : gmap TransactionId B) !! i = Some b ↔ (i, b) ∈ l.
Proof. intros Hl. symmetry. apply elem_of_list_to_map. by apply ordered_NoDup. Qed.

Lemma append_represents db m batch i :
  is_u64 i → represents db m → represents (lmdb_append batch i db) (append batch i m).
Proof.
  intros Hi (l & -> & Hl & <-). unfold lmdb_append, append.
  destruct (put_encoded i batch l Hi Hl) as (l' & -> & Hl' & Hin). exists l'. split; [done|]. split; [done|].
  apply map_eq. intros k. apply option_eq. intros b. rewrite ordered_lookup, Hin by done.
  destruct (decide (k = i)) as [->|Hne].
  - rewrite lookup_insert_eq. naive_solver.
  - rewrite lookup_insert_ne, ordered_lookup by done. naive_solver.
Qed.

Lemma prune_represents db m cutoff :
  0 <= cutoff < u64_max → represents db m → represents (lmdb_prune cutoff db) (prune_batches cutoff m).
Proof.
  intros Hc (l & -> & Hl & <-). unfold lmdb_prune, prune_batches.
  rewrite keys_to_delete_encoded by (done || unfold is_u64; lia).
  rewrite delete_keys_encoded; [|apply Forall_forall; intros i [_ Hi]%list_elem_of_filter|done].
  2:{ apply list_elem_of_fmap in Hi as ([i' b] & -> & Hin). destruct Hl as [_ Hf].
      rewrite Forall_forall in Hf. by apply (Hf _ Hin). }
  eexists. split; [done|]. split; [by apply ordered_filter|].
  apply map_eq. intros k. apply option_eq. intros b.
  rewrite ordered_lookup by by apply ordered_filter. rewrite list_elem_of_filter, map_lookup_filter_Some, ordered_lookup by done.
  rewrite add64_small by (unfold is_u64; lia). cbn. split; intros [H1 H2]; (split; [done || idtac|done || idtac]).
  - enough (¬ k <= cutoff) by lia. intros Hk. apply H1, list_elem_of_filter. split; [done|].
    apply list_elem_of_fmap. by exists (k, b).
  - intros [Hk _]%list_elem_of_filter. lia.
Qed.

Lemma load_represents db m i : is_u64 i → represents db m → lmdb_load i db = Ok (load i m).
Proof.
  intros Hi (l & -> & Hl & <-). unfold lmdb_load, load. rewrite get_encoded by done.
  destruct (list_to_map l !! i) as [b|]; cbn; [by rewrite deserialize_serialize|done].
Qed.

Lemma seek_represents db m r :
  is_u64 (range_start r) → is_u64 (range_end r) → range_start r <= range_end r → represents db m →
  lmdb_seek r db = (match seek r m with Ok ids => Ok ids | _ => Panic end).
Proof.
  intros Hlo Hhi Hle (l & -> & Hl & <-). rewrite seek_encoded by done. unfold seek.
  rewrite (proj2 (Z.ltb_ge _ _)), andb_false_r by lia. f_equal.
  apply (StronglySorted_unique Z.le).
  - destruct Hl as [Hs _]. induction Hs as [|[k b] l Hs IH Hx]; [constructor|]. cbn [fmap list_fmap fst].
    rewrite filter_cons. case_decide; [|done]. constructor; [done|].
    rewrite Forall_forall in Hx. apply Forall_forall. intros i [_ ([i' b'] & -> & Hin)%list_elem_of_fmap]%list_elem_of_filter.
    apply Hx in Hin. cbn in *. lia.
  - apply (sort_by_key_sorted (λ i, i)).
  - rewrite sort_by_key_perm. apply NoDup_Permutation.
    + apply NoDup_filter. by apply ordered_NoDup.
    + apply NoDup_filter, NoDup_fst_map_to_list.
    + intros i. rewrite !list_elem_of_filter, !list_elem_of_fmap.
      split; intros [Hr ([i' b] & -> & Hin)]; (split; [done|exists (i', b); split; [done|]]).
      * by apply elem_of_map_to_list, ordered_lookup.
      * apply elem_of_map_to_list in Hin. by apply ordered_lookup in Hin.
Qed.

Inductive BatchOp := OAppend (batch : B) (id : TransactionId) | OPrune (cutoff : TransactionId).

Definition op_ok (o : BatchOp) : Prop :=
  match o with OAppend _ id => is_u64 id | OPrune cutoff => 0 <= cutoff < u64_max end.

Definition lmdb_op (db : list (bytes * bytes)) (o : BatchOp) : list (bytes * bytes) :=
  match o with OAppend batch id => lmdb_append batch id db | OPrune cutoff => lmdb_prune cutoff db end.

Definition memory_op (m : gmap TransactionId B) (o : BatchOp) : gmap TransactionId B :=
  match o with OAppend batch id => append batch id m | OPrune cutoff => prune_batches cutoff m end.

(** The batch store of LMDB is the one in memory. After any batches appended
    and pruned, the two stores return the same batch for every identifier and
    the same identifiers, in increasing order, for every range: the big-endian
    keys are ordered as the identifiers, so that the loops of [seek] and [prune]
    may stop at the first key past their bound. *)
Theorem lmdb_batches_as_memory ops :
  Forall op_ok ops →
  let db := foldl lmdb_op [] ops in
  let m := foldl memory_op ∅ ops in
  (∀ i, is_u64 i → lmdb_load i db = Ok (load i m)) /\
  (∀ r, is_u64 (range_start r) → is_u64 (range_end r) → range_start r <= range_end r →
     ∃ ids, seek r m = Ok ids /\ lmdb_seek r db = Ok ids).
Proof.
  intros Hops db m. assert (Hrep : represents db m).
  { subst db m. assert (represents [] (∅ : gmap TransactionId B)) as H0.
    { exists []. split; [done|]. split; [split; constructor|done]. }
    revert H0. generalize (∅ : gmap TransactionId B) as m. generalize (@nil (bytes * bytes)) as db.
    induction Hops as [|o ops Ho _ IH]; intros db m Hr; [done|]. cbn [foldl]. apply IH.
    destruct o; [by apply append_represents|by apply prune_represents]. }
  split; [intros i Hi; by apply load_represents|]. intros r Hlo Hhi Hle.
  rewrite (seek_represents db m) by done. unfold seek. rewrite (proj2 (Z.ltb_ge _ _)), andb_false_r by lia. by eexists.
Qed.
End LmdbCorrect.

(** ** Runs *)

(** Ranges and batches kept as they are. *)
#[local] Instance demo_ranges_codec : RangesCodec (list BlockRange) :=
  {| to_value := λ rs, rs; from_value := Some; from_to_value := λ _, eq_refl |}.

#[local] Instance demo_batch_codec : BatchCodec bytes :=
  {| serialize_batch := λ b, b; deserialize_batch := Some; deserialize_serialize := λ _, eq_refl |}.

(** A database in which another stream keeps a watermark. *)
Definition demo_database : Database (Json := list BlockRange) :=
  mkDatabase {["other" := 7]} {[("other", 3) := [eth 1 4]]}.

Definition demo_ops : list StoreOp :=
  [SAdvance 1; SAdvance 2; SCommit (mkCommit [(1, [eth 1 4])] None); SAdvance 3;
   SCommit (mkCommit [(2, [eth 5 8])] None); SCommit (mkCommit [] (Some 1)); STruncate 3].

Lemma postgres_store_as_memory_witness :
  state (foldl memory_store_op (mkInMemory (mkSnapshot [] 0)) demo_ops) = mkSnapshot [(2, [eth 5 8])] 3 /\
  ∃ s, for_each pg_op demo_ops (postgres_new demo_database "stream") = (Ok tt, s) /\
    pg_load s = Ok (state (foldl memory_store_op (mkInMemory (mkSnapshot [] 0)) demo_ops)) /\
    ∀ id', id' ≠ "stream"%string → pg_load (mkPostgres (pool s) id') = pg_load (mkPostgres demo_database id').
Proof.
  split; [by vm_compute|]. apply (postgres_store_as_memory demo_database "stream" demo_ops); [done| |].
  - intros i. by apply lookup_singleton_ne.
  - cbn. unfold i64_max. repeat split; try lia; try done; repeat constructor; cbn; try lia.
    all: simplify_eq; lia.
Defined.

(** Identifiers whose little-endian keys would be in another order. *)
Definition demo_batches : list (BatchOp (B := bytes)) :=
  [OAppend [1] 256; OAppend [2] 255; OAppend [3] 1; OAppend [4] 256; OPrune 1].

Lemma lmdb_batches_as_memory_witness :
  Forall op_ok demo_batches /\
  let db := foldl lmdb_op [] demo_batches in
  let m := foldl memory_op ∅ demo_batches in
  lmdb_seek (mkRange 0 300) db = Ok [255; 256] /\
  (∀ i, is_u64 i → lmdb_load i db = Ok (load i m)) /\
  (∀ r, is_u64 (range_start r) → is_u64 (range_end r) → range_start r <= range_end r →
     ∃ ids, seek r m = Ok ids /\ lmdb_seek r db = Ok ids).
Proof.
  assert (Hok : Forall op_ok demo_batches)
    by (repeat apply Forall_cons_2; cbn; try apply Forall_nil_2; unfold is_u64, u64_max; lia || exact I).
  split; [exact Hok|]. split; [by vm_compute|]. exact (lmdb_batches_as_memory demo_batches Hok).
Defined.
