(* ===== verification/PgTypes.v ===== *)
(** * PgTypes

    The types of the Arrow to PostgreSQL encoder (arrow-to-postgres/src): the
    PostgreSQL types with their sizes, object identifiers and DDL
    (pg_schema_mapper.rs), and the encoder builders of the fields of a schema
    with their constructors (encoders.rs). The data types are those of
    [arrow_schema]; the ones the code has no branch for are [Other]. An error
    keeps its variant, the name of the field and what the code decides on, not
    the texts. *)

From stdpp Require Import base numbers strings option list.
From Stdlib Require Import ZArith Lia String.
From S2P Require Import Prelude Decimal.

#[local] Open Scope string_scope.

(** ** Data types of [arrow_schema] *)

Inductive TimeUnit := Second | Millisecond | Microsecond | Nanosecond.

Module DataType.
Inductive DataType :=
  | Boolean
  | UInt8 | UInt16 | UInt32 | UInt64
  | Int8 | Int16 | Int32 | Int64
  | Float16 | Float32 | Float64
  | Decimal128 (precision scale : Z)
  | Decimal256 (precision scale : Z)
  | Timestamp (unit : TimeUnit) (tz : option string)
  | Date32
  | Time32 (unit : TimeUnit)
  | Time64 (unit : TimeUnit)
  | Duration (unit : TimeUnit)
  | Utf8 | LargeUtf8
  | Binary | LargeBinary
  | FixedSizeBinary (width : Z)
  | List (inner : Field)
  | LargeList (inner : Field)
  | FixedSizeList (inner : Field) (len : Z)
  | Struct (fields : list Field)
  | Other (name : string)
with Field := mkField (name : string) (data_type : DataType) (nullable : bool).
End DataType.

Abbreviation DataType := DataType.DataType.
Abbreviation Field := DataType.Field.
Abbreviation mkField := DataType.mkField.

Definition field_name (f : Field) : string := match f with DataType.mkField n _ _ => n end.
Definition field_type (f : Field) : DataType := match f with DataType.mkField _ t _ => t end.
Definition is_nullable (f : Field) : bool := match f with DataType.mkField _ _ b => b end.

(** ** PostgreSQL types *)

Module PostgresType.
Inductive PostgresType :=
  | Bool
  | Bytea
  | Int8
  | Int2
  | Int4
  | Char
  | Text
  | Json
  | Jsonb
  | Float4
  | Float8
  | Date
  | Time
  | Timestamp (timezone : option string)
  | Interval
  | Numeric (precision scale : option Z)
  | List (inner : Column)
with Column := mkColumn (data_type : PostgresType) (nullable : bool).
End PostgresType.

Abbreviation PostgresType := PostgresType.PostgresType.
Abbreviation Column := PostgresType.Column.
Abbreviation mkColumn := PostgresType.mkColumn.

Definition col_type (c : Column) : PostgresType := match c with PostgresType.mkColumn t _ => t end.
Definition col_nullable (c : Column) : bool := match c with PostgresType.mkColumn _ b => b end.

Inductive TypeSize := Fixed (n : Z) | Variable_size.

(** [PostgresType::size] *)
Definition type_size (t : PostgresType) : TypeSize :=
  match t with
  | PostgresType.Bool => Fixed 1
  | PostgresType.Bytea => Variable_size
  | PostgresType.Int2 => Fixed 2
  | PostgresType.Int4 => Fixed 4
  | PostgresType.Int8 => Fixed 8
  | PostgresType.Char => Fixed 2
  | PostgresType.Text => Variable_size
  | PostgresType.Json => Variable_size
  | PostgresType.Jsonb => Variable_size
  | PostgresType.Float4 => Fixed 4
  | PostgresType.Float8 => Fixed 8
  | PostgresType.Date => Fixed 4
  | PostgresType.Time => Fixed 8
  | PostgresType.Timestamp _ => Fixed 8
  | PostgresType.Interval => Fixed 16
  | PostgresType.Numeric _ _ => Variable_size
  | PostgresType.List _ => Variable_size
  end.

(** A number as [Display] prints it, with its sign. *)
Definition display_i8 (z : Z) : string :=
  if (z <? 0)%Z then "-" +:+ digits_of (- z)%Z else digits_of z.

(** [PostgresType::to_ddl_string] *)
Fixpoint to_ddl_string (t : PostgresType) : string :=
  match t with
  | PostgresType.Bool => "BOOLEAN"
  | PostgresType.Bytea => "BYTEA"
  | PostgresType.Int2 => "SMALLINT"
  | PostgresType.Int4 => "INTEGER"
  | PostgresType.Int8 => "BIGINT"
  | PostgresType.Char => "CHAR"
  | PostgresType.Text => "TEXT"
  | PostgresType.Json => "JSON"
  | PostgresType.Jsonb => "JSONB"
  | PostgresType.Float4 => "REAL"
  | PostgresType.Float8 => "DOUBLE PRECISION"
  | PostgresType.Date => "DATE"
  | PostgresType.Time => "TIME"
  | PostgresType.Timestamp (Some _) => "TIMESTAMPTZ"
  | PostgresType.Timestamp None => "TIMESTAMP"
  | PostgresType.Interval => "INTERVAL"
  | PostgresType.Numeric (Some p) (Some s) =>
      "NUMERIC(" +:+ digits_of p +:+ ", " +:+ display_i8 s +:+ ")"
  | PostgresType.Numeric (Some p) None => "NUMERIC(" +:+ digits_of p +:+ ")"
  | PostgresType.Numeric None _ => "NUMERIC"
  | PostgresType.List (PostgresType.mkColumn inner _) => to_ddl_string inner +:+ "[]"
  end.

(** [PostgresType::oid] *)
Definition oid (t : PostgresType) : option Z :=
  match t with
  | PostgresType.Bool => Some 16
  | PostgresType.Bytea => Some 17
  | PostgresType.Int8 => Some 20
  | PostgresType.Int2 => Some 21
  | PostgresType.Int4 => Some 23
  | PostgresType.Char => Some 18
  | PostgresType.Text => Some 25
  | PostgresType.Json => Some 3802
  | PostgresType.Jsonb => Some 3802
  | PostgresType.Float4 => Some 700
  | PostgresType.Float8 => Some 701
  | PostgresType.Date => Some 1082
  | PostgresType.Time => Some 1083
  | PostgresType.Timestamp _ => Some 1114
  | PostgresType.Interval => Some 1186
  | PostgresType.Numeric _ _ => Some 1700
  | PostgresType.List _ => None
  end.

(** [PostgresSchema::column_to_ddl] *)
Definition column_to_ddl (column_name : string) (column : Column) : string :=
  let type_str := to_ddl_string (col_type column) in
  let nullable_str := if col_nullable column then "" else " NOT NULL" in
  column_name +:+ " " +:+ type_str +:+ nullable_str.

(** ** Errors *)

Inductive Error :=
  | ColumnTypeMismatch (field : string)
  | TypeNotSupported (field : string) (tp : DataType) (msg : string)
  | FieldTooLarge (field : string) (size : Z)
  | Encode
  | EncodingNotSupported (field : string) (tp : PostgresType) (allowed : list PostgresType)
  | FieldTypeNotSupported (encoder : string) (tp : DataType) (field : string)
  | EncoderMissing (field : string)
  | UnknownFields (fields : list string)
  | ColumnCountMismatch (expected actual : Z)
  | InvalidJson (field : string).

(** ** Encoder builders *)

Inductive StringOutputType := Text | Json | Jsonb.

Module EncoderBuilder.
Inductive EncoderBuilder :=
  | Boolean (field : Field)
  | UInt8 (field : Field)
  | UInt16 (field : Field)
  | UInt32 (field : Field)
  | UInt64 (field : Field)
  | Int8 (field : Field) (output : PostgresType)
  | Int16 (field : Field)
  | Int32 (field : Field)
  | Int64 (field : Field)
  | Float16 (field : Field)
  | Float32 (field : Field)
  | Float64 (field : Field)
  | Decimal128 (field : Field)
  | TimestampMicrosecond (field : Field)
  | TimestampMillisecond (field : Field)
  | TimestampSecond (field : Field)
  | TimestampNanosecond (field : Field)
  | Date32 (field : Field)
  | Time32Millisecond (field : Field)
  | Time32Second (field : Field)
  | Time64Microsecond (field : Field)
  | DurationMicrosecond (field : Field)
  | DurationMillisecond (field : Field)
  | DurationSecond (field : Field)
  | String (field : Field) (output : StringOutputType)
  | LargeString (field : Field) (output : StringOutputType)
  | Binary (field : Field)
  | LargeBinary (field : Field)
  | FixedSizeBinary (field : Field)
  | List (field : Field) (inner_encoder_builder : EncoderBuilder)
  | LargeList (field : Field) (inner_encoder_builder : EncoderBuilder).
End EncoderBuilder.

Abbreviation EncoderBuilder := EncoderBuilder.EncoderBuilder.

(** [matches!(dt, DataType::List(_) | DataType::LargeList(_))] *)
Definition is_list_type (dt : DataType) : bool :=
  match dt with DataType.List _ | DataType.LargeList _ => true | _ => false end.

Definition ns_not_supported : string := "Postgres does not support ns precision; convert to us".
Definition nested_not_supported : string := "nested lists are not supported".

(** [EncoderBuilder::try_new] *)
Fixpoint builder_try_new (field : Field) : comp Error EncoderBuilder :=
  match field with
  | DataType.mkField name data_type _ =>
      match data_type with
      | DataType.Boolean => Ok (EncoderBuilder.Boolean field)
      | DataType.UInt8 => Ok (EncoderBuilder.UInt8 field)
      | DataType.UInt16 => Ok (EncoderBuilder.UInt16 field)
      | DataType.UInt32 => Ok (EncoderBuilder.UInt32 field)
      | DataType.UInt64 => Ok (EncoderBuilder.UInt64 field)
      | DataType.Int8 => Ok (EncoderBuilder.Int8 field PostgresType.Int2)
      | DataType.Int16 => Ok (EncoderBuilder.Int16 field)
      | DataType.Int32 => Ok (EncoderBuilder.Int32 field)
      | DataType.Int64 => Ok (EncoderBuilder.Int64 field)
      | DataType.Float16 => Ok (EncoderBuilder.Float16 field)
      | DataType.Float32 => Ok (EncoderBuilder.Float32 field)
      | DataType.Float64 => Ok (EncoderBuilder.Float64 field)
      | DataType.Decimal128 _ _ => Ok (EncoderBuilder.Decimal128 field)
      | DataType.Timestamp unit _ =>
          match unit with
          | Nanosecond => Ok (EncoderBuilder.TimestampNanosecond field)
          | Microsecond => Ok (EncoderBuilder.TimestampMicrosecond field)
          | Millisecond => Ok (EncoderBuilder.TimestampMillisecond field)
          | Second => Ok (EncoderBuilder.TimestampSecond field)
          end
      | DataType.Date32 => Ok (EncoderBuilder.Date32 field)
      | DataType.Time32 unit =>
          match unit with
          | Millisecond => Ok (EncoderBuilder.Time32Millisecond field)
          | Second => Ok (EncoderBuilder.Time32Second field)
          | _ => Panic
          end
      | DataType.Time64 unit =>
          match unit with
          | Nanosecond => Err (TypeNotSupported name data_type ns_not_supported)
          | Microsecond => Ok (EncoderBuilder.Time64Microsecond field)
          | _ => Panic
          end
      | DataType.Duration unit =>
          match unit with
          | Nanosecond => Err (TypeNotSupported name data_type ns_not_supported)
          | Microsecond => Ok (EncoderBuilder.DurationMicrosecond field)
          | Millisecond => Ok (EncoderBuilder.DurationMillisecond field)
          | Second => Ok (EncoderBuilder.DurationSecond field)
          end
      | DataType.Utf8 => Ok (EncoderBuilder.String field Text)
      | DataType.LargeUtf8 => Ok (EncoderBuilder.LargeString field Text)
      | DataType.Binary => Ok (EncoderBuilder.Binary field)
      | DataType.LargeBinary => Ok (EncoderBuilder.LargeBinary field)
      | DataType.FixedSizeBinary _ => Ok (EncoderBuilder.FixedSizeBinary field)
      | DataType.List inner =>
          if is_list_type (field_type inner)
          then Err (TypeNotSupported name data_type nested_not_supported)
          else inner' ← builder_try_new inner; Ok (EncoderBuilder.List field inner')
      | DataType.LargeList inner | DataType.FixedSizeList inner _ =>
          if is_list_type (field_type inner)
          then Err (TypeNotSupported name data_type nested_not_supported)
          else inner' ← builder_try_new inner; Ok (EncoderBuilder.LargeList field inner')
      | DataType.Decimal256 _ _ | DataType.Struct _ | DataType.Other _ => Err (TypeNotSupported name data_type "unknown type")
      end
  end.

(** ** The constructors of each builder *)

Section Constructors.
#[local] Open Scope string_scope.

(** [new] of the builders the macros generate. *)
Definition stateless_new (struct_name : string) (check_data_type : DataType → bool)
    (mk : Field → EncoderBuilder) (field : Field) : comp Error EncoderBuilder :=
  if negb (check_data_type (field_type field))
  then Err (FieldTypeNotSupported struct_name (field_type field) (field_name field))
  else Ok (mk field).

Definition BooleanEncoderBuilder_new :=
  stateless_new "BooleanEncoderBuilder"
    (λ dt, match dt with DataType.Boolean => true | _ => false end) EncoderBuilder.Boolean.
Definition UInt8EncoderBuilder_new :=
  stateless_new "UInt8EncoderBuilder"
    (λ dt, match dt with DataType.UInt8 => true | _ => false end) EncoderBuilder.UInt8.
Definition UInt16EncoderBuilder_new :=
  stateless_new "UInt16EncoderBuilder"
    (λ dt, match dt with DataType.UInt16 => true | _ => false end) EncoderBuilder.UInt16.
Definition UInt32EncoderBuilder_new :=
  stateless_new "UInt32EncoderBuilder"
    (λ dt, match dt with DataType.UInt32 => true | _ => false end) EncoderBuilder.UInt32.
Definition UInt64EncoderBuilder_new :=
  stateless_new "UInt64EncoderBuilder"
    (λ dt, match dt with DataType.UInt64 => true | _ => false end) EncoderBuilder.UInt64.
Definition Int8EncoderBuilder_new :=
  stateless_new "Int8EncoderBuilder"
    (λ dt, match dt with DataType.Int8 => true | _ => false end)
    (λ field, EncoderBuilder.Int8 field PostgresType.Int2).
Definition Int16EncoderBuilder_new :=
  stateless_new "Int16EncoderBuilder"
    (λ dt, match dt with DataType.Int16 => true | _ => false end) EncoderBuilder.Int16.
Definition Int32EncoderBuilder_new :=
  stateless_new "Int32EncoderBuilder"
    (λ dt, match dt with DataType.Int32 => true | _ => false end) EncoderBuilder.Int32.
Definition Int64EncoderBuilder_new :=
  stateless_new "Int64EncoderBuilder"
    (λ dt, match dt with DataType.Int64 => true | _ => false end) EncoderBuilder.Int64.
Definition Float16EncoderBuilder_new :=
  stateless_new "Float16EncoderBuilder"
    (λ dt, match dt with DataType.Float16 => true | _ => false end) EncoderBuilder.Float16.
Definition Float32EncoderBuilder_new :=
  stateless_new "Float32EncoderBuilder"
    (λ dt, match dt with DataType.Float32 => true | _ => false end) EncoderBuilder.Float32.
Definition Float64EncoderBuilder_new :=
  stateless_new "Float64EncoderBuilder"
    (λ dt, match dt with DataType.Float64 => true | _ => false end) EncoderBuilder.Float64.
Definition Decimal128EncoderBuilder_new :=
  stateless_new "Decimal128EncoderBuilder"
    (λ dt, match dt with DataType.Decimal128 _ _ => true | _ => false end)
    EncoderBuilder.Decimal128.
Definition TimestampMicrosecondEncoderBuilder_new :=
  stateless_new "TimestampMicrosecondEncoderBuilder"
    (λ dt, match dt with DataType.Timestamp Microsecond _ => true | _ => false end)
    EncoderBuilder.TimestampMicrosecond.
Definition TimestampMillisecondEncoderBuilder_new :=
  stateless_new "TimestampMillisecondEncoderBuilder"
    (λ dt, match dt with DataType.Timestamp Millisecond _ => true | _ => false end)
    EncoderBuilder.TimestampMillisecond.
Definition TimestampSecondEncoderBuilder_new :=
  stateless_new "TimestampSecondEncoderBuilder"
    (λ dt, match dt with DataType.Timestamp Second _ => true | _ => false end)
    EncoderBuilder.TimestampSecond.
Definition TimestampNanosecondEncoderBuilder_new :=
  stateless_new "TimestampNanosecondEncoderBuilder"
    (λ dt, match dt with DataType.Timestamp Nanosecond _ => true | _ => false end)
    EncoderBuilder.TimestampNanosecond.
Definition Date32EncoderBuilder_new :=
  stateless_new "Date32EncoderBuilder"
    (λ dt, match dt with DataType.Date32 => true | _ => false end) EncoderBuilder.Date32.
Definition Time32MillisecondEncoderBuilder_new :=
  stateless_new "Time32MillisecondEncoderBuilder"
    (λ dt, match dt with DataType.Time32 Millisecond => true | _ => false end)
    EncoderBuilder.Time32Millisecond.
Definition Time32SecondEncoderBuilder_new :=
  stateless_new "Time32SecondEncoderBuilder"
    (λ dt, match dt with DataType.Time32 Second => true | _ => false end)
    EncoderBuilder.Time32Second.
Definition Time64MicrosecondEncoderBuilder_new :=
  stateless_new "Time64MicrosecondEncoderBuilder"
    (λ dt, match dt with DataType.Time64 Microsecond => true | _ => false end)
    EncoderBuilder.Time64Microsecond.
Definition DurationMicrosecondEncoderBuilder_new :=
  stateless_new "DurationMicrosecondEncoderBuilder"
    (λ dt, match dt with DataType.Duration Microsecond => true | _ => false end)
    EncoderBuilder.DurationMicrosecond.
Definition DurationMillisecondEncoderBuilder_new :=
  stateless_new "DurationMillisecondEncoderBuilder"
    (λ dt, match dt with DataType.Duration Millisecond => true | _ => false end)
    EncoderBuilder.DurationMillisecond.
Definition DurationSecondEncoderBuilder_new :=
  stateless_new "DurationSecondEncoderBuilder"
    (λ dt, match dt with DataType.Duration Second => true | _ => false end)
    EncoderBuilder.DurationSecond.
Definition StringEncoderBuilder_new :=
  stateless_new "StringEncoderBuilder"
    (λ dt, match dt with DataType.Utf8 => true | _ => false end)
    (λ field, EncoderBuilder.String field Text).
Definition LargeStringEncoderBuilder_new :=
  stateless_new "LargeStringEncoderBuilder"
    (λ dt, match dt with DataType.LargeUtf8 => true | _ => false end)
    (λ field, EncoderBuilder.LargeString field Text).
Definition BinaryEncoderBuilder_new :=
  stateless_new "BinaryEncoderBuilder"
    (λ dt, match dt with DataType.Binary => true | _ => false end) EncoderBuilder.Binary.
Definition LargeBinaryEncoderBuilder_new :=
  stateless_new "LargeBinaryEncoderBuilder"
    (λ dt, match dt with DataType.LargeBinary => true | _ => false end)
    EncoderBuilder.LargeBinary.
Definition FixedSizeBinaryEncoderBuilder_new :=
  stateless_new "FixedSizeBinaryEncoderBuilder"
    (λ dt, match dt with DataType.FixedSizeBinary _ => true | _ => false end)
    EncoderBuilder.FixedSizeBinary.

(** [new] of the builders of lists: the macro matches [DataType::List] for
    [LargeListEncoderBuilder] too. *)
Definition list_new (mk : Field → EncoderBuilder → EncoderBuilder) (field : Field)
  : comp Error EncoderBuilder :=
  match field_type field with
  | DataType.List inner => inner_encoder_builder ← builder_try_new inner; Ok (mk field inner_encoder_builder)
  | dt => Err (TypeNotSupported (field_name field) dt "not a list type")
  end.
Definition ListEncoderBuilder_new := list_new EncoderBuilder.List.
Definition LargeListEncoderBuilder_new := list_new EncoderBuilder.LargeList.

(** [new_with_inner] *)
Definition ListEncoderBuilder_new_with_inner (field : Field) (inner : EncoderBuilder)
  : comp Error EncoderBuilder := Ok (EncoderBuilder.List field inner).
Definition LargeListEncoderBuilder_new_with_inner (field : Field) (inner : EncoderBuilder)
  : comp Error EncoderBuilder := Ok (EncoderBuilder.LargeList field inner).

(** [Int8EncoderBuilder::new_with_output] *)
Definition Int8EncoderBuilder_new_with_output (field : Field) (output : PostgresType)
  : comp Error EncoderBuilder :=
  match output with
  | PostgresType.Char | PostgresType.Int2 => Ok (EncoderBuilder.Int8 field output)
  | _ => Err (EncodingNotSupported (field_name field) output [PostgresType.Char; PostgresType.Int2])
  end.

(** [StringOutputType::from_postgres_type] *)
Definition from_postgres_type (tp : PostgresType) (field : Field) : comp Error StringOutputType :=
  match tp with
  | PostgresType.Text => Ok Text
  | PostgresType.Json => Ok Json
  | PostgresType.Jsonb => Ok Jsonb
  | other => Err (EncodingNotSupported (field_name field) other
                    [PostgresType.Text; PostgresType.Json; PostgresType.Jsonb])
  end.

(** [new_with_output] of the builders of strings. *)
Definition StringEncoderBuilder_new_with_output (field : Field) (output : PostgresType)
  : comp Error EncoderBuilder :=
  output ← from_postgres_type output field; Ok (EncoderBuilder.String field output).
Definition LargeStringEncoderBuilder_new_with_output (field : Field) (output : PostgresType)
  : comp Error EncoderBuilder :=
  output ← from_postgres_type output field; Ok (EncoderBuilder.LargeString field output).
End Constructors.

(** [StringOutputType::postgres_datatype] *)
Definition postgres_datatype (o : StringOutputType) : PostgresType :=
  match o with
  | Text => PostgresType.Text
  | Json => PostgresType.Json
  | Jsonb => PostgresType.Jsonb
  end.

(** The time zone in the schema of the four timestamp builders, which is
    [unreachable!] for another type. *)
Definition timestamp_column (field : Field) : comp Error Column :=
  match field_type field with
  | DataType.Timestamp _ tz => Ok (mkColumn (PostgresType.Timestamp tz) (is_nullable field))
  | _ => Panic
  end.

(** [BuildEncoder::schema] *)
Fixpoint schema (b : EncoderBuilder) : comp Error Column :=
  match b with
  | EncoderBuilder.Boolean field => Ok (mkColumn PostgresType.Bool (is_nullable field))
  | EncoderBuilder.UInt8 field => Ok (mkColumn PostgresType.Int2 (is_nullable field))
  | EncoderBuilder.UInt16 field => Ok (mkColumn PostgresType.Int4 (is_nullable field))
  | EncoderBuilder.UInt32 field => Ok (mkColumn PostgresType.Int8 (is_nullable field))
  | EncoderBuilder.UInt64 field =>
      Ok (mkColumn (PostgresType.Numeric (Some 20) (Some 0)) (is_nullable field))
  | EncoderBuilder.Int8 field output => Ok (mkColumn output (is_nullable field))
  | EncoderBuilder.Int16 field => Ok (mkColumn PostgresType.Int2 (is_nullable field))
  | EncoderBuilder.Int32 field => Ok (mkColumn PostgresType.Int4 (is_nullable field))
  | EncoderBuilder.Int64 field => Ok (mkColumn PostgresType.Int8 (is_nullable field))
  | EncoderBuilder.Float16 field => Ok (mkColumn PostgresType.Float4 (is_nullable field))
  | EncoderBuilder.Float32 field => Ok (mkColumn PostgresType.Float4 (is_nullable field))
  | EncoderBuilder.Float64 field => Ok (mkColumn PostgresType.Float8 (is_nullable field))
  | EncoderBuilder.Decimal128 field =>
      match field_type field with
      | DataType.Decimal128 p s =>
          Ok (mkColumn (PostgresType.Numeric (Some p) (Some s)) (is_nullable field))
      | _ => Panic
      end
  | EncoderBuilder.TimestampMicrosecond field
  | EncoderBuilder.TimestampMillisecond field
  | EncoderBuilder.TimestampSecond field
  | EncoderBuilder.TimestampNanosecond field => timestamp_column field
  | EncoderBuilder.Date32 field => Ok (mkColumn PostgresType.Date (is_nullable field))
  | EncoderBuilder.Time32Millisecond field
  | EncoderBuilder.Time32Second field
  | EncoderBuilder.Time64Microsecond field => Ok (mkColumn PostgresType.Time (is_nullable field))
  | EncoderBuilder.DurationMicrosecond field
  | EncoderBuilder.DurationMillisecond field
  | EncoderBuilder.DurationSecond field =>
      Ok (mkColumn PostgresType.Interval (is_nullable field))
  | EncoderBuilder.String field output
  | EncoderBuilder.LargeString field output =>
      Ok (mkColumn (postgres_datatype output) (is_nullable field))
  | EncoderBuilder.Binary field
  | EncoderBuilder.LargeBinary field
  | EncoderBuilder.FixedSizeBinary field => Ok (mkColumn PostgresType.Bytea (is_nullable field))
  | EncoderBuilder.List field inner
  | EncoderBuilder.LargeList field inner =>
      inner' ← schema inner; Ok (mkColumn (PostgresType.List inner') (is_nullable field))
  end.

(** [BuildEncoder::field] *)
Definition builder_field (b : EncoderBuilder) : Field :=
  match b with
  | EncoderBuilder.Boolean f | EncoderBuilder.UInt8 f | EncoderBuilder.UInt16 f
  | EncoderBuilder.UInt32 f | EncoderBuilder.UInt64 f | EncoderBuilder.Int8 f _
  | EncoderBuilder.Int16 f | EncoderBuilder.Int32 f | EncoderBuilder.Int64 f
  | EncoderBuilder.Float16 f | EncoderBuilder.Float32 f | EncoderBuilder.Float64 f
  | EncoderBuilder.Decimal128 f
  | EncoderBuilder.TimestampMicrosecond f | EncoderBuilder.TimestampMillisecond f
  | EncoderBuilder.TimestampSecond f | EncoderBuilder.TimestampNanosecond f
  | EncoderBuilder.Date32 f | EncoderBuilder.Time32Millisecond f
  | EncoderBuilder.Time32Second f | EncoderBuilder.Time64Microsecond f
  | EncoderBuilder.DurationMicrosecond f | EncoderBuilder.DurationMillisecond f
  | EncoderBuilder.DurationSecond f
  | EncoderBuilder.String f _ | EncoderBuilder.LargeString f _
  | EncoderBuilder.Binary f | EncoderBuilder.LargeBinary f | EncoderBuilder.FixedSizeBinary f
  | EncoderBuilder.List f _ | EncoderBuilder.LargeList f _ => f
  end.

(** ** Induction on a field *)

Definition inner_field (dt : DataType) : option Field :=
  match dt with
  | DataType.List inner | DataType.LargeList inner | DataType.FixedSizeList inner _ => Some inner
  | _ => None
  end.

Lemma field_induction (P : Field → Prop) :
  (∀ name dt nullable, (∀ inner, inner_field dt = Some inner → P inner) →
     P (mkField name dt nullable)) →
  ∀ f, P f.
Proof.
  intros Hstep. fix IH 1. intros [name dt nullable].
  destruct dt; apply Hstep; intros f Hf; cbn in Hf; try discriminate;
    injection Hf as <-; apply IH.
Qed.

(** The builder of a field keeps the field, its [schema] never reaches the
    unreachable branch and keeps the nullability. *)
Lemma builder_schema f b :
  builder_try_new f = Ok b →
  builder_field b = f /\ ∃ c, schema b = Ok c /\ col_nullable c = is_nullable f.
Proof.
  revert b. induction f as [name dt nullable IH] using field_induction. intros b Hb.
  destruct dt as [ | | | | | | | | | | | | | |unit tz| |unit|unit|unit| | | | | |i|i|i n|fs|]; cbn in Hb;
    try destruct unit; simplify_eq; try (split; [done|]; eexists; split; reflexivity);
    destruct (is_list_type (field_type i)); try discriminate;
    destruct (builder_try_new i) as [b'|e| |] eqn:Ei; cbn in Hb; simplify_eq;
    destruct (IH i eq_refl b' Ei) as (_ & c & Hc & _);
    (split; [done|]); cbn; rewrite Hc; eexists; split; reflexivity.
Qed.

(** ** [new] of the builders and [EncoderBuilder::try_new] *)

(** The constructor of the struct a builder is. *)
Definition own_new (b : EncoderBuilder) : Field → comp Error EncoderBuilder :=
  match b with
  | EncoderBuilder.Boolean _ => BooleanEncoderBuilder_new
  | EncoderBuilder.UInt8 _ => UInt8EncoderBuilder_new
  | EncoderBuilder.UInt16 _ => UInt16EncoderBuilder_new
  | EncoderBuilder.UInt32 _ => UInt32EncoderBuilder_new
  | EncoderBuilder.UInt64 _ => UInt64EncoderBuilder_new
  | EncoderBuilder.Int8 _ _ => Int8EncoderBuilder_new
  | EncoderBuilder.Int16 _ => Int16EncoderBuilder_new
  | EncoderBuilder.Int32 _ => Int32EncoderBuilder_new
  | EncoderBuilder.Int64 _ => Int64EncoderBuilder_new
  | EncoderBuilder.Float16 _ => Float16EncoderBuilder_new
  | EncoderBuilder.Float32 _ => Float32EncoderBuilder_new
  | EncoderBuilder.Float64 _ => Float64EncoderBuilder_new
  | EncoderBuilder.Decimal128 _ => Decimal128EncoderBuilder_new
  | EncoderBuilder.TimestampMicrosecond _ => TimestampMicrosecondEncoderBuilder_new
  | EncoderBuilder.TimestampMillisecond _ => TimestampMillisecondEncoderBuilder_new
  | EncoderBuilder.TimestampSecond _ => TimestampSecondEncoderBuilder_new
  | EncoderBuilder.TimestampNanosecond _ => TimestampNanosecondEncoderBuilder_new
  | EncoderBuilder.Date32 _ => Date32EncoderBuilder_new
  | EncoderBuilder.Time32Millisecond _ => Time32MillisecondEncoderBuilder_new
  | EncoderBuilder.Time32Second _ => Time32SecondEncoderBuilder_new
  | EncoderBuilder.Time64Microsecond _ => Time64MicrosecondEncoderBuilder_new
  | EncoderBuilder.DurationMicrosecond _ => DurationMicrosecondEncoderBuilder_new
  | EncoderBuilder.DurationMillisecond _ => DurationMillisecondEncoderBuilder_new
  | EncoderBuilder.DurationSecond _ => DurationSecondEncoderBuilder_new
  | EncoderBuilder.String _ _ => StringEncoderBuilder_new
  | EncoderBuilder.LargeString _ _ => LargeStringEncoderBuilder_new
  | EncoderBuilder.Binary _ => BinaryEncoderBuilder_new
  | EncoderBuilder.LargeBinary _ => LargeBinaryEncoderBuilder_new
  | EncoderBuilder.FixedSizeBinary _ => FixedSizeBinaryEncoderBuilder_new
  | EncoderBuilder.List _ _ => ListEncoderBuilder_new
  | EncoderBuilder.LargeList _ _ => LargeListEncoderBuilder_new
  end.

(** A builder chosen by [try_new] is the one its own [new] makes, but for large
    lists and lists of a fixed size, which [LargeListEncoderBuilder::new]
    refuses. *)
Lemma try_new_is_own_new f b :
  builder_try_new f = Ok b →
  match b with
  | EncoderBuilder.LargeList _ _ =>
      own_new b f = Err (TypeNotSupported (field_name f) (field_type f) "not a list type")
  | _ => own_new b f = Ok b
  end.
Proof.
  destruct f as [name dt nullable]. intros Hb.
  destruct dt as [ | | | | | | | | | | | | | |unit tz| |unit|unit|unit| | | | | |i|i|i n|fs|]; cbn in Hb;
    try destruct unit; simplify_eq; try reflexivity;
    destruct (is_list_type (field_type i)); try discriminate;
    destruct (builder_try_new i) as [b'|e| |] eqn:Ei; cbn in Hb; simplify_eq; try reflexivity.
  unfold own_new, ListEncoderBuilder_new, list_new. cbn. by rewrite Ei.
Qed.

(** What [LargeListEncoderBuilder::new] does accept is the field of a list with
    32-bit offsets, and [ListEncoderBuilder::new] accepts lists of lists. *)
Lemma large_list_new_takes_lists f inner :
  field_type f = DataType.List inner →
  LargeListEncoderBuilder_new f = (b ← builder_try_new inner; Ok (EncoderBuilder.LargeList f b)).
Proof. intros Hf. unfold LargeListEncoderBuilder_new, list_new. by rewrite Hf. Qed.
