(* ===== verification/PgCopy.v ===== *)
(** * PgCopy

    The binary COPY encoder (arrow-to-postgres/src/encoders.rs and lib.rs): one
    encoder per kind of column, the conversions of times, the base-10000 digits
    of numbers, lists, the size hints and the encoding of a batch; and the
    metadata columns ampsync adds before it inserts a batch
    (bin/ampsync/src/arrow.rs). What PostgreSQL reads back is defined after its
    documentation: the COPY stream and the binary representation of each type
    ([copy_in]). A byte is a number from 0 to 255 and a float its bit pattern.
    The widening of half floats (the [half] crate) and the validity of a JSON
    text ([serde_json]) are parameters. *)

From stdpp Require Import base numbers strings option list gmap.
From Stdlib Require Import ZArith Lia.
From S2P Require Import Prelude PgTypes.

(** ** Buffers and widths *)

Definition i128_min : Z := -170141183460469231731687303715884105728.
Definition i32_max : Z := 2147483647.

(** [BufMut::put_u8], [put_i16], [put_i32], [put_i64] *)
Definition put_u8 (buf : bytes) (v : Z) : bytes := buf ++ be 1 v.
Definition put_i16 (buf : bytes) (v : Z) : bytes := buf ++ be 2 v.
Definition put_i32 (buf : bytes) (v : Z) : bytes := buf ++ be 4 v.
Definition put_i64 (buf : bytes) (v : Z) : bytes := buf ++ be 8 v.

(** [i64::checked_sub], [i64::checked_mul] and the [i32] one. *)
Definition checked_i64 (z : Z) : option Z :=
  if (i64_min <=? z) && (z <=? i64_max) then Some z else None.
Definition checked_i32 (z : Z) : option Z :=
  if (-2147483648 <=? z) && (z <=? i32_max) then Some z else None.

(** [i32::try_from] on a [usize]. *)
Definition i32_try_from (len : Z) : option Z := if len <=? i32_max then Some len else None.

(** [x as i16] *)
Definition as_i16 (z : Z) : Z := let w := z `mod` 65536 in if w <? 32768 then w else w - 65536.

(** ** Arrays

    A slot is its validity bit with the value of the buffer: a null slot has a
    value too. *)

Inductive PrimitiveType :=
  | UInt8Type | UInt16Type | UInt32Type | UInt64Type
  | Int8Type | Int16Type | Int32Type | Int64Type
  | Float16Type | Float32Type | Float64Type
  | TimestampMicrosecondType | TimestampMillisecondType
  | TimestampSecondType | TimestampNanosecondType
  | Date32Type | Time32MillisecondType | Time32SecondType | Time64MicrosecondType
  | DurationMicrosecondType | DurationMillisecondType | DurationSecondType.

#[global] Instance PrimitiveType_eq_dec : EqDecision PrimitiveType.
Proof. solve_decision. Defined.

Abbreviation slots V := (list (bool * V)).

(** The arrays by their Rust type; [large] is the 64-bit offset. *)
Inductive Array :=
  | BooleanArray (xs : slots bool)
  | PrimitiveArray (p : PrimitiveType) (xs : slots Z)
  | Decimal128Array (scale : Z) (xs : slots Z)
  | Decimal256Array (scale : Z) (xs : slots Z)
  | GenericBinaryArray (large : bool) (xs : slots bytes)
  | FixedSizeBinaryArray (value_length : Z) (xs : slots bytes)
  | GenericStringArray (large : bool) (xs : slots bytes)
  | GenericListArray (large : bool) (xs : slots Array)
  | FixedSizeListArray (len : Z) (xs : slots Array)
  | StructArray (validity : list bool) (fields : list Array)
  | OtherArray (len : nat).

(** [Array::len] and [Array::null_count] *)
Definition arr_len (a : Array) : nat :=
  match a with
  | BooleanArray xs => length xs
  | PrimitiveArray _ xs | Decimal128Array _ xs | Decimal256Array _ xs => length xs
  | GenericBinaryArray _ xs | FixedSizeBinaryArray _ xs | GenericStringArray _ xs => length xs
  | GenericListArray _ xs | FixedSizeListArray _ xs => length xs
  | StructArray validity _ => length validity
  | OtherArray n => n
  end.

Definition count_nulls {V} (xs : slots V) : nat := length (filter (λ s, negb s.1) xs).

Definition null_count (a : Array) : nat :=
  match a with
  | BooleanArray xs => count_nulls xs
  | PrimitiveArray _ xs | Decimal128Array _ xs | Decimal256Array _ xs => count_nulls xs
  | GenericBinaryArray _ xs | FixedSizeBinaryArray _ xs | GenericStringArray _ xs => count_nulls xs
  | GenericListArray _ xs | FixedSizeListArray _ xs => count_nulls xs
  | StructArray validity _ => length (filter (λ v, negb v) validity)
  | OtherArray _ => O
  end.

(** The values an array of a field can hold. A decimal has at most 38 digits. *)
Definition within (lo hi : Z) (xs : slots Z) : bool :=
  forallb (λ s, (lo <=? s.2) && (s.2 <=? hi)) xs.

Definition primitive_range (p : PrimitiveType) : Z * Z :=
  match p with
  | UInt8Type => (0, 255)
  | UInt16Type | Float16Type => (0, 65535)
  | UInt32Type | Float32Type => (0, 4294967295)
  | UInt64Type | Float64Type => (0, u64_max)
  | Int8Type => (-128, 127)
  | Int16Type => (-32768, 32767)
  | Int32Type | Date32Type | Time32MillisecondType | Time32SecondType => (-2147483648, i32_max)
  | _ => (i64_min, i64_max)
  end.

Definition primitive_ok (p : PrimitiveType) (a : Array) : bool :=
  match a with
  | PrimitiveArray q xs =>
      bool_decide (q = p) && within (primitive_range p).1 (primitive_range p).2 xs
  | _ => false
  end.

Definition is_byte (b : Z) : bool := (0 <=? b) && (b <=? 255).
Definition are_bytes (xs : slots bytes) : bool := forallb (λ s, forallb is_byte s.2) xs.

Definition decimal_bound : Z := 10 ^ 38.

(** An array of the type of a field. *)
Fixpoint well_typed (f : Field) (a : Array) : bool :=
  match f with
  | DataType.mkField _ data_type _ =>
      match data_type with
      | DataType.Boolean => match a with BooleanArray _ => true | _ => false end
      | DataType.UInt8 => primitive_ok UInt8Type a
      | DataType.UInt16 => primitive_ok UInt16Type a
      | DataType.UInt32 => primitive_ok UInt32Type a
      | DataType.UInt64 => primitive_ok UInt64Type a
      | DataType.Int8 => primitive_ok Int8Type a
      | DataType.Int16 => primitive_ok Int16Type a
      | DataType.Int32 => primitive_ok Int32Type a
      | DataType.Int64 => primitive_ok Int64Type a
      | DataType.Float16 => primitive_ok Float16Type a
      | DataType.Float32 => primitive_ok Float32Type a
      | DataType.Float64 => primitive_ok Float64Type a
      | DataType.Decimal128 _ scale =>
          match a with
          | Decimal128Array s xs =>
              (s =? scale) && within (- decimal_bound + 1) (decimal_bound - 1) xs
          | _ => false
          end
      | DataType.Timestamp Microsecond _ => primitive_ok TimestampMicrosecondType a
      | DataType.Timestamp Millisecond _ => primitive_ok TimestampMillisecondType a
      | DataType.Timestamp Second _ => primitive_ok TimestampSecondType a
      | DataType.Timestamp Nanosecond _ => primitive_ok TimestampNanosecondType a
      | DataType.Date32 => primitive_ok Date32Type a
      | DataType.Time32 Millisecond => primitive_ok Time32MillisecondType a
      | DataType.Time32 Second => primitive_ok Time32SecondType a
      | DataType.Time32 _ => false
      | DataType.Time64 Microsecond => primitive_ok Time64MicrosecondType a
      | DataType.Time64 _ => match a with OtherArray _ => true | _ => false end
      | DataType.Duration Microsecond => primitive_ok DurationMicrosecondType a
      | DataType.Duration Millisecond => primitive_ok DurationMillisecondType a
      | DataType.Duration Second => primitive_ok DurationSecondType a
      | DataType.Duration Nanosecond => match a with OtherArray _ => true | _ => false end
      | DataType.Utf8 =>
          match a with GenericStringArray false xs => are_bytes xs | _ => false end
      | DataType.LargeUtf8 =>
          match a with GenericStringArray true xs => are_bytes xs | _ => false end
      | DataType.Binary =>
          match a with GenericBinaryArray false xs => are_bytes xs | _ => false end
      | DataType.LargeBinary =>
          match a with GenericBinaryArray true xs => are_bytes xs | _ => false end
      | DataType.FixedSizeBinary width =>
          match a with
          | FixedSizeBinaryArray w xs =>
              (w =? width) && forallb (λ s, Z.of_nat (length s.2) =? width) xs && are_bytes xs
          | _ => false
          end
      | DataType.List inner =>
          match a with
          | GenericListArray false xs => forallb (λ s, well_typed inner s.2) xs
          | _ => false
          end
      | DataType.LargeList inner =>
          match a with
          | GenericListArray true xs => forallb (λ s, well_typed inner s.2) xs
          | _ => false
          end
      | DataType.FixedSizeList inner len =>
          match a with
          | FixedSizeListArray n xs =>
              (n =? len) &&
              forallb (λ s, (Z.of_nat (arr_len s.2) =? len) && well_typed inner s.2) xs
          | _ => false
          end
      | DataType.Decimal256 _ scale => match a with Decimal256Array s _ => scale =? s | _ => false end
      | DataType.Struct fields => match a with StructArray _ arrays => (length arrays =? length fields)%nat | _ => false end
      | DataType.Other _ => match a with OtherArray _ => true | _ => false end
      end
  end.

(** ** Encoders *)

Module Encoder.
Inductive Encoder :=
  | Boolean (arr : slots bool)
  | UInt8 (arr : slots Z)
  | UInt16 (arr : slots Z)
  | UInt32 (arr : slots Z)
  | UInt64 (arr : slots Z)
  | Int8 (arr : slots Z)
  | Int16 (arr : slots Z)
  | Int32 (arr : slots Z)
  | Int64 (arr : slots Z)
  | Float16 (arr : slots Z)
  | Float32 (arr : slots Z)
  | Float64 (arr : slots Z)
  | Decimal128 (scale : Z) (arr : slots Z) (field : string)
  | TimestampMicrosecond (arr : slots Z) (field : string)
  | TimestampMillisecond (arr : slots Z) (field : string)
  | TimestampSecond (arr : slots Z) (field : string)
  | TimestampNanosecond (arr : slots Z) (field : string)
  | Date32 (arr : slots Z) (field : string)
  | Time32Millisecond (arr : slots Z) (field : string)
  | Time32Second (arr : slots Z) (field : string)
  | Time64Microsecond (arr : slots Z)
  | DurationMicrosecond (arr : slots Z)
  | DurationMillisecond (arr : slots Z) (field : string)
  | DurationSecond (arr : slots Z) (field : string)
  | Binary (arr : slots bytes) (field : string)
  | LargeBinary (arr : slots bytes) (field : string)
  | FixedSizeBinary (value_length : Z) (arr : slots bytes) (field : string)
  | String (arr : slots bytes) (field : string) (output : StringOutputType)
  | LargeString (arr : slots bytes) (field : string) (output : StringOutputType)
  | List (arr : slots Array) (field : string) (inner_encoder_builder : EncoderBuilder)
  | LargeList (arr : slots Array) (field : string) (inner_encoder_builder : EncoderBuilder).
End Encoder.

Abbreviation Encoder := Encoder.Encoder.

(** [downcast_checked] to an array of primitives. *)
Definition downcast_primitive (p : PrimitiveType) (a : Array) (field : string)
  : comp Error (slots Z) :=
  match a with
  | PrimitiveArray q xs => if decide (q = p) then Ok xs else Err (ColumnTypeMismatch field)
  | _ => Err (ColumnTypeMismatch field)
  end.

(** [downcast_checked] to the other arrays. *)
Definition downcast_boolean (a : Array) (field : string) : comp Error (slots bool) :=
  match a with BooleanArray xs => Ok xs | _ => Err (ColumnTypeMismatch field) end.
Definition downcast_decimal (a : Array) (field : string) : comp Error (Z * slots Z) :=
  match a with Decimal128Array s xs => Ok (s, xs) | _ => Err (ColumnTypeMismatch field) end.
Definition downcast_binary (large : bool) (a : Array) (field : string) : comp Error (slots bytes) :=
  match a with
  | GenericBinaryArray l xs => if Bool.eqb l large then Ok xs else Err (ColumnTypeMismatch field)
  | _ => Err (ColumnTypeMismatch field)
  end.
Definition downcast_fixed (a : Array) (field : string) : comp Error (Z * slots bytes) :=
  match a with FixedSizeBinaryArray n xs => Ok (n, xs) | _ => Err (ColumnTypeMismatch field) end.
Definition downcast_string (large : bool) (a : Array) (field : string) : comp Error (slots bytes) :=
  match a with
  | GenericStringArray l xs => if Bool.eqb l large then Ok xs else Err (ColumnTypeMismatch field)
  | _ => Err (ColumnTypeMismatch field)
  end.
Definition downcast_list (large : bool) (a : Array) (field : string) : comp Error (slots Array) :=
  match a with
  | GenericListArray l xs => if Bool.eqb l large then Ok xs else Err (ColumnTypeMismatch field)
  | _ => Err (ColumnTypeMismatch field)
  end.

(** [BuildEncoder::try_new] *)
Definition encoder_try_new (b : EncoderBuilder) (arr : Array) : comp Error Encoder :=
  let field := field_name (builder_field b) in
  let primitive p := downcast_primitive p arr field in
  match b with
  | EncoderBuilder.Boolean _ => Encoder.Boolean <$> downcast_boolean arr field
  | EncoderBuilder.UInt8 _ => Encoder.UInt8 <$> primitive UInt8Type
  | EncoderBuilder.UInt16 _ => Encoder.UInt16 <$> primitive UInt16Type
  | EncoderBuilder.UInt32 _ => Encoder.UInt32 <$> primitive UInt32Type
  | EncoderBuilder.UInt64 _ => Encoder.UInt64 <$> primitive UInt64Type
  | EncoderBuilder.Int8 _ _ => Encoder.Int8 <$> primitive Int8Type
  | EncoderBuilder.Int16 _ => Encoder.Int16 <$> primitive Int16Type
  | EncoderBuilder.Int32 _ => Encoder.Int32 <$> primitive Int32Type
  | EncoderBuilder.Int64 _ => Encoder.Int64 <$> primitive Int64Type
  | EncoderBuilder.Float16 _ => Encoder.Float16 <$> primitive Float16Type
  | EncoderBuilder.Float32 _ => Encoder.Float32 <$> primitive Float32Type
  | EncoderBuilder.Float64 _ => Encoder.Float64 <$> primitive Float64Type
  | EncoderBuilder.Decimal128 _ =>
      d ← downcast_decimal arr field; Ok (Encoder.Decimal128 d.1 d.2 field)
  | EncoderBuilder.TimestampMicrosecond _ =>
      xs ← primitive TimestampMicrosecondType; Ok (Encoder.TimestampMicrosecond xs field)
  | EncoderBuilder.TimestampMillisecond _ =>
      xs ← primitive TimestampMillisecondType; Ok (Encoder.TimestampMillisecond xs field)
  | EncoderBuilder.TimestampSecond _ =>
      xs ← primitive TimestampSecondType; Ok (Encoder.TimestampSecond xs field)
  | EncoderBuilder.TimestampNanosecond _ =>
      xs ← primitive TimestampNanosecondType; Ok (Encoder.TimestampNanosecond xs field)
  | EncoderBuilder.Date32 _ => xs ← primitive Date32Type; Ok (Encoder.Date32 xs field)
  | EncoderBuilder.Time32Millisecond _ =>
      xs ← primitive Time32MillisecondType; Ok (Encoder.Time32Millisecond xs field)
  | EncoderBuilder.Time32Second _ =>
      xs ← primitive Time32SecondType; Ok (Encoder.Time32Second xs field)
  | EncoderBuilder.Time64Microsecond _ =>
      Encoder.Time64Microsecond <$> primitive Time64MicrosecondType
  | EncoderBuilder.DurationMicrosecond _ =>
      Encoder.DurationMicrosecond <$> primitive DurationMicrosecondType
  | EncoderBuilder.DurationMillisecond _ =>
      xs ← primitive DurationMillisecondType; Ok (Encoder.DurationMillisecond xs field)
  | EncoderBuilder.DurationSecond _ =>
      xs ← primitive DurationSecondType; Ok (Encoder.DurationSecond xs field)
  | EncoderBuilder.String _ output =>
      xs ← downcast_string false arr field; Ok (Encoder.String xs field output)
  | EncoderBuilder.LargeString _ output =>
      xs ← downcast_string true arr field; Ok (Encoder.LargeString xs field output)
  | EncoderBuilder.Binary _ => xs ← downcast_binary false arr field; Ok (Encoder.Binary xs field)
  | EncoderBuilder.LargeBinary _ =>
      xs ← downcast_binary true arr field; Ok (Encoder.LargeBinary xs field)
  | EncoderBuilder.FixedSizeBinary _ =>
      d ← downcast_fixed arr field; Ok (Encoder.FixedSizeBinary d.1 d.2 field)
  | EncoderBuilder.List _ inner =>
      xs ← downcast_list false arr field; Ok (Encoder.List xs field inner)
  | EncoderBuilder.LargeList _ inner =>
      xs ← downcast_list true arr field; Ok (Encoder.LargeList xs field inner)
  end.

(** ** Conversions of dates and times *)

Definition PG_BASE_TIMESTAMP_OFFSET_US : Z := 946684800000000.
Definition PG_BASE_TIMESTAMP_OFFSET_MS : Z := 946684800000.
Definition PG_BASE_TIMESTAMP_OFFSET_S : Z := 946684800.
Definition PG_BASE_TIMESTAMP_OFFSET_NS : Z := 946684800000000000.
Definition PG_BASE_DATE_OFFSET : Z := 10957.
Definition NUM_US_PER_MS : Z := 1000.
Definition NUM_US_PER_S : Z := 1000000.

Definition convert_arrow_timestamp_microseconds_to_pg_timestamp (timestamp_us : Z) : comp Error Z :=
  ok_or (checked_i64 (timestamp_us - PG_BASE_TIMESTAMP_OFFSET_US)) Encode.

Definition convert_arrow_timestamp_milliseconds_to_pg_timestamp (timestamp_ms : Z) : comp Error Z :=
  timestamp_ms ← ok_or (checked_i64 (timestamp_ms - PG_BASE_TIMESTAMP_OFFSET_MS)) Encode;
  ok_or (checked_i64 (timestamp_ms * 1000)) Encode.

Definition convert_arrow_timestamp_seconds_to_pg_timestamp (timestamp_s : Z) : comp Error Z :=
  timestamp_s ← ok_or (checked_i64 (timestamp_s - PG_BASE_TIMESTAMP_OFFSET_S)) Encode;
  ok_or (checked_i64 (timestamp_s * 1000000)) Encode.

Definition convert_arrow_timestamp_nanoseconds_to_pg_timestamp (timestamp_ns : Z) : comp Error Z :=
  timestamp_ns ← ok_or (checked_i64 (timestamp_ns - PG_BASE_TIMESTAMP_OFFSET_NS)) Encode;
  Ok (timestamp_ns `quot` 1000).

Definition convert_arrow_date32_to_postgres_date (date : Z) : comp Error Z :=
  ok_or (checked_i32 (date - PG_BASE_DATE_OFFSET)) Encode.

Definition convert_arrow_time_seconds_to_postgres_time (time_s : Z) : comp Error Z :=
  ok_or (checked_i64 (time_s * 1000000)) Encode.

Definition convert_arrow_time_milliseconds_to_postgres_time (time_ms : Z) : comp Error Z :=
  ok_or (checked_i64 (time_ms * 1000)) Encode.

(** The closures of [DurationMillisecondEncoder] and [DurationSecondEncoder]. *)
Definition duration_milliseconds (v : Z) : comp Error Z :=
  ok_or (checked_i64 (v * NUM_US_PER_MS)) Encode.
Definition duration_seconds (v : Z) : comp Error Z :=
  ok_or (checked_i64 (v * NUM_US_PER_S)) Encode.

Definition write_duration (buf : bytes) (duration_us : Z) : bytes :=
  put_i32 (put_i32 (put_i64 buf duration_us) 0) 0.

(** ** Numbers in base 10000 *)

Definition NUMERIC_BASE : Z := 10000.
Definition NUMERIC_POS : Z := 0.
Definition NUMERIC_NEG : Z := 16384.
Definition NUMERIC_HEADER_SIZE : Z := 8.
Definition MAX_U64_BASE10000_DIGITS : nat := 5.
Definition MAX_I128_BASE10000_DIGITS : nat := 10.
Definition JSONB_VERSION : Z := 1.

(** The digits of a number, the least significant first, in an array with
    room for [free] more: a digit beyond it is an index out of bounds. *)
Fixpoint base10000_loop (free : nat) (remaining : Z) (digits : list Z) : comp Error (list Z) :=
  if 0 <? remaining
  then match free with
       | O => Panic
       | S free' =>
           base10000_loop free' (remaining `quot` NUMERIC_BASE)
             (digits ++ [remaining `rem` NUMERIC_BASE])
       end
  else Ok digits.

(** The header and the digits of a number that is not zero. *)
Definition put_numeric (buf : bytes) (digits : list Z) (sign dscale : Z) : bytes :=
  let ndigits := Z.of_nat (length digits) in
  let weight := as_i16 (ndigits - 1) in
  let size := NUMERIC_HEADER_SIZE + ndigits * 2 in
  let buf := put_i32 buf size in
  let buf := put_i16 (put_i16 (put_i16 (put_i16 buf ndigits) weight) sign) dscale in
  foldl put_i16 buf (reverse digits).

Definition put_zero (buf : bytes) (dscale : Z) : bytes :=
  put_i16 (put_i16 (put_i16 (put_i16 (put_i32 buf NUMERIC_HEADER_SIZE) 0) 0) NUMERIC_POS) dscale.

(** [UInt64Encoder::encode] and [Decimal128Encoder::encode] on a value. *)
Definition encode_u64 (value : Z) (buf : bytes) : comp Error bytes :=
  if value =? 0 then Ok (put_zero buf 0)
  else
    digits ← base10000_loop MAX_U64_BASE10000_DIGITS value [];
    Ok (put_numeric buf digits NUMERIC_POS 0).

(** [i128::abs] without overflow checks. *)
Definition abs_i128 (v : Z) : Z := if v =? i128_min then v else Z.abs v.

Definition encode_decimal (scale value : Z) (buf : bytes) : comp Error bytes :=
  if value =? 0 then Ok (put_zero buf scale)
  else
    let '(abs_value, sign) :=
      if value <? 0 then (abs_i128 value, NUMERIC_NEG) else (value, NUMERIC_POS) in
    digits ← base10000_loop MAX_I128_BASE10000_DIGITS abs_value [];
    Ok (put_numeric buf digits sign scale).

Definition count_base10000_digits (value : Z) : Z :=
  if value =? 0 then 0
  else if value <? 10000 then 1
  else if value <? 100000000 then 2
  else if value <? 1000000000000 then 3
  else if value <? 10000000000000000 then 4
  else Z.of_nat MAX_U64_BASE10000_DIGITS.

(** The division loop for very large numbers, with fuel for its digits. *)
Fixpoint count_loop (fuel : nat) (ndigits remaining : Z) : comp Error Z :=
  match fuel with
  | O => OutOfFuel
  | S fuel' =>
      if 0 <? remaining then count_loop fuel' (ndigits + 1) (remaining `quot` NUMERIC_BASE)
      else Ok ndigits
  end.

Definition count_base10000_digits_i128 (value : Z) : comp Error Z :=
  let abs_value := Z.abs value in
  if abs_value =? 0 then Ok 0
  else if abs_value <? 10000 then Ok 1
  else if abs_value <? 100000000 then Ok 2
  else if abs_value <? 1000000000000 then Ok 3
  else if abs_value <? 10000000000000000 then Ok 4
  else if abs_value <? 100000000000000000000 then Ok 5
  else if abs_value <? 1000000000000000000000000 then Ok 6
  else if abs_value <? 10000000000000000000000000000 then Ok 7
  else if abs_value <? 100000000000000000000000000000000 then Ok 8
  else if abs_value <? 1000000000000000000000000000000000000 then Ok 9
  else count_loop 3 (Z.of_nat MAX_I128_BASE10000_DIGITS)
         (abs_value `quot` 1000000000000000000000000000000000000).

(** ** Encoding a slot *)

Definition type_size_fixed (size : TypeSize) : comp Error Z :=
  match size with Fixed v => Ok v | Variable_size => Panic end.

(** [impl_encode!] and [impl_encode_fallible!]: the length is written before
    the conversion can fail. *)
Definition impl_encode {V W} (field_size : comp Error Z) (transform : V → W) (write : bytes → W → bytes)
    (arr : slots V) (row : nat) (buf : bytes) : comp Error bytes :=
  match arr !! row with
  | None => Panic
  | Some (false, _) => Ok (put_i32 buf (-1))
  | Some (true, v) =>
      size ← field_size;
      let buf := put_i32 buf size in
      Ok (write buf (transform v))
  end.

Definition impl_encode_fallible {V W} (field_size : comp Error Z) (transform : V → comp Error W)
    (write : bytes → W → bytes) (arr : slots V) (row : nat) (buf : bytes) : comp Error bytes :=
  match arr !! row with
  | None => Panic
  | Some (false, _) => Ok (put_i32 buf (-1))
  | Some (true, v) =>
      size ← field_size;
      let buf := put_i32 buf size in
      tv ← transform v;
      Ok (write buf tv)
  end.

(** The encoders with a loop of their own, on the value of a valid slot. *)
Definition impl_encode_slot {V} (encode_value : V → bytes → comp Error bytes)
    (arr : slots V) (row : nat) (buf : bytes) : comp Error bytes :=
  match arr !! row with
  | None => Panic
  | Some (false, _) => Ok (put_i32 buf (-1))
  | Some (true, v) => encode_value v buf
  end.

(** [GenericBinaryEncoder::encode] and [FixedSizeBinaryEncoder::encode] *)
Definition encode_binary (field : string) (v : bytes) (buf : bytes) : comp Error bytes :=
  let len := Z.of_nat (length v) in
  match i32_try_from len with
  | Some l => Ok (put_i32 buf l ++ v)
  | None => Err (FieldTooLarge field len)
  end.

#[global] Instance StringOutputType_eq_dec : EqDecision StringOutputType.
Proof. solve_decision. Defined.

(** What the code relies on of the crates [half] and [serde_json]. *)
Class ValueCodecs := {
  f32_from_f16 : Z → Z;
  f32_from_f16_range x : 0 <= f32_from_f16 x < 4294967296;
  json_valid : bytes → bool
}.

Section Encode.
Context `{ValueCodecs}.

(** [GenericStringEncoder::encode] *)
Definition encode_string (field : string) (output : StringOutputType) (v : bytes) (buf : bytes)
  : comp Error bytes :=
  if bool_decide (output = Jsonb) && negb (json_valid v) then Err (InvalidJson field)
  else
    let len := Z.of_nat (length v) in
    let len := if bool_decide (output = Jsonb) then len + 1 else len in
    match i32_try_from len with
    | Some l =>
        let buf := put_i32 buf l in
        let buf := if bool_decide (output = Jsonb) then put_u8 buf JSONB_VERSION else buf in
        Ok (buf ++ v)
    | None => Err (FieldTooLarge field len)
    end.

(** [for inner_row in 0..val.len() { inner_encoder.encode(inner_row, buf)?; }] *)
Definition encode_rows (encode_row : nat → bytes → comp Error bytes) (n : nat) (buf : bytes)
  : comp Error bytes :=
  foldl (λ acc inner_row, buf ← acc; encode_row inner_row buf) (Ok buf) (seq 0 n).

(** [GenericListEncoder::encode] on the array of a valid slot. The length is
    written as zero and patched when the elements are in the buffer. *)
Definition encode_list (encode_inner : Encoder → nat → bytes → comp Error bytes)
    (field : string) (inner_encoder_builder : EncoderBuilder) (val : Array) (buf : bytes)
  : comp Error bytes :=
  inner_encoder ← encoder_try_new inner_encoder_builder val;
  let base_idx := length buf in
  let buf := put_i32 buf 0 in
  let buf := put_i32 buf 1 in
  let buf := put_i32 buf (Z.b2z (negb (null_count val =? 0)%nat)) in
  column ← schema inner_encoder_builder;
  inner_tp_oid ← unwrap (oid (col_type column));
  let buf := put_i32 buf inner_tp_oid in
  let buf := put_i32 buf (Z.of_nat (arr_len val)) in
  let buf := put_i32 buf 1 in
  buf ← encode_rows (encode_inner inner_encoder) (arr_len val) buf;
  let total_len := Z.of_nat (length buf) - Z.of_nat base_idx - 4 in
  match i32_try_from total_len with
  | Some v => Ok (take base_idx buf ++ be 4 v ++ drop (base_idx + 4) buf)
  | None => Err (FieldTooLarge field total_len)
  end.

(** The encoders of lists hold a builder, from which the encoder of each list
    is made: their nesting bounds the recursion. *)
Fixpoint builder_depth (b : EncoderBuilder) : nat :=
  match b with
  | EncoderBuilder.List _ inner | EncoderBuilder.LargeList _ inner => S (builder_depth inner)
  | _ => O
  end.

Definition encoder_depth (e : Encoder) : nat :=
  match e with
  | Encoder.List _ _ inner | Encoder.LargeList _ _ inner => S (builder_depth inner)
  | _ => O
  end.

(** The [encode] of each struct the macros are applied to. *)
Definition BooleanEncoder_encode : slots bool → nat → bytes → comp Error bytes :=
  impl_encode (type_size_fixed (type_size PostgresType.Bool)) Z.b2z put_u8.
Definition UInt8Encoder_encode : slots Z → nat → bytes → comp Error bytes :=
  impl_encode (type_size_fixed (type_size PostgresType.Int2)) id put_i16.
Definition UInt16Encoder_encode : slots Z → nat → bytes → comp Error bytes :=
  impl_encode (type_size_fixed (type_size PostgresType.Int4)) id put_i32.
Definition UInt32Encoder_encode : slots Z → nat → bytes → comp Error bytes :=
  impl_encode (type_size_fixed (type_size PostgresType.Int8)) id put_i64.
Definition Int8Encoder_encode : slots Z → nat → bytes → comp Error bytes :=
  impl_encode (type_size_fixed (type_size PostgresType.Int2)) id put_i16.
Definition Int16Encoder_encode : slots Z → nat → bytes → comp Error bytes :=
  impl_encode (type_size_fixed (type_size PostgresType.Int2)) id put_i16.
Definition Int32Encoder_encode : slots Z → nat → bytes → comp Error bytes :=
  impl_encode (type_size_fixed (type_size PostgresType.Int4)) id put_i32.
Definition Int64Encoder_encode : slots Z → nat → bytes → comp Error bytes :=
  impl_encode (type_size_fixed (type_size PostgresType.Int8)) id put_i64.
Definition Float16Encoder_encode : slots Z → nat → bytes → comp Error bytes :=
  impl_encode (type_size_fixed (type_size PostgresType.Float4)) f32_from_f16 put_i32.
Definition Float32Encoder_encode : slots Z → nat → bytes → comp Error bytes :=
  impl_encode (type_size_fixed (type_size PostgresType.Float4)) id put_i32.
Definition Float64Encoder_encode : slots Z → nat → bytes → comp Error bytes :=
  impl_encode (type_size_fixed (type_size PostgresType.Float8)) id put_i64.
Definition TimestampMicrosecondEncoder_encode : slots Z → nat → bytes → comp Error bytes :=
  impl_encode_fallible (Ok 8) convert_arrow_timestamp_microseconds_to_pg_timestamp put_i64.
Definition TimestampMillisecondEncoder_encode : slots Z → nat → bytes → comp Error bytes :=
  impl_encode_fallible (Ok 8) convert_arrow_timestamp_milliseconds_to_pg_timestamp put_i64.
Definition TimestampSecondEncoder_encode : slots Z → nat → bytes → comp Error bytes :=
  impl_encode_fallible (Ok 8) convert_arrow_timestamp_seconds_to_pg_timestamp put_i64.
Definition TimestampNanosecondEncoder_encode : slots Z → nat → bytes → comp Error bytes :=
  impl_encode_fallible (Ok 8) convert_arrow_timestamp_nanoseconds_to_pg_timestamp put_i64.
Definition Date32Encoder_encode : slots Z → nat → bytes → comp Error bytes :=
  impl_encode_fallible (Ok 4) convert_arrow_date32_to_postgres_date put_i32.
Definition Time32MillisecondEncoder_encode : slots Z → nat → bytes → comp Error bytes :=
  impl_encode_fallible (type_size_fixed (type_size PostgresType.Time))
    convert_arrow_time_milliseconds_to_postgres_time put_i64.
Definition Time32SecondEncoder_encode : slots Z → nat → bytes → comp Error bytes :=
  impl_encode_fallible (type_size_fixed (type_size PostgresType.Time))
    convert_arrow_time_seconds_to_postgres_time put_i64.
Definition Time64MicrosecondEncoder_encode : slots Z → nat → bytes → comp Error bytes :=
  impl_encode (Ok 8) id put_i64.
Definition DurationMicrosecondEncoder_encode : slots Z → nat → bytes → comp Error bytes :=
  impl_encode (Ok 16) id write_duration.
Definition DurationMillisecondEncoder_encode : slots Z → nat → bytes → comp Error bytes :=
  impl_encode_fallible (type_size_fixed (type_size PostgresType.Interval))
    duration_milliseconds write_duration.
Definition DurationSecondEncoder_encode : slots Z → nat → bytes → comp Error bytes :=
  impl_encode_fallible (type_size_fixed (type_size PostgresType.Interval))
    duration_seconds write_duration.
Definition UInt64Encoder_encode : slots Z → nat → bytes → comp Error bytes :=
  impl_encode_slot encode_u64.
Definition Decimal128Encoder_encode (scale : Z) : slots Z → nat → bytes → comp Error bytes :=
  impl_encode_slot (encode_decimal scale).
Definition GenericBinaryEncoder_encode (field : string) : slots bytes → nat → bytes → comp Error bytes :=
  impl_encode_slot (encode_binary field).
Definition FixedSizeBinaryEncoder_encode (field : string) : slots bytes → nat → bytes → comp Error bytes :=
  impl_encode_slot (encode_binary field).
Definition GenericStringEncoder_encode (field : string) (output : StringOutputType)
  : slots bytes → nat → bytes → comp Error bytes :=
  impl_encode_slot (encode_string field output).
Definition GenericListEncoder_encode (encode_inner : Encoder → nat → bytes → comp Error bytes)
    (field : string) (inner : EncoderBuilder) : slots Array → nat → bytes → comp Error bytes :=
  impl_encode_slot (encode_list encode_inner field inner).

(** [Encode::encode] *)
Fixpoint encode_at (fuel : nat) (e : Encoder) (row : nat) (buf : bytes) : comp Error bytes :=
  match e with
  | Encoder.Boolean arr => BooleanEncoder_encode arr row buf
  | Encoder.UInt8 arr => UInt8Encoder_encode arr row buf
  | Encoder.UInt16 arr => UInt16Encoder_encode arr row buf
  | Encoder.UInt32 arr => UInt32Encoder_encode arr row buf
  | Encoder.UInt64 arr => UInt64Encoder_encode arr row buf
  | Encoder.Int8 arr => Int8Encoder_encode arr row buf
  | Encoder.Int16 arr => Int16Encoder_encode arr row buf
  | Encoder.Int32 arr => Int32Encoder_encode arr row buf
  | Encoder.Int64 arr => Int64Encoder_encode arr row buf
  | Encoder.Float16 arr => Float16Encoder_encode arr row buf
  | Encoder.Float32 arr => Float32Encoder_encode arr row buf
  | Encoder.Float64 arr => Float64Encoder_encode arr row buf
  | Encoder.Decimal128 scale arr _ => Decimal128Encoder_encode scale arr row buf
  | Encoder.TimestampMicrosecond arr _ => TimestampMicrosecondEncoder_encode arr row buf
  | Encoder.TimestampMillisecond arr _ => TimestampMillisecondEncoder_encode arr row buf
  | Encoder.TimestampSecond arr _ => TimestampSecondEncoder_encode arr row buf
  | Encoder.TimestampNanosecond arr _ => TimestampNanosecondEncoder_encode arr row buf
  | Encoder.Date32 arr _ => Date32Encoder_encode arr row buf
  | Encoder.Time32Millisecond arr _ => Time32MillisecondEncoder_encode arr row buf
  | Encoder.Time32Second arr _ => Time32SecondEncoder_encode arr row buf
  | Encoder.Time64Microsecond arr => Time64MicrosecondEncoder_encode arr row buf
  | Encoder.DurationMicrosecond arr => DurationMicrosecondEncoder_encode arr row buf
  | Encoder.DurationMillisecond arr _ => DurationMillisecondEncoder_encode arr row buf
  | Encoder.DurationSecond arr _ => DurationSecondEncoder_encode arr row buf
  | Encoder.Binary arr field
  | Encoder.LargeBinary arr field => GenericBinaryEncoder_encode field arr row buf
  | Encoder.FixedSizeBinary _ arr field => FixedSizeBinaryEncoder_encode field arr row buf
  | Encoder.String arr field output
  | Encoder.LargeString arr field output =>
      GenericStringEncoder_encode field output arr row buf
  | Encoder.List arr field inner
  | Encoder.LargeList arr field inner =>
      match fuel with
      | O => OutOfFuel
      | S fuel' => GenericListEncoder_encode (encode_at fuel') field inner arr row buf
      end
  end.

Definition encode (e : Encoder) (row : nat) (buf : bytes) : comp Error bytes :=
  encode_at (encoder_depth e) e row buf.

(** ** Size hints, on [usize] *)

Definition fixed_size_hint {V} (field_size : comp Error Z) (arr : slots V) : comp Error Z :=
  size ← field_size;
  let null_count := Z.of_nat (count_nulls arr) in
  let item_count := Z.of_nat (length arr) in
  Ok (add64 (mul64 (sub64 item_count null_count) size) item_count).

(** The loops that add up the size of each row. *)
Definition sum_rows {V} (row_size : bool * V → comp Error Z) (arr : slots V) : comp Error Z :=
  foldl (λ acc s, total ← acc; size ← row_size s; Ok (add64 total size)) (Ok 0) arr.

Definition u64_row_size (s : bool * Z) : comp Error Z :=
  if s.1 then Ok (4 + NUMERIC_HEADER_SIZE + count_base10000_digits s.2 * 2) else Ok 4.

Definition decimal_row_size (s : bool * Z) : comp Error Z :=
  if s.1 then ndigits ← count_base10000_digits_i128 s.2; Ok (4 + NUMERIC_HEADER_SIZE + ndigits * 2)
  else Ok 4.

(** The value of a null slot counts too. *)
Definition binary_row_size (s : bool * bytes) : comp Error Z := Ok (4 + Z.of_nat (length s.2)).

Definition string_row_size (output : StringOutputType) (s : bool * bytes) : comp Error Z :=
  Ok (4 + Z.of_nat (length s.2) + (if bool_decide (output = Jsonb) then 1 else 0)).

Definition fixed_binary_size_hint (value_length : Z) (arr : slots bytes) : comp Error Z :=
  let null_count := Z.of_nat (count_nulls arr) in
  let item_count := Z.of_nat (length arr) in
  Ok (add64 (mul64 (sub64 item_count null_count) value_length) (mul64 item_count 4)).

Definition ARRAY_METADATA_SIZE : Z := 24.

Definition list_row_size (inner_size_hint : Encoder → comp Error Z)
    (inner_encoder_builder : EncoderBuilder) (s : bool * Array) : comp Error Z :=
  if s.1
  then
    inner_encoder ← encoder_try_new inner_encoder_builder s.2;
    inner_size ← inner_size_hint inner_encoder;
    Ok (add64 ARRAY_METADATA_SIZE inner_size)
  else Ok 4.

(** [Encode::size_hint] *)
Fixpoint size_hint_at (fuel : nat) (e : Encoder) : comp Error Z :=
  let fixed t := type_size_fixed (type_size t) in
  match e with
  | Encoder.Boolean arr => fixed_size_hint (fixed PostgresType.Bool) arr
  | Encoder.UInt8 arr | Encoder.Int8 arr | Encoder.Int16 arr =>
      fixed_size_hint (fixed PostgresType.Int2) arr
  | Encoder.UInt16 arr | Encoder.Int32 arr => fixed_size_hint (fixed PostgresType.Int4) arr
  | Encoder.UInt32 arr | Encoder.Int64 arr => fixed_size_hint (fixed PostgresType.Int8) arr
  | Encoder.UInt64 arr => sum_rows u64_row_size arr
  | Encoder.Float16 arr | Encoder.Float32 arr => fixed_size_hint (fixed PostgresType.Float4) arr
  | Encoder.Float64 arr => fixed_size_hint (fixed PostgresType.Float8) arr
  | Encoder.Decimal128 _ arr _ => sum_rows decimal_row_size arr
  | Encoder.TimestampMicrosecond arr _ | Encoder.TimestampMillisecond arr _
  | Encoder.TimestampSecond arr _ | Encoder.TimestampNanosecond arr _
  | Encoder.Time64Microsecond arr => fixed_size_hint (Ok 8) arr
  | Encoder.Date32 arr _ => fixed_size_hint (Ok 4) arr
  | Encoder.Time32Millisecond arr _ | Encoder.Time32Second arr _ =>
      fixed_size_hint (fixed PostgresType.Time) arr
  | Encoder.DurationMicrosecond arr => fixed_size_hint (Ok 16) arr
  | Encoder.DurationMillisecond arr _ | Encoder.DurationSecond arr _ =>
      fixed_size_hint (fixed PostgresType.Interval) arr
  | Encoder.Binary arr _ | Encoder.LargeBinary arr _ => sum_rows binary_row_size arr
  | Encoder.FixedSizeBinary value_length arr _ => fixed_binary_size_hint value_length arr
  | Encoder.String arr _ output | Encoder.LargeString arr _ output =>
      sum_rows (string_row_size output) arr
  | Encoder.List arr _ inner | Encoder.LargeList arr _ inner =>
      match fuel with
      | O => OutOfFuel
      | S fuel' => sum_rows (list_row_size (size_hint_at fuel') inner) arr
      end
  end.

Definition size_hint (e : Encoder) : comp Error Z := size_hint_at (encoder_depth e) e.

(** ** Encoding a batch *)

Record RecordBatch := mkBatch { columns : list Array; num_rows : nat }.

(** [ArrowToPostgresBinaryEncoder], the two states of which hold the same. *)
Record BatchEncoder := mkBatchEncoder {
  be_fields : list Field;
  encoder_builders : list EncoderBuilder
}.

Definition build_encoders (fields : list Field) : list (string * comp Error EncoderBuilder) :=
  (λ f, (field_name f, builder_try_new f)) <$> fields.

(** [ArrowToPostgresBinaryEncoder::try_new] *)
Definition batch_encoder_try_new (fields : list Field) : comp Error BatchEncoder :=
  builders ← mapM snd (build_encoders fields);
  Ok (mkBatchEncoder fields builders).

(** The builders of the fields, each removed from the map; the collection of
    results stops at the first field without one. *)
Fixpoint take_encoders (fields : list Field) (encoders : gmap string EncoderBuilder)
  : comp Error (list EncoderBuilder) * gmap string EncoderBuilder :=
  match fields with
  | [] => (Ok [], encoders)
  | f :: fields' =>
      match encoders !! field_name f with
      | None => (Err (EncoderMissing (field_name f)), encoders)
      | Some b =>
          let '(res, rest) := take_encoders fields' (delete (field_name f) encoders) in
          (cons b <$> res, rest)
      end
  end.

(** [ArrowToPostgresBinaryEncoder::try_new_with_encoders] *)
Definition try_new_with_encoders (fields : list Field) (encoders : gmap string EncoderBuilder)
  : comp Error BatchEncoder :=
  let '(maybe_encoder_builders, rest) := take_encoders fields encoders in
  if negb (bool_decide (rest = ∅)) then Err (UnknownFields (map_to_list rest).*1)
  else builders ← maybe_encoder_builders; Ok (mkBatchEncoder fields builders).

(** [b"PGCOPY\n\xff\r\n\0"] *)
Definition HEADER_MAGIC_BYTES : bytes := [80; 71; 67; 79; 80; 89; 10; 255; 13; 10; 0].
Definition HEADER_SIZE : Z := 20.
Definition FOOTER_SIZE : Z := 2.

(** The capacity the buffer is allocated with. *)
Definition buffer_size (encoders : list Encoder) (n_rows : nat) : comp Error Z :=
  data_size ← foldl (λ acc e, data_size ← acc; size ← size_hint e; Ok (add64 data_size size))
                    (Ok 0) encoders;
  let data_size := add64 data_size (mul64 (Z.of_nat n_rows) 2) in
  Ok (add64 (add64 HEADER_SIZE data_size) FOOTER_SIZE).

(** One row: its number of columns, then each column. *)
Definition encode_row (encoders : list Encoder) (n_cols : nat) (row : nat) (buf : bytes)
  : comp Error bytes :=
  foldl (λ acc encoder, buf ← acc; encode encoder row buf)
        (Ok (put_i16 buf (Z.of_nat n_cols))) encoders.

(** [ArrowToPostgresBinaryEncoder::encode_batch] *)
Definition encode_batch (self : BatchEncoder) (batch : RecordBatch)
  : comp Error (bytes * BatchEncoder) :=
  if negb (bool_decide (length (columns batch) = length (be_fields self)))
  then Err (ColumnCountMismatch (Z.of_nat (length (be_fields self)))
                                (Z.of_nat (length (columns batch))))
  else
    encoders ← mapM (λ cb, encoder_try_new cb.2 cb.1)
                    (zip (columns batch) (encoder_builders self));
    _ ← buffer_size encoders (num_rows batch);
    let buffer := HEADER_MAGIC_BYTES in
    let buffer := put_i32 buffer 0 in
    let buffer := put_i32 buffer 0 in
    buffer ← encode_rows (encode_row encoders (length (columns batch))) (num_rows batch) buffer;
    let buffer := put_i16 buffer (-1) in
    Ok (buffer, mkBatchEncoder (be_fields self) (encoder_builders self)).

(** [ArrowToPostgresBinaryEncoder::schema] *)
Definition postgres_schema (self : BatchEncoder) : comp Error (list (string * Column)) :=
  mapM (λ bf, column ← schema bf.1; Ok (field_name bf.2, column))
       (zip (encoder_builders self) (be_fields self)).
End Encode.

(** ** The metadata columns of ampsync *)

(** [_tx_id as i64] and [0..num_rows as i32]. A range of [i32] that starts above
    its end is empty. *)
Definition as_i32 (z : Z) : Z :=
  let w := z `mod` 4294967296 in if w <? 2147483648 then w else w - 4294967296.

Definition row_indices (num_rows : nat) : list Z :=
  Z.of_nat <$> seq 0 (Z.to_nat (as_i32 (Z.of_nat num_rows))).

Definition valid_slots (xs : list Z) : slots Z := pair true <$> xs.

(** A batch with its schema. *)
Record SchemaBatch := mkSchemaBatch { sb_fields : list Field; sb_batch : RecordBatch }.

Inductive AmpsyncError := CreateRecordBatch | CreateEncoder (e : Error) | EncodeBatch (e : Error).

(** The [try_new] of [RecordBatch]: at least one column, a column of the type
    of each field without nulls where it has none, all of the same length. *)
Definition record_batch_try_new (fields : list Field) (columns : list Array)
  : comp AmpsyncError SchemaBatch :=
  match columns with
  | c :: _ =>
      if bool_decide (length fields = length columns) &&
         forallb (λ a, (arr_len a =? arr_len c)%nat) columns &&
         forallb (λ fa, well_typed fa.1 fa.2 && (is_nullable fa.1 || (null_count fa.2 =? 0)%nat))
                 (zip fields columns)
      then Ok (mkSchemaBatch fields (mkBatch columns (arr_len c)))
      else Err CreateRecordBatch
  | [] => Err CreateRecordBatch
  end.

Definition add_transaction_metadata (batch : SchemaBatch) (tx_id : Z)
  : comp AmpsyncError SchemaBatch :=
  let num_rows := num_rows (sb_batch batch) in
  let tx_id_array := PrimitiveArray Int64Type (valid_slots (replicate num_rows (to_i64 tx_id))) in
  let row_index_array := PrimitiveArray Int32Type (valid_slots (row_indices num_rows)) in
  let fields :=
    [mkField "_tx_id" DataType.Int64 false; mkField "_row_index" DataType.Int32 false]
      ++ sb_fields batch in
  record_batch_try_new fields ([tx_id_array; row_index_array] ++ columns (sb_batch batch)).

Definition to_postgres_copy `{ValueCodecs} (batch : SchemaBatch) : comp AmpsyncError bytes :=
  match batch_encoder_try_new (sb_fields batch) with
  | Ok encoder =>
      match encode_batch encoder (sb_batch batch) with
      | Ok (buffer, _) => Ok buffer
      | Err e => Err (EncodeBatch e)
      | Panic => Panic
      | OutOfFuel => OutOfFuel
      end
  | Err e => Err (CreateEncoder e)
  | Panic => Panic
  | OutOfFuel => OutOfFuel
  end.
