(* ===== verification/JsFunctions.v ===== *)
(** * JsFunctions

    The functions of derived datasets in JavaScript: the conversion of scalar
    values to values of V8 and back (core/js-runtime/src/convert), an isolate
    with its cache of compiled scripts (isolate.rs), the pool of isolates
    (isolate_pool.rs) and the function on columns (core/common/src/js_udf.rs).

    V8 is a parameter: compiling, running a script, looking up a function and
    calling it in a realm. A number is the bits of a float; a BigInt is the sign
    and the words that V8 takes and gives; a string is its bytes; an object is
    its own properties, with nothing for one whose reading throws. A nested
    scalar is given by the scalars of its elements. An invocation is not dropped
    before its answer. *)

From stdpp Require Import base numbers gmap strings option list.
From Stdlib Require Import ZArith Lia.
From S2P Require Import Prelude PgTypes PgCopy BTree.

#[local] Open Scope Z_scope.

(** ** Values *)

#[warnings="-register-all"]
Inductive JsValue :=
  | JsUndefined
  | JsNull
  | JsBoolean (b : bool)
  | JsNumber (f : Z)
  | JsBigInt (sign : bool) (words : list Z)
  | JsString (s : bytes)
  | JsArray (l : list JsValue)
  | JsTypedArray (b : bytes)
  | JsObject (props : list (bytes * option JsValue))
  | JsOther.

(** [ScalarValue], by what the conversions decide on. *)
#[warnings="-register-all"]
Inductive Scalar :=
  | ScalarNull
  | ScalarBoolean (b : option bool)
  | ScalarFloat32 (f : option Z)
  | ScalarFloat64 (f : option Z)
  | ScalarInteger (p : PrimitiveType) (i : option Z)
  | ScalarUtf8 (s : option bytes)
  | ScalarBinary (b : option bytes)
  | ScalarDecimal128 (i : option Z) (scale : Z)
  | ScalarDecimal256 (i : option Z) (precision scale : Z)
  | ScalarStruct (valid : bool) (fields : list (bytes * Scalar))
  | ScalarList (valid : bool) (items : list Scalar)
  | ScalarOther.

Inductive JsError :=
  | Exception | StringTooLong | FunctionNotFound (name : bytes)
  | ConvertReturnValue (e : JsError) | ConvertParam (i : nat) (e : JsError) | JsPanic
  | FractionalDecimal | UnsupportedType | ArrayUnsupported | TypedArrayUnsupported | StructFailed | ArrowFailed.

Abbreviation js := (comp JsError).

(** ** Words *)

Definition word_mask : Z := 2 ^ 64 - 1.

Definition to_i256 (z : Z) : Z := let w := z `mod` 2 ^ 256 in if w <? 2 ^ 255 then w else w - 2 ^ 256.

(** [i128::to_v8] *)
Definition words_i128 (i : Z) : bool * list Z :=
  let sign_bit := i <? 0 in
  let magnitude := if sign_bit then (- i) `mod` 2 ^ 128 else i in
  let lo := Z.land magnitude word_mask in
  let hi := Z.shiftr magnitude 64 in
  (sign_bit, if hi =? 0 then [lo] else [lo; hi]).

(** The words without the zeros at the end, but at least one. *)
Fixpoint trim_words (n : nat) (words : list Z) : list Z :=
  match n with
  | O => words
  | S n =>
      match last words with
      | Some 0 => if (1 <? length words)%nat then trim_words n (take (length words - 1) words) else words
      | _ => words
      end
  end.

(** [i256::to_v8] *)
Definition words_i256 (i : Z) : bool * list Z :=
  let sign_bit := i <? 0 in
  let magnitude := if sign_bit then to_i256 (- i) else i in
  (sign_bit, trim_words 4 ((λ k, Z.land (Z.shiftr magnitude (64 * k)) word_mask) <$> [0; 1; 2; 3])).

(** The loop over the words of a BigInt. *)
Fixpoint or_words (index : Z) (value : Z) (words : list Z) : Z :=
  match words with
  | [] => value
  | word :: words => or_words (index + 1) (to_i256 (Z.lor value (to_i256 (Z.shiftl word (index * 64))))) words
  end.

Definition scalar_of_bigint (sign : bool) (words : list Z) : Scalar :=
  if (4 <? length words)%nat then ScalarNull
  else
    let value := or_words 0 0 words in
    if value <? 0 then ScalarNull
    else ScalarDecimal256 (Some (if sign then to_i256 (- value) else value)) 76 0.

(** ** To V8 and back *)

(** Floats: the float of an integer, the integer that a float is, and the float
    of 64 bits of one of 32; the strings that V8 accepts; and the structure that
    a builder makes. *)
Record Engine := mkEngine {
  of_int : Z → Z;
  int_of : Z → option Z;
  widen : Z → Z;
  string_fits : bytes → bool;
  build_struct : list (bytes * Scalar) → js Scalar
}.

Section Convert.
Context (v8 : Engine).

Definition option_to_v8 {V} (f : V → JsValue) (o : option V) : JsValue := match o with Some v => f v | None => JsNull end.

Definition bigint (w : bool * list Z) : JsValue := JsBigInt w.1 w.2.

Definition str_to_v8 (s : bytes) : js JsValue := if string_fits v8 s then Ok (JsString s) else Err StringTooLong.

Definition integer_to_v8 (p : PrimitiveType) (i : Z) : JsValue :=
  match p with
  | Int64Type | UInt64Type => JsBigInt (i <? 0) [Z.abs i]
  | _ => JsNumber (of_int v8 i)
  end.

Fixpoint set_property (key : bytes) (value : JsValue) (props : list (bytes * option JsValue)) : list (bytes * option JsValue) :=
  match props with
  | [] => [(key, Some value)]
  | (k, v) :: props => if bool_decide (k = key) then (k, Some value) :: props else (k, v) :: set_property key value props
  end.

(** Setting [__proto__] sets the prototype, or nothing, but no property. *)
Definition proto_key : bytes := [95; 95; 112; 114; 111; 116; 111; 95; 95].

Definition set_field (key : bytes) (value : JsValue) (props : list (bytes * option JsValue)) : list (bytes * option JsValue) :=
  if bool_decide (key = proto_key) then props else set_property key value props.

(** The fields of a structure as properties; the key is unwrapped. *)
Definition fields_to_v8 {S} (f : S → js JsValue) : list (bytes * S) → list (bytes * option JsValue) → js (list (bytes * option JsValue)) :=
  fix go fields props :=
    match fields with
    | [] => Ok props
    | (name, sv) :: fields =>
        _ ← assert (string_fits v8 name);
        value ← f sv;
        go fields (set_field name value props)
    end.

Fixpoint to_v8 (s : Scalar) : js JsValue :=
  match s with
  | ScalarNull => Ok JsNull
  | ScalarBoolean b => Ok (option_to_v8 JsBoolean b)
  | ScalarFloat32 f => Ok (option_to_v8 (λ f, JsNumber (widen v8 f)) f)
  | ScalarFloat64 f => Ok (option_to_v8 JsNumber f)
  | ScalarInteger p i => Ok (option_to_v8 (integer_to_v8 p) i)
  | ScalarUtf8 s => match s with Some s => str_to_v8 s | None => Ok JsNull end
  | ScalarBinary b => Ok (option_to_v8 JsTypedArray b)
  | ScalarDecimal128 i scale => if scale =? 0 then Ok (option_to_v8 (bigint ∘ words_i128) i) else Err FractionalDecimal
  | ScalarDecimal256 i _ scale => if scale =? 0 then Ok (option_to_v8 (bigint ∘ words_i256) i) else Err FractionalDecimal
  | ScalarStruct _ fields => props ← fields_to_v8 to_v8 fields []; Ok (JsObject props)
  | ScalarList _ items => l ← mapM to_v8 items; Ok (JsArray l)
  | ScalarOther => Err UnsupportedType
  end.

(** The types that [V8Value::new] refuses. *)
Definition supported_value (v : JsValue) : bool := match v with JsOther => false | _ => true end.

(** The properties of an object by their names; the conversion of a value is
    kept until all are read. *)
Definition read_props {B} (f : JsValue → B) : list (bytes * option JsValue) → BTreeMap bytes B → js (BTreeMap bytes B) :=
  fix go props acc :=
    match props with
    | [] => Ok acc
    | (_, None) :: _ => Err Exception
    | (key, Some v) :: props => if supported_value v then go props (btree_insert key (f v) acc) else go props acc
    end.

Definition number_from_v8 (f : Z) : Scalar :=
  match int_of v8 f with
  | Some i =>
      if (-2147483648 <=? i) && (i <=? 2147483647) then ScalarInteger Int32Type (Some i)
      else if (0 <=? i) && (i <=? 4294967295) then ScalarInteger UInt32Type (Some i)
      else ScalarFloat64 (Some f)
  | None => ScalarFloat64 (Some f)
  end.

(** [V8Value::new] and [scalar_value_from_v8] *)
Fixpoint from_v8 (value : JsValue) : js Scalar :=
  match value with
  | JsUndefined | JsNull => Ok ScalarNull
  | JsBoolean b => Ok (ScalarBoolean (Some b))
  | JsNumber f => Ok (number_from_v8 f)
  | JsBigInt sign words => Ok (scalar_of_bigint sign words)
  | JsString s => Ok (ScalarUtf8 (Some s))
  | JsObject props =>
      v8_values ← read_props from_v8 props [];
      fields ← mapM (λ kv : bytes * js Scalar, value ← kv.2; Ok (kv.1, value)) v8_values;
      build_struct v8 fields
  | JsArray _ => Err ArrayUnsupported
  | JsTypedArray _ => Err TypedArrayUnsupported
  | JsOther => Err UnsupportedType
  end.
End Convert.

(** ** Isolates *)

(** V8 as an isolate uses it; a call may change the realm that it runs in. *)
Record Runtime := mkRuntime {
  Script : Type;
  Realm : Type;
  Fn : Type;
  hash : bytes → Z;
  compile : bytes → bytes → option Script;
  new_realm : Realm;
  run : Script → Realm → option Realm;
  get_function : Realm → bytes → option Fn;
  call : Fn → list JsValue → Realm → Realm * option JsValue
}.

Section Isolate.
Context (v8 : Engine) (rt : Runtime).

Abbreviation Isolate := (gmap Z (Script rt)).

(** [compile_script] *)
Definition compile_script (filename script : bytes) (scripts : Isolate) : Isolate * js (Script rt) :=
  let key := hash rt script in
  match scripts !! key with
  | Some script => (scripts, Ok script)
  | None =>
      if negb (string_fits v8 filename) then (scripts, Err StringTooLong)
      else if negb (string_fits v8 script) then (scripts, Err StringTooLong)
      else match compile rt filename script with
           | Some compiled_script => (<[key := compiled_script]> scripts, Ok compiled_script)
           | None => (scripts, Err Exception)
           end
  end.

(** The parameters of a call, with the number of the one that fails. *)
Fixpoint convert_params (i : nat) (params : list Scalar) : js (list JsValue) :=
  match params with
  | [] => Ok []
  | p :: params => v ← comp_map_err (ConvertParam i) (to_v8 v8 p); vs ← convert_params (S i) params; Ok (v :: vs)
  end.

Definition call_function (func : Fn rt) (params : list Scalar) (realm : Realm rt) : Realm rt * js Scalar :=
  match convert_params 0 params with
  | Ok params =>
      match call rt func params realm with
      | (realm, Some ret_val) => (realm, comp_map_err ConvertReturnValue (from_v8 v8 ret_val))
      | (realm, None) => (realm, Err Exception)
      end
  | Err e => (realm, Err e)
  | Panic => (realm, Panic)
  | OutOfFuel => (realm, OutOfFuel)
  end.

Definition find_function (function : bytes) (realm : Realm rt) : js (Fn rt) :=
  if string_fits v8 function then ok_or (get_function rt realm function) (FunctionNotFound function) else Err StringTooLong.

(** The calls of a batch share the realm; the first error ends it. *)
Fixpoint call_batch (func : Fn rt) (batch : list (list Scalar)) (realm : Realm rt) : js (list Scalar) :=
  match batch with
  | [] => Ok []
  | params :: batch =>
      let '(realm, r) := call_function func params realm in
      v ← r; vs ← call_batch func batch realm; Ok (v :: vs)
  end.

Record Request := mkRequest { filename : bytes; script : bytes; function : bytes; params_batch : list (list Scalar) }.

Definition run_batch (compiled : Script rt) (r : Request) : js (list Scalar) :=
  realm ← ok_or (run rt compiled (new_realm rt)) Exception;
  func ← find_function (function r) realm;
  call_batch func (params_batch r) realm.

(** [Isolate::invoke_batch] *)
Definition invoke_batch (r : Request) (scripts : Isolate) : Isolate * js (list Scalar) :=
  let '(scripts, compiled) := compile_script (filename r) (script r) scripts in
  (scripts, c ← compiled; run_batch c r).

(** [JsInvoke::invoke]: a panic is caught. *)
Definition catch_unwind {A} (m : js A) : js A := match m with Panic => Err JsPanic | m => m end.

Definition thread_invoke (r : Request) (scripts : Isolate) : Isolate * js (list Scalar) :=
  let '(scripts, result) := invoke_batch r scripts in (scripts, catch_unwind result).

(** *** The pool *)

Definition is_panic {A} (m : js A) : bool := match m with Err JsPanic => true | _ => false end.

Record Pool := mkPool { max_size : nat; idle : list Isolate; busy : gmap nat (Isolate * Request) }.

Definition pool_size (p : Pool) : nat := (length (idle p) + size (busy p))%nat.

(** [IsolatePool::new] and [dummy] *)
Definition pool_new (n : nat) : Pool := mkPool n [] ∅.

(** An isolate is added while the pool is not full. *)
Definition add_isolate (p : Pool) : Pool :=
  if (pool_size p <? max_size p)%nat then mkPool (max_size p) (∅ :: idle p) (busy p) else p.

(** The invocations of [invoke_batch], each with its number: the wait for an
    isolate ends when one is idle; the thread answers, and after a panic its
    isolate is not used again. *)
Inductive pool_step : Pool → option (Request * js (list Scalar)) → Pool → Prop :=
  | invoke_adds p : pool_step p None (add_isolate p)
  | invoke_starts p i r iso rest :
      idle p ≡ₚ iso :: rest → busy p !! i = None →
      pool_step p None (mkPool (max_size p) rest (<[i := (iso, r)]> (busy p)))
  | invoke_answers p i r iso iso' result :
      busy p !! i = Some (iso, r) → thread_invoke r iso = (iso', result) →
      pool_step p (Some (r, result))
        (mkPool (max_size p) (if is_panic result then idle p else iso' :: idle p) (delete i (busy p))).

(** ** Functions on columns *)

Inductive Column := ScalarColumn (s : Scalar) | ArrayColumn (l : list Scalar).

Definition columnar_to_scalar (c : Column) (row_idx : nat) : js Scalar :=
  match c with
  | ScalarColumn s => Ok s
  | ArrayColumn l => ok_or (l !! row_idx) ArrowFailed
  end.

Definition transposed (args : list Column) (num_rows : nat) : js (list (list Scalar)) :=
  mapM (λ i, mapM (λ arg, columnar_to_scalar arg i) args) (seq 0 num_rows).

(** [JsUdf::invoke_async_with_args], up to the array of the outputs *)
Definition js_udf (script_name code function_name : bytes) (args : list Column) (num_rows : nat) (scripts : Isolate) : Isolate * js (list Scalar) :=
  match transposed args num_rows with
  | Ok batch => thread_invoke (mkRequest script_name code function_name batch) scripts
  | Err e => (scripts, Err e)
  | Panic => (scripts, Panic)
  | OutOfFuel => (scripts, OutOfFuel)
  end.
End Isolate.

(** ** Integers *)

Fixpoint words_value (words : list Z) : Z := match words with [] => 0 | w :: words => w + 2 ^ 64 * words_value words end.

Lemma lor_high v c k : 0 <= k → 0 <= v < 2 ^ k → Z.lor v (c * 2 ^ k) = v + c * 2 ^ k.
Proof.
  intros Hk Hv. assert (Z.land v (c * 2 ^ k) = 0) as Hland.
  { apply Z.bits_inj'. intros n Hn. rewrite Z.land_spec, Z.bits_0. destruct (Z.lt_ge_cases n k).
    - by rewrite Z.mul_pow2_bits_low, andb_false_r.
    - assert (Z.testbit v n = false) as ->; [|done]. rewrite <- (Z.mod_small v (2 ^ k)) by done. by apply Z.mod_pow2_bits_high; lia. }
  by rewrite Z.add_nocarry_lxor, Z.lxor_lor.
Qed.

Lemma to_i256_small z : - 2 ^ 255 <= z < 2 ^ 255 → to_i256 z = z.
Proof.
  intros Hz. unfold to_i256. change (2 ^ 256) with (2 * 2 ^ 255). destruct (Z.lt_ge_cases z 0).
  - rewrite <- (Z.mod_unique z (2 * 2 ^ 255) (-1) (z + 2 * 2 ^ 255)) by lia.
    destruct (Z.ltb_spec (z + 2 * 2 ^ 255) (2 ^ 255)); lia.
  - rewrite Z.mod_small by lia. destruct (Z.ltb_spec z (2 ^ 255)); lia.
Qed.

Lemma to_i256_eq z : ∃ q, to_i256 z = z + q * 2 ^ 256.
Proof.
  unfold to_i256. pose proof (Z.div_mod z (2 ^ 256) ltac:(done)) as H.
  destruct (_ <? _); [exists (- (z / 2 ^ 256))|exists (- (z / 2 ^ 256) - 1)]; lia.
Qed.

Lemma to_i256_cong z q : to_i256 (z + q * 2 ^ 256) = to_i256 z.
Proof. unfold to_i256. by rewrite Z.mod_add. Qed.

Lemma to_i256_range z : - 2 ^ 255 <= to_i256 z < 2 ^ 255.
Proof.
  unfold to_i256. pose proof (Z.mod_pos_bound z (2 ^ 256) ltac:(done)) as H. change (2 ^ 256) with (2 * 2 ^ 255) in *.
  destruct (Z.ltb_spec (z `mod` (2 * 2 ^ 255)) (2 ^ 255)); lia.
Qed.

Definition u64_words (words : list Z) : Prop := Forall (λ w, 0 <= w < 2 ^ 64) words.

Lemma or_words_spec words : ∀ index v,
  0 <= index → index + Z.of_nat (length words) <= 4 → 0 <= v < 2 ^ (64 * index) → u64_words words →
  to_i256 (or_words index (to_i256 v) words) = to_i256 (v + words_value words * 2 ^ (64 * index)).
Proof.
  induction words as [|w words IH]; intros index v Hi Hlen Hv Hw; cbn [or_words words_value].
  { rewrite Z.mul_0_l, Z.add_0_r. apply to_i256_small, to_i256_range. }
  apply list.Forall_cons in Hw as [Hw Hws]. cbn [length] in Hlen. rewrite Nat2Z.inj_succ in Hlen.
  assert (2 ^ (64 * index) <= 2 ^ 192) by (apply Z.pow_le_mono_r; lia).
  assert (2 ^ 256 = 2 ^ (256 - 64 * index) * 2 ^ (64 * index)) as H256 by (rewrite <- Z.pow_add_r by lia; f_equal; lia).
  rewrite (to_i256_small v) by (assert (2 ^ 192 < 2 ^ 255) by done; lia).
  rewrite Z.shiftl_mul_pow2, (Z.mul_comm index 64) by lia. destruct (to_i256_eq (w * 2 ^ (64 * index))) as [q ->].
  replace (w * 2 ^ (64 * index) + q * 2 ^ 256) with ((w + q * 2 ^ (256 - 64 * index)) * 2 ^ (64 * index)) by (rewrite H256; ring).
  rewrite lor_high by lia.
  replace (v + (w + q * 2 ^ (256 - 64 * index)) * 2 ^ (64 * index)) with (v + w * 2 ^ (64 * index) + q * 2 ^ 256) by (rewrite H256; ring).
  rewrite to_i256_cong, IH; [| | | |done].
  - f_equal. rewrite Z.mul_add_distr_l, Z.pow_add_r by lia. change (2 ^ (64 * 1)) with (2 ^ 64). ring.
  - lia.
  - lia.
  - rewrite Z.mul_add_distr_l, Z.pow_add_r by lia. change (2 ^ (64 * 1)) with (2 ^ 64). nia.
Qed.

Lemma or_words_range words : ∀ index v, - 2 ^ 255 <= v < 2 ^ 255 → - 2 ^ 255 <= or_words index v words < 2 ^ 255.
Proof. induction words as [|w words IH]; intros index v Hv; cbn [or_words]; [done|]. apply IH, to_i256_range. Qed.

Lemma words_value_bound words : u64_words words → 0 <= words_value words < 2 ^ (64 * Z.of_nat (length words)).
Proof.
  induction 1 as [|w words Hw _ IH]; cbn [words_value length]; [done|].
  rewrite Nat2Z.inj_succ, Z.mul_succ_r, Z.pow_add_r by lia. change (2 ^ 64) with 18446744073709551616 in *. nia.
Qed.

(** The decimal of a BigInt of at most four words. *)
Lemma scalar_of_bigint_spec sign words :
  u64_words words → (length words <= 4)%nat →
  scalar_of_bigint sign words =
  (if words_value words <? 2 ^ 255 then ScalarDecimal256 (Some (if sign then - words_value words else words_value words)) 76 0 else ScalarNull).
Proof.
  intros Hw Hlen. unfold scalar_of_bigint. destruct (Nat.ltb_spec 4 (length words)) as [?|_]; [lia|].
  pose proof (or_words_spec words 0 0 ltac:(done) ltac:(lia) ltac:(done) Hw) as Hor. change (to_i256 0) with 0 in Hor.
  rewrite Z.add_0_l, Z.mul_1_r in Hor. rewrite (to_i256_small (or_words 0 0 words)) in Hor by (by apply or_words_range).
  rewrite Hor. pose proof (words_value_bound words Hw) as Hb.
  assert (words_value words < 2 * 2 ^ 255) as Hb'.
  { change (2 * 2 ^ 255) with (2 ^ 256). eapply Z.lt_le_trans; [apply Hb|]. apply Z.pow_le_mono_r; lia. }
  destruct (Z.ltb_spec (words_value words) (2 ^ 255)) as [Hs|Hs].
  - rewrite to_i256_small by lia. destruct (Z.ltb_spec (words_value words) 0); [lia|]. destruct sign; [|done].
    by rewrite to_i256_small by lia.
  - assert (to_i256 (words_value words) = words_value words - 2 * 2 ^ 255) as ->.
    { rewrite <- (to_i256_cong _ (-1)), to_i256_small; change (2 ^ 256) with (2 * 2 ^ 255); lia. }
    destruct (Z.ltb_spec (words_value words - 2 * 2 ^ 255) 0); [done|lia].
Qed.

Lemma low_word z : Z.land z word_mask = z `mod` 2 ^ 64.
Proof. change word_mask with (Z.ones 64). by apply Z.land_ones. Qed.

Lemma words_i128_spec z :
  i128_min <= z <= 2 ^ 127 - 1 →
  words_i128 z = (z <? 0, (words_i128 z).2) /\ u64_words (words_i128 z).2 /\ (length (words_i128 z).2 <= 2)%nat /\ words_value (words_i128 z).2 = Z.abs z.
Proof.
  intros Hz. unfold i128_min in Hz. change (2 ^ 127) with 170141183460469231731687303715884105728 in Hz. unfold words_i128.
  set (mag := if z <? 0 then (- z) `mod` 2 ^ 128 else z).
  assert (mag = Z.abs z) as Hmag.
  { subst mag. destruct (Z.ltb_spec z 0); [|lia]. rewrite Z.mod_small; [lia|]. change (2 ^ 128) with 340282366920938463463374607431768211456. lia. }
  rewrite Hmag, low_word, Z.shiftr_div_pow2 by lia. pose proof (Z.div_mod (Z.abs z) (2 ^ 64) ltac:(done)) as Hdm.
  pose proof (Z.mod_pos_bound (Z.abs z) (2 ^ 64) ltac:(done)) as Hmod.
  assert (0 <= Z.abs z / 2 ^ 64 < 2 ^ 64) as Hdiv by (split; [by apply Z.div_pos; lia|apply Z.div_lt_upper_bound; [done|change (2 ^ 64 * 2 ^ 64) with 340282366920938463463374607431768211456; lia]]).
  cbn [snd]. destruct (Z.eqb_spec (Z.abs z / 2 ^ 64) 0) as [He|Hne]; (split_and!; [done|unfold u64_words; rewrite ?Forall_cons, Forall_nil; auto|cbn; lia|cbn [words_value]; lia]).
Qed.

Lemma trim_words_spec n words :
  words_value (trim_words n words) = words_value words /\ (length (trim_words n words) <= length words)%nat
  /\ (u64_words words → u64_words (trim_words n words)).
Proof.
  revert words. induction n as [|n IH]; intros words; [done|]. cbn [trim_words]. destruct (last words) as [[| |]|] eqn:El; try done.
  destruct (1 <? length words)%nat; [|done]. apply last_Some in El as [ws ->].
  rewrite length_app, Nat.add_sub. rewrite take_app_length. destruct (IH ws) as (Hv & Hl & Hu). split_and!.
  - rewrite Hv. clear. induction ws as [|w ws IH]; [done|]. cbn [app words_value]. by rewrite IH.
  - lia.
  - intros [Hw _]%Forall_app. by apply Hu.
Qed.

Lemma words_i256_spec z :
  - 2 ^ 255 < z < 2 ^ 255 →
  words_i256 z = (z <? 0, (words_i256 z).2) /\ u64_words (words_i256 z).2 /\ (length (words_i256 z).2 <= 4)%nat /\ words_value (words_i256 z).2 = Z.abs z.
Proof.
  intros Hz. unfold words_i256. assert ((if z <? 0 then to_i256 (- z) else z) = Z.abs z) as ->.
  { destruct (Z.ltb_spec z 0); [rewrite to_i256_small by lia|]; lia. }
  set (ws := (λ k, Z.land (Z.shiftr (Z.abs z) (64 * k)) word_mask) <$> [0; 1; 2; 3]).
  assert (∀ k, 0 <= k → Z.land (Z.shiftr (Z.abs z) (64 * k)) word_mask = (Z.abs z / 2 ^ (64 * k)) `mod` 2 ^ 64) as Hword.
  { intros k Hk. rewrite Z.shiftr_div_pow2 by lia. apply low_word. }
  destruct (trim_words_spec 4 ws) as (Hv & Hl & Hu). cbn [snd]. split_and!; [done| |done|].
  - apply Hu. subst ws. apply Forall_fmap. repeat (constructor; [cbn; rewrite Hword by done; by apply Z.mod_pos_bound|]). constructor.
  - rewrite Hv. subst ws. cbn [fmap list_fmap words_value]. rewrite !Hword by done.
    change (2 ^ (64 * 0)) with 1. rewrite Z.div_1_r. change (2 ^ (64 * 1)) with (2 ^ 64).
    change (2 ^ (64 * 2)) with (2 ^ 64 * 2 ^ 64). change (2 ^ (64 * 3)) with (2 ^ 64 * 2 ^ 64 * 2 ^ 64). rewrite <- !Z.div_div by done.
    pose proof (Z.div_mod (Z.abs z) (2 ^ 64) ltac:(done)). pose proof (Z.div_mod (Z.abs z / 2 ^ 64) (2 ^ 64) ltac:(done)).
    pose proof (Z.div_mod (Z.abs z / 2 ^ 64 / 2 ^ 64) (2 ^ 64) ltac:(done)).
    rewrite (Z.mod_small (Z.abs z / 2 ^ 64 / 2 ^ 64 / 2 ^ 64) (2 ^ 64)); [lia|]. split; [repeat (apply Z.div_pos; [|done]); lia|].
    repeat (apply Z.div_lt_upper_bound; [done|]). change (2 ^ 64 * (2 ^ 64 * (2 ^ 64 * 2 ^ 64))) with (2 * 2 ^ 255). lia.
Qed.

(** ** What a value is *)

#[warnings="-register-all"]
Inductive Value :=
  | VNull | VBool (b : bool) | VInt (z : Z) | VFloat (f : Z) | VText (s : bytes) | VStruct (fields : list (bytes * Value)) | VOther.

Section Denote.
Context (v8 : Engine).

(** A float that is an integer of 32 bits is that integer. *)
Definition float_value (f : Z) : Value :=
  match int_of v8 f with
  | Some i => if (-2147483648 <=? i) && (i <=? 4294967295) then VInt i else VFloat f
  | None => VFloat f
  end.

Definition option_value {V} (f : V → Value) (o : option V) : Value := match o with Some v => f v | None => VNull end.

Fixpoint denote (s : Scalar) : Value :=
  match s with
  | ScalarNull => VNull
  | ScalarBoolean b => option_value VBool b
  | ScalarFloat32 f => option_value (float_value ∘ widen v8) f
  | ScalarFloat64 f => option_value float_value f
  | ScalarInteger _ i => option_value VInt i
  | ScalarUtf8 s => option_value VText s
  | ScalarBinary b => option_value (λ _, VOther) b
  | ScalarDecimal128 i scale | ScalarDecimal256 i _ scale => option_value VInt i
  | ScalarStruct _ fields => VStruct (btree_collect ((λ kv : bytes * Scalar, (kv.1, denote kv.2)) <$> fields))
  | ScalarList _ _ | ScalarOther => VOther
  end.

(** The values that a function can take and return. *)
Fixpoint returnable (s : Scalar) : Prop :=
  match s with
  | ScalarNull | ScalarBoolean _ | ScalarFloat32 _ | ScalarFloat64 _ => True
  | ScalarInteger p i => match i with Some i => (primitive_range p).1 <= i <= (primitive_range p).2 /\ p ∈ [Int8Type; Int16Type; Int32Type; Int64Type; UInt8Type; UInt16Type; UInt32Type; UInt64Type] | None => True end
  | ScalarUtf8 s => match s with Some s => string_fits v8 s = true | None => True end
  | ScalarBinary b => b = None
  | ScalarDecimal128 i scale => scale = 0 /\ match i with Some i => i128_min <= i <= 2 ^ 127 - 1 | None => True end
  | ScalarDecimal256 i _ scale => scale = 0 /\ match i with Some i => - 2 ^ 255 < i < 2 ^ 255 | None => True end
  | ScalarStruct _ fields =>
      fields ≠ [] /\ NoDup fields.*1
      /\ (fix go (fields : list (bytes * Scalar)) : Prop :=
            match fields with [] => True | (name, s) :: fields => string_fits v8 name = true /\ name ≠ proto_key /\ returnable s /\ go fields end) fields
  | ScalarList _ _ | ScalarOther => False
  end.

(** Floats hold the integers of 32 bits, and a builder makes structures of at
    least one field. *)
Record engine_laws : Prop := {
  int_of_int z : -2147483648 <= z <= 4294967295 → int_of v8 (of_int v8 z) = Some z;
  built fields : fields ≠ [] → build_struct v8 fields = Ok (ScalarStruct true fields)
}.

Context (Hv8 : engine_laws).

Lemma number_value f : denote (number_from_v8 v8 f) = float_value f.
Proof.
  unfold number_from_v8, float_value. destruct (int_of v8 f) as [i|] eqn:E; [|cbn; unfold float_value; by rewrite E].
  destruct (Z.leb_spec (-2147483648) i), (Z.leb_spec i 2147483647), (Z.leb_spec 0 i), (Z.leb_spec i 4294967295); cbn; try done; try lia;
    unfold float_value; rewrite E; destruct (Z.leb_spec (-2147483648) i), (Z.leb_spec i 4294967295); cbn; done || lia.
Qed.

Lemma small_value z : -2147483648 <= z <= 4294967295 → denote (number_from_v8 v8 (of_int v8 z)) = VInt z.
Proof.
  intros Hz. rewrite number_value. unfold float_value. rewrite int_of_int by done.
  destruct (Z.leb_spec (-2147483648) z), (Z.leb_spec z 4294967295); cbn; done || lia.
Qed.

Lemma bigint_value words z :
  u64_words words → (length words <= 4)%nat → words_value words = Z.abs z → - 2 ^ 255 < z < 2 ^ 255 →
  denote (scalar_of_bigint (z <? 0) words) = VInt z.
Proof.
  intros Hw Hl Hv Hz. rewrite scalar_of_bigint_spec, Hv by done. destruct (Z.ltb_spec (Z.abs z) (2 ^ 255)); [|lia]. cbn.
  f_equal. destruct (Z.ltb_spec z 0); lia.
Qed.

(** A value and what comes back for it. *)
Definition comes_back (s : Scalar) (v : JsValue) : Prop :=
  to_v8 v8 s = Ok v /\ supported_value v = true /\ ∃ s', from_v8 v8 v = Ok s' /\ denote s' = denote s.

Lemma integer_comes_back p i :
  (primitive_range p).1 <= i <= (primitive_range p).2 →
  p ∈ [Int8Type; Int16Type; Int32Type; Int64Type; UInt8Type; UInt16Type; UInt32Type; UInt64Type] →
  comes_back (ScalarInteger p (Some i)) (integer_to_v8 v8 p i).
Proof.
  intros Hr Hp. split; [done|]. repeat (apply elem_of_cons in Hp as [-> |Hp]; [
    cbn in Hr; unfold i32_max, u64_max, i64_min, i64_max in Hr; (split; [done|]); (eexists; split; [reflexivity|]);
    first [by apply small_value; lia
          |apply bigint_value; [by repeat (constructor; [change (2 ^ 64) with 18446744073709551616; lia|]); constructor|cbn; lia|cbn [words_value]; lia
            |change (2 ^ 255) with 57896044618658097711785492504343953926634992332820282019728792003956564819968; lia]]|]).
  by apply elem_of_nil in Hp.
Qed.

Lemma decimal_comes_back s words z :
  to_v8 v8 s = Ok (bigint (z <? 0, words)) → denote s = VInt z →
  u64_words words → (length words <= 4)%nat → words_value words = Z.abs z → - 2 ^ 255 < z < 2 ^ 255 →
  comes_back s (bigint (z <? 0, words)).
Proof. intros Hs Hd Hw Hl Hv Hz. split; [done|]. split; [done|]. eexists. split; [reflexivity|]. rewrite Hd. by apply bigint_value. Qed.

(** *** Structures *)

Definition field_back (f : bytes * Scalar) (p : bytes * JsValue) : Prop := f.1 = p.1 /\ string_fits v8 f.1 = true /\ f.1 ≠ proto_key /\ comes_back f.2 p.2.

Abbreviation property := (λ p : bytes * JsValue, (p.1, Some p.2)).

Lemma set_property_new key v (props : list (bytes * option JsValue)) : key ∉ props.*1 → set_property key v props = props ++ [(key, Some v)].
Proof.
  induction props as [|[k w] props IH]; [done|]. rewrite fmap_cons, not_elem_of_cons. cbn. intros [Hne Hin].
  rewrite bool_decide_eq_false_2 by done. by rewrite IH.
Qed.

Lemma fields_back fields vs : ∀ props,
  Forall2 field_back fields vs → NoDup (props.*1 ++ fields.*1) →
  fields_to_v8 v8 (to_v8 v8) fields props = Ok (props ++ (property <$> vs)).
Proof.
  intros props Hall. revert props. induction Hall as [|[name s] [name' v] fields vs (Hn & Hfits & Hp & Hv & _) _ IH]; intros props Hnd; cbn in *; [by rewrite app_nil_r|].
  subst name'. rewrite Hfits. cbn. rewrite Hv. cbn. apply NoDup_app in Hnd as Hnd'. destruct Hnd' as (_ & Hdisj & _).
  unfold set_field. rewrite bool_decide_eq_false_2 by done. rewrite set_property_new by (intros Hin; apply (Hdisj name Hin); by left). rewrite IH.
  - by rewrite <- app_assoc.
  - rewrite fmap_app, <- app_assoc. done.
Qed.

Lemma read_back_props {B} (f : JsValue → B) vs : Forall (λ p, supported_value p.2 = true) vs →
  ∀ acc, read_props f (property <$> vs) acc = Ok (foldl (λ m (p : bytes * JsValue), btree_insert p.1 (f p.2) m) acc vs).
Proof. induction 1 as [|[k v] vs Hv _ IH]; intros acc; [done|]. cbn in *. rewrite Hv. apply IH. Qed.

Lemma mapM_snd_Ok {K} (l : list (K * Scalar)) :
  mapM (λ kv : K * js Scalar, value ← kv.2; Ok (kv.1, value)) ((λ kv, (kv.1, Ok kv.2)) <$> l) = Ok l.
Proof. induction l as [|[k v] l IH]; [done|]. cbn [fmap list_fmap]. rewrite mapM_cons. cbn [snd fst mbind comp_bind]. by rewrite IH. Qed.

Lemma foldl_collect {B} (f : JsValue → B) vs :
  foldl (λ m (p : bytes * JsValue), btree_insert p.1 (f p.2) m) [] vs = btree_collect ((λ p, (p.1, f p.2)) <$> vs).
Proof. unfold btree_collect. generalize (@nil (bytes * B)). induction vs as [|p vs IH]; intros m; [done|]. apply IH. Qed.

Lemma struct_comes_back valid fields vs :
  fields ≠ [] → NoDup fields.*1 → Forall2 field_back fields vs → comes_back (ScalarStruct valid fields) (JsObject (property <$> vs)).
Proof.
  intros Hne Hnd Hall. unfold comes_back. cbn [to_v8 supported_value]. rewrite (fields_back fields vs []) by done. split; [done|]. split; [done|].
  assert (∃ ss : list (bytes * Scalar), (λ p, (p.1, from_v8 v8 p.2)) <$> vs = (λ kv, (kv.1, Ok kv.2)) <$> ss
    /\ (λ kv : bytes * Scalar, (kv.1, denote kv.2)) <$> ss = (λ kv : bytes * Scalar, (kv.1, denote kv.2)) <$> fields) as (ss & Hss & Hden).
  { clear Hne Hnd. induction Hall as [|[name s] [name' v] fields vs (Hn & _ & _ & _ & _ & s' & Hs' & Hd) _ (ss & IH1 & IH2)]; [by exists []|].
    exists ((name, s') :: ss). cbn in *. subst name'. by rewrite Hs', IH1, IH2, Hd. }
  cbn [from_v8]. rewrite read_back_props.
  - rewrite foldl_collect, Hss. cbn [mbind comp_bind]. rewrite (collect_fmap Ok), mapM_snd_Ok. cbn [mbind comp_bind].
    rewrite (built Hv8).
    + eexists. split; [done|]. cbn [denote]. f_equal. rewrite <- (collect_fmap denote), Hden. apply collect_id, collect_sorted.
    + intros He. assert (fields.*1 = []) as Hf; [|by destruct fields].
      assert (ss.*1 = fields.*1) as <-.
      { apply (f_equal (fmap fst)) in Hden. by rewrite <- !list_fmap_compose in Hden. }
      destruct ss as [|[k s] ss]; [done|]. exfalso. assert (k ∈ (btree_collect ((k, s) :: ss)).*1) as Hin by (apply collect_keys; by left).
      rewrite He in Hin. by apply elem_of_nil in Hin.
  - clear -Hall. induction Hall as [|f p fields vs (_ & _ & _ & _ & Hs & _) _ IH]; by constructor.
Qed.

Ltac back := split; [done|split; [done|eexists; split; reflexivity]].

Lemma returnable_comes_back : ∀ s, returnable s → ∃ v, comes_back s v.
Proof.
  fix IH 1. intros [ |b|f|f|p i|s|b|i scale|i precision scale|valid fields|valid items| ] Hr; cbn [returnable] in Hr.
  - exists JsNull. by back.
  - destruct b as [b|]; [exists (JsBoolean b)|exists JsNull]; by back.
  - destruct f as [f|]; [exists (JsNumber (widen v8 f))|exists JsNull]; (split; [done|split; [done|]]); eexists; (split; [reflexivity|]); [apply number_value|done].
  - destruct f as [f|]; [exists (JsNumber f)|exists JsNull]; (split; [done|split; [done|]]); eexists; (split; [reflexivity|]); [apply number_value|done].
  - destruct i as [i|]; [destruct Hr as [Hr Hp]; eexists; by apply integer_comes_back|exists JsNull; by back].
  - destruct s as [s|]; [|exists JsNull; by back]. exists (JsString s). unfold comes_back, to_v8, str_to_v8. rewrite Hr.
    by back.
  - subst b. exists JsNull. by back.
  - destruct Hr as [-> Hi]. destruct i as [i|]; [|exists JsNull; by back].
    destruct (words_i128_spec i Hi) as (He & Hw & Hl & Hv). eexists. eapply decimal_comes_back; [|done|exact Hw|lia|exact Hv|].
    + cbn [to_v8]. rewrite Z.eqb_refl. cbn [option_to_v8]. unfold compose. by rewrite He at 1.
    + unfold i128_min in Hi. change (2 ^ 255) with (2 ^ 127 * 2 ^ 128). change (2 ^ 127) with 170141183460469231731687303715884105728 in *. lia.
  - destruct Hr as [-> Hi]. destruct i as [i|]; [|exists JsNull; by back].
    destruct (words_i256_spec i Hi) as (He & Hw & Hl & Hv). eexists. eapply decimal_comes_back; [|done|exact Hw|exact Hl|exact Hv|exact Hi].
    cbn [to_v8]. rewrite Z.eqb_refl. cbn [option_to_v8]. unfold compose. by rewrite He at 1.
  - destruct Hr as (Hne & Hnd & Hr). assert (∃ vs, Forall2 field_back fields vs) as [vs Hvs].
    { clear Hne Hnd. revert Hr. induction fields as [|[name s] fields IHf]; intros Hr; [by exists []|]. destruct Hr as (Hfits & Hp & Hs & Hr).
      destruct (IH s Hs) as [v Hv]. destruct (IHf Hr) as [vs Hvs]. exists ((name, v) :: vs). by constructor. }
    eexists. by apply struct_comes_back.
  - done.
  - done.
Qed.
End Denote.


(** ** Isolation *)

Section Isolation.
Context (v8 : Engine) (rt : Runtime).

(** Scripts have different hashes, and the name of a file plays no part in
    compiling. *)
Record runtime_laws : Prop := {
  hash_inj : Inj (=) (=) (hash rt);
  compile_filename f f' script : compile rt f script = compile rt f' script
}.

Context (Hrt : runtime_laws).

Definition coherent (scripts : gmap Z (Script rt)) : Prop :=
  ∀ key c, scripts !! key = Some c → ∃ f script, hash rt script = key /\ compile rt f script = Some c /\ string_fits v8 script = true.

(** The answer of an isolate that has not been used. *)
Definition fresh (r : Request) : js (list Scalar) := (thread_invoke v8 rt r ∅).2.

Lemma compile_coherent f script scripts : coherent scripts → coherent (compile_script v8 rt f script scripts).1.
Proof.
  intros Hc. unfold compile_script. destruct (scripts !! hash rt script); [done|]. destruct (string_fits v8 f); [|done]. cbn.
  destruct (string_fits v8 script) eqn:Es; [|done]. cbn. destruct (compile rt f script) as [c|] eqn:Ec; [|done].
  intros key c'. cbn. rewrite lookup_insert_Some. intros [[<- <-]|[_ Hk]]; [|by apply Hc]. by exists f, script.
Qed.

Lemma compile_fresh f script scripts :
  coherent scripts → string_fits v8 f = true → (compile_script v8 rt f script scripts).2 = (compile_script v8 rt f script ∅).2.
Proof.
  intros Hc Hf. unfold compile_script. rewrite lookup_empty, Hf. cbn. destruct (scripts !! hash rt script) as [c|] eqn:E.
  - destruct (Hc _ _ E) as (f' & script' & Hh & Hcomp & Hs). apply (hash_inj Hrt) in Hh as ->. rewrite Hs. cbn.
    by rewrite (compile_filename Hrt f f'), Hcomp.
  - destruct (negb (string_fits v8 script)); [done|]. by destruct (compile rt f script).
Qed.

Lemma thread_coherent r scripts : coherent scripts → coherent (thread_invoke v8 rt r scripts).1.
Proof.
  intros Hc. unfold thread_invoke, invoke_batch. pose proof (compile_coherent (filename r) (script r) scripts Hc) as H.
  by destruct (compile_script _ _ _ _ _) as [s c].
Qed.

Lemma thread_fresh r scripts : coherent scripts → string_fits v8 (filename r) = true → (thread_invoke v8 rt r scripts).2 = fresh r.
Proof.
  intros Hc Hf. unfold fresh, thread_invoke, invoke_batch. pose proof (compile_fresh (filename r) (script r) scripts Hc Hf) as H.
  destruct (compile_script _ _ _ _ scripts) as [s c], (compile_script _ _ _ _ ∅) as [s' c']. cbn in *. by subst c'.
Qed.

Inductive pool_reachable (n : nat) : Pool rt → Prop :=
  | reachable_new : pool_reachable n (pool_new rt n)
  | reachable_step p o p' : pool_reachable n p → pool_step v8 rt p o p' → pool_reachable n p'.

Lemma pool_reachable_ok n p :
  pool_reachable n p →
  max_size rt p = n /\ (pool_size rt p <= n)%nat /\ Forall coherent (idle rt p) /\ map_Forall (λ _ b, coherent b.1) (busy rt p).
Proof.
  induction 1 as [|p o p' _ (Hmax & Hsize & Hidle & Hbusy) Hstep].
  - split_and!; [done|unfold pool_size; cbn; rewrite map_size_empty; lia|constructor|apply map_Forall_empty].
  - destruct Hstep as [p|p i r iso rest Hp Hi|p i r iso iso' result Hi Hr]; unfold pool_size in *; cbn.
    + unfold add_isolate, pool_size. destruct (Nat.ltb_spec (length (idle rt p) + size (busy rt p)) (max_size rt p)); [|done]. cbn.
      split_and!; [done|lia| |done]. constructor; [|done]. intros key c. by rewrite lookup_empty.
    + rewrite Hp in Hidle. apply list.Forall_cons in Hidle as [Hiso Hrest]. apply Permutation_length in Hp. cbn in Hp.
      split_and!; [done|rewrite map_size_insert_None by done; lia|done|]. by apply map_Forall_insert_2.
    + pose proof (thread_coherent r iso) as Hc. rewrite Hr in Hc. specialize (Hc (map_Forall_lookup_1 _ _ _ _ Hbusy Hi)).
      assert (size (busy rt p) = S (size (delete i (busy rt p)))) as Hs.
      { rewrite <- (insert_delete_id (busy rt p) i (iso, r)) at 1 by done. by rewrite map_size_insert_None by apply lookup_delete_eq. }
      split_and!; [done|destruct (is_panic result); cbn; lia|destruct (is_panic result); [done|by constructor]|by apply map_Forall_delete].
Qed.

(** C25: in a pool of isolates, in whatever order invocations start and end,
    every answer is that of an isolate that has not been used, a panic is
    answered as an error, and there are never more isolates than the pool holds;
    when one has to wait for an isolate, all of them are busy. *)
Theorem js_batches_isolated n p :
  pool_reachable n p →
  (∀ r result p', pool_step v8 rt p (Some (r, result)) p' → result ≠ Panic /\ (string_fits v8 (filename r) = true → result = fresh r))
  /\ (pool_size rt p <= n)%nat
  /\ (idle rt (add_isolate rt p) = [] → size (busy rt p) = n).
Proof.
  intros Hp. destruct (pool_reachable_ok n p Hp) as (Hmax & Hsize & _ & Hbusy). split_and!; [|done|].
  - intros r result p' Hstep. inversion Hstep as [| |? i ? iso iso' ? Hi Hr]; subst. split.
    + unfold thread_invoke in Hr. destruct (invoke_batch _ _ _ _) as [? []]; injection Hr as _ <-; by intros ?.
    + intros Hf. rewrite <- (thread_fresh r iso (map_Forall_lookup_1 _ _ _ _ Hbusy Hi) Hf). by rewrite Hr.
  - unfold add_isolate, pool_size in *. destruct (Nat.ltb_spec (length (idle rt p) + size (busy rt p)) (max_size rt p)); [done|].
    intros He. rewrite He in *. cbn in *. lia.
Qed.
End Isolation.

(** ** Evaluations *)

Module Evaluation.

(** Floats that are their number, as far as a float has a range of integers. *)
Definition test_engine : Engine :=
  mkEngine id (λ f, if (-4294967296 <? f) && (f <? 4294967296) then Some f else None) id (λ s, length s <? 100)%nat (λ fields, Ok (ScalarStruct true fields)).

Lemma test_engine_laws : engine_laws test_engine.
Proof.
  split; [|done]. intros z Hz. cbn. unfold id. destruct (Z.ltb_spec (-4294967296) z), (Z.ltb_spec z 4294967296); cbn; done || lia.
Qed.

Definition test_struct : Scalar :=
  ScalarStruct true [([98], ScalarInteger Int64Type (Some (-5))); ([97], ScalarDecimal128 (Some (2 ^ 100)) 0); ([99], ScalarUtf8 None)].


(** A field with the name of the prototype is lost. *)
Example proto_field_lost :
  to_v8 test_engine (ScalarStruct true [([97], ScalarBoolean (Some true)); (proto_key, ScalarBoolean (Some true))])
  = Ok (JsObject [([97], Some (JsBoolean true))]).
Proof. done. Qed.

(** A script that counts its calls and gives the counter. *)
Definition counter : Runtime :=
  mkRuntime bytes Z unit (λ s, Z.pos (countable.encode s)) (λ _ s, Some s) 0 (λ _ r, Some r) (λ _ _, Some tt)
    (λ _ _ r, (r + 1, Some (JsNumber (r + 1)))).

(** The calls of a batch share the realm, two batches do not. *)
Example realm_of_batch :
  let '(iso, r) := thread_invoke test_engine counter (mkRequest [] [] [] [[]; []]) ∅ in
  r = Ok [ScalarInteger Int32Type (Some 1); ScalarInteger Int32Type (Some 2)]
  /\ (thread_invoke test_engine counter (mkRequest [] [] [] [[]]) iso).2 = Ok [ScalarInteger Int32Type (Some 1)].
Proof. by split. Qed.

Lemma counter_laws : runtime_laws counter.
Proof. split; [|done]. intros s s' Hs. by apply (inj countable.encode), (inj Z.pos). Qed.

(** A pool of one isolate, in which a request is running. *)
Definition counter_request : Request := mkRequest [] [] [] [[]; []].

Definition busy_pool : Pool counter := mkPool counter 1 [] {[ 0%nat := (∅, counter_request) ]}.

Lemma busy_pool_reachable : pool_reachable test_engine counter 1 busy_pool.
Proof.
  eapply reachable_step; [eapply reachable_step; [apply reachable_new|apply invoke_adds]|].
  apply (invoke_starts test_engine counter (add_isolate counter (pool_new counter 1)) 0 counter_request ∅ []); done.
Qed.

Lemma js_batches_isolated_witness :
  pool_reachable test_engine counter 1 busy_pool
  /\ (∀ r result p', pool_step test_engine counter busy_pool (Some (r, result)) p' →
        result ≠ Panic /\ (string_fits test_engine (filename r) = true → result = fresh test_engine counter r))
  /\ (pool_size counter busy_pool <= 1)%nat
  /\ (idle counter (add_isolate counter busy_pool) = [] → size (busy counter busy_pool) = 1%nat).
Proof. split; [apply busy_pool_reachable|]. apply (js_batches_isolated test_engine counter counter_laws 1 busy_pool busy_pool_reachable). Defined.

(** The type of an output is that of its value, not of the function: the outputs
    of one column differ. *)
Example outputs_of_two_types :
  from_v8 test_engine (JsNumber 7) = Ok (ScalarInteger Int32Type (Some 7))
  /\ from_v8 test_engine (JsNumber 4294967297) = Ok (ScalarFloat64 (Some 4294967297))
  /\ from_v8 test_engine (JsNumber 4294967295) = Ok (ScalarInteger UInt32Type (Some 4294967295)).
Proof. by split_and!. Qed.

(** A null structure is passed as an object, and a null list as an array. *)
Example nulls_passed :
  to_v8 test_engine (ScalarStruct false [([97], ScalarUtf8 None)]) = Ok (JsObject [([97], Some JsNull)])
  /\ to_v8 test_engine (ScalarList false []) = Ok (JsArray []).
Proof. by split. Qed.

(** A BigInt of 77 digits becomes a decimal of 76. *)
Example bigint_of_77_digits :
  scalar_of_bigint false [0; 0; 0; 2 ^ 62] = ScalarDecimal256 (Some (2 ^ 254)) 76 0 /\ 10 ^ 76 <= 2 ^ 254.
Proof. split; vm_compute; done. Qed.
End Evaluation.
