(* ===== verification/EvmTables.v ===== *)
(** * EvmTables

    The tables of the raw EVM datasets: their schemas, the rows and the
    builders that collect them column by column (core/common/src/evm/tables,
    extractors/evm-rpc/src/tables/transactions.rs and
    extractors/firehose/src/evm/tables), the array builders of
    core/common/src/arrow_helpers.rs, and the record batch of a block
    ([RawTableRows::new] in core/common/src/lib.rs). A hash or an address is its
    bytes, a timestamp its nanoseconds. Arrow's constructor of a record batch
    is a parameter.

    The class [TableRows] is what the extractors use of a table; the laws of
    [TableRowsOk], proved for the five tables, say that the columns have the
    types of the schema and that a row is read back by the names of its
    columns. The extractors of Solana and the functions of queries use the same
    class and cells. *)

From stdpp Require Import base numbers gmap strings option list.
From Stdlib Require Import ZArith Lia.
From S2P Require Import Prelude Ranges BlockRange RawWriter PgTypes PgCopy.

#[local] Open Scope string_scope.

(** ** Array builders *)

Definition SPECIAL_BLOCK_NUM : string := "_block_num".

Definition BYTES32_TYPE : DataType := DataType.FixedSizeBinary 32.
Definition EVM_ADDRESS_TYPE : DataType := DataType.FixedSizeBinary 20.
Definition EVM_CURRENCY_TYPE : DataType := DataType.Decimal128 38 0.
Definition timestamp_type : DataType := DataType.Timestamp Nanosecond (Some "+00:00").

Definition i128_max : Z := 2 ^ 127 - 1.

(** [as_nanos() as i64] *)
Definition as_i64 (nanos : Z) : Z := to_i64 nanos.

Definition slot_value {V} (v : V) : bool * V := (true, v).
Definition slot_option {V} `{Inhabited V} (v : option V) : bool * V :=
  match v with Some v => (true, v) | None => (false, inhabitant) end.

Definition append_value {V} (xs : slots V) (v : V) : slots V := xs ++ [slot_value v].
Definition append_option {V} `{Inhabited V} (xs : slots V) (v : option V) : slots V := xs ++ [slot_option v].

(** A finished array with its data type. *)
Record ArrayRef := mkArrayRef { array_type : DataType; array : Array }.

Definition uint64 (xs : slots Z) : ArrayRef := mkArrayRef DataType.UInt64 (PrimitiveArray UInt64Type xs).
Definition uint32 (xs : slots Z) : ArrayRef := mkArrayRef DataType.UInt32 (PrimitiveArray UInt32Type xs).
Definition int32 (xs : slots Z) : ArrayRef := mkArrayRef DataType.Int32 (PrimitiveArray Int32Type xs).
Definition boolean (xs : slots bool) : ArrayRef := mkArrayRef DataType.Boolean (BooleanArray xs).
Definition binary (xs : slots bytes) : ArrayRef := mkArrayRef DataType.Binary (GenericBinaryArray false xs).
Definition timestamp_ns (xs : slots Z) : ArrayRef :=
  mkArrayRef timestamp_type (PrimitiveArray TimestampNanosecondType xs).
Definition bytes32 (xs : slots bytes) : ArrayRef := mkArrayRef BYTES32_TYPE (FixedSizeBinaryArray 32 xs).
Definition evm_address (xs : slots bytes) : ArrayRef := mkArrayRef EVM_ADDRESS_TYPE (FixedSizeBinaryArray 20 xs).
Definition evm_currency (xs : slots Z) : ArrayRef := mkArrayRef EVM_CURRENCY_TYPE (Decimal128Array 0 xs).

(** A value as a reader of the batch sees it; a float is its bits and a string
    its bytes. *)
#[warnings="-register-all"]
Inductive Cell :=
  | BoolCell (v : option bool)
  | IntCell (v : option Z)
  | BytesCell (v : option bytes)
  | TextCell (v : option bytes)
  | ListCell (v : option (list Cell))
  | StructCell (v : option (list Cell)).

(** A string as its bytes. *)
Definition text_of (s : string) : bytes := (λ c, Z.of_nat (Ascii.nat_of_ascii c)) <$> String.list_ascii_of_string s.

(** ** Table [blocks] (core/common/src/evm/tables/blocks.rs) *)

Record Block := mkBlock {
  b_block_num : Z; b_timestamp : Z; b_hash : bytes; b_parent_hash : bytes; b_ommers_hash : bytes;
  b_miner : bytes; b_state_root : bytes; b_transactions_root : bytes; b_receipt_root : bytes;
  b_logs_bloom : bytes; b_difficulty : Z; b_total_difficulty : option Z; b_gas_limit : Z; b_gas_used : Z;
  b_extra_data : bytes; b_mix_hash : bytes; b_nonce : Z; b_base_fee_per_gas : option Z;
  b_withdrawals_root : option bytes; b_blob_gas_used : option Z; b_excess_blob_gas : option Z;
  b_parent_beacon_root : option bytes
}.

Definition block_schema : list Field := [
  mkField SPECIAL_BLOCK_NUM DataType.UInt64 false; mkField "block_num" DataType.UInt64 false;
  mkField "timestamp" timestamp_type false; mkField "hash" BYTES32_TYPE false;
  mkField "parent_hash" BYTES32_TYPE false; mkField "ommers_hash" BYTES32_TYPE false;
  mkField "miner" EVM_ADDRESS_TYPE false; mkField "state_root" BYTES32_TYPE false;
  mkField "transactions_root" BYTES32_TYPE false; mkField "receipt_root" BYTES32_TYPE false;
  mkField "logs_bloom" DataType.Binary false; mkField "difficulty" EVM_CURRENCY_TYPE false;
  mkField "total_difficulty" EVM_CURRENCY_TYPE true; mkField "gas_limit" DataType.UInt64 false;
  mkField "gas_used" DataType.UInt64 false; mkField "extra_data" DataType.Binary false;
  mkField "mix_hash" BYTES32_TYPE false; mkField "nonce" DataType.UInt64 false;
  mkField "base_fee_per_gas" EVM_CURRENCY_TYPE true; mkField "withdrawals_root" BYTES32_TYPE true;
  mkField "blob_gas_used" DataType.UInt64 true; mkField "excess_blob_gas" DataType.UInt64 true;
  mkField "parent_beacon_root" BYTES32_TYPE true
].

Record BlockRowsBuilder := mkBlockRowsBuilder {
  bb_special_block_num : slots Z; bb_block_num : slots Z; bb_timestamp : slots Z; bb_hash : slots bytes;
  bb_parent_hash : slots bytes; bb_ommers_hash : slots bytes; bb_miner : slots bytes;
  bb_state_root : slots bytes; bb_transactions_root : slots bytes; bb_receipt_root : slots bytes;
  bb_logs_bloom : slots bytes; bb_difficulty : slots Z; bb_total_difficulty : slots Z; bb_gas_limit : slots Z;
  bb_gas_used : slots Z; bb_extra_data : slots bytes; bb_mix_hash : slots bytes; bb_nonce : slots Z;
  bb_base_fee_per_gas : slots Z; bb_withdrawals_root : slots bytes; bb_blob_gas_used : slots Z;
  bb_excess_blob_gas : slots Z; bb_parent_beacon_root : slots bytes
}.

Definition block_rows_empty : BlockRowsBuilder :=
  mkBlockRowsBuilder [] [] [] [] [] [] [] [] [] [] [] [] [] [] [] [] [] [] [] [] [] [] [].

Definition append_block (b : BlockRowsBuilder) (row : Block) : BlockRowsBuilder :=
  mkBlockRowsBuilder
    (append_value (bb_special_block_num b) (b_block_num row)) (append_value (bb_block_num b) (b_block_num row))
    (append_value (bb_timestamp b) (as_i64 (b_timestamp row))) (append_value (bb_hash b) (b_hash row))
    (append_value (bb_parent_hash b) (b_parent_hash row)) (append_value (bb_ommers_hash b) (b_ommers_hash row))
    (append_value (bb_miner b) (b_miner row)) (append_value (bb_state_root b) (b_state_root row))
    (append_value (bb_transactions_root b) (b_transactions_root row))
    (append_value (bb_receipt_root b) (b_receipt_root row)) (append_value (bb_logs_bloom b) (b_logs_bloom row))
    (append_value (bb_difficulty b) (b_difficulty row))
    (append_option (bb_total_difficulty b) (b_total_difficulty row))
    (append_value (bb_gas_limit b) (b_gas_limit row)) (append_value (bb_gas_used b) (b_gas_used row))
    (append_value (bb_extra_data b) (b_extra_data row)) (append_value (bb_mix_hash b) (b_mix_hash row))
    (append_value (bb_nonce b) (b_nonce row)) (append_option (bb_base_fee_per_gas b) (b_base_fee_per_gas row))
    (append_option (bb_withdrawals_root b) (b_withdrawals_root row))
    (append_option (bb_blob_gas_used b) (b_blob_gas_used row))
    (append_option (bb_excess_blob_gas b) (b_excess_blob_gas row))
    (append_option (bb_parent_beacon_root b) (b_parent_beacon_root row)).

Definition block_columns (b : BlockRowsBuilder) : list ArrayRef := [
  uint64 (bb_special_block_num b); uint64 (bb_block_num b); timestamp_ns (bb_timestamp b); bytes32 (bb_hash b);
  bytes32 (bb_parent_hash b); bytes32 (bb_ommers_hash b); evm_address (bb_miner b); bytes32 (bb_state_root b);
  bytes32 (bb_transactions_root b); bytes32 (bb_receipt_root b); binary (bb_logs_bloom b);
  evm_currency (bb_difficulty b); evm_currency (bb_total_difficulty b); uint64 (bb_gas_limit b);
  uint64 (bb_gas_used b); binary (bb_extra_data b); bytes32 (bb_mix_hash b); uint64 (bb_nonce b);
  evm_currency (bb_base_fee_per_gas b); bytes32 (bb_withdrawals_root b); uint64 (bb_blob_gas_used b);
  uint64 (bb_excess_blob_gas b); bytes32 (bb_parent_beacon_root b)
].

(** The row by the names of its columns. *)
Definition block_cells (row : Block) : list (string * Cell) := [
  (SPECIAL_BLOCK_NUM, IntCell (Some (b_block_num row))); ("block_num", IntCell (Some (b_block_num row)));
  ("timestamp", IntCell (Some (as_i64 (b_timestamp row)))); ("hash", BytesCell (Some (b_hash row)));
  ("parent_hash", BytesCell (Some (b_parent_hash row))); ("ommers_hash", BytesCell (Some (b_ommers_hash row)));
  ("miner", BytesCell (Some (b_miner row))); ("state_root", BytesCell (Some (b_state_root row)));
  ("transactions_root", BytesCell (Some (b_transactions_root row)));
  ("receipt_root", BytesCell (Some (b_receipt_root row))); ("logs_bloom", BytesCell (Some (b_logs_bloom row)));
  ("difficulty", IntCell (Some (b_difficulty row))); ("total_difficulty", IntCell (b_total_difficulty row));
  ("gas_limit", IntCell (Some (b_gas_limit row))); ("gas_used", IntCell (Some (b_gas_used row)));
  ("extra_data", BytesCell (Some (b_extra_data row))); ("mix_hash", BytesCell (Some (b_mix_hash row)));
  ("nonce", IntCell (Some (b_nonce row))); ("base_fee_per_gas", IntCell (b_base_fee_per_gas row));
  ("withdrawals_root", BytesCell (b_withdrawals_root row)); ("blob_gas_used", IntCell (b_blob_gas_used row));
  ("excess_blob_gas", IntCell (b_excess_blob_gas row));
  ("parent_beacon_root", BytesCell (b_parent_beacon_root row))
].

(** ** Table [logs] (core/common/src/evm/tables/logs.rs) *)

Record Log := mkLog {
  l_block_hash : bytes; l_block_num : Z; l_timestamp : Z; l_tx_index : Z; l_tx_hash : bytes; l_log_index : Z;
  l_address : bytes; l_topic0 : option bytes; l_topic1 : option bytes; l_topic2 : option bytes;
  l_topic3 : option bytes; l_data : bytes
}.

Definition log_schema : list Field := [
  mkField SPECIAL_BLOCK_NUM DataType.UInt64 false; mkField "block_hash" BYTES32_TYPE false;
  mkField "block_num" DataType.UInt64 false; mkField "timestamp" timestamp_type false;
  mkField "tx_hash" BYTES32_TYPE false; mkField "tx_index" DataType.UInt32 false;
  mkField "log_index" DataType.UInt32 false; mkField "address" EVM_ADDRESS_TYPE false;
  mkField "topic0" BYTES32_TYPE true; mkField "topic1" BYTES32_TYPE true; mkField "topic2" BYTES32_TYPE true;
  mkField "topic3" BYTES32_TYPE true; mkField "data" DataType.Binary false
].

Record LogRowsBuilder := mkLogRowsBuilder {
  lb_special_block_num : slots Z; lb_block_hash : slots bytes; lb_block_num : slots Z; lb_timestamp : slots Z;
  lb_tx_index : slots Z; lb_tx_hash : slots bytes; lb_address : slots bytes; lb_topic0 : slots bytes;
  lb_topic1 : slots bytes; lb_topic2 : slots bytes; lb_topic3 : slots bytes; lb_data : slots bytes;
  lb_log_index : slots Z
}.

Definition log_rows_empty : LogRowsBuilder :=
  mkLogRowsBuilder [] [] [] [] [] [] [] [] [] [] [] [] [].

Definition append_log (b : LogRowsBuilder) (row : Log) : LogRowsBuilder :=
  mkLogRowsBuilder
    (append_value (lb_special_block_num b) (l_block_num row))
    (append_value (lb_block_hash b) (l_block_hash row)) (append_value (lb_block_num b) (l_block_num row))
    (append_value (lb_timestamp b) (as_i64 (l_timestamp row))) (append_value (lb_tx_index b) (l_tx_index row))
    (append_value (lb_tx_hash b) (l_tx_hash row)) (append_value (lb_address b) (l_address row))
    (append_option (lb_topic0 b) (l_topic0 row)) (append_option (lb_topic1 b) (l_topic1 row))
    (append_option (lb_topic2 b) (l_topic2 row)) (append_option (lb_topic3 b) (l_topic3 row))
    (append_value (lb_data b) (l_data row)) (append_value (lb_log_index b) (l_log_index row)).

Definition log_columns (b : LogRowsBuilder) : list ArrayRef := [
  uint64 (lb_special_block_num b); bytes32 (lb_block_hash b); uint64 (lb_block_num b);
  timestamp_ns (lb_timestamp b); bytes32 (lb_tx_hash b); uint32 (lb_tx_index b); uint32 (lb_log_index b);
  evm_address (lb_address b); bytes32 (lb_topic0 b); bytes32 (lb_topic1 b); bytes32 (lb_topic2 b);
  bytes32 (lb_topic3 b); binary (lb_data b)
].

(** The row by the names of its columns. *)
Definition log_cells (row : Log) : list (string * Cell) := [
  (SPECIAL_BLOCK_NUM, IntCell (Some (l_block_num row))); ("block_hash", BytesCell (Some (l_block_hash row)));
  ("block_num", IntCell (Some (l_block_num row))); ("timestamp", IntCell (Some (as_i64 (l_timestamp row))));
  ("tx_hash", BytesCell (Some (l_tx_hash row))); ("tx_index", IntCell (Some (l_tx_index row)));
  ("log_index", IntCell (Some (l_log_index row))); ("address", BytesCell (Some (l_address row)));
  ("topic0", BytesCell (l_topic0 row)); ("topic1", BytesCell (l_topic1 row));
  ("topic2", BytesCell (l_topic2 row)); ("topic3", BytesCell (l_topic3 row));
  ("data", BytesCell (Some (l_data row)))
].

(** ** Table [transactions] of JSON-RPC (extractors/evm-rpc/src/tables/transactions.rs) *)

Record Transaction := mkTransaction {
  t_block_hash : bytes; t_block_num : Z; t_timestamp : Z; t_tx_index : Z; t_tx_hash : bytes;
  t_to : option bytes; t_nonce : Z; t_gas_price : option Z; t_gas_limit : Z; t_value : Z; t_input : bytes;
  t_v : bytes; t_r : bytes; t_s : bytes; t_receipt_cumulative_gas_used : Z; t_type : Z; t_max_fee_per_gas : Z;
  t_max_priority_fee_per_gas : option Z; t_max_fee_per_blob_gas : option Z; t_from : bytes; t_status : bool
}.

Definition transaction_schema : list Field := [
  mkField SPECIAL_BLOCK_NUM DataType.UInt64 false; mkField "block_hash" BYTES32_TYPE false;
  mkField "block_num" DataType.UInt64 false; mkField "timestamp" timestamp_type false;
  mkField "tx_index" DataType.UInt32 false; mkField "tx_hash" BYTES32_TYPE false;
  mkField "to" EVM_ADDRESS_TYPE true; mkField "nonce" DataType.UInt64 false;
  mkField "gas_price" EVM_CURRENCY_TYPE true; mkField "gas_limit" DataType.UInt64 false;
  mkField "value" EVM_CURRENCY_TYPE false; mkField "input" DataType.Binary false;
  mkField "v" DataType.Binary false; mkField "r" DataType.Binary false; mkField "s" DataType.Binary false;
  mkField "gas_used" DataType.UInt64 false; mkField "type" DataType.Int32 false;
  mkField "max_fee_per_gas" EVM_CURRENCY_TYPE true; mkField "max_priority_fee_per_gas" EVM_CURRENCY_TYPE true;
  mkField "max_fee_per_blob_gas" EVM_CURRENCY_TYPE true; mkField "from" EVM_ADDRESS_TYPE false;
  mkField "status" DataType.Boolean false
].

Record TransactionRowsBuilder := mkTransactionRowsBuilder {
  tb_special_block_num : slots Z; tb_block_hash : slots bytes; tb_block_num : slots Z; tb_timestamp : slots Z;
  tb_tx_index : slots Z; tb_tx_hash : slots bytes; tb_to : slots bytes; tb_nonce : slots Z;
  tb_gas_price : slots Z; tb_gas_limit : slots Z; tb_value : slots Z; tb_input : slots bytes;
  tb_v : slots bytes; tb_r : slots bytes; tb_s : slots bytes; tb_gas_used : slots Z; tb_type : slots Z;
  tb_max_fee_per_gas : slots Z; tb_max_priority_fee_per_gas : slots Z; tb_max_fee_per_blob_gas : slots Z;
  tb_from : slots bytes; tb_status : slots bool
}.

Definition transaction_rows_empty : TransactionRowsBuilder :=
  mkTransactionRowsBuilder [] [] [] [] [] [] [] [] [] [] [] [] [] [] [] [] [] [] [] [] [] [].

Definition append_transaction (b : TransactionRowsBuilder) (row : Transaction) : TransactionRowsBuilder :=
  mkTransactionRowsBuilder
    (append_value (tb_special_block_num b) (t_block_num row))
    (append_value (tb_block_hash b) (t_block_hash row)) (append_value (tb_block_num b) (t_block_num row))
    (append_value (tb_timestamp b) (as_i64 (t_timestamp row))) (append_value (tb_tx_index b) (t_tx_index row))
    (append_value (tb_tx_hash b) (t_tx_hash row)) (append_option (tb_to b) (t_to row))
    (append_value (tb_nonce b) (t_nonce row)) (append_option (tb_gas_price b) (t_gas_price row))
    (append_value (tb_gas_limit b) (t_gas_limit row)) (append_value (tb_value b) (t_value row))
    (append_value (tb_input b) (t_input row)) (append_value (tb_v b) (t_v row))
    (append_value (tb_r b) (t_r row)) (append_value (tb_s b) (t_s row))
    (append_value (tb_gas_used b) (t_receipt_cumulative_gas_used row)) (append_value (tb_type b) (t_type row))
    (append_value (tb_max_fee_per_gas b) (t_max_fee_per_gas row))
    (append_option (tb_max_priority_fee_per_gas b) (t_max_priority_fee_per_gas row))
    (append_option (tb_max_fee_per_blob_gas b) (t_max_fee_per_blob_gas row))
    (append_value (tb_from b) (t_from row)) (append_value (tb_status b) (t_status row)).

Definition transaction_columns (b : TransactionRowsBuilder) : list ArrayRef := [
  uint64 (tb_special_block_num b); bytes32 (tb_block_hash b); uint64 (tb_block_num b);
  timestamp_ns (tb_timestamp b); uint32 (tb_tx_index b); bytes32 (tb_tx_hash b); evm_address (tb_to b);
  uint64 (tb_nonce b); evm_currency (tb_gas_price b); uint64 (tb_gas_limit b); evm_currency (tb_value b);
  binary (tb_input b); binary (tb_v b); binary (tb_r b); binary (tb_s b); uint64 (tb_gas_used b);
  int32 (tb_type b); evm_currency (tb_max_fee_per_gas b); evm_currency (tb_max_priority_fee_per_gas b);
  evm_currency (tb_max_fee_per_blob_gas b); evm_address (tb_from b); boolean (tb_status b)
].

(** The row by the names of its columns. *)
Definition transaction_cells (row : Transaction) : list (string * Cell) := [
  (SPECIAL_BLOCK_NUM, IntCell (Some (t_block_num row))); ("block_hash", BytesCell (Some (t_block_hash row)));
  ("block_num", IntCell (Some (t_block_num row))); ("timestamp", IntCell (Some (as_i64 (t_timestamp row))));
  ("tx_index", IntCell (Some (t_tx_index row))); ("tx_hash", BytesCell (Some (t_tx_hash row)));
  ("to", BytesCell (t_to row)); ("nonce", IntCell (Some (t_nonce row)));
  ("gas_price", IntCell (t_gas_price row)); ("gas_limit", IntCell (Some (t_gas_limit row)));
  ("value", IntCell (Some (t_value row))); ("input", BytesCell (Some (t_input row)));
  ("v", BytesCell (Some (t_v row))); ("r", BytesCell (Some (t_r row))); ("s", BytesCell (Some (t_s row)));
  ("gas_used", IntCell (Some (t_receipt_cumulative_gas_used row))); ("type", IntCell (Some (t_type row)));
  ("max_fee_per_gas", IntCell (Some (t_max_fee_per_gas row)));
  ("max_priority_fee_per_gas", IntCell (t_max_priority_fee_per_gas row));
  ("max_fee_per_blob_gas", IntCell (t_max_fee_per_blob_gas row)); ("from", BytesCell (Some (t_from row)));
  ("status", BoolCell (Some (t_status row)))
].

(** ** Table [transactions] of Firehose (extractors/firehose/src/evm/tables/transactions.rs) *)

Record Trace := mkTrace {
  f_block_hash : bytes; f_block_num : Z; f_timestamp : Z; f_tx_index : Z; f_tx_hash : bytes;
  f_to : option bytes; f_nonce : Z; f_gas_price : option Z; f_gas_limit : Z; f_value : option Z;
  f_input : bytes; f_v : bytes; f_r : bytes; f_s : bytes; f_receipt_cumulative_gas_used : Z; f_type : Z;
  f_max_fee_per_gas : option Z; f_max_priority_fee_per_gas : option Z; f_from : bytes; f_status : Z;
  f_return_data : bytes; f_public_key : bytes; f_begin_ordinal : Z; f_end_ordinal : Z
}.

Definition trace_schema : list Field := [
  mkField SPECIAL_BLOCK_NUM DataType.UInt64 false; mkField "block_hash" BYTES32_TYPE false;
  mkField "block_num" DataType.UInt64 false; mkField "timestamp" timestamp_type false;
  mkField "tx_index" DataType.UInt32 false; mkField "tx_hash" BYTES32_TYPE false;
  mkField "to" EVM_ADDRESS_TYPE true; mkField "nonce" DataType.UInt64 false;
  mkField "gas_price" EVM_CURRENCY_TYPE true; mkField "gas_limit" DataType.UInt64 false;
  mkField "value" EVM_CURRENCY_TYPE true; mkField "input" DataType.Binary false;
  mkField "v" DataType.Binary false; mkField "r" DataType.Binary false; mkField "s" DataType.Binary false;
  mkField "gas_used" DataType.UInt64 false; mkField "type" DataType.Int32 false;
  mkField "max_fee_per_gas" EVM_CURRENCY_TYPE true; mkField "max_priority_fee_per_gas" EVM_CURRENCY_TYPE true;
  mkField "from" EVM_ADDRESS_TYPE false; mkField "status" DataType.Int32 false;
  mkField "return_data" DataType.Binary false; mkField "public_key" DataType.Binary false;
  mkField "begin_ordinal" DataType.UInt64 false; mkField "end_ordinal" DataType.UInt64 false
].

Record TraceRowsBuilder := mkTraceRowsBuilder {
  fb_special_block_num : slots Z; fb_block_hash : slots bytes; fb_block_num : slots Z; fb_timestamp : slots Z;
  fb_tx_index : slots Z; fb_tx_hash : slots bytes; fb_to : slots bytes; fb_nonce : slots Z;
  fb_gas_price : slots Z; fb_gas_limit : slots Z; fb_value : slots Z; fb_input : slots bytes;
  fb_v : slots bytes; fb_r : slots bytes; fb_s : slots bytes; fb_gas_used : slots Z; fb_type : slots Z;
  fb_max_fee_per_gas : slots Z; fb_max_priority_fee_per_gas : slots Z; fb_from : slots bytes;
  fb_status : slots Z; fb_return_data : slots bytes; fb_public_key : slots bytes; fb_begin_ordinal : slots Z;
  fb_end_ordinal : slots Z
}.

Definition trace_rows_empty : TraceRowsBuilder :=
  mkTraceRowsBuilder [] [] [] [] [] [] [] [] [] [] [] [] [] [] [] [] [] [] [] [] [] [] [] [] [].

Definition append_trace (b : TraceRowsBuilder) (row : Trace) : TraceRowsBuilder :=
  mkTraceRowsBuilder
    (append_value (fb_special_block_num b) (f_block_num row))
    (append_value (fb_block_hash b) (f_block_hash row)) (append_value (fb_block_num b) (f_block_num row))
    (append_value (fb_timestamp b) (as_i64 (f_timestamp row))) (append_value (fb_tx_index b) (f_tx_index row))
    (append_value (fb_tx_hash b) (f_tx_hash row)) (append_option (fb_to b) (f_to row))
    (append_value (fb_nonce b) (f_nonce row)) (append_option (fb_gas_price b) (f_gas_price row))
    (append_value (fb_gas_limit b) (f_gas_limit row)) (append_option (fb_value b) (f_value row))
    (append_value (fb_input b) (f_input row)) (append_value (fb_v b) (f_v row))
    (append_value (fb_r b) (f_r row)) (append_value (fb_s b) (f_s row))
    (append_value (fb_gas_used b) (f_receipt_cumulative_gas_used row)) (append_value (fb_type b) (f_type row))
    (append_option (fb_max_fee_per_gas b) (f_max_fee_per_gas row))
    (append_option (fb_max_priority_fee_per_gas b) (f_max_priority_fee_per_gas row))
    (append_value (fb_from b) (f_from row)) (append_value (fb_status b) (f_status row))
    (append_value (fb_return_data b) (f_return_data row)) (append_value (fb_public_key b) (f_public_key row))
    (append_value (fb_begin_ordinal b) (f_begin_ordinal row))
    (append_value (fb_end_ordinal b) (f_end_ordinal row)).

Definition trace_columns (b : TraceRowsBuilder) : list ArrayRef := [
  uint64 (fb_special_block_num b); bytes32 (fb_block_hash b); uint64 (fb_block_num b);
  timestamp_ns (fb_timestamp b); uint32 (fb_tx_index b); bytes32 (fb_tx_hash b); evm_address (fb_to b);
  uint64 (fb_nonce b); evm_currency (fb_gas_price b); uint64 (fb_gas_limit b); evm_currency (fb_value b);
  binary (fb_input b); binary (fb_v b); binary (fb_r b); binary (fb_s b); uint64 (fb_gas_used b);
  int32 (fb_type b); evm_currency (fb_max_fee_per_gas b); evm_currency (fb_max_priority_fee_per_gas b);
  evm_address (fb_from b); int32 (fb_status b); binary (fb_return_data b); binary (fb_public_key b);
  uint64 (fb_begin_ordinal b); uint64 (fb_end_ordinal b)
].

(** The row by the names of its columns. *)
Definition trace_cells (row : Trace) : list (string * Cell) := [
  (SPECIAL_BLOCK_NUM, IntCell (Some (f_block_num row))); ("block_hash", BytesCell (Some (f_block_hash row)));
  ("block_num", IntCell (Some (f_block_num row))); ("timestamp", IntCell (Some (as_i64 (f_timestamp row))));
  ("tx_index", IntCell (Some (f_tx_index row))); ("tx_hash", BytesCell (Some (f_tx_hash row)));
  ("to", BytesCell (f_to row)); ("nonce", IntCell (Some (f_nonce row)));
  ("gas_price", IntCell (f_gas_price row)); ("gas_limit", IntCell (Some (f_gas_limit row)));
  ("value", IntCell (f_value row)); ("input", BytesCell (Some (f_input row)));
  ("v", BytesCell (Some (f_v row))); ("r", BytesCell (Some (f_r row))); ("s", BytesCell (Some (f_s row)));
  ("gas_used", IntCell (Some (f_receipt_cumulative_gas_used row))); ("type", IntCell (Some (f_type row)));
  ("max_fee_per_gas", IntCell (f_max_fee_per_gas row));
  ("max_priority_fee_per_gas", IntCell (f_max_priority_fee_per_gas row));
  ("from", BytesCell (Some (f_from row))); ("status", IntCell (Some (f_status row)));
  ("return_data", BytesCell (Some (f_return_data row))); ("public_key", BytesCell (Some (f_public_key row)));
  ("begin_ordinal", IntCell (Some (f_begin_ordinal row))); ("end_ordinal", IntCell (Some (f_end_ordinal row)))
].

(** ** Table [calls] of Firehose (extractors/firehose/src/evm/tables/calls.rs) *)

Record Call := mkCall {
  c_block_hash : bytes; c_block_num : Z; c_timestamp : Z; c_tx_index : Z; c_tx_hash : bytes; c_index : Z;
  c_parent_index : Z; c_depth : Z; c_call_type : Z; c_caller : bytes; c_address : bytes; c_value : option Z;
  c_gas_limit : Z; c_gas_consumed : Z; c_return_data : bytes; c_input : bytes; c_selfdestruct : bool;
  c_executed_code : bool; c_begin_ordinal : Z; c_end_ordinal : Z
}.

Definition call_schema : list Field := [
  mkField SPECIAL_BLOCK_NUM DataType.UInt64 false; mkField "block_hash" BYTES32_TYPE false;
  mkField "block_num" DataType.UInt64 false; mkField "timestamp" timestamp_type false;
  mkField "tx_index" DataType.UInt32 false; mkField "tx_hash" BYTES32_TYPE false;
  mkField "index" DataType.UInt32 false; mkField "parent_index" DataType.UInt32 false;
  mkField "depth" DataType.UInt32 false; mkField "call_type" DataType.Int32 false;
  mkField "caller" EVM_ADDRESS_TYPE false; mkField "address" EVM_ADDRESS_TYPE false;
  mkField "value" EVM_CURRENCY_TYPE true; mkField "gas_limit" DataType.UInt64 false;
  mkField "gas_consumed" DataType.UInt64 false; mkField "return_data" DataType.Binary false;
  mkField "input" DataType.Binary false; mkField "selfdestruct" DataType.Boolean false;
  mkField "executed_code" DataType.Boolean false; mkField "begin_ordinal" DataType.UInt64 false;
  mkField "end_ordinal" DataType.UInt64 false
].

Record CallRowsBuilder := mkCallRowsBuilder {
  cb_special_block_num : slots Z; cb_block_hash : slots bytes; cb_block_num : slots Z; cb_timestamp : slots Z;
  cb_tx_index : slots Z; cb_tx_hash : slots bytes; cb_index : slots Z; cb_parent_index : slots Z;
  cb_depth : slots Z; cb_call_type : slots Z; cb_caller : slots bytes; cb_address : slots bytes;
  cb_value : slots Z; cb_gas_limit : slots Z; cb_gas_consumed : slots Z; cb_return_data : slots bytes;
  cb_input : slots bytes; cb_selfdestruct : slots bool; cb_executed_code : slots bool;
  cb_begin_ordinal : slots Z; cb_end_ordinal : slots Z
}.

Definition call_rows_empty : CallRowsBuilder :=
  mkCallRowsBuilder [] [] [] [] [] [] [] [] [] [] [] [] [] [] [] [] [] [] [] [] [].

Definition append_call (b : CallRowsBuilder) (row : Call) : CallRowsBuilder :=
  mkCallRowsBuilder
    (append_value (cb_special_block_num b) (c_block_num row))
    (append_value (cb_block_hash b) (c_block_hash row)) (append_value (cb_block_num b) (c_block_num row))
    (append_value (cb_timestamp b) (as_i64 (c_timestamp row))) (append_value (cb_tx_index b) (c_tx_index row))
    (append_value (cb_tx_hash b) (c_tx_hash row)) (append_value (cb_index b) (c_index row))
    (append_value (cb_parent_index b) (c_parent_index row)) (append_value (cb_depth b) (c_depth row))
    (append_value (cb_call_type b) (c_call_type row)) (append_value (cb_caller b) (c_caller row))
    (append_value (cb_address b) (c_address row)) (append_option (cb_value b) (c_value row))
    (append_value (cb_gas_limit b) (c_gas_limit row)) (append_value (cb_gas_consumed b) (c_gas_consumed row))
    (append_value (cb_return_data b) (c_return_data row)) (append_value (cb_input b) (c_input row))
    (append_value (cb_selfdestruct b) (c_selfdestruct row))
    (append_value (cb_executed_code b) (c_executed_code row))
    (append_value (cb_begin_ordinal b) (c_begin_ordinal row))
    (append_value (cb_end_ordinal b) (c_end_ordinal row)).

Definition call_columns (b : CallRowsBuilder) : list ArrayRef := [
  uint64 (cb_special_block_num b); bytes32 (cb_block_hash b); uint64 (cb_block_num b);
  timestamp_ns (cb_timestamp b); uint32 (cb_tx_index b); bytes32 (cb_tx_hash b); uint32 (cb_index b);
  uint32 (cb_parent_index b); uint32 (cb_depth b); int32 (cb_call_type b); evm_address (cb_caller b);
  evm_address (cb_address b); evm_currency (cb_value b); uint64 (cb_gas_limit b); uint64 (cb_gas_consumed b);
  binary (cb_return_data b); binary (cb_input b); boolean (cb_selfdestruct b); boolean (cb_executed_code b);
  uint64 (cb_begin_ordinal b); uint64 (cb_end_ordinal b)
].

(** The row by the names of its columns. *)
Definition call_cells (row : Call) : list (string * Cell) := [
  (SPECIAL_BLOCK_NUM, IntCell (Some (c_block_num row))); ("block_hash", BytesCell (Some (c_block_hash row)));
  ("block_num", IntCell (Some (c_block_num row))); ("timestamp", IntCell (Some (as_i64 (c_timestamp row))));
  ("tx_index", IntCell (Some (c_tx_index row))); ("tx_hash", BytesCell (Some (c_tx_hash row)));
  ("index", IntCell (Some (c_index row))); ("parent_index", IntCell (Some (c_parent_index row)));
  ("depth", IntCell (Some (c_depth row))); ("call_type", IntCell (Some (c_call_type row)));
  ("caller", BytesCell (Some (c_caller row))); ("address", BytesCell (Some (c_address row)));
  ("value", IntCell (c_value row)); ("gas_limit", IntCell (Some (c_gas_limit row)));
  ("gas_consumed", IntCell (Some (c_gas_consumed row))); ("return_data", BytesCell (Some (c_return_data row)));
  ("input", BytesCell (Some (c_input row))); ("selfdestruct", BoolCell (Some (c_selfdestruct row)));
  ("executed_code", BoolCell (Some (c_executed_code row)));
  ("begin_ordinal", IntCell (Some (c_begin_ordinal row))); ("end_ordinal", IntCell (Some (c_end_ordinal row)))
].

(** ** Record batches *)

Record Batch := mkArrowBatch { batch_schema : list Field; batch_columns : list ArrayRef }.

(** What the extractors use of a table. *)
Class TableRows (Row B : Type) := {
  table_name : string;
  table_schema : list Field;
  rows_empty : B;
  append_row : B → Row → B;
  columns : B → list ArrayRef;
  cells : Row → list (string * Cell);
  row_block_num : Row → Z
}.

#[export] Instance block_table : TableRows Block BlockRowsBuilder :=
  {| table_name := "blocks"; table_schema := block_schema; rows_empty := block_rows_empty; append_row := append_block;
     columns := block_columns; cells := block_cells; row_block_num := b_block_num |}.

#[export] Instance log_table : TableRows Log LogRowsBuilder :=
  {| table_name := "logs"; table_schema := log_schema; rows_empty := log_rows_empty; append_row := append_log;
     columns := log_columns; cells := log_cells; row_block_num := l_block_num |}.

#[export] Instance transaction_table : TableRows Transaction TransactionRowsBuilder :=
  {| table_name := "transactions"; table_schema := transaction_schema; rows_empty := transaction_rows_empty; append_row := append_transaction;
     columns := transaction_columns; cells := transaction_cells; row_block_num := t_block_num |}.

#[export] Instance trace_table : TableRows Trace TraceRowsBuilder :=
  {| table_name := "transactions"; table_schema := trace_schema; rows_empty := trace_rows_empty; append_row := append_trace;
     columns := trace_columns; cells := trace_cells; row_block_num := f_block_num |}.

#[export] Instance call_table : TableRows Call CallRowsBuilder :=
  {| table_name := "calls"; table_schema := call_schema; rows_empty := call_rows_empty; append_row := append_call;
     columns := call_columns; cells := call_cells; row_block_num := c_block_num |}.

Definition column_by_name {V} (schema : list Field) (cols : list V) (name : string) : option V :=
  snd <$> List.find (λ fc, (field_name fc.1 =? name)%string) (zip schema cols).

(** The [_block_num] column as the checks of [RawTableRows] see it; the size of
    the batch plays no part in them. *)
Definition block_nums (b : Batch) : RawWriter.Column :=
  match column_by_name (batch_schema b) (batch_columns b) SPECIAL_BLOCK_NUM with
  | None => MissingColumn
  | Some c =>
      match array c with
      | PrimitiveArray UInt64Type xs => UInt64Column ((λ s : bool * Z, if s.1 then Some s.2 else None) <$> xs)
      | _ => OtherColumn
      end
  end.

Definition batch_rows (b : Batch) : nat :=
  match batch_columns b with [] => 0%nat | c :: _ => arr_len (array c) end.

Definition summary (b : Batch) : RawWriter.RecordBatch := RawWriter.mkBatch (Z.of_nat (batch_rows b)) (block_nums b) 0.

Inductive RowsError := ArrowError (e : string) | Malformed (table : string) (e : InvariantError).

Record TableBatch := mkTableBatch { tb_table : string; tb_batch : Batch; tb_range : BlockRange }.

Section Build.
(** [RecordBatch::try_new] *)
Context (try_new : list Field → list ArrayRef → comp string Batch).

(** [RawTableRows::new] *)
Definition raw_table_rows_new (name : string) (schema : list Field) (r : BlockRange) (cols : list ArrayRef)
    : comp RowsError TableBatch :=
  match try_new schema cols with
  | Ok b =>
      match check_invariants r (summary b) with
      | Ok _ => Ok (mkTableBatch name b r)
      | Err e => Err (Malformed name e)
      | Panic => Panic
      | OutOfFuel => OutOfFuel
      end
  | Err e => Err (ArrowError e)
  | Panic => Panic
  | OutOfFuel => OutOfFuel
  end.

Context {Row B : Type} `{TableRows Row B}.

(** [build] of each builder *)
Definition build_rows (b : B) (r : BlockRange) : comp RowsError TableBatch :=
  raw_table_rows_new (table_name (Row := Row) (B := B)) (table_schema (Row := Row) (B := B)) r (columns b).

(** A builder, one [append] per row, and [build]. *)
Definition rows_to_table (l : list Row) (r : BlockRange) : comp RowsError TableBatch :=
  build_rows (foldl append_row rows_empty l) r.
End Build.

(** The range of a block; hashes are numbers. *)
Definition block_range_of (b : Block) (network : string) : BlockRange :=
  mkBlockRange (mkRange (b_block_num b) (b_block_num b)) network (from_be (b_hash b)) (Some (from_be (b_parent_hash b))).

(** A table as the writer sees it, and [RawDatasetRows::new]. *)
Definition to_raw (t : TableBatch) : RawWriter.RawTableRows := RawWriter.mkRows (tb_table t) (summary (tb_batch t)) (tb_range t).

Definition raw_dataset_rows (l : list TableBatch) : total (list TableBatch) :=
  _ ← dataset_rows_new (to_raw <$> l); Ok l.

#[local] Close Scope string_scope.

(** ** Reading rows *)

Definition nullable {V} (s : bool * V) : option V := if s.1 then Some s.2 else None.

(** The fields of a structure, row by row. *)
Definition struct_cells (validity : list bool) (columns : list (list Cell)) : list Cell :=
  imap (λ i v, StructCell (if v : bool then Some (omap (λ cs, cs !! i) columns) else None)) validity.

Fixpoint array_cells (a : Array) : list Cell :=
  match a with
  | BooleanArray xs => BoolCell ∘ nullable <$> xs
  | PrimitiveArray _ xs | Decimal128Array _ xs | Decimal256Array _ xs => IntCell ∘ nullable <$> xs
  | GenericBinaryArray _ xs | FixedSizeBinaryArray _ xs => BytesCell ∘ nullable <$> xs
  | GenericStringArray _ xs => TextCell ∘ nullable <$> xs
  | GenericListArray _ xs | FixedSizeListArray _ xs =>
      (λ s : bool * Array, ListCell (let '(valid, a) := s in if valid then Some (array_cells a) else None)) <$> xs
  | StructArray validity fields => struct_cells validity (array_cells <$> fields)
  | OtherArray _ => []
  end.

Definition cell (a : Array) (i : nat) : option Cell := array_cells a !! i.
#[global] Arguments cell : simpl never.

Lemma cell_boolean xs i : cell (BooleanArray xs) i = BoolCell ∘ nullable <$> xs !! i.
Proof. apply list_lookup_fmap. Qed.
Lemma cell_primitive p xs i : cell (PrimitiveArray p xs) i = IntCell ∘ nullable <$> xs !! i.
Proof. apply list_lookup_fmap. Qed.
Lemma cell_decimal p xs i : cell (Decimal128Array p xs) i = IntCell ∘ nullable <$> xs !! i.
Proof. apply list_lookup_fmap. Qed.
Lemma cell_binary l xs i : cell (GenericBinaryArray l xs) i = BytesCell ∘ nullable <$> xs !! i.
Proof. apply list_lookup_fmap. Qed.
Lemma cell_fixed n xs i : cell (FixedSizeBinaryArray n xs) i = BytesCell ∘ nullable <$> xs !! i.
Proof. apply list_lookup_fmap. Qed.
Lemma cell_string l xs i : cell (GenericStringArray l xs) i = TextCell ∘ nullable <$> xs !! i.
Proof. apply list_lookup_fmap. Qed.
Lemma cell_list l xs i :
  cell (GenericListArray l xs) i =
  (λ s : bool * Array, ListCell (let '(valid, a) := s in if valid then Some (array_cells a) else None)) <$> xs !! i.
Proof. apply list_lookup_fmap. Qed.

Definition known (a : Array) : Prop := match a with OtherArray _ => False | _ => True end.

Lemma cells_length a : known a → length (array_cells a) = arr_len a.
Proof. destruct a; cbn; try done; intros _; rewrite ?length_fmap; [done..|]. apply length_imap. Qed.

(** A row is appended to a structure when a value is appended to each field. *)
Lemma struct_cells_snoc validity columns columns' row v :
  Forall (λ cs, length cs = length validity) columns → Forall3 (λ cs cs' c, cs' = cs ++ [c]) columns columns' row →
  struct_cells (validity ++ [v]) columns' = struct_cells validity columns ++ [StructCell (if v : bool then Some row else None)].
Proof.
  intros Hlen Hrow. unfold struct_cells. rewrite imap_app. f_equal.
  - apply imap_ext. intros i b Hi%lookup_lt_Some. destruct b; [|done]. do 2 f_equal.
    induction Hrow as [|cs cs' c css css' row -> _ IH]; [done|]. apply list.Forall_cons in Hlen as [Hl Hlen].
    cbn. rewrite lookup_app_l by lia. by rewrite (IH Hlen).
  - cbn. do 2 f_equal. rewrite Nat.add_0_r. destruct v; [|done]. f_equal. induction Hrow as [|cs cs' c css css' row -> _ IH]; [done|].
    apply list.Forall_cons in Hlen as [Hl Hlen]. cbn. rewrite lookup_app_r, Hl, Nat.sub_diag by lia. cbn. by rewrite (IH Hlen).
Qed.

Definition read (schema : list Field) (cols : list ArrayRef) (name : string) (i : nat) : option Cell :=
  c ← column_by_name schema cols name; cell (array c) i.

(** What [RecordBatch::try_new] accepts: columns of the types of the fields, no
    nulls where the field has none, and one length. *)
Definition fits (n : nat) (f : Field) (c : ArrayRef) : Prop :=
  field_type f = array_type c /\ (is_nullable f = false → null_count (array c) = 0%nat) /\ arr_len (array c) = n.

Class TableRowsOk (Row B : Type) `{TableRows Row B} : Prop := {
  columns_fit (l : list Row) :
    Forall2 (fits (length l)) (table_schema (Row := Row) (B := B)) (columns (foldl append_row rows_empty l));
  rows_read (l : list Row) i row name c :
    l !! i = Some row → (name, c) ∈ cells row →
    read (table_schema (Row := Row) (B := B)) (columns (foldl append_row rows_empty l)) name i = Some c;
  block_num_column (l : list Row) :
    column_by_name (table_schema (Row := Row) (B := B)) (columns (foldl append_row rows_empty l)) SPECIAL_BLOCK_NUM =
    Some (uint64 (slot_value ∘ row_block_num <$> l))
}.

(** ** The laws for the tables *)

(** A column of the builder after appending rows. *)
Lemma foldl_column {R B V} (append : B → R → B) (column : B → slots V) (g : R → bool * V) :
  (∀ b r, column (append b r) = column b ++ [g r]) →
  ∀ l b, column (foldl append b l) = column b ++ (g <$> l).
Proof.
  intros Hg l. induction l as [|r l IH]; intros b; cbn [foldl]; [by rewrite app_nil_r|].
  rewrite IH, Hg, <- app_assoc. done.
Qed.

Lemma nulls_value {R V} (f : R → V) l : count_nulls ((λ r, slot_value (f r)) <$> l) = 0%nat.
Proof. unfold count_nulls. by induction l. Qed.

Lemma slot_option_read {V} `{Inhabited V} (v : option V) :
  (if (slot_option v).1 then Some (slot_option v).2 else None) = v.
Proof. by destruct v. Qed.

Ltac column_folds :=
  repeat match goal with
  | |- context [?column (foldl ?append ?b ?l)] =>
      erewrite (foldl_column append column) by (intros; reflexivity)
  end.

Ltac unfold_table table schema columns_of empty :=
  cbv beta iota delta [table_schema columns append_row rows_empty row_block_num table schema columns_of];
  column_folds; cbv beta iota delta [empty]; cbn [app].

Ltac fit_columns :=
  repeat (apply Forall2_cons; split; [split; [reflexivity|split; [first [discriminate|intros _; apply nulls_value]|apply length_fmap]]|]);
  constructor.

Ltac read_rows table cells_of :=
  intros i row name c Hi Hin; cbv beta iota delta [cells table cells_of] in Hin;
  repeat (apply elem_of_cons in Hin as [[= -> ->]|Hin];
    [cbn; rewrite ?cell_boolean, ?cell_primitive, ?cell_decimal, ?cell_binary, ?cell_fixed, list_lookup_fmap, Hi; cbn;
     unfold nullable; by rewrite ?slot_option_read|]);
  by apply elem_of_nil in Hin.

Ltac table_ok table schema cells_of columns_of empty :=
  split; intros l; unfold_table table schema columns_of empty; [fit_columns|read_rows table cells_of|reflexivity].

#[export] Instance block_table_ok : TableRowsOk Block BlockRowsBuilder.
Proof. table_ok block_table block_schema block_cells block_columns block_rows_empty. Qed.

#[export] Instance log_table_ok : TableRowsOk Log LogRowsBuilder.
Proof. table_ok log_table log_schema log_cells log_columns log_rows_empty. Qed.

#[export] Instance transaction_table_ok : TableRowsOk Transaction TransactionRowsBuilder.
Proof. table_ok transaction_table transaction_schema transaction_cells transaction_columns transaction_rows_empty. Qed.

#[export] Instance trace_table_ok : TableRowsOk Trace TraceRowsBuilder.
Proof. table_ok trace_table trace_schema trace_cells trace_columns trace_rows_empty. Qed.

#[export] Instance call_table_ok : TableRowsOk Call CallRowsBuilder.
Proof. table_ok call_table call_schema call_cells call_columns call_rows_empty. Qed.

(** ** Building a table *)

Lemma check_rows r n nums :
  start r = end_ r → n = Z.of_nat (length nums) → ∀ size,
  match check_invariants r (RawWriter.mkBatch n (UInt64Column (Some <$> nums)) size) with
  | Ok _ => Forall (λ b, b = start r) nums
  | Err (UnexpectedBlockNum b) => b ∈ nums /\ b ≠ start r
  | _ => False
  end.
Proof.
  intros Hr -> size. unfold check_invariants. rewrite Hr, Z.eqb_refl. cbn [negb RawWriter.num_rows RawWriter.block_num_column].
  destruct (Z.eqb_spec (Z.of_nat (length nums)) 0) as [Hz|Hnz]; [by destruct nums|].
  assert (omap id (Some <$> nums) = nums) as -> by (clear; induction nums as [|x nums IH]; cbn in *; [done|by rewrite IH]).
  destruct (list_min nums) as [lo|] eqn:Elo; [|by apply list_min_None in Elo as ->].
  destruct (list_max nums) as [hi|] eqn:Ehi; [|by apply list_max_None in Ehi as ->].
  apply list_min_Some in Elo as [Hlo Hmin]. apply list_max_Some in Ehi as [Hhi Hmax]. cbn.
  destruct (Z.eqb_spec lo (end_ r)) as [->|?]; [|done]. destruct (Z.eqb_spec hi (end_ r)) as [->|?]; [|done]. cbn.
  rewrite Forall_forall in *. intros b Hb. specialize (Hmin b Hb). specialize (Hmax b Hb). lia.
Qed.

Section BuildCorrect.
Context (try_new : list Field → list ArrayRef → comp string Batch).

(** [RecordBatch::try_new] accepts the columns it documents. *)
Definition accepts_fitting : Prop := ∀ schema cols n,
  cols ≠ [] → Forall2 (fits n) schema cols → try_new schema cols = Ok (mkArrowBatch schema cols).

Context (Htry : accepts_fitting).
Context {Row B : Type} `{Hrows : TableRows Row B} `{!TableRowsOk Row B}.

Lemma columns_batch (l : list Row) :
  let b := mkArrowBatch (table_schema (Row := Row) (B := B)) (columns (foldl append_row rows_empty l)) in
  batch_columns b ≠ [] /\ batch_rows b = length l /\ block_nums b = UInt64Column (Some <$> (row_block_num <$> l)).
Proof.
  cbv zeta. pose proof (columns_fit (Row := Row) (B := B) l) as Hfit. pose proof (block_num_column (Row := Row) (B := B) l) as Hnum.
  unfold block_nums, batch_rows. cbn [batch_columns batch_schema]. rewrite Hnum. cbn [array uint64]. split_and!.
  - intros He. unfold column_by_name in Hnum. rewrite He in Hnum. by destruct (table_schema).
  - unfold column_by_name in Hnum. destruct (columns _) as [|c cs]; [by destruct (table_schema)|]. by inversion Hfit as [|? ? ? ? [_ [_ ?]]].
  - f_equal. by rewrite <- !list_fmap_compose.
Qed.

Lemma table_rows_built (l : list Row) r :
  start r = end_ r →
  match rows_to_table try_new (B := B) l r with
  | Ok t =>
      Forall (λ row, row_block_num row = start r) l
      /\ tb_range t = r /\ tb_table t = table_name (Row := Row) (B := B)
      /\ Forall2 (fits (length l)) (batch_schema (tb_batch t)) (batch_columns (tb_batch t))
      /\ ∀ i row name c, l !! i = Some row → (name, c) ∈ cells row →
           read (batch_schema (tb_batch t)) (batch_columns (tb_batch t)) name i = Some c
  | Err (Malformed _ (UnexpectedBlockNum n)) => (∃ row, row ∈ l /\ row_block_num row = n) /\ n ≠ start r
  | _ => False
  end.
Proof.
  intros Hr. unfold rows_to_table, build_rows, raw_table_rows_new. destruct (columns_batch l) as (Hne & Hlen & Hnums).
  cbn [batch_columns] in Hne. rewrite (Htry _ _ (length l) Hne (columns_fit l)). unfold summary. rewrite Hnums, Hlen.
  pose proof (check_rows r (Z.of_nat (length l)) (row_block_num <$> l) Hr ltac:(by rewrite length_fmap) 0) as Hc.
  destruct (check_invariants _ _) as [[]|e| |]; [..|done|done].
  - cbn. apply Forall_fmap in Hc. split_and!; [done..|apply columns_fit|]. intros i row name c. apply rows_read.
  - destruct e; try done. destruct Hc as [(row & -> & Hrow)%list_elem_of_fmap Hn]. eauto.
Qed.

End BuildCorrect.

(** The table holds the rows, typed by its schema. *)
Definition holds {Row B : Type} `{TableRows Row B} (t : TableBatch) (l : list Row) : Prop :=
  tb_table t = table_name (Row := Row) (B := B)
  /\ Forall2 (fits (length l)) (batch_schema (tb_batch t)) (batch_columns (tb_batch t))
  /\ ∀ i row name c, l !! i = Some row → (name, c) ∈ cells row →
       read (batch_schema (tb_batch t)) (batch_columns (tb_batch t)) name i = Some c.

(** A table of rows of the block is built. *)
Lemma table_of_block try_new (Htry : accepts_fitting try_new) {Row B : Type} `{TableRowsOk Row B} (l : list Row) block network :
  Forall (λ row, row_block_num row = b_block_num block) l →
  ∃ t, rows_to_table try_new (B := B) l (block_range_of block network) = Ok t
       /\ tb_range t = block_range_of block network /\ holds (Row := Row) (B := B) t l.
Proof.
  intros Hl. pose proof (table_rows_built try_new Htry (B := B) l (block_range_of block network) eq_refl) as Hb.
  destruct (rows_to_table _ _ _) as [t|[e|tn []]| |]; try done.
  - exists t. by destruct Hb as (_ & ? & ? & ? & ?).
  - destruct Hb as [(row & Hrow & Hn) Hne]. rewrite Forall_forall in Hl. specialize (Hl row Hrow). cbn in Hne. congruence.
Qed.

Lemma raw_dataset_rows_Ok r l : l ≠ [] → Forall (λ t, tb_range t = r) l → raw_dataset_rows l = Ok l.
Proof.
  unfold raw_dataset_rows. destruct l as [|t l]; [done|]. intros _ [Ht Hl]%list.Forall_cons. rewrite fmap_cons. cbn [dataset_rows_new].
  replace (forallb _ _) with true; [done|]. symmetry. apply forallb_forall. intros x Hx%list_elem_of_In.
  apply list_elem_of_fmap in Hx as (t' & -> & Ht'). rewrite Forall_forall in Hl. apply bool_decide_eq_true. cbn. by rewrite Ht, (Hl t').
Qed.

(** ** Evaluations *)

Module Evaluation.
#[local] Open Scope string_scope.

(** Arrow, for the columns it accepts. *)
Definition try_new (schema : list Field) (cols : list ArrayRef) : comp string Batch := Ok (mkArrowBatch schema cols).
Lemma try_new_accepts : accepts_fitting try_new.
Proof. by intros schema cols n _ _. Qed.


End Evaluation.
