(* ===== verification/EvmValues.v ===== *)
(** * EvmValues

    Solidity values in Arrow (core/common/src/evm/udfs.rs): the Arrow type of a
    Solidity type, the builders that values and nulls are appended to, and the
    way back from a scalar or an array.

    [DynSolType] and [DynSolValue] are those of alloy; a fixed number of bytes is
    a word of 32 bytes with its length. A builder is the values appended so far;
    that of a list has the builder of the open list and those of the closed
    ones. Arrow refuses a list of another length than its fixed one when the
    builder finishes: here of each list, there of their sum. *)

From stdpp Require Import base numbers gmap strings option list pretty.
From Stdlib Require Import ZArith Lia.
From S2P Require Import Prelude Decimal PgTypes PgCopy EvmTables.

#[local] Open Scope Z_scope.

(** ** Types and values *)

Module DynSolType.
Inductive DynSolType :=
  | Bool
  | Int (bits : Z)
  | Uint (bits : Z)
  | FixedBytes (size : Z)
  | Address
  | Function
  | Bytes
  | String
  | Array (ty : DynSolType)
  | FixedArray (ty : DynSolType) (sz : Z)
  | Tuple (tys : list DynSolType).
End DynSolType.
Abbreviation DynSolType := DynSolType.DynSolType.

Module DynSolValue.
Inductive DynSolValue :=
  | Bool (b : bool)
  | Int (s bits : Z)
  | Uint (u bits : Z)
  | FixedBytes (word : bytes) (size : Z)
  | Address (a : bytes)
  | Function (f : bytes)
  | Bytes (b : bytes)
  | String (s : bytes)
  | Array (l : list DynSolValue)
  | FixedArray (l : list DynSolValue)
  | Tuple (l : list DynSolValue).
End DynSolValue.
Abbreviation DynSolValue := DynSolValue.DynSolValue.

(** [DataFusionError], by its kind *)
Inductive DataFusionError := Internal | Plan | Execution | ArrowFailed.

Abbreviation df := (comp DataFusionError).

Definition DEC128_PREC : Z := 38.
Definition DEC256_PREC : Z := 76.
Definition DEC_256_MAX_BINARY_PREC : Z := 251.
Definition DEC_128_MAX_BINARY_PREC : Z := 125.

(** [x as i32] *)
Definition as_i32 (z : Z) : Z := let w := z `mod` 4294967296 in if (w <? 2147483648)%Z then w else w - 4294967296.

(** The widths of the arms for [Int] and [Uint]. *)
Definition int_arrow_type (t8 t16 t32 t64 : DataType) (bits : Z) : df DataType :=
  if bits =? 8 then Ok t8
  else if bits =? 16 then Ok t16
  else if bits <=? 32 then Ok t32
  else if bits <=? 64 then Ok t64
  else if bits <=? DEC_128_MAX_BINARY_PREC then Ok (DataType.Decimal128 DEC128_PREC 0)
  else if bits <=? DEC_256_MAX_BINARY_PREC then Ok (DataType.Decimal256 DEC256_PREC 0)
  else if bits <=? 256 then Ok DataType.Utf8
  else Err Internal.

Fixpoint sol_to_arrow_type (ty : DynSolType) : df DataType :=
  match ty with
  | DynSolType.Bool => Ok DataType.Boolean
  | DynSolType.Int bits => int_arrow_type DataType.Int8 DataType.Int16 DataType.Int32 DataType.Int64 bits
  | DynSolType.Uint bits => int_arrow_type DataType.UInt8 DataType.UInt16 DataType.UInt32 DataType.UInt64 bits
  | DynSolType.FixedBytes size => Ok (DataType.FixedSizeBinary (as_i32 size))
  | DynSolType.Address => Ok (DataType.FixedSizeBinary 20)
  | DynSolType.Bytes => Ok DataType.Binary
  | DynSolType.String => Ok DataType.Utf8
  | DynSolType.Array ty => t ← sol_to_arrow_type ty; Ok (DataType.List (mkField "item" t true))
  | DynSolType.FixedArray ty sz => t ← sol_to_arrow_type ty; Ok (DataType.FixedSizeList (mkField "item" t true) (as_i32 sz))
  | DynSolType.Tuple tys =>
      fields ← (fix go (i : nat) (l : list DynSolType) : df (list Field) :=
                  match l with
                  | [] => Ok []
                  | ty :: l => t ← sol_to_arrow_type ty; fields ← go (S i) l;
                               Ok (mkField ("c" +:+ pretty i) t true :: fields)
                  end) 0%nat tys;
      Ok (DataType.Struct fields)
  | DynSolType.Function => Err Plan
  end.

Definition sol_to_arrow_type_for_indexed (ty : DynSolType) : df DataType :=
  match ty with
  | DynSolType.Bool | DynSolType.Int _ | DynSolType.Uint _ | DynSolType.FixedBytes _ | DynSolType.Address
  | DynSolType.Function => sol_to_arrow_type ty
  | DynSolType.String | DynSolType.Bytes | DynSolType.Array _ | DynSolType.FixedArray _ _ | DynSolType.Tuple _ =>
      Ok (DataType.FixedSizeBinary 32)
  end.

(** ** Builders *)

Inductive ArrayBuilder :=
  | BooleanBuilder (xs : slots bool)
  | PrimitiveBuilder (p : PrimitiveType) (xs : slots Z)
  | Decimal128Builder (scale : Z) (xs : slots Z)
  | Decimal256Builder (scale : Z) (xs : slots Z)
  | FixedSizeBinaryBuilder (value_length : Z) (xs : slots bytes)
  | BinaryBuilder (xs : slots bytes)
  | StringBuilder (xs : slots bytes)
  | ListBuilder (item : DataType) (values : ArrayBuilder) (closed : slots ArrayBuilder)
  | FixedSizeListBuilder (item : DataType) (list_len : Z) (values : ArrayBuilder) (closed : slots ArrayBuilder)
  | StructBuilder (fields : list ArrayBuilder) (valid : list bool)
  | OtherBuilder.

Definition primitive_of (t : DataType) : option PrimitiveType :=
  match t with
  | DataType.Int8 => Some Int8Type | DataType.Int16 => Some Int16Type
  | DataType.Int32 => Some Int32Type | DataType.Int64 => Some Int64Type
  | DataType.UInt8 => Some UInt8Type | DataType.UInt16 => Some UInt16Type
  | DataType.UInt32 => Some UInt32Type | DataType.UInt64 => Some UInt64Type
  | _ => None
  end.

(** Arrow's [make_builder], for the types that are used. *)
Fixpoint make_builder (t : DataType) : ArrayBuilder :=
  match t with
  | DataType.Boolean => BooleanBuilder []
  | DataType.Decimal128 _ scale => Decimal128Builder scale []
  | DataType.Decimal256 _ scale => Decimal256Builder scale []
  | DataType.FixedSizeBinary n => FixedSizeBinaryBuilder n []
  | DataType.Binary => BinaryBuilder []
  | DataType.Utf8 => StringBuilder []
  | DataType.List (DataType.mkField _ item _) => ListBuilder item (make_builder item) []
  | DataType.FixedSizeList (DataType.mkField _ item _) n => FixedSizeListBuilder item n (make_builder item) []
  | DataType.Struct fields => StructBuilder (List.map (λ f, match f with DataType.mkField _ t _ => make_builder t end) fields) []
  | t => match primitive_of t with Some p => PrimitiveBuilder p [] | None => OtherBuilder end
  end.

(** [finish]: the array, and what is asserted of fixed-size lists and of the
    columns of structures. *)
Fixpoint to_array (b : ArrayBuilder) : Array :=
  match b with
  | BooleanBuilder xs => BooleanArray xs
  | PrimitiveBuilder p xs => PrimitiveArray p xs
  | Decimal128Builder scale xs => Decimal128Array scale xs
  | Decimal256Builder scale xs => Decimal256Array scale xs
  | FixedSizeBinaryBuilder n xs => FixedSizeBinaryArray n xs
  | BinaryBuilder xs => GenericBinaryArray false xs
  | StringBuilder xs => GenericStringArray false xs
  | ListBuilder _ _ closed => GenericListArray false ((λ s : bool * ArrayBuilder, (s.1, to_array s.2)) <$> closed)
  | FixedSizeListBuilder _ n _ closed => FixedSizeListArray n ((λ s : bool * ArrayBuilder, (s.1, to_array s.2)) <$> closed)
  | StructBuilder fields valid => StructArray valid (to_array <$> fields)
  | OtherBuilder => OtherArray 0
  end.

Fixpoint lists_complete (b : ArrayBuilder) : bool :=
  match b with
  | ListBuilder _ _ closed => forallb (λ s : bool * ArrayBuilder, lists_complete s.2) closed
  | FixedSizeListBuilder _ n _ closed =>
      forallb (λ s : bool * ArrayBuilder, (Z.of_nat (arr_len (to_array s.2)) =? n) && lists_complete s.2) closed
  | StructBuilder fields valid => forallb (λ b, (arr_len (to_array b) =? length valid)%nat && lists_complete b) fields
  | _ => true
  end.

Definition finish {E} (b : ArrayBuilder) : comp E Array := if lists_complete b then Ok (to_array b) else Panic.

(** *** Values *)

Definition fits_precision (digits v : Z) : bool := (- 10 ^ digits <? v) && (v <? 10 ^ digits).

(** A value of a primitive builder: [try_from], and the downcast. *)
Definition append_primitive (p : PrimitiveType) (b : ArrayBuilder) (v : Z) : df ArrayBuilder :=
  match b with
  | PrimitiveBuilder q xs =>
      if bool_decide (p = q) then
        if ((primitive_range p).1 <=? v) && (v <=? (primitive_range p).2) then Ok (PrimitiveBuilder q (append_value xs v)) else Err Internal
      else Err Internal
  | _ => Err Internal
  end.

(** [primitive_int] and [primitive_uint]; the text is that of the number. *)
Definition primitive_number (p8 p16 p32 p64 : PrimitiveType) (b : ArrayBuilder) (v bits : Z) : df ArrayBuilder :=
  if bits =? 8 then append_primitive p8 b v
  else if bits =? 16 then append_primitive p16 b v
  else if bits <=? 32 then append_primitive p32 b v
  else if bits <=? 64 then append_primitive p64 b v
  else if bits <=? DEC_128_MAX_BINARY_PREC then
    if (v <=? i128_max) && (i128_min <=? v) && fits_precision DEC128_PREC v then
      match b with Decimal128Builder scale xs => Ok (Decimal128Builder scale (append_value xs v)) | _ => Err Internal end
    else Err Internal
  else if bits <=? DEC_256_MAX_BINARY_PREC then
    let v := let w := v `mod` 2 ^ 256 in if w <? 2 ^ 255 then w else w - 2 ^ 256 in
    if fits_precision DEC256_PREC v then
      match b with Decimal256Builder scale xs => Ok (Decimal256Builder scale (append_value xs v)) | _ => Err Internal end
    else Err Internal
  else if bits <=? 256 then
    match b with StringBuilder xs => Ok (StringBuilder (append_value xs (text_of (display_i8 v)))) | _ => Err Internal end
  else Panic.

Definition primitive_int := primitive_number Int8Type Int16Type Int32Type Int64Type.
Definition primitive_uint := primitive_number UInt8Type UInt16Type UInt32Type UInt64Type.

Definition append_fixed (b : ArrayBuilder) (v : bytes) : df ArrayBuilder :=
  match b with
  | FixedSizeBinaryBuilder n xs =>
      if Z.of_nat (length v) =? n then Ok (FixedSizeBinaryBuilder n (append_value xs v)) else Err ArrowFailed
  | _ => Err Plan
  end.

(** A loop that appends to one builder, and one over values and builders. *)
Definition append_each {B V} (append : B → V → df B) : list V → B → df B :=
  fix go l b := match l with [] => Ok b | v :: l => b ← append b v; go l b end.

Definition append_fields {B V} (append : B → V → df B) : list V → list B → df (list B) :=
  fix go l bs :=
    match l, bs with
    | v :: l, b :: bs => b ← append b v; bs ← go l bs; Ok (b :: bs)
    | _, _ => Ok bs
    end.

Fixpoint append_sol_value_to_builder (b : ArrayBuilder) (value : DynSolValue) {struct value} : df ArrayBuilder :=
  match value with
  | DynSolValue.Bool v => match b with BooleanBuilder xs => Ok (BooleanBuilder (append_value xs v)) | _ => Err Internal end
  | DynSolValue.Int s bits => if bits <=? 256 then primitive_int b s bits else Err Internal
  | DynSolValue.Uint u bits => if bits <=? 256 then primitive_uint b u bits else Err Internal
  | DynSolValue.FixedBytes word _ => append_fixed b word
  | DynSolValue.Address a => append_fixed b a
  | DynSolValue.Bytes v => match b with BinaryBuilder xs => Ok (BinaryBuilder (append_value xs v)) | _ => Err Plan end
  | DynSolValue.String s => match b with StringBuilder xs => Ok (StringBuilder (append_value xs s)) | _ => Err Plan end
  | DynSolValue.Array l =>
      match b with
      | ListBuilder item values closed =>
          values ← append_each append_sol_value_to_builder l values;
          Ok (ListBuilder item (make_builder item) (closed ++ [(true, values)]))
      | _ => Err Plan
      end
  | DynSolValue.FixedArray l =>
      match b with
      | FixedSizeListBuilder item n values closed =>
          values ← append_each append_sol_value_to_builder l values;
          Ok (FixedSizeListBuilder item n (make_builder item) (closed ++ [(true, values)]))
      | _ => Err Plan
      end
  | DynSolValue.Tuple l =>
      match b with
      | StructBuilder fields valid =>
          fields ← append_fields append_sol_value_to_builder l fields;
          Ok (StructBuilder fields (valid ++ [true]))
      | _ => Err Plan
      end
  | DynSolValue.Function _ => Err Plan
  end.

(** *** Nulls *)

Definition null_slot {V} `{Inhabited V} (xs : slots V) : slots V := append_option xs None.

Fixpoint iterate {B} (n : nat) (f : B → df B) (b : B) : df B :=
  match n with O => Ok b | S n => b ← f b; iterate n f b end.

Fixpoint append_null_value_to_builder (ty : DataType) (b : ArrayBuilder) {struct ty} : df ArrayBuilder :=
  match ty with
  | DataType.Boolean => match b with BooleanBuilder xs => Ok (BooleanBuilder (null_slot xs)) | _ => Err Internal end
  | DataType.Decimal128 38 0 => match b with Decimal128Builder scale xs => Ok (Decimal128Builder scale (null_slot xs)) | _ => Err Internal end
  | DataType.Decimal256 76 0 => match b with Decimal256Builder scale xs => Ok (Decimal256Builder scale (null_slot xs)) | _ => Err Internal end
  | DataType.Binary => match b with BinaryBuilder xs => Ok (BinaryBuilder (null_slot xs)) | _ => Err Internal end
  | DataType.FixedSizeBinary _ =>
      match b with
      | FixedSizeBinaryBuilder n xs => Ok (FixedSizeBinaryBuilder n (xs ++ [(false, replicate (Z.to_nat n) 0)]))
      | _ => Err Internal
      end
  | DataType.Utf8 => match b with StringBuilder xs => Ok (StringBuilder (null_slot xs)) | _ => Err Internal end
  | DataType.List _ =>
      match b with
      | ListBuilder item values closed => Ok (ListBuilder item (make_builder item) (closed ++ [(false, values)]))
      | _ => Err Internal
      end
  | DataType.FixedSizeList (DataType.mkField _ ty _) sz =>
      match b with
      | FixedSizeListBuilder item n values closed =>
          values ← iterate (Z.to_nat sz) (append_null_value_to_builder ty) values;
          Ok (FixedSizeListBuilder item n (make_builder item) (closed ++ [(false, values)]))
      | _ => Err Internal
      end
  | DataType.Struct fields =>
      match b with
      | StructBuilder builders valid =>
          builders ← (fix go (fields : list Field) (bs : list ArrayBuilder) : df (list ArrayBuilder) :=
                        match fields, bs with
                        | [], bs => Ok bs
                        | DataType.mkField _ ty _ :: fields, b :: bs =>
                            b ← append_null_value_to_builder ty b; bs ← go fields bs; Ok (b :: bs)
                        | _ :: _, [] => Panic
                        end) fields builders;
          Ok (StructBuilder builders (valid ++ [false]))
      | _ => Err Internal
      end
  | ty =>
      match primitive_of ty with
      | Some p =>
          match b with
          | PrimitiveBuilder q xs => if bool_decide (p = q) then Ok (PrimitiveBuilder q (null_slot xs)) else Err Internal
          | _ => Err Internal
          end
      | None => Err Internal
      end
  end.

(** ** Back to values *)

(** [Array::value]: of a null slot, what is in the buffer. *)
Definition value {V} (xs : slots V) (idx : nat) : df V :=
  match xs !! idx with Some (_, v) => Ok v | None => Panic end.

Definition int_to_sol_value (s : Z) (ty : DynSolType) : df DynSolValue :=
  match ty with
  | DynSolType.Int sz =>
      if sz =? 256 then Ok (DynSolValue.Int s sz)
      else if (sz <=? 0) || (256 <? sz) then Panic
      else if (s <? - 2 ^ (sz - 1)) || (2 ^ (sz - 1) - 1 <? s) then Err Plan
      else Ok (DynSolValue.Int s sz)
  | _ => Err Plan
  end.

Definition uint_to_sol_value (s : Z) (ty : DynSolType) : df DynSolValue :=
  match ty with
  | DynSolType.Uint sz =>
      if sz =? 256 then Ok (DynSolValue.Uint s sz)
      else if 256 <? sz then Panic
      else if 2 ^ sz <=? s then Err Plan
      else Ok (DynSolValue.Uint s sz)
  | _ => Err Plan
  end.

(** [U256::try_from] of an [i128], unwrapped, and the bits of an [i256]. *)
Definition decimal128_to_sol (d : Z) (ty : DynSolType) : df DynSolValue :=
  match ty with
  | DynSolType.Int _ => int_to_sol_value d ty
  | _ => if d <? 0 then Panic else uint_to_sol_value d ty
  end.

Definition decimal256_to_sol (d : Z) (ty : DynSolType) : df DynSolValue :=
  match ty with
  | DynSolType.Int _ => int_to_sol_value d ty
  | _ => uint_to_sol_value (d `mod` 2 ^ 256) ty
  end.

(** A word filled up on the right. *)
Definition fixed_bytes (b : bytes) : df DynSolValue :=
  if (32 <? length b)%nat then Panic
  else Ok (DynSolValue.FixedBytes (b ++ replicate (32 - length b) 0) (Z.of_nat (length b))).

Definition signed (p : PrimitiveType) : option bool :=
  match p with
  | Int8Type | Int16Type | Int32Type | Int64Type => Some true
  | UInt8Type | UInt16Type | UInt32Type | UInt64Type => Some false
  | _ => None
  end.

Definition primitive_to_sol (p : PrimitiveType) (v : Z) (ty : DynSolType) : df DynSolValue :=
  match signed p with
  | Some true => int_to_sol_value v ty
  | Some false => uint_to_sol_value v ty
  | None => Err Plan
  end.

Fixpoint array_to_sol_value (ty : DynSolType) (ary : Array) (idx : nat) {struct ty} : df DynSolValue :=
  match ary with
  | BooleanArray xs => match ty with DynSolType.Bool => v ← value xs idx; Ok (DynSolValue.Bool v) | _ => Err Plan end
  | PrimitiveArray p xs =>
      match signed p with Some _ => v ← value xs idx; primitive_to_sol p v ty | None => Err Plan end
  | Decimal128Array scale xs => if scale <=? 0 then v ← value xs idx; decimal128_to_sol v ty else Err Plan
  | Decimal256Array scale xs => if scale <=? 0 then v ← value xs idx; decimal256_to_sol v ty else Err Plan
  | GenericBinaryArray false xs => match ty with DynSolType.Bytes => v ← value xs idx; Ok (DynSolValue.Bytes v) | _ => Err Plan end
  | FixedSizeBinaryArray _ xs =>
      match ty with
      | DynSolType.FixedBytes len => v ← value xs idx; if Z.of_nat (length v) =? len then fixed_bytes v else Err Plan
      | DynSolType.Address => v ← value xs idx; if (length v =? 20)%nat then Ok (DynSolValue.Address v) else Err Plan
      | _ => Err Plan
      end
  | GenericStringArray false xs => match ty with DynSolType.String => v ← value xs idx; Ok (DynSolValue.String v) | _ => Err Plan end
  | GenericListArray false xs =>
      match ty with
      | DynSolType.Array ty =>
          items ← value xs idx;
          l ← mapM (array_to_sol_value ty items) (seq 0 (arr_len items)); Ok (DynSolValue.Array l)
      | _ => Err Plan
      end
  | FixedSizeListArray _ xs =>
      match ty with
      | DynSolType.FixedArray ty sz =>
          items ← value xs idx;
          if negb (sz =? Z.of_nat (arr_len items)) then Err Plan
          else l ← mapM (array_to_sol_value ty items) (seq 0 (arr_len items)); Ok (DynSolValue.FixedArray l)
      | _ => Err Plan
      end
  | StructArray _ columns =>
      match ty with
      | DynSolType.Tuple tys =>
          if negb (length tys =? length columns)%nat then Err Plan
          else l ← (fix go (tys : list DynSolType) (columns : list Array) : df (list DynSolValue) :=
                      match tys, columns with
                      | ty :: tys, col :: columns => v ← array_to_sol_value ty col idx; vs ← go tys columns; Ok (v :: vs)
                      | _, _ => Ok []
                      end) tys columns;
               Ok (DynSolValue.Tuple l)
      | _ => Err Plan
      end
  | _ => Err Plan
  end.

Inductive Layout := Small | View | Large.

(** [ScalarValue]: nested ones hold an array of one element. *)
Inductive ScalarValue :=
  | ScalarBoolean (v : option bool)
  | ScalarPrimitive (p : PrimitiveType) (v : option Z)
  | ScalarDecimal128 (v : option Z) (scale : Z)
  | ScalarDecimal256 (v : option Z) (scale : Z)
  | ScalarUtf8 (layout : Layout) (v : option bytes)
  | ScalarBinary (layout : Layout) (v : option bytes)
  | ScalarFixedSizeBinary (size : Z) (v : option bytes)
  | ScalarList (items : slots Array)
  | ScalarFixedSizeList (items : slots Array)
  | ScalarStruct (columns : list Array)
  | ScalarOther.

(** The items of a list, one by one. *)
Definition items_to_sol (ty : DynSolType) (items : Array) : df (list DynSolValue) :=
  mapM (array_to_sol_value ty items) (seq 0 (arr_len items)).

Definition columns_to_sol (idx : nat) : list DynSolType → list Array → df (list DynSolValue) :=
  fix go (tys : list DynSolType) (columns : list Array) : df (list DynSolValue) :=
    match tys, columns with
    | ty :: tys, col :: columns => v ← array_to_sol_value ty col idx; vs ← go tys columns; Ok (v :: vs)
    | _, _ => Ok []
    end.

Definition scalar_to_sol_value (v : ScalarValue) (ty : DynSolType) : df DynSolValue :=
  match v with
  | ScalarBoolean (Some b) => match ty with DynSolType.Bool => Ok (DynSolValue.Bool b) | _ => Err Plan end
  | ScalarPrimitive p (Some i) => primitive_to_sol p i ty
  | ScalarDecimal128 (Some d) scale => if scale <=? 0 then decimal128_to_sol d ty else Err Plan
  | ScalarDecimal256 (Some d) scale => if scale <=? 0 then decimal256_to_sol d ty else Err Plan
  | ScalarUtf8 _ (Some s) => match ty with DynSolType.String => Ok (DynSolValue.String s) | _ => Err Plan end
  | ScalarBinary _ (Some b) => match ty with DynSolType.Bytes => Ok (DynSolValue.Bytes b) | _ => Err Plan end
  | ScalarFixedSizeBinary _ (Some items) =>
      if (length items <=? 32)%nat then
        match ty with
        | DynSolType.FixedBytes len => if len =? Z.of_nat (length items) then fixed_bytes items else Err Plan
        | DynSolType.Address => if (length items =? 20)%nat then Ok (DynSolValue.Address items) else Err Plan
        | _ => Err Plan
        end
      else Err Plan
  | ScalarList items =>
      match ty with
      | DynSolType.Array ty => items ← value items 0; l ← items_to_sol ty items; Ok (DynSolValue.Array l)
      | _ => Err Plan
      end
  | ScalarFixedSizeList items =>
      match ty with
      | DynSolType.FixedArray ty sz =>
          items ← value items 0;
          if negb (sz =? Z.of_nat (arr_len items)) then Err Plan else l ← items_to_sol ty items; Ok (DynSolValue.FixedArray l)
      | _ => Err Plan
      end
  | ScalarStruct columns =>
      match ty with
      | DynSolType.Tuple tys =>
          if negb (length tys =? length columns)%nat then Err Plan
          else l ← columns_to_sol 0 tys columns; Ok (DynSolValue.Tuple l)
      | _ => Err Plan
      end
  | _ => Err Plan
  end.

(** ** Typed values *)

(** The types whose values Arrow can hold as they are appended: those with a
    function are refused, and a word of 32 bytes is only appended to a column of
    that width. *)
Fixpoint convertible (ty : DynSolType) : bool :=
  match ty with
  | DynSolType.Int bits | DynSolType.Uint bits => (1 <=? bits) && (bits <=? 256)
  | DynSolType.FixedBytes size => size =? 32
  | DynSolType.Array ty => convertible ty
  | DynSolType.FixedArray ty sz => (0 <=? sz) && (sz <=? i32_max) && convertible ty
  | DynSolType.Tuple tys => forallb convertible tys
  | DynSolType.Function => false
  | _ => true
  end.

Fixpoint has_type (ty : DynSolType) (v : DynSolValue) {struct ty} : bool :=
  match ty, v with
  | DynSolType.Bool, DynSolValue.Bool _ => true
  | DynSolType.Int bits, DynSolValue.Int s bits' => (bits =? bits') && (- 2 ^ (bits - 1) <=? s) && (s <? 2 ^ (bits - 1))
  | DynSolType.Uint bits, DynSolValue.Uint u bits' => (bits =? bits') && (0 <=? u) && (u <? 2 ^ bits)
  | DynSolType.FixedBytes size, DynSolValue.FixedBytes word size' => (size =? size') && (length word =? 32)%nat
  | DynSolType.Address, DynSolValue.Address a => (length a =? 20)%nat
  | DynSolType.Function, DynSolValue.Function _ => true
  | DynSolType.Bytes, DynSolValue.Bytes _ => true
  | DynSolType.String, DynSolValue.String _ => true
  | DynSolType.Array ty, DynSolValue.Array l => forallb (has_type ty) l
  | DynSolType.FixedArray ty sz, DynSolValue.FixedArray l => (sz =? Z.of_nat (length l)) && forallb (has_type ty) l
  | DynSolType.Tuple tys, DynSolValue.Tuple l =>
      (fix go (tys : list DynSolType) (l : list DynSolValue) : bool :=
         match tys, l with
         | [], [] => true
         | ty :: tys, v :: l => has_type ty v && go tys l
         | _, _ => false
         end) tys l
  | _, _ => false
  end.

(** A value as a cell of a table; numbers that no decimal holds are text. *)
Definition number_cell (v bits : Z) : Cell :=
  if bits <=? DEC_256_MAX_BINARY_PREC then IntCell (Some v) else TextCell (Some (text_of (display_i8 v))).

Fixpoint sol_cell (v : DynSolValue) : Cell :=
  match v with
  | DynSolValue.Bool b => BoolCell (Some b)
  | DynSolValue.Int s bits => number_cell s bits
  | DynSolValue.Uint u bits => number_cell u bits
  | DynSolValue.FixedBytes b _ | DynSolValue.Address b | DynSolValue.Function b | DynSolValue.Bytes b => BytesCell (Some b)
  | DynSolValue.String s => TextCell (Some s)
  | DynSolValue.Array l | DynSolValue.FixedArray l => ListCell (Some (sol_cell <$> l))
  | DynSolValue.Tuple l => StructCell (Some (sol_cell <$> l))
  end.

Definition null_cell (t : DataType) : Cell :=
  match t with
  | DataType.Boolean => BoolCell None
  | DataType.Binary | DataType.FixedSizeBinary _ => BytesCell None
  | DataType.Utf8 => TextCell None
  | DataType.List _ | DataType.FixedSizeList _ _ => ListCell None
  | DataType.Struct _ => StructCell None
  | _ => IntCell None
  end.

(** What a builder holds, and the builders of a type. *)
Definition held (b : ArrayBuilder) : list Cell := array_cells (to_array b).

Inductive builder_of : DataType → ArrayBuilder → Prop :=
  | of_boolean xs : builder_of DataType.Boolean (BooleanBuilder xs)
  | of_primitive t p xs : primitive_of t = Some p → builder_of t (PrimitiveBuilder p xs)
  | of_decimal128 xs : builder_of (DataType.Decimal128 DEC128_PREC 0) (Decimal128Builder 0 xs)
  | of_decimal256 xs : builder_of (DataType.Decimal256 DEC256_PREC 0) (Decimal256Builder 0 xs)
  | of_fixed n xs : builder_of (DataType.FixedSizeBinary n) (FixedSizeBinaryBuilder n xs)
  | of_binary xs : builder_of DataType.Binary (BinaryBuilder xs)
  | of_utf8 xs : builder_of DataType.Utf8 (StringBuilder xs)
  | of_list name item nullable closed :
      Forall (λ s, builder_of item s.2) closed →
      builder_of (DataType.List (mkField name item nullable)) (ListBuilder item (make_builder item) closed)
  | of_fixed_list name item nullable n closed :
      0 <= n → Forall (λ s, builder_of item s.2 /\ Z.of_nat (length (held s.2)) = n) closed →
      builder_of (DataType.FixedSizeList (mkField name item nullable) n) (FixedSizeListBuilder item n (make_builder item) closed)
  | of_struct fields bs valid :
      Forall2 (λ f b, builder_of (field_type f) b /\ length (held b) = length valid) fields bs →
      builder_of (DataType.Struct fields) (StructBuilder bs valid).

(** The types that columns are made of. *)
Inductive column_type : DataType → Prop :=
  | ct_boolean : column_type DataType.Boolean
  | ct_primitive t p : primitive_of t = Some p → column_type t
  | ct_decimal128 : column_type (DataType.Decimal128 DEC128_PREC 0)
  | ct_decimal256 : column_type (DataType.Decimal256 DEC256_PREC 0)
  | ct_fixed n : 0 <= n → column_type (DataType.FixedSizeBinary n)
  | ct_binary : column_type DataType.Binary
  | ct_utf8 : column_type DataType.Utf8
  | ct_list name item nullable : column_type item → column_type (DataType.List (mkField name item nullable))
  | ct_fixed_list name item nullable n : 0 <= n → column_type item → column_type (DataType.FixedSizeList (mkField name item nullable) n)
  | ct_struct fields : Forall (λ f, column_type (field_type f)) fields → column_type (DataType.Struct fields).

(** Induction on types, with the types of a tuple. *)
Lemma sol_type_induction (P : DynSolType → Prop) :
  P DynSolType.Bool → (∀ bits, P (DynSolType.Int bits)) → (∀ bits, P (DynSolType.Uint bits)) →
  (∀ size, P (DynSolType.FixedBytes size)) → P DynSolType.Address → P DynSolType.Function →
  P DynSolType.Bytes → P DynSolType.String → (∀ ty, P ty → P (DynSolType.Array ty)) →
  (∀ ty sz, P ty → P (DynSolType.FixedArray ty sz)) → (∀ tys, Forall P tys → P (DynSolType.Tuple tys)) → ∀ ty, P ty.
Proof.
  intros Hb Hi Hu Hf Ha Hfn Hby Hs Harr Hfa Ht. fix IH 1. intros ty. destruct ty as [ |bits|bits|size| | | | |ty|ty sz|tys].
  - exact Hb.
  - apply Hi.
  - apply Hu.
  - apply Hf.
  - exact Ha.
  - exact Hfn.
  - exact Hby.
  - exact Hs.
  - apply Harr, IH.
  - apply Hfa, IH.
  - apply Ht. induction tys as [|ty tys IHtys]; constructor; [apply IH|exact IHtys].
Qed.

Lemma column_type_induction (P : DataType → Prop) :
  (P DataType.Boolean) → (∀ t p, primitive_of t = Some p → P t) → P (DataType.Decimal128 DEC128_PREC 0) →
  P (DataType.Decimal256 DEC256_PREC 0) → (∀ n, 0 <= n → P (DataType.FixedSizeBinary n)) → P DataType.Binary → P DataType.Utf8 →
  (∀ name item nullable, column_type item → P item → P (DataType.List (mkField name item nullable))) →
  (∀ name item nullable n, 0 <= n → column_type item → P item → P (DataType.FixedSizeList (mkField name item nullable) n)) →
  (∀ fields, Forall (λ f, column_type (field_type f) /\ P (field_type f)) fields → P (DataType.Struct fields)) → ∀ t, column_type t → P t.
Proof.
  intros H1 H2 H3 H4 H5 H6 H7 H8 H9 H10. fix IH 2. intros t Ht. destruct Ht as [ |t p Hp| | |n Hn| | |name item nullable Hi|name item nullable n Hn Hi|fields Hfs].
  - exact H1.
  - exact (H2 t p Hp).
  - exact H3.
  - exact H4.
  - exact (H5 n Hn).
  - exact H6.
  - exact H7.
  - exact (H8 name item nullable Hi (IH item Hi)).
  - exact (H9 name item nullable n Hn Hi (IH item Hi)).
  - apply H10. induction Hfs as [|f fields Hf Hfs IHfs]; constructor; [split; [exact Hf|exact (IH _ Hf)]|exact IHfs].
Qed.

(** ** Nulls and values are appended *)

(** One more slot of the type. *)
Definition appends (t : DataType) (m : df ArrayBuilder) (b : ArrayBuilder) (c : Cell) : Prop :=
  ∃ b', m = Ok b' /\ builder_of t b' /\ held b' = held b ++ [c].

Lemma held_length t b : builder_of t b → length (held b) = arr_len (to_array b).
Proof. intros Hb. apply cells_length. by destruct Hb. Qed.

Lemma make_builder_ok t : column_type t → builder_of t (make_builder t) /\ held (make_builder t) = [].
Proof.
  induction 1 as [|t p Hp| | | | | |name item nullable _ _|name item nullable n Hn _ _|fields Hf] using column_type_induction.
  - split; [constructor|done].
  - assert (make_builder t = PrimitiveBuilder p []) as -> by (by destruct t; simplify_eq/=). split; [by constructor|done].
  - split; [constructor|done].
  - split; [constructor|done].
  - split; [constructor|done].
  - split; [constructor|done].
  - split; [constructor|done].
  - split; [by constructor|done].
  - split; [by constructor|done].
  - split; [|done]. cbn [make_builder]. constructor. induction Hf as [|[fname t nullable] fields [_ [Hb Hh]] _ IH]; [constructor|].
    constructor; [|exact IH]. cbn [field_type] in *. by rewrite Hh.
Qed.

Lemma null_held {V} (mk : option V → Cell) (xs : slots V) v : mk ∘ nullable <$> xs ++ [(false, v)] = (mk ∘ nullable <$> xs) ++ [mk None].
Proof. by rewrite fmap_app. Qed.

Lemma value_held {V} (mk : option V → Cell) (xs : slots V) v : mk ∘ nullable <$> append_value xs v = (mk ∘ nullable <$> xs) ++ [mk (Some v)].
Proof. unfold append_value. by rewrite fmap_app. Qed.

Lemma closed_held (closed : slots ArrayBuilder) valid b :
  array_cells (GenericListArray false ((λ s : bool * ArrayBuilder, (s.1, to_array s.2)) <$> closed ++ [(valid, b)])) =
  array_cells (GenericListArray false ((λ s : bool * ArrayBuilder, (s.1, to_array s.2)) <$> closed))
  ++ [ListCell (if valid : bool then Some (held b) else None)].
Proof. cbn. by rewrite !fmap_app. Qed.

Lemma list_appends name item nullable closed valid b :
  Forall (λ s : bool * ArrayBuilder, builder_of item s.2) closed → builder_of item b →
  appends (DataType.List (mkField name item nullable)) (Ok (ListBuilder item (make_builder item) (closed ++ [(valid, b)])))
    (ListBuilder item (make_builder item) closed) (ListCell (if valid : bool then Some (held b) else None)).
Proof.
  intros Hc Hb. eexists. split; [done|]. split; [|apply closed_held]. constructor. apply Forall_app. split; [done|by constructor].
Qed.

Lemma fixed_list_appends name item nullable n closed valid b :
  0 <= n → Forall (λ s : bool * ArrayBuilder, builder_of item s.2 /\ Z.of_nat (length (held s.2)) = n) closed →
  builder_of item b → Z.of_nat (length (held b)) = n →
  appends (DataType.FixedSizeList (mkField name item nullable) n) (Ok (FixedSizeListBuilder item n (make_builder item) (closed ++ [(valid, b)])))
    (FixedSizeListBuilder item n (make_builder item) closed) (ListCell (if valid : bool then Some (held b) else None)).
Proof.
  intros Hn Hc Hb Hl. eexists. split; [done|]. split; [|apply closed_held]. constructor; [done|]. apply Forall_app. split; [done|by constructor].
Qed.

(** A slot for each field, and one more row. *)
Definition fields_append (fields : list Field) (bs bs' : list ArrayBuilder) (row : list Cell) : Prop :=
  Forall2 (λ f b, builder_of (field_type f) b) fields bs' /\ Forall3 (λ b b' c, held b' = held b ++ [c]) bs bs' row.

Lemma struct_appends fields bs bs' row valid v :
  Forall2 (λ f b, builder_of (field_type f) b /\ length (held b) = length valid) fields bs → fields_append fields bs bs' row →
  appends (DataType.Struct fields) (Ok (StructBuilder bs' (valid ++ [v]))) (StructBuilder bs valid) (StructCell (if v : bool then Some row else None)).
Proof.
  intros Hbs [Hbs' Hrow]. eexists. split; [done|]. split.
  - constructor. rewrite length_app. cbn. revert fields bs bs' Hbs Hbs' Hrow. induction row as [|c row IH]; intros fields bs bs' Hbs Hbs' Hrow.
    + inversion Hrow; subst. by inversion Hbs'; subst.
    + inversion Hrow as [|b b' c' bs0 bs0' row' Hc Hr]; subst. inversion Hbs as [|f b0 fs bs1 [Hb Hl] Hbs1]; subst. inversion Hbs'; subst.
      constructor; [|by eapply IH]. split; [done|]. rewrite Hc, length_app, Hl. done.
  - apply struct_cells_snoc.
    + rewrite Forall_fmap. clear Hbs' Hrow. induction Hbs as [|f b fs bs [_ Hl] _ IH]; [constructor|by constructor].
    + clear Hbs Hbs'. induction Hrow as [|b b' c bs bs' row Hc _ IH]; [constructor|by constructor].
Qed.

Lemma iterate_held t f c n b :
  (∀ b, builder_of t b → appends t (f b) b c) → builder_of t b →
  ∃ b', iterate n f b = Ok b' /\ builder_of t b' /\ held b' = held b ++ replicate n c.
Proof.
  intros Hf. revert b. induction n as [|n IH]; intros b Hb; cbn [iterate]; [exists b; by rewrite app_nil_r|].
  destruct (Hf b Hb) as (b1 & -> & Hb1 & Hh1). destruct (IH b1 Hb1) as (b2 & Hr & Hb2 & Hh2).
  exists b2. split_and!; [exact Hr|done|]. rewrite Hh2, Hh1, <- app_assoc. done.
Qed.

Lemma null_appends t : column_type t → ∀ b, builder_of t b → appends t (append_null_value_to_builder t b) b (null_cell t).
Proof.
  induction 1 as [|t p Hp| | |n Hn| | |name item nullable Hi IH|name item nullable n Hn Hi IH|fields Hf] using column_type_induction; intros b Hb.
  - inversion Hb; subst; [|done]. eexists. split; [done|]. split; [constructor|apply null_held].
  - assert (∃ xs, b = PrimitiveBuilder p xs) as [xs ->] by (inversion Hb; subst; simplify_eq/=; by eexists).
    assert (append_null_value_to_builder t (PrimitiveBuilder p xs) = Ok (PrimitiveBuilder p (null_slot xs))) as ->.
    { destruct t; simplify_eq/=; done. }
    assert (null_cell t = IntCell None) as -> by (by destruct t; simplify_eq/=).
    eexists. split; [done|]. split; [by constructor|apply null_held].
  - inversion Hb; subst; [done|]. eexists. split; [done|]. split; [constructor|apply null_held].
  - inversion Hb; subst; [done|]. eexists. split; [done|]. split; [constructor|apply null_held].
  - inversion Hb; subst; [done|]. eexists. split; [done|]. split; [constructor|apply null_held].
  - inversion Hb; subst; [done|]. eexists. split; [done|]. split; [constructor|apply null_held].
  - inversion Hb; subst; [done|]. eexists. split; [done|]. split; [constructor|apply null_held].
  - inversion Hb; subst; [done|]. cbn [append_null_value_to_builder]. apply list_appends; [done|]. by apply make_builder_ok.
  - inversion Hb as [| | | | | | | |nm it nl m closed Hm Hc|]; subst; [done|]. cbn [append_null_value_to_builder].
    destruct (make_builder_ok item Hi) as [Hmk Hh]. destruct (iterate_held item _ _ (Z.to_nat n) _ IH Hmk) as (b' & -> & Hb' & Hh').
    cbn [mbind comp_bind]. apply fixed_list_appends; [done..|]. rewrite Hh', Hh, length_app, length_replicate. cbn. lia.
  - inversion Hb as [| | | | | | | | |fs bs valid Hbs]; subst; [done|]. cbn [append_null_value_to_builder].
    assert (∃ bs', (fix go (fields : list Field) (bs : list ArrayBuilder) : df (list ArrayBuilder) :=
                        match fields, bs with
                        | [], bs => Ok bs
                        | DataType.mkField _ ty _ :: fields, b :: bs =>
                            b ← append_null_value_to_builder ty b; bs ← go fields bs; Ok (b :: bs)
                        | _ :: _, [] => Panic
                        end) fields bs = Ok bs' /\ fields_append fields bs bs' ((λ f, null_cell (field_type f)) <$> fields)) as (bs' & -> & Hbs').
    { clear Hb. revert bs Hbs. induction Hf as [|[fname t nl] fields [_ IH] _ IHf]; intros bs Hbs; inversion Hbs as [|f b fs' bs' [Hb _] Hbs']; subst.
      - exists []. repeat constructor.
      - cbn [field_type] in IH, Hb. destruct (IH b Hb) as (b1 & -> & Hb1 & Hh1). destruct (IHf bs' Hbs') as (bs1 & Hr & Hall & Hcells). cbn [mbind comp_bind]. rewrite Hr.
        eexists. split; [done|]. split; constructor; done. }
    cbn [mbind comp_bind]. exact (struct_appends _ _ _ _ _ false Hbs Hbs').
Qed.

(** *** Numbers *)

Lemma pow2_le a b : a <= b → 2 ^ a <= 2 ^ b.
Proof. apply Z.pow_le_mono_r. lia. Qed.

(** The bits of an [i256] are those of the number, within its range. *)
Lemma i256_bits v : - 2 ^ 255 <= v < 2 ^ 255 → (let w := v `mod` 2 ^ 256 in if (w <? 2 ^ 255)%Z then w else w - 2 ^ 256) = v.
Proof.
  intros Hv. cbv zeta. change (2 ^ 256) with (2 * 2 ^ 255). set (m := 2 ^ 255) in *. assert (0 < m) by done.
  destruct (Z.lt_ge_cases v 0).
  - replace (v `mod` (2 * m)) with (v + 2 * m) by (apply (Z.mod_unique _ _ (-1)); lia). rewrite (proj2 (Z.ltb_ge (v + 2 * m) m)) by lia. lia.
  - rewrite Z.mod_small by lia. by rewrite (proj2 (Z.ltb_lt v m)) by lia.
Qed.

Lemma int_arrow_column t8 t16 t32 t64 p8 p16 p32 p64 bits :
  primitive_of t8 = Some p8 → primitive_of t16 = Some p16 → primitive_of t32 = Some p32 → primitive_of t64 = Some p64 → bits <= 256 →
  ∃ t, int_arrow_type t8 t16 t32 t64 bits = Ok t /\ column_type t.
Proof.
  intros H8 H16 H32 H64 Hb. unfold int_arrow_type, DEC_128_MAX_BINARY_PREC, DEC_256_MAX_BINARY_PREC.
  repeat (destruct (Z.eqb _ _); [eexists; split; [done|by econstructor]|]).
  repeat (match goal with |- context [bits <=? ?n] => destruct (Z.leb_spec bits n) end; [eexists; split; [done|by econstructor]|]). lia.
Qed.

Definition in_primitive (p : PrimitiveType) (v : Z) : Prop := (primitive_range p).1 <= v <= (primitive_range p).2.

Lemma primitive_appends t p b v :
  primitive_of t = Some p → builder_of t b → in_primitive p v → appends t (append_primitive p b v) b (IntCell (Some v)).
Proof.
  intros Hp Hb [H1 H2]. assert (∃ xs, b = PrimitiveBuilder p xs) as [xs ->] by (inversion Hb; subst; simplify_eq/=; by eexists).
  unfold append_primitive. rewrite bool_decide_true by done. rewrite (proj2 (Z.leb_le _ _) H1), (proj2 (Z.leb_le _ _) H2). cbn [andb].
  eexists. split; [done|]. split; [by constructor|apply value_held].
Qed.

Lemma number_appends t8 t16 t32 t64 p8 p16 p32 p64 t b v bits :
  primitive_of t8 = Some p8 → primitive_of t16 = Some p16 → primitive_of t32 = Some p32 → primitive_of t64 = Some p64 →
  int_arrow_type t8 t16 t32 t64 bits = Ok t → builder_of t b → 1 <= bits <= 256 → - 2 ^ bits < v < 2 ^ bits →
  (bits = 8 → in_primitive p8 v) → (bits = 16 → in_primitive p16 v) → (bits <= 32 → in_primitive p32 v) → (bits <= 64 → in_primitive p64 v) →
  appends t (primitive_number p8 p16 p32 p64 b v bits) b (number_cell v bits).
Proof.
  intros H8 H16 H32 H64 Ht Hb Hbits Hv R8 R16 R32 R64. unfold int_arrow_type in Ht. unfold primitive_number, number_cell, DEC_256_MAX_BINARY_PREC, DEC_128_MAX_BINARY_PREC in *.
  destruct (Z.eqb_spec bits 8) as [->|]; [injection Ht as <-; exact (primitive_appends _ _ _ _ H8 Hb (R8 eq_refl))|].
  destruct (Z.eqb_spec bits 16) as [->|]; [injection Ht as <-; exact (primitive_appends _ _ _ _ H16 Hb (R16 eq_refl))|].
  destruct (Z.leb_spec bits 32).
  { injection Ht as <-. rewrite (proj2 (Z.leb_le bits 251)) by lia. exact (primitive_appends _ _ _ _ H32 Hb (R32 ltac:(lia))). }
  destruct (Z.leb_spec bits 64).
  { injection Ht as <-. rewrite (proj2 (Z.leb_le bits 251)) by lia. exact (primitive_appends _ _ _ _ H64 Hb (R64 ltac:(lia))). }
  destruct (Z.leb_spec bits 125).
  { injection Ht as <-. rewrite (proj2 (Z.leb_le bits 251)) by lia. pose proof (pow2_le bits 125 ltac:(lia)) as Hp. inversion Hb; subst; [done|].
    unfold fits_precision, DEC128_PREC, i128_max, i128_min. change (2 ^ 125) with 42535295865117307932921825928971026432 in Hp.
    change (10 ^ 38) with 100000000000000000000000000000000000000. change (2 ^ 127 - 1) with 170141183460469231731687303715884105727.
    rewrite !(proj2 (Z.leb_le _ _)), !(proj2 (Z.ltb_lt _ _)) by lia. cbn [andb]. eexists. split; [done|]. split; [constructor|apply value_held]. }
  destruct (Z.leb_spec bits 251).
  { injection Ht as <-. pose proof (pow2_le bits 251 ltac:(lia)) as Hp. inversion Hb; subst; [done|].
    assert (2 ^ 251 < 10 ^ DEC256_PREC) as H251 by done. assert (2 ^ 251 <= 2 ^ 255) by done. rewrite i256_bits by lia.
    unfold fits_precision. rewrite !(proj2 (Z.ltb_lt _ _)) by lia. cbn [andb]. eexists. split; [done|]. split; [constructor|apply value_held]. }
  rewrite (proj2 (Z.leb_le bits 256)) in Ht |- * by lia. injection Ht as <-. inversion Hb; subst; [done|].
  eexists. split; [done|]. split; [constructor|apply value_held].
Qed.

(** *** Values of a type *)

(** The fields of a tuple, from a position. *)
Fixpoint arrow_fields (i : nat) (tys : list DynSolType) : df (list Field) :=
  match tys with
  | [] => Ok []
  | ty :: tys => t ← sol_to_arrow_type ty; fields ← arrow_fields (S i) tys; Ok (mkField ("c" +:+ pretty i) t true :: fields)
  end.

Lemma sol_to_arrow_tuple tys : sol_to_arrow_type (DynSolType.Tuple tys) = (fields ← arrow_fields 0 tys; Ok (DataType.Struct fields)).
Proof. reflexivity. Qed.

Fixpoint have_types (tys : list DynSolType) (l : list DynSolValue) : bool :=
  match tys, l with
  | [], [] => true
  | ty :: tys, v :: l => has_type ty v && have_types tys l
  | _, _ => false
  end.

Lemma has_type_tuple tys l : has_type (DynSolType.Tuple tys) (DynSolValue.Tuple l) = have_types tys l.
Proof. reflexivity. Qed.

Lemma as_i32_small z : 0 <= z <= i32_max → as_i32 z = z.
Proof. intros Hz. unfold as_i32, i32_max in *. rewrite Z.mod_small by lia. by rewrite (proj2 (Z.ltb_lt z 2147483648)) by lia. Qed.

Lemma convertible_column ty : convertible ty = true → ∃ t, sol_to_arrow_type ty = Ok t /\ column_type t.
Proof.
  induction ty as [ |bits|bits|size| | | | |ty IH|ty sz IH|tys IH] using sol_type_induction; intros Hc; try discriminate Hc.
  - by repeat econstructor.
  - cbn in Hc. apply (int_arrow_column _ _ _ _ Int8Type Int16Type Int32Type Int64Type); try done. lia.
  - cbn in Hc. apply (int_arrow_column _ _ _ _ UInt8Type UInt16Type UInt32Type UInt64Type); try done. lia.
  - cbn in Hc. apply Z.eqb_eq in Hc as ->. by repeat econstructor.
  - by repeat econstructor.
  - by repeat econstructor.
  - by repeat econstructor.
  - destruct (IH Hc) as (t & Ht & Hct). cbn. rewrite Ht. cbn. eexists. split; [done|]. by constructor.
  - cbn in Hc. apply andb_true_iff in Hc as [Hsz Hc]. destruct (IH Hc) as (t & Ht & Hct). cbn. rewrite Ht. cbn. eexists. split; [done|].
    rewrite as_i32_small by lia. constructor; [lia|done].
  - rewrite sol_to_arrow_tuple. cbn [convertible] in Hc.
    assert (∀ i, ∃ fields, arrow_fields i tys = Ok fields /\ Forall (λ f, column_type (field_type f)) fields) as Hall.
    { induction IH as [|ty tys Hty _ IHtys]; intros i; [by exists []|]. cbn [forallb] in Hc. apply andb_true_iff in Hc as [Hc1 Hc2].
      destruct (Hty Hc1) as (t & Ht & Hct). destruct (IHtys Hc2 (S i)) as (fields & Hf & Hfs). cbn [arrow_fields]. rewrite Ht. cbn [mbind comp_bind].
      rewrite Hf. eexists. split; [done|]. by constructor. }
    destruct (Hall 0%nat) as (fields & -> & Hf). cbn. eexists. split; [done|]. by constructor.
Qed.

(** The ranges of the primitive types. *)
Lemma int_ranges bits s :
  1 <= bits → - 2 ^ (bits - 1) <= s < 2 ^ (bits - 1) →
  - 2 ^ bits < s < 2 ^ bits /\ (bits = 8 → in_primitive Int8Type s) /\ (bits = 16 → in_primitive Int16Type s)
  /\ (bits <= 32 → in_primitive Int32Type s) /\ (bits <= 64 → in_primitive Int64Type s).
Proof.
  intros Hb Hs. replace (2 ^ bits) with (2 * 2 ^ (bits - 1)) by (rewrite <- Z.pow_succ_r by lia; f_equal; lia).
  assert (0 < 2 ^ (bits - 1)) by (apply Z.pow_pos_nonneg; lia). unfold in_primitive. cbn [primitive_range fst snd]. split_and!; [lia..| | | |].
  - intros ->. cbn in Hs. lia.
  - intros ->. cbn in Hs. lia.
  - intros H32. pose proof (pow2_le (bits - 1) 31 ltac:(lia)) as Hp. unfold i32_max. cbn in Hp. lia.
  - intros H64. pose proof (pow2_le (bits - 1) 63 ltac:(lia)) as Hp. unfold i64_min, i64_max. cbn in Hp. lia.
Qed.

Lemma uint_ranges bits u :
  1 <= bits → 0 <= u < 2 ^ bits →
  - 2 ^ bits < u < 2 ^ bits /\ (bits = 8 → in_primitive UInt8Type u) /\ (bits = 16 → in_primitive UInt16Type u)
  /\ (bits <= 32 → in_primitive UInt32Type u) /\ (bits <= 64 → in_primitive UInt64Type u).
Proof.
  intros Hb Hu. unfold in_primitive. cbn [primitive_range fst snd]. split_and!; [lia..| | | |].
  - intros ->. cbn in Hu. lia.
  - intros ->. cbn in Hu. lia.
  - intros H32. pose proof (pow2_le bits 32 ltac:(lia)) as Hp. cbn in Hp. lia.
  - intros H64. pose proof (pow2_le bits 64 ltac:(lia)) as Hp. unfold u64_max. cbn in Hp. lia.
Qed.

Lemma append_fields_cons {B V} (append : B → V → df B) v l b bs :
  append_fields append (v :: l) (b :: bs) = (b ← append b v; bs ← append_fields append l bs; Ok (b :: bs)).
Proof. reflexivity. Qed.

(** What it is to append the values of a type. *)
Definition appended (ty : DynSolType) : Prop := ∀ t v b,
  sol_to_arrow_type ty = Ok t → has_type ty v = true → builder_of t b → appends t (append_sol_value_to_builder b v) b (sol_cell v).

Lemma each_appended ty t l b :
  appended ty → sol_to_arrow_type ty = Ok t → forallb (has_type ty) l = true → builder_of t b →
  ∃ b', append_each append_sol_value_to_builder l b = Ok b' /\ builder_of t b' /\ held b' = held b ++ (sol_cell <$> l).
Proof.
  intros Hty Ht. revert b. induction l as [|v l IH]; intros b Hl Hb; cbn; [exists b; by rewrite app_nil_r|].
  cbn in Hl. apply andb_true_iff in Hl as [Hv Hl]. destruct (Hty t v b Ht Hv Hb) as (b1 & -> & Hb1 & Hh1).
  destruct (IH b1 Hl Hb1) as (b2 & Hr & Hb2 & Hh2). exists b2. split_and!; [exact Hr|done|]. rewrite Hh2, Hh1, <- app_assoc. done.
Qed.

Lemma fields_appended tys i fields l bs n :
  Forall appended tys → arrow_fields i tys = Ok fields → have_types tys l = true →
  Forall2 (λ f b, builder_of (field_type f) b /\ length (held b) = n) fields bs →
  ∃ bs', append_fields append_sol_value_to_builder l bs = Ok bs' /\ fields_append fields bs bs' (sol_cell <$> l).
Proof.
  intros Hty. revert i fields l bs. induction Hty as [|ty tys Hty _ IH]; intros i fields l bs Hf Hl Hbs; cbn [arrow_fields] in Hf.
  - injection Hf as <-. inversion Hbs; subst. destruct l; [|done]. exists []. split; [done|by split; constructor].
  - apply bind_Ok in Hf as (t & Ht & Hf). apply bind_Ok in Hf as (fs & Hfs & [= <-]). destruct l as [|v l]; [done|].
    cbn [have_types] in Hl. apply andb_true_iff in Hl as [Hv Hl]. inversion Hbs as [|f b fs0 bs0 [Hb _] Hbs0]; subst. cbn [field_type] in Hb.
    destruct (Hty t v b Ht Hv Hb) as (b1 & Hr & Hb1 & Hh1). destruct (IH (S i) fs l bs0 Hfs Hl Hbs0) as (bs1 & Hr1 & Hall & Hcells).
    exists (b1 :: bs1). split; [|split; by constructor]. rewrite append_fields_cons, Hr. cbn [mbind comp_bind]. by rewrite Hr1.
Qed.

(** A value of a type is appended to a builder of its Arrow type. *)
Lemma value_appends ty : convertible ty = true → appended ty.
Proof.
  induction ty as [ |bits|bits|size| | | | |ty IH|ty sz IH|tys IH] using sol_type_induction; intros Hc t v b Ht Hv Hb; try discriminate Hc;
    try (destruct v; discriminate Hv).
  - destruct v; try discriminate Hv. injection Ht as <-. inversion Hb; subst; [|done]. eexists. split; [done|]. split; [constructor|apply value_held].
  - destruct v as [ |s bits'| | | | | | | | | ]; try discriminate Hv. cbn [has_type] in Hv. cbn [convertible] in Hc.
    assert (bits' = bits) as -> by lia. cbn [append_sol_value_to_builder sol_cell]. rewrite (proj2 (Z.leb_le bits 256)) by lia.
    destruct (int_ranges bits s) as (R & R8 & R16 & R32 & R64); [lia..|]. unfold primitive_int. eapply number_appends; try exact Ht; try done. lia.
  - destruct v as [ | |u bits'| | | | | | | | ]; try discriminate Hv. cbn [has_type] in Hv. cbn [convertible] in Hc.
    assert (bits' = bits) as -> by lia. cbn [append_sol_value_to_builder sol_cell]. rewrite (proj2 (Z.leb_le bits 256)) by lia.
    destruct (uint_ranges bits u) as (R & R8 & R16 & R32 & R64); [lia..|]. unfold primitive_uint. eapply number_appends; try exact Ht; try done. lia.
  - destruct v as [ | | |word size'| | | | | | | ]; try discriminate Hv. cbn [has_type] in Hv. cbn [convertible] in Hc. apply Z.eqb_eq in Hc as ->.
    injection Ht as <-. apply andb_true_iff in Hv as [_ Hv%Nat.eqb_eq].
    inversion Hb; subst; [done|]. cbn. rewrite Hv.
    eexists. split; [done|]. split; [constructor|apply value_held].
  - destruct v as [ | | | |a| | | | | | ]; try discriminate Hv. cbn [has_type] in Hv. injection Ht as <-. apply Nat.eqb_eq in Hv. inversion Hb; subst; [done|]. cbn.
    rewrite Hv. eexists. split; [done|]. split; [constructor|apply value_held].
  - destruct v; try discriminate Hv. injection Ht as <-. inversion Hb; subst; [done|]. eexists. split; [done|]. split; [constructor|apply value_held].
  - destruct v; try discriminate Hv. injection Ht as <-. inversion Hb; subst; [done|]. eexists. split; [done|]. split; [constructor|apply value_held].
  - destruct v as [ | | | | | | | |l| | ]; try discriminate Hv. cbn in Ht. apply bind_Ok in Ht as (item & Hi & [= <-]). inversion Hb; subst; [done|].
    destruct (convertible_column ty Hc) as (item' & Hi' & Hct). assert (item' = item) as -> by congruence. destruct (make_builder_ok item Hct) as [Hmk Hh].
    destruct (each_appended ty item l _ (IH Hc) Hi Hv Hmk) as (b' & Hr & Hb' & Hh'). cbn [append_sol_value_to_builder sol_cell]. rewrite Hr.
    cbn [mbind comp_bind]. rewrite Hh in Hh'. cbn [app] in Hh'. rewrite <- Hh'. by apply (list_appends _ _ _ _ true).
  - destruct v as [ | | | | | | | | |l| ]; try discriminate Hv. cbn in Ht. apply bind_Ok in Ht as (item & Hi & [= <-]).
    cbn [convertible] in Hc. apply andb_true_iff in Hc as [Hsz Hc]. rewrite as_i32_small in Hb |- * by lia. inversion Hb as [| | | | | | | |nm it nl m closed Hm Hcl|]; subst; [done|].
    destruct (convertible_column ty Hc) as (item' & Hi' & Hct). assert (item' = item) as -> by congruence. destruct (make_builder_ok item Hct) as [Hmk Hh].
    cbn [has_type] in Hv. apply andb_true_iff in Hv as [Hlen Hv].
    destruct (each_appended ty item l _ (IH Hc) Hi Hv Hmk) as (b' & Hr & Hb' & Hh'). cbn [append_sol_value_to_builder sol_cell]. rewrite Hr.
    cbn [mbind comp_bind]. rewrite Hh in Hh'. cbn [app] in Hh'. rewrite <- Hh'. apply (fixed_list_appends _ _ _ _ _ true); try done.
    rewrite Hh', length_fmap. lia.
  - destruct v as [ | | | | | | | | | |l]; try discriminate Hv. rewrite sol_to_arrow_tuple in Ht. apply bind_Ok in Ht as (fields & Hf & [= <-]).
    rewrite has_type_tuple in Hv. inversion Hb as [| | | | | | | | |fs bs valid Hbs]; subst; [done|]. cbn [convertible] in Hc.
    assert (Forall appended tys) as Hall.
    { rewrite forallb_forall in Hc. rewrite list.Forall_forall in IH |- *. intros ty Hty. apply (IH ty Hty), Hc. by apply list_elem_of_In. }
    destruct (fields_appended tys 0 fields l bs _ Hall Hf Hv Hbs) as (bs' & Hr & Hbs'). cbn [append_sol_value_to_builder sol_cell]. rewrite Hr.
    exact (struct_appends _ _ _ _ _ true Hbs Hbs').
Qed.

(** ** Values are read back *)

(** The types whose values come back as they went: a number of more than 251
    bits is text in Arrow, which is only taken for a string. *)
Fixpoint returns (ty : DynSolType) : bool :=
  match ty with
  | DynSolType.Int bits | DynSolType.Uint bits => (1 <=? bits) && (bits <=? DEC_256_MAX_BINARY_PREC)
  | DynSolType.FixedBytes size => size =? 32
  | DynSolType.Array ty => returns ty
  | DynSolType.FixedArray ty sz => (0 <=? sz) && (sz <=? i32_max) && returns ty
  | DynSolType.Tuple tys => forallb returns tys
  | DynSolType.Function => false
  | _ => true
  end.

Lemma slot_lookup {V} (mk : option V → Cell) (xs : slots V) i v :
  (∀ a b, mk a = mk b → a = b) → (mk ∘ nullable <$> xs) !! i = Some (mk (Some v)) → value xs i = Ok v.
Proof.
  intros Hmk. rewrite list_lookup_fmap. unfold value. destruct (xs !! i) as [[[] w]|]; cbn; try done; intros [= H%Hmk]; by simplify_eq/=.
Qed.

Lemma closed_lookup (closed : slots ArrayBuilder) i cells :
  ((λ s : bool * Array, ListCell (let '(valid, a) := s in if valid then Some (array_cells a) else None))
     <$> ((λ s : bool * ArrayBuilder, (s.1, to_array s.2)) <$> closed)) !! i = Some (ListCell (Some cells)) →
  ∃ b, (true, b) ∈ closed /\ held b = cells
       /\ value ((λ s : bool * ArrayBuilder, (s.1, to_array s.2)) <$> closed) i = Ok (to_array b).
Proof.
  rewrite !list_lookup_fmap. unfold value. rewrite list_lookup_fmap. destruct (closed !! i) as [[[] b]|] eqn:E; cbn; try done.
  intros [= H]. exists b. split_and!; [by eapply list_elem_of_lookup_2|done|done].
Qed.

Lemma mapM_seq {A} (f : nat → df A) l :
  (∀ i v, l !! i = Some v → f i = Ok v) → mapM f (seq 0 (length l)) = Ok l.
Proof.
  intros Hf. assert (∀ n, (∀ i v, l !! i = Some v → f (n + i)%nat = Ok v) → mapM f (seq n (length l)) = Ok l) as H; [|by apply H].
  clear Hf. induction l as [|v l IH]; intros n Hf; [done|]. cbn [length seq]. rewrite mapM_cons.
  rewrite <- (Nat.add_0_r n) at 1. rewrite (Hf 0%nat v eq_refl). cbn [mbind comp_bind]. rewrite (IH (S n)); [done|].
  intros i w Hi. rewrite Nat.add_succ_comm. by apply Hf.
Qed.

Lemma int_back bits s : 1 <= bits <= 256 → - 2 ^ (bits - 1) <= s < 2 ^ (bits - 1) → int_to_sol_value s (DynSolType.Int bits) = Ok (DynSolValue.Int s bits).
Proof.
  intros Hb Hs. unfold int_to_sol_value. destruct (Z.eqb_spec bits 256); [done|].
  rewrite (proj2 (Z.leb_gt bits 0)), (proj2 (Z.ltb_ge 256 bits)) by lia. cbn [orb].
  by rewrite (proj2 (Z.ltb_ge s (- 2 ^ (bits - 1)))), (proj2 (Z.ltb_ge (2 ^ (bits - 1) - 1) s)) by lia.
Qed.

Lemma uint_back bits u : 1 <= bits <= 256 → 0 <= u < 2 ^ bits → uint_to_sol_value u (DynSolType.Uint bits) = Ok (DynSolValue.Uint u bits).
Proof.
  intros Hb Hu. unfold uint_to_sol_value. destruct (Z.eqb_spec bits 256); [done|].
  by rewrite (proj2 (Z.ltb_ge 256 bits)), (proj2 (Z.leb_gt (2 ^ bits) u)) by lia.
Qed.

(** A number in a column of its width. *)
Lemma number_back (sg : bool) t8 t16 t32 t64 p8 p16 p32 p64 ty t b i v bits w :
  primitive_of t8 = Some p8 → primitive_of t16 = Some p16 → primitive_of t32 = Some p32 → primitive_of t64 = Some p64 →
  signed p8 = Some sg → signed p16 = Some sg → signed p32 = Some sg → signed p64 = Some sg →
  int_arrow_type t8 t16 t32 t64 bits = Ok t → builder_of t b → bits <= DEC_256_MAX_BINARY_PREC →
  held b !! i = Some (IntCell (Some v)) →
  (∀ p, signed p = Some sg → primitive_to_sol p v ty = Ok w) → decimal128_to_sol v ty = Ok w → decimal256_to_sol v ty = Ok w →
  array_to_sol_value ty (to_array b) i = Ok w.
Proof.
  intros H8 H16 H32 H64 S8 S16 S32 S64 Ht Hb Hbits Hi Hp Hd1 Hd2. unfold int_arrow_type in Ht.
  assert (∀ t p, primitive_of t = Some p → signed p = Some sg → builder_of t b → array_to_sol_value ty (to_array b) i = Ok w) as Hprim.
  { intros t' p Hp' Hs Hb'. assert (∃ xs, b = PrimitiveBuilder p xs) as [xs ->] by (inversion Hb'; subst; simplify_eq/=; by eexists).
    unfold held in Hi. cbn [to_array array_cells] in Hi. apply slot_lookup in Hi; [|by intros ?? [= ->]].
    destruct ty; cbn [to_array array_to_sol_value]; rewrite Hs, Hi; cbn [mbind comp_bind]; by apply Hp. }
  destruct (Z.eqb bits 8); [injection Ht as <-; exact (Hprim _ _ H8 S8 Hb)|].
  destruct (Z.eqb bits 16); [injection Ht as <-; exact (Hprim _ _ H16 S16 Hb)|].
  destruct (Z.leb bits 32); [injection Ht as <-; exact (Hprim _ _ H32 S32 Hb)|].
  destruct (Z.leb bits 64); [injection Ht as <-; exact (Hprim _ _ H64 S64 Hb)|].
  destruct (Z.leb bits DEC_128_MAX_BINARY_PREC).
  { injection Ht as <-. inversion Hb; subst; [done|]. unfold held in Hi. cbn [to_array array_cells] in Hi. apply slot_lookup in Hi; [|by intros ?? [= ->]].
    destruct ty; cbn [to_array array_to_sol_value]; change (0 <=? 0) with true; cbv iota; rewrite Hi; exact Hd1. }
  rewrite (proj2 (Z.leb_le bits DEC_256_MAX_BINARY_PREC)) in Ht by done. injection Ht as <-. inversion Hb; subst; [done|].
  unfold held in Hi. cbn [to_array array_cells] in Hi. apply slot_lookup in Hi; [|by intros ?? [= ->]].
  destruct ty; cbn [to_array array_to_sol_value]; change (0 <=? 0) with true; cbv iota; rewrite Hi; exact Hd2.
Qed.

Definition read_back (ty : DynSolType) : Prop := ∀ t v b i,
  sol_to_arrow_type ty = Ok t → has_type ty v = true → builder_of t b → held b !! i = Some (sol_cell v) →
  array_to_sol_value ty (to_array b) i = Ok v.

(** The fields of a structure at a row. *)
Lemma columns_back i tys j fields l bs n :
  Forall read_back tys → arrow_fields j tys = Ok fields → have_types tys l = true → (i < n)%nat →
  Forall2 (λ f b, builder_of (field_type f) b /\ length (held b) = n) fields bs →
  omap (λ cs : list Cell, cs !! i) (array_cells <$> (to_array <$> bs)) = sol_cell <$> l →
  columns_to_sol i tys (to_array <$> bs) = Ok l /\ length tys = length (to_array <$> bs).
Proof.
  intros Hty. revert j fields l bs. induction Hty as [|ty tys Hty _ IH]; intros j fields l bs Hf Hl Hi Hbs Hrow; cbn [arrow_fields] in Hf.
  - injection Hf as <-. inversion Hbs; subst. by destruct l.
  - apply bind_Ok in Hf as (t & Ht & Hf). apply bind_Ok in Hf as (fs & Hfs & [= <-]). destruct l as [|v l]; [done|].
    cbn [have_types] in Hl. apply andb_true_iff in Hl as [Hv Hl]. inversion Hbs as [|f b fs0 bs0 [Hb Hlen] Hbs0]; subst. cbn [field_type] in Hb.
    destruct (lookup_lt_is_Some_2 (held b) i ltac:(lia)) as [c Hc]. cbn [fmap list_fmap omap list_omap] in Hrow. unfold held in Hc. rewrite Hc in Hrow.
    injection Hrow as -> Hrow. destruct (IH (S j) fs l bs0 Hfs Hl Hi Hbs0 Hrow) as [Hr Hn]. cbn [columns_to_sol fmap list_fmap length].
    rewrite (Hty t v b i Ht Hv Hb Hc). cbn [mbind comp_bind]. change (list_fmap _ _ to_array bs0) with (to_array <$> bs0). rewrite Hr. split; [done|].
    by rewrite Hn.
Qed.

Lemma returns_back ty : returns ty = true → read_back ty.
Proof.
  induction ty as [ |bits|bits|size| | | | |ty IH|ty sz IH|tys IH] using sol_type_induction; intros Hc t v b i Ht Hv Hb Hi; try discriminate Hc;
    try (destruct v; discriminate Hv).
  - destruct v; try discriminate Hv. injection Ht as <-. inversion Hb; subst; [|done]. unfold held in Hi. cbn in Hi |- *.
    apply slot_lookup in Hi; [|by intros ?? [= ->]]. by rewrite Hi.
  - destruct v as [ |s bits'| | | | | | | | | ]; try discriminate Hv. cbn [has_type] in Hv. cbn [returns] in Hc. unfold DEC_256_MAX_BINARY_PREC in Hc.
    assert (bits' = bits) as -> by lia. cbn [sol_cell] in Hi. unfold number_cell, DEC_256_MAX_BINARY_PREC in Hi. rewrite (proj2 (Z.leb_le bits 251)) in Hi by lia.
    pose proof (int_back bits s ltac:(lia) ltac:(lia)) as Hback.
    eapply (number_back true); try exact Ht; try done; [unfold DEC_256_MAX_BINARY_PREC; lia|]. intros p Hp. unfold primitive_to_sol. by rewrite Hp.
  - destruct v as [ | |u bits'| | | | | | | | ]; try discriminate Hv. cbn [has_type] in Hv. cbn [returns] in Hc. unfold DEC_256_MAX_BINARY_PREC in Hc.
    assert (bits' = bits) as -> by lia. cbn [sol_cell] in Hi. unfold number_cell, DEC_256_MAX_BINARY_PREC in Hi. rewrite (proj2 (Z.leb_le bits 251)) in Hi by lia.
    pose proof (uint_back bits u ltac:(lia) ltac:(lia)) as Hback. pose proof (pow2_le bits 251 ltac:(lia)) as Hp251. assert (2 ^ 251 < 2 ^ 256) by done.
    eapply (number_back false); try exact Ht; try done; [unfold DEC_256_MAX_BINARY_PREC; lia|..].
    + intros p Hp. unfold primitive_to_sol. by rewrite Hp.
    + unfold decimal128_to_sol. by rewrite (proj2 (Z.ltb_ge u 0)) by lia.
    + unfold decimal256_to_sol. by rewrite Z.mod_small by lia.
  - destruct v as [ | | |word size'| | | | | | | ]; try discriminate Hv. cbn [has_type] in Hv. cbn [returns] in Hc. apply Z.eqb_eq in Hc as ->.
    apply andb_true_iff in Hv as [<-%Z.eqb_eq Hv%Nat.eqb_eq]. injection Ht as <-. inversion Hb; subst; [done|]. unfold held in Hi. cbn in Hi |- *.
    apply slot_lookup in Hi; [|by intros ?? [= ->]]. rewrite Hi. cbn [mbind comp_bind]. unfold fixed_bytes. rewrite Hv. cbn. by rewrite app_nil_r.
  - destruct v as [ | | | |a| | | | | | ]; try discriminate Hv. cbn [has_type] in Hv. injection Ht as <-. apply Nat.eqb_eq in Hv. inversion Hb; subst; [done|].
    unfold held in Hi. cbn in Hi |- *. apply slot_lookup in Hi; [|by intros ?? [= ->]]. rewrite Hi. cbn [mbind comp_bind]. by rewrite Hv.
  - destruct v; try discriminate Hv. injection Ht as <-. inversion Hb; subst; [done|]. unfold held in Hi. cbn in Hi |- *.
    apply slot_lookup in Hi; [|by intros ?? [= ->]]. by rewrite Hi.
  - destruct v; try discriminate Hv. injection Ht as <-. inversion Hb; subst; [done|]. unfold held in Hi. cbn in Hi |- *.
    apply slot_lookup in Hi; [|by intros ?? [= ->]]. by rewrite Hi.
  - destruct v as [ | | | | | | | |l| | ]; try discriminate Hv. cbn in Ht. apply bind_Ok in Ht as (item & Hit & [= <-]). inversion Hb as [| | | | | | |nm it nl closed Hcl| |]; subst; [done|].
    unfold held in Hi. cbn [to_array array_cells sol_cell] in Hi. apply closed_lookup in Hi as (b' & Hin & Hh & Hval).
    cbn [to_array array_to_sol_value]. rewrite Hval. cbn [mbind comp_bind]. rewrite list.Forall_forall in Hcl. pose proof (Hcl _ Hin) as Hb'. cbn [snd] in Hb'.
    rewrite <- (held_length _ _ Hb'), Hh, length_fmap. rewrite (mapM_seq _ l); [done|]. intros j v Hj. apply (IH Hc item v b' j Hit).
    + cbn [has_type] in Hv. rewrite forallb_forall in Hv. apply Hv, list_elem_of_In. by eapply list_elem_of_lookup_2.
    + done.
    + by rewrite Hh, list_lookup_fmap, Hj.
  - destruct v as [ | | | | | | | | |l| ]; try discriminate Hv. cbn in Ht. apply bind_Ok in Ht as (item & Hit & [= <-]).
    cbn [returns] in Hc. apply andb_true_iff in Hc as [Hsz Hc]. rewrite as_i32_small in Hb by lia. inversion Hb as [| | | | | | | |nm it nl m closed Hm Hcl|]; subst; [done|].
    unfold held in Hi. cbn [to_array array_cells sol_cell] in Hi. apply closed_lookup in Hi as (b' & Hin & Hh & Hval).
    cbn [to_array array_to_sol_value]. rewrite Hval. cbn [mbind comp_bind]. rewrite list.Forall_forall in Hcl. pose proof (Hcl _ Hin) as [Hb' Hn]. cbn [snd] in Hb', Hn.
    rewrite <- (held_length _ _ Hb'), Hh, length_fmap. rewrite Hh, length_fmap in Hn. rewrite Hn, Z.eqb_refl. cbn [negb].
    cbn [has_type] in Hv. apply andb_true_iff in Hv as [_ Hv]. rewrite (mapM_seq _ l); [done|]. intros j v Hj. apply (IH Hc item v b' j Hit).
    + rewrite forallb_forall in Hv. apply Hv, list_elem_of_In. by eapply list_elem_of_lookup_2.
    + done.
    + by rewrite Hh, list_lookup_fmap, Hj.
  - destruct v as [ | | | | | | | | | |l]; try discriminate Hv. rewrite sol_to_arrow_tuple in Ht. apply bind_Ok in Ht as (fields & Hf & [= <-]).
    rewrite has_type_tuple in Hv. inversion Hb as [| | | | | | | | |fs bs valid Hbs]; subst; [done|]. cbn [returns] in Hc.
    assert (Forall read_back tys) as Hall.
    { rewrite forallb_forall in Hc. rewrite list.Forall_forall in IH |- *. intros ty Hty. apply (IH ty Hty), Hc. by apply list_elem_of_In. }
    unfold held in Hi. cbn [to_array array_cells sol_cell] in Hi. unfold struct_cells in Hi. rewrite list_lookup_imap in Hi.
    destruct (valid !! i) as [[]|] eqn:Ev; try discriminate Hi. cbn in Hi. injection Hi as Hrow. apply lookup_lt_Some in Ev.
    destruct (columns_back i tys 0 fields l bs _ Hall Hf Hv Ev Hbs Hrow) as [Hr Hn]. cbn [to_array array_to_sol_value]. rewrite Hn, Nat.eqb_refl. cbn [negb].
    change ((l ← columns_to_sol i tys (to_array <$> bs); Ok (DynSolValue.Tuple l)) = Ok (DynSolValue.Tuple l)). by rewrite Hr.
Qed.

(** What is asserted of a builder when it finishes. *)
Lemma builder_complete t : column_type t → ∀ b, builder_of t b → lists_complete b = true.
Proof.
  induction 1 as [|t p Hp| | |n Hn| | |name item nullable Hi IH|name item nullable n Hn Hi IH|fields Hf] using column_type_induction; intros b Hb;
    try (inversion Hb; subst; done).
  - inversion Hb as [| | | | | | |nm it nl closed Hcl| |]; subst; [done|]. cbn [lists_complete]. apply forallb_forall. intros s Hs%list_elem_of_In.
    rewrite list.Forall_forall in Hcl. by apply IH, Hcl.
  - inversion Hb as [| | | | | | | |nm it nl m closed Hm Hcl|]; subst; [done|]. cbn [lists_complete]. apply forallb_forall. intros s Hs%list_elem_of_In.
    rewrite list.Forall_forall in Hcl. destruct (Hcl s Hs) as [Hs1 Hs2]. rewrite <- (held_length _ _ Hs1), Hs2, Z.eqb_refl. by apply IH.
  - inversion Hb as [| | | | | | | | |fs bs valid Hbs]; subst; [done|]. cbn [lists_complete]. clear Hb.
    induction Hbs as [|f b fields bs [Hb Hl] _ IHbs]; [done|]. apply list.Forall_cons in Hf as [[_ IH] Hf]. cbn [forallb].
    rewrite <- (held_length _ _ Hb), Hl, Nat.eqb_refl. cbn [andb]. rewrite (IH b Hb). by apply IHbs.
Qed.

Lemma finish_ok {E} t b : column_type t → builder_of t b → finish (E := E) b = Ok (to_array b).
Proof. intros Ht Hb. unfold finish. by rewrite (builder_complete t Ht b Hb). Qed.
