(* ===== verification/EvmFunctions.v ===== *)
(** * EvmFunctions

    The functions on Ethereum data in queries (core/common/src/evm/udfs.rs and
    udfs/): [evm_decode_log], [evm_topic], [evm_decode_type], [evm_encode_type],
    [evm_decode_params] and [evm_encode_params].

    The ABI of alloy is a record of its functions: parsing of types and
    signatures, decoding and encoding. An array is given as its slots; a
    function gets its arguments as DataFusion hands them over, with the
    conversion of scalars to arrays as a parameter. *)

From stdpp Require Import base numbers gmap strings option list pretty.
From Stdlib Require Import ZArith Lia.
From S2P Require Import Prelude Decimal PgTypes PgCopy EvmTables EvmValues.

#[local] Open Scope Z_scope.

(** ** The ABI *)

Record Param := mkParam { p_name : string; p_type : option DynSolType; p_indexed : bool }.

Record AlloyEvent := mkAlloyEvent { ae_name : string; ae_anonymous : bool; ae_selector : bytes; ae_inputs : list Param }.

Record AlloyFunction := mkAlloyFunction { af_name : string; af_selector : bytes; af_inputs : list Param }.

Record Abi := mkAbi {
  parse_type : bytes → option DynSolType;
  parse_event : bytes → option AlloyEvent;
  parse_function : bytes → option AlloyFunction;
  detokenize : DynSolType → bytes → option DynSolValue;
  abi_decode : DynSolType → bytes → option DynSolValue;
  abi_decode_sequence : DynSolType → bytes → option DynSolValue;
  abi_encode : DynSolValue → bytes;
  abi_decode_input : AlloyFunction → bytes → option (list DynSolValue);
  abi_encode_input : AlloyFunction → list DynSolValue → option bytes
}.

Inductive ColumnarValue := ColumnarArray (a : Array) | ColumnarScalar (s : ScalarValue).

Section Functions.
Context (abi : Abi).

(** [ScalarValue::Utf8(Some(s))] *)
Definition signature_text (s : ScalarValue) : df bytes :=
  match s with ScalarUtf8 Small (Some s) => Ok s | _ => Err Plan end.

(** ** Fields *)

(** [FieldBuilder]: one of the builders of a structure. *)
Definition update_field (bs : list ArrayBuilder) (field : nat) (f : ArrayBuilder → df ArrayBuilder) : df (list ArrayBuilder) :=
  match bs !! field with Some b => b ← f b; Ok (<[field := b]> bs) | None => Panic end.

Definition append_null_value (bs : list ArrayBuilder) (ty : DynSolType) (field : nat) : df (list ArrayBuilder) :=
  t ← sol_to_arrow_type ty; update_field bs field (append_null_value_to_builder t).

Definition append_value (bs : list ArrayBuilder) (field : nat) (v : DynSolValue) : df (list ArrayBuilder) :=
  update_field bs field (λ b, append_sol_value_to_builder b v).

(** ** Events *)

Record Event := mkEvent {
  name : string; topic0 : option bytes; topic_names : list string; topic_types : list DynSolType;
  body_names : list string; body_tuple : DynSolType
}.

Record Inputs := mkInputs { t_names : list string; t_types : list DynSolType; b_names : list string; b_types : list DynSolType }.

Fixpoint split_inputs (params : list Param) (acc : Inputs) : df Inputs :=
  match params with
  | [] => Ok acc
  | param :: params =>
      ty ← unwrap (p_type param);
      split_inputs params
        (if p_indexed param then mkInputs (t_names acc ++ [p_name param]) (t_types acc ++ [ty]) (b_names acc) (b_types acc)
         else mkInputs (t_names acc) (t_types acc) (b_names acc ++ [p_name param]) (b_types acc ++ [ty]))
  end.

Definition event_new (e : AlloyEvent) : df Event :=
  let topic0 := if ae_anonymous e then None else Some (ae_selector e) in
  inputs ← split_inputs (ae_inputs e) (mkInputs [] [] [] []);
  if (3 <? length (t_names inputs))%nat then Err Plan
  else Ok (mkEvent (ae_name e) topic0 (t_names inputs) (t_types inputs) (b_names inputs) (DynSolType.Tuple (b_types inputs))).

(** The types of the named fields, for topics and for the body. *)
Definition named_fields (to_arrow : DynSolType → df DataType) : list (string * DynSolType) → df (list Field) :=
  mapM (λ nt, t ← to_arrow nt.2; Ok (mkField nt.1 t true)).

Definition event_fields (e : Event) : df (list Field) :=
  topics ← named_fields sol_to_arrow_type_for_indexed (zip (topic_names e) (topic_types e));
  match body_tuple e with
  | DynSolType.Tuple tys => body ← named_fields sol_to_arrow_type (zip (body_names e) tys); Ok (topics ++ body)
  | _ => Err Internal
  end.

Definition event_topic0 (e : Event) : df bytes := ok_or (topic0 e) Plan.

(** Types that a topic holds as they are. *)
Definition in_word (ty : DynSolType) : bool :=
  match ty with
  | DynSolType.Address | DynSolType.Function | DynSolType.Bool | DynSolType.FixedBytes _ | DynSolType.Int _ | DynSolType.Uint _ => true
  | _ => false
  end.

Definition decode_topic (e : Event) (number : nat) (topic : option bytes) (bs : list ArrayBuilder) : df (list ArrayBuilder) :=
  if (length (topic_names e) <? number)%nat then Ok bs
  else
    ty ← unwrap (topic_types e !! (number - 1)%nat);
    match topic with
    | Some word =>
        _ ← assert (length word =? 32)%nat;
        v ← (if in_word ty then ok_or (detokenize abi ty word) Plan else Ok (DynSolValue.FixedBytes word 32));
        append_value bs (number - 1) v
    | None => append_null_value bs ty (number - 1)
    end.

(** The fields from a position, with values or with nulls. *)
Fixpoint append_values (field : nat) (l : list (DynSolValue * DynSolType)) (bs : list ArrayBuilder) : df (list ArrayBuilder) :=
  match l with
  | [] => Ok bs
  | (v, _) :: l => bs ← append_value bs field v; append_values (S field) l bs
  end.

Fixpoint append_nulls (field : nat) (tys : list DynSolType) (bs : list ArrayBuilder) : df (list ArrayBuilder) :=
  match tys with
  | [] => Ok bs
  | ty :: tys => bs ← append_null_value bs ty field; append_nulls (S field) tys bs
  end.

(** The values of the body, or an error that leaves nulls. *)
Definition body_values (e : Event) (data : option bytes) : df (list DynSolValue) :=
  data ← ok_or data Execution;
  decoded ← ok_or (abi_decode_sequence abi (body_tuple e) data) Execution;
  match decoded with DynSolValue.Tuple values => Ok values | _ => Panic end.

Definition decode_body (e : Event) (data : option bytes) (bs : list ArrayBuilder) : df (list ArrayBuilder) :=
  match body_tuple e with
  | DynSolType.Tuple tys =>
      match tys with
      | [] => Ok bs
      | _ =>
          match body_values e data with
          | Ok values => append_values (length (topic_types e)) (zip values tys) bs
          | Err _ => append_nulls (length (topic_types e)) tys bs
          | Panic => Panic
          | OutOfFuel => OutOfFuel
          end
      end
  | _ => Err Internal
  end.

Record LogRow := mkLogRow { row_topic1 : option bytes; row_topic2 : option bytes; row_topic3 : option bytes; row_data : option bytes }.

(** [izip!] *)
Fixpoint izip4 (t1 t2 t3 d : list (option bytes)) : list LogRow :=
  match t1, t2, t3, d with
  | a :: t1, b :: t2, c :: t3, x :: d => mkLogRow a b c x :: izip4 t1 t2 t3 d
  | _, _, _, _ => []
  end.

Definition decode_row (e : Event) (row : LogRow) (bs : list ArrayBuilder) : df (list ArrayBuilder) :=
  bs ← decode_topic e 1 (row_topic1 row) bs;
  bs ← decode_topic e 2 (row_topic2 row) bs;
  bs ← decode_topic e 3 (row_topic3 row) bs;
  decode_body e (row_data row) bs.

(** Rows appended to the builder of a structure. *)
Fixpoint append_rows {R} (f : R → list ArrayBuilder → df (list ArrayBuilder * bool)) (rows : list R) (bs : list ArrayBuilder) (valid : list bool)
    : df ArrayBuilder :=
  match rows with
  | [] => Ok (StructBuilder bs valid)
  | row :: rows => r ← f row bs; append_rows f rows r.1 (valid ++ [r.2])
  end.

Definition from_fields (fields : list Field) : list ArrayBuilder := (λ f, make_builder (field_type f)) <$> fields.

(** [decode] *)
Definition decode (topic1 topic2 topic3 data : list (option bytes)) (signature : ScalarValue) : df Array :=
  s ← signature_text signature;
  alloy_event ← ok_or (parse_event abi s) Plan;
  event ← event_new alloy_event;
  fields ← event_fields event;
  match fields with
  | [] => Ok (OtherArray (length topic1))
  | _ =>
      b ← append_rows (λ row bs, bs ← decode_row event row bs; Ok (bs, true)) (izip4 topic1 topic2 topic3 data) (from_fields fields) [];
      finish b
  end.

Definition slots_of {V} (xs : slots V) : list (option V) := nullable <$> xs.

Definition fixed_size_binary (a : Array) : df (list (option bytes)) :=
  match a with FixedSizeBinaryArray _ xs => Ok (slots_of xs) | _ => Panic end.

Definition binary_array (a : Array) : option (list (option bytes)) :=
  match a with GenericBinaryArray false xs => Some (slots_of xs) | _ => None end.

Definition scalar_argument (v : ColumnarValue) : df ScalarValue :=
  match v with ColumnarScalar s => Ok s | ColumnarArray _ => Err Plan end.

(** [EvmDecodeLog::invoke_with_args] *)
Definition decode_log_invoke (values_to_arrays : list ColumnarValue → df (list Array)) (args : list ColumnarValue) : df ColumnarValue :=
  match args with
  | [a1; a2; a3; a4; a5] =>
      signature ← scalar_argument a5;
      arrays ← values_to_arrays [a1; a2; a3; a4];
      match arrays with
      | [c1; c2; c3; c4] =>
          topic1 ← fixed_size_binary c1;
          topic2 ← fixed_size_binary c2;
          topic3 ← fixed_size_binary c3;
          data ← unwrap (binary_array c4);
          ary ← decode topic1 topic2 topic3 data signature;
          Ok (ColumnarArray ary)
      | _ => Panic
      end
  | _ => Err Internal
  end.

(** The event of an argument. *)
Definition event_of (signature : ScalarValue) : df Event :=
  s ← signature_text signature; alloy_event ← ok_or (parse_event abi s) Plan; event_new alloy_event.

(** [EvmDecodeLog::return_field_from_args] *)
Definition decode_log_field (fname : string) (args : list (option ScalarValue)) : df Field :=
  match args with
  | [_; _; _; _; signature] =>
      signature ← ok_or signature Plan;
      event ← event_of signature;
      fields ← event_fields event;
      match fields with
      | [] => Ok (mkField fname (DataType.Other "Null") true)
      | _ => Ok (mkField fname (DataType.Struct fields) false)
      end
  | _ => Err Internal
  end.

(** [EvmTopic::invoke_with_args] *)
Definition topic_invoke (args : list ColumnarValue) : df ColumnarValue :=
  arg ← unwrap (head args);
  signature ← scalar_argument arg;
  event ← event_of signature;
  topic0 ← event_topic0 event;
  Ok (ColumnarScalar (ScalarFixedSizeBinary 32 (Some topic0))).

(** ** Types *)

(** [EvmDecodeType::decode] *)
Fixpoint decode_values (ty : DynSolType) (t : DataType) (data : list (option bytes)) (b : ArrayBuilder) : df ArrayBuilder :=
  match data with
  | [] => Ok b
  | d :: data =>
      b ← match d with
          | Some d => match abi_decode abi ty d with
                      | Some v => append_sol_value_to_builder b v
                      | None => append_null_value_to_builder t b
                      end
          | None => append_null_value_to_builder t b
          end;
      decode_values ty t data b
  end.

Definition decode_type (data : list (option bytes)) (ty : DynSolType) : df Array :=
  t ← sol_to_arrow_type ty;
  b ← decode_values ty t data (make_builder t);
  finish b.

Definition type_argument (v : ColumnarValue) : df DynSolType :=
  s ← scalar_argument v; s ← signature_text s; ok_or (parse_type abi s) Plan.

Definition binary_argument (v : ColumnarValue) : df (list (option bytes)) :=
  match v with
  | ColumnarArray a => ok_or (binary_array a) Plan
  | ColumnarScalar (ScalarBinary Small (Some data)) => Ok [Some data]
  | ColumnarScalar _ => Err Plan
  end.

(** [EvmDecodeType::invoke_with_args] and [return_field_from_args] *)
Definition decode_type_invoke (args : list ColumnarValue) : df ColumnarValue :=
  match args with
  | [value; ty] =>
      ty ← type_argument ty;
      data ← binary_argument value;
      ary ← decode_type data ty;
      Ok (ColumnarArray ary)
  | _ => Err Plan
  end.

Definition decode_type_field (fname : string) (args : list (option ScalarValue)) : df Field :=
  match args with
  | [_; ty] =>
      ty ← ok_or ty Plan;
      s ← signature_text ty;
      ty ← ok_or (parse_type abi s) Plan;
      t ← sol_to_arrow_type ty;
      Ok (mkField fname t false)
  | _ => Err Plan
  end.

Fixpoint num_rows (args : list ColumnarValue) : nat :=
  match args with
  | [] => 1
  | ColumnarArray a :: _ => arr_len a
  | ColumnarScalar _ :: args => num_rows args
  end.

Definition argument_value (i : nat) (arg : ColumnarValue) (ty : DynSolType) : df DynSolValue :=
  match arg with
  | ColumnarScalar s => scalar_to_sol_value s ty
  | ColumnarArray a => array_to_sol_value ty a i
  end.

Definition binary_column (l : list bytes) : ColumnarValue := ColumnarArray (GenericBinaryArray false ((λ b, (true, b)) <$> l)).

(** [EvmEncodeType::invoke_with_args] *)
Definition encode_type_invoke (args : list ColumnarValue) : df ColumnarValue :=
  match args with
  | [value; ty] =>
      sol_ty ← type_argument ty;
      rows ← mapM (λ i, v ← argument_value i value sol_ty; Ok (abi_encode abi v)) (seq 0 (num_rows args));
      Ok (binary_column rows)
  | _ => Err Plan
  end.

(** ** Calls *)

Record FunctionCall := mkFunctionCall { alloy_function : AlloyFunction; input_names : list string; input_types : list DynSolType }.

Fixpoint call_inputs (params : list Param) : df (list (string * DynSolType)) :=
  match params with
  | [] => Ok []
  | param :: params =>
      ty ← unwrap (p_type param);
      if bool_decide (p_name param = ""%string) then Err Plan
      else inputs ← call_inputs params; Ok ((p_name param, ty) :: inputs)
  end.

Definition function_call_new (f : AlloyFunction) : df FunctionCall :=
  inputs ← call_inputs (af_inputs f); Ok (mkFunctionCall f inputs.*1 inputs.*2).

Definition call_of (signature : ScalarValue) : df FunctionCall :=
  s ← signature_text signature; f ← ok_or (parse_function abi s) Plan; function_call_new f.

Definition params_fields (call : FunctionCall) : df (list Field) :=
  named_fields sol_to_arrow_type (zip (input_names call) (input_types call)).

(** The values of a call, or [None] for a row of nulls. *)
Definition decoded_params (call : FunctionCall) (data : option bytes) : option (list DynSolValue) :=
  match data with
  | None => None
  | Some data =>
      if (length data <? 4)%nat then None
      else if negb (bool_decide (take 4 data = af_selector (alloy_function call))) then None
      else abi_decode_input abi (alloy_function call) (drop 4 data)
  end.

Definition decode_params_row (call : FunctionCall) (data : option bytes) (bs : list ArrayBuilder) : df (list ArrayBuilder * bool) :=
  match decoded_params call data with
  | Some values => bs ← append_values 0 (zip values (input_types call)) bs; Ok (bs, true)
  | None => bs ← append_nulls 0 (input_types call) bs; Ok (bs, false)
  end.

(** [EvmDecodeParams::decode] *)
Definition decode_params (data : list (option bytes)) (call : FunctionCall) : df Array :=
  fields ← params_fields call;
  b ← append_rows (decode_params_row call) data (from_fields fields) [];
  finish b.

Definition decode_params_invoke (args : list ColumnarValue) : df ColumnarValue :=
  match args with
  | [value; signature] =>
      signature ← scalar_argument signature;
      call ← call_of signature;
      data ← binary_argument value;
      ary ← decode_params data call;
      Ok (ColumnarArray ary)
  | _ => Err Plan
  end.

Definition decode_params_field (fname : string) (args : list (option ScalarValue)) : df Field :=
  match args with
  | [_; signature] =>
      signature ← ok_or signature Plan;
      call ← call_of signature;
      fields ← params_fields call;
      Ok (mkField fname (DataType.Struct fields) true)
  | _ => Err Plan
  end.

(** [EvmEncodeParams::invoke_with_args]: the signature is the last argument. *)
Definition encode_params_invoke (args : list ColumnarValue) : df ColumnarValue :=
  match rev args with
  | [] => Err Plan
  | signature :: rest =>
      signature ← scalar_argument signature;
      call ← call_of signature;
      let args := rev rest in
      if negb (length args =? length (input_types call))%nat then Err Plan
      else
        rows ← mapM (λ i, values ← mapM (λ at_, argument_value i at_.1 at_.2) (zip args (input_types call));
                          ok_or (abi_encode_input abi (alloy_function call) values) Plan)
                    (seq 0 (num_rows args));
        Ok (binary_column rows)
  end.
End Functions.

(** ** Rows of fields *)

(** Operations on consecutive fields. *)
Fixpoint run (field : nat) (ops : list (ArrayBuilder → df ArrayBuilder)) (bs : list ArrayBuilder) : df (list ArrayBuilder) :=
  match ops with
  | [] => Ok bs
  | f :: ops => bs ← update_field bs field f; run (S field) ops bs
  end.

Lemma run_app field ops ops' bs : run field (ops ++ ops') bs = (bs ← run field ops bs; run (field + length ops) ops' bs).
Proof.
  revert field bs. induction ops as [|f ops IH]; intros field bs; cbn [app run length]; [by rewrite Nat.add_0_r|].
  destruct (update_field bs field f) as [bs'| | |]; [|done..]. cbn [mbind comp_bind]. by rewrite IH, Nat.add_succ_r.
Qed.

(** Each operation appends a cell to its field. *)
Inductive ops_append : list Field → list (ArrayBuilder → df ArrayBuilder) → list Cell → Prop :=
  | ops_nil : ops_append [] [] []
  | ops_cons f fields op ops c row :
      (∀ b, builder_of (field_type f) b → appends (field_type f) (op b) b c) → ops_append fields ops row →
      ops_append (f :: fields) (op :: ops) (c :: row).

Lemma ops_append_app fields ops row fields' ops' row' :
  ops_append fields ops row → ops_append fields' ops' row' → ops_append (fields ++ fields') (ops ++ ops') (row ++ row').
Proof. induction 1; [done|]. intros H'. constructor; auto. Qed.

Lemma update_at pre b post f b' : f b = Ok b' → update_field (pre ++ b :: post) (length pre) f = Ok (pre ++ b' :: post).
Proof.
  intros Hf. unfold update_field. rewrite lookup_app_r, Nat.sub_diag by lia. cbn [lookup list_lookup]. rewrite Hf. cbn [mbind comp_bind].
  f_equal. rewrite insert_app_r_alt, Nat.sub_diag by lia. done.
Qed.

Lemma run_appends fields ops row bs n pre :
  ops_append fields ops row → Forall2 (λ f b, builder_of (field_type f) b /\ length (held b) = n) fields bs →
  ∃ bs', run (length pre) ops (pre ++ bs) = Ok (pre ++ bs') /\ fields_append fields bs bs' row.
Proof.
  intros Hops. revert bs pre. induction Hops as [|f fields op ops c row Hop _ IH]; intros bs pre Hbs.
  - inversion Hbs; subst. exists []. split; [done|split; constructor].
  - inversion Hbs as [|? b ? bs0 [Hb _] Hbs0]; subst. destruct (Hop b Hb) as (b' & Hb' & Hbo & Hh).
    destruct (IH bs0 (pre ++ [b']) Hbs0) as (bs' & Hr & Hall & Hcells). exists (b' :: bs'). split; [|split; by constructor].
    cbn [run]. rewrite (update_at _ _ _ _ _ Hb'). cbn [mbind comp_bind]. rewrite length_app in Hr. cbn [length] in Hr. rewrite Nat.add_1_r in Hr.
    by rewrite <- app_assoc in Hr; rewrite <- app_assoc in Hr.
Qed.

(** The rows of a structure, one by one. *)
Lemma rows_appended {R} (f : R → list ArrayBuilder → df (list ArrayBuilder * bool)) (cell_of : R → bool * list Cell) fields rows bs valid :
  (∀ row bs n, row ∈ rows → Forall2 (λ fd b, builder_of (field_type fd) b /\ length (held b) = n) fields bs →
     ∃ bs', f row bs = Ok (bs', (cell_of row).1) /\ fields_append fields bs bs' (cell_of row).2) →
  builder_of (DataType.Struct fields) (StructBuilder bs valid) →
  ∃ b, append_rows f rows bs valid = Ok b /\ builder_of (DataType.Struct fields) b
       /\ held b = held (StructBuilder bs valid) ++ ((λ r, StructCell (if (cell_of r).1 then Some (cell_of r).2 else None)) <$> rows).
Proof.
  revert bs valid. induction rows as [|row rows IH]; intros bs valid Hf Hb; cbn [append_rows]; [exists (StructBuilder bs valid); by rewrite app_nil_r|].
  inversion Hb as [| | | | | | | | |fs bs0 valid0 Hbs]; subst.
  destruct (Hf row bs (length valid) ltac:(by left) Hbs) as (bs' & -> & Happ). cbn [mbind comp_bind fst snd].
  destruct (struct_appends _ _ _ _ _ (cell_of row).1 Hbs Happ) as (b' & [= <-] & Hb' & Hh').
  destruct (IH bs' (valid ++ [(cell_of row).1])) as (b & -> & Hbo & Hh); [intros r b n Hr; apply Hf; by right|done|].
  exists b. split_and!; [done..|]. rewrite Hh, Hh', <- app_assoc. done.
Qed.

Lemma from_fields_ok fields :
  Forall (λ f, column_type (field_type f)) fields →
  builder_of (DataType.Struct fields) (StructBuilder (from_fields fields) []) /\ held (StructBuilder (from_fields fields) []) = [].
Proof.
  intros Hf. split; [|done]. constructor. induction Hf as [|f fields Hf _ IH]; [constructor|]. constructor; [|done].
  destruct (make_builder_ok _ Hf) as [Hb Hh]. split; [done|]. by rewrite Hh.
Qed.

(** The fields of the types. *)
Lemma named_fields_types to_arrow names tys fields :
  named_fields to_arrow (zip names tys) = Ok fields → length names = length tys → Forall2 (λ ty f, to_arrow ty = Ok (field_type f)) tys fields.
Proof.
  unfold named_fields. intros H%mapM_Ok_Forall2 Hlen. revert tys fields Hlen H. induction names as [|n names IH]; intros [|ty tys] fields Hlen H; try done.
  - by inversion H.
  - cbn in H. inversion H as [|? f ? fields' Hf Hfs]; subst. apply bind_Ok in Hf as (t & Ht & [= <-]). constructor; [done|]. apply IH; [by injection Hlen|done].
Qed.

Lemma convertible_type ty t : convertible ty = true → sol_to_arrow_type ty = Ok t → column_type t.
Proof. intros Hc Ht. destruct (convertible_column ty Hc) as (t' & Ht' & Hct). congruence. Qed.

(** Values of the types, or nulls, for the fields of the types. *)
Lemma values_ops tys fields l :
  forallb convertible tys = true → Forall2 (λ ty f, sol_to_arrow_type ty = Ok (field_type f)) tys fields → have_types tys l = true →
  ops_append fields ((λ (p : DynSolValue * DynSolType) b, append_sol_value_to_builder b p.1) <$> zip l tys) (sol_cell <$> l).
Proof.
  intros Hc Hf. revert l. induction Hf as [|ty f tys fields Ht _ IH]; intros [|v l] Hl; try discriminate Hl; [constructor|].
  cbn in Hc, Hl. apply andb_true_iff in Hc as [Hc Hcs]. apply andb_true_iff in Hl as [Hv Hl]. cbn. constructor; [|by apply IH].
  intros b Hb. by apply (value_appends ty Hc).
Qed.

Definition null_op (ty : DynSolType) (b : ArrayBuilder) : df ArrayBuilder :=
  t ← sol_to_arrow_type ty; append_null_value_to_builder t b.

Lemma nulls_ops tys fields :
  forallb convertible tys = true → Forall2 (λ ty f, sol_to_arrow_type ty = Ok (field_type f)) tys fields →
  ops_append fields (null_op <$> tys) ((λ f, null_cell (field_type f)) <$> fields).
Proof.
  intros Hc Hf. induction Hf as [|ty f tys fields Ht _ IH]; [constructor|]. cbn in Hc. apply andb_true_iff in Hc as [Hc Hcs]. constructor; [|by apply IH].
  intros b Hb. unfold null_op. rewrite Ht. cbn [mbind comp_bind]. apply null_appends; [by eapply convertible_type|done].
Qed.

Lemma append_values_run field l bs :
  append_values field l bs = run field ((λ (p : DynSolValue * DynSolType) b, append_sol_value_to_builder b p.1) <$> l) bs.
Proof.
  revert field bs. induction l as [|[v ty] l IH]; intros field bs; [done|]. cbn. unfold append_value.
  destruct (update_field _ _ _); [|done..]. cbn. apply IH.
Qed.

Lemma append_nulls_run field tys bs :
  forallb convertible tys = true → append_nulls field tys bs = run field (null_op <$> tys) bs.
Proof.
  revert field bs. induction tys as [|ty tys IH]; intros field bs Hc; [done|]. cbn in Hc. apply andb_true_iff in Hc as [Hc Hcs]. cbn.
  unfold append_null_value. destruct (convertible_column ty Hc) as (t & Ht & _). rewrite Ht. cbn [mbind comp_bind].
  assert (∀ b, null_op ty b = append_null_value_to_builder t b) as Hop by (intros b; unfold null_op; by rewrite Ht).
  assert (update_field bs field (null_op ty) = update_field bs field (append_null_value_to_builder t)) as ->.
  { unfold update_field. destruct (bs !! field); [|done]. by rewrite Hop. }
  destruct (update_field _ _ _); [|done..]. cbn. by apply IH.
Qed.

(** ** Decoded logs *)

Lemma split_inputs_lengths params acc inputs :
  split_inputs params acc = Ok inputs → length (t_names acc) = length (t_types acc) → length (b_names acc) = length (b_types acc) →
  length (t_names inputs) = length (t_types inputs) /\ length (b_names inputs) = length (b_types inputs).
Proof.
  revert acc. induction params as [|param params IH]; intros acc; cbn [split_inputs]; [by intros [= <-]|].
  rewrite bind_Ok. intros (ty & _ & Hs) Ht Hb. eapply IH; [exact Hs|..]; destruct (p_indexed param); cbn; rewrite ?length_app; cbn; lia.
Qed.

Lemma event_new_shape ae e :
  event_new ae = Ok e →
  length (topic_names e) = length (topic_types e) /\ (length (topic_types e) <= 3)%nat
  /\ ∃ tys, body_tuple e = DynSolType.Tuple tys /\ length (body_names e) = length tys.
Proof.
  unfold event_new. rewrite bind_Ok. intros (inputs & Hs & He). destruct (Nat.ltb_spec 3 (length (t_names inputs))); [done|]. injection He as <-.
  apply split_inputs_lengths in Hs as [Ht Hb]; [|done..]. cbn. split_and!; [done|lia|]. by eexists.
Qed.

Section Logs.
Context (abi : Abi).

(** A topic that the event takes: 32 bytes, with a value of the type where it
    holds one; a null only for a type that fits a word. *)
Definition topic_fits (ty : DynSolType) (topic : option bytes) : Prop :=
  match topic with
  | Some word => length word = 32%nat /\ (in_word ty = true → ∃ v, detokenize abi ty word = Some v /\ has_type ty v = true)
  | None => in_word ty = true
  end.

Definition topic_cell (f : Field) (ty : DynSolType) (topic : option bytes) : Cell :=
  match topic with
  | Some word => if in_word ty then default (null_cell (field_type f)) (sol_cell <$> detokenize abi ty word) else BytesCell (Some word)
  | None => null_cell (field_type f)
  end.

(** A body that the event takes: values of its types, or what does not decode. *)
Definition body_fits (tys : list DynSolType) (data : option bytes) : Prop :=
  ∀ d v, data = Some d → abi_decode_sequence abi (DynSolType.Tuple tys) d = Some v → ∃ l, v = DynSolValue.Tuple l /\ have_types tys l = true.

Definition body_cells (fields : list Field) (tys : list DynSolType) (data : option bytes) : list Cell :=
  match data ≫= abi_decode_sequence abi (DynSolType.Tuple tys) with
  | Some (DynSolValue.Tuple l) => sol_cell <$> l
  | _ => (λ f, null_cell (field_type f)) <$> fields
  end.

Definition topic_op (ty : DynSolType) (topic : option bytes) (b : ArrayBuilder) : df ArrayBuilder :=
  match topic with
  | Some word =>
      _ ← assert (length word =? 32)%nat;
      v ← (if in_word ty then ok_or (detokenize abi ty word) Plan else Ok (DynSolValue.FixedBytes word 32));
      append_sol_value_to_builder b v
  | None => null_op ty b
  end.

Lemma topic_op_appends f ty topic b :
  (in_word ty = true → convertible ty = true) → sol_to_arrow_type_for_indexed ty = Ok (field_type f) → topic_fits ty topic →
  builder_of (field_type f) b → appends (field_type f) (topic_op ty topic b) b (topic_cell f ty topic).
Proof.
  intros Hc Ht Hfits Hb. unfold topic_op, topic_cell. destruct topic as [word|]; cbn [topic_fits] in Hfits.
  - destruct Hfits as [Hlen Hv]. rewrite Hlen. cbn [Nat.eqb assert mbind comp_bind]. destruct (in_word ty) eqn:Ew.
    + destruct (Hv eq_refl) as (v & -> & Hty). cbn [ok_or mbind comp_bind default fmap option_fmap option_map].
      apply (value_appends ty (Hc eq_refl)); [|done..]. by destruct ty.
    + cbn [mbind comp_bind]. apply (value_appends (DynSolType.FixedBytes 32) eq_refl); [by destruct ty| |done].
      cbn [has_type]. by rewrite Hlen.
  - assert (sol_to_arrow_type ty = Ok (field_type f)) as Ht' by (by destruct ty).
    unfold null_op. rewrite Ht'. cbn [mbind comp_bind]. apply null_appends; [|done]. by eapply convertible_type; [apply Hc|].
Qed.

Lemma decode_topic_update e number ty topic bs :
  topic_types e !! (number - 1)%nat = Some ty → (number <= length (topic_names e))%nat →
  (∀ word, topic = Some word → length word = 32%nat) → (topic = None → convertible ty = true) →
  (∀ word, topic = Some word → in_word ty = true → ∃ v, detokenize abi ty word = Some v) → is_Some (bs !! (number - 1)%nat) →
  decode_topic abi e number topic bs = update_field bs (number - 1) (topic_op ty topic).
Proof.
  intros Hty Hn Hlen Hnull Hdet [b Hb]. unfold decode_topic. rewrite (proj2 (Nat.ltb_ge _ _)) by lia. rewrite Hty. cbn [unwrap mbind comp_bind].
  unfold append_value, append_null_value, update_field. rewrite Hb. destruct topic as [word|]; cbn [topic_op].
  - rewrite (Hlen word eq_refl). cbn [Nat.eqb assert mbind comp_bind]. destruct (in_word ty) eqn:Ew; [|done].
    by destruct (Hdet word eq_refl eq_refl) as [v ->].
  - unfold null_op. destruct (convertible_column ty (Hnull eq_refl)) as (t & -> & _). done.
Qed.

(** The operations on the topics of a row. *)
Definition row_topics (row : LogRow) : list (option bytes) := [row_topic1 row; row_topic2 row; row_topic3 row].
Definition topic_ops (tys : list DynSolType) (topics : list (option bytes)) : list (ArrayBuilder → df ArrayBuilder) :=
  (λ p : DynSolType * option bytes, topic_op p.1 p.2) <$> zip tys topics.

Record event_ok (e : Event) (tys : list DynSolType) : Prop := {
  ok_names : length (topic_names e) = length (topic_types e);
  ok_topics : (length (topic_types e) <= 3)%nat;
  ok_words : Forall (λ ty, in_word ty = true → convertible ty = true) (topic_types e);
  ok_tuple : body_tuple e = DynSolType.Tuple tys;
  ok_body : forallb convertible tys = true
}.

Lemma topics_appended tfields tys topics :
  Forall (λ ty, in_word ty = true → convertible ty = true) tys →
  Forall2 (λ ty f, sol_to_arrow_type_for_indexed ty = Ok (field_type f)) tys tfields → (length tys <= length topics)%nat →
  Forall (λ p : DynSolType * option bytes, topic_fits p.1 p.2) (zip tys topics) →
  ops_append tfields (topic_ops tys topics) ((λ p : Field * (DynSolType * option bytes), topic_cell p.1 p.2.1 p.2.2) <$> zip tfields (zip tys topics)).
Proof.
  intros Hc Hf. revert topics. induction Hf as [|ty f tys fields Ht _ IH]; intros topics Hlen Hfits; [constructor|].
  destruct topics as [|topic topics]; [cbn in Hlen; lia|]. cbn in Hfits |- *. apply list.Forall_cons in Hc as [Hc Hcs]. apply list.Forall_cons in Hfits as [Hfit Hfits].
  constructor; [intros b Hb; by apply topic_op_appends|]. apply IH; [done|cbn in Hlen; lia|done].
Qed.

Lemma decode_topic_skipped e number topic bs : (length (topic_names e) < number)%nat → decode_topic abi e number topic bs = Ok bs.
Proof. intros H. unfold decode_topic. by rewrite (proj2 (Nat.ltb_lt _ _) H). Qed.

(** One decoded topic, by its position. *)
Lemma decode_topic_at e tys number ty topic bs :
  event_ok e tys → topic_types e !! number = Some ty → topic_fits ty topic → (number < length bs)%nat →
  decode_topic abi e (S number) topic bs = update_field bs number (topic_op ty topic).
Proof.
  intros He Hty Hfit Hn. pose proof (lookup_lt_Some _ _ _ Hty) as Hlt.
  pose proof (ok_words _ _ He) as Hw. rewrite list.Forall_forall in Hw. specialize (Hw ty ltac:(by eapply list_elem_of_lookup_2)).
  rewrite (decode_topic_update e (S number) ty); cbn [Nat.sub]; rewrite ?Nat.sub_0_r; try done.
  - rewrite (ok_names _ _ He). lia.
  - intros word ->. apply Hfit.
  - intros ->. by apply Hw.
  - intros word -> Ew. destruct Hfit as [_ Hv]. destruct (Hv Ew) as (v & Hv' & _). by exists v.
  - by apply lookup_lt_is_Some_2.
Qed.

Lemma update_field_length bs i f bs' : update_field bs i f = Ok bs' → length bs' = length bs.
Proof.
  unfold update_field. destruct (bs !! i); [|done]. rewrite bind_Ok. intros (b & _ & [= <-]). apply length_insert.
Qed.

Lemma decode_topics_run e tys row bs :
  event_ok e tys → (length (topic_types e) <= length bs)%nat →
  Forall (λ p : DynSolType * option bytes, topic_fits p.1 p.2) (zip (topic_types e) (row_topics row)) →
  (bs ← decode_topic abi e 1 (row_topic1 row) bs;
   bs ← decode_topic abi e 2 (row_topic2 row) bs;
   decode_topic abi e 3 (row_topic3 row) bs) = run 0 (topic_ops (topic_types e) (row_topics row)) bs.
Proof.
  intros He Hbs Hfits. pose proof (ok_names _ _ He) as Hn. pose proof (ok_topics _ _ He) as H3.
  pose proof (λ n ty, decode_topic_at e tys n ty) as Hat. unfold row_topics in *.
  destruct (topic_types e) as [|ty1 [|ty2 [|ty3 [|? ?]]]] eqn:Ett; cbn [zip zip_with] in Hfits; cbn [topic_ops zip zip_with fmap list_fmap run length] in *;
    decompose_Forall_hyps; try lia.
  - by repeat (rewrite decode_topic_skipped by lia; cbn [mbind comp_bind]).
  - rewrite (Hat 0%nat ty1) by (done || lia). destruct (update_field bs 0 _) as [bs1| | |] eqn:E1; [|done..]. cbn [mbind comp_bind].
    by repeat (rewrite decode_topic_skipped by lia; cbn [mbind comp_bind]).
  - rewrite (Hat 0%nat ty1) by (done || lia). destruct (update_field bs 0 _) as [bs1| | |] eqn:E1; [|done..]. cbn [mbind comp_bind].
    apply update_field_length in E1. rewrite (Hat 1%nat ty2) by (done || lia). destruct (update_field bs1 1 _) as [bs2| | |]; [|done..]. cbn [mbind comp_bind].
    by repeat (rewrite decode_topic_skipped by lia; cbn [mbind comp_bind]).
  - rewrite (Hat 0%nat ty1) by (done || lia). destruct (update_field bs 0 _) as [bs1| | |] eqn:E1; [|done..]. cbn [mbind comp_bind].
    apply update_field_length in E1. rewrite (Hat 1%nat ty2) by (done || lia). destruct (update_field bs1 1 _) as [bs2| | |] eqn:E2; [|done..]. cbn [mbind comp_bind].
    apply update_field_length in E2. rewrite (Hat 2%nat ty3) by (done || lia). by destruct (update_field bs2 2 _).
Qed.

(** The operations on the body of a row. *)
Definition body_ops (tys : list DynSolType) (data : option bytes) : list (ArrayBuilder → df ArrayBuilder) :=
  match data ≫= abi_decode_sequence abi (DynSolType.Tuple tys) with
  | Some (DynSolValue.Tuple l) => (λ (p : DynSolValue * DynSolType) b, append_sol_value_to_builder b p.1) <$> zip l tys
  | _ => null_op <$> tys
  end.

Lemma decode_body_run e tys data bs :
  event_ok e tys → body_fits tys data → decode_body abi e data bs = run (length (topic_types e)) (body_ops tys data) bs.
Proof.
  intros He Hfits. unfold decode_body, body_values, body_ops. rewrite (ok_tuple _ _ He). destruct tys as [|ty tys].
  { destruct (data ≫= _) as [[]|]; try done. by destruct l. }
  destruct data as [d|]; cbn [ok_or mbind comp_bind option_bind]; [|apply append_nulls_run, (ok_body _ _ He)].
  destruct (abi_decode_sequence abi _ d) as [v|] eqn:Ev; cbn [ok_or mbind comp_bind]; [|apply append_nulls_run, (ok_body _ _ He)].
  destruct (Hfits d v eq_refl Ev) as (l & -> & _). apply append_values_run.
Qed.

Lemma body_appended e tys data bfields :
  event_ok e tys → Forall2 (λ ty f, sol_to_arrow_type ty = Ok (field_type f)) tys bfields → body_fits tys data →
  ops_append bfields (body_ops tys data) (body_cells bfields tys data).
Proof.
  intros He Hf Hfits. pose proof (nulls_ops tys bfields (ok_body _ _ He) Hf) as Hnulls. unfold body_ops, body_cells.
  destruct data as [d|]; cbn [mbind option_bind]; [|done]. destruct (abi_decode_sequence abi _ d) as [v|] eqn:Ev; [|done].
  destruct (Hfits d v eq_refl Ev) as (l & -> & Hl). apply values_ops; [apply (ok_body _ _ He)|done..].
Qed.

(** What a row becomes. *)
Definition log_cells (e : Event) (tys : list DynSolType) (fields : list Field) (row : LogRow) : list Cell :=
  let n := length (topic_types e) in
  ((λ p : Field * (DynSolType * option bytes), topic_cell p.1 p.2.1 p.2.2) <$> zip (take n fields) (zip (topic_types e) (row_topics row)))
  ++ body_cells (drop n fields) tys (row_data row).

Definition row_fits (e : Event) (tys : list DynSolType) (row : LogRow) : Prop :=
  Forall (λ p : DynSolType * option bytes, topic_fits p.1 p.2) (zip (topic_types e) (row_topics row)) /\ body_fits tys (row_data row).

Lemma event_fields_split e tys fields :
  event_ok e tys → length (body_names e) = length tys → event_fields e = Ok fields →
  ∃ tfields bfields, fields = tfields ++ bfields
    /\ Forall2 (λ ty f, sol_to_arrow_type_for_indexed ty = Ok (field_type f)) (topic_types e) tfields
    /\ Forall2 (λ ty f, sol_to_arrow_type ty = Ok (field_type f)) tys bfields.
Proof.
  intros He Hb. unfold event_fields. rewrite (ok_tuple _ _ He), bind_Ok. intros (tf & Ht & Hf). apply bind_Ok in Hf as (bf & Hbf & [= <-]).
  exists tf, bf. split; [done|]. split; [by eapply named_fields_types; [exact Ht|exact (ok_names _ _ He)]|by eapply named_fields_types].
Qed.

Lemma indexed_column ty t :
  (in_word ty = true → convertible ty = true) → sol_to_arrow_type_for_indexed ty = Ok t → column_type t.
Proof.
  intros Hc Ht. destruct (in_word ty) eqn:Ew.
  - eapply convertible_type; [by apply Hc|]. by destruct ty.
  - destruct ty; try discriminate Ew; injection Ht as <-; by constructor.
Qed.

Lemma event_columns e tys tfields bfields :
  event_ok e tys → Forall2 (λ ty f, sol_to_arrow_type_for_indexed ty = Ok (field_type f)) (topic_types e) tfields →
  Forall2 (λ ty f, sol_to_arrow_type ty = Ok (field_type f)) tys bfields → Forall (λ f, column_type (field_type f)) (tfields ++ bfields).
Proof.
  intros He Ht Hb. apply Forall_app. split.
  - pose proof (ok_words _ _ He) as Hw. induction Ht as [|ty f tys' tf Hf _ IH]; [constructor|]. apply list.Forall_cons in Hw as [Hw Hws].
    constructor; [by eapply indexed_column|]. by apply IH.
  - pose proof (ok_body _ _ He) as Hc. clear He. induction Hb as [|ty f tys bf Hf _ IH]; [constructor|]. cbn in Hc. apply andb_true_iff in Hc as [Hc Hcs].
    constructor; [by eapply convertible_type|]. by apply IH.
Qed.

Lemma decode_row_appends e tys tfields bfields row bs n :
  event_ok e tys → Forall2 (λ ty f, sol_to_arrow_type_for_indexed ty = Ok (field_type f)) (topic_types e) tfields →
  Forall2 (λ ty f, sol_to_arrow_type ty = Ok (field_type f)) tys bfields → row_fits e tys row →
  Forall2 (λ f b, builder_of (field_type f) b /\ length (held b) = n) (tfields ++ bfields) bs →
  ∃ bs', decode_row abi e row bs = Ok bs' /\ fields_append (tfields ++ bfields) bs bs' (log_cells e tys (tfields ++ bfields) row).
Proof.
  intros He Ht Hb [Hfits Hbody] Hbs. pose proof (Forall2_length _ _ _ Ht) as Hlen.
  assert (ops_append (tfields ++ bfields) (topic_ops (topic_types e) (row_topics row) ++ body_ops tys (row_data row)) (log_cells e tys (tfields ++ bfields) row)) as Hops.
  { unfold log_cells. rewrite Hlen, take_app_length, drop_app_length. apply ops_append_app.
    - apply topics_appended; [apply (ok_words _ _ He)|done|cbn; apply (ok_topics _ _ He)|done].
    - by eapply body_appended. }
  destruct (run_appends _ _ _ bs n [] Hops Hbs) as (bs' & Hrun & Happ). exists bs'. split; [|done]. cbn [app length] in Hrun.
  assert (length (topic_ops (topic_types e) (row_topics row)) = length (topic_types e)) as Hto.
  { unfold topic_ops. rewrite length_fmap, length_zip. cbn. pose proof (ok_topics _ _ He). lia. }
  rewrite run_app, Hto in Hrun. unfold decode_row. rewrite <- Hrun.
  pose proof (Forall2_length _ _ _ Hbs) as Hbl. rewrite length_app in Hbl.
  rewrite <- (decode_topics_run e tys row bs He ltac:(lia) Hfits).
  destruct (decode_topic abi e 1 _ _); [|done..]. cbn [mbind comp_bind]. destruct (decode_topic abi e 2 _ _); [|done..]. cbn [mbind comp_bind].
  destruct (decode_topic abi e 3 _ _); [|done..]. cbn [mbind comp_bind Nat.add]. by apply decode_body_run.
Qed.

Lemma decode_logs t1 t2 t3 d signature e tys fields :
  event_of abi signature = Ok e → event_ok e tys → length (body_names e) = length tys → event_fields e = Ok fields → fields ≠ [] →
  Forall (row_fits e tys) (izip4 t1 t2 t3 d) →
  ∃ b, decode abi t1 t2 t3 d signature = Ok (to_array b) /\ builder_of (DataType.Struct fields) b
       /\ array_cells (to_array b) = (λ row, StructCell (Some (log_cells e tys fields row))) <$> izip4 t1 t2 t3 d.
Proof.
  intros Hev He Hn Hfs Hne Hrows. unfold decode. unfold event_of in Hev. apply bind_Ok in Hev as (s & -> & Hev).
  apply bind_Ok in Hev as (ae & Hae & Hev). cbn [mbind comp_bind]. rewrite Hae. cbn [mbind comp_bind]. rewrite Hev. cbn [mbind comp_bind]. rewrite Hfs.
  destruct (event_fields_split e tys fields He Hn Hfs) as (tf & bf & -> & Ht & Hb). pose proof (event_columns e tys tf bf He Ht Hb) as Hcols.
  destruct (from_fields_ok _ Hcols) as [Hb0 Hh0]. cbn [mbind comp_bind].
  destruct (rows_appended (λ row bs, bs ← decode_row abi e row bs; Ok (bs, true)) (λ row, (true, log_cells e tys (tf ++ bf) row)) (tf ++ bf)
    (izip4 t1 t2 t3 d) (from_fields (tf ++ bf)) []) as (b & Hrun & Hbo & Hh); [|exact Hb0|].
  { intros row bs n Hin Hbs. rewrite list.Forall_forall in Hrows. destruct (decode_row_appends e tys tf bf row bs n He Ht Hb (Hrows row Hin) Hbs) as (bs' & -> & Happ).
    by exists bs'. }
  exists b. rewrite Hh0 in Hh. cbn [app fst snd] in Hh. split_and!; [|done|exact Hh]. destruct (tf ++ bf) eqn:E; [done|]. rewrite <- E in *.
  rewrite Hrun. cbn [mbind comp_bind]. apply (finish_ok (DataType.Struct (tf ++ bf))); [by constructor|done].
Qed.
End Logs.

(** ** Decoded types and calls *)

Section Calls.
Context (abi : Abi).

Lemma decode_values_spec ty t data b :
  convertible ty = true → sol_to_arrow_type ty = Ok t → builder_of t b →
  (∀ d v, Some d ∈ data → abi_decode abi ty d = Some v → has_type ty v = true) →
  ∃ b', decode_values abi ty t data b = Ok b' /\ builder_of t b'
        /\ held b' = held b ++ ((λ d, default (null_cell t) (sol_cell <$> (d ≫= abi_decode abi ty))) <$> data).
Proof.
  intros Hc Ht. pose proof (convertible_type ty t Hc Ht) as Hct. revert b. induction data as [|d data IH]; intros b Hb Hd; cbn [decode_values].
  { exists b. by rewrite app_nil_r. }
  assert (appends t (match d with
                     | Some d => match abi_decode abi ty d with Some v => append_sol_value_to_builder b v | None => append_null_value_to_builder t b end
                     | None => append_null_value_to_builder t b
                     end) b (default (null_cell t) (sol_cell <$> (d ≫= abi_decode abi ty)))) as (b1 & -> & Hb1 & Hh1).
  { destruct d as [d|]; cbn [mbind option_bind]; [|by apply null_appends]. destruct (abi_decode abi ty d) as [v|] eqn:Ev; [|by apply null_appends].
    apply (value_appends ty Hc); [done| |done]. eapply Hd; [by left|done]. }
  cbn [mbind comp_bind]. destruct (IH b1 Hb1) as (b2 & Hr & Hb2 & Hh2); [intros d' v Hin; apply Hd; by right|].
  exists b2. split_and!; [exact Hr|done|]. rewrite Hh2, Hh1, <- app_assoc. done.
Qed.

(** A column of encoded values, decoded to the type of its field. *)
Lemma decode_type_spec ty data :
  convertible ty = true → (∀ d v, Some d ∈ data → abi_decode abi ty d = Some v → has_type ty v = true) →
  ∃ t b, sol_to_arrow_type ty = Ok t /\ decode_type abi data ty = Ok (to_array b) /\ builder_of t b
         /\ array_cells (to_array b) = (λ d, default (null_cell t) (sol_cell <$> (d ≫= abi_decode abi ty))) <$> data.
Proof.
  intros Hc Hd. destruct (convertible_column ty Hc) as (t & Ht & Hct). destruct (make_builder_ok t Hct) as [Hmk Hh0].
  destruct (decode_values_spec ty t data _ Hc Ht Hmk Hd) as (b & Hr & Hb & Hh). exists t, b. unfold decode_type. rewrite Ht. cbn [mbind comp_bind].
  rewrite Hr. cbn [mbind comp_bind]. rewrite (finish_ok t b Hct Hb). rewrite Hh0 in Hh. split_and!; [done..|exact Hh].
Qed.

(** Calls that are decoded to typed values. *)
Definition params_fit (call : FunctionCall) (data : option bytes) : Prop :=
  ∀ l, decoded_params abi call data = Some l → have_types (input_types call) l = true.

Definition params_cell (call : FunctionCall) (data : option bytes) : Cell :=
  StructCell (fmap (M := list) sol_cell <$> decoded_params abi call data).

Lemma params_columns call fields :
  forallb convertible (input_types call) = true → Forall2 (λ ty f, sol_to_arrow_type ty = Ok (field_type f)) (input_types call) fields →
  Forall (λ f, column_type (field_type f)) fields.
Proof.
  intros Hc Hf. induction Hf as [|ty f tys fields Ht _ IH]; [constructor|]. cbn in Hc. apply andb_true_iff in Hc as [Hc Hcs].
  constructor; [by eapply convertible_type|by apply IH].
Qed.

Lemma decode_params_spec call fields data :
  forallb convertible (input_types call) = true → length (input_names call) = length (input_types call) → params_fields call = Ok fields →
  Forall (params_fit call) data →
  ∃ bs valid, decode_params abi data call = Ok (StructArray valid (to_array <$> bs)) /\ builder_of (DataType.Struct fields) (StructBuilder bs valid)
              /\ held (StructBuilder bs valid) = params_cell call <$> data.
Proof.
  intros Hc Hn Hf Hd. pose proof (named_fields_types _ _ _ _ Hf Hn) as Ht. pose proof (params_columns call fields Hc Ht) as Hcols.
  destruct (from_fields_ok fields Hcols) as [Hb0 Hh0].
  destruct (rows_appended (decode_params_row abi call)
    (λ d, match decoded_params abi call d with Some l => (true, sol_cell <$> l) | None => (false, (λ f, null_cell (field_type f)) <$> fields) end)
    fields data (from_fields fields) []) as (b & Hrun & Hb & Hh); [|done|].
  { intros d bs n Hin Hbs. rewrite list.Forall_forall in Hd. specialize (Hd d Hin). unfold params_fit in Hd. unfold decode_params_row.
    destruct (decoded_params abi call d) as [l|]; cbn [fst snd].
    - destruct (run_appends _ _ _ bs n [] (values_ops _ _ l Hc Ht (Hd l eq_refl)) Hbs) as (bs' & Hrun & Happ). cbn [length app] in Hrun.
      rewrite append_values_run, Hrun. by exists bs'.
    - destruct (run_appends _ _ _ bs n [] (nulls_ops _ _ Hc Ht) Hbs) as (bs' & Hrun & Happ). cbn [length app] in Hrun.
      rewrite append_nulls_run, Hrun by done. by exists bs'. }
  unfold decode_params. rewrite Hf. cbn [mbind comp_bind]. rewrite Hrun. cbn [mbind comp_bind].
  rewrite (finish_ok (DataType.Struct fields)); [|by constructor|done]. inversion Hb as [| | | | | | | | |fs bs valid Hbs]; subst; [done|].
  exists bs, valid. split_and!; [done..|]. rewrite Hh, Hh0. cbn [app]. apply list_fmap_ext. intros i d _. unfold params_cell.
  by destruct (decoded_params abi call d).
Qed.

Lemma argument_values i tys columns :
  length tys = length columns →
  mapM (λ at_ : ColumnarValue * DynSolType, argument_value i at_.1 at_.2) (zip (ColumnarArray <$> columns) tys) = columns_to_sol i tys columns.
Proof.
  revert columns. induction tys as [|ty tys IH]; intros [|c columns] Hlen; try done. cbn [fmap list_fmap zip zip_with]. rewrite mapM_cons. cbn [argument_value fst snd columns_to_sol].
  destruct (array_to_sol_value ty c i); [|done..]. cbn [mbind comp_bind]. change (list_fmap _ _ ColumnarArray columns) with (ColumnarArray <$> columns).
  rewrite IH by (by injection Hlen). done.
Qed.

(** The fields of a tuple have the types of other names. *)
Lemma arrow_fields_types j tys fields :
  Forall2 (λ ty f, sol_to_arrow_type ty = Ok (field_type f)) tys fields →
  ∃ fields', arrow_fields j tys = Ok fields' /\ Forall2 (λ f f', field_type f = field_type f') fields fields'.
Proof.
  intros Hf. revert j. induction Hf as [|ty f tys fields Ht _ IH]; intros j; [by exists []|]. destruct (IH (S j)) as (fields' & Hr & Hall).
  cbn [arrow_fields]. rewrite Ht. cbn [mbind comp_bind]. rewrite Hr. eexists. split; [done|]. by constructor.
Qed.

(** The values of a row of a structure, from its columns. *)
Lemma row_values tys fields bs valid i l :
  forallb returns tys = true → Forall2 (λ ty f, sol_to_arrow_type ty = Ok (field_type f)) tys fields → builder_of (DataType.Struct fields) (StructBuilder bs valid) →
  have_types tys l = true → held (StructBuilder bs valid) !! i = Some (StructCell (Some (sol_cell <$> l))) →
  columns_to_sol i tys (to_array <$> bs) = Ok l /\ length tys = length (to_array <$> bs).
Proof.
  intros Hc Hf Hb Hl Hi. inversion Hb as [| | | | | | | | |fs bs0 valid0 Hbs]; subst.
  destruct (arrow_fields_types 0 tys fields Hf) as (fields' & Hf' & Htypes).
  assert (Forall2 (λ f b, builder_of (field_type f) b /\ length (held b) = length valid) fields' bs) as Hbs'.
  { clear Hb Hf Hf' Hi. revert bs Hbs. induction Htypes as [|f f' fields fields' Hff _ IH]; intros bs Hbs; inversion Hbs; subst; constructor; [by rewrite <- Hff|by apply IH]. }
  assert (Forall read_back tys) as Hall.
  { rewrite forallb_forall in Hc. apply list.Forall_forall. intros ty Hty. apply returns_back, Hc. by apply list_elem_of_In. }
  unfold held in Hi. cbn [to_array array_cells] in Hi. unfold struct_cells in Hi. rewrite list_lookup_imap in Hi.
  destruct (valid !! i) as [[]|] eqn:Ev; try discriminate Hi. cbn in Hi. injection Hi as Hrow. apply lookup_lt_Some in Ev.
  exact (columns_back i tys 0 fields' l bs _ Hall Hf' Hl Ev Hbs' Hrow).
Qed.
End Calls.

(** ** The functions *)

Section FunctionsCorrect.
Context (abi : Abi).

Lemma named_fields_ok to_arrow names tys :
  Forall (λ ty, ∃ t, to_arrow ty = Ok t) tys → ∃ fields, named_fields to_arrow (zip names tys) = Ok fields.
Proof.
  intros H. apply mapM_Ok_iff, list.Forall_forall. intros [n ty] Hin. rewrite list.Forall_forall in H.
  destruct (H ty) as [t Ht]; [by eapply elem_of_zip_r|]. cbn. rewrite Ht. by eexists.
Qed.

Lemma convertible_types tys : forallb convertible tys = true → Forall (λ ty, ∃ t, sol_to_arrow_type ty = Ok t) tys.
Proof.
  intros H. apply list.Forall_forall. intros ty Hin. rewrite forallb_forall in H.
  destruct (convertible_column ty) as (t & Ht & _); [by apply H, list_elem_of_In|]. by exists t.
Qed.

Lemma event_of_shape signature e :
  event_of abi signature = Ok e →
  length (topic_names e) = length (topic_types e) /\ (length (topic_types e) <= 3)%nat
  /\ ∃ tys, body_tuple e = DynSolType.Tuple tys /\ length (body_names e) = length tys.
Proof.
  unfold event_of. rewrite bind_Ok. intros (s & _ & H). apply bind_Ok in H as (ae & _ & H). by eapply event_new_shape.
Qed.

Lemma event_fields_ok e tys : event_ok e tys → ∃ fields, event_fields e = Ok fields.
Proof.
  intros He. unfold event_fields. rewrite (ok_tuple _ _ He).
  destruct (named_fields_ok sol_to_arrow_type_for_indexed (topic_names e) (topic_types e)) as [tf ->].
  { pose proof (ok_words _ _ He) as Hw. eapply list.Forall_impl; [exact Hw|]. intros ty Hc. cbn in Hc. destruct (in_word ty) eqn:Ew.
    - destruct (convertible_column ty (Hc eq_refl)) as (t & Ht & _). exists t. by destruct ty.
    - destruct ty; try discriminate Ew; by eexists. }
  destruct (named_fields_ok sol_to_arrow_type (body_names e) tys) as [bf Hbf]; [apply convertible_types, (ok_body _ _ He)|].
  cbn [mbind comp_bind]. rewrite Hbf. by eexists.
Qed.

(** C11: [evm_decode_log] of an event whose types Arrow can hold gives a structure
    of the fields that were announced to the planner: for each log in its order
    the topics, decoded or as the hash that stands for them, and the values of
    the data, or nulls when the data does not decode. *)
Theorem evm_logs_decoded (fname : string) a1 a2 a3 a4 t1 t2 t3 d signature e tys :
  event_of abi signature = Ok e → body_tuple e = DynSolType.Tuple tys →
  Forall (λ ty, in_word ty = true → convertible ty = true) (topic_types e) → forallb convertible tys = true →
  (topic_types e ++ tys ≠ []) → Forall (row_fits abi e tys) (izip4 t1 t2 t3 d) →
  ∃ fields b, decode_log_field abi fname [a1; a2; a3; a4; Some signature] = Ok (mkField fname (DataType.Struct fields) false)
    /\ decode abi t1 t2 t3 d signature = Ok (to_array b) /\ builder_of (DataType.Struct fields) b
    /\ array_cells (to_array b) = (λ row, StructCell (Some (log_cells abi e tys fields row))) <$> izip4 t1 t2 t3 d.
Proof.
  intros Hev Htys Hw Hc Hne Hrows. destruct (event_of_shape signature e Hev) as (Hn & H3 & tys' & Ht' & Hbn). assert (tys' = tys) as -> by congruence.
  assert (event_ok e tys) as He by (by split). destruct (event_fields_ok e tys He) as [fields Hf].
  assert (fields ≠ []) as Hfne.
  { intros ->. destruct (event_fields_split e tys [] He Hbn Hf) as (tf & bf & Hnil & Ht & Hb). symmetry in Hnil. apply app_nil in Hnil as [-> ->].
    apply Forall2_nil_inv_r in Ht, Hb. by rewrite Ht, Hb in Hne. }
  destruct (decode_logs abi t1 t2 t3 d signature e tys fields Hev He Hbn Hf Hfne Hrows) as (b & Hd & Hb & Hcells).
  exists fields, b. split_and!; [|done..]. unfold decode_log_field. cbn [ok_or mbind comp_bind]. rewrite Hev. cbn [mbind comp_bind]. rewrite Hf.
  cbn [mbind comp_bind]. by destruct fields.
Qed.

Lemma returns_convertible ty : returns ty = true → convertible ty = true.
Proof.
  induction ty as [ |bits|bits|size| | | | |ty IH|ty sz IH|tys IH] using sol_type_induction; intros Hr; try done.
  - cbn in Hr |- *. unfold DEC_256_MAX_BINARY_PREC in Hr. lia.
  - cbn in Hr |- *. unfold DEC_256_MAX_BINARY_PREC in Hr. lia.
  - by apply IH.
  - cbn [returns convertible] in *. apply andb_true_iff in Hr as [-> Hr]. by apply IH.
  - cbn [returns convertible] in *. rewrite forallb_forall in *. intros ty Hin. rewrite list.Forall_forall in IH. apply IH; [by apply list_elem_of_In|by apply Hr].
Qed.

Lemma call_of_names signature call : call_of abi signature = Ok call → length (input_names call) = length (input_types call).
Proof.
  unfold call_of. rewrite bind_Ok. intros (s & _ & H). apply bind_Ok in H as (f & _ & H). unfold function_call_new in H.
  apply bind_Ok in H as (inputs & _ & [= <-]). cbn. by rewrite !length_fmap.
Qed.

(** C12: calls that [evm_decode_params] decodes to parameters whose types come
    back from Arrow are encoded to the same bytes by [evm_encode_params] from
    the columns of the decoded structure. *)
Theorem evm_params_roundtrip call signature data :
  call_of abi signature = Ok call → forallb returns (input_types call) = true → input_types call ≠ [] →
  Forall (λ d, ∃ l, decoded_params abi call (Some d) = Some l /\ have_types (input_types call) l = true
                    /\ abi_encode_input abi (alloy_function call) l = Some d) data →
  ∃ valid columns, decode_params abi (Some <$> data) call = Ok (StructArray valid columns)
    /\ encode_params_invoke abi ((ColumnarArray <$> columns) ++ [ColumnarScalar signature]) = Ok (binary_column data).
Proof.
  intros Hcall Hr Hne Hdata. pose proof (call_of_names _ _ Hcall) as Hn.
  assert (forallb convertible (input_types call) = true) as Hc.
  { rewrite forallb_forall in *. intros ty Hin. by apply returns_convertible, Hr. }
  destruct (named_fields_ok sol_to_arrow_type (input_names call) (input_types call) (convertible_types _ Hc)) as [fields Hf].
  pose proof (named_fields_types _ _ _ _ Hf Hn) as Htypes.
  destruct (decode_params_spec abi call fields (Some <$> data) Hc Hn Hf) as (bs & valid & Hdec & Hb & Hcells).
  { apply Forall_fmap. eapply list.Forall_impl; [exact Hdata|]. intros d (l & Hl & Hty & _). cbn. intros l' Hl'. by simplify_eq. }
  exists valid, (to_array <$> bs). split; [done|]. unfold encode_params_invoke. rewrite rev_app_distr. cbn [rev app scalar_argument mbind comp_bind].
  rewrite Hcall. cbn [mbind comp_bind]. rewrite rev_involutive, !length_fmap.
  pose proof (Forall2_length _ _ _ Htypes) as Hlt. inversion Hb as [| | | | | | | | |fs bs0 valid0 Hbs]; subst. pose proof (Forall2_length _ _ _ Hbs) as Hlb.
  rewrite <- Hlb, <- Hlt, Nat.eqb_refl. cbn [negb].
  assert (num_rows (ColumnarArray <$> (to_array <$> bs)) = length data) as ->.
  { assert (length (held (StructBuilder bs valid)) = length data) as Hlen by (by rewrite Hcells, !length_fmap).
    rewrite (held_length _ _ Hb) in Hlen. cbn in Hlen. destruct bs as [|b bs].
    - destruct fields; [|done]. by destruct (input_types call).
    - destruct fields as [|f fields]; [done|]. apply Forall2_cons in Hbs as [[Hb1 Hl1] _]. cbn. by rewrite <- (held_length _ _ Hb1), Hl1. }
  rewrite (mapM_seq _ data); [done|]. intros i d Hi. rewrite list.Forall_forall in Hdata.
  destruct (Hdata d) as (l & Hl & Hty & Henc); [by eapply list_elem_of_lookup_2|].
  destruct (row_values (input_types call) fields bs valid i l Hr Htypes Hb Hty) as [Hcols Hlen].
  { rewrite Hcells, !list_lookup_fmap, Hi. cbn [fmap option_fmap option_map]. unfold params_cell. by rewrite Hl. }
  rewrite argument_values by done. rewrite Hcols. cbn [mbind comp_bind]. by rewrite Henc.
Qed.

(** The same for a single type. *)
Lemma evm_type_roundtrip ty arg data :
  type_argument abi arg = Ok ty → returns ty = true →
  Forall (λ d, ∃ v, abi_decode abi ty d = Some v /\ has_type ty v = true /\ abi_encode abi v = d) data →
  ∃ a, decode_type abi (Some <$> data) ty = Ok a /\ encode_type_invoke abi [ColumnarArray a; arg] = Ok (binary_column data).
Proof.
  intros Harg Hr Hdata. destruct (decode_type_spec abi ty (Some <$> data) (returns_convertible ty Hr)) as (t & b & Ht & Hdec & Hb & Hcells).
  { intros d v (d' & [= <-] & Hin)%list_elem_of_fmap Hv. rewrite list.Forall_forall in Hdata. destruct (Hdata d Hin) as (v' & Hv' & Hty & _). by simplify_eq. }
  exists (to_array b). split; [done|]. unfold encode_type_invoke. rewrite Harg. cbn [mbind comp_bind num_rows].
  assert (arr_len (to_array b) = length data) as ->.
  { rewrite <- (held_length t b Hb). unfold held. by rewrite Hcells, !length_fmap. }
  rewrite (mapM_seq _ data); [done|]. intros i d Hi. rewrite list.Forall_forall in Hdata. destruct (Hdata d) as (v & Hv & Hty & <-); [by eapply list_elem_of_lookup_2|].
  cbn [argument_value]. rewrite (returns_back ty Hr t v b i Ht Hty Hb); [done|]. unfold held.
  rewrite Hcells, !list_lookup_fmap, Hi. cbn. by rewrite Hv.
Qed.
End FunctionsCorrect.

(** ** Evaluations *)

Module Evaluation.
#[local] Open Scope string_scope.

(** Words are numbers of a byte or two and addresses; data is one string, and a
    call has one boolean and one string. *)
Definition a_type (s : bytes) : option DynSolType := match s with [1] => Some (DynSolType.Uint 256) | _ => None end.
Definition some_params : list Param := [mkParam "from" (Some DynSolType.Address) true; mkParam "memo" (Some DynSolType.String) true;
  mkParam "kind" (Some (DynSolType.Uint 8)) true; mkParam "text" (Some DynSolType.String) false].
Definition an_event (s : bytes) : option AlloyEvent := match s with [1] => Some (mkAlloyEvent "Sent" false [9] some_params) | _ => None end.
Definition a_function (s : bytes) : option AlloyFunction :=
  match s with
  | [2] => Some (mkAlloyFunction "send" [1; 2; 3; 4] [mkParam "now" (Some DynSolType.Bool) false; mkParam "text" (Some DynSolType.String) false])
  | _ => None
  end.

Definition word_value (ty : DynSolType) (w : bytes) : option DynSolValue :=
  match ty with
  | DynSolType.Address => Some (DynSolValue.Address (drop 12 w))
  | DynSolType.Uint bits => Some (DynSolValue.Uint (foldl (λ n d, n * 256 + d) 0 w) bits)
  | DynSolType.FixedBytes size => Some (DynSolValue.FixedBytes w size)
  | _ => None
  end.

Definition some_abi : Abi := mkAbi a_type an_event a_function word_value word_value
  (λ _ d, match d with [] => None | _ => Some (DynSolValue.Tuple [DynSolValue.String d]) end) (λ _, [])
  (λ _ d, match d with b :: s => Some [DynSolValue.Bool (b =? 1)%Z; DynSolValue.String s] | [] => None end)
  (λ _ l, match l with [DynSolValue.Bool b; DynSolValue.String s] => Some (1 :: 2 :: 3 :: 4 :: (if b : bool then 1 else 0) :: s) | _ => None end).

Definition signature (s : bytes) : ScalarValue := ScalarUtf8 Small (Some s).
Definition word (n : Z) : bytes := app (replicate 30 0) [n / 256; n `mod` 256].
Definition sent : Event := match event_of some_abi (signature [1]) with Ok e => e | _ => mkEvent "" None [] [] [] DynSolType.Bool end.

Lemma evm_logs_decoded_witness :
  match decode some_abi [Some (word 7); None] [Some (word 5); Some (word 5)] [Some (word 3); None] [Some [72; 105]; None] (signature [1]) with
  | Ok a => array_cells a =
      [StructCell (Some [BytesCell (Some (drop 12 (word 7))); BytesCell (Some (word 5)); IntCell (Some 3); TextCell (Some [72; 105])]);
       StructCell (Some [BytesCell None; BytesCell (Some (word 5)); IntCell None; TextCell None])]
  | _ => False
  end.
Proof.
  destruct (evm_logs_decoded some_abi "evm_decode_log" None None None None [Some (word 7); None] [Some (word 5); Some (word 5)] [Some (word 3); None]
    [Some [72; 105]; None] (signature [1]) sent [DynSolType.String]) as (fields & b & Hf & -> & _ & ->).
  - reflexivity.
  - reflexivity.
  - repeat constructor; discriminate.
  - reflexivity.
  - done.
  - repeat constructor; cbn; try done; try (intros _; by eexists); intros d v [= <-] [= <-]; by eexists.
  - vm_compute in Hf. injection Hf as <-. vm_compute. reflexivity.
Defined.

Lemma evm_params_roundtrip_witness :
  ∃ valid columns, decode_params some_abi [Some [1; 2; 3; 4; 1; 65]; Some [1; 2; 3; 4; 0]] (mkFunctionCall (mkAlloyFunction "send" [1; 2; 3; 4]
      [mkParam "now" (Some DynSolType.Bool) false; mkParam "text" (Some DynSolType.String) false]) ["now"; "text"] [DynSolType.Bool; DynSolType.String])
    = Ok (StructArray valid columns)
    /\ encode_params_invoke some_abi ((ColumnarArray <$> columns) ++ [ColumnarScalar (signature [2])]) = Ok (binary_column [[1; 2; 3; 4; 1; 65]; [1; 2; 3; 4; 0]]).
Proof.
  apply (evm_params_roundtrip some_abi _ (signature [2]) [[1; 2; 3; 4; 1; 65]; [1; 2; 3; 4; 0]]).
  - reflexivity.
  - reflexivity.
  - done.
  - repeat constructor; by eexists.
Defined.

(** A null topic of a type that is hashed fails the whole call: its column is of
    hashes, the null is that of a string. *)
Example null_hashed_topic :
  decode some_abi [Some (word 7)] [None] [Some (word 3)] [Some [72]] (signature [1]) = Err Internal.
Proof. reflexivity. Qed.

(** A word with more than the type holds fails it too. *)
Example word_out_of_range :
  decode some_abi [Some (word 7)] [Some (word 5)] [Some (word 256)] [Some [72]] (signature [1]) = Err Internal.
Proof. reflexivity. Qed.

(** No value of [bytes4] can be appended to its column: the whole word is. *)
Example bytes4_not_decoded : decode_type some_abi [Some (word 1)] (DynSolType.FixedBytes 4) = Err ArrowFailed.
Proof. reflexivity. Qed.

(** Every value of fewer than 32 bytes is refused. *)
Lemma short_bytes_refused size word xs :
  length word = 32%nat → 0 <= size < 32 →
  append_sol_value_to_builder (make_builder (DataType.FixedSizeBinary (as_i32 size))) (DynSolValue.FixedBytes word size) = Err ArrowFailed
  /\ append_sol_value_to_builder (FixedSizeBinaryBuilder (as_i32 size) xs) (DynSolValue.FixedBytes word size) = Err ArrowFailed.
Proof.
  intros Hw Hs. rewrite as_i32_small by (unfold i32_max; lia). cbn. rewrite Hw. change (Z.of_nat 32) with 32.
  by rewrite (proj2 (Z.eqb_neq 32 size)) by lia.
Qed.

(** A null of a column is encoded as zero, one of a scalar is refused. *)
Example null_encoded_as_zero :
  array_to_sol_value (DynSolType.Uint 64) (PrimitiveArray UInt64Type [(false, 0)]) 0 = Ok (DynSolValue.Uint 0 64)
  /\ scalar_to_sol_value (ScalarPrimitive UInt64Type None) (DynSolType.Uint 64) = Err Plan.
Proof. done. Qed.

(** A negative decimal panics or becomes a large number; a negative scale is
    not looked at. *)
Example negative_decimals :
  scalar_to_sol_value (ScalarDecimal128 (Some (-1)) 0) (DynSolType.Uint 256) = Panic
  /\ scalar_to_sol_value (ScalarDecimal256 (Some (-1)) 0) (DynSolType.Uint 256) = Ok (DynSolValue.Uint (2 ^ 256 - 1) 256)
  /\ scalar_to_sol_value (ScalarDecimal128 (Some 5) (-2)) (DynSolType.Uint 256) = Ok (DynSolValue.Uint 5 256).
Proof. done. Qed.

(** What is decoded from [uint256] is not taken back. *)
Example uint256_does_not_return :
  (a ← decode_type some_abi [Some (word 1)] (DynSolType.Uint 256); array_to_sol_value (DynSolType.Uint 256) a 0) = Err Plan.
Proof. reflexivity. Qed.

(** A column of [evm_decode_type] is announced without nulls and has them. *)
Example decoded_nulls :
  decode_type_field some_abi "evm_decode_type" [None; Some (signature [1])] = Ok (mkField "evm_decode_type" DataType.Utf8 false)
  /\ (a ← decode_type some_abi [None] (DynSolType.Uint 256); Ok (null_count a)) = Ok (E := DataFusionError) 1%nat.
Proof. split; reflexivity. Qed.
End Evaluation.
