(* ===== verification/EthCall.v ===== *)
(** * EthCall

    The function [eth_call] of queries (core/common/src/evm/udfs/eth_call.rs): a
    request to the node per row, tried three times, and the structure of the
    data and the message it answers.

    The node is a function of the request and of the number of the request in
    the column; the parsing of a block's name and the decoding of hexadecimals
    are parameters. *)

From stdpp Require Import base numbers gmap strings option list.
From Stdlib Require Import ZArith Lia.
From S2P Require Import Prelude Decimal PgTypes PgCopy EvmTables EvmValues EvmFunctions.

#[local] Open Scope Z_scope.

Inductive BlockNumberOrTag := Number (n : Z) | Tag (t : string).

Record TransactionRequest := mkRequest { from : option bytes; to : bytes; input : option bytes }.

Record ErrorPayload := mkErrorPayload { code : Z; message : bytes; data : option bytes }.

(** What a request ends with. *)
Inductive CallResult := Returned (b : bytes) | ErrorResp (e : ErrorPayload) | OtherError.

Inductive EthCallRetryError := RpcError (e : ErrorPayload) | RetriesFailed.

Section EthCall.
Context (client : nat → BlockNumberOrTag → TransactionRequest → CallResult).
Context (block_tag : string → option BlockNumberOrTag) (hex_decode : bytes → option bytes) (string_of : bytes → string).

(** The attempts that are left, from the number of the request. *)
Fixpoint attempts (remaining n : nat) (block : BlockNumberOrTag) (req : TransactionRequest) : (bytes + EthCallRetryError) * nat :=
  match remaining with
  | O => (inr RetriesFailed, n)
  | S remaining =>
      match client n block req with
      | Returned b => (inl b, S n)
      | ErrorResp resp => if bool_decide (code resp = 3 \/ code resp = -32000) then (inr (RpcError resp), S n) else attempts remaining (S n) block req
      | OtherError => attempts remaining (S n) block req
      end
  end.

Definition eth_call_retry : nat → BlockNumberOrTag → TransactionRequest → (bytes + EthCallRetryError) * nat := attempts 3.

Definition parse_block (s : bytes) : df BlockNumberOrTag :=
  match parse_u64 (string_of s) with
  | Some n => Ok (Number n)
  | None => ok_or (block_tag (string_of s)) Plan
  end.

(** [trim_start_matches] and [trim_end_matches] of quotes *)
Fixpoint trim_start (s : bytes) : bytes := match s with 34 :: s => trim_start s | _ => s end.
Definition trim_quotes (s : bytes) : bytes := rev (trim_start (rev (trim_start s))).

Definition address (b : bytes) : df bytes := if (length b =? 20)%nat then Ok b else Err Execution.

(** The data and the message of a row. *)
Definition response_row (r : bytes + EthCallRetryError) : option bytes * option bytes :=
  match r with
  | inl b => (Some b, None)
  | inr (RpcError resp) =>
      (data resp ≫= λ d, hex_decode (trim_quotes d), match message resp with [] => None | m => Some m end)
  | inr RetriesFailed => (None, Some (text_of "unexpected rpc error"))
  end.

Record CallRow := mkCallRow { c_from : option bytes; c_to : option bytes; c_input : option bytes; c_block : option bytes }.

(** One iteration of the loop. *)
Definition call_row (n : nat) (row : CallRow) : df ((option bytes * option bytes) * nat) :=
  to ← ok_or (c_to row) Plan;
  block ← ok_or (c_block row) Plan;
  block ← parse_block block;
  from ← match c_from row with Some from => f ← address from; Ok (Some f) | None => Ok None end;
  to ← address to;
  let '(r, n) := eth_call_retry n block (mkRequest from to (c_input row)) in
  Ok (response_row r, n).

Fixpoint call_rows (n : nat) (rows : list CallRow) (data : slots bytes) (messages : slots bytes) (valid : list bool) : df Array :=
  match rows with
  | [] => Ok (StructArray valid [GenericBinaryArray false data; GenericStringArray false messages])
  | row :: rows =>
      r ← call_row n row;
      call_rows r.2 rows (append_option data r.1.1) (append_option messages r.1.2) (valid ++ [true])
  end.

Fixpoint izip_calls (f t i b : list (option bytes)) : list CallRow :=
  match f, t, i, b with
  | x :: f, y :: t, z :: i, w :: b => mkCallRow x y z w :: izip_calls f t i b
  | _, _, _, _ => []
  end.

(** [invoke_async_with_args], of the four columns *)
Definition eth_call (columns : list Array) : df Array :=
  match columns with
  | [FixedSizeBinaryArray _ f; FixedSizeBinaryArray _ t; GenericBinaryArray false i; GenericStringArray false b] =>
      call_rows 0 (izip_calls (slots_of f) (slots_of t) (slots_of i) (slots_of b)) [] [] []
  | [_; _; _; _] => Panic
  | _ => Err Internal
  end.

(** ** Every row is answered *)

(** The answer decides: the first of three that is data or a revert. *)
Definition decides (r : CallResult) : option (bytes + EthCallRetryError) :=
  match r with
  | Returned b => Some (inl b)
  | ErrorResp resp => if bool_decide (code resp = 3 \/ code resp = -32000) then Some (inr (RpcError resp)) else None
  | OtherError => None
  end.

Lemma attempts_spec remaining n block req :
  attempts remaining n block req =
  match list_find (λ r, is_Some (decides r)) ((λ k, client (n + k)%nat block req) <$> seq 0 remaining) with
  | Some (k, r) => (default (inr RetriesFailed) (decides r), (n + S k)%nat)
  | None => (inr RetriesFailed, (n + remaining)%nat)
  end.
Proof.
  revert n. induction remaining as [|remaining IH]; intros n; [cbn; by rewrite Nat.add_0_r|].
  assert ((λ k, client (n + k)%nat block req) <$> seq 0 (S remaining)
    = client n block req :: ((λ k, client (S n + k)%nat block req) <$> seq 0 remaining)) as ->.
  { cbn [seq]. rewrite fmap_cons, Nat.add_0_r. f_equal. rewrite <- fmap_S_seq, <- list_fmap_compose.
    apply list_fmap_ext. intros i k _. cbn. f_equal. lia. }
  cbn [attempts list_find].
  destruct (client n block req) as [b|resp|]; cbn [decides].
  - rewrite decide_True by done. cbn. by rewrite Nat.add_1_r.
  - destruct (bool_decide (code resp = 3 \/ code resp = -32000)) eqn:Ec.
    + rewrite decide_True by done. cbn [decides]. by rewrite Ec, Nat.add_1_r.
    + rewrite decide_False by (by intros [? [=]]). rewrite IH. destruct (list_find _ _) as [[k r]|]; cbn [fmap option_fmap option_map prod_map fst snd id]; f_equal; lia.
  - rewrite decide_False by (by intros [? [=]]). rewrite IH. destruct (list_find _ _) as [[k r]|]; cbn [fmap option_fmap option_map prod_map fst snd id]; f_equal; lia.
Qed.

Lemma call_rows_cells n rows data messages valid a :
  length data = length valid → length messages = length valid → call_rows n rows data messages valid = Ok a →
  ∃ answers, length answers = length rows
    /\ array_cells a = array_cells (StructArray valid [GenericBinaryArray false data; GenericStringArray false messages])
                       ++ ((λ r : option bytes * option bytes, StructCell (Some [BytesCell r.1; TextCell r.2])) <$> answers)
    /\ ∀ i row, rows !! i = Some row → ∃ k k' r, call_row k row = Ok (r, k') /\ answers !! i = Some r.
Proof.
  revert n data messages valid. induction rows as [|row rows IH]; intros n ds ms valid Hd Hm; cbn [call_rows].
  { intros [= <-]. exists []. by rewrite app_nil_r. }
  rewrite bind_Ok. intros ([[d m] n'] & Hr & Ha). cbn [fst snd] in Ha.
  apply IH in Ha as (answers & Hlen & Hcells & Hrows); [|unfold append_option; rewrite !length_app; by f_equal..].
  exists ((d, m) :: answers). split; [cbn; by rewrite Hlen|]. split.
  - rewrite Hcells. cbn [array_cells fmap list_fmap].
    rewrite (struct_cells_snoc valid [BytesCell ∘ nullable <$> ds; TextCell ∘ nullable <$> ms] _ [BytesCell d; TextCell m] true).
    + by rewrite <- app_assoc.
    + repeat constructor; by rewrite length_fmap.
    + unfold append_option. repeat constructor; rewrite fmap_app; cbn; unfold nullable; by rewrite slot_option_read.
  - intros [|i] r Hi; [injection Hi as <-; by exists n, n', (d, m)|]. by apply Hrows.
Qed.

(** A call without an error of its own answers each row, in order. *)
Lemma eth_call_answers columns a :
  eth_call columns = Ok a → ∃ rows answers, length answers = length rows
    /\ array_cells a = (λ r : option bytes * option bytes, StructCell (Some [BytesCell r.1; TextCell r.2])) <$> answers
    /\ ∀ i row, rows !! i = Some row → ∃ k k' r, call_row k row = Ok (r, k') /\ answers !! i = Some r.
Proof.
  unfold eth_call. destruct columns as [|[] [|[] [|[| | | |[]| | | | | |] [|[| | | | | |[]| | | |] []]]]]; try discriminate; intros H;
    apply call_rows_cells in H as (answers & ? & ? & ?); [|done..]; by eexists _, answers.
Qed.
End EthCall.

(** A row without an address fails the query. *)
Example null_address client tag hex str : call_row client tag hex str 0 (mkCallRow None None None (Some [49])) = Err Plan.
Proof. reflexivity. Qed.
