(* ===== verification/EvmRpc.v ===== *)
(** * EvmRpc

    The JSON-RPC extractor (extractors/evm-rpc/src/client.rs): the conversion
    of a block with its receipts to rows, and the streams of blocks, one
    request at a time or in batches. The records are what the source reads of
    the types of the RPC library, a [U256] or a [u128] is an integer, and the
    answers of the node are parameters. Metrics, the progress reports and the
    permits of the semaphore, which only delay requests, are left out. *)

From stdpp Require Import base numbers gmap strings option list.
From Stdlib Require Import ZArith Lia.
From S2P Require Import Prelude Ranges BlockRange RawWriter PgTypes PgCopy EvmTables.

(** ** Answers of the node *)

Record Header := mkHeader {
  h_number : Z; h_timestamp : Z; h_hash : bytes; h_parent_hash : bytes; h_ommers_hash : bytes; h_beneficiary : bytes;
  h_state_root : bytes; h_transactions_root : bytes; h_receipts_root : bytes; h_logs_bloom : bytes; h_difficulty : Z;
  h_total_difficulty : option Z; h_gas_limit : Z; h_gas_used : Z; h_extra_data : bytes; h_mix_hash : option bytes;
  h_nonce : option Z; h_base_fee_per_gas : option Z; h_withdrawals_root : option bytes; h_blob_gas_used : option Z;
  h_excess_blob_gas : option Z; h_parent_beacon_block_root : option bytes
}.

(** The signature is that of a known envelope. *)
Record RpcTransaction := mkRpcTransaction {
  r_tx_hash : bytes; r_to : option bytes; r_nonce : Z; r_gas_price : option Z; r_gas_limit : Z; r_value : Z; r_input : bytes;
  r_signature : option (bool * Z * Z); r_ty : Z; r_max_fee_per_gas : Z; r_max_priority_fee_per_gas : option Z;
  r_max_fee_per_blob_gas : option Z; r_signer : bytes
}.

Record RpcLog := mkRpcLog {
  g_block_hash : option bytes; g_block_number : option Z; g_transaction_index : option Z; g_transaction_hash : option bytes;
  g_log_index : option Z; g_address : bytes; g_topics : list bytes; g_data : bytes
}.

Inductive Eip658Value := Eip658 (status : bool) | PostState (root : bytes).

Record Receipt := mkReceipt {
  p_transaction_hash : bytes; p_transaction_index : option Z; p_status : Eip658Value; p_logs : list RpcLog;
  p_cumulative_gas_used : Z
}.

Record RpcBlock := mkRpcBlock { header : Header; transactions : list RpcTransaction }.

(** ** Rows *)

Inductive ToRowError := Missing (field : string) | Overflow (field : string).

Inductive RpcError :=
  | TxReceiptCount (block txs receipts : Z)
  | TxReceiptHash (block : Z)
  | ToRow (e : ToRowError)
  | Rows (e : RowsError)
  | Request (e : string)
  | BlockNotFound (n : Z)
  | FetchingReceipts
  | MissingReceipt (hash : bytes)
  | BatchCount (txs receipts : Z).

Definition u32_max : Z := 4294967295.

(** [i128::try_from] and [u32::try_from] on an unsigned integer *)
Definition try_i128 (field : string) (z : Z) : comp ToRowError Z := if z <=? i128_max then Ok z else Err (Overflow field).
Definition try_u32 (field : string) (z : Z) : comp ToRowError Z := if z <=? u32_max then Ok z else Err (Overflow field).

(** [option.map(..).transpose()] *)
Definition transpose {E A B} (f : A → comp E B) (o : option A) : comp E (option B) :=
  match o with Some a => b ← f a; Ok (Some b) | None => Ok None end.

Definition required {A} (field : string) (o : option A) : comp ToRowError A :=
  match o with Some a => Ok a | None => Err (Missing field) end.

(** [Timestamp(Duration::from_secs(secs))] *)
Definition from_secs (secs : Z) : Z := secs * 1000000000.

Definition rpc_header_to_row (h : Header) : comp ToRowError Block :=
  difficulty ← try_i128 "difficulty" (h_difficulty h);
  total_difficulty ← transpose (try_i128 "total_difficulty") (h_total_difficulty h);
  Ok {| b_block_num := h_number h; b_timestamp := from_secs (h_timestamp h); b_hash := h_hash h;
        b_parent_hash := h_parent_hash h; b_ommers_hash := h_ommers_hash h; b_miner := h_beneficiary h;
        b_state_root := h_state_root h; b_transactions_root := h_transactions_root h; b_receipt_root := h_receipts_root h;
        b_logs_bloom := h_logs_bloom h; b_difficulty := difficulty; b_total_difficulty := total_difficulty;
        b_gas_limit := h_gas_limit h; b_gas_used := h_gas_used h; b_extra_data := h_extra_data h;
        b_mix_hash := default (replicate 32 0) (h_mix_hash h); b_nonce := default 0 (h_nonce h);
        b_base_fee_per_gas := h_base_fee_per_gas h; b_withdrawals_root := h_withdrawals_root h;
        b_blob_gas_used := h_blob_gas_used h; b_excess_blob_gas := h_excess_blob_gas h;
        b_parent_beacon_root := h_parent_beacon_block_root h |}.

Definition rpc_log_to_row (g : RpcLog) (timestamp : Z) : comp ToRowError Log :=
  block_hash ← required "block_hash" (g_block_hash g);
  block_num ← required "block_number" (g_block_number g);
  index ← required "transaction_index" (g_transaction_index g);
  tx_index ← try_u32 "transaction_index" index;
  tx_hash ← required "transaction_hash" (g_transaction_hash g);
  index ← required "log_index" (g_log_index g);
  log_index ← try_u32 "log_index" index;
  Ok {| l_block_hash := block_hash; l_block_num := block_num; l_timestamp := timestamp; l_tx_index := tx_index;
        l_tx_hash := tx_hash; l_log_index := log_index; l_address := g_address g; l_topic0 := g_topics g !! 0%nat;
        l_topic1 := g_topics g !! 1%nat; l_topic2 := g_topics g !! 2%nat; l_topic3 := g_topics g !! 3%nat;
        l_data := g_data g |}.

Section ToRows.
(** [RecordBatch::try_new], and [status] of a receipt. *)
Context (try_new : list Field → list ArrayRef → comp string Batch) (coerce_status : Eip658Value → bool).

Definition rpc_transaction_to_row (block : Block) (tx : RpcTransaction) (receipt : Receipt) (tx_index : Z)
    : comp ToRowError Transaction :=
  let '(v, r, s) := default (false, 0, 0) (r_signature tx) in
  index ← try_u32 "tx_index" tx_index;
  gas_price ← transpose (try_i128 "gas_price") (r_gas_price tx);
  value ← try_i128 "value" (r_value tx);
  max_fee_per_gas ← try_i128 "max_fee_per_gas" (r_max_fee_per_gas tx);
  max_priority_fee_per_gas ← transpose (try_i128 "max_priority_fee_per_gas") (r_max_priority_fee_per_gas tx);
  max_fee_per_blob_gas ← transpose (try_i128 "max_fee_per_blob_gas") (r_max_fee_per_blob_gas tx);
  Ok {| t_block_hash := b_hash block; t_block_num := b_block_num block; t_timestamp := b_timestamp block;
        t_tx_index := index; t_tx_hash := r_tx_hash tx; t_to := r_to tx; t_nonce := r_nonce tx; t_gas_price := gas_price;
        t_gas_limit := r_gas_limit tx; t_value := value; t_input := r_input tx; t_v := (if v : bool then [1] else []);
        t_r := be 32 r; t_s := be 32 s; t_receipt_cumulative_gas_used := p_cumulative_gas_used receipt;
        t_type := r_ty tx; t_max_fee_per_gas := max_fee_per_gas;
        t_max_priority_fee_per_gas := max_priority_fee_per_gas; t_max_fee_per_blob_gas := max_fee_per_blob_gas;
        t_from := r_signer tx; t_status := coerce_status (p_status receipt) |}.

(** A transaction that did not fail. *)
Definition succeeded (pair : RpcTransaction * Receipt) : bool :=
  match p_status pair.2 with
  | Eip658 status => status
  | PostState root => negb (forallb (λ b, b =? 0) root)
  end.

(** The loop over the pairs that succeeded, numbered from [idx]. *)
Fixpoint pairs_to_rows (block : Block) (idx : Z) (pairs : list (RpcTransaction * Receipt))
    : comp RpcError (list Log * list Transaction) :=
  match pairs with
  | [] => Ok ([], [])
  | (tx, receipt) :: pairs =>
      if bool_decide (r_tx_hash tx = p_transaction_hash receipt) then
        logs ← mapM (λ g, comp_map_err ToRow (rpc_log_to_row g (b_timestamp block))) (p_logs receipt);
        row ← comp_map_err ToRow (rpc_transaction_to_row block tx receipt idx);
        '(more_logs, rows) ← pairs_to_rows block (idx + 1) pairs;
        Ok (logs ++ more_logs, row :: rows)
      else Err (TxReceiptHash (b_block_num block))
  end.

Definition rpc_to_rows (network : string) (block : RpcBlock) (receipts : list Receipt) : comp RpcError (list TableBatch) :=
  if negb (Nat.eqb (length (transactions block)) (length receipts)) then
    Err (TxReceiptCount (h_number (header block)) (Z.of_nat (length (transactions block))) (Z.of_nat (length receipts)))
  else
    row ← comp_map_err ToRow (rpc_header_to_row (header block));
    '(logs, txs) ← pairs_to_rows row 0 (List.filter succeeded (zip (transactions block) receipts));
    let range := block_range_of row network in
    header_row ← comp_map_err Rows (rows_to_table try_new (B := BlockRowsBuilder) [row] range);
    logs_row ← comp_map_err Rows (rows_to_table try_new (B := LogRowsBuilder) logs range);
    transactions_row ← comp_map_err Rows (rows_to_table try_new (B := TransactionRowsBuilder) txs range);
    of_total (raw_dataset_rows [header_row; logs_row; transactions_row]).
End ToRows.

(** ** Batches of requests *)

(** An answer: [inl] is an error. *)
Fixpoint try_join_all {A} (l : list (string + A)) : string + list A :=
  match l with
  | [] => inr []
  | inl e :: _ => inl e
  | inr a :: l => match try_join_all l with inl e => inl e | inr k => inr (a :: k) end
  end.

Inductive Call :=
  | GetBlockByNumber (n : Z)
  | GetTransactionReceipt (block : Z) (hash : bytes)
  | GetBlockReceipts (n : Z).

Section Batching.
(** Whether the HTTP request of a batch fails, and the answer to a call in it. *)
Context {A : Type} (send : list Call → option string) (answer : Call → string + A) (batch_size : nat).

Definition batch_request (requests : list Call) : string + list A :=
  match send requests with Some e => inl e | None => try_join_all (answer <$> requests) end.

(** [BatchingRpcWrapper::execute]: [drain] takes a chunk off the front. *)
Fixpoint execute_loop (fuel : nat) (remaining_calls : list Call) (results : list A) : comp RpcError (list A) :=
  match remaining_calls, fuel with
  | [], _ => Ok results
  | _, O => OutOfFuel
  | _, S fuel =>
      let n := Nat.min batch_size (length remaining_calls) in
      match batch_request (take n remaining_calls) with
      | inl e => Err (Request e)
      | inr batch_responses => execute_loop fuel (drop n remaining_calls) (results ++ batch_responses)
      end
  end.

Definition execute (calls : list Call) : comp RpcError (list A) := execute_loop (length calls) calls [].
End Batching.

(** [slice::chunks] *)
Fixpoint chunks_loop {A} (fuel n : nat) (l : list A) : list (list A) :=
  match l, fuel with
  | [], _ | _, O => []
  | _, S fuel => take n l :: chunks_loop fuel n (drop n l)
  end.

Definition chunks {A} (n : nat) (l : list A) : total (list (list A)) :=
  _ ← assert (negb (Nat.eqb n 0)); Ok (chunks_loop (length l) n l).

(** ** Streams *)

(** An item of a stream. *)
Abbreviation Item := (comp RpcError (list TableBatch)).

(** The answers to one stream: an absent block or receipt is [null]. *)
Record Node := mkNode {
  get_block_by_number : Z → string + option RpcBlock;
  get_transaction_receipt : Z → bytes → string + option Receipt;
  get_block_receipts : Z → string + option (list Receipt);
  send_batch : list Call → option string
}.

(** [sort_by] on the transaction index: [None] comes first, the sort is stable. *)
Definition index_key (r : Receipt) : Z := default (-1) (p_transaction_index r).
Definition sort_receipts (l : list Receipt) : list Receipt := sort_by_key index_key l.

Section Client.
Context (try_new : list Field → list ArrayRef → comp string Batch) (coerce_status : Eip658Value → bool).
Context (network : string) (batch_size : nat) (fetch_receipts_per_tx : bool).

Definition to_rows : RpcBlock → list Receipt → Item := rpc_to_rows try_new coerce_status network.

(** The first transaction without a receipt, or the receipts. *)
Fixpoint received (l : list (bytes * option Receipt)) : comp RpcError (list Receipt) :=
  match l with
  | [] => Ok []
  | (hash, None) :: _ => Err (MissingReceipt hash)
  | (_, Some r) :: l => k ← received l; Ok (r :: k)
  end.

(** What one iteration of [unbatched_block_stream] yields. *)
Definition unbatched_item (node : Node) (block_num : Z) : Item :=
  match get_block_by_number node block_num with
  | inl e => Err (Request e)
  | inr None => Err (BlockNotFound block_num)
  | inr (Some block) =>
      match transactions block with
      | [] => to_rows block []
      | txs =>
          if fetch_receipts_per_tx then
            let call tx := match get_transaction_receipt node block_num (r_tx_hash tx) with
                           | inl e => inl e
                           | inr r => inr (r_tx_hash tx, r)
                           end in
            match try_join_all (call <$> txs) with
            | inl _ => Err FetchingReceipts
            | inr receipts => k ← received receipts; to_rows block k
            end
          else
            match get_block_receipts node block_num with
            | inr (Some receipts) => to_rows block (sort_receipts receipts)
            | _ => Err FetchingReceipts
            end
      end
  end.

Definition unbatched_block_stream (node : Node) (start_block end_block : Z) : total (list Item) :=
  _ ← assert (start_block <=? end_block);
  Ok (unbatched_item node <$> seqZ start_block (end_block - start_block + 1)).

(** The answers in a batch: [null] does not decode. *)
Definition decode {A} (r : string + option A) : string + A :=
  match r with inl e => inl e | inr None => inl "null" | inr (Some a) => inr a end.

Definition answer_block (node : Node) (c : Call) : string + RpcBlock :=
  match c with GetBlockByNumber n => decode (get_block_by_number node n) | _ => inl "" end.
Definition answer_receipt (node : Node) (c : Call) : string + Receipt :=
  match c with GetTransactionReceipt n hash => decode (get_transaction_receipt node n hash) | _ => inl "" end.
Definition answer_receipts (node : Node) (c : Call) : string + list Receipt :=
  match c with GetBlockReceipts n => decode (get_block_receipts node n) | _ => inl "" end.

(** Each block takes as many of the receipts as it has transactions. *)
Fixpoint distribute_receipts (blocks : list RpcBlock) (all_receipts : list Receipt) : list Item :=
  match blocks with
  | [] => []
  | block :: blocks =>
      let n := length (transactions block) in
      to_rows block (sort_receipts (take n all_receipts)) :: distribute_receipts blocks (drop n all_receipts)
  end.

Definition all_receipts (node : Node) (blocks : list RpcBlock) : comp RpcError (list Receipt) :=
  if fetch_receipts_per_tx then
    execute (send_batch node) (answer_receipt node) batch_size
      (block ← blocks; (λ tx, GetTransactionReceipt (h_number (header block)) (r_tx_hash tx)) <$> transactions block)
  else
    receipts ← execute (send_batch node) (answer_receipts node) batch_size
                 ((λ block, GetBlockReceipts (h_number (header block))) <$> blocks);
    Ok (concat receipts).

(** The items of one group of calls; [Err] ends the stream. *)
Definition batch_items (node : Node) (batch_calls : list Call) : comp RpcError (list Item) :=
  blocks ← execute (send_batch node) (answer_block node) batch_size batch_calls;
  let total_tx_count := sum_list ((λ b, length (transactions b)) <$> blocks) in
  if Nat.eqb total_tx_count 0 then Ok ((λ block, to_rows block []) <$> blocks)
  else
    receipts ← all_receipts node blocks;
    if negb (Nat.eqb total_tx_count (length receipts))
    then Err (BatchCount (Z.of_nat total_tx_count) (Z.of_nat (length receipts)))
    else Ok (distribute_receipts blocks receipts).

Fixpoint batched_items (node : Node) (block_calls : list (list Call)) : list Item :=
  match block_calls with
  | [] => []
  | batch_calls :: block_calls =>
      match batch_items node batch_calls with
      | Ok items => items ++ batched_items node block_calls
      | Err e => [Err e]
      | Panic => [Panic]
      | OutOfFuel => [OutOfFuel]
      end
  end.

Definition batched_block_stream (node : Node) (start_block end_block : Z) : total (list Item) :=
  _ ← assert (negb (Nat.eqb batch_size 0));
  calls ← chunks (batch_size * 10) (GetBlockByNumber <$> seqZ start_block (end_block - start_block + 1));
  Ok (batched_items node calls).

(** [block_stream] *)
Definition block_stream (node : Node) (start_block end_block : Z) : total (list Item) :=
  if Nat.ltb 1 batch_size then batched_block_stream node start_block end_block
  else unbatched_block_stream node start_block end_block.

(** [latest_block] asks for the header of a tag. *)
Definition latest_block (answer : bool → string + option RpcBlock) (finalized : bool) : comp RpcError (option Z) :=
  match answer finalized with
  | inl e => Err (Request e)
  | inr block => Ok ((λ b, h_number (header b)) <$> block)
  end.
End Client.

(** What the retrying stream sees of the items: the block numbers up to the
    first error. *)
Fixpoint attempt_of (items : list Item) : RawWriter.Attempt :=
  match items with
  | [] => mkAttempt [] false
  | Ok (t :: _) :: items => let a := attempt_of items in mkAttempt (start (tb_range t) :: yielded a) (failed a)
  | _ => mkAttempt [] true
  end.

(** ** Batches answer every call once, in order *)

Lemma try_join_all_app {A} (l k : list (string + A)) :
  try_join_all (l ++ k) =
  match try_join_all l with
  | inl e => inl e
  | inr a => match try_join_all k with inl e => inl e | inr b => inr (a ++ b) end
  end.
Proof.
  induction l as [|[e|a] l IH]; cbn [app try_join_all]; [by destruct (try_join_all k)|done|]. rewrite IH.
  destruct (try_join_all l); [done|]. by destruct (try_join_all k).
Qed.

Lemma try_join_all_inr {A} (l : list (string + A)) k : try_join_all l = inr k ↔ l = inr <$> k.
Proof.
  revert k. induction l as [|[e|a] l IH]; intros k; cbn [try_join_all].
  - split; [by intros [= <-]|]. by destruct k.
  - split; [done|]. by destruct k.
  - destruct (try_join_all l) as [e|j].
    + split; [done|]. destruct k as [|b k]; [done|]. cbn. intros [= -> Hl]. by pose proof (proj2 (IH k) Hl).
    + pose proof (proj1 (IH j) eq_refl) as ->. split; [by intros [= <-]|]. destruct k as [|b k]; [done|]. cbn.
      intros [= -> Hk]. by apply (inj (fmap inr)) in Hk as ->.
Qed.

Section Execute.
Context {A : Type} (send : list Call → option string) (answer : Call → string + A) (batch_size : nat).
Context (Hsize : (0 < batch_size)%nat).

Lemma execute_loop_spec fuel calls results :
  (length calls <= fuel)%nat →
  match execute_loop send answer batch_size fuel calls results with
  | Ok rs => ∃ k, try_join_all (answer <$> calls) = inr k /\ rs = results ++ k
  | Err _ => calls ≠ [] /\ ((∀ l, send l = None) → ∃ e, try_join_all (answer <$> calls) = inl e)
  | _ => False
  end.
Proof.
  revert calls results. induction fuel as [|fuel IH]; intros [|c calls] results Hf; cbn [length] in Hf; try lia.
  - exists []. by rewrite app_nil_r.
  - exists []. by rewrite app_nil_r.
  - cbn [execute_loop]. set (n := Nat.min batch_size (length (c :: calls))).
    assert (0 < n)%nat as Hn by (unfold n; cbn; lia).
    assert (try_join_all (answer <$> c :: calls) =
            match try_join_all (answer <$> take n (c :: calls)) with
            | inl e => inl e
            | inr a => match try_join_all (answer <$> drop n (c :: calls)) with inl e => inl e | inr b => inr (a ++ b) end
            end) as Hj by (rewrite <- (take_drop n (c :: calls)) at 1; by rewrite fmap_app, try_join_all_app).
    rewrite Hj. clear Hj. unfold batch_request.
    destruct (send (take n (c :: calls))) as [e|] eqn:Es.
    { split; [done|]. intros Hnone. by rewrite Hnone in Es. }
    destruct (try_join_all (answer <$> take n (c :: calls))) as [e|k1]; [split; eauto|].
    specialize (IH (drop n (c :: calls)) (results ++ k1)). rewrite length_drop in IH. cbn [length] in IH.
    specialize (IH ltac:(lia)). destruct (execute_loop _ _ _ _ _ _) as [rs|e| |]; [..|done|done].
    + destruct IH as (k2 & -> & ->). exists (k1 ++ k2). by rewrite app_assoc.
    + split; [done|]. intros Hnone. destruct (proj2 IH Hnone) as [e' ->]. eauto.
Qed.

(** Whatever the size of the chunks, the responses are the answers to the
    calls; the first answer that is an error, or a request that fails, ends the
    execution. *)
Lemma execute_spec calls :
  match execute send answer batch_size calls with
  | Ok rs => try_join_all (answer <$> calls) = inr rs
  | Err _ => calls ≠ [] /\ ((∀ l, send l = None) → ∃ e, try_join_all (answer <$> calls) = inl e)
  | _ => False
  end.
Proof.
  unfold execute. pose proof (execute_loop_spec (length calls) calls [] ltac:(done)) as H.
  destruct (execute_loop _ _ _ _ _ _) as [rs|e| |]; [|done..]. by destruct H as (k & -> & ->).
Qed.

Lemma execute_answers calls rs : (∀ l, send l = None) → answer <$> calls = inr <$> rs → execute send answer batch_size calls = Ok rs.
Proof.
  intros Hs Ha. pose proof (execute_spec calls) as H. apply try_join_all_inr in Ha.
  destruct (execute _ _ _ _) as [rs'|e| |]; [congruence| |done|done]. destruct (proj2 H Hs) as [e' He]. congruence.
Qed.
End Execute.

Lemma chunks_loop_concat {A} fuel n (l : list A) :
  (0 < n)%nat → (length l <= fuel)%nat → concat (chunks_loop fuel n l) = l /\ Forall (λ c, c ≠ []) (chunks_loop fuel n l).
Proof.
  intros Hn. revert l. induction fuel as [|fuel IH]; intros [|a l] Hf; cbn [length] in Hf; try lia; try by split.
  cbn [chunks_loop concat]. destruct (IH (drop n (a :: l))) as [-> Hall]; [rewrite length_drop; cbn; lia|].
  rewrite take_drop. split; [done|]. apply list.Forall_cons. split; [|done]. by destruct n; [lia|].
Qed.

(** ** The rows of a block *)

Section Rows.
Context (try_new : list Field → list ArrayRef → comp string Batch) (coerce_status : Eip658Value → bool).
Context (Htry : accepts_fitting try_new).

(** What the rows of the pairs are. *)
Definition pair_rows (block : Block) (idx : Z) (pairs : list (RpcTransaction * Receipt)) (logs : list Log)
    (rows : list Transaction) : Prop :=
  length rows = length pairs
  /\ (∀ i tx receipt, pairs !! i = Some (tx, receipt) →
        r_tx_hash tx = p_transaction_hash receipt
        /\ ∃ row, rows !! i = Some row
             /\ rpc_transaction_to_row coerce_status block tx receipt (idx + Z.of_nat i) = Ok row)
  /\ mapM (λ g, comp_map_err ToRow (rpc_log_to_row g (b_timestamp block))) (pairs ≫= λ p, p_logs p.2) = Ok logs.

Lemma mapM_comp_app {E A B} (f : A → comp E B) l k :
  mapM f (l ++ k) = (a ← mapM f l; b ← mapM f k; Ok (a ++ b)).
Proof.
  induction l as [|x l IH]; cbn [app]; [by destruct (mapM f k)|].
  change (mapM f (x :: l ++ k)) with (y ← f x; ys ← mapM f (l ++ k); mret (M := comp E) (y :: ys)).
  change (mapM f (x :: l)) with (y ← f x; ys ← mapM f l; mret (M := comp E) (y :: ys)).
  rewrite IH. destruct (f x); cbn [mbind comp_bind]; [|done..]. destruct (mapM f l); cbn [mbind comp_bind mret comp_ret]; [|done..].
  by destruct (mapM f k).
Qed.

Lemma row_total {E A} (m : comp E A) : m ≠ Panic → m ≠ OutOfFuel → (∃ a, m = Ok a) \/ ∃ e, m = Err e.
Proof. destruct m; naive_solver. Qed.

Lemma log_row_total g ts : rpc_log_to_row g ts ≠ Panic /\ rpc_log_to_row g ts ≠ OutOfFuel.
Proof. unfold rpc_log_to_row, required, try_u32. repeat (case_match; cbn [mbind comp_bind]; try done). Qed.

Lemma transaction_row_total block tx receipt i :
  rpc_transaction_to_row coerce_status block tx receipt i ≠ Panic /\ rpc_transaction_to_row coerce_status block tx receipt i ≠ OutOfFuel.
Proof.
  unfold rpc_transaction_to_row, try_u32, try_i128, transpose. repeat (case_match; cbn [mbind comp_bind]; try done).
Qed.

Lemma logs_total l ts :
  match mapM (λ g, comp_map_err ToRow (rpc_log_to_row g ts)) l with Ok _ | Err (ToRow _) => True | _ => False end.
Proof.
  induction l as [|g l IH]; [done|].
  change (mapM ?f (g :: l)) with (y ← f g; ys ← mapM f l; mret (M := comp RpcError) (y :: ys)).
  destruct (log_row_total g ts) as [Hp Hf]. destruct (rpc_log_to_row g ts); cbn [comp_map_err mbind comp_bind]; [|done..].
  by destruct (mapM _ l) as [?|[]| |].
Qed.

Lemma pairs_to_rows_spec block idx pairs :
  match pairs_to_rows coerce_status block idx pairs with
  | Ok (logs, rows) => pair_rows block idx pairs logs rows
  | Err (TxReceiptHash n) => n = b_block_num block /\ ∃ tx receipt, (tx, receipt) ∈ pairs /\ r_tx_hash tx ≠ p_transaction_hash receipt
  | Err (ToRow _) => True
  | _ => False
  end.
Proof.
  revert idx. induction pairs as [|[tx receipt] pairs IH]; intros idx; cbn [pairs_to_rows]; [by split|].
  case_bool_decide as Hh; [|split; [done|]; exists tx, receipt; split; [by left|done]].
  pose proof (logs_total (p_logs receipt) (b_timestamp block)) as Hl. set (f := λ g, comp_map_err _ _) in *.
  destruct (mapM f (p_logs receipt)) as [logs|[]| |] eqn:El; try done. cbn [mbind comp_bind].
  destruct (transaction_row_total block tx receipt idx) as [Hp Hf].
  destruct (rpc_transaction_to_row _ _ _ _ _) as [row|e| |] eqn:Er; try done. cbn [comp_map_err mbind comp_bind].
  specialize (IH (idx + 1)). destruct (pairs_to_rows _ _ _ _) as [[more rows]|e| |]; try done.
  - destruct IH as (Hlen & Hrows & Hlogs). split; [cbn; lia|]. split.
    + intros [|i] tx' receipt' Hi; cbn in Hi.
      * simplify_eq. split; [done|]. exists row. by rewrite Z.add_0_r.
      * destruct (Hrows i tx' receipt' Hi) as (? & row' & ? & Hr). split; [done|]. exists row'. split; [done|].
        rewrite <- Hr. f_equal. lia.
    + rewrite bind_cons, mapM_comp_app. cbn [snd]. fold f in Hlogs |- *. by rewrite El, Hlogs.
  - destruct e; try done. destruct IH as (? & tx' & receipt' & ? & ?). split; [done|]. exists tx', receipt'. split; [by right|done].
Qed.

Lemma header_row_num h row : rpc_header_to_row h = Ok row → b_block_num row = h_number h.
Proof.
  unfold rpc_header_to_row. destruct (try_i128 _ _); cbn [mbind comp_bind]; try done.
  destruct (transpose _ _); cbn [mbind comp_bind]; try done. by intros [= <-].
Qed.

Lemma transaction_row_num block tx receipt i row :
  rpc_transaction_to_row coerce_status block tx receipt i = Ok row → t_block_num row = b_block_num block.
Proof.
  unfold rpc_transaction_to_row. destruct (default _ _) as [[v r] s].
  do 6 (rewrite bind_Ok; intros (? & _ & Hr); revert Hr). by intros [= <-].
Qed.

Lemma log_row_num g ts row : rpc_log_to_row g ts = Ok row → g_block_number g = Some (l_block_num row).
Proof.
  unfold rpc_log_to_row. rewrite bind_Ok. intros (? & _ & Hr). revert Hr. rewrite bind_Ok. intros (n & Hn & Hr). revert Hr.
  do 5 (rewrite bind_Ok; intros (? & _ & Hr); revert Hr). intros [= <-]. cbn.
  unfold required in Hn. destruct (g_block_number g); [congruence|done].
Qed.
Lemma pair_rows_num block pairs logs rows :
  pair_rows block 0 pairs logs rows → Forall (λ row, t_block_num row = b_block_num block) rows.
Proof.
  intros (Hlen & Hrows & _). apply Forall_lookup. intros i row Hi.
  destruct (lookup_lt_is_Some_2 pairs i) as [[tx receipt] Hp]; [rewrite <- Hlen; by eapply lookup_lt_Some|].
  destruct (Hrows i tx receipt Hp) as (_ & row' & Hi' & Hr). assert (row' = row) as -> by congruence.
  by eapply transaction_row_num.
Qed.

Lemma header_total h :
  match comp_map_err ToRow (rpc_header_to_row h) with Ok row => b_block_num row = h_number h | Err (ToRow _) => True | _ => False end.
Proof.
  pose proof (header_row_num h) as Hn. unfold rpc_header_to_row, transpose, try_i128 in *.
  repeat (case_match; cbn [mbind comp_bind comp_map_err] in *; try done); by apply Hn.
Qed.

Lemma rpc_to_rows_built network block receipts :
  let pairs := List.filter succeeded (zip (transactions block) receipts) in
  match rpc_to_rows try_new coerce_status network block receipts with
  | Ok tables =>
      length (transactions block) = length receipts
      /\ ∃ row logs txs t0 t1 t2, tables = [t0; t1; t2]
         /\ rpc_header_to_row (header block) = Ok row
         /\ pair_rows row 0 pairs logs txs
         /\ Forall (λ t, tb_range t = block_range_of row network) tables
         /\ holds (Row := Block) (B := BlockRowsBuilder) t0 [row]
         /\ holds (Row := Log) (B := LogRowsBuilder) t1 logs
         /\ holds (Row := Transaction) (B := TransactionRowsBuilder) t2 txs
         /\ Forall (λ g, l_block_num g = h_number (header block)) logs
  | Err (TxReceiptCount _ _ _) => length (transactions block) ≠ length receipts
  | Err (TxReceiptHash _) => ∃ tx receipt, (tx, receipt) ∈ pairs /\ r_tx_hash tx ≠ p_transaction_hash receipt
  | Err (ToRow _) => True
  | Err (Rows (Malformed _ (UnexpectedBlockNum n))) =>
      n ≠ h_number (header block) /\ ∃ tx receipt g, (tx, receipt) ∈ pairs /\ g ∈ p_logs receipt /\ g_block_number g = Some n
  | _ => False
  end.
Proof.
  intros pairs. unfold rpc_to_rows. destruct (Nat.eqb_spec (length (transactions block)) (length receipts)) as [Hlen|Hlen]; [|done].
  cbn [negb]. pose proof (header_total (header block)) as Hh. destruct (rpc_header_to_row (header block)) as [row|e| |] eqn:Erow; try done.
  cbn [comp_map_err mbind comp_bind] in *. pose proof (pairs_to_rows_spec row 0 pairs) as Hp. fold pairs.
  destruct (pairs_to_rows coerce_status row 0 pairs) as [[logs txs]|[]| |] eqn:Epairs; try done; [|by destruct Hp].
  pose proof (pair_rows_num _ _ _ _ Hp) as Htx.
  destruct (table_of_block try_new Htry (B := BlockRowsBuilder) [row] row network) as (t0 & -> & Hr0 & H0); [by repeat constructor|].
  destruct (table_of_block try_new Htry (B := TransactionRowsBuilder) txs row network) as (t2 & E2 & Hr2 & H2); [exact Htx|].
  cbn [comp_map_err mbind comp_bind].
  pose proof (table_rows_built try_new Htry (B := LogRowsBuilder) logs (block_range_of row network) eq_refl) as Hl.
  destruct (rows_to_table _ logs _) as [t1|[e|tn []]| |]; try done; cbn [comp_map_err mbind comp_bind].
  - rewrite E2. cbn [comp_map_err mbind comp_bind]. destruct Hl as (Hnum & Hr1 & Hn1 & Hf1 & Hread1).
    rewrite (raw_dataset_rows_Ok (block_range_of row network)) by (by repeat constructor). split; [done|].
    exists row, logs, txs, t0, t1, t2. split_and!; try done.
    + repeat constructor; done.
    + eapply Forall_impl; [exact Hnum|]. cbn. intros g ->. exact Hh.
  - destruct Hl as [(g & Hg & Hn) Hne]. cbn in Hne, Hn. split; [by rewrite <- Hh|].
    destruct Hp as (_ & _ & Hlogs). apply mapM_Ok_Forall2 in Hlogs.
    apply list_elem_of_lookup in Hg as [i Hi]. destruct (Forall2_lookup_r _ _ _ _ _ Hlogs Hi) as (r & Hir & Hrow).
    destruct (rpc_log_to_row r (b_timestamp row)) as [g'| | |] eqn:Eg; try done. cbn in Hrow. simplify_eq.
    apply log_row_num in Eg. apply list_elem_of_lookup_2, list_elem_of_bind in Hir as ([tx receipt] & Hr & Hp).
    exists tx, receipt, r. by subst.
Qed.

End Rows.

(** ** The streams *)

(** The items answer the blocks in order: tables of that block, or an error. *)
Definition item_ok (n : Z) (item : Item) : Prop :=
  match item with
  | Ok (t :: _) => start (tb_range t) = n
  | Err _ => True
  | _ => False
  end.

(** Up to its first error. *)
Inductive follows : list Z → list Item → Prop :=
  | follows_nil : follows [] []
  | follows_rows n ns t tables items :
      start (tb_range t) = n → follows ns items → follows (n :: ns) (Ok (t :: tables) :: items)
  | follows_error n ns e items : follows (n :: ns) (Err e :: items).

Lemma follows_app ns items ms rest : Forall2 item_ok ns items → follows ms rest → follows (ns ++ ms) (items ++ rest).
Proof.
  intros Hi Hr. induction Hi as [|n item ns items Hn _ IH]; [done|]. cbn.
  destruct item as [[|t tables]|e| |]; try done; by constructor.
Qed.

Lemma follows_items ns items : Forall2 item_ok ns items → follows ns items.
Proof. intros H. rewrite <- (app_nil_r ns), <- (app_nil_r items). by apply follows_app; [|constructor]. Qed.

Lemma attempt_follows ns items :
  follows ns items →
  ∃ k, (k <= length ns)%nat /\ yielded (attempt_of items) = take k ns /\ (failed (attempt_of items) = false → k = length ns).
Proof.
  induction 1 as [|n ns t tables items Ht _ (k & Hk & Hy & Hf)|n ns e items].
  - by exists 0%nat.
  - exists (S k). cbn. split; [lia|]. rewrite Ht, Hy. split; [done|]. intros H. by rewrite (Hf H).
  - exists 0%nat. cbn. split; [lia|done].
Qed.

Section Streams.
Context (try_new : list Field → list ArrayRef → comp string Batch) (coerce_status : Eip658Value → bool).
Context (Htry : accepts_fitting try_new) (network : string).

(** A node answers with the block it was asked for. *)
Definition honest (node : Node) : Prop :=
  ∀ n block, get_block_by_number node n = inr (Some block) → h_number (header block) = n.

Lemma to_rows_ok block receipts : item_ok (h_number (header block)) (to_rows try_new coerce_status network block receipts).
Proof.
  unfold to_rows. pose proof (rpc_to_rows_built try_new coerce_status Htry network block receipts) as H. cbv zeta in H.
  destruct (rpc_to_rows _ _ _ _ _) as [tables|e| |]; try done.
  destruct H as (_ & row & logs & txs & t0 & t1 & t2 & -> & Hrow & _ & Hr & _). apply list.Forall_cons in Hr as [Hr _].
  cbn. rewrite Hr. cbn. by apply header_row_num.
Qed.

Lemma received_total l : match received l with Ok _ | Err _ => True | _ => False end.
Proof. induction l as [|[hash [r|]] l IH]; cbn; [done| |done]. by destruct (received l). Qed.

Lemma unbatched_item_ok per_tx node n : honest node → item_ok n (unbatched_item try_new coerce_status network per_tx node n).
Proof.
  intros Hh. unfold unbatched_item. destruct (get_block_by_number node n) as [e|[block|]] eqn:E; [done| |done].
  apply Hh in E as <-. destruct (transactions block) as [|tx txs]; [apply to_rows_ok|]. destruct per_tx.
  - destruct (try_join_all _) as [|l]; [done|]. pose proof (received_total l). destruct (received l); [apply to_rows_ok|done..].
  - destruct (get_block_receipts _ _) as [|[receipts|]]; [done|apply to_rows_ok|done].
Qed.

Lemma distribute_receipts_ok blocks receipts :
  Forall2 item_ok ((λ b, h_number (header b)) <$> blocks) (distribute_receipts try_new coerce_status network blocks receipts).
Proof. revert receipts. induction blocks as [|b blocks IH]; intros receipts; constructor; [apply to_rows_ok|apply IH]. Qed.

Context (batch_size : nat) (Hsize : (0 < batch_size)%nat).

Lemma all_receipts_total per_tx node blocks :
  match all_receipts batch_size per_tx node blocks with Ok _ | Err _ => True | _ => False end.
Proof.
  unfold all_receipts. destruct per_tx.
  - pose proof (execute_spec (send_batch node) (answer_receipt node) batch_size Hsize) as H.
    specialize (H (block ← blocks; (λ tx, GetTransactionReceipt (h_number (header block)) (r_tx_hash tx)) <$> transactions block)).
    by destruct (execute _ _ _ _).
  - pose proof (execute_spec (send_batch node) (answer_receipts node) batch_size Hsize
                  ((λ block, GetBlockReceipts (h_number (header block))) <$> blocks)) as H.
    by destruct (execute _ _ _ _).
Qed.

Lemma batch_items_ok per_tx node ns :
  honest node → ns ≠ [] →
  match batch_items try_new coerce_status network batch_size per_tx node (GetBlockByNumber <$> ns) with
  | Ok items => Forall2 item_ok ns items
  | Err _ => True
  | _ => False
  end.
Proof.
  intros Hh _. unfold batch_items.
  pose proof (execute_spec (send_batch node) (answer_block node) batch_size Hsize (GetBlockByNumber <$> ns)) as H.
  destruct (execute _ _ _ _) as [blocks|e| |]; [|done..]. cbn [mbind comp_bind].
  apply try_join_all_inr in H. assert (ns = (λ b, h_number (header b)) <$> blocks) as ->.
  { revert blocks H. induction ns as [|n ns IH]; intros [|b blocks]; try done. cbn. intros [= Hb H].
    rewrite (IH blocks H) at 1. f_equal. unfold decode in Hb. destruct (get_block_by_number node n) as [|[b'|]] eqn:E; try done.
    injection Hb as ->. symmetry. by apply Hh. }
  destruct (Nat.eqb _ 0).
  - apply Forall2_fmap. apply Forall_Forall2_diag, Forall_forall. intros b _. apply to_rows_ok.
  - pose proof (all_receipts_total per_tx node blocks) as Hr.
    destruct (all_receipts _ _ _ _) as [receipts|e| |]; try done. cbn [mbind comp_bind].
    destruct (negb _); [done|]. apply distribute_receipts_ok.
Qed.

Lemma batched_items_ok per_tx node (groups : list (list Z)) :
  honest node → Forall (λ ns, ns ≠ []) groups →
  follows (concat groups) (batched_items try_new coerce_status network batch_size per_tx node ((λ ns : list Z, GetBlockByNumber <$> ns) <$> groups)).
Proof.
  intros Hh. induction 1 as [|ns groups Hns _ IH]; [constructor|]. rewrite fmap_cons. cbn [batched_items concat].
  pose proof (batch_items_ok per_tx node ns Hh Hns) as Hi. destruct (batch_items _ _ _ _ _ _ _) as [items|e| |]; try done.
  - by apply follows_app.
  - destruct ns; [done|]. constructor.
Qed.

Lemma chunks_fmap {A B} (f : A → B) fuel n l : chunks_loop fuel n (f <$> l) = (λ c : list A, f <$> c) <$> chunks_loop fuel n l.
Proof.
  revert l. induction fuel as [|fuel IH]; intros [|a l]; try done.
  change (chunks_loop (S fuel) n (f <$> a :: l)) with (take n (f <$> a :: l) :: chunks_loop fuel n (drop n (f <$> a :: l))).
  change (chunks_loop (S fuel) n (a :: l)) with (take n (a :: l) :: chunks_loop fuel n (drop n (a :: l))).
  by rewrite <- fmap_take, <- fmap_drop, IH.
Qed.

(** The streams of either kind follow the range. *)
Lemma block_stream_follows per_tx node lo hi :
  honest node → lo <= hi →
  ∃ items, block_stream try_new coerce_status network batch_size per_tx node lo hi = Ok items /\ follows (seqZ lo (hi - lo + 1)) items.
Proof.
  intros Hh Hle. unfold block_stream. destruct (Nat.ltb 1 batch_size).
  - unfold batched_block_stream, chunks. rewrite (proj2 (Nat.eqb_neq batch_size 0)) by lia.
    rewrite (proj2 (Nat.eqb_neq (batch_size * 10) 0)) by lia. cbn [negb assert mbind comp_bind]. eexists. split; [done|].
    rewrite chunks_fmap. set (l := seqZ lo (hi - lo + 1)).
    destruct (chunks_loop_concat (length (GetBlockByNumber <$> l)) (batch_size * 10) l ltac:(lia)) as [Hc Hall]; [by rewrite length_fmap|].
    rewrite <- Hc at 1. by apply batched_items_ok.
  - unfold unbatched_block_stream. rewrite (proj2 (Z.leb_le lo hi)) by done. cbn [assert mbind comp_bind]. eexists. split; [done|].
    apply follows_items, Forall2_fmap_r, Forall_Forall2_diag, Forall_forall. intros n _. by apply unbatched_item_ok.
Qed.
End Streams.

(** ** The streams together *)

Section Delivery.
Context (try_new : list Field → list ArrayRef → comp string Batch) (coerce_status : Eip658Value → bool).
Context (network : string) (batch_size : nat).

(** The attempts of the retrying stream, one node after the other; past the last
    block there is nothing to yield. *)
Definition attempt_with (per_tx : bool) (nodes : nat → Node) (last : Z) (i : nat) (b : Z) : RawWriter.Attempt :=
  match block_stream try_new coerce_status network batch_size per_tx (nodes i) b last with
  | Ok items => attempt_of items
  | _ => mkAttempt [] false
  end.

(** C5: with nodes that answer with the block they are asked for, in batches or
    not, whatever requests fail, whatever receipts are missing or mismatched
    before, the rows of every block from the start to the end reach the writer
    exactly once and in order as soon as one attempt does not fail. *)
Theorem evm_blocks_delivered per_tx nodes first last k :
  accepts_fitting try_new → (0 < batch_size)%nat → (∀ i, honest (nodes i)) → 0 <= first <= last → last < u64_max →
  (∀ b, first <= b <= last + 1 → failed (attempt_with per_tx nodes last k b) = false) →
  stream_with_retry (S k) (attempt_with per_tx nodes last) first = Ok (seqZ first (last - first + 1)).
Proof.
  intros Htry Hsize Hh Hf Hl Hk. apply retry_delivers; [done..| |done]. intros i b Hb. unfold attempt_with.
  destruct (decide (b = last + 1)) as [->|Hne].
  - exists 0. unfold block_stream, batched_block_stream, unbatched_block_stream, chunks.
    rewrite (proj2 (Z.leb_gt (last + 1) last)) by lia. rewrite (proj2 (Nat.eqb_neq batch_size 0)), (proj2 (Nat.eqb_neq (batch_size * 10) 0)) by lia.
    replace (last - (last + 1) + 1) with 0 by lia.
    destruct (Nat.ltb 1 batch_size); (split; [lia|split; [lia|split; [done|intros _; lia]]]).
  - destruct (block_stream_follows try_new coerce_status Htry network batch_size Hsize per_tx (nodes i) b last) as (items & -> & Hi); [done|lia|].
    apply attempt_follows in Hi as (n & Hn & -> & Hfail). rewrite length_seqZ in Hn, Hfail. exists (Z.of_nat n). split_and!; [lia|lia| |].
    + unfold seqZ. rewrite <- fmap_take, take_seq. do 2 f_equal. lia.
    + intros H. rewrite (Hfail H). lia.
Qed.

(** The node serves the blocks of a range, with the receipts of each by block
    and by transaction, in the order of the transactions. *)
Definition serves (node : Node) (lo hi : Z) (block : Z → RpcBlock) (receipts : Z → list Receipt) : Prop :=
  (∀ l, send_batch node l = None)
  /\ ∀ n, lo <= n <= hi →
       get_block_by_number node n = inr (Some (block n)) /\ h_number (header (block n)) = n
       /\ get_block_receipts node n = inr (Some (receipts n)) /\ sort_receipts (receipts n) = receipts n
       /\ Forall2 (λ tx r, get_transaction_receipt node n (r_tx_hash tx) = inr (Some r)) (transactions (block n)) (receipts n).

Context (node : Node) (lo hi : Z) (block : Z → RpcBlock) (receipts : Z → list Receipt).
Context (Hserves : serves node lo hi block receipts).

Lemma served_receipts n per_tx :
  lo <= n <= hi → unbatched_item try_new coerce_status network per_tx node n = to_rows try_new coerce_status network (block n) (receipts n).
Proof.
  intros Hn. destruct (proj2 Hserves n Hn) as (Hb & _ & Hr & Hs & Ht). unfold unbatched_item. rewrite Hb.
  destruct (transactions (block n)) as [|tx txs] eqn:Etx; [by apply Forall2_nil_inv_l in Ht as ->|]. destruct per_tx; [|by rewrite Hr, Hs].
  set (call := λ tx, match get_transaction_receipt node n (r_tx_hash tx) with inl e => inl e | inr r => inr (r_tx_hash tx, r) end).
  assert (∀ txs rs, Forall2 (λ tx r, get_transaction_receipt node n (r_tx_hash tx) = inr (Some r)) txs rs →
    ∃ l, try_join_all (call <$> txs) = inr l /\ received l = Ok rs) as Hall.
  { clear. intros txs rs. induction 1 as [|tx r txs rs Htx _ (l & Hl & Hr)]; [by exists []|].
    exists ((r_tx_hash tx, Some r) :: l). rewrite fmap_cons. cbn [try_join_all received]. rewrite Hl, Hr. unfold call at 1. by rewrite Htx. }
  destruct (Hall (tx :: txs) (receipts n) Ht) as (l & -> & ->). done.
Qed.

Context (Hsize : (0 < batch_size)%nat).

Abbreviation answered n := (to_rows try_new coerce_status network (block n) (receipts n)).
Abbreviation in_range ns := (Forall (λ n : Z, lo <= n <= hi) ns).

Lemma served_counts n : lo <= n <= hi → length (transactions (block n)) = length (receipts n).
Proof. intros Hn. destruct (proj2 Hserves n Hn) as (_ & _ & _ & _ & Ht). by apply Forall2_length in Ht. Qed.

Lemma served_total ns : in_range ns →
  sum_list ((λ b, length (transactions b)) <$> (block <$> ns)) = length (concat (receipts <$> ns)).
Proof.
  induction 1 as [|n ns Hn _ IH]; [done|]. rewrite !fmap_cons. cbn [sum_list concat]. rewrite length_app, IH, served_counts by done. done.
Qed.

Lemma served_distribution ns : in_range ns →
  distribute_receipts try_new coerce_status network (block <$> ns) (concat (receipts <$> ns)) = (λ n, answered n) <$> ns.
Proof.
  induction 1 as [|n ns Hn _ IH]; [done|]. rewrite !fmap_cons. cbn [distribute_receipts concat].
  rewrite served_counts, take_app_length, drop_app_length, IH by done. by rewrite (proj1 (proj2 (proj2 (proj2 (proj2 Hserves n Hn))))).
Qed.

Lemma served_all_receipts per_tx ns : in_range ns →
  all_receipts batch_size per_tx node (block <$> ns) = Ok (concat (receipts <$> ns)).
Proof.
  intros Hns. unfold all_receipts. destruct per_tx.
  - apply execute_answers; [done|apply Hserves|]. induction Hns as [|n ns Hn _ IH]; [done|].
    rewrite !fmap_cons, bind_cons, fmap_app. cbn [concat]. rewrite fmap_app, IH. f_equal. clear IH.
    destruct (proj2 Hserves n Hn) as (_ & -> & _ & _ & Ht). induction Ht as [|tx r txs rs Htx _ IH]; [done|].
    rewrite !fmap_cons, IH. cbn. by rewrite Htx.
  - rewrite (execute_answers _ _ _ Hsize _ (receipts <$> ns)); [done|apply Hserves|].
    induction Hns as [|n ns Hn _ IH]; [done|]. rewrite !fmap_cons, IH. cbn.
    destruct (proj2 Hserves n Hn) as (_ & -> & -> & _). done.
Qed.

Lemma served_batch per_tx ns : in_range ns →
  batch_items try_new coerce_status network batch_size per_tx node (GetBlockByNumber <$> ns) = Ok ((λ n, answered n) <$> ns).
Proof.
  intros Hns. unfold batch_items.
  rewrite (execute_answers _ _ _ Hsize _ (block <$> ns)); [|apply Hserves|].
  - cbn [mbind comp_bind]. rewrite served_total by done. destruct (Nat.eqb_spec (length (concat (receipts <$> ns))) 0) as [Hz|Hz].
    + f_equal. rewrite <- list_fmap_compose. apply list_fmap_ext. intros i n Hi. cbn. f_equal. symmetry.
      apply length_zero_iff_nil. apply list_elem_of_lookup_2 in Hi.
      enough (length (receipts n) <= length (concat (receipts <$> ns)))%nat by lia.
      clear - Hi. induction Hi as [n ns|n m ns _ IH]; rewrite fmap_cons; cbn [concat]; rewrite length_app; lia.
    + rewrite served_all_receipts by done. cbn [mbind comp_bind]. rewrite Nat.eqb_refl. cbn [negb]. by rewrite served_distribution.
  - induction Hns as [|n ns Hn _ IH]; [done|]. rewrite !fmap_cons, IH. cbn. by rewrite (proj1 (proj2 Hserves n Hn)).
Qed.

Lemma served_stream per_tx : lo <= hi →
  block_stream try_new coerce_status network batch_size per_tx node lo hi = Ok ((λ n, answered n) <$> seqZ lo (hi - lo + 1)).
Proof.
  intros Hle. assert (in_range (seqZ lo (hi - lo + 1))) as Hin.
  { apply Forall_forall. intros n Hn%elem_of_seqZ. lia. }
  unfold block_stream. destruct (Nat.ltb 1 batch_size).
  - unfold batched_block_stream, chunks. rewrite (proj2 (Nat.eqb_neq batch_size 0)) by lia.
    rewrite (proj2 (Nat.eqb_neq (batch_size * 10) 0)) by lia. cbn [negb assert mbind comp_bind]. f_equal. rewrite chunks_fmap.
    set (l := seqZ lo (hi - lo + 1)) in *.
    destruct (chunks_loop_concat (length (GetBlockByNumber <$> l)) (batch_size * 10) l ltac:(lia)) as [Hc _]; [by rewrite length_fmap|].
    clearbody l. revert Hc. generalize (chunks_loop (length (GetBlockByNumber <$> l)) (batch_size * 10) l). intros groups <-.
    induction groups as [|ns groups IH]; [done|].
    apply Forall_app in Hin as [Hns Hin]. rewrite fmap_cons. cbn [batched_items concat]. rewrite served_batch by done.
    by rewrite IH, fmap_app.
  - unfold unbatched_block_stream. rewrite (proj2 (Z.leb_le lo hi)) by done. cbn [assert mbind comp_bind]. f_equal.
    apply list_fmap_ext. intros i n Hi. apply served_receipts. rewrite Forall_forall in Hin. apply Hin. by eapply list_elem_of_lookup_2.
Qed.
End Delivery.

Section Equivalence.
Context (try_new : list Field → list ArrayRef → comp string Batch) (coerce_status : Eip658Value → bool).

(** When the node serves every block of a range, the stream is the rows of
    each block in order whatever the size of the batches and whichever way the
    receipts are asked for: batching is an optimisation. *)
Theorem batches_as_single_requests network node lo hi block receipts size size' per_tx per_tx' :
  (0 < size)%nat → (0 < size')%nat → lo <= hi → serves node lo hi block receipts →
  block_stream try_new coerce_status network size per_tx node lo hi = Ok ((λ n, to_rows try_new coerce_status network (block n) (receipts n)) <$> seqZ lo (hi - lo + 1))
  /\ block_stream try_new coerce_status network size' per_tx' node lo hi = block_stream try_new coerce_status network size per_tx node lo hi.
Proof. intros H H' Hle Hs. by rewrite !(served_stream _ _ _ _ node lo hi block receipts). Qed.
End Equivalence.

(** ** Evaluations *)

Module Evaluation.
Import EvmTables.Evaluation.
#[local] Open Scope string_scope.

Definition coerce (s : Eip658Value) : bool := match s with Eip658 b => b | PostState _ => true end.

Definition test_header (n : Z) : Header :=
  mkHeader n 1700000000 [n] [n - 1] [] [] [] [] [] [] 0 None 30000000 42000 [] None None (Some 7) None None None None.
Definition test_tx (h : Z) : RpcTransaction := mkRpcTransaction [h] None 0 (Some 1) 21000 5 [] (Some (true, 1, 2)) 2 9 None None [].
Definition test_log (n i h : Z) : RpcLog := mkRpcLog (Some [n]) (Some n) (Some i) (Some [h]) (Some 0) [] [[1]; [2]] [9].
Definition test_receipt (n i h : Z) (ok : bool) (gas : Z) : Receipt := mkReceipt [h] (Some i) (Eip658 ok) [test_log n i h] gas.

(** Two transactions, the first of which failed. *)
Definition test_block (n : Z) : RpcBlock := mkRpcBlock (test_header n) [test_tx 10; test_tx 11].
Definition test_receipts (n : Z) : list Receipt := [test_receipt n 0 10 false 21000; test_receipt n 1 11 true 42000].

(** The numbers given to the transactions skip the failed ones, those of the
    logs do not: the two columns do not match. [gas_used] is the gas used by
    the block up to the transaction. *)
Example tx_index_of_logs_differs :
  match rpc_to_rows try_new coerce "mainnet" (test_block 5) (test_receipts 5) with
  | Ok [_; logs; txs] =>
      let col t name := read (batch_schema (tb_batch t)) (batch_columns (tb_batch t)) name 0 in
      col txs "tx_hash" = col logs "tx_hash"
      /\ col txs "tx_index" = Some (IntCell (Some 0)) /\ col logs "tx_index" = Some (IntCell (Some 1))
      /\ col txs "gas_used" = Some (IntCell (Some 42000))
  | _ => False
  end.
Proof. by vm_compute. Qed.

(** The receipt of another transaction is noticed, unless it says that the
    transaction failed: then the transaction is dropped. *)
Example failed_receipt_not_checked :
  rpc_to_rows try_new coerce "mainnet" (test_block 5) [test_receipt 5 0 10 false 0; test_receipt 5 1 77 true 0] = Err (TxReceiptHash 5)
  /\ match rpc_to_rows try_new coerce "mainnet" (test_block 5) [test_receipt 5 0 10 false 0; test_receipt 5 1 77 false 0] with
     | Ok [_; _; txs] => batch_rows (tb_batch txs) = 0%nat
     | _ => False
     end.
Proof. by vm_compute. Qed.

(** Past the end, single requests panic and batches yield nothing. *)
Example streams_past_the_end node :
  block_stream try_new coerce "mainnet" 1 true node 6 5 = Panic /\ block_stream try_new coerce "mainnet" 2 true node 6 5 = Ok [].
Proof. done. Qed.

Definition test_node : Node :=
  mkNode (λ n, inr (Some (test_block n)))
    (λ n h, inr (List.find (λ r, bool_decide (p_transaction_hash r = h)) (test_receipts n)))
    (λ n, inr (Some (test_receipts n))) (λ _, None).


Lemma test_node_honest : honest test_node.
Proof. by intros n block [= <-]. Qed.

Lemma evm_blocks_delivered_witness :
  stream_with_retry 1 (attempt_with try_new coerce "mainnet" 2 true (λ _, test_node) 7) 5 = Ok [5; 6; 7].
Proof.
  rewrite (evm_blocks_delivered try_new coerce "mainnet" 2 true (λ _, test_node) 5 7 0 try_new_accepts);
    [done|lia|intros _; exact test_node_honest|lia|unfold u64_max; lia|].
  intros b Hb. assert (b = 5 \/ b = 6 \/ b = 7 \/ b = 8) as [->|[->|[->| ->]]] by lia; by vm_compute.
Defined.

Lemma batches_as_single_requests_witness :
  block_stream try_new coerce "mainnet" 1 false test_node 5 9 = block_stream try_new coerce "mainnet" 3 true test_node 5 9.
Proof.
  apply (batches_as_single_requests try_new coerce "mainnet" test_node 5 9 test_block test_receipts 3 1 true false); [lia..|].
  split; [done|]. intros n _. split_and!; try done. repeat constructor.
Defined.
End Evaluation.
