(* ===== verification/SolanaTables.v ===== *)
(** * SolanaTables

    The tables of Solana datasets (extractors/solana/src/tables): the rows of
    block headers, transactions and messages, and the builders that collect them,
    with lists and structures nested in columns. Their conversion from JSON-RPC
    and from the archives of Old Faithful is in [SolanaRows].

    A string is its bytes and a float its bits. What an archive or a node
    answers is a record of the fields that are used; base-58 is a parameter. A
    [ListBuilder] has the values of the list it is in and those of the lists it
    has closed, a [StructBuilder] a builder per field and the validity bits. *)

From stdpp Require Import base numbers gmap strings option list.
From Stdlib Require Import ZArith Lia.
From S2P Require Import Prelude Ranges BlockRange RawWriter PgTypes PgCopy EvmTables.

#[local] Open Scope string_scope.

(** ** Builders *)

Definition uint8 (xs : slots Z) : ArrayRef := mkArrayRef DataType.UInt8 (PrimitiveArray UInt8Type xs).
Definition int64 (xs : slots Z) : ArrayRef := mkArrayRef DataType.Int64 (PrimitiveArray Int64Type xs).
Definition float64 (xs : slots Z) : ArrayRef := mkArrayRef DataType.Float64 (PrimitiveArray Float64Type xs).
Definition utf8 (xs : slots bytes) : ArrayRef := mkArrayRef DataType.Utf8 (GenericStringArray false xs).

Definition append_null {V} `{Inhabited V} (xs : slots V) : slots V := append_option xs None.

Record ListBuilder (B : Type) := mkListBuilder { values : B; closed : slots B }.
Arguments mkListBuilder {B}.
Arguments values {B}.
Arguments closed {B}.

(** A builder as it is made, and what it finishes as. *)
Class Builder (B : Type) := { new : B; finish : B → ArrayRef }.

Definition set_values {B} (v : B) (b : ListBuilder B) : ListBuilder B := mkListBuilder v (closed b).

(** [ListBuilder::append] *)
Definition list_append `{Builder B} (valid : bool) (b : ListBuilder B) : ListBuilder B :=
  mkListBuilder new (closed b ++ [(valid, values b)]).

(** [for x in xs { b.values()... }], then [b.append(true)]. *)
Definition list_extend `{Builder B} {X} (append : B → X → B) (b : ListBuilder B) (xs : list X) : ListBuilder B :=
  list_append true (set_values (foldl append (values b) xs) b).

Definition list_option `{Builder B} {X} (append : B → X → B) (b : ListBuilder B) (xs : option (list X)) : ListBuilder B :=
  match xs with Some xs => list_extend append b xs | None => list_append false b end.

Definition item_field (t : DataType) : Field := mkField "item" t true.

Definition list_array `{Builder B} (xs : slots B) : ArrayRef :=
  mkArrayRef (DataType.List (item_field (array_type (finish new))))
             (GenericListArray false ((λ s : bool * B, (s.1, array (finish s.2))) <$> xs)).

#[export] Instance list_builder `{Builder B} : Builder (ListBuilder B) :=
  {| new := mkListBuilder new []; finish b := list_array (closed b) |}.

Definition struct_array (fields : list Field) (columns : list ArrayRef) (validity : list bool) : ArrayRef :=
  mkArrayRef (DataType.Struct fields) (StructArray validity (array <$> columns)).

Record UInt8Builder := mkUInt8 { u8 : slots Z }.
Record UInt64Builder := mkUInt64 { u64 : slots Z }.
Record StringBuilder := mkString { str : slots bytes }.

#[export] Instance uint8_builder : Builder UInt8Builder := {| new := mkUInt8 []; finish b := uint8 (u8 b) |}.
#[export] Instance uint64_builder : Builder UInt64Builder := {| new := mkUInt64 []; finish b := uint64 (u64 b) |}.
#[export] Instance string_builder : Builder StringBuilder := {| new := mkString []; finish b := utf8 (str b) |}.

Definition append_u8 (b : UInt8Builder) (v : Z) : UInt8Builder := mkUInt8 (append_value (u8 b) v).
Definition append_u64 (b : UInt64Builder) (v : Z) : UInt64Builder := mkUInt64 (append_value (u64 b) v).
Definition append_str (b : StringBuilder) (v : bytes) : StringBuilder := mkString (append_value (str b) v).

(** ** Rows *)

(** tables/mod.rs *)
Record Instruction := mkInstruction {
  program_id_index : Z; accounts : list Z; data : bytes; stack_height : option Z
}.

(** tables/block_headers.rs *)
Record BlockHeader := mkBlockHeader {
  h_slot : Z; h_parent_slot : Z; h_block_hash : bytes; h_previous_block_hash : bytes;
  h_block_height : option Z; h_block_time : option Z
}.

(** tables/messages.rs *)
Record AddressTableLookup := mkLookup { account_key : bytes; writable_indexes : list Z; readonly_indexes : list Z }.

Record Message := mkMessage {
  m_slot : Z; m_tx_index : Z; num_required_signatures : Z; num_readonly_signed_accounts : Z;
  num_readonly_unsigned_accounts : Z; m_instructions : list Instruction;
  address_table_lookups : option (list AddressTableLookup); account_keys : list bytes; recent_block_hash : bytes
}.

(** tables/transactions.rs *)
Record InnerInstructions := mkInner { index : Z; instructions : list Instruction }.

Record TokenAmount := mkAmount { ui_amount : option Z; decimals : Z; amount : bytes; ui_amount_string : bytes }.

Record TransactionTokenBalance := mkBalance {
  account_index : Z; mint : bytes; ui_token_amount : TokenAmount; owner : option bytes; program_id : option bytes
}.

Inductive RewardType := Fee | Rent | Staking | Voting.

Definition reward_type_display (t : RewardType) : string :=
  match t with Fee => "fee" | Rent => "rent" | Staking => "staking" | Voting => "voting" end.

Definition reward_type_of_i32 (value : Z) : total RewardType :=
  match value with 0 => Ok Fee | 1 => Ok Rent | 2 => Ok Staking | 3 => Ok Voting | _ => Panic end.

Record Reward := mkReward {
  pubkey : bytes; lamports : Z; post_balance : Z; reward_type : option RewardType; commission : option Z
}.

Record LoadedAddresses := mkLoaded { writable : list bytes; readonly : list bytes }.

Inductive ReturnDataEncoding := Base64.
Definition encoding_display (e : ReturnDataEncoding) : string := match e with Base64 => "base64" end.

Record TransactionReturnData := mkReturnData { rd_program_id : bytes; rd_data : bytes; rd_encoding : ReturnDataEncoding }.

Record TransactionStatusMeta := mkMeta {
  status : bool; fee : Z; pre_balances : list Z; post_balances : list Z;
  inner_instructions : option (list InnerInstructions); log_messages : option (list bytes);
  pre_token_balances : option (list TransactionTokenBalance); post_token_balances : option (list TransactionTokenBalance);
  rewards : option (list Reward); loaded_addresses : option LoadedAddresses; return_data : option TransactionReturnData;
  compute_units_consumed : option Z; cost_units : option Z
}.

Record Transaction := mkTransaction {
  t_tx_index : Z; tx_signatures : list bytes; tx_meta : option TransactionStatusMeta; t_slot : Z
}.

(** ** Builders of structures *)

Definition u8_list : DataType := DataType.List (item_field DataType.UInt8).

(** [instruction_builder] and [instruction_dtype] *)
Record InstructionBuilder := mkIB {
  ib_program_id_index : slots Z; ib_accounts : ListBuilder UInt8Builder; ib_data : slots bytes;
  ib_stack_height : slots Z; ib_valid : list bool
}.

Definition instruction_fields : list Field := [
  mkField "program_id_index" DataType.UInt8 false; mkField "accounts" u8_list false;
  mkField "data" DataType.Utf8 false; mkField "stack_height" DataType.UInt32 true
].

#[export] Instance instruction_builder : Builder InstructionBuilder := {|
  new := mkIB [] new [] [] [];
  finish b := struct_array instruction_fields
    [uint8 (ib_program_id_index b); finish (ib_accounts b); utf8 (ib_data b); uint32 (ib_stack_height b)] (ib_valid b)
|}.

Definition append_instruction (b : InstructionBuilder) (i : Instruction) : InstructionBuilder :=
  mkIB (append_value (ib_program_id_index b) (program_id_index i)) (list_extend append_u8 (ib_accounts b) (accounts i))
       (append_value (ib_data b) (data i)) (append_option (ib_stack_height b) (stack_height i)) (ib_valid b ++ [true]).

(** [address_table_lookup_builder] *)
Record LookupBuilder := mkLB {
  kb_account_key : slots bytes; kb_writable : ListBuilder UInt8Builder; kb_readonly : ListBuilder UInt8Builder; kb_valid : list bool
}.

Definition lookup_fields : list Field := [
  mkField "account_key" DataType.Utf8 false; mkField "writable_indexes" u8_list false; mkField "readonly_indexes" u8_list false
].

#[export] Instance lookup_builder : Builder LookupBuilder := {|
  new := mkLB [] new new [];
  finish b := struct_array lookup_fields [utf8 (kb_account_key b); finish (kb_writable b); finish (kb_readonly b)] (kb_valid b)
|}.

Definition append_lookup (b : LookupBuilder) (a : AddressTableLookup) : LookupBuilder :=
  mkLB (append_value (kb_account_key b) (account_key a)) (list_extend append_u8 (kb_writable b) (writable_indexes a))
       (list_extend append_u8 (kb_readonly b) (readonly_indexes a)) (kb_valid b ++ [true]).

(** [inner_instructions_builder] and [inner_instructions_dtype] *)
Record InnerBuilder := mkNB { nb_index : slots Z; nb_instructions : ListBuilder InstructionBuilder; nb_valid : list bool }.

Definition inner_fields : list Field := [
  mkField "index" DataType.UInt8 false;
  mkField "instructions" (DataType.List (item_field (DataType.Struct instruction_fields))) false
].

#[export] Instance inner_builder : Builder InnerBuilder := {|
  new := mkNB [] new [];
  finish b := struct_array inner_fields [uint8 (nb_index b); finish (nb_instructions b)] (nb_valid b)
|}.

Definition append_inner (b : InnerBuilder) (i : InnerInstructions) : InnerBuilder :=
  mkNB (append_value (nb_index b) (index i)) (list_extend append_instruction (nb_instructions b) (instructions i)) (nb_valid b ++ [true]).

(** [ui_token_amount_builder] and [ui_token_amount_dtype] *)
Record AmountBuilder := mkAB {
  ab_ui_amount : slots Z; ab_decimals : slots Z; ab_amount : slots bytes; ab_ui_amount_string : slots bytes; ab_valid : list bool
}.

Definition amount_fields : list Field := [
  mkField "ui_amount" DataType.Float64 true; mkField "decimals" DataType.UInt8 false;
  mkField "amount" DataType.Utf8 false; mkField "ui_amount_string" DataType.Utf8 false
].

#[export] Instance amount_builder : Builder AmountBuilder := {|
  new := mkAB [] [] [] [] [];
  finish b := struct_array amount_fields
    [float64 (ab_ui_amount b); uint8 (ab_decimals b); utf8 (ab_amount b); utf8 (ab_ui_amount_string b)] (ab_valid b)
|}.

Definition append_amount (b : AmountBuilder) (a : TokenAmount) : AmountBuilder :=
  mkAB (append_option (ab_ui_amount b) (ui_amount a)) (append_value (ab_decimals b) (decimals a))
       (append_value (ab_amount b) (amount a)) (append_value (ab_ui_amount_string b) (ui_amount_string a)) (ab_valid b ++ [true]).

(** [token_balances_builder] and [token_balances_dtype] *)
Record BalanceBuilder := mkBB {
  bb_account_index : slots Z; bb_mint : slots bytes; bb_amount : AmountBuilder; bb_owner : slots bytes;
  bb_program_id : slots bytes; bb_valid : list bool
}.

Definition balance_fields : list Field := [
  mkField "account_index" DataType.UInt8 false; mkField "mint" DataType.Utf8 false;
  mkField "ui_token_amount" (DataType.Struct amount_fields) false; mkField "owner" DataType.Utf8 true;
  mkField "program_id" DataType.Utf8 true
].

#[export] Instance balance_builder : Builder BalanceBuilder := {|
  new := mkBB [] [] new [] [] [];
  finish b := struct_array balance_fields
    [uint8 (bb_account_index b); utf8 (bb_mint b); finish (bb_amount b); utf8 (bb_owner b); utf8 (bb_program_id b)] (bb_valid b)
|}.

Definition append_balance (b : BalanceBuilder) (t : TransactionTokenBalance) : BalanceBuilder :=
  mkBB (append_value (bb_account_index b) (account_index t)) (append_value (bb_mint b) (mint t))
       (append_amount (bb_amount b) (ui_token_amount t)) (append_option (bb_owner b) (owner t))
       (append_option (bb_program_id b) (program_id t)) (bb_valid b ++ [true]).

(** [reward_builder] and [reward_dtype] *)
Record RewardBuilder := mkRB {
  rb_pubkey : slots bytes; rb_lamports : slots Z; rb_post_balance : slots Z; rb_reward_type : slots bytes;
  rb_commission : slots Z; rb_valid : list bool
}.

Definition reward_fields : list Field := [
  mkField "pubkey" DataType.Utf8 false; mkField "lamports" DataType.Int64 false; mkField "post_balance" DataType.UInt64 false;
  mkField "reward_type" DataType.Utf8 true; mkField "commission" DataType.UInt8 true
].

#[export] Instance reward_builder : Builder RewardBuilder := {|
  new := mkRB [] [] [] [] [] [];
  finish b := struct_array reward_fields
    [utf8 (rb_pubkey b); int64 (rb_lamports b); uint64 (rb_post_balance b); utf8 (rb_reward_type b); uint8 (rb_commission b)] (rb_valid b)
|}.

Definition append_reward (b : RewardBuilder) (r : Reward) : RewardBuilder :=
  mkRB (append_value (rb_pubkey b) (pubkey r)) (append_value (rb_lamports b) (lamports r))
       (append_value (rb_post_balance b) (post_balance r))
       (append_option (rb_reward_type b) (text_of ∘ reward_type_display <$> reward_type r))
       (append_option (rb_commission b) (commission r)) (rb_valid b ++ [true]).

(** ** Table [block_headers] *)

Definition header_schema : list Field := [
  mkField SPECIAL_BLOCK_NUM DataType.UInt64 false; mkField "slot" DataType.UInt64 false;
  mkField "parent_slot" DataType.UInt64 false; mkField "block_hash" BYTES32_TYPE false;
  mkField "previous_block_hash" BYTES32_TYPE false; mkField "block_height" DataType.UInt64 true;
  mkField "block_time" DataType.Int64 true
].

Record BlockHeaderRowsBuilder := mkHeaderBuilder {
  hb_special_block_num : slots Z; hb_slot : slots Z; hb_parent_slot : slots Z; hb_block_hash : slots bytes;
  hb_previous_block_hash : slots bytes; hb_block_height : slots Z; hb_block_time : slots Z
}.

Definition header_rows_empty : BlockHeaderRowsBuilder := mkHeaderBuilder [] [] [] [] [] [] [].

Definition append_header (b : BlockHeaderRowsBuilder) (h : BlockHeader) : BlockHeaderRowsBuilder :=
  mkHeaderBuilder (append_value (hb_special_block_num b) (h_slot h)) (append_value (hb_slot b) (h_slot h))
    (append_value (hb_parent_slot b) (h_parent_slot h)) (append_value (hb_block_hash b) (h_block_hash h))
    (append_value (hb_previous_block_hash b) (h_previous_block_hash h))
    (append_option (hb_block_height b) (h_block_height h)) (append_option (hb_block_time b) (h_block_time h)).

Definition header_columns (b : BlockHeaderRowsBuilder) : list ArrayRef := [
  uint64 (hb_special_block_num b); uint64 (hb_slot b); uint64 (hb_parent_slot b); bytes32 (hb_block_hash b);
  bytes32 (hb_previous_block_hash b); uint64 (hb_block_height b); int64 (hb_block_time b)
].

Definition header_cells (h : BlockHeader) : list (string * Cell) := [
  (SPECIAL_BLOCK_NUM, IntCell (Some (h_slot h))); ("slot", IntCell (Some (h_slot h)));
  ("parent_slot", IntCell (Some (h_parent_slot h))); ("block_hash", BytesCell (Some (h_block_hash h)));
  ("previous_block_hash", BytesCell (Some (h_previous_block_hash h))); ("block_height", IntCell (h_block_height h));
  ("block_time", IntCell (h_block_time h))
].

#[export] Instance header_table : TableRows BlockHeader BlockHeaderRowsBuilder :=
  {| table_name := "block_headers"; table_schema := header_schema; rows_empty := header_rows_empty;
     append_row := append_header; columns := header_columns; cells := header_cells; row_block_num := h_slot |}.

(** ** Table [messages] *)

Definition message_schema : list Field := [
  mkField SPECIAL_BLOCK_NUM DataType.UInt64 false; mkField "slot" DataType.UInt64 false;
  mkField "tx_index" DataType.UInt32 false; mkField "num_required_signatures" DataType.UInt8 false;
  mkField "num_readonly_signed_accounts" DataType.UInt8 false; mkField "num_readonly_unsigned_accounts" DataType.UInt8 false;
  mkField "instructions" (DataType.List (item_field (DataType.Struct instruction_fields))) false;
  mkField "address_table_lookups" (DataType.List (item_field (DataType.Struct lookup_fields))) true;
  mkField "account_keys" (DataType.List (item_field DataType.Utf8)) false; mkField "recent_block_hash" BYTES32_TYPE false
].

Record MessageRowsBuilder := mkMessageBuilder {
  mb_special_block_num : slots Z; mb_slot : slots Z; mb_tx_index : slots Z; mb_num_required_signatures : slots Z;
  mb_num_readonly_signed_accounts : slots Z; mb_num_readonly_unsigned_accounts : slots Z;
  mb_instructions : ListBuilder InstructionBuilder; mb_address_table_lookups : ListBuilder LookupBuilder;
  mb_account_keys : ListBuilder StringBuilder; mb_recent_block_hash : slots bytes
}.

Definition message_rows_empty : MessageRowsBuilder := mkMessageBuilder [] [] [] [] [] [] new new new [].

Definition append_message (b : MessageRowsBuilder) (m : Message) : MessageRowsBuilder :=
  mkMessageBuilder (append_value (mb_special_block_num b) (m_slot m)) (append_value (mb_slot b) (m_slot m))
    (append_value (mb_tx_index b) (m_tx_index m)) (append_value (mb_num_required_signatures b) (num_required_signatures m))
    (append_value (mb_num_readonly_signed_accounts b) (num_readonly_signed_accounts m))
    (append_value (mb_num_readonly_unsigned_accounts b) (num_readonly_unsigned_accounts m))
    (list_extend append_instruction (mb_instructions b) (m_instructions m))
    (list_option append_lookup (mb_address_table_lookups b) (address_table_lookups m))
    (list_extend append_str (mb_account_keys b) (account_keys m)) (append_value (mb_recent_block_hash b) (recent_block_hash m)).

Definition message_columns (b : MessageRowsBuilder) : list ArrayRef := [
  uint64 (mb_special_block_num b); uint64 (mb_slot b); uint32 (mb_tx_index b); uint8 (mb_num_required_signatures b);
  uint8 (mb_num_readonly_signed_accounts b); uint8 (mb_num_readonly_unsigned_accounts b); finish (mb_instructions b);
  finish (mb_address_table_lookups b); finish (mb_account_keys b); bytes32 (mb_recent_block_hash b)
].

Definition int_cell (v : Z) : Cell := IntCell (Some v).
Definition text_cell (v : bytes) : Cell := TextCell (Some v).
Definition list_cell {X} (f : X → Cell) (l : list X) : Cell := ListCell (Some (f <$> l)).
Definition list_option_cell {X} (f : X → Cell) (l : option (list X)) : Cell := ListCell ((λ l : list X, f <$> l) <$> l).

Definition instruction_cell (i : Instruction) : Cell :=
  StructCell (Some [int_cell (program_id_index i); list_cell int_cell (accounts i); text_cell (data i); IntCell (stack_height i)]).

Definition lookup_cell (a : AddressTableLookup) : Cell :=
  StructCell (Some [text_cell (account_key a); list_cell int_cell (writable_indexes a); list_cell int_cell (readonly_indexes a)]).

Definition message_cells (m : Message) : list (string * Cell) := [
  (SPECIAL_BLOCK_NUM, int_cell (m_slot m)); ("slot", int_cell (m_slot m)); ("tx_index", int_cell (m_tx_index m));
  ("num_required_signatures", int_cell (num_required_signatures m));
  ("num_readonly_signed_accounts", int_cell (num_readonly_signed_accounts m));
  ("num_readonly_unsigned_accounts", int_cell (num_readonly_unsigned_accounts m));
  ("instructions", list_cell instruction_cell (m_instructions m));
  ("address_table_lookups", list_option_cell lookup_cell (address_table_lookups m));
  ("account_keys", list_cell text_cell (account_keys m)); ("recent_block_hash", BytesCell (Some (recent_block_hash m)))
].

#[export] Instance message_table : TableRows Message MessageRowsBuilder :=
  {| table_name := "messages"; table_schema := message_schema; rows_empty := message_rows_empty;
     append_row := append_message; columns := message_columns; cells := message_cells; row_block_num := m_slot |}.

(** ** Table [transactions] *)

Definition utf8_list : DataType := DataType.List (item_field DataType.Utf8).
Definition u64_list : DataType := DataType.List (item_field DataType.UInt64).
Definition token_balances_dtype : DataType := DataType.List (item_field (DataType.Struct balance_fields)).

Definition transaction_schema : list Field := [
  mkField SPECIAL_BLOCK_NUM DataType.UInt64 false; mkField "tx_index" DataType.UInt32 false;
  mkField "tx_signatures" utf8_list false; mkField "status" DataType.Boolean true; mkField "fee" DataType.UInt64 true;
  mkField "pre_balances" u64_list true; mkField "post_balances" u64_list true;
  mkField "inner_instructions" (DataType.List (item_field (DataType.Struct inner_fields))) true;
  mkField "log_messages" utf8_list true; mkField "pre_token_balances" token_balances_dtype true;
  mkField "post_token_balances" token_balances_dtype true;
  mkField "rewards" (DataType.List (item_field (DataType.Struct reward_fields))) true;
  mkField "loaded_addresses_writable" utf8_list true; mkField "loaded_addresses_readonly" utf8_list true;
  mkField "return_data_program_id" DataType.Utf8 true; mkField "return_data" DataType.Utf8 true;
  mkField "return_data_encoding" DataType.Utf8 true; mkField "compute_units_consumed" DataType.UInt64 true;
  mkField "cost_units" DataType.UInt64 true; mkField "slot" DataType.UInt64 false
].

Record TransactionRowsBuilder := mkTransactionBuilder {
  tb_special_block_num : slots Z; tb_tx_index : slots Z; tb_tx_signatures : ListBuilder StringBuilder;
  tb_status : slots bool; tb_fee : slots Z; tb_pre_balances : ListBuilder UInt64Builder;
  tb_post_balances : ListBuilder UInt64Builder; tb_inner_instructions : ListBuilder InnerBuilder;
  tb_log_messages : ListBuilder StringBuilder; tb_pre_token_balances : ListBuilder BalanceBuilder;
  tb_post_token_balances : ListBuilder BalanceBuilder; tb_rewards : ListBuilder RewardBuilder;
  tb_loaded_addresses_writable : ListBuilder StringBuilder; tb_loaded_addresses_readonly : ListBuilder StringBuilder;
  tb_return_data_program_id : slots bytes; tb_return_data : slots bytes; tb_return_data_encoding : slots bytes;
  tb_compute_units_consumed : slots Z; tb_cost_units : slots Z; tb_slot : slots Z
}.

Definition transaction_rows_empty : TransactionRowsBuilder :=
  mkTransactionBuilder [] [] new [] [] new new new new new new new new new [] [] [] [] [] [].

(** The meta data of a transaction, or nulls. *)
Definition append_transaction (b : TransactionRowsBuilder) (t : Transaction) : TransactionRowsBuilder :=
  let special_block_num := append_value (tb_special_block_num b) (t_slot t) in
  let tx_index := append_value (tb_tx_index b) (t_tx_index t) in
  let tx_signatures := list_extend append_str (tb_tx_signatures b) (tx_signatures t) in
  let slot := append_value (tb_slot b) (t_slot t) in
  match tx_meta t with
  | Some m =>
      mkTransactionBuilder special_block_num tx_index tx_signatures
        (append_value (tb_status b) (status m)) (append_value (tb_fee b) (fee m))
        (list_extend append_u64 (tb_pre_balances b) (pre_balances m))
        (list_extend append_u64 (tb_post_balances b) (post_balances m))
        (list_option append_inner (tb_inner_instructions b) (inner_instructions m))
        (list_option append_str (tb_log_messages b) (log_messages m))
        (list_option append_balance (tb_pre_token_balances b) (pre_token_balances m))
        (list_option append_balance (tb_post_token_balances b) (post_token_balances m))
        (list_option append_reward (tb_rewards b) (rewards m))
        (list_option append_str (tb_loaded_addresses_writable b) (writable <$> loaded_addresses m))
        (list_option append_str (tb_loaded_addresses_readonly b) (readonly <$> loaded_addresses m))
        (append_option (tb_return_data_program_id b) (rd_program_id <$> return_data m))
        (append_option (tb_return_data b) (rd_data <$> return_data m))
        (append_option (tb_return_data_encoding b) (text_of ∘ encoding_display ∘ rd_encoding <$> return_data m))
        (append_option (tb_compute_units_consumed b) (compute_units_consumed m))
        (append_option (tb_cost_units b) (cost_units m)) slot
  | None =>
      mkTransactionBuilder special_block_num tx_index tx_signatures
        (append_null (tb_status b)) (append_null (tb_fee b)) (list_append false (tb_pre_balances b))
        (list_append false (tb_post_balances b)) (list_append false (tb_inner_instructions b))
        (list_append false (tb_log_messages b)) (list_append false (tb_pre_token_balances b))
        (list_append false (tb_post_token_balances b)) (list_append false (tb_rewards b))
        (list_append false (tb_loaded_addresses_writable b)) (list_append false (tb_loaded_addresses_readonly b))
        (append_null (tb_return_data_program_id b)) (append_null (tb_return_data b))
        (append_null (tb_return_data_encoding b)) (append_null (tb_compute_units_consumed b))
        (append_null (tb_cost_units b)) slot
  end.

Definition transaction_columns (b : TransactionRowsBuilder) : list ArrayRef := [
  uint64 (tb_special_block_num b); uint32 (tb_tx_index b); finish (tb_tx_signatures b); boolean (tb_status b);
  uint64 (tb_fee b); finish (tb_pre_balances b); finish (tb_post_balances b); finish (tb_inner_instructions b);
  finish (tb_log_messages b); finish (tb_pre_token_balances b); finish (tb_post_token_balances b); finish (tb_rewards b);
  finish (tb_loaded_addresses_writable b); finish (tb_loaded_addresses_readonly b); utf8 (tb_return_data_program_id b);
  utf8 (tb_return_data b); utf8 (tb_return_data_encoding b); uint64 (tb_compute_units_consumed b); uint64 (tb_cost_units b);
  uint64 (tb_slot b)
].

Definition inner_cell (i : InnerInstructions) : Cell :=
  StructCell (Some [int_cell (index i); list_cell instruction_cell (instructions i)]).

Definition amount_cell (a : TokenAmount) : Cell :=
  StructCell (Some [IntCell (ui_amount a); int_cell (decimals a); text_cell (amount a); text_cell (ui_amount_string a)]).

Definition balance_cell (t : TransactionTokenBalance) : Cell :=
  StructCell (Some [int_cell (account_index t); text_cell (mint t); amount_cell (ui_token_amount t); TextCell (owner t); TextCell (program_id t)]).

Definition reward_cell (r : Reward) : Cell :=
  StructCell (Some [text_cell (pubkey r); int_cell (lamports r); int_cell (post_balance r);
                    TextCell (text_of ∘ reward_type_display <$> reward_type r); IntCell (commission r)]).

Definition transaction_cells (t : Transaction) : list (string * Cell) :=
  let m := tx_meta t in [
  (SPECIAL_BLOCK_NUM, int_cell (t_slot t)); ("tx_index", int_cell (t_tx_index t));
  ("tx_signatures", list_cell text_cell (tx_signatures t)); ("status", BoolCell (status <$> m)); ("fee", IntCell (fee <$> m));
  ("pre_balances", list_option_cell int_cell (pre_balances <$> m)); ("post_balances", list_option_cell int_cell (post_balances <$> m));
  ("inner_instructions", list_option_cell inner_cell (m ≫= inner_instructions));
  ("log_messages", list_option_cell text_cell (m ≫= log_messages));
  ("pre_token_balances", list_option_cell balance_cell (m ≫= pre_token_balances));
  ("post_token_balances", list_option_cell balance_cell (m ≫= post_token_balances));
  ("rewards", list_option_cell reward_cell (m ≫= rewards));
  ("loaded_addresses_writable", list_option_cell text_cell (writable <$> (m ≫= loaded_addresses)));
  ("loaded_addresses_readonly", list_option_cell text_cell (readonly <$> (m ≫= loaded_addresses)));
  ("return_data_program_id", TextCell (rd_program_id <$> (m ≫= return_data)));
  ("return_data", TextCell (rd_data <$> (m ≫= return_data)));
  ("return_data_encoding", TextCell (text_of ∘ encoding_display ∘ rd_encoding <$> (m ≫= return_data)));
  ("compute_units_consumed", IntCell (m ≫= compute_units_consumed)); ("cost_units", IntCell (m ≫= cost_units));
  ("slot", int_cell (t_slot t))
].

#[export] Instance transaction_table : TableRows Transaction TransactionRowsBuilder :=
  {| table_name := "transactions"; table_schema := transaction_schema; rows_empty := transaction_rows_empty;
     append_row := append_transaction; columns := transaction_columns; cells := transaction_cells; row_block_num := t_slot |}.

(** ** Shredding

    What is appended to a builder is read back from what it finishes as. *)

#[local] Close Scope string_scope.

Definition held `{Builder B} (b : B) : list Cell := array_cells (array (finish b)).

(** [complete] is what Arrow asserts of the builder when it finishes. *)
Class Shreds {B X : Type} `{Builder B} (append : B → X → B) (cell_of : X → Cell) := {
  complete : B → Prop;
  complete_new : complete new;
  new_held : held (B := B) new = [];
  append_complete b x : complete b → complete (append b x);
  append_held b x : complete b → held (append b x) = held b ++ [cell_of x]
}.
Arguments complete {B X _ append cell_of _}.

Lemma shreds_from `{Shreds B X append cell_of} b xs :
  complete (append := append) b →
  complete (append := append) (foldl append b xs) /\ held (foldl append b xs) = held b ++ (cell_of <$> xs).
Proof.
  revert b. induction xs as [|x xs IH]; intros b Hb; cbn [foldl]; [by rewrite app_nil_r|].
  destruct (IH (append b x)) as [Hc ->]; [by apply append_complete|]. split; [done|].
  rewrite append_held, <- app_assoc by done. done.
Qed.

(** All the values of a list, from an empty builder. *)
Lemma shreds_all `{Shreds B X append cell_of} xs :
  complete (append := append) (foldl append new xs) /\ held (foldl append new xs) = cell_of <$> xs.
Proof. destruct (shreds_from new xs complete_new) as [Hc Hh]. by rewrite new_held in Hh. Qed.

#[export] Instance u8_shreds : Shreds append_u8 int_cell.
Proof. refine {| complete b := True |}; [done|done|done|]. intros b x _. exact (fmap_app (IntCell ∘ nullable) (u8 b) [(true, x)]). Defined.

#[export] Instance u64_shreds : Shreds append_u64 int_cell.
Proof. refine {| complete b := True |}; [done|done|done|]. intros b x _. exact (fmap_app (IntCell ∘ nullable) (u64 b) [(true, x)]). Defined.

#[export] Instance str_shreds : Shreds append_str text_cell.
Proof. refine {| complete b := True |}; [done|done|done|]. intros b x _. exact (fmap_app (TextCell ∘ nullable) (str b) [(true, x)]). Defined.

(** Between two rows no list is open. *)
Definition flushed `{Builder B} (b : ListBuilder B) : Prop := values b = new.

Lemma list_append_held `{Builder B} valid (b : ListBuilder B) :
  held (list_append valid b) = held b ++ [ListCell (if valid : bool then Some (held (values b)) else None)].
Proof. unfold held. cbn. rewrite !fmap_app. by destruct valid. Qed.

Lemma list_extend_held `{Shreds B X append cell_of} (b : ListBuilder B) xs :
  flushed b → held (list_extend append b xs) = held b ++ [list_cell cell_of xs].
Proof.
  intros Hb. unfold list_extend. rewrite list_append_held. unfold list_cell. cbn [values set_values]. rewrite Hb.
  by destruct (shreds_all (append := append) xs) as [_ ->].
Qed.

#[export] Instance list_shreds `{Shreds B X append cell_of} : Shreds (list_extend append) (list_cell cell_of).
Proof. refine {| complete b := flushed b |}; [done|done|done|]. intros b x Hb. by apply list_extend_held. Defined.

(** A row is appended to a structure when a value is appended to each field. *)
Lemma struct_append fields columns columns' row validity :
  Forall (λ c, known (array c) /\ arr_len (array c) = length validity) columns →
  Forall3 (λ c c' v, array_cells (array c') = array_cells (array c) ++ [v]) columns columns' row →
  array_cells (array (struct_array fields columns' (validity ++ [true]))) =
  array_cells (array (struct_array fields columns validity)) ++ [StructCell (Some row)].
Proof.
  intros Hlen Hrow. cbn. apply (struct_cells_snoc _ _ _ _ true).
  - rewrite !Forall_fmap. eapply list.Forall_impl; [exact Hlen|]. intros c [Hk Hl]. cbn. by rewrite cells_length, Hl.
  - clear Hlen. induction Hrow as [|c c' w cs cs' ws Hc _ IH]; [constructor|by constructor].
Qed.

Lemma nulls_snoc {V} (xs : slots V) v : count_nulls xs = 0%nat → count_nulls (append_value xs v) = 0%nat.
Proof. unfold count_nulls, append_value. rewrite filter_app, length_app. intros ->. done. Qed.

Lemma snoc_cells {V} (mk : option V → Cell) (xs : slots V) v : mk ∘ nullable <$> append_value xs v = (mk ∘ nullable <$> xs) ++ [mk (Some v)].
Proof. unfold append_value. by rewrite fmap_app. Qed.

Lemma snoc_option_cells {V} `{Inhabited V} (mk : option V → Cell) (xs : slots V) v :
  mk ∘ nullable <$> append_option xs v = (mk ∘ nullable <$> xs) ++ [mk v].
Proof. unfold append_option. rewrite fmap_app. cbn. by destruct v. Qed.

(** Two parallel structures of builders: what Arrow asserts of the columns. *)
Definition struct_complete (fields : list Field) (validity : list bool) (columns : list ArrayRef) : Prop :=
  Forall2 (fits (length validity)) fields columns /\ Forall (λ c, known (array c)) columns.

Lemma complete_lengths fields validity columns :
  struct_complete fields validity columns → Forall (λ c, known (array c) /\ arr_len (array c) = length validity) columns.
Proof.
  intros [Hf Hk]. induction Hf as [|f c fs cs (_ & _ & Hl) _ IH]; [done|].
  apply list.Forall_cons in Hk as [? ?]. constructor; auto.
Qed.

Lemma list_extend_len `{Builder B} {X} (append : B → X → B) (b : ListBuilder B) xs :
  arr_len (array (finish (list_extend append b xs))) = S (arr_len (array (finish b))).
Proof. cbn. rewrite !length_fmap, length_app. cbn. lia. Qed.

Lemma list_extend_nulls `{Builder B} {X} (append : B → X → B) (b : ListBuilder B) xs :
  null_count (array (finish (list_extend append b xs))) = null_count (array (finish b)).
Proof. cbn. unfold count_nulls. rewrite fmap_app, filter_app, length_app. apply Nat.add_0_r. Qed.

Lemma fits_next n f c c' :
  fits n f c → array_type c' = array_type c → arr_len (array c') = S (arr_len (array c)) →
  (is_nullable f = false → null_count (array c) = 0%nat → null_count (array c') = 0%nat) → fits (S n) f c'.
Proof. intros (Ht & Hn & Hl) Ht' Hl' Hn'. split; [congruence|]. split; [auto|congruence]. Qed.

Ltac inv_struct H fields :=
  let Hf := fresh "Hf" in let Hk := fresh "Hk" in destruct H as [Hf Hk]; unfold fields in Hf;
  repeat match type of Hf with
         | Forall2 _ (_ :: _) (_ :: _) => let Hc := fresh "Hc" in apply Forall2_cons in Hf as [Hc Hf]
         end; clear Hf Hk.

Lemma valid_snoc (validity : list bool) :
  length (filter (λ v, negb v) validity) = 0%nat → length (filter (λ v, negb v) (validity ++ [true])) = 0%nat.
Proof. rewrite filter_app, length_app. intros ->. done. Qed.

Ltac next_field :=
  match goal with
  | H : fits _ ?f _ |- fits _ ?f _ =>
      eapply fits_next;
      [exact H|reflexivity
      |first [apply list_extend_len|cbn; unfold append_value, append_option; rewrite length_app; cbn; lia]
      |first [discriminate|intros _; first [apply nulls_snoc|apply valid_snoc|intros Hz; by rewrite list_extend_nulls]]]
  end.

Ltac next_struct :=
  unfold struct_complete; rewrite length_app, Nat.add_1_r; split;
  [repeat (apply Forall2_cons; split; [next_field|]); constructor|repeat constructor].

Ltac new_struct := split; [repeat (apply Forall2_cons; split; [by repeat split|]); constructor|repeat constructor].

Ltac held_field :=
  first [exact (snoc_cells IntCell _ _)|exact (snoc_cells TextCell _ _)
        |exact (snoc_option_cells IntCell _ _)|exact (snoc_option_cells TextCell _ _)
        |by apply list_extend_held|by apply append_held].

Ltac held_struct Hs fields :=
  refine (struct_append fields _ _ _ _ (complete_lengths _ _ _ Hs) _);
  repeat (apply Forall3_cons; [held_field|]); constructor.

#[export] Instance instruction_shreds : Shreds append_instruction instruction_cell.
Proof.
  refine {| complete b := struct_complete instruction_fields (ib_valid b)
              [uint8 (ib_program_id_index b); finish (ib_accounts b); utf8 (ib_data b); uint32 (ib_stack_height b)]
            /\ flushed (ib_accounts b) |}.
  - split; [new_struct|done].
  - done.
  - intros b x [Hs Hl]. split; [|done]. inv_struct Hs instruction_fields. cbn [append_instruction ib_program_id_index ib_accounts ib_data ib_stack_height ib_valid]. next_struct.
  - intros b x [Hs Hl]. held_struct Hs instruction_fields.
Defined.

#[export] Instance lookup_shreds : Shreds append_lookup lookup_cell.
Proof.
  refine {| complete b := struct_complete lookup_fields (kb_valid b)
              [utf8 (kb_account_key b); finish (kb_writable b); finish (kb_readonly b)]
            /\ flushed (kb_writable b)
            /\ flushed (kb_readonly b) |}.
  - split_and!; [new_struct|done..].
  - done.
  - intros b x (Hs & Hl0 & Hl1). split_and!; [|done..]. inv_struct Hs lookup_fields. cbn [append_lookup kb_account_key kb_writable kb_readonly kb_valid]. next_struct.
  - intros b x (Hs & Hl0 & Hl1). held_struct Hs lookup_fields.
Defined.

#[export] Instance inner_shreds : Shreds append_inner inner_cell.
Proof.
  refine {| complete b := struct_complete inner_fields (nb_valid b)
              [uint8 (nb_index b); finish (nb_instructions b)]
            /\ flushed (nb_instructions b) |}.
  - split_and!; [new_struct|done..].
  - done.
  - intros b x (Hs & Hl0). split_and!; [|done..]. inv_struct Hs inner_fields. cbn [append_inner nb_index nb_instructions nb_valid]. next_struct.
  - intros b x (Hs & Hl0). held_struct Hs inner_fields.
Defined.

#[export] Instance amount_shreds : Shreds append_amount amount_cell.
Proof.
  refine {| complete b := struct_complete amount_fields (ab_valid b) [float64 (ab_ui_amount b); uint8 (ab_decimals b); utf8 (ab_amount b); utf8 (ab_ui_amount_string b)] |}.
  - new_struct.
  - done.
  - intros b x Hs. inv_struct Hs amount_fields. cbn [append_amount ab_ui_amount ab_decimals ab_amount ab_ui_amount_string ab_valid]. next_struct.
  - intros b x Hs. held_struct Hs amount_fields.
Defined.

#[export] Instance balance_shreds : Shreds append_balance balance_cell.
Proof.
  refine {| complete b := struct_complete balance_fields (bb_valid b)
              [uint8 (bb_account_index b); utf8 (bb_mint b); finish (bb_amount b); utf8 (bb_owner b); utf8 (bb_program_id b)]
            /\ complete (append := append_amount) (bb_amount b) |}.
  - split_and!; [new_struct|apply complete_new].
  - done.
  - intros b x (Hs & Hl0). split_and!; [|by apply append_complete]. inv_struct Hs balance_fields. cbn [append_balance bb_account_index bb_mint bb_amount bb_owner bb_program_id bb_valid]. next_struct.
  - intros b x (Hs & Hl0). held_struct Hs balance_fields.
Defined.

#[export] Instance reward_shreds : Shreds append_reward reward_cell.
Proof.
  refine {| complete b := struct_complete reward_fields (rb_valid b) [utf8 (rb_pubkey b); int64 (rb_lamports b); uint64 (rb_post_balance b); utf8 (rb_reward_type b); uint8 (rb_commission b)] |}.
  - new_struct.
  - done.
  - intros b x Hs. inv_struct Hs reward_fields. cbn [append_reward rb_pubkey rb_lamports rb_post_balance rb_reward_type rb_commission rb_valid]. next_struct.
  - intros b x Hs. held_struct Hs reward_fields.
Defined.

(** ** The laws for the tables *)

#[export] Instance header_table_ok : TableRowsOk BlockHeader BlockHeaderRowsBuilder.
Proof. table_ok header_table header_schema header_cells header_columns header_rows_empty. Qed.

(** A column of a builder whose lists are closed between rows. *)
Lemma foldl_column_inv {R B V} (P : B → Prop) (append : B → R → B) (column : B → slots V) (g : R → bool * V) :
  (∀ b r, P b → P (append b r)) → (∀ b r, P b → column (append b r) = column b ++ [g r]) →
  ∀ l b, P b → column (foldl append b l) = column b ++ (g <$> l).
Proof.
  intros HP Hg l. induction l as [|r l IH]; intros b Hb; cbn [foldl]; [by rewrite app_nil_r|].
  rewrite IH by auto. rewrite Hg, <- app_assoc by done. done.
Qed.

(** The slot of a list column: its values, from an empty builder. *)
Definition list_slot `{Builder B} {X} (append : B → X → B) (xs : option (list X)) : bool * B :=
  match xs with Some xs => (true, foldl append new xs) | None => (false, new) end.

Lemma extend_closed `{Builder B} {X} (append : B → X → B) (b : ListBuilder B) xs :
  flushed b → closed (list_extend append b xs) = closed b ++ [list_slot append (Some xs)].
Proof. intros Hb. cbn. by rewrite Hb. Qed.

Lemma option_closed `{Builder B} {X} (append : B → X → B) (b : ListBuilder B) xs :
  flushed b → closed (list_option append b xs) = closed b ++ [list_slot append xs].
Proof. intros Hb. destruct xs; cbn; by rewrite Hb. Qed.

Lemma null_closed `{Builder B} {X} (append : B → X → B) (b : ListBuilder B) :
  flushed b → closed (list_append false b) = closed b ++ [list_slot append None].
Proof. intros Hb. cbn. by rewrite Hb. Qed.

Lemma extend_flushed `{Builder B} {X} (append : B → X → B) (b : ListBuilder B) xs : flushed (list_extend append b xs).
Proof. done. Qed.

Lemma option_flushed `{Builder B} {X} (append : B → X → B) (b : ListBuilder B) xs : flushed (list_option append b xs).
Proof. by destruct xs. Qed.

Lemma list_column_cell `{Shreds B X append cell_of} {R} (f : R → option (list X)) l i row :
  l !! i = Some row →
  cell (array (list_array ((λ r, list_slot append (f r)) <$> l))) i = Some (list_option_cell cell_of (f row)).
Proof.
  intros Hi. unfold list_array. cbn [array]. rewrite cell_list, !list_lookup_fmap, Hi. cbn. do 2 f_equal.
  unfold list_option_cell, list_slot. destruct (f row) as [xs|]; [|done]. cbn. do 2 f_equal. exact (proj2 (shreds_all (append := append) xs)).
Qed.

Lemma list_column_fits `{Builder B} {X R} (append : B → X → B) (f : R → option (list X)) l n nullable t :
  t = array_type (finish (B := B) new) →
  (nullable = false → ∀ r, is_Some (f r)) →
  fits (length l) (mkField n (DataType.List (item_field t)) nullable) (list_array ((λ r, list_slot append (f r)) <$> l)).
Proof.
  intros -> Hf. split; [done|]. split.
  - intros Hn. specialize (Hf Hn). cbn. unfold count_nulls. induction l as [|r l IH]; [done|]. cbn.
    destruct (Hf r) as [xs ->]. cbn. exact IH.
  - cbn. by rewrite !length_fmap.
Qed.

Definition message_flushed (b : MessageRowsBuilder) : Prop :=
  flushed (mb_instructions b) /\ flushed (mb_address_table_lookups b) /\ flushed (mb_account_keys b).

Lemma append_message_flushed b m : message_flushed b → message_flushed (append_message b m).
Proof. intros _. split_and!; [done|apply option_flushed|done]. Qed.

Lemma message_column {V} (column : MessageRowsBuilder → slots V) g l :
  (∀ b m, message_flushed b → column (append_message b m) = column b ++ [g m]) → column message_rows_empty = [] →
  column (foldl append_message message_rows_empty l) = g <$> l.
Proof. intros Hg He. rewrite (foldl_column_inv message_flushed append_message column g append_message_flushed Hg) by done. by rewrite He. Qed.

Lemma message_columns_of (l : list Message) :
  message_columns (foldl append_message message_rows_empty l) = [
    uint64 (slot_value ∘ m_slot <$> l); uint64 (slot_value ∘ m_slot <$> l); uint32 (slot_value ∘ m_tx_index <$> l);
    uint8 (slot_value ∘ num_required_signatures <$> l); uint8 (slot_value ∘ num_readonly_signed_accounts <$> l);
    uint8 (slot_value ∘ num_readonly_unsigned_accounts <$> l);
    list_array ((λ m, list_slot append_instruction (Some (m_instructions m))) <$> l);
    list_array ((λ m, list_slot append_lookup (address_table_lookups m)) <$> l);
    list_array ((λ m, list_slot append_str (Some (account_keys m))) <$> l); bytes32 (slot_value ∘ recent_block_hash <$> l)].
Proof.
  unfold message_columns. cbn [finish list_builder].
  rewrite (message_column (λ b, closed (mb_instructions b)) (λ m, list_slot append_instruction (Some (m_instructions m)))),
    (message_column (λ b, closed (mb_address_table_lookups b)) (λ m, list_slot append_lookup (address_table_lookups m))),
    (message_column (λ b, closed (mb_account_keys b)) (λ m, list_slot append_str (Some (account_keys m)))),
    (message_column mb_special_block_num (slot_value ∘ m_slot)), (message_column mb_slot (slot_value ∘ m_slot)),
    (message_column mb_tx_index (slot_value ∘ m_tx_index)),
    (message_column mb_num_required_signatures (slot_value ∘ num_required_signatures)),
    (message_column mb_num_readonly_signed_accounts (slot_value ∘ num_readonly_signed_accounts)),
    (message_column mb_num_readonly_unsigned_accounts (slot_value ∘ num_readonly_unsigned_accounts)),
    (message_column mb_recent_block_hash (slot_value ∘ recent_block_hash)); try done;
    intros b m (Hi & Ha & Hk); [by apply extend_closed|by apply option_closed|by apply extend_closed].
Qed.

#[global] Arguments list_array : simpl never.
#[global] Arguments list_slot : simpl never.

Ltac fit_any :=
  first [ split; [reflexivity|split; [first [discriminate|intros _; apply nulls_value]|apply length_fmap]]
        | apply list_column_fits; [reflexivity|first [discriminate|intros _ r; by eexists]] ].

Ltac read_any Hi :=
  first [ cbn; rewrite ?cell_boolean, ?cell_primitive, ?cell_decimal, ?cell_binary, ?cell_fixed, ?cell_string, list_lookup_fmap, Hi;
          cbn; unfold nullable; by rewrite ?slot_option_read
        | cbn; by erewrite list_column_cell by exact Hi ].

#[export] Instance message_table_ok : TableRowsOk Message MessageRowsBuilder.
Proof.
  split; intros l; cbv beta iota delta [table_schema columns append_row rows_empty row_block_num message_table];
    rewrite message_columns_of; unfold message_schema.
  - repeat (apply Forall2_cons; split; [fit_any|]). constructor.
  - intros i row name c Hi Hin. cbv beta iota delta [cells message_table message_cells] in Hin.
    repeat (apply elem_of_cons in Hin as [[= -> ->]|Hin]; [read_any Hi|]). by apply elem_of_nil in Hin.
  - reflexivity.
Qed.

Definition transaction_flushed (b : TransactionRowsBuilder) : Prop :=
  flushed (tb_tx_signatures b)
  /\ flushed (tb_pre_balances b)
  /\ flushed (tb_post_balances b)
  /\ flushed (tb_inner_instructions b)
  /\ flushed (tb_log_messages b)
  /\ flushed (tb_pre_token_balances b)
  /\ flushed (tb_post_token_balances b)
  /\ flushed (tb_rewards b)
  /\ flushed (tb_loaded_addresses_writable b)
  /\ flushed (tb_loaded_addresses_readonly b).

Lemma append_transaction_flushed b t : transaction_flushed b → transaction_flushed (append_transaction b t).
Proof. intros _. unfold append_transaction. destruct (tx_meta t); split_and!; first [done|apply option_flushed]. Qed.

Lemma transaction_column {V} (column : TransactionRowsBuilder → slots V) g l :
  (∀ b t, transaction_flushed b → column (append_transaction b t) = column b ++ [g t]) → column transaction_rows_empty = [] →
  column (foldl append_transaction transaction_rows_empty l) = g <$> l.
Proof.
  intros Hg He. rewrite (foldl_column_inv transaction_flushed append_transaction column g append_transaction_flushed Hg); [by rewrite He|].
  by split_and!.
Qed.

Lemma transaction_columns_of (l : list Transaction) :
  transaction_columns (foldl append_transaction transaction_rows_empty l) = [
    uint64 ((λ t, slot_value (t_slot t)) <$> l);
    uint32 ((λ t, slot_value (t_tx_index t)) <$> l);
    list_array ((λ t, list_slot append_str (Some (tx_signatures t))) <$> l);
    boolean ((λ t, slot_option (status <$> tx_meta t)) <$> l);
    uint64 ((λ t, slot_option (fee <$> tx_meta t)) <$> l);
    list_array ((λ t, list_slot append_u64 (pre_balances <$> tx_meta t)) <$> l);
    list_array ((λ t, list_slot append_u64 (post_balances <$> tx_meta t)) <$> l);
    list_array ((λ t, list_slot append_inner (tx_meta t ≫= inner_instructions)) <$> l);
    list_array ((λ t, list_slot append_str (tx_meta t ≫= log_messages)) <$> l);
    list_array ((λ t, list_slot append_balance (tx_meta t ≫= pre_token_balances)) <$> l);
    list_array ((λ t, list_slot append_balance (tx_meta t ≫= post_token_balances)) <$> l);
    list_array ((λ t, list_slot append_reward (tx_meta t ≫= rewards)) <$> l);
    list_array ((λ t, list_slot append_str (writable <$> (tx_meta t ≫= loaded_addresses))) <$> l);
    list_array ((λ t, list_slot append_str (readonly <$> (tx_meta t ≫= loaded_addresses))) <$> l);
    utf8 ((λ t, slot_option (rd_program_id <$> (tx_meta t ≫= return_data))) <$> l);
    utf8 ((λ t, slot_option (rd_data <$> (tx_meta t ≫= return_data))) <$> l);
    utf8 ((λ t, slot_option (text_of ∘ encoding_display ∘ rd_encoding <$> (tx_meta t ≫= return_data))) <$> l);
    uint64 ((λ t, slot_option (tx_meta t ≫= compute_units_consumed)) <$> l);
    uint64 ((λ t, slot_option (tx_meta t ≫= cost_units)) <$> l);
    uint64 ((λ t, slot_value (t_slot t)) <$> l)].
Proof.
  unfold transaction_columns. cbn [finish list_builder].
  rewrite (transaction_column tb_special_block_num (λ t, slot_value (t_slot t))),
    (transaction_column tb_tx_index (λ t, slot_value (t_tx_index t))),
    (transaction_column (λ b, closed (tb_tx_signatures b)) (λ t, list_slot append_str (Some (tx_signatures t)))),
    (transaction_column tb_status (λ t, slot_option (status <$> tx_meta t))),
    (transaction_column tb_fee (λ t, slot_option (fee <$> tx_meta t))),
    (transaction_column (λ b, closed (tb_pre_balances b)) (λ t, list_slot append_u64 (pre_balances <$> tx_meta t))),
    (transaction_column (λ b, closed (tb_post_balances b)) (λ t, list_slot append_u64 (post_balances <$> tx_meta t))),
    (transaction_column (λ b, closed (tb_inner_instructions b)) (λ t, list_slot append_inner (tx_meta t ≫= inner_instructions))),
    (transaction_column (λ b, closed (tb_log_messages b)) (λ t, list_slot append_str (tx_meta t ≫= log_messages))),
    (transaction_column (λ b, closed (tb_pre_token_balances b)) (λ t, list_slot append_balance (tx_meta t ≫= pre_token_balances))),
    (transaction_column (λ b, closed (tb_post_token_balances b)) (λ t, list_slot append_balance (tx_meta t ≫= post_token_balances))),
    (transaction_column (λ b, closed (tb_rewards b)) (λ t, list_slot append_reward (tx_meta t ≫= rewards))),
    (transaction_column (λ b, closed (tb_loaded_addresses_writable b)) (λ t, list_slot append_str (writable <$> (tx_meta t ≫= loaded_addresses)))),
    (transaction_column (λ b, closed (tb_loaded_addresses_readonly b)) (λ t, list_slot append_str (readonly <$> (tx_meta t ≫= loaded_addresses)))),
    (transaction_column tb_return_data_program_id (λ t, slot_option (rd_program_id <$> (tx_meta t ≫= return_data)))),
    (transaction_column tb_return_data (λ t, slot_option (rd_data <$> (tx_meta t ≫= return_data)))),
    (transaction_column tb_return_data_encoding (λ t, slot_option (text_of ∘ encoding_display ∘ rd_encoding <$> (tx_meta t ≫= return_data)))),
    (transaction_column tb_compute_units_consumed (λ t, slot_option (tx_meta t ≫= compute_units_consumed))),
    (transaction_column tb_cost_units (λ t, slot_option (tx_meta t ≫= cost_units))),
    (transaction_column tb_slot (λ t, slot_value (t_slot t)));
    try done; intros b t Hb; unfold append_transaction; destruct (tx_meta t) as [m|]; try done;
    unfold transaction_flushed in Hb; decompose [and] Hb; first [by apply extend_closed|by apply option_closed|by apply null_closed].
Qed.

#[export] Instance transaction_table_ok : TableRowsOk Transaction TransactionRowsBuilder.
Proof.
  split; intros l; cbv beta iota delta [table_schema columns append_row rows_empty row_block_num transaction_table];
    rewrite transaction_columns_of; unfold transaction_schema.
  - repeat (apply Forall2_cons; split; [fit_any|]). constructor.
  - intros i row name c Hi Hin. cbv beta iota zeta delta [cells transaction_table transaction_cells] in Hin.
    repeat (apply elem_of_cons in Hin as [[= -> ->]|Hin]; [read_any Hi|]). by apply elem_of_nil in Hin.
  - reflexivity.
Qed.
