(* ===== verification/SolanaRows.v ===== *)
(** * SolanaRows

    The conversion of Solana blocks to the rows of their tables
    (extractors/solana/src/tables): a block of the JSON-RPC client, a block of
    the archives of Old Faithful, and a slot without a block.

    The types of the client and of the archive are records of the fields that
    are used; [OptionSerializer] is [option]. Base-58 and the check of UTF-8
    are parameters. *)

From stdpp Require Import base numbers gmap strings option list.
From Stdlib Require Import ZArith Lia.
From S2P Require Import Prelude Ranges BlockRange RawWriter PgTypes PgCopy EvmTables SolanaTables.

#[local] Open Scope string_scope.

(** ** Blocks of the JSON-RPC client *)

Record UiCompiledInstruction := mkCompiled {
  ui_program_id_index : Z; ui_accounts : list Z; ui_data : bytes; ui_stack_height : option Z
}.

Inductive UiInstruction := Compiled (i : UiCompiledInstruction) | ParsedInstruction.

Record UiInnerInstructions := mkUiInner { ui_index : Z; ui_instructions : list UiInstruction }.

Record UiTokenAmount := mkUiAmount { uia_ui_amount : option Z; uia_decimals : Z; uia_amount : bytes; uia_ui_amount_string : bytes }.

Record UiTransactionTokenBalance := mkUiBalance {
  uib_account_index : Z; uib_mint : bytes; uib_ui_token_amount : UiTokenAmount; uib_owner : option bytes; uib_program_id : option bytes
}.

Inductive UiRewardType := UiFee | UiRent | UiStaking | UiVoting.

Record UiReward := mkUiReward {
  uir_pubkey : bytes; uir_lamports : Z; uir_post_balance : Z; uir_reward_type : option UiRewardType; uir_commission : option Z
}.

Record UiReturnData := mkUiReturnData { uid_program_id : bytes; uid_data : bytes }.

Record UiTransactionStatusMeta := mkUiMeta {
  uim_err : option string; uim_fee : Z; uim_pre_balances : list Z; uim_post_balances : list Z;
  uim_inner_instructions : option (list UiInnerInstructions); uim_log_messages : option (list bytes);
  uim_pre_token_balances : option (list UiTransactionTokenBalance); uim_post_token_balances : option (list UiTransactionTokenBalance);
  uim_rewards : option (list UiReward); uim_loaded_addresses : option (list bytes * list bytes);
  uim_return_data : option UiReturnData; uim_compute_units_consumed : option Z; uim_cost_units : option Z
}.

Record MessageHeader := mkMessageHeader { mh_required : Z; mh_readonly_signed : Z; mh_readonly_unsigned : Z }.

Record UiAddressTableLookup := mkUiLookup { uil_account_key : bytes; uil_writable : list Z; uil_readonly : list Z }.

Record UiRawMessage := mkUiRaw {
  raw_header : MessageHeader; raw_account_keys : list bytes; raw_recent_blockhash : bytes;
  raw_instructions : list UiCompiledInstruction; raw_lookups : option (list UiAddressTableLookup)
}.

Inductive UiMessage := Raw (m : UiRawMessage) | ParsedMessage.
Record UiTransaction := mkUiTransaction { uit_signatures : list bytes; uit_message : UiMessage }.
Inductive EncodedTransaction := Json (t : UiTransaction) | OtherEncoding.

Record TransactionWithMeta := mkWithMeta { wm_transaction : EncodedTransaction; wm_meta : option UiTransactionStatusMeta }.

Record UiConfirmedBlock := mkConfirmed {
  uc_previous_blockhash : bytes; uc_blockhash : bytes; uc_parent_slot : Z; uc_transactions : option (list TransactionWithMeta);
  uc_block_time : option Z; uc_block_height : option Z
}.

(** ** Blocks of the archive *)

Record OfInstruction := mkOfInstruction { oi_program_id_index : Z; oi_accounts : bytes; oi_data : bytes; oi_stack_height : option Z }.
Record OfInner := mkOfInner { on_index : Z; on_instructions : list OfInstruction }.
Record OfAmount := mkOfAmount { oa_ui_amount : Z; oa_decimals : Z; oa_amount : bytes; oa_ui_amount_string : bytes }.
Record OfBalance := mkOfBalance {
  ob_account_index : Z; ob_mint : bytes; ob_ui_token_amount : option OfAmount; ob_owner : bytes; ob_program_id : bytes
}.
Record OfReward := mkOfReward { or_pubkey : bytes; or_lamports : Z; or_post_balance : Z; or_reward_type : Z; or_commission : bytes }.
Record OfReturnData := mkOfReturnData { od_program_id : bytes; od_data : bytes }.

Record OfMeta := mkOfMeta {
  om_err : option bytes; om_fee : Z; om_pre_balances : list Z; om_post_balances : list Z; om_inner_instructions : list OfInner;
  om_log_messages : list bytes; om_pre_token_balances : list OfBalance; om_post_token_balances : list OfBalance;
  om_rewards : list OfReward; om_loaded_writable : list bytes; om_loaded_readonly : list bytes;
  om_return_data : option OfReturnData; om_compute_units_consumed : option Z; om_cost_units : option Z
}.

Record OfLookup := mkOfLookup { ol_account_key : bytes; ol_writable : list Z; ol_readonly : list Z }.

Record VersionedMessage := mkVersioned {
  vm_header : MessageHeader; vm_account_keys : list bytes; vm_recent_blockhash : bytes;
  vm_instructions : list OfInstruction; vm_lookups : option (list OfLookup)
}.

Record VersionedTransaction := mkVersionedTx { vt_signatures : list bytes; vt_message : VersionedMessage }.

(** [DecodedBlock] (of1_client.rs) *)
Record DecodedBlock := mkDecoded {
  slot : Z; parent_slot : Z; blockhash : bytes; prev_blockhash : bytes; block_height : option Z; blocktime : Z;
  transactions : list VersionedTransaction; transaction_metas : list OfMeta
}.

(** ** Conversions *)

Definition as_u8 (z : Z) : Z := z `mod` 256.
Definition zero_hash : bytes := replicate 32 0.

(** [u8::from_str] *)
Fixpoint parse_digits (acc : Z) (s : bytes) : option Z :=
  match s with
  | [] => Some acc
  | c :: s => if (48 <=? c)%Z && (c <=? 57)%Z
              then let acc := acc * 10 + (c - 48) in if (acc <=? 255)%Z then parse_digits acc s else None
              else None
  end.

Definition parse_u8 (s : bytes) : option Z :=
  match s with
  | [] => None
  | 43 :: [] => None
  | 43 :: s => parse_digits 0 s
  | s => parse_digits 0 s
  end.

Section Convert.
Context (b58_encode : bytes → bytes) (b58_decode : bytes → option bytes) (valid_utf8 : bytes → bool).

(** [String::from_utf8(..).expect(..)] *)
Definition expect_utf8 (b : bytes) : total bytes := if valid_utf8 b then Ok b else Panic.

(** [bs58::decode(..).into_vec().expect(..).try_into().expect(..)] *)
Definition expect_hash (s : bytes) : total bytes :=
  h ← unwrap (b58_decode s); if (length h =? 32)%nat then Ok h else Panic.

(** *** Block headers *)

Definition header_from_of1 (b : DecodedBlock) : BlockHeader :=
  mkBlockHeader (slot b) (parent_slot b) (blockhash b) (prev_blockhash b) (block_height b) (Some (to_i64 (blocktime b))).

Definition header_from_rpc (slot : Z) (b : UiConfirmedBlock) : total BlockHeader :=
  block_hash ← expect_hash (uc_blockhash b);
  previous_block_hash ← expect_hash (uc_previous_blockhash b);
  Ok (mkBlockHeader slot (uc_parent_slot b) block_hash previous_block_hash (uc_block_height b) (uc_block_time b)).

Definition header_empty (slot : Z) : BlockHeader := mkBlockHeader slot 0 zero_hash zero_hash None None.

(** *** Messages *)

Definition message_from_of1 (slot tx_index : Z) (m : VersionedMessage) : Message :=
  mkMessage slot tx_index (mh_required (vm_header m)) (mh_readonly_signed (vm_header m)) (mh_readonly_unsigned (vm_header m))
    ((λ i, mkInstruction (oi_program_id_index i) (oi_accounts i) (b58_encode (oi_data i)) None) <$> vm_instructions m)
    ((λ atls : list OfLookup, (λ a, mkLookup (b58_encode (ol_account_key a)) (ol_writable a) (ol_readonly a)) <$> atls) <$> vm_lookups m)
    (b58_encode <$> vm_account_keys m) (vm_recent_blockhash m).

Definition instruction_from_compiled (c : UiCompiledInstruction) : Instruction :=
  mkInstruction (ui_program_id_index c) (ui_accounts c) (ui_data c) (ui_stack_height c).

Definition message_from_rpc (slot tx_index : Z) (m : UiRawMessage) : total Message :=
  recent ← expect_hash (raw_recent_blockhash m);
  Ok (mkMessage slot tx_index (mh_required (raw_header m)) (mh_readonly_signed (raw_header m)) (mh_readonly_unsigned (raw_header m))
        (instruction_from_compiled <$> raw_instructions m)
        ((λ atls : list UiAddressTableLookup, (λ a, mkLookup (uil_account_key a) (uil_writable a) (uil_readonly a)) <$> atls) <$> raw_lookups m)
        (raw_account_keys m) recent).

(** *** Transactions of the archive *)

Definition balance_from_of1 (b : OfBalance) : TransactionTokenBalance :=
  let ui_token_amount :=
    match ob_ui_token_amount b with
    | Some a => mkAmount (Some (oa_ui_amount a)) (as_u8 (oa_decimals a)) (oa_amount a) (oa_ui_amount_string a)
    | None => mkAmount None 0 [] []
    end in
  mkBalance (as_u8 (ob_account_index b)) (ob_mint b) ui_token_amount (Some (ob_owner b)) (Some (ob_program_id b)).

Definition inner_from_of1 (inner : OfInner) : total InnerInstructions :=
  instructions ← mapM (λ i, d ← expect_utf8 (oi_data i);
                            Ok (mkInstruction (as_u8 (oi_program_id_index i)) (oi_accounts i) d (oi_stack_height i)))
                      (on_instructions inner);
  Ok (mkInner (as_u8 (on_index inner)) instructions).

Definition reward_from_of1 (r : OfReward) : total Reward :=
  t ← reward_type_of_i32 (or_reward_type r);
  c ← unwrap (parse_u8 (or_commission r));
  Ok (mkReward (or_pubkey r) (or_lamports r) (or_post_balance r) (Some t) (Some c)).

(** [impl From<generated::TransactionStatusMeta> for TransactionStatusMeta] *)
Definition meta_from_of1 (m : OfMeta) : total TransactionStatusMeta :=
  inner_instructions ← mapM inner_from_of1 (om_inner_instructions m);
  let pre_token_balances := balance_from_of1 <$> om_pre_token_balances m in
  let post_token_balances := balance_from_of1 <$> om_post_token_balances m in
  rewards ← mapM reward_from_of1 (om_rewards m);
  writable ← mapM expect_utf8 (om_loaded_writable m);
  readonly ← mapM expect_utf8 (om_loaded_readonly m);
  return_data ← match om_return_data m with
                | None => Ok None
                | Some r => p ← expect_utf8 (od_program_id r); d ← expect_utf8 (od_data r); Ok (Some (mkReturnData p d Base64))
                end;
  Ok (mkMeta (bool_decide (is_Some (om_err m))) (om_fee m) (om_pre_balances m) (om_post_balances m) (Some inner_instructions)
        (Some (om_log_messages m)) (Some pre_token_balances) (Some post_token_balances) (Some rewards)
        (Some (mkLoaded writable readonly)) return_data (om_compute_units_consumed m) (om_cost_units m)).

Definition transaction_from_of1 (slot tx_index : Z) (tx : VersionedTransaction) (m : OfMeta) : total Transaction :=
  tx_meta ← meta_from_of1 m;
  Ok (mkTransaction tx_index (b58_encode <$> vt_signatures tx) (Some tx_meta) slot).

(** *** Transactions of JSON-RPC *)

Definition inner_from_rpc (inner : UiInnerInstructions) : total InnerInstructions :=
  instructions ← mapM (λ i, match i with Compiled c => Ok (instruction_from_compiled c) | ParsedInstruction => Panic end)
                      (ui_instructions inner);
  Ok (mkInner (ui_index inner) instructions).

Definition balance_from_rpc (b : UiTransactionTokenBalance) : TransactionTokenBalance :=
  let a := uib_ui_token_amount b in
  mkBalance (uib_account_index b) (uib_mint b)
    (mkAmount (uia_ui_amount a) (uia_decimals a) (uia_amount a) (uia_ui_amount_string a)) (uib_owner b) (uib_program_id b).

Definition reward_type_from_rpc (t : UiRewardType) : RewardType :=
  match t with UiFee => Fee | UiRent => Rent | UiStaking => Staking | UiVoting => Voting end.

Definition reward_from_rpc (r : UiReward) : Reward :=
  mkReward (uir_pubkey r) (uir_lamports r) (uir_post_balance r) (reward_type_from_rpc <$> uir_reward_type r) (uir_commission r).

Definition meta_from_rpc (m : UiTransactionStatusMeta) : total TransactionStatusMeta :=
  inner_instructions ← match uim_inner_instructions m with
                       | None => Ok None
                       | Some inners => l ← mapM inner_from_rpc inners; Ok (Some l)
                       end;
  Ok (mkMeta (bool_decide (uim_err m = None)) (uim_fee m) (uim_pre_balances m) (uim_post_balances m) inner_instructions
        (uim_log_messages m)
        ((λ l : list UiTransactionTokenBalance, balance_from_rpc <$> l) <$> uim_pre_token_balances m)
        ((λ l : list UiTransactionTokenBalance, balance_from_rpc <$> l) <$> uim_post_token_balances m)
        ((λ l : list UiReward, reward_from_rpc <$> l) <$> uim_rewards m)
        ((λ l : list bytes * list bytes, mkLoaded l.1 l.2) <$> uim_loaded_addresses m)
        ((λ r, mkReturnData (uid_program_id r) (uid_data r) Base64) <$> uim_return_data m)
        (uim_compute_units_consumed m) (uim_cost_units m)).

Definition transaction_from_rpc (slot tx_index : Z) (tx : UiTransaction) (m : option UiTransactionStatusMeta) : total Transaction :=
  tx_meta ← match m with None => Ok None | Some m => m' ← meta_from_rpc m; Ok (Some m') end;
  Ok (mkTransaction tx_index (uit_signatures tx) tx_meta slot).

(** ** Rows of a block *)

Inductive ConvertError :=
  | UnexpectedEncoding (slot tx_index : Z)
  | UnexpectedMessage (slot tx_index : Z)
  | ParsedInnerInstruction (slot tx_index : Z)
  | RowsFailed (e : RowsError).

Context (try_new : list Field → list ArrayRef → comp string Batch).

Definition slot_range (slot : Z) (hash : bytes) (network : string) : BlockRange :=
  mkBlockRange (mkRange slot slot) network (from_be hash) None.

Definition table_of {Row B} `{TableRows Row B} (l : list Row) (r : BlockRange) : comp ConvertError TableBatch :=
  comp_map_err RowsFailed (rows_to_table try_new (B := B) l r).

(** The three tables of a block. *)
Definition block_tables (header : BlockHeader) (txs : list Transaction) (messages : list Message) (network : string)
    : comp ConvertError (list TableBatch) :=
  let range := slot_range (h_slot header) (h_block_hash header) network in
  headers_rows ← table_of (B := BlockHeaderRowsBuilder) [header] range;
  transactions_rows ← table_of (B := TransactionRowsBuilder) txs range;
  messages_rows ← table_of (B := MessageRowsBuilder) messages range;
  of_total (raw_dataset_rows [headers_rows; transactions_rows; messages_rows]).

(** [u32::try_from(tx_idx).expect(..)] *)
Definition expect_u32 (n : nat) : total Z := if (Z.of_nat n <? 4294967296)%Z then Ok (Z.of_nat n) else Panic.

Fixpoint of_rows (slot : Z) (idx : nat) (l : list (VersionedTransaction * OfMeta)) : total (list (Transaction * Message)) :=
  match l with
  | [] => Ok []
  | (tx, m) :: l =>
      tx_idx ← expect_u32 idx;
      db_tx ← transaction_from_of1 slot tx_idx tx m;
      rest ← of_rows slot (S idx) l;
      Ok ((db_tx, message_from_of1 slot tx_idx (vt_message tx)) :: rest)
  end.

Definition convert_of_data_to_db_rows (b : DecodedBlock) (network : string) : comp ConvertError (list TableBatch) :=
  rows ← of_total (of_rows (slot b) 0 (zip (transactions b) (transaction_metas b)));
  block_tables (header_from_of1 b) rows.*1 rows.*2 network.

Definition is_parsed (i : UiInstruction) : bool := match i with ParsedInstruction => true | Compiled _ => false end.

Definition found_parsed_instruction (m : option UiTransactionStatusMeta) : bool :=
  match m with
  | Some m => match uim_inner_instructions m with
              | Some inners => existsb (λ inner, existsb is_parsed (ui_instructions inner)) inners
              | None => false
              end
  | None => false
  end.

Fixpoint rpc_rows (slot : Z) (idx : nat) (l : list TransactionWithMeta) : comp ConvertError (list (Transaction * Message)) :=
  match l with
  | [] => Ok []
  | t :: l =>
      match wm_transaction t with
      | OtherEncoding => Err (UnexpectedEncoding slot (Z.of_nat idx))
      | Json tx =>
          match uit_message tx with
          | ParsedMessage => Err (UnexpectedMessage slot (Z.of_nat idx))
          | Raw message =>
              if found_parsed_instruction (wm_meta t) then Err (ParsedInnerInstruction slot (Z.of_nat idx))
              else
                tx_idx ← of_total (expect_u32 idx);
                db_tx ← of_total (transaction_from_rpc slot tx_idx tx (wm_meta t));
                db_message ← of_total (message_from_rpc slot tx_idx message);
                rest ← rpc_rows slot (S idx) l;
                Ok ((db_tx, db_message) :: rest)
          end
      end
  end.

Definition convert_rpc_block_to_db_rows (slot : Z) (b : UiConfirmedBlock) (network : string) : comp ConvertError (list TableBatch) :=
  rows ← rpc_rows slot 0 (default [] (uc_transactions b));
  header ← of_total (header_from_rpc slot b);
  block_tables header rows.*1 rows.*2 network.

(** A skipped slot: two of the three tables. *)
Definition empty_db_rows (slot : Z) (network : string) : comp ConvertError (list TableBatch) :=
  let range := slot_range slot zero_hash network in
  headers_rows ← table_of (B := BlockHeaderRowsBuilder) [header_empty slot] range;
  transactions_rows ← table_of (Row := Transaction) (B := TransactionRowsBuilder) [] range;
  of_total (raw_dataset_rows [headers_rows; transactions_rows]).
End Convert.

(** ** What the conversions give *)

(** Why the transaction at a position is not converted. *)
Definition unsupported (slot : Z) (i : nat) (t : TransactionWithMeta) : option ConvertError :=
  match wm_transaction t with
  | OtherEncoding => Some (UnexpectedEncoding slot (Z.of_nat i))
  | Json tx => match uit_message tx with
               | ParsedMessage => Some (UnexpectedMessage slot (Z.of_nat i))
               | Raw _ => if found_parsed_instruction (wm_meta t) then Some (ParsedInnerInstruction slot (Z.of_nat i)) else None
               end
  end.

(** The base-58 text of 32 bytes. *)
Definition hash_text (b58_decode : bytes → option bytes) (s : bytes) : Prop :=
  ∃ h, b58_decode s = Some h /\ length h = 32%nat.

Definition recent_decodes (b58_decode : bytes → option bytes) (t : TransactionWithMeta) : Prop :=
  match wm_transaction t with
  | Json tx => match uit_message tx with Raw m => hash_text b58_decode (raw_recent_blockhash m) | ParsedMessage => True end
  | OtherEncoding => True
  end.

(** The rows of the transaction at a position. *)
Definition rpc_row (b58_decode : bytes → option bytes) (slot : Z) (i : nat) (t : TransactionWithMeta) (r : Transaction * Message) : Prop :=
  ∃ tx message, wm_transaction t = Json tx /\ uit_message tx = Raw message /\ unsupported slot i t = None
    /\ transaction_from_rpc slot (Z.of_nat i) tx (wm_meta t) = Ok r.1
    /\ message_from_rpc b58_decode slot (Z.of_nat i) message = Ok r.2.

Section ConvertCorrect.
Context (b58_encode : bytes → bytes) (b58_decode : bytes → option bytes) (valid_utf8 : bytes → bool).
Context (try_new : list Field → list ArrayRef → comp string Batch) (Htry : accepts_fitting try_new).

Lemma expect_hash_Ok s h : b58_decode s = Some h → length h = 32%nat → expect_hash b58_decode s = Ok h.
Proof. intros Hs Hh. unfold expect_hash. rewrite Hs. cbn. by rewrite Hh. Qed.

Lemma expect_u32_Ok n : Z.of_nat n < 4294967296 → expect_u32 n = Ok (Z.of_nat n).
Proof. intros Hn. unfold expect_u32. by rewrite (proj2 (Z.ltb_lt _ _) Hn). Qed.

Lemma table_of_rows {Row B} `{TableRowsOk Row B} (l : list Row) (slot : Z) hash network :
  Forall (λ row, row_block_num row = slot) l →
  ∃ t, table_of try_new (B := B) l (slot_range slot hash network) = Ok t
       /\ tb_range t = slot_range slot hash network /\ holds (Row := Row) (B := B) t l.
Proof.
  intros Hl. unfold table_of. pose proof (table_rows_built try_new Htry (B := B) l (slot_range slot hash network) eq_refl) as Hb.
  destruct (rows_to_table _ _ _) as [t|[e|tn []]| |]; try done.
  - exists t. by destruct Hb as (_ & ? & ? & ? & ?).
  - destruct Hb as [(row & Hrow & Hn) Hne]. rewrite list.Forall_forall in Hl. specialize (Hl row Hrow). cbn in Hne. congruence.
Qed.

Lemma block_tables_built header txs messages network :
  Forall (λ t, t_slot t = h_slot header) txs → Forall (λ m, m_slot m = h_slot header) messages →
  ∃ t0 t1 t2, block_tables try_new header txs messages network = Ok [t0; t1; t2]
    /\ Forall (λ t, tb_range t = slot_range (h_slot header) (h_block_hash header) network) [t0; t1; t2]
    /\ holds (Row := BlockHeader) (B := BlockHeaderRowsBuilder) t0 [header]
    /\ holds (Row := Transaction) (B := TransactionRowsBuilder) t1 txs
    /\ holds (Row := Message) (B := MessageRowsBuilder) t2 messages.
Proof.
  intros Ht Hm. unfold block_tables.
  destruct (table_of_rows (B := BlockHeaderRowsBuilder) [header] (h_slot header) (h_block_hash header) network) as (t0 & -> & Hr0 & H0).
  { by constructor. }
  destruct (table_of_rows (B := TransactionRowsBuilder) txs (h_slot header) (h_block_hash header) network) as (t1 & -> & Hr1 & H1); [exact Ht|].
  destruct (table_of_rows (B := MessageRowsBuilder) messages (h_slot header) (h_block_hash header) network) as (t2 & -> & Hr2 & H2); [exact Hm|].
  cbn [mbind comp_bind]. rewrite (raw_dataset_rows_Ok (slot_range (h_slot header) (h_block_hash header) network)) by (by repeat constructor).
  exists t0, t1, t2. split_and!; try done. by repeat constructor.
Qed.

(** A skipped slot has the header of an empty slot and no transactions. *)
Lemma empty_db_rows_built slot network :
  ∃ t0 t1, empty_db_rows try_new slot network = Ok [t0; t1]
    /\ Forall (λ t, tb_range t = slot_range slot zero_hash network) [t0; t1]
    /\ holds (Row := BlockHeader) (B := BlockHeaderRowsBuilder) t0 [header_empty slot]
    /\ holds (Row := Transaction) (B := TransactionRowsBuilder) t1 [].
Proof.
  unfold empty_db_rows.
  destruct (table_of_rows (B := BlockHeaderRowsBuilder) [header_empty slot] slot zero_hash network) as (t0 & -> & Hr0 & H0).
  { by constructor. }
  destruct (table_of_rows (B := TransactionRowsBuilder) [] slot zero_hash network) as (t1 & -> & Hr1 & H1); [constructor|].
  cbn [mbind comp_bind]. rewrite (raw_dataset_rows_Ok (slot_range slot zero_hash network)) by (by repeat constructor).
  exists t0, t1. split_and!; try done. by repeat constructor.
Qed.

(** No parsed instruction reaches the conversion. *)
Lemma inner_from_rpc_Ok inner :
  existsb is_parsed (ui_instructions inner) = false → ∃ i, inner_from_rpc inner = Ok i.
Proof.
  intros Hp. unfold inner_from_rpc.
  destruct (proj2 (mapM_Ok_iff (λ i, match i with Compiled c => Ok (instruction_from_compiled c) | ParsedInstruction => Panic (E := Empty_set) end)
    (ui_instructions inner))) as [k ->]; [|by eexists].
  induction (ui_instructions inner) as [|[c|] l IH]; [constructor|constructor; [by eexists|by apply IH]|done].
Qed.

Lemma transaction_from_rpc_Ok slot i tx m : found_parsed_instruction m = false → ∃ t, transaction_from_rpc slot i tx m = Ok t.
Proof.
  intros Hp. unfold transaction_from_rpc. destruct m as [m|]; [|by eexists]. cbn in Hp. unfold meta_from_rpc.
  destruct (uim_inner_instructions m) as [inners|]; [|by eexists].
  destruct (proj2 (mapM_Ok_iff inner_from_rpc inners)) as [k ->]; [|by eexists].
  apply list.Forall_forall. intros inner Hin. apply inner_from_rpc_Ok. apply not_true_is_false. intros Hx.
  assert (existsb (λ inner, existsb is_parsed (ui_instructions inner)) inners = true) as He; [|by rewrite He in Hp].
  apply existsb_exists. exists inner. split; [by apply list_elem_of_In|done].
Qed.

Lemma transaction_from_rpc_slot slot i tx m t : transaction_from_rpc slot i tx m = Ok t → t_slot t = slot.
Proof. unfold transaction_from_rpc. rewrite bind_Ok. by intros (meta & _ & [= <-]). Qed.

Lemma message_from_rpc_slot slot i m r : message_from_rpc b58_decode slot i m = Ok r → m_slot r = slot.
Proof. unfold message_from_rpc. rewrite bind_Ok. by intros (h & _ & [= <-]). Qed.

Definition indexed_rows {X Y} (P : nat → X → Y → Prop) (l : list X) (k : list Y) : Prop :=
  length k = length l /\ ∀ i x y, l !! i = Some x → k !! i = Some y → P i x y.

Lemma indexed_rows_cons {X Y} (P : nat → X → Y → Prop) x y l k :
  P 0%nat x y → indexed_rows (λ i, P (S i)) l k → indexed_rows P (x :: l) (y :: k).
Proof.
  intros H0 [Hlen Hl]. split; [cbn; lia|]. intros [|i] x' y' Hx Hy; [|exact (Hl i x' y' Hx Hy)].
  cbn in Hx, Hy. congruence.
Qed.

Lemma rpc_rows_spec slot l n :
  Forall (recent_decodes b58_decode) l → Z.of_nat (n + length l) <= 4294967296 →
  match rpc_rows b58_decode slot n l with
  | Ok rows => indexed_rows (λ i, rpc_row b58_decode slot (n + i)) l rows
  | Err e => ∃ i t, l !! i = Some t /\ unsupported slot (n + i) t = Some e
                    /\ ∀ j t', (j < i)%nat → l !! j = Some t' → unsupported slot (n + j) t' = None
  | _ => False
  end.
Proof.
  intros Hl. revert n. induction Hl as [|t l Ht Hl IH]; intros n Hn; cbn [rpc_rows]; [by split|].
  assert (∀ e, unsupported slot n t = Some e →
    ∃ i t', (t :: l) !! i = Some t' /\ unsupported slot (n + i) t' = Some e
            /\ ∀ j t'', (j < i)%nat → (t :: l) !! j = Some t'' → unsupported slot (n + j) t'' = None) as Hfirst.
  { intros e He. exists 0%nat, t. rewrite Nat.add_0_r. split_and!; [done..|lia]. }
  unfold recent_decodes in Ht. unfold unsupported at 1 in Hfirst.
  destruct (wm_transaction t) as [tx|] eqn:Etx; [|by apply Hfirst].
  destruct (uit_message tx) as [message|] eqn:Em; [|by apply Hfirst].
  destruct (found_parsed_instruction (wm_meta t)) eqn:Ep; [by apply Hfirst|]. clear Hfirst. cbn [length] in Hn.
  rewrite expect_u32_Ok by lia. cbn [of_total comp_map_err mbind comp_bind].
  destruct (transaction_from_rpc_Ok slot (Z.of_nat n) tx _ Ep) as [db_tx Hdb]. rewrite Hdb. cbn [of_total comp_map_err mbind comp_bind].
  destruct Ht as (h & Hh & Hlen).
  destruct (message_from_rpc b58_decode slot (Z.of_nat n) message) as [db_message|e| |] eqn:Emsg;
    unfold message_from_rpc in Emsg; rewrite (expect_hash_Ok _ _ Hh Hlen) in Emsg; cbn [mbind comp_bind] in Emsg; try discriminate Emsg.
  cbn [of_total comp_map_err mbind comp_bind].
  assert (unsupported slot n t = None) as Hnone by (unfold unsupported; by rewrite Etx, Em, Ep).
  specialize (IH (S n) ltac:(lia)). destruct (rpc_rows _ _ _ _) as [rows|e| |]; try done.
  - apply indexed_rows_cons.
    + rewrite Nat.add_0_r. exists tx, message. split_and!; try done. unfold message_from_rpc. by rewrite (expect_hash_Ok _ _ Hh Hlen).
    + destruct IH as [? IH]. split; [done|]. intros i x y Hx Hy. rewrite <- Nat.add_succ_comm. by apply IH.
  - destruct IH as (i & t' & Hi & He & Hmin). exists (S i), t'. rewrite <- Nat.add_succ_comm. split_and!; [done..|].
    intros [|j] t'' Hj Hx; [cbn in Hx; injection Hx as <-; by rewrite Nat.add_0_r|]. rewrite <- Nat.add_succ_comm. apply (Hmin j); [lia|done].
Qed.

(** Of each transaction, its row and the row of its message. *)
Lemma rows_of_slot {X} (P : nat → X → Transaction * Message → Prop) (slot : Z) l rows :
  indexed_rows P l rows → (∀ i x r, P i x r → t_slot r.1 = slot /\ m_slot r.2 = slot) →
  Forall (λ t, t_slot t = slot) rows.*1 /\ Forall (λ m, m_slot m = slot) rows.*2.
Proof.
  intros [Hlen Hrows] HP. rewrite !Forall_fmap, <- Forall_and. apply Forall_lookup. intros i r Hi.
  destruct (lookup_lt_is_Some_2 l i) as [x Hx]; [rewrite <- Hlen; by apply lookup_lt_Some in Hi|]. exact (HP i x r (Hrows i x r Hx Hi)).
Qed.

(** The row of a transaction of the archive, by its position. *)
Definition of_row (slot : Z) (i : nat) (p : VersionedTransaction * OfMeta) (r : Transaction * Message) : Prop :=
  transaction_from_of1 b58_encode valid_utf8 slot (Z.of_nat i) p.1 p.2 = Ok r.1
  /\ r.2 = message_from_of1 b58_encode slot (Z.of_nat i) (vt_message p.1).

Lemma transaction_from_of1_slot slot i tx m t : transaction_from_of1 b58_encode valid_utf8 slot i tx m = Ok t → t_slot t = slot.
Proof. unfold transaction_from_of1. rewrite bind_Ok. by intros (meta & _ & [= <-]). Qed.

Lemma of_rows_spec slot l n rows :
  of_rows b58_encode valid_utf8 slot n l = Ok rows → indexed_rows (λ i, of_row slot (n + i)) l rows.
Proof.
  revert n rows. induction l as [|[tx m] l IH]; intros n rows; cbn [of_rows]; [by intros [= <-]|].
  rewrite bind_Ok. intros (tx_idx & Hi & Hr). revert Hr. rewrite bind_Ok. intros (db_tx & Hdb & Hr). revert Hr.
  rewrite bind_Ok. intros (rest & Hrest & [= <-]). unfold expect_u32 in Hi. destruct (Z.ltb _ _); [injection Hi as <-|done].
  specialize (IH _ _ Hrest). apply indexed_rows_cons; [by rewrite Nat.add_0_r|].
  destruct IH as [? IH]. split; [done|]. intros i x y Hx Hy. rewrite <- Nat.add_succ_comm. by apply IH.
Qed.

(** A block of the archive: its three tables, or the panic of a field that is
    not text. *)
Lemma of_block_converted (b : DecodedBlock) network tables :
  convert_of_data_to_db_rows b58_encode valid_utf8 try_new b network = Ok tables →
  ∃ rows t0 t1 t2, tables = [t0; t1; t2]
    /\ indexed_rows (of_row (slot b)) (zip (transactions b) (transaction_metas b)) rows
    /\ Forall (λ t, tb_range t = slot_range (slot b) (blockhash b) network) tables
    /\ holds (Row := BlockHeader) (B := BlockHeaderRowsBuilder) t0 [header_from_of1 b]
    /\ holds (Row := Transaction) (B := TransactionRowsBuilder) t1 rows.*1
    /\ holds (Row := Message) (B := MessageRowsBuilder) t2 rows.*2.
Proof.
  unfold convert_of_data_to_db_rows. rewrite bind_Ok. intros (rows & Hrows & Ht).
  destruct (of_rows _ _ _ _ _) as [rows'|[]| |] eqn:Er; try discriminate Hrows. injection Hrows as ->. apply of_rows_spec in Er.
  destruct (rows_of_slot _ (slot b) _ _ Er) as [H1 H2].
  { intros i p r [H1 H2]. split; [by eapply transaction_from_of1_slot|by rewrite H2]. }
  destruct (block_tables_built (header_from_of1 b) rows.*1 rows.*2 network H1 H2) as (t0 & t1 & t2 & Hb & ? & ? & ? & ?).
  rewrite Hb in Ht. injection Ht as <-. exists rows, t0, t1, t2. by split_and!.
Qed.

(** C13: a block of the node becomes three tables of the range of its slot, with
    the hash of the block and no parent: one header and, for each transaction in
    its order, its row and the row of its message, each read back from the
    tables. Otherwise the error names the first transaction that is not a raw
    one in JSON or has a parsed inner instruction; the conversion never
    panics. *)
Theorem rpc_block_converted slot b network :
  hash_text b58_decode (uc_blockhash b) → hash_text b58_decode (uc_previous_blockhash b) →
  Forall (recent_decodes b58_decode) (default [] (uc_transactions b)) →
  Z.of_nat (length (default [] (uc_transactions b))) <= 4294967296 →
  match convert_rpc_block_to_db_rows b58_decode try_new slot b network with
  | Ok tables =>
      ∃ h ph rows t0 t1 t2, tables = [t0; t1; t2]
        /\ b58_decode (uc_blockhash b) = Some h /\ b58_decode (uc_previous_blockhash b) = Some ph
        /\ indexed_rows (rpc_row b58_decode slot) (default [] (uc_transactions b)) rows
        /\ Forall (λ t, tb_range t = slot_range slot h network) tables
        /\ holds (Row := BlockHeader) (B := BlockHeaderRowsBuilder) t0
             [mkBlockHeader slot (uc_parent_slot b) h ph (uc_block_height b) (uc_block_time b)]
        /\ holds (Row := Transaction) (B := TransactionRowsBuilder) t1 rows.*1
        /\ holds (Row := Message) (B := MessageRowsBuilder) t2 rows.*2
  | Err e =>
      ∃ i t, default [] (uc_transactions b) !! i = Some t /\ unsupported slot i t = Some e
        /\ ∀ j t', (j < i)%nat → default [] (uc_transactions b) !! j = Some t' → unsupported slot j t' = None
  | _ => False
  end.
Proof.
  intros (h & Hh & Hlen) (ph & Hph & Hplen) Hrec Hn. unfold convert_rpc_block_to_db_rows.
  pose proof (rpc_rows_spec slot (default [] (uc_transactions b)) 0 Hrec Hn) as Hrows.
  destruct (rpc_rows _ _ _ _) as [rows|e| |]; try done. cbn [mbind comp_bind Nat.add] in *.
  unfold header_from_rpc. rewrite (expect_hash_Ok _ _ Hh Hlen), (expect_hash_Ok _ _ Hph Hplen).
  cbn [mbind comp_bind of_total comp_map_err].
  destruct (rows_of_slot _ slot _ _ Hrows) as [H1 H2].
  { intros i t r (tx & message & _ & _ & _ & Ht & Hm). split; [by eapply transaction_from_rpc_slot|by eapply message_from_rpc_slot]. }
  destruct (block_tables_built (mkBlockHeader slot (uc_parent_slot b) h ph (uc_block_height b) (uc_block_time b)) rows.*1 rows.*2 network)
    as (t0 & t1 & t2 & -> & ? & ? & ? & ?); [done..|].
  exists h, ph, rows, t0, t1, t2. by split_and!.
Qed.
End ConvertCorrect.

(** ** Evaluations *)

Module Evaluation.

(** Text is the bytes themselves, of the length of a hash; any byte below 128
    is text. *)
Definition b58_decode (s : bytes) : option bytes := if bool_decide (s = []) then None else Some s.
Definition ascii_only (b : bytes) : bool := forallb (λ c, (c <? 128)%Z) b.

Definition hash (n : Z) : bytes := replicate 32 n.
Definition failed_tx : TransactionWithMeta :=
  mkWithMeta (Json (mkUiTransaction [[65]] (Raw (mkUiRaw (mkMessageHeader 1 0 1) [[66]; [67]] (hash 3) [mkCompiled 1 [0] [68] None] None))))
    (Some (mkUiMeta (Some "InstructionError") 5000 [10] [5] None None None None None None None (Some 150) None)).
Definition some_block : UiConfirmedBlock := mkConfirmed (hash 1) (hash 2) 6 (Some [failed_tx]) (Some 1700000000) (Some 5).

Lemma rpc_block_converted_witness :
  match convert_rpc_block_to_db_rows b58_decode EvmTables.Evaluation.try_new 7 some_block "solana" with
  | Ok tables => tb_range <$> tables = replicate 3 (slot_range 7 (hash 2) "solana")
  | _ => False
  end.
Proof.
  pose proof (rpc_block_converted b58_decode EvmTables.Evaluation.try_new EvmTables.Evaluation.try_new_accepts 7 some_block "solana"
    ltac:(by eexists) ltac:(by eexists) ltac:(repeat constructor; by eexists) ltac:(done)) as H.
  destruct (convert_rpc_block_to_db_rows _ _ _ _ _) as [tables|e| |]; [|..|done|done].
  - destruct H as (h & ph & rows & t0 & t1 & t2 & -> & [= <-] & _ & _ & Hr & _).
    decompose_Forall_hyps. cbn. by do 3 f_equal.
  - by destruct H as ([|i] & t & Hi & He & _); [cbn in Hi; injection Hi as <-|].
Defined.

(** The same failed transaction, of the archive: its status is the opposite. *)
Definition failed_meta : OfMeta := mkOfMeta (Some [8]) 5000 [10] [5] [] [] [] [] [] [] [] None (Some 150) None.

Example status_of_failed_transaction :
  status <$> (match meta_from_of1 ascii_only failed_meta with Ok m => Some m | _ => None end) = Some true
  /\ status <$> (match (match wm_meta failed_tx with Some m => meta_from_rpc m | None => Panic end) with Ok m => Some m | _ => None end)
     = Some false.
Proof. done. Qed.

(** Instruction data that is not text panics, and so do voting rewards and
    those without a commission. *)
Example binary_instruction_data : meta_from_of1 ascii_only (mkOfMeta None 0 [] [] [mkOfInner 0 [mkOfInstruction 0 [] [200] None]] [] [] [] [] [] [] None None None) = Panic.
Proof. done. Qed.

Example voting_reward : reward_from_of1 (mkOfReward [65] 1 1 4 [53]) = Panic /\ reward_from_of1 (mkOfReward [65] 1 1 1 []) = Panic.
Proof. done. Qed.

End Evaluation.
