(* ===== verification/SolanaStream.v ===== *)
(** * SolanaStream

    The stream of a Solana dataset (extractors/solana/src/extractor.rs and
    of1_client.rs): the archives of Old Faithful, one file per epoch, read from
    disk or downloaded, and the slots that are left from the JSON-RPC node.

    What the parser of an archive reads is a parameter: the groups of nodes up
    to a block, in the order of the file, with an empty group at its end. A
    stream is the list of what it yields; a panic is its last item, and
    [Err] of the archive its last one too. The downloads and files are functions
    of the epoch. The debug assertions are not modelled; the theorem shows
    that the stream of the archive keeps them. *)

From stdpp Require Import base numbers gmap strings option list sorting.
From Stdlib Require Import ZArith Lia.
From S2P Require Import Prelude Ranges BlockRange RawWriter PgTypes PgCopy EvmTables SolanaTables SolanaRows.

#[local] Open Scope Z_scope.

Definition DEFAULT_SLOTS_PER_EPOCH : Z := 432000.
Definition SOLANA_RPC_GET_BLOCKS_LIMIT : Z := 500000.

(** ** The JSON-RPC client *)

Inductive SolanaClientError := RpcResponseError (code : Z) | OtherClientError.

Definition is_block_missing_err (e : SolanaClientError) : bool :=
  match e with
  | RpcResponseError code => bool_decide (code = -32007 \/ code = -32009)
  | OtherClientError => false
  end.

(** ** The nodes of an archive *)

Abbreviation Cid := bytes.

Record CarBlock := mkCarBlock {
  car_slot : Z; car_entries : list Cid; car_parent_slot : Z; car_block_height : option Z; car_blocktime : Z
}.
Record CarEntry := mkCarEntry { entry_transactions : list Cid; entry_hash : bytes }.
Record CarTransaction := mkCarTransaction { tx_data : bytes; tx_metadata : bytes }.

Inductive CarNode :=
  | BlockNode (block : CarBlock)
  | EpochNode
  | EntryNode (entry : CarEntry)
  | TransactionNode (tx : CarTransaction)
  | OtherNode (kind : Z).

(** An index map of nodes, in the order they were read. *)
Abbreviation Nodes := (list (Cid * CarNode)).

Definition get_node (nodes : Nodes) (cid : Cid) : option CarNode :=
  snd <$> List.find (λ p : Cid * CarNode, bool_decide (p.1 = cid)) nodes.

(** [nodes.pop()] *)
Definition pop_node (nodes : Nodes) : option (CarNode * Nodes) :=
  match rev nodes with [] => None | (_, node) :: nodes => Some (node, rev nodes) end.

Inductive FileDownloadError := DownloadIo | Http (code : Z) | Reqwest.

Inductive ArchiveError :=
  | UnexpectedNode
  | ExpectedEntry (cid : Cid)
  | ExpectedTransaction (cid : Cid)
  | ReadNodes
  | ReassembleFailed
  | DecodeTransactionFailed
  | DecodeMetaFailed
  | Base58Failed
  | FileFailed
  | DownloadFailed (e : FileDownloadError)
  | ParentFailed (e : SolanaClientError).

Record HttpResponse := mkHttpResponse { http_status : Z; http_chunks : list (option bytes) }.

Definition is_success (status : Z) : bool := (200 <=? status) && (status <? 300).

Inductive IoOperation := FileExists | FileCreate | FileWrite | FileOpen.

(** The directory of the archives, by epoch. *)
Abbreviation Directory := (gmap Z bytes).

Section Archive.
(** [Nodes::read_until_block], through a file: [None] is an error *)
Context (read_until_block : bytes → list (option Nodes)).
(** [reassemble_dataframes], bincode and prost *)
Context (reassemble_dataframes : Nodes → bytes → option bytes).
Context (decode_transaction : bytes → option VersionedTransaction) (decode_meta : bytes → option OfMeta).
Context (b58_decode : bytes → option bytes).
Context (get_block : Z → UiConfirmedBlock + SolanaClientError).
Context (io_fails : IoOperation → Z → bool) (http_get : Z → option HttpResponse).

(** One transaction of an entry. *)
Definition read_transaction (nodes : Nodes) (tx_cid : Cid) : comp ArchiveError (VersionedTransaction * OfMeta) :=
  match get_node nodes tx_cid with
  | Some (TransactionNode tx) =>
      tx_df ← ok_or (reassemble_dataframes nodes (tx_data tx)) ReassembleFailed;
      tx_meta_df ← ok_or (reassemble_dataframes nodes (tx_metadata tx)) ReassembleFailed;
      tx ← ok_or (decode_transaction tx_df) DecodeTransactionFailed;
      tx_meta ← ok_or (decode_meta tx_meta_df) DecodeMetaFailed;
      Ok (tx, tx_meta)
  | _ => Err (ExpectedTransaction tx_cid)
  end.

(** The transactions of an entry. *)
Definition read_entry (nodes : Nodes) (entry_cid : Cid) : comp ArchiveError (list (VersionedTransaction * OfMeta)) :=
  match get_node nodes entry_cid with
  | Some (EntryNode entry) => mapM (read_transaction nodes) (entry_transactions entry)
  | _ => Err (ExpectedEntry entry_cid)
  end.

(** The hash of the last entry. *)
Definition last_entry_hash (nodes : Nodes) (entries : list Cid) : comp ArchiveError bytes :=
  last_entry_cid ← unwrap (last entries);
  last_entry_node ← unwrap (get_node nodes last_entry_cid);
  match last_entry_node with
  | EntryNode last_entry => if (length (entry_hash last_entry) =? 32)%nat then Ok (entry_hash last_entry) else Panic
  | _ => Err (ExpectedEntry last_entry_cid)
  end.

(** [read_entire_block], of the nodes up to the next block *)
Definition read_entire_block (nodes : option Nodes) (prev_blockhash : bytes) : comp ArchiveError (option DecodedBlock) :=
  nodes ← ok_or nodes ReadNodes;
  match pop_node nodes with
  | None | Some (EpochNode, _) => Ok None
  | Some (BlockNode block, nodes) =>
      rows ← mapM (read_entry nodes) (car_entries block);
      blockhash ← last_entry_hash nodes (car_entries block);
      Ok (Some (mkDecoded (car_slot block) (car_parent_slot block) blockhash prev_blockhash (car_block_height block)
                  (car_blocktime block) (concat rows).*1 (concat rows).*2))
  | Some _ => Err UnexpectedNode
  end.

(** [download_of1_car_file]: the file is there from the start. *)
Definition download_of1_car_file (epoch : Z) : stm Directory FileDownloadError unit :=
  if io_fails FileCreate epoch then throw DownloadIo
  else
    _ ← modify (<[epoch := []]>);
    match http_get epoch with
    | None => throw Reqwest
    | Some response =>
        if is_success (http_status response) then
          for_each (λ chunk, match chunk with
                             | None => throw Reqwest
                             | Some chunk => if io_fails FileWrite epoch then throw DownloadIo
                                             else modify (alter (λ file : bytes, file ++ chunk) epoch)
                             end) (http_chunks response)
        else throw (Http (http_status response))
    end.

(** The file of an epoch, or [None] when there are no more. *)
Definition epoch_car_file (epoch : Z) : stm Directory ArchiveError (option bytes) :=
  if io_fails FileExists epoch then throw FileFailed
  else
    dir ← gets id;
    found ← match dir !! epoch with
            | Some _ => mret true
            | None => λ dir, match download_of1_car_file epoch dir with
                             | (Err (Http 404), dir) => (Ok false, dir)
                             | (r, dir) => (comp_map_err DownloadFailed (r ≫= λ _, Ok true), dir)
                             end
            end;
    if found : bool then
      dir ← gets id;
      match dir !! epoch with
      | Some file => if io_fails FileOpen epoch then throw FileFailed else mret (Some file)
      | None => throw FileFailed
      end
    else mret None.

Inductive EpochEnd := NextEpoch (prev_blockhash : bytes) | Stopped.

(** The blocks of one file that are in the range, and how its loop ends. *)
Fixpoint read_blocks (start end_ : Z) (groups : list (option Nodes)) (prev_blockhash : bytes)
    : list (comp ArchiveError DecodedBlock) * EpochEnd :=
  match groups with
  | [] => ([], NextEpoch prev_blockhash)
  | nodes :: groups =>
      match read_entire_block nodes prev_blockhash with
      | Ok None => ([], NextEpoch prev_blockhash)
      | Ok (Some block) =>
          if slot block <? start then read_blocks start end_ groups (blockhash block)
          else if end_ <? slot block then ([], Stopped)
          else let '(items, ended) := read_blocks start end_ groups (blockhash block) in (Ok block :: items, ended)
      | Err e => ([Err e], Stopped)
      | Panic => ([Panic], Stopped)
      | OutOfFuel => ([OutOfFuel], Stopped)
      end
  end.

(** The ['epochs] loop. *)
Fixpoint epochs (fuel : nat) (start end_ epoch : Z) (prev_blockhash : bytes) (dir : Directory)
    : list (comp ArchiveError DecodedBlock) :=
  match fuel with
  | O => [OutOfFuel]
  | S fuel =>
      match epoch_car_file epoch dir with
      | (Ok None, _) => []
      | (Ok (Some file), dir) =>
          match read_blocks start end_ (read_until_block file) prev_blockhash with
          | (items, Stopped) => items
          | (items, NextEpoch prev_blockhash) => items ++ epochs fuel start end_ (epoch + 1) prev_blockhash dir
          end
      | (Err e, _) => [Err e]
      | (Panic, _) => [Panic]
      | (OutOfFuel, _) => [OutOfFuel]
      end
  end.

(** The hash of the first block at or before the slot. *)
Fixpoint parent_blockhash (parent_slot : nat) : comp ArchiveError bytes :=
  match get_block (Z.of_nat parent_slot) with
  | inl block =>
      h ← ok_or (b58_decode (uc_blockhash block)) Base58Failed;
      if (length h =? 32)%nat then Ok h else Panic
  | inr e =>
      if is_block_missing_err e then
        match parent_slot with O => Ok zero_hash | S parent_slot => parent_blockhash parent_slot end
      else Err (ParentFailed e)
  end.

Definition initial_prev_blockhash (start : Z) : comp ArchiveError bytes :=
  if start =? 0 then Ok zero_hash else parent_blockhash (Z.to_nat (start - 1)).

(** [of1_client::stream] *)
Definition of1_stream (fuel : nat) (start end_ : Z) (dir : Directory) : list (comp ArchiveError DecodedBlock) :=
  match initial_prev_blockhash start with
  | Ok prev_blockhash => epochs fuel start end_ (start / DEFAULT_SLOTS_PER_EPOCH) prev_blockhash dir
  | Err e => [Err e]
  | Panic => [Panic]
  | OutOfFuel => [OutOfFuel]
  end.
End Archive.

(** ** The stream of slots *)

Inductive SlotError := Convert (e : ConvertError) | Archive (e : ArchiveError) | Rpc (e : SolanaClientError).

Abbreviation SlotItem := (comp SlotError (list TableBatch)).

(** A stream goes on after an item unless making it panicked. *)
Definition emit (item : SlotItem) (rest : list SlotItem) : list SlotItem :=
  match item with Panic => [Panic] | OutOfFuel => [OutOfFuel] | _ => item :: rest end.

Definition emit_all (items rest : list SlotItem) : list SlotItem := foldr emit rest items.

Section Stream.
Context (b58_encode : bytes → bytes) (b58_decode : bytes → option bytes) (valid_utf8 : bytes → bool).
Context (try_new : list Field → list ArrayRef → comp string Batch) (network : string).
Context (get_block : Z → UiConfirmedBlock + SolanaClientError).

Definition empty_item (slot : Z) : SlotItem := comp_map_err Convert (empty_db_rows try_new slot network).

Definition of_item (block : DecodedBlock) : SlotItem :=
  comp_map_err Convert (convert_of_data_to_db_rows b58_encode valid_utf8 try_new block network).

Definition rpc_item (block_num : Z) : SlotItem :=
  match get_block block_num with
  | inl block => comp_map_err Convert (convert_rpc_block_to_db_rows b58_decode try_new block_num block network)
  | inr e => if is_block_missing_err e then empty_item block_num else Err (Rpc e)
  end.

(** [(first..=last).step_by(step)] *)
Definition step_by (step first last : Z) : list Z :=
  (λ i, first + step * i) <$> seqZ 0 (if last <? first then 0 else (last - first) / step + 1).

(** [first..=last] *)
Definition range_inclusive (first last : Z) : list Z := seqZ first (last - first + 1).

(** The blocks of the node, in chunks. *)
Definition rpc_blocks (next end_ : Z) : list Z :=
  chunk_start ← step_by SOLANA_RPC_GET_BLOCKS_LIMIT next end_;
  range_inclusive chunk_start (Z.min (sub64 (add64 chunk_start SOLANA_RPC_GET_BLOCKS_LIMIT) 1) end_).

(** [block_stream_impl]: the loop over the archive, then the node. *)
Fixpoint historical_blocks (end_ expected_next_slot : Z) (historical : list (comp ArchiveError DecodedBlock)) : list SlotItem :=
  match historical with
  | [] => emit_all (rpc_item <$> rpc_blocks expected_next_slot end_) []
  | Err e :: _ => [Err (Archive e)]
  | Panic :: _ => [Panic]
  | OutOfFuel :: _ => [OutOfFuel]
  | Ok block :: historical =>
      let skipped :=
        if slot block =? expected_next_slot then []
        else empty_item <$> seqZ expected_next_slot (Z.min (slot block) end_ - expected_next_slot) in
      emit_all skipped
        (emit (of_item block)
           (if slot block =? end_ then [] else historical_blocks end_ (slot block + 1) historical))
  end.

Definition block_stream_impl (start end_ : Z) (historical : list (comp ArchiveError DecodedBlock)) : list SlotItem :=
  historical_blocks end_ start historical.
End Stream.

(** [latest_block] *)
Definition latest_block (get_block_height : Z + SolanaClientError) : comp SolanaClientError (option Z) :=
  match get_block_height with
  | inl block_height => Ok (Some block_height)
  | inr e => if is_block_missing_err e then Ok None else Err e
  end.

(** [BlockStreamer::block_stream] *)
Definition block_stream (b58_encode : bytes → bytes) (b58_decode : bytes → option bytes) (valid_utf8 : bytes → bool)
    (try_new : list Field → list ArrayRef → comp string Batch) (network : string)
    (get_block : Z → UiConfirmedBlock + SolanaClientError)
    (historical : Z → Z → list (comp ArchiveError DecodedBlock)) (start end_ : Z) : list SlotItem :=
  block_stream_impl b58_encode b58_decode valid_utf8 try_new network get_block start end_ (historical start end_).

(** ** The archive *)

Definition with_prev (prev_blockhash : bytes) (b : DecodedBlock) : DecodedBlock :=
  mkDecoded (slot b) (parent_slot b) (blockhash b) prev_blockhash (block_height b) (blocktime b) (transactions b) (transaction_metas b).

(** Blocks with the hash of the one before. *)
Fixpoint link (prev_blockhash : bytes) (l : list DecodedBlock) : list DecodedBlock :=
  match l with [] => [] | b :: l => with_prev prev_blockhash b :: link (blockhash b) l end.

Definition last_hash (prev_blockhash : bytes) (l : list DecodedBlock) : bytes := default prev_blockhash (blockhash <$> last l).

Definition in_slots (start end_ : Z) (b : DecodedBlock) : bool := (start <=? slot b) && (slot b <=? end_).

(** Slots ascend. *)
Definition ascending (l : list DecodedBlock) : Prop := StronglySorted (λ a b, slot a < slot b) l.

Lemma last_hash_cons prev b l : last_hash prev (b :: l) = last_hash (blockhash b) l.
Proof. unfold last_hash. rewrite last_cons. by destruct (last l). Qed.

Lemma link_app prev l k : link prev (l ++ k) = link prev l ++ link (last_hash prev l) k.
Proof.
  revert prev. induction l as [|b l IH]; intros prev; [done|]. cbn [link app]. by rewrite IH, last_hash_cons.
Qed.

Lemma link_slots prev l : slot <$> link prev l = slot <$> l.
Proof. revert prev. induction l as [|b l IH]; intros prev; [done|]. cbn. by rewrite IH. Qed.

Lemma filter_above start end_ prev l :
  Forall (λ b, end_ < slot b) l → List.filter (in_slots start end_) (link prev l) = [].
Proof.
  intros H. revert prev. induction H as [|b l Hb _ IH]; intros prev; [done|]. cbn [link List.filter].
  unfold in_slots at 1. cbn [slot with_prev]. rewrite (proj2 (Z.leb_gt (slot b) end_)) by lia. rewrite andb_false_r. apply IH.
Qed.

Lemma ascending_slots l k : slot <$> l = slot <$> k → ascending l → ascending k.
Proof.
  revert k. induction l as [|b l IH]; intros [|c k] Hs Hasc; try discriminate Hs; [constructor|].
  injection Hs as Hbc Hs. apply StronglySorted_inv in Hasc as [Hasc Hb]. constructor; [by apply IH|].
  assert (Forall (λ n, slot b < n) (slot <$> l)) as Hl by (by apply Forall_fmap). rewrite (Hs : slot <$> l = slot <$> k), Hbc in Hl. exact (proj1 (Forall_fmap slot _ k) Hl).
Qed.

Lemma ascending_link prev l : ascending l → ascending (link prev l).
Proof. apply ascending_slots. by rewrite link_slots. Qed.

Lemma ascending_filter f l : ascending l → ascending (List.filter f l).
Proof.
  induction 1 as [|b l _ IH Hb]; cbn [List.filter]; [constructor|]. destruct (f b); [|done]. constructor; [done|].
  rewrite list.Forall_forall in *. intros c [Hc _]%list_elem_of_In%List.filter_In. apply Hb. by apply list_elem_of_In.
Qed.

Section ArchiveCorrect.
Context (read_until_block : bytes → list (option Nodes)) (reassemble_dataframes : Nodes → bytes → option bytes).
Context (decode_transaction : bytes → option VersionedTransaction) (decode_meta : bytes → option OfMeta).
Context (io_fails : IoOperation → Z → bool) (http_get : Z → option HttpResponse).

Abbreviation read := (read_entire_block reassemble_dataframes decode_transaction decode_meta).

(** The blocks of a file. *)
Fixpoint car_blocks (groups : list (option Nodes)) : comp ArchiveError (list DecodedBlock) :=
  match groups with
  | [] => Ok []
  | nodes :: groups =>
      b ← read nodes zero_hash;
      match b with None => Ok [] | Some b => rest ← car_blocks groups; Ok (b :: rest) end
  end.

(** The hash given to a block is the only thing that depends on it. *)
Lemma read_linked nodes prev : read nodes prev = (b ← read nodes zero_hash; Ok (option_map (with_prev prev) b)).
Proof.
  unfold read_entire_block. destruct nodes as [nodes|]; [|done]. cbn [ok_or mbind comp_bind].
  destruct (pop_node nodes) as [[[] ?]|]; [|done..].
  destruct (mapM _ _) as [rows| | |]; [|done..]. cbn [mbind comp_bind]. by destruct (last_entry_hash _ _).
Qed.

Lemma read_blocks_spec start end_ groups prev l :
  car_blocks groups = Ok l → ascending l →
  read_blocks reassemble_dataframes decode_transaction decode_meta start end_ groups prev =
  (Ok <$> List.filter (in_slots start end_) (link prev l),
   if existsb (λ b, (start <=? slot b) && (end_ <? slot b)) l then Stopped else NextEpoch (last_hash prev l)).
Proof.
  revert prev l. induction groups as [|nodes groups IH]; intros prev l; cbn [car_blocks read_blocks]; [by intros [= <-]|].
  rewrite (read_linked nodes prev), bind_Ok. intros (b & Hb & Hl) Hasc. rewrite Hb. cbn [mbind comp_bind].
  destruct b as [b|]; [|by injection Hl as <-]. cbn [option_map].
  apply bind_Ok in Hl as (rest & Hrest & [= <-]). apply StronglySorted_inv in Hasc as [Hasc Hb_first].
  cbn [slot with_prev link List.filter existsb blockhash]. unfold in_slots at 1. cbn [slot with_prev].
  rewrite last_hash_cons.
  destruct (Z.ltb_spec (slot b) start).
  { rewrite (proj2 (Z.leb_gt start (slot b))) by lia. cbn [andb orb]. by apply IH. }
  rewrite (proj2 (Z.leb_le start (slot b))) by lia. cbn [andb].
  destruct (Z.ltb_spec end_ (slot b)).
  - rewrite (proj2 (Z.leb_gt (slot b) end_)) by lia. cbn [orb]. rewrite filter_above; [done|].
    eapply list.Forall_impl; [exact Hb_first|]. cbn. lia.
  - rewrite (proj2 (Z.leb_le (slot b) end_)) by lia. cbn [orb]. by rewrite (IH (blockhash b) rest Hrest Hasc).
Qed.
(** *** The files *)

(** The archive of each epoch, or [None] when there is none yet. *)
Context (archive : Z → option bytes).

(** The server sends the archives, and 404 for what it does not have. *)
Definition serves_archives : Prop := ∀ epoch,
  match archive epoch with
  | Some file => ∃ status chunks, http_get epoch = Some (mkHttpResponse status (Some <$> chunks)) /\ is_success status = true /\ concat chunks = file
  | None => ∃ chunks, http_get epoch = Some (mkHttpResponse 404 chunks)
  end.

(** The files on disk are whole. *)
Definition whole_files (dir : Directory) : Prop := ∀ epoch file, dir !! epoch = Some file → archive epoch = Some file.

Context (Hio : ∀ op epoch, io_fails op epoch = false) (Hserves : serves_archives).

Abbreviation write_chunk epoch := (λ chunk, match chunk with
  | None => throw (S := Directory) Reqwest
  | Some chunk => if io_fails FileWrite epoch then throw DownloadIo else modify (alter (λ file : bytes, file ++ chunk) epoch)
  end).

Lemma write_chunks epoch chunks dir file :
  dir !! epoch = Some file →
  ∃ dir', for_each (write_chunk epoch) (Some <$> chunks) dir = (Ok tt, dir')
          /\ dir' !! epoch = Some (file ++ concat chunks) /\ ∀ e, e ≠ epoch → dir' !! e = dir !! e.
Proof.
  revert dir file. induction chunks as [|chunk chunks IH]; intros dir file Hfile; cbn [fmap list_fmap for_each concat].
  { exists dir. by rewrite app_nil_r. }
  rewrite Hio. cbn [mbind stm_bind modify].
  destruct (IH (alter (λ file : bytes, file ++ chunk) epoch dir) (file ++ chunk)) as (dir' & Hrun & Hdir' & Hother).
  { by rewrite lookup_alter_eq, Hfile. }
  exists dir'. split; [rewrite Hio in Hrun; exact Hrun|]. rewrite <- app_assoc in Hdir'. split; [done|].
  intros e He. by rewrite Hother, lookup_alter_ne by done.
Qed.

Lemma downloaded epoch file dir :
  archive epoch = Some file → whole_files dir →
  ∃ dir', download_of1_car_file io_fails http_get epoch dir = (Ok tt, dir') /\ dir' !! epoch = Some file /\ whole_files dir'.
Proof.
  intros Hfile Hdir. unfold download_of1_car_file. rewrite Hio. cbn [mbind stm_bind modify].
  pose proof (Hserves epoch) as Hs. rewrite Hfile in Hs. destruct Hs as (status & chunks & -> & Hok & <-). cbn [http_status http_chunks]. rewrite Hok.
  destruct (write_chunks epoch chunks (<[epoch := []]> dir) []) as (dir' & Hrun & Hdir' & Hother); [by rewrite lookup_insert_eq|].
  exists dir'. split; [exact Hrun|]. split; [done|]. intros e f He. destruct (decide (e = epoch)) as [->|Hne].
  - cbn [app] in Hdir'. congruence.
  - rewrite Hother, lookup_insert_ne in He by done. by apply Hdir.
Qed.

Lemma epoch_car_file_spec epoch dir :
  whole_files dir →
  ∃ dir', epoch_car_file io_fails http_get epoch dir = (Ok (archive epoch), dir') /\ (archive epoch ≠ None → whole_files dir').
Proof.
  intros Hdir. unfold epoch_car_file. rewrite !Hio. cbv beta iota zeta delta [mbind stm_bind gets mret stm_ret id].
  destruct (dir !! epoch) as [file|] eqn:Ed.
  - rewrite Ed, (Hdir _ _ Ed). by exists dir.
  - destruct (archive epoch) as [file|] eqn:Ea.
    + destruct (downloaded epoch file dir Ea Hdir) as (dir' & -> & Hf & Hdir'). cbn. rewrite Hf. by exists dir'.
    + pose proof (Hserves epoch) as Hs. rewrite Ea in Hs. destruct Hs as [chunks Hget].
      unfold download_of1_car_file. rewrite Hio, Hget. cbn. by eexists.
Qed.

(** *** The blocks of the epochs *)

(** The epochs from the first one that have an archive, and their blocks. *)
Definition archive_holds (epoch : Z) (blocks : list (list DecodedBlock)) : Prop :=
  (∀ i l, blocks !! i = Some l → ∃ file, archive (epoch + Z.of_nat i) = Some file /\ car_blocks (read_until_block file) = Ok l)
  /\ archive (epoch + Z.of_nat (length blocks)) = None.

Lemma ascending_app l k : ascending (l ++ k) → ascending l /\ ascending k /\ ∀ a b, a ∈ l → b ∈ k → slot a < slot b.
Proof.
  induction l as [|b l IH]; cbn [app]; intros Hasc.
  { split_and!; [constructor|done|]. by intros a b Ha%elem_of_nil. }
  apply StronglySorted_inv in Hasc as [Hasc Hb]. apply Forall_app in Hb as [Hl Hk]. destruct (IH Hasc) as (? & ? & Hlk). split_and!; [by constructor|done|].
  intros a c [->|Ha]%elem_of_cons Hc; [|by apply Hlk]. rewrite list.Forall_forall in Hk. by apply Hk.
Qed.

Lemma filter_app' {A} (f : A → bool) l k : List.filter f (l ++ k) = List.filter f l ++ List.filter f k.
Proof. induction l as [|x l IH]; [done|]. cbn. rewrite IH. by destruct (f x). Qed.

Lemma epochs_spec start end_ blocks fuel epoch prev dir :
  whole_files dir → archive_holds epoch blocks → ascending (concat blocks) → (length blocks < fuel)%nat →
  epochs read_until_block reassemble_dataframes decode_transaction decode_meta io_fails http_get fuel start end_ epoch prev dir
  = Ok <$> List.filter (in_slots start end_) (link prev (concat blocks)).
Proof.
  revert fuel epoch prev dir. induction blocks as [|l blocks IH]; intros [|fuel] epoch prev dir Hdir [Hb He] Hasc Hfuel; try (cbn in Hfuel; lia);
    cbn [epochs]; destruct (epoch_car_file_spec epoch dir Hdir) as (dir' & -> & Hdir').
  { cbn in He. rewrite Z.add_0_r in He. by rewrite He. }
  destruct (Hb 0%nat l eq_refl) as (file & Hfile & Hl). rewrite Z.add_0_r in Hfile. rewrite Hfile in *.
  cbn [concat] in Hasc |- *. apply ascending_app in Hasc as (Hasc & Hasc' & Hlt).
  rewrite (read_blocks_spec start end_ _ prev l Hl Hasc).
  rewrite link_app, filter_app', fmap_app. destruct (existsb _ l) eqn:Ex.
  - apply existsb_exists in Ex as (b & Hin%list_elem_of_In & Hslot). rewrite andb_true_iff, Z.ltb_lt in Hslot. rewrite (filter_above start end_ (last_hash prev l)); [by cbn [fmap list_fmap]; rewrite app_nil_r|].
    apply list.Forall_forall. intros c Hc. specialize (Hlt b c Hin Hc). lia.
  - f_equal. apply IH; [by apply Hdir'| |done|cbn in Hfuel; lia]. split.
    + intros i k Hi. destruct (Hb (S i) k Hi) as (f & Hf & Hk). exists f. split; [|done]. rewrite <- Hf. f_equal. lia.
    + rewrite <- He. cbn [length]. f_equal. lia.
Qed.
End ArchiveCorrect.

(** ** The slots of a range *)

Section StreamCorrect.
Context (b58_encode : bytes → bytes) (b58_decode : bytes → option bytes) (valid_utf8 : bytes → bool).
Context (try_new : list Field → list ArrayRef → comp string Batch) (network : string).
Context (get_block : Z → UiConfirmedBlock + SolanaClientError).

Abbreviation to_of_item := (of_item b58_encode valid_utf8 try_new network).
Abbreviation to_empty_item := (empty_item try_new network).
Abbreviation to_rpc_item := (rpc_item b58_decode try_new network get_block).

(** What is expected at a slot, given the blocks of the archive: its block, an
    empty one before the last of them, or what the node answers. *)
Definition slot_item (blocks : list DecodedBlock) (s : Z) : SlotItem :=
  match List.find (λ b, slot b =? s) blocks with
  | Some b => to_of_item b
  | None => if existsb (λ b, s <? slot b) blocks then to_empty_item s else to_rpc_item s
  end.

Lemma emit_all_app l k rest : emit_all (l ++ k) rest = emit_all l (emit_all k rest).
Proof. apply foldr_app. Qed.

Lemma seqZ_split a b c : a <= b → b <= c → seqZ a (c - a) = seqZ a (b - a) ++ seqZ b (c - b).
Proof. intros H1 H2. replace (c - a) with ((b - a) + (c - b)) by lia. rewrite seqZ_app by lia. do 2 f_equal; lia. Qed.

Lemma list_bind_ext_in {A B} (f g : A → list B) l : (∀ x, x ∈ l → f x = g x) → l ≫= f = l ≫= g.
Proof.
  induction l as [|x l IH]; intros H; [done|]. rewrite !bind_cons, IH by (intros y Hy; apply H; by right). by rewrite H by left.
Qed.

(** The chunks are the range. *)
Lemma chunks_range step first last_ n :
  0 < step → first <= last_ → 0 <= n →
  (i ← seqZ 0 n; range_inclusive (first + step * i) (Z.min (first + step * i + step - 1) last_))
  = seqZ first (Z.min (step * n) (last_ - first + 1)).
Proof.
  intros Hs Hle Hn. pattern n. revert n Hn. apply natlike_ind.
  { rewrite Z.mul_0_r, Z.min_l by lia. done. }
  intros n Hn IH. unfold Z.succ. rewrite (seqZ_app 0 n 1) by lia. rewrite bind_app, IH.
  change (seqZ (0 + n) 1) with [0 + n]. cbn [mbind list_bind]. rewrite app_nil_r, Z.add_0_l. unfold range_inclusive.
  destruct (Z.le_gt_cases (step * n) (last_ - first + 1)) as [Hb|Hb].
  - rewrite (Z.min_l (step * n) (last_ - first + 1)) by lia.
    destruct (Z.le_gt_cases (first + step * n) last_) as [Hin|Hin].
    + rewrite <- seqZ_app by nia. f_equal. lia.
    + rewrite (seqZ_nil (first + step * n)) by lia. rewrite app_nil_r. f_equal. lia.
  - rewrite (Z.min_r (step * n) (last_ - first + 1)), (seqZ_nil (first + step * n)) by lia. rewrite app_nil_r. f_equal. lia.
Qed.

Lemma rpc_blocks_range next end_ :
  0 <= next <= end_ → end_ + SOLANA_RPC_GET_BLOCKS_LIMIT <= u64_max → rpc_blocks next end_ = seqZ next (end_ - next + 1).
Proof.
  intros Hn He. unfold rpc_blocks, step_by. rewrite (proj2 (Z.ltb_ge end_ next)) by lia. unfold SOLANA_RPC_GET_BLOCKS_LIMIT in *.
  set (n := (end_ - next) / 500000 + 1). assert (0 <= (end_ - next) / 500000) by (apply Z.div_pos; lia).
  pose proof (Z.div_mod (end_ - next) 500000 ltac:(done)). pose proof (Z.mod_pos_bound (end_ - next) 500000 ltac:(done)).
  transitivity (i ← seqZ 0 n; range_inclusive (next + 500000 * i) (Z.min (next + 500000 * i + 500000 - 1) end_)).
  - rewrite list_fmap_bind. apply list_bind_ext_in. intros i Hi%elem_of_seqZ. cbn.
    rewrite add64_small, sub64_small by (unfold is_u64, u64_max in *; subst n; nia). done.
  - rewrite chunks_range by lia. f_equal. subst n. nia.
Qed.

Lemma slot_item_before b l s : s < slot b → ascending (b :: l) → slot_item (b :: l) s = to_empty_item s.
Proof.
  intros Hs [Hasc Hl]%StronglySorted_inv. unfold slot_item. cbn [List.find existsb].
  rewrite (proj2 (Z.eqb_neq (slot b) s)), (proj2 (Z.ltb_lt s (slot b))) by lia. cbn [orb].
  destruct (List.find _ l) as [c|] eqn:Ef; [|done]. apply List.find_some in Ef as [Hc%list_elem_of_In Hslot%Z.eqb_eq].
  rewrite list.Forall_forall in Hl. specialize (Hl c Hc). lia.
Qed.

Lemma slot_item_at b l : slot_item (b :: l) (slot b) = to_of_item b.
Proof. unfold slot_item. cbn [List.find]. by rewrite Z.eqb_refl. Qed.

Lemma slot_item_after b l s : slot b < s → slot_item (b :: l) s = slot_item l s.
Proof.
  intros Hs. unfold slot_item. cbn [List.find existsb].
  by rewrite (proj2 (Z.eqb_neq (slot b) s)), (proj2 (Z.ltb_ge s (slot b))) by lia.
Qed.

Lemma fmap_seqZ_ext {A} (f g : Z → A) a n : (∀ s, a <= s < a + n → f s = g s) → f <$> seqZ a n = g <$> seqZ a n.
Proof. intros H. apply list_fmap_ext. intros i s Hs. apply list_elem_of_lookup_2, elem_of_seqZ in Hs. auto. Qed.

Lemma historical_blocks_spec end_ blocks next :
  0 <= next <= end_ → end_ + SOLANA_RPC_GET_BLOCKS_LIMIT <= u64_max → ascending blocks → Forall (λ b, next <= slot b <= end_) blocks →
  historical_blocks b58_encode b58_decode valid_utf8 try_new network get_block end_ next (Ok <$> blocks)
  = emit_all (slot_item blocks <$> seqZ next (end_ - next + 1)) [].
Proof.
  revert next. induction blocks as [|b l IH]; intros next Hn He Hasc Hin; cbn [fmap list_fmap historical_blocks].
  { by rewrite rpc_blocks_range. }
  apply Forall_cons in Hin as [Hb Hin]. pose proof Hasc as [Hasc' Hlt]%StronglySorted_inv.
  replace (end_ - next + 1) with ((end_ + 1) - next) by lia. rewrite (seqZ_split next (slot b) (end_ + 1)) by lia.
  rewrite (seqZ_split (slot b) (slot b + 1) (end_ + 1)) by lia. replace (slot b + 1 - slot b) with 1 by lia.
  change (seqZ (slot b) 1) with [slot b]. rewrite !fmap_app, !emit_all_app. cbn [fmap list_fmap]. rewrite slot_item_at.
  rewrite (fmap_seqZ_ext (slot_item (b :: l)) to_empty_item next) by (intros s Hs; apply slot_item_before; [lia|done]).
  rewrite Z.min_l by lia. f_equal.
  { destruct (Z.eqb_spec (slot b) next) as [->|]; [|done]. by rewrite seqZ_nil by lia. }
  cbn [emit_all foldr]. f_equal.
  rewrite (fmap_seqZ_ext (slot_item (b :: l)) (slot_item l) (slot b + 1)) by (intros s Hs; apply slot_item_after; lia).
  destruct (Z.eqb_spec (slot b) end_) as [->|Hne]; [by rewrite seqZ_nil by lia|].
  rewrite IH; [do 3 f_equal; lia|lia|done..|].
  clear IH. rewrite list.Forall_forall in *. intros c Hc. specialize (Hlt c Hc). specialize (Hin c Hc). lia.
Qed.
(** *** The range of an item *)

Definition of_slot (s : Z) (t : TableBatch) : Prop := numbers (tb_range t) = mkRange s s /\ prev_hash (tb_range t) = None.

Lemma table_of_range {Row B} `{TableRows Row B} (l : list Row) r t : table_of try_new (B := B) l r = Ok t → tb_range t = r.
Proof.
  unfold table_of, rows_to_table, build_rows, raw_table_rows_new.
  destruct (try_new _ _); cbn; try discriminate. destruct (check_invariants _ _); cbn; try discriminate. by intros [= <-].
Qed.

Lemma raw_dataset_rows_same l tables : of_total (raw_dataset_rows l) = Ok (E := ConvertError) tables → tables = l.
Proof. unfold raw_dataset_rows. destruct (dataset_rows_new _) as [|[]| |]; try discriminate. by intros [= <-]. Qed.

Lemma block_tables_range header txs messages tables :
  block_tables try_new header txs messages network = Ok tables → Forall (of_slot (h_slot header)) tables.
Proof.
  unfold block_tables. rewrite bind_Ok. intros (t0 & H0%table_of_range & H). revert H.
  rewrite bind_Ok. intros (t1 & H1%table_of_range & H). revert H. rewrite bind_Ok. intros (t2 & H2%table_of_range & ->%raw_dataset_rows_same).
  repeat (constructor; [unfold of_slot; by simplify_eq/=; rewrite ?H0, ?H1, ?H2|]). constructor.
Qed.

Lemma empty_item_range s tables : to_empty_item s = Ok tables → Forall (of_slot s) tables.
Proof.
  unfold empty_item. destruct (empty_db_rows _ _ _) eqn:E; try discriminate. intros [= <-]. revert E. unfold empty_db_rows.
  rewrite bind_Ok. intros (t0 & H0%table_of_range & H). revert H. rewrite bind_Ok. intros (t1 & H1%table_of_range & ->%raw_dataset_rows_same).
  repeat (constructor; [unfold of_slot; by rewrite ?H0, ?H1|]). constructor.
Qed.

Lemma of_item_range b tables : to_of_item b = Ok tables → Forall (of_slot (slot b)) tables.
Proof.
  unfold of_item. destruct (convert_of_data_to_db_rows _ _ _ _ _) eqn:E; try discriminate. intros [= <-]. revert E.
  unfold convert_of_data_to_db_rows. rewrite bind_Ok. intros (rows & _ & H). exact (block_tables_range (header_from_of1 b) _ _ _ H).
Qed.

Lemma rpc_item_range s tables : to_rpc_item s = Ok tables → Forall (of_slot s) tables.
Proof.
  unfold rpc_item. destruct (get_block s) as [b|e]; [|by destruct (is_block_missing_err e); [apply empty_item_range|]].
  destruct (convert_rpc_block_to_db_rows _ _ _ _ _) eqn:E; try discriminate. intros [= <-]. revert E.
  unfold convert_rpc_block_to_db_rows. rewrite bind_Ok. intros (rows & _ & H). revert H. rewrite bind_Ok. intros (header & Hh & H).
  replace s with (h_slot header); [by eapply block_tables_range|]. revert Hh. unfold header_from_rpc.
  do 2 (destruct (expect_hash _ _); try discriminate; cbn [mbind comp_bind]). by intros [= <-].
Qed.

Lemma slot_item_range blocks s tables : slot_item blocks s = Ok tables → Forall (of_slot s) tables.
Proof.
  unfold slot_item. destruct (List.find _ _) as [b|] eqn:Ef.
  - apply List.find_some in Ef as [_ <-%Z.eqb_eq]. apply of_item_range.
  - destruct (existsb _ _); [apply empty_item_range|apply rpc_item_range].
Qed.

(** *** Every slot of a range *)

Context (read_until_block : bytes → list (option Nodes)) (reassemble_dataframes : Nodes → bytes → option bytes).
Context (decode_transaction : bytes → option VersionedTransaction) (decode_meta : bytes → option OfMeta).
Context (io_fails : IoOperation → Z → bool) (http_get : Z → option HttpResponse).

Abbreviation of1_blocks := (of1_stream read_until_block reassemble_dataframes decode_transaction decode_meta b58_decode get_block io_fails http_get).

(** C9: with whole archives on the server and on disk, and no failing file
    operation, the stream has an item for every slot of the range, once and in
    order, up to a panic in converting one: the block of the archive at that
    slot, with the hash of the archive's block before it; an empty block where
    the archive goes on after the slot; and after the last block of the archive
    in the range what the node answers. What is made at a slot is of its range,
    and every loop ends: that of the epochs after those that have an
    archive. *)
Theorem slots_delivered (archive : Z → option bytes) fuel start end_ dir prev blocks :
  0 <= start <= end_ → end_ + SOLANA_RPC_GET_BLOCKS_LIMIT <= u64_max →
  (∀ op epoch, io_fails op epoch = false) → serves_archives http_get archive → whole_files archive dir →
  initial_prev_blockhash b58_decode get_block start = Ok prev →
  archive_holds read_until_block reassemble_dataframes decode_transaction decode_meta archive (start / DEFAULT_SLOTS_PER_EPOCH) blocks →
  ascending (concat blocks) → (length blocks < fuel)%nat →
  let delivered := List.filter (in_slots start end_) (link prev (concat blocks)) in
  of1_blocks fuel start end_ dir = Ok <$> delivered
  /\ block_stream b58_encode b58_decode valid_utf8 try_new network get_block (λ s e, of1_blocks fuel s e dir) start end_
     = emit_all (slot_item delivered <$> seqZ start (end_ - start + 1)) []
  /\ ∀ s tables, slot_item delivered s = Ok tables → Forall (of_slot s) tables.
Proof.
  intros Hr He Hio Hserves Hdir Hprev Harch Hasc Hfuel delivered.
  assert (of1_blocks fuel start end_ dir = Ok <$> delivered) as Hof1.
  { unfold of1_stream. rewrite Hprev. by apply (epochs_spec _ _ _ _ _ _ archive). }
  split; [done|]. split; [|apply slot_item_range].
  unfold block_stream, block_stream_impl. rewrite Hof1. apply historical_blocks_spec; [lia|done|..].
  - apply ascending_filter, ascending_link, Hasc.
  - apply list.Forall_forall. intros b [_ Hb]%list_elem_of_In%List.filter_In. unfold in_slots in Hb. lia.
Qed.
End StreamCorrect.

(** ** Evaluations *)

Module Evaluation.
Import SolanaRows.Evaluation.
#[local] Open Scope string_scope.

(** A file lists the slots of its blocks, each of one entry. *)
Definition nodes_at (n : Z) : Nodes :=
  [([1], EntryNode (mkCarEntry [] (hash n))); ([2], BlockNode (mkCarBlock n [[1]] (n - 1) None 0))].
Definition read_until_block (file : bytes) : list (option Nodes) := ((λ n, Some (nodes_at n)) <$> file) ++ [Some [([3], EpochNode)]].

Definition reassemble_dataframes (_ : Nodes) (b : bytes) : option bytes := Some b.
Definition decode_transaction (_ : bytes) : option VersionedTransaction := None.
Definition decode_meta (_ : bytes) : option OfMeta := None.
Definition no_failure (_ : IoOperation) (_ : Z) : bool := false.

(** One epoch is archived; the node has the blocks 1 and 6. *)
Definition archive (epoch : Z) : option bytes := if (epoch =? 0)%Z then Some [3; 5] else None.
Definition http_get (epoch : Z) : option HttpResponse :=
  Some (match archive epoch with Some file => mkHttpResponse 200 (Some <$> [file]) | None => mkHttpResponse 404 [] end).
Definition get_block (n : Z) : UiConfirmedBlock + SolanaClientError :=
  if bool_decide (n = 1 \/ n = 6) then inl some_block else inr (RpcResponseError (-32009)).

Definition raw_block (n : Z) : DecodedBlock := mkDecoded n (n - 1) (hash n) zero_hash None 0 [] [].

Lemma archive_serves : serves_archives http_get archive.
Proof. intros epoch. unfold http_get. destruct (archive epoch) as [file|]; [|by eexists]. exists 200, [file]. cbn. by rewrite app_nil_r. Qed.

(** The slots 2 to 6: the archive has 3 and 5, the node answers for 6. *)
Lemma slots_delivered_witness :
  (λ item, match item with Ok tables => start ∘ tb_range <$> tables | _ => [] end) <$>
    block_stream id b58_decode ascii_only EvmTables.Evaluation.try_new "solana" get_block
      (λ s e, of1_stream read_until_block reassemble_dataframes decode_transaction decode_meta b58_decode get_block no_failure http_get 2 s e ∅) 2 6
  = [[2; 2]; [3; 3; 3]; [4; 4]; [5; 5; 5]; [6; 6; 6]].
Proof.
  destruct (slots_delivered id b58_decode ascii_only EvmTables.Evaluation.try_new "solana" get_block
    read_until_block reassemble_dataframes decode_transaction decode_meta no_failure http_get archive 2 2 6 ∅ (hash 2)
    [[raw_block 3; raw_block 5]]) as (_ & -> & _).
  - lia.
  - done.
  - done.
  - exact archive_serves.
  - by intros epoch file Hf.
  - done.
  - split; [|done]. intros [|i] l Hi; [|done]. injection Hi as <-. by exists [3; 5].
  - repeat constructor.
  - cbn. lia.
  - vm_compute. reflexivity.
Defined.

(** The answer 404 leaves an empty file. *)
Example not_found_leaves_file :
  download_of1_car_file no_failure http_get 1 ∅ = (Err (Http 404), {[ 1 := [] ]}).
Proof. vm_compute. reflexivity. Qed.

(** Once the archive has the epoch, it is not downloaded: the block 431999 of
    epoch 0 is not in the stream, and its slot gets an empty block. *)
Definition archived_later (epoch : Z) : option HttpResponse :=
  Some (if (epoch =? 0)%Z then mkHttpResponse 200 [Some [431999]] else if (epoch =? 1)%Z then mkHttpResponse 200 [Some [432000]] else mkHttpResponse 404 []).

Example epoch_not_downloaded_again :
  let historical dir := epochs read_until_block reassemble_dataframes decode_transaction decode_meta no_failure archived_later 4 431999 432000 0 zero_hash dir in
  let items dir := historical_blocks id b58_decode ascii_only EvmTables.Evaluation.try_new "solana" get_block 432000 431999 (historical dir) in
  head (items {[ 0 := [] ]}) = Some (empty_item EvmTables.Evaluation.try_new "solana" 431999)
  /\ head (items ∅) = Some (of_item id ascii_only EvmTables.Evaluation.try_new "solana" (with_prev zero_hash (raw_block 431999))).
Proof. vm_compute. done. Qed.

(** The rows of skipped slots have no table of messages. Its writer panics at
    the end of a range of skipped slots, and a partition that is full after a
    skipped slot; after a skipped last slot the file does not reach the end of
    the range. *)
Definition messages_of (items : list SlotItem) : list RawWriter.RawTableRows :=
  item ← items; List.filter (λ r, bool_decide (RawWriter.table r = "messages"))
                  (match item with Ok tables => to_raw <$> tables | _ => [] end).

Definition some_slots (l : list Z) (missing : list Z) : list RawWriter.RawTableRows :=
  messages_of ((λ s, if bool_decide (s ∈ missing) then empty_item EvmTables.Evaluation.try_new "solana" s
                     else of_item id ascii_only EvmTables.Evaluation.try_new "solana" (raw_block s)) <$> l).

Definition written (partition_bytes : Z) (first last_ : Z) (missing : list Z) : total (list RangeInclusive) :=
  outs ← RawWriter.write_table (λ l, Z.of_nat (length l)) partition_bytes [mkRange first last_] (some_slots (seqZ first (last_ - first + 1)) missing);
  Ok (List.map (λ o, numbers (RawWriter.out_range o)) outs).

Example messages_of_skipped_slots :
  written 10 4 5 [] = Ok [mkRange 4 5]
  /\ written 10 4 5 [4; 5] = Panic
  /\ written 10 4 6 [6] = Ok [mkRange 4 5]
  /\ written 1 4 6 [] = Ok [mkRange 4 4; mkRange 5 5; mkRange 6 6]
  /\ written 1 4 6 [5] = Panic.
Proof. vm_compute. done. Qed.

End Evaluation.
