(* ===== verification/Firehose.v ===== *)
(** * Firehose

    The Firehose extractor: the conversion of an Ethereum block to the rows of
    its tables (extractors/firehose/src/evm/pb_to_rows.rs), and the stream of
    blocks with its reconnections (extractors/firehose/src/client.rs). The
    messages have the fields the conversion reads; connecting and decoding are
    parameters, metrics and delays are left out. *)

From stdpp Require Import base numbers gmap strings option list.
From Stdlib Require Import ZArith Lia.
From S2P Require Import Prelude Ranges BlockRange RawWriter PgTypes PgCopy EvmTables.

(** ** Messages *)

(** [BigInt] is its bytes. *)
Record PbHeader := mkPbHeader {
  ph_number : Z; ph_timestamp_seconds : option Z; ph_hash : bytes; ph_parent_hash : bytes; ph_uncle_hash : bytes;
  ph_coinbase : bytes; ph_state_root : bytes; ph_transactions_root : bytes; ph_receipt_root : bytes; ph_logs_bloom : bytes;
  ph_difficulty : option bytes; ph_total_difficulty : option bytes; ph_gas_limit : Z; ph_gas_used : Z;
  ph_extra_data : bytes; ph_mix_hash : bytes; ph_nonce : Z; ph_base_fee_per_gas : option bytes;
  ph_withdrawals_root : bytes; ph_blob_gas_used : option Z; ph_excess_blob_gas : option Z; ph_parent_beacon_root : bytes
}.

Record PbLog := mkPbLog { pl_address : bytes; pl_topics : list bytes; pl_data : bytes; pl_block_index : Z }.

Record PbCall := mkPbCall {
  pc_index : Z; pc_parent_index : Z; pc_depth : Z; pc_call_type : Z; pc_caller : bytes; pc_address : bytes;
  pc_value : option bytes; pc_gas_limit : Z; pc_gas_consumed : Z; pc_return_data : bytes; pc_input : bytes;
  pc_executed_code : bool; pc_suicide : bool; pc_begin_ordinal : Z; pc_end_ordinal : Z; pc_state_reverted : bool;
  pc_logs : list PbLog
}.

Record TransactionTrace := mkTrace_ {
  pt_index : Z; pt_hash : bytes; pt_to : bytes; pt_nonce : Z; pt_gas_price : option bytes; pt_gas_limit : Z;
  pt_value : option bytes; pt_input : bytes; pt_v : bytes; pt_r : bytes; pt_s : bytes; pt_gas_used : Z; pt_type : Z;
  pt_from : bytes; pt_status : Z; pt_return_data : bytes; pt_public_key : bytes; pt_begin_ordinal : Z;
  pt_end_ordinal : Z; pt_max_fee_per_gas : option bytes; pt_max_priority_fee_per_gas : option bytes; pt_calls : list PbCall
}.

Record PbBlock := mkPbBlock { pb_number : Z; pb_header : option PbHeader; pb_transaction_traces : list TransactionTrace }.

Inductive ProtobufToRowError :=
  | MalformedField (field : string) (b : bytes)
  | OverflowField (field : string) (b : bytes)
  | MissingField (field : string)
  | AssertFail
  | Arrow (e : RowsError).

(** ** Fields *)

(** [try_into] to an array of [n] bytes *)
Definition fixed (n : nat) (field : string) (b : bytes) : comp ProtobufToRowError bytes :=
  if Nat.eqb (length b) n then Ok b else Err (MalformedField field b).

(** An empty field is absent. *)
Definition fixed_or_empty (n : nat) (field : string) (b : bytes) : comp ProtobufToRowError (option bytes) :=
  match b with [] => Ok None | _ => r ← fixed n field b; Ok (Some r) end.

(** [option.map(..).transpose()] *)
Definition transposed {A B} (f : A → comp ProtobufToRowError B) (o : option A) : comp ProtobufToRowError (option B) :=
  match o with Some a => b ← f a; Ok (Some b) | None => Ok None end.

(** [result.ok()] *)
Definition ok {E A} (m : comp E A) : option A := match m with Ok a => Some a | _ => None end.

(** [u64::from_be_bytes] of the bytes padded to eight *)
Definition pb_bigint_to_u64 (field : string) (b : bytes) : comp ProtobufToRowError Z :=
  if Nat.ltb 8 (length b) then Err (MalformedField field b)
  else Ok (from_be (replicate (8 - length b) 0 ++ b)).

(** [x as i128] of a [u128] *)
Definition u128_as_i128 (z : Z) : Z := if z <? 2 ^ 127 then z else z - 2 ^ 128.

Definition non_negative_pb_bigint_to_evm_currency (field : string) (b : bytes) : comp ProtobufToRowError Z :=
  if Nat.ltb 16 (length b) then Err (OverflowField field b)
  else Ok (u128_as_i128 (from_be (replicate (16 - length b) 0 ++ b))).

Definition present {A} (field : string) (o : option A) : comp ProtobufToRowError A :=
  match o with Some a => Ok a | None => Err (MissingField field) end.

(** ** Rows *)

(** [Timestamp(Duration::from_secs(seconds as u64))] *)
Definition pb_timestamp (seconds : Z) : Z := wrap64 seconds * 1000000000.

Definition header_from_pb (h : PbHeader) : comp ProtobufToRowError Block :=
  timestamp ← present "timestamp" (ph_timestamp_seconds h);
  base_fee_per_gas ← transposed (pb_bigint_to_u64 "base_fee_per_gas") (ph_base_fee_per_gas h);
  hash ← fixed 32 "hash" (ph_hash h);
  parent_hash ← fixed 32 "parent_hash" (ph_parent_hash h);
  ommers_hash ← fixed 32 "uncle_hash" (ph_uncle_hash h);
  miner ← fixed 20 "coinbase" (ph_coinbase h);
  state_root ← fixed 32 "state_root" (ph_state_root h);
  transactions_root ← fixed 32 "transactions_root" (ph_transactions_root h);
  receipt_root ← fixed 32 "receipt_root" (ph_receipt_root h);
  difficulty_bytes ← present "difficulty" (ph_difficulty h);
  difficulty ← non_negative_pb_bigint_to_evm_currency "difficulty" difficulty_bytes;
  total_difficulty ← transposed (non_negative_pb_bigint_to_evm_currency "total_difficulty") (ph_total_difficulty h);
  mix_hash ← fixed 32 "mix_hash" (ph_mix_hash h);
  withdrawals_root ← fixed_or_empty 32 "withdrawals_root" (ph_withdrawals_root h);
  parent_beacon_root ← fixed_or_empty 32 "parent_beacon_root" (ph_parent_beacon_root h);
  Ok {| b_block_num := ph_number h; b_timestamp := pb_timestamp timestamp; b_hash := hash; b_parent_hash := parent_hash;
        b_ommers_hash := ommers_hash; b_miner := miner; b_state_root := state_root;
        b_transactions_root := transactions_root; b_receipt_root := receipt_root; b_logs_bloom := ph_logs_bloom h;
        b_difficulty := difficulty; b_total_difficulty := total_difficulty; b_gas_limit := ph_gas_limit h;
        b_gas_used := ph_gas_used h; b_extra_data := ph_extra_data h; b_mix_hash := mix_hash; b_nonce := ph_nonce h;
        b_base_fee_per_gas := base_fee_per_gas; b_withdrawals_root := withdrawals_root;
        b_blob_gas_used := ph_blob_gas_used h; b_excess_blob_gas := ph_excess_blob_gas h;
        b_parent_beacon_root := parent_beacon_root |}.

Definition trace_to_row (h : Block) (tx : TransactionTrace) : comp ProtobufToRowError Trace :=
  tx_hash ← fixed 32 "tx.hash" (pt_hash tx);
  to ← fixed_or_empty 20 "tx.to" (pt_to tx);
  value ← transposed (non_negative_pb_bigint_to_evm_currency "tx.value") (pt_value tx);
  from ← fixed 20 "tx.from" (pt_from tx);
  Ok {| f_block_hash := b_hash h; f_block_num := b_block_num h; f_timestamp := b_timestamp h; f_tx_index := pt_index tx;
        f_tx_hash := tx_hash; f_to := to; f_nonce := pt_nonce tx;
        f_gas_price := b ← pt_gas_price tx; ok (non_negative_pb_bigint_to_evm_currency "tx.gas_price" b);
        f_gas_limit := pt_gas_limit tx; f_value := value; f_input := pt_input tx; f_v := pt_v tx; f_r := pt_r tx;
        f_s := pt_s tx; f_receipt_cumulative_gas_used := pt_gas_used tx; f_type := pt_type tx;
        f_max_fee_per_gas := b ← pt_max_fee_per_gas tx; ok (non_negative_pb_bigint_to_evm_currency "tx.max_fee_per_gas" b);
        f_max_priority_fee_per_gas := b ← pt_max_priority_fee_per_gas tx;
          ok (non_negative_pb_bigint_to_evm_currency "tx.max_priority_fee_per_gas" b);
        f_from := from; f_status := pt_status tx; f_return_data := pt_return_data tx; f_public_key := pt_public_key tx;
        f_begin_ordinal := pt_begin_ordinal tx; f_end_ordinal := pt_end_ordinal tx |}.

Definition call_to_row (h : Block) (tx_index : Z) (tx_hash : bytes) (call : PbCall) : comp ProtobufToRowError EvmTables.Call :=
  caller ← fixed 20 "call.caller" (pc_caller call);
  address ← fixed 20 "call.address" (pc_address call);
  value ← transposed (non_negative_pb_bigint_to_evm_currency "call.value") (pc_value call);
  Ok {| c_block_hash := b_hash h; c_block_num := b_block_num h; c_timestamp := b_timestamp h; c_tx_index := tx_index;
        c_tx_hash := tx_hash; c_index := pc_index call; c_parent_index := pc_parent_index call; c_depth := pc_depth call;
        c_call_type := pc_call_type call; c_caller := caller; c_address := address; c_value := value;
        c_gas_limit := pc_gas_limit call; c_gas_consumed := pc_gas_consumed call; c_return_data := pc_return_data call;
        c_input := pc_input call; c_selfdestruct := pc_suicide call; c_executed_code := pc_executed_code call;
        c_begin_ordinal := pc_begin_ordinal call; c_end_ordinal := pc_end_ordinal call |}.

(** The four topics, filled one after the other. *)
Record Topics := mkTopics { topic0 : option bytes; topic1 : option bytes; topic2 : option bytes; topic3 : option bytes }.

Fixpoint fill_topics (topics : list bytes) (acc : Topics) : comp ProtobufToRowError Topics :=
  match topics with
  | [] => Ok acc
  | t :: topics =>
      topic ← fixed 32 "log.topicN" t;
      match acc with
      | mkTopics None b c d => fill_topics topics (mkTopics (Some topic) b c d)
      | mkTopics (Some a) None c d => fill_topics topics (mkTopics (Some a) (Some topic) c d)
      | mkTopics (Some a) (Some b) None d => fill_topics topics (mkTopics (Some a) (Some b) (Some topic) d)
      | mkTopics (Some a) (Some b) (Some c) None => fill_topics topics (mkTopics (Some a) (Some b) (Some c) (Some topic))
      | mkTopics (Some _) (Some _) (Some _) (Some _) => Err AssertFail
      end
  end.

Definition log_to_row (h : Block) (tx_index : Z) (tx_hash : bytes) (log : PbLog) : comp ProtobufToRowError Log :=
  topics ← fill_topics (pl_topics log) (mkTopics None None None None);
  address ← fixed 20 "log.address" (pl_address log);
  Ok {| l_block_hash := b_hash h; l_block_num := b_block_num h; l_timestamp := b_timestamp h; l_tx_index := tx_index;
        l_tx_hash := tx_hash; l_log_index := pl_block_index log; l_address := address; l_topic0 := topic0 topics;
        l_topic1 := topic1 topics; l_topic2 := topic2 topics; l_topic3 := topic3 topics; l_data := pl_data log |}.

(** The rows appended so far. *)
Record Appended := mkAppended { traces : list Trace; calls : list EvmTables.Call; logs : list Log }.

Fixpoint append_logs (h : Block) (tx_index : Z) (tx_hash : bytes) (l : list PbLog) (a : Appended)
    : comp ProtobufToRowError Appended :=
  match l with
  | [] => Ok a
  | log :: l =>
      row ← log_to_row h tx_index tx_hash log;
      append_logs h tx_index tx_hash l (mkAppended (traces a) (calls a) (logs a ++ [row]))
  end.

Fixpoint append_calls (h : Block) (tx_index : Z) (tx_hash : bytes) (l : list PbCall) (a : Appended)
    : comp ProtobufToRowError Appended :=
  match l with
  | [] => Ok a
  | call :: l =>
      if pc_state_reverted call then append_calls h tx_index tx_hash l a
      else
        row ← call_to_row h tx_index tx_hash call;
        a ← append_logs h tx_index tx_hash (pc_logs call) (mkAppended (traces a) (calls a ++ [row]) (logs a));
        append_calls h tx_index tx_hash l a
  end.

Fixpoint append_traces (h : Block) (l : list TransactionTrace) (a : Appended) : comp ProtobufToRowError Appended :=
  match l with
  | [] => Ok a
  | tx :: l =>
      if negb (pt_status tx =? 1) then append_traces h l a
      else
        row ← trace_to_row h tx;
        a ← append_calls h (pt_index tx) (f_tx_hash row) (pt_calls tx) (mkAppended (traces a ++ [row]) (calls a) (logs a));
        append_traces h l a
  end.

Section ToRows.
(** [RecordBatch::try_new] *)
Context (try_new : list Field → list ArrayRef → comp string Batch).

Definition protobufs_to_rows (block : PbBlock) (network : string) : comp ProtobufToRowError (list TableBatch) :=
  h ← present "header" (pb_header block);
  header ← header_from_pb h;
  a ← append_traces header (pb_transaction_traces block) (mkAppended [] [] []);
  let range := block_range_of header network in
  header_row ← comp_map_err Arrow (rows_to_table try_new (B := BlockRowsBuilder) [header] range);
  transactions_rows ← comp_map_err Arrow (rows_to_table try_new (B := TraceRowsBuilder) (traces a) range);
  calls_rows ← comp_map_err Arrow (rows_to_table try_new (B := CallRowsBuilder) (calls a) range);
  logs_rows ← comp_map_err Arrow (rows_to_table try_new (B := LogRowsBuilder) (logs a) range);
  of_total (raw_dataset_rows [header_row; transactions_rows; calls_rows; logs_rows]).
End ToRows.

(** ** The rows of a block *)

(** What the loops go through: the transactions that did not fail, their calls
    that were not reverted and the logs of those. *)
Definition kept_traces (l : list TransactionTrace) : list TransactionTrace := List.filter (λ tx, pt_status tx =? 1) l.

Definition kept_calls (l : list TransactionTrace) : list (TransactionTrace * PbCall) :=
  tx ← kept_traces l; pair tx <$> List.filter (λ c, negb (pc_state_reverted c)) (pt_calls tx).

Definition kept_logs (l : list TransactionTrace) : list (TransactionTrace * PbLog) :=
  '(tx, c) ← kept_calls l; pair tx <$> pc_logs c.

Definition call_row (h : Block) (p : TransactionTrace * PbCall) : comp ProtobufToRowError EvmTables.Call :=
  call_to_row h (pt_index p.1) (pt_hash p.1) p.2.
Definition log_row (h : Block) (p : TransactionTrace * PbLog) : comp ProtobufToRowError Log :=
  log_to_row h (pt_index p.1) (pt_hash p.1) p.2.

(** A conversion fails with an error of a field, never by a panic. *)
Definition field_error (e : ProtobufToRowError) : Prop := match e with Arrow _ => False | _ => True end.
Definition converts {A} (m : comp ProtobufToRowError A) : Prop :=
  match m with Ok _ => True | Err e => field_error e | _ => False end.

Lemma converts_bind {A B} (m : comp ProtobufToRowError A) (f : A → comp ProtobufToRowError B) :
  converts m → (∀ a, m = Ok a → converts (f a)) → converts (m ≫= f).
Proof. destruct m; cbn; auto. Qed.

Lemma converts_fixed n field b : converts (fixed n field b).
Proof. unfold fixed. by destruct (Nat.eqb _ _). Qed.

Lemma converts_fixed_or_empty n field b : converts (fixed_or_empty n field b).
Proof. unfold fixed_or_empty. destruct b; [done|]. unfold fixed. by destruct (Nat.eqb _ _). Qed.

Lemma converts_present {A} field (o : option A) : converts (present field o).
Proof. by destruct o. Qed.

Lemma converts_currency field b : converts (non_negative_pb_bigint_to_evm_currency field b).
Proof. unfold non_negative_pb_bigint_to_evm_currency. by destruct (Nat.ltb _ _). Qed.

Lemma converts_u64 field b : converts (pb_bigint_to_u64 field b).
Proof. unfold pb_bigint_to_u64. by destruct (Nat.ltb _ _). Qed.

Lemma converts_transposed {A B} (f : A → comp ProtobufToRowError B) o : (∀ a, converts (f a)) → converts (transposed f o).
Proof. intros Hf. destruct o as [a|]; [|done]. unfold transposed. specialize (Hf a). by destruct (f a). Qed.

Create HintDb converts discriminated.
#[local] Hint Resolve converts_fixed converts_fixed_or_empty converts_present converts_currency converts_u64 converts_transposed : converts.

Ltac convert_fields := repeat (apply converts_bind; [auto with converts|intros ? _]); done.

Lemma converts_header h : converts (header_from_pb h).
Proof. unfold header_from_pb. convert_fields. Qed.

Lemma converts_trace h tx : converts (trace_to_row h tx).
Proof. unfold trace_to_row. convert_fields. Qed.

Lemma converts_call h i hash c : converts (call_to_row h i hash c).
Proof. unfold call_to_row. convert_fields. Qed.

Lemma converts_topics l acc : converts (fill_topics l acc).
Proof.
  revert acc. induction l as [|t l IH]; intros acc; cbn [fill_topics]; [done|]. apply converts_bind; [auto with converts|]. intros topic _.
  destruct acc as [[a|] [b|] [c|] [d|]]; try apply IH. done.
Qed.

Lemma converts_log h i hash g : converts (log_to_row h i hash g).
Proof. unfold log_to_row. apply converts_bind; [apply converts_topics|]. intros ? _. convert_fields. Qed.

#[local] Hint Resolve converts_header converts_trace converts_call converts_log : converts.

(** The topics in their order, at most four. *)
Lemma fixed_Ok n field b c : fixed n field b = Ok c → c = b /\ length b = n.
Proof. unfold fixed. destruct (Nat.eqb_spec (length b) n); [|done]. by intros [= <-]. Qed.

Lemma fill_topics_Ok l topics :
  fill_topics l (mkTopics None None None None) = Ok topics →
  (length l <= 4)%nat /\ topics = mkTopics (l !! 0%nat) (l !! 1%nat) (l !! 2%nat) (l !! 3%nat) /\ Forall (λ t, length t = 32%nat) l.
Proof.
  destruct l as [|t0 [|t1 [|t2 [|t3 [|t4 l]]]]]; cbn [fill_topics];
    repeat (rewrite bind_Ok; intros (? & [-> ?]%fixed_Ok & Hrest); revert Hrest); intros Hrest; try discriminate Hrest; injection Hrest as <-;
    (split; [cbn; lia|split; [done|by repeat constructor]]).
Qed.

Lemma trace_row_hash h tx row : trace_to_row h tx = Ok row → f_tx_hash row = pt_hash tx.
Proof.
  unfold trace_to_row. rewrite bind_Ok. intros (hash & [-> _]%fixed_Ok & Hr). revert Hr.
  do 3 (rewrite bind_Ok; intros (? & _ & Hr); revert Hr). by intros [= <-].
Qed.

(** Rows appended to the three builders, or the error of a field. *)
Definition appends (m : comp ProtobufToRowError Appended) (a : Appended) (P : list Trace → list EvmTables.Call → list Log → Prop) : Prop :=
  match m with
  | Ok a' => ∃ ts cs gs, a' = mkAppended (traces a ++ ts) (calls a ++ cs) (logs a ++ gs) /\ P ts cs gs
  | Err e => field_error e
  | _ => False
  end.

Lemma append_logs_spec h i hash l a :
  appends (append_logs h i hash l a) a (λ ts cs gs, ts = [] /\ cs = [] /\ mapM (log_to_row h i hash) l = Ok gs).
Proof.
  revert a. induction l as [|g l IH]; intros a; cbn [append_logs].
  { exists [], [], []. rewrite !app_nil_r. by destruct a. }
  pose proof (converts_log h i hash g) as Hc. destruct (log_to_row h i hash g) as [row|e| |] eqn:Er; try done. cbn [mbind comp_bind].
  specialize (IH (mkAppended (traces a) (calls a) (logs a ++ [row]))). unfold appends in *.
  destruct (append_logs _ _ _ _ _) as [a'|e| |]; [|done..]. destruct IH as (ts & cs & gs & -> & -> & -> & Hgs).
  exists [], [], (row :: gs). cbn [traces calls logs]. rewrite <- app_assoc. split; [done|]. split_and!; try done. by rewrite mapM_cons, Er, Hgs.
Qed.

Definition calls_of (tx : TransactionTrace) (l : list PbCall) : list (TransactionTrace * PbCall) :=
  pair tx <$> List.filter (λ c, negb (pc_state_reverted c)) l.

Definition logs_of (l : list (TransactionTrace * PbCall)) : list (TransactionTrace * PbLog) :=
  p ← l; pair p.1 <$> pc_logs p.2.

Lemma mapM_app_Ok {E A B} (f : A → comp E B) l k a b : mapM f l = Ok a → mapM f k = Ok b → mapM f (l ++ k) = Ok (a ++ b).
Proof.
  revert a. induction l as [|x l IH]; intros a; [by intros [= <-]|]. rewrite mapM_cons, bind_Ok. intros (y & Hy & H).
  revert H. rewrite bind_Ok. intros (ys & Hys & [= <-]) Hk. cbn [app]. by rewrite mapM_cons, Hy, (IH ys Hys Hk).
Qed.

Lemma mapM_fmap_pair {E A B} (tx : TransactionTrace) (f : TransactionTrace * A → comp E B) l :
  mapM f (pair tx <$> l) = mapM (λ x, f (tx, x)) l.
Proof. induction l as [|x l IH]; [done|]. by rewrite fmap_cons, !mapM_cons, IH. Qed.

Lemma append_calls_spec h tx l a :
  appends (append_calls h (pt_index tx) (pt_hash tx) l a) a (λ ts cs gs,
    ts = [] /\ mapM (call_row h) (calls_of tx l) = Ok cs /\ mapM (log_row h) (logs_of (calls_of tx l)) = Ok gs).
Proof.
  revert a. induction l as [|c l IH]; intros a; cbn [append_calls].
  { exists [], [], []. rewrite !app_nil_r. by destruct a. }
  unfold calls_of. cbn [List.filter]. destruct (pc_state_reverted c); cbn [negb]; [apply IH|].
  pose proof (converts_call h (pt_index tx) (pt_hash tx) c) as Hc.
  destruct (call_to_row _ _ _ c) as [row|e| |] eqn:Er; try done. cbn [mbind comp_bind].
  pose proof (append_logs_spec h (pt_index tx) (pt_hash tx) (pc_logs c) (mkAppended (traces a) (calls a ++ [row]) (logs a))) as Hl.
  unfold appends in *. destruct (append_logs _ _ _ _ _) as [a1|e| |]; try done. cbn [mbind comp_bind].
  destruct Hl as (ts & cs & gs & -> & -> & -> & Hgs). cbn [traces calls logs].
  specialize (IH (mkAppended (traces a ++ []) ((calls a ++ [row]) ++ []) (logs a ++ gs))).
  destruct (append_calls _ _ _ _ _) as [a2|e| |]; try done. destruct IH as (ts & cs & gs' & -> & -> & Hcs & Hgs').
  exists [], (row :: cs), (gs ++ gs'). cbn [traces calls logs]. rewrite !app_nil_r, <- !app_assoc. split; [done|]. split; [done|]. split.
  - rewrite fmap_cons, mapM_cons. change (call_row h (tx, c)) with (call_to_row h (pt_index tx) (pt_hash tx) c).
    rewrite Er. fold (calls_of tx l). by rewrite Hcs.
  - apply mapM_app_Ok; [|exact Hgs']. by rewrite mapM_fmap_pair.
Qed.

Definition kept_rows (h : Block) (l : list TransactionTrace) (ts : list Trace) (cs : list EvmTables.Call) (gs : list Log) : Prop :=
  mapM (trace_to_row h) (kept_traces l) = Ok ts
  /\ mapM (call_row h) (kept_calls l) = Ok cs
  /\ mapM (log_row h) (kept_logs l) = Ok gs.

Lemma kept_traces_cons tx l : kept_traces (tx :: l) = if pt_status tx =? 1 then tx :: kept_traces l else kept_traces l.
Proof. done. Qed.

Lemma append_traces_spec h l a : appends (append_traces h l a) a (kept_rows h l).
Proof.
  revert a. induction l as [|tx l IH]; intros a; cbn [append_traces].
  { exists [], [], []. rewrite !app_nil_r. by destruct a. }
  assert (∀ ts cs gs, pt_status tx =? 1 = false → kept_rows h l ts cs gs → kept_rows h (tx :: l) ts cs gs) as Hskip.
  { intros ts cs gs Hs. unfold kept_rows, kept_logs, kept_calls. by rewrite kept_traces_cons, Hs. }
  destruct (pt_status tx =? 1) eqn:Es; cbn [negb].
  2: { specialize (IH a). unfold appends in *. destruct (append_traces h l a); [|done..]. naive_solver. }
  pose proof (converts_trace h tx) as Ht. destruct (trace_to_row h tx) as [row|e| |] eqn:Er; try done. cbn [mbind comp_bind].
  rewrite (trace_row_hash _ _ _ Er).
  pose proof (append_calls_spec h tx (pt_calls tx) (mkAppended (traces a ++ [row]) (calls a) (logs a))) as Hc.
  unfold appends in *. destruct (append_calls _ _ _ _ _) as [a1|e| |]; try done. cbn [mbind comp_bind].
  destruct Hc as (ts & cs & gs & -> & -> & Hcs & Hgs). cbn [traces calls logs].
  specialize (IH (mkAppended ((traces a ++ [row]) ++ []) (calls a ++ cs) (logs a ++ gs))).
  destruct (append_traces _ _ _) as [a2|e| |]; try done. destruct IH as (ts & cs' & gs' & -> & Hts & Hcs' & Hgs').
  exists (row :: ts), (cs ++ cs'), (gs ++ gs'). cbn [traces calls logs]. rewrite !app_nil_r, <- !app_assoc. split; [done|].
  unfold kept_rows, kept_logs, kept_calls. rewrite kept_traces_cons, Es. split_and!.
  - by rewrite mapM_cons, Er, Hts.
  - rewrite bind_cons. by apply mapM_app_Ok.
  - rewrite !bind_cons, bind_app. apply mapM_app_Ok; [|exact Hgs'].
    rewrite <- Hgs. f_equal. clear. unfold logs_of, calls_of. apply list_bind_ext; [|done]. by intros [].
Qed.

Lemma header_number h row : header_from_pb h = Ok row → b_block_num row = ph_number h.
Proof. unfold header_from_pb. do 15 (rewrite bind_Ok; intros (? & _ & Hr); revert Hr). by intros [= <-]. Qed.

Lemma rows_num {R X} (f : X → comp ProtobufToRowError R) (num : R → Z) n l rows :
  (∀ x r, f x = Ok r → num r = n) → mapM f l = Ok rows → Forall (λ r, num r = n) rows.
Proof. intros Hf Hm%mapM_Ok_Forall2. induction Hm as [|x r l rows Hx _ IH]; constructor; [by eapply Hf|done]. Qed.

Lemma trace_row_num h tx row : trace_to_row h tx = Ok row → f_block_num row = b_block_num h.
Proof. unfold trace_to_row. do 4 (rewrite bind_Ok; intros (? & _ & Hr); revert Hr). by intros [= <-]. Qed.

Lemma call_row_num h p row : call_row h p = Ok row → c_block_num row = b_block_num h.
Proof. unfold call_row, call_to_row. do 3 (rewrite bind_Ok; intros (? & _ & Hr); revert Hr). by intros [= <-]. Qed.

Lemma firehose_log_num h p row : log_row h p = Ok row → l_block_num row = b_block_num h.
Proof. unfold log_row, log_to_row. do 2 (rewrite bind_Ok; intros (? & _ & Hr); revert Hr). by intros [= <-]. Qed.

Section Rows.
Context (try_new : list Field → list ArrayRef → comp string Batch).
Context (Htry : accepts_fitting try_new).

Lemma protobufs_to_rows_built block network :
  match protobufs_to_rows try_new block network with
  | Ok tables =>
      ∃ h row ts cs gs t0 t1 t2 t3, tables = [t0; t1; t2; t3]
        /\ pb_header block = Some h /\ header_from_pb h = Ok row
        /\ kept_rows row (pb_transaction_traces block) ts cs gs
        /\ Forall (λ t, tb_range t = block_range_of row network) tables
        /\ holds (Row := Block) (B := BlockRowsBuilder) t0 [row]
        /\ holds (Row := Trace) (B := TraceRowsBuilder) t1 ts
        /\ holds (Row := EvmTables.Call) (B := CallRowsBuilder) t2 cs
        /\ holds (Row := Log) (B := LogRowsBuilder) t3 gs
  | Err e => field_error e
  | _ => False
  end.
Proof.
  unfold protobufs_to_rows. destruct (pb_header block) as [h|]; [|done]. cbn [present mbind comp_bind].
  pose proof (converts_header h) as Hh. destruct (header_from_pb h) as [row|e| |] eqn:Erow; try done. cbn [mbind comp_bind].
  pose proof (append_traces_spec row (pb_transaction_traces block) (mkAppended [] [] [])) as Ha.
  unfold appends in Ha. destruct (append_traces _ _ _) as [a|e| |]; try done. cbn [mbind comp_bind].
  destruct Ha as (ts & cs & gs & -> & Hkept). pose proof Hkept as (Hts & Hcs & Hgs). cbn [traces calls logs app].
  destruct (table_of_block try_new Htry (B := BlockRowsBuilder) [row] row network) as (t0 & -> & Hr0 & H0); [by repeat constructor|].
  destruct (table_of_block try_new Htry (B := TraceRowsBuilder) ts row network) as (t1 & -> & Hr1 & H1).
  { exact (rows_num _ _ _ _ _ (trace_row_num row) Hts). }
  destruct (table_of_block try_new Htry (B := CallRowsBuilder) cs row network) as (t2 & -> & Hr2 & H2).
  { exact (rows_num _ _ _ _ _ (call_row_num row) Hcs). }
  destruct (table_of_block try_new Htry (B := LogRowsBuilder) gs row network) as (t3 & -> & Hr3 & H3).
  { exact (rows_num _ _ _ _ _ (firehose_log_num row) Hgs). }
  cbn [comp_map_err mbind comp_bind]. rewrite (raw_dataset_rows_Ok (block_range_of row network)) by (by repeat constructor).
  exists h, row, ts, cs, gs, t0, t1, t2, t3. split_and!; try done. by repeat constructor.
Qed.

(** C6: an Ethereum block becomes four tables of the range of that one block: its
    header, the transactions that did not fail, their calls that were not
    reverted and the logs of those calls, in the order of the block, each row
    converted from its message and read back from the tables. It fails only
    with the error of a field, never in building the tables and never by a
    panic. *)
Theorem protobufs_to_rows_correct block network :
  match protobufs_to_rows try_new block network with
  | Ok tables =>
      ∃ h row ts cs gs t0 t1 t2 t3, tables = [t0; t1; t2; t3]
        /\ pb_header block = Some h /\ header_from_pb h = Ok row
        /\ kept_rows row (pb_transaction_traces block) ts cs gs
        /\ Forall (λ t, tb_range t = block_range_of row network) tables
        /\ holds (Row := Block) (B := BlockRowsBuilder) t0 [row]
        /\ holds (Row := Trace) (B := TraceRowsBuilder) t1 ts
        /\ holds (Row := EvmTables.Call) (B := CallRowsBuilder) t2 cs
        /\ holds (Row := Log) (B := LogRowsBuilder) t3 gs
  | Err e => field_error e
  | _ => False
  end.
Proof. exact (protobufs_to_rows_built block network). Qed.
End Rows.

(** ** The bounds of the conversions *)

Lemma from_be_zeros n b : from_be (replicate n 0 ++ b) = from_be b.
Proof. induction n as [|n IH]; [done|]. cbn [replicate app]. rewrite from_be_cons, IH. lia. Qed.

Lemma from_be_bound b : Forall (λ d, 0 <= d <= 255) b → 0 <= from_be b < 256 ^ Z.of_nat (length b).
Proof.
  induction 1 as [|d b Hd _ IH]; [cbn; lia|]. rewrite from_be_cons. cbn [length].
  rewrite Nat2Z.inj_succ, Z.pow_succ_r by lia. nia.
Qed.

Lemma pow256_le n m : (n <= m)%nat → 256 ^ Z.of_nat n <= 256 ^ Z.of_nat m.
Proof. intros H. apply Z.pow_le_mono_r; lia. Qed.

Lemma currency_spec field b :
  Forall (λ d, 0 <= d <= 255) b →
  match non_negative_pb_bigint_to_evm_currency field b with
  | Ok z => (length b <= 16)%nat /\ - 2 ^ 127 <= z < 2 ^ 127 /\ z mod 2 ^ 128 = from_be b /\ (z = from_be b ↔ from_be b < 2 ^ 127)
  | Err e => e = OverflowField field b /\ (16 < length b)%nat
  | _ => False
  end.
Proof.
  intros Hb. unfold non_negative_pb_bigint_to_evm_currency, u128_as_i128. rewrite from_be_zeros.
  destruct (Nat.ltb_spec 16 (length b)) as [Hl|Hl]; [done|]. split; [done|].
  pose proof (from_be_bound b Hb) as Hr. pose proof (pow256_le (length b) 16 Hl) as Hp.
  change (256 ^ Z.of_nat 16) with (2 ^ 128) in Hp. change (2 ^ 128) with (2 * 2 ^ 127) in *. assert (0 < 2 ^ 127) by done.
  destruct (Z.ltb_spec (from_be b) (2 ^ 127)).
  - split; [lia|]. split; [apply Z.mod_small; lia|]. tauto.
  - split; [lia|]. split; [|lia]. rewrite <- (Z.mod_unique (from_be b - 2 * 2 ^ 127) (2 * 2 ^ 127) (-1) (from_be b)); [done|lia|lia].
Qed.

(** C8: a big-endian number of at most sixteen bytes becomes an integer of 128
    bits, equal to it exactly when it is less than 2^127 and its two's
    complement otherwise; a longer one is an error. A number of at most eight
    bytes becomes the [u64] it denotes. The nanoseconds of a timestamp fit their
    column up to the second 9223372036. *)
Theorem firehose_conversion_bounds field b seconds :
  Forall (λ d, 0 <= d <= 255) b →
  match non_negative_pb_bigint_to_evm_currency field b with
  | Ok z => (length b <= 16)%nat /\ - 2 ^ 127 <= z < 2 ^ 127 /\ z mod 2 ^ 128 = from_be b /\ (z = from_be b ↔ from_be b < 2 ^ 127)
  | Err e => e = OverflowField field b /\ (16 < length b)%nat
  | _ => False
  end
  /\ match pb_bigint_to_u64 field b with
     | Ok z => (length b <= 8)%nat /\ is_u64 z /\ z = from_be b
     | Err e => e = MalformedField field b /\ (8 < length b)%nat
     | _ => False
     end
  /\ (0 <= seconds <= 9223372036 → as_i64 (pb_timestamp seconds) = seconds * 1000000000).
Proof.
  intros Hb. split; [by apply currency_spec|]. split.
  - unfold pb_bigint_to_u64. rewrite from_be_zeros. destruct (Nat.ltb_spec 8 (length b)) as [Hl|Hl]; [done|].
    pose proof (from_be_bound b Hb) as Hr. pose proof (pow256_le (length b) 8 Hl) as Hp.
    change (256 ^ Z.of_nat 8) with 18446744073709551616 in Hp. split; [done|]. split; [unfold is_u64, u64_max; lia|done].
  - intros Hs. unfold as_i64, pb_timestamp, to_i64. rewrite !wrap64_small by (unfold is_u64, u64_max; rewrite ?wrap64_small; unfold is_u64, u64_max; lia).
    destruct (Z.leb_spec (seconds * 1000000000) i64_max); [done|]. unfold i64_max in *. lia.
Qed.

(** ** The stream *)

(** What a connection yields: blocks, or the error that ends it. The fork step
    of a response is not looked at. *)
Inductive ClientError := ConnectionFailed | ConversionFailed (n : Z) (e : ProtobufToRowError).

Record Response := mkResponse { response_block : option (option PbBlock); fork_step : Z }.

Inductive StreamError := CallFailed | PbDecodeError | AssertFailed.

(** A response of the raw stream: [None] is an error of the call; the block is
    absent, not decoded, or there. *)
Definition decode_response (r : option Response) : StreamError + PbBlock :=
  match r with
  | None => inl CallFailed
  | Some response =>
      match response_block response with
      | None => inl AssertFailed
      | Some None => inl PbDecodeError
      | Some (Some block) => inr block
      end
  end.

Section Client.
Context (to_rows : PbBlock → comp ProtobufToRowError (list TableBatch)).
(** The responses to the request from a block, the [k]-th time it is made. *)
Context (connect : nat → Z → option (list (option Response))).

Inductive Ended := StreamEnd | Retry (next_block : Z) | Return.

(** One connection: what is yielded, and how it ends. *)
Fixpoint read_stream (responses : list (option Response)) (next_block : Z) : list (ClientError + list TableBatch) * Ended :=
  match responses with
  | [] => ([], StreamEnd)
  | r :: responses =>
      match decode_response r with
      | inl _ => ([], Retry next_block)
      | inr block =>
          match to_rows block with
          | Ok table_rows =>
              let '(items, ended) := read_stream responses (add64 (pb_number block) 1) in (inr table_rows :: items, ended)
          | Err e => ([inl (ConversionFailed (pb_number block) e)], Return)
          | _ => ([], Return)
          end
      end
  end.

(** The ['retry] loop of [block_stream]; the start of a request is [as i64]. *)
Fixpoint firehose_loop (fuel k : nat) (next_block : Z) : total (list (ClientError + list TableBatch)) :=
  match fuel with
  | O => OutOfFuel
  | S fuel =>
      match connect k (to_i64 next_block) with
      | None => Ok [inl ConnectionFailed]
      | Some responses =>
          match read_stream responses next_block with
          | (items, Retry next_block) => rest ← firehose_loop fuel (S k) next_block; Ok (items ++ rest)
          | (items, _) => Ok items
          end
      end
  end.

Definition firehose_block_stream (fuel : nat) (start_block : Z) : total (list (ClientError + list TableBatch)) :=
  firehose_loop fuel 0 start_block.

(** [latest_block]: the first block from the head of the chain. *)
Definition firehose_latest_block : (StreamError + option Z) + ClientError :=
  match connect 0 (-1) with
  | None => inr ConnectionFailed
  | Some [] => inl (inr None)
  | Some (r :: _) => match decode_response r with inl e => inl (inl e) | inr block => inl (inr (Some (pb_number block))) end
  end.

(** A connection serves the blocks in order from the one asked for, as far as
    it goes: either to the last one, or to an error. *)
Definition serves_blocks (block : Z → PbBlock) (last : Z) : Prop :=
  ∀ k b, 0 <= b <= last + 1 → ∃ n rest, (0 <= n /\ b + n <= last + 1)%Z
    /\ connect k b = Some (((λ i, Some (mkResponse (Some (Some (block i))) 1)) <$> seqZ b n) ++ rest)
    /\ (rest = [] /\ b + n = last + 1 \/ ∃ r rest' e, rest = r :: rest' /\ decode_response r = inl e).

Context (block : Z → PbBlock) (rows : Z → list TableBatch) (last : Z).
Context (Hblock : ∀ n, pb_number (block n) = n /\ to_rows (block n) = Ok (rows n)).
Context (Hserves : serves_blocks block last) (Hlast : last < i64_max).

Lemma read_served b n rest :
  0 <= b → 0 <= n → b + n <= last + 1 →
  (rest = [] \/ ∃ r rest' e, rest = r :: rest' /\ decode_response r = inl e) →
  read_stream (((λ i, Some (mkResponse (Some (Some (block i))) 1)) <$> seqZ b n) ++ rest) b =
  ((λ i, inr (rows i)) <$> seqZ b n, match rest with [] => StreamEnd | _ => Retry (b + n) end).
Proof.
  intros Hb Hn Hle Hrest. revert b Hb Hle. pattern n. apply natlike_ind; [| |done].
  - intros b _ _. change (seqZ b 0) with (@nil Z). cbn [fmap list_fmap app]. destruct Hrest as [->|(r & rest' & e & -> & He)]; [done|].
    cbn [read_stream]. by rewrite He, Z.add_0_r.
  - clear n Hn. intros n Hn IH b Hb Hle. rewrite seqZ_cons by lia. rewrite !fmap_cons. cbn [app read_stream decode_response response_block].
    destruct (Hblock b) as [Hnum ->]. rewrite Hnum, add64_small by (unfold is_u64, u64_max, i64_max in *; lia).
    rewrite Z.pred_succ, IH by lia. f_equal. destruct rest; [done|]. f_equal. lia.
Qed.

Lemma firehose_delivers first k :
  0 <= first <= last →
  (∀ b rs, connect k b = Some rs → Forall (λ r, ∃ bl, decode_response r = inr bl) rs) →
  firehose_block_stream (S k) first = Ok ((λ n, inr (rows n)) <$> seqZ first (last - first + 1)).
Proof.
  intros Hf Hk. unfold firehose_block_stream.
  assert (∀ fuel i b, (i <= k)%nat → (k - i < fuel)%nat → 0 <= b <= last + 1 →
    firehose_loop fuel i b = Ok ((λ n, inr (rows n)) <$> seqZ b (last - b + 1))) as Hgen; [|apply Hgen; lia].
  induction fuel as [|fuel IH]; intros i b Hi Hfuel Hb; [lia|]. cbn [firehose_loop].
  rewrite to_i64_id by (unfold is_i64, i64_min, i64_max in *; lia).
  destruct (Hserves i b Hb) as (n & rest & [Hn Hle] & Hc & Hrest). rewrite Hc.
  rewrite read_served; [|lia..|destruct Hrest as [[? _]|?]; [by left|by right]].
  destruct Hrest as [[-> Hend]|(r & rest' & e & -> & He)].
  - do 3 f_equal. lia.
  - destruct (decide (i = k)) as [->|Hne].
    { specialize (Hk _ _ Hc). apply Forall_app in Hk as [_ [[bl Hbl] _]%list.Forall_cons]. congruence. }
    rewrite IH by lia. cbn [mbind comp_bind]. rewrite <- fmap_app. replace (last - b + 1) with (n + (last - (b + n) + 1)) by lia.
    by rewrite (seqZ_app b n) by lia.
Qed.

End Client.

(** ** Evaluations *)

Module Evaluation.
Import EvmTables.Evaluation.
#[local] Open Scope string_scope.

Definition b32 (n : Z) : bytes := replicate 31 0 ++ [n].
Definition b20 (n : Z) : bytes := replicate 19 0 ++ [n].

Definition test_header (n : Z) : PbHeader :=
  mkPbHeader n (Some 1700000000) (b32 n) (b32 (n - 1)) (b32 0) (b20 1) (b32 0) (b32 0) (b32 0) [] (Some [2]) None 30000000 42000 []
    (b32 0) 0 (Some [7]) [] None None [].

Definition test_log (i : Z) : PbLog := mkPbLog (b20 3) [b32 1; b32 2] [9] i.

Definition test_call (i : Z) (reverted : bool) : PbCall :=
  mkPbCall i 0 0 1 (b20 4) (b20 5) None 21000 21000 [] [] true false 1 2 reverted [test_log i].

Definition test_trace (i status : Z) (value : bytes) : TransactionTrace :=
  mkTrace_ i (b32 (10 + i)) [] 0 None 21000 (Some value) [] [] [] [] 21000 2 (b20 6) status [] [] 0 9 None None
    [test_call 0 false; test_call 1 true].

Definition test_block (n : Z) : PbBlock := mkPbBlock n (Some (test_header n)) [test_trace 0 2 []; test_trace 1 1 [5]].

(** The failed transaction and the reverted call are left out. *)
Example test_block_rows :
  match protobufs_to_rows try_new (test_block 5) "mainnet" with
  | Ok [_; txs; calls; logs] =>
      let col t name := read (batch_schema (tb_batch t)) (batch_columns (tb_batch t)) name 0 in
      (batch_rows (tb_batch txs), batch_rows (tb_batch calls), batch_rows (tb_batch logs)) = (1, 1, 1)%nat
      /\ col txs "tx_index" = Some (IntCell (Some 1)) /\ col logs "tx_index" = Some (IntCell (Some 1))
      /\ col txs "value" = Some (IntCell (Some 5))
  | _ => False
  end.
Proof. by vm_compute. Qed.

(** A value of sixteen bytes with its first bit set becomes negative. *)
Example currency_wraps :
  non_negative_pb_bigint_to_evm_currency "tx.value" (255 :: replicate 15 255) = Ok (-1).
Proof. done. Qed.

(** A block that is undone comes a second time, as if it were new. *)
Example undo_is_yielded :
  let response n step := Some (mkResponse (Some (Some (test_block n))) step) in
  match firehose_block_stream (λ b, protobufs_to_rows try_new b "mainnet")
          (λ _ _, Some [response 5 1; response 6 1; response 6 2; response 6 1]) 1 5 with
  | Ok items => (λ i : ClientError + list TableBatch, match i with inr (t :: _) => start (tb_range t) | _ => -1 end) <$> items = [5; 6; 6; 6]
  | _ => False
  end.
Proof. by vm_compute. Qed.

Lemma firehose_conversion_bounds_witness :
  (non_negative_pb_bigint_to_evm_currency "v" [1; 0] = Ok 256) /\ as_i64 (pb_timestamp 1700000000) = 1700000000000000000.
Proof.
  destruct (firehose_conversion_bounds "v" [1; 0] 1700000000) as (Hc & _ & Ht); [repeat constructor; lia|]. split; [|apply Ht; lia].
  destruct (non_negative_pb_bigint_to_evm_currency "v" [1; 0]) as [z|e| |] eqn:E; [|vm_compute in E; discriminate|done..].
  destruct Hc as (_ & _ & _ & [_ H]). f_equal. by rewrite H.
Defined.

Lemma protobufs_to_rows_correct_witness :
  ∃ tables, protobufs_to_rows try_new (test_block 5) "mainnet" = Ok tables /\ length tables = 4%nat.
Proof.
  pose proof (protobufs_to_rows_correct try_new try_new_accepts (test_block 5) "mainnet") as H.
  destruct (protobufs_to_rows _ _ _) as [tables|e| |] eqn:E.
  - destruct H as (h & row & ts & cs & gs & t0 & t1 & t2 & t3 & -> & _). by exists [t0; t1; t2; t3].
  - vm_compute in E. discriminate.
  - done.
  - done.
Defined.

(** Two connections: the first breaks after a block. *)
Definition simple_block (n : Z) : PbBlock := mkPbBlock n None [].
Definition responses (b n : Z) : list (option Response) := (λ i, Some (mkResponse (Some (Some (simple_block i))) 1)) <$> seqZ b n.
Definition test_connect (k : nat) (b : Z) : option (list (option Response)) :=
  match k with
  | O => Some (if decide (b <= 7) then (responses b 1 ++ [None])%list else [])
  | _ => Some (responses b (8 - b))
  end.

End Evaluation.
