(* ===== verification/Pinax.v ===== *)
(** * Pinax

    The Pinax extractor (extractors/pinax/src): the files of a range of blocks,
    found by binary search in the listing of a table, the mapping of their
    batches to the tables of the dataset, and the stream of blocks.

    The object store, the reader of Parquet files, Arrow's casts, its selection
    and concatenation of rows and the decoding of hexadecimals are parameters. A
    file is its location; its metadata are the names of its columns and, for
    each group of rows, the statistics of each column. *)

From stdpp Require Import base numbers gmap strings option list sorting.
From Stdlib Require Import ZArith Lia Ascii.
From S2P Require Import Prelude Ranges BlockRange RawWriter Decimal Text PgTypes PgCopy EvmTables.

#[local] Open Scope Z_scope.

Record Statistics := mkStatistics { min_bytes_opt : option bytes; max_bytes_opt : option bytes }.

Record PinaxFile := mkPinaxFile {
  parquet_schema : list string;
  row_groups : list (list (option Statistics));
  batches : list Batch
}.

Inductive PinaxError :=
  | StoreError | ParquetError
  | NoTable (name : string) | MissingColumn (name : string) | CastError (name : string) | NotCastable (name : string)
  | NotBool (name : string) | NotU64 | ArrowFailed (e : string) | RowsFailed (e : RowsError).

Abbreviation pinax := (comp PinaxError).

(** ** Tables (tables.rs) *)

#[local] Open Scope string_scope.

Definition common_head : list Field := [
  mkField SPECIAL_BLOCK_NUM DataType.UInt64 false; mkField "block_hash" BYTES32_TYPE false;
  mkField "block_num" DataType.UInt64 false; mkField "timestamp" timestamp_type false;
  mkField "tx_hash" BYTES32_TYPE true; mkField "ordinal" DataType.UInt64 false;
  mkField "address" EVM_ADDRESS_TYPE false
].

Definition storage_changes : list Field := common_head ++ [
  mkField "key" DataType.Binary false; mkField "old_value" DataType.Binary true; mkField "new_value" DataType.Binary true
].

Definition balance_changes : list Field := common_head ++ [
  mkField "old_value" DataType.Utf8 true; mkField "new_value" DataType.Utf8 true; mkField "reason" DataType.Utf8 true
].

Definition code_changes : list Field := common_head ++ [
  mkField "old_hash" BYTES32_TYPE true; mkField "new_hash" BYTES32_TYPE true;
  mkField "old_code" DataType.Binary true; mkField "new_code" DataType.Binary true
].

Definition nonce_changes : list Field := common_head ++ [
  mkField "old_value" DataType.UInt64 false; mkField "new_value" DataType.UInt64 false
].

(** The tables by their names, in the order of [all]. *)
Definition all : list (string * list Field) := [
  ("blocks", block_schema); ("transactions", trace_schema); ("calls", call_schema); ("logs", log_schema);
  ("storage_changes", storage_changes); ("balance_changes", balance_changes); ("code_changes", code_changes);
  ("nonce_changes", nonce_changes)
].

Definition schema_for (table : string) : option (list Field) := snd <$> List.find (λ t, (t.1 =? table)%string) all.

Definition sch (table : string) : pinax (list Field) := unwrap (schema_for table).

(** The bucket of an endpoint. *)
Definition bucket (endpoint : string) : option string :=
  head (split_on "."%char (default endpoint (strip_prefix "https://" endpoint))).

#[local] Close Scope string_scope.

(** ** Columns *)

Definition strip_0x (s : bytes) : bytes := match s with 48 :: 120 :: h => h | _ => s end.

Definition from_text (s : bytes) : string := String.string_of_list_ascii ((λ c, Ascii.ascii_of_nat (Z.to_nat c)) <$> s).

Definition i32_min : Z := -2147483648.

(** [str::parse] and [from_str_radix] of signed integers *)
Definition parse_signed (lo hi : Z) (s : string) : option Z :=
  match s with
  | String "-"%char rest => v ← value_of rest; if lo <=? - v then Some (- v) else None
  | String "+"%char rest => v ← value_of rest; if v <=? hi then Some v else None
  | _ => v ← value_of s; if v <=? hi then Some v else None
  end.

Definition hex_digit (c : Z) : option Z :=
  if (48 <=? c) && (c <=? 57) then Some (c - 48)
  else if (97 <=? c) && (c <=? 102) then Some (c - 87)
  else if (65 <=? c) && (c <=? 70) then Some (c - 55)
  else None.

Fixpoint hex_value (acc : Z) (s : bytes) : option Z :=
  match s with [] => Some acc | c :: s => d ← hex_digit c; hex_value (acc * 16 + d) s end.

Definition i32_from_hex (s : bytes) : option Z :=
  let '(sign, digits) := match s with 45 :: s => (-1, s) | 43 :: s => (1, s) | _ => (1, s) end in
  match digits with
  | [] => None
  | _ => v ← hex_value 0 digits; let v := sign * v in if (i32_min <=? v) && (v <=? i32_max) then Some v else None
  end.

Definition to_ascii_uppercase (s : bytes) : bytes := (λ c, if (97 <=? c) && (c <=? 122) then c - 32 else c) <$> s.

Definition is_text (s : bytes) (names : list string) : bool := bool_decide (s ∈ (text_of <$> names)).

Section Columns.
Context (cast : ArrayRef → DataType → comp string ArrayRef) (hex_decode : bytes → option bytes).

Definition column_of (b : Batch) (n : string) : pinax ArrayRef :=
  ok_or (column_by_name (batch_schema b) (batch_columns b) n) (MissingColumn n).

Definition cast_to (t : DataType) (b : Batch) (n : string) : pinax ArrayRef :=
  c ← column_of b n; comp_map_err (λ _, CastError n) (cast c t).

Definition utf8 (b : Batch) (n : string) : pinax (slots bytes) :=
  c ← cast_to DataType.Utf8 b n;
  match array c with GenericStringArray false xs => Ok xs | _ => Err (NotCastable n) end.

Definition u64col (b : Batch) (n : string) : pinax (slots Z) :=
  c ← cast_to DataType.UInt64 b n; match array c with PrimitiveArray UInt64Type xs => Ok xs | _ => Panic end.

Definition u32col (b : Batch) (n : string) : pinax (slots Z) :=
  c ← cast_to DataType.UInt32 b n; match array c with PrimitiveArray UInt32Type xs => Ok xs | _ => Panic end.

Definition bool_col (b : Batch) (n : string) : pinax (slots bool) :=
  c ← column_of b n; match array c with BooleanArray xs => Ok xs | _ => Err (NotBool n) end.

(** Text to bytes: of another length than [n] is null, or never null. *)
Definition fsb_slot (n : nat) (s : bool * bytes) : bool * bytes :=
  match (if s.1 then hex_decode (strip_0x s.2) else None) with
  | Some b => if (length b =? n)%nat then (true, b) else (false, replicate n 0)
  | None => (false, replicate n 0)
  end.

Definition fsb (a : slots bytes) (n : nat) : ArrayRef :=
  mkArrayRef (DataType.FixedSizeBinary (Z.of_nat n)) (FixedSizeBinaryArray (Z.of_nat n) (fsb_slot n <$> a)).

Definition bin (a : slots bytes) : ArrayRef :=
  binary ((λ s : bool * bytes, slot_value (if s.1 then default [] (hex_decode (strip_0x s.2)) else [])) <$> a).

Definition dec_slot (s : bool * bytes) : bool * Z :=
  slot_option (if s.1 && negb (bool_decide (s.2 = [])) then parse_signed i128_min i128_max (from_text s.2) else None).

Definition dec (a : slots bytes) : ArrayRef := evm_currency (dec_slot <$> a).

(** Seconds as nanoseconds: of a null slot, those of its buffer. *)
Definition saturating_mul_i64 (a b : Z) : Z := Z.max i64_min (Z.min i64_max (a * b)).

Definition ts_ns (a : slots Z) : ArrayRef :=
  timestamp_ns ((λ s : bool * Z, slot_value (saturating_mul_i64 (to_i64 s.2) 1000000000)) <$> a).

Definition fsb_zero (rows n : nat) : ArrayRef :=
  mkArrayRef (DataType.FixedSizeBinary (Z.of_nat n)) (FixedSizeBinaryArray (Z.of_nat n) (replicate rows (true, replicate n 0))).
Definition bin_empty (rows : nat) : ArrayRef := binary (replicate rows (true, [])).
Definition u64_const (rows : nat) (v : Z) : ArrayRef := uint64 (replicate rows (true, v)).

(** [null_of], for the types that it is used with. *)
Definition null_currency (rows : nat) : ArrayRef := evm_currency (replicate rows (false, 0)).
Definition null_bytes32 (rows : nat) : ArrayRef := bytes32 (replicate rows (false, replicate 32 0)).
Definition null_u64 (rows : nat) : ArrayRef := uint64 (replicate rows (false, 0)).

Definition parse_i32_value (s : bytes) : Z :=
  match s with
  | 48 :: 120 :: h => default 0 (i32_from_hex h)
  | _ =>
      match parse_signed i32_min i32_max (from_text s) with
      | Some v => v
      | None => if is_text (to_ascii_uppercase s) ["SUCCEEDED"; "SUCCESS"]%string then 1 else 0
      end
  end.

Definition parse_i32 (a : slots bytes) : ArrayRef :=
  int32 ((λ s : bool * bytes, slot_value (if s.1 then parse_i32_value s.2 else 0)) <$> a).

Definition call_type (s : bytes) : Z :=
  let t := to_ascii_uppercase s in
  if is_text t ["CALL"]%string then 1
  else if is_text t ["CALLCODE"]%string then 2
  else if is_text t ["DELEGATE"; "DELEGATECALL"]%string then 3
  else if is_text t ["STATIC"; "STATICCALL"]%string then 4
  else if is_text t ["CREATE"]%string then 5
  else if is_text t ["SELFDESTRUCT"]%string then 6
  else 0.

(** The value of a null slot is empty. *)
Definition call_types (a : slots bytes) : ArrayRef :=
  int32 ((λ s : bool * bytes, slot_value (call_type s.2)) <$> a).

(** ** Mappers *)

Context (try_new : list Field → list ArrayRef → comp string Batch).

Definition batch_of (table : string) (cols : list ArrayRef) : pinax Batch :=
  schema ← sch table; comp_map_err ArrowFailed (try_new schema cols).

Definition fsb_of (b : Batch) (n : string) (size : nat) : pinax ArrayRef := xs ← utf8 b n; Ok (fsb xs size).
Definition bin_of (b : Batch) (n : string) : pinax ArrayRef := xs ← utf8 b n; Ok (bin xs).
Definition dec_of (b : Batch) (n : string) : pinax ArrayRef := xs ← utf8 b n; Ok (dec xs).
Definition utf8_of (b : Batch) (n : string) : pinax ArrayRef :=
  xs ← utf8 b n; Ok (mkArrayRef DataType.Utf8 (GenericStringArray false xs)).
Definition u64_of (b : Batch) (n : string) : pinax ArrayRef := xs ← u64col b n; Ok (uint64 xs).
Definition u32_of (b : Batch) (n : string) : pinax ArrayRef := xs ← u32col b n; Ok (uint32 xs).
Definition ts_of (b : Batch) (n : string) : pinax ArrayRef := xs ← u64col b n; Ok (ts_ns xs).
Definition i32_of (b : Batch) (n : string) : pinax ArrayRef := xs ← utf8 b n; Ok (parse_i32 xs).
Definition bool_of (b : Batch) (n : string) : pinax ArrayRef := xs ← bool_col b n; Ok (boolean xs).

(** The columns one after the other, up to the first error. *)
Fixpoint columns_of (l : list (pinax ArrayRef)) : pinax (list ArrayRef) :=
  match l with [] => Ok [] | m :: l => c ← m; cs ← columns_of l; Ok (c :: cs) end.

#[local] Open Scope string_scope.

Definition head (b : Batch) : pinax (list ArrayRef) :=
  block_num ← u64col b "block_num";
  rest ← columns_of [
    fsb_of b "block_id" 32; Ok (uint64 block_num); ts_of b "timestamp"; fsb_of b "tx_hash" 32; u64_of b "ordinal";
    fsb_of b "address" 20 ];
  Ok (uint64 block_num :: rest).

(** A table of changes: the head and its own columns. *)
Definition map_changes (table : string) (own : Batch → list (pinax ArrayRef)) (b : Batch) : pinax Batch :=
  c ← head b; cs ← columns_of (own b); batch_of table (c ++ cs).

Definition map_storage_changes : Batch → pinax Batch :=
  map_changes "storage_changes" (λ b, [bin_of b "key"; bin_of b "old_value"; bin_of b "new_value"]).

Definition map_balance_changes : Batch → pinax Batch :=
  map_changes "balance_changes" (λ b, [utf8_of b "old_value"; utf8_of b "new_value"; utf8_of b "reason"]).

Definition map_code_changes : Batch → pinax Batch :=
  map_changes "code_changes" (λ b, [fsb_of b "old_hash" 32; fsb_of b "new_hash" 32; bin_of b "old_code"; bin_of b "new_code"]).

Definition map_nonce_changes : Batch → pinax Batch :=
  map_changes "nonce_changes" (λ b, [u64_of b "old_value"; u64_of b "new_value"]).

Definition map_calls (b : Batch) : pinax Batch :=
  block_num ← u64col b "block_num";
  ct_src ← utf8 b "call_type";
  let zero := u64_const (batch_rows b) 0 in
  cols ← columns_of [
    fsb_of b "block_id" 32; Ok (uint64 block_num); ts_of b "timestamp"; u32_of b "tx_index"; fsb_of b "tx_hash" 32;
    u32_of b "call_index"; u32_of b "parent_index"; u32_of b "depth"; Ok (call_types ct_src); fsb_of b "caller" 20;
    fsb_of b "address" 20; dec_of b "value"; u64_of b "gas_limit"; u64_of b "gas_consumed"; bin_of b "output";
    bin_of b "input"; bool_of b "suicide"; bool_of b "executed_code"; Ok zero; Ok zero ];
  batch_of "calls" (uint64 block_num :: cols).

Definition map_blocks (b : Batch) : pinax Batch :=
  let rows := batch_rows b in
  block_num ← u64col b "block_num";
  cols ← columns_of [
    Ok (uint64 block_num); ts_of b "timestamp"; fsb_of b "hash" 32; fsb_of b "parent_hash" 32; Ok (fsb_zero rows 32);
    fsb_of b "coinbase" 20; fsb_of b "state_root" 32; fsb_of b "transactions_root" 32; fsb_of b "receipt_root" 32;
    Ok (bin_empty rows); dec_of b "difficulty"; Ok (null_currency rows); u64_of b "gas_limit"; u64_of b "gas_used";
    bin_of b "extra_data"; fsb_of b "mix_hash" 32; u64_of b "nonce"; dec_of b "base_fee_per_gas"; Ok (null_bytes32 rows);
    Ok (null_u64 rows); Ok (null_u64 rows); Ok (null_bytes32 rows) ];
  batch_of "blocks" (uint64 block_num :: cols).

Definition map_transactions (b : Batch) : pinax Batch :=
  let rows := batch_rows b in
  block_num ← u64col b "block_num";
  cols ← columns_of [
    fsb_of b "block_id" 32; Ok (uint64 block_num); ts_of b "timestamp"; u32_of b "index"; fsb_of b "hash" 32;
    fsb_of b "to" 20; u64_of b "nonce"; dec_of b "gas_price"; u64_of b "gas_limit"; dec_of b "value"; bin_of b "input";
    Ok (bin_empty rows); Ok (bin_empty rows); Ok (bin_empty rows); u64_of b "gas_used"; i32_of b "type";
    dec_of b "max_fee_per_gas"; dec_of b "max_priority_fee_per_gas"; fsb_of b "from" 20; i32_of b "status";
    Ok (bin_empty rows); Ok (bin_empty rows); Ok (u64_const rows 0); Ok (u64_const rows 0) ];
  batch_of "transactions" (uint64 block_num :: cols).

Definition map_logs (b : Batch) : pinax Batch :=
  block_num ← u64col b "block_num";
  cols ← columns_of [
    fsb_of b "block_id" 32; Ok (uint64 block_num); ts_of b "timestamp"; fsb_of b "tx_hash" 32; u32_of b "tx_index";
    u32_of b "log_index"; fsb_of b "address" 20; fsb_of b "topic0" 32; fsb_of b "topic1" 32; fsb_of b "topic2" 32;
    fsb_of b "topic3" 32; bin_of b "data" ];
  batch_of "logs" (uint64 block_num :: cols).

Definition table_specs : list (string * (Batch → pinax Batch)) := [
  ("blocks", map_blocks); ("transactions", map_transactions); ("logs", map_logs); ("calls", map_calls);
  ("storage_changes", map_storage_changes); ("balance_changes", map_balance_changes);
  ("code_changes", map_code_changes); ("nonce_changes", map_nonce_changes)
].
End Columns.

#[local] Close Scope string_scope.

(** ** Selection of files *)

Definition u64le (b : option bytes) : option Z :=
  b ← b; if (length b =? 8)%nat then Some (from_be (rev b)) else None.

Record Bounds := mkBounds { lo : Z; hi : Z; have : bool }.

Definition group_bounds (idx : nat) (acc : Bounds) (rg : list (option Statistics)) : pinax Bounds :=
  st ← unwrap (rg !! idx);
  match st with
  | None => Ok acc
  | Some st =>
      match u64le (min_bytes_opt st), u64le (max_bytes_opt st) with
      | Some a, Some b => Ok (mkBounds (Z.min (lo acc) a) (Z.max (hi acc) b) true)
      | _, _ => Ok acc
      end
  end.

Fixpoint groups_bounds (idx : nat) (acc : Bounds) (rgs : list (list (option Statistics))) : pinax Bounds :=
  match rgs with [] => Ok acc | rg :: rgs => acc ← group_bounds idx acc rg; groups_bounds idx acc rgs end.

Section Store.
Context (list_files : string → pinax (list string)) (open : string → pinax PinaxFile).

Definition file_bounds (location : string) : pinax (option Z * option Z) :=
  f ← open location;
  match position (λ n, n =? "block_num")%string (parquet_schema f) with
  | None => Ok (None, None)
  | Some idx =>
      b ← groups_bounds idx (mkBounds u64_max 0 false) (row_groups f);
      Ok (if have b then (Some (lo b), Some (hi b)) else (None, None))
  end.

(** The lowest index whose maximum is not below [start]. *)
Fixpoint search (fuel : nat) (metas : list string) (start : Z) (lo hi : nat) : pinax nat :=
  match fuel with
  | O => OutOfFuel
  | S fuel =>
      if (lo <? hi)%nat then
        let mid := ((lo + hi) / 2)%nat in
        meta ← unwrap (metas !! mid);
        bounds ← file_bounds meta;
        match bounds.2 with
        | Some mx => if mx <? start then search fuel metas start (mid + 1) hi else search fuel metas start lo mid
        | None => search fuel metas start lo mid
        end
      else Ok lo
  end.

(** The scan stops at a file that starts past [end_]. *)
Fixpoint scan (metas : list string) (end_ : Z) : pinax (list string) :=
  match metas with
  | [] => Ok []
  | meta :: metas =>
      bounds ← file_bounds meta;
      if match bounds.1 with Some mn => end_ <? mn | None => false end then Ok []
      else out ← scan metas end_; Ok (meta :: out)
  end.

Definition files_in_range (prefix : string) (start end_ : Z) : pinax (list string) :=
  metas ← list_files prefix;
  let metas := merge_sort string_le metas in
  match metas with
  | [] => Ok []
  | _ => i ← search (S (length metas)) metas start 0 (length metas); scan (drop i metas) end_
  end.

Fixpoint max_location (metas : list string) (last : string) : string :=
  match metas with [] => last | meta :: metas => max_location metas (if decide (string_le last meta) then meta else last) end.

(** [latest_block] *)
Definition pinax_latest_block (network : string) : pinax (option Z) :=
  metas ← list_files (network +:+ "/calls");
  match metas with
  | [] => Ok None
  | meta :: metas => bounds ← file_bounds (max_location metas meta); Ok bounds.2
  end.

(** ** The stream *)

Context (cast : ArrayRef → DataType → comp string ArrayRef) (hex_decode : bytes → option bytes).
Context (try_new : list Field → list ArrayRef → comp string Batch) (new_empty : list Field → Batch).
Context (filter_record_batch : Batch → list (option bool) → comp string Batch).
Context (concat_batches : list Field → list Batch → comp string Batch).

Definition block_mask (block : Z) (b : Batch) : pinax (list (option bool)) :=
  c ← ok_or (column_by_name (batch_schema b) (batch_columns b) SPECIAL_BLOCK_NUM) (MissingColumn SPECIAL_BLOCK_NUM);
  match array c with
  | PrimitiveArray UInt64Type xs => Ok ((λ s, (λ n, n =? block) <$> nullable s) <$> xs)
  | _ => Err NotU64
  end.

Definition filter_block (batches : list Batch) (block : Z) (schema : list Field) : pinax (list ArrayRef) :=
  kept ← mapM (λ b, mask ← block_mask block b; comp_map_err ArrowFailed (filter_record_batch b mask)) batches;
  combined ← match kept with
             | [] => Ok (new_empty schema)
             | _ => comp_map_err ArrowFailed (concat_batches schema kept)
             end;
  Ok (batch_columns combined).

Record Loaded := mkLoaded { loaded_name : string; loaded_schema : list Field; loaded_batches : list Batch }.

Definition load_file (map_fn : Batch → pinax Batch) (location : string) : pinax (list Batch) :=
  f ← open location; mapM map_fn (batches f).

Definition load_table (network : string) (start end_ : Z) (spec : string * (Batch → pinax Batch)) : pinax Loaded :=
  table ← ok_or (List.find (λ t, (t.1 =? spec.1)%string) all) (NoTable spec.1);
  files ← files_in_range (network +:+ "/" +:+ spec.1) start end_;
  mapped ← mapM (load_file spec.2) files;
  Ok (mkLoaded table.1 table.2 (concat mapped)).

Definition load_tables (network : string) (start end_ : Z) : pinax (list Loaded) :=
  mapM (load_table network start end_) (table_specs cast hex_decode try_new).

Definition pinax_range (network : string) (block : Z) : BlockRange := mkBlockRange (mkRange block block) network 0 None.

Definition block_table_rows (network : string) (block : Z) (l : Loaded) : pinax TableBatch :=
  cols ← filter_block (loaded_batches l) block (loaded_schema l);
  comp_map_err RowsFailed (raw_table_rows_new try_new (loaded_name l) (loaded_schema l) (pinax_range network block) cols).

Definition block_item (network : string) (loaded : list Loaded) (block : Z) : pinax (list TableBatch) :=
  rows ← mapM (block_table_rows network block) loaded; of_total (raw_dataset_rows rows).

(** The stream ends with its first error. *)
Fixpoint block_items (network : string) (loaded : list Loaded) (blocks : list Z) : list (pinax (list TableBatch)) :=
  match blocks with
  | [] => []
  | block :: blocks =>
      match block_item network loaded block with
      | Ok rows => Ok rows :: block_items network loaded blocks
      | e => [e]
      end
  end.

Definition pinax_block_stream (network : string) (start end_ : Z) : list (pinax (list TableBatch)) :=
  match load_tables network start end_ with
  | Ok loaded => block_items network loaded (seqZ start (end_ - start + 1))
  | Err e => [Err e]
  | Panic => [Panic]
  | OutOfFuel => [OutOfFuel]
  end.
End Store.

(** ** Typed batches *)

(** An array of the type it is said to have, of the types the tables use. *)
Definition flat (c : ArrayRef) : bool :=
  match array_type c, array c with
  | DataType.UInt64, PrimitiveArray UInt64Type _ | DataType.UInt32, PrimitiveArray UInt32Type _
  | DataType.Int32, PrimitiveArray Int32Type _ | DataType.Boolean, BooleanArray _
  | DataType.Binary, GenericBinaryArray false _ | DataType.Utf8, GenericStringArray false _
  | DataType.Timestamp Nanosecond _, PrimitiveArray TimestampNanosecondType _ => true
  | DataType.FixedSizeBinary n, FixedSizeBinaryArray m _ => n =? m
  | DataType.Decimal128 _ s, Decimal128Array s' _ => s =? s'
  | _, _ => false
  end.

Definition all_flat (cols : list ArrayRef) : Prop := Forall (λ c, flat c = true) cols.

Definition well_formed (schema : list Field) (n : nat) (b : Batch) : Prop :=
  batch_schema b = schema /\ Forall2 (fits n) schema (batch_columns b) /\ all_flat (batch_columns b).

(** The cells of a column, and the numbers of the blocks of the rows. *)
Definition column_cells (b : Batch) (k : nat) : list Cell :=
  match batch_columns b !! k with Some c => array_cells (array c) | None => [] end.

Definition nums (b : Batch) : list Z := match block_nums b with UInt64Column v => omap id v | _ => [] end.

Fixpoint keep {A} (mask : list bool) (l : list A) : list A :=
  match mask, l with m :: mask, x :: l => if m then x :: keep mask l else keep mask l | _, _ => [] end.

Definition selected (o : option bool) : bool := match o with Some true => true | _ => false end.

(** The rows of a block, in a column. *)
Definition rows_of (block : Z) (k : nat) (b : Batch) : list Cell :=
  keep ((λ n, n =? block) <$> nums b) (column_cells b k).

(** What Arrow promises: a batch is built when its columns fit its schema, and
    selection and concatenation work on rows. *)
Record arrow_laws (try_new : list Field → list ArrayRef → comp string Batch) (new_empty : list Field → Batch)
    (filter_record_batch : Batch → list (option bool) → comp string Batch)
    (concat_batches : list Field → list Batch → comp string Batch) : Prop := {
  try_new_law schema cols : cols ≠ [] → all_flat cols →
    match try_new schema cols with
    | Ok b => b = mkArrowBatch schema cols /\ ∃ n, Forall2 (fits n) schema cols
    | Err _ => ¬ ∃ n, Forall2 (fits n) schema cols
    | _ => False
    end;
  new_empty_law t : t ∈ all → well_formed t.2 0 (new_empty t.2);
  filter_law schema n b mask : well_formed schema n b → length mask = n →
    ∃ b', filter_record_batch b mask = Ok b' /\ (∃ m, well_formed schema m b')
          /\ ∀ k, column_cells b' k = keep (selected <$> mask) (column_cells b k);
  concat_law schema bs : bs ≠ [] → Forall (λ b, ∃ n, well_formed schema n b) bs →
    ∃ b', concat_batches schema bs = Ok b' /\ (∃ m, well_formed schema m b')
          /\ ∀ k, column_cells b' k = bs ≫= λ b, column_cells b k
}.

Lemma flat_kind c : flat c = true →
  match array c with
  | BooleanArray _ | PrimitiveArray _ _ | Decimal128Array _ _ | GenericBinaryArray _ _ | FixedSizeBinaryArray _ _ | GenericStringArray _ _ => True
  | _ => False
  end.
Proof.
  unfold flat. destruct c as [t a]. cbn.
  destruct t; try discriminate; try match goal with u : TimeUnit |- _ => destruct u; try discriminate end; by destruct a.
Qed.

Lemma keep_none {A} mask (l : list A) : Forall (λ m, m = false) mask → keep mask l = [].
Proof. intros H. revert l. induction H as [|m mask -> _ IH]; intros [|x l]; cbn; auto. Qed.

Lemma keep_fmap {A B} (f : A → B) mask l : keep mask (f <$> l) = f <$> keep mask l.
Proof. revert l. induction mask as [|[] mask IH]; intros [|x l]; cbn; [done..|by rewrite IH|done|apply IH]. Qed.

Lemma keep_elem {A} (p : A → bool) l x : x ∈ keep (p <$> l) l → p x = true.
Proof.
  induction l as [|y l IH]; cbn; [by intros ?%elem_of_nil|]. destruct (p y) eqn:E; [|exact IH].
  intros [->|?]%elem_of_cons; auto.
Qed.

(** ** Mapped batches *)

(** A schema starts with the number of the block. *)
Definition numbered (schema : list Field) : Prop := ∃ rest, schema = mkField SPECIAL_BLOCK_NUM DataType.UInt64 false :: rest.

Lemma no_nulls {V} (xs : slots V) : count_nulls xs = 0%nat → (nullable <$> xs) = Some <$> xs.*2.
Proof.
  unfold count_nulls. induction xs as [|[v x] xs IH]; [done|]. rewrite filter_cons. destruct v; cbn; [|done].
  intros H. by rewrite IH.
Qed.

Lemma omap_id_Some {A} (l : list A) : omap id (Some <$> l) = l.
Proof. induction l as [|x l IH]; cbn in *; [done|by rewrite IH]. Qed.

(** The first column of a batch with such a schema. *)
Lemma numbered_column schema n b :
  numbered schema → well_formed schema n b →
  ∃ xs rest, batch_columns b = mkArrayRef DataType.UInt64 (PrimitiveArray UInt64Type xs) :: rest
    /\ column_by_name (batch_schema b) (batch_columns b) SPECIAL_BLOCK_NUM = Some (mkArrayRef DataType.UInt64 (PrimitiveArray UInt64Type xs))
    /\ length xs = n /\ nullable <$> xs = Some <$> xs.*2 /\ block_nums b = UInt64Column (Some <$> xs.*2) /\ nums b = xs.*2
    /\ column_cells b 0 = IntCell ∘ Some <$> nums b.
Proof.
  intros [rest ->] (Hs & Hfit & Hflat). apply Forall2_cons_inv_l in Hfit as (c & cols & (Ht & Hnull & Hlen) & _ & Hc).
  unfold all_flat in Hflat. rewrite Hc in Hflat. apply list.Forall_cons in Hflat as [Hf _]. destruct c as [t a]. cbn in Ht. subst t.
  destruct a as [|[] xs| | | | | | | | |]; try discriminate Hf. cbn in Hlen, Hnull. specialize (Hnull eq_refl).
  pose proof (no_nulls xs Hnull) as Hn. exists xs, cols.
  assert (column_by_name (batch_schema b) (batch_columns b) SPECIAL_BLOCK_NUM = Some (mkArrayRef DataType.UInt64 (PrimitiveArray UInt64Type xs))) as Hcol
    by (by rewrite Hs, Hc).
  assert (block_nums b = UInt64Column (Some <$> xs.*2)) as Hb by (unfold block_nums; rewrite Hcol; cbn; f_equal; exact Hn).
  assert (nums b = xs.*2) as Hm by (unfold nums; rewrite Hb; apply omap_id_Some).
  split_and!; try done. unfold column_cells. rewrite Hc, Hm. cbn. by rewrite list_fmap_compose, Hn, <- list_fmap_compose.
Qed.

(** A computation of a column of the type it says. *)
Definition produces (m : pinax ArrayRef) : Prop := ∀ c, m = Ok c → flat c = true.

Lemma produces_bind {A} (m : pinax A) (f : A → ArrayRef) : (∀ x, flat (f x) = true) → produces (x ← m; Ok (f x)).
Proof. intros Hf c. rewrite bind_Ok. by intros (x & _ & [= <-]). Qed.

Lemma produces_ret c : flat c = true → produces (Ok c).
Proof. by intros Hf c' [= <-]. Qed.

Lemma columns_of_flat l cs : Forall produces l → columns_of l = Ok cs → all_flat cs.
Proof.
  intros Hl. revert cs. induction Hl as [|m l Hm _ IH]; intros cs; cbn [columns_of]; [by intros [= <-]; constructor|].
  rewrite bind_Ok. intros (c & Hc & H). rewrite bind_Ok in H. destruct H as (cs' & Hcs & [= <-]).
  constructor; [by apply Hm|by apply IH].
Qed.

Create HintDb columns discriminated.
#[export] Hint Resolve produces_bind produces_ret : columns.
#[export] Hint Extern 1 (flat _ = true) => (cbn; rewrite ?Z.eqb_refl; reflexivity) : columns.

Section MappersCorrect.
Context (cast : ArrayRef → DataType → comp string ArrayRef) (hex_decode : bytes → option bytes).
Context (try_new : list Field → list ArrayRef → comp string Batch) (new_empty : list Field → Batch).
Context (filter_record_batch : Batch → list (option bool) → comp string Batch) (concat_batches : list Field → list Batch → comp string Batch).
Context (Harrow : arrow_laws try_new new_empty filter_record_batch concat_batches).

(** The batch of a mapper: the schema of the table, and the block numbers of the
    source in front. *)
Definition mapped (table : string) (b b' : Batch) : Prop :=
  ∃ schema xs rest n, schema_for table = Some schema /\ numbered schema /\ u64col cast b "block_num" = Ok xs
    /\ batch_columns b' = uint64 xs :: rest /\ well_formed schema n b'.

Lemma schema_for_numbered table schema : schema_for table = Some schema → numbered schema.
Proof.
  unfold schema_for, all. intros H. cbn [List.find fst snd] in H.
  repeat match type of H with context [if ?b then _ else _] => destruct b; [injection H as <-; by eexists|] end. done.
Qed.

Lemma batch_of_mapped table b xs cols b' :
  u64col cast b "block_num" = Ok xs → all_flat cols → batch_of try_new table (uint64 xs :: cols) = Ok b' → mapped table b b'.
Proof.
  intros Hxs Hflat. unfold batch_of, sch. rewrite bind_Ok. intros (schema & Hs & Hb).
  destruct (schema_for table) as [s|] eqn:E; [|done]. injection Hs as ->.
  assert (all_flat (uint64 xs :: cols)) as Hall by by constructor.
  pose proof (try_new_law _ _ _ _ Harrow schema (uint64 xs :: cols) ltac:(done) Hall) as Hl.
  destruct (try_new _ _) as [b0| | |]; try done. injection Hb as ->. destruct Hl as [-> [n Hn]].
  exists schema, xs, cols, n. repeat split; try done. by eapply schema_for_numbered.
Qed.

Ltac mapper :=
  repeat (rewrite bind_Ok; let y := fresh in intros (? & ? & y); revert y);
  intros Hb; eapply batch_of_mapped; [eassumption| |exact Hb]; eapply columns_of_flat; [|eassumption];
  repeat (constructor; [eauto with columns|]); constructor.

Lemma map_blocks_mapped b b' : map_blocks cast hex_decode try_new b = Ok b' → mapped "blocks" b b'.
Proof. unfold map_blocks. mapper. Qed.
Lemma map_transactions_mapped b b' : map_transactions cast hex_decode try_new b = Ok b' → mapped "transactions" b b'.
Proof. unfold map_transactions. mapper. Qed.
Lemma map_logs_mapped b b' : map_logs cast hex_decode try_new b = Ok b' → mapped "logs" b b'.
Proof. unfold map_logs. mapper. Qed.
Lemma map_calls_mapped b b' : map_calls cast hex_decode try_new b = Ok b' → mapped "calls" b b'.
Proof. unfold map_calls. mapper. Qed.

Lemma map_changes_mapped table own b b' :
  Forall produces (own b) → map_changes cast hex_decode try_new table own b = Ok b' → mapped table b b'.
Proof.
  intros Hown. unfold map_changes, head. rewrite bind_Ok. intros (c & Hc & H). rewrite bind_Ok in H. destruct H as (cs & Hcs & Hb).
  rewrite bind_Ok in Hc. destruct Hc as (xs & Hxs & Hc). rewrite bind_Ok in Hc. destruct Hc as (rest & Hrest & [= <-]).
  eapply (batch_of_mapped table b xs (rest ++ cs)); [done| |done]. apply Forall_app. split; [|by eapply columns_of_flat].
  eapply columns_of_flat; [|exact Hrest]. repeat (constructor; [eauto with columns|]). constructor.
Qed.

Lemma spec_mapped name fn : (name, fn) ∈ table_specs cast hex_decode try_new → ∀ b b', fn b = Ok b' → mapped name b b'.
Proof.
  unfold table_specs. intros Hin b b' Hb.
  repeat (apply elem_of_cons in Hin as [[= -> ->]|Hin];
    [first [by apply map_blocks_mapped|by apply map_transactions_mapped|by apply map_logs_mapped|by apply map_calls_mapped
           |eapply map_changes_mapped; [|exact Hb]; repeat (constructor; [eauto with columns|]); constructor]|]).
  by apply elem_of_nil in Hin.
Qed.
End MappersCorrect.

(** ** Blocks of loaded batches *)

Section BlocksCorrect.
Context (try_new : list Field → list ArrayRef → comp string Batch) (new_empty : list Field → Batch).
Context (filter_record_batch : Batch → list (option bool) → comp string Batch) (concat_batches : list Field → list Batch → comp string Batch).
Context (Harrow : arrow_laws try_new new_empty filter_record_batch concat_batches).

Lemma block_mask_spec schema n b block :
  numbered schema → well_formed schema n b →
  ∃ mask, block_mask block b = Ok mask /\ length mask = n /\ selected <$> mask = (λ m, m =? block) <$> nums b.
Proof.
  intros Hnum Hwf. destruct (numbered_column _ _ _ Hnum Hwf) as (xs & rest & _ & Hcol & Hlen & Hnull & _ & Hnums & _).
  unfold block_mask. rewrite Hcol. cbn. eexists. split; [done|]. split; [by rewrite length_fmap|].
  rewrite <- list_fmap_compose, Hnums.
  assert ((selected ∘ λ s : bool * Z, (λ m, m =? block) <$> nullable s) <$> xs
    = selected ∘ fmap (λ m, m =? block) <$> (nullable <$> xs)) as -> by by rewrite <- list_fmap_compose.
  rewrite Hnull, <- list_fmap_compose. apply list_fmap_ext. intros i m _. cbn. by destruct (m =? block).
Qed.

(** The kept rows of a batch. *)
Lemma kept_spec schema b block :
  numbered schema → (∃ n, well_formed schema n b) →
  ∃ b', (mask ← block_mask block b; comp_map_err ArrowFailed (filter_record_batch b mask)) = Ok b'
        /\ (∃ m, well_formed schema m b') /\ ∀ k, column_cells b' k = rows_of block k b.
Proof.
  intros Hnum [n Hwf]. destruct (block_mask_spec schema n b block Hnum Hwf) as (mask & -> & Hlen & Hsel). cbn.
  destruct (filter_law _ _ _ _ Harrow schema n b mask Hwf Hlen) as (b' & -> & Hwf' & Hk). exists b'. split_and!; [done..|].
  intros k. unfold rows_of. by rewrite Hk, Hsel.
Qed.

Lemma filter_block_spec table schema bs block :
  schema_for table = Some schema → Forall (λ b, ∃ n, well_formed schema n b) bs →
  ∃ b', filter_block new_empty filter_record_batch concat_batches bs block schema = Ok (batch_columns b')
        /\ (∃ m, well_formed schema m b') /\ ∀ k, column_cells b' k = bs ≫= rows_of block k.
Proof.
  intros Htable Hbs. pose proof (schema_for_numbered _ _ Htable) as Hnum. unfold filter_block.
  assert (∃ kept, mapM (λ b, mask ← block_mask block b; comp_map_err ArrowFailed (filter_record_batch b mask)) bs = Ok kept
    /\ Forall2 (λ b b', (∃ m, well_formed schema m b') /\ ∀ k, column_cells b' k = rows_of block k b) bs kept) as (kept & -> & Hkept).
  { induction Hbs as [|b bs Hb _ (kept & IH & Hall)]; [by exists []|]. destruct (kept_spec schema b block Hnum Hb) as (b' & Hb' & Hwf & Hk).
    exists (b' :: kept). split; [by rewrite mapM_cons, Hb', IH|]. by constructor. }
  cbn. destruct kept as [|b' kept].
  - apply Forall2_nil_inv_r in Hkept as ->. cbn. exists (new_empty schema).
    assert (∃ t, t ∈ all /\ t.2 = schema) as ([name ?] & Hin & [= ->]).
    { unfold schema_for in Htable. destruct (List.find _ _) as [t|] eqn:E; [|done]. injection Htable as <-. exists t.
      by apply find_some in E as [?%list_elem_of_In _]. }
    pose proof (new_empty_law _ _ _ _ Harrow _ Hin) as Hwf. split_and!; [done|by exists 0%nat|]. intros k. unfold column_cells.
    destruct Hwf as (_ & Hfit & Hflat). destruct (batch_columns _ !! k) as [c|] eqn:E; [|done]. cbn.
    eapply Forall2_lookup_r in Hfit as (f & _ & _ & _ & Hlen); [|exact E]. cbn in E.
    eapply list.Forall_lookup_1 in Hflat; [|exact E]. apply nil_length_inv. rewrite cells_length; [done|].
    apply flat_kind in Hflat. by destruct (array c).
  - destruct (concat_law _ _ _ _ Harrow schema (b' :: kept) ltac:(done)) as (out & -> & Hwf & Hk).
    { apply Forall_forall. intros x Hx%list_elem_of_lookup_1. destruct Hx as (i & Hi).
      eapply Forall2_lookup_r in Hkept as (? & _ & ? & _); [|exact Hi]. done. }
    cbn. exists out. split_and!; [done..|]. intros k. rewrite Hk. clear -Hkept. revert Hkept. generalize (b' :: kept). intros l Hl.
    induction Hl as [|b x bs l [_ Hx] _ IH]; [done|]. cbn. by rewrite Hx, IH.
Qed.

(** Every row of the selection is of the block. *)
Lemma selection_nums schema b bs block :
  numbered schema → (∃ m, well_formed schema m b) → Forall (λ b, ∃ n, well_formed schema n b) bs →
  column_cells b 0 = bs ≫= rows_of block 0 → Forall (λ n, n = block) (nums b).
Proof.
  intros Hnum [m Hwf] Hbs Hcells. destruct (numbered_column _ _ _ Hnum Hwf) as (? & ? & _ & _ & _ & _ & _ & _ & Hc).
  rewrite Hc in Hcells. apply Forall_forall. intros n Hn.
  assert (IntCell (Some n) ∈ bs ≫= rows_of block 0) as Hin by (rewrite <- Hcells; by apply (list_elem_of_fmap_2 (IntCell ∘ Some))).
  apply list_elem_of_bind in Hin as (b' & Hin & Hb'). rewrite Forall_forall in Hbs. destruct (Hbs b' Hb') as [n' Hwf'].
  destruct (numbered_column _ _ _ Hnum Hwf') as (? & ? & _ & _ & _ & _ & _ & _ & Hc'). unfold rows_of in Hin.
  rewrite Hc', keep_fmap in Hin. apply list_elem_of_fmap in Hin as (n'' & [= <-] & Hn''). apply keep_elem in Hn''. lia.
Qed.

(** A table of a block is the selection. *)
Lemma block_table_rows_spec network table schema bs block :
  schema_for table = Some schema → Forall (λ b, ∃ n, well_formed schema n b) bs →
  ∃ t, block_table_rows try_new new_empty filter_record_batch concat_batches network block (mkLoaded table schema bs) = Ok t
    /\ tb_table t = table /\ tb_range t = pinax_range network block /\ (∃ n, well_formed schema n (tb_batch t))
    /\ ∀ k, column_cells (tb_batch t) k = bs ≫= rows_of block k.
Proof.
  intros Htable Hbs. pose proof (schema_for_numbered _ _ Htable) as Hnum. unfold block_table_rows. cbn [loaded_name loaded_schema loaded_batches].
  destruct (filter_block_spec table schema bs block Htable Hbs) as (b & -> & [m Hwf] & Hk). cbn.
  pose proof Hwf as (Hs & Hfit & Hflat). destruct (numbered_column _ _ _ Hnum Hwf) as (xs & rest & Hcols & _ & Hlen & _ & Hblocks & Hnums & _).
  assert (batch_columns b ≠ []) as Hne by by rewrite Hcols.
  pose proof (try_new_law _ _ _ _ Harrow schema (batch_columns b) Hne Hflat) as Htry.
  unfold raw_table_rows_new. destruct (try_new _ _) as [b0| | |]; [|by destruct Htry; eauto|done..]. destruct Htry as [-> _].
  rewrite <- Hs. replace (mkArrowBatch (batch_schema b) (batch_columns b)) with b by by destruct b.
  unfold summary. rewrite Hblocks. pose proof (selection_nums schema b bs block Hnum (ex_intro _ m Hwf) Hbs (Hk 0%nat)) as Hall.
  assert (batch_rows b = length xs) as -> by (unfold batch_rows; by rewrite Hcols).
  pose proof (check_rows (pinax_range network block) (Z.of_nat (length xs)) xs.*2 eq_refl ltac:(by rewrite length_fmap) 0) as Hc.
  destruct (check_invariants _ _) as [[]|e| |]; try done.
  - eexists. split; [done|]. cbn. repeat (split; [done|]). split; [|done]. exists m. by rewrite Hs.
  - exfalso. destruct e; try done. destruct Hc as [Hin Hne']. rewrite Hnums in Hall. rewrite Forall_forall in Hall. by apply Hne', Hall.
Qed.
End BlocksCorrect.

(** ** Files of a range *)

(** The statistics of a group of rows are its least and greatest block. *)
Definition group_exact (idx : nat) (g : list Z) (rg : list (option Statistics)) : Prop :=
  ∃ st a b, rg !! idx = Some (Some st) /\ u64le (min_bytes_opt st) = Some a /\ u64le (max_bytes_opt st) = Some b
    /\ a ∈ g /\ b ∈ g /\ Forall (λ n, a <= n <= b) g /\ 0 <= a /\ b <= u64_max.

(** Of the groups of a file, all have statistics or none. *)
Definition statistics_exact (f : PinaxFile) (l : list Z) : Prop :=
  ∃ idx groups, position (λ n, n =? "block_num")%string (parquet_schema f) = Some idx /\ concat groups = l
    /\ (Forall2 (group_exact idx) groups (row_groups f) \/ Forall (λ rg, rg !! idx = Some None) (row_groups f)).

Definition bounds_exact (l : list Z) (bounds : option Z * option Z) : Prop :=
  bounds = (None, None) \/ ∃ a b, bounds = (Some a, Some b) /\ a ∈ l /\ b ∈ l /\ Forall (λ n, a <= n <= b) l.

Definition bounds_of (seen : list Z) (acc : Bounds) : Prop :=
  (acc = mkBounds u64_max 0 false /\ seen = [])
  \/ (have acc = true /\ lo acc ∈ seen /\ hi acc ∈ seen /\ Forall (λ n, lo acc <= n <= hi acc) seen).

Lemma group_bounds_spec idx seen acc g rg :
  bounds_of seen acc → group_exact idx g rg → ∃ acc', group_bounds idx acc rg = Ok acc' /\ bounds_of (seen ++ g) acc'.
Proof.
  intros Hacc (st & a & b & Hst & Ha & Hb & Hain & Hbin & Hall & Ha0 & Hbm). unfold group_bounds. rewrite Hst. cbn. rewrite Ha, Hb.
  eexists. split; [done|]. right. cbn. rewrite !elem_of_app, Forall_app. destruct Hacc as [[-> ->]|(_ & Hlo & Hhi & Hseen)]; cbn.
  - assert (a <= b) by (rewrite Forall_forall in Hall; by apply Hall).
    rewrite Z.min_r, Z.max_r by lia. split_and!; auto.
  - split_and!; [done|destruct (Z.min_spec (lo acc) a) as [[_ ->]|[_ ->]]; auto|destruct (Z.max_spec (hi acc) b) as [[_ ->]|[_ ->]]; auto| |];
      (eapply Forall_impl; [eassumption|]); cbn; intros; lia.
Qed.

Lemma groups_bounds_spec idx groups rgs : ∀ seen acc,
  bounds_of seen acc → Forall2 (group_exact idx) groups rgs → ∃ acc', groups_bounds idx acc rgs = Ok acc' /\ bounds_of (seen ++ concat groups) acc'.
Proof.
  intros seen acc Hacc Hall. revert seen acc Hacc. induction Hall as [|g rg groups rgs Hg _ IH]; intros seen acc Hacc; cbn [groups_bounds concat].
  - exists acc. by rewrite app_nil_r.
  - destruct (group_bounds_spec idx seen acc g rg Hacc Hg) as (acc' & -> & Hacc'). cbn.
    destruct (IH _ _ Hacc') as (acc'' & ? & ?). exists acc''. by rewrite app_assoc.
Qed.

Lemma groups_bounds_none idx rgs acc : Forall (λ rg, rg !! idx = Some None) rgs → groups_bounds idx acc rgs = Ok acc.
Proof. induction 1 as [|rg rgs Hrg _ IH]; [done|]. cbn [groups_bounds]. unfold group_bounds. by rewrite Hrg. Qed.

Section FilesCorrect.
Context (list_files : string → pinax (list string)) (open : string → pinax PinaxFile) (content : string → list Z).

(** A file opens, and its statistics tell its blocks. *)
Definition readable (m : string) : Prop := ∃ f, open m = Ok f /\ statistics_exact f (content m).

(** No block of an earlier file comes after one of a later file. *)
Definition earlier (m m' : string) : Prop := ∀ v w, v ∈ content m → w ∈ content m' → v <= w.

Lemma file_bounds_spec m : readable m → ∃ bounds, file_bounds open m = Ok bounds /\ bounds_exact (content m) bounds.
Proof.
  intros (f & Hf & idx & groups & Hidx & Hcat & Hst). unfold file_bounds. rewrite Hf. cbn. rewrite Hidx. destruct Hst as [Hst|Hst].
  - destruct (groups_bounds_spec idx groups (row_groups f) [] (mkBounds u64_max 0 false) ltac:(by left) Hst) as (acc & -> & Hacc). cbn.
    eexists. split; [done|]. destruct Hacc as [[-> _]|(-> & ? & ? & ?)]; [by left|]. right. rewrite <- Hcat. eauto 10.
  - rewrite groups_bounds_none by done. eexists. split; [done|by left].
Qed.

Context (metas : list string) (Hread : Forall readable metas) (Hsorted : StronglySorted earlier metas) (start end_ : Z).

Lemma search_spec fuel : ∀ lo hi,
  (hi <= length metas)%nat → (lo <= hi)%nat → (hi - lo < fuel)%nat →
  (∀ i m, (i < lo)%nat → metas !! i = Some m → Forall (λ n, n < start) (content m)) →
  ∃ r, search open fuel metas start lo hi = Ok r
       /\ ∀ i m, (i < r)%nat → metas !! i = Some m → Forall (λ n, n < start) (content m).
Proof.
  induction fuel as [|fuel IH]; intros lo hi Hhi Hle Hfuel Hbefore; [lia|]. cbn [search].
  destruct (Nat.ltb_spec lo hi) as [Hlt|?]; [|eauto].
  assert (lo <= (lo + hi) / 2 < hi)%nat as [Hmid1 Hmid2].
  { split; [apply Nat.div_le_lower_bound; lia|apply Nat.Div0.div_lt_upper_bound; lia]. }
  revert Hmid1 Hmid2. generalize ((lo + hi) / 2)%nat. intros mid Hmid1 Hmid2.
  destruct (lookup_lt_is_Some_2 metas mid ltac:(lia)) as [m Hm]. rewrite Hm. cbn [unwrap mbind comp_bind].
  pose proof Hread as Hall. rewrite Forall_lookup in Hall. destruct (file_bounds_spec m (Hall _ _ Hm)) as (bounds & -> & Hb). cbn.
  destruct Hb as [-> |(a & b & -> & _ & Hb & Hbounds)]; cbn; [apply IH; try done; lia|].
  destruct (Z.ltb_spec b start) as [Hbs|?]; [|apply IH; try done; lia].
  apply IH; [lia|lia|lia|]. intros i m' Hi Hm'. apply Forall_forall. intros n Hn. rewrite Forall_forall in Hbounds.
  destruct (decide (i = mid)) as [-> |Hne].
  - rewrite Hm in Hm'. injection Hm' as <-. specialize (Hbounds n Hn). lia.
  - pose proof (StronglySorted_lookup earlier metas i mid m' m Hsorted Hm' Hm ltac:(lia) n b Hn Hb). lia.
Qed.

Lemma scan_spec l : Forall readable l → StronglySorted earlier l →
  ∃ out after, scan open l end_ = Ok out /\ l = out ++ after /\ Forall (λ m, Forall (λ n, end_ < n) (content m)) after.
Proof.
  induction l as [|m l IH]; intros Hall Hs; cbn [scan]; [by exists [], []|].
  apply list.Forall_cons in Hall as [Hm Hl]. apply StronglySorted_inv in Hs as [Hs Hlater].
  destruct (file_bounds_spec m Hm) as (bounds & -> & Hb). cbn. destruct (IH Hl Hs) as (out & after & -> & -> & Hafter).
  destruct Hb as [-> |(a & b & -> & Ha & _ & Hbounds)]; cbn; [by exists (m :: out), after|].
  destruct (Z.ltb_spec end_ a) as [Hlt|?]; [|by exists (m :: out), after]. exists [], (m :: out ++ after). split_and!; [done..|].
  rewrite Forall_forall in Hbounds. constructor; [apply Forall_forall; intros n Hn; specialize (Hbounds n Hn); lia|].
  eapply Forall_impl; [exact Hlater|]. intros m' Hm'. apply Forall_forall. intros n Hn. specialize (Hm' a n Ha Hn). lia.
Qed.
End FilesCorrect.

Lemma files_in_range_spec list_files open content prefix metas start end_ :
  list_files prefix = Ok metas → Forall (readable open content) metas → StronglySorted (earlier content) (merge_sort string_le metas) →
  ∃ before out after, files_in_range list_files open prefix start end_ = Ok out
    /\ merge_sort string_le metas = before ++ out ++ after
    /\ Forall (λ m, Forall (λ n, n < start) (content m)) before /\ Forall (λ m, Forall (λ n, end_ < n) (content m)) after.
Proof.
  intros Hlist Hread Hs. unfold files_in_range. rewrite Hlist. cbn [mbind comp_bind]. cbv zeta.
  assert (Forall (readable open content) (merge_sort string_le metas)) as Hread' by by rewrite merge_sort_Permutation.
  revert Hs Hread'. generalize (merge_sort string_le metas). intros l Hs Hr. destruct l as [|m l]; [by exists [], [], []|].
  destruct (search_spec open content (m :: l) Hr Hs start (S (length (m :: l))) 0 (length (m :: l))) as (r & -> & Hbefore); [lia..|intros; lia|].
  cbn [mbind comp_bind].
  destruct (scan_spec open content end_ (drop r (m :: l))) as (out & after & -> & Hdrop & Hafter); [by apply Forall_drop| |].
  { rewrite <- (take_drop r (m :: l)) in Hs. by apply StronglySorted_app_1_r in Hs. }
  exists (take r (m :: l)), out, after. split_and!; [done|by rewrite <- Hdrop, take_drop| |done].
  apply Forall_lookup. intros i x Hi. apply lookup_take_Some in Hi as [Hi ?]. by eapply Hbefore.
Qed.

(** ** The stream *)

Lemma bind_none {A B} (f : A → list B) l : Forall (λ x, f x = []) l → l ≫= f = [].
Proof. by induction 1 as [|x l Hx _ IH]; cbn; [|rewrite Hx, IH]. Qed.

Section StreamCorrect.
Context (list_files : string → pinax (list string)) (open : string → pinax PinaxFile).
Context (cast : ArrayRef → DataType → comp string ArrayRef) (hex_decode : bytes → option bytes).
Context (try_new : list Field → list ArrayRef → comp string Batch) (new_empty : list Field → Batch).
Context (filter_record_batch : Batch → list (option bool) → comp string Batch) (concat_batches : list Field → list Batch → comp string Batch).
Context (Harrow : arrow_laws try_new new_empty filter_record_batch concat_batches) (network : string).

Abbreviation specs := (table_specs cast hex_decode try_new).
Abbreviation Spec := (string * (Batch → pinax Batch))%type.

(** The mapped batches of a file and its blocks, and those of all the files of a
    table in the order of their locations. *)
Definition file_batches (fn : Batch → pinax Batch) (m : string) : list Batch :=
  match load_file open fn m with Ok bs => bs | _ => [] end.

Definition content (fn : Batch → pinax Batch) (m : string) : list Z := file_batches fn m ≫= nums.

Definition table_files (name : string) : list string :=
  match list_files (network +:+ "/" +:+ name) with Ok metas => merge_sort string_le metas | _ => [] end.

Definition table_batches (spec : Spec) : list Batch := table_files spec.1 ≫= file_batches spec.2.

(** The files of a table can be read and mapped, and are in the order of their
    blocks. *)
Definition serves (spec : Spec) : Prop :=
  ∃ metas, list_files (network +:+ "/" +:+ spec.1) = Ok metas
    /\ Forall (λ m, ∃ bs, load_file open spec.2 m = Ok bs) metas
    /\ Forall (readable open (content spec.2)) metas
    /\ StronglySorted (earlier (content spec.2)) (merge_sort string_le metas).

Lemma spec_table spec : spec ∈ specs → ∃ t, List.find (λ t, (t.1 =? spec.1)%string) all = Some t /\ t.1 = spec.1 /\ schema_for spec.1 = Some t.2.
Proof.
  intros Hin. repeat (apply elem_of_cons in Hin as [-> |Hin]; [eexists; split; [reflexivity|by split]|]). by apply elem_of_nil in Hin.
Qed.

Lemma file_well_formed spec schema m bs :
  spec ∈ specs → schema_for spec.1 = Some schema → load_file open spec.2 m = Ok bs → Forall (λ b, ∃ n, well_formed schema n b) bs.
Proof.
  intros Hin Hs. unfold load_file. rewrite bind_Ok. intros (f & _ & Hbs). apply mapM_Ok_Forall2 in Hbs.
  induction Hbs as [|b b' l l' Hb _ IH]; constructor; [|done]. destruct spec as [name fn].
  destruct (spec_mapped cast hex_decode try_new _ _ _ Harrow name fn Hin b b' Hb) as (schema' & _ & _ & n & Hs' & _ & _ & _ & Hwf).
  change (schema_for name = Some schema) in Hs. rewrite Hs' in Hs. injection Hs as ->. by exists n.
Qed.

Lemma rows_of_none n k b : n ∉ nums b → rows_of n k b = [].
Proof.
  intros Hn. apply keep_none, Forall_fmap, Forall_forall. intros m Hm. cbn. apply Z.eqb_neq. by intros ->.
Qed.

Lemma files_without n k fn files :
  Forall (λ m, n ∉ content fn m) files → (files ≫= file_batches fn) ≫= rows_of n k = [].
Proof.
  induction 1 as [|m files Hm _ IH]; [done|]. cbn. rewrite bind_app, IH, app_nil_r.
  apply bind_none, Forall_forall. intros b Hb. apply rows_of_none. intros Hn. apply Hm, list_elem_of_bind. eauto.
Qed.

Lemma load_table_spec start end_ spec :
  spec ∈ specs → serves spec →
  ∃ schema bs, load_table list_files open network start end_ spec = Ok (mkLoaded spec.1 schema bs)
    /\ schema_for spec.1 = Some schema /\ Forall (λ b, ∃ n, well_formed schema n b) bs
    /\ ∀ n k, start <= n <= end_ → bs ≫= rows_of n k = table_batches spec ≫= rows_of n k.
Proof.
  intros Hin (metas & Hlist & Hload & Hread & Hsorted). destruct (spec_table spec Hin) as (t & Hfind & Hname & Hschema).
  unfold load_table, table_batches, table_files. rewrite Hfind, Hlist. cbn [ok_or mbind comp_bind].
  destruct (files_in_range_spec list_files open (content spec.2) _ metas start end_ Hlist Hread Hsorted)
    as (before & out & after & -> & Hsplit & Hbefore & Hafter). cbn [mbind comp_bind].
  assert (Forall (λ m, ∃ bs, load_file open spec.2 m = Ok bs) out) as Hout.
  { rewrite <- merge_sort_Permutation, Hsplit, !Forall_app in Hload. apply Hload. }
  destruct (proj2 (mapM_Ok_iff (load_file open spec.2) out) Hout) as [bss Hbss]. rewrite Hbss, Hname, Hsplit.
  exists t.2, (concat bss). apply mapM_Ok_Forall2 in Hbss.
  assert (concat bss = out ≫= file_batches spec.2) as Hcat.
  { clear -Hbss. induction Hbss as [|m bs out bss Hm _ IH]; [done|]. cbn. rewrite IH. f_equal. unfold file_batches. by rewrite Hm. }
  split_and!; [done|done| |].
  - apply Forall_concat. clear -Hbss Hin Hschema Harrow. induction Hbss as [|m bs out bss Hm _ IH]; constructor; [|done].
    by eapply file_well_formed.
  - intros n k Hn. rewrite Hcat, !bind_app, (files_without n k spec.2 before), (files_without n k spec.2 after).
    + by rewrite app_nil_r.
    + eapply Forall_impl; [exact Hafter|]. cbn. intros m Hm Hc. rewrite Forall_forall in Hm. specialize (Hm n Hc). lia.
    + eapply Forall_impl; [exact Hbefore|]. cbn. intros m Hm Hc. rewrite Forall_forall in Hm. specialize (Hm n Hc). lia.
Qed.

(** The table of a block holds the rows of the block of all the files. *)
Definition holds_block (n : Z) (spec : Spec) (t : TableBatch) : Prop :=
  tb_table t = spec.1 /\ tb_range t = pinax_range network n
  /\ (∃ schema m, schema_for spec.1 = Some schema /\ well_formed schema m (tb_batch t))
  /\ ∀ k, column_cells (tb_batch t) k = table_batches spec ≫= rows_of n k.

Definition loads (start end_ : Z) (spec : Spec) (l : Loaded) : Prop :=
  schema_for spec.1 = Some (loaded_schema l) /\ loaded_name l = spec.1
  /\ Forall (λ b, ∃ n, well_formed (loaded_schema l) n b) (loaded_batches l)
  /\ ∀ n k, start <= n <= end_ → loaded_batches l ≫= rows_of n k = table_batches spec ≫= rows_of n k.

Lemma load_spec start end_ :
  Forall serves specs →
  ∃ loaded, load_tables list_files open cast hex_decode try_new network start end_ = Ok loaded /\ Forall2 (loads start end_) specs loaded.
Proof.
  intros Hall. unfold load_tables. assert (Forall (λ spec, spec ∈ specs) specs) as Hin by (by apply Forall_forall).
  revert Hall Hin. generalize specs at 1 3 4 5. intros l. induction l as [|spec l IH]; intros Hs Hin; [by exists []|].
  apply list.Forall_cons in Hs as [Hs Hl]. apply list.Forall_cons in Hin as [Hi Hin]. destruct (IH Hl Hin) as (loaded & Hload & Hall).
  destruct (load_table_spec start end_ spec Hi Hs) as (schema & bs & Ht & Hrest). rewrite mapM_cons, Ht, Hload.
  exists (mkLoaded spec.1 schema bs :: loaded). split; [done|]. constructor; [|done]. by destruct Hrest as (? & ? & ?).
Qed.

Lemma block_item_spec start end_ loaded n :
  Forall2 (loads start end_) specs loaded → start <= n <= end_ →
  ∃ tables, block_item try_new new_empty filter_record_batch concat_batches network loaded n = Ok tables /\ Forall2 (holds_block n) specs tables.
Proof.
  intros Hall Hn. unfold block_item.
  assert (∃ tables, mapM (block_table_rows try_new new_empty filter_record_batch concat_batches network n) loaded = Ok tables
    /\ Forall2 (holds_block n) specs tables) as (tables & -> & Htables).
  { revert Hall. generalize specs. intros l Hall. induction Hall as [|spec t l loaded (Hs & Hname & Hwf & Hrows) _ (tables & IH & Ht)]; [by exists []|].
    destruct t as [name schema bs]. cbn in Hname, Hs, Hwf, Hrows. subst name.
    destruct (block_table_rows_spec _ _ _ _ Harrow network spec.1 schema bs n Hs Hwf) as (b & Hb & Hn1 & Hn2 & [m Hm] & Hk).
    exists (b :: tables). rewrite mapM_cons, Hb, IH. split; [done|]. constructor; [|done]. unfold holds_block. split_and!; [done|done|by eexists _, m|].
    intros k. by rewrite Hk, Hrows. }
  cbn [mbind comp_bind]. rewrite (raw_dataset_rows_Ok (pinax_range network n)).
  - by exists tables.
  - intros ->. by apply Forall2_nil_inv_r in Htables.
  - apply Forall_forall. intros t Ht%list_elem_of_lookup. destruct Ht as [i Hi]. by eapply Forall2_lookup_r in Htables as (? & _ & _ & ? & _).
Qed.

(** C10: when the files of every table can be read, are in the order of their
    blocks and have exact statistics, the stream delivers every block of the
    range in order; each of its tables has the schema of its name and holds, in
    the order of the files, exactly the mapped rows of that block of all the
    files of the table, although only the files found by the search are read. *)
Theorem pinax_blocks_delivered start end_ :
  Forall serves specs →
  ∃ items,
    pinax_block_stream list_files open cast hex_decode try_new new_empty filter_record_batch concat_batches network start end_ = Ok <$> items
    /\ Forall2 (λ n tables, Forall2 (holds_block n) specs tables) (seqZ start (end_ - start + 1)) items.
Proof.
  intros Hserves. unfold pinax_block_stream. destruct (load_spec start end_ Hserves) as (loaded & -> & Hloaded).
  assert (Forall (λ n, start <= n <= end_) (seqZ start (end_ - start + 1))) as Hblocks by (apply Forall_forall; intros n Hn%elem_of_seqZ; lia).
  revert Hblocks. generalize (seqZ start (end_ - start + 1)). intros blocks.
  induction blocks as [|n blocks IH]; intros Hb; [by exists []|]. apply list.Forall_cons in Hb as [Hn Hb].
  destruct (block_item_spec start end_ loaded n Hloaded Hn) as (tables & Ht & Hholds). destruct (IH Hb) as (items & Hi & Hall).
  exists (tables :: items). cbn [block_items]. rewrite Ht, Hi. split; [done|by constructor].
Qed.
End StreamCorrect.

(** ** Evaluations *)

Module Evaluation.

(** Arrow on the arrays of the tables. *)
Definition filter_array (mask : list bool) (a : Array) : Array :=
  match a with
  | BooleanArray xs => BooleanArray (keep mask xs)
  | PrimitiveArray p xs => PrimitiveArray p (keep mask xs)
  | Decimal128Array s xs => Decimal128Array s (keep mask xs)
  | GenericBinaryArray l xs => GenericBinaryArray l (keep mask xs)
  | FixedSizeBinaryArray n xs => FixedSizeBinaryArray n (keep mask xs)
  | GenericStringArray l xs => GenericStringArray l (keep mask xs)
  | a => a
  end.

Definition append_array (a b : Array) : Array :=
  match a, b with
  | BooleanArray xs, BooleanArray ys => BooleanArray (xs ++ ys)
  | PrimitiveArray p xs, PrimitiveArray _ ys => PrimitiveArray p (xs ++ ys)
  | Decimal128Array s xs, Decimal128Array _ ys => Decimal128Array s (xs ++ ys)
  | GenericBinaryArray l xs, GenericBinaryArray _ ys => GenericBinaryArray l (xs ++ ys)
  | FixedSizeBinaryArray n xs, FixedSizeBinaryArray _ ys => FixedSizeBinaryArray n (xs ++ ys)
  | GenericStringArray l xs, GenericStringArray _ ys => GenericStringArray l (xs ++ ys)
  | a, _ => a
  end.

Definition map_array (f : Array → Array) (c : ArrayRef) : ArrayRef := mkArrayRef (array_type c) (f (array c)).

Definition filter_record_batch (b : Batch) (mask : list (option bool)) : comp string Batch :=
  Ok (mkArrowBatch (batch_schema b) (map_array (filter_array (selected <$> mask)) <$> batch_columns b)).

Definition append_batch (b b' : Batch) : Batch :=
  mkArrowBatch (batch_schema b) (zip_with (λ c c', map_array (λ a, append_array a (array c')) c) (batch_columns b) (batch_columns b')).

Definition concat_batches (schema : list Field) (bs : list Batch) : comp string Batch :=
  match bs with b :: bs => Ok (foldl append_batch b bs) | [] => Err "no batches"%string end.

Definition empty_column (t : DataType) : ArrayRef :=
  mkArrayRef t
    match t with
    | DataType.Boolean => BooleanArray []
    | DataType.UInt32 => PrimitiveArray UInt32Type [] | DataType.Int32 => PrimitiveArray Int32Type []
    | DataType.Binary => GenericBinaryArray false [] | DataType.Utf8 => GenericStringArray false []
    | DataType.Timestamp _ _ => PrimitiveArray TimestampNanosecondType []
    | DataType.FixedSizeBinary n => FixedSizeBinaryArray n [] | DataType.Decimal128 _ s => Decimal128Array s []
    | _ => PrimitiveArray UInt64Type []
    end.

Definition new_empty (schema : list Field) : Batch := mkArrowBatch schema (empty_column ∘ field_type <$> schema).

Definition type_eqb (t t' : DataType) : bool :=
  match t, t' with
  | DataType.UInt64, DataType.UInt64 | DataType.UInt32, DataType.UInt32 | DataType.Int32, DataType.Int32
  | DataType.Boolean, DataType.Boolean | DataType.Binary, DataType.Binary | DataType.Utf8, DataType.Utf8 => true
  | DataType.Timestamp Nanosecond tz, DataType.Timestamp Nanosecond tz' => bool_decide (tz = tz')
  | DataType.FixedSizeBinary n, DataType.FixedSizeBinary m => n =? m
  | DataType.Decimal128 p s, DataType.Decimal128 p' s' => (p =? p') && (s =? s')
  | _, _ => false
  end.

Definition fits_b (n : nat) (f : Field) (c : ArrayRef) : bool :=
  type_eqb (field_type f) (array_type c) && (is_nullable f || (null_count (array c) =? 0)%nat) && (arr_len (array c) =? n)%nat.

Definition try_new (schema : list Field) (cols : list ArrayRef) : comp string Batch :=
  match cols with
  | [] => Err "no columns"%string
  | c :: _ =>
      if (length schema =? length cols)%nat && forallb (λ fc, fits_b (arr_len (array c)) fc.1 fc.2) (zip schema cols)
      then Ok (mkArrowBatch schema cols) else Err "columns"%string
  end.

Lemma type_eqb_flat t c : flat c = true → type_eqb t (array_type c) = true ↔ t = array_type c.
Proof.
  destruct c as [t' a]. unfold flat. cbn. destruct t' as [| | | | | | | | | | | |p s| |[] tz| | | | | | | | |w| | | | |]; try done;
    intros _; (split; [|by intros ->; cbn; rewrite ?Z.eqb_refl, ?bool_decide_eq_true_2]);
    destruct t as [| | | | | | | | | | | |p' s'| |[] tz'| | | | | | | | |w'| | | | |]; cbn; try done.
  - intros [?%Z.eqb_eq ?%Z.eqb_eq]%andb_prop. congruence.
  - intros ?%bool_decide_eq_true. congruence.
  - intros ?%Z.eqb_eq. congruence.
Qed.

Lemma fits_b_flat n f c : flat c = true → fits_b n f c = true ↔ fits n f c.
Proof.
  intros Hf. unfold fits_b, fits. rewrite !andb_true_iff, type_eqb_flat, orb_true_iff, !Nat.eqb_eq by done.
  destruct (is_nullable f); naive_solver.
Qed.

Lemma forallb_fits n schema cols :
  all_flat cols → ((length schema =? length cols)%nat && forallb (λ fc, fits_b n fc.1 fc.2) (zip schema cols)) = true ↔ Forall2 (fits n) schema cols.
Proof.
  intros Hflat. rewrite andb_true_iff, Nat.eqb_eq. revert schema. induction Hflat as [|c cols Hc _ IH]; intros [|f schema]; cbn.
  - split; [by constructor|done].
  - split; [by intros []|by inversion 1].
  - split; [by intros []|by inversion 1].
  - rewrite andb_true_iff, fits_b_flat by done. split.
    + intros (? & ? & ?). constructor; [done|]. apply IH. auto.
    + intros [? [? ?]%IH]%list.Forall2_cons. auto.
Qed.

Lemma length_keep {A B} mask (l : list A) (k : list B) : length l = length k → length (keep mask l) = length (keep mask k).
Proof. revert l k. induction mask as [|[] mask IH]; intros [|x l] [|y k]; cbn; auto; intros [=]; auto. Qed.

Lemma keep_no_nulls {V} mask (xs : slots V) : count_nulls xs = 0%nat → count_nulls (keep mask xs) = 0%nat.
Proof.
  unfold count_nulls. intros H%nil_length_inv. apply length_zero_iff_nil. revert mask.
  induction xs as [|s xs IH]; intros [|[] mask]; cbn [keep]; [done..| |]; rewrite filter_cons in H; case_decide; try done; auto.
  rewrite filter_cons, decide_False by done. auto.
Qed.

(** A column keeps its type under a map that keeps the kind of its array. *)
Lemma filter_column mask n f c :
  fits n f c → flat c = true → length mask = n →
  fits (length (keep mask (seq 0 n))) f (map_array (filter_array mask) c) /\ flat (map_array (filter_array mask) c) = true
  /\ array_cells (filter_array mask (array c)) = keep mask (array_cells (array c)).
Proof.
  intros (Ht & Hnull & Hlen) Hflat Hmask. pose proof (flat_kind c Hflat) as Hkind. unfold fits.
  split_and!; [done| | | |].
  - intros Hn. specialize (Hnull Hn). destruct c as [t []]; cbn in Hkind, Hnull |- *; try done; by apply keep_no_nulls.
  - destruct c as [t []]; cbn in Hkind, Hlen |- *; try done; apply length_keep; by rewrite length_seq.
  - unfold flat in *. destruct c as [t a]. cbn [map_array array_type array] in *. by destruct a.
  - destruct c as [t []]; cbn in Hkind |- *; try done; by rewrite ?keep_fmap.
Qed.

Lemma append_column n m f c c' :
  fits n f c → flat c = true → fits m f c' → flat c' = true →
  fits (n + m) f (map_array (λ a, append_array a (array c')) c) /\ flat (map_array (λ a, append_array a (array c')) c) = true
  /\ array_cells (append_array (array c) (array c')) = array_cells (array c) ++ array_cells (array c').
Proof.
  intros (Ht & Hnull & Hlen) Hflat (Ht' & Hnull' & Hlen') Hflat'. destruct c as [t a], c' as [t' a']. cbn in Ht, Ht', Hnull, Hnull', Hlen, Hlen'.
  subst t t'. unfold fits, flat in *. cbn [map_array array_type array] in *. revert Hflat Hflat' Hnull Hnull' Hlen Hlen'.
  assert (∀ {V} (xs ys : slots V), count_nulls xs = 0%nat → count_nulls ys = 0%nat → count_nulls (xs ++ ys) = 0%nat) as Hcount.
  { intros V xs ys. unfold count_nulls. rewrite filter_app, length_app. lia. }
  intros Hflat Hflat'. pose proof (flat_kind (mkArrayRef (field_type f) a) Hflat) as Hkind. pose proof (flat_kind (mkArrayRef (field_type f) a') Hflat') as Hkind'.
  cbn in Hkind, Hkind'. destruct a; try done; destruct a'; try done;
    try (exfalso; clear -Hflat Hflat'; destruct (field_type f); try discriminate; match goal with u : TimeUnit |- _ => destruct u; discriminate end);
    intros Hnull Hnull' Hlen Hlen'; cbn in *; rewrite ?length_app, ?fmap_app, ?Hlen, ?Hlen'; (repeat split); auto.
Qed.
(** The column of a batch, when there is one. *)
Lemma column_cells_fmap (g : ArrayRef → ArrayRef) cols schema k :
  column_cells (mkArrowBatch schema (g <$> cols)) k = match cols !! k with Some c => array_cells (array (g c)) | None => [] end.
Proof. unfold column_cells. cbn. rewrite list_lookup_fmap. by destruct (cols !! k). Qed.

Lemma append_batch_spec schema n m b b' :
  well_formed schema n b → well_formed schema m b' →
  well_formed schema (n + m) (append_batch b b') /\ ∀ k, column_cells (append_batch b b') k = column_cells b k ++ column_cells b' k.
Proof.
  destruct b as [s cols], b' as [s' cols']. intros (Hs & Hfit & Hflat) (Hs' & Hfit' & Hflat'). cbn in *. subst s s'.
  unfold well_formed, append_batch, column_cells. cbn [batch_schema batch_columns].
  revert cols' Hfit' Hflat'. induction Hfit as [|f c schema cols Hc _ IH]; intros cols' Hfit' Hflat'.
  - inversion Hfit'; subst. split; [split_and!; constructor|done].
  - apply Forall2_cons_inv_l in Hfit' as (c' & cols'' & Hc' & Hfit' & ->). apply list.Forall_cons in Hflat as [Hf Hflat].
    apply list.Forall_cons in Hflat' as [Hf' Hflat']. destruct (IH Hflat cols'' Hfit' Hflat') as [(_ & Hw & Hwf) Hk].
    destruct (append_column n m f c c' Hc Hf Hc' Hf') as (Hcol & Hfl & Hcells).
    split; [split_and!; [done|by constructor|by constructor]|]. intros [|k]; [exact Hcells|]. apply Hk.
Qed.

Lemma foldl_append_batch schema bs : ∀ n b,
  well_formed schema n b → Forall (λ b, ∃ n, well_formed schema n b) bs →
  (∃ m, well_formed schema m (foldl append_batch b bs)) /\ ∀ k, column_cells (foldl append_batch b bs) k = column_cells b k ++ (bs ≫= λ b, column_cells b k).
Proof.
  induction bs as [|b' bs IH]; intros n b Hb Hbs; cbn [foldl]; [split; [by eexists|intros k; by rewrite app_nil_r]|].
  apply list.Forall_cons in Hbs as [[m Hb'] Hbs]. destruct (append_batch_spec schema n m b b' Hb Hb') as [Hwf Hcells].
  destruct (IH _ _ Hwf Hbs) as [Hw Hk]. split; [done|]. intros k. by rewrite Hk, Hcells, <- app_assoc.
Qed.

Lemma arrow_laws_hold : arrow_laws try_new new_empty filter_record_batch concat_batches.
Proof.
  split.
  - intros schema cols Hne Hflat. unfold try_new. destruct cols as [|c cols]; [done|].
    destruct (_ && _) eqn:E; [split; [done|]; exists (arr_len (array c)); by apply forallb_fits|].
    intros [n Hn]. pose proof Hn as Hn'. apply Forall2_cons_inv_r in Hn' as (? & ? & (_ & _ & Hlen) & _ & _). rewrite <- Hlen in Hn.
    apply forallb_fits in Hn; [|done]. by rewrite Hn in E.
  - unfold all. intros t Hin. repeat (apply elem_of_cons in Hin as [-> |Hin]; [split_and!; [reflexivity|repeat constructor; done|repeat constructor]|]).
    by apply elem_of_nil in Hin.
  - intros schema n [s cols] mask (Hs & Hfit & Hflat) Hmask. cbn in Hs, Hfit, Hflat. subst s. eexists. split; [reflexivity|]. split.
    + exists (length (keep (selected <$> mask) (seq 0 n))). cbn. split_and!; [done| |].
      * apply Forall2_fmap_r. clear -Hfit Hflat Hmask. induction Hfit as [|f c schema cols Hc _ IH]; constructor.
        -- apply list.Forall_cons in Hflat as [Hf _]. by apply filter_column; [..|by rewrite length_fmap].
        -- apply list.Forall_cons in Hflat as [_ Hflat]. by apply IH.
      * apply Forall_fmap. clear -Hfit Hflat Hmask. induction Hfit as [|f c schema cols Hc _ IH]; constructor.
        -- apply list.Forall_cons in Hflat as [Hf _]. by apply (filter_column _ n f c); [..|by rewrite length_fmap].
        -- apply list.Forall_cons in Hflat as [_ Hflat]. by apply IH.
    + intros k. cbn. rewrite column_cells_fmap. unfold column_cells. cbn. destruct (cols !! k) as [c|] eqn:E; [|by destruct (selected <$> mask)].
      eapply Forall2_lookup_r in Hfit as (f & _ & Hc); [|exact E]. eapply list.Forall_lookup_1 in Hflat; [|exact E].
      by apply (filter_column _ n f c); [..|by rewrite length_fmap].
  - intros schema [|b bs] Hne Hbs; [done|]. apply list.Forall_cons in Hbs as [[n Hb] Hbs]. eexists. split; [reflexivity|].
    by apply (foldl_append_batch schema bs n b).
Qed.
(** A store with two files of one table, whose texts are the bytes already. *)
Definition no_cast (c : ArrayRef) (t : DataType) : comp string ArrayRef := Ok c.
Definition plain (s : bytes) : option bytes := Some s.

#[local] Open Scope string_scope.

Definition text_column (l : list bytes) : ArrayRef := mkArrayRef DataType.Utf8 (GenericStringArray false (slot_value <$> l)).

Definition source_of (hash : nat) (blocks : list Z) : Batch :=
  let rows := length blocks in
  mkArrowBatch
    ((λ n, mkField n DataType.Utf8 true) <$> ["block_num"; "block_id"; "timestamp"; "tx_hash"; "ordinal"; "address"; "old_value"; "new_value"])
    [uint64 (slot_value <$> blocks); text_column (replicate rows (replicate hash 1%Z)); u64_const rows 7; text_column (replicate rows (replicate 32 2%Z));
     uint64 (slot_value <$> blocks); text_column (replicate rows (replicate 20 3%Z)); u64_const rows 0; u64_const rows 1].

Definition exact (a b : Z) : option Statistics := Some (mkStatistics (Some (a :: replicate 7 0%Z)) (Some (b :: replicate 7 0%Z))).

Definition file_of (groups : list (option Statistics * list Z)) : PinaxFile :=
  mkPinaxFile ["block_num"] ((λ g, [g.1]) <$> groups) [source_of 32 (concat groups.*2)].

Definition open_test (location : string) : pinax PinaxFile :=
  if location =? "a" then Ok (file_of [(exact 1 1, [1]); (exact 1 2, [1; 2])])%Z
  else if location =? "b" then Ok (file_of [(exact 2 4, [2; 4])])%Z
  else if location =? "partial" then Ok (file_of [(exact 1 1, [1]); (None, [5])])%Z
  else Err ParquetError.

Definition list_test (prefix : string) : pinax (list string) :=
  if prefix =? "mainnet/nonce_changes" then Ok ["b"; "a"] else Ok [].

Lemma test_files : Forall (readable open_test (content open_test (map_nonce_changes no_cast plain try_new))) ["b"; "a"].
Proof.
  repeat constructor.
  - exists (file_of [(exact 2 4, [2; 4])])%Z. split; [done|]. exists 0%nat, [[2; 4]]%Z. split_and!; [done|vm_compute; reflexivity|left].
    repeat constructor. eexists _, 2%Z, 4%Z. split_and!; [done..|set_solver|set_solver|repeat constructor; lia|lia|done].
  - exists (file_of [(exact 1 1, [1]); (exact 1 2, [1; 2])])%Z. split; [done|]. exists 0%nat, [[1]; [1; 2]]%Z. split_and!; [done|vm_compute; reflexivity|left].
    repeat constructor.
    + eexists _, 1%Z, 1%Z. split_and!; [done..|set_solver|set_solver|repeat constructor; lia|lia|done].
    + eexists _, 1%Z, 2%Z. split_and!; [done..|set_solver|set_solver|repeat constructor; lia|lia|done].
Qed.

Lemma test_serves : Forall (serves list_test open_test "mainnet") (table_specs no_cast plain try_new).
Proof.
  unfold table_specs. repeat (constructor; [by (exists []; repeat constructor)|]). constructor; [|constructor].
  exists ["b"; "a"]. split_and!; [done| |exact test_files|].
  - repeat constructor; eexists; vm_compute; reflexivity.
  - replace (merge_sort string_le ["b"; "a"]) with ["a"; "b"] by (vm_compute; reflexivity). repeat constructor.
    intros v w. replace (content _ _ "a") with [1; 1; 2]%Z by (vm_compute; reflexivity).
    replace (content _ _ "b") with [2; 4]%Z by (vm_compute; reflexivity). rewrite !elem_of_cons, !elem_of_nil. lia.
Qed.

Lemma pinax_blocks_delivered_witness :
  ∃ items,
    pinax_block_stream list_test open_test no_cast plain try_new new_empty filter_record_batch concat_batches "mainnet" 1 4 = Ok <$> items
    /\ Forall2 (λ n tables, Forall2 (holds_block list_test open_test "mainnet" n) (table_specs no_cast plain try_new) tables) (seqZ 1 4) items.
Proof. exact (pinax_blocks_delivered list_test open_test no_cast plain try_new new_empty filter_record_batch concat_batches arrow_laws_hold "mainnet" 1 4 test_serves). Defined.

(** Only the file of the range is read. *)
Example one_file_read : files_in_range list_test open_test "mainnet/nonce_changes" 3 3 = Ok ["b"].
Proof. vm_compute. reflexivity. Qed.

(** A group of rows without statistics is not counted: its blocks are lost. *)
Example partial_statistics :
  content open_test (map_nonce_changes no_cast plain try_new) "partial" = [1; 5]%Z
  /\ files_in_range (λ _, Ok ["partial"]) open_test "mainnet/nonce_changes" 5 5 = Ok [].
Proof. vm_compute. by split. Qed.

(** A hash of another length makes a null in a column that has none: the batch
    and with it the stream fail. *)
Example short_hash : map_nonce_changes no_cast plain try_new (source_of 31 [5%Z]) = Err (ArrowFailed "columns").
Proof. vm_compute. reflexivity. Qed.

(** Decimals: one beyond the range of [i128] or in hexadecimal becomes a null,
    one of 39 digits goes to a column of 38. *)
Example decimals :
  nullable (dec_slot (true, text_of "340282366920938463463374607431768211455")) = None
  /\ nullable (dec_slot (true, text_of "0x10")) = None
  /\ dec_slot (true, text_of "170141183460469231731687303715884105727") = (true, i128_max).
Proof. vm_compute. by split_and!. Qed.

(** A missing timestamp becomes that of its buffer. *)
Example null_timestamp : ts_ns [(false, 0%Z)] = timestamp_ns [(true, 0%Z)].
Proof. reflexivity. Qed.
End Evaluation.
