(* ===== verification/PgFormat.v ===== *)
(** * PgFormat

    What PostgreSQL reads from the buffers of the encoder. The first part is the
    binary COPY format after the documentation of PostgreSQL: the stream of
    tuples, and for each type the value its receive function takes from a field.
    The second part is the value a slot of an Arrow array stands for, in the
    type its column gets. *)

From stdpp Require Import base numbers strings option list gmap.
From Stdlib Require Import ZArith Lia.
From S2P Require Import Prelude PgTypes PgCopy.

(** ** Reading *)

Definition reader A := bytes → option (A * bytes).

Definition read_bytes (n : nat) : reader bytes := λ bs,
  if (n <=? length bs)%nat then Some (take n bs, drop n bs) else None.

Definition read_u (n : nat) : reader Z := λ bs,
  '(b, rest) ← read_bytes n bs; Some (from_be b, rest).

Definition read_i (n : nat) : reader Z := λ bs,
  '(z, rest) ← read_u n bs;
  Some (if z <? 2 ^ (8 * Z.of_nat n - 1) then z else z - 256 ^ Z.of_nat n, rest).

Fixpoint read_many {A} (r : reader A) (n : nat) : reader (list A) := λ bs,
  match n with
  | O => Some ([], bs)
  | S n' =>
      '(a, bs) ← r bs;
      '(l, bs) ← read_many r n' bs;
      Some (a :: l, bs)
  end.

(** A value that takes all the bytes of its field. *)
Definition exactly {A} (r : reader A) (bs : bytes) : option A :=
  match r bs with Some (a, []) => Some a | _ => None end.

(** A field: its length in bytes, -1 for null, and the bytes. *)
Definition read_field : reader (option bytes) := λ bs,
  '(len, bs) ← read_i 4 bs;
  if len =? -1 then Some (None, bs)
  else if len <? 0 then None
  else '(v, bs) ← read_bytes (Z.to_nat len) bs; Some (Some v, bs).

(** ** Values of PostgreSQL *)

(** [VNumeric n s] is the number n / 10^s, displayed with s decimals; the
    dates and times count from 2000-01-01; an interval has microseconds, days
    and months. *)
Inductive PgValue :=
  | VBool (b : bool)
  | VInt (z : Z)
  | VFloat4 (bits : Z)
  | VFloat8 (bits : Z)
  | VNumeric (n dscale : Z)
  | VChar (v : bytes)
  | VText (v : bytes)
  | VJson (v : bytes)
  | VJsonb (v : bytes)
  | VBytea (v : bytes)
  | VDate (days : Z)
  | VTime (us : Z)
  | VTimestamp (us : Z)
  | VInterval (us days months : Z)
  | VArray (elements : list (option PgValue)).

(** The object identifiers of the catalog. *)
Definition catalog_oid (t : PostgresType) : option Z :=
  match t with
  | PostgresType.Json => Some 114
  | PostgresType.Timestamp (Some _) => Some 1184
  | PostgresType.Char => Some 1042
  | t => oid t
  end.

(** The digits [d0 d1 ...] in base 10000, [d0] of the given weight, over
    10^dscale. *)
Definition numeric_value (digits : list Z) (weight dscale : Z) : Z :=
  let m := foldl (λ acc d, acc * 10000 + d) 0 digits in
  let e := weight - (Z.of_nat (length digits) - 1) in
  if 0 <=? e then m * 10000 ^ e * 10 ^ dscale else m * 10 ^ dscale / 10000 ^ (- e).

Definition read_numeric : reader PgValue := λ bs,
  '(ndigits, bs) ← read_u 2 bs;
  '(weight, bs) ← read_i 2 bs;
  '(sign, bs) ← read_u 2 bs;
  '(dscale, bs) ← read_u 2 bs;
  '(digits, bs) ← read_many (read_i 2) (Z.to_nat ndigits) bs;
  if ((sign =? 0) || (sign =? 16384)) && (dscale <=? 16383)
     && forallb (λ d, (0 <=? d) && (d <? 10000)) digits
  then
    let n := numeric_value digits weight dscale in
    Some (VNumeric (if sign =? 0 then n else - n) dscale, bs)
  else None.

(** An array of one dimension with the identifier of its elements. *)
Definition read_array (element : option Z) : reader (list (option bytes)) := λ bs,
  '(ndim, bs) ← read_i 4 bs;
  '(flags, bs) ← read_i 4 bs;
  '(elem, bs) ← read_u 4 bs;
  if bool_decide (Some elem = element) && ((flags =? 0) || (flags =? 1)) then
    if ndim =? 0 then Some ([], bs)
    else if ndim =? 1 then
      '(dim, bs) ← read_i 4 bs;
      '(_, bs) ← read_i 4 bs;
      if dim <? 0 then None else read_many read_field (Z.to_nat dim) bs
    else None
  else None.

(** The receive function of a type on the bytes of a field. *)
Fixpoint recv (t : PostgresType) (bs : bytes) : option PgValue :=
  match t with
  | PostgresType.Bool => (λ z, VBool (negb (z =? 0))) <$> exactly (read_u 1) bs
  | PostgresType.Int2 => VInt <$> exactly (read_i 2) bs
  | PostgresType.Int4 => VInt <$> exactly (read_i 4) bs
  | PostgresType.Int8 => VInt <$> exactly (read_i 8) bs
  | PostgresType.Float4 => VFloat4 <$> exactly (read_u 4) bs
  | PostgresType.Float8 => VFloat8 <$> exactly (read_u 8) bs
  | PostgresType.Char => VChar <$> exactly (read_bytes 1) bs
  | PostgresType.Text => Some (VText bs)
  | PostgresType.Json => Some (VJson bs)
  | PostgresType.Jsonb => match bs with 1 :: v => Some (VJsonb v) | _ => None end
  | PostgresType.Bytea => Some (VBytea bs)
  | PostgresType.Date => VDate <$> exactly (read_i 4) bs
  | PostgresType.Time => VTime <$> exactly (read_i 8) bs
  | PostgresType.Timestamp _ => VTimestamp <$> exactly (read_i 8) bs
  | PostgresType.Interval =>
      exactly (λ bs,
        '(us, bs) ← read_i 8 bs;
        '(days, bs) ← read_i 4 bs;
        '(months, bs) ← read_i 4 bs;
        Some (VInterval us days months, bs)) bs
  | PostgresType.Numeric _ _ => exactly read_numeric bs
  | PostgresType.List (PostgresType.mkColumn inner _) =>
      raw ← exactly (read_array (catalog_oid inner)) bs;
      VArray <$> mapM (λ cell, match cell with
                               | None => Some None
                               | Some v => Some <$> recv inner v
                               end) raw
  end.

Definition recv_cell (t : PostgresType) (cell : option bytes) : option (option PgValue) :=
  match cell with
  | None => Some None
  | Some v => Some <$> recv t v
  end.

(** The tuples up to the trailer, which ends the stream. *)
Fixpoint read_tuples (fuel : nat) (types : list PostgresType) (bs : bytes)
  : option (list (list (option PgValue))) :=
  match fuel with
  | O => None
  | S fuel' =>
      '(n, bs) ← read_i 2 bs;
      if n =? -1 then match bs with [] => Some [] | _ => None end
      else if n =? Z.of_nat (length types) then
        '(raw, bs) ← read_many read_field (length types) bs;
        row ← mapM (λ tc, recv_cell tc.1 tc.2) (zip types raw);
        rows ← read_tuples fuel' types bs;
        Some (row :: rows)
      else None
  end.

(** [COPY ... FROM STDIN (FORMAT BINARY)] into columns of the given types. *)
Definition copy_in (types : list PostgresType) (bs : bytes)
  : option (list (list (option PgValue))) :=
  '(magic, bs) ← read_bytes 11 bs;
  '(flags, bs) ← read_u 4 bs;
  '(extension, bs) ← read_u 4 bs;
  if bool_decide (magic = [80; 71; 67; 79; 80; 89; 10; 255; 13; 10; 0]) && (flags =? 0) then
    '(_, bs) ← read_bytes (Z.to_nat extension) bs;
    read_tuples (length bs) types bs
  else None.

(** ** What a slot stands for *)

Definition slot_value {V} (value : V → comp Error PgValue) (xs : slots V) (row : nat)
  : comp Error (option PgValue) :=
  match xs !! row with
  | None => Panic
  | Some (false, _) => Ok None
  | Some (true, v) => Some <$> value v
  end.

(** A number of microseconds or days that its PostgreSQL type can hold. *)
Definition in_i64 (mk : Z → PgValue) (z : Z) : comp Error PgValue :=
  if (i64_min <=? z) && (z <=? i64_max) then Ok (mk z) else Err Encode.
Definition in_i32 (mk : Z → PgValue) (z : Z) : comp Error PgValue :=
  if (-2147483648 <=? z) && (z <=? i32_max) then Ok (mk z) else Err Encode.

Definition interval_us (us : Z) : PgValue := VInterval us 0 0.

(** Seconds from 1970-01-01 to 2000-01-01: 30 years, 7 of them leap years. *)
Definition epoch_days : Z := 30 * 365 + 7.
Definition epoch_seconds : Z := epoch_days * 86400.

Section CellValue.
Context `{ValueCodecs}.

Definition text_value (field : string) (output : StringOutputType) (v : bytes)
  : comp Error PgValue :=
  match output with
  | Text => Ok (VText v)
  | Json => Ok (VJson v)
  | Jsonb => if json_valid v then Ok (VJsonb v) else Err (InvalidJson field)
  end.

(** The value of a builder on an array of primitives. *)
Definition primitive_value (b : EncoderBuilder) (v : Z) : comp Error PgValue :=
  match b with
  | EncoderBuilder.UInt64 _ => Ok (VNumeric v 0)
  | EncoderBuilder.Float16 _ => Ok (VFloat4 (f32_from_f16 v))
  | EncoderBuilder.Float32 _ => Ok (VFloat4 v)
  | EncoderBuilder.Float64 _ => Ok (VFloat8 v)
  | EncoderBuilder.TimestampMicrosecond _ => in_i64 VTimestamp (v - epoch_seconds * 1000000)
  | EncoderBuilder.TimestampMillisecond _ =>
      in_i64 VTimestamp (v * 1000 - epoch_seconds * 1000000)
  | EncoderBuilder.TimestampSecond _ => in_i64 VTimestamp ((v - epoch_seconds) * 1000000)
  | EncoderBuilder.TimestampNanosecond _ =>
      let ns := v - epoch_seconds * 1000000000 in
      if i64_min <=? ns then Ok (VTimestamp (ns `quot` 1000)) else Err Encode
  | EncoderBuilder.Date32 _ => in_i32 VDate (v - epoch_days)
  | EncoderBuilder.Time32Millisecond _ => Ok (VTime (v * 1000))
  | EncoderBuilder.Time32Second _ => Ok (VTime (v * 1000000))
  | EncoderBuilder.Time64Microsecond _ => Ok (VTime v)
  | EncoderBuilder.DurationMicrosecond _ => Ok (interval_us v)
  | EncoderBuilder.DurationMillisecond _ => in_i64 interval_us (v * 1000)
  | EncoderBuilder.DurationSecond _ => in_i64 interval_us (v * 1000000)
  | _ => Ok (VInt v)
  end.

Fixpoint cell_value (b : EncoderBuilder) (arr : Array) (row : nat)
  : comp Error (option PgValue) :=
  match arr with
  | BooleanArray xs => slot_value (λ v, Ok (VBool v)) xs row
  | PrimitiveArray _ xs => slot_value (primitive_value b) xs row
  | Decimal128Array scale xs => slot_value (λ v, Ok (VNumeric v scale)) xs row
  | GenericBinaryArray _ xs | FixedSizeBinaryArray _ xs =>
      slot_value (λ v, Ok (VBytea v)) xs row
  | GenericStringArray _ xs =>
      match b with
      | EncoderBuilder.String f output | EncoderBuilder.LargeString f output =>
          slot_value (text_value (field_name f) output) xs row
      | _ => Panic
      end
  | GenericListArray _ xs =>
      match b with
      | EncoderBuilder.List _ inner | EncoderBuilder.LargeList _ inner =>
          slot_value (λ val, VArray <$> mapM (cell_value inner val) (seq 0 (arr_len val))) xs row
      | _ => Panic
      end
  | Decimal256Array _ _ | FixedSizeListArray _ _ | StructArray _ _ | OtherArray _ => Panic
  end.

(** The values of a batch, row by row. *)
Definition batch_values (self : BatchEncoder) (batch : RecordBatch)
  : comp Error (list (list (option PgValue))) :=
  mapM (λ row, mapM (λ cb, cell_value cb.2 cb.1 row) (zip (columns batch) (encoder_builders self)))
       (seq 0 (num_rows batch)).
End CellValue.

(** The fields whose columns are read back: no decimal with a scale, no list of
    a fixed size and no list of timestamps with a time zone. *)
Fixpoint encodable (f : Field) : bool :=
  match f with
  | DataType.mkField _ data_type _ =>
      match data_type with
      | DataType.Decimal128 _ scale => scale =? 0
      | DataType.FixedSizeList _ _ => false
      | DataType.List inner | DataType.LargeList inner =>
          encodable inner &&
          match field_type inner with DataType.Timestamp _ (Some _) => false | _ => true end
      | _ => true
      end
  end.
