(* ===== verification/PgCopyCorrect.v ===== *)
(** * PgCopyCorrect

    The encoder against the COPY format: a batch is read back as the values of
    its rows or rejected with the error of its first value without a
    representation, the rows of ampsync with their metadata columns, the
    conversions of dates and times, the size hints of numbers, and the columns
    that are not read back. *)

From stdpp Require Import base numbers strings option list gmap.
From Stdlib Require Import ZArith Lia.
From S2P Require Import Prelude PgTypes PgCopy PgFormat.

(** ** Bytes *)

#[local] Arguments be : simpl never.

Lemma read_bytes_app n a rest : length a = n → read_bytes n (a ++ rest) = Some (a, rest).
Proof.
  intros <-. unfold read_bytes. rewrite length_app, take_app_length, drop_app_length.
  by replace (length a <=? length a + length rest)%nat with true
    by (symmetry; apply Nat.leb_le; lia).
Qed.

Lemma read_u_be n z rest :
  0 <= z < 256 ^ Z.of_nat n → read_u n (be n z ++ rest) = Some (z, rest).
Proof.
  intros Hz. unfold read_u. rewrite read_bytes_app by apply length_be. cbn.
  by rewrite from_be_be, Z.mod_small.
Qed.

Lemma read_i_be n h z rest :
  2 ^ (8 * Z.of_nat n - 1) = h → 256 ^ Z.of_nat n = 2 * h → - h <= z < h →
  read_i n (be n z ++ rest) = Some (z, rest).
Proof.
  intros Hh H2 Hz. unfold read_i, read_u. rewrite read_bytes_app by apply length_be. cbn.
  rewrite from_be_be, Hh, H2. destruct (Z.ltb_spec z 0).
  - rewrite <- (Z.mod_unique z (2 * h) (-1) (z + 2 * h)) by lia.
    rewrite (proj2 (Z.ltb_ge _ _)) by lia. do 2 f_equal. lia.
  - rewrite Z.mod_small by lia. by rewrite (proj2 (Z.ltb_lt _ _)) by lia.
Qed.

Lemma read_i2 z rest : -32768 <= z < 32768 → read_i 2 (be 2 z ++ rest) = Some (z, rest).
Proof. intros. apply (read_i_be 2 32768); [done..|lia]. Qed.
Lemma read_i4 z rest : -2147483648 <= z <= i32_max → read_i 4 (be 4 z ++ rest) = Some (z, rest).
Proof. intros Hz. apply (read_i_be 4 2147483648); [done..|]. unfold i32_max in Hz. lia. Qed.
Lemma read_i8 z rest : i64_min <= z <= i64_max → read_i 8 (be 8 z ++ rest) = Some (z, rest).
Proof.
  intros Hz. apply (read_i_be 8 9223372036854775808); [done..|].
  unfold i64_min, i64_max in Hz. lia.
Qed.

Lemma exactly_app {A} (r : reader A) bs a : r (bs ++ []) = Some (a, []) → exactly r bs = Some a.
Proof. unfold exactly. rewrite app_nil_r. by intros ->. Qed.

Lemma read_many_spec {A B} (r : reader A) (enc : B → bytes) (xs : list A) (ys : list B) rest :
  Forall2 (λ x y, ∀ rest, r (enc y ++ rest) = Some (x, rest)) xs ys →
  read_many r (length xs) (mjoin (enc <$> ys) ++ rest) = Some (xs, rest).
Proof.
  induction 1 as [|x y xs ys Hx _ IH]; [done|]. cbn [length read_many].
  change (mjoin (enc <$> y :: ys)) with (enc y ++ mjoin (enc <$> ys)).
  rewrite <- app_assoc, Hx. cbn [mbind option_bind]. by rewrite IH.
Qed.

(** A field as the encoder writes it, short enough for its length. *)
Definition field_bytes (cell : option bytes) : bytes :=
  match cell with
  | None => be 4 (-1)
  | Some v => be 4 (Z.of_nat (length v)) ++ v
  end.

Definition small (cell : option bytes) : Prop :=
  match cell with None => True | Some v => Z.of_nat (length v) <= i32_max end.

Lemma read_field_bytes cell rest :
  small cell → read_field (field_bytes cell ++ rest) = Some (cell, rest).
Proof.
  unfold read_field, field_bytes. destruct cell as [v|]; intros Hs; cbn in Hs.
  - rewrite <- app_assoc, read_i4 by (unfold i32_max in *; lia). cbn.
    destruct (Z.eqb_spec (Z.of_nat (length v)) (-1)); [lia|].
    destruct (Z.ltb_spec (Z.of_nat (length v)) 0); [lia|].
    by rewrite read_bytes_app by lia.
  - rewrite read_i4 by (unfold i32_max; lia). done.
Qed.

(** ** Numbers in base 10000 *)

Definition from_digits (ds : list Z) : Z := foldr (λ d acc, acc * 10000 + d) 0 ds.

Lemma base10000_loop_spec free remaining digits :
  0 <= remaining < 10000 ^ Z.of_nat free →
  ∃ ds, base10000_loop free remaining digits = Ok (digits ++ ds) /\
    from_digits ds = remaining /\ Forall (λ d, 0 <= d < 10000) ds /\ (length ds <= free)%nat /\
    remaining < 10000 ^ Z.of_nat (length ds) /\
    if remaining =? 0 then ds = [] else 10000 ^ (Z.of_nat (length ds) - 1) <= remaining.
Proof.
  revert remaining digits. induction free as [|free IH]; intros rem digits Hrem.
  - assert (rem = 0) as -> by (simpl in Hrem; lia). exists []. rewrite app_nil_r.
    simpl. repeat split; try done; lia.
  - cbn [base10000_loop]. destruct (Z.ltb_spec 0 rem) as [Hpos|Hneg].
    + rewrite Nat2Z.inj_succ, Z.pow_succ_r in Hrem by lia. unfold NUMERIC_BASE.
      rewrite Z.quot_div_nonneg, Z.rem_mod_nonneg by lia.
      pose proof (Z_div_mod_eq_full rem 10000) as Hdiv.
      pose proof (Z.mod_pos_bound rem 10000 ltac:(lia)) as Hmod.
      destruct (IH (rem `div` 10000) (digits ++ [rem `mod` 10000]))
        as (ds & -> & Hval & Hds & Hlen & Hhi & Hlo).
      { split; [apply Z.div_pos; lia|]. apply Z.div_lt_upper_bound; lia. }
      exists (rem `mod` 10000 :: ds). rewrite <- app_assoc. split; [done|]. cbn [from_digits foldr].
      fold (from_digits ds). rewrite Hval. split; [lia|]. split; [by constructor|].
      cbn [length]. split; [lia|]. rewrite Nat2Z.inj_succ, Z.pow_succ_r by lia. split; [lia|].
      replace (Z.succ (Z.of_nat (length ds)) - 1) with (Z.of_nat (length ds)) by lia.
      destruct (Z.eqb_spec rem 0); [lia|].
      destruct (Z.eqb_spec (rem `div` 10000) 0) as [H0|H0]; [subst ds; simpl; lia|].
      destruct ds as [|d ds]; [simpl in Hhi; lia|].
      replace (Z.of_nat (length (d :: ds))) with (Z.succ (Z.of_nat (length (d :: ds)) - 1)) by lia.
      rewrite Z.pow_succ_r by (cbn [length]; lia). lia.
    + assert (rem = 0) as -> by lia. exists []. rewrite app_nil_r. simpl.
      repeat split; try done; lia.
Qed.

Lemma from_digits_reverse ds : foldl (λ acc d, acc * 10000 + d) 0 (reverse ds) = from_digits ds.
Proof.
  induction ds as [|d ds IH]; [done|]. rewrite reverse_cons, foldl_app, IH. done.
Qed.

Lemma foldl_put_i16 l buf : foldl put_i16 buf l = buf ++ mjoin (be 2 <$> l).
Proof.
  revert buf. induction l as [|d l IH]; intros buf; [by rewrite app_nil_r|].
  cbn [foldl]. rewrite IH. unfold put_i16. by rewrite <- app_assoc.
Qed.

Lemma length_digits l : length (mjoin (be 2 <$> l)) = (2 * length l)%nat.
Proof.
  induction l as [|d l IH]; [done|].
  change (mjoin (be 2 <$> d :: l)) with (be 2 d ++ mjoin (be 2 <$> l)).
  rewrite length_app, length_be, IH. cbn [length]. lia.
Qed.

Lemma as_i16_small z : -32768 <= z < 32768 → as_i16 z = z.
Proof.
  intros Hz. unfold as_i16. destruct (Z.ltb_spec z 0).
  - rewrite <- (Z.mod_unique z 65536 (-1) (z + 65536)) by lia.
    rewrite (proj2 (Z.ltb_ge _ _)); lia.
  - rewrite Z.mod_small by lia. rewrite (proj2 (Z.ltb_lt _ _)); lia.
Qed.

Definition numeric_payload (ndigits weight sign dscale : Z) (digits : list Z) : bytes :=
  be 2 ndigits ++ be 2 weight ++ be 2 sign ++ be 2 dscale ++ mjoin (be 2 <$> digits).

Lemma read_numeric_payload weight sign dscale digits :
  Forall (λ d, 0 <= d < 10000) digits → (length digits <= 10)%nat → -1 <= weight < 10 →
  sign = 0 \/ sign = 16384 → 0 <= dscale <= 127 →
  exactly read_numeric (numeric_payload (Z.of_nat (length digits)) weight sign dscale digits)
  = Some (VNumeric (let n := numeric_value digits weight dscale in
                    if sign =? 0 then n else - n) dscale).
Proof.
  intros Hds Hlen Hw Hs Hd. apply exactly_app. unfold read_numeric, numeric_payload.
  rewrite <- !app_assoc. rewrite read_u_be by (simpl; lia). cbn [mbind option_bind].
  rewrite read_i2 by lia. cbn [mbind option_bind].
  rewrite read_u_be by (simpl; lia). cbn [mbind option_bind].
  rewrite read_u_be by (simpl; lia). cbn [mbind option_bind].
  rewrite Nat2Z.id, (read_many_spec _ (be 2) digits digits).
  2:{ apply Forall_Forall2_diag. eapply Forall_impl; [apply Hds|]. cbn. intros d Hdig rest.
      apply read_i2. lia. }
  cbn [mbind option_bind].
  rewrite (proj2 (Z.leb_le dscale 16383)) by lia.
  replace (forallb _ digits) with true.
  2:{ symmetry. apply forallb_forall. intros d Hin. rewrite Forall_forall in Hds.
      apply list_elem_of_In, Hds in Hin.
      by rewrite (proj2 (Z.leb_le _ _)), (proj2 (Z.ltb_lt _ _)) by lia. }
  by destruct Hs as [-> | ->].
Qed.

(** The digits of an integer, with the weight the encoder gives them. *)
Lemma put_numeric_read buf ds sign dscale :
  Forall (λ d, 0 <= d < 10000) ds → (length ds <= 10)%nat →
  sign = 0 \/ sign = 16384 → 0 <= dscale <= 127 →
  ∃ v, put_numeric buf ds sign dscale = buf ++ field_bytes (Some v) /\ small (Some v) /\
    exactly read_numeric v
    = Some (VNumeric (let n := from_digits ds * 10 ^ dscale in
                      if sign =? 0 then n else - n) dscale).
Proof.
  intros Hds Hlen Hs Hd.
  exists (numeric_payload (Z.of_nat (length ds)) (Z.of_nat (length ds) - 1) sign dscale (reverse ds)).
  assert (Hl : length (numeric_payload (Z.of_nat (length ds)) (Z.of_nat (length ds) - 1)
                         sign dscale (reverse ds)) = (8 + 2 * length ds)%nat).
  { unfold numeric_payload. rewrite !length_app, !length_be, length_digits, length_reverse. lia. }
  split_and!.
  - unfold put_numeric, field_bytes. rewrite Hl, foldl_put_i16, as_i16_small by lia.
    unfold put_i16, put_i32, numeric_payload, NUMERIC_HEADER_SIZE. rewrite <- !app_assoc.
    do 3 f_equal. lia.
  - cbn [small]. rewrite Hl. unfold i32_max. lia.
  - rewrite <- (length_reverse ds). rewrite read_numeric_payload;
      rewrite ?length_reverse; try done; try lia; [|by apply Forall_reverse].
    unfold numeric_value. rewrite from_digits_reverse, length_reverse.
    replace (Z.of_nat (length ds) - 1 - (Z.of_nat (length ds) - 1)) with 0 by lia.
    rewrite Z.leb_refl, Z.pow_0_r, Z.mul_1_r. done.
Qed.

Lemma put_zero_read buf dscale :
  0 <= dscale <= 127 →
  ∃ v, put_zero buf dscale = buf ++ field_bytes (Some v) /\ small (Some v) /\
    exactly read_numeric v = Some (VNumeric 0 dscale).
Proof.
  intros Hd. exists (numeric_payload (Z.of_nat (length (A:=Z) [])) 0 0 dscale []). split_and!.
  - unfold put_zero, put_i16, put_i32, field_bytes, numeric_payload.
    rewrite !length_app, !length_be. cbn [length]. rewrite <- !app_assoc.
    done.
  - unfold numeric_payload. cbn [small]. rewrite !length_app, !length_be. by vm_compute.
  - rewrite read_numeric_payload; [done|by constructor|simpl; lia..].
Qed.

(** The value PostgreSQL reads of a decimal is its integer, whatever the scale:
    a decimal with [scale] decimals is multiplied by [10 ^ scale]. *)
Lemma encode_decimal_read scale value buf :
  0 <= scale <= 127 → - decimal_bound < value < decimal_bound →
  ∃ v, encode_decimal scale value buf = Ok (buf ++ field_bytes (Some v)) /\ small (Some v) /\
    exactly read_numeric v = Some (VNumeric (value * 10 ^ scale) scale).
Proof.
  intros Hs Hv. unfold encode_decimal. destruct (Z.eqb_spec value 0) as [->|Hnz].
  { destruct (put_zero_read buf scale Hs) as (v & -> & Hsm & Hr). by exists v. }
  assert (Habs : (if value <? 0 then (abs_i128 value, NUMERIC_NEG) else (value, NUMERIC_POS))
                 = (Z.abs value, if value <? 0 then NUMERIC_NEG else NUMERIC_POS)).
  { unfold abs_i128, i128_min, decimal_bound in *. destruct (Z.ltb_spec value 0).
    - rewrite (proj2 (Z.eqb_neq _ _)) by lia. done.
    - by rewrite Z.abs_eq by lia. }
  rewrite Habs.
  destruct (base10000_loop_spec MAX_I128_BASE10000_DIGITS (Z.abs value) [])
    as (ds & -> & Hval & Hds & Hlen & _).
  { assert (decimal_bound < 10000 ^ Z.of_nat MAX_I128_BASE10000_DIGITS) by (by vm_compute). lia. }
  cbn [app mbind comp_bind].
  destruct (put_numeric_read buf ds (if value <? 0 then NUMERIC_NEG else NUMERIC_POS) scale)
    as (v & -> & Hsm & Hr); [done|done|destruct (value <? 0); auto|done|].
  exists v. split_and!; [done..|]. rewrite Hr, Hval. do 2 f_equal.
  destruct (Z.ltb_spec value 0); cbn; lia.
Qed.

Lemma encode_u64_read value buf :
  0 <= value <= u64_max →
  ∃ v, encode_u64 value buf = Ok (buf ++ field_bytes (Some v)) /\ small (Some v) /\
    exactly read_numeric v = Some (VNumeric value 0).
Proof.
  intros Hv. unfold encode_u64. destruct (Z.eqb_spec value 0) as [->|Hnz].
  { destruct (put_zero_read buf 0 ltac:(lia)) as (v & -> & Hsm & Hr). by exists v. }
  destruct (base10000_loop_spec MAX_U64_BASE10000_DIGITS value [])
    as (ds & -> & Hval & Hds & Hlen & _).
  { assert (u64_max < 10000 ^ Z.of_nat MAX_U64_BASE10000_DIGITS) by (by vm_compute). lia. }
  cbn [app mbind comp_bind].
  destruct (put_numeric_read buf ds NUMERIC_POS 0) as (v & -> & Hsm & Hr);
    [done|unfold MAX_U64_BASE10000_DIGITS in Hlen; lia|auto|lia|].
  exists v. split_and!; [done..|]. rewrite Hr, Hval. do 2 f_equal. cbn. lia.
Qed.

(** ** Fields *)

Section Correct.
Context `{ValueCodecs}.

(** What an encoder did for a slot that stands for a value: it appended a field
    that is read back as the value, or returned the error of the value, or found
    the field too large for its length. *)
Definition too_large {A} (r : comp Error A) : Prop :=
  ∃ f size, r = Err (FieldTooLarge f size) /\ i32_max < size.

Definition appends {B C} (enc : B → bytes) (R : B → C → Prop) (buf : bytes)
    (spec : comp Error C) (r : comp Error bytes) : Prop :=
  too_large r \/
  match spec with
  | Ok v => ∃ item, r = Ok (buf ++ enc item) /\ R item v
  | Err e => r = Err e
  | _ => False
  end.

Definition reads_as (t : PostgresType) (cell : option bytes) (v : option PgValue) : Prop :=
  small cell /\ recv_cell t cell = Some v.

Definition written (t : PostgresType) := appends field_bytes (reads_as t).

Lemma impl_encode_slot_eq {V W} size (transform : V → W) write arr row buf :
  impl_encode size transform write arr row buf
  = impl_encode_slot (λ v buf, size ← size; Ok (write (put_i32 buf size) (transform v))) arr row buf.
Proof. done. Qed.

Lemma impl_encode_fallible_slot {V W} size (transform : V → comp Error W) write arr row buf :
  impl_encode_fallible size transform write arr row buf
  = impl_encode_slot (λ v buf, size ← size; tv ← transform v; Ok (write (put_i32 buf size) tv))
      arr row buf.
Proof. done. Qed.

Lemma slot_written {V} (xs : slots V) row value encode_value t buf :
  (row < length xs)%nat →
  (∀ v buf, (true, v) ∈ xs → written t buf (Some <$> value v) (encode_value v buf)) →
  written t buf (slot_value value xs row) (impl_encode_slot encode_value xs row buf).
Proof.
  intros [[[] v] Hv]%lookup_lt_is_Some Hw; unfold slot_value, impl_encode_slot; rewrite Hv.
  - apply Hw. by eapply list_elem_of_lookup_2.
  - right. by exists None.
Qed.

(** A field of a fixed width. *)
Lemma fixed_written t buf n w value :
  recv t (be n w) = Some value → Z.of_nat n <= i32_max →
  written t buf (Ok (Some value)) (Ok (put_i32 buf (Z.of_nat n) ++ be n w)).
Proof.
  intros Hr Hn. right. exists (Some (be n w)). unfold reads_as, field_bytes, put_i32, small, recv_cell.
  rewrite length_be, Hr, <- app_assoc. done.
Qed.

Lemma recv_be1 w : 0 <= w < 256 → exactly (read_u 1) (be 1 w) = Some w.
Proof. intros. apply exactly_app, read_u_be. done. Qed.
Lemma recv_be2 w : -32768 <= w < 32768 → exactly (read_i 2) (be 2 w) = Some w.
Proof. intros. by apply exactly_app, read_i2. Qed.
Lemma recv_be4 w : -2147483648 <= w <= i32_max → exactly (read_i 4) (be 4 w) = Some w.
Proof. intros. by apply exactly_app, read_i4. Qed.
Lemma recv_be8 w : i64_min <= w <= i64_max → exactly (read_i 8) (be 8 w) = Some w.
Proof. intros. by apply exactly_app, read_i8. Qed.
Lemma recv_u4 w : 0 <= w <= 4294967295 → exactly (read_u 4) (be 4 w) = Some w.
Proof. intros. apply exactly_app, read_u_be. change (256 ^ Z.of_nat 4) with 4294967296. lia. Qed.
Lemma recv_u8 w : 0 <= w <= u64_max → exactly (read_u 8) (be 8 w) = Some w.
Proof.
  intros Hw. apply exactly_app, read_u_be.
  change (256 ^ Z.of_nat 8) with (u64_max + 1). lia.
Qed.

(** Bytes of any length. *)
Lemma bytes_written t field buf v value :
  recv t v = Some value → written t buf (Ok (Some value)) (encode_binary field v buf).
Proof.
  intros Hr. unfold encode_binary, i32_try_from.
  destruct (Z.leb_spec (Z.of_nat (length v)) i32_max) as [Hle|Hgt].
  - right. exists (Some v). unfold reads_as, field_bytes, put_i32, recv_cell. rewrite Hr, <- app_assoc. done.
  - left. by exists field, (Z.of_nat (length v)).
Qed.

Lemma string_written f buf output v :
  written (postgres_datatype output) buf (Some <$> text_value f output v)
    (encode_string f output v buf).
Proof.
  unfold encode_string, i32_try_from. destruct output; cbn [postgres_datatype text_value].
  - rewrite bool_decide_eq_false_2 by done. by apply (bytes_written PostgresType.Text).
  - rewrite bool_decide_eq_false_2 by done. by apply (bytes_written PostgresType.Json).
  - rewrite bool_decide_eq_true_2 by done. destruct (json_valid v); cbn [andb negb]; [|by right].
    destruct (Z.leb_spec (Z.of_nat (length v) + 1) i32_max) as [Hle|Hgt].
    + right. exists (Some (JSONB_VERSION :: v)). unfold reads_as. cbn [small length field_bytes recv_cell].
      split_and!; [|lia|done]. unfold put_u8, put_i32. rewrite <- !app_assoc. do 2 f_equal.
      change (be 1 JSONB_VERSION ++ v) with (JSONB_VERSION :: v). do 2 f_equal. lia.
    + left. by exists f, (Z.of_nat (length v) + 1).
Qed.

(** ** Sequences of fields *)

Lemma foldl_bind {A} (step : A → bytes → comp Error bytes) l m :
  foldl (λ acc a, buf ← acc; step a buf) m l
  = (buf ← m; foldl (λ acc a, buf ← acc; step a buf) (Ok buf) l).
Proof.
  destruct m as [buf|e| |]; [done|..]; induction l as [|a l IH]; try done; cbn in *; apply IH.
Qed.

(** Steps that append one item each append the items, up to the first error. *)
Lemma items_appended {A B C} (enc : B → bytes) (R : A → B → C → Prop) step spec (l : list A) buf :
  (∀ a buf, a ∈ l → appends enc (R a) buf (spec a) (step a buf)) →
  appends (λ items, mjoin (enc <$> items)) (λ items vs, Forall3 R l items vs) buf (mapM spec l)
    (foldl (λ acc a, buf ← acc; step a buf) (Ok buf) l).
Proof.
  revert buf. induction l as [|a l IH]; intros buf Hw.
  { right. exists []. cbn. rewrite app_nil_r. split; [done|constructor]. }
  cbn [foldl]. rewrite foldl_bind, mapM_cons. cbn [mbind comp_bind].
  destruct (Hw a buf) as [(f & size & -> & Hsize)|Ha]; [by left|left; by exists f, size|].
  destruct (spec a) as [v|e| |]; try done; [|right; by rewrite Ha].
  destruct Ha as (item & -> & Hitem). cbn [mbind comp_bind].
  destruct (IH (buf ++ enc item)) as [Hlarge|Hl];
    [intros a' buf' Hin; apply Hw; by right|by left|right].
  destruct (mapM spec l) as [vs|e| |]; try done.
  destruct Hl as (items & -> & H3). exists (item :: items). cbn [mret comp_ret].
  change (mjoin (enc <$> item :: items)) with (enc item ++ mjoin (enc <$> items)).
  rewrite <- app_assoc. split; [done|by constructor].
Qed.

Lemma length_fields cells : (4 * length cells <= length (mjoin (field_bytes <$> cells)))%nat.
Proof.
  induction cells as [|c cells IH]; [done|].
  change (mjoin (field_bytes <$> c :: cells)) with (field_bytes c ++ mjoin (field_bytes <$> cells)).
  rewrite length_app. cbn [length].
  assert (4 <= length (field_bytes c))%nat; [|lia].
  destruct c; unfold field_bytes; rewrite ?length_app, length_be; lia.
Qed.

Lemma read_fields cells rest :
  Forall small cells →
  read_many read_field (length cells) (mjoin (field_bytes <$> cells) ++ rest) = Some (cells, rest).
Proof.
  intros Hs. apply read_many_spec, Forall_Forall2_diag. eapply Forall_impl; [apply Hs|].
  intros cell Hc rest'. by apply read_field_bytes.
Qed.

Definition array_payload (flag element len : Z) (body : bytes) : bytes :=
  be 4 1 ++ be 4 flag ++ be 4 element ++ be 4 len ++ be 4 1 ++ body.

Lemma read_array_payload flag element cells :
  Forall small cells → flag = 0 \/ flag = 1 → 0 <= element <= 4294967295 →
  Z.of_nat (length cells) <= i32_max →
  exactly (read_array (Some element))
    (array_payload flag element (Z.of_nat (length cells)) (mjoin (field_bytes <$> cells)))
  = Some cells.
Proof.
  intros Hs Hf He Hl. apply exactly_app. unfold read_array, array_payload.
  rewrite <- !app_assoc, read_i4 by (unfold i32_max; lia). cbn [mbind option_bind].
  rewrite read_i4 by (unfold i32_max; lia). cbn [mbind option_bind].
  rewrite read_u_be by (change (256 ^ Z.of_nat 4) with 4294967296; lia). cbn [mbind option_bind].
  rewrite bool_decide_eq_true_2 by done.
  replace ((flag =? 0) || (flag =? 1)) with true by (by destruct Hf as [-> | ->]).
  rewrite read_i4 by (unfold i32_max in *; lia). cbn.
  rewrite read_i4 by (unfold i32_max; lia). cbn.
  rewrite (proj2 (Z.ltb_ge _ _)) by lia. rewrite Nat2Z.id. by apply read_fields.
Qed.

Lemma oid_range t o : oid t = Some o → 0 <= o <= 4294967295.
Proof. destruct t; cbn; intros; simplify_eq; lia. Qed.

Lemma list_written encode_inner field inner val buf e column element :
  encoder_try_new inner val = Ok e → schema inner = Ok column →
  oid (col_type column) = Some element → catalog_oid (col_type column) = Some element →
  (∀ k buf, (k < arr_len val)%nat →
     written (col_type column) buf (cell_value inner val k) (encode_inner e k buf)) →
  written (PostgresType.List column) buf
    (Some <$> (VArray <$> mapM (cell_value inner val) (seq 0 (arr_len val))))
    (encode_list encode_inner field inner val buf).
Proof.
  intros He Hc Hoid Hcat Hw. unfold encode_list. rewrite He, Hc. cbn [mbind comp_bind].
  rewrite Hoid. cbn [unwrap mbind comp_bind].
  set (flag := Z.b2z _).
  match goal with |- context [encode_rows _ _ ?b] => set (buf0 := b) end.
  destruct (items_appended field_bytes (λ _, reads_as (col_type column)) (encode_inner e)
              (cell_value inner val) (seq 0 (arr_len val)) buf0) as [(f & size & Hr & Hsize)|Hrows].
  { intros k buf' [_ Hk]%elem_of_seq. by apply Hw. }
  { left. exists f, size. unfold encode_rows. by rewrite Hr. }
  unfold encode_rows. destruct (mapM _ _) as [vs|err| |]; try done; [|by right; rewrite Hrows].
  destruct Hrows as (cells & -> & H3). cbn [mbind comp_bind].
  assert (Hs : Forall small cells) by (clear -H3; induction H3 as [|? ? ? ? ? ? [? ?] _ ?]; by constructor).
  set (payload := array_payload flag element (Z.of_nat (arr_len val)) (mjoin (field_bytes <$> cells))).
  replace (buf0 ++ mjoin (field_bytes <$> cells)) with (buf ++ be 4 0 ++ payload)
    by (unfold buf0, payload, array_payload, put_i32; by rewrite <- !app_assoc).
  rewrite !length_app, length_be, take_app_length, !app_assoc.
  replace (Z.of_nat (length buf + (4 + length payload)) - Z.of_nat (length buf) - 4)
    with (Z.of_nat (length payload)) by lia.
  unfold i32_try_from. destruct (Z.leb_spec (Z.of_nat (length payload)) i32_max) as [Hle|Hgt].
  - right. exists (Some payload). unfold reads_as. cbn [field_bytes small recv_cell].
    rewrite drop_app_length' by (by rewrite length_app, length_be). split_and!; [|done|].
    + done.
    + assert (Hlen : length cells = arr_len val).
      { apply Forall3_length_lm in H3. by rewrite length_seq in H3. }
      pose proof (length_fields cells) as Hfields.
      unfold payload in *. rewrite <- Hlen. destruct column as [ct nl]. cbn [recv col_type] in *.
      rewrite Hcat, read_array_payload; [|done|subst flag; destruct (negb _); auto|by eapply oid_range|].
      2:{ unfold array_payload in Hle. rewrite !length_app in Hle. lia. }
      cbn [mbind option_bind fmap option_fmap]. rewrite (mapM_Some_2 _ cells vs); [done|].
      clear -H3. induction H3 as [|? ? ? ? ? ? [? ?] _ ?]; by constructor.
  - left. by exists field, (Z.of_nat (length payload)).
Qed.

(** ** Conversions *)

Lemma convert_us_eq v :
  convert_arrow_timestamp_microseconds_to_pg_timestamp v
  = ok_or (checked_i64 (v - epoch_seconds * 1000000)) Encode.
Proof. done. Qed.

Lemma convert_scaled v off k :
  0 < k →
  (v' ← ok_or (checked_i64 (v - off)) Encode; ok_or (checked_i64 (v' * k)) Encode)
  = ok_or (checked_i64 ((v - off) * k)) Encode.
Proof.
  intros Hk. unfold checked_i64, i64_min, i64_max.
  destruct (Z.leb_spec (-9223372036854775808) (v - off)) as [H1|H1];
    [destruct (Z.leb_spec (v - off) 9223372036854775807) as [H2|H2]|]; cbn [andb ok_or mbind comp_bind].
  - done.
  - rewrite (proj2 (Z.leb_gt ((v - off) * k) _)) by nia. by rewrite andb_false_r.
  - by rewrite (proj2 (Z.leb_gt _ ((v - off) * k))) by nia.
Qed.

Lemma convert_ms_eq v :
  convert_arrow_timestamp_milliseconds_to_pg_timestamp v
  = ok_or (checked_i64 (v * 1000 - epoch_seconds * 1000000)) Encode.
Proof.
  unfold convert_arrow_timestamp_milliseconds_to_pg_timestamp. rewrite convert_scaled by lia.
  do 2 f_equal. change PG_BASE_TIMESTAMP_OFFSET_MS with (epoch_seconds * 1000). lia.
Qed.

Lemma convert_s_eq v :
  convert_arrow_timestamp_seconds_to_pg_timestamp v
  = ok_or (checked_i64 ((v - epoch_seconds) * 1000000)) Encode.
Proof. unfold convert_arrow_timestamp_seconds_to_pg_timestamp. by rewrite convert_scaled. Qed.

Lemma checked_i64_small z : i64_min <= z <= i64_max → checked_i64 z = Some z.
Proof. intros. unfold checked_i64. by rewrite !(proj2 (Z.leb_le _ _)) by lia. Qed.

Lemma convert_ns_eq v :
  i64_min <= v <= i64_max →
  convert_arrow_timestamp_nanoseconds_to_pg_timestamp v
  = let ns := v - epoch_seconds * 1000000000 in
    if i64_min <=? ns then Ok (ns `quot` 1000) else Err Encode.
Proof.
  intros Hv. unfold convert_arrow_timestamp_nanoseconds_to_pg_timestamp.
  change PG_BASE_TIMESTAMP_OFFSET_NS with (epoch_seconds * 1000000000). unfold checked_i64. cbn zeta.
  assert (0 < epoch_seconds) by done.
  rewrite (proj2 (Z.leb_le (v - _) i64_max)), andb_true_r by lia.
  by destruct (i64_min <=? _).
Qed.

Lemma in_i64_written mk z t buf :
  (i64_min <= z <= i64_max → recv t (be 8 z) = Some (mk z)) →
  written t buf (Some <$> in_i64 mk z)
    (tv ← ok_or (checked_i64 z) Encode; Ok (put_i64 (put_i32 buf 8) tv)).
Proof.
  intros Hr. unfold in_i64, checked_i64.
  destruct (Z.leb_spec i64_min z), (Z.leb_spec z i64_max); cbn; try by right.
  apply (fixed_written t buf 8); [by apply Hr|done].
Qed.

Lemma in_i32_written mk z t buf :
  (-2147483648 <= z <= i32_max → recv t (be 4 z) = Some (mk z)) →
  written t buf (Some <$> in_i32 mk z)
    (tv ← ok_or (checked_i32 z) Encode; Ok (put_i32 (put_i32 buf 4) tv)).
Proof.
  intros Hr. unfold in_i32, checked_i32.
  destruct (Z.leb_spec (-2147483648) z), (Z.leb_spec z i32_max); cbn; try by right.
  apply (fixed_written t buf 4); [by apply Hr|done].
Qed.

Lemma interval_written buf us :
  i64_min <= us <= i64_max →
  written PostgresType.Interval buf (Ok (Some (interval_us us)))
    (Ok (write_duration (put_i32 buf 16) us)).
Proof.
  intros Hus. right. exists (Some (be 8 us ++ be 4 0 ++ be 4 0)). unfold reads_as. split_and!; [|done|].
  - unfold write_duration, put_i64, put_i32, field_bytes. rewrite !length_app, !length_be.
    by rewrite <- !app_assoc.
  - cbn [recv_cell recv]. erewrite exactly_app; [done|]. rewrite <- !app_assoc, read_i8 by done.
    cbn [mbind option_bind]. rewrite read_i4 by (unfold i32_max; lia). cbn [mbind option_bind].
    by rewrite read_i4 by (unfold i32_max; lia).
Qed.

Lemma in_interval_written z buf :
  written PostgresType.Interval buf (Some <$> in_i64 interval_us z)
    (tv ← ok_or (checked_i64 z) Encode; Ok (write_duration (put_i32 buf 16) tv)).
Proof.
  unfold in_i64, checked_i64.
  destruct (Z.leb_spec i64_min z), (Z.leb_spec z i64_max); cbn; try by right.
  by apply interval_written.
Qed.

(** ** Columns *)

Lemma within_elem lo hi xs s : within lo hi xs = true → s ∈ xs → lo <= s.2 <= hi.
Proof.
  unfold within. rewrite forallb_forall. intros Hall Hin%list_elem_of_In%Hall. lia.
Qed.

Lemma primitive_ok_inv p arr :
  primitive_ok p arr = true →
  ∃ xs, arr = PrimitiveArray p xs /\
    ∀ v, (true, v) ∈ xs → (primitive_range p).1 <= v <= (primitive_range p).2.
Proof.
  destruct arr; try done. unfold primitive_ok. intros [->%bool_decide_eq_true Hw]%andb_true_iff.
  eexists. split; [done|]. intros v Hv. by apply (within_elem _ _ _ _ Hw) in Hv.
Qed.

(** A builder and an array of its field: the encoder, the column, and every
    slot written. *)
Definition column_written (b : EncoderBuilder) (arr : Array) : Prop :=
  ∃ e c, encoder_try_new b arr = Ok e /\ schema b = Ok c /\
    (∀ fuel, (encoder_depth e <= fuel)%nat → ∃ n, size_hint_at fuel e = Ok n) /\
    ∀ fuel row buf, (encoder_depth e <= fuel)%nat → (row < arr_len arr)%nat →
      written (col_type c) buf (cell_value b arr row) (encode_at fuel e row buf).

Lemma sum_rows_ok {V} (row_size : bool * V → comp Error Z) xs :
  (∀ s, s ∈ xs → ∃ n, row_size s = Ok n) → ∃ n, sum_rows row_size xs = Ok n.
Proof.
  unfold sum_rows. generalize 0. induction xs as [|s xs IH]; intros total Hok; [by exists total|].
  cbn [foldl mbind comp_bind]. destruct (Hok s) as [n ->]; [by left|]. cbn [mbind comp_bind].
  apply IH. intros s' Hs'. apply Hok. by right.
Qed.

(** The division loop is over after one step for a decimal of 38 digits. *)
Lemma count_digits_ok v :
  - decimal_bound < v < decimal_bound → ∃ n, count_base10000_digits_i128 v = Ok n.
Proof.
  intros Hv. unfold count_base10000_digits_i128.
  repeat (case_match; [by eexists|]). cbn [count_loop].
  set (q := Z.abs v `quot` 1000000000000000000000000000000000000).
  assert (Hq : 0 <= q < 10000).
  { subst q. rewrite Z.quot_div_nonneg by lia. split; [apply Z.div_pos; lia|].
    apply Z.div_lt_upper_bound; [lia|]. unfold decimal_bound in Hv. lia. }
  destruct (0 <? q); [|by eexists]. unfold NUMERIC_BASE. rewrite (Z.quot_small q) by lia. by eexists.
Qed.

Lemma fixed_value t buf n w value :
  recv t (be n w) = Some value → Z.of_nat n <= i32_max →
  written t buf (Some <$> Ok value) (Ok (put_i32 buf (Z.of_nat n) ++ be n w)).
Proof. apply fixed_written. Qed.

(** The leaves: an array of primitives whose encoder handles a slot with
    [encode_value]. *)
Lemma primitive_written b p (mk : slots Z → Encoder) c encode_value arr :
  primitive_ok p arr = true →
  (∀ xs, encoder_try_new b (PrimitiveArray p xs) = Ok (mk xs)) → schema b = Ok c →
  (∀ fuel xs, ∃ n, size_hint_at fuel (mk xs) = Ok n) →
  (∀ fuel xs row buf, encode_at fuel (mk xs) row buf = impl_encode_slot encode_value xs row buf) →
  (∀ v buf, (primitive_range p).1 <= v <= (primitive_range p).2 →
     written (col_type c) buf (Some <$> primitive_value b v) (encode_value v buf)) →
  column_written b arr.
Proof.
  intros (xs & -> & Hxs)%primitive_ok_inv He Hc Hhint Henc Hw. exists (mk xs), c.
  split; [apply He|]. split; [done|]. split; [by intros; apply Hhint|]. intros fuel row buf _ Hrow. rewrite Henc.
  assert (Hv : cell_value b (PrimitiveArray p xs) row = slot_value (primitive_value b) xs row)
    by by destruct b.
  rewrite Hv. apply slot_written; [done|]. intros v buf' Hin. apply Hw, Hxs, Hin.
Qed.

Lemma encoder_depth_builder b arr e :
  encoder_try_new b arr = Ok e → encoder_depth e = builder_depth b.
Proof.
  intros He. destruct b; cbn in He; unfold fmap, comp_fmap, mbind, comp_bind in He;
    repeat (case_match; simplify_eq; try done).
Qed.

(** A list whose elements are written. *)
Lemma list_column_written large field inner xs (mk : slots Array → Encoder) b c element :
  (∀ val, val ∈ xs.*2 → column_written inner val) →
  schema inner = Ok c → oid (col_type c) = Some element → catalog_oid (col_type c) = Some element →
  b = EncoderBuilder.List field inner /\ mk = (λ xs, Encoder.List xs (field_name field) inner)
  \/ b = EncoderBuilder.LargeList field inner /\ mk = (λ xs, Encoder.LargeList xs (field_name field) inner) →
  encoder_try_new b (GenericListArray large xs) = Ok (mk xs) →
  column_written b (GenericListArray large xs).
Proof.
  intros Hin Hc Hoid Hcat Hb He. exists (mk xs), (mkColumn (PostgresType.List c) (is_nullable field)).
  split; [done|]. split; [destruct Hb as [[-> _]|[-> _]]; cbn; by rewrite Hc|].
  split.
  { intros fuel Hfuel.
    assert (Hhint : ∃ fuel', fuel = S fuel' /\ (builder_depth inner <= fuel')%nat /\
      size_hint_at fuel (mk xs) = sum_rows (list_row_size (size_hint_at fuel') inner) xs).
    { destruct Hb as [[_ ->]|[_ ->]]; (destruct fuel as [|fuel]; [cbn in Hfuel; lia|]);
        exists fuel; cbn in Hfuel |- *; (split_and!; [done|lia|done]). }
    destruct Hhint as (fuel' & -> & Hd & ->). apply sum_rows_ok. intros [[] val] Hs; [|by eexists].
    destruct (Hin val) as (e & c' & He' & _ & Hh & _);
      [apply list_elem_of_fmap; by exists (true, val)|].
    unfold list_row_size. cbn [fst snd]. rewrite He'. cbn [mbind comp_bind].
    destruct (Hh fuel') as [n ->]; [by rewrite (encoder_depth_builder _ _ _ He')|]. by eexists. }
  intros fuel row buf Hfuel Hrow. cbn [col_type arr_len] in *.
  assert (Hdepth : encoder_depth (mk xs) = S (builder_depth inner)) by (by destruct Hb as [[_ ->]|[_ ->]]).
  destruct fuel as [|fuel]; [lia|].
  assert (Henc : encode_at (S fuel) (mk xs) row buf
    = impl_encode_slot (encode_list (encode_at fuel) (field_name field) inner) xs row buf)
    by (by destruct Hb as [[_ ->]|[_ ->]]).
  assert (Hval : cell_value b (GenericListArray large xs) row
    = slot_value (λ val, VArray <$> mapM (cell_value inner val) (seq 0 (arr_len val))) xs row)
    by (by destruct Hb as [[-> _]|[-> _]]).
  rewrite Henc, Hval. apply slot_written; [done|]. intros val buf' Hv.
  destruct (Hin val) as (e & c' & He' & Hc' & _ & Hw); [apply list_elem_of_fmap; by exists (true, val)|].
  rewrite Hc in Hc'. injection Hc' as <-. eapply list_written; try done.
  intros k buf'' Hk. apply Hw; [|done].
  rewrite (encoder_depth_builder _ _ _ He'). lia.
Qed.

(** The identifier of the elements of a list, which is that of the catalog. *)
Lemma builder_oid f b c :
  builder_try_new f = Ok b → schema b = Ok c → is_list_type (field_type f) = false →
  encodable f = true →
  match field_type f with DataType.Timestamp _ (Some _) => false | _ => true end = true →
  ∃ element, oid (col_type c) = Some element /\ catalog_oid (col_type c) = Some element.
Proof.
  destruct f as [name dt nullable]. intros Hb Hc Hl He Htz.
  destruct dt as [ | | | | | | | | | | | | | |unit tz| |unit|unit|unit| | | | | |i|i|i n|fs|]; cbn in *;
    try destruct unit; try destruct tz; simplify_eq; cbn in Hc; simplify_eq; eexists; split; reflexivity.
Qed.

(** The handler of a slot of each kind, with its conversion. *)
Ltac leaf mk :=
  eapply (primitive_written _ _ mk);
    [eassumption
    |intros xs; cbn; by rewrite decide_True by done
    |reflexivity
    |intros fuel xs; destruct fuel; first [by apply sum_rows_ok; intros [[] ?]; eexists|by eexists]
    |intros fuel xs row buf; destruct fuel; reflexivity
    |intros v buf Hv; cbn in Hv |- *].

Lemma primitive_field_written f b arr :
  builder_try_new f = Ok b → well_typed f arr = true →
  match field_type f with
  | DataType.UInt8 | DataType.UInt16 | DataType.UInt32 | DataType.UInt64
  | DataType.Int8 | DataType.Int16 | DataType.Int32 | DataType.Int64
  | DataType.Float16 | DataType.Float32 | DataType.Float64 => True
  | _ => False
  end →
  column_written b arr.
Proof.
  destruct f as [name dt nullable]. intros Hb Ht Hdt.
  destruct dt; try done; cbn in Hb, Ht; injection Hb as <-.
  - leaf Encoder.UInt8. apply (fixed_value _ _ 2); [|done]. cbn. by rewrite recv_be2 by lia.
  - leaf Encoder.UInt16. apply (fixed_value _ _ 4); [|done]. cbn.
    by rewrite recv_be4 by (unfold i32_max; lia).
  - leaf Encoder.UInt32. apply (fixed_value _ _ 8); [|done]. cbn.
    by rewrite recv_be8 by (unfold i64_min, i64_max; lia).
  - leaf Encoder.UInt64. right. destruct (encode_u64_read v buf Hv) as (p & -> & Hs & Hr).
    exists (Some p). unfold reads_as. split_and!; [done..|]. cbn. by rewrite Hr.
  - leaf Encoder.Int8. apply (fixed_value _ _ 2); [|done]. cbn. by rewrite recv_be2 by lia.
  - leaf Encoder.Int16. apply (fixed_value _ _ 2); [|done]. cbn. by rewrite recv_be2 by lia.
  - leaf Encoder.Int32. apply (fixed_value _ _ 4); [|done]. cbn. by rewrite recv_be4 by lia.
  - leaf Encoder.Int64. apply (fixed_value _ _ 8); [|done]. cbn. by rewrite recv_be8 by lia.
  - leaf Encoder.Float16. apply (fixed_value _ _ 4); [|done]. cbn.
    pose proof (f32_from_f16_range v). by rewrite recv_u4 by lia.
  - leaf Encoder.Float32. apply (fixed_value _ _ 4); [|done]. cbn. by rewrite recv_u4 by lia.
  - leaf Encoder.Float64. apply (fixed_value _ _ 8); [|done]. cbn. by rewrite recv_u8 by lia.
Qed.

Lemma time_field_written f b arr :
  builder_try_new f = Ok b → well_typed f arr = true →
  match field_type f with
  | DataType.Timestamp _ _ | DataType.Date32 | DataType.Time32 _ | DataType.Time64 _
  | DataType.Duration _ => True
  | _ => False
  end →
  column_written b arr.
Proof.
  destruct f as [name dt nullable]. intros Hb Ht Hdt.
  destruct dt as [ | | | | | | | | | | | | | |unit tz| |unit|unit|unit| | | | | |i|i|i n|fs|]; try done;
    try destruct unit; cbn in Hb, Ht; simplify_eq.
  - leaf (λ xs, Encoder.TimestampSecond xs name). rewrite convert_s_eq.
    apply in_i64_written. intros Hz. cbn. by rewrite recv_be8.
  - leaf (λ xs, Encoder.TimestampMillisecond xs name). rewrite convert_ms_eq.
    apply in_i64_written. intros Hz. cbn. by rewrite recv_be8.
  - leaf (λ xs, Encoder.TimestampMicrosecond xs name). rewrite convert_us_eq.
    apply in_i64_written. intros Hz. cbn. by rewrite recv_be8.
  - leaf (λ xs, Encoder.TimestampNanosecond xs name). rewrite convert_ns_eq by done. cbn zeta.
    destruct (Z.leb_spec i64_min (v - epoch_seconds * 1000000000)) as [Hns|]; [|by right].
    apply (fixed_value _ _ 8); [|done]. cbn. rewrite recv_be8; [done|].
    pose proof (Z.quot_rem' (v - epoch_seconds * 1000000000) 1000).
    assert (0 < epoch_seconds) by done. unfold i64_min, i64_max in *. Z.to_euclidean_division_equations. lia.
  - leaf (λ xs, Encoder.Date32 xs name). apply in_i32_written. intros Hz. cbn. by rewrite recv_be4.
  - leaf (λ xs, Encoder.Time32Second xs name).
    unfold convert_arrow_time_seconds_to_postgres_time.
    rewrite checked_i64_small by (unfold i64_min, i64_max, i32_max in *; lia).
    apply (fixed_value _ _ 8); [|done]. cbn.
    by rewrite recv_be8 by (unfold i64_min, i64_max, i32_max in *; lia).
  - leaf (λ xs, Encoder.Time32Millisecond xs name).
    unfold convert_arrow_time_milliseconds_to_postgres_time.
    rewrite checked_i64_small by (unfold i64_min, i64_max, i32_max in *; lia).
    apply (fixed_value _ _ 8); [|done]. cbn.
    by rewrite recv_be8 by (unfold i64_min, i64_max, i32_max in *; lia).
  - leaf Encoder.Time64Microsecond. apply (fixed_value _ _ 8); [|done]. cbn. by rewrite recv_be8.
  - leaf (λ xs, Encoder.DurationSecond xs name). apply in_interval_written.
  - leaf (λ xs, Encoder.DurationMillisecond xs name). apply in_interval_written.
  - leaf Encoder.DurationMicrosecond. by apply interval_written.
Qed.

(** The other leaves: an encoder [e] of slots [xs] with its handler. *)
Lemma leaf_written {V} b arr e c (xs : slots V) value encode_value :
  encoder_try_new b arr = Ok e → schema b = Ok c → arr_len arr = length xs →
  (∀ fuel, ∃ n, size_hint_at fuel e = Ok n) →
  (∀ fuel row buf, encode_at fuel e row buf = impl_encode_slot encode_value xs row buf) →
  (∀ row, cell_value b arr row = slot_value value xs row) →
  (∀ v buf, (true, v) ∈ xs → written (col_type c) buf (Some <$> value v) (encode_value v buf)) →
  column_written b arr.
Proof.
  intros He Hc Hlen Hhint Henc Hval Hw. exists e, c. split; [done|]. split; [done|].
  split; [by intros; apply Hhint|]. intros fuel row buf _ Hrow. rewrite Henc, Hval. apply slot_written; [by rewrite <- Hlen|done].
Qed.

Ltac hint_ok :=
  intros []; first [by apply sum_rows_ok; intros [[] ?]; eexists|by eexists].

Lemma variable_field_written f b arr :
  builder_try_new f = Ok b → well_typed f arr = true → encodable f = true →
  match field_type f with
  | DataType.Boolean | DataType.Decimal128 _ _ | DataType.Utf8 | DataType.LargeUtf8
  | DataType.Binary | DataType.LargeBinary | DataType.FixedSizeBinary _ => True
  | _ => False
  end →
  column_written b arr.
Proof.
  destruct f as [name dt nullable]. intros Hb Ht Henc Hdt.
  destruct dt; try done; cbn in Hb, Ht, Henc; injection Hb as <-; destruct arr; try done.
  - eapply leaf_written; [done|done|done|hint_ok|by intros []|done|]. intros v buf _.
    apply (fixed_value _ _ 1); [|done]. by destruct v.
  - apply andb_true_iff in Ht as [->%Z.eqb_eq Hw]. apply Z.eqb_eq in Henc as ->.
    eapply leaf_written; [done|done|done| |by intros []|done|].
    { intros []; apply sum_rows_ok; (intros [[] v] Hs; [|by eexists]);
        apply (within_elem _ _ _ _ Hw) in Hs; cbn [snd] in Hs;
        (destruct (count_digits_ok v) as [k Hk]; [lia|]); unfold decimal_row_size; cbn [fst snd];
        rewrite Hk; by eexists. }
    intros v buf Hv. right.
    apply (within_elem _ _ _ _ Hw) in Hv. cbn [snd] in Hv.
    cbn [fst]. destruct (encode_decimal_read 0 v buf) as (p & -> & Hs & Hr); [lia..|].
    exists (Some p). unfold reads_as. split_and!; [done..|]. cbn. rewrite Hr. cbn. do 2 f_equal. f_equal. lia.
  - destruct large; [done|]. eapply leaf_written; [done|done|done|hint_ok|by intros []|done|].
    intros v buf _. apply string_written.
  - destruct large; [|done]. eapply leaf_written; [done|done|done|hint_ok|by intros []|done|].
    intros v buf _. apply string_written.
  - destruct large; [done|]. eapply leaf_written; [done|done|done|hint_ok|by intros []|done|].
    intros v buf _. by apply bytes_written.
  - destruct large; [|done]. eapply leaf_written; [done|done|done|hint_ok|by intros []|done|].
    intros v buf _. by apply bytes_written.
  - eapply leaf_written; [done|done|done|hint_ok|by intros []|done|]. intros v buf _. by apply bytes_written.
Qed.

Lemma field_written f b arr :
  builder_try_new f = Ok b → well_typed f arr = true → encodable f = true → column_written b arr.
Proof.
  revert b arr. induction f as [name dt nullable IH] using field_induction. intros b arr Hb Ht He.
  assert (Hlist : ∀ large inner (mk : EncoderBuilder → slots Array → Encoder) build,
    inner_field dt = Some inner → encodable inner = true →
    match field_type inner with DataType.Timestamp _ (Some _) => false | _ => true end = true →
    (if is_list_type (field_type inner) then Err (TypeNotSupported name dt nested_not_supported)
     else inner' ← builder_try_new inner; Ok (build (mkField name dt nullable) inner')) = Ok b →
    match arr with
    | GenericListArray l xs => Bool.eqb l large && forallb (λ s, well_typed inner s.2) xs
    | _ => false
    end = true →
    (∀ inner', build (mkField name dt nullable) inner' = EncoderBuilder.List (mkField name dt nullable) inner'
       /\ mk inner' = (λ xs, Encoder.List xs name inner')
     \/ build (mkField name dt nullable) inner' = EncoderBuilder.LargeList (mkField name dt nullable) inner'
       /\ mk inner' = (λ xs, Encoder.LargeList xs name inner')) →
    (∀ inner' xs, encoder_try_new (build (mkField name dt nullable) inner') (GenericListArray large xs)
       = Ok (mk inner' xs)) →
    column_written b arr).
  { intros large inner mk build Hin Hei Htz Hbuild Harr Hmk Htry.
    destruct (is_list_type (field_type inner)) eqn:Hl; [done|].
    destruct (builder_try_new inner) as [inner'|err| |] eqn:Ei; try done. injection Hbuild as <-.
    destruct arr as [| | | | | | |l xs| | |]; try done.
    apply andb_true_iff in Harr as [->%Bool.eqb_prop Hxs].
    destruct (builder_schema inner inner' Ei) as (_ & c & Hc & _).
    destruct (builder_oid inner inner' c Ei Hc Hl Hei Htz) as (element & Hoid & Hcat).
    apply (list_column_written large (mkField name dt nullable) inner' xs (mk inner') _ c element);
      [|done..|apply Hmk|apply Htry].
    intros val Hv. apply (IH inner Hin inner' val Ei); [|done].
    apply list_elem_of_fmap in Hv as (sl & -> & Hsl%list_elem_of_In).
    rewrite forallb_forall in Hxs. by apply Hxs. }
  destruct dt; try (eapply primitive_field_written; done);
    try (eapply time_field_written; done); try (eapply variable_field_written; done);
    cbn in Hb, Ht, He; try done; apply andb_true_iff in He as [He Htz].
  - eapply (Hlist false inner (λ inner' xs, Encoder.List xs name inner') EncoderBuilder.List);
      [done..|by destruct arr as [| | | | | | |[]| | |]|by left|done].
  - eapply (Hlist true inner (λ inner' xs, Encoder.LargeList xs name inner') EncoderBuilder.LargeList);
      [done..|by destruct arr as [| | | | | | |[]| | |]|by right|done].
Qed.

(** ** Batches *)

(** A batch of the columns of a schema, as [RecordBatch] guarantees it, whose
    columns are read back and can be counted by a signed 16-bit number. *)
Definition batch_ok (fields : list Field) (batch : RecordBatch) : bool :=
  (length (columns batch) =? length fields)%nat
  && forallb (λ fa, well_typed fa.1 fa.2 && encodable fa.1
                    && (arr_len fa.2 =? num_rows batch)%nat) (zip fields (columns batch))
  && (Z.of_nat (length fields) <? 32768).

(** A column of a batch: its encoder, its array and builder, and its type. *)
Abbreviation item := (Encoder * (Array * EncoderBuilder) * Column)%type.

Definition item_ok (rows : nat) (w : item) : Prop :=
  (∃ n, size_hint w.1.1 = Ok n) /\
  ∀ row buf, (row < rows)%nat →
    written (col_type w.2) buf (cell_value w.1.2.2 w.1.2.1 row) (encode w.1.1 row buf).

Lemma columns_written fields columns builders rows :
  mapM snd (build_encoders fields) = Ok builders → length columns = length fields →
  (∀ f a, (f, a) ∈ zip fields columns →
     well_typed f a = true /\ encodable f = true /\ arr_len a = rows) →
  ∃ ws : list item,
    mapM (λ cb, encoder_try_new cb.2 cb.1) (zip columns builders) = Ok (ws.*1.*1) /\
    zip columns builders = ws.*1.*2 /\ length ws = length columns /\
    mapM (λ bf, column ← schema bf.1; Ok (field_name bf.2, column)) (zip builders fields)
    = Ok (zip (field_name <$> fields) ws.*2) /\
    Forall (item_ok rows) ws.
Proof.
  revert columns builders. induction fields as [|f fields IH]; intros columns builders Hb Hlen Hok.
  { injection Hb as <-. destruct columns; [|done]. exists []. done. }
  destruct columns as [|a columns]; [done|]. injection Hlen as Hlen.
  unfold build_encoders in Hb. rewrite fmap_cons, mapM_cons in Hb. cbn [snd] in Hb.
  destruct (builder_try_new f) as [b|e| |] eqn:Eb; try done. cbn [mbind comp_bind] in Hb.
  fold (build_encoders fields) in Hb.
  destruct (mapM snd (build_encoders fields)) as [bs|e| |] eqn:Ebs; try done. injection Hb as <-.
  destruct (IH columns bs eq_refl Hlen) as (ws & Htry & Hzip & Hl & Hschema & Hall).
  { intros f' a' Hin. apply Hok. by right. }
  destruct (Hok f a) as (Ht & He & Hrows); [by left|].
  destruct (field_written f b a Eb Ht He) as (e & c & He' & Hc & Hhint & Hw).
  exists ((e, (a, b), c) :: ws). cbn [zip zip_with].
  change (zip_with pair columns bs) with (zip columns bs).
  change (zip_with pair bs fields) with (zip bs fields).
  rewrite !mapM_cons, Htry, Hschema. cbn [fst snd]. rewrite He', Hc, Hzip.
  split_and!; [done|done|cbn; by rewrite Hl|done|]. constructor; [|done].
  split; [by apply Hhint|]. intros row buf Hrow. apply Hw; [done|]. cbn. by rewrite Hrows.
Qed.

Lemma mapM_fmap_comp {A B C} (f : B → comp Error C) (g : A → B) l :
  mapM f (g <$> l) = mapM (λ a, f (g a)) l.
Proof. induction l as [|a l IH]; [done|]. by rewrite fmap_cons, !mapM_cons, IH. Qed.

Lemma buffer_size_ok (es : list Encoder) n_rows :
  Forall (λ e, ∃ n, size_hint e = Ok n) es → ∃ n, buffer_size es n_rows = Ok n.
Proof.
  intros Hes. unfold buffer_size.
  assert (Hsum : ∀ total, ∃ n, foldl (λ acc e, data_size ← acc; size ← size_hint e;
                                       Ok (add64 data_size size)) (Ok total) es = Ok n).
  { induction Hes as [|e es [n Hn] _ IH]; intros total; [by exists total|].
    cbn [foldl mbind comp_bind]. rewrite Hn. apply IH. }
  destruct (Hsum 0) as [n ->]. by eexists.
Qed.

(** The bytes of a row. *)
Definition tuple_bytes (cells : list (option bytes)) : bytes :=
  be 2 (Z.of_nat (length cells)) ++ mjoin (field_bytes <$> cells).

Definition row_reads (types : list PostgresType) (cells : list (option bytes))
    (vs : list (option PgValue)) : Prop :=
  Forall3 (λ t cell v, reads_as t cell v) types cells vs.

Lemma row_written rows (ws : list item) row buf :
  Forall (item_ok rows) ws → (row < rows)%nat →
  appends tuple_bytes (row_reads (col_type <$> ws.*2)) buf
    (mapM (λ cb, cell_value cb.2 cb.1 row) ws.*1.*2)
    (encode_row ws.*1.*1 (length ws) row buf).
Proof.
  intros Hws Hrow. unfold encode_row. rewrite !foldl_fmap, !mapM_fmap_comp.
  destruct (items_appended field_bytes (λ w : item, reads_as (col_type w.2))
              (λ w buf, encode w.1.1 row buf) (λ w, cell_value w.1.2.2 w.1.2.1 row)
              ws (put_i16 buf (Z.of_nat (length ws)))) as [Hlarge|Hdone].
  { intros w buf' Hin. rewrite Forall_forall in Hws. by apply Hws. }
  { by left. }
  right. destruct (mapM _ ws) as [vs|e| |]; try done.
  destruct Hdone as (cells & Hr & H3). exists cells. split.
  - etrans; [exact Hr|]. unfold tuple_bytes, put_i16.
    rewrite (Forall3_length_lm _ _ _ _ H3), <- app_assoc. done.
  - unfold row_reads. clear Hr Hws. induction H3; cbn; constructor; done.
Qed.

Lemma row_reads_back types cells vs rest :
  row_reads types cells vs →
  read_many read_field (length types) (mjoin (field_bytes <$> cells) ++ rest) = Some (cells, rest) /\
  mapM (λ tc, recv_cell tc.1 tc.2) (zip types cells) = Some vs.
Proof.
  intros H3. split.
  - rewrite (Forall3_length_lm _ _ _ _ H3). apply read_fields.
    induction H3 as [|? ? ? ? ? ? [? ?] _ ?]; by constructor.
  - induction H3 as [|t cell v types cells vs [_ Hr] _ IH]; [done|].
    cbn. rewrite Hr. cbn. by rewrite IH.
Qed.

Lemma read_tuples_back types cellss vss fuel :
  Z.of_nat (length types) < 32768 →
  Forall2 (row_reads types) cellss vss → (length cellss < fuel)%nat →
  read_tuples fuel types (mjoin (tuple_bytes <$> cellss) ++ be 2 (-1)) = Some vss.
Proof.
  intros Ht Hall. revert fuel. induction Hall as [|cells vs cellss vss Hrow _ IH]; intros fuel Hfuel.
  { destruct fuel; [lia|]. cbn [read_tuples].
    change (mjoin (tuple_bytes <$> [])) with (@nil Z). cbn [app].
    rewrite <- (app_nil_r (be 2 (-1))), read_i2 by lia. done. }
  destruct fuel as [|fuel]; [lia|]. cbn [read_tuples length] in *.
  change (mjoin (tuple_bytes <$> cells :: cellss))
    with (tuple_bytes cells ++ mjoin (tuple_bytes <$> cellss)).
  unfold tuple_bytes at 1. rewrite <- !app_assoc.
  rewrite <- (Forall3_length_lm _ _ _ _ Hrow), read_i2 by lia. cbn [mbind option_bind].
  rewrite (proj2 (Z.eqb_neq _ _)), Z.eqb_refl by lia.
  destruct (row_reads_back types cells vs (mjoin (tuple_bytes <$> cellss) ++ be 2 (-1)) Hrow)
    as [-> Hvs].
  cbn [mbind option_bind]. rewrite Hvs. cbn [mbind option_bind]. by rewrite IH by lia.
Qed.

Lemma Forall3_seq {A B C} (R : B → C → Prop) (l : list A) ys zs :
  Forall3 (λ _ y z, R y z) l ys zs → Forall2 R ys zs.
Proof. induction 1; by constructor. Qed.

(** The stream of a batch: read back as the values of its rows, unless a field
    is too large or a value has no representation. *)
Definition streams (types : list PostgresType) (spec : comp Error (list (list (option PgValue))))
    (r : comp Error (bytes * BatchEncoder)) (self : BatchEncoder) : Prop :=
  too_large r \/
  match spec with
  | Ok rows => ∃ buffer, r = Ok (buffer, self) /\ copy_in types buffer = Some rows
  | Err e => r = Err e
  | _ => False
  end.

Lemma stream_back types cellss vss :
  Z.of_nat (length types) < 32768 → Forall2 (row_reads types) cellss vss →
  copy_in types
    (put_i16 (put_i32 (put_i32 HEADER_MAGIC_BYTES 0) 0 ++ mjoin (tuple_bytes <$> cellss)) (-1))
  = Some vss.
Proof.
  intros Ht Hall. unfold put_i16, put_i32, copy_in. rewrite <- !app_assoc.
  rewrite (read_bytes_app 11 HEADER_MAGIC_BYTES) by done. cbn [mbind option_bind].
  rewrite read_u_be by (cbn; lia). cbn [mbind option_bind].
  rewrite read_u_be by (cbn; lia). cbn [mbind option_bind].
  change (read_bytes (Z.to_nat 0) ?bs) with (Some (@nil Z, bs)). cbn [mbind option_bind].
  rewrite bool_decide_eq_true_2 by done. cbn [andb].
  change (bool_decide _ && (0 =? 0)) with true. cbn iota.
  apply read_tuples_back; [done..|].
  rewrite length_app, length_be.
  assert (length cellss <= length (mjoin (tuple_bytes <$> cellss)))%nat; [|lia].
  clear. induction cellss as [|c cs IH]; [done|].
  change (mjoin (tuple_bytes <$> c :: cs)) with (tuple_bytes c ++ mjoin (tuple_bytes <$> cs)).
  unfold tuple_bytes at 1. rewrite !length_app, length_be. cbn [length]. lia.
Qed.

Lemma encode_batch_streams fields self batch :
  batch_encoder_try_new fields = Ok self → batch_ok fields batch = true →
  ∃ columns, postgres_schema self = Ok columns /\ columns.*1 = field_name <$> fields /\
    streams ((λ c, col_type c.2) <$> columns) (batch_values self batch) (encode_batch self batch) self.
Proof.
  unfold batch_encoder_try_new. destruct (mapM snd _) as [builders|e| |] eqn:Eb; try done.
  intros [= <-] [[Hlen%Nat.eqb_eq Hcols]%andb_true_iff Hcount%Z.ltb_lt]%andb_true_iff.
  destruct (columns_written fields (columns batch) builders (num_rows batch) Eb Hlen)
    as (ws & Htry & Hzip & Hl & Hschema & Hws).
  { intros f a Hin%list_elem_of_In. rewrite forallb_forall in Hcols.
    apply Hcols in Hin. cbn in Hin. apply andb_true_iff in Hin as [[??]%andb_true_iff ?%Nat.eqb_eq].
    done. }
  exists (zip (field_name <$> fields) ws.*2). cbn [be_fields encoder_builders].
  assert (Hlf : length (field_name <$> fields) = length ws.*2) by (rewrite !length_fmap; lia).
  split; [exact Hschema|]. split; [apply fst_zip; lia|].
  replace ((λ c, col_type c.2) <$> zip (field_name <$> fields) ws.*2) with (col_type <$> ws.*2).
  2:{ rewrite <- (snd_zip (field_name <$> fields) ws.*2) at 1 by lia. by rewrite <- list_fmap_compose. }
  unfold streams, encode_batch, batch_values. cbn [be_fields encoder_builders].
  rewrite Hlen, bool_decide_eq_true_2 by done. cbn [negb]. rewrite Htry, Hzip. cbn [mbind comp_bind].
  destruct (buffer_size_ok ws.*1.*1 (num_rows batch)) as [n ->].
  { rewrite !Forall_fmap. eapply Forall_impl; [apply Hws|]. by intros w [Hh _]. }
  cbn [mbind comp_bind]. unfold encode_rows. rewrite <- Hlen, <- Hl.
  set (header := put_i32 (put_i32 HEADER_MAGIC_BYTES 0) 0).
  destruct (items_appended tuple_bytes (λ _, row_reads (col_type <$> ws.*2))
              (encode_row ws.*1.*1 (length ws))
              (λ row, mapM (λ cb, cell_value cb.2 cb.1 row) ws.*1.*2)
              (seq 0 (num_rows batch)) header) as [(f & size & Hr & Hsize)|Hdone].
  { intros row buf [_ Hrow]%elem_of_seq. by eapply row_written. }
  { left. exists f, size. by rewrite Hr. }
  right. destruct (mapM _ (seq _ _)) as [vss|e| |]; try done; [|by rewrite Hdone].
  destruct Hdone as (cellss & -> & H3). cbn [mbind comp_bind]. eexists. split; [done|].
  apply stream_back; [rewrite !length_fmap; lia|]. by eapply Forall3_seq.
Qed.

(** ** What ampsync inserts *)

(** A row of ampsync: the transaction, the index in it and the row itself. *)
Definition with_metadata (tx_id : Z) (row : nat) (vs : list (option PgValue))
  : list (option PgValue) :=
  Some (VInt (to_i64 tx_id)) :: Some (VInt (Z.of_nat row)) :: vs.

Lemma valid_slot_value (mk : Z → comp Error PgValue) xs row v :
  xs !! row = Some v → slot_value mk (valid_slots xs) row = Some <$> mk v.
Proof. intros Hv. unfold slot_value, valid_slots. by rewrite list_lookup_fmap, Hv. Qed.

Lemma mapM_prefix (f : nat → comp Error (list (option PgValue))) tx_id ks :
  mapM (λ row, vs ← f row; Ok (with_metadata tx_id row vs)) ks
  = (rows ← mapM f ks; Ok (zip_with (with_metadata tx_id) ks rows)).
Proof.
  induction ks as [|k ks IH]; [done|]. rewrite !mapM_cons, IH.
  destruct (f k) as [vs|e| |]; try done. cbn [mbind comp_bind].
  by destruct (mapM f ks).
Qed.

Lemma mapM_ext_in {A B} (f g : A → comp Error B) l :
  (∀ x, x ∈ l → f x = g x) → mapM f l = mapM g l.
Proof.
  induction l as [|x l IH]; intros Hfg; [done|]. rewrite !mapM_cons, Hfg by left.
  by rewrite IH by (intros; apply Hfg; by right).
Qed.

Lemma metadata_columns batch tx_id b' :
  add_transaction_metadata batch tx_id = Ok b' →
  let n := num_rows (sb_batch batch) in
  sb_fields b' = mkField "_tx_id" DataType.Int64 false :: mkField "_row_index" DataType.Int32 false
                   :: sb_fields batch /\
  columns (sb_batch b') = PrimitiveArray Int64Type (valid_slots (replicate n (to_i64 tx_id)))
                   :: PrimitiveArray Int32Type (valid_slots (Z.of_nat <$> seq 0 n))
                   :: columns (sb_batch batch) /\
  num_rows (sb_batch b') = n /\ length (sb_fields batch) = length (columns (sb_batch batch)) /\
  ∀ f a, (f, a) ∈ zip (sb_fields b') (columns (sb_batch b')) → well_typed f a = true /\ arr_len a = n.
Proof.
  unfold add_transaction_metadata, record_batch_try_new. cbn [app].
  set (n := num_rows (sb_batch batch)). set (tx := PrimitiveArray Int64Type _).
  set (idx := PrimitiveArray Int32Type _).
  assert (Htx : arr_len tx = n) by (cbn; unfold valid_slots; by rewrite length_fmap, length_replicate).
  case_match eqn:Hcheck; [|done]. intros [= <-]. cbn zeta. cbn [sb_fields sb_batch columns num_rows].
  apply andb_true_iff in Hcheck as [[Hlen%bool_decide_eq_true Harr]%andb_true_iff Htyped].
  rewrite forallb_forall in Harr, Htyped. injection Hlen as Hlen.
  assert (Hidx : arr_len idx = n).
  { rewrite <- Htx. symmetry. apply Nat.eqb_eq. rewrite Nat.eqb_sym. apply Harr. right. by left. }
  assert (Hn : Z.to_nat (as_i32 (Z.of_nat n)) = n).
  { cbn in Hidx. unfold valid_slots, row_indices in Hidx.
    by rewrite !length_fmap, length_seq in Hidx. }
  split_and!; [done|..|done|done|].
  - do 2 f_equal. subst idx. unfold row_indices. by rewrite Hn.
  - intros f a Hin. split.
    + apply list_elem_of_In, Htyped, andb_true_iff in Hin as [? _]. done.
    + rewrite <- Htx. apply Nat.eqb_eq, Harr. apply elem_of_zip_r in Hin. by apply list_elem_of_In.
Qed.

Definition metadata_fields (fields : list Field) : list Field :=
  mkField "_tx_id" DataType.Int64 false :: mkField "_row_index" DataType.Int32 false :: fields.

Definition metadata_encoder (self : BatchEncoder) : BatchEncoder :=
  mkBatchEncoder (metadata_fields (be_fields self))
    (EncoderBuilder.Int64 (mkField "_tx_id" DataType.Int64 false)
       :: EncoderBuilder.Int32 (mkField "_row_index" DataType.Int32 false) :: encoder_builders self).

(** The types of the table: the metadata columns and those of the stream. *)
Definition table_types (columns : list (string * Column)) : list PostgresType :=
  PostgresType.Int8 :: PostgresType.Int4 :: ((λ c, col_type c.2) <$> columns).

Lemma metadata_encoder_new fields self :
  batch_encoder_try_new fields = Ok self →
  be_fields self = fields /\
  batch_encoder_try_new (metadata_fields fields) = Ok (metadata_encoder self).
Proof.
  unfold batch_encoder_try_new. destruct (mapM snd (build_encoders fields)) as [builders|e| |] eqn:Eb;
    try done.
  intros [= <-]. split; [done|]. unfold build_encoders, metadata_fields in *. rewrite !fmap_cons, !mapM_cons.
  by rewrite Eb.
Qed.

Lemma metadata_schema self :
  postgres_schema (metadata_encoder self)
  = (columns ← postgres_schema self;
     Ok (("_tx_id"%string, mkColumn PostgresType.Int8 false)
         :: ("_row_index"%string, mkColumn PostgresType.Int4 false) :: columns)).
Proof.
  unfold postgres_schema, metadata_encoder, metadata_fields. cbn [encoder_builders be_fields zip zip_with].
  rewrite !mapM_cons. cbn [fst snd schema mbind comp_bind].
  change (zip_with pair ?x ?y) with (zip x y). by destruct (mapM _ _).
Qed.

Lemma metadata_streams fields self batch :
  batch_encoder_try_new fields = Ok self → batch_ok (metadata_fields fields) batch = true →
  ∃ columns, postgres_schema self = Ok columns /\
    streams (table_types columns) (batch_values (metadata_encoder self) batch)
      (encode_batch (metadata_encoder self) batch) (metadata_encoder self).
Proof.
  intros [_ Hself]%metadata_encoder_new Hok.
  destruct (encode_batch_streams _ _ _ Hself Hok) as (cols & Hs & _ & Hstr).
  rewrite metadata_schema in Hs. destruct (postgres_schema self) as [columns|e| |]; try done.
  injection Hs as <-. by exists columns.
Qed.

Lemma metadata_row self batch tx_id b' row :
  add_transaction_metadata batch tx_id = Ok b' → (row < num_rows (sb_batch batch))%nat →
  mapM (λ cb, cell_value cb.2 cb.1 row)
    (zip (columns (sb_batch b')) (encoder_builders (metadata_encoder self)))
  = (vs ← mapM (λ cb, cell_value cb.2 cb.1 row) (zip (columns (sb_batch batch)) (encoder_builders self));
     Ok (with_metadata tx_id row vs)).
Proof.
  intros (_ & Hcols & _ & _)%metadata_columns Hrow. rewrite Hcols. unfold metadata_encoder.
  cbn [encoder_builders zip zip_with]. rewrite !mapM_cons. cbn [fst snd cell_value].
  rewrite (valid_slot_value _ (replicate (num_rows (sb_batch batch)) (to_i64 tx_id)) row (to_i64 tx_id))
    by (apply lookup_replicate; split; [done|lia]).
  rewrite (valid_slot_value _ (Z.of_nat <$> seq 0 (num_rows (sb_batch batch))) row (Z.of_nat row))
    by (rewrite list_lookup_fmap, lookup_seq_lt by lia; done).
  cbn [primitive_value fmap comp_fmap mbind comp_bind]. by destruct (mapM _ _).
Qed.

Lemma metadata_values self batch tx_id b' :
  add_transaction_metadata batch tx_id = Ok b' →
  batch_values (metadata_encoder self) (sb_batch b')
  = (rows ← batch_values self (sb_batch batch);
     Ok (zip_with (with_metadata tx_id) (seq 0 (num_rows (sb_batch batch))) rows)).
Proof.
  intros Hmeta. pose proof (metadata_columns _ _ _ Hmeta) as (_ & _ & Hrows & _).
  unfold batch_values. rewrite Hrows, <- mapM_prefix. apply mapM_ext_in.
  intros row [_ Hrow]%elem_of_seq. by apply metadata_row.
Qed.

(** The batch with its metadata columns can be encoded. *)
Lemma metadata_batch_ok batch tx_id b' :
  add_transaction_metadata batch tx_id = Ok b' → forallb encodable (sb_fields batch) = true →
  Z.of_nat (length (sb_fields batch)) < 32766 →
  batch_ok (metadata_fields (sb_fields batch)) (sb_batch b') = true.
Proof.
  intros (Hf & Hc & Hn & Hlen & Hok)%metadata_columns Henc Hcount.
  unfold batch_ok. rewrite Hn, andb_true_iff, andb_true_iff. split_and!.
  - rewrite Hc. apply Nat.eqb_eq. cbn. lia.
  - apply forallb_forall. intros [f a] Hin%list_elem_of_In. cbn [fst snd].
    rewrite Hf in Hok. destruct (Hok f a Hin) as [-> ->]. rewrite Nat.eqb_refl, andb_true_r. cbn [andb].
    apply elem_of_zip_l in Hin. rewrite forallb_forall in Henc.
    apply list_elem_of_In in Hin as [<-|[<-|Hin]]; [done..|by apply Henc].
  - apply Z.ltb_lt. unfold metadata_fields. cbn [length]. lia.
Qed.

Lemma with_metadata_NoDup tx_id ks rows :
  NoDup ks → NoDup (take 2 <$> zip_with (with_metadata tx_id) ks rows).
Proof.
  intros Hks. revert rows. induction Hks as [|k ks Hk _ IH]; intros rows; [constructor|].
  destruct rows as [|vs rows]; [constructor|]. cbn. constructor; [|apply IH].
  intros (r & Hr & Hin)%list_elem_of_fmap. apply elem_of_lookup_zip_with in Hin as (i & k' & vs' & -> & Hk' & _).
  cbn in Hr. injection Hr as Hkk%Nat2Z.inj. subst k'. by apply list_elem_of_lookup_2 in Hk'.
Qed.

(** ** Size hints of numbers *)

Ltac decide_thresholds v :=
  repeat match goal with
  | |- context [v <? ?c] =>
      first [rewrite (proj2 (Z.ltb_ge v c)) by lia|rewrite (proj2 (Z.ltb_lt v c)) by lia]
  end.

Lemma count_loop_large v :
  1000000000000000000000000000000000000 <= v < decimal_bound →
  count_loop 3 10 (v `quot` 1000000000000000000000000000000000000) = Ok 11.
Proof.
  intros [Hlo Hhi]. set (q := v `quot` _).
  assert (Hq : 0 < q < 10000).
  { subst q. rewrite Z.quot_div_nonneg by lia. split; [apply Z.div_str_pos; lia|].
    apply Z.div_lt_upper_bound; [lia|]. unfold decimal_bound in Hhi. lia. }
  cbn [count_loop]. unfold NUMERIC_BASE.
  rewrite (proj2 (Z.ltb_lt 0 q)), (Z.quot_small q) by lia. done.
Qed.

(** The thresholds against the number of digits; above 10^36 one digit too many. *)
Lemma digits_count n v :
  0 < v → 10000 ^ (n - 1) <= v < 10000 ^ n → 0 <= n <= 10 →
  (n <= 5 → count_base10000_digits v = n) /\
  (v < decimal_bound →
   count_base10000_digits_i128 v
   = Ok (n + Z.b2z (1000000000000000000000000000000000000 <=? v))).
Proof.
  intros Hpos [Hlo Hhi] Hn.
  assert (Hk : ∃ k, (k < 11)%nat /\ n = Z.of_nat k) by (exists (Z.to_nat n); lia).
  destruct Hk as (k & Hk & ->).
  unfold count_base10000_digits, count_base10000_digits_i128. rewrite (Z.abs_eq v) by lia.
  rewrite (proj2 (Z.eqb_neq v 0)) by lia. split; intros Hv.
  - do 6 (destruct k as [|k]; [cbn in Hlo, Hhi; try lia; decide_thresholds v; done|]). lia.
  - destruct (Z.leb_spec 1000000000000000000000000000000000000 v) as [Hbig|Hsmall].
    + rewrite count_loop_large by lia.
      do 11 (destruct k as [|k]; [cbn in Hlo, Hhi; try lia; decide_thresholds v; done|]). lia.
    + do 11 (destruct k as [|k]; [cbn in Hlo, Hhi; try lia; decide_thresholds v; done|]). lia.
Qed.

Definition encode_slot {V} (f : V → bytes → comp Error bytes) (s : bool * V) (buf : bytes)
  : comp Error bytes := if s.1 then f s.2 buf else Ok (put_i32 buf (-1)).

Lemma encode_rows_slots {V} (f : V → bytes → comp Error bytes) xs buf :
  encode_rows (impl_encode_slot f xs) (length xs) buf
  = foldl (λ acc s, buf ← acc; encode_slot f s buf) (Ok buf) xs.
Proof.
  unfold encode_rows.
  assert (Hgen : ∀ ys pre m, xs = pre ++ ys →
    foldl (λ acc k, buf ← acc; impl_encode_slot f xs k buf) m (seq (length pre) (length ys))
    = foldl (λ acc s, buf ← acc; encode_slot f s buf) m ys).
  { induction ys as [|[valid v] ys IH]; intros pre m Hxs; [done|]. cbn [length seq foldl].
    assert (Hstep : (λ buf, impl_encode_slot f xs (length pre) buf) = encode_slot f (valid, v)).
    { unfold impl_encode_slot, encode_slot. rewrite Hxs, list_lookup_middle by done. by destruct valid. }
    rewrite Hstep. specialize (IH (pre ++ [(valid, v)])).
    rewrite length_app, Nat.add_1_r in IH. apply IH. by rewrite <- app_assoc. }
  apply (Hgen xs []). done.
Qed.

(** A hint that exceeds what each row writes by [extra]. *)
Lemma hint_total {V} f (row_size : bool * V → comp Error Z) (extra : bool * V → bool) xs buf :
  (∀ s buf, s ∈ xs → ∃ buf' k, encode_slot f s buf = Ok buf' /\ row_size s = Ok k /\ 0 <= k <= 40 /\
     Z.of_nat (length buf') + 2 * Z.b2z (extra s) = Z.of_nat (length buf) + k) →
  Z.of_nat (length xs) < 2 ^ 58 →
  ∃ n buf', sum_rows row_size xs = Ok n /\
    foldl (λ acc s, buf ← acc; encode_slot f s buf) (Ok buf) xs = Ok buf' /\
    n = Z.of_nat (length buf') - Z.of_nat (length buf)
        + 2 * Z.of_nat (length (filter (λ s, extra s = true) xs)).
Proof.
  intros Hrow Hlen. unfold sum_rows.
  assert (Hgen : ∀ total buf, 0 <= total → total + 40 * Z.of_nat (length xs) <= u64_max →
    ∃ n buf', foldl (λ acc s, total ← acc; size ← row_size s; Ok (add64 total size)) (Ok total) xs = Ok n /\
      foldl (λ acc s, buf ← acc; encode_slot f s buf) (Ok buf) xs = Ok buf' /\
      n - total = Z.of_nat (length buf') - Z.of_nat (length buf)
        + 2 * Z.of_nat (length (filter (λ s, extra s = true) xs))).
  2:{ destruct (Hgen 0 buf) as (n & buf' & Hn & Hb & Heq); [lia|unfold u64_max; lia|].
      exists n, buf'. split_and!; [done..|lia]. }
  clear buf Hlen. induction xs as [|s xs IH]; intros total buf H0 Hmax.
  { exists total, buf. cbn. split_and!; [done..|lia]. }
  destruct (Hrow s buf) as (buf1 & k & Hb1 & Hk & Hk40 & Heq1); [by left|].
  cbn [length] in Hmax. cbn [foldl mbind comp_bind]. rewrite Hk, Hb1. cbn [mbind comp_bind].
  rewrite add64_small by (unfold is_u64; lia).
  destruct (IH ltac:(intros; apply Hrow; by right) (total + k) buf1) as (n & buf' & Hn & Hb & Heq); [lia..|].
  exists n, buf'. split_and!; [done..|]. rewrite filter_cons. destruct (extra s) eqn:Hx.
  - rewrite decide_True by done. cbn [length Z.b2z] in *. lia.
  - rewrite decide_False by done. cbn [Z.b2z] in *. lia.
Qed.

Lemma length_put_numeric buf ds sign dscale :
  length (put_numeric buf ds sign dscale) = (length buf + 12 + 2 * length ds)%nat.
Proof.
  unfold put_numeric, put_i16, put_i32. rewrite foldl_put_i16.
  rewrite !length_app, !length_be, length_digits, length_reverse. lia.
Qed.

Lemma length_put_zero buf dscale : length (put_zero buf dscale) = (length buf + 12)%nat.
Proof. unfold put_zero, put_i16, put_i32. rewrite !length_app, !length_be. lia. Qed.

Lemma length_encode_u64 v buf :
  0 <= v <= u64_max →
  ∃ buf', encode_u64 v buf = Ok buf' /\ 0 <= count_base10000_digits v <= 5 /\
    Z.of_nat (length buf') = Z.of_nat (length buf) + 12 + count_base10000_digits v * 2.
Proof.
  intros Hv. unfold encode_u64. destruct (Z.eqb_spec v 0) as [->|Hnz].
  { eexists. split; [done|]. rewrite length_put_zero. cbn. lia. }
  destruct (base10000_loop_spec MAX_U64_BASE10000_DIGITS v [])
    as (ds & -> & _ & _ & Hlen & Hhi & Hlo).
  { assert (u64_max < 10000 ^ Z.of_nat MAX_U64_BASE10000_DIGITS) by (by vm_compute). lia. }
  rewrite (proj2 (Z.eqb_neq v 0)) in Hlo by lia. cbn iota in Hlo. unfold MAX_U64_BASE10000_DIGITS in Hlen.
  destruct (digits_count (Z.of_nat (length ds)) v) as [Hc _]; [lia..|]. rewrite Hc by lia.
  eexists. split; [done|]. rewrite length_put_numeric. cbn [app]. lia.
Qed.

Lemma length_encode_decimal scale v buf :
  - decimal_bound < v < decimal_bound →
  ∃ buf' k, encode_decimal scale v buf = Ok buf' /\ count_base10000_digits_i128 v = Ok k /\ 0 <= k <= 11 /\
    Z.of_nat (length buf') + 2 * Z.b2z (1000000000000000000000000000000000000 <=? Z.abs v)
    = Z.of_nat (length buf) + 12 + k * 2.
Proof.
  intros Hv. unfold encode_decimal. destruct (Z.eqb_spec v 0) as [->|Hnz].
  { exists (put_zero buf scale), 0. split_and!; [done|done|lia|lia|].
    rewrite length_put_zero. change (_ <=? Z.abs 0) with false. cbn [Z.b2z]. lia. }
  assert (Habs : ∃ sign, (if v <? 0 then (abs_i128 v, NUMERIC_NEG) else (v, NUMERIC_POS))
                 = (Z.abs v, sign)).
  { unfold abs_i128, i128_min, decimal_bound in *. destruct (Z.ltb_spec v 0); eexists.
    - by rewrite (proj2 (Z.eqb_neq _ _)) by lia.
    - by rewrite Z.abs_eq by lia. }
  destruct Habs as [sign ->].
  destruct (base10000_loop_spec MAX_I128_BASE10000_DIGITS (Z.abs v) [])
    as (ds & -> & _ & _ & Hlen & Hhi & Hlo).
  { assert (decimal_bound < 10000 ^ Z.of_nat MAX_I128_BASE10000_DIGITS) by (by vm_compute). lia. }
  rewrite (proj2 (Z.eqb_neq (Z.abs v) 0)) in Hlo by lia. cbn iota in Hlo. unfold MAX_I128_BASE10000_DIGITS in Hlen.
  destruct (digits_count (Z.of_nat (length ds)) (Z.abs v)) as [_ Hc]; [lia..|].
  assert (Hcv : count_base10000_digits_i128 v = count_base10000_digits_i128 (Z.abs v))
    by (unfold count_base10000_digits_i128; by rewrite Z.abs_involutive).
  rewrite Hcv, Hc by lia. do 2 eexists. split; [done|]. split; [done|].
  rewrite length_put_numeric. cbn [app]. destruct (_ <=? Z.abs v); cbn [Z.b2z]; lia.
Qed.

(** ** Columns that are not read back *)

(** A decimal with a scale is read as its unscaled integer: multiplied by the
    power of ten it should be divided by. *)
Lemma decimal_scale_not_read_back scale value buf :
  0 < scale <= 127 → - decimal_bound < value < decimal_bound → value ≠ 0 →
  ∃ v n, encode_decimal scale value buf = Ok (buf ++ field_bytes (Some v)) /\
    recv (PostgresType.Numeric (Some 38) (Some scale)) v = Some (VNumeric n scale) /\
    n = value * 10 ^ scale /\ n ≠ value.
Proof.
  intros Hs Hv Hnz. destruct (encode_decimal_read scale value buf) as (v & He & _ & Hr); [lia|done|].
  exists v, (value * 10 ^ scale). split_and!; [done|done|done|].
  assert (1 < 10 ^ scale) by (apply Z.pow_gt_1; lia). nia.
Qed.

(** A list of a fixed size gets the builder of large lists, whose encoder
    refuses its arrays. *)
Lemma fixed_size_list_refused f inner len b n xs :
  field_type f = DataType.FixedSizeList inner len → builder_try_new f = Ok b →
  encoder_try_new b (FixedSizeListArray n xs) = Err (ColumnTypeMismatch (field_name f)).
Proof.
  destruct f as [name dt nullable]. cbn. intros -> Hb.
  destruct (is_list_type (field_type inner)); [done|].
  destruct (builder_try_new inner); cbn in Hb; by simplify_eq.
Qed.

(** The elements of an array carry an identifier that is not that of a
    [timestamptz] or [json] column. *)
Lemma array_identifiers :
  oid (PostgresType.Timestamp (Some "UTC"%string)) ≠ catalog_oid (PostgresType.Timestamp (Some "UTC"%string)) /\
  oid PostgresType.Json ≠ catalog_oid PostgresType.Json.
Proof. done. Qed.

(** A list of lists, which [ListEncoderBuilder::new] accepts and [try_new] does
    not, has no identifier for its elements: the encoder panics. *)
Lemma nested_list_panics encode_inner field f inner val buf e :
  encoder_try_new (EncoderBuilder.List f inner) val = Ok e →
  (∃ c, schema inner = Ok c) →
  encode_list encode_inner field (EncoderBuilder.List f inner) val buf = Panic.
Proof.
  intros He [c Hc]. unfold encode_list. rewrite He. cbn [mbind comp_bind schema]. by rewrite Hc.
Qed.

(** The collection of the encoders stops at the first missing one, so that the
    encoders of later fields are reported as unknown. *)
Lemma missing_encoder_reported_as_unknown f g b :
  field_name f ≠ field_name g →
  try_new_with_encoders [f; g] {[field_name g := b]} = Err (UnknownFields [field_name g]).
Proof.
  intros Hne. unfold try_new_with_encoders. cbn [take_encoders].
  rewrite lookup_singleton_ne by done. cbn iota.
  rewrite bool_decide_eq_false_2 by apply map_non_empty_singleton. cbn [negb].
  by rewrite map_to_list_singleton.
Qed.

(** ** Theorems *)


(** What ampsync sends for a batch of a transaction is read back as the rows
    of the batch, each preceded by the transaction (as a signed number) and its
    index: no two rows have the same key. *)
Theorem ampsync_rows_read_back batch tx_id b' self :
  add_transaction_metadata batch tx_id = Ok b' →
  batch_encoder_try_new (sb_fields batch) = Ok self →
  forallb encodable (sb_fields batch) = true →
  Z.of_nat (length (sb_fields batch)) < 32766 →
  ∃ columns, postgres_schema self = Ok columns /\
    ((∃ f size, to_postgres_copy b' = Err (EncodeBatch (FieldTooLarge f size)) /\ i32_max < size) \/
     match batch_values self (sb_batch batch) with
     | Ok rows => ∃ buffer rows', to_postgres_copy b' = Ok buffer /\
         rows' = zip_with (with_metadata tx_id) (seq 0 (num_rows (sb_batch batch))) rows /\
         copy_in (PostgresType.Int8 :: PostgresType.Int4 :: ((λ c, col_type c.2) <$> columns)) buffer
         = Some rows' /\ NoDup (take 2 <$> rows')
     | Err e => to_postgres_copy b' = Err (EncodeBatch e)
     | _ => False
     end).
Proof.
  intros Hmeta Hself Henc Hcount.
  pose proof (metadata_columns _ _ _ Hmeta) as (Hf & _).
  destruct (metadata_encoder_new _ _ Hself) as [_ Hself'].
  destruct (metadata_streams _ _ _ Hself (metadata_batch_ok _ _ _ Hmeta Henc Hcount))
    as (columns & Hcols & Hstr).
  exists columns. split; [done|]. unfold to_postgres_copy. rewrite Hf.
  fold (metadata_fields (sb_fields batch)). rewrite Hself'.
  destruct Hstr as [(f & size & -> & Hsize)|Hstr]; [left; by exists f, size|right].
  rewrite (metadata_values self _ _ _ Hmeta) in Hstr.
  destruct (batch_values self (sb_batch batch)) as [rows|e| |]; cbn [mbind comp_bind] in Hstr; try done.
  - destruct Hstr as (buffer & -> & Hcopy). exists buffer. eexists. split_and!; [done|done|exact Hcopy|].
    apply with_metadata_NoDup, NoDup_seq.
  - by rewrite Hstr.
Qed.

(** The conversions of dates and times: microseconds and days since
    2000-01-01 (also before it), an error exactly when the result does not fit
    its type; sub-microseconds are cut off toward 2000-01-01; times of the day
    never overflow. *)
Lemma conversions_exact v :
  convert_arrow_timestamp_microseconds_to_pg_timestamp v
  = ok_or (checked_i64 (v - epoch_seconds * 1000000)) Encode /\
  convert_arrow_timestamp_milliseconds_to_pg_timestamp v
  = ok_or (checked_i64 (v * 1000 - epoch_seconds * 1000000)) Encode /\
  convert_arrow_timestamp_seconds_to_pg_timestamp v
  = ok_or (checked_i64 ((v - epoch_seconds) * 1000000)) Encode /\
  (i64_min <= v <= i64_max →
   convert_arrow_timestamp_nanoseconds_to_pg_timestamp v
   = let ns := v - epoch_seconds * 1000000000 in
     if i64_min <=? ns then Ok (ns `quot` 1000) else Err Encode) /\
  convert_arrow_date32_to_postgres_date v = ok_or (checked_i32 (v - epoch_days)) Encode /\
  (-2147483648 <= v <= i32_max →
   convert_arrow_time_seconds_to_postgres_time v = Ok (v * 1000000) /\
   convert_arrow_time_milliseconds_to_postgres_time v = Ok (v * 1000)) /\
  duration_milliseconds v = ok_or (checked_i64 (v * 1000)) Encode /\
  duration_seconds v = ok_or (checked_i64 (v * 1000000)) Encode.
Proof.
  split_and!; try done; [apply convert_ms_eq|apply convert_s_eq|apply convert_ns_eq|].
  intros Hv. unfold convert_arrow_time_seconds_to_postgres_time, convert_arrow_time_milliseconds_to_postgres_time.
  by rewrite !checked_i64_small by (unfold i64_min, i64_max, i32_max in *; lia).
Qed.

(** The capacity reserved for columns of numbers: for unsigned 64-bit
    numbers the size hint is exactly what the rows take; for decimals it counts
    one digit too many for each value of 10^36 or more, and is exact otherwise.
    The threshold chains agree with the division loops of the encoders. *)
Theorem numeric_size_hints xs buf :
  Z.of_nat (length xs) < 2 ^ 58 →
  (within 0 u64_max xs = true →
   ∃ n buf', size_hint (Encoder.UInt64 xs) = Ok n /\
     encode_rows (encode (Encoder.UInt64 xs)) (length xs) buf = Ok buf' /\
     n = Z.of_nat (length buf') - Z.of_nat (length buf)) /\
  (∀ scale field, within (- decimal_bound + 1) (decimal_bound - 1) xs = true →
   ∃ n buf', size_hint (Encoder.Decimal128 scale xs field) = Ok n /\
     encode_rows (encode (Encoder.Decimal128 scale xs field)) (length xs) buf = Ok buf' /\
     n = Z.of_nat (length buf') - Z.of_nat (length buf)
         + 2 * Z.of_nat (length (filter (λ s, (s.1 && (10 ^ 36 <=? Z.abs s.2)) = true) xs))).
Proof.
  intros Hlen. split; [intros Hxs|intros scale field Hxs].
  - destruct (hint_total encode_u64 u64_row_size (λ _, false) xs buf) as (n & buf' & Hn & Hb & Heq);
      [|done|].
    { intros [[] v] b Hs; unfold encode_slot, u64_row_size, NUMERIC_HEADER_SIZE; cbn [fst snd].
      - apply (within_elem _ _ _ _ Hxs) in Hs. cbn [snd] in Hs.
        destruct (length_encode_u64 v b Hs) as (b' & -> & Hk & Hl).
        eexists _, _. split_and!; [done|done|lia|lia|cbn; lia].
      - eexists _, _. split_and!; [done|done|lia|lia|]. unfold put_i32. rewrite length_app, length_be. cbn. lia. }
    exists n, buf'. split_and!; [exact Hn|by rewrite <- encode_rows_slots in Hb|].
    assert (Hnone : filter (λ s : bool * Z, false = true) xs = []) by (clear; by induction xs).
    rewrite Heq, Hnone. cbn. lia.
  - destruct (hint_total (encode_decimal scale) decimal_row_size (λ s, s.1 && (10 ^ 36 <=? Z.abs s.2)) xs buf)
      as (n & buf' & Hn & Hb & Heq); [|done|].
    { intros [[] v] b Hs; unfold encode_slot, decimal_row_size, NUMERIC_HEADER_SIZE; cbn [fst snd].
      - apply (within_elem _ _ _ _ Hxs) in Hs. cbn [snd] in Hs.
        destruct (length_encode_decimal scale v b) as (b' & k & -> & -> & Hk & Hl); [lia|].
        eexists _, _. cbn [andb]. change (10 ^ 36) with 1000000000000000000000000000000000000.
        split_and!; [done|done|lia|lia|lia].
      - eexists _, _. split_and!; [done|done|lia|lia|]. unfold put_i32. rewrite length_app, length_be. cbn. lia. }
    exists n, buf'. split_and!; [exact Hn|by rewrite <- encode_rows_slots in Hb|exact Heq].
Qed.
End Correct.

(** ** Witnesses *)

#[local] Instance demo_codecs : ValueCodecs.
Proof.
  refine (Build_ValueCodecs (λ bits, (bits * 65536) `mod` 4294967296) _ (λ v, negb (bool_decide (v = []))));
    intros; apply Z.mod_pos_bound; lia.
Defined.

Definition demo_fields : list Field :=
  [mkField "id" DataType.Int32 false;
   mkField "tags" (DataType.List (mkField "item" DataType.Utf8 true)) true;
   mkField "supply" DataType.UInt64 true;
   mkField "balance" (DataType.Decimal128 38 0) true;
   mkField "at" (DataType.Timestamp Nanosecond (Some "UTC"%string)) false].

Definition demo_batch : RecordBatch :=
  mkBatch
    [PrimitiveArray Int32Type [(true, -5); (true, 7)];
     GenericListArray false
       [(true, GenericStringArray false [(true, [65; 66]); (false, [])]);
        (false, GenericStringArray false [])];
     PrimitiveArray UInt64Type [(true, u64_max); (false, 0)];
     Decimal128Array 0 [(true, -123456789012345678901234567890); (true, 0)];
     PrimitiveArray TimestampNanosecondType [(true, 0); (true, 1700000000123456789)]] 2.

Definition demo_builders : list EncoderBuilder :=
  match batch_encoder_try_new demo_fields with Ok e => encoder_builders e | _ => [] end.
Definition demo_encoder : BatchEncoder := mkBatchEncoder demo_fields demo_builders.

Definition demo_source : SchemaBatch := mkSchemaBatch demo_fields demo_batch.
Definition demo_with_metadata : SchemaBatch :=
  match add_transaction_metadata demo_source 42 with Ok b => b | _ => demo_source end.


Lemma ampsync_rows_read_back_witness :
  num_rows (sb_batch demo_with_metadata) = 2%nat /\
  ∃ columns, postgres_schema demo_encoder = Ok columns /\
    ((∃ f size, to_postgres_copy demo_with_metadata = Err (EncodeBatch (FieldTooLarge f size)) /\ i32_max < size) \/
     match batch_values demo_encoder (sb_batch demo_source) with
     | Ok rows => ∃ buffer rows', to_postgres_copy demo_with_metadata = Ok buffer /\
         rows' = zip_with (with_metadata 42) (seq 0 (num_rows (sb_batch demo_source))) rows /\
         copy_in (PostgresType.Int8 :: PostgresType.Int4 :: ((λ c, col_type c.2) <$> columns)) buffer
         = Some rows' /\ NoDup (take 2 <$> rows')
     | Err e => to_postgres_copy demo_with_metadata = Err (EncodeBatch e)
     | _ => False
     end).
Proof.
  split; [by vm_compute|].
  apply (ampsync_rows_read_back demo_source 42 demo_with_metadata demo_encoder); by vm_compute.
Defined.

Definition demo_numbers : slots Z := [(true, 0); (true, 9999); (true, 10000); (false, 3); (true, u64_max)].

Lemma numeric_size_hints_witness :
  Z.of_nat (length demo_numbers) < 2 ^ 58 /\ within 0 u64_max demo_numbers = true /\
  ∃ n buf', size_hint (Encoder.UInt64 demo_numbers) = Ok n /\
    encode_rows (encode (Encoder.UInt64 demo_numbers)) (length demo_numbers) [] = Ok buf' /\
    n = Z.of_nat (length buf') - Z.of_nat (length (A:=Z) []).
Proof.
  split; [by vm_compute|]. split; [by vm_compute|].
  apply (numeric_size_hints demo_numbers []); by vm_compute.
Defined.
