(* ===== verification/Ampsync.v ===== *)
(** * Ampsync

    The synchronisation of a table to PostgreSQL (bin/ampsync/src): the engine
    that creates the table, inserts batches in chunks through a temporary table
    and deletes ranges of transactions (engine.rs, sql.rs), the handling of the
    events of the transactional stream (task.rs) and the restarts of a task
    (manager.rs). A database operation is retried over the answers of the
    database, an argument; a commit can take effect and be answered with an
    error. Quoting ([pg_escape]), the parser and the floating-point scaling of
    the batch size are parameters. *)

From stdpp Require Import base numbers strings option list gmap fin_maps.
From Stdlib Require Import ZArith Lia.
From S2P Require Import Prelude Ranges BlockRange Client Transactional PgTypes PgCopy PgFormat.

(** ** SQL *)

Section Sql.
#[local] Open Scope string_scope.
Context (quote_identifier : string → string).

Definition create_table (table_name columns primary_key : string) : string :=
  "CREATE TABLE IF NOT EXISTS " +:+ quote_identifier table_name +:+ " (" +:+ columns
    +:+ ", PRIMARY KEY (" +:+ primary_key +:+ "))".

Definition copy_from_stdin (table_name : string) : string :=
  "COPY " +:+ quote_identifier table_name +:+ " FROM STDIN WITH (FORMAT BINARY)".

Definition create_temp_table_like (temp_name source_table : string) : string :=
  "CREATE TEMP TABLE " +:+ quote_identifier temp_name +:+ " (LIKE "
    +:+ quote_identifier source_table +:+ " INCLUDING ALL)".

Definition insert_from_select (target_table source_table conflict_columns : string) : string :=
  "INSERT INTO " +:+ quote_identifier target_table +:+ " SELECT * FROM "
    +:+ quote_identifier source_table +:+ " ON CONFLICT (" +:+ conflict_columns +:+ ") DO NOTHING".

Definition delete_between (table_name column : string) : string :=
  "DELETE FROM " +:+ quote_identifier table_name +:+ " WHERE " +:+ column +:+ " BETWEEN $1 AND $2".

Definition column_definition (column_name pg_type : string) (nullable : bool) : string :=
  quote_identifier column_name +:+ " " +:+ pg_type +:+ (if nullable then "" else " NOT NULL").

(** The statement of [Engine::create_table]. *)
Definition create_table_ddl (table_name : string) (stream_fields : list Field) : comp Error string :=
  let fields :=
    mkField "_tx_id" DataType.Int64 false :: mkField "_row_index" DataType.Int32 false
      :: stream_fields in
  encoder ← batch_encoder_try_new fields;
  pg_schema ← postgres_schema encoder;
  let columns := (λ c, column_definition c.1 (to_ddl_string (col_type c.2)) (col_nullable c.2)) <$> pg_schema in
  Ok (create_table table_name (String.concat ", " columns) "_tx_id, _row_index").
End Sql.

(** [validate_identifier], on the bytes of a name; [parse] counts the statements
    of [SELECT * FROM name]. *)
Inductive ValidateIdentifierError :=
  | IdentEmpty
  | IdentTooLong (length : Z)
  | IdentInvalidCharacter (character : Z)
  | IdentInvalidFirstCharacter (first_char : Z)
  | IdentParserError
  | IdentMultipleStatements.

Definition ascii_letter (c : Z) : bool :=
  ((97 <=? c) && (c <=? 122)) || ((65 <=? c) && (c <=? 90)).
Definition ident_char (c : Z) : bool :=
  ascii_letter c || ((48 <=? c) && (c <=? 57)) || (c =? 95) || (c =? 36).

Definition validate_identifier (utf8_len : list Z → Z) (parse : list Z → option nat) (name : list Z)
  : comp ValidateIdentifierError unit :=
  match name with
  | [] => Err IdentEmpty
  | first_char :: _ =>
      if 63 <? utf8_len name then Err (IdentTooLong (utf8_len name))
      else match List.find (λ c, negb (ident_char c)) name with
      | Some c => Err (IdentInvalidCharacter c)
      | None =>
          if negb (ascii_letter first_char || (first_char =? 95))
          then Err (IdentInvalidFirstCharacter first_char)
          else match parse name with
          | None => Err IdentParserError
          | Some n => if (n =? 1)%nat then Ok tt else Err IdentMultipleStatements
          end
      end
  end.

(** ** The adaptive batch size *)

Record AdaptiveBatchManager := mkBatchManager {
  current_batch_size : Z;
  min_batch_size : Z;
  max_batch_size : Z;
  target_duration_ms : Z;
  recent_samples : list (Z * Z);
  max_samples : nat;
  error_count : Z;
  target_memory_bytes : Z
}.

Definition default_batch_manager : AdaptiveBatchManager :=
  mkBatchManager 1000 100 50000 1000 [] 10 0 (50 * 1024 * 1024).

Definition set_size (n : Z) (m : AdaptiveBatchManager) : AdaptiveBatchManager :=
  mkBatchManager n (min_batch_size m) (max_batch_size m) (target_duration_ms m)
    (recent_samples m) (max_samples m) (error_count m) (target_memory_bytes m).
Definition set_samples (l : list (Z * Z)) (m : AdaptiveBatchManager) : AdaptiveBatchManager :=
  mkBatchManager (current_batch_size m) (min_batch_size m) (max_batch_size m) (target_duration_ms m)
    l (max_samples m) (error_count m) (target_memory_bytes m).
Definition set_errors (n : Z) (m : AdaptiveBatchManager) : AdaptiveBatchManager :=
  mkBatchManager (current_batch_size m) (min_batch_size m) (max_batch_size m) (target_duration_ms m)
    (recent_samples m) (max_samples m) n (target_memory_bytes m).

(** The factors the size is multiplied by. *)
Inductive Factor := Factor_0_7 | Factor_0_9 | Factor_1_05 | Factor_1_2.

Section BatchManager.
(** [((current as f64) * factor) as usize] *)
Context (scale : Factor → Z → Z).

Definition adjust_batch_size_with_samples (m : AdaptiveBatchManager) : AdaptiveBatchManager :=
  let samples := recent_samples m in
  if (length samples <? 3)%nat then m
  else
    let total := foldl add64 0 samples.*1 in
    let avg_duration := total / Z.of_nat (length samples) in
    let adjustment_factor :=
      if target_duration_ms m <? avg_duration then Factor_0_9
      else if avg_duration <? target_duration_ms m / 2 then Factor_1_2
      else Factor_1_05 in
    let new_size := scale adjustment_factor (current_batch_size m) in
    set_size (Z.min (Z.max new_size (min_batch_size m)) (max_batch_size m)) m.

Definition record_success (duration_ms rows_processed : Z) (m : AdaptiveBatchManager)
  : AdaptiveBatchManager :=
  let m := set_errors 0 m in
  let samples := recent_samples m ++ [(duration_ms, rows_processed)] in
  let samples := if (max_samples m <? length samples)%nat then tail samples else samples in
  adjust_batch_size_with_samples (set_samples samples m).

Definition record_error (m : AdaptiveBatchManager) : AdaptiveBatchManager :=
  let m := set_errors (add64 (error_count m) 1) m in
  if 3 <=? error_count m then
    let new_size := scale Factor_0_7 (current_batch_size m) in
    set_errors 0 (set_size (Z.max new_size (min_batch_size m)) m)
  else m.

(** [estimated_row_bytes] is the estimate of [estimate_row_size]. *)
Definition estimate_row_size (n_rows : nat) (memory : Z) : Z :=
  if (n_rows =? 0)%nat then 100 else memory / Z.of_nat n_rows.

Definition get_optimal_batch_size (m : AdaptiveBatchManager) (n_rows : nat) (memory : Z) : Z :=
  let estimated_row_bytes := estimate_row_size n_rows memory in
  let memory_constrained_size := target_memory_bytes m / Z.max estimated_row_bytes 1 in
  Z.max (Z.min (current_batch_size m) memory_constrained_size) (min_batch_size m).
End BatchManager.

(** ** The database *)

Inductive SqlxError := Database (code : option string) | Io | PoolTimedOut | OtherSqlx.

(** [Engine::is_retryable_db_error] *)
Definition is_retryable_db_error (err : SqlxError) : bool :=
  match err with
  | Database (Some code) =>
      existsb (String.eqb code)
        ["53300"; "53400"; "40001"; "40P01"; "08006"; "08001"; "57P03"]%string
  | Database None => false
  | Io => true
  | PoolTimedOut => true
  | OtherSqlx => false
  end.

(** The answer to one attempt: it succeeds, or it fails, after its effect or
    without it, before or after the time of the circuit breaker is over. *)
Inductive Answer :=
  | Succeeds
  | Fails (err : SqlxError) (applied : bool) (breaker : bool).

Definition max_retries : nat := 50.

(** [op.retry(policy).when(condition)] over the answers of the database, for an
    operation with the effect [f]; when the answers are used up the operation is
    still going on. *)
Fixpoint retry_op {A} (answers : list Answer) (retries : nat) (f : A → A) : stm A SqlxError unit := λ s,
  match answers with
  | [] => (OutOfFuel, s)
  | Succeeds :: _ => (Ok tt, f s)
  | Fails err applied breaker :: rest =>
      let s := if applied then f s else s in
      if negb breaker && is_retryable_db_error err then
        match retries with
        | O => (Err err, s)
        | S retries' => retry_op rest retries' f s
        end
      else (Err err, s)
  end.

(** A row as PostgreSQL holds it, with its two metadata columns; the table by
    its primary key. *)
Abbreviation Row := (list (option PgValue)).
Abbreviation Key := (Z * Z)%type.
Abbreviation Table := (gmap Key Row).

Definition row_key (r : Row) : option Key :=
  match r with
  | Some (VInt tx_id) :: Some (VInt row_index) :: _ => Some (tx_id, row_index)
  | _ => None
  end.

(** The temporary table after the COPY: the stream must be readable and its keys
    present and distinct. *)
Definition copy_into_temp (types : list PostgresType) (copy_data : bytes) : option Table :=
  rows ← copy_in types copy_data;
  keys ← mapM row_key rows;
  if decide (NoDup keys) then Some (list_to_map (zip keys rows)) else None.

(** [INSERT INTO table SELECT * FROM temp ON CONFLICT DO NOTHING] *)
Definition insert_on_conflict (temp : Table) (table : Table) : Table := table ∪ temp.

(** ** The engine *)

Inductive EngineError :=
  | ConvertToCopyFormat (e : AmpsyncError)
  | TransactionCommit (e : SqlxError)
  | TransactionBegin (e : SqlxError)
  | ExecuteDelete (e : SqlxError)
  | AddMetadata (e : AmpsyncError).

Definition of_sqlx (err : SqlxError) : EngineError :=
  match err with
  | Database _ => TransactionCommit err
  | _ => TransactionBegin err
  end.

(** The engine: the table in its database, and the batch manager, which is shared
    by the tasks of all tables. *)
Record EngineState := mkEngineState {
  es_table : Table;
  batch_manager : AdaptiveBatchManager
}.

(** What the handling of an event depends on: the answers of the database and
    the time taken, by the first row of the chunk, and the size in memory of the
    batch. *)
Record Environment := mkEnvironment {
  env_answers : nat → list Answer;
  env_durations : nat → Z;
  env_memory : Z
}.

Section Engine.
Context `{ValueCodecs}.
Context (scale : Factor → Z → Z).

(** [Engine::insert_batch_chunk]: the transaction of each attempt. A stream
    the server refuses fails every attempt with a database error. *)
Definition insert_batch_chunk (answers : list Answer) (types : list PostgresType) (batch : SchemaBatch)
  : stm Table EngineError unit := λ table,
  match to_postgres_copy batch with
  | Ok copy_data =>
      match copy_into_temp types copy_data with
      | Some temp => map_err of_sqlx (retry_op answers max_retries (insert_on_conflict temp)) table
      | None => (Err (TransactionCommit (Database (Some "22P03"%string))), table)
      end
  | Err e => (Err (ConvertToCopyFormat e), table)
  | Panic => (Panic, table)
  | OutOfFuel => (OutOfFuel, table)
  end.

(** [RecordBatch::slice] *)
Definition slice {V} (start len : nat) (xs : list V) : list V := take len (drop start xs).

Fixpoint slice_array (start len : nat) (a : Array) : Array :=
  match a with
  | BooleanArray xs => BooleanArray (slice start len xs)
  | PrimitiveArray p xs => PrimitiveArray p (slice start len xs)
  | Decimal128Array s xs => Decimal128Array s (slice start len xs)
  | Decimal256Array s xs => Decimal256Array s (slice start len xs)
  | GenericBinaryArray l xs => GenericBinaryArray l (slice start len xs)
  | FixedSizeBinaryArray n xs => FixedSizeBinaryArray n (slice start len xs)
  | GenericStringArray l xs => GenericStringArray l (slice start len xs)
  | GenericListArray l xs => GenericListArray l (slice start len xs)
  | FixedSizeListArray n xs => FixedSizeListArray n (slice start len xs)
  | StructArray validity fields => StructArray (slice start len validity) (slice_array start len <$> fields)
  | OtherArray n => OtherArray (Nat.min len (n - start))
  end.

Definition slice_batch (start len : nat) (b : SchemaBatch) : SchemaBatch :=
  mkSchemaBatch (sb_fields b)
    (mkBatch (slice_array start len <$> columns (sb_batch b)) len).

(** A chunk, its outcome recorded by the batch manager. *)
Definition tracked_chunk (answers : list Answer) (duration_ms : Z) (types : list PostgresType)
    (chunk : SchemaBatch) : stm EngineState EngineError unit := λ s,
  match insert_batch_chunk answers types chunk (es_table s) with
  | (Ok _, table) =>
      (Ok tt, mkEngineState table
                (record_success scale duration_ms (Z.of_nat (num_rows (sb_batch chunk))) (batch_manager s)))
  | (Err e, table) => (Err e, mkEngineState table (record_error scale (batch_manager s)))
  | (Panic, table) => (Panic, mkEngineState table (batch_manager s))
  | (OutOfFuel, table) => (OutOfFuel, mkEngineState table (batch_manager s))
  end.

(** The loop over the chunks. *)
Fixpoint insert_chunks (fuel : nat) (env : Environment) (types : list PostgresType)
    (batch : SchemaBatch) (optimal_batch_size start_row : nat) : stm EngineState EngineError unit :=
  match fuel with
  | O => λ s, (OutOfFuel, s)
  | S fuel' =>
      let total_rows := num_rows (sb_batch batch) in
      if (start_row <? total_rows)%nat then
        let end_row := Nat.min (start_row + optimal_batch_size) total_rows in
        let chunk := slice_batch start_row (end_row - start_row) batch in
        _ ← tracked_chunk (env_answers env start_row) (env_durations env start_row) types chunk;
        insert_chunks fuel' env types batch optimal_batch_size end_row
      else mret tt
  end.

(** [Engine::insert_batch] *)
Definition insert_batch (env : Environment) (types : list PostgresType) (batch : SchemaBatch)
  : stm EngineState EngineError unit := λ s,
  let total_rows := num_rows (sb_batch batch) in
  if (total_rows =? 0)%nat then (Ok tt, s)
  else
    let optimal_batch_size :=
      Z.to_nat (get_optimal_batch_size (batch_manager s) total_rows (env_memory env)) in
    if (total_rows <=? optimal_batch_size)%nat
    then tracked_chunk (env_answers env O) (env_durations env O) types batch s
    else insert_chunks (S total_rows) env types batch optimal_batch_size 0 s.

(** [Engine::delete_by_tx_range] *)
Definition in_tx_range (lo hi : Z) (k : Key) : bool := (to_i64 lo <=? k.1) && (k.1 <=? to_i64 hi).

Definition delete_by_tx_range (answers : list Answer) (lo hi : Z) : stm EngineState EngineError unit := λ s,
  let '(r, table) :=
    map_err ExecuteDelete
      (retry_op answers max_retries (filter (λ kr : Key * Row, in_tx_range lo hi kr.1 = false)))
      (es_table s) in
  (r, mkEngineState table (batch_manager s)).

(** ** The task *)

(** [StreamTask::handle_event], up to the commit. *)
Definition handle_event (env : Environment) (types : list PostgresType)
    (event : TransactionEvent (B := SchemaBatch)) : stm EngineState EngineError unit :=
  match event with
  | EvData id batch _ => λ s,
      match add_transaction_metadata batch id with
      | Ok batch_with_metadata => insert_batch env types batch_with_metadata s
      | Err e => (Err (AddMetadata e), s)
      | Panic => (Panic, s)
      | OutOfFuel => (OutOfFuel, s)
      end
  | EvUndo _ _ invalidate =>
      delete_by_tx_range (env_answers env O) (range_start invalidate) (range_end invalidate)
  | EvWatermark _ _ _ => mret tt
  end.
End Engine.

(** ** Restarts of a task *)

Definition MAX_RESTART_ATTEMPTS : Z := 10.
Definition INITIAL_BACKOFF_SECS : Z := 1.
Definition MAX_BACKOFF_SECS : Z := 300.

Definition calculate_backoff (restart_count : Z) : Z :=
  Z.min (Z.min u64_max (INITIAL_BACKOFF_SECS * 2 ^ Z.min (Z.max 0 (restart_count - 1)) 8))
        MAX_BACKOFF_SECS.

(** [StreamManager::run_task_with_restart] over the outcomes of the runs: the
    delays slept, and whether the task stopped cleanly or gave up. *)
Inductive TaskEnd := StoppedCleanly | ShutdownBeforeRestart | GaveUp.

Fixpoint run_task_with_restart (runs : list (bool * bool)) (restart_count : Z)
  : list Z * option TaskEnd :=
  match runs with
  | [] => ([], None)
  | (is_cancelled, ok) :: rest =>
      if is_cancelled : bool then ([], Some ShutdownBeforeRestart)
      else if ok : bool then ([], Some StoppedCleanly)
      else
        let restart_count := restart_count + 1 in
        if MAX_RESTART_ATTEMPTS <=? restart_count then ([], Some GaveUp)
        else
          let '(delays, stop) := run_task_with_restart rest restart_count in
          (calculate_backoff restart_count :: delays, stop)
  end.
