(* ===== verification/AmpsyncTask.v ===== *)
(** * AmpsyncTask

    The task of a table (bin/ampsync/src/task.rs) over the transactional stream
    (Transactional): its steps on the session of the stream and the table in
    PostgreSQL, with database errors, crashes and restarts, and that they refine
    the consumer of Transactional: the rows of the table are those of the batches
    this consumer holds. *)

From stdpp Require Import base numbers strings option list gmap fin_maps relations.
From Stdlib Require Import ZArith Lia.
From S2P Require Import Prelude Ranges BlockRange Client Transactional ClientStores PgTypes PgCopy PgFormat PgCopyCorrect Ampsync AmpsyncCorrect.

Section Task.
Context `{ValueCodecs} {S : Type} `{StateStore S}.

(** The schema of the stream, its encoder, the columns of the table, and the
    scaling of the batch size. *)
Context (fields : list Field) (self : BatchEncoder) (columns : list (string * Column)).
Context (scale : Factor → Z → Z).

#[local] Abbreviation Session := (Session (B := SchemaBatch) (S := S)).
#[local] Abbreviation Consumer := (Consumer (B := SchemaBatch) (S := S)).

(** The identifiers a column of 64-bit integers and the store can hold. *)
Definition tx_max : Z := Z.min i64_max store_id_max.

(** The batches of a stream have its schema. *)
Definition of_stream (m : ProtocolMessage (B := SchemaBatch)) : Prop :=
  match m with Data batch _ => sb_fields batch = fields | _ => True end.

#[local] Abbreviation manager_reachable := (rtc (manager_step scale) default_batch_manager).

(** [StreamTask::new] and [StreamTask::run]: the stream is opened, each event is
    handled and committed; a failing handler or commit and a crash end the task,
    which the manager starts again. The batch manager is that of all tasks, and
    starts anew with the process. Transactions stay in the range of the column
    [_tx_id]. *)
Inductive task_step : Session * EngineState → Session * EngineState → Prop :=
  | task_start s t r :
      let c := container_new s r in
      needs_rewind c = false →
      task_step (Down s, t) (Up c Idle, t)
  | task_start_rewind s t r :
      let c := container_new s r in
      needs_rewind c = true → next c < tx_max →
      task_step (Down s, t) (after_execute (execute Rewind c), t)
  | task_message c m t :
      next c < tx_max → of_stream m →
      task_step (Up c Idle, t) (after_execute (execute (Message m) c), t)
  | task_advance_only c t :
      next c < tx_max →
      task_step (Up c Idle, t) (Down (store (advance c)), t)
  | task_handle c e env t t' :
      handle_event scale env (table_types columns) e t = (Ok tt, t') →
      task_step (Up c (Emitted e), t) (Up c (Applied e), t')
  | task_fail c e env t r t' :
      handle_event scale env (table_types columns) e t = (r, t') → r ≠ Ok tt →
      task_step (Up c (Emitted e), t) (Down (store c), t')
  | task_commit c e t :
      task_step (Up c (Applied e), t) (Up (commit (event_id e) c) Idle, t)
  | task_crash c ph t :
      task_step (Up c ph, t) (Down (store c), t)
  | task_other ses t m :
      manager_reachable m →
      task_step (ses, t) (ses, mkEngineState (es_table t) m).

Definition task_init (s : S) : Session * EngineState := (Down s, mkEngineState ∅ default_batch_manager).

Definition task_reachable (y : Session * EngineState) : Prop :=
  ∃ s, store_valid s /\ store_load s = mkSnapshot [] 0 /\ rtc task_step (task_init s) y.

(** ** The rows of what a consumer holds *)

Definition rows_of (batch : SchemaBatch) : list Row :=
  match batch_values self (sb_batch batch) with Ok rows => rows | _ => [] end.

Definition expected (h : gmap TransactionId SchemaBatch) (key : Key) : option Row :=
  batch ← h !! key.1;
  if key.2 <? 0 then None
  else with_metadata key.1 (Z.to_nat key.2) <$> rows_of batch !! Z.to_nat key.2.

(** The transactions whose rows are all there and no more: up to the persisted
    watermark while the task is down, outside the range of an undo that is still
    to be handled, and all others. *)
Definition clean (ses : Session) (a : TransactionId) : Prop :=
  match ses with
  | Down s => match last (snap_buffer (store_load s)) with Some (w, _) => a <= w | None => False end
  | Up _ (Emitted (EvUndo _ _ r)) => range_contains r a = false
  | Up _ _ => True
  end.

Definition session_next (ses : Session) : TransactionId :=
  match ses with Down s => snap_next (store_load s) | Up c _ => next c end.

(** Transactions of rows are below. *)
Definition bound (ses : Session) : TransactionId :=
  match ses with Up _ (Emitted e) => event_id e | _ => session_next ses end.

Record table_ok (x : Consumer) (t : Table) : Prop := {
  tb_keys : ∀ a k, is_Some (t !! (a, k)) → 0 <= a < bound (session x);
  tb_clean : ∀ a k, clean (session x) a → t !! (a, k) = expected (held x) (a, k);
  tb_next : session_next (session x) <= i64_max;
  tb_values : ∀ a b, held x !! a = Some b → ∃ rows, batch_values self (sb_batch b) = Ok rows;
  tb_fields : match session x with Up _ (Emitted (EvData _ b _)) => sb_fields b = fields | _ => True end
}.

Definition state_ok (x : Consumer) (e : EngineState) : Prop :=
  table_ok x (es_table e) /\ manager_reachable (batch_manager e).

(** ** Events *)

Lemma manager_min m : rtc (manager_step scale) default_batch_manager m → min_batch_size m = 100.
Proof.
  revert m. apply (rtc_ind_r (λ m, min_batch_size m = 100)); [done|]. intros y z _ Hyz Hy. destruct Hyz.
  - unfold record_success, adjust_batch_size_with_samples. by case_match.
  - unfold record_error. by case_match.
Qed.

Hypotheses (Hself : batch_encoder_try_new fields = Ok self)
  (Hcols : postgres_schema self = Ok columns)
  (Henc : forallb encodable fields = true)
  (Hcount : Z.of_nat (length fields) < 32766).

(** The rows of a transaction in the table a batch was inserted into. *)
Lemma handle_data env i batch rs s r s' :
  manager_reachable (batch_manager s) → sb_fields batch = fields → 0 <= i <= i64_max →
  handle_event scale env (table_types columns) (EvData i batch rs) s = (r, s') →
  (∀ a k, a ≠ i → es_table s' !! (a, k) = es_table s !! (a, k)) /\
  manager_reachable (batch_manager s') /\
  (r = Ok tt → ∃ rows, batch_values self (sb_batch batch) = Ok rows /\
     ((∀ k, es_table s !! (i, k) = None) → ∀ k, es_table s' !! (i, k) = expected {[i := batch]} (i, k))).
Proof.
  intros Henv Hf Hi. cbn [handle_event].
  destruct (add_transaction_metadata batch i) as [b'|e| |] eqn:Hmeta; try by intros [= <- <-].
  subst fields. intros (Hout & Hman & Hdone)%(insert_batch_spec _ _ self batch columns i); try done.
  2:{ rewrite (manager_min _ Henv). lia. }
  unfold outside_tx in Hout. rewrite to_i64_id in Hout by done. split; [done|]. split; [by etrans|].
  intros (rows & Hrows & Ht)%Hdone. exists rows.
  split; [done|]. intros Hnone k. rewrite Ht, lookup_union, Hnone, rows_table_lookup, to_i64_id, Z.eqb_refl by done.
  unfold expected. cbn [fst snd andb Z.of_nat]. rewrite lookup_singleton_eq. cbn [mbind option_bind].
  unfold rows_of. change (batch_values self (sb_batch batch)) with (values_from self batch 0 (num_rows (sb_batch batch))).
  rewrite Hrows, Nat.sub_0_r, Z.leb_antisym.
  change (Z.of_nat 0) with 0. destruct (k <? 0); cbn [negb]; [done|by destruct (rows !! _)].
Qed.

Lemma handle_undo env i cause inv s r s' :
  0 <= range_start inv <= i64_max → 0 <= range_end inv <= i64_max →
  handle_event scale env (table_types columns) (EvUndo i cause inv) s = (r, s') →
  (∀ a k, range_contains inv a = false → es_table s' !! (a, k) = es_table s !! (a, k)) /\
  (∀ a k, is_Some (es_table s' !! (a, k)) → is_Some (es_table s !! (a, k))) /\
  batch_manager s' = batch_manager s /\
  (r = Ok tt → ∀ a k, range_contains inv a = true → es_table s' !! (a, k) = None).
Proof.
  intros Hlo Hhi. cbn [handle_event]. unfold delete_by_tx_range.
  destruct (map_err _ _ _) as [r1 t'] eqn:E. intros [= <- <-]. cbn [es_table batch_manager].
  apply engine_err_snd in E as (r0 & Hr & Hr0). revert Hr. generalize (es_table s) as t. intros t Hr.
  apply retry_op_once in Hr as [Hdone Hor]; [|apply delete_idem].
  assert (∀ a k, in_tx_range (range_start inv) (range_end inv) (a, k) = range_contains inv a) as Hin.
  { intros a k. unfold in_tx_range. by rewrite !to_i64_id. }
  set (f := filter _) in *.
  assert (∀ a k, range_contains inv a = false → f t !! (a, k) = t !! (a, k)) as Hkeep.
  { intros a k Ha. subst f. rewrite map_lookup_filter. destruct (t !! (a, k)); [|done]. cbn.
    rewrite option_guard_True; [done|]. by rewrite Hin. }
  split; [destruct Hor as [-> | ->]; [done|apply Hkeep]|]. split.
  - intros a k. destruct Hor as [-> | ->]; [done|]. intros [x [Hx _]%map_lookup_filter_Some]. by exists x.
  - split; [done|]. intros Hok a k Ha. rewrite (Hdone (Hr0 _ Hok)). apply map_lookup_filter_None. right.
    intros x _. cbn. by rewrite Hin, Ha.
Qed.

Lemma expected_insert h i batch a k :
  expected (<[i := batch]> h) (a, k) = if decide (i = a) then expected {[i := batch]} (a, k) else expected h (a, k).
Proof.
  unfold expected. cbn [fst]. case_decide as Ha; [subst a|].
  - by rewrite lookup_insert_eq, lookup_singleton_eq.
  - by rewrite lookup_insert_ne.
Qed.

Lemma expected_undo h inv a k :
  expected (filter (λ kv, range_contains inv kv.1 = false) h) (a, k)
  = if range_contains inv a then None else expected h (a, k).
Proof.
  unfold expected. cbn [fst]. rewrite map_lookup_filter.
  destruct (h !! a); cbn; [|by case_match]. destruct (range_contains inv a) eqn:E.
  - by rewrite option_guard_False.
  - by rewrite option_guard_True.
Qed.

Lemma expected_none h n a k : held_below n h → n <= a \/ a < 0 → expected h (a, k) = None.
Proof.
  intros Hh Ha. unfold expected. cbn [fst]. destruct (h !! a) as [b|] eqn:E; [|done].
  pose proof (Hh a (mk_is_Some _ _ E)). lia.
Qed.

(** ** Actions *)

Lemma execute_advances (a : Action (B := SchemaBatch)) (c : StateContainer (S := S)) :
  container_ok c → next c < store_id_max →
  session_next (after_execute (execute a c)) = next c + 1.
Proof.
  intros Hc Hlt. destruct (advance_ok c Hc Hlt) as [Hc1 Hn]. pose proof (ok_next _ Hc1) as Hs. rewrite Hn in Hs.
  unfold execute. destruct a as [[batch rs|prev inc inv|rs]|]; try exact Hn.
  - destruct (find_recovery_point _ inv) as [[tx rs]|]; [by destruct (is_partial rs inv)|].
    by destruct (buffer (advance c)).
  - by destruct (find_pruning_point _ _).
Qed.

Lemma execute_data (a : Action (B := SchemaBatch)) (c c' : StateContainer (S := S)) i batch rs :
  execute a c = (Ok (EvData i batch rs), c') → a = Message (Data batch rs).
Proof.
  unfold execute. destruct a as [[b rs'|prev inc inv|rs']|]; [by intros [= _ -> -> _]|..|done].
  - destruct (find_recovery_point _ inv) as [[tx rs']|]; [by destruct (is_partial rs' inv)|].
    by destruct (buffer (advance c)).
  - by destruct (find_pruning_point _ _).
Qed.

(** ** Persisted watermarks *)

Lemma persisted_last (c : StateContainer (S := S)) w rs :
  container_ok c → last (snap_buffer (store_load (store c))) = Some (w, rs) → (w, rs) ∈ buffer c.
Proof.
  intros Hc [l Hl]%last_Some. rewrite (ok_buffer c Hc), Hl. apply elem_of_app. left.
  apply elem_of_app. right. by left.
Qed.

Lemma last_id n (b : list (TransactionId * list BlockRange)) w rs :
  ids_ok n b → last b = Some (w, rs) → 0 <= w < n.
Proof.
  intros [_ Hf] [l ->]%last_Some. rewrite Forall_forall in Hf. apply (Hf (w, rs)).
  apply elem_of_app. right. by left.
Qed.

(** What is clean once the process is down was clean before. *)
Lemma clean_crash c ph h snaps a :
  client_ok (mkConsumer (Up c ph) h snaps) → clean (Down (store c)) a → clean (Up c ph) a.
Proof.
  unfold client_ok. cbn [session held snapshots clean].
  destruct ph as [|[i b rs|i cause inv|i rs p]|e]; try done.
  intros [Hc (Hn & _ & _ & _ & Hstart)]. destruct (last (snap_buffer _)) as [[w rs]|] eqn:E; [|done].
  intros Ha. apply (persisted_last c) in E; [|done].
  destruct (last (buffer c)) as [[w' rs']|] eqn:El.
  - pose proof (last_is_max _ _ _ _ _ (ok_ids c Hc) El E) as Hw. cbn in Hw.
    unfold range_contains. by rewrite (proj2 (Z.leb_gt _ _)) by lia.
  - apply last_None in El. rewrite El in E. by apply elem_of_nil in E.
Qed.

Lemma store_next c ph (h : gmap TransactionId SchemaBatch) snaps :
  client_ok (mkConsumer (Up c ph) h snaps) → session_next (Down (store c)) = next c.
Proof.
  unfold client_ok. cbn [session]. intros Hok. cbn [session_next].
  destruct ph; destruct Hok as [Hc _]; apply (ok_next c Hc).
Qed.

Lemma bound_next c ph h snaps :
  client_ok (mkConsumer (Up c ph) h snaps) → bound (Up c ph) <= next c.
Proof.
  unfold client_ok. cbn [session bound]. destruct ph; cbn [session_next]; [lia| |lia].
  intros [_ (Hn & _)]. lia.
Qed.

(** The process goes down, with the table changed where it was not clean. *)
Lemma down_ok c ph h snaps t t' :
  client_ok (mkConsumer (Up c ph) h snaps) → table_ok (mkConsumer (Up c ph) h snaps) t →
  (∀ a k, clean (Down (store c)) a → t' !! (a, k) = t !! (a, k)) →
  (∀ a k, is_Some (t' !! (a, k)) → is_Some (t !! (a, k)) \/ 0 <= a < next c) →
  table_ok (mkConsumer (Down (store c)) h snaps) t'.
Proof.
  intros Hok [Hk Hc Hn Hv Hf] Hsame Hkeys. pose proof (store_next _ _ _ _ Hok) as Hsn.
  pose proof (bound_next _ _ _ _ Hok) as Hb. cbn [session held] in *.
  split; cbn [session held bound]; try done.
  - rewrite Hsn. intros a k [?%Hk|?]%Hkeys; lia.
  - intros a k Ha. rewrite Hsame by done. apply Hc. by eapply clean_crash.
  - rewrite Hsn. done.
Qed.

(** A consumer that starts, idle or with an undo to handle. *)
Lemma message_ok c m h snaps t :
  client_ok (mkConsumer (Up c Idle) h snaps) → table_ok (mkConsumer (Up c Idle) h snaps) t →
  next c < tx_max → of_stream m →
  table_ok (mkConsumer (after_execute (execute (Message m) c)) h snaps) t.
Proof.
  intros Hok [Hk Hc Hn Hv _] Hlt Hm. cbn [session held bound session_next clean] in *.
  destruct Hok as (Hcont & Hh & Hs). cbn [held snapshots] in *. pose proof (ok_range c Hcont) as Hr.
  unfold tx_max in Hlt. assert (next c < store_id_max) as Hlt' by lia.
  pose proof (execute_advances (Message m) c Hcont Hlt') as Hnext.
  pose proof (execute_ok (Message m) c h snaps Hcont Hh Hs Hlt') as Hok'.
  destruct (execute (Message m) c) as [[e|e| |] c'] eqn:E; cbn [after_execute session_next] in *.
  2-4: split; cbn [session held bound session_next]; try done;
         [intros a k Ha%Hk; lia|by intros; apply Hc|lia].
  destruct Hok' as [_ (He & _)]. split; cbn [session held bound session_next]; try done.
  - intros a k Ha%Hk. lia.
  - intros a k _. by apply Hc.
  - lia.
  - destruct e; try done. apply execute_data in E. injection E as ->. done.
Qed.

(** What follows the last watermark at a start without rewind: nothing. *)
Lemma start_ok s r h snaps t :
  client_ok (mkConsumer (Down s) h snaps) → table_ok (mkConsumer (Down s) h snaps) t →
  needs_rewind (container_new s r) = false →
  table_ok (mkConsumer (Up (container_new s r) Idle) h snaps) t.
Proof.
  pose proof store_id_u64 as Hmax. intros (Hst & Hids & Hr & Hh & _) [Hk Hc Hn Hv _] Hrw. cbn [session held bound session_next clean] in *.
  split; cbn [session held bound session_next]; try done.
  intros a k _. unfold needs_rewind, container_watermark in Hrw. cbn [container_new buffer next] in Hrw.
  assert (a < snap_next (store_load s) → 0 <= a → t !! (a, k) = expected h (a, k)) as Hin.
  { intros Ha Ha0. apply Hc. destruct (last (snap_buffer (store_load s))) as [[w rs]|] eqn:El.
    - pose proof (last_id _ _ _ _ Hids El) as Hw.
      rewrite add64_small in Hrw by (unfold is_u64; lia). apply Z.ltb_ge in Hrw. lia.
    - apply Z.ltb_ge in Hrw. lia. }
  destruct (decide (0 <= a < snap_next (store_load s))) as [[? ?]|Hout]; [by apply Hin|].
  rewrite (expected_none h _ a k Hh) by lia. apply eq_None_not_Some. intros Ha%Hk. lia.
Qed.

Lemma start_rewind_ok s r h snaps t :
  client_ok (mkConsumer (Down s) h snaps) → table_ok (mkConsumer (Down s) h snaps) t →
  next (container_new s r) < tx_max →
  table_ok (mkConsumer (after_execute (execute Rewind (container_new s r))) h snaps) t.
Proof.
  pose proof store_id_u64 as Hmax. intros (Hst & Hids & Hr & Hh & _) [Hk Hc Hn Hv _] Hlt. cbn [session held bound session_next clean] in *.
  cbn [container_new next] in Hlt.
  assert (Hnext : add64 (snap_next (store_load s)) 1 = snap_next (store_load s) + 1).
  { apply add64_small. unfold is_u64. unfold tx_max in Hlt. lia. }
  unfold execute. cbn [after_execute]. split; cbn [session held bound event_id session_next]; try done.
  2:{ cbn [advance container_new next]. unfold tx_max in Hlt. lia. }
  intros a k Ha. cbn [clean advance container_new buffer next] in Ha.
  unfold range_contains in Ha. cbn [range_start range_end] in Ha.
  destruct (decide (0 <= a < snap_next (store_load s))) as [Hin|Hout].
  2:{ rewrite (expected_none h _ a k Hh) by lia. apply eq_None_not_Some. intros Hs%Hk. lia. }
  apply Hc. unfold saturating_sub64 in Ha. rewrite (proj2 (Z.leb_le a _)), andb_true_r in Ha by lia.
  apply Z.leb_gt in Ha. destruct (last (snap_buffer (store_load s))) as [[w rs]|] eqn:El; [|lia].
  pose proof (last_id _ _ _ _ Hids El) as Hw. rewrite add64_small in Ha by (unfold is_u64; lia). lia.
Qed.

(** ** Handled events *)

Lemma undo_bounds c i cause inv (h : gmap TransactionId SchemaBatch) snaps :
  client_ok (mkConsumer (Up c (Emitted (EvUndo i cause inv))) h snaps) → next c <= i64_max →
  (0 <= range_start inv <= i64_max) /\ (0 <= range_end inv <= i64_max).
Proof.
  intros [Hc (Hn & _ & _ & Hend & Hstart)] Hlt. cbn [event_id held snapshots] in *.
  rewrite Hend, Hstart. unfold saturating_sub64. pose proof (ok_range c Hc) as Hr.
  split; [|lia]. destruct (last (buffer c)) as [[w rs]|] eqn:El; [|unfold i64_max; lia].
  pose proof (last_id _ _ _ _ (ok_ids c Hc) El). lia.
Qed.

Lemma handle_ok c e env h snaps t t' :
  let h' := apply_event h e in
  client_ok (mkConsumer (Up c (Emitted e)) h snaps) →
  state_ok (mkConsumer (Up c (Emitted e)) h snaps) t →
  handle_event scale env (table_types columns) e t = (Ok tt, t') →
  state_ok (mkConsumer (Up c (Applied e)) h' (record_snapshot e h' snaps)) t'.
Proof.
  intros h' Hok [[Hk Hc Hn Hv Hf] Hman] Hev. pose proof Hok as [Hcont (He & Hh & Hcase)].
  cbn [session held snapshots bound session_next] in *. pose proof (ok_range c Hcont) as Hr.
  destruct e as [i batch rs|i cause inv|i rs p]; cbn [event_id clean] in *; subst h'.
  - destruct Hcase as (Hi & _). apply handle_data in Hev as (Hout & Hman' & Hdone); [|done..|lia].
    destruct (Hdone eq_refl) as (rows & Hrows & Hnew).
    assert (∀ k, es_table t !! (i, k) = None) as Hnone by (intros k; apply eq_None_not_Some; intros ?%Hk; lia).
    split; [|done]. split; cbn [session held bound session_next apply_event]; try done.
    + intros a k Ha. destruct (decide (a = i)) as [->|Hne]; [lia|]. rewrite Hout in Ha by done. apply Hk in Ha. lia.
    + intros a k _. rewrite expected_insert. case_decide as Ha; [subst a; by apply Hnew|].
      rewrite Hout by congruence. by apply Hc.
    + intros a b [[<- <-]|[_ Ha]]%lookup_insert_Some; [by exists rows|by eapply Hv].
  - destruct (undo_bounds _ _ _ _ _ _ Hok Hn) as [Hlo Hhi].
    apply handle_undo in Hev as (Hout & Hsub & Hm & Hgone); [|done..].
    split; [|by rewrite Hm]. split; cbn [session held bound session_next apply_event]; try done.
    + intros a k Ha%Hsub%Hk. lia.
    + intros a k _. rewrite expected_undo. destruct (range_contains inv a) eqn:E; [by apply Hgone|].
      rewrite Hout by done. by apply Hc.
    + intros a b [Ha _]%map_lookup_filter_Some. by eapply Hv.
  - injection Hev as <-. split; [|done]. split; cbn [session held bound session_next apply_event]; try done.
    intros a k Ha%Hk. lia.
Qed.

Lemma fail_ok c e env h snaps t r t' :
  client_ok (mkConsumer (Up c (Emitted e)) h snaps) →
  state_ok (mkConsumer (Up c (Emitted e)) h snaps) t →
  handle_event scale env (table_types columns) e t = (r, t') →
  state_ok (mkConsumer (Down (store c)) h snaps) t'.
Proof.
  intros Hok [Ht Hman] Hev. pose proof Ht as [Hk Hc Hn Hv Hf]. pose proof Hok as [Hcont (He & Hh & Hcase)].
  cbn [session held snapshots bound session_next] in *. pose proof (ok_range c Hcont) as Hr.
  assert (Hclean : ∀ a, clean (Down (store c)) a → clean (Up c (Emitted e)) a)
    by (intros a; eapply clean_crash; exact Hok).
  destruct e as [i batch rs|i cause inv|i rs p]; cbn [event_id clean] in *.
  - destruct Hcase as (Hi & Hids & _). apply handle_data in Hev as (Hout & Hman' & _); [|done..|lia].
    split; [|done]. eapply down_ok; [exact Hok|exact Ht|..].
    + intros a k Ha. apply Hout. cbn [clean] in Ha.
      destruct (last (snap_buffer _)) as [[w rs']|] eqn:El; [|done].
      apply (persisted_last c) in El; [|done]. destruct Hids as [_ Hf']. rewrite Forall_forall in Hf'.
      specialize (Hf' _ El). cbn in Hf'. lia.
    + intros a k Ha. destruct (decide (a = i)) as [->|Hne]; [right; lia|left; by rewrite <- Hout].
  - destruct (undo_bounds _ _ _ _ _ _ Hok Hn) as [Hlo Hhi].
    apply handle_undo in Hev as (Hout & Hsub & Hm & _); [|done..].
    split; [|by rewrite Hm]. eapply down_ok; [exact Hok|exact Ht|..].
    + intros a k Ha%Hclean. by apply Hout.
    + intros a k Ha. left. by apply Hsub.
  - injection Hev as <- <-. split; [|done]. eapply down_ok; [exact Hok|exact Ht|done|]. intros a k Ha. by left.
Qed.

(** ** Refinement *)

(** A step of the task is a step of the consumer, or none. *)
Lemma task_step_refines y y' h snaps :
  task_step y y' →
  client_ok (mkConsumer y.1 h snaps) → state_ok (mkConsumer y.1 h snaps) y.2 →
  ∃ h' snaps', rtc client_step (mkConsumer y.1 h snaps) (mkConsumer y'.1 h' snaps') /\
    state_ok (mkConsumer y'.1 h' snaps') y'.2.
Proof.
  intros Hstep Hok [Ht Hman].
  destruct Hstep as [s t r c Hrw|s t r c Hrw Hlt|c m t Hlt Hm|c t Hlt|c e env t t' Hev
    |c e env t r t' Hev Hr|c e t|c ph t|ses t m Hm]; cbn [fst snd] in *.
  - exists h, snaps. split; [by apply rtc_once, step_start|]. split; [by apply start_ok|done].
  - exists h, snaps. split; [apply rtc_once, step_start_rewind; [done|unfold tx_max in Hlt; subst c; cbn in *; lia]|].
    split; [by apply start_rewind_ok|done].
  - exists h, snaps. split; [apply rtc_once, step_message; unfold tx_max in Hlt; lia|]. split; [by apply message_ok|done].
  - exists h, snaps. split; [apply rtc_once, step_advance_only; unfold tx_max in Hlt; lia|]. split; [|done].
    destruct Hok as (Hcont & _). unfold tx_max in Hlt.
    destruct (advance_ok c Hcont ltac:(lia)) as [Hc1 Hnext]. pose proof (ok_next _ Hc1) as Hs. rewrite Hnext in Hs.
    destruct Ht as [Hk Hc Hn Hv _]. cbn [session held bound session_next clean] in *.
    split; cbn [session held bound session_next]; rewrite ?Hs; try done; [|by intros; apply Hc|lia].
    intros a k Ha%Hk. lia.
  - do 2 eexists. split; [apply rtc_once, step_apply|by eapply handle_ok].
  - exists h, snaps. split; [apply rtc_once, step_crash|by eapply fail_ok].
  - exists h, snaps. split; [apply rtc_once, step_commit|]. split; [|done].
    destruct Hok as (Hcont & _). destruct (commit_ok (event_id e) c Hcont) as (_ & Hn' & _).
    destruct Ht as [Hk Hc Hn Hv _]. cbn [session held bound session_next clean] in *.
    split; cbn [session held bound session_next clean]; rewrite ?Hn'; done.
  - exists h, snaps. split; [apply rtc_once, step_crash|]. split; [|done].
    eapply down_ok; [exact Hok|exact Ht|done|]. intros a k Ha. by left.
  - exists h, snaps. split; [apply rtc_refl|by split].
Qed.

Lemma task_reachable_ok y :
  task_reachable y →
  ∃ h snaps, client_reachable (mkConsumer y.1 h snaps) /\ state_ok (mkConsumer y.1 h snaps) y.2.
Proof.
  intros (s & Hst & Hs & Hr). revert y Hr.
  apply (rtc_ind_r (λ y, ∃ h snaps,
    client_reachable (mkConsumer y.1 h snaps) /\ state_ok (mkConsumer y.1 h snaps) y.2)).
  - exists ∅, ∅. split; [by exists s|]. split; [|apply rtc_refl]. cbn [task_init fst snd es_table].
    split; cbn [session held bound session_next clean]; rewrite ?Hs; cbn; try done.
    intros a k [x Hx]. by rewrite lookup_empty in Hx.
  - intros y y' _ Hstep (h & snaps & Hreach & Ht).
    destruct (task_step_refines _ _ h snaps Hstep) as (h' & snaps' & Hstep' & Ht');
      [by apply client_reachable_ok|done|].
    exists h', snaps'. split; [|done]. destruct Hreach as (s' & Hs' & Hr').
    exists s'. destruct Hr' as [? ?]. split; [done|]. split; [done|]. by etrans.
Qed.


(** ** Runs *)

Inductive TaskMove :=
  | TStart (r : Z)
  | TMessage (m : ProtocolMessage (B := RecordBatch))
  | THandle (env : Environment)
  | TCommit
  | TCrash.

Definition with_schema (m : ProtocolMessage (B := RecordBatch)) : ProtocolMessage (B := SchemaBatch) :=
  match m with
  | Data batch rs => Data (mkSchemaBatch fields batch) rs
  | WatermarkMsg rs => WatermarkMsg rs
  | Reorg previous incoming invalidation => Reorg previous incoming invalidation
  end.

(** The step of a move, where it applies. *)
Definition task_move (m : TaskMove) (y : Session * EngineState) : option (Session * EngineState) :=
  match m, y with
  | TStart r, (Down s, t) =>
      let c := container_new s r in
      if negb (needs_rewind c) then Some (Up c Idle, t)
      else if next c <? tx_max then Some (after_execute (execute Rewind c), t) else None
  | TMessage m, (Up c Idle, t) =>
      if next c <? tx_max then Some (after_execute (execute (Message (with_schema m)) c), t) else None
  | THandle env, (Up c (Emitted e), t) =>
      match handle_event scale env (table_types columns) e t with
      | (Ok tt, t') => Some (Up c (Applied e), t')
      | (_, t') => Some (Down (store c), t')
      end
  | TCommit, (Up c (Applied e), t) => Some (Up (commit (event_id e) c) Idle, t)
  | TCrash, (Up c _, t) => Some (Down (store c), t)
  | _, _ => None
  end.

Fixpoint task_run (ms : list TaskMove) (y : Session * EngineState) : option (Session * EngineState) :=
  match ms with [] => Some y | m :: ms => y' ← task_move m y; task_run ms y' end.

Lemma task_move_step m y y' : task_move m y = Some y' → task_step y y'.
Proof.
  destruct y as [[s|c ph] t]; destruct m as [r|m|env| |]; try (destruct ph as [|e|e]); try done;
    cbn -[handle_event execute]; try (intros [= <-]; by constructor).
  - destruct (needs_rewind (container_new s r)) eqn:E; cbn; [|intros [= <-]; by apply task_start].
    destruct (Z.ltb_spec (snap_next (store_load s)) tx_max); [|done]. intros [= <-]. by apply task_start_rewind.
  - destruct (Z.ltb_spec (next c) tx_max); [|done]. intros [= <-]. apply task_message; [done|by destruct m].
  - destruct (handle_event _ _ _ _ _) as [r t'] eqn:E.
    destruct r as [[]|err| |]; intros [= <-]; [by eapply task_handle|by eapply task_fail..].
Qed.

Lemma task_run_steps ms y y' : task_run ms y = Some y' → rtc task_step y y'.
Proof.
  revert y. induction ms as [|m ms IH]; intros y; cbn; [intros [= ->]; apply rtc_refl|].
  destruct (task_move m y) as [z|] eqn:E; [|done]. intros Hz%IH. eapply rtc_l; [|exact Hz].
  by eapply task_move_step.
Qed.
End Task.

(** ** A run *)

Definition demo_columns : list (string * Column) :=
  match postgres_schema demo_encoder with Ok columns => columns | _ => [] end.

Definition answering (answers : list Answer) : TaskMove :=
  THandle (mkEnvironment (λ _, answers) (λ _, 40) 1000).

(** A batch whose first commit takes effect but is answered with an error, its
    watermark, a second batch that cannot be committed although its rows are in
    the table, the restart, and the undo. *)
Definition demo_task : list TaskMove :=
  [TStart 10; TMessage (Data demo_batch [eth 1 4]); answering [Fails Io true false; Succeeds]; TCommit;
   TMessage (WatermarkMsg [eth 1 4]); answering []; TCommit;
   TMessage (Data demo_batch [eth 5 8]); answering [Fails OtherSqlx true false];
   TStart 10; answering [Succeeds]].

#[local] Existing Instance demo_codecs.
#[local] Existing Instance demo_ranges_codec.

(** The state of the stream in PostgreSQL, as ampsync keeps it. *)
#[local] Abbreviation DemoStore := (PostgresStateStore (Json := list BlockRange)).

Definition demo_start : Session (B := SchemaBatch) (S := DemoStore) * EngineState :=
  task_init (postgres_new demo_database "stream").

Definition demo_run := task_run demo_fields demo_columns demo_scale demo_task demo_start.
Definition demo_end : Session * EngineState := default demo_start demo_run.

